(* ===== verification/_CoqProject ===== *)
-Q . S2P
Prelude.v
Bits.v
Externals.v
F64.v
Proto.v
Wire.v
Storage.v
Message.v
BlockReconstruction.v
BlockReconstructionSpec.v
Limits.v
Names.v
FilterBase.v
DataSlice.v
AccountsState.v
Cuckoo.v
CuckooSet.v
Updates.v
Encode.v
SubscribeUpdate.v
EncodeSpec.v
Convert.v
ConvertSpec.v
ConvertAccepts.v
FromGeyser.v
Channels.v
ContactInfo.v
ContactInfoSpec.v
AccountsFilter.v
AccountsScan.v
AccountsMerge.v
AccountsSpec.v
TransactionsFilter.v
SimpleFilters.v
BlocksFilter.v
Filter.v
Service.v
BlockMeta.v
Pipeline.v
Plugin.v
ReconstructionLoop.v
ClientLoop.v
Subscribe.v
DeshredLoop.v
LoadAware.v
Dedup.v
Reconnect.v
Client.v
Transport.v
Window.v
Auth.v
AuthService.v
Ratelimit.v
Metered.v
Billing.v
RequestValidation.v
DuplexStream.v
Tls.v
Layers.v
FileWatcher.v
Config.v
Tcp.v
Tokens.v
Sessions.v
Tasks.v
Metrics.v
ClientBuilder.v
NodeClient.v
NodeUnary.v
NodeCuckoo.v
NodeSubscribe.v
TlsReload.v
ServerConfig.v
ServerCreate.v
PluginLoad.v
