(* ===== verification/Prelude.v ===== *)
(** * Yellowstone gRPC: a verification development

    Yellowstone gRPC is a plugin of the Solana validator that streams its events
    over gRPC (yellowstone-grpc-geyser) behind the layers of a server toolkit
    (yellowstone-grpc-tools), the protocol with its cuckoo filters
    (yellowstone-grpc-proto), a client that reconnects and resumes
    (yellowstone-grpc-client) and its Node.js bindings
    (yellowstone-grpc-client-nodejs). This library models the logic of these
    crates and proves what makes it correct. This file holds the notations, the
    tactics, the hints and the generic lemmas the components share.

    ** The program, and where it is modelled

    Paths are relative to yellowstone-grpc-geyser/src unless another crate is
    named; a definition has the name of the Rust item it translates, a method
    its type as a prefix ([Filter_new] is [Filter::new]).

    The way of an event through the server:
    - PluginLoad.v (plugin/entry.rs): loading and unloading; Plugin.v (same file):
      the callbacks of the validator, as the messages they send; FromGeyser.v (plugin/message.rs): the messages built from the
      plugin interface; Message.v: the messages; Convert.v (plugin/convert_to.rs,
      convert_from.rs): conversions to protobuf and back;
    - Pipeline.v (stream.rs, [geyser_loop] of grpc.rs): batching, the broadcast at
      level processed, and what is passed on to the reconstruction;
    - BlockReconstruction.v (block_reconstruction.rs): slots being filled, frozen
      blocks, the storage they are replayed from; ReconstructionLoop.v
      ([block_reconstruction_loop] of grpc.rs): the broadcast of ready blocks and
      the replay requests;
    - Sessions.v (the subscribe methods of grpc.rs): how a subscription is opened
      and ends; Service.v: its permit; Tokens.v: the cancellation tokens;
      ClientLoop.v, Subscribe.v, DeshredLoop.v (grpc.rs): its tasks: requests,
      the startup snapshot, the live stream and resuming from a slot; Tasks.v:
      these tasks together over their bounded channel, where a [send] that waits
      for room is a state; LoadAware.v (util/stream.rs): the counted channel of
      the outgoing stream;
    - BlockMeta.v: the block-meta storage and the unary methods; Metrics.v
      (metrics.rs): the metrics and what writes them;
    - ContactInfo.v (contact_info.rs): the gossip feed, one writer and any number
      of subscribers under one lock.

    The way of a request to the server, outside in (yellowstone-grpc-tools/src/
    server, and the files of the same topic in the plugin):
    - Tls.v (tls.rs): the certificate of a connection and the handshakes;
      Transport.v (tonic/ratelimit/transport.rs): the connections an address may
      have;
    - AuthService.v (tonic/auth/service.rs): the guard that authenticates a
      request before the service sees it; Auth.v (auth.rs, cache_ext.rs): the
      three authenticators it is used with;
    - Window.v (window.rs): the token bucket; Ratelimit.v (ratelimit.rs,
      util/uri.rs): the buckets per subscriber and method;
    - Metered.v (tonic/metered.rs, metered.rs): response bodies counted by hooks;
      Billing.v (billing.rs): the billing hooks and the task that posts events;
    - Layers.v (tonic/interceptor.rs, [build_service] of grpc.rs): the
      composition of these around the service;
    - FileWatcher.v (file_watcher.rs): the callbacks that reload what a file
      configures; TlsReload.v (grpc.rs, tls.rs): the certificates they reload;
      Tcp.v (tcp.rs): accepted connections; Config.v, ServerConfig.v (config.rs):
      the settings, their parsers and defaults; ServerCreate.v
      ([GrpcService::create] and [build_service] of grpc.rs): the set-up of all
      of these from the settings.

    What a subscription selects (plugin/filter/): Limits.v (limits.rs), Names.v
    (name.rs), FilterBase.v, DataSlice.v, AccountsState.v, AccountsFilter.v,
    TransactionsFilter.v, SimpleFilters.v, BlocksFilter.v and Filter.v
    (filter.rs); Updates.v the updates (message.rs), Encode.v their hand-written
    encoders (message.rs, encoder.rs).

    The protocol: Proto.v and SubscribeUpdate.v (geyser.proto), Storage.v
    (solana-storage.proto), Cuckoo.v and CuckooSet.v (yellowstone-grpc-proto/src/
    cuckoo), Wire.v the protobuf wire format.

    The client (yellowstone-grpc-client/src): Dedup.v (dedup.rs), Reconnect.v
    (reconnect.rs), Client.v (lib.rs), ClientBuilder.v (the builder of lib.rs and
    the connector of reconnect.rs). Its bindings (yellowstone-grpc-client-nodejs/
    napi/src): RequestValidation.v (subscribe_request_validation.rs, utils.rs),
    DuplexStream.v (lib.rs), NodeClient.v (utils.rs, bindings.rs): a client from
    its options, NodeSubscribe.v (lib.rs): from the writes to the wire, NodeUnary.v
    (client.rs): the unary methods against the server's, NodeCuckoo.v (cuckoo.rs):
    the set of keys.

    Third-party code is a parameter: Externals.v (keys, SipHash, base58, prost's
    primitives), [Prost] with its laws in Wire.v, [Wincode] in Convert.v, the
    tokio channels with their laws in Channels.v, the block machine with its
    laws in BlockReconstruction.v, [Http] in Auth.v, [WrappedStream] in
    DuplexStream.v, the cancellation tokens with their laws in Tokens.v, tonic's
    endpoints and generated clients in ClientBuilder.v ([Tonic]) and NodeUnary.v
    ([GeyserCalls]), rustls and the files it reads in TlsReload.v ([CertFiles])
    and ServerCreate.v, sockets in Tcp.v and ServerCreate.v; doubles and durations, which are the language's, are defined
    in F64.v over the Standard Library's IEEE 754 floats. Small concrete instances show that the laws
    can hold and run the examples.

    ** How the code is represented

    Machine integers are in [Z] with the wrap-around of the release profile
    written out ([wrap64], [saturating_add]); byte arrays are lists of bytes;
    hash maps are [gmap]s, or association lists where the iteration order or the
    stored keys matter (a statement over all lists holds for every order).
    [Arc<T>] is its value; the lazily filled cells of shared messages are fields
    that the code filling them threads. A panic is [Panic] of the monad
    [outcome], an [Err] is [Err] of [result]. A task that waits is a step
    function or a step relation whose steps end where another task can run; a
    stream or a channel that is polled is the list of what its polls return.
    Loops whose end is not structural take fuel, and a theorem says that enough
    fuel exists and more changes nothing ([add_total], [reconstruction_batch_spec],
    [geyser_loop_forwards] with the length of the queue, the retry loop with
    [max_retries]), or the fuel is a bound on the iterations that is proved
    enough where it is used: the 64 bits of a word in Bits.v, the entries of the
    map in [gc_loop], the summed lengths in the merges of AccountsFilter.v, the
    500 kicks the code itself allows in Cuckoo.v, 20 digits for a [u64], three
    states of a guarded call ([POLL_FUEL]), the events and handshakes at hand in
    [sink_fuel] and [TlsIncoming_poll_next].

    ** What is proved

    - Filtering (Filter.v, AccountsSpec.v over AccountsScan.v and AccountsMerge.v,
      TransactionsFilter.v, SimpleFilters.v, BlocksFilter.v): an accepted request
      receives each message under exactly the names that ask for it; the five
      account-matching strategies agree with a linear scan; building a filter
      stays within the operator's limits; the parts ([FilterAccountsState], data
      slices) compute what they denote without panic.
    - Encoding and conversion (EncodeSpec.v, ConvertSpec.v, ConvertAccepts.v,
      FromGeyser.v): the hand-written encoders write the protobuf message the
      update stands for; round trips of transactions and metadata; a block of
      messages converts back exactly when it is well-formed, and to something
      stable.
    - Blocks (BlockReconstructionSpec.v, ReconstructionLoop.v): a block has its
      slot's data and the last write of each account; the storage's invariant,
      pruning, the delivery of a frozen block with each status of its slot;
      content is broadcast before the status that commits to it.
    - The streams (Pipeline.v, Plugin.v, ClientLoop.v, Subscribe.v, DeshredLoop.v):
      nothing is lost, repeated or reordered on the way from the callbacks to a
      subscriber that keeps up, what ends a stream, and how it is resumed.
    - Shared state (Service.v, BlockMeta.v, ContactInfoSpec.v, LoadAware.v): permits
      are counted, the unary methods answer from the messages stored, a gossip
      subscriber sees the table after a prefix of the changes under every
      interleaving.
    - Cuckoo.v, CuckooSet.v: the filter refines a multiset and the set that builds
      it a mathematical set; the wire form round-trips.
    - The client (Dedup.v, Reconnect.v, Client.v): no payload twice, a replayed
      slot is completed exactly, the reconnecting stream is fused and resumes
      where the code promises, retries are bounded.
    - The layers (Transport.v, AuthService.v, Auth.v, Window.v, Ratelimit.v,
      Metered.v, Billing.v, Layers.v, Tls.v): what is refused does not reach the
      service, is not metered and not billed; permits, buckets and active bodies
      are counted exactly, the connections of listeners without TLS are limited;
      what goes out is billed exactly, every event is posted, and the task that
      posts them ends.
    - Sessions (Sessions.v, Tasks.v, Metrics.v): a subscription is refused exactly
      when it must be, ends alone, and its tasks can all end with it, by
      themselves unless they wait for room in the channel of a client that keeps
      its receiver; the gauges count what is alive.
    - Configuration (FileWatcher.v, Config.v, TlsReload.v, ServerCreate.v,
      PluginLoad.v): which events reach which callbacks under every interleaving;
      which texts the parsers accept and what they mean; a listener has its own
      certificates, authenticator, rate limit and billing, with the settings of
      its entry, and follows its files; a load that failed or was unloaded leaves
      nothing running.
    - The bindings (RequestValidation.v, DuplexStream.v, NodeSubscribe.v,
      NodeClient.v, NodeUnary.v, NodeCuckoo.v): which requests are accepted and
      what reaches the server, reconnections included, that concurrent reads of one stream never strand
      each other, what the options come to, what a unary method answers, and that
      the set of keys is a set. ClientBuilder.v: the last
      call of the builder counts, and a reconnection of a client connected to the
      builder's address is like the first connection.

    Where the code does not do what its comments or its purpose say, the
    behaviour is proved as it is: [sink_loses_block_metas],
    [account_merge_drops_matches], [blocks_entries_limit_ignored],
    [cuckoo_failed_insert_loses_item], [data_slice_overflow_panics],
    [memcmp_overflow_panics], [dedup_sealed_slots_unbounded],
    [startup_completion_missed], [queue_size_underflows], [transport_lockout],
    [tls_connections_unlimited], [forwarded_header_panics],
    [zero_limit_poisons_service], [idle_timeout_resets_limit],
    [accepted_multiplier_panics], [deshred_session_name],
    [deshred_queue_size_not_served], [legacy_tls_ignored], [uds_not_resumed],
    [blocked_tasks_stay], the
    dropped commitment of [node_unary_answers], and the third case of
    [client_resume_spec].

    ** Not modelled

    Logs, and the page that serves the metrics. [serve_listener] and tonic's server, the HTTP client, PEM and
    X.509 parsing, tokio's runtime: third-party code. What serde derives for the
    configuration. In the client: the deshred and gossip streams, the health
    calls and the test-only connectors, which only forward to tonic. In the
    Node.js bindings: what only converts to napi types, [capacity] of the set of
    keys, the encoders of transactions. The iterator and the capacity of the
    cuckoo set. The examples and the end-to-end tests. *)

From stdpp Require Export base decidable option list gmap gmultiset strings numbers sorting.
From Stdlib Require Import Strings.Byte.
From Stdlib Require Export ZArith Lia.

Set Default Goal Selector "!".

Create HintDb yellowstone.
Create Rewrite HintDb yellowstone.

(** ** Bytes, keys and machine integers *)

Abbreviation byte := Byte.byte.
Abbreviation bytes := (list Byte.byte).

#[global] Instance byte_eq_decision : EqDecision byte := Byte.byte_eq_dec.

#[global] Instance byte_countable : Countable byte.
Proof. apply (inj_countable Byte.to_N Byte.of_N). apply Byte.of_to_N. Defined.

(** Public keys and signatures are fixed-size byte arrays (32 and 64 bytes). *)
Abbreviation Pubkey := (list Byte.byte).
Abbreviation Signature := (list Byte.byte).

(** Machine integers are integers of [Z]; the wrap-around of the release
    profile (no overflow checks) is written out where the code can overflow.
    [usize] is 64 bits wide. *)
Definition u64_max : Z := 2 ^ 64 - 1.

Definition usize_max : Z := 2 ^ 64 - 1.

Definition isize_max : Z := 2 ^ 63 - 1.

Definition wrap64 (z : Z) : Z := z mod 2 ^ 64.

Definition saturating_add (a b : Z) : Z := Z.min (a + b) usize_max.

Definition saturating_mul (a b : Z) : Z := Z.min (a * b) usize_max.

(** [u64::saturating_sub]. *)
Definition saturating_sub (a b : Z) : Z := Z.max (a - b) 0.

Definition len {A} (l : list A) : Z := Z.of_nat (length l).

Lemma len_app {A} (l1 l2 : list A) : len (l1 ++ l2) = (len l1 + len l2)%Z.
Proof. unfold len. rewrite length_app. lia. Qed.

Lemma len_nonneg {A} (l : list A) : (0 <= len l)%Z.
Proof. unfold len. lia. Qed.

Definition bytes_of_Z (z : Z) : byte :=
  match Byte.of_N (Z.to_N (z mod 256)) with
  | Some b => b
  | None => Byte.x00
  end.

Definition Z_of_byte (b : byte) : Z := Z.of_N (Byte.to_N b).

Lemma Z_of_byte_range b : (0 <= Z_of_byte b < 256)%Z.
Proof.
  unfold Z_of_byte. pose proof (Byte.to_N_bounded b). lia.
Qed.

Lemma bytes_of_Z_of_byte b : bytes_of_Z (Z_of_byte b) = b.
Proof.
  pose proof (Z_of_byte_range b). unfold bytes_of_Z.
  rewrite Z.mod_small by done. unfold Z_of_byte. by rewrite N2Z.id, Byte.of_to_N.
Qed.

Lemma Z_of_byte_of_Z z : Z_of_byte (bytes_of_Z z) = (z mod 256)%Z.
Proof.
  assert (0 <= z mod 256 < 256)%Z as Hr by (apply Z.mod_pos_bound; lia).
  unfold bytes_of_Z, Z_of_byte.
  destruct (Byte.of_N (Z.to_N (z mod 256))) as [b|] eqn:E.
  - apply Byte.to_of_N in E. rewrite E. lia.
  - apply Byte.of_N_None_iff in E. lia.
Qed.

(** ** Results, panics and the monads the code is written in *)

(** [Result<A, E>]. *)
Inductive result (E A : Type) : Type :=
| Ok (a : A)
| Err (e : E).
Arguments Ok {E A} a.
Arguments Err {E A} e.

#[global] Instance result_ret E : MRet (result E) := λ A a, Ok a.
#[global] Instance result_bind E : MBind (result E) := λ A B f m,
  match m with Ok a => f a | Err e => Err e end.
#[global] Instance result_fmap E : FMap (result E) := λ A B f m,
  match m with Ok a => Ok (f a) | Err e => Err e end.

Definition is_ok {E A} (r : result E A) : bool :=
  match r with Ok _ => true | Err _ => false end.

(** [Result::map_err]. *)
Definition map_err {E F A} (f : E → F) (r : result E A) : result F A :=
  match r with Ok a => Ok a | Err e => Err (f e) end.

(** [std::task::Poll]. *)
Inductive Poll (T : Type) :=
| Pending
| Ready (t : T).
Arguments Pending {T}.
Arguments Ready {T} t.

(** A computation of the program either completes or panics (an index out of
    bounds, a slice whose start is past its end, an [expect]). *)
Inductive outcome (A : Type) : Type :=
| Done (a : A)
| Panic.
Arguments Done {A} a.
Arguments Panic {A}.

#[global] Instance outcome_ret : MRet outcome := λ A a, Done a.
#[global] Instance outcome_bind : MBind outcome := λ A B f m,
  match m with Done a => f a | Panic => Panic end.
#[global] Instance outcome_fmap : FMap outcome := λ A B f m,
  match m with Done a => Done (f a) | Panic => Panic end.

Lemma outcome_bind_assoc {A B C} (m : outcome A) (f : A → outcome B) (g : B → outcome C) :
  (m ≫= f) ≫= g = m ≫= (λ a, f a ≫= g).
Proof. by destruct m. Qed.

Lemma outcome_bind_done {A B} (a : A) (f : A → outcome B) : (Done a ≫= f) = f a.
Proof. done. Qed.

Lemma outcome_bind_ret {A} (m : outcome A) : (m ≫= Done) = m.
Proof. by destruct m. Qed.

Lemma outcome_bind_ext {A B} (m : outcome A) (f g : A → outcome B) :
  (∀ a, f a = g a) → m ≫= f = m ≫= g.
Proof. intros H. destruct m; [apply H|done]. Qed.

(** Indexing a vector: [v[i]] panics out of bounds. *)
Definition vec_index {A} (v : list A) (i : nat) : outcome A :=
  match v !! i with Some a => Done a | None => Panic end.

Lemma vec_index_lookup {A} (v : list A) i a : v !! i = Some a → vec_index v i = Done a.
Proof. intros H. unfold vec_index. by rewrite H. Qed.

(** A left-to-right loop whose body may panic. *)
Fixpoint foldM {A S} (f : S → A → outcome S) (s : S) (l : list A) : outcome S :=
  match l with
  | [] => Done s
  | a :: l => f s a ≫= λ s, foldM f s l
  end.

(** [iter().filter_map(f).collect()] for a closure that may panic. *)
Fixpoint filter_mapM {A B} (f : A → outcome (option B)) (l : list A) : outcome (list B) :=
  match l with
  | [] => Done []
  | a :: l =>
      f a ≫= λ o, filter_mapM f l ≫= λ bs,
      Done (match o with Some b => b :: bs | None => bs end)
  end.

(** [iter().any(f)] for a predicate that may panic. *)
Fixpoint anyM {A} (f : A → outcome bool) (l : list A) : outcome bool :=
  match l with
  | [] => Done false
  | a :: l => f a ≫= λ b : bool, if b then Done true else anyM f l
  end.

(** [iter().any(f)] and [iter().all(f)]. *)
Abbreviation any := existsb.
Abbreviation all := forallb.

(** [collect::<Result<Vec<_>, _>>()]: stops at the first error. *)
Fixpoint collect_result {E A} (l : list (result E A)) : result E (list A) :=
  match l with
  | [] => Ok []
  | r :: l => a ← r; l ← collect_result l; Ok (a :: l)
  end.

Lemma collect_result_ok {E A} (l : list (result E A)) l' :
  collect_result l = Ok l' ↔ l = Ok <$> l'.
Proof.
  revert l'. induction l as [|r l IH]; intros l'; simpl.
  - split; [by intros [= <-]|]. by destruct l'.
  - destruct r as [a|e]; simpl.
    + destruct (collect_result l) as [k|e] eqn:Hc; simpl.
      * destruct l' as [|a' l']; simpl; [done|].
        pose proof (proj1 (IH k) eq_refl) as H. split.
        { intros [= <- <-]. simpl. by rewrite H. }
        { intros [= <- Hl]. apply IH in Hl. by simplify_eq. }
      * split; [done|]. destruct l' as [|a' l']; [done|]. simpl.
        intros [= <- Hl]. by apply IH in Hl.
    + split; [done|]. by destruct l'.
Qed.

(** The tactic used throughout to invert hypotheses about completed
    computations and open the binds of the three monads. *)
Ltac inv_done :=
  repeat match goal with
  | H : Done _ = Done _ |- _ => injection H as H; subst
  | H : Ok _ = Ok _ |- _ => injection H as H; subst
  | H : Err _ = Err _ |- _ => injection H as H; subst
  | H : Done _ = Panic |- _ => discriminate H
  | H : Panic = Done _ |- _ => discriminate H
  | H : Ok _ = Err _ |- _ => discriminate H
  | H : Err _ = Ok _ |- _ => discriminate H
  end.

(** ** Lists *)

Lemma filter_mapM_app {A B} (f : A → outcome (option B)) l1 l2 :
  filter_mapM f (l1 ++ l2) =
  filter_mapM f l1 ≫= λ b1, filter_mapM f l2 ≫= λ b2, Done (b1 ++ b2).
Proof.
  induction l1 as [|a l1 IH]; simpl; [by destruct (filter_mapM f l2)|].
  destruct (f a) as [o|]; simpl; [|done]. rewrite IH.
  destruct (filter_mapM f l1); simpl; [|done].
  destruct (filter_mapM f l2); simpl; [|done]. by destruct o.
Qed.

Lemma filter_mapM_ext {A B} (f g : A → outcome (option B)) l :
  (∀ x, x ∈ l → f x = g x) → filter_mapM f l = filter_mapM g l.
Proof.
  intros Hfg. induction l as [|a l IH]; simpl; [done|].
  rewrite Hfg by set_solver. apply outcome_bind_ext; intros o.
  rewrite IH; [done|]. set_solver.
Qed.

(** Elements on which the closure yields [None] can be skipped. *)
Lemma filter_mapM_filter {A B} (f : A → outcome (option B)) (P : A → Prop)
    `{!∀ x, Decision (P x)} l :
  (∀ x, x ∈ l → ¬ P x → f x = Done None) →
  filter_mapM f (filter P l) = filter_mapM f l.
Proof.
  intros Hf. induction l as [|a l IH]; simpl; [done|].
  rewrite filter_cons. case_decide.
  - simpl. rewrite IH by set_solver. done.
  - rewrite IH by set_solver. rewrite (Hf a) by set_solver. simpl.
    by destruct (filter_mapM f l).
Qed.

Lemma filter_mapM_pure {A B} (f : A → option B) l :
  filter_mapM (λ x, Done (f x)) l = Done (omap f l).
Proof. induction l as [|a l IH]; simpl; [done|]. rewrite IH. simpl. by destruct (f a). Qed.

Lemma filter_mapM_fmap {A B C} (f : B → outcome (option C)) (g : A → B) l :
  filter_mapM f (g <$> l) = filter_mapM (λ x, f (g x)) l.
Proof.
  induction l as [|a l IH]; csimpl; [done|]. by rewrite IH.
Qed.

Lemma foldM_app {A S} (f : S → A → outcome S) s l1 l2 :
  foldM f s (l1 ++ l2) = foldM f s l1 ≫= λ s, foldM f s l2.
Proof.
  revert s. induction l1 as [|a l1 IH]; intros s; simpl; [done|].
  destruct (f s a); simpl; [apply IH|done].
Qed.

(** Invariant rule for loops: an invariant indexed by the processed prefix. *)
Lemma foldM_ind {A S} (I : list A → S → Prop) (f : S → A → outcome S) s l :
  I [] s →
  (∀ pre a post s, l = pre ++ a :: post → I pre s →
     ∃ s', f s a = Done s' ∧ I (pre ++ [a]) s') →
  ∃ s', foldM f s l = Done s' ∧ I l s'.
Proof.
  intros H0 Hstep.
  cut (∀ post pre s, l = pre ++ post → I pre s →
    ∃ s', foldM f s post = Done s' ∧ I l s').
  { intros H. by apply (H l []). }
  induction post as [|a post IH]; intros pre s' -> HI; simpl.
  - exists s'. split; [done|]. by rewrite app_nil_r.
  - destruct (Hstep pre a post s' eq_refl HI) as (s'' & -> & HI').
    simpl. apply (IH (pre ++ [a])); [by rewrite <- app_assoc|done].
Qed.

Lemma existsb_In {A} (f : A → bool) (l : list A) :
  existsb f l = true ↔ ∃ x, x ∈ l ∧ f x = true.
Proof.
  rewrite existsb_exists. split; intros (x & Hx & Hf); exists x;
    by rewrite list_elem_of_In in *.
Qed.

Lemma forallb_In {A} (f : A → bool) (l : list A) :
  forallb f l = true ↔ ∀ x, x ∈ l → f x = true.
Proof.
  rewrite forallb_forall. split; intros H x Hx; apply H; by apply list_elem_of_In.
Qed.

Lemma anyM_total {A} (f : A → outcome bool) l :
  (∀ x, x ∈ l → ∃ b, f x = Done b) →
  ∃ b, anyM f l = Done b ∧ (b = true ↔ ∃ x, x ∈ l ∧ f x = Done true).
Proof.
  intros H. induction l as [|a l IH]; simpl.
  { exists false. split; [done|]. split; [done|]. intros (x & Hx & _). by apply elem_of_nil in Hx. }
  destruct (H a) as [b Hb]; [by left|]. rewrite Hb. simpl. destruct b.
  - exists true. split; [done|]. split; [|done]. intros _. exists a. split; [by left|done].
  - destruct IH as (b & -> & Hiff); [intros x Hx; apply H; by right|].
    exists b. split; [done|]. rewrite Hiff. split.
    + intros (x & ? & ?). exists x. split; [by right|done].
    + intros (x & [->|?]%elem_of_cons & Hx); [|eauto]. rewrite Hb in Hx. by injection Hx.
Qed.

Lemma existsb_ext_In {A} (f g : A → bool) l :
  (∀ x, x ∈ l → f x = g x) → existsb f l = existsb g l.
Proof.
  intros H. induction l as [|a l IH]; simpl; [done|]. rewrite H by set_solver. f_equal.
  apply IH. set_solver.
Qed.

(** Strictly increasing lists of indices. *)
Definition increasing (l : list nat) : Prop := StronglySorted lt l.

Lemma increasing_cons_inv a l : increasing (a :: l) → increasing l ∧ ∀ x, x ∈ l → a < x.
Proof.
  intros H. apply StronglySorted_inv in H as [H1 H2]. split; [done|].
  by rewrite Forall_forall in H2.
Qed.

Lemma increasing_seq i n : increasing (seq i n).
Proof.
  revert i. induction n as [|n IH]; intros i; simpl; constructor; [apply IH|].
  apply Forall_forall. intros x Hx%elem_of_seq. lia.
Qed.

Lemma increasing_filter P `{!∀ x, Decision (P x)} l : increasing l → increasing (filter P l).
Proof.
  induction l as [|a l IH]; intros Hl; [constructor|].
  apply increasing_cons_inv in Hl as [H1 H2].
  rewrite filter_cons. case_decide; [|by apply IH].
  constructor; [by apply IH|]. apply Forall_forall. intros x [_ Hx]%list_elem_of_filter. auto.
Qed.

Lemma increasing_snoc l a :
  increasing l → (∀ x, x ∈ l → x < a) → increasing (l ++ [a]).
Proof.
  induction l as [|b l IH]; intros H1 H2; simpl; [repeat constructor|].
  apply increasing_cons_inv in H1 as [H1 H3]. constructor.
  - apply IH; [done|]. set_solver.
  - apply Forall_forall. intros x. rewrite elem_of_app, list_elem_of_singleton.
    intros [Hx| ->]; [by apply H3|]. set_solver.
Qed.

(** Two increasing lists with the same elements are equal. *)
Lemma increasing_ext l1 l2 :
  increasing l1 → increasing l2 → (∀ x, x ∈ l1 ↔ x ∈ l2) → l1 = l2.
Proof.
  revert l2. induction l1 as [|a l1 IH]; intros [|b l2] H1 H2 Hiff.
  - done.
  - exfalso. apply (not_elem_of_nil b), Hiff. by left.
  - exfalso. apply (not_elem_of_nil a), Hiff. by left.
  - apply increasing_cons_inv in H1 as [H1 Ha], H2 as [H2 Hb].
    assert (a = b) as ->.
    { assert (a ∈ b :: l2) as Hab by (apply Hiff; by left).
      assert (b ∈ a :: l1) as Hba by (apply Hiff; by left).
      apply elem_of_cons in Hab as [->|Hab]; [done|].
      apply elem_of_cons in Hba as [->|Hba]; [done|].
      apply Hb in Hab. apply Ha in Hba. lia. }
    f_equal. apply IH; [done|done|]. intros x. split; intros Hx.
    + assert (x ∈ b :: l2) as Hx' by (apply Hiff; by right).
      apply elem_of_cons in Hx' as [->|?]; [|done]. apply Ha in Hx. lia.
    + assert (x ∈ b :: l1) as Hx' by (apply Hiff; by right).
      apply elem_of_cons in Hx' as [->|?]; [|done]. apply Hb in Hx. lia.
Qed.

Lemma filter_all_id {A} (P : A → Prop) `{!∀ x, Decision (P x)} (l : list A) : Forall P l → filter P l = l.
Proof. induction 1 as [|x l Hx _ IH]; [done|]. rewrite filter_cons, decide_True by done. by rewrite IH. Qed.

