(* ===== verification/Bits.v ===== *)
(** * Bit-level facts about 64-bit words

    [trailing_zeros] and the lowest-set-bit loop
    [while c != 0 { b = c.trailing_zeros(); ...; c &= c - 1 }] of the account
    index (filter.rs), with the lemma that the loop visits exactly the set bits,
    in increasing order. *)

From S2P Require Import Prelude.

Set Default Goal Selector "!".

Local Open Scope Z_scope.

Fixpoint pos_trailing_zeros (p : positive) : nat :=
  match p with
  | xO q => S (pos_trailing_zeros q)
  | _ => O
  end.

(** [u64::trailing_zeros]: 64 on zero. *)
Definition trailing_zeros (w : Z) : nat :=
  match w with
  | Zpos p => pos_trailing_zeros p
  | _ => 64%nat
  end.

(** The bit indices visited by the loop, with [fuel] iterations at most. *)
Fixpoint visit_bits (fuel : nat) (w : Z) : list nat :=
  match fuel with
  | O => []
  | S fuel =>
      if w =? 0 then []
      else trailing_zeros w :: visit_bits fuel (Z.land w (w - 1))
  end.

(** The positions of the set bits of a word below [n], in increasing order. *)
Definition set_bits (n : nat) (w : Z) : list nat :=
  filter (λ i, Z.testbit w (Z.of_nat i) = true) (seq 0 n).

Lemma trailing_zeros_spec w : 0 < w →
  ∃ m, w = (2 * m + 1) * 2 ^ Z.of_nat (trailing_zeros w) ∧ 0 <= m.
Proof.
  destruct w as [|p|p]; [lia| |lia]. intros _. simpl.
  induction p as [p IH|p IH|]; simpl pos_trailing_zeros.
  - exists (Zpos p). rewrite Z.pow_0_r. lia.
  - destruct IH as (m & Hm & ?). exists m. split; [|done].
    rewrite Nat2Z.inj_succ, Z.pow_succ_r by lia. lia.
  - exists 0. done.
Qed.

Lemma testbit_scaled m k i : 0 <= k → 0 <= i →
  Z.testbit (m * 2 ^ k) i = if decide (i < k) then false else Z.testbit m (i - k).
Proof.
  intros Hk Hi. case_decide.
  - by apply Z.mul_pow2_bits_low.
  - by apply Z.mul_pow2_bits.
Qed.

(** [w & (w - 1)] clears the lowest set bit and leaves the others. *)
Lemma testbit_clear_lowest w i : 0 < w →
  Z.testbit (Z.land w (w - 1)) (Z.of_nat i) =
  if decide (i = trailing_zeros w) then false else Z.testbit w (Z.of_nat i).
Proof.
  intros Hw. destruct (trailing_zeros_spec w Hw) as (m & Hm & Hm0).
  set (k := trailing_zeros w) in *. clearbody k.
  rewrite Z.land_spec.
  replace (w - 1) with ((2 * m) * 2 ^ Z.of_nat k + Z.ones (Z.of_nat k))
    by (rewrite Z.ones_equiv; lia).
  assert (Z.land (2 * m * 2 ^ Z.of_nat k) (Z.ones (Z.of_nat k)) = 0) as Hdisj.
  { rewrite Z.land_ones by lia. apply Z.mod_mul. lia. }
  rewrite Z.add_nocarry_lxor, Z.lxor_spec by done.
  rewrite Hm, !testbit_scaled by lia. rewrite Z.testbit_ones_nonneg by lia.
  destruct (decide (i = k)) as [->|Hne].
  - rewrite !decide_False by lia. rewrite Z.sub_diag, Z.testbit_even_0, Z.testbit_odd_0.
    destruct (Z.ltb_spec (Z.of_nat k) (Z.of_nat k)); [lia|done].
  - destruct (decide (Z.of_nat i < Z.of_nat k)).
    + done.
    + destruct (Z.ltb_spec (Z.of_nat i) (Z.of_nat k)); [lia|].
      rewrite Bool.xorb_false_r.
      replace (Z.of_nat i - Z.of_nat k) with (Z.succ (Z.pred (Z.of_nat i - Z.of_nat k))) by lia.
      rewrite Z.testbit_even_succ, Z.testbit_odd_succ by lia.
      by destruct (Z.testbit m _).
Qed.

Lemma testbit_trailing_zeros w : 0 < w → Z.testbit w (Z.of_nat (trailing_zeros w)) = true.
Proof.
  intros Hw. destruct (trailing_zeros_spec w Hw) as (m & Hm & Hm0).
  rewrite Hm at 1. rewrite testbit_scaled by lia. case_decide; [lia|].
  rewrite Z.sub_diag. apply Z.testbit_odd_0.
Qed.

Lemma testbit_below_trailing_zeros w i : 0 < w → (i < trailing_zeros w)%nat →
  Z.testbit w (Z.of_nat i) = false.
Proof.
  intros Hw Hi. destruct (trailing_zeros_spec w Hw) as (m & Hm & Hm0).
  rewrite Hm at 1. rewrite testbit_scaled by lia. case_decide; [done|lia].
Qed.

Lemma land_pred_range w : 0 < w → 0 <= Z.land w (w - 1).
Proof. intros. apply Z.land_nonneg. lia. Qed.

(** Words of [n] bits, given by their bits. *)
Definition word_bits (n : nat) (w : Z) : Prop :=
  0 <= w ∧ ∀ i, (n <= i)%nat → Z.testbit w (Z.of_nat i) = false.

Lemma word_bits_lt w : 0 <= w < 2 ^ 64 → word_bits 64 w.
Proof.
  intros Hw. split; [lia|]. intros i Hi. destruct (decide (w = 0)) as [->|]; [apply Z.bits_0|].
  apply Z.bits_above_log2; [lia|]. assert (Z.log2 w < 64); [|lia].
  apply Z.log2_lt_pow2; lia.
Qed.

Lemma word_bits_lor n a b : word_bits n a → word_bits n b → word_bits n (Z.lor a b).
Proof.
  intros [? Ha] [? Hb]. split; [by apply Z.lor_nonneg|]. intros i Hi.
  by rewrite Z.lor_spec, Ha, Hb.
Qed.

Lemma word_bits_land n a b : word_bits n a → word_bits n b → word_bits n (Z.land a b).
Proof.
  intros [? Ha] [? Hb]. split; [apply Z.land_nonneg; by left|]. intros i Hi.
  by rewrite Z.land_spec, Ha.
Qed.

Lemma word_bits_0 n : word_bits n 0.
Proof. split; [done|]. intros. apply Z.bits_0. Qed.

Lemma word_bits_single n i : (i < n)%nat → word_bits n (Z.shiftl 1 (Z.of_nat i)).
Proof.
  intros Hi. split; [by apply Z.shiftl_nonneg|]. intros j Hj.
  rewrite Z.shiftl_spec by lia. destruct (Z.of_nat j - Z.of_nat i) eqn:E; [lia|done|done].
Qed.

Lemma testbit_single i j :
  Z.testbit (Z.shiftl 1 (Z.of_nat i)) (Z.of_nat j) = bool_decide (i = j).
Proof.
  rewrite Z.shiftl_spec by lia. destruct (Z.of_nat j - Z.of_nat i) eqn:E.
  - rewrite bool_decide_true by lia. done.
  - rewrite bool_decide_false by lia. done.
  - rewrite bool_decide_false by lia. done.
Qed.

(** Testing one bit with a mask, as the code does: [w & (1 << i) != 0]. *)
Lemma land_single_nonzero w i :
  negb (Z.land w (Z.shiftl 1 (Z.of_nat i)) =? 0) = Z.testbit w (Z.of_nat i).
Proof.
  destruct (Z.testbit w (Z.of_nat i)) eqn:E.
  - apply negb_true_iff, Z.eqb_neq. intros H.
    assert (Z.testbit (Z.land w (Z.shiftl 1 (Z.of_nat i))) (Z.of_nat i) = true) as Ht
      by (rewrite Z.land_spec, E, testbit_single; by rewrite bool_decide_true).
    by rewrite H, Z.bits_0 in Ht.
  - apply negb_false_iff, Z.eqb_eq. apply Z.bits_inj'. intros j Hj.
    rewrite Z.bits_0, Z.land_spec.
    replace j with (Z.of_nat (Z.to_nat j)) by lia. rewrite testbit_single.
    case_bool_decide as Heq; [|by rewrite andb_false_r]. by rewrite <- Heq, E.
Qed.

Lemma word_bits_neq_0 n w : word_bits n w → w ≠ 0 →
  ∃ i, (i < n)%nat ∧ Z.testbit w (Z.of_nat i) = true.
Proof.
  intros [H0 Hn] Hw. exists (trailing_zeros w).
  assert (Z.testbit w (Z.of_nat (trailing_zeros w)) = true) as Ht
    by (apply testbit_trailing_zeros; lia).
  split; [|done]. destruct (decide (trailing_zeros w < n)%nat); [done|].
  rewrite Hn in Ht by lia. done.
Qed.

(** The loop visits the set bits in increasing order; as many iterations as the
    word has bits are enough. *)
Lemma visit_bits_set_bits_aux n fuel w : word_bits n w →
  (length (set_bits n w) <= fuel)%nat → visit_bits fuel w = set_bits n w.
Proof.
  revert w. induction fuel as [|fuel IH]; intros w Hw Hlen; simpl.
  { symmetry. apply nil_length_inv. lia. }
  destruct (Z.eqb_spec w 0) as [->|Hw0].
  { symmetry. apply elem_of_nil_inv. intros x [Hb _]%list_elem_of_filter.
    by rewrite Z.bits_0 in Hb. }
  assert (0 < w) as Hpos by (destruct Hw; lia).
  set (k := trailing_zeros w).
  assert (set_bits n w = k :: set_bits n (Z.land w (w - 1))) as Heq.
  { apply increasing_ext.
    - apply increasing_filter, increasing_seq.
    - constructor; [apply increasing_filter, increasing_seq|]. apply Forall_forall.
      intros x [Hb _]%list_elem_of_filter. rewrite testbit_clear_lowest in Hb by done.
      case_decide; [done|]. fold k in H.
      destruct (decide (x < k)%nat); [|lia].
      rewrite testbit_below_trailing_zeros in Hb by done. done.
    - intros x. rewrite elem_of_cons. unfold set_bits. rewrite !list_elem_of_filter, !elem_of_seq.
      rewrite testbit_clear_lowest by done. fold k.
      assert (Z.testbit w (Z.of_nat k) = true) as Hk by by apply testbit_trailing_zeros.
      assert (k < n)%nat as Hkn.
      { destruct (decide (k < n)%nat); [done|]. destruct Hw as [_ Hw].
        rewrite Hw in Hk by lia. done. }
      case_decide; subst; split.
      + by left.
      + intros _. split; [done|lia].
      + intros H'. by right.
      + intros [->|H']; [done|]. done. }
  rewrite Heq. f_equal. apply IH.
  - split; [by apply land_pred_range|]. intros i Hi. rewrite testbit_clear_lowest by done.
    case_decide; [done|]. by apply Hw.
  - rewrite Heq in Hlen. simpl in Hlen. lia.
Qed.

Lemma visit_bits_set_bits w : word_bits 64 w → visit_bits 64 w = set_bits 64 w.
Proof.
  intros Hw. apply visit_bits_set_bits_aux; [done|].
  unfold set_bits. etransitivity; [apply length_filter|]. by rewrite length_seq.
Qed.
