(* ===== verification/Externals.v ===== *)
(** * The code the program calls and does not contain

    Third-party crates the modelled code relies on, as one interface: the
    definitions of the other files take an instance of [Externals] as a
    parameter and nothing is assumed of it. A small concrete instance,
    [toy_externals], is used by the witnesses and by the concrete examples. *)

From S2P Require Import Prelude.

Set Default Goal Selector "!".

Class Externals := {
  (** [solana_pubkey::ParsePubkeyError] and [Pubkey::from_str] (base58). *)
  ParsePubkeyError : Type;
  pubkey_from_str : string → result ParsePubkeyError Pubkey;
  (** [solana_signature::ParseSignatureError] and [Signature::from_str]. *)
  ParseSignatureError : Type;
  signature_from_str : string → result ParseSignatureError Signature;
  (** [bs58::decode(s).into_vec()] and the standard base64 engine. *)
  bs58_decode : string → option bytes;
  base64_decode : string → option bytes;
  (** [spl_token_2022_interface::state::Account::valid_account_data]. *)
  valid_account_data : bytes → bool;
  (** [SipHasher24::new_with_keys(k0, k1)] applied to a byte stream. *)
  siphash24 : Z → Z → bytes → Z;
  (** [prost::encoding::encode_key] (tag, wire type) and [encode_varint]: the
      bytes appended to the buffer. *)
  prost_encode_key : Z → Z → bytes;
  prost_encode_varint : Z → bytes
}.

Definition string_bytes (s : string) : bytes :=
  map Ascii.byte_of_ascii (String.list_ascii_of_string s).

(** A concrete instance: keys are written as their raw bytes, an empty string
    does not parse, and the hash of a byte stream is built from its last byte. *)
#[local] Instance toy_externals : Externals := {|
  ParsePubkeyError := unit;
  pubkey_from_str := λ s, if decide (s = "") then Err () else Ok (string_bytes s);
  ParseSignatureError := unit;
  signature_from_str := λ s, if decide (s = "") then Err () else Ok (string_bytes s);
  bs58_decode := λ s, Some (string_bytes s);
  base64_decode := λ s, Some (string_bytes s);
  valid_account_data := λ d, bool_decide (length d = 165);
  siphash24 := λ k0 k1 bs,
    match last bs with
    | Some b => Z.of_N (Byte.to_N b) * (2 ^ 32 + 1)
    | None => 0
    end%Z;
  prost_encode_key := λ tag wire, [bytes_of_Z (tag * 8 + wire)];
  prost_encode_varint := λ v, [bytes_of_Z v]
|}.
