(* ===== verification/F64.v ===== *)
(** * Doubles and durations of the Rust standard library

    [f64] is the binary64 format of [SpecFloat] (53 bits of precision, exponents
    below 1024), with the operations the program uses and the conversions from
    and to integers and [Duration]s. The second half
    shows what rounding can give (the magnitude of a result), that integers
    below [2^53] are exact, and that taking one from a number of at least one is
    exact and lowers its integral part by one. *)

From Stdlib Require Import Floats.SpecFloat.
From S2P Require Import Prelude.

Set Default Goal Selector "!".

Local Open Scope Z_scope.

(** ** Arithmetic *)

(** [z as f64]. *)
Definition usize_as_f64 (z : Z) : spec_float := binary_normalize 53 1024 z 0 false.

Definition f64_mul : spec_float → spec_float → spec_float := SFmul 53 1024.

Definition f64_div : spec_float → spec_float → spec_float := SFdiv 53 1024.

Definition f64_add : spec_float → spec_float → spec_float := SFadd 53 1024.

Definition f64_sub : spec_float → spec_float → spec_float := SFsub 53 1024.

(** [f64::min] and [f64::max] ignore a NaN. *)
Definition f64_min (a b : spec_float) : spec_float :=
  match SFcompare a b with
  | Some Gt => b
  | Some _ => a
  | None => match a with S754_nan => b | _ => a end
  end.

Definition f64_max (a b : spec_float) : spec_float :=
  match SFcompare a b with
  | Some Lt => b
  | Some _ => a
  | None => match a with S754_nan => b | _ => a end
  end.

Definition F64_EPSILON : spec_float := S754_finite false 4503599627370496 (-104).

(** [x as u64]: towards zero, saturating. *)
Definition f64_as_u64 (x : spec_float) : Z :=
  match x with
  | S754_finite false m e => Z.min u64_max (if 0 <=? e then Zpos m * 2 ^ e else Z.shiftr (Zpos m) (- e))
  | S754_infinity false => u64_max
  | _ => 0
  end.

(** [x.ceil() as usize]. *)
Definition f64_ceil_as_usize (x : spec_float) : Z :=
  match x with
  | S754_finite false m e =>
      Z.min usize_max
        (if 0 <=? e then Zpos m * 2 ^ e else (Zpos m + 2 ^ (- e) - 1) / 2 ^ (- e))
  | S754_infinity false => usize_max
  | _ => 0
  end.

(** ** Durations *)

(** A [Duration] is its number of nanoseconds. *)
Definition NANOS_PER_SEC : Z := 1000000000.

(** [num / 2^k], rounded to nearest, ties to even. *)
Definition round_half_even (num : Z) (k : Z) : Z :=
  let q := Z.shiftr num k in
  let r := num - Z.shiftl q k in
  match 2 * r ?= Z.shiftl 1 k with
  | Lt => q
  | Gt => q + 1
  | Eq => if Z.even q then q else q + 1
  end.

(** [Duration::as_secs_f64]. *)
Definition as_secs_f64 (d : Z) : spec_float :=
  SFadd 53 1024 (usize_as_f64 (d / NANOS_PER_SEC))
    (f64_div (usize_as_f64 (d mod NANOS_PER_SEC)) (usize_as_f64 NANOS_PER_SEC)).

(** [Duration::from_secs_f64]: panics on negative, non-finite and too large values. *)
Definition from_secs_f64 (x : spec_float) : outcome Z :=
  match x with
  | S754_zero _ => Done 0
  | S754_finite false m e =>
      if Z.leb (2 ^ 64) (if 0 <=? e then Z.pos m * 2 ^ e else Z.shiftr (Z.pos m) (- e)) then Panic
      else if 0 <=? e then Done (Z.pos m * 2 ^ e * NANOS_PER_SEC)
      else Done (round_half_even (Z.pos m * NANOS_PER_SEC) (- e))
  | _ => Panic
  end.

(** [Duration::mul_f64]. *)
Definition mul_f64 (d : Z) (multiplier : spec_float) : outcome Z :=
  from_secs_f64 (f64_mul multiplier (as_secs_f64 d)).

Definition DURATION_MAX : Z := u64_max * NANOS_PER_SEC + 999999999.

(** [Instant]s are nanoseconds of the monotonic clock. *)
Definition saturating_duration_since (now earlier : Z) : Z := Z.max 0 (now - earlier).

(** ** Exact results *)

(** The double [z * 2^q], normalised: 53 bits of mantissa. *)
Definition f64_exact (z q : Z) : spec_float :=
  S754_finite false (Z.to_pos (z * 2 ^ (52 - Z.log2 z))) (Z.log2 z - 52 + q).

Lemma digits2_log2 p : Z.pos (digits2_pos p) = Z.log2 (Z.pos p) + 1.
Proof.
  induction p as [p IH|p IH|]; cbn [digits2_pos]; [..|done]; rewrite Pos2Z.inj_succ, IH.
  - change (Z.pos p~1) with (2 * Z.pos p + 1). rewrite Z.log2_succ_double by lia. lia.
  - change (Z.pos p~0) with (2 * Z.pos p). rewrite Z.log2_double by lia. lia.
Qed.

Lemma Zdigits2_log2 z : 0 < z → Zdigits2 z = Z.log2 z + 1.
Proof. destruct z as [|p|p]; [lia| |lia]. intros _. apply digits2_log2. Qed.

Lemma iter_pos_nat {A} (f : A → A) n x : SpecFloat.iter_pos f n x = Nat.iter (Pos.to_nat n) f x.
Proof.
  revert x. induction n as [n IH|n IH|]; intros x; cbn [SpecFloat.iter_pos]; [..|done]; rewrite !IH, <- Nat.iter_add.
  - rewrite <- Nat.iter_succ_r. f_equal. lia.
  - f_equal. lia.
Qed.

Lemma iter_shr_exact n m : 0 <= m →
  Nat.iter n shr_1 (Build_shr_record (m * 2 ^ Z.of_nat n) false false) = Build_shr_record m false false.
Proof.
  intros Hm. induction n as [|n IH].
  - cbn. by rewrite Z.mul_1_r.
  - rewrite Nat.iter_succ_r. rewrite <- IH. f_equal.
    replace (m * 2 ^ Z.of_nat (S n)) with (2 * (m * 2 ^ Z.of_nat n))
      by (rewrite Nat2Z.inj_succ, Z.pow_succ_r by lia; ring).
    assert (0 <= m * 2 ^ Z.of_nat n) as Hge by lia.
    by destruct (m * 2 ^ Z.of_nat n).
Qed.

Lemma shr_exact m e n : 0 <= m → 0 <= n →
  shr (Build_shr_record (m * 2 ^ n) false false) e n = (Build_shr_record m false false, e + n).
Proof.
  intros Hm Hn. unfold shr. destruct n as [|n|n]; [|f_equal|lia].
  - by rewrite Z.mul_1_r, Z.add_0_r.
  - rewrite iter_pos_nat, <- (iter_shr_exact (Pos.to_nat n) m Hm). do 2 f_equal. by rewrite positive_nat_Z.
Qed.

Lemma fexp_normal e : -1021 <= e → fexp 53 1024 e = e - 53.
Proof. intros He. unfold fexp, emin. lia. Qed.

Lemma log2_scaled z k : 0 < z → 0 <= k → Z.log2 (z * 2 ^ k) = Z.log2 z + k.
Proof. intros Hz Hk. rewrite Z.log2_mul_pow2 by lia. lia. Qed.

Lemma log2_53 z : 0 < z < 2 ^ 53 → 0 <= Z.log2 z <= 52.
Proof. intros Hz. split; [apply Z.log2_nonneg|]. apply Z.lt_succ_r, Z.log2_lt_pow2; lia. Qed.

Lemma f64_exact_round z q n : 0 < z < 2 ^ 53 → -1022 <= Z.log2 z + q <= 1023 → 0 <= n →
  binary_round_aux 53 1024 false (z * 2 ^ (52 - Z.log2 z) * 2 ^ n) (Z.log2 z - 52 + q - n) loc_Exact = f64_exact z q.
Proof.
  intros Hz Hq Hn. pose proof (log2_53 z Hz) as Hlog.
  set (m := z * 2 ^ (52 - Z.log2 z)).
  assert (0 < m) as Hm by (unfold m; lia).
  assert (Z.log2 m = 52) as Hlm by (unfold m; rewrite log2_scaled by lia; lia).
  unfold binary_round_aux, shr_fexp, shr_record_of_loc.
  rewrite (Zdigits2_log2 (m * 2 ^ n)) by lia. rewrite log2_scaled by lia.
  rewrite fexp_normal by lia. rewrite Hlm.
  replace (52 + n + 1 + (Z.log2 z - 52 + q - n) - 53 - (Z.log2 z - 52 + q - n)) with n by lia.
  rewrite shr_exact by lia. cbn [shr_m loc_of_shr_record round_nearest_even].
  rewrite Zdigits2_log2 by lia. rewrite fexp_normal by lia. rewrite Hlm.
  replace (52 + 1 + (Z.log2 z - 52 + q - n + n) - 53 - (Z.log2 z - 52 + q - n + n)) with 0 by lia.
  cbn [shr shr_m]. unfold f64_exact. fold m. destruct m as [|p|p]; [lia| |lia].
  replace (Z.log2 z - 52 + q - n + n) with (Z.log2 z - 52 + q) by lia.
  destruct (Z.leb_spec (Z.log2 z - 52 + q) (1024 - 53)); [done|lia].
Qed.

Lemma iter_xO p d : Z.pos (Pos.iter xO p d) = Z.pos p * 2 ^ Z.pos d.
Proof.
  induction d as [|d IH] using Pos.peano_ind; [cbn; lia|].
  rewrite Pos.iter_succ, Pos2Z.inj_succ, Z.pow_succ_r by lia. change (Z.pos (Pos.iter xO p d)~0) with (2 * Z.pos (Pos.iter xO p d)).
  rewrite IH. ring.
Qed.

(** A number with [k] trailing zeros is normalised to itself. *)
Lemma normalize_scaled z q k : 0 < z < 2 ^ 53 → -1022 <= Z.log2 z + q <= 1023 → 0 <= k →
  binary_normalize 53 1024 (z * 2 ^ k) (q - k) false = f64_exact z q.
Proof.
  intros Hz Hq Hk. pose proof (log2_53 z Hz) as Hlog.
  assert (0 < z * 2 ^ k) as Hpos by lia.
  destruct (z * 2 ^ k) as [|p|p] eqn:Hp; [lia| |lia]. cbn [binary_normalize]. unfold binary_round.
  rewrite digits2_log2, <- Hp, log2_scaled by lia. rewrite fexp_normal by lia.
  unfold shl_align. destruct (Z.log2 z + k + 1 + (q - k) - 53 - (q - k)) as [|n|n] eqn:Hn.
  - rewrite <- (f64_exact_round z q 0) by lia. rewrite <- Hp. f_equal; [|lia]. rewrite Z.mul_1_r. do 2 f_equal. lia.
  - rewrite <- (f64_exact_round z q (Z.pos n)) by lia. rewrite <- Hp. f_equal; [|lia].
    rewrite <- Z.mul_assoc, <- Z.pow_add_r by lia. do 2 f_equal. lia.
  - rewrite <- (f64_exact_round z q 0) by lia. rewrite iter_xO, <- Hp. f_equal; [|lia].
    rewrite Z.mul_1_r, <- Z.mul_assoc, <- Z.pow_add_r by lia. do 2 f_equal. lia.
Qed.

Lemma usize_as_f64_exact z : 0 < z < 2 ^ 53 → usize_as_f64 z = f64_exact z 0.
Proof.
  intros Hz. pose proof (log2_53 z Hz). unfold usize_as_f64. rewrite <- (normalize_scaled z 0 0) by lia.
  f_equal. lia.
Qed.

Lemma shl_align_down m e e' : e' <= e → Z.pos (fst (shl_align m e e')) = Z.pos m * 2 ^ (e - e').
Proof.
  intros He. unfold shl_align. destruct (e' - e) as [|d|d] eqn:Hd; [|lia|].
  - replace (e - e') with 0 by lia. cbn. lia.
  - cbn [fst]. rewrite iter_xO. do 2 f_equal. lia.
Qed.

(** ** Rounding

    What a rounded result can be, by the magnitude of the exact one: [mag m e]
    is the [k] with [2^(k-1) <= m * 2^e < 2^k]. *)

Definition mag (m : positive) (e : Z) : Z := Z.log2 (Z.pos m) + 1 + e.

(** A canonical double of magnitude at most [hi]. *)
Definition f64_bounded (m : positive) (e : Z) : Prop :=
  (e = -1074 ∧ Z.log2 (Z.pos m) <= 52) ∨ (-1074 < e <= 971 ∧ Z.log2 (Z.pos m) = 52).

(** The result of rounding a number of magnitude [d]. *)
Definition rounded (d : Z) (x : spec_float) : Prop :=
  match x with
  | S754_zero false => d <= -1074
  | S754_infinity false => 1024 <= d
  | S754_finite false m e => f64_bounded m e ∧ d <= mag m e <= Z.max (d + 1) (-1073)
  | _ => False
  end.

Lemma shr_1_div mrs : 0 <= shr_m mrs → shr_m (shr_1 mrs) = shr_m mrs / 2.
Proof.
  destruct mrs as [m r s]. cbn. intros Hm. rewrite <- Z.div2_div. by destruct m as [|[p|p|]|p].
Qed.

Lemma iter_shr_div n mrs : 0 <= shr_m mrs → shr_m (Nat.iter n shr_1 mrs) = shr_m mrs / 2 ^ Z.of_nat n.
Proof.
  intros Hm. induction n as [|n IH]; [cbn; by rewrite Z.div_1_r|].
  rewrite Nat.iter_succ, shr_1_div, IH by (rewrite IH; apply Z.div_pos; lia).
  rewrite Nat2Z.inj_succ, Z.pow_succ_r by lia. rewrite Z.div_div by lia. f_equal. lia.
Qed.

Lemma shr_spec mrs e n : 0 <= shr_m mrs →
  shr_m (fst (shr mrs e n)) = shr_m mrs / 2 ^ Z.max 0 n ∧ snd (shr mrs e n) = e + Z.max 0 n.
Proof.
  intros Hm. unfold shr. destruct n as [|n|n]; cbn [fst snd].
  - rewrite Z.max_id. by rewrite Z.div_1_r, Z.add_0_r.
  - rewrite iter_pos_nat, iter_shr_div, positive_nat_Z by done. by rewrite Z.max_r by lia.
  - rewrite Z.max_l by lia. by rewrite Z.div_1_r, Z.add_0_r.
Qed.

Lemma fexp_max e : fexp 53 1024 e = Z.max (e - 53) (-1074).
Proof. done. Qed.

Lemma round_nearest_even_or m l : round_nearest_even m l = m ∨ round_nearest_even m l = m + 1.
Proof. destruct l as [|[]]; cbn; [by left| |by left|by right]. destruct (Z.even m); auto. Qed.

(** The second normalisation of [binary_round_aux], of a mantissa of at most 53
    bits or of [2^53]. *)
Lemma renormalise m e : 0 < m <= 2 ^ 53 → (e = -1074 ∨ -1074 < e ∧ 2 ^ 52 <= m) →
  let '(mrs, e') := shr_fexp 53 1024 m e loc_Exact in
  ∃ p, shr_m mrs = Z.pos p ∧ mag p e' = Z.log2 m + 1 + e ∧ e <= e' <= e + 1 ∧ (e' <= 971 → f64_bounded p e').
Proof.
  intros Hm He. unfold shr_fexp, shr_record_of_loc. rewrite Zdigits2_log2 by lia. rewrite fexp_max.
  destruct (shr_spec (Build_shr_record m false false) e (Z.max (Z.log2 m + 1 + e - 53) (-1074) - e)) as [Hs He'];
    [cbn; lia|]. destruct (shr _ _ _) as [mrs e']. cbn in Hs, He'. subst e'.
  destruct (decide (m = 2 ^ 53)) as [->|Hne].
  - change (Z.log2 (2 ^ 53)) with 53 in *.
    replace (Z.max 0 (Z.max (53 + 1 + e - 53) (-1074) - e)) with 1 in * by lia.
    exists (Z.to_pos (2 ^ 52)). rewrite Hs. split; [done|]. unfold mag, f64_bounded.
    change (Z.log2 (Z.pos (Z.to_pos (2 ^ 52)))) with 52. lia.
  - assert (0 <= Z.log2 m <= 52) as Hlog by (apply log2_53; lia).
    replace (Z.max 0 _) with 0 in * by lia. rewrite Z.pow_0_r, Z.div_1_r in Hs.
    exists (Z.to_pos m). rewrite Z2Pos.id by lia. split; [done|]. unfold mag, f64_bounded. rewrite Z2Pos.id by lia.
    split; [lia|]. split; [lia|]. intros He'. destruct He as [->|[He Hm2]]; [left; lia|right].
    assert (52 <= Z.log2 m); [|lia]. change 52 with (Z.log2 (2 ^ 52)). by apply Z.log2_le_mono.
Qed.

Lemma round_aux_spec m e l : 0 <= m → e <= fexp 53 1024 (Zdigits2 m + e) →
  rounded (Zdigits2 m + e) (binary_round_aux 53 1024 false m e l).
Proof.
  intros Hm He. set (d := Zdigits2 m + e) in *. unfold binary_round_aux. unfold shr_fexp at 1. fold d.
  destruct (shr_spec (shr_record_of_loc m l) e (fexp 53 1024 d - e)) as [Hs He'].
  { by destruct l as [|[]]. }
  destruct (shr (shr_record_of_loc m l) e _) as [mrs e1]. cbn in Hs, He'.
  replace (shr_m (shr_record_of_loc m l)) with m in Hs by (by destruct l as [|[]]).
  rewrite Z.max_r in * by lia. replace (e + _) with (fexp 53 1024 d) in He' by lia. subst e1.
  rewrite fexp_max in *. set (m1 := shr_m mrs) in *. set (e1 := Z.max (d - 53) (-1074)) in *.
  assert (d = Zdigits2 m + e) as Hd by done. assert (e1 = Z.max (d - 53) (-1074)) as He1eq by done.
  clearbody e1 m1 d.
  assert (0 <= m1) as Hm1 by (rewrite Hs; apply Z.div_pos; lia).
  (* the truncated mantissa *)
  assert (m1 = 0 ∧ d <= -1074 ∧ e1 = -1074 ∨ 0 < m1 ∧ Z.log2 m1 + 1 + e1 = d) as Hm1'.
  { destruct (decide (m = 0)) as [->|Hm0].
    { left. rewrite Hs, Zdiv_0_l. cbn in Hd. lia. }
    rewrite Zdigits2_log2 in Hd by lia.
    destruct (decide (e1 - e <= Z.log2 m)) as [Hle|Hgt].
    - right. rewrite Hs. rewrite <- Z.shiftr_div_pow2 by lia.
      assert (Z.log2 (Z.shiftr m (e1 - e)) = Z.log2 m - (e1 - e)) as Hl by (rewrite Z.log2_shiftr by lia; lia).
      split; [|lia]. rewrite Z.shiftr_div_pow2 by lia. apply Z.div_str_pos. split; [lia|].
      transitivity (2 ^ Z.log2 m); [apply Z.pow_le_mono_r; lia|]. apply Z.log2_spec. lia.
    - left. split; [|lia]. rewrite Hs. apply Z.div_small. split; [lia|].
      apply Z.log2_lt_pow2; lia. }
  assert (m1 < 2 ^ 53) as Hm1lt.
  { destruct Hm1' as [(->&_)|[Hpos Hl]]; [lia|]. apply Z.log2_lt_pow2; [done|]. lia. }
  assert (-1074 < e1 → 2 ^ 52 <= m1) as Hnormal.
  { intros Hlt. destruct Hm1' as [(_&_&?)|[Hpos Hl]]; [lia|].
    transitivity (2 ^ Z.log2 m1); [apply Z.pow_le_mono_r; lia|]. apply Z.log2_spec. lia. }
  assert (-1074 <= e1) as He1 by lia.
  set (m2 := round_nearest_even m1 _).
  assert (m2 = m1 ∨ m2 = m1 + 1) as Hm2 by apply round_nearest_even_or. clearbody m2.
  destruct (decide (m2 = 0)) as [->|Hm2z].
  { unfold shr_fexp. cbn [Zdigits2]. rewrite fexp_max.
    destruct (shr_spec (Build_shr_record 0 false false) e1 (Z.max (0 + e1 - 53) (-1074) - e1)) as [Hs2 _]; [done|].
    cbn [shr_record_of_loc]. destruct (shr _ _ _) as [mrs2 e2]. cbn in Hs2. rewrite Hs2, Zdiv_0_l. cbn. lia. }
  pose proof (renormalise m2 e1 ltac:(lia) ltac:(lia)) as Hr.
  destruct (shr_fexp 53 1024 m2 e1 loc_Exact) as [mrs2 e2]. destruct Hr as (p&->&Hmag&He2&Hb).
  assert (d <= Z.log2 m2 + 1 + e1 <= Z.max (d + 1) (-1073)) as Hmag2.
  { destruct Hm1' as [(Hm10&?&->)|[Hpos Hl]].
    - replace m2 with 1 by lia. cbn [Z.log2]. lia.
    - destruct Hm2 as [->| ->]; [lia|]. pose proof (Z.log2_succ_le m1) as Hsucc. rewrite <- Z.add_1_r in Hsucc.
      pose proof (Z.log2_le_mono m1 (m1 + 1) ltac:(lia)). lia. }
  destruct (Z.leb_spec e2 (1024 - 53)) as [Hle|Hgt]; cbn.
  - split; [by apply Hb|]. lia.
  - destruct Hm1' as [(_&_&?)|_]; lia.
Qed.

(** Normalising any positive number. *)
Lemma normalize_spec z e : 0 < z → rounded (Z.log2 z + 1 + e) (binary_normalize 53 1024 z e false).
Proof.
  intros Hz. destruct z as [|p|p]; [lia| |lia]. cbn [binary_normalize]. unfold binary_round.
  rewrite digits2_log2, fexp_max. set (d := Z.log2 (Z.pos p) + 1 + e).
  assert (∀ m' e', 0 < m' → Z.log2 m' + 1 + e' = d → e' <= Z.max (d - 53) (-1074) →
    rounded d (binary_round_aux 53 1024 false m' e' loc_Exact)) as Haux.
  { intros m' e' Hm' Hd He'. pose proof (round_aux_spec m' e' loc_Exact) as Hr.
    rewrite Zdigits2_log2, fexp_max, Hd in Hr by done. apply Hr; lia. }
  unfold shl_align. destruct (Z.max (d - 53) (-1074) - e) as [|n|n] eqn:Hn; (apply Haux; [lia| |lia]).
  - done.
  - done.
  - rewrite iter_xO, log2_scaled by lia. unfold d in *. lia.
Qed.

(** ** The operations on non-negative doubles *)

(** A non-negative finite double below [2^k]. *)
Definition f64_below (k : Z) (x : spec_float) : Prop :=
  match x with
  | S754_zero false => True
  | S754_finite false m e => f64_bounded m e ∧ mag m e <= k
  | _ => False
  end.

(** A positive finite double, at least [2^(k-1)]. *)
Definition f64_above (k : Z) (x : spec_float) : Prop :=
  match x with
  | S754_finite false m e => f64_bounded m e ∧ k <= mag m e
  | _ => False
  end.

Definition f64_nonneg (x : spec_float) : Prop :=
  match x with
  | S754_zero false | S754_infinity false => True
  | S754_finite false m e => f64_bounded m e
  | _ => False
  end.

Lemma f64_below_weaken k k' x : k <= k' → f64_below k x → f64_below k' x.
Proof. intros Hk. destruct x as [[]| | |[] m e]; cbn; [done..|intros [? ?]; split; [done|lia]]. Qed.

Lemma f64_below_nonneg k x : f64_below k x → f64_nonneg x.
Proof. destruct x as [[]| | |[] m e]; cbn; [done..|by intros [? ?]]. Qed.

Lemma f64_above_nonneg k x : f64_above k x → f64_nonneg x.
Proof. destruct x as [[]| | |[] m e]; cbn; [done..|by intros [? ?]]. Qed.

Lemma rounded_nonneg d x : rounded d x → f64_nonneg x.
Proof. destruct x as [[]|[]| |[] m e]; cbn; [done..|by intros [? ?]]. Qed.

Lemma rounded_below d x : d <= 1023 → rounded d x → f64_below (Z.max (d + 1) (-1073)) x.
Proof. intros Hd. destruct x as [[]|[]| |[] m e]; cbn; try done; [lia|intros [? ?]; split; [done|lia]]. Qed.

Lemma rounded_above d x : -1074 < d <= 1023 → rounded d x → f64_above d x.
Proof. intros Hd. destruct x as [[]|[]| |[] m e]; cbn; try done; [lia|lia|intros [? ?]; split; [done|lia]]. Qed.

Lemma usize_as_f64_below z k : 0 <= z → Z.log2 z + 2 <= k <= 1023 → f64_below k (usize_as_f64 z).
Proof.
  intros Hz Hk. unfold usize_as_f64. destruct (decide (z = 0)) as [->|Hne]; [done|].
  pose proof (Z.log2_nonneg z).
  eapply f64_below_weaken; [|eapply rounded_below; [|apply (normalize_spec z 0)]]; lia.
Qed.

Lemma f64_add_nonneg a b : f64_nonneg a → f64_nonneg b → f64_nonneg (f64_add a b).
Proof.
  destruct a as [[]|[]| |[] m1 e1], b as [[]|[]| |[] m2 e2]; cbn; try done. intros _ _.
  unfold f64_add, SFadd. eapply rounded_nonneg, normalize_spec. cbn [cond_Zopp]. lia.
Qed.

Lemma mantissa_lt m e k e0 : e0 <= e → mag m e <= k → Z.pos m * 2 ^ (e - e0) < 2 ^ (k - e0).
Proof.
  unfold mag. intros He Hk. pose proof (Z.log2_spec (Z.pos m)) as [_ Hs]; [lia|].
  assert (2 ^ Z.succ (Z.log2 (Z.pos m)) * 2 ^ (e - e0) <= 2 ^ (k - e0)) as Hp; [|nia].
  pose proof (Z.log2_nonneg (Z.pos m)). rewrite <- Z.pow_add_r by lia. apply Z.pow_le_mono_r; lia.
Qed.

Lemma f64_add_below k a b : -1074 <= k <= 1020 → f64_below k a → f64_below k b → f64_below (k + 2) (f64_add a b).
Proof.
  intros Hk. destruct a as [[]| | |[] m1 e1], b as [[]| | |[] m2 e2]; cbn [f64_below]; try done.
  - intros _ [? ?]. cbn. split; [done|lia].
  - intros [? ?] _. cbn. split; [done|lia].
  - intros [_ H1] [_ H2]. unfold f64_add, SFadd. cbn [cond_Zopp].
    set (e := Z.min e1 e2). rewrite !shl_align_down by lia.
    pose proof (mantissa_lt m1 e1 k e ltac:(lia) H1) as Hlt1. pose proof (mantissa_lt m2 e2 k e ltac:(lia) H2) as Hlt2.
    assert (0 < Z.pos m1 * 2 ^ (e1 - e)) as Hp1 by lia. assert (0 < Z.pos m2 * 2 ^ (e2 - e)) as Hp2 by lia.
    set (z := Z.pos m1 * 2 ^ (e1 - e) + Z.pos m2 * 2 ^ (e2 - e)). assert (0 < z) as Hz by lia.
    assert (Z.log2 z < k - e + 1) as Hlog.
    { apply Z.log2_lt_pow2; [done|]. assert (0 <= k - e) as Hke.
      { destruct (Z.le_gt_cases 0 (k - e)) as [|Hneg]; [done|]. rewrite (Z.pow_neg_r 2 (k - e)) in Hlt1 by lia. lia. }
      rewrite Z.pow_add_r, Z.pow_1_r by lia. lia. }
    eapply f64_below_weaken; [|eapply rounded_below; [|by apply normalize_spec]]; lia.
Qed.

Lemma log2_mul_bounds a b : 0 < a → 0 < b → Z.log2 a + Z.log2 b <= Z.log2 (a * b) <= Z.log2 a + Z.log2 b + 1.
Proof. intros Ha Hb. pose proof (Z.log2_mul_below a b Ha Hb). pose proof (Z.log2_mul_above a b ltac:(lia) ltac:(lia)). lia. Qed.

(** Two finite numbers: a rounded product, maybe infinity, never a NaN. *)
Lemma f64_mul_nonneg k1 k2 a b : f64_below k1 a → f64_below k2 b → f64_nonneg (f64_mul a b).
Proof.
  destruct a as [[]| | |[] m1 e1], b as [[]| | |[] m2 e2]; cbn [f64_below]; try done. intros [H1 _] [H2 _].
  unfold f64_mul, SFmul. cbn [xorb]. eapply rounded_nonneg, round_aux_spec; [lia|].
  rewrite Zdigits2_log2, fexp_max by lia. rewrite Pos2Z.inj_mul.
  pose proof (log2_mul_bounds (Z.pos m1) (Z.pos m2) ltac:(lia) ltac:(lia)).
  pose proof (Z.log2_nonneg (Z.pos m1)). pose proof (Z.log2_nonneg (Z.pos m2)).
  unfold f64_bounded in *. lia.
Qed.

Lemma log2_div_bounds a b : 0 < b <= a →
  Z.log2 a - Z.log2 b - 1 <= Z.log2 (a / b) <= Z.log2 a - Z.log2 b.
Proof.
  intros Hb. assert (0 < a / b) as Hq by (apply Z.div_str_pos; lia).
  pose proof (Z.mul_div_le a b ltac:(lia)) as Hle. pose proof (Z.mul_succ_div_gt a b ltac:(lia)) as Hgt.
  pose proof (log2_mul_bounds b (a / b) ltac:(lia) Hq). pose proof (Z.log2_le_mono _ _ Hle).
  assert (Z.log2 a < Z.log2 b + Z.log2 (a / b) + 2); [|lia]. apply Z.log2_lt_pow2; [lia|].
  pose proof (Z.log2_spec b ltac:(lia)) as [_ Hsb]. pose proof (Z.log2_spec (a / b) Hq) as [_ Hsq].
  pose proof (Z.log2_nonneg b). pose proof (Z.log2_nonneg (a / b)).
  replace (Z.log2 b + Z.log2 (a / b) + 2) with (Z.succ (Z.log2 b) + Z.succ (Z.log2 (a / b))) by lia.
  rewrite Z.pow_add_r by lia. nia.
Qed.

(** The quotient of two finite numbers rounds a number whose magnitude is the
    difference of theirs, or one more, unless it is close to the least double. *)
Lemma f64_div_rounded m1 e1 m2 e2 : let delta := mag m1 e1 - mag m2 e2 in
  ∃ d, (delta <= d <= delta + 1 ∨ delta < -1000 ∧ d <= -990) ∧
    rounded d (f64_div (S754_finite false m1 e1) (S754_finite false m2 e2)).
Proof.
  intros delta. unfold f64_div, SFdiv, SFdiv_core_binary. rewrite !Zdigits2_log2 by lia.
  change (Z.log2 (Z.pos m1) + 1 + e1 - (Z.log2 (Z.pos m2) + 1 + e2)) with delta. rewrite fexp_max.
  set (e' := Z.min (Z.max (delta - 53) (-1074)) (e1 - e2)). set (s := e1 - e2 - e'). cbv zeta.
  set (m' := match s with 0 => _ | Z.pos _ => _ | Z.neg _ => _ end).
  assert (0 <= s) as Hs by lia.
  assert (m' = Z.pos m1 * 2 ^ s) as Hm'.
  { unfold m'. destruct s as [|p|p]; [cbn; lia| |lia]. by rewrite Z.shiftl_mul_pow2. }
  clearbody m'.
  assert (∃ r, Z.div_eucl m' (Z.pos m2) = (m' / Z.pos m2, r)) as [r ->].
  { unfold Z.div. destruct (Z.div_eucl m' (Z.pos m2)) as [q r]. eauto. }
  cbn [xorb]. set (q := m' / Z.pos m2). set (l := new_location _ _).
  assert (0 <= q) as Hq by (apply Z.div_pos; lia).
  assert (Z.log2 m' - Z.log2 (Z.pos m2) = delta - e') as Hlog.
  { rewrite Hm', log2_scaled by lia. unfold delta, mag. lia. }
  assert (0 < q → Zdigits2 q + e' = Z.log2 q + 1 + e' ∧ delta <= Z.log2 q + 1 + e' <= delta + 1) as Hd.
  { intros Hq0. rewrite Zdigits2_log2 by done. split; [done|]. assert (Z.pos m2 <= m') as Hle.
    { destruct (Z.le_gt_cases (Z.pos m2) m') as [|Hlt]; [done|]. unfold q in Hq0.
      rewrite Z.div_small in Hq0 by lia. lia. }
    pose proof (log2_div_bounds m' (Z.pos m2) ltac:(lia)). unfold q. lia. }
  exists (Zdigits2 q + e').
  destruct (decide (53 <= delta - e')) as [Hbig|Hsmall].
  - assert (0 < q) as Hq0.
    { apply Z.div_str_pos. split; [lia|]. apply Z.lt_le_incl, Z.log2_lt_cancel. lia. }
    destruct (Hd Hq0) as [Heq ?]. split; [lia|]. apply round_aux_spec; [done|]. rewrite fexp_max. lia.
  - split; [right|apply round_aux_spec; [done|rewrite fexp_max; lia]].
    split; [lia|]. destruct (decide (q = 0)) as [->|Hq0]; [cbn; lia|]. destruct Hd as [-> ?]; lia.
Qed.

Lemma f64_div_below k1 k2 a b : f64_below k1 a → f64_above k2 b → -900 <= k1 - k2 <= 1020 →
  f64_below (k1 - k2 + 2) (f64_div a b).
Proof.
  destruct a as [[]| | |[] m1 e1], b as [[]| | |[] m2 e2]; cbn [f64_below f64_above]; try done.
  intros [_ H1] [_ H2] Hk. destruct (f64_div_rounded m1 e1 m2 e2) as (d&Hd&Hr).
  eapply f64_below_weaken; [|eapply rounded_below; [|exact Hr]]; lia.
Qed.

Lemma f64_div_above k1 k1' k2 k2' a b : f64_above k1 a → f64_below k1' a → f64_below k2 b → f64_above k2' b →
  -1000 <= k1 - k2 → k1' - k2' <= 1020 → f64_above (k1 - k2) (f64_div a b).
Proof.
  destruct a as [[]| | |[] m1 e1], b as [[]| | |[] m2 e2]; cbn [f64_below f64_above]; try done.
  intros [_ H1] [_ H1'] [_ H2] [_ H2'] Hk Hk'. destruct (f64_div_rounded m1 e1 m2 e2) as (d&Hd&Hr).
  apply rounded_above in Hr; [|lia]. destruct (f64_div _ _) as [| | |[] m e]; cbn in *; try done.
  destruct Hr as [? ?]. split; [done|lia].
Qed.

(** ** Comparison *)

Lemma f64_bounded_exact z q : 0 < z < 2 ^ 53 → -1021 <= Z.log2 z + q <= 1023 →
  f64_bounded (Z.to_pos (z * 2 ^ (52 - Z.log2 z))) (Z.log2 z - 52 + q).
Proof.
  intros Hz Hq. pose proof (log2_53 z Hz). right. rewrite Z2Pos.id by lia. rewrite log2_scaled by lia. lia.
Qed.

Lemma f64_exact_mag z q : 0 < z < 2 ^ 53 →
  mag (Z.to_pos (z * 2 ^ (52 - Z.log2 z))) (Z.log2 z - 52 + q) = Z.log2 z + 1 + q.
Proof.
  intros Hz. pose proof (log2_53 z Hz). unfold mag. rewrite Z2Pos.id by lia. rewrite log2_scaled by lia. lia.
Qed.

Lemma SFleb_finite m1 e1 m2 e2 :
  SFleb (S754_finite false m1 e1) (S754_finite false m2 e2) = true ↔ e1 < e2 ∨ e1 = e2 ∧ Z.pos m1 <= Z.pos m2.
Proof.
  unfold SFleb, SFcompare. destruct (Z.compare_spec e1 e2) as [->|Hlt|Hgt].
  - change (Pos.compare_cont Eq m1 m2) with (Pos.compare m1 m2).
    destruct (Pos.compare_spec m1 m2) as [->|Hlt|Hgt]; (split; [intros ?|intros [?|[_ ?]]]; try done; try lia).
  - split; [by left|done].
  - split; [done|lia].
Qed.

Lemma SFleb_refl_finite m e : SFleb (S754_finite false m e) (S754_finite false m e) = true.
Proof. apply SFleb_finite. lia. Qed.

(** The smaller of two numbers is at most the second. *)
Lemma f64_min_spec x m e : f64_nonneg x → f64_bounded m e →
  f64_nonneg (f64_min x (S754_finite false m e)) ∧
  SFleb (f64_min x (S754_finite false m e)) (S754_finite false m e) = true.
Proof.
  intros Hx Hb. unfold f64_min. destruct (SFcompare x (S754_finite false m e)) as [[]|] eqn:Hc.
  - split; [done|]. unfold SFleb. by rewrite Hc.
  - split; [done|]. unfold SFleb. by rewrite Hc.
  - split; [done|]. apply SFleb_refl_finite.
  - destruct x as [[]|[]| |[]]; done.
Qed.

Lemma f64_le_below x m e : f64_nonneg x → f64_bounded m e → SFleb x (S754_finite false m e) = true →
  f64_below (mag m e) x.
Proof.
  destruct x as [[]|[]| |[] m1 e1]; cbn [f64_nonneg f64_below]; try done. intros H1 H Hle.
  split; [done|]. apply SFleb_finite in Hle. unfold mag, f64_bounded in *.
  destruct Hle as [Hlt|[-> Hle]]; [lia|]. apply Z.log2_le_mono in Hle. lia.
Qed.

(** ** One less *)

Definition f64_one : spec_float := usize_as_f64 1.

Lemma f64_one_eq : f64_one = S754_finite false 4503599627370496 (-52).
Proof. by vm_compute. Qed.

Lemma f64_bounded_lt m e : f64_bounded m e → Z.pos m < 2 ^ 53.
Proof. intros Hb. apply Z.log2_lt_pow2; [done|]. unfold f64_bounded in Hb. lia. Qed.

Lemma f64_bounded_ge m e : f64_bounded m e → -1074 < e → 2 ^ 52 <= Z.pos m.
Proof.
  intros Hb He. transitivity (2 ^ Z.log2 (Z.pos m)); [|apply Z.log2_spec; lia].
  apply Z.pow_le_mono_r; [lia|]. unfold f64_bounded in Hb. lia.
Qed.

(** A number is at least one when its exponent says so. *)
Lemma f64_one_le m e : f64_bounded m e → SFleb f64_one (S754_finite false m e) = bool_decide (-52 <= e).
Proof.
  intros Hb. rewrite f64_one_eq. apply eq_bool_prop_intro. rewrite bool_decide_spec.
  split.
  - intros H%Is_true_eq_true%SFleb_finite. lia.
  - intros He. apply Is_true_eq_left, SFleb_finite.
    destruct (decide (e = -52)) as [->|]; [|lia]. right. split; [done|]. apply (f64_bounded_ge m (-52)); [done|lia].
Qed.

Lemma f64_as_u64_finite m e : f64_bounded m e → e <= 0 → f64_as_u64 (S754_finite false m e) = Z.shiftr (Z.pos m) (- e).
Proof.
  intros Hb He. pose proof (f64_bounded_lt m e Hb). cbn [f64_as_u64].
  assert (0 <= Z.shiftr (Z.pos m) (- e) <= Z.pos m).
  { rewrite Z.shiftr_div_pow2 by lia. split; [apply Z.div_pos; lia|]. apply Z.div_le_upper_bound; [lia|nia]. }
  destruct (Z.leb_spec 0 e) as [Hge|Hlt].
  - replace e with 0 by lia. cbn [Z.opp]. rewrite Z.shiftr_0_r, Z.pow_0_r, Z.mul_1_r. unfold u64_max. lia.
  - unfold u64_max. lia.
Qed.

Lemma f64_as_u64_small m e : f64_bounded m e → e < -52 → f64_as_u64 (S754_finite false m e) = 0.
Proof.
  intros Hb He. rewrite f64_as_u64_finite by (done || lia). rewrite Z.shiftr_div_pow2 by lia. apply Z.div_small.
  split; [lia|]. apply (Z.lt_le_trans _ (2 ^ 53)); [by eapply f64_bounded_lt|]. apply Z.pow_le_mono_r; lia.
Qed.

Lemma f64_as_u64_exact z q : 0 < z < 2 ^ 53 → -1021 <= Z.log2 z + q → q <= 0 →
  f64_as_u64 (f64_exact z q) = Z.shiftr z (- q).
Proof.
  intros Hz Hl Hq. pose proof (log2_53 z Hz). unfold f64_exact.
  rewrite f64_as_u64_finite by (lia || apply f64_bounded_exact; lia). rewrite Z2Pos.id by lia.
  rewrite <- Z.shiftl_mul_pow2 by lia. replace (- (Z.log2 z - 52 + q)) with ((52 - Z.log2 z) + - q) by lia.
  rewrite <- Z.shiftr_shiftr by lia. by rewrite Z.shiftr_shiftl_l, Z.sub_diag, Z.shiftl_0_r by lia.
Qed.

(** Taking one from a number between one and [2^53] is exact: the integral part
    goes down by one. *)
Lemma f64_sub_one m e : f64_bounded m e → -52 <= e <= 0 →
  f64_sub (S754_finite false m e) f64_one
  = (if bool_decide (Z.pos m = 2 ^ (- e)) then S754_zero false else f64_exact (Z.pos m - 2 ^ (- e)) e)
  ∧ 2 ^ (- e) <= Z.pos m.
Proof.
  intros Hb He. pose proof (f64_bounded_lt m e Hb). pose proof (f64_bounded_ge m e Hb ltac:(lia)).
  assert (2 ^ (- e) <= 2 ^ 52) by (apply Z.pow_le_mono_r; lia). split; [|lia].
  rewrite f64_one_eq. unfold f64_sub, SFsub. cbn [cond_Zopp]. rewrite Z.min_r by lia. rewrite !shl_align_down by lia.
  replace (Z.pos m * _ - _) with ((Z.pos m - 2 ^ (- e)) * 2 ^ (e + 52)).
  2:{ rewrite Z.mul_sub_distr_r, <- Z.pow_add_r by lia. replace (e - -52) with (e + 52) by lia.
      by replace (- e + (e + 52)) with 52 by lia. }
  case_bool_decide as Heq; [by rewrite Heq, Z.sub_diag|].
  pose proof (Z.log2_nonneg (Z.pos m - 2 ^ (- e))). pose proof (log2_53 (Z.pos m - 2 ^ (- e)) ltac:(lia)).
  rewrite <- (normalize_scaled (Z.pos m - 2 ^ (- e)) e (e + 52)) by lia. f_equal. lia.
Qed.

(** ** Numbers up to an integer [n] below [2^53] *)

Section up_to.
Context (n : Z) (Hn : 0 < n < 2 ^ 53).

Definition f64_up_to (t : spec_float) : Prop := f64_nonneg t ∧ SFleb t (usize_as_f64 n) = true.

Lemma f64_up_to_cases t : f64_up_to t → t = S754_zero false ∨
  ∃ m e, t = S754_finite false m e ∧ f64_bounded m e ∧ (e < Z.log2 n - 52 ∨ e = Z.log2 n - 52 ∧ Z.pos m <= n * 2 ^ (52 - Z.log2 n)).
Proof.
  pose proof (log2_53 n Hn). intros [Ht Hle]. rewrite usize_as_f64_exact in Hle by lia.
  destruct t as [[]|[]| |[] m e]; try done; [by left|right]. exists m, e. split; [done|]. split; [done|].
  unfold f64_exact in Hle. apply SFleb_finite in Hle. rewrite Z2Pos.id in Hle by lia. lia.
Qed.

Lemma f64_up_to_full : f64_up_to (usize_as_f64 n).
Proof.
  split; rewrite usize_as_f64_exact by lia; [|apply SFleb_refl_finite].
  pose proof (log2_53 n Hn). by apply f64_bounded_exact; [|lia].
Qed.

Lemma f64_up_to_min t : f64_nonneg t → f64_up_to (f64_min t (usize_as_f64 n)).
Proof.
  intros Ht. unfold f64_up_to. pose proof (log2_53 n Hn). rewrite usize_as_f64_exact by lia.
  apply f64_min_spec; [done|]. by apply f64_bounded_exact; [|lia].
Qed.

Lemma f64_up_to_below t : f64_up_to t → f64_below 53 t.
Proof.
  intros [->|(m&e&->&Hb&He)]%f64_up_to_cases; [done|]. split; [done|]. pose proof (log2_53 n Hn).
  unfold mag, f64_bounded in *. lia.
Qed.

Lemma f64_up_to_floor t : f64_up_to t → 0 <= f64_as_u64 t <= n.
Proof.
  pose proof (log2_53 n Hn). intros [->|(m&e&->&Hb&He)]%f64_up_to_cases; [cbn; lia|].
  rewrite f64_as_u64_finite by (done || lia). rewrite Z.shiftr_div_pow2 by lia.
  split; [apply Z.div_pos; lia|]. pose proof (f64_bounded_lt m e Hb) as Hlt. destruct He as [He|[-> Hle]].
  - transitivity (2 ^ Z.log2 n); [|apply Z.log2_spec; lia]. apply Z.lt_le_incl, Z.div_lt_upper_bound; [lia|].
    rewrite <- Z.pow_add_r by lia. apply (Z.lt_le_trans _ (2 ^ 53)); [done|]. apply Z.pow_le_mono_r; lia.
  - apply Z.div_le_upper_bound; [lia|]. replace (- (Z.log2 n - 52)) with (52 - Z.log2 n) by lia. lia.
Qed.

(** [tokens >= 1.0] asks for an integral part of at least one. *)
Lemma f64_up_to_one_le t : f64_up_to t → SFleb f64_one t = bool_decide (1 <= f64_as_u64 t).
Proof.
  pose proof (log2_53 n Hn). intros [->|(m&e&->&Hb&He)]%f64_up_to_cases; [done|].
  rewrite f64_one_le by done. apply bool_decide_ext. split.
  - intros Hge. rewrite f64_as_u64_finite by (done || lia). rewrite Z.shiftr_div_pow2 by lia.
    apply Z.div_le_lower_bound; [lia|]. rewrite Z.mul_1_r. pose proof (f64_bounded_ge m e Hb ltac:(lia)).
    transitivity (2 ^ 52); [apply Z.pow_le_mono_r; lia|done].
  - intros Hge. destruct (decide (-52 <= e)); [done|]. rewrite f64_as_u64_small in Hge by (done || lia). lia.
Qed.

(** [tokens -= 1.0]. *)
Lemma f64_up_to_take t : f64_up_to t → 1 <= f64_as_u64 t →
  f64_up_to (f64_sub t f64_one) ∧ f64_as_u64 (f64_sub t f64_one) = f64_as_u64 t - 1.
Proof.
  pose proof (log2_53 n Hn) as Hlog. intros Ht Hone. pose proof Ht as [->|(m&e&->&Hb&He)]%f64_up_to_cases.
  { cbn in Hone. lia. }
  assert (-52 <= e <= 0) as Hee.
  { split; [|lia]. destruct (decide (-52 <= e)); [done|]. rewrite f64_as_u64_small in Hone by (done || lia). lia. }
  destruct (f64_sub_one m e Hb Hee) as [-> Hge]. rewrite (f64_as_u64_finite m e) by (done || lia).
  pose proof (f64_bounded_lt m e Hb) as Hlt. assert (0 < 2 ^ (- e)) as Hp by lia.
  assert (Z.shiftr (Z.pos m) (- e) - 1 = Z.shiftr (Z.pos m - 2 ^ (- e)) (- e)) as Hshift.
  { rewrite !Z.shiftr_div_pow2 by lia. replace (Z.pos m - 2 ^ (- e)) with (Z.pos m + (-1) * 2 ^ (- e)) by lia.
    rewrite Z.div_add by lia. lia. }
  case_bool_decide as Heq.
  - split; [split; [done|by rewrite usize_as_f64_exact]|]. rewrite Hshift, Heq, Z.sub_diag. by rewrite Z.shiftr_0_l.
  - pose proof (log2_53 (Z.pos m - 2 ^ (- e)) ltac:(lia)) as Hlz.
    split; [|rewrite f64_as_u64_exact, Hshift by lia; done].
    split; [apply f64_bounded_exact; lia|]. rewrite usize_as_f64_exact by lia. unfold f64_exact at 1.
    unfold f64_exact. set (z := Z.pos m - 2 ^ (- e)) in *. assert (0 < z <= Z.pos m) as Hz by lia. clearbody z.
    apply SFleb_finite. rewrite !Z2Pos.id by lia.
    destruct (decide (Z.log2 z = 52)) as [Hl|]; [|lia]. rewrite Hl.
    destruct He as [He|[He Hle]]; [lia|]. right. split; [lia|]. rewrite Z.sub_diag. lia.
Qed.

(** [(1.0 - tokens).max(0.0)] of less than a token. *)
Lemma f64_up_to_missing t : f64_up_to t → f64_as_u64 t < 1 →
  f64_below 1 (f64_max (f64_sub f64_one t) (S754_zero false)).
Proof.
  pose proof (log2_53 n Hn) as Hlog. intros Ht Hone.
  assert (SFleb f64_one t = false) as Hle by (rewrite f64_up_to_one_le by done; by apply bool_decide_eq_false; lia).
  apply f64_up_to_cases in Ht as [->|(m&e&->&Hb&He)].
  { rewrite f64_one_eq. cbn. unfold f64_bounded, mag. cbn. lia. }
  rewrite f64_one_le in Hle by done. apply bool_decide_eq_false in Hle.
  assert (f64_below 1 (f64_sub f64_one (S754_finite false m e))) as Hsub.
  2:{ destruct (f64_sub _ _) as [[]| | |[]]; done. }
  rewrite f64_one_eq. unfold f64_sub, SFsub. cbn [cond_Zopp]. rewrite Z.min_r by lia. rewrite !shl_align_down by lia.
  rewrite Z.sub_diag, Z.pow_0_r, Z.mul_1_r. change 4503599627370496 with (2 ^ 52). rewrite <- Z.pow_add_r by lia.
  replace (52 + (-52 - e)) with (- e) by lia. pose proof (f64_bounded_lt m e Hb) as Hlt.
  assert (2 ^ 53 <= 2 ^ (- e)) as Hpow by (apply Z.pow_le_mono_r; lia).
  assert (Z.log2 (2 ^ (- e) - Z.pos m) < - e) as Hl by (apply Z.log2_lt_pow2; lia).
  eapply f64_below_weaken; [|eapply rounded_below; [|apply normalize_spec; lia]]; lia.
Qed.
End up_to.

(** ** Durations *)

Lemma f64_max_zero_below k x : f64_below k x → f64_below k (f64_max x (S754_zero false)).
Proof. destruct x as [[]| | |[]]; done. Qed.

Lemma as_secs_f64_below k d : 28 <= k <= 64 → 0 <= d < 2 ^ k * NANOS_PER_SEC → f64_below (k + 3) (as_secs_f64 d).
Proof.
  intros Hk Hd. unfold as_secs_f64. change (SFadd 53 1024) with f64_add.
  assert (0 <= d / NANOS_PER_SEC < 2 ^ k) as Hs.
  { split; [apply Z.div_pos; unfold NANOS_PER_SEC; lia|]. apply Z.div_lt_upper_bound; unfold NANOS_PER_SEC in *; lia. }
  assert (0 <= d mod NANOS_PER_SEC < 2 ^ 30) as Hm.
  { pose proof (Z.mod_pos_bound d NANOS_PER_SEC ltac:(done)). unfold NANOS_PER_SEC in *. lia. }
  replace (k + 3) with ((k + 1) + 2) by lia. apply f64_add_below; [lia|..].
  - apply usize_as_f64_below; [lia|]. destruct (decide (d / NANOS_PER_SEC = 0)) as [->|]; [cbn [Z.log2]; lia|].
    assert (Z.log2 (d / NANOS_PER_SEC) < k); [|lia]. apply Z.log2_lt_pow2; lia.
  - apply (f64_below_weaken (31 - 30 + 2)); [lia|]. apply f64_div_below; [| |lia].
    2:{ replace (usize_as_f64 NANOS_PER_SEC) with (S754_finite false 8388608000000000 (-23)) by (by vm_compute).
        unfold f64_above, f64_bounded, mag. cbn. lia. }
    apply usize_as_f64_below; [lia|]. destruct (decide (d mod NANOS_PER_SEC = 0)) as [->|]; [cbn [Z.log2]; lia|].
    assert (Z.log2 (d mod NANOS_PER_SEC) < 30); [|lia]. apply Z.log2_lt_pow2; lia.
Qed.

Lemma as_secs_f64_zero : as_secs_f64 0 = S754_zero false.
Proof. by vm_compute. Qed.

Lemma f64_max_finite m1 e1 m2 e2 :
  (f64_max (S754_finite false m1 e1) (S754_finite false m2 e2) = S754_finite false m1 e1 ∧ e2 <= e1) ∨
  f64_max (S754_finite false m1 e1) (S754_finite false m2 e2) = S754_finite false m2 e2.
Proof.
  unfold f64_max, SFcompare. destruct (Z.compare_spec e1 e2) as [->|Hlt|Hgt]; [|by right|left; split; [done|lia]].
  destruct (Pos.compare_cont Eq m1 m2); [left|by right|left]; (split; [done|lia]).
Qed.

Lemma f64_max_epsilon k x : -51 <= k → f64_below k x →
  f64_below k (f64_max x F64_EPSILON) ∧ f64_above (-51) (f64_max x F64_EPSILON).
Proof.
  intros Hk Hx. assert (f64_below k F64_EPSILON ∧ f64_above (-51) F64_EPSILON) as Heps.
  { unfold F64_EPSILON, f64_below, f64_above, f64_bounded, mag. cbn [Z.log2 Pos.size]. lia. }
  destruct x as [[]| | |[] m e]; try contradiction; [exact Heps|]. destruct Hx as [Hb Hmag].
  unfold F64_EPSILON in *. destruct (f64_max_finite m e 4503599627370496 (-104)) as [[-> He]| ->]; [|exact Heps].
  unfold f64_below, f64_above. split; (split; [exact Hb|]); [exact Hmag|]. unfold mag, f64_bounded in *. lia.
Qed.

Lemma from_secs_f64_below x : f64_below 63 x → ∃ d, from_secs_f64 x = Done d.
Proof.
  destruct x as [[]| | |[] m e]; cbn [f64_below]; try done; [by eexists|]. intros [_ Hmag].
  cbn [from_secs_f64]. rewrite (proj2 (Z.leb_gt _ _)).
  - destruct (0 <=? e); by eexists.
  - destruct (Z.leb_spec 0 e) as [Hge|Hlt].
    + pose proof (mantissa_lt m e 63 0 Hge Hmag) as Hlt. rewrite !Z.sub_0_r in Hlt. lia.
    + rewrite Z.shiftr_div_pow2 by lia. apply Z.div_lt_upper_bound; [lia|].
      pose proof (mantissa_lt m e 63 e ltac:(lia) Hmag) as Hm. rewrite Z.sub_diag, Z.mul_1_r in Hm.
      rewrite <- Z.pow_add_r by lia. apply (Z.lt_le_trans _ _ _ Hm). apply Z.pow_le_mono_r; lia.
Qed.
