(* ===== verification/Proto.v ===== *)
(** * The request messages of proto/geyser.proto

    One record per message, with the fields the program reads. A protobuf map
    is an association list with distinct keys: its order is the iteration order
    of the generated [HashMap], so a statement over all lists holds for every
    order. A oneof is an inductive type under [option]. An enum field carries
    the raw [i32] of the wire, decoded by the code that reads it. *)

From S2P Require Import Prelude.

Set Default Goal Selector "!".

Abbreviation hash_map V := (list (string * V)).

Record ProtoCuckooFilter := mkProtoCuckooFilter {
  pcf_data : bytes;
  pcf_bucket_count : Z;
  pcf_entries_per_bucket : Z;
  pcf_fingerprint_bits : Z;
  pcf_hash_seed : Z;
  pcf_hash_algorithm : Z
}.

Inductive AccountsFilterMemcmpOneof :=
| MemcmpBytes (data : bytes)
| MemcmpBase58 (data : string)
| MemcmpBase64 (data : string).

Record SubscribeRequestFilterAccountsFilterMemcmp := mkMemcmp {
  memcmp_offset : Z;
  memcmp_data : option AccountsFilterMemcmpOneof
}.

Inductive AccountsFilterLamports :=
| CmpEq (value : Z)
| CmpNe (value : Z)
| CmpLt (value : Z)
| CmpGt (value : Z).

Inductive AccountsFilterDataOneof :=
| FilterMemcmp (memcmp : SubscribeRequestFilterAccountsFilterMemcmp)
| FilterDatasize (datasize : Z)
| FilterTokenAccountState (value : bool)
| FilterLamports (cmp : option AccountsFilterLamports).

(** [SubscribeRequestFilterAccountsFilter]: its only field is the oneof. *)
Abbreviation SubscribeRequestFilterAccountsFilter := (option AccountsFilterDataOneof).

Record SubscribeRequestFilterAccounts := mkRequestAccounts {
  rfa_account : list string;
  rfa_owner : list string;
  rfa_filters : list SubscribeRequestFilterAccountsFilter;
  rfa_nonempty_txn_signature : option bool;
  rfa_cuckoo_accounts_filter : option ProtoCuckooFilter
}.

Record SubscribeRequestFilterSlots := mkRequestSlots {
  rfs_filter_by_commitment : option bool;
  rfs_interslot_updates : option bool
}.

Record SubscribeRequestFilterTransactions := mkRequestTransactions {
  rft_vote : option bool;
  rft_failed : option bool;
  rft_signature : option string;
  rft_account_include : list string;
  rft_account_exclude : list string;
  rft_account_required : list string;
  rft_cuckoo_account_include : option ProtoCuckooFilter;
  rft_token_accounts : option Z
}.

Record SubscribeRequestFilterBlocks := mkRequestBlocks {
  rfb_account_include : list string;
  rfb_include_transactions : option bool;
  rfb_include_accounts : option bool;
  rfb_include_entries : option bool;
  rfb_cuckoo_account_include : option ProtoCuckooFilter
}.

Record SubscribeRequestFilterDeshredTransactions := mkRequestDeshred {
  rfd_vote : option bool;
  rfd_account_include : list string;
  rfd_account_exclude : list string;
  rfd_account_required : list string
}.

Record SubscribeRequestAccountsDataSlice := mkDataSlice {
  ads_offset : Z;
  ads_length : Z
}.

(** [SubscribeRequestPing] is its [id]; the blocks-meta and entry filters have
    no field. *)
Record SubscribeRequest := mkSubscribeRequest {
  req_accounts : hash_map SubscribeRequestFilterAccounts;
  req_slots : hash_map SubscribeRequestFilterSlots;
  req_transactions : hash_map SubscribeRequestFilterTransactions;
  req_transactions_status : hash_map SubscribeRequestFilterTransactions;
  req_blocks : hash_map SubscribeRequestFilterBlocks;
  req_blocks_meta : hash_map unit;
  req_entry : hash_map unit;
  req_commitment : option Z;
  req_accounts_data_slice : list SubscribeRequestAccountsDataSlice;
  req_ping : option Z;
  req_from_slot : option Z
}.

Record SubscribeDeshredRequest := mkSubscribeDeshredRequest {
  dreq_deshred_transactions : hash_map SubscribeRequestFilterDeshredTransactions;
  dreq_ping : option Z;
  dreq_slots : hash_map SubscribeRequestFilterSlots
}.

(** [HashMap::insert] on the iteration-order view: replaces in place, or adds. *)
Fixpoint hash_map_insert {V} (k : string) (v : V) (m : hash_map V) : hash_map V :=
  match m with
  | [] => [(k, v)]
  | (k', v') :: m =>
      if decide (k = k') then (k, v) :: m else (k', v') :: hash_map_insert k v m
  end.

(** [HashMap::contains_key]. *)
Definition hash_map_contains_key {V} (k : string) (m : hash_map V) : bool :=
  existsb (λ kv, bool_decide (kv.1 = k)) m.

Lemma hash_map_insert_keys {V} k (v : V) m :
  k ∉ m.*1 → hash_map_insert k v m = m ++ [(k, v)].
Proof.
  induction m as [|[k' v'] m IH]; intros Hk; [done|]. simpl.
  rewrite decide_False by set_solver. rewrite IH; [done|]. set_solver.
Qed.

Lemma elem_of_hash_map_insert {V} k (v : V) m x :
  x ∈ hash_map_insert k v m → x = (k, v) ∨ x ∈ m.
Proof.
  induction m as [|[k' v'] m IH]; simpl; [set_solver|]. case_decide; set_solver.
Qed.
