(* ===== verification/Wire.v ===== *)
(** * The protobuf wire format

    prost's encoding primitives ([prost::encoding]), which the encoders of
    plugin/filter/message.rs and encoder.rs call, as an interface [Prost] with
    its documented laws [ProstLaws]; the generated message types the encoders
    embed, as instances of [ProstMessage]; the length arithmetic of the encoders
    ([usize], wrapping); and the proto3 field encodings used as the reference.
    A field whose value is the default is not written; a length-delimited field
    is its key, its length as a varint and its content. *)

From S2P Require Import Prelude Externals.

Set Default Goal Selector "!".

Local Open Scope Z_scope.

(** [WireType::Varint] and [WireType::LengthDelimited]. *)
Definition wt_varint : Z := 0.
Definition wt_len : Z := 2.

(** The generated [prost::Message] implementation of a message type: the bytes
    of its fields and their number. *)
Class ProstMessage (A : Type) := {
  gen_encode_raw : A → bytes;
  gen_encoded_len : A → Z
}.

(** [prost::encoding]: a function of a tag and a value is the bytes it appends
    to the buffer. [message_encode tag n raw] is [message::encode] of a message
    whose [encoded_len] is [n] and whose [encode_raw] appends [raw]. *)
Class Prost {X : Externals} := {
  key_len : Z → Z;
  encoded_len_varint : Z → Z;
  uint64_encode : Z → Z → bytes;
  uint64_encoded_len : Z → Z → Z;
  uint32_encode : Z → Z → bytes;
  uint32_encoded_len : Z → Z → Z;
  int32_encode : Z → Z → bytes;
  int32_encoded_len : Z → Z → Z;
  bool_encode : Z → bool → bytes;
  bool_encoded_len : Z → bool → Z;
  string_encode : Z → string → bytes;
  string_encoded_len : Z → string → Z;
  message_encode : Z → Z → bytes → bytes;
  message_encoded_len : Z → Z → Z
}.

(** The documented wire format. Booleans and signed numbers are varints: [true]
    is 1 and an [i32] is sign-extended to 64 bits. *)
Class ProstLaws {X : Externals} {P : Prost} : Prop := {
  key_len_ok tag wire : wire = wt_varint ∨ wire = wt_len →
    len (prost_encode_key tag wire) = key_len tag;
  varint_len_ok v : len (prost_encode_varint v) = encoded_len_varint v;
  uint64_ok tag v : uint64_encode tag v = prost_encode_key tag wt_varint ++ prost_encode_varint v;
  uint64_len_ok tag v : uint64_encoded_len tag v = key_len tag + encoded_len_varint v;
  uint32_ok tag v : uint32_encode tag v = prost_encode_key tag wt_varint ++ prost_encode_varint v;
  uint32_len_ok tag v : uint32_encoded_len tag v = key_len tag + encoded_len_varint v;
  int32_ok tag v :
    int32_encode tag v = prost_encode_key tag wt_varint ++ prost_encode_varint (wrap64 v);
  int32_len_ok tag v : int32_encoded_len tag v = key_len tag + encoded_len_varint (wrap64 v);
  bool_ok tag b :
    bool_encode tag b = prost_encode_key tag wt_varint ++ prost_encode_varint (if b : bool then 1 else 0);
  bool_len_ok tag b :
    bool_encoded_len tag b = key_len tag + encoded_len_varint (if b : bool then 1 else 0);
  string_ok tag s : string_encode tag s =
    prost_encode_key tag wt_len ++ prost_encode_varint (wrap64 (len (string_bytes s))) ++ string_bytes s;
  string_len_ok tag s : string_encoded_len tag s =
    key_len tag + encoded_len_varint (wrap64 (len (string_bytes s))) + len (string_bytes s);
  message_ok tag n raw :
    message_encode tag n raw = prost_encode_key tag wt_len ++ prost_encode_varint n ++ raw;
  message_len_ok tag n : message_encoded_len tag n = key_len tag + encoded_len_varint n + n
}.

(** A generated implementation counts the bytes it writes. *)
Class ProstMessageLaw (A : Type) {M : ProstMessage A} : Prop :=
  gen_len_ok (m : A) : gen_encoded_len m = wrap64 (len (gen_encode_raw m)).

(** ** Length arithmetic *)

(** A sum of [usize] terms. *)
Definition usize_sum (l : list Z) : Z := wrap64 (fold_right Z.add 0 l).

(** [agrees b n]: [n] is the number of bytes of [b], as a [usize]. *)
Definition agrees (b : bytes) (n : Z) : Prop := wrap64 n = wrap64 (len b).

Section wire.
Context {X : Externals} {P : Prost}.

(** ** The helpers of message.rs *)

Definition prost_field_encoded_len (tag n : Z) : Z :=
  usize_sum [key_len tag; encoded_len_varint n; n].

Definition prost_bytes_encode_raw (tag : Z) (value : bytes) : bytes :=
  prost_encode_key tag wt_len ++ prost_encode_varint (wrap64 (len value)) ++ value.

Definition prost_bytes_encoded_len (tag : Z) (value : bytes) : Z :=
  prost_field_encoded_len tag (wrap64 (len value)).

(** [prost_repeated_encoded_len_map!], applied to the lengths of the values. *)
Definition prost_repeated_encoded_len_map (tag : Z) (lens : list Z) : Z :=
  usize_sum [key_len tag * len lens; usize_sum ((λ n, encoded_len_varint n + n) <$> lens)].

(** [message::encode] and [message::encoded_len] of a generated message. *)
Definition message_field `{ProstMessage A} (tag : Z) (m : A) : bytes :=
  message_encode tag (gen_encoded_len m) (gen_encode_raw m).

Definition message_field_len `{ProstMessage A} (tag : Z) (m : A) : Z :=
  message_encoded_len tag (gen_encoded_len m).

(** ** The reference: proto3 fields *)

Definition ref_varint (tag v : Z) : bytes := prost_encode_key tag wt_varint ++ prost_encode_varint v.

Definition ref_delimited (tag : Z) (content : bytes) : bytes :=
  prost_encode_key tag wt_len ++ prost_encode_varint (wrap64 (len content)) ++ content.

Definition ref_uint (tag v : Z) : bytes := if decide (v = 0) then [] else ref_varint tag v.

Definition ref_opt_uint (tag : Z) (v : option Z) : bytes := from_option (ref_varint tag) [] v.

Definition ref_bool (tag : Z) (b : bool) : bytes := if b then ref_varint tag 1 else [].

Definition ref_enum (tag v : Z) : bytes := if decide (v = 0) then [] else ref_varint tag (wrap64 v).

Definition ref_bytes (tag : Z) (v : bytes) : bytes := if decide (v = []) then [] else ref_delimited tag v.

Definition ref_opt_bytes (tag : Z) (v : option bytes) : bytes := from_option (ref_delimited tag) [] v.

Definition ref_string (tag : Z) (s : string) : bytes := ref_bytes tag (string_bytes s).

Definition ref_opt_string (tag : Z) (s : option string) : bytes :=
  ref_opt_bytes tag (string_bytes <$> s).

(** A message field that is present, and an optional and a repeated one, given
    the encodings of the messages. *)
Definition ref_message (tag : Z) (m : option bytes) : bytes := ref_opt_bytes tag m.

Definition ref_repeated (tag : Z) (ms : list bytes) : bytes := concat (ref_delimited tag <$> ms).
End wire.

(** ** Lemmas *)

Lemma wrap64_idem z : wrap64 (wrap64 z) = wrap64 z.
Proof. unfold wrap64. by rewrite Z.mod_mod by lia. Qed.

Lemma wrap64_add a b : wrap64 (wrap64 a + b) = wrap64 (a + b).
Proof. unfold wrap64. by rewrite Z.add_mod_idemp_l by lia. Qed.

Lemma wrap64_add_cong a b a' b' :
  wrap64 a = wrap64 a' → wrap64 b = wrap64 b' → wrap64 (a + b) = wrap64 (a' + b').
Proof.
  intros Ha Hb. rewrite <- (wrap64_add a), Ha, wrap64_add, Z.add_comm, <- wrap64_add, Hb, wrap64_add.
  f_equal. lia.
Qed.

Lemma wrap64_small z : 0 <= z < 2 ^ 64 → wrap64 z = z.
Proof. apply Z.mod_small. Qed.

Lemma agrees_len b : agrees b (len b).
Proof. done. Qed.

Lemma agrees_wrap b n : agrees b n → agrees b (wrap64 n).
Proof. unfold agrees. by rewrite wrap64_idem. Qed.

Lemma agrees_wrapped b n : agrees b n → wrap64 n = wrap64 (len b).
Proof. done. Qed.

Lemma agrees_app b1 b2 n1 n2 : agrees b1 n1 → agrees b2 n2 → agrees (b1 ++ b2) (n1 + n2).
Proof. unfold agrees. rewrite len_app. apply wrap64_add_cong. Qed.

(** The sum of the field lengths is the length of the concatenated fields. *)
Lemma agrees_concat bs ns : Forall2 agrees bs ns → usize_sum ns = wrap64 (len (concat bs)).
Proof.
  unfold usize_sum. induction 1 as [|b n bs ns Hb _ IH]; simpl; [done|].
  rewrite len_app. by apply wrap64_add_cong.
Qed.

Lemma agrees_sum bs ns : Forall2 agrees bs ns → agrees (concat bs) (usize_sum ns).
Proof. intros H. unfold agrees. rewrite (agrees_concat _ _ H). apply wrap64_idem. Qed.

Lemma agrees_nil : agrees [] 0.
Proof. done. Qed.

Lemma agrees_if (c : bool) b n :
  agrees b n → agrees (if c then b else []) (if c then n else 0).
Proof. by destruct c. Qed.

Section lemmas.
Context {X : Externals} {P : Prost} {L : ProstLaws}.

Lemma agrees_delimited tag n content :
  agrees content n → n = wrap64 n →
  agrees (prost_encode_key tag wt_len ++ prost_encode_varint n ++ content)
    (prost_field_encoded_len tag n).
Proof.
  intros Hc Hn.
  replace (prost_encode_key tag wt_len ++ prost_encode_varint n ++ content)
    with (concat [prost_encode_key tag wt_len; prost_encode_varint n; content])
    by (simpl; by rewrite app_nil_r).
  apply agrees_sum. repeat constructor; [| |done].
  - rewrite <- (key_len_ok tag wt_len) by by right. apply agrees_len.
  - rewrite <- varint_len_ok. apply agrees_len.
Qed.

Lemma agrees_bytes tag value :
  agrees (prost_bytes_encode_raw tag value) (prost_bytes_encoded_len tag value).
Proof.
  apply agrees_delimited; [by apply agrees_wrap|]. by rewrite wrap64_idem.
Qed.

Lemma agrees_varint tag v :
  agrees (ref_varint tag v) (key_len tag + encoded_len_varint v).
Proof.
  apply agrees_app; [rewrite <- (key_len_ok tag wt_varint) by by left|rewrite <- varint_len_ok];
    apply agrees_len.
Qed.

Lemma agrees_uint64 tag v : agrees (uint64_encode tag v) (uint64_encoded_len tag v).
Proof. rewrite uint64_ok, uint64_len_ok. apply agrees_varint. Qed.

Lemma agrees_uint32 tag v : agrees (uint32_encode tag v) (uint32_encoded_len tag v).
Proof. rewrite uint32_ok, uint32_len_ok. apply agrees_varint. Qed.

Lemma agrees_int32 tag v : agrees (int32_encode tag v) (int32_encoded_len tag v).
Proof. rewrite int32_ok, int32_len_ok. apply agrees_varint. Qed.

Lemma agrees_bool tag b : agrees (bool_encode tag b) (bool_encoded_len tag b).
Proof. rewrite bool_ok, bool_len_ok. apply agrees_varint. Qed.

Lemma agrees_string tag s : agrees (string_encode tag s) (string_encoded_len tag s).
Proof.
  rewrite string_ok, string_len_ok, app_assoc. apply agrees_app; [apply agrees_app|apply agrees_len].
  - rewrite <- (key_len_ok tag wt_len) by by right. apply agrees_len.
  - rewrite <- varint_len_ok. apply agrees_len.
Qed.

Lemma agrees_message_encode tag n raw :
  n = wrap64 (len raw) → agrees (message_encode tag n raw) (message_encoded_len tag n).
Proof.
  intros ->. rewrite message_ok, message_len_ok.
  replace (key_len tag + encoded_len_varint (wrap64 (len raw)) + wrap64 (len raw))
    with (key_len tag + (encoded_len_varint (wrap64 (len raw)) + wrap64 (len raw))) by lia.
  apply agrees_app; [|apply agrees_app; [|by apply agrees_wrap]].
  - rewrite <- (key_len_ok tag wt_len) by by right. apply agrees_len.
  - rewrite <- varint_len_ok. apply agrees_len.
Qed.

Lemma agrees_message_field `{ProstMessageLaw A} tag (m : A) :
  agrees (message_field tag m) (message_field_len tag m).
Proof. apply agrees_message_encode, gen_len_ok. Qed.

(** A repeated field whose items are written with their own length prefix. *)
Lemma agrees_repeated tag (contents : list bytes) :
  agrees (ref_repeated tag contents)
    (prost_repeated_encoded_len_map tag ((λ c, wrap64 (len c)) <$> contents)).
Proof.
  unfold prost_repeated_encoded_len_map, ref_repeated, agrees, usize_sum. simpl.
  rewrite wrap64_idem, Z.add_0_r, (Z.add_comm (key_len tag * _)), wrap64_add.
  induction contents as [|c cs IH]; csimpl; [f_equal; unfold len; simpl; lia|].
  rewrite len_app.
  transitivity (wrap64 ((key_len tag + (encoded_len_varint (wrap64 (len c)) + wrap64 (len c)))
    + (fold_right Z.add 0 ((λ n : Z, encoded_len_varint n + n) <$> ((λ c, wrap64 (len c)) <$> cs))
       + key_len tag * len ((λ c, wrap64 (len c)) <$> cs)))).
  { f_equal. unfold len. simpl length. lia. }
  apply wrap64_add_cong; [|exact IH].
  pose proof (agrees_message_encode tag (wrap64 (len c)) c eq_refl) as Ha.
  rewrite message_ok, message_len_ok in Ha. unfold ref_delimited. rewrite <- Ha. f_equal. lia.
Qed.

(** Fields of a sum: one hint per kind of field. *)
Lemma agrees_field tag n content :
  n = wrap64 (len content) → agrees (ref_delimited tag content) (prost_field_encoded_len tag n).
Proof. intros ->. apply agrees_delimited; [by apply agrees_wrap|]. by rewrite wrap64_idem. Qed.

Lemma agrees_option {A} (f : A → bytes) (g : A → Z) (o : option A) :
  (∀ a, agrees (f a) (g a)) → agrees (from_option f [] o) (from_option g 0 o).
Proof. intros H. destruct o; [apply H|done]. Qed.

Lemma agrees_decide (c : Prop) `{Decision c} b n :
  agrees b n → agrees (if bool_decide c then [] else b) (if bool_decide c then 0 else n).
Proof. by case_bool_decide. Qed.

(** ** The code's fields are the reference's *)

Lemma uint64_field tag v :
  (if bool_decide (v = 0) then [] else uint64_encode tag v) = ref_uint tag v.
Proof. unfold ref_uint. rewrite uint64_ok. by case_bool_decide; case_decide. Qed.

Lemma bytes_field tag v : prost_bytes_encode_raw tag v = ref_delimited tag v.
Proof. done. Qed.

Lemma bytes_nonempty tag v : v ≠ [] → prost_bytes_encode_raw tag v = ref_bytes tag v.
Proof. intros Hv. unfold ref_bytes. by rewrite decide_False. Qed.

Lemma message_delimited tag raw : message_encode tag (wrap64 (len raw)) raw = ref_delimited tag raw.
Proof. apply message_ok. Qed.

Lemma message_field_ref `{ProstMessageLaw A} tag (m : A) :
  message_field tag m = ref_delimited tag (gen_encode_raw m).
Proof. unfold message_field. rewrite gen_len_ok. apply message_delimited. Qed.
End lemmas.

Create HintDb wire.
#[export] Hint Resolve agrees_nil agrees_bytes agrees_uint64 agrees_uint32 agrees_int32 agrees_bool
  agrees_string agrees_message_field agrees_field agrees_option agrees_decide agrees_if
  agrees_repeated : wire.

(** Two lists of fields, one by one. *)
Ltac wire_fields := repeat (apply Forall2_cons; split); [..|by apply Forall2_nil].

(** ** The protobuf varint

    A concrete instance of the interface: base-128 groups, least significant
    first, a continuation bit on all but the last. Ten groups hold 64 bits. *)

Fixpoint leb128 (fuel : nat) (v : Z) : bytes :=
  match fuel with
  | O => []
  | S fuel =>
      if v <? 128 then [bytes_of_Z v] else bytes_of_Z (v mod 128 + 128) :: leb128 fuel (v / 128)
  end.

Definition varint (v : Z) : bytes := leb128 10 v.

#[local] Instance wire_externals : Externals := {|
  ParsePubkeyError := unit;
  pubkey_from_str := @pubkey_from_str toy_externals;
  ParseSignatureError := unit;
  signature_from_str := @signature_from_str toy_externals;
  bs58_decode := @bs58_decode toy_externals;
  base64_decode := @base64_decode toy_externals;
  valid_account_data := @valid_account_data toy_externals;
  siphash24 := @siphash24 toy_externals;
  prost_encode_key := λ tag wire, varint (tag * 8 + wire);
  prost_encode_varint := varint
|}.

Definition wire_key (tag wire : Z) : bytes := varint (tag * 8 + wire).

#[local] Instance wire_prost : Prost := {|
  key_len := λ tag, len (wire_key tag 0);
  encoded_len_varint := λ v, len (varint v);
  uint64_encode := λ tag v, wire_key tag wt_varint ++ varint v;
  uint64_encoded_len := λ tag v, len (wire_key tag 0) + len (varint v);
  uint32_encode := λ tag v, wire_key tag wt_varint ++ varint v;
  uint32_encoded_len := λ tag v, len (wire_key tag 0) + len (varint v);
  int32_encode := λ tag v, wire_key tag wt_varint ++ varint (wrap64 v);
  int32_encoded_len := λ tag v, len (wire_key tag 0) + len (varint (wrap64 v));
  bool_encode := λ tag b, wire_key tag wt_varint ++ varint (if b : bool then 1 else 0);
  bool_encoded_len := λ tag b, len (wire_key tag 0) + len (varint (if b : bool then 1 else 0));
  string_encode := λ tag s, wire_key tag wt_len ++ varint (wrap64 (len (string_bytes s))) ++ string_bytes s;
  string_encoded_len := λ tag s, len (wire_key tag 0) + len (varint (wrap64 (len (string_bytes s))))
    + len (string_bytes s);
  message_encode := λ tag n raw, wire_key tag wt_len ++ varint n ++ raw;
  message_encoded_len := λ tag n, len (wire_key tag 0) + len (varint n) + n
|}.

(** The wire type does not change the length of a key. *)
Lemma leb128_low_bits fuel t w : 0 <= w < 8 → len (leb128 fuel (t * 8 + w)) = len (leb128 fuel (t * 8)).
Proof.
  intros Hw. destruct fuel as [|fuel]; [done|]. simpl.
  assert ((t * 8 + w <? 128) = (t * 8 <? 128)) as ->.
  { destruct (Z.ltb_spec (t * 8 + w) 128), (Z.ltb_spec (t * 8) 128); lia. }
  assert ((t * 8 + w) / 128 = t * 8 / 128) as -> by (Z.div_mod_to_equations; lia).
  destruct (t * 8 <? 128); unfold len; simpl; lia.
Qed.

#[local] Instance wire_prost_laws : ProstLaws.
Proof.
  split; intros; try reflexivity. rename H into Hw.
  change (len (varint (tag * 8 + wire)) = len (varint (tag * 8 + 0))). unfold varint.
  rewrite (leb128_low_bits 10 tag wire) by (unfold wt_varint, wt_len in Hw; lia).
  by rewrite Z.add_0_r.
Qed.

(** A generated message given by its bytes. *)
Definition message_of_bytes {A} (raw : A → bytes) : ProstMessage A :=
  {| gen_encode_raw := raw; gen_encoded_len := λ m, wrap64 (len (raw m)) |}.
