(* ===== verification/Storage.v ===== *)
(** * yellowstone-grpc-proto/proto/solana-storage.proto

    The confirmed-block messages carried by transaction and block updates. A
    message with one field is that field: [TransactionError] its bytes,
    [UnixTimestamp], [BlockHeight] and [NumPartitions] their number. *)

From S2P Require Import Prelude.
From Stdlib Require Import SpecFloat.

Set Default Goal Selector "!".

(** [f64], with [Default::default()] the positive zero. *)
Abbreviation f64 := spec_float.
Definition f64_default : f64 := S754_zero false.

Record UiTokenAmount := mkUiTokenAmount {
  uta_ui_amount : f64;
  uta_decimals : Z;
  uta_amount : string;
  uta_ui_amount_string : string
}.

Record TokenBalance := mkTokenBalance {
  tb_account_index : Z;
  tb_mint : string;
  tb_ui_token_amount : option UiTokenAmount;
  tb_owner : string;
  tb_program_id : string
}.

(** [reward_type] is the [i32] of the enum. *)
Record ProtoReward := mkProtoReward {
  prw_pubkey : string;
  prw_lamports : Z;
  prw_post_balance : Z;
  prw_reward_type : Z;
  prw_commission : string;
  prw_commission_bps : string
}.

Record ProtoRewards := mkProtoRewards {
  prws_rewards : list ProtoReward;
  prws_num_partitions : option Z
}.

Record ProtoReturnData := mkProtoReturnData {
  prd_program_id : bytes;
  prd_data : bytes
}.

Record ProtoCompiledInstruction := mkProtoCompiledInstruction {
  pci_program_id_index : Z;
  pci_accounts : bytes;
  pci_data : bytes
}.

Record ProtoInnerInstruction := mkProtoInnerInstruction {
  pii_program_id_index : Z;
  pii_accounts : bytes;
  pii_data : bytes;
  pii_stack_height : option Z
}.

Record ProtoInnerInstructions := mkProtoInnerInstructions {
  piis_index : Z;
  piis_instructions : list ProtoInnerInstruction
}.

Record ProtoMessageHeader := mkProtoMessageHeader {
  pmh_num_required_signatures : Z;
  pmh_num_readonly_signed_accounts : Z;
  pmh_num_readonly_unsigned_accounts : Z
}.

Record ProtoAddressTableLookup := mkProtoAddressTableLookup {
  pal_account_key : bytes;
  pal_writable_indexes : bytes;
  pal_readonly_indexes : bytes
}.

(** [TransactionConfig] is the same four optional numbers in the protobuf
    schema and in [solana_message::v1]. *)
Record TransactionConfig := mkTransactionConfig {
  tc_priority_fee : option Z;
  tc_compute_unit_limit : option Z;
  tc_loaded_accounts_data_size_limit : option Z;
  tc_heap_size : option Z
}.

Record ProtoMessage := mkProtoMessage {
  pm_header : option ProtoMessageHeader;
  pm_account_keys : list bytes;
  pm_recent_blockhash : bytes;
  pm_instructions : list ProtoCompiledInstruction;
  pm_versioned : bool;
  pm_address_table_lookups : list ProtoAddressTableLookup;
  pm_config : option TransactionConfig
}.

Record Transaction := mkTransaction {
  tx_signatures : list bytes;
  tx_message : option ProtoMessage
}.

Record TransactionStatusMeta := mkTransactionStatusMeta {
  meta_err : option bytes;
  meta_fee : Z;
  meta_pre_balances : list Z;
  meta_post_balances : list Z;
  meta_inner_instructions : list ProtoInnerInstructions;
  meta_inner_instructions_none : bool;
  meta_log_messages : list string;
  meta_log_messages_none : bool;
  meta_pre_token_balances : list TokenBalance;
  meta_post_token_balances : list TokenBalance;
  meta_rewards : list ProtoReward;
  meta_loaded_writable_addresses : list bytes;
  meta_loaded_readonly_addresses : list bytes;
  meta_return_data : option ProtoReturnData;
  meta_return_data_none : bool;
  meta_compute_units_consumed : option Z;
  meta_cost_units : option Z
}.

(** [TransactionStatusMeta::default()] of the generated code. *)
Definition TransactionStatusMeta_default : TransactionStatusMeta :=
  mkTransactionStatusMeta None 0 [] [] [] false [] false [] [] [] [] [] None false None None.

(** A metadata message with the given token balances, the rest default. *)
Definition meta_with_balances (pre post : list TokenBalance) : TransactionStatusMeta :=
  mkTransactionStatusMeta None 0 [] [] [] false [] false pre post [] [] [] None false None None.
