(* ===== verification/Message.v ===== *)
(** * plugin/message.rs: the messages that flow through the plugin

    Commitment levels, slot statuses, the message records (with the fields the
    modelled code reads), [Message] and its [get_slot], and the constructors
    that read key lists. [Arc<T>] is the value it points to, except for the lazily filled
    [OnceLock] cells of a transaction, which are fields threaded by the code
    that fills them (TransactionsFilter.v). *)

From S2P Require Import Prelude Storage.

Set Default Goal Selector "!".

(** [prost_types::Timestamp]. *)
Record Timestamp := mkTimestamp { ts_seconds : Z; ts_nanos : Z }.

Inductive CommitmentLevel := Processed | Confirmed | Finalized.

#[global] Instance CommitmentLevel_eq_dec : EqDecision CommitmentLevel.
Proof. solve_decision. Defined.

(** [CommitmentLevelProto::try_from(i32)] followed by [Into]: the enum of the
    proto file has the values 0, 1, 2. *)
Definition CommitmentLevel_try_from (v : Z) : option CommitmentLevel :=
  if (v =? 0)%Z then Some Processed
  else if (v =? 1)%Z then Some Confirmed
  else if (v =? 2)%Z then Some Finalized
  else None.

(** [CommitmentLevel as i32] of the proto enum. *)
Definition CommitmentLevel_to_proto (c : CommitmentLevel) : Z :=
  match c with Processed => 0 | Confirmed => 1 | Finalized => 2 end.

Definition CommitmentLevel_as_str (c : CommitmentLevel) : string :=
  match c with
  | Processed => "processed"
  | Confirmed => "confirmed"
  | Finalized => "finalized"
  end.

Inductive SlotStatus :=
| StatusProcessed
| StatusConfirmed
| StatusFinalized
| StatusFirstShredReceived
| StatusCompleted
| StatusCreatedBank
| StatusDead.

#[global] Instance SlotStatus_eq_dec : EqDecision SlotStatus.
Proof. solve_decision. Defined.

(** [SlotStatusProto] values 0..6 and the two conversions. *)
Definition SlotStatus_from_proto (v : Z) : option SlotStatus :=
  match v with
  | 0 => Some StatusProcessed
  | 1 => Some StatusConfirmed
  | 2 => Some StatusFinalized
  | 3 => Some StatusFirstShredReceived
  | 4 => Some StatusCompleted
  | 5 => Some StatusCreatedBank
  | 6 => Some StatusDead
  | _ => None
  end%Z.

Definition SlotStatus_to_proto (s : SlotStatus) : Z :=
  match s with
  | StatusProcessed => 0
  | StatusConfirmed => 1
  | StatusFinalized => 2
  | StatusFirstShredReceived => 3
  | StatusCompleted => 4
  | StatusCreatedBank => 5
  | StatusDead => 6
  end.

Definition SlotStatus_as_str (s : SlotStatus) : string :=
  match s with
  | StatusProcessed => "processed"
  | StatusConfirmed => "confirmed"
  | StatusFinalized => "finalized"
  | StatusFirstShredReceived => "first_shread_received"
  | StatusCompleted => "completed"
  | StatusCreatedBank => "created_bank"
  | StatusDead => "dead"
  end.

(** [impl PartialEq<SlotStatus> for CommitmentLevel]. *)
Definition CommitmentLevel_eq_status (c : CommitmentLevel) (s : SlotStatus) : bool :=
  match c, s with
  | Processed, StatusProcessed => true
  | Confirmed, StatusConfirmed => true
  | Finalized, StatusFinalized => true
  | _, _ => false
  end.

(** The geyser interface's slot status, as the match of [From] lists it. *)
Inductive GeyserSlotStatus :=
| GeyserProcessed
| GeyserConfirmed
| GeyserRooted
| GeyserFirstShredReceived
| GeyserCompleted
| GeyserCreatedBank
| GeyserDead (error : string).

Definition SlotStatus_from_geyser (s : GeyserSlotStatus) : SlotStatus :=
  match s with
  | GeyserProcessed => StatusProcessed
  | GeyserConfirmed => StatusConfirmed
  | GeyserRooted => StatusFinalized
  | GeyserFirstShredReceived => StatusFirstShredReceived
  | GeyserCompleted => StatusCompleted
  | GeyserCreatedBank => StatusCreatedBank
  | GeyserDead _ => StatusDead
  end.

Record MessageSlot := mkMessageSlot {
  ms_slot : Z;
  ms_parent : option Z;
  ms_status : SlotStatus;
  ms_dead_error : option string;
  ms_created_at : Timestamp
}.

Definition MessageSlot_from_geyser (now : Timestamp) (slot : Z) (parent : option Z)
    (status : GeyserSlotStatus) : MessageSlot :=
  {| ms_slot := slot;
     ms_parent := parent;
     ms_status := SlotStatus_from_geyser status;
     ms_dead_error := match status with GeyserDead error => Some error | _ => None end;
     ms_created_at := now |}.

(** The [OnceLock] cells ([pre_encoded] and the token-owner sets) are [option]
    fields: [None] until the code that fills them runs (Encode.v,
    TransactionsFilter.v). *)
Record MessageAccountInfo := mkMessageAccountInfo {
  ai_pubkey : Pubkey;
  ai_lamports : Z;
  ai_owner : Pubkey;
  ai_executable : bool;
  ai_rent_epoch : Z;
  ai_data : bytes;
  ai_write_version : Z;
  ai_txn_signature : option Signature;
  ai_pre_encoded : option bytes
}.

Record MessageAccount := mkMessageAccount {
  ma_account : MessageAccountInfo;
  ma_slot : Z;
  ma_is_startup : bool;
  ma_created_at : Timestamp
}.

Record MessageTransactionInfo := mkMessageTransactionInfo {
  ti_signature : Signature;
  ti_is_vote : bool;
  ti_transaction : Transaction;
  ti_meta : TransactionStatusMeta;
  ti_index : Z;
  ti_account_keys : gset Pubkey;
  ti_pre_encoded : option bytes;
  ti_token_owners_all : option (gset Pubkey);
  ti_token_owners_changed : option (gset Pubkey)
}.

(** [Pubkey::try_from(&[u8])]: the slice must have 32 bytes. *)
Definition Pubkey_try_from (b : bytes) : option Pubkey :=
  if decide (length b = 32) then Some b else None.

(** The [for pubkey in pubkeys] loops of [fill_account_keys]. *)
Fixpoint insert_account_keys (keys : gset Pubkey) (l : list bytes)
    : result string (gset Pubkey) :=
  match l with
  | [] => Ok keys
  | b :: l =>
      match Pubkey_try_from b with
      | Some pk => insert_account_keys ({[pk]} ∪ keys) l
      | None => Err "invalid pubkey length"
      end
  end.

Definition MessageTransactionInfo_fill_account_keys (t : MessageTransactionInfo)
    : result string MessageTransactionInfo :=
  keys ← match tx_message (ti_transaction t) with
         | Some msg => insert_account_keys ∅ (pm_account_keys msg)
         | None => Ok ∅
         end;
  keys ← insert_account_keys keys (meta_loaded_writable_addresses (ti_meta t));
  keys ← insert_account_keys keys (meta_loaded_readonly_addresses (ti_meta t));
  Ok {| ti_signature := ti_signature t;
        ti_is_vote := ti_is_vote t;
        ti_transaction := ti_transaction t;
        ti_meta := ti_meta t;
        ti_index := ti_index t;
        ti_account_keys := keys;
        ti_pre_encoded := ti_pre_encoded t;
        ti_token_owners_all := ti_token_owners_all t;
        ti_token_owners_changed := ti_token_owners_changed t |}.

Record MessageTransaction := mkMessageTransaction {
  mt_transaction : MessageTransactionInfo;
  mt_slot : Z;
  mt_created_at : Timestamp
}.

Record MessageDeshredTransactionInfo := mkMessageDeshredTransactionInfo {
  di_signature : Signature;
  di_is_vote : bool;
  di_transaction : Transaction;
  di_static_account_keys : gset Pubkey;
  di_loaded_writable_addresses : list Pubkey;
  di_loaded_readonly_addresses : list Pubkey;
  di_completed_data_set_starting_shred_index : Z;
  di_completed_data_set_ending_shred_index_exclusive : Z
}.

Definition all_account_keys (t : MessageDeshredTransactionInfo) : list Pubkey :=
  elements (di_static_account_keys t)
  ++ di_loaded_writable_addresses t
  ++ di_loaded_readonly_addresses t.

Record MessageDeshredTransaction := mkMessageDeshredTransaction {
  md_transaction : MessageDeshredTransactionInfo;
  md_slot : Z;
  md_created_at : Timestamp
}.

Record MessageEntry := mkMessageEntry {
  me_slot : Z;
  me_index : Z;
  me_num_hashes : Z;
  me_hash : bytes;
  me_executed_transaction_count : Z;
  me_starting_transaction_index : Z;
  me_created_at : Timestamp
}.

(** [MessageBlockMeta] dereferences to the [SubscribeUpdateBlockMeta] it holds:
    every field but [bm_created_at] is a field of that message. *)
Record MessageBlockMeta := mkMessageBlockMeta {
  bm_slot : Z;
  bm_blockhash : string;
  bm_rewards : option ProtoRewards;
  bm_block_time : option Z;
  bm_block_height : option Z;
  bm_parent_slot : Z;
  bm_parent_blockhash : string;
  bm_executed_transaction_count : Z;
  bm_entries_count : Z;
  bm_created_at : Timestamp
}.

(** [SubscribeUpdateBlockMeta] of geyser.proto, and [Deref for MessageBlockMeta]. *)
Record SubscribeUpdateBlockMeta := mkSubscribeUpdateBlockMeta {
  sbm_slot : Z;
  sbm_blockhash : string;
  sbm_rewards : option ProtoRewards;
  sbm_block_time : option Z;
  sbm_block_height : option Z;
  sbm_parent_slot : Z;
  sbm_parent_blockhash : string;
  sbm_executed_transaction_count : Z;
  sbm_entries_count : Z
}.

Definition block_meta (m : MessageBlockMeta) : SubscribeUpdateBlockMeta :=
  {| sbm_slot := bm_slot m;
     sbm_blockhash := bm_blockhash m;
     sbm_rewards := bm_rewards m;
     sbm_block_time := bm_block_time m;
     sbm_block_height := bm_block_height m;
     sbm_parent_slot := bm_parent_slot m;
     sbm_parent_blockhash := bm_parent_blockhash m;
     sbm_executed_transaction_count := bm_executed_transaction_count m;
     sbm_entries_count := bm_entries_count m |}.

Record MessageBlock := mkMessageBlock {
  mb_meta : MessageBlockMeta;
  mb_transactions : list MessageTransaction;
  mb_updated_account_count : Z;
  mb_accounts : list MessageAccount;
  mb_entries : list MessageEntry;
  mb_created_at : Timestamp
}.

Definition MessageBlock_new (now : Timestamp) (meta : MessageBlockMeta)
    (transactions : list MessageTransaction) (accounts : list MessageAccount)
    (entries : list MessageEntry) : MessageBlock :=
  {| mb_meta := meta;
     mb_transactions := transactions;
     mb_updated_account_count := len accounts;
     mb_accounts := accounts;
     mb_entries := entries;
     mb_created_at := now |}.

Inductive Message :=
| MsgSlot (m : MessageSlot)
| MsgAccount (m : MessageAccount)
| MsgTransaction (m : MessageTransaction)
| MsgDeshredTransaction (m : MessageDeshredTransaction)
| MsgEntry (m : MessageEntry)
| MsgBlockMeta (m : MessageBlockMeta)
| MsgBlock (m : MessageBlock).

Definition Message_get_slot (m : Message) : Z :=
  match m with
  | MsgSlot m => ms_slot m
  | MsgAccount m => ma_slot m
  | MsgTransaction m => mt_slot m
  | MsgDeshredTransaction m => md_slot m
  | MsgEntry m => me_slot m
  | MsgBlockMeta m => bm_slot m
  | MsgBlock m => bm_slot (mb_meta m)
  end.

(** ** Lemmas *)

Lemma CommitmentLevel_roundtrip c :
  CommitmentLevel_try_from (CommitmentLevel_to_proto c) = Some c.
Proof. by destruct c. Qed.

Lemma SlotStatus_roundtrip s : SlotStatus_from_proto (SlotStatus_to_proto s) = Some s.
Proof. by destruct s. Qed.

Lemma insert_account_keys_ok keys l keys' :
  insert_account_keys keys l = Ok keys' ↔
  Forall (λ b, length b = 32) l ∧ keys' = list_to_set l ∪ keys.
Proof.
  revert keys. induction l as [|b l IH]; intros keys; simpl.
  - split; [intros [= <-]; split; [done|set_solver]|].
    intros [_ ->]. f_equal. set_solver.
  - unfold Pubkey_try_from. rewrite Forall_cons. case_decide as Hb.
    + rewrite IH. split; intros [? ->]; (split; [tauto|set_solver]).
    + split; [done|]. tauto.
Qed.

(** The keys of a filled transaction are exactly the static keys and the
    loaded addresses, and filling fails exactly on a key of the wrong length. *)
Lemma fill_account_keys_spec t t' :
  MessageTransactionInfo_fill_account_keys t = Ok t' →
  let l := from_option pm_account_keys [] (tx_message (ti_transaction t))
           ++ meta_loaded_writable_addresses (ti_meta t)
           ++ meta_loaded_readonly_addresses (ti_meta t) in
  ti_account_keys t' = list_to_set l ∧ Forall (λ b, length b = 32) l ∧ ti_meta t' = ti_meta t.
Proof.
  unfold MessageTransactionInfo_fill_account_keys.
  assert (∀ o, (match o with Some m => insert_account_keys ∅ (pm_account_keys m) | None => Ok ∅ end)
    = insert_account_keys ∅ (from_option pm_account_keys [] o)) as -> by by intros [].
  destruct (insert_account_keys ∅ _) as [k1|] eqn:E1; simpl; [|done].
  destruct (insert_account_keys k1 _) as [k2|] eqn:E2; simpl; [|done].
  destruct (insert_account_keys k2 _) as [k3|] eqn:E3; simpl; [|done].
  intros [= <-]; simpl.
  apply insert_account_keys_ok in E1 as [? ->], E2 as [? ->], E3 as [? ->].
  rewrite !Forall_app. split; [set_solver|done].
Qed.
