(* ===== verification/BlockReconstruction.v ===== *)
(** * yellowstone-grpc-geyser/src/block_reconstruction.rs

    Blocks are rebuilt from the messages of their slot: [ProcessingSlot]
    collects them, the block machine (a third-party state machine, the
    parameter [BlockMachine]) decides when a block is frozen, and
    [BlockMachineStorage] keeps frozen blocks for replay, pruned from the
    oldest, with the commitment statuses of their slots.

    [Vec] and [VecDeque] are lists, the hash maps and the [BTreeMap] are
    [gmap]s ([btree_entries] is the ordered view). The [expect]s of [seal] and
    of the blockhash are panics. Metrics and logs are not modelled. *)

From S2P Require Import Prelude Storage Message.

Set Default Goal Selector "!".

Local Open Scope Z_scope.

(** ** The third-party state machine *)

Record SlotCommitmentStatusUpdate := mkSlotCommitmentStatusUpdate {
  scu_parent_slot : option Z;
  scu_slot : Z;
  scu_commitment : CommitmentLevel
}.

Inductive SlotLifecycle := LifecycleFirstShredReceived | LifecycleCompleted | LifecycleCreatedBank
  | LifecycleDead.

Record SlotLifecycleUpdate := mkSlotLifecycleUpdate {
  slu_slot : Z;
  slu_parent_slot : option Z;
  slu_stage : SlotLifecycle
}.

Record BlockSummary := mkBlockSummary {
  bs_slot : Z;
  bs_parent_slot : Z;
  bs_blockhash : bytes;
  bs_entry_count : Z;
  bs_executed_transaction_count : Z
}.

Inductive BlockReplayEvent := ReplayLifecycle (u : SlotLifecycleUpdate) | ReplayBlockSummary (b : BlockSummary).

Inductive BlockStateMachineOutput :=
| OutFrozenBlock (slot : Z)
| OutSlotStatus (u : SlotCommitmentStatusUpdate)
| OutForksDetected (slot : Z)
| OutDeadSlotDetected (slot : Z)
| OutBankCreated (slot : Z)
| OutBankReset (slot : Z).

(** [BlocksStateMachine] and [Hash::from_str]. [process_replay_event] reports
    an untracked slot by [false]. *)
Class BlockMachine := {
  machine : Type;
  machine_default : machine;
  process_replay_event : machine → BlockReplayEvent → machine * bool;
  process_consensus_event : machine → SlotCommitmentStatusUpdate → machine;
  is_slot_tracked : machine → Z → bool;
  pop_next_unprocess_blockstore_update : machine → machine * option BlockStateMachineOutput;
  pop_next_dlq : machine → machine * bool;
  machine_gc : machine → machine;
  hash_from_str : string → option bytes
}.

(** Its queues are finite: popping shrinks what is left, and [gc] adds nothing. *)
Class BlockMachineLaws {B : BlockMachine} := {
  pending : machine → nat;
  dlq : machine → nat;
  pop_next_shrinks m m' o : pop_next_unprocess_blockstore_update m = (m', Some o) → (pending m' < pending m)%nat;
  pop_dlq_shrinks m m' : pop_next_dlq m = (m', true) → (dlq m' < dlq m)%nat;
  gc_adds_nothing m : (pending (machine_gc m) <= pending m)%nat
}.

(** ** One slot *)

Record ProcessingSlot := mkProcessingSlot {
  ps_original_messages : list Message;
  ps_account_write_version_map : gmap Pubkey Z;
  ps_blockmeta : option MessageBlockMeta;
  ps_transactions : list MessageTransaction;
  ps_accounts : list MessageAccount;
  ps_entries : list MessageEntry;
  ps_is_sealed : bool
}.

Definition ProcessingSlot_default : ProcessingSlot := mkProcessingSlot [] ∅ None [] [] [] false.

Inductive TrySealError := NotSealable | AlreadySealed.

(** [entry(pubkey).and_modify(max).or_insert(write_version)]. *)
Definition bump_write_version (m : gmap Pubkey Z) (pubkey : Pubkey) (write_version : Z) : gmap Pubkey Z :=
  match m !! pubkey with
  | Some entry => if entry <? write_version then <[pubkey := write_version]> m else m
  | None => <[pubkey := write_version]> m
  end.

Definition add_event (ps : ProcessingSlot) (event : Message) : ProcessingSlot :=
  match event with
  | MsgAccount acc =>
      mkProcessingSlot (ps_original_messages ps ++ [event])
        (bump_write_version (ps_account_write_version_map ps) (ai_pubkey (ma_account acc))
           (ai_write_version (ma_account acc)))
        (ps_blockmeta ps) (ps_transactions ps) (ps_accounts ps ++ [acc]) (ps_entries ps) (ps_is_sealed ps)
  | MsgTransaction tx =>
      mkProcessingSlot (ps_original_messages ps ++ [event]) (ps_account_write_version_map ps)
        (ps_blockmeta ps) (ps_transactions ps ++ [tx]) (ps_accounts ps) (ps_entries ps) (ps_is_sealed ps)
  | MsgEntry entry =>
      mkProcessingSlot (ps_original_messages ps ++ [event]) (ps_account_write_version_map ps)
        (ps_blockmeta ps) (ps_transactions ps) (ps_accounts ps) (ps_entries ps ++ [entry]) (ps_is_sealed ps)
  | _ => ps
  end.

Definition set_sealed (ps : ProcessingSlot) : ProcessingSlot :=
  mkProcessingSlot (ps_original_messages ps) (ps_account_write_version_map ps) (ps_blockmeta ps)
    (ps_transactions ps) (ps_accounts ps) (ps_entries ps) true.

Definition set_blockmeta (ps : ProcessingSlot) (meta : MessageBlockMeta) : ProcessingSlot :=
  mkProcessingSlot (ps_original_messages ps) (ps_account_write_version_map ps) (Some meta)
    (ps_transactions ps) (ps_accounts ps) (ps_entries ps) (ps_is_sealed ps).

Definition ProcessingSlot_try_seal (ps : ProcessingSlot) : result TrySealError unit * ProcessingSlot :=
  if ps_is_sealed ps then (Err AlreadySealed, ps)
  else
    match ps_blockmeta ps with
    | None => (Err NotSealable, ps)
    | Some blockmeta =>
        if len (ps_transactions ps) <? bm_executed_transaction_count blockmeta then (Err NotSealable, ps)
        else if len (ps_entries ps) <? bm_entries_count blockmeta then (Err NotSealable, ps)
        else (Ok tt, set_sealed ps)
    end.

Record FrozenBlock := mkFrozenBlock {
  fb_original_messages : list Message;
  fb_block_meta : MessageBlockMeta;
  fb_pre_computed_message_block : MessageBlock
}.

(** The closure both filters share: the account is the last write of its key. *)
Definition is_latest_write (m : gmap Pubkey Z) (account : MessageAccount) : bool :=
  match m !! ai_pubkey (ma_account account) with
  | Some write_version => write_version =? ai_write_version (ma_account account)
  | None => false
  end.

Definition seal (now : Timestamp) (ps : ProcessingSlot) : outcome FrozenBlock :=
  match ps_blockmeta ps with
  | None => Panic
  | Some block_meta =>
      let account_info_vec :=
        filter (λ a, is_latest_write (ps_account_write_version_map ps) a = true) (ps_accounts ps) in
      let dedup_messages :=
        filter (λ message, match message with
                           | MsgAccount a => is_latest_write (ps_account_write_version_map ps) a
                           | _ => true
                           end = true) (ps_original_messages ps) in
      Done {| fb_original_messages := dedup_messages;
              fb_block_meta := block_meta;
              fb_pre_computed_message_block :=
                MessageBlock_new now block_meta (ps_transactions ps) account_info_vec (ps_entries ps) |}
  end.

(** ** The storage *)

Record SlotProgression := mkSlotProgression {
  sp_commitment : list SlotCommitmentStatusUpdate;
  sp_max_commitment : CommitmentLevel
}.

Definition cmp_commitment_level (a b : CommitmentLevel) : comparison :=
  match a, b with
  | Processed, Processed | Confirmed, Confirmed | Finalized, Finalized => Eq
  | Processed, _ => Lt
  | _, Processed => Gt
  | Confirmed, Finalized => Lt
  | Finalized, Confirmed => Gt
  end.

Definition MINIMUM_FINALIZED_SLOT_TO_BUFFER : Z := 10.

(** The entries of a [BTreeMap] in key order, its first key and [range(slot..)]. *)
Definition btree_keys {A} (m : gmap Z A) : list Z := merge_sort Z.le (elements (dom m)).

Definition btree_first {A} (m : gmap Z A) : option Z := head (btree_keys m).

Definition btree_range {A} (m : gmap Z A) (from : Z) : list (Z * A) :=
  omap (λ k, (λ a, (k, a)) <$> m !! k) (filter (λ k, from <= k) (btree_keys m)).

Section storage.
Context {B : BlockMachine}.

Record BlockMachineStorage := mkBlockMachineStorage {
  bms_processing_slots : gmap Z ProcessingSlot;
  bms_replayed_slot : gmap Z FrozenBlock;
  bms_slot_commitment_progression_map : gmap Z SlotProgression;
  bms_replayed_capacity : Z;
  bms_ready_queue : list (SlotCommitmentStatusUpdate * FrozenBlock);
  bms_state : machine;
  bms_min_slot : option Z;
  bms_num_buffered_finalized_slot : Z
}.

Definition BlockMachineStorage_new (replayed_capacity : Z) : BlockMachineStorage :=
  mkBlockMachineStorage ∅ ∅ ∅ replayed_capacity [] machine_default None 0.

Definition set_state (st : BlockMachineStorage) (m : machine) : BlockMachineStorage :=
  mkBlockMachineStorage (bms_processing_slots st) (bms_replayed_slot st)
    (bms_slot_commitment_progression_map st) (bms_replayed_capacity st) (bms_ready_queue st) m
    (bms_min_slot st) (bms_num_buffered_finalized_slot st).

Definition set_processing (st : BlockMachineStorage) (p : gmap Z ProcessingSlot) : BlockMachineStorage :=
  mkBlockMachineStorage p (bms_replayed_slot st) (bms_slot_commitment_progression_map st)
    (bms_replayed_capacity st) (bms_ready_queue st) (bms_state st) (bms_min_slot st)
    (bms_num_buffered_finalized_slot st).

Definition set_min_slot (st : BlockMachineStorage) (m : option Z) : BlockMachineStorage :=
  mkBlockMachineStorage (bms_processing_slots st) (bms_replayed_slot st)
    (bms_slot_commitment_progression_map st) (bms_replayed_capacity st) (bms_ready_queue st)
    (bms_state st) m (bms_num_buffered_finalized_slot st).

Definition set_ready (st : BlockMachineStorage) (q : list (SlotCommitmentStatusUpdate * FrozenBlock))
    : BlockMachineStorage :=
  mkBlockMachineStorage (bms_processing_slots st) (bms_replayed_slot st)
    (bms_slot_commitment_progression_map st) (bms_replayed_capacity st) q
    (bms_state st) (bms_min_slot st) (bms_num_buffered_finalized_slot st).

Definition refresh_min_slot (st : BlockMachineStorage) : BlockMachineStorage :=
  set_min_slot st (btree_first (bms_replayed_slot st)).

Definition prune_slot (st : BlockMachineStorage) (slot : Z) (refresh : bool) : BlockMachineStorage :=
  let num :=
    match bms_slot_commitment_progression_map st !! slot with
    | Some progression =>
        if decide (sp_max_commitment progression = Finalized)
        then saturating_sub (bms_num_buffered_finalized_slot st) 1
        else bms_num_buffered_finalized_slot st
    | None => bms_num_buffered_finalized_slot st
    end in
  let st := mkBlockMachineStorage (delete slot (bms_processing_slots st))
    (delete slot (bms_replayed_slot st)) (delete slot (bms_slot_commitment_progression_map st))
    (bms_replayed_capacity st) (bms_ready_queue st) (bms_state st) (bms_min_slot st) num in
  if refresh then refresh_min_slot st else st.

Definition slot_reset (st : BlockMachineStorage) (slot : Z) : BlockMachineStorage :=
  let st := prune_slot st slot true in
  set_ready st (filter (λ q, bm_slot (fb_block_meta q.2) ≠ slot) (bms_ready_queue st)).

(** The lifecycle stage of a slot status, when it is one. *)
Definition life_cycle_status (s : SlotStatus) : option SlotLifecycle :=
  match s with
  | StatusFirstShredReceived => Some LifecycleFirstShredReceived
  | StatusCompleted => Some LifecycleCompleted
  | StatusCreatedBank => Some LifecycleCreatedBank
  | StatusDead => Some LifecycleDead
  | _ => None
  end.

Definition commitment_of_status (s : SlotStatus) : option CommitmentLevel :=
  match s with
  | StatusProcessed => Some Processed
  | StatusConfirmed => Some Confirmed
  | StatusFinalized => Some Finalized
  | _ => None
  end.

(** [Err(UntrackedSlot)] is [false]; the [unreachable!()] arms panic. *)
Definition on_message_slot (st : BlockMachineStorage) (slot_update : MessageSlot)
    : outcome (BlockMachineStorage * bool) :=
  let lifecycle stage :=
    let '(m, ok) := process_replay_event (bms_state st) (ReplayLifecycle
      {| slu_slot := ms_slot slot_update; slu_parent_slot := ms_parent slot_update;
         slu_stage := stage |}) in
    Done (set_state st m, ok) in
  match life_cycle_status (ms_status slot_update) with
  | Some stage => lifecycle stage
  | None =>
      match ms_dead_error slot_update with
      | Some _ => lifecycle LifecycleDead
      | None =>
          match commitment_of_status (ms_status slot_update) with
          | Some commitment =>
              Done (set_state st (process_consensus_event (bms_state st)
                {| scu_parent_slot := ms_parent slot_update; scu_slot := ms_slot slot_update;
                   scu_commitment := commitment |}), true)
          | None => Panic
          end
      end
  end.

Definition try_seal (st : BlockMachineStorage) (slot : Z) : outcome BlockMachineStorage :=
  match bms_processing_slots st !! slot with
  | None => Done st
  | Some buf =>
      match ProcessingSlot_try_seal buf with
      | (Err _, _) => Done st
      | (Ok _, buf) =>
          let st := set_processing st (<[slot := buf]> (bms_processing_slots st)) in
          match ps_blockmeta buf with
          | None => Panic
          | Some block_meta =>
              match hash_from_str (bm_blockhash block_meta) with
              | None => Panic
              | Some hash =>
                  let '(m, _) := process_replay_event (bms_state st) (ReplayBlockSummary
                    {| bs_slot := bm_slot block_meta; bs_parent_slot := bm_parent_slot block_meta;
                       bs_blockhash := hash; bs_entry_count := bm_entries_count block_meta;
                       bs_executed_transaction_count := bm_executed_transaction_count block_meta |}) in
                  Done (set_state st m)
              end
          end
      end
  end.

Definition handle_block_meta (st : BlockMachineStorage) (block_meta : MessageBlockMeta)
    : outcome BlockMachineStorage :=
  match bms_processing_slots st !! bm_slot block_meta with
  | Some block =>
      try_seal (set_processing st
        (<[bm_slot block_meta := set_blockmeta block block_meta]> (bms_processing_slots st)))
        (bm_slot block_meta)
  | None => Done st
  end.

Definition handle_block_data (st : BlockMachineStorage) (block_data : Message)
    : outcome BlockMachineStorage :=
  let slot := Message_get_slot block_data in
  if negb (is_slot_tracked (bms_state st) slot) then Done st
  else if decide (is_Some (bms_replayed_slot st !! slot)) then Done st
  else
    let slot_buf := default ProcessingSlot_default (bms_processing_slots st !! slot) in
    try_seal (set_processing st (<[slot := add_event slot_buf block_data]> (bms_processing_slots st))) slot.

(** The [while] loop of [gc]; [fuel] bounds the rounds. *)
Fixpoint gc_loop (fuel : nat) (st : BlockMachineStorage) : BlockMachineStorage :=
  match fuel with
  | O => st
  | S fuel =>
      if (bms_replayed_capacity st <? Z.of_nat (size (bms_replayed_slot st)))
         && (MINIMUM_FINALIZED_SLOT_TO_BUFFER <? bms_num_buffered_finalized_slot st)
      then
        match btree_first (bms_replayed_slot st) with
        | Some oldest_slot => gc_loop fuel (prune_slot st oldest_slot false)
        | None => gc_loop fuel st
        end
      else st
  end.

Definition gc (st : BlockMachineStorage) : BlockMachineStorage :=
  let st := gc_loop (S (size (bms_replayed_slot st))) st in
  let st := refresh_min_slot st in
  set_state st (machine_gc (bms_state st)).

(** The [entry(slot).and_modify(..).or_insert_with(..)] of [SlotStatus]: the
    progression and whether the finalized counter is incremented. *)
Definition progress (o : option SlotProgression) (u : SlotCommitmentStatusUpdate)
    : SlotProgression * bool :=
  match o with
  | Some progression =>
      let fresh := negb (existsb (λ s, bool_decide (scu_commitment s = scu_commitment u))
                           (sp_commitment progression)) in
      (mkSlotProgression
         (if fresh then sp_commitment progression ++ [u] else sp_commitment progression)
         (match cmp_commitment_level (scu_commitment u) (sp_max_commitment progression) with
          | Gt => scu_commitment u
          | _ => sp_max_commitment progression
          end),
       fresh && bool_decide (scu_commitment u = Finalized))
  | None => (mkSlotProgression [u] (scu_commitment u), bool_decide (scu_commitment u = Finalized))
  end.

Definition on_slot_status (st : BlockMachineStorage) (u : SlotCommitmentStatusUpdate)
    : BlockMachineStorage :=
  let slot := scu_slot u in
  let '(progression, counted) := progress (bms_slot_commitment_progression_map st !! slot) u in
  let ready := match bms_replayed_slot st !! slot with
               | Some block => bms_ready_queue st ++ [(u, block)]
               | None => bms_ready_queue st
               end in
  let st := mkBlockMachineStorage (bms_processing_slots st) (bms_replayed_slot st)
    (<[slot := progression]> (bms_slot_commitment_progression_map st)) (bms_replayed_capacity st)
    ready (bms_state st) (bms_min_slot st)
    (bms_num_buffered_finalized_slot st + (if counted : bool then 1 else 0)) in
  if decide (scu_commitment u = Finalized) then gc st else st.

Definition on_frozen_block (now : Timestamp) (st : BlockMachineStorage) (slot : Z)
    : outcome BlockMachineStorage :=
  match bms_processing_slots st !! slot with
  | None => Done st
  | Some replayed_slot =>
      frozen_slot ← seal now replayed_slot;
      Done (mkBlockMachineStorage (delete slot (bms_processing_slots st))
        (<[slot := frozen_slot]> (bms_replayed_slot st)) (bms_slot_commitment_progression_map st)
        (bms_replayed_capacity st) (bms_ready_queue st) (bms_state st)
        (Some (from_option (λ m, Z.min m slot) slot (bms_min_slot st)))
        (bms_num_buffered_finalized_slot st))
  end.

Definition on_blockmachine_output (now : Timestamp) (st : BlockMachineStorage)
    (output : BlockStateMachineOutput) : outcome BlockMachineStorage :=
  match output with
  | OutFrozenBlock slot => on_frozen_block now st slot
  | OutSlotStatus u => Done (on_slot_status st u)
  | OutForksDetected slot => Done (prune_slot st slot true)
  | OutDeadSlotDetected slot => Done (prune_slot st slot true)
  | OutBankCreated _ => Done st
  | OutBankReset slot => Done (slot_reset st slot)
  end.

(** The two [while let] loops of [add]; [None] when the fuel runs out. *)
Fixpoint drain_outputs (fuel : nat) (now : Timestamp) (st : BlockMachineStorage)
    : outcome (option BlockMachineStorage) :=
  match fuel with
  | O => Done None
  | S fuel =>
      let '(m, o) := pop_next_unprocess_blockstore_update (bms_state st) in
      let st := set_state st m in
      match o with
      | Some output => st ← on_blockmachine_output now st output; drain_outputs fuel now st
      | None => Done (Some st)
      end
  end.

Fixpoint drain_dlq (fuel : nat) (m : machine) : option machine :=
  match fuel with
  | O => None
  | S fuel =>
      let '(m, some) := pop_next_dlq m in
      if some : bool then drain_dlq fuel m else Some m
  end.

Definition dispatch (st : BlockMachineStorage) (message : Message) : outcome BlockMachineStorage :=
  match message with
  | MsgSlot m => '(st, _) ← on_message_slot st m; Done st
  | MsgAccount _ | MsgTransaction _ | MsgEntry _ => handle_block_data st message
  | MsgBlockMeta m => handle_block_meta st m
  | _ => Done st
  end.

Definition add (fuel : nat) (now : Timestamp) (st : BlockMachineStorage) (message : Message)
    : outcome (option BlockMachineStorage) :=
  st ← dispatch st message;
  o ← drain_outputs fuel now st;
  Done (st ← o; m ← drain_dlq fuel (bms_state st); Some (set_state st m)).

Definition pop_ready_block (st : BlockMachineStorage)
    : option (SlotCommitmentStatusUpdate * FrozenBlock) * BlockMachineStorage :=
  match bms_ready_queue st with
  | [] => (None, st)
  | q :: rest => (Some q, set_ready st rest)
  end.

Record ReplayedSlot := mkReplayedSlot {
  rs_frozen_block : FrozenBlock;
  rs_slot_status_messages : list SlotCommitmentStatusUpdate
}.

(** One item of [ReplayIter::next]'s loop, and the iterator collected. *)
Definition replay_item (st : BlockMachineStorage) (min_commitment : CommitmentLevel)
    (entry : Z * FrozenBlock) : option ReplayedSlot :=
  progression ← bms_slot_commitment_progression_map st !! entry.1;
  match cmp_commitment_level (sp_max_commitment progression) min_commitment with
  | Lt => None
  | _ => Some (mkReplayedSlot entry.2 (sp_commitment progression))
  end.

Definition replay_from_slot (st : BlockMachineStorage) (slot : Z) (min_commitment : CommitmentLevel)
    : list ReplayedSlot :=
  omap (replay_item st min_commitment) (btree_range (bms_replayed_slot st) slot).

Definition min_replayable_slot (st : BlockMachineStorage) : option Z := bms_min_slot st.
End storage.
