(* ===== verification/BlockReconstructionSpec.v ===== *)
(** * What block reconstruction promises

    The block built for a slot holds the slot's transactions and entries in
    order and the last write of each account; the storage keeps its counters and
    keys consistent, is pruned from the oldest slot, terminates on every
    message, and replays its blocks in slot order. *)

From S2P Require Import Prelude Storage Message BlockReconstruction.

Set Default Goal Selector "!".

Local Open Scope Z_scope.

(** ** Ordered maps *)

Section btree.
Context {A : Type}.
Implicit Types (m : gmap Z A).

Lemma elem_of_btree_keys m k : k ∈ btree_keys m ↔ is_Some (m !! k).
Proof.
  unfold btree_keys. rewrite (merge_sort_Permutation Z.le), elem_of_elements. apply elem_of_dom.
Qed.

Lemma btree_keys_sorted m : StronglySorted Z.lt (btree_keys m).
Proof.
  assert (StronglySorted Z.le (btree_keys m)) as Hs by (apply StronglySorted_merge_sort; apply _).
  assert (NoDup (btree_keys m)) as Hnd.
  { unfold btree_keys. rewrite (merge_sort_Permutation Z.le). apply NoDup_elements. }
  revert Hs Hnd. generalize (btree_keys m). induction l as [|k l IH]; intros Hs Hnd; [constructor|].
  apply StronglySorted_inv in Hs as [Hs Hall]. apply NoDup_cons in Hnd as [Hk Hnd].
  constructor; [by apply IH|]. rewrite Forall_forall in *. intros x Hx.
  specialize (Hall x Hx). assert (x ≠ k) by (by intros ->). lia.
Qed.

Lemma btree_first_Some m k :
  btree_first m = Some k ↔ is_Some (m !! k) ∧ ∀ k', is_Some (m !! k') → k <= k'.
Proof.
  unfold btree_first. pose proof (elem_of_btree_keys m) as Hin. pose proof (btree_keys_sorted m) as Hs.
  destruct (btree_keys m) as [|k0 l]; simpl.
  - split; [done|]. intros [Hk _]. apply Hin in Hk. by apply elem_of_nil in Hk.
  - apply StronglySorted_inv in Hs as [_ Hall]. rewrite Forall_forall in Hall. split.
    + intros [= <-]. split; [apply Hin; by left|]. intros k' Hk'.
      apply Hin, elem_of_cons in Hk' as [->|Hk']; [lia|]. specialize (Hall _ Hk'). lia.
    + intros [Hk Hmin]. f_equal. assert (k <= k0) by (apply Hmin, Hin; by left).
      apply Hin, elem_of_cons in Hk as [->|Hk]; [done|]. specialize (Hall _ Hk). lia.
Qed.

Lemma btree_first_None m : btree_first m = None ↔ m = ∅.
Proof.
  split.
  - intros H. apply map_empty. intros i. destruct (m !! i) as [a|] eqn:E; [|done].
    assert (i ∈ btree_keys m) as Hi by (apply elem_of_btree_keys; by rewrite E).
    unfold btree_first in H. destruct (btree_keys m); [|done]. by apply elem_of_nil in Hi.
  - intros ->. destruct (btree_first ∅) as [k|] eqn:E; [|done].
    apply btree_first_Some in E as [[a Ha] _]. done.
Qed.

Lemma btree_first_insert m k a :
  btree_first (<[k := a]> m) = Some (from_option (λ k', Z.min k' k) k (btree_first m)).
Proof.
  apply btree_first_Some. destruct (btree_first m) as [k0|] eqn:E; simpl.
  - apply btree_first_Some in E as [Hk0 Hmin]. split.
    + destruct (decide (k <= k0)); [rewrite Z.min_r by done; by rewrite lookup_insert_eq|].
      rewrite Z.min_l by lia. by rewrite lookup_insert_ne by lia.
    + intros k'. destruct (decide (k' = k)) as [->|]; [lia|]. rewrite lookup_insert_ne by done.
      intros Hk'. specialize (Hmin _ Hk'). lia.
  - apply btree_first_None in E as ->. rewrite lookup_insert_eq. split; [done|]. intros k'.
    destruct (decide (k' = k)) as [->|]; [lia|]. rewrite lookup_insert_ne by done. by intros [? ?].
Qed.

Lemma elem_of_btree_range m from k a : (k, a) ∈ btree_range m from ↔ from <= k ∧ m !! k = Some a.
Proof.
  unfold btree_range. rewrite list_elem_of_omap. split.
  - intros (k' & Hk' & Hl). apply list_elem_of_filter in Hk' as [Hfrom _].
    destruct (m !! k') as [a'|] eqn:E; simpl in Hl; [|done]. by simplify_eq.
  - intros [Hfrom Ha]. exists k. rewrite Ha. split; [|done]. apply list_elem_of_filter.
    split; [done|]. apply elem_of_btree_keys. by rewrite Ha.
Qed.

Lemma btree_range_sorted m from : StronglySorted (λ e1 e2, e1.1 < e2.1) (btree_range m from).
Proof.
  unfold btree_range. pose proof (btree_keys_sorted m) as Hs.
  induction Hs as [|k l Hs IH Hall]; simpl; [constructor|]. rewrite filter_cons.
  case_decide; [|done]. simpl. destruct (m !! k) as [a|]; simpl; [|done].
  constructor; [done|]. apply Forall_forall. intros [k' a'] Hin.
  apply list_elem_of_omap in Hin as (k'' & Hk'' & Hl). apply list_elem_of_filter in Hk'' as [_ Hk''].
  destruct (m !! k''); simpl in Hl; [|done]. simplify_eq. rewrite Forall_forall in Hall. by apply Hall.
Qed.
End btree.

Lemma list_filter_ext_In {A} (P1 P2 : A → Prop) `{!∀ x, Decision (P1 x), !∀ x, Decision (P2 x)}
    (l : list A) :
  (∀ x, x ∈ l → P1 x ↔ P2 x) → filter P1 l = filter P2 l.
Proof.
  intros Hiff. induction l as [|a l IH]; [done|]. rewrite !filter_cons.
  rewrite IH by (intros x Hx; apply Hiff; by right). specialize (Hiff a ltac:(by left)).
  do 2 case_decide; tauto || done.
Qed.

(** ** One slot: what its messages add up to *)

Definition account_of (e : Message) : option MessageAccount :=
  match e with MsgAccount a => Some a | _ => None end.
Definition transaction_of (e : Message) : option MessageTransaction :=
  match e with MsgTransaction t => Some t | _ => None end.
Definition entry_of (e : Message) : option MessageEntry :=
  match e with MsgEntry n => Some n | _ => None end.

Definition is_block_data (e : Message) : Prop :=
  match e with MsgAccount _ | MsgTransaction _ | MsgEntry _ => True | _ => False end.

#[global] Instance is_block_data_dec e : Decision (is_block_data e).
Proof. destruct e; apply _. Defined.

(** No later version of the account was written in the slot. *)
Definition latest_write (events : list Message) (a : MessageAccount) : Prop :=
  Forall (λ a', ai_pubkey (ma_account a') = ai_pubkey (ma_account a) →
                ai_write_version (ma_account a') <= ai_write_version (ma_account a))
    (omap account_of events).

#[global] Instance latest_write_dec events a : Decision (latest_write events a).
Proof. unfold latest_write. apply _. Defined.

Definition kept (events : list Message) (e : Message) : Prop :=
  match e with MsgAccount a => latest_write events a | _ => True end.

#[global] Instance kept_dec events e : Decision (kept events e).
Proof. destruct e; simpl; apply _. Defined.

(** The block the events of a slot amount to. *)
Definition block_of_events (now : Timestamp) (events : list Message) (meta : MessageBlockMeta)
    : FrozenBlock :=
  {| fb_original_messages := filter (kept events) events;
     fb_block_meta := meta;
     fb_pre_computed_message_block := MessageBlock_new now meta (omap transaction_of events)
       (filter (latest_write events) (omap account_of events)) (omap entry_of events) |}.

(** The map holds the highest version written of each account. *)
Definition versions_of (accounts : list MessageAccount) (m : gmap Pubkey Z) : Prop := ∀ pk,
  match m !! pk with
  | Some v =>
      (∃ a, a ∈ accounts ∧ ai_pubkey (ma_account a) = pk ∧ ai_write_version (ma_account a) = v) ∧
      ∀ a, a ∈ accounts → ai_pubkey (ma_account a) = pk → ai_write_version (ma_account a) <= v
  | None => ∀ a, a ∈ accounts → ai_pubkey (ma_account a) ≠ pk
  end.

(** The slot that has received some block data. *)
Record slot_holds (ps : ProcessingSlot) (events : list Message) : Prop := {
  sh_data : Forall is_block_data events;
  sh_messages : ps_original_messages ps = events;
  sh_transactions : ps_transactions ps = omap transaction_of events;
  sh_accounts : ps_accounts ps = omap account_of events;
  sh_entries : ps_entries ps = omap entry_of events;
  sh_versions : versions_of (omap account_of events) (ps_account_write_version_map ps)
}.

Lemma slot_holds_default : slot_holds ProcessingSlot_default [].
Proof. split; try done. intros pk. simpl. rewrite lookup_empty. intros a Ha. by apply elem_of_nil in Ha. Qed.

Lemma slot_holds_seal ps events : slot_holds ps events → slot_holds (set_sealed ps) events.
Proof. by intros []; split. Qed.

Lemma slot_holds_meta ps events meta : slot_holds ps events → slot_holds (set_blockmeta ps meta) events.
Proof. by intros []; split. Qed.

Lemma bump_lookup m pk v :
  bump_write_version m pk v !! pk = Some (from_option (Z.max v) v (m !! pk)).
Proof.
  unfold bump_write_version. destruct (m !! pk) as [w|] eqn:E; simpl; [|by rewrite lookup_insert_eq].
  destruct (Z.ltb_spec w v); [rewrite lookup_insert_eq|rewrite E]; f_equal; lia.
Qed.

Lemma bump_lookup_ne m pk pk' v : pk ≠ pk' → bump_write_version m pk v !! pk' = m !! pk'.
Proof.
  intros Hne. unfold bump_write_version. destruct (m !! pk) as [w|]; [destruct (w <? v)|]; try done;
    by rewrite lookup_insert_ne.
Qed.

Lemma versions_of_bump accounts m a :
  versions_of accounts m →
  versions_of (accounts ++ [a])
    (bump_write_version m (ai_pubkey (ma_account a)) (ai_write_version (ma_account a))).
Proof.
  intros Hm pk. specialize (Hm pk). destruct (decide (ai_pubkey (ma_account a) = pk)) as [<-|Hne].
  - rewrite bump_lookup. set (v := ai_write_version (ma_account a)) in *.
    destruct (m !! ai_pubkey (ma_account a)) as [w|]; cbn [from_option].
    + destruct Hm as [(a' & Ha' & Hpk & Hw) Hmax]. split.
      * destruct (Z.max_spec v w) as [[? ->]|[? ->]].
        -- exists a'. split; [set_solver|done].
        -- exists a. split; [set_solver|done].
      * intros b Hb Hpk'. apply elem_of_app in Hb as [Hb|Hb%list_elem_of_singleton].
        -- specialize (Hmax b Hb Hpk'). lia.
        -- subst b. unfold v. lia.
    + split; [exists a; split; [set_solver|done]|]. intros b Hb Hpk.
      apply elem_of_app in Hb as [Hb|Hb%list_elem_of_singleton]; [by specialize (Hm b Hb)|].
      by subst b.
  - rewrite bump_lookup_ne by done. destruct (m !! pk) as [w|].
    + destruct Hm as [(a' & Ha' & Hpk & Hw) Hmax]. split; [exists a'; split; [set_solver|done]|].
      intros b Hb Hpk'. apply elem_of_app in Hb as [Hb|Hb%list_elem_of_singleton]; [by apply Hmax|].
      by subst b.
    + intros b Hb. apply elem_of_app in Hb as [Hb|Hb%list_elem_of_singleton]; [by apply Hm|].
      by subst b.
Qed.

Lemma slot_holds_add ps events e :
  is_block_data e → slot_holds ps events → slot_holds (add_event ps e) (events ++ [e]).
Proof.
  intros He [H1 H2 H3 H4 H5 H6].
  assert (Forall is_block_data (events ++ [e])) by (apply Forall_app; split; [done|by constructor]).
  destruct e; try done; split; cbn [add_event ps_original_messages ps_transactions ps_accounts
    ps_entries ps_account_write_version_map]; rewrite ?omap_app, ?app_nil_r; cbn [omap list_omap
    account_of transaction_of entry_of]; rewrite ?app_nil_r; try congruence; try done.
  by apply versions_of_bump.
Qed.

Lemma is_latest_write_spec accounts m events a :
  versions_of (omap account_of events) m → accounts = omap account_of events → a ∈ accounts →
  is_latest_write m a = true ↔ latest_write events a.
Proof.
  intros Hm -> Ha. specialize (Hm (ai_pubkey (ma_account a))).
  unfold is_latest_write, latest_write. rewrite Forall_forall.
  destruct (m !! ai_pubkey (ma_account a)) as [v|]; [|by specialize (Hm a Ha)].
  destruct Hm as [(b & Hb & Hpk & Hv) Hmax]. rewrite Z.eqb_eq. split.
  - intros Heq a' Ha' Hpk'. rewrite <- Heq. by apply Hmax.
  - intros Hle. specialize (Hle b Hb Hpk). specialize (Hmax a Ha eq_refl). lia.
Qed.

(** Sealing gives the block of the events, once the block meta is known. *)
Lemma seal_block_of_events now ps events meta :
  slot_holds ps events → ps_blockmeta ps = Some meta →
  seal now ps = Done (block_of_events now events meta).
Proof.
  intros [H1 H2 H3 H4 H5 H6] Hmeta. unfold seal. rewrite Hmeta. unfold block_of_events. do 2 f_equal.
  - rewrite H2. apply list_filter_ext_In. intros e He. destruct e as [|a| | | | |]; try done. simpl.
    eapply is_latest_write_spec; [done|reflexivity|]. apply list_elem_of_omap. by exists (MsgAccount a).
  - assert (filter (λ a, is_latest_write (ps_account_write_version_map ps) a = true) (ps_accounts ps)
      = filter (latest_write events) (omap account_of events)) as ->; [|by rewrite H3, H5].
    rewrite H4. apply list_filter_ext_In. intros a Ha.
    by apply (is_latest_write_spec (omap account_of events)).
Qed.

(** ** The storage *)

Definition finalized (p : SlotProgression) : Prop := sp_max_commitment p = Finalized.

#[global] Instance finalized_dec p : Decision (finalized p).
Proof. unfold finalized. apply _. Defined.
#[global] Arguments finalized_dec : simpl never.

Definition finalized_slots (m : gmap Z SlotProgression) : Z :=
  Z.of_nat (size (filter (λ kv, finalized kv.2) m)).

Definition b2z (c : Prop) `{Decision c} : Z := if decide c then 1 else 0.

Lemma finalized_slots_delete m k :
  finalized_slots (delete k m) =
  finalized_slots m - from_option (λ p, b2z (finalized p)) 0 (m !! k).
Proof.
  unfold finalized_slots, b2z. rewrite map_filter_delete, map_size_delete, map_lookup_filter.
  destruct (m !! k) as [p|] eqn:E; cbn [from_option mbind option_bind]; [|simpl; lia].
  case_guard as Hf; cbn [mbind option_bind snd] in *.
  - rewrite decide_True by done.
    assert (size (filter (λ kv, finalized kv.2) m) ≠ 0%nat); [|simpl; lia].
    apply map_size_non_empty_iff. intros He.
    assert (filter (λ kv : Z * SlotProgression, finalized kv.2) m !! k = Some p) as Hk
      by by apply map_lookup_filter_Some.
    by rewrite He in Hk.
  - rewrite decide_False by done. simpl. lia.
Qed.

Lemma finalized_slots_insert m k p :
  finalized_slots (<[k := p]> m) =
  finalized_slots m - from_option (λ p, b2z (finalized p)) 0 (m !! k) + b2z (finalized p).
Proof.
  rewrite <- (finalized_slots_delete m k), <- insert_delete_eq. unfold finalized_slots, b2z.
  rewrite map_filter_insert. cbn [snd]. case_decide.
  - rewrite map_size_insert, map_lookup_filter, lookup_delete_eq. simpl. lia.
  - rewrite delete_delete_eq. lia.
Qed.

(** The statuses of one slot. *)
Record progression_ok (slot : Z) (p : SlotProgression) : Prop := {
  po_slot : Forall (λ u, scu_slot u = slot) (sp_commitment p);
  po_nodup : NoDup (scu_commitment <$> sp_commitment p);
  po_max_in : sp_max_commitment p ∈ scu_commitment <$> sp_commitment p;
  po_max : Forall (λ c, cmp_commitment_level c (sp_max_commitment p) ≠ Gt) (scu_commitment <$> sp_commitment p)
}.

Lemma fresh_spec l c :
  negb (existsb (λ s, bool_decide (scu_commitment s = c)) l) = bool_decide (c ∉ scu_commitment <$> l).
Proof.
  apply eq_true_iff_eq. rewrite negb_true_iff, <- not_true_iff_false, existsb_In, bool_decide_eq_true.
  rewrite list_elem_of_fmap. apply not_iff_compat. split.
  - intros (x & Hx & He%bool_decide_eq_true). by exists x.
  - intros (x & -> & Hx). exists x. by rewrite bool_decide_eq_true.
Qed.

Lemma cmp_le_trans a b c :
  cmp_commitment_level a b ≠ Gt → cmp_commitment_level b c ≠ Gt → cmp_commitment_level a c ≠ Gt.
Proof. by destruct a, b, c. Qed.

Lemma finality_change (c mx : CommitmentLevel) :
  (mx = Finalized → c ≠ Finalized) →
  (if bool_decide (c = Finalized) then 1 else 0) =
  b2z (match cmp_commitment_level c mx with Gt => c | _ => mx end = Finalized) - b2z (mx = Finalized).
Proof. destruct c, mx; intros H; try done; by destruct H. Qed.

(** One status: the progression stays consistent, and the counter changes by
    what the finality of the slot changes by. *)
Lemma progress_ok slot o u p counted :
  from_option (progression_ok slot) True o → scu_slot u = slot → progress o u = (p, counted) →
  progression_ok slot p ∧
  (if counted then 1 else 0) = b2z (finalized p) - from_option (λ p, b2z (finalized p)) 0 o.
Proof.
  intros Ho Hu. destruct o as [q|]; simpl in *; intros [= <- <-].
  - destruct Ho as [Hs Hnd Hin Hmax]. rewrite fresh_spec.
    set (c := scu_commitment u) in *. set (cs := scu_commitment <$> sp_commitment q) in *.
    set (mx := sp_max_commitment q) in *.
    set (mx' := match cmp_commitment_level c mx with Gt => c | _ => mx end).
    assert (cmp_commitment_level c mx' ≠ Gt ∧ cmp_commitment_level mx mx' ≠ Gt) as [Hc Hm].
    { unfold mx'. by destruct c, mx. }
    assert (Forall (λ c, cmp_commitment_level c mx' ≠ Gt) cs) as Hall.
    { eapply Forall_impl; [exact Hmax|]. intros x Hx. by apply (cmp_le_trans x mx). }
    assert (mx' = c ∨ mx' = mx) as Hor by (unfold mx'; destruct c, mx; auto).
    case_bool_decide as Hf.
    + split.
      * split; cbn [sp_commitment sp_max_commitment]; fold mx'; rewrite ?fmap_app; fold cs.
        -- apply Forall_app. split; [done|by constructor].
        -- apply NoDup_app. split; [done|]. split; [|apply NoDup_singleton].
           intros x Hx Hx'. apply list_elem_of_singleton in Hx'. by subst x.
        -- apply elem_of_app. destruct Hor as [->| ->]; [right; by left|by left].
        -- apply Forall_app. split; [done|by constructor].
      * assert (mx = Finalized → c ≠ Finalized) as Hne by (intros Hx Hy; congruence).
        exact (finality_change c mx Hne).
    + assert (mx' = mx) as Heq.
      { rewrite Forall_forall in Hmax. specialize (Hmax c Hf). unfold mx'. by destruct (cmp_commitment_level c mx). }
      split.
      * split; cbn [sp_commitment sp_max_commitment]; fold mx'; rewrite ?Heq; done.
      * assert (∀ l : list SlotCommitmentStatusUpdate,
          b2z (finalized (mkSlotProgression l mx')) = b2z (finalized q)) as Hb by (intros l; by rewrite Heq).
        cbn [andb from_option]. rewrite Hb. lia.
  - split; [|unfold finalized, b2z; cbn [from_option sp_max_commitment]; case_bool_decide; by case_decide].
    split; simpl; [by constructor|apply NoDup_singleton|by left|].
    constructor; [|constructor]. by destruct (scu_commitment u).
Qed.

(** A frozen block kept under a slot is the block of some events of that slot. *)
Definition block_for (slot : Z) (fb : FrozenBlock) : Prop :=
  ∃ now events meta, fb = block_of_events now events meta ∧ bm_slot meta = slot ∧
    Forall (λ e, is_block_data e ∧ Message_get_slot e = slot) events.

Definition processing_ok (slot : Z) (ps : ProcessingSlot) : Prop :=
  (∃ events, slot_holds ps events ∧ Forall (λ e, Message_get_slot e = slot) events) ∧
  ∀ meta, ps_blockmeta ps = Some meta → bm_slot meta = slot.

Section spec.
Context {B : BlockMachine}.

Record storage_inv (st : BlockMachineStorage) : Prop := {
  si_capacity : 0 <= bms_replayed_capacity st;
  si_counter : bms_num_buffered_finalized_slot st
    = finalized_slots (bms_slot_commitment_progression_map st);
  si_progress : map_Forall progression_ok (bms_slot_commitment_progression_map st);
  si_min : bms_min_slot st = btree_first (bms_replayed_slot st);
  si_processing : map_Forall processing_ok (bms_processing_slots st);
  si_replayed : map_Forall block_for (bms_replayed_slot st);
  si_disjoint : ∀ s, is_Some (bms_processing_slots st !! s) → bms_replayed_slot st !! s = None;
  si_ready : Forall (λ q, block_for (scu_slot q.1) q.2) (bms_ready_queue st)
}.

(** What the pruning steps keep; the cached minimum may be stale in between. *)
Record storage_inv_stale (st : BlockMachineStorage) : Prop := {
  ss_capacity : 0 <= bms_replayed_capacity st;
  ss_counter : bms_num_buffered_finalized_slot st
    = finalized_slots (bms_slot_commitment_progression_map st);
  ss_progress : map_Forall progression_ok (bms_slot_commitment_progression_map st);
  ss_processing : map_Forall processing_ok (bms_processing_slots st);
  ss_replayed : map_Forall block_for (bms_replayed_slot st);
  ss_disjoint : ∀ s, is_Some (bms_processing_slots st !! s) → bms_replayed_slot st !! s = None;
  ss_ready : Forall (λ q, block_for (scu_slot q.1) q.2) (bms_ready_queue st)
}.

Lemma inv_stale st : storage_inv st → storage_inv_stale st.
Proof. by intros []; split. Qed.

Lemma inv_refresh st : storage_inv_stale st → storage_inv (refresh_min_slot st).
Proof. by intros []; split. Qed.

Lemma inv_set_state st m : storage_inv st → storage_inv (set_state st m).
Proof. by intros []; split. Qed.

Lemma storage_inv_new cap : 0 <= cap → storage_inv (BlockMachineStorage_new cap).
Proof.
  intros Hcap. split; cbn; [done|done|apply map_Forall_empty|done|apply map_Forall_empty|apply map_Forall_empty|done|by constructor].
Qed.

(** The counter never saturates: it counts the finalized slots it knows. *)
Lemma prune_counter st slot :
  storage_inv_stale st →
  bms_num_buffered_finalized_slot (prune_slot st slot false) =
  finalized_slots (delete slot (bms_slot_commitment_progression_map st)).
Proof.
  intros [_ Hc _ _ _ _ _]. unfold prune_slot. cbn [bms_num_buffered_finalized_slot].
  rewrite Hc, finalized_slots_delete.
  destruct (bms_slot_commitment_progression_map st !! slot) as [p|] eqn:E; cbn [from_option]; [|lia].
  pose proof (finalized_slots_delete (bms_slot_commitment_progression_map st) slot) as Hd.
  rewrite E in Hd. cbn [from_option] in Hd. unfold b2z in *. unfold finalized_dec, saturating_sub in *.
  assert (0 <= finalized_slots (delete slot (bms_slot_commitment_progression_map st)))
    by (unfold finalized_slots; lia).
  destruct (decide (sp_max_commitment p = Finalized)) as [Hf|Hf], (decide (finalized p)); try done; lia.
Qed.

Lemma prune_slot_stale st slot :
  storage_inv_stale st → storage_inv_stale (prune_slot st slot false).
Proof.
  intros Hs. pose proof (prune_counter st slot Hs) as Hc. destruct Hs as [Hcap _ Hp Hpr Hre Hd Hq].
  split; [done|exact Hc|..]; cbn [prune_slot bms_slot_commitment_progression_map bms_processing_slots
    bms_replayed_slot bms_ready_queue]; try by apply map_Forall_delete.
  - intros s. rewrite !lookup_delete_is_Some, lookup_delete_None. intros [? ?]. right. by apply Hd.
  - done.
Qed.

Lemma prune_slot_inv st slot : storage_inv_stale st → storage_inv (prune_slot st slot true).
Proof. intros Hs. exact (inv_refresh _ (prune_slot_stale st slot Hs)). Qed.

Lemma slot_reset_inv st slot : storage_inv st → storage_inv (slot_reset st slot).
Proof.
  intros Hs. destruct (prune_slot_inv st slot (inv_stale _ Hs)) as [H1 H2 H3 H4 H5 H6 H7 H8].
  split; try done. cbn. pose proof (si_ready _ Hs) as Hq. rewrite Forall_forall in Hq |- *.
  intros q [_ Hin]%list_elem_of_filter. by apply Hq.
Qed.

(** ** Pruning *)

Definition gc_guard (st : BlockMachineStorage) : Prop :=
  bms_replayed_capacity st < Z.of_nat (size (bms_replayed_slot st)) ∧
  MINIMUM_FINALIZED_SLOT_TO_BUFFER < bms_num_buffered_finalized_slot st.

(** What is left is the blocks from some slot on. *)
Definition keeps_from (from : Z) (before after : gmap Z FrozenBlock) : Prop :=
  ∀ s, after !! s = if decide (from <= s) then before !! s else None.

Lemma gc_loop_ok fuel st :
  storage_inv_stale st → (size (bms_replayed_slot st) < fuel)%nat →
  let st' := gc_loop fuel st in
  storage_inv_stale st' ∧ ¬ gc_guard st' ∧
  bms_replayed_capacity st' = bms_replayed_capacity st ∧
  (¬ gc_guard st → st' = st) ∧
  ∃ from, keeps_from from (bms_replayed_slot st) (bms_replayed_slot st').
Proof.
  revert st. induction fuel as [|fuel IH]; intros st Hs Hlt; [lia|]. cbn [gc_loop].
  destruct (Z.ltb_spec (bms_replayed_capacity st) (Z.of_nat (size (bms_replayed_slot st)))) as [Hcap|Hcap];
    [destruct (Z.ltb_spec MINIMUM_FINALIZED_SLOT_TO_BUFFER (bms_num_buffered_finalized_slot st)) as [Hnum|Hnum]|].
  2,3: cbn [andb]; split; [done|]; split; [unfold gc_guard; lia|]; split; [done|]; split; [done|].
  2,3: destruct (btree_first (bms_replayed_slot st)) as [k|] eqn:E;
    [exists k; intros s; case_decide as Hk; [done|]; apply btree_first_Some in E as [_ Hmin];
     destruct (bms_replayed_slot st !! s) eqn:El; [|done]; exfalso; apply Hk, Hmin; by eexists
    |apply btree_first_None in E; exists 0; intros s; rewrite E, lookup_empty; by case_decide].
  cbn [andb]. destruct (btree_first (bms_replayed_slot st)) as [k|] eqn:E.
  2: { exfalso. apply btree_first_None in E. rewrite E, map_size_empty in Hcap.
    pose proof (ss_capacity _ Hs). lia. }
  apply btree_first_Some in E as [[fb Hfb] Hmin].
  destruct (IH (prune_slot st k false)) as (H1 & H2 & H3 & H4 & from & H5).
  { by apply prune_slot_stale. }
  { cbn [prune_slot bms_replayed_slot]. rewrite map_size_delete_Some by (by eexists).
    assert (size (bms_replayed_slot st) ≠ 0%nat); [|lia].
    intros Hz. apply map_size_empty_inv in Hz. by rewrite Hz in Hfb. }
  split; [done|]. split; [done|]. split; [done|]. split.
  { intros Hg. exfalso. apply Hg. by split. }
  exists (Z.max from (k + 1)). intros s. rewrite H5. cbn [prune_slot bms_replayed_slot].
  repeat case_decide; try lia.
  - rewrite lookup_delete_ne by lia. done.
  - destruct (decide (s = k)) as [->|]; [by rewrite lookup_delete_eq|].
    rewrite lookup_delete_ne by done. destruct (bms_replayed_slot st !! s) eqn:El; [|done].
    assert (k <= s) by (apply Hmin; by eexists). lia.
  - done.
Qed.

(** [gc] ends with the storage within its capacity or at most ten finalized
    slots known, having dropped only the oldest blocks. *)
Lemma gc_ok st :
  storage_inv st →
  storage_inv (gc st) ∧
  (Z.of_nat (size (bms_replayed_slot (gc st))) <= bms_replayed_capacity st ∨
   bms_num_buffered_finalized_slot (gc st) <= MINIMUM_FINALIZED_SLOT_TO_BUFFER) ∧
  bms_replayed_capacity (gc st) = bms_replayed_capacity st ∧
  (¬ gc_guard st → bms_replayed_slot (gc st) = bms_replayed_slot st) ∧
  ∃ from, keeps_from from (bms_replayed_slot st) (bms_replayed_slot (gc st)).
Proof.
  intros Hs. destruct (gc_loop_ok (S (size (bms_replayed_slot st))) st (inv_stale _ Hs) ltac:(lia))
    as (H1 & H2 & H3 & H4 & H5).
  split; [apply inv_set_state, inv_refresh, H1|]. unfold gc. cbn [set_state refresh_min_slot set_min_slot
    bms_replayed_slot bms_num_buffered_finalized_slot bms_replayed_capacity].
  split; [|split; [exact H3|split; [|exact H5]]].
  - unfold gc_guard in H2. rewrite H3 in H2. lia.
  - intros Hg. by rewrite (H4 Hg).
Qed.

Lemma on_slot_status_inv st u : storage_inv st → storage_inv (on_slot_status st u).
Proof.
  intros [Hcap Hc Hp Hm Hpr Hre Hd Hq]. unfold on_slot_status.
  set (slot := scu_slot u).
  destruct (progress (bms_slot_commitment_progression_map st !! slot) u) as [p counted] eqn:Hprog.
  assert (from_option (progression_ok slot) True (bms_slot_commitment_progression_map st !! slot)) as Ho.
  { destruct (bms_slot_commitment_progression_map st !! slot) eqn:E; [|done]. by apply (Hp slot). }
  destruct (progress_ok slot _ u p counted Ho eq_refl Hprog) as [Hok Hcount].
  match goal with |- storage_inv (if _ then gc ?s else ?s) => set (st1 := s) end.
  assert (storage_inv st1) as Hinv.
  { split; unfold st1; cbn [bms_num_buffered_finalized_slot bms_slot_commitment_progression_map
      bms_min_slot bms_replayed_slot bms_processing_slots bms_ready_queue]; try done.
    - rewrite finalized_slots_insert, Hc, Hcount. lia.
    - by apply map_Forall_insert_2.
    - destruct (bms_replayed_slot st !! slot) as [fb|] eqn:E; [|done].
      apply Forall_app. split; [done|]. constructor; [|done]. by apply (Hre slot). }
  case_decide; [by apply gc_ok|done].
Qed.

Lemma on_frozen_block_inv now st slot st' :
  storage_inv st → on_frozen_block now st slot = Done st' → storage_inv st'.
Proof.
  intros [Hcap Hc Hp Hm Hpr Hre Hd Hq]. unfold on_frozen_block.
  destruct (bms_processing_slots st !! slot) as [ps|] eqn:E; [|by intros [= <-]].
  destruct (Hpr slot ps E) as [(events & Hh & Hev) Hmeta].
  destruct (ps_blockmeta ps) as [meta|] eqn:Em.
  2: { unfold seal. by rewrite Em. }
  rewrite (seal_block_of_events _ _ _ _ Hh Em), outcome_bind_done. intros [= <-].
  split; cbn [bms_num_buffered_finalized_slot bms_slot_commitment_progression_map bms_min_slot
    bms_replayed_slot bms_processing_slots bms_ready_queue]; try done.
  - by rewrite btree_first_insert, Hm.
  - by apply map_Forall_delete.
  - apply map_Forall_insert_2; [|done]. exists now, events, meta. split; [done|].
    split; [by apply Hmeta|]. apply Forall_and. split; [apply Hh|done].
  - intros s. rewrite lookup_delete_is_Some. intros [Hne Hs]. rewrite lookup_insert_ne by done. by apply Hd.
Qed.

Lemma output_inv now st o st' :
  storage_inv st → on_blockmachine_output now st o = Done st' → storage_inv st'.
Proof.
  intros Hs. destruct o; cbn [on_blockmachine_output]; intros H; try injection H as <-; try done.
  - by eapply on_frozen_block_inv.
  - by apply on_slot_status_inv.
  - by apply prune_slot_inv, inv_stale.
  - by apply prune_slot_inv, inv_stale.
  - by apply slot_reset_inv.
Qed.

(** ** Handling a message *)

Lemma inv_set_processing st slot ps :
  storage_inv st → processing_ok slot ps → bms_replayed_slot st !! slot = None →
  storage_inv (set_processing st (<[slot := ps]> (bms_processing_slots st))).
Proof.
  intros [Hcap Hc Hp Hm Hpr Hre Hd Hq] Hok Hnone. split; try done; cbn [set_processing
    bms_processing_slots bms_replayed_slot].
  - by apply map_Forall_insert_2.
  - intros s. destruct (decide (s = slot)) as [->|]; [done|]. rewrite lookup_insert_ne by done. apply Hd.
Qed.

Lemma try_seal_inv st slot st' :
  storage_inv st → try_seal st slot = Done st' → storage_inv st'.
Proof.
  intros Hs. unfold try_seal. destruct (bms_processing_slots st !! slot) as [buf|] eqn:E; [|by intros [= <-]].
  assert (processing_ok slot (ProcessingSlot_try_seal buf).2) as Hok.
  { destruct (si_processing _ Hs slot buf E) as [(events & Hh & Hev) Hm]. unfold ProcessingSlot_try_seal.
    destruct (ps_is_sealed buf); [by split; [eauto|]|].
    destruct (ps_blockmeta buf) as [m|] eqn:Em; [|split; [by eauto|cbn; by rewrite Em]].
    do 2 (case_match; [split; [by eauto|cbn; by rewrite Em]|]).
    split; [exists events; split; [by apply slot_holds_seal|done]|]. cbn. by rewrite Em. }
  destruct (ProcessingSlot_try_seal buf) as [[[]|e] buf']; [|by intros [= <-]]. cbn [snd] in Hok.
  destruct (ps_blockmeta buf'); [|done]. destruct (hash_from_str _); [|done].
  destruct (process_replay_event _ _). intros [= <-].
  apply inv_set_state, inv_set_processing; [done|done|]. apply (si_disjoint _ Hs). by eexists.
Qed.

Lemma handle_block_data_inv st e st' :
  is_block_data e → storage_inv st → handle_block_data st e = Done st' → storage_inv st'.
Proof.
  intros He Hs. unfold handle_block_data. set (slot := Message_get_slot e).
  destruct (negb _); [by intros [= <-]|]. case_decide as Hr; [by intros [= <-]|].
  intros H. eapply try_seal_inv; [|exact H].
  apply inv_set_processing; [done| |by apply eq_None_not_Some].
  assert (processing_ok slot (default ProcessingSlot_default (bms_processing_slots st !! slot)))
    as [(events & Hh & Hev) Hm].
  { destruct (bms_processing_slots st !! slot) eqn:E; [by apply (si_processing _ Hs)|]. split; [|done].
    exists []. split; [apply slot_holds_default|done]. }
  split.
  - exists (events ++ [e]). split; [by apply slot_holds_add|]. apply Forall_app. split; [done|by constructor].
  - intros meta Hmeta. apply Hm. revert Hmeta. by destruct e.
Qed.

Lemma dispatch_inv st message st' :
  storage_inv st → dispatch st message = Done st' → storage_inv st'.
Proof.
  intros Hs. destruct message as [m|m|m|m|m|m|m]; cbn [dispatch]; intros H; try (by injection H as <-).
  - unfold on_message_slot in H.
    destruct (life_cycle_status _); [|destruct (ms_dead_error m); [|destruct (commitment_of_status _)]];
      try destruct (process_replay_event _ _); rewrite ?outcome_bind_done in H;
      try injection H as <-; try done; by apply inv_set_state.
  - by apply (handle_block_data_inv st (MsgAccount m)).
  - by apply (handle_block_data_inv st (MsgTransaction m)).
  - by apply (handle_block_data_inv st (MsgEntry m)).
  - unfold handle_block_meta in H.
    destruct (bms_processing_slots st !! bm_slot m) as [block|] eqn:E; [|by injection H as <-].
    eapply try_seal_inv; [|exact H]. apply inv_set_processing; [done| |apply (si_disjoint _ Hs); by eexists].
    destruct (si_processing _ Hs _ _ E) as [(events & Hh & Hev) _].
    split; [exists events; split; [by apply slot_holds_meta|done]|]. cbn. by intros ? [= <-].
Qed.

Lemma drain_outputs_inv fuel now st st' :
  storage_inv st → drain_outputs fuel now st = Done (Some st') → storage_inv st'.
Proof.
  revert st. induction fuel as [|fuel IH]; intros st Hs; cbn [drain_outputs]; [done|].
  destruct (pop_next_unprocess_blockstore_update (bms_state st)) as [m [o|]].
  - destruct (on_blockmachine_output now (set_state st m) o) as [st1|] eqn:E; [|done].
    rewrite outcome_bind_done. apply IH. eapply output_inv; [|exact E]. by apply inv_set_state.
  - intros [= <-]. by apply inv_set_state.
Qed.

Lemma add_inv fuel now st message st' :
  storage_inv st → add fuel now st message = Done (Some st') → storage_inv st'.
Proof.
  intros Hs. unfold add. destruct (dispatch st message) as [st1|] eqn:E1; [|done].
  rewrite outcome_bind_done. destruct (drain_outputs fuel now st1) as [[st2|]|] eqn:E2; try done.
  rewrite outcome_bind_done. cbn [mbind option_bind].
  destruct (drain_dlq fuel (bms_state st2)) as [m|]; [|done]. cbn. intros [= <-].
  apply inv_set_state. eapply drain_outputs_inv; [|exact E2]. by eapply dispatch_inv.
Qed.

(** The states a storage goes through. *)
Inductive reachable (cap : Z) : BlockMachineStorage → Prop :=
| reachable_new : 0 <= cap → reachable cap (BlockMachineStorage_new cap)
| reachable_add fuel now st message st' :
    reachable cap st → add fuel now st message = Done (Some st') → reachable cap st'
| reachable_pop st : reachable cap st → reachable cap (pop_ready_block st).2.

Lemma reachable_inv cap st : reachable cap st → storage_inv st.
Proof.
  induction 1 as [Hc|fuel now st m st' _ IH E|st _ IH].
  - by apply storage_inv_new.
  - by eapply add_inv.
  - unfold pop_ready_block. destruct (bms_ready_queue st) as [|q rest] eqn:E; [done|].
    destruct IH as [Hcap Hc Hp Hm Hpr Hre Hd Hq]. rewrite E in Hq.
    split; try done. cbn. by apply Forall_cons in Hq as [_ ?].
Qed.

(** ** Termination *)

Context {L : BlockMachineLaws}.

Lemma gc_loop_state fuel st : bms_state (gc_loop fuel st) = bms_state st.
Proof.
  revert st. induction fuel as [|fuel IH]; intros st; [done|]. cbn [gc_loop].
  destruct (_ && _); [|done]. destruct (btree_first _); by rewrite IH.
Qed.

Lemma output_pending now st o st' :
  on_blockmachine_output now st o = Done st' → (pending (bms_state st') <= pending (bms_state st))%nat.
Proof.
  destruct o; cbn [on_blockmachine_output]; intros H; try (injection H as <-; cbn; lia).
  - unfold on_frozen_block in H. destruct (bms_processing_slots st !! slot); [|by injection H as <-].
    destruct (seal now p); [|done]. rewrite outcome_bind_done in H. by injection H as <-.
  - injection H as <-. unfold on_slot_status. destruct (progress _ u) as [p counted].
    case_decide; [|done]. unfold gc. cbn [bms_state set_state].
    etransitivity; [apply gc_adds_nothing|].
    cbn [refresh_min_slot set_min_slot bms_state]. by rewrite gc_loop_state.
Qed.

Lemma drain_outputs_total now st fuel :
  (pending (bms_state st) < fuel)%nat →
  ∃ r, (∀ fuel', (fuel <= fuel')%nat → drain_outputs fuel' now st = r) ∧ r ≠ Done None.
Proof.
  revert st. induction fuel as [|fuel IH]; intros st Hlt; [lia|].
  destruct (pop_next_unprocess_blockstore_update (bms_state st)) as [m [o|]] eqn:E.
  - destruct (on_blockmachine_output now (set_state st m) o) as [st1|] eqn:E1.
    + assert (pending (bms_state st1) < fuel)%nat as Hp.
      { apply output_pending in E1. apply pop_next_shrinks in E. cbn in E1. lia. }
      destruct (IH st1 Hp) as (r & Hr & Hne). exists r. split; [|done].
      intros [|fuel'] Hle; [lia|]. cbn [drain_outputs]. rewrite E, E1, outcome_bind_done. apply Hr. lia.
    + exists Panic. split; [|done]. intros [|fuel'] Hle; [lia|]. cbn [drain_outputs]. by rewrite E, E1.
  - exists (Done (Some (set_state st m))). split; [|done].
    intros [|fuel'] Hle; [lia|]. cbn [drain_outputs]. by rewrite E.
Qed.

Lemma drain_dlq_total m fuel :
  (dlq m < fuel)%nat →
  ∃ m', ∀ fuel', (fuel <= fuel')%nat → drain_dlq fuel' m = Some m'.
Proof.
  revert m. induction fuel as [|fuel IH]; intros m Hlt; [lia|].
  destruct (pop_next_dlq m) as [m1 []] eqn:E.
  - apply pop_dlq_shrinks in E as Hs. destruct (IH m1 ltac:(lia)) as (m' & Hm). exists m'.
    intros [|fuel'] Hle; [lia|]. cbn [drain_dlq]. rewrite E. apply Hm. lia.
  - exists m1. intros [|fuel'] Hle; [lia|]. cbn [drain_dlq]. by rewrite E.
Qed.

Lemma add_total now st message :
  ∃ fuel r, (∀ fuel', (fuel <= fuel')%nat → add fuel' now st message = r) ∧ r ≠ Done None.
Proof.
  unfold add. destruct (dispatch st message) as [st1|] eqn:E1; [|by exists 0%nat, Panic].
  destruct (drain_outputs_total now st1 (S (pending (bms_state st1))) ltac:(lia)) as (r & Hr & Hne).
  destruct r as [[st2|]|]; [|done|].
  - destruct (drain_dlq_total (bms_state st2) (S (dlq (bms_state st2))) ltac:(lia)) as (m & Hm).
    exists (S (pending (bms_state st1)) + S (dlq (bms_state st2)))%nat, (Done (Some (set_state st2 m))).
    split; [|done]. intros fuel' Hle. rewrite outcome_bind_done, Hr by lia.
    rewrite outcome_bind_done. cbn [mbind option_bind]. by rewrite Hm by lia.
  - exists (S (pending (bms_state st1))), Panic. split; [|done].
    intros fuel' Hle. by rewrite outcome_bind_done, Hr by lia.
Qed.

(** ** Replay *)

Lemma replay_items_sorted st minc l :
  map_Forall block_for (bms_replayed_slot st) →
  Forall (λ e, bms_replayed_slot st !! e.1 = Some e.2) l →
  StronglySorted (λ e1 e2 : Z * FrozenBlock, e1.1 < e2.1) l →
  StronglySorted Z.lt ((λ r, bm_slot (fb_block_meta (rs_frozen_block r))) <$> omap (replay_item st minc) l).
Proof.
  intros Hb Hl Hs. induction Hs as [|e l Hs IH Hall]; [constructor|].
  apply Forall_cons in Hl as [He Hl]. specialize (IH Hl). simpl.
  destruct (replay_item st minc e) as [r|] eqn:E; [|done]. csimpl. constructor; [done|].
  assert (∀ e r, bms_replayed_slot st !! e.1 = Some e.2 → replay_item st minc e = Some r →
    bm_slot (fb_block_meta (rs_frozen_block r)) = e.1) as Hslot.
  { intros e' r' He' Hr. unfold replay_item in Hr.
    destruct (bms_slot_commitment_progression_map st !! e'.1) as [p|]; cbn in Hr; [|done].
    assert (rs_frozen_block r' = e'.2) as -> by (destruct (cmp_commitment_level _ _); by simplify_eq).
    destruct (Hb _ _ He') as (now & ev & meta & -> & Hm & _). exact Hm. }
  apply Forall_forall. intros x (r' & -> & Hr')%list_elem_of_fmap.
  apply list_elem_of_omap in Hr' as (e' & He' & Hr'). rewrite Forall_forall in Hall, Hl.
  rewrite (Hslot e r He E), (Hslot e' r' (Hl _ He') Hr'). by apply Hall.
Qed.

Lemma replay_from_slot_ok st slot minc :
  storage_inv st →
  StronglySorted Z.lt ((λ r, bm_slot (fb_block_meta (rs_frozen_block r))) <$> replay_from_slot st slot minc) ∧
  ∀ r, r ∈ replay_from_slot st slot minc ↔
    ∃ s fb p, slot <= s ∧ bms_replayed_slot st !! s = Some fb ∧
      bms_slot_commitment_progression_map st !! s = Some p ∧
      cmp_commitment_level (sp_max_commitment p) minc ≠ Lt ∧ r = mkReplayedSlot fb (sp_commitment p).
Proof.
  intros Hs. split.
  - apply replay_items_sorted; [by apply si_replayed| |apply btree_range_sorted].
    apply Forall_forall. intros [s fb] Hin. by apply elem_of_btree_range in Hin as [_ ?].
  - intros r. unfold replay_from_slot. rewrite list_elem_of_omap. split.
    + intros ([s fb] & Hin & Hr). apply elem_of_btree_range in Hin as [Hle Hfb]. unfold replay_item in Hr.
      cbn [fst snd] in Hr. destruct (bms_slot_commitment_progression_map st !! s) as [p|] eqn:E; cbn in Hr; [|done].
      exists s, fb, p. repeat (split; [done|]). by destruct (cmp_commitment_level _ _); simplify_eq.
    + intros (s & fb & p & Hle & Hfb & Hp & Hc & ->). exists (s, fb). split; [by apply elem_of_btree_range|].
      unfold replay_item. cbn [fst snd]. rewrite Hp. cbn. by destruct (cmp_commitment_level _ _).
Qed.

(** ** Claims *)

(** The operations on the buffer of one slot. *)
Inductive slot_op := OpEvent (e : Message) | OpMeta (m : MessageBlockMeta) | OpTrySeal.

Definition run_slot_op (ps : ProcessingSlot) (op : slot_op) : ProcessingSlot :=
  match op with
  | OpEvent e => add_event ps e
  | OpMeta m => set_blockmeta ps m
  | OpTrySeal => (ProcessingSlot_try_seal ps).2
  end.

Definition op_events (ops : list slot_op) : list Message :=
  filter is_block_data (omap (λ op, match op with OpEvent e => Some e | _ => None end) ops).

Definition op_meta (ops : list slot_op) : option MessageBlockMeta :=
  last (omap (λ op, match op with OpMeta m => Some m | _ => None end) ops).

Lemma run_slot_ops_hold ops :
  slot_holds (fold_left run_slot_op ops ProcessingSlot_default) (op_events ops) ∧
  ps_blockmeta (fold_left run_slot_op ops ProcessingSlot_default) = op_meta ops.
Proof.
  induction ops as [|op ops [IH Hm]] using rev_ind; [split; [apply slot_holds_default|done]|].
  rewrite fold_left_app. cbn [fold_left]. unfold op_events, op_meta in *. rewrite !omap_app.
  rewrite filter_app. destruct op as [e|m|]; cbn [omap list_omap run_slot_op]; rewrite ?app_nil_r.
  - split; [|rewrite <- Hm; by destruct e]. rewrite filter_cons. case_decide.
    + by apply slot_holds_add.
    + cbn. rewrite app_nil_r. by destruct e.
  - split; [by apply slot_holds_meta|]. by rewrite last_snoc.
  - split.
    + unfold ProcessingSlot_try_seal. repeat case_match; try done. by apply slot_holds_seal.
    + rewrite <- Hm. unfold ProcessingSlot_try_seal. by repeat case_match.
Qed.

(** C5. Whatever the order in which the messages of a slot and its block meta
    arrive, sealing gives the block with every transaction and every entry in
    arrival order and exactly the last write of every account (the writes whose
    version no other write of the same key in the slot exceeds), and the replay
    list is the block data in arrival order without the superseded writes;
    sealing panics exactly when no block meta has arrived. *)
Theorem sealed_block_spec now ops :
  let events := op_events ops in
  match op_meta ops with
  | None => seal now (fold_left run_slot_op ops ProcessingSlot_default) = Panic
  | Some meta =>
      ∃ fb, seal now (fold_left run_slot_op ops ProcessingSlot_default) = Done fb ∧
        let block := fb_pre_computed_message_block fb in
        fb_block_meta fb = meta ∧ mb_meta block = meta ∧
        mb_transactions block = omap transaction_of events ∧
        mb_entries block = omap entry_of events ∧
        mb_accounts block = filter (latest_write events) (omap account_of events) ∧
        mb_updated_account_count block = len (mb_accounts block) ∧
        fb_original_messages fb = filter (kept events) events ∧
        ∀ a, a ∈ mb_accounts block ↔ MsgAccount a ∈ events ∧
          ∀ a', MsgAccount a' ∈ events → ai_pubkey (ma_account a') = ai_pubkey (ma_account a) →
            ai_write_version (ma_account a') <= ai_write_version (ma_account a)
  end.
Proof.
  intros events. destruct (run_slot_ops_hold ops) as [Hh Hm]. fold events in Hh.
  destruct (op_meta ops) as [meta|].
  - exists (block_of_events now events meta). split; [by apply seal_block_of_events|].
    repeat (split; [done|]). intros a. cbn [fb_pre_computed_message_block block_of_events MessageBlock_new mb_accounts].
    assert (∀ a, a ∈ omap account_of events ↔ MsgAccount a ∈ events) as Hin.
    { intros b. rewrite list_elem_of_omap. split; [|by exists (MsgAccount b)].
      intros (e & He & Hb). destruct e; try done. cbn in Hb. by simplify_eq. }
    rewrite list_elem_of_filter, Hin. unfold latest_write. rewrite Forall_forall.
    setoid_rewrite Hin. tauto.
  - unfold seal. by rewrite Hm.
Qed.

Lemma reachable_min cap st : reachable cap st →
  (∀ s, min_replayable_slot st = Some s ↔
     is_Some (bms_replayed_slot st !! s) ∧ ∀ s', is_Some (bms_replayed_slot st !! s') → s <= s') ∧
  (min_replayable_slot st = None ↔ bms_replayed_slot st = ∅).
Proof.
  intros Hs%reachable_inv. unfold min_replayable_slot. rewrite (si_min _ Hs).
  split; [intros s; apply btree_first_Some|apply btree_first_None].
Qed.

Lemma reachable_ready cap st u fb :
  reachable cap st → (u, fb) ∈ bms_ready_queue st → block_for (scu_slot u) fb.
Proof. intros Hq%reachable_inv%si_ready Hin. rewrite Forall_forall in Hq. by apply (Hq (u, fb)). Qed.

(** C6. In every state the storage can reach the counter of finalized slots is
    exactly the number of known slots whose highest status is finalized (so its
    saturating decrement never saturates), the cached first slot is the
    smallest buffered one, a slot is never both being filled and buffered, and
    every buffered or queued block is the block of some data of its own slot. *)
Theorem reconstruction_invariant cap st :
  reachable cap st →
  bms_num_buffered_finalized_slot st = finalized_slots (bms_slot_commitment_progression_map st) ∧
  (∀ s, min_replayable_slot st = Some s ↔
     is_Some (bms_replayed_slot st !! s) ∧ ∀ s', is_Some (bms_replayed_slot st !! s') → s <= s') ∧
  (min_replayable_slot st = None ↔ bms_replayed_slot st = ∅) ∧
  (∀ s, is_Some (bms_processing_slots st !! s) → bms_replayed_slot st !! s = None) ∧
  (∀ s fb, bms_replayed_slot st !! s = Some fb → block_for s fb) ∧
  (∀ u fb, (u, fb) ∈ bms_ready_queue st → block_for (scu_slot u) fb).
Proof.
  intros Hst. destruct (reachable_min _ _ Hst) as [H1 H2].
  destruct (reachable_inv _ _ Hst) as [_ Hc _ _ _ Hre Hd _].
  repeat (split; [done|]). intros u fb. by eapply reachable_ready.
Qed.

(** Adding a message always ends: with enough fuel the loops over the
    outputs and the dead letters of the block machine finish, with a result
    that no longer depends on the fuel. *)
Theorem add_terminates now st message :
  ∃ fuel r, (∀ fuel', (fuel <= fuel')%nat → add fuel' now st message = r) ∧ r ≠ Done None.
Proof. apply add_total. Qed.

(** Pruning ends with the buffer within its capacity or at most ten
    finalized slots known, changes nothing unless both bounds were exceeded,
    and drops only the oldest blocks: what is left is every block from some
    slot on. *)
Theorem gc_prunes_oldest cap st :
  reachable cap st →
  (Z.of_nat (size (bms_replayed_slot (gc st))) <= bms_replayed_capacity st ∨
   bms_num_buffered_finalized_slot (gc st) <= 10) ∧
  (Z.of_nat (size (bms_replayed_slot st)) <= bms_replayed_capacity st ∨
   bms_num_buffered_finalized_slot st <= 10 → bms_replayed_slot (gc st) = bms_replayed_slot st) ∧
  ∃ from, ∀ s, bms_replayed_slot (gc st) !! s =
    if decide (from <= s) then bms_replayed_slot st !! s else None.
Proof.
  intros Hs%reachable_inv. destruct (gc_ok st Hs) as (_ & H1 & _ & H2 & H3).
  split; [exact H1|]. split; [|exact H3]. intros Hb. apply H2. unfold gc_guard, MINIMUM_FINALIZED_SLOT_TO_BUFFER. lia.
Qed.

(** Replaying from a slot yields, in increasing slot order, exactly the
    buffered blocks of that slot and later whose highest commitment is at least
    the requested one, each with the statuses received for it. *)
Lemma replay_from_slot_spec cap st slot minc :
  reachable cap st →
  StronglySorted Z.lt ((λ r, bm_slot (fb_block_meta (rs_frozen_block r))) <$> replay_from_slot st slot minc) ∧
  ∀ r, r ∈ replay_from_slot st slot minc ↔
    ∃ s fb p, slot <= s ∧ bms_replayed_slot st !! s = Some fb ∧
      bms_slot_commitment_progression_map st !! s = Some p ∧
      cmp_commitment_level (sp_max_commitment p) minc ≠ Lt ∧ r = mkReplayedSlot fb (sp_commitment p).
Proof. intros Hs%reachable_inv. by apply replay_from_slot_ok. Qed.




(** The statuses of a slot whose block is not buffered (it never froze, or the
    block was pruned before) survive every pruning, and a finalized one stays
    counted as buffered. *)
Lemma gc_keeps_unbuffered st s :
  bms_replayed_slot st !! s = None →
  bms_slot_commitment_progression_map (gc st) !! s = bms_slot_commitment_progression_map st !! s.
Proof.
  unfold gc. cbn [set_state refresh_min_slot set_min_slot bms_slot_commitment_progression_map].
  generalize (S (size (bms_replayed_slot st))). intros fuel. revert st.
  induction fuel as [|fuel IH]; intros st Hs; [done|]. cbn [gc_loop].
  destruct (_ && _); [|done]. destruct (btree_first (bms_replayed_slot st)) as [k|] eqn:E; [|by apply IH].
  apply btree_first_Some in E as [[fb Hk] _]. assert (k ≠ s) by congruence.
  rewrite IH; cbn [prune_slot bms_replayed_slot bms_slot_commitment_progression_map];
    by rewrite lookup_delete_ne.
Qed.

(** ** A frozen block and its statuses *)
























End spec.

(** ** A concrete block machine

    It freezes a block as soon as its summary arrives, passes every commitment
    status on and tracks every slot. *)

Section witnesses.

#[local] Instance queue_machine : BlockMachine := {|
  machine := list BlockStateMachineOutput;
  machine_default := [];
  process_replay_event := λ m e,
    match e with
    | ReplayBlockSummary b => (m ++ [OutFrozenBlock (bs_slot b)], true)
    | ReplayLifecycle u =>
        match slu_stage u with
        | LifecycleDead => (m ++ [OutDeadSlotDetected (slu_slot u)], true)
        | _ => (m, true)
        end
    end;
  process_consensus_event := λ m u, m ++ [OutSlotStatus u];
  is_slot_tracked := λ _ _, true;
  pop_next_unprocess_blockstore_update := λ m,
    match m with [] => ([], None) | o :: m => (m, Some o) end;
  pop_next_dlq := λ m, (m, false);
  machine_gc := λ m, m;
  hash_from_str := λ s, if decide (s = "") then None else Some []
|}.

#[local] Instance queue_machine_laws : BlockMachineLaws.
Proof.
  refine {| pending := λ m : machine, @length BlockStateMachineOutput m; dlq := λ _ : machine, 0%nat |}.
  - intros [|o' m] m' o H; simpl in H; [done|]. injection H as <- _. simpl. lia.
  - intros m m' H. done.
  - intros m. simpl. lia.
Defined.

Definition demo_account_event (slot version : Z) (data : bytes) : Message :=
  MsgAccount (mkMessageAccount
    (mkMessageAccountInfo [Byte.x41] 1 [Byte.x42] false 0 data version None None) slot false
    (mkTimestamp 0 0)).

Definition demo_meta (slot : Z) : MessageBlockMeta :=
  mkMessageBlockMeta slot "h" None None None (slot - 1) "p" 0 0 (mkTimestamp 0 0).

Definition demo_status (slot : Z) (s : SlotStatus) : Message :=
  MsgSlot (mkMessageSlot slot None s None (mkTimestamp 0 0)).

(** Two writes of one account, the block meta, and two statuses. *)
Definition demo_messages : list Message :=
  [demo_account_event 7 2 [Byte.x02]; demo_account_event 7 1 [Byte.x01]; MsgBlockMeta (demo_meta 7);
   demo_status 7 StatusConfirmed; demo_status 7 StatusFinalized].

Definition run_messages (ms : list Message) (st : BlockMachineStorage)
    : outcome (option BlockMachineStorage) :=
  fold_left (λ o m, o ≫= λ st : option BlockMachineStorage,
      match st with Some st => add 10 (mkTimestamp 0 0) st m | None => Done None end)
    ms (Done (Some st)).

(** Every reachable state of this kind of run. *)
Lemma run_messages_reachable cap ms st st' :
  reachable cap st → run_messages ms st = Done (Some st') → reachable cap st'.
Proof.
  unfold run_messages. revert st. induction ms as [|m ms IH]; intros st Hr; cbn [fold_left].
  - by intros [= <-].
  - rewrite outcome_bind_done. destruct (add 10 (mkTimestamp 0 0) st m) as [[st1|]|] eqn:E.
    + apply IH. by eapply reachable_add.
    + clear. intros H. exfalso. induction ms as [|m' ms IH]; [done|by apply IH].
    + clear. intros H. exfalso. induction ms as [|m' ms IH]; [done|by apply IH].
Qed.

Definition demo_storage : BlockMachineStorage :=
  match run_messages demo_messages (BlockMachineStorage_new 1) with
  | Done (Some st) => st
  | _ => BlockMachineStorage_new 1
  end.

Example demo_storage_ready :
  (λ q, (scu_commitment q.1, (λ a, ai_write_version (ma_account a))
     <$> mb_accounts (fb_pre_computed_message_block q.2))) <$> bms_ready_queue demo_storage
  = [(Confirmed, [2]); (Finalized, [2])].
Proof. by vm_compute. Qed.

Lemma demo_storage_reachable : reachable 1 demo_storage.
Proof.
  apply (run_messages_reachable 1 demo_messages (BlockMachineStorage_new 1)); [by apply reachable_new|].
  by vm_compute.
Qed.

Lemma reconstruction_invariant_witness :
  bms_num_buffered_finalized_slot demo_storage = 1 ∧ min_replayable_slot demo_storage = Some 7 ∧
  finalized_slots (bms_slot_commitment_progression_map demo_storage) = 1.
Proof.
  pose proof (reconstruction_invariant 1 demo_storage demo_storage_reachable) as (Hc & _).
  split; [reflexivity|]. split; [reflexivity|]. rewrite <- Hc. reflexivity.
Defined.

Lemma gc_prunes_oldest_witness :
  bms_replayed_slot (gc demo_storage) = bms_replayed_slot demo_storage.
Proof.
  apply (gc_prunes_oldest 1 demo_storage demo_storage_reachable). left. vm_compute. discriminate.
Defined.






Lemma add_terminates_witness :
  ∃ fuel r, (∀ fuel', (fuel <= fuel')%nat →
    add fuel' (mkTimestamp 0 0) demo_storage (demo_status 7 StatusProcessed) = r) ∧ r ≠ Done None.
Proof. exact (add_terminates (mkTimestamp 0 0) demo_storage (demo_status 7 StatusProcessed)). Defined.
End witnesses.
