(* ===== verification/Limits.v ===== *)
(** * plugin/filter/limits.rs: the operator's limits on subscription filters

    The limit records with their defaults and the four checks every filter
    constructor runs. Deserialisation from the config file (serde) is not
    modelled. *)

From S2P Require Import Prelude.

Set Default Goal Selector "!".

Local Open Scope Z_scope.

Inductive FilterLimitsCheckError :=
| LimitMax (max : Z)
| LimitAny
| LimitMaxPubkey (max : Z)
| LimitPubkeyReject (pubkey : Pubkey).

Abbreviation FilterLimitsCheckResult := (result FilterLimitsCheckError unit).

Definition check_max (len max : Z) : FilterLimitsCheckResult :=
  if len <=? max then Ok tt else Err (LimitMax max).

Definition check_any (is_empty any : bool) : FilterLimitsCheckResult :=
  if negb is_empty || any then Ok tt else Err LimitAny.

Definition check_pubkey_max (len max : Z) : FilterLimitsCheckResult :=
  if len <=? max then Ok tt else Err (LimitMaxPubkey max).

Definition check_pubkey_reject (pubkey : Pubkey) (set : gset Pubkey) : FilterLimitsCheckResult :=
  if decide (pubkey ∉ set) then Ok tt else Err (LimitPubkeyReject pubkey).

Record FilterLimitsAccounts := mkFilterLimitsAccounts {
  fla_max : Z;
  fla_any : bool;
  fla_account_max : Z;
  fla_account_reject : gset Pubkey;
  fla_owner_max : Z;
  fla_owner_reject : gset Pubkey;
  fla_data_slice_max : Z;
  fla_cuckoo_max_size : Z
}.

Definition FilterLimitsAccounts_default : FilterLimitsAccounts :=
  {| fla_max := usize_max;
     fla_any := true;
     fla_account_max := usize_max;
     fla_account_reject := ∅;
     fla_owner_max := usize_max;
     fla_owner_reject := ∅;
     fla_data_slice_max := usize_max;
     fla_cuckoo_max_size := usize_max |}.

Record FilterLimitsSlots := mkFilterLimitsSlots { fls_max : Z }.

Definition FilterLimitsSlots_default : FilterLimitsSlots := {| fls_max := usize_max |}.

Record FilterLimitsTransactions := mkFilterLimitsTransactions {
  flt_max : Z;
  flt_any : bool;
  flt_account_include_max : Z;
  flt_account_include_reject : gset Pubkey;
  flt_account_exclude_max : Z;
  flt_account_required_max : Z;
  flt_cuckoo_max_size : Z
}.

Definition FilterLimitsTransactions_default : FilterLimitsTransactions :=
  {| flt_max := usize_max;
     flt_any := true;
     flt_account_include_max := usize_max;
     flt_account_include_reject := ∅;
     flt_account_exclude_max := usize_max;
     flt_account_required_max := usize_max;
     flt_cuckoo_max_size := usize_max |}.

Record FilterLimitsBlocks := mkFilterLimitsBlocks {
  flb_max : Z;
  flb_account_include_max : Z;
  flb_account_include_any : bool;
  flb_account_include_reject : gset Pubkey;
  flb_include_transactions : bool;
  flb_include_accounts : bool;
  flb_include_entries : bool;
  flb_cuckoo_max_size : Z
}.

Definition FilterLimitsBlocks_default : FilterLimitsBlocks :=
  {| flb_max := usize_max;
     flb_account_include_max := usize_max;
     flb_account_include_any := true;
     flb_account_include_reject := ∅;
     flb_include_transactions := true;
     flb_include_accounts := true;
     flb_include_entries := true;
     flb_cuckoo_max_size := usize_max |}.

Record FilterLimitsBlocksMeta := mkFilterLimitsBlocksMeta { flbm_max : Z }.

Definition FilterLimitsBlocksMeta_default : FilterLimitsBlocksMeta := {| flbm_max := usize_max |}.

Record FilterLimitsEntries := mkFilterLimitsEntries { fle_max : Z }.

Definition FilterLimitsEntries_default : FilterLimitsEntries := {| fle_max := usize_max |}.

Record FilterLimitsDeshredTransactions := mkFilterLimitsDeshredTransactions {
  fld_max : Z;
  fld_any : bool;
  fld_account_include_max : Z;
  fld_account_include_reject : gset Pubkey;
  fld_account_exclude_max : Z;
  fld_account_required_max : Z
}.

Definition FilterLimitsDeshredTransactions_default : FilterLimitsDeshredTransactions :=
  {| fld_max := usize_max;
     fld_any := true;
     fld_account_include_max := usize_max;
     fld_account_include_reject := ∅;
     fld_account_exclude_max := usize_max;
     fld_account_required_max := usize_max |}.

Record FilterLimits := mkFilterLimits {
  fl_accounts : FilterLimitsAccounts;
  fl_slots : FilterLimitsSlots;
  fl_transactions : FilterLimitsTransactions;
  fl_transactions_status : FilterLimitsTransactions;
  fl_blocks : FilterLimitsBlocks;
  fl_blocks_meta : FilterLimitsBlocksMeta;
  fl_entries : FilterLimitsEntries;
  fl_deshred_transactions : FilterLimitsDeshredTransactions
}.

(** [#[derive(Default)]] on [FilterLimits]. *)
Definition FilterLimits_default : FilterLimits :=
  {| fl_accounts := FilterLimitsAccounts_default;
     fl_slots := FilterLimitsSlots_default;
     fl_transactions := FilterLimitsTransactions_default;
     fl_transactions_status := FilterLimitsTransactions_default;
     fl_blocks := FilterLimitsBlocks_default;
     fl_blocks_meta := FilterLimitsBlocksMeta_default;
     fl_entries := FilterLimitsEntries_default;
     fl_deshred_transactions := FilterLimitsDeshredTransactions_default |}.

(** ** Lemmas *)

Lemma check_max_ok len max : check_max len max = Ok tt ↔ len <= max.
Proof. unfold check_max. destruct (Z.leb_spec len max); split; [done|done|done|lia]. Qed.

Lemma check_pubkey_max_ok len max : check_pubkey_max len max = Ok tt ↔ len <= max.
Proof. unfold check_pubkey_max. destruct (Z.leb_spec len max); split; [done|done|done|lia]. Qed.

Lemma check_any_ok e a : check_any e a = Ok tt ↔ (e = true → a = true).
Proof. unfold check_any. destruct e, a; simpl; naive_solver. Qed.

Lemma check_pubkey_reject_ok pk s : check_pubkey_reject pk s = Ok tt ↔ pk ∉ s.
Proof. unfold check_pubkey_reject. case_decide; naive_solver. Qed.

#[export] Hint Rewrite check_max_ok check_pubkey_max_ok check_any_ok check_pubkey_reject_ok
  : yellowstone.
