(* ===== verification/Names.v ===== *)
(** * plugin/filter/name.rs: interned filter names

    A [FilterName] is an [Arc<String>]: an allocation (here a number) and the
    text it holds; equality and hashing look at the text only. [FilterNames]
    is the intern table of a subscription, with its allocator made explicit.
    The second half of the file models the handles alive outside the table, so that
    [Arc::strong_count] is a number of the model, and proves that the clean-up
    never breaks interning. *)

From S2P Require Import Prelude.

Set Default Goal Selector "!".

Local Open Scope Z_scope.

Inductive FilterNameError := Oversized (limit size : Z).

Record FilterName := mkFilterName { fname_arc : nat; fname_text : string }.

#[global] Instance FilterName_eq_dec : EqDecision FilterName.
Proof. solve_decision. Defined.

(** Times are nanoseconds of a monotonic clock. *)
Record FilterNames := mkFilterNames {
  fn_name_size_limit : Z;
  fn_names : gmap string nat;
  fn_names_size_limit : Z;
  fn_cleanup_ts : Z;
  fn_cleanup_interval : Z;
  fn_next_arc : nat
}.

Definition FilterNames_new (now name_size_limit names_size_limit cleanup_interval : Z)
    : FilterNames :=
  {| fn_name_size_limit := name_size_limit;
     fn_names := ∅;
     fn_names_size_limit := names_size_limit;
     fn_cleanup_ts := now;
     fn_cleanup_interval := cleanup_interval;
     fn_next_arc := 0 |}.

(** [name.is_uniq()]: the table holds the only reference. *)
Definition is_uniq (strong_count : nat → nat) (arc : nat) : bool :=
  (strong_count arc =? 1)%nat.

Definition FilterNames_try_clean (now : Z) (strong_count : nat → nat) (ns : FilterNames)
    : FilterNames :=
  if (fn_names_size_limit ns <? Z.of_nat (size (fn_names ns)))
     && (fn_cleanup_interval ns <? saturating_sub now (fn_cleanup_ts ns))
  then
    {| fn_name_size_limit := fn_name_size_limit ns;
       fn_names := filter (λ kv, is_uniq strong_count kv.2 = false) (fn_names ns);
       fn_names_size_limit := fn_names_size_limit ns;
       fn_cleanup_ts := now;
       fn_cleanup_interval := fn_cleanup_interval ns;
       fn_next_arc := fn_next_arc ns |}
  else ns.

Definition FilterNames_get (name : string) (ns : FilterNames)
    : result FilterNameError FilterName * FilterNames :=
  match fn_names ns !! name with
  | Some arc => (Ok (mkFilterName arc name), ns)
  | None =>
      if fn_name_size_limit ns <? Z.of_nat (String.length name)
      then (Err (Oversized (fn_name_size_limit ns) (Z.of_nat (String.length name))), ns)
      else
        let arc := fn_next_arc ns in
        (Ok (mkFilterName arc name),
         {| fn_name_size_limit := fn_name_size_limit ns;
            fn_names := <[name := arc]> (fn_names ns);
            fn_names_size_limit := fn_names_size_limit ns;
            fn_cleanup_ts := fn_cleanup_ts ns;
            fn_cleanup_interval := fn_cleanup_interval ns;
            fn_next_arc := S arc |})
  end.

(** [HashMap<FilterName, V>] on its iteration-order view. [insert] compares the
    texts and, when the name is present, keeps the stored key. *)
Abbreviation name_map V := (list (FilterName * V)).

Fixpoint name_map_insert {V} (k : FilterName) (v : V) (m : name_map V) : name_map V :=
  match m with
  | [] => [(k, v)]
  | (k', v') :: m =>
      if decide (fname_text k = fname_text k') then (k', v) :: m
      else (k', v') :: name_map_insert k v m
  end.

Lemma name_map_insert_fresh {V} k (v : V) m :
  fname_text k ∉ fname_text <$> m.*1 → name_map_insert k v m = m ++ [(k, v)].
Proof.
  induction m as [|[k' v'] m IH]; csimpl; [done|]. intros Hk.
  rewrite decide_False by set_solver. rewrite IH; [done|]. set_solver.
Qed.

(** ** Handles outside the table *)

(** A table together with the handles that filters and updates hold. *)
Record NamesWorld := mkNamesWorld {
  nw_table : FilterNames;
  nw_handles : list FilterName
}.

(** [Arc::strong_count]: the table's own reference, if it has one, and one per handle. *)
Definition strong_count (w : NamesWorld) (arc : nat) : nat :=
  size (filter (λ kv : string * nat, kv.2 = arc) (fn_names (nw_table w)))
  + length (filter (λ h, fname_arc h = arc) (nw_handles w)).

(** What the program does with names: intern one, clone a handle, drop a
    handle, run the clean-up. *)
Inductive names_step : NamesWorld → NamesWorld → Prop :=
| step_get name h w ns' :
    FilterNames_get name (nw_table w) = (Ok h, ns') →
    names_step w (mkNamesWorld ns' (h :: nw_handles w))
| step_get_err name e w ns' :
    FilterNames_get name (nw_table w) = (Err e, ns') →
    names_step w (mkNamesWorld ns' (nw_handles w))
| step_clone h w :
    h ∈ nw_handles w →
    names_step w (mkNamesWorld (nw_table w) (h :: nw_handles w))
| step_drop h l1 l2 w :
    nw_handles w = l1 ++ h :: l2 →
    names_step w (mkNamesWorld (nw_table w) (l1 ++ l2))
| step_clean now w :
    names_step w
      (mkNamesWorld (FilterNames_try_clean now (strong_count w) (nw_table w)) (nw_handles w)).

(** Every live handle is the table's allocation for its text; allocations are
    distinct and below the allocator's counter. *)
Record names_inv (w : NamesWorld) : Prop := {
  inv_handle : ∀ h, h ∈ nw_handles w → fn_names (nw_table w) !! fname_text h = Some (fname_arc h);
  inv_distinct : ∀ s1 s2 a, fn_names (nw_table w) !! s1 = Some a →
    fn_names (nw_table w) !! s2 = Some a → s1 = s2;
  inv_fresh : ∀ s a, fn_names (nw_table w) !! s = Some a → (a < fn_next_arc (nw_table w))%nat
}.

Lemma get_existing name ns arc :
  fn_names ns !! name = Some arc → FilterNames_get name ns = (Ok (mkFilterName arc name), ns).
Proof. intros H. unfold FilterNames_get. by rewrite H. Qed.

Lemma names_inv_init now a b c : names_inv (mkNamesWorld (FilterNames_new now a b c) []).
Proof. split; simpl; [set_solver|done|done]. Qed.

Lemma names_inv_get name r w ns' l :
  names_inv w → FilterNames_get name (nw_table w) = (r, ns') →
  (∀ h, h ∈ l → h ∈ nw_handles w ∨ r = Ok h) →
  names_inv (mkNamesWorld ns' l).
Proof.
  intros [Hh Hd Hf] Hget Hl. unfold FilterNames_get in Hget.
  destruct (fn_names (nw_table w) !! name) as [arc|] eqn:E; [|case_match].
  - injection Hget as <- <-. split; simpl; [|done|done].
    intros h [Hin|[= <-]]%Hl; [by apply Hh|done].
  - injection Hget as <- <-. split; simpl; [|done|done].
    intros h [Hin|?]%Hl; [by apply Hh|done].
  - injection Hget as <- <-. split; simpl.
    + intros h [Hin|[= <-]]%Hl; simpl; [|by rewrite lookup_insert_eq].
      pose proof (Hh h Hin) as Hhh. rewrite lookup_insert_ne; [done|]. intros ->. congruence.
    + intros s1 s2 a. rewrite !lookup_insert.
      destruct (decide (name = s1)) as [<-|], (decide (name = s2)) as [<-|]; intros H1 H2.
      * done.
      * injection H1 as <-. apply Hf in H2. lia.
      * injection H2 as <-. apply Hf in H1. lia.
      * by eapply Hd.
    + intros s a. rewrite lookup_insert. case_decide; [intros [= <-]; lia|].
      intros H1. apply Hf in H1. lia.
Qed.

(** A handle outside the table keeps its name in the table through a clean-up:
    the table's reference and the handle make a strong count of at least two. *)
Lemma strong_count_handle w h :
  names_inv w → h ∈ nw_handles w → (2 <= strong_count w (fname_arc h))%nat.
Proof.
  intros Hw Hh. unfold strong_count.
  assert (size (filter (λ kv : string * nat, kv.2 = fname_arc h) (fn_names (nw_table w))) ≠ 0%nat).
  { intros He%map_size_empty_iff. pose proof (inv_handle w Hw h Hh) as Hl.
    eapply map_filter_empty_not_lookup in He; [|done]. by apply He. }
  assert (length (filter (λ h', fname_arc h' = fname_arc h) (nw_handles w)) ≠ 0%nat); [|lia].
  intros He%nil_length_inv. eapply (not_elem_of_nil h). rewrite <- He.
  by apply list_elem_of_filter.
Qed.

Lemma names_step_inv w w' : names_step w w' → names_inv w → names_inv w'.
Proof.
  intros Hstep Hw. destruct Hstep as [name h w ns' Hg|name e w ns' Hg|h w Hin|h l1 l2 w Heq|now w].
  - eapply names_inv_get; [done..|]. set_solver.
  - eapply names_inv_get; [done..|]. set_solver.
  - destruct Hw as [Hh Hd Hf]. split; simpl; [|done|done]. intros h' [->|?]%elem_of_cons; auto.
  - destruct Hw as [Hh Hd Hf]. split; simpl; [|done|done]. intros h' Hin. apply Hh.
    rewrite Heq. set_solver.
  - pose proof Hw as [Hh Hd Hf]. unfold FilterNames_try_clean. case_match; [|done].
    split; simpl.
    + intros h Hin. apply map_lookup_filter_Some. split; [by apply Hh|]. simpl.
      unfold is_uniq. pose proof (strong_count_handle w h Hw Hin).
      apply Nat.eqb_neq. lia.
    + intros s1 s2 a [? _]%map_lookup_filter_Some [? _]%map_lookup_filter_Some. by eapply Hd.
    + intros s a [? _]%map_lookup_filter_Some. by eapply Hf.
Qed.
