(* ===== verification/FilterBase.v ===== *)
(** * plugin/filter/filter.rs: errors, helpers shared by the filter constructors

    [FilterError], the monad the constructors run in (a result, and the intern
    table of names, which keeps what was interned before an error),
    [HybridSet] and the decoding helpers of [Filter]. *)

From S2P Require Import Prelude Externals Message Limits Names.

Set Default Goal Selector "!".

Section base.
Context {X : Externals}.

Inductive FilterError :=
| ErrName (e : FilterNameError)
| ErrLimitsCheck (e : FilterLimitsCheckError)
| ErrInvalidCommitment (commitment : Z)
| ErrInvalidPubkey (e : ParsePubkeyError)
| ErrInvalidSignature (e : ParseSignatureError)
| ErrCreateAccountStateMaxFilters (max : Z)
| ErrCreateAccountState (msg : string)
| ErrCreateBlocksNotAllowed (what : string)
| ErrCreateDataSliceOutOfOrder
| ErrCreateDataSliceOverlap
| ErrInvalidTokenAccountsMode (value : Z).

Abbreviation FilterResult := (result FilterError).

(** Computations that also use [names: &mut FilterNames]. *)
Definition named (A : Type) : Type := FilterNames → FilterResult A * FilterNames.

Definition named_ret {A} (a : A) : named A := λ ns, (Ok a, ns).

Definition named_bind {A B} (m : named A) (f : A → named B) : named B := λ ns,
  match m ns with
  | (Ok a, ns) => f a ns
  | (Err e, ns) => (Err e, ns)
  end.

(** The [?] operator on a result that does not use the table. *)
Definition lift {A} (r : FilterResult A) : named A := λ ns, (r, ns).

Definition lift_check {A} (r : result FilterLimitsCheckError A) : named A :=
  lift (map_err ErrLimitsCheck r).

(** [names.get(name)?]. *)
Definition names_get (name : string) : named FilterName := λ ns,
  let '(r, ns) := FilterNames_get name ns in (map_err ErrName r, ns).

(** A [for] loop over a list whose body may fail. *)
Fixpoint named_foldM {S A} (f : S → A → named S) (s : S) (l : list A) : named S :=
  match l with
  | [] => named_ret s
  | a :: l => named_bind (f s a) (λ s, named_foldM f s l)
  end.

(** [iter().map(f).collect::<Result<Vec<_>, _>>()]. *)
Fixpoint named_mapM {A B} (f : A → named B) (l : list A) : named (list B) :=
  match l with
  | [] => named_ret []
  | a :: l => named_bind (f a) (λ b, named_bind (named_mapM f l) (λ bs, named_ret (b :: bs)))
  end.

(** The loops that fill a [HashMap<FilterName, V>] from the configs. *)
Definition named_collect_map {C V} (f : C → named (FilterName * V)) (l : list C)
    : named (name_map V) :=
  named_foldM (λ m c, named_bind (f c) (λ kv, named_ret (name_map_insert kv.1 kv.2 m))) [] l.

(** [HybridSet<Pubkey>]: the set and its elements as a vector. *)
Record HybridSet := mkHybridSet { hs_vec : list Pubkey; hs_set : gset Pubkey }.

Definition HybridSet_new_with_set (set : gset Pubkey) : HybridSet :=
  {| hs_vec := elements set; hs_set := set |}.

Definition HybridSet_is_empty (h : HybridSet) : bool := bool_decide (hs_vec h = []).

Definition HybridSet_len (h : HybridSet) : Z := len (hs_vec h).

Definition HybridSet_overlaps (h : HybridSet) (other_len : Z) (contains_other : Pubkey → bool)
    (other : list Pubkey) : bool :=
  if (len (hs_vec h) <=? other_len)%Z
  then any contains_other (hs_vec h)
  else any (λ k, bool_decide (k ∈ hs_set h)) other.

(** [Filter::decode_commitment]: every level of the proto enum is accepted by
    the [matches!] that follows the conversion. *)
Definition decode_commitment (commitment : option Z) : FilterResult CommitmentLevel :=
  let commitment := default (CommitmentLevel_to_proto Processed) commitment in
  match CommitmentLevel_try_from commitment with
  | None => Err (ErrInvalidCommitment commitment)
  | Some c =>
      if bool_decide (c = Processed) || bool_decide (c = Confirmed) || bool_decide (c = Finalized)
      then Ok c
      else Err (ErrInvalidCommitment (CommitmentLevel_to_proto c))
  end.

(** [Filter::decode_pubkeys]. *)
Definition decode_pubkeys (pubkeys : list string) (limit : gset Pubkey)
    : list (FilterResult Pubkey) :=
  (λ value,
     match pubkey_from_str value with
     | Err e => Err (ErrInvalidPubkey e)
     | Ok pubkey =>
         match check_pubkey_reject pubkey limit with
         | Err e => Err (ErrLimitsCheck e)
         | Ok _ => Ok pubkey
         end
     end) <$> pubkeys.

Definition decode_pubkeys_into_set (pubkeys : list string) (limit : gset Pubkey)
    : FilterResult (gset Pubkey) :=
  match collect_result (decode_pubkeys pubkeys limit) with
  | Ok l => Ok (list_to_set l)
  | Err e => Err e
  end.

(** ** Lemmas *)

Lemma named_bind_ok {A B} (m : named A) (f : A → named B) ns b ns' :
  named_bind m f ns = (Ok b, ns') ↔ ∃ a ns1, m ns = (Ok a, ns1) ∧ f a ns1 = (Ok b, ns').
Proof.
  unfold named_bind. destruct (m ns) as [[a|e] ns1]; split.
  - eauto.
  - by intros (a' & ns2 & [= <- <-] & ?).
  - done.
  - by intros (a' & ns2 & [=] & ?).
Qed.

Lemma lift_ok {A} (r : FilterResult A) ns a ns' : lift r ns = (Ok a, ns') ↔ r = Ok a ∧ ns' = ns.
Proof. unfold lift. naive_solver. Qed.

Lemma lift_check_ok {A} (r : result FilterLimitsCheckError A) ns a ns' :
  lift_check r ns = (Ok a, ns') ↔ r = Ok a ∧ ns' = ns.
Proof. unfold lift_check. rewrite lift_ok. destruct r; simpl; naive_solver. Qed.

(** The named-loop rule: an invariant on the accumulator, indexed by the
    processed prefix, for runs that succeed. *)
Lemma named_foldM_ind {S A} (I : list A → S → Prop) (f : S → A → named S) s l ns s' ns' :
  named_foldM f s l ns = (Ok s', ns') →
  I [] s →
  (∀ pre a post s ns s' ns', l = pre ++ a :: post → f s a ns = (Ok s', ns') →
     I pre s → I (pre ++ [a]) s') →
  I l s'.
Proof.
  intros Hrun H0 Hstep.
  cut (∀ post pre s ns, l = pre ++ post → I pre s →
    named_foldM f s post ns = (Ok s', ns') → I l s').
  { intros H. by apply (H l [] s ns). }
  induction post as [|a post IH]; intros pre s0 ns0 Heq HI Hrun'; simpl in Hrun'.
  - injection Hrun' as -> ->. rewrite Heq, app_nil_r. done.
  - apply named_bind_ok in Hrun' as (s1 & ns1 & H1 & H2).
    eapply (IH (pre ++ [a])); [by rewrite <- app_assoc| |done]. by eapply Hstep.
Qed.

Lemma named_mapM_ok {A B} (f : A → named B) l ns bs ns' :
  named_mapM f l ns = (Ok bs, ns') → Forall2 (λ a b, ∃ n n', f a n = (Ok b, n')) l bs.
Proof.
  revert ns bs ns'. induction l as [|a l IH]; intros ns bs ns'; simpl.
  - intros [= <- _]. constructor.
  - rewrite named_bind_ok. intros (b & n1 & Hb & Hl). apply named_bind_ok in Hl as (bs' & n2 & Hl & Heq).
    injection Heq as <- _. constructor; [eauto|]. by eapply IH.
Qed.

(** Configs have distinct names, so the map has one entry per config. *)
Lemma named_collect_map_ok {C V} (f : string * C → named (FilterName * V))
    (R : string * C → V → Prop) l ns m ns' :
  named_collect_map f l ns = (Ok m, ns') → NoDup l.*1 →
  (∀ c kv ns ns', f c ns = (Ok kv, ns') → fname_text kv.1 = c.1 ∧ R c kv.2) →
  Forall2 (λ c kv, fname_text kv.1 = c.1 ∧ R c kv.2) l m.
Proof.
  intros Hrun Hnd HR. unfold named_collect_map in Hrun.
  revert Hnd. eapply (named_foldM_ind
    (λ pre m, NoDup pre.*1 → Forall2 (λ c kv, fname_text kv.1 = c.1 ∧ R c kv.2) pre m) _ _ _ _ _ _ Hrun).
  - by constructor.
  - intros pre a post s n s' n' _ Hstep IH Hnd. rewrite fmap_app in Hnd.
    apply NoDup_app in Hnd as (Hnd & Hdis & _). specialize (IH Hnd).
    apply named_bind_ok in Hstep as ([k v] & n1 & Hf & Hr). injection Hr as <- _. cbn [fst snd].
    pose proof (HR _ _ _ _ Hf) as [Hk Hv]. cbn [fst snd] in Hk, Hv.
    rewrite name_map_insert_fresh.
    + apply Forall2_app; [done|]. by constructor.
    + assert (fname_text <$> s.*1 = pre.*1) as ->.
      { clear -IH. induction IH as [|c kv pre s [H _] _ IH]; csimpl; [done|]. by rewrite H, IH. }
      rewrite Hk. intros Hin. apply (Hdis _ Hin). by apply list_elem_of_singleton.
Qed.

Lemma names_get_ok name ns h ns' : names_get name ns = (Ok h, ns') → fname_text h = name.
Proof.
  unfold names_get, FilterNames_get. destruct (fn_names ns !! name) as [arc|]; simpl.
  - by intros [= <- _].
  - destruct (_ <? _)%Z; simpl; [done|]. by intros [= <- _].
Qed.

Lemma HybridSet_is_empty_new s : HybridSet_is_empty (HybridSet_new_with_set s) = bool_decide (s = ∅).
Proof.
  unfold HybridSet_is_empty. simpl. apply bool_decide_ext.
  rewrite elements_empty_iff. split; [apply leibniz_equiv|by intros ->].
Qed.

(** Whatever side it iterates, [overlaps] decides whether the set meets the
    other collection. *)
Lemma HybridSet_overlaps_spec s other_len contains_other other :
  (∀ k, contains_other k = true ↔ k ∈ other) →
  HybridSet_overlaps (HybridSet_new_with_set s) other_len contains_other other = true
  ↔ ∃ k, k ∈ s ∧ k ∈ other.
Proof.
  intros Hc. unfold HybridSet_overlaps. simpl. case_match; rewrite existsb_In.
  - setoid_rewrite Hc. by setoid_rewrite elem_of_elements.
  - setoid_rewrite bool_decide_eq_true. naive_solver.
Qed.

Lemma decode_pubkeys_ok pubkeys limit l :
  collect_result (decode_pubkeys pubkeys limit) = Ok l →
  Forall2 (λ s pk, pubkey_from_str s = Ok pk ∧ pk ∉ limit) pubkeys l.
Proof.
  rewrite collect_result_ok. unfold decode_pubkeys. revert l.
  induction pubkeys as [|s pubkeys IH]; intros [|pk l]; csimpl; try done.
  intros [= Hs Hl]. constructor; [|by apply IH].
  destruct (pubkey_from_str s) as [pk'|e]; [|done].
  destruct (check_pubkey_reject pk' limit) as [[]|e] eqn:E; [|done].
  apply check_pubkey_reject_ok in E. by simplify_eq.
Qed.

Lemma decode_pubkeys_into_set_ok pubkeys limit s :
  decode_pubkeys_into_set pubkeys limit = Ok s →
  (∀ pk, pk ∈ s ↔ ∃ str, str ∈ pubkeys ∧ pubkey_from_str str = Ok pk) ∧ s ## limit.
Proof.
  unfold decode_pubkeys_into_set.
  destruct (collect_result _) as [l|e] eqn:E; [|done]. intros [= <-].
  apply decode_pubkeys_ok in E.
  assert (∀ pk, pk ∈ l → (pk ∉ limit) ∧ (∃ str, str ∈ pubkeys ∧ pubkey_from_str str = Ok pk)) as H1.
  { induction E as [|str pk pks l [H1 H2] E IH]; intros pk' Hin; [by apply elem_of_nil in Hin|].
    apply elem_of_cons in Hin as [->|Hin].
    - split; [done|]. exists str. split; [by left|done].
    - destruct (IH _ Hin) as [? (str' & ? & ?)]. split; [done|]. exists str'. split; [by right|done]. }
  assert (∀ str pk, str ∈ pubkeys → pubkey_from_str str = Ok pk → pk ∈ l) as H2.
  { clear H1. induction E as [|str pk pks l [Hp ?] E IH]; intros str' pk' Hin Hok.
    - by apply elem_of_nil in Hin.
    - apply elem_of_cons in Hin as [->|Hin].
      + rewrite Hp in Hok. injection Hok as ->. by left.
      + right. by eapply IH. }
  split.
  - intros pk. rewrite elem_of_list_to_set. split; [|naive_solver]. intros Hin. by apply H1.
  - intros pk. rewrite elem_of_list_to_set. intros Hin. by apply H1.
Qed.

Lemma decode_pubkeys_into_set_nonempty pubkeys limit s :
  decode_pubkeys_into_set pubkeys limit = Ok s → pubkeys ≠ [] → s ≠ ∅.
Proof.
  unfold decode_pubkeys_into_set.
  destruct (collect_result _) as [l|e] eqn:E; [|done]. intros [= <-] Hne.
  apply decode_pubkeys_ok in E. destruct E as [|str pk pks l Hp E]; [done|]. set_solver.
Qed.
End base.

Abbreviation FilterResult := (result FilterError).

#[export] Hint Rewrite @named_bind_ok @lift_ok @lift_check_ok : yellowstone.

Declare Scope named_scope.
Delimit Scope named_scope with named.
Notation "'let*' x ':=' m 'in' k" := (named_bind m (λ x, k))
  (at level 10, x pattern, m at level 200, k at level 200) : named_scope.
