(* ===== verification/DataSlice.v ===== *)
(** * plugin/filter/filter.rs: [FilterAccountsDataSlice]

    The ranges of account data a subscriber asks for. [offset + length] is a
    64-bit addition that wraps; indexing [source[start..end]] panics when the
    range is not inside the source. *)

From S2P Require Import Prelude Externals Proto Limits FilterBase.

Set Default Goal Selector "!".

Local Open Scope Z_scope.

Record Range := mkRange { range_start : Z; range_end : Z }.

(** [&source[start..end]]. *)
Definition slice_index (source : bytes) (start stop : Z) : outcome bytes :=
  if (start <=? stop) && (stop <=? len source)
  then Done (take (Z.to_nat (stop - start)) (drop (Z.to_nat start) source))
  else Panic.

(** [Vec::<u8>::with_capacity]: a capacity above [isize::MAX] panics. *)
Definition vec_with_capacity (capacity : Z) : outcome bytes :=
  if capacity <=? isize_max then Done [] else Panic.

Section data_slice.
Context {X : Externals}.

Definition FilterAccountsDataSlice : Type := list Range.

Definition slice_range (s : SubscribeRequestAccountsDataSlice) : Range :=
  {| range_start := ads_offset s; range_end := wrap64 (ads_offset s + ads_length s) |}.

(** The two inner loops for slice [i]: later slices start at or after it, and
    it starts at or after the end of every earlier slice. *)
Fixpoint check_slices (earlier later : list Range) : FilterResult unit :=
  match later with
  | [] => Ok tt
  | slice_a :: later =>
      if any (λ slice_b, range_start slice_b <? range_start slice_a) later
      then Err ErrCreateDataSliceOutOfOrder
      else if any (λ slice_b, range_start slice_a <? range_end slice_b) earlier
      then Err ErrCreateDataSliceOverlap
      else check_slices (earlier ++ [slice_a]) later
  end.

Definition FilterAccountsDataSlice_new (slices : list SubscribeRequestAccountsDataSlice)
    (limits : Z) : FilterResult FilterAccountsDataSlice :=
  match check_max (len slices) limits with
  | Err e => Err (ErrLimitsCheck e)
  | Ok _ =>
      let slices := slice_range <$> slices in
      match check_slices [] slices with
      | Err e => Err e
      | Ok _ => Ok slices
      end
  end.

Definition get_slice (ds : FilterAccountsDataSlice) (source : bytes) : outcome bytes :=
  match ds with
  | [] => Done source
  | _ =>
      data ← vec_with_capacity
        (fold_left (λ acc r, wrap64 (acc + wrap64 (range_end r - range_start r)))
           (filter (λ r, range_end r < len source) ds) 0);
      foldM (λ data r,
        if range_end r <=? len source
        then s ← slice_index source (range_start r) (range_end r); Done (data ++ s)
        else Done data) data ds
  end.

Definition get_slice_len (ds : FilterAccountsDataSlice) (source : bytes) : outcome Z :=
  match ds with
  | [] => Done (len source)
  | _ =>
      foldM (λ n r,
        if range_end r <=? len source
        then s ← slice_index source (range_start r) (range_end r); Done (wrap64 (n + len s))
        else Done n) 0 ds
  end.

(** [slice_encode_raw]: the bytes put in the buffer (wire type 2 is
    length-delimited). *)
Definition slice_encode_raw (ds : FilterAccountsDataSlice) (tag : Z) (source : bytes)
    : outcome bytes :=
  n ← get_slice_len ds source;
  if 0 <? n then
    payload ← match ds with
              | [] => Done source
              | _ =>
                  foldM (λ buf r,
                    if range_end r <=? len source
                    then s ← slice_index source (range_start r) (range_end r); Done (buf ++ s)
                    else Done buf) [] ds
              end;
    Done (prost_encode_key tag 2 ++ prost_encode_varint n ++ payload)
  else Done [].

(** ** What a well-formed list of slices is *)

(** Each slice ends no earlier than it starts, and no later slice starts before
    it ends. *)
Fixpoint slices_disjoint (ds : list Range) : Prop :=
  match ds with
  | [] => True
  | r :: ds =>
      0 <= range_start r <= range_end r ∧
      Forall (λ r', range_end r <= range_start r') ds ∧
      slices_disjoint ds
  end.

(** The reference: the slices that fit in the source, in order. *)
Definition sub_bytes (source : bytes) (r : Range) : bytes :=
  take (Z.to_nat (range_end r - range_start r)) (drop (Z.to_nat (range_start r)) source).

Definition selected_bytes (ds : list Range) (source : bytes) : bytes :=
  concat (sub_bytes source <$> filter (λ r, range_end r <= len source) ds).

(** ** Lemmas *)

Lemma slice_index_done source r :
  0 <= range_start r <= range_end r → range_end r <= len source →
  slice_index source (range_start r) (range_end r) = Done (sub_bytes source r).
Proof.
  intros H1 H2. unfold slice_index.
  destruct (Z.leb_spec (range_start r) (range_end r)); [|lia].
  by destruct (Z.leb_spec (range_end r) (len source)); [|lia].
Qed.

Lemma sub_bytes_length source r :
  0 <= range_start r <= range_end r → range_end r <= len source →
  len (sub_bytes source r) = range_end r - range_start r.
Proof. unfold len, sub_bytes. intros ??. rewrite length_take, length_drop. lia. Qed.

Lemma check_slices_ok earlier later :
  check_slices earlier later = Ok tt →
  Forall (λ r, 0 <= range_start r <= range_end r) (earlier ++ later) →
  slices_disjoint earlier →
  slices_disjoint (earlier ++ later).
Proof.
  revert earlier. induction later as [|a later IH]; intros earlier Hc Hwf Hd; simpl in Hc.
  { by rewrite app_nil_r. }
  destruct (any _ later) eqn:Hord; [done|]. destruct (any _ earlier) eqn:Hov; [done|].
  replace (earlier ++ a :: later) with ((earlier ++ [a]) ++ later) in * by by rewrite <- app_assoc.
  apply IH; [done|done|].
  assert (Forall (λ r, range_end r <= range_start a) earlier) as Hend.
  { apply Forall_forall. intros r Hr. destruct (Z.le_gt_cases (range_end r) (range_start a)); [done|].
    exfalso. enough (any (λ b, range_start a <? range_end b) earlier = true) as Hx by congruence.
    apply existsb_In. exists r. split; [done|]. by apply Z.ltb_lt. }
  rewrite !Forall_app, Forall_singleton in Hwf. destruct Hwf as [[Hwe Hwa] _].
  clear - Hd Hend Hwa.
  induction earlier as [|r earlier IH]; simpl in *; [done|].
  apply Forall_cons in Hend as [He Hend]. destruct Hd as (H1 & H2 & H3).
  split; [done|]. split; [|by apply IH]. apply Forall_app. split; [done|]. by constructor.
Qed.

(** The loop shared by [get_slice] and [slice_encode_raw]. *)
Lemma collect_slices_done ds source acc :
  Forall (λ r, 0 <= range_start r <= range_end r) ds →
  foldM (λ data r,
    if range_end r <=? len source
    then s ← slice_index source (range_start r) (range_end r); Done (data ++ s)
    else Done data) acc ds = Done (acc ++ selected_bytes ds source).
Proof.
  revert acc. unfold selected_bytes. induction ds as [|r ds IH]; intros acc Hwf; simpl.
  { by rewrite app_nil_r. }
  apply Forall_cons in Hwf as [Hr Hwf]. rewrite filter_cons.
  destruct (Z.leb_spec (range_end r) (len source)).
  - rewrite slice_index_done by done. rewrite decide_True by done. csimpl.
    rewrite IH by done. by rewrite <- app_assoc.
  - rewrite decide_False by lia. simpl. by apply IH.
Qed.

Lemma slices_disjoint_wf ds :
  slices_disjoint ds → Forall (λ r, 0 <= range_start r <= range_end r) ds.
Proof. induction ds as [|r ds IH]; simpl; [constructor|]. intros (? & ? & ?). constructor; auto. Qed.

(** Disjoint slices select at most the bytes of the source after [lo]. *)
Lemma selected_bytes_bound ds source lo :
  slices_disjoint ds → 0 <= lo <= len source → Forall (λ r, lo <= range_start r) ds →
  len (selected_bytes ds source) <= len source - lo.
Proof.
  unfold selected_bytes. revert lo.
  induction ds as [|r ds IH]; intros lo Hd Hlo Hall; simpl.
  { unfold len in *. simpl. lia. }
  destruct Hd as (Hr & Hnext & Hd). apply Forall_cons in Hall as [Hlr Hall].
  rewrite filter_cons. case_decide as Hfit.
  - csimpl. rewrite len_app, sub_bytes_length by done.
    specialize (IH (range_end r) Hd ltac:(lia) Hnext). lia.
  - by apply IH.
Qed.

Lemma slice_len_loop ds source n :
  slices_disjoint ds → 0 <= n → n + len (selected_bytes ds source) < 2 ^ 64 →
  foldM (λ n r,
    if range_end r <=? len source
    then s ← slice_index source (range_start r) (range_end r); Done (wrap64 (n + len s))
    else Done n) n ds = Done (n + len (selected_bytes ds source)).
Proof.
  unfold selected_bytes. revert n. induction ds as [|r ds IH]; intros n Hd Hn Hb; simpl.
  { unfold len. simpl. f_equal. lia. }
  destruct Hd as (Hr & _ & Hd). rewrite filter_cons in *.
  destruct (Z.leb_spec (range_end r) (len source)).
  - rewrite decide_True in * by done. rewrite slice_index_done by done. csimpl in *.
    rewrite len_app in Hb |- *.
    pose proof (len_nonneg (sub_bytes source r)).
    pose proof (len_nonneg (concat (sub_bytes source <$> filter (λ r, range_end r <= len source) ds))).
    unfold wrap64. rewrite Z.mod_small by lia. rewrite IH by (done || lia). f_equal. lia.
  - rewrite decide_False in * by lia. by apply IH.
Qed.

(** The capacity reserved by [get_slice] is at most what is selected. *)
Lemma capacity_bound ds (source : bytes) lo acc :
  slices_disjoint ds → 0 <= lo <= len source → Forall (λ r, lo <= range_start r) ds →
  0 <= acc → acc + (len source - lo) <= isize_max →
  0 <= fold_left (λ acc r, wrap64 (acc + wrap64 (range_end r - range_start r)))
    (filter (λ r, range_end r < len source) ds) acc <= acc + (len source - lo).
Proof.
  unfold isize_max. revert lo acc.
  induction ds as [|r ds IH]; intros lo acc Hd Hlo Hall Hacc Hb; simpl; [lia|].
  destruct Hd as (Hr & Hnext & Hd). apply Forall_cons in Hall as [Hlr Hall].
  rewrite filter_cons. case_decide as Hfit; simpl; [|by apply IH].
  assert (wrap64 (acc + wrap64 (range_end r - range_start r))
    = acc + (range_end r - range_start r)) as ->.
  { unfold wrap64. rewrite (Z.mod_small (range_end r - range_start r)) by lia.
    apply Z.mod_small. lia. }
  specialize (IH (range_end r) (acc + (range_end r - range_start r)) Hd
    ltac:(lia) Hnext ltac:(lia) ltac:(lia)). lia.
Qed.

(** The bytes a subscription with these slices receives of an account. *)
Definition sliced (ds : list Range) (source : bytes) : bytes :=
  match ds with [] => source | _ => selected_bytes ds source end.

Definition no_overflow (s : SubscribeRequestAccountsDataSlice) : Prop :=
  0 <= ads_offset s ∧ 0 <= ads_length s ∧ ads_offset s + ads_length s < 2 ^ 64.

Lemma new_slices_disjoint slices limits ds :
  Forall no_overflow slices → FilterAccountsDataSlice_new slices limits = Ok ds →
  slices_disjoint ds.
Proof.
  intros Hno. unfold FilterAccountsDataSlice_new. case_match; [|done].
  destruct (check_slices [] _) as [[]|] eqn:Hc; [|done]. intros [= <-].
  change (slices_disjoint ([] ++ (slice_range <$> slices))).
  apply check_slices_ok; [done| |done]. simpl. apply Forall_fmap.
  eapply Forall_impl; [done|]. intros [o l] (?&?&?). simpl in *.
  unfold wrap64. rewrite Z.mod_small by lia. lia.
Qed.

Lemma get_slice_sliced ds source :
  slices_disjoint ds → len source <= isize_max → get_slice ds source = Done (sliced ds source).
Proof.
  intros Hd Hs. destruct ds as [|r ds]; [done|].
  pose proof (capacity_bound (r :: ds) source 0 0 Hd) as Hcap.
  pose proof (len_nonneg source).
  assert (Forall (λ r, 0 <= range_start r) (r :: ds)) as Hpos.
  { eapply Forall_impl; [by apply slices_disjoint_wf|]. simpl. lia. }
  unfold get_slice, vec_with_capacity.
  specialize (Hcap ltac:(lia) Hpos ltac:(lia) ltac:(lia)).
  rewrite (proj2 (Z.leb_le _ _)) by (etransitivity; [apply Hcap|lia]).
  exact (collect_slices_done (r :: ds) source [] (slices_disjoint_wf _ Hd)).
Qed.

Lemma get_slice_len_sliced ds source :
  slices_disjoint ds → len source <= isize_max →
  get_slice_len ds source = Done (len (sliced ds source)).
Proof.
  intros Hd Hs. destruct ds as [|r ds]; [done|].
  pose proof (len_nonneg source).
  assert (Forall (λ r, 0 <= range_start r) (r :: ds)) as Hpos.
  { eapply Forall_impl; [by apply slices_disjoint_wf|]. simpl. lia. }
  pose proof (selected_bytes_bound (r :: ds) source 0 Hd ltac:(lia) Hpos).
  unfold get_slice_len, sliced. unfold isize_max in *.
  rewrite (slice_len_loop (r :: ds) source 0) by (done || lia). done.
Qed.

Lemma sliced_le ds source : slices_disjoint ds → len (sliced ds source) <= len source.
Proof.
  intros Hd. pose proof (len_nonneg source). destruct ds as [|r ds]; [done|].
  assert (Forall (λ r, 0 <= range_start r) (r :: ds)) as Hpos.
  { eapply Forall_impl; [by apply slices_disjoint_wf|]. simpl. lia. }
  pose proof (selected_bytes_bound (r :: ds) source 0 Hd ltac:(lia) Hpos). simpl. lia.
Qed.

Lemma slice_encode_raw_sliced ds source tag :
  slices_disjoint ds → len source <= isize_max →
  slice_encode_raw ds tag source =
    Done (if decide (sliced ds source = []) then []
          else prost_encode_key tag 2 ++ prost_encode_varint (len (sliced ds source))
               ++ sliced ds source).
Proof.
  intros Hd Hs. unfold slice_encode_raw. rewrite get_slice_len_sliced by done. simpl.
  case_decide as Hnil.
  - rewrite Hnil. done.
  - destruct (Z.ltb_spec 0 (len (sliced ds source))) as [|Hz].
    + destruct ds as [|r ds]; [done|].
      rewrite (collect_slices_done (r :: ds) source []) by by apply slices_disjoint_wf. done.
    + exfalso. apply Hnil, nil_length_inv. unfold len in Hz. lia.
Qed.

(** A slice request that the constructor accepts and whose 64-bit sums do
    not wrap is a list of disjoint ranges in order; on every account (at most
    [isize::MAX] bytes) [get_slice] returns exactly the ranges that fit,
    concatenated, [get_slice_len] is the length of that, the encoder emits
    those bytes as the field's payload, and no operation panics. *)
Theorem data_slice_correct slices limits ds source tag :
  Forall no_overflow slices →
  FilterAccountsDataSlice_new slices limits = Ok ds →
  len source <= isize_max →
  slices_disjoint ds ∧ len slices <= limits ∧
  get_slice ds source = Done (sliced ds source) ∧
  get_slice_len ds source = Done (len (sliced ds source)) ∧
  len (sliced ds source) <= len source ∧
  slice_encode_raw ds tag source =
    Done (if decide (sliced ds source = []) then []
          else prost_encode_key tag 2 ++ prost_encode_varint (len (sliced ds source))
               ++ sliced ds source).
Proof.
  intros Hno Hnew Hs. pose proof (new_slices_disjoint _ _ _ Hno Hnew) as Hd.
  split; [done|]. split.
  { unfold FilterAccountsDataSlice_new in Hnew.
    destruct (check_max (len slices) limits) as [[]|] eqn:E; [|done]. by apply check_max_ok. }
  split; [by apply get_slice_sliced|]. split; [by apply get_slice_len_sliced|].
  split; [by apply sliced_le|]. by apply slice_encode_raw_sliced.
Qed.

(** The sum [offset + length] is not checked: any single slice whose sum
    reaches 2^64 is accepted by the constructor, and reading an account that is
    as long as the wrapped end panics; a slice whose sum does not reach 2^64
    never panics. *)
Theorem data_slice_overflow_panics s limits :
  1 <= limits → 0 <= ads_offset s < 2 ^ 64 → 0 <= ads_length s < 2 ^ 64 →
  FilterAccountsDataSlice_new [s] limits = Ok [slice_range s] ∧
  ∀ source, len source <= isize_max →
    (get_slice_len [slice_range s] source = Panic ↔
     2 ^ 64 <= ads_offset s + ads_length s
     ∧ ads_offset s + ads_length s - 2 ^ 64 <= len source).
Proof.
  intros Hl Ho Hlen. split.
  { unfold FilterAccountsDataSlice_new, check_max.
    destruct (Z.leb_spec (len [s]) limits) as [|Hgt]; [done|]. unfold len in Hgt. simpl in Hgt. lia. }
  intros source Hs. destruct (decide (ads_offset s + ads_length s < 2 ^ 64)) as [Hno|Hov].
  - rewrite get_slice_len_sliced; [split; [done|lia]| |done].
    simpl. unfold wrap64. rewrite Z.mod_small by lia.
    split; [lia|]. by split.
  - assert (wrap64 (ads_offset s + ads_length s) = ads_offset s + ads_length s - 2 ^ 64) as Hw.
    { unfold wrap64. rewrite <- (Z.mod_small (ads_offset s + ads_length s - 2 ^ 64) (2 ^ 64)) by lia.
      replace (ads_offset s + ads_length s)
        with (ads_offset s + ads_length s - 2 ^ 64 + 1 * 2 ^ 64) at 1 by lia.
      by rewrite Z.mod_add by lia. }
    unfold get_slice_len, slice_index; simpl. rewrite Hw.
    destruct (Z.leb_spec (ads_offset s + ads_length s - 2 ^ 64) (len source)).
    + destruct (Z.leb_spec (ads_offset s) (ads_offset s + ads_length s - 2 ^ 64)); [lia|].
      simpl. split; [lia|done].
    + simpl. split; [done|lia].
Qed.
End data_slice.

Lemma data_slice_correct_witness :
  let s := [mkDataSlice 1 2; mkDataSlice 4 1; mkDataSlice 9 5] in
  let src := [Byte.x00; Byte.x01; Byte.x02; Byte.x03; Byte.x04; Byte.x05] in
  ∃ ds, FilterAccountsDataSlice_new (X := toy_externals) s 3 = Ok ds ∧
    get_slice ds src = Done [Byte.x01; Byte.x02; Byte.x04].
Proof.
  intros s src. eexists. split; [vm_compute; reflexivity|].
  refine (proj1 (proj2 (proj2 (data_slice_correct (X := toy_externals) s 3 _ src 6 _ _ _)))).
  - repeat constructor; vm_compute; intuition discriminate.
  - vm_compute. reflexivity.
  - vm_compute. discriminate.
Defined.

Lemma data_slice_overflow_panics_witness :
  get_slice_len [slice_range (mkDataSlice 10 (2 ^ 64 - 5))]
    [Byte.x00; Byte.x01; Byte.x02; Byte.x03; Byte.x04] = Panic.
Proof.
  refine (proj2 (proj2 (data_slice_overflow_panics (X := toy_externals)
    (mkDataSlice 10 (2 ^ 64 - 5)) 1 _ _ _) _ _) _); vm_compute; intuition discriminate.
Defined.
