(* ===== verification/AccountsState.v ===== *)
(** * plugin/filter/filter.rs: [FilterAccountsState]

    The predicates on account data and lamports of one account filter: parsing
    from the request ([new]) and evaluation ([is_match]). The end of a memcmp
    range, [offset + bytes.len()], is a 64-bit addition that wraps. *)

From S2P Require Import Prelude Externals Proto Limits FilterBase DataSlice.

Set Default Goal Selector "!".

Local Open Scope Z_scope.

Inductive FilterAccountsLamports :=
| LamportsEq (value : Z)
| LamportsNe (value : Z)
| LamportsLt (value : Z)
| LamportsGt (value : Z).

Definition FilterAccountsLamports_from (cmp : AccountsFilterLamports) : FilterAccountsLamports :=
  match cmp with
  | CmpEq value => LamportsEq value
  | CmpNe value => LamportsNe value
  | CmpLt value => LamportsLt value
  | CmpGt value => LamportsGt value
  end.

Definition FilterAccountsLamports_is_match (f : FilterAccountsLamports) (lamports : Z) : bool :=
  match f with
  | LamportsEq value => value =? lamports
  | LamportsNe value => negb (value =? lamports)
  | LamportsLt value => lamports <? value
  | LamportsGt value => value <? lamports
  end.

Record FilterAccountsState := mkFilterAccountsState {
  fas_memcmp : list (Z * bytes);
  fas_datasize : option Z;
  fas_token_account_state : bool;
  fas_lamports : list FilterAccountsLamports
}.

Definition FilterAccountsState_default : FilterAccountsState :=
  {| fas_memcmp := []; fas_datasize := None; fas_token_account_state := false; fas_lamports := [] |}.

Definition MAX_FILTERS : Z := 4.

Definition MAX_DATA_SIZE : Z := 128.

Definition MAX_DATA_BASE58_SIZE : Z := 175.

Definition MAX_DATA_BASE64_SIZE : Z := 172.

Definition string_len (s : string) : Z := Z.of_nat (String.length s).

Section accounts_state.
Context {X : Externals}.

(** The bytes of a memcmp filter. *)
Definition memcmp_decode (data : option AccountsFilterMemcmpOneof) : FilterResult bytes :=
  match data with
  | Some (MemcmpBytes data) => Ok data
  | Some (MemcmpBase58 data) =>
      if MAX_DATA_BASE58_SIZE <? string_len data then Err (ErrCreateAccountState "data too large")
      else match bs58_decode data with
           | Some data => Ok data
           | None => Err (ErrCreateAccountState "invalid base58")
           end
  | Some (MemcmpBase64 data) =>
      if MAX_DATA_BASE64_SIZE <? string_len data then Err (ErrCreateAccountState "data too large")
      else match base64_decode data with
           | Some data => Ok data
           | None => Err (ErrCreateAccountState "invalid base64")
           end
  | None => Err (ErrCreateAccountState "data for memcmp should be defined")
  end.

(** One iteration of the loop over the request's filters. *)
Definition FilterAccountsState_add (this : FilterAccountsState)
    (filter : SubscribeRequestFilterAccountsFilter) : FilterResult FilterAccountsState :=
  match filter with
  | Some (FilterMemcmp memcmp) =>
      data ← memcmp_decode (memcmp_data memcmp);
      if MAX_DATA_SIZE <? len data then Err (ErrCreateAccountState "data too large")
      else Ok {| fas_memcmp := fas_memcmp this ++ [(memcmp_offset memcmp, data)];
                 fas_datasize := fas_datasize this;
                 fas_token_account_state := fas_token_account_state this;
                 fas_lamports := fas_lamports this |}
  | Some (FilterDatasize datasize) =>
      match fas_datasize this with
      | Some _ => Err (ErrCreateAccountState "datasize used more than once")
      | None => Ok {| fas_memcmp := fas_memcmp this;
                      fas_datasize := Some datasize;
                      fas_token_account_state := fas_token_account_state this;
                      fas_lamports := fas_lamports this |}
      end
  | Some (FilterTokenAccountState value) =>
      if negb value
      then Err (ErrCreateAccountState "token_account_state only allowed to be true")
      else Ok {| fas_memcmp := fas_memcmp this;
                 fas_datasize := fas_datasize this;
                 fas_token_account_state := true;
                 fas_lamports := fas_lamports this |}
  | Some (FilterLamports cmp) =>
      match cmp with
      | None => Err (ErrCreateAccountState "cmp for lamports should be defined")
      | Some cmp => Ok {| fas_memcmp := fas_memcmp this;
                          fas_datasize := fas_datasize this;
                          fas_token_account_state := fas_token_account_state this;
                          fas_lamports := fas_lamports this ++ [FilterAccountsLamports_from cmp] |}
      end
  | None => Err (ErrCreateAccountState "filter should be defined")
  end.

Fixpoint FilterAccountsState_add_all (this : FilterAccountsState)
    (filters : list SubscribeRequestFilterAccountsFilter) : FilterResult FilterAccountsState :=
  match filters with
  | [] => Ok this
  | filter :: filters =>
      this ← FilterAccountsState_add this filter;
      FilterAccountsState_add_all this filters
  end.

Definition FilterAccountsState_new (filters : list SubscribeRequestFilterAccountsFilter)
    : FilterResult FilterAccountsState :=
  if MAX_FILTERS <? len filters then Err (ErrCreateAccountStateMaxFilters MAX_FILTERS)
  else FilterAccountsState_add_all FilterAccountsState_default filters.

Definition FilterAccountsState_is_empty (s : FilterAccountsState) : bool :=
  bool_decide (fas_memcmp s = []) && bool_decide (fas_datasize s = None)
  && negb (fas_token_account_state s)
  && match fas_lamports s with [] => true | _ => false end.

(** The [for (offset, bytes) in self.memcmp.iter()] loop. *)
Fixpoint memcmp_is_match (memcmp : list (Z * bytes)) (data : bytes) : outcome bool :=
  match memcmp with
  | [] => Done true
  | (offset, b) :: memcmp =>
      if len data <? wrap64 (offset + len b) then Done false
      else
        slice ← slice_index data offset (wrap64 (offset + len b));
        if bool_decide (slice = b) then memcmp_is_match memcmp data else Done false
  end.

Definition FilterAccountsState_is_match (s : FilterAccountsState) (data : bytes) (lamports : Z)
    : outcome bool :=
  if match fas_datasize s with Some datasize => negb (len data =? datasize) | None => false end
  then Done false
  else if fas_token_account_state s && negb (valid_account_data data) then Done false
  else if any (λ f, negb (FilterAccountsLamports_is_match f lamports)) (fas_lamports s)
  then Done false
  else memcmp_is_match (fas_memcmp s) data.

(** ** Specification *)

Definition lamports_holds (f : FilterAccountsLamports) (lamports : Z) : Prop :=
  match f with
  | LamportsEq value => lamports = value
  | LamportsNe value => lamports ≠ value
  | LamportsLt value => lamports < value
  | LamportsGt value => value < lamports
  end.

(** [b] occurs in [data] at [offset]. *)
Definition occurs_at (data : bytes) (offset : Z) (b : bytes) : Prop :=
  ∃ pre post, data = pre ++ b ++ post ∧ len pre = offset.

Definition state_holds (s : FilterAccountsState) (data : bytes) (lamports : Z) : Prop :=
  (∀ n, fas_datasize s = Some n → len data = n) ∧
  (fas_token_account_state s = true → valid_account_data data = true) ∧
  Forall (λ f, lamports_holds f lamports) (fas_lamports s) ∧
  Forall (λ m, occurs_at data m.1 m.2) (fas_memcmp s).

(** No memcmp range wraps around. *)
Definition memcmp_in_range (s : FilterAccountsState) : Prop :=
  Forall (λ m : Z * bytes, 0 <= m.1 ∧ m.1 + len m.2 < 2 ^ 64) (fas_memcmp s).

(** ** Lemmas *)

Lemma lamports_is_match_spec f lamports :
  FilterAccountsLamports_is_match f lamports = true ↔ lamports_holds f lamports.
Proof.
  destruct f; simpl; rewrite ?negb_true_iff, ?Z.eqb_eq, ?Z.eqb_neq, ?Z.ltb_lt; intuition congruence.
Qed.

Lemma occurs_at_slice data offset b :
  0 <= offset → offset + len b <= len data →
  occurs_at data offset b ↔
  take (Z.to_nat (offset + len b - offset)) (drop (Z.to_nat offset) data) = b.
Proof.
  unfold len. intros Ho Hl. replace (offset + Z.of_nat (length b) - offset)
    with (Z.of_nat (length b)) by lia. rewrite Nat2Z.id. split.
  - intros (pre & post & -> & <-). unfold len. rewrite Nat2Z.id, drop_app_length.
    apply take_app_length.
  - intros H. exists (take (Z.to_nat offset) data),
      (drop (length b) (drop (Z.to_nat offset) data)). split.
    + rewrite <- H at 1. by rewrite take_drop, take_drop.
    + unfold len. rewrite length_take. lia.
Qed.

Lemma occurs_at_len data offset b : occurs_at data offset b → offset + len b <= len data.
Proof. intros (pre & post & -> & <-). rewrite !len_app. pose proof (len_nonneg post). lia. Qed.

Lemma memcmp_is_match_spec memcmp data :
  Forall (λ m : Z * bytes, 0 <= m.1 ∧ m.1 + len m.2 < 2 ^ 64) memcmp →
  ∃ b, memcmp_is_match memcmp data = Done b ∧
    (b = true ↔ Forall (λ m, occurs_at data m.1 m.2) memcmp).
Proof.
  induction memcmp as [|[offset b] memcmp IH]; intros Hr; simpl.
  { exists true. split; [done|]. split; [constructor|done]. }
  apply Forall_cons in Hr as [[H0 H1] Hr]. simpl in *. pose proof (len_nonneg b).
  assert (wrap64 (offset + len b) = offset + len b) as -> by (apply Z.mod_small; lia).
  setoid_rewrite Forall_cons. simpl.
  destruct (Z.ltb_spec (len data) (offset + len b)) as [|Hle].
  { exists false. split; [done|]. split; [done|]. intros [Ho%occurs_at_len _]. lia. }
  unfold slice_index. destruct (Z.leb_spec offset (offset + len b)); [|lia].
  destruct (Z.leb_spec (offset + len b) (len data)); [|lia]. simpl.
  pose proof (occurs_at_slice data offset b H0 Hle) as Hocc. case_bool_decide as Heq.
  - destruct (IH Hr) as (r & -> & Hrr). exists r. rewrite Hrr. naive_solver.
  - exists false. naive_solver.
Qed.

Lemma lamports_any_spec (fs : list FilterAccountsLamports) lamports :
  any (λ f, negb (FilterAccountsLamports_is_match f lamports)) fs = false ↔
  Forall (λ f, lamports_holds f lamports) fs.
Proof.
  rewrite <- not_true_iff_false, existsb_In, Forall_forall. split.
  - intros H f Hf. apply lamports_is_match_spec.
    destruct (FilterAccountsLamports_is_match f lamports) eqn:E; [done|].
    exfalso. apply H. exists f. by rewrite E.
  - intros H (f & Hf & Hn). apply H, lamports_is_match_spec in Hf. by rewrite Hf in Hn.
Qed.

Lemma is_match_spec s data lamports :
  memcmp_in_range s →
  ∃ b, FilterAccountsState_is_match s data lamports = Done b ∧
    (b = true ↔ state_holds s data lamports).
Proof.
  intros Hr. destruct (memcmp_is_match_spec (fas_memcmp s) data Hr) as (b & Hm & Hb).
  pose proof (lamports_any_spec (fas_lamports s) lamports) as HL.
  unfold FilterAccountsState_is_match, state_holds. rewrite Hm.
  setoid_rewrite <- Hb. setoid_rewrite <- HL. clear Hm Hb HL Hr.
  destruct (any _ (fas_lamports s)); destruct (fas_token_account_state s); simpl;
    destruct (valid_account_data data); simpl;
    (destruct (fas_datasize s) as [n|]; [destruct (Z.eqb_spec (len data) n) as [Hn|Hn]; simpl|]);
    eexists; (split; [reflexivity|]); split; try done.
  all: try (intros (H1 & H2 & H3 & H4); first [done | by specialize (H1 _ eq_refl) | by specialize (H2 eq_refl)]).
  all: intros ->; repeat split; try done; by intros ? [= <-].
Qed.

(** What a successfully parsed state is made of. *)
Definition add_measure (s : FilterAccountsState) : Z :=
  len (fas_memcmp s) + len (fas_lamports s).

Lemma add_all_bounds filters s s' :
  FilterAccountsState_add_all s filters = Ok s' →
  Forall (λ m : Z * bytes, len m.2 <= MAX_DATA_SIZE) (fas_memcmp s) →
  Forall (λ m : Z * bytes, len m.2 <= MAX_DATA_SIZE) (fas_memcmp s')
  ∧ add_measure s' <= add_measure s + len filters
  ∧ Forall is_Some filters.
Proof.
  revert s. induction filters as [|filter filters IH]; intros s Hs Hm; simpl in Hs.
  { injection Hs as <-. split; [done|]. split; [unfold len; simpl; lia|done]. }
  destruct (FilterAccountsState_add s filter) as [s1|] eqn:E; [|done]. simpl in Hs.
  assert (Forall (λ m : Z * bytes, len m.2 <= MAX_DATA_SIZE) (fas_memcmp s1)
    ∧ add_measure s1 <= add_measure s + 1 ∧ is_Some filter) as (H1 & H2 & H3).
  { unfold FilterAccountsState_add, add_measure in *.
    destruct filter as [[memcmp|n|v|cmp]|]; [..|done].
    - destruct (memcmp_decode _) as [data|]; [|done]. simpl in E.
      destruct (Z.ltb_spec MAX_DATA_SIZE (len data)); [done|]. injection E as <-. simpl.
      rewrite len_app. split; [apply Forall_app; split; [done|by repeat constructor]|].
      split; [unfold len; simpl; lia|done].
    - destruct (fas_datasize s); [done|]. injection E as <-. simpl.
      split; [done|]. split; [lia|done].
    - destruct v; [|done]. injection E as <-. simpl. split; [done|]. split; [lia|done].
    - destruct cmp as [cmp|]; [|done]. injection E as <-. simpl.
      rewrite len_app. split; [done|]. split; [unfold len; simpl; lia|done]. }
  destruct (IH s1 Hs H1) as (H4 & H5 & H6). split; [done|]. split; [|by constructor].
  replace (len (filter :: filters)) with (1 + len filters) by (unfold len; simpl; lia). lia.
Qed.

(** The offsets of a state are those of the request. *)
Lemma add_all_offsets (P : Z → Prop) filters s s' :
  FilterAccountsState_add_all s filters = Ok s' →
  Forall (λ m : Z * bytes, P m.1) (fas_memcmp s) →
  Forall (λ f, ∀ m, f = Some (FilterMemcmp m) → P (memcmp_offset m)) filters →
  Forall (λ m : Z * bytes, P m.1) (fas_memcmp s').
Proof.
  revert s. induction filters as [|filter filters IH]; intros s Hs Hm Hf; simpl in Hs.
  { by injection Hs as <-. }
  apply Forall_cons in Hf as [Hf0 Hf].
  destruct (FilterAccountsState_add s filter) as [s1|] eqn:E; [|done]. simpl in Hs.
  apply (IH s1); [done| |done]. clear IH Hs. unfold FilterAccountsState_add in E.
  destruct filter as [[memcmp|n|v|cmp]|]; [..|done].
  - destruct (memcmp_decode _) as [data|]; [|done]. simpl in E.
    destruct (MAX_DATA_SIZE <? len data); [done|]. injection E as <-. simpl.
    apply Forall_app. split; [done|]. apply Forall_singleton. by apply Hf0.
  - destruct (fas_datasize s); [done|]. by injection E as <-.
  - destruct v; [|done]. by injection E as <-.
  - destruct cmp as [cmp|]; [|done]. by injection E as <-.
Qed.

(** No memcmp offset is within the maximal data size of 2^64. *)
Definition offsets_ok (filters : list SubscribeRequestFilterAccountsFilter) : Prop :=
  Forall (λ f, ∀ m, f = Some (FilterMemcmp m) → 0 <= memcmp_offset m < 2 ^ 64 - 128) filters.

Lemma new_in_range filters s :
  FilterAccountsState_new filters = Ok s → offsets_ok filters → memcmp_in_range s.
Proof.
  unfold FilterAccountsState_new. destruct (MAX_FILTERS <? len filters); [done|].
  intros Hs Hoff. destruct (add_all_bounds _ _ _ Hs) as (H1 & _ & _); [constructor|].
  pose proof (add_all_offsets (λ o, 0 <= o < 2 ^ 64 - 128) _ _ _ Hs (Forall_nil_2 _) Hoff) as H2.
  unfold memcmp_in_range. apply Forall_forall. intros m Hm. rewrite Forall_forall in H1, H2.
  specialize (H1 m Hm). specialize (H2 m Hm). simpl in *. unfold MAX_DATA_SIZE in H1. lia.
Qed.

Lemma is_empty_holds s data lamports :
  FilterAccountsState_is_empty s = true → state_holds s data lamports.
Proof.
  unfold FilterAccountsState_is_empty. rewrite !andb_true_iff, !bool_decide_eq_true.
  intros [[[Hm Hd] Ht] Hl]. unfold state_holds. rewrite Hm, Hd.
  destruct (fas_token_account_state s); [done|]. by destruct (fas_lamports s).
Qed.

(** A state accepted by the parser has at most four predicates, all
    defined, with memcmp data of at most 128 bytes; and as long as no memcmp
    offset is within 128 of 2^64, evaluating it never panics and answers
    exactly whether the account satisfies every predicate: the data size, the
    token-account shape, each lamports comparison, and each byte string
    occurring at its offset. *)
Theorem accounts_state_correct filters s :
  FilterAccountsState_new filters = Ok s →
  len filters <= 4 ∧ Forall is_Some filters
  ∧ len (fas_memcmp s) + len (fas_lamports s) <= 4
  ∧ Forall (λ m : Z * bytes, len m.2 <= 128) (fas_memcmp s)
  ∧ (Forall (λ m : Z * bytes, 0 <= m.1 < 2 ^ 64 - 128) (fas_memcmp s) →
     ∀ data lamports, ∃ b, FilterAccountsState_is_match s data lamports = Done b ∧
       (b = true ↔ state_holds s data lamports)).
Proof.
  unfold FilterAccountsState_new. destruct (Z.ltb_spec MAX_FILTERS (len filters)); [done|].
  intros Hs. destruct (add_all_bounds _ _ _ Hs) as (H1 & H2 & H3); [constructor|].
  unfold MAX_FILTERS, MAX_DATA_SIZE, add_measure in *. cbn [fas_memcmp fas_lamports
    FilterAccountsState_default] in H2.
  change (len (@nil (Z * bytes))) with 0 in H2. change (len (@nil FilterAccountsLamports)) with 0 in H2.
  split; [lia|]. split; [done|]. split; [lia|]. split; [done|].
  intros Hoff data lamports. apply is_match_spec. unfold memcmp_in_range.
  apply Forall_forall. intros m Hm. rewrite Forall_forall in Hoff, H1.
  specialize (Hoff m Hm). specialize (H1 m Hm). lia.
Qed.

(** A memcmp filter whose offset plus length wraps past 2^64 is accepted,
    and then evaluating it panics on every account that is at least as long as
    the wrapped end and passes the other checks: a subscriber can make the
    matching of an account update panic. *)
Theorem memcmp_overflow_panics offset b data lamports :
  0 <= offset < 2 ^ 64 → len b <= 128 → 2 ^ 64 <= offset + len b →
  offset + len b - 2 ^ 64 <= len data →
  ∃ s, FilterAccountsState_new [Some (FilterMemcmp (mkMemcmp offset (Some (MemcmpBytes b))))] = Ok s
    ∧ FilterAccountsState_is_match s data lamports = Panic.
Proof.
  intros Ho Hb Hov Hd. exists (mkFilterAccountsState [(offset, b)] None false []). split.
  - unfold FilterAccountsState_new, MAX_FILTERS. simpl. unfold FilterAccountsState_add. simpl.
    destruct (Z.ltb_spec MAX_DATA_SIZE (len b)) as [Hgt|]; [unfold MAX_DATA_SIZE in Hgt; lia|done].
  - assert (wrap64 (offset + len b) = offset + len b - 2 ^ 64) as Hw.
    { unfold wrap64. symmetry. apply Z.mod_unique_pos with (q := 1); lia. }
    unfold FilterAccountsState_is_match. simpl. rewrite Hw.
    destruct (Z.ltb_spec (len data) (offset + len b - 2 ^ 64)); [lia|].
    unfold slice_index. destruct (Z.leb_spec offset (offset + len b - 2 ^ 64)); [lia|done].
Qed.
End accounts_state.

Lemma accounts_state_correct_witness :
  let s := mkFilterAccountsState [(1, [Byte.x07])] (Some 2) false [LamportsGt 5] in
  ∃ b, FilterAccountsState_is_match (X := toy_externals) s [Byte.x00; Byte.x07] 6 = Done b ∧
    (b = true ↔ state_holds (X := toy_externals) s [Byte.x00; Byte.x07] 6).
Proof.
  intros s.
  refine (proj2 (proj2 (proj2 (proj2 (accounts_state_correct (X := toy_externals)
    [Some (FilterMemcmp (mkMemcmp 1 (Some (MemcmpBytes [Byte.x07]))));
     Some (FilterDatasize 2); Some (FilterLamports (Some (CmpGt 5)))] s _)))) _ _ _).
  - vm_compute. reflexivity.
  - repeat constructor; vm_compute; intuition discriminate.
Defined.

Lemma memcmp_overflow_panics_witness :
  ∃ s, FilterAccountsState_new (X := toy_externals)
      [Some (FilterMemcmp (mkMemcmp (2 ^ 64 - 1) (Some (MemcmpBytes [Byte.x00]))))] = Ok s
    ∧ FilterAccountsState_is_match (X := toy_externals) s [] 0 = Panic.
Proof.
  apply (memcmp_overflow_panics (X := toy_externals) (2 ^ 64 - 1) [Byte.x00] [] 0);
    vm_compute; intuition discriminate.
Defined.
