(* ===== verification/Cuckoo.v ===== *)
(** * yellowstone-grpc-proto/src/cuckoo: the cuckoo filter

    constants.rs, error.rs, hasher.rs and filter.rs. A bucket is a list of four
    16-bit fingerprints, 0 marking an empty slot; indexing a bucket or a slot
    that does not exist panics. The hash is a parameter: any [BuildHasher] is
    a function from the bytes an item feeds to a word, and
    [YellowstoneHasherBuilder] is the instance backed by SipHash-2-4.

    The filter refines a multiset: [footprint] abstracts the table to the
    multiset of (fingerprint, bucket pair) classes it stores, [contains] is
    membership of the item's class, [insert] adds it and [remove] takes it out,
    whatever evictions happen inside. *)

From S2P Require Import Prelude F64 Bits Externals Proto.
From Stdlib Require Import Floats.SpecFloat.

Set Default Goal Selector "!".

Local Open Scope Z_scope.

(** ** constants.rs, error.rs *)

Definition ENTRIES_PER_BUCKET : nat := 4.

(** The [f64] literal 0.95. *)
Definition LOAD_FACTOR : spec_float := S754_finite false 8556839292003942 (-53).

Definition MAX_KICKS : nat := 500.

Definition FINGERPRINT_BITS : Z := 16.

Definition DEFAULT_HASH_SEED : Z := 0x796c6c7773746e21.

Inductive CuckooBuildError := CapacityOverflow.

Inductive TableFullError := TableFull.

(** ** hasher.rs *)

(** [BuildHasher::build_hasher] followed by feeding bytes and [finish]. *)
Class BuildHasher (S : Type) := build_hasher : S → bytes → Z.

(** [Hash::hash]: the bytes a value feeds to the hasher. *)
Class Hash (T : Type) := hash_feed : T → bytes.

(** [to_le_bytes] of an [n]-byte integer. *)
Fixpoint to_le_bytes (n : nat) (z : Z) : bytes :=
  match n with
  | O => []
  | S n => bytes_of_Z z :: to_le_bytes n (z / 256)
  end.

(** [<[u8; 32] as Hash>::hash]: the length prefix, then the bytes. *)
#[global] Instance pubkey_bytes_hash : Hash Pubkey := λ b, to_le_bytes 8 (len b) ++ b.

(** [<u16 as Hash>::hash]. *)
Definition u16_feed (fp : Z) : bytes := to_le_bytes 2 fp.

Record YellowstoneHasherBuilder := mkYellowstoneHasherBuilder { yhb_seed : Z }.

Definition rotate_left_32 (z : Z) : Z := Z.lor (wrap64 (Z.shiftl z 32)) (Z.shiftr z 32).

Definition keys_from_seed (seed : Z) : Z * Z := (seed, rotate_left_32 seed).

Definition YellowstoneHasherBuilder_default : YellowstoneHasherBuilder :=
  {| yhb_seed := DEFAULT_HASH_SEED |}.

#[global] Instance YellowstoneHasherBuilder_build_hasher {X : Externals} :
    BuildHasher YellowstoneHasherBuilder := λ s feed,
  let '(k0, k1) := keys_from_seed (yhb_seed s) in siphash24 k0 k1 feed.

(** ** filter.rs *)

Abbreviation Fingerprint := Z (only parsing).
Abbreviation Bucket := (list Z) (only parsing).

Record CuckooFilter (S : Type) := mkCuckooFilter {
  cf_buckets : list Bucket;
  cf_hasher_builder : S
}.
Arguments mkCuckooFilter {S} cf_buckets cf_hasher_builder.
Arguments cf_buckets {S} c.
Arguments cf_hasher_builder {S} c.

(** [usize::checked_next_power_of_two]. *)
Definition checked_next_power_of_two (n : Z) : option Z :=
  let p := 2 ^ Z.log2_up n in
  if p <=? usize_max then Some p else None.

Definition buckets_needed (max_capacity : Z) : Z :=
  f64_ceil_as_usize
    (f64_div (usize_as_f64 max_capacity)
       (f64_mul LOAD_FACTOR (usize_as_f64 (Z.of_nat ENTRIES_PER_BUCKET)))).

Definition empty_bucket : Bucket := replicate ENTRIES_PER_BUCKET 0.

(** [try_reserve_exact] fails past [isize::MAX] bytes (8 per bucket), or when
    the allocator, [alloc], refuses. *)
Definition CuckooFilter_with_capacity_and_hasher {S} (alloc : Z → bool) (max_capacity : Z)
    (hasher_builder : S) : result CuckooBuildError (CuckooFilter S) :=
  match checked_next_power_of_two (buckets_needed max_capacity) with
  | None => Err CapacityOverflow
  | Some bucket_count =>
      let bucket_count := Z.max bucket_count 1 in
      if (bucket_count * 8 <=? isize_max) && alloc (bucket_count * 8)
      then Ok {| cf_buckets := replicate (Z.to_nat bucket_count) empty_bucket;
                 cf_hasher_builder := hasher_builder |}
      else Err CapacityOverflow
  end.

Definition CuckooFilter_with_capacity (alloc : Z → bool) (max_capacity : Z)
    : result CuckooBuildError (CuckooFilter YellowstoneHasherBuilder) :=
  CuckooFilter_with_capacity_and_hasher alloc max_capacity YellowstoneHasherBuilder_default.

Section filter.
Context {S T : Type} `{!BuildHasher S} `{!Hash T}.

(** [self.hash(item)], given what the item feeds. *)
Definition CuckooFilter_hash (f : CuckooFilter S) (feed : bytes) : Z :=
  build_hasher (cf_hasher_builder f) feed.

Definition CuckooFilter_index (f : CuckooFilter S) (hash : Z) : Z :=
  Z.land hash (wrap64 (len (cf_buckets f) - 1)).

Definition fingerprint_from_hash (hash : Z) : Fingerprint :=
  let fp := Z.shiftr hash 32 mod 2 ^ 16 in
  if fp =? 0 then 1 else fp.

(** [self.index(self.hash(&fp))]. *)
Definition fingerprint_index (f : CuckooFilter S) (fp : Fingerprint) : Z :=
  CuckooFilter_index f (CuckooFilter_hash f (u16_feed fp)).

(** Replaces the first slot equal to [old]. *)
Fixpoint replace_slot (old new : Fingerprint) (bucket : Bucket) : option Bucket :=
  match bucket with
  | [] => None
  | slot :: bucket =>
      if slot =? old then Some (new :: bucket)
      else cons slot <$> replace_slot old new bucket
  end.

Definition set_bucket (f : CuckooFilter S) (index : Z) (bucket : Bucket) : CuckooFilter S :=
  {| cf_buckets := <[Z.to_nat index := bucket]> (cf_buckets f);
     cf_hasher_builder := cf_hasher_builder f |}.

Definition try_insert_to_bucket (f : CuckooFilter S) (index : Z) (fp : Fingerprint)
    : outcome (CuckooFilter S * bool) :=
  bucket ← vec_index (cf_buckets f) (Z.to_nat index);
  Done match replace_slot 0 fp bucket with
       | Some bucket => (set_bucket f index bucket, true)
       | None => (f, false)
       end.

Definition try_remove_from_bucket (f : CuckooFilter S) (index : Z) (fp : Fingerprint)
    : outcome (CuckooFilter S * bool) :=
  bucket ← vec_index (cf_buckets f) (Z.to_nat index);
  Done match replace_slot fp 0 bucket with
       | Some bucket => (set_bucket f index bucket, true)
       | None => (f, false)
       end.

Definition bucket_contains (f : CuckooFilter S) (index : Z) (fp : Fingerprint) : outcome bool :=
  bucket ← vec_index (cf_buckets f) (Z.to_nat index);
  Done (any (Z.eqb fp) bucket).

(** The eviction loop, from its [n]-th iteration with [fuel] iterations left. *)
Fixpoint insert_kicks (fuel n : nat) (f : CuckooFilter S) (i : Z) (fp : Fingerprint)
    : outcome (CuckooFilter S * result TableFullError unit) :=
  match fuel with
  | O => Done (f, Err TableFull)
  | Datatypes.S fuel =>
      let slot := Z.to_nat ((Z.of_nat n + fp) mod Z.of_nat ENTRIES_PER_BUCKET) in
      bucket ← vec_index (cf_buckets f) (Z.to_nat i);
      evicted ← vec_index bucket slot;
      let f := set_bucket f i (<[slot := fp]> bucket) in
      let i := Z.lxor i (fingerprint_index f evicted) in
      '(f, done) ← try_insert_to_bucket f i evicted;
      if done : bool then Done (f, Ok tt)
      else insert_kicks fuel (Datatypes.S n) f i evicted
  end.

Definition CuckooFilter_insert (f : CuckooFilter S) (item : T)
    : outcome (CuckooFilter S * result TableFullError unit) :=
  let h := CuckooFilter_hash f (hash_feed item) in
  let fp := fingerprint_from_hash h in
  let i1 := CuckooFilter_index f h in
  let i2 := Z.lxor i1 (fingerprint_index f fp) in
  '(f, done) ← try_insert_to_bucket f i1 fp;
  if done : bool then Done (f, Ok tt)
  else
    '(f, done) ← try_insert_to_bucket f i2 fp;
    if done : bool then Done (f, Ok tt)
    else insert_kicks MAX_KICKS 0 f i1 fp.

Definition CuckooFilter_contains (f : CuckooFilter S) (item : T) : outcome bool :=
  let h := CuckooFilter_hash f (hash_feed item) in
  let fp := fingerprint_from_hash h in
  let i1 := CuckooFilter_index f h in
  let i2 := Z.lxor i1 (fingerprint_index f fp) in
  b ← bucket_contains f i1 fp;
  if b : bool then Done true else bucket_contains f i2 fp.

Definition CuckooFilter_remove (f : CuckooFilter S) (item : T)
    : outcome (CuckooFilter S * bool) :=
  let h := CuckooFilter_hash f (hash_feed item) in
  let fp := fingerprint_from_hash h in
  let i1 := CuckooFilter_index f h in
  let i2 := Z.lxor i1 (fingerprint_index f fp) in
  '(f, removed) ← try_remove_from_bucket f i1 fp;
  if removed : bool then Done (f, true)
  else try_remove_from_bucket f i2 fp.
End filter.

(** *** The wire format *)

(** [chunks_exact(2).map(u16::from_le_bytes)]: an odd byte is dropped. *)
Fixpoint u16s_from_le (data : bytes) : list Z :=
  match data with
  | a :: b :: data => Z_of_byte a + 256 * Z_of_byte b :: u16s_from_le data
  | _ => []
  end.

(** [chunks_exact(ENTRIES_PER_BUCKET)]: an incomplete bucket is dropped. *)
Fixpoint buckets_of_u16s (l : list Z) : list Bucket :=
  match l with
  | a :: b :: c :: d :: l => [a; b; c; d] :: buckets_of_u16s l
  | _ => []
  end.

Definition CuckooFilter_from_proto (proto : ProtoCuckooFilter)
    : CuckooFilter YellowstoneHasherBuilder :=
  let hasher_builder := {| yhb_seed := pcf_hash_seed proto |} in
  match pcf_data proto with
  | [] => {| cf_buckets := [empty_bucket]; cf_hasher_builder := hasher_builder |}
  | _ =>
      match buckets_of_u16s (u16s_from_le (pcf_data proto)) with
      | [] => {| cf_buckets := [empty_bucket]; cf_hasher_builder := hasher_builder |}
      | buckets => {| cf_buckets := buckets; cf_hasher_builder := hasher_builder |}
      end
  end.

(** [CuckooHashAlgorithm::SipHash] is 0 in the proto file. *)
Definition CuckooFilter_to_proto (filter : CuckooFilter YellowstoneHasherBuilder)
    : ProtoCuckooFilter :=
  {| pcf_data := concat (cf_buckets filter) ≫= to_le_bytes 2;
     pcf_bucket_count := len (cf_buckets filter) mod 2 ^ 32;
     pcf_entries_per_bucket := Z.of_nat ENTRIES_PER_BUCKET;
     pcf_fingerprint_bits := FINGERPRINT_BITS;
     pcf_hash_seed := yhb_seed (cf_hasher_builder filter);
     pcf_hash_algorithm := 0 |}.

(** ** The abstraction: a multiset of (fingerprint, bucket pair) classes *)

Definition bucket_wf (b : Bucket) : Prop :=
  length b = ENTRIES_PER_BUCKET ∧ Forall (λ s, 0 <= s < 2 ^ 16) b.

(** What every constructor of the filter establishes. *)
Definition cf_wf {S} (f : CuckooFilter S) : Prop :=
  cf_buckets f ≠ [] ∧ Forall bucket_wf (cf_buckets f).

(** The class of fingerprint [s] in bucket [i], [fpi] giving the distance
    between the two candidate buckets of a fingerprint. *)
Definition class_of (fpi : Z → Z) (i s : Z) : Z * Z := (s, Z.min i (Z.lxor i (fpi s))).

Definition slot_keys (fpi : Z → Z) (i s : Z) : gmultiset (Z * Z) :=
  if s =? 0 then ∅ else {[+ class_of fpi i s +]}.

Fixpoint bucket_keys (fpi : Z → Z) (i : Z) (b : Bucket) : gmultiset (Z * Z) :=
  match b with
  | [] => ∅
  | s :: b => slot_keys fpi i s ⊎ bucket_keys fpi i b
  end.

Fixpoint table_keys (fpi : Z → Z) (i : Z) (bs : list Bucket) : gmultiset (Z * Z) :=
  match bs with
  | [] => ∅
  | b :: bs => bucket_keys fpi i b ⊎ table_keys fpi (i + 1) bs
  end.

Definition footprint {S} `{!BuildHasher S} (f : CuckooFilter S) : gmultiset (Z * Z) :=
  table_keys (fingerprint_index f) 0 (cf_buckets f).

(** The class of an item. *)
Definition item_class {S T} `{!BuildHasher S} `{!Hash T} (f : CuckooFilter S) (item : T) : Z * Z :=
  let h := CuckooFilter_hash f (hash_feed item) in
  class_of (fingerprint_index f) (CuckooFilter_index f h) (fingerprint_from_hash h).

(** *** Index arithmetic *)

Definition submask (m i : Z) : Prop := Z.land i m = i.

Lemma land_range h m : 0 <= m → 0 <= Z.land h m <= m.
Proof.
  intros Hm. split; [apply Z.land_nonneg; by right|].
  assert (Z.ldiff (Z.land h m) m = 0) as Hd.
  { apply Z.bits_inj'. intros n Hn. rewrite Z.bits_0, Z.ldiff_spec, Z.land_spec.
    by destruct (Z.testbit h n), (Z.testbit m n). }
  apply Z.sub_nocarry_ldiff in Hd. assert (0 <= Z.ldiff m (Z.land h m)); [|lia].
  apply Z.ldiff_nonneg. by left.
Qed.

Lemma submask_land h m : submask m (Z.land h m).
Proof. unfold submask. by rewrite <- Z.land_assoc, Z.land_diag. Qed.

Lemma submask_range m i : 0 <= m → submask m i → 0 <= i <= m.
Proof. unfold submask. intros Hm <-. by apply land_range. Qed.

Lemma submask_lxor m i j : submask m i → submask m j → submask m (Z.lxor i j).
Proof.
  unfold submask. intros Hi Hj. apply Z.bits_inj'. intros n Hn.
  apply (f_equal (λ z, Z.testbit z n)) in Hi, Hj. rewrite Z.land_spec in Hi, Hj.
  rewrite Z.land_spec, Z.lxor_spec.
  by destruct (Z.testbit i n), (Z.testbit j n), (Z.testbit m n).
Qed.

Lemma lxor_involutive i j : Z.lxor (Z.lxor i j) j = i.
Proof. by rewrite Z.lxor_assoc, Z.lxor_nilpotent, Z.lxor_0_r. Qed.

(** A fingerprint has the same class in its two buckets, and no other. *)
Lemma class_of_alt fpi i s : class_of fpi (Z.lxor i (fpi s)) s = class_of fpi i s.
Proof. unfold class_of. rewrite lxor_involutive. f_equal. lia. Qed.

Lemma class_of_inj fpi i j s t :
  class_of fpi i s = class_of fpi j t → s = t ∧ (i = j ∨ i = Z.lxor j (fpi t)).
Proof.
  unfold class_of. intros [= -> Hmin]. split; [done|].
  pose proof (lxor_involutive i (fpi t)). pose proof (lxor_involutive j (fpi t)).
  assert (i = j ∨ i = Z.lxor j (fpi t) ∨ Z.lxor i (fpi t) = j
    ∨ Z.lxor i (fpi t) = Z.lxor j (fpi t)) as [|[|[|]]] by lia; [by left|by right|..].
  - right. congruence.
  - left. congruence.
Qed.

(** *** Tables *)

(** Exchange laws of the multiset union, used for the updates of a table. *)
Lemma swap_here (a b c : gmultiset (Z * Z)) : a ⊎ b ⊎ c = c ⊎ b ⊎ a.
Proof. multiset_solver. Qed.

Lemma swap_deep (a x y o n : gmultiset (Z * Z)) : x ⊎ o = y ⊎ n → a ⊎ x ⊎ o = a ⊎ y ⊎ n.
Proof. multiset_solver. Qed.

Lemma bucket_keys_insert fpi i b k old new :
  b !! k = Some old →
  bucket_keys fpi i (<[k := new]> b) ⊎ slot_keys fpi i old
  = bucket_keys fpi i b ⊎ slot_keys fpi i new.
Proof.
  revert k. induction b as [|s b IH]; intros [|k]; simpl; [done..| |].
  - intros [= ->]. apply swap_here.
  - intros Hk. apply swap_deep. by apply IH.
Qed.

Lemma table_keys_insert fpi i bs k old new :
  bs !! k = Some old →
  table_keys fpi i (<[k := new]> bs) ⊎ bucket_keys fpi (i + Z.of_nat k) old
  = table_keys fpi i bs ⊎ bucket_keys fpi (i + Z.of_nat k) new.
Proof.
  revert i k. induction bs as [|b bs IH]; intros i [|k]; simpl; [done..| |].
  - intros [= ->]. rewrite Z.add_0_r. apply swap_here.
  - intros Hk. specialize (IH (i + 1) k Hk).
    replace (i + Z.of_nat (Datatypes.S k)) with (i + 1 + Z.of_nat k) by lia.
    apply swap_deep. exact IH.
Qed.

Lemma elem_of_bucket_keys fpi i b x :
  x ∈ bucket_keys fpi i b ↔ ∃ s, s ∈ b ∧ s ≠ 0 ∧ x = class_of fpi i s.
Proof.
  induction b as [|s b IH]; simpl; [set_solver|].
  rewrite gmultiset_elem_of_disj_union, IH. unfold slot_keys.
  destruct (Z.eqb_spec s 0); set_solver.
Qed.

Lemma elem_of_table_keys fpi i bs x :
  x ∈ table_keys fpi i bs ↔
  ∃ k b s, bs !! k = Some b ∧ s ∈ b ∧ s ≠ 0 ∧ x = class_of fpi (i + Z.of_nat k) s.
Proof.
  revert i. induction bs as [|b bs IH]; intros i; simpl; [set_solver|].
  rewrite gmultiset_elem_of_disj_union, IH, elem_of_bucket_keys. split.
  - intros [(s & ? & ? & ->)|(k & b' & s & ? & ? & ? & ->)].
    + exists 0%nat, b, s. by rewrite Z.add_0_r.
    + exists (Datatypes.S k), b', s. replace (i + 1 + Z.of_nat k) with (i + Z.of_nat (Datatypes.S k)) by lia.
      done.
  - intros ([|k] & b' & s & Hl & ? & ? & ->); simpl in Hl.
    + left. injection Hl as ->. exists s. by rewrite Z.add_0_r.
    + right. exists k, b', s. replace (i + 1 + Z.of_nat k) with (i + Z.of_nat (Datatypes.S k)) by lia.
      done.
Qed.

(** *** Buckets *)

Lemma replace_slot_spec old new b b' :
  replace_slot old new b = Some b' → ∃ k, b !! k = Some old ∧ b' = <[k := new]> b.
Proof.
  revert b'. induction b as [|s b IH]; intros b'; simpl; [done|].
  destruct (Z.eqb_spec s old) as [->|].
  - intros [= <-]. by exists 0%nat.
  - destruct (replace_slot old new b) as [b1|]; [|done]. intros [= <-].
    destruct (IH b1 eq_refl) as (k & ? & ->). by exists (Datatypes.S k).
Qed.

Lemma replace_slot_none old new b : replace_slot old new b = None ↔ old ∉ b.
Proof.
  induction b as [|s b IH]; simpl; [set_solver|]. destruct (Z.eqb_spec s old) as [->|].
  - set_solver.
  - rewrite fmap_None, IH. set_solver.
Qed.

Lemma bucket_wf_insert b k s : bucket_wf b → 0 <= s < 2 ^ 16 → bucket_wf (<[k := s]> b).
Proof.
  intros [? ?] ?. split; [by rewrite length_insert|]. by apply Forall_insert.
Qed.

(** *** Operations *)

Section specs.
Context {S T : Type} `{!BuildHasher S} `{!Hash T}.
Implicit Types (f : CuckooFilter S) (item : T).

(** Updates keep the hasher and the number of buckets. *)
Definition same_shape f f' : Prop :=
  cf_hasher_builder f' = cf_hasher_builder f ∧ length (cf_buckets f') = length (cf_buckets f).

(** An index the code computes with [index] and [^]. *)
Definition index_ok f (i : Z) : Prop := submask (wrap64 (len (cf_buckets f) - 1)) i.

Definition bucket_full f (i : Z) : Prop :=
  ∀ b, cf_buckets f !! Z.to_nat i = Some b → 0 ∉ b.

Lemma same_shape_refl f : same_shape f f.
Proof. done. Qed.

Lemma same_shape_trans f1 f2 f3 : same_shape f1 f2 → same_shape f2 f3 → same_shape f1 f3.
Proof. unfold same_shape. intuition congruence. Qed.

Lemma same_shape_index f f' : same_shape f f' →
  fingerprint_index f' = fingerprint_index f ∧ CuckooFilter_index f' = CuckooFilter_index f
  ∧ CuckooFilter_hash f' = CuckooFilter_hash f ∧ (∀ i, index_ok f i → index_ok f' i).
Proof.
  intros [Hh Hl]. unfold fingerprint_index, CuckooFilter_index, CuckooFilter_hash, index_ok, len.
  by rewrite Hh, Hl.
Qed.

Lemma same_shape_class f f' item : same_shape f f' → item_class f' item = item_class f item.
Proof.
  intros (Hf & Hi & Hh & _)%same_shape_index. unfold item_class. by rewrite Hf, Hi, Hh.
Qed.

Lemma fingerprint_range h : 0 < fingerprint_from_hash h < 2 ^ 16.
Proof.
  unfold fingerprint_from_hash.
  pose proof (Z.mod_pos_bound (Z.shiftr h 32) (2 ^ 16) ltac:(lia)).
  destruct (Z.eqb_spec (Z.shiftr h 32 mod 2 ^ 16) 0); lia.
Qed.

Lemma index_ok_index f h : index_ok f (CuckooFilter_index f h).
Proof. apply submask_land. Qed.

Lemma index_ok_alt f i fp : index_ok f i → index_ok f (Z.lxor i (fingerprint_index f fp)).
Proof. intros. by apply submask_lxor; [|apply index_ok_index]. Qed.

Lemma index_ok_lookup f i : cf_wf f → index_ok f i →
  0 <= i ∧ ∃ b, cf_buckets f !! Z.to_nat i = Some b ∧ bucket_wf b.
Proof.
  intros [Hne Hwf] Hi.
  assert (0 < len (cf_buckets f)) as Hlen.
  { unfold len. destruct (cf_buckets f); [done|]. simpl. lia. }
  assert (0 <= wrap64 (len (cf_buckets f) - 1) <= len (cf_buckets f) - 1) as Hm.
  { unfold wrap64. split; [apply Z.mod_pos_bound; lia|apply Z.mod_le; lia]. }
  apply submask_range in Hi; [|lia]. split; [lia|].
  destruct (lookup_lt_is_Some_2 (cf_buckets f) (Z.to_nat i)) as [b Hb].
  { unfold len in *. lia. }
  exists b. split; [done|]. rewrite Forall_forall in Hwf. apply Hwf. by eapply list_elem_of_lookup_2.
Qed.

(** Writing one slot exchanges its class in the footprint. *)
Lemma set_slot_spec f i b k old new :
  cf_wf f → 0 <= i → cf_buckets f !! Z.to_nat i = Some b → b !! k = Some old →
  0 <= new < 2 ^ 16 →
  let f' := set_bucket f i (<[k := new]> b) in
  cf_wf f' ∧ same_shape f f' ∧
  footprint f' ⊎ slot_keys (fingerprint_index f) i old
  = footprint f ⊎ slot_keys (fingerprint_index f) i new.
Proof.
  intros [Hne Hwf] Hi Hb Hk Hnew f'.
  assert (same_shape f f') as Hs by (split; [done|apply length_insert]).
  assert (bucket_wf b) as Hbwf.
  { rewrite Forall_forall in Hwf. apply Hwf. by eapply list_elem_of_lookup_2. }
  split.
  { split; [|apply Forall_insert; [done|by apply bucket_wf_insert]].
    destruct Hs as [_ Hl]. intros Hnil. rewrite Hnil in Hl. destruct (cf_buckets f); done. }
  split; [done|]. unfold footprint.
  destruct (same_shape_index _ _ Hs) as (-> & _).
  pose proof (table_keys_insert (fingerprint_index f) 0 _ _ _ (<[k:=new]> b) Hb) as Ht.
  pose proof (bucket_keys_insert (fingerprint_index f) i b k old new Hk) as Hbk.
  rewrite Z.add_0_l, Z2Nat.id in Ht by done. simpl.
  revert Ht Hbk. generalize (slot_keys (fingerprint_index f) i old)
    (slot_keys (fingerprint_index f) i new) (bucket_keys (fingerprint_index f) i b)
    (bucket_keys (fingerprint_index f) i (<[k:=new]> b))
    (table_keys (fingerprint_index f) 0 (<[Z.to_nat i:=<[k:=new]> b]> (cf_buckets f)))
    (table_keys (fingerprint_index f) 0 (cf_buckets f)).
  multiset_solver.
Qed.

Lemma slot_keys_nonzero fpi i s : s ≠ 0 → slot_keys fpi i s = {[+ class_of fpi i s +]}.
Proof. unfold slot_keys. by destruct (Z.eqb_spec s 0). Qed.

Lemma try_insert_spec f i fp :
  cf_wf f → index_ok f i → 0 < fp < 2 ^ 16 →
  ∃ f' done, try_insert_to_bucket f i fp = Done (f', done) ∧ cf_wf f' ∧ same_shape f f' ∧
    if done : bool
    then footprint f' = footprint f ⊎ {[+ class_of (fingerprint_index f) i fp +]}
    else f' = f ∧ bucket_full f i.
Proof.
  intros Hwf Hi Hfp. destruct (index_ok_lookup f i Hwf Hi) as (H0 & b & Hb & Hbwf).
  unfold try_insert_to_bucket, vec_index. rewrite Hb. simpl.
  destruct (replace_slot 0 fp b) as [b'|] eqn:Er.
  - apply replace_slot_spec in Er as (k & Hk & ->).
    destruct (set_slot_spec f i b k 0 fp Hwf H0 Hb Hk) as (? & ? & Hf); [lia|].
    eexists _, true. split; [done|]. split; [done|]. split; [done|].
    rewrite (slot_keys_nonzero _ i fp) in Hf by lia. rewrite <- Hf. unfold slot_keys. simpl.
    by rewrite (right_id ∅ (⊎)).
  - apply replace_slot_none in Er. exists f, false. split; [done|]. split; [done|].
    split; [done|]. split; [done|]. intros b' Hb'. rewrite Hb in Hb'. by injection Hb' as <-.
Qed.

Lemma insert_kicks_spec fuel n f i fp :
  cf_wf f → index_ok f i → 0 < fp < 2 ^ 16 → bucket_full f i →
  ∃ f' r, insert_kicks fuel n f i fp = Done (f', r) ∧ cf_wf f' ∧ same_shape f f' ∧
    match r with
    | Ok _ => footprint f' = footprint f ⊎ {[+ class_of (fingerprint_index f) i fp +]}
    | Err _ => ∃ victim,
        footprint f' ⊎ {[+ victim +]}
        = footprint f ⊎ {[+ class_of (fingerprint_index f) i fp +]}
    end.
Proof.
  revert n f i fp. induction fuel as [|fuel IH]; intros n f i fp Hwf Hi Hfp Hfull.
  { eexists f, (Err TableFull). split; [done|]. split; [done|]. split; [done|]. eauto. }
  destruct (index_ok_lookup f i Hwf Hi) as (H0 & b & Hb & Hblen & Hbr).
  cbn [insert_kicks]. unfold vec_index. rewrite Hb.
  set (slot := Z.to_nat _).
  assert (slot < length b)%nat as Hslot.
  { rewrite Hblen. unfold slot, ENTRIES_PER_BUCKET.
    pose proof (Z.mod_pos_bound (Z.of_nat n + fp) (Z.of_nat 4) ltac:(lia)). lia. }
  destruct (lookup_lt_is_Some_2 b slot Hslot) as [ev Hev]. cbn -[insert_kicks]. rewrite Hev.
  cbn -[insert_kicks].
  assert (ev ∈ b) as Hin by by eapply list_elem_of_lookup_2.
  assert (0 <= ev < 2 ^ 16) as Hevr by (rewrite Forall_forall in Hbr; auto).
  assert (ev ≠ 0) as Hev0 by (intros ->; by eapply Hfull).
  destruct (set_slot_spec f i b slot ev fp Hwf H0 Hb Hev) as (Hwf1 & Hs1 & Hf1); [lia|].
  set (f1 := set_bucket f i (<[slot:=fp]> b)) in *.
  destruct (same_shape_index _ _ Hs1) as (Hfpi & _ & _ & Hok).
  rewrite !slot_keys_nonzero in Hf1 by lia.
  assert (index_ok f1 (Z.lxor i (fingerprint_index f1 ev))) as Hi1 by (apply index_ok_alt; auto).
  destruct (try_insert_spec f1 (Z.lxor i (fingerprint_index f1 ev)) ev Hwf1 Hi1)
    as (f2 & d & -> & Hwf2 & Hs2 & Hd); [lia|]. cbn -[insert_kicks].
  rewrite Hfpi in *. rewrite class_of_alt in Hd.
  destruct d.
  - exists f2, (Ok tt). split; [done|]. split; [done|].
    split; [by eapply same_shape_trans|]. by rewrite Hd.
  - destruct Hd as [-> Hfull2].
    destruct (IH (Datatypes.S n) f1 (Z.lxor i (fingerprint_index f ev)) ev)
      as (f3 & r & -> & Hwf3 & Hs3 & Hr); [done|done|lia|done|].
    exists f3, r. split; [done|]. split; [done|]. split; [by eapply same_shape_trans|].
    rewrite Hfpi, class_of_alt, Hf1 in Hr. done.
Qed.
Definition in_bucket f (i fp : Z) : Prop :=
  ∃ b, cf_buckets f !! Z.to_nat i = Some b ∧ fp ∈ b.

Lemma bucket_contains_spec f i fp : cf_wf f → index_ok f i →
  ∃ b, bucket_contains f i fp = Done b ∧ (b = true ↔ in_bucket f i fp).
Proof.
  intros Hwf Hi. destruct (index_ok_lookup f i Hwf Hi) as (H0 & b & Hb & _).
  unfold bucket_contains, vec_index, in_bucket. rewrite Hb. eexists. split; [done|].
  rewrite existsb_In. setoid_rewrite Z.eqb_eq. naive_solver.
Qed.

(** Looking in the two candidate buckets decides membership of the class. *)
Lemma class_in_footprint f i fp : cf_wf f → index_ok f i → fp ≠ 0 →
  class_of (fingerprint_index f) i fp ∈ footprint f ↔
  in_bucket f i fp ∨ in_bucket f (Z.lxor i (fingerprint_index f fp)) fp.
Proof.
  intros Hwf Hi Hfp. unfold footprint, in_bucket. rewrite elem_of_table_keys. split.
  - intros (k & b & s & Hb & Hs & _ & Hc).
    apply class_of_inj in Hc as [-> Hk].
    assert (0 ≤ i) by by eapply index_ok_lookup.
    destruct Hk as [->| ->].
    + left. exists b. by rewrite Z.add_0_l, Nat2Z.id.
    + right. exists b. rewrite lxor_involutive, Z.add_0_l, Nat2Z.id. done.
  - assert (∀ j, index_ok f j → in_bucket f j fp →
      class_of (fingerprint_index f) j fp = class_of (fingerprint_index f) i fp →
      ∃ k b s, cf_buckets f !! k = Some b ∧ s ∈ b ∧ s ≠ 0 ∧
        class_of (fingerprint_index f) i fp = class_of (fingerprint_index f) (0 + Z.of_nat k) s)
      as Hj.
    { intros j Hj (b & Hb & Hin) Heq. destruct (index_ok_lookup f j Hwf Hj) as [H0 _].
      exists (Z.to_nat j), b, fp. rewrite Z.add_0_l, Z2Nat.id by done. done. }
    intros [Hin|Hin]; [by apply (Hj i)|].
    eapply Hj; [by apply index_ok_alt|exact Hin|apply class_of_alt].
Qed.

Lemma try_remove_spec f i fp :
  cf_wf f → index_ok f i → 0 < fp < 2 ^ 16 →
  ∃ f' done, try_remove_from_bucket f i fp = Done (f', done) ∧ cf_wf f' ∧ same_shape f f' ∧
    if done : bool
    then footprint f = footprint f' ⊎ {[+ class_of (fingerprint_index f) i fp +]}
    else f' = f ∧ ¬ in_bucket f i fp.
Proof.
  intros Hwf Hi Hfp. destruct (index_ok_lookup f i Hwf Hi) as (H0 & b & Hb & Hbwf).
  unfold try_remove_from_bucket, vec_index. rewrite Hb. simpl.
  destruct (replace_slot fp 0 b) as [b'|] eqn:Er.
  - apply replace_slot_spec in Er as (k & Hk & ->).
    destruct (set_slot_spec f i b k fp 0 Hwf H0 Hb Hk) as (? & ? & Hf); [lia|].
    eexists _, true. split; [done|]. split; [done|]. split; [done|].
    rewrite (slot_keys_nonzero _ i fp) in Hf by lia. rewrite Hf. unfold slot_keys. simpl.
    by rewrite (right_id ∅ (⊎)).
  - apply replace_slot_none in Er. exists f, false. split; [done|]. split; [done|].
    split; [done|]. split; [done|]. intros (b' & Hb' & Hin). by simplify_eq.
Qed.

Lemma contains_spec f item : cf_wf f →
  CuckooFilter_contains f item = Done (bool_decide (item_class f item ∈ footprint f)).
Proof.
  intros Hwf. unfold CuckooFilter_contains, item_class.
  set (h := CuckooFilter_hash f (hash_feed item)).
  pose proof (fingerprint_range h) as Hfp. pose proof (index_ok_index f h) as Hi.
  pose proof (index_ok_alt f _ (fingerprint_from_hash h) Hi) as Hi2.
  pose proof (class_in_footprint f _ (fingerprint_from_hash h) Hwf Hi ltac:(lia)) as Hc.
  destruct (bucket_contains_spec f _ (fingerprint_from_hash h) Hwf Hi) as (b1 & -> & Hb1).
  destruct (bucket_contains_spec f _ (fingerprint_from_hash h) Hwf Hi2) as (b2 & Heq2 & Hb2).
  simpl. destruct b1; [|rewrite Heq2; destruct b2].
  - rewrite bool_decide_true; [done|]. apply Hc. left. by apply Hb1.
  - rewrite bool_decide_true; [done|]. apply Hc. right. by apply Hb2.
  - rewrite bool_decide_false; [done|]. rewrite Hc, <- Hb1, <- Hb2. naive_solver.
Qed.

Lemma insert_spec f item : cf_wf f →
  ∃ f' r, CuckooFilter_insert f item = Done (f', r) ∧ cf_wf f' ∧ same_shape f f' ∧
    match r with
    | Ok _ => footprint f' = footprint f ⊎ {[+ item_class f item +]}
    | Err _ => ∃ victim,
        footprint f' ⊎ {[+ victim +]} = footprint f ⊎ {[+ item_class f item +]}
    end.
Proof.
  intros Hwf. unfold CuckooFilter_insert, item_class.
  set (h := CuckooFilter_hash f (hash_feed item)).
  pose proof (fingerprint_range h) as Hfp. pose proof (index_ok_index f h) as Hi.
  pose proof (index_ok_alt f _ (fingerprint_from_hash h) Hi) as Hi2.
  destruct (try_insert_spec f _ _ Hwf Hi Hfp) as (f1 & [] & -> & Hwf1 & Hs1 & Hf1);
    cbn -[insert_kicks]; [by exists f1, (Ok tt)|]. destruct Hf1 as [-> Hfull].
  destruct (try_insert_spec f _ _ Hwf Hi2 Hfp) as (f2 & [] & -> & Hwf2 & Hs2 & Hf2);
    cbn -[insert_kicks].
  - exists f2, (Ok tt). rewrite class_of_alt in Hf2. done.
  - destruct Hf2 as [-> _]. by apply insert_kicks_spec.
Qed.

Lemma remove_spec f item : cf_wf f →
  ∃ f' b, CuckooFilter_remove f item = Done (f', b) ∧ cf_wf f' ∧ same_shape f f' ∧
    b = bool_decide (item_class f item ∈ footprint f) ∧
    footprint f' = footprint f ∖ {[+ item_class f item +]}.
Proof.
  intros Hwf. unfold CuckooFilter_remove, item_class.
  set (h := CuckooFilter_hash f (hash_feed item)).
  pose proof (fingerprint_range h) as Hfp. pose proof (index_ok_index f h) as Hi.
  pose proof (index_ok_alt f _ (fingerprint_from_hash h) Hi) as Hi2.
  pose proof (class_in_footprint f _ (fingerprint_from_hash h) Hwf Hi ltac:(lia)) as Hc.
  set (c := class_of _ _ _) in *.
  assert (∀ f', footprint f = footprint f' ⊎ {[+ c +]} →
    true = bool_decide (c ∈ footprint f) ∧ footprint f' = footprint f ∖ {[+ c +]}) as Hrem.
  { intros f' ->. split; [|multiset_solver]. rewrite bool_decide_true; [done|]. multiset_solver. }
  destruct (try_remove_spec f _ _ Hwf Hi Hfp) as (f1 & [] & -> & Hwf1 & Hs1 & Hf1); simpl.
  { exists f1, true. auto. }
  destruct Hf1 as [-> Hno1].
  destruct (try_remove_spec f _ _ Hwf Hi2 Hfp) as (f2 & [] & -> & Hwf2 & Hs2 & Hf2); simpl.
  { exists f2, true. rewrite class_of_alt in Hf2. auto. }
  destruct Hf2 as [-> Hno2]. exists f, false.
  assert (c ∉ footprint f) as Hnot by (rewrite Hc; tauto).
  rewrite bool_decide_false by done. repeat (split; [done|]). multiset_solver.
Qed.
End specs.

(** *** Constructors and the wire format *)

Lemma empty_bucket_wf : bucket_wf empty_bucket.
Proof. split; [done|]. repeat constructor; lia. Qed.

Lemma bucket_keys_empty fpi i : bucket_keys fpi i empty_bucket = ∅.
Proof. unfold empty_bucket, ENTRIES_PER_BUCKET, slot_keys. simpl. unfold slot_keys. multiset_solver. Qed.

Lemma table_keys_empty fpi i n : table_keys fpi i (replicate n empty_bucket) = ∅.
Proof.
  revert i. induction n as [|n IH]; intros i; [done|]. cbn [replicate table_keys].
  rewrite IH, bucket_keys_empty. multiset_solver.
Qed.

Lemma with_capacity_spec {S} `{!BuildHasher S} alloc n (hb : S) f :
  CuckooFilter_with_capacity_and_hasher alloc n hb = Ok f →
  cf_wf f ∧ footprint f = ∅ ∧ cf_hasher_builder f = hb
  ∧ ∃ k, 0 <= k ∧ len (cf_buckets f) = 2 ^ k.
Proof.
  unfold CuckooFilter_with_capacity_and_hasher, checked_next_power_of_two.
  destruct (2 ^ Z.log2_up (buckets_needed n) <=? usize_max); [|done].
  pose proof (Z.log2_up_nonneg (buckets_needed n)) as Hl.
  assert (0 < 2 ^ Z.log2_up (buckets_needed n)) as Hpos by (apply Z.pow_pos_nonneg; lia).
  rewrite Z.max_l by lia. set (c := 2 ^ _) in *.
  destruct ((c * 8 <=? isize_max) && alloc (c * 8)); [|done]. intros [= <-].
  split; [split|]; simpl.
  - destruct (Z.to_nat c) eqn:E; [lia|done].
  - apply Forall_replicate, empty_bucket_wf.
  - unfold footprint. simpl. rewrite table_keys_empty. split; [done|]. split; [done|].
    exists (Z.log2_up (buckets_needed n)). split; [done|]. unfold len. rewrite length_replicate.
    subst c. lia.
Qed.

Lemma u16s_from_le_range data : Forall (λ s, 0 <= s < 2 ^ 16) (u16s_from_le data).
Proof.
  cut (∀ n data, (length data <= n)%nat → Forall (λ s, 0 <= s < 2 ^ 16) (u16s_from_le data)).
  { intros H. by apply (H (length data)). }
  induction n as [|n IH]; intros [|a [|b l]] Hn; simpl in *; try constructor; try lia.
  - pose proof (Z_of_byte_range a). pose proof (Z_of_byte_range b). lia.
  - apply IH. lia.
Qed.

Lemma buckets_of_u16s_wf l :
  Forall (λ s, 0 <= s < 2 ^ 16) l → Forall bucket_wf (buckets_of_u16s l).
Proof.
  cut (∀ n l, (length l <= n)%nat → Forall (λ s, 0 <= s < 2 ^ 16) l →
    Forall bucket_wf (buckets_of_u16s l)).
  { intros H. by apply (H (length l)). }
  induction n as [|n IH]; intros [|a [|b [|c [|d l']]]] Hn Hl; simpl in *; try constructor; try lia.
  - split; [done|]. rewrite !Forall_cons in Hl |- *. rewrite Forall_nil. tauto.
  - apply IH; [lia|]. rewrite !Forall_cons in Hl. tauto.
Qed.

Lemma from_proto_wf p : cf_wf (CuckooFilter_from_proto p).
Proof.
  assert (cf_wf {| cf_buckets := [empty_bucket];
    cf_hasher_builder := {| yhb_seed := pcf_hash_seed p |} |}) as He.
  { split; [done|]. by apply Forall_singleton, empty_bucket_wf. }
  unfold CuckooFilter_from_proto. destruct (pcf_data p) as [|x data] eqn:Ed; [done|].
  pose proof (buckets_of_u16s_wf _ (u16s_from_le_range (x :: data))) as Hb.
  destruct (buckets_of_u16s _) as [|b bs]; [done|]. by split.
Qed.

Lemma u16s_from_le_app s data : 0 <= s < 2 ^ 16 →
  u16s_from_le (to_le_bytes 2 s ++ data) = s :: u16s_from_le data.
Proof.
  intros Hs. simpl. rewrite !Z_of_byte_of_Z. f_equal.
  rewrite (Z.mod_small (s / 256)) by (split; [apply Z.div_pos; lia|apply Z.div_lt_upper_bound; lia]).
  pose proof (Z.div_mod s 256). lia.
Qed.

Lemma u16s_roundtrip l :
  Forall (λ s, 0 <= s < 2 ^ 16) l → u16s_from_le (l ≫= to_le_bytes 2) = l.
Proof.
  induction l as [|s l IH]; [done|]. rewrite Forall_cons. intros [Hs Hl].
  rewrite bind_cons, u16s_from_le_app by done. by rewrite IH.
Qed.

Lemma buckets_roundtrip bs : Forall bucket_wf bs → buckets_of_u16s (concat bs) = bs.
Proof.
  induction bs as [|b bs IH]; [done|]. rewrite Forall_cons. intros [[Hb _] Hbs].
  destruct b as [|a1 [|a2 [|a3 [|a4 [|]]]]]; try done. simpl. by rewrite IH.
Qed.

Lemma from_to_proto f : cf_wf f → CuckooFilter_from_proto (CuckooFilter_to_proto f) = f.
Proof.
  intros [Hne Hwf]. unfold CuckooFilter_from_proto.
  cbn [pcf_data pcf_hash_seed CuckooFilter_to_proto].
  assert (buckets_of_u16s (u16s_from_le (concat (cf_buckets f) ≫= to_le_bytes 2)) = cf_buckets f)
    as Hrt.
  { rewrite u16s_roundtrip; [by apply buckets_roundtrip|]. apply Forall_concat.
    eapply Forall_impl; [exact Hwf|]. by intros b [_ ?]. }
  destruct (concat (cf_buckets f) ≫= to_le_bytes 2) as [|x l] eqn:E.
  - simpl in Hrt. by rewrite <- Hrt in Hne.
  - rewrite Hrt. by destruct f as [[|b bs] [seed]].
Qed.

(** ** Histories *)

Section history.
Context {S T : Type} `{!BuildHasher S} `{!Hash T}.

(** Successful inserts of items and removals of items still present. *)
Inductive cuckoo_step : CuckooFilter S * list T → CuckooFilter S * list T → Prop :=
| step_insert f f' live item :
    CuckooFilter_insert f item = Done (f', Ok tt) →
    cuckoo_step (f, live) (f', item :: live)
| step_remove f f' l1 l2 item b :
    CuckooFilter_remove f item = Done (f', b) →
    cuckoo_step (f, l1 ++ item :: l2) (f', l1 ++ l2).

(** The filter holds exactly the classes of the live items. *)
Definition tracks (f : CuckooFilter S) (live : list T) : Prop :=
  cf_wf f ∧ footprint f = list_to_set_disj (item_class f <$> live).

Lemma cuckoo_step_tracks f live f' live' :
  cuckoo_step (f, live) (f', live') → tracks f live → tracks f' live' ∧ same_shape f f'.
Proof.
  intros Hstep [Hwf Hfp]. inversion Hstep as [f0 f1 l0 item Hins|f0 f1 l1 l2 item b Hrem]; subst.
  - destruct (insert_spec f item Hwf) as (f1 & r & Heq & Hwf1 & Hs & Hr).
    rewrite Heq in Hins. injection Hins as <- ->. split; [|done]. split; [done|].
    rewrite Hr, Hfp. csimpl. rewrite (same_shape_class f f1) by done.
    rewrite (list_fmap_ext (item_class f1) (item_class f) live)
      by (intros; by apply same_shape_class).
    multiset_solver.
  - destruct (remove_spec f item Hwf) as (f1 & r & Heq & Hwf1 & Hs & _ & Hr).
    rewrite Heq in Hrem. injection Hrem as <- ->. split; [|done]. split; [done|].
    rewrite Hr, Hfp.
    rewrite (list_fmap_ext (item_class f1) (item_class f) (l1 ++ l2))
      by (intros; by apply same_shape_class).
    rewrite !fmap_app, fmap_cons, !list_to_set_disj_app, list_to_set_disj_cons.
    generalize (list_to_set_disj (item_class f <$> l1) : gmultiset (Z * Z)),
      (list_to_set_disj (item_class f <$> l2) : gmultiset (Z * Z)). multiset_solver.
Qed.

Lemma history_tracks f live f' live' :
  rtc cuckoo_step (f, live) (f', live') → tracks f live → tracks f' live' ∧ same_shape f f'.
Proof.
  intros Hrtc. remember (f, live) as s eqn:Es. remember (f', live') as s' eqn:Es'.
  revert f live Es f' live' Es'.
  induction Hrtc as [|s [f1 live1] s' Hstep _ IH]; intros f live -> f' live' ?; simplify_eq.
  { by split. }
  intros Ht. destruct (cuckoo_step_tracks _ _ _ _ Hstep Ht) as [Ht1 Hs1].
  destruct (IH _ _ eq_refl _ _ eq_refl Ht1) as [? ?].
  split; [done|]. by eapply same_shape_trans.
Qed.
End history.

Lemma bucket_keys_size fpi i b : (size (bucket_keys fpi i b) <= length b)%nat.
Proof.
  induction b as [|s b IH]; cbn [bucket_keys length].
  { rewrite (gmultiset_size_empty (A := Z * Z)). lia. }
  rewrite gmultiset_size_disj_union. unfold slot_keys.
  destruct (s =? 0); rewrite ?gmultiset_size_empty, ?gmultiset_size_singleton; lia.
Qed.

Lemma table_keys_size fpi i bs :
  Forall bucket_wf bs → (size (table_keys fpi i bs) <= ENTRIES_PER_BUCKET * length bs)%nat.
Proof.
  revert i. induction bs as [|b bs IH]; intros i.
  { cbn [table_keys]. rewrite (gmultiset_size_empty (A := Z * Z)). lia. }
  rewrite Forall_cons. intros [[Hb _] Hbs]. cbn [table_keys length].
  rewrite gmultiset_size_disj_union.
  pose proof (bucket_keys_size fpi i b). specialize (IH (i + 1) Hbs). lia.
Qed.

(** ** Properties *)

Section claims.
Context {S T : Type} `{!BuildHasher S} `{!Hash T}.

(** No false negatives, and false positives characterised: after any
    sequence of successful inserts and of removals of present items, starting
    from a filter of any capacity and any hasher, [contains] completes and
    answers true exactly on the items that share fingerprint and bucket pair
    with a live item, so on every live item; and removing a live item succeeds. *)
Theorem cuckoo_no_false_negatives alloc n (hb : S) f0 f (live : list T) :
  CuckooFilter_with_capacity_and_hasher alloc n hb = Ok f0 →
  rtc cuckoo_step (f0, []) (f, live) →
  (∀ item, ∃ b, CuckooFilter_contains f item = Done b ∧
     (b = true ↔ ∃ item', item' ∈ live ∧ item_class f item' = item_class f item)) ∧
  (∀ item, item ∈ live →
     CuckooFilter_contains f item = Done true ∧
     ∃ f', CuckooFilter_remove f item = Done (f', true)).
Proof.
  intros Hnew Hrtc. destruct (with_capacity_spec _ _ _ _ Hnew) as (Hwf0 & He & _).
  destruct (history_tracks _ _ _ _ Hrtc) as [[Hwf Hf] _].
  { split; [done|]. rewrite He. done. }
  assert (∀ item, item_class f item ∈ footprint f ↔
    ∃ item', item' ∈ live ∧ item_class f item' = item_class f item) as Hin.
  { intros item. rewrite Hf, elem_of_list_to_set_disj, list_elem_of_fmap.
    split; intros (item' & ? & ?); exists item'; by split. }
  split; intros item; rewrite contains_spec by done.
  - eexists. split; [done|]. by rewrite bool_decide_eq_true.
  - intros Hlive. assert (item_class f item ∈ footprint f) as Hmem by (apply Hin; eauto).
    rewrite bool_decide_true by done. split; [done|].
    destruct (remove_spec f item Hwf) as (f' & b & Heq & _ & _ & Hb & _).
    rewrite bool_decide_true in Hb by done. subst b. eauto.
Qed.

(** C29. Refinement: on any well-formed filter the three operations complete
    and act on the multiset of stored classes as membership, addition and
    removal, whatever the evictions; they keep the filter well formed, its
    hasher and its number of buckets. On a full table the multiset is not
    unchanged: some class, the new one or an old one, is dropped. *)
Theorem cuckoo_refines_multiset (f : CuckooFilter S) (item : T) :
  cf_wf f →
  CuckooFilter_contains f item = Done (bool_decide (item_class f item ∈ footprint f)) ∧
  (∃ f' r, CuckooFilter_insert f item = Done (f', r) ∧ cf_wf f' ∧ same_shape f f' ∧
     match r with
     | Ok _ => footprint f' = footprint f ⊎ {[+ item_class f item +]}
     | Err _ => ∃ victim,
         footprint f' ⊎ {[+ victim +]} = footprint f ⊎ {[+ item_class f item +]}
     end) ∧
  (∃ f', CuckooFilter_remove f item
           = Done (f', bool_decide (item_class f item ∈ footprint f)) ∧
     cf_wf f' ∧ same_shape f f' ∧ footprint f' = footprint f ∖ {[+ item_class f item +]}).
Proof.
  intros Hwf. split; [by apply contains_spec|]. split; [by apply insert_spec|].
  destruct (remove_spec f item Hwf) as (f' & b & ? & ? & ? & -> & ?). eauto.
Qed.

(** Capacity: a well-formed filter never stores more fingerprints than it
    has slots, and an insert into a completely full table always reports
    [TableFullError] after its bounded number of evictions. *)
Theorem cuckoo_capacity (f : CuckooFilter S) (item : T) :
  cf_wf f →
  Z.of_nat (size (footprint f)) <= 4 * len (cf_buckets f) ∧
  (Z.of_nat (size (footprint f)) = 4 * len (cf_buckets f) →
   ∃ f', CuckooFilter_insert f item = Done (f', Err TableFull)).
Proof.
  intros Hwf.
  assert (∀ g : CuckooFilter S, cf_wf g → Z.of_nat (size (footprint g)) <= 4 * len (cf_buckets g)) as Hsize.
  { intros g [_ Hg]. pose proof (table_keys_size (fingerprint_index g) 0 _ Hg).
    unfold footprint, len, ENTRIES_PER_BUCKET in *. lia. }
  split; [by apply Hsize|]. intros Hfull.
  destruct (insert_spec f item Hwf) as (f' & [[]|[]] & Heq & Hwf' & [_ Hlen] & Hr); [|eauto].
  exfalso. specialize (Hsize f' Hwf'). rewrite Hr, gmultiset_size_disj_union,
    gmultiset_size_singleton in Hsize. unfold len in *. rewrite Hlen in Hsize. lia.
Qed.
End claims.

(** Whatever bytes a peer sends as a cuckoo filter, the decoded filter is
    well formed and its operations never index out of bounds: for every item,
    [contains], [insert] and [remove] complete. *)
Theorem cuckoo_decode_total {X : Externals} (p : ProtoCuckooFilter) (item : Pubkey) :
  let f := CuckooFilter_from_proto p in
  cf_wf f ∧ (∃ b, CuckooFilter_contains f item = Done b) ∧
  (∃ r, CuckooFilter_insert f item = Done r) ∧ (∃ r, CuckooFilter_remove f item = Done r).
Proof.
  intros f. pose proof (from_proto_wf p) as Hwf. split; [done|].
  rewrite (contains_spec f item) by done.
  destruct (insert_spec f item Hwf) as (? & ? & -> & _).
  destruct (remove_spec f item Hwf) as (? & ? & -> & _).
  split; [by eexists|]. split; by eexists.
Qed.

(** Wire round trip: decoding the serialisation of any well-formed filter
    gives the same filter back, buckets and seed, so client and server answer
    alike on every item. *)
Theorem cuckoo_wire_roundtrip {X : Externals} (f : CuckooFilter YellowstoneHasherBuilder) :
  cf_wf f →
  CuckooFilter_from_proto (CuckooFilter_to_proto f) = f ∧
  (len (cf_buckets f) < 2 ^ 32 →
   pcf_bucket_count (CuckooFilter_to_proto f) = len (cf_buckets f)
   ∧ len (pcf_data (CuckooFilter_to_proto f))
     = pcf_bucket_count (CuckooFilter_to_proto f)
       * pcf_entries_per_bucket (CuckooFilter_to_proto f)
       * (pcf_fingerprint_bits (CuckooFilter_to_proto f) / 8)).
Proof.
  intros Hwf. split; [by apply from_to_proto|]. intros Hlen.
  cbn [pcf_bucket_count pcf_data pcf_entries_per_bucket pcf_fingerprint_bits CuckooFilter_to_proto].
  rewrite Z.mod_small by (pose proof (len_nonneg (cf_buckets f)); lia). split; [done|].
  destruct Hwf as [_ Hwf]. revert Hwf. generalize (cf_buckets f). clear.
  change (FINGERPRINT_BITS / 8) with 2. change (Z.of_nat ENTRIES_PER_BUCKET) with 4.
  induction l as [|b bs IH]; [done|]. rewrite Forall_cons. intros [[Hb _] Hbs].
  specialize (IH Hbs). cbn [concat]. rewrite bind_app, len_app, IH.
  assert (len (b ≫= to_le_bytes 2) = 8) as ->.
  { destruct b as [|? [|? [|? [|? [|]]]]]; done. }
  unfold len. simpl length. lia.
Qed.

(** ** Witnesses and the saturation example *)

Definition toy_filter : CuckooFilter YellowstoneHasherBuilder :=
  mkCuckooFilter [empty_bucket] YellowstoneHasherBuilder_default.

(** A failed insert is not a no-op: on a saturated filter built through the
    API alone, an insert returns [TableFullError] and an item that was inserted
    before and was found just before the call is not found after it. *)
Theorem cuckoo_failed_insert_loses_item :
  ∃ (f f' : CuckooFilter YellowstoneHasherBuilder) (live : list Pubkey) (old new : Pubkey),
    CuckooFilter_with_capacity (λ _, true) 3 = Ok toy_filter ∧
    rtc (cuckoo_step (BuildHasher0 := YellowstoneHasherBuilder_build_hasher (X := toy_externals)))
      (toy_filter, []) (f, live) ∧
    old ∈ live ∧
    CuckooFilter_contains (BuildHasher0 := YellowstoneHasherBuilder_build_hasher (X := toy_externals))
      f old = Done true ∧
    CuckooFilter_insert (BuildHasher0 := YellowstoneHasherBuilder_build_hasher (X := toy_externals))
      f new = Done (f', Err TableFull) ∧
    CuckooFilter_contains (BuildHasher0 := YellowstoneHasherBuilder_build_hasher (X := toy_externals))
      f' old = Done false.
Proof.
  exists (mkCuckooFilter [[1; 2; 3; 4]] YellowstoneHasherBuilder_default).
  exists (mkCuckooFilter [[4; 2; 3; 5]] YellowstoneHasherBuilder_default).
  exists [[Byte.x04]; [Byte.x03]; [Byte.x02]; [Byte.x01]], [Byte.x01], [Byte.x05].
  split; [vm_compute; reflexivity|]. split.
  { pose (flt := λ b, mkCuckooFilter [b] YellowstoneHasherBuilder_default).
    apply rtc_l with (flt [1; 0; 0; 0], [[Byte.x01]]);
      [apply step_insert; vm_compute; reflexivity|].
    apply rtc_l with (flt [1; 2; 0; 0], [[Byte.x02]; [Byte.x01]]);
      [apply step_insert; vm_compute; reflexivity|].
    apply rtc_l with (flt [1; 2; 3; 0], [[Byte.x03]; [Byte.x02]; [Byte.x01]]);
      [apply step_insert; vm_compute; reflexivity|].
    apply rtc_once, step_insert. vm_compute. reflexivity. }
  split; [set_solver|]. repeat split; vm_compute; reflexivity.
Qed.

Section witnesses.
#[local] Existing Instance toy_externals.

Definition toy_filter_1 : CuckooFilter YellowstoneHasherBuilder :=
  mkCuckooFilter [[7; 0; 0; 0]] YellowstoneHasherBuilder_default.

Lemma cuckoo_no_false_negatives_witness :
  CuckooFilter_contains toy_filter_1 [Byte.x07] = Done true.
Proof.
  refine (proj1 (proj2 (cuckoo_no_false_negatives (λ _, true) 3 YellowstoneHasherBuilder_default
    toy_filter toy_filter_1 [[Byte.x07]] _ _) [Byte.x07] _)).
  - vm_compute. reflexivity.
  - apply rtc_once, step_insert. vm_compute. reflexivity.
  - by left.
Defined.

Lemma toy_filter_1_wf : cf_wf toy_filter_1.
Proof. split; [done|]. repeat constructor; lia. Qed.

Lemma cuckoo_refines_multiset_witness :
  CuckooFilter_contains toy_filter_1 [Byte.x08]
  = Done (bool_decide (item_class toy_filter_1 [Byte.x08] ∈ footprint toy_filter_1)).
Proof. exact (proj1 (cuckoo_refines_multiset toy_filter_1 [Byte.x08] toy_filter_1_wf)). Defined.

Lemma cuckoo_capacity_witness :
  ∃ f', CuckooFilter_insert (mkCuckooFilter [[1; 2; 3; 4]] YellowstoneHasherBuilder_default)
    [Byte.x09] = Done (f', Err TableFull).
Proof.
  refine (proj2 (cuckoo_capacity (mkCuckooFilter [[1; 2; 3; 4]] YellowstoneHasherBuilder_default)
    [Byte.x09] _) _).
  - split; [done|]. repeat constructor; lia.
  - vm_compute. reflexivity.
Defined.

Lemma cuckoo_wire_roundtrip_witness :
  CuckooFilter_from_proto (CuckooFilter_to_proto toy_filter_1) = toy_filter_1.
Proof. exact (proj1 (cuckoo_wire_roundtrip toy_filter_1 toy_filter_1_wf)). Defined.
End witnesses.
