(* ===== verification/CuckooSet.v ===== *)
(** * yellowstone-grpc-proto/src/cuckoo/set.rs: [CompressedAccountFilterSet]

    The client-side set that builds cuckoo filters: an exact set of keys, the
    cuckoo filter of the same keys and a dirty flag. [set_inv] couples the two;
    every operation that succeeds preserves it and acts on the exact set as
    the mathematical set operation. *)

From S2P Require Import Prelude Externals Proto Cuckoo.

Set Default Goal Selector "!".

Section set.
Context {X : Externals}.

Record CompressedAccountFilterSet := mkCompressedAccountFilterSet {
  cs_items : gset Pubkey;
  cs_filter : CuckooFilter YellowstoneHasherBuilder;
  cs_dirty : bool
}.

(** [alloc] and [reserve] say whether the allocator grants the filter's bytes
    and the set's [try_reserve]. *)
Definition CompressedAccountFilterSet_with_capacity (alloc reserve : Z → bool) (max_capacity : Z)
    : result CuckooBuildError CompressedAccountFilterSet :=
  filter ← CuckooFilter_with_capacity alloc max_capacity;
  if reserve max_capacity
  then Ok {| cs_items := ∅; cs_filter := filter; cs_dirty := false |}
  else Err CapacityOverflow.

Definition CompressedAccountFilterSet_insert (s : CompressedAccountFilterSet) (key : Pubkey)
    : outcome (CompressedAccountFilterSet * result TableFullError bool) :=
  if decide (key ∈ cs_items s) then Done (s, Ok false)
  else
    '(filter, r) ← CuckooFilter_insert (cs_filter s) key;
    Done match r with
         | Err e =>
             ({| cs_items := cs_items s; cs_filter := filter; cs_dirty := cs_dirty s |}, Err e)
         | Ok _ =>
             ({| cs_items := {[key]} ∪ cs_items s; cs_filter := filter; cs_dirty := true |}, Ok true)
         end.

Definition CompressedAccountFilterSet_remove (s : CompressedAccountFilterSet) (key : Pubkey)
    : outcome (CompressedAccountFilterSet * bool) :=
  if decide (key ∈ cs_items s) then
    '(filter, _) ← CuckooFilter_remove (cs_filter s) key;
    Done ({| cs_items := cs_items s ∖ {[key]}; cs_filter := filter; cs_dirty := true |}, true)
  else Done (s, false).

Definition CompressedAccountFilterSet_contains (s : CompressedAccountFilterSet) (key : Pubkey) : bool :=
  bool_decide (key ∈ cs_items s).

Definition CompressedAccountFilterSet_len (s : CompressedAccountFilterSet) : Z :=
  Z.of_nat (size (cs_items s)).

Definition CompressedAccountFilterSet_is_empty (s : CompressedAccountFilterSet) : bool :=
  bool_decide (cs_items s = ∅).

(** [mem::replace(&mut self.dirty, false)]. *)
Definition CompressedAccountFilterSet_take_dirty (s : CompressedAccountFilterSet)
    : CompressedAccountFilterSet * bool :=
  ({| cs_items := cs_items s; cs_filter := cs_filter s; cs_dirty := false |}, cs_dirty s).

Definition CompressedAccountFilterSet_to_proto (s : CompressedAccountFilterSet)
    : ProtoCuckooFilter := CuckooFilter_to_proto (cs_filter s).

Definition to_account_filter (s : CompressedAccountFilterSet) : SubscribeRequestFilterAccounts :=
  {| rfa_account := [];
     rfa_owner := [];
     rfa_filters := [];
     rfa_nonempty_txn_signature := None;
     rfa_cuckoo_accounts_filter := Some (CompressedAccountFilterSet_to_proto s) |}.

Definition to_block_filter (s : CompressedAccountFilterSet) : SubscribeRequestFilterBlocks :=
  {| rfb_account_include := [];
     rfb_include_transactions := None;
     rfb_include_accounts := None;
     rfb_include_entries := None;
     rfb_cuckoo_account_include := Some (CompressedAccountFilterSet_to_proto s) |}.

Definition to_transaction_filter (s : CompressedAccountFilterSet)
    : SubscribeRequestFilterTransactions :=
  {| rft_vote := None;
     rft_failed := None;
     rft_signature := None;
     rft_account_include := [];
     rft_account_exclude := [];
     rft_account_required := [];
     rft_cuckoo_account_include := Some (CompressedAccountFilterSet_to_proto s);
     rft_token_accounts := None |}.

Definition clear_dirty (s : CompressedAccountFilterSet) : CompressedAccountFilterSet :=
  {| cs_items := cs_items s; cs_filter := cs_filter s; cs_dirty := false |}.

Definition insert_into_subscribe_request (s : CompressedAccountFilterSet)
    (req : SubscribeRequest) (name : string) : CompressedAccountFilterSet * SubscribeRequest :=
  (clear_dirty s,
   {| req_accounts := hash_map_insert name (to_account_filter s) (req_accounts req);
      req_slots := req_slots req;
      req_transactions := req_transactions req;
      req_transactions_status := req_transactions_status req;
      req_blocks := req_blocks req;
      req_blocks_meta := req_blocks_meta req;
      req_entry := req_entry req;
      req_commitment := req_commitment req;
      req_accounts_data_slice := req_accounts_data_slice req;
      req_ping := req_ping req;
      req_from_slot := req_from_slot req |}).

Definition insert_into_block_subscribe_request (s : CompressedAccountFilterSet)
    (req : SubscribeRequest) (name : string) : CompressedAccountFilterSet * SubscribeRequest :=
  (clear_dirty s,
   {| req_accounts := req_accounts req;
      req_slots := req_slots req;
      req_transactions := req_transactions req;
      req_transactions_status := req_transactions_status req;
      req_blocks := hash_map_insert name (to_block_filter s) (req_blocks req);
      req_blocks_meta := req_blocks_meta req;
      req_entry := req_entry req;
      req_commitment := req_commitment req;
      req_accounts_data_slice := req_accounts_data_slice req;
      req_ping := req_ping req;
      req_from_slot := req_from_slot req |}).

Definition insert_into_transaction_subscribe_request (s : CompressedAccountFilterSet)
    (req : SubscribeRequest) (name : string) : CompressedAccountFilterSet * SubscribeRequest :=
  (clear_dirty s,
   {| req_accounts := req_accounts req;
      req_slots := req_slots req;
      req_transactions := hash_map_insert name (to_transaction_filter s) (req_transactions req);
      req_transactions_status := req_transactions_status req;
      req_blocks := req_blocks req;
      req_blocks_meta := req_blocks_meta req;
      req_entry := req_entry req;
      req_commitment := req_commitment req;
      req_accounts_data_slice := req_accounts_data_slice req;
      req_ping := req_ping req;
      req_from_slot := req_from_slot req |}).

(** ** The coupling invariant *)

(** The filter holds one fingerprint per key of the exact set. *)
Definition set_inv (s : CompressedAccountFilterSet) : Prop :=
  cf_wf (cs_filter s) ∧
  footprint (cs_filter s)
  = list_to_set_disj (item_class (cs_filter s) <$> elements (cs_items s)).

(** What a server that decodes the wire form of the set answers for a key. *)
Definition server_contains (s : CompressedAccountFilterSet) (key : Pubkey) : outcome bool :=
  CuckooFilter_contains (CuckooFilter_from_proto (CompressedAccountFilterSet_to_proto s)) key.

Lemma classes_insert (c : Pubkey → Z * Z) (items : gset Pubkey) key : key ∉ items →
  (list_to_set_disj (c <$> elements ({[key]} ∪ items)) : gmultiset (Z * Z))
  = list_to_set_disj (c <$> elements items) ⊎ {[+ c key +]}.
Proof.
  intros Hk. rewrite (comm (⊎)), <- list_to_set_disj_cons, <- fmap_cons.
  apply list_to_set_disj_perm, fmap_Permutation. by apply elements_union_singleton.
Qed.

Lemma set_inv_insert s key s' r :
  set_inv s → CompressedAccountFilterSet_insert s key = Done (s', Ok r) →
  set_inv s' ∧ cs_items s' = {[key]} ∪ cs_items s ∧ r = bool_decide (key ∉ cs_items s)
  ∧ cs_dirty s' = cs_dirty s || r.
Proof.
  intros [Hwf Hf]. unfold CompressedAccountFilterSet_insert. case_decide as Hin.
  { intros [= <- <-]. rewrite bool_decide_false by naive_solver.
    split; [done|]. split; [set_solver|]. by rewrite orb_false_r. }
  destruct (insert_spec (cs_filter s) key Hwf) as (f' & [[]|[]] & -> & Hwf' & Hs & Hr); simpl;
    [|done].
  intros [= <- <-]. rewrite bool_decide_true by done. split; [|by rewrite orb_true_r].
  split; [done|]. simpl.
  rewrite (list_fmap_ext (item_class f') (item_class (cs_filter s)))
    by (intros; by apply same_shape_class).
  by rewrite classes_insert, Hr, Hf.
Qed.

Lemma set_inv_remove s key : set_inv s →
  ∃ s', CompressedAccountFilterSet_remove s key = Done (s', bool_decide (key ∈ cs_items s))
    ∧ set_inv s' ∧ cs_items s' = cs_items s ∖ {[key]}
    ∧ cs_dirty s' = cs_dirty s || bool_decide (key ∈ cs_items s).
Proof.
  intros [Hwf Hf]. unfold CompressedAccountFilterSet_remove. case_decide as Hin.
  2: { exists s. rewrite bool_decide_false by done. split; [done|]. split; [done|].
       split; [set_solver|]. by rewrite orb_false_r. }
  destruct (remove_spec (cs_filter s) key Hwf) as (f' & b & -> & Hwf' & Hs & _ & Hr). simpl.
  eexists. rewrite bool_decide_true by done. split; [done|].
  split; [|split; [done|by rewrite orb_true_r]]. split; [done|]. simpl.
  rewrite (list_fmap_ext (item_class f') (item_class (cs_filter s)))
    by (intros; by apply same_shape_class).
  rewrite Hr, Hf.
  rewrite (union_difference_singleton_L key (cs_items s) Hin) at 1.
  rewrite classes_insert by set_solver.
  generalize (list_to_set_disj (item_class (cs_filter s) <$> elements (cs_items s ∖ {[key]}))
    : gmultiset (Z * Z)). multiset_solver.
Qed.

Lemma set_inv_server s key : set_inv s → key ∈ cs_items s → server_contains s key = Done true.
Proof.
  intros [Hwf Hf] Hin. unfold server_contains, CompressedAccountFilterSet_to_proto.
  rewrite from_to_proto, contains_spec by done. rewrite bool_decide_true; [done|].
  rewrite Hf. apply elem_of_list_to_set_disj, list_elem_of_fmap. exists key.
  split; [done|]. by apply elem_of_elements.
Qed.

Lemma set_inv_with_capacity alloc reserve n s :
  CompressedAccountFilterSet_with_capacity alloc reserve n = Ok s →
  set_inv s ∧ cs_items s = ∅ ∧ cs_dirty s = false.
Proof.
  unfold CompressedAccountFilterSet_with_capacity, CuckooFilter_with_capacity.
  destruct (CuckooFilter_with_capacity_and_hasher _ _ _) as [f|] eqn:Ef; [|done]. simpl.
  destruct (reserve n); [|done]. intros [= <-].
  apply with_capacity_spec in Ef as (? & He & _). split; [|done]. split; [done|]. simpl.
  rewrite He, elements_empty. done.
Qed.

(** ** The abstract set *)

(** A key set and whether it changed since the last [take_dirty]. *)
Inductive set_op :=
| OpInsert (key : Pubkey)
| OpRemove (key : Pubkey)
| OpTakeDirty.

Definition run_op (s : CompressedAccountFilterSet) (op : set_op)
    : outcome (CompressedAccountFilterSet * result TableFullError bool) :=
  match op with
  | OpInsert key => CompressedAccountFilterSet_insert s key
  | OpRemove key => '(s, b) ← CompressedAccountFilterSet_remove s key; Done (s, Ok b)
  | OpTakeDirty => let '(s, b) := CompressedAccountFilterSet_take_dirty s in Done (s, Ok b)
  end.

Definition spec_op (st : gset Pubkey * bool) (op : set_op) : (gset Pubkey * bool) * bool :=
  let '(items, dirty) := st in
  match op with
  | OpInsert key => let b := bool_decide (key ∉ items) in (({[key]} ∪ items, dirty || b), b)
  | OpRemove key => let b := bool_decide (key ∈ items) in ((items ∖ {[key]}, dirty || b), b)
  | OpTakeDirty => ((items, false), dirty)
  end.

(** Runs in which no insert fails, with the answers given. *)
Inductive set_run : CompressedAccountFilterSet → list set_op → CompressedAccountFilterSet
    → list bool → Prop :=
| run_nil s : set_run s [] s []
| run_cons s op s1 b ops s2 bs :
    run_op s op = Done (s1, Ok b) → set_run s1 ops s2 bs →
    set_run s (op :: ops) s2 (b :: bs).

Fixpoint spec_run (st : gset Pubkey * bool) (ops : list set_op)
    : (gset Pubkey * bool) * list bool :=
  match ops with
  | [] => (st, [])
  | op :: ops =>
      let '(st, b) := spec_op st op in
      let '(st, bs) := spec_run st ops in (st, b :: bs)
  end.

(** The same, computed. *)
Fixpoint run_ops (s : CompressedAccountFilterSet) (ops : list set_op)
    : option (CompressedAccountFilterSet * list bool) :=
  match ops with
  | [] => Some (s, [])
  | op :: ops =>
      match run_op s op with
      | Done (s, Ok b) => '(s, bs) ← run_ops s ops; Some (s, b :: bs)
      | _ => None
      end
  end.

Lemma run_ops_run s ops s' bs : run_ops s ops = Some (s', bs) → set_run s ops s' bs.
Proof.
  revert s bs. induction ops as [|op ops IH]; intros s bs; simpl.
  - intros [= <- <-]. constructor.
  - destruct (run_op s op) as [[s1 [b|]]|] eqn:E; [|done..].
    destruct (run_ops s1 ops) as [[s2 bs2]|] eqn:E2; [|done]. simpl. intros [= <- <-].
    econstructor; [exact E|]. by apply IH.
Qed.

Lemma run_op_spec s op s' b :
  set_inv s → run_op s op = Done (s', Ok b) →
  set_inv s' ∧ spec_op (cs_items s, cs_dirty s) op = ((cs_items s', cs_dirty s'), b).
Proof.
  intros Hinv. destruct op as [key|key|]; simpl.
  - intros Hr. destruct (set_inv_insert _ _ _ _ Hinv Hr) as (? & -> & -> & ->). done.
  - destruct (set_inv_remove s key Hinv) as (s1 & -> & ? & Hi & Hd). simpl.
    intros [= <- <-]. by rewrite Hi, Hd.
  - intros [= <- <-]. done.
Qed.

(** The client-side set is an exact set: in every run from a fresh set in
    which no insert reports a full table, the answers of [insert], [remove] and
    [take_dirty] are those of a mathematical set with a changed flag; at the
    end [contains] and [len] are those of that set, and a server that decodes
    the set's wire form accepts every key of it. *)
Theorem cuckoo_set_refines alloc reserve n s0 ops s bs :
  CompressedAccountFilterSet_with_capacity alloc reserve n = Ok s0 →
  set_run s0 ops s bs →
  let '((items, dirty), answers) := spec_run (∅, false) ops in
  bs = answers ∧ cs_dirty s = dirty ∧
  CompressedAccountFilterSet_len s = Z.of_nat (size items) ∧
  ∀ key, CompressedAccountFilterSet_contains s key = bool_decide (key ∈ items) ∧
    (key ∈ items → server_contains s key = Done true).
Proof.
  intros Hnew Hrun. destruct (set_inv_with_capacity _ _ _ _ Hnew) as (Hinv & Hi & Hd).
  rewrite <- Hi, <- Hd. clear Hi Hd Hnew.
  assert (set_inv s ∧ spec_run (cs_items s0, cs_dirty s0) ops = ((cs_items s, cs_dirty s), bs))
    as [Hinv' ->].
  { induction Hrun as [s|s op s1 b ops s2 bs Hop Hrun IH]; [done|].
    destruct (run_op_spec _ _ _ _ Hinv Hop) as [Hinv1 Hspec].
    destruct (IH Hinv1) as [? Hr]. split; [done|]. cbn [spec_run]. by rewrite Hspec, Hr. }
  split; [done|]. split; [done|]. split; [done|]. intros key. split; [done|].
  by apply set_inv_server.
Qed.

(** The helpers that put the set into a request leave every other filter
    of the request alone, install exactly the wire form of the set under the
    given name with no other matcher, and clear the dirty flag. *)
Theorem cuckoo_set_into_request s req name :
  (∀ name' f, name' ≠ name →
     (name', f) ∈ req_accounts (insert_into_subscribe_request s req name).2
     ↔ (name', f) ∈ req_accounts req) ∧
  (name, to_account_filter s) ∈ req_accounts (insert_into_subscribe_request s req name).2 ∧
  (name, to_block_filter s) ∈ req_blocks (insert_into_block_subscribe_request s req name).2 ∧
  (name, to_transaction_filter s)
    ∈ req_transactions (insert_into_transaction_subscribe_request s req name).2 ∧
  cs_dirty (insert_into_subscribe_request s req name).1 = false ∧
  cs_items (insert_into_subscribe_request s req name).1 = cs_items s ∧
  rfa_cuckoo_accounts_filter (to_account_filter s) = Some (CuckooFilter_to_proto (cs_filter s)) ∧
  rfa_account (to_account_filter s) = [] ∧ rfa_owner (to_account_filter s) = [].
Proof.
  assert (∀ (V : Type) (v : V) m, (name, v) ∈ hash_map_insert name v m) as Hins.
  { induction m as [|[k' v'] m IH]; simpl; [set_solver|]. case_decide; set_solver. }
  split; [|repeat split; apply Hins]. intros name' f Hne. simpl.
  generalize (to_account_filter s) as v. intros v.
  induction (req_accounts req) as [|[k' v'] m IH]; simpl.
  - rewrite list_elem_of_singleton. set_solver.
  - case_decide as Hk; rewrite !elem_of_cons.
    + subst. naive_solver.
    + by rewrite IH.
Qed.
End set.

(** A failed insert breaks the set: starting from a fresh set of capacity
    three and inserting five keys, the fifth insert reports a full table and
    leaves [contains] and the dirty flag alone, yet the wire form has lost a
    key the set still claims, and the set does not report itself dirty. *)
Theorem cuckoo_set_failed_insert :
  let X := toy_externals in
  ∃ s0 s s' old new,
    CompressedAccountFilterSet_with_capacity (λ _, true) (λ _, true) 3 = Ok s0 ∧
    set_run s0 [OpInsert [Byte.x01]; OpInsert [Byte.x02]; OpInsert [Byte.x03]; OpInsert [Byte.x04];
                OpTakeDirty] s [true; true; true; true; true] ∧
    server_contains s old = Done true ∧
    CompressedAccountFilterSet_insert s new = Done (s', Err TableFull) ∧
    CompressedAccountFilterSet_contains s' old = true ∧ cs_dirty s' = false ∧
    server_contains s' old = Done false.
Proof.
  intros X.
  pose (flt := λ b, mkCuckooFilter [b] YellowstoneHasherBuilder_default).
  pose (st := λ items b d, mkCompressedAccountFilterSet (list_to_set items) (flt b) d).
  exists (st [] [0; 0; 0; 0]%Z false),
    (st [[Byte.x01]; [Byte.x02]; [Byte.x03]; [Byte.x04]] [1; 2; 3; 4]%Z false),
    (st [[Byte.x01]; [Byte.x02]; [Byte.x03]; [Byte.x04]] [4; 2; 3; 5]%Z false),
    [Byte.x01], [Byte.x05].
  split; [vm_compute; reflexivity|]. split; [|repeat split; vm_compute; reflexivity].
  apply run_ops_run. vm_compute. reflexivity.
Qed.

Lemma cuckoo_set_refines_witness :
  let X := toy_externals in
  ∃ s, server_contains s [Byte.x09] = Done true ∧ CompressedAccountFilterSet_len s = 1%Z.
Proof.
  intros X.
  pose (flt := λ b, mkCuckooFilter [b] YellowstoneHasherBuilder_default).
  pose (s0 := mkCompressedAccountFilterSet ∅ (flt [0; 0; 0; 0]%Z) false).
  pose (s1 := mkCompressedAccountFilterSet {[ [Byte.x09] ]} (flt [9; 0; 0; 0]%Z) true).
  assert (set_run s0 [OpInsert [Byte.x09]] s1 [true]) as Hrun.
  { apply run_ops_run. vm_compute. reflexivity. }
  pose proof (cuckoo_set_refines (λ _, true) (λ _, true) 3 s0 [OpInsert [Byte.x09]] s1 [true]
    ltac:(vm_compute; reflexivity) Hrun) as H. simpl in H.
  exists s1. destruct H as (_ & _ & Hlen & Hkey). split; [|exact Hlen].
  apply (proj2 (Hkey [Byte.x09])). set_solver.
Defined.

Lemma cuckoo_set_into_request_witness :
  let X := toy_externals in
  let s := mkCompressedAccountFilterSet ∅
    (mkCuckooFilter [empty_bucket] YellowstoneHasherBuilder_default) true in
  let req := mkSubscribeRequest [] [] [] [] [] [] [] None [] None None in
  ("tracked", to_account_filter s) ∈ req_accounts (insert_into_subscribe_request s req "tracked").2.
Proof. intros X s req. exact (proj1 (proj2 (cuckoo_set_into_request s req "tracked"))). Defined.
