(* ===== verification/Updates.v ===== *)
(** * plugin/filter/message.rs: the filtered updates sent to subscribers

    The update types and their constructors. *)

From S2P Require Import Prelude Externals Message Names DataSlice.

Set Default Goal Selector "!".

Abbreviation FilteredUpdateFilters := (list FilterName).

Record FilteredUpdateAccount := mkFilteredUpdateAccount {
  fua_account : MessageAccount;
  fua_data_slice : FilterAccountsDataSlice
}.

Record FilteredUpdateTransaction := mkFilteredUpdateTransaction {
  fut_transaction : MessageTransaction;
  fut_slot : Z
}.

Record FilteredUpdateBlock := mkFilteredUpdateBlock {
  fub_meta : MessageBlockMeta;
  fub_transactions : list MessageTransaction;
  fub_updated_account_count : Z;
  fub_accounts : list MessageAccount;
  fub_accounts_data_slice : FilterAccountsDataSlice;
  fub_entries : list MessageEntry
}.

(** [SubscribeUpdatePong] is its [id]. *)
Inductive FilteredUpdateOneof :=
| FuAccount (m : FilteredUpdateAccount)
| FuSlot (m : MessageSlot)
| FuTransaction (m : FilteredUpdateTransaction)
| FuTransactionStatus (m : MessageTransaction)
| FuBlock (m : FilteredUpdateBlock)
| FuPing
| FuPong (id : Z)
| FuBlockMeta (m : MessageBlockMeta)
| FuEntry (m : MessageEntry).

Record FilteredUpdate := mkFilteredUpdate {
  fu_filters : FilteredUpdateFilters;
  fu_message : FilteredUpdateOneof;
  fu_created_at : Timestamp
}.

Abbreviation FilteredUpdates := (list FilteredUpdate).

Definition FilteredUpdateOneof_account (message : MessageAccount)
    (data_slice : FilterAccountsDataSlice) : FilteredUpdateOneof :=
  FuAccount {| fua_account := message; fua_data_slice := data_slice |}.

Definition FilteredUpdateOneof_transaction (message : MessageTransaction) : FilteredUpdateOneof :=
  FuTransaction {| fut_transaction := message; fut_slot := mt_slot message |}.

(** [SystemTime::now()] is an argument. *)
Definition FilteredUpdate_new_empty (now : Timestamp) (message : FilteredUpdateOneof)
    : FilteredUpdate :=
  {| fu_filters := []; fu_message := message; fu_created_at := now |}.

(** The two [filtered_updates_once_*!] macros: one update carrying every
    matching filter name, or none. *)
Definition filtered_updates_once (filters : FilteredUpdateFilters) (message : FilteredUpdateOneof)
    (created_at : Timestamp) : FilteredUpdates :=
  match filters with
  | [] => []
  | _ => [{| fu_filters := filters; fu_message := message; fu_created_at := created_at |}]
  end.

(** Deshred updates. *)
Inductive FilteredUpdateDeshredOneof :=
| FudDeshredTransaction (m : MessageDeshredTransaction)
| FudPing
| FudPong (id : Z)
| FudSlot (m : MessageSlot).

Record FilteredUpdateDeshred := mkFilteredUpdateDeshred {
  fud_filters : FilteredUpdateFilters;
  fud_message : FilteredUpdateDeshredOneof;
  fud_created_at : Timestamp
}.

Abbreviation FilteredUpdatesDeshred := (list FilteredUpdateDeshred).

Definition FilteredUpdateDeshred_new_empty (now : Timestamp) (message : FilteredUpdateDeshredOneof)
    : FilteredUpdateDeshred :=
  {| fud_filters := []; fud_message := message; fud_created_at := now |}.

Lemma filtered_updates_once_names filters message created_at :
  filtered_updates_once filters message created_at ≫= fu_filters = filters.
Proof. destruct filters; simpl; [done|]. by rewrite app_nil_r. Qed.

Lemma filtered_updates_once_message filters message created_at u :
  u ∈ filtered_updates_once filters message created_at →
  fu_message u = message ∧ fu_created_at u = created_at ∧ fu_filters u = filters ∧ filters ≠ [].
Proof. destruct filters; simpl; set_solver. Qed.
