(* ===== verification/Encode.v ===== *)
(** * plugin/filter/message.rs and encoder.rs: encoding of filtered updates

    The hand-written [prost::Message] implementations. [encode_raw] is the
    bytes appended to the buffer; it also returns the message, because the
    encoders of accounts and transactions fill the [pre_encoded] cell of the
    record they encode, which every holder of the same [Arc] then sees. A
    computation that slices account data can panic. *)

From S2P Require Import Prelude Externals Storage Message Wire Names DataSlice Updates.

Set Default Goal Selector "!".

Local Open Scope Z_scope.

(** The generated messages embedded in the updates. *)
Class Generated := {
  gen_timestamp :: ProstMessage Timestamp;
  gen_transaction :: ProstMessage Transaction;
  gen_meta :: ProstMessage TransactionStatusMeta;
  gen_rewards :: ProstMessage ProtoRewards;
  gen_block_meta :: ProstMessage SubscribeUpdateBlockMeta;
  gen_error : ProstMessage bytes;
  gen_unix_timestamp : ProstMessage Z;
  gen_block_height : ProstMessage Z;
  gen_pong : ProstMessage Z
}.

Class GeneratedLaws {G : Generated} : Prop := {
  timestamp_law :: ProstMessageLaw Timestamp;
  transaction_law :: ProstMessageLaw Transaction;
  meta_law :: ProstMessageLaw TransactionStatusMeta;
  rewards_law :: ProstMessageLaw ProtoRewards;
  block_meta_law :: ProstMessageLaw SubscribeUpdateBlockMeta;
  error_law : @ProstMessageLaw _ gen_error;
  time_law : @ProstMessageLaw _ gen_unix_timestamp;
  height_law : @ProstMessageLaw _ gen_block_height;
  pong_law : @ProstMessageLaw _ gen_pong
}.

(** [OnceLock::set]: a filled cell keeps its value. *)
Definition once_set {A} (cell : option A) (value : A) : option A :=
  match cell with Some v => Some v | None => Some value end.

(** A loop that appends the encoding of every element. *)
Fixpoint encode_each {A} (f : A → outcome (bytes * A)) (l : list A) : outcome (bytes * list A) :=
  match l with
  | [] => Done ([], [])
  | a :: l =>
      '(b, a) ← f a;
      '(bs, l) ← encode_each f l;
      Done (b ++ bs, a :: l)
  end.

(** The lengths of a loop, left to right. *)
Fixpoint lens_each {A} (f : A → outcome Z) (l : list A) : outcome (list Z) :=
  match l with
  | [] => Done []
  | a :: l => n ← f a; ns ← lens_each f l; Done (n :: ns)
  end.

Section encode.
Context {X : Externals} {P : Prost} {G : Generated}.

(** [if value != 0u64 { uint64::encode(tag, &value, buf) }], its length, and
    the same for a [bool] and an optional value. *)
Definition nonzero_u64 (tag v : Z) : bytes := if bool_decide (v = 0) then [] else uint64_encode tag v.
Definition nonzero_u64_len (tag v : Z) : Z := if bool_decide (v = 0) then 0 else uint64_encoded_len tag v.
Definition nonzero_u32 (tag v : Z) : bytes := if bool_decide (v = 0) then [] else uint32_encode tag v.
Definition nonzero_u32_len (tag v : Z) : Z := if bool_decide (v = 0) then 0 else uint32_encoded_len tag v.
Definition true_bool (tag : Z) (b : bool) : bytes := if b then bool_encode tag b else [].
Definition true_bool_len (tag : Z) (b : bool) : Z := if b then bool_encoded_len tag b else 0.

(** ** Accounts *)

(** [size_of::<Pubkey>()] and [size_of::<Signature>()]. *)
Definition PUBKEY_FIELD_ENCODED_LEN : Z := prost_field_encoded_len 1 32.
Definition OWNER_FIELD_ENCODED_LEN : Z := prost_field_encoded_len 3 32.
Definition SIGNATURE_FIELD_ENCODED_LEN : Z := prost_field_encoded_len 8 64.

(** The buffer [AccountEncoder::pre_encode] builds, and the cell it sets. *)
Definition AccountEncoder_buf (account : MessageAccountInfo) : bytes :=
  concat
    [prost_bytes_encode_raw 1 (ai_pubkey account);
     nonzero_u64 2 (ai_lamports account);
     prost_bytes_encode_raw 3 (ai_owner account);
     true_bool 4 (ai_executable account);
     nonzero_u64 5 (ai_rent_epoch account);
     if bool_decide (ai_data account = []) then [] else prost_bytes_encode_raw 6 (ai_data account);
     nonzero_u64 7 (ai_write_version account);
     from_option (prost_bytes_encode_raw 8) [] (ai_txn_signature account)].

Definition set_account_cell (account : MessageAccountInfo) (cell : option bytes) : MessageAccountInfo :=
  {| ai_pubkey := ai_pubkey account;
     ai_lamports := ai_lamports account;
     ai_owner := ai_owner account;
     ai_executable := ai_executable account;
     ai_rent_epoch := ai_rent_epoch account;
     ai_data := ai_data account;
     ai_write_version := ai_write_version account;
     ai_txn_signature := ai_txn_signature account;
     ai_pre_encoded := cell |}.

Definition AccountEncoder_pre_encode (account : MessageAccountInfo) : MessageAccountInfo :=
  set_account_cell account (once_set (ai_pre_encoded account) (AccountEncoder_buf account)).

Definition AccountEncoder_encoded_len (account : MessageAccountInfo) : Z :=
  usize_sum
    [PUBKEY_FIELD_ENCODED_LEN;
     nonzero_u64_len 2 (ai_lamports account);
     OWNER_FIELD_ENCODED_LEN;
     true_bool_len 4 (ai_executable account);
     nonzero_u64_len 5 (ai_rent_epoch account);
     if bool_decide (ai_data account = []) then 0 else prost_bytes_encoded_len 6 (ai_data account);
     nonzero_u64_len 7 (ai_write_version account);
     from_option (λ _, SIGNATURE_FIELD_ENCODED_LEN) 0 (ai_txn_signature account)].

(** [account_return_encoded], [transaction_return_encoded]. *)
Definition account_return_encoded (pre_encoded : bytes) (tag : Z) : bytes :=
  prost_encode_key tag wt_len ++ prost_encode_varint (wrap64 (len pre_encoded)) ++ pre_encoded.

Definition transaction_return_encoded (pre_encoded : bytes) (tag : Z) : bytes :=
  prost_encode_key tag wt_len ++ prost_encode_varint (wrap64 (len pre_encoded)) ++ pre_encoded.

(** The fallback of [account_encoded_len]. *)
Definition account_sliced_len (account : MessageAccountInfo) (data_slice : FilterAccountsDataSlice)
    : outcome Z :=
  data_len ← get_slice_len data_slice (ai_data account);
  Done (usize_sum
    [PUBKEY_FIELD_ENCODED_LEN;
     nonzero_u64_len 2 (ai_lamports account);
     OWNER_FIELD_ENCODED_LEN;
     true_bool_len 4 (ai_executable account);
     nonzero_u64_len 5 (ai_rent_epoch account);
     if bool_decide (data_len = 0) then 0 else prost_field_encoded_len 6 data_len;
     nonzero_u64_len 7 (ai_write_version account);
     from_option (λ _, SIGNATURE_FIELD_ENCODED_LEN) 0 (ai_txn_signature account)]).

Definition account_encoded_len (account : MessageAccountInfo) (data_slice : FilterAccountsDataSlice)
    : outcome Z :=
  match data_slice, ai_pre_encoded account with
  | [], Some pre_encoded => Done (wrap64 (len pre_encoded))
  | _, _ => account_sliced_len account data_slice
  end.

(** The fallback of [account_encode_raw]. *)
Definition account_sliced_encode (tag : Z) (account : MessageAccountInfo)
    (data_slice : FilterAccountsDataSlice) : outcome bytes :=
  n ← account_encoded_len account data_slice;
  data ← slice_encode_raw data_slice 6 (ai_data account);
  Done (prost_encode_key tag wt_len ++ prost_encode_varint n ++ concat
    [prost_bytes_encode_raw 1 (ai_pubkey account);
     nonzero_u64 2 (ai_lamports account);
     prost_bytes_encode_raw 3 (ai_owner account);
     true_bool 4 (ai_executable account);
     nonzero_u64 5 (ai_rent_epoch account);
     data;
     nonzero_u64 7 (ai_write_version account);
     from_option (prost_bytes_encode_raw 8) [] (ai_txn_signature account)]).

Definition account_encode_raw (tag : Z) (account : MessageAccountInfo)
    (data_slice : FilterAccountsDataSlice) : outcome (bytes * MessageAccountInfo) :=
  match data_slice with
  | [] =>
      match ai_pre_encoded account with
      | Some pre_encoded => Done (account_return_encoded pre_encoded tag, account)
      | None =>
          let account := AccountEncoder_pre_encode account in
          match ai_pre_encoded account with
          | Some pre_encoded => Done (account_return_encoded pre_encoded tag, account)
          | None => b ← account_sliced_encode tag account data_slice; Done (b, account)
          end
      end
  | _ => b ← account_sliced_encode tag account data_slice; Done (b, account)
  end.

Definition set_ma_account (m : MessageAccount) (account : MessageAccountInfo) : MessageAccount :=
  {| ma_account := account; ma_slot := ma_slot m; ma_is_startup := ma_is_startup m;
     ma_created_at := ma_created_at m |}.

Definition FilteredUpdateAccount_encode_raw (m : FilteredUpdateAccount)
    : outcome (bytes * FilteredUpdateAccount) :=
  let msg := fua_account m in
  '(b, account) ← account_encode_raw 1 (ma_account msg) (fua_data_slice m);
  Done (concat [b; nonzero_u64 2 (ma_slot msg); true_bool 3 (ma_is_startup msg)],
        {| fua_account := set_ma_account msg account; fua_data_slice := fua_data_slice m |}).

Definition FilteredUpdateAccount_encoded_len (m : FilteredUpdateAccount) : outcome Z :=
  let msg := fua_account m in
  n ← account_encoded_len (ma_account msg) (fua_data_slice m);
  Done (usize_sum [prost_field_encoded_len 1 n; nonzero_u64_len 2 (ma_slot msg);
                   true_bool_len 3 (ma_is_startup msg)]).

(** ** Slots *)

Definition FilteredUpdateSlot_encode_raw (m : MessageSlot) : bytes :=
  let status := SlotStatus_to_proto (ms_status m) in
  concat
    [nonzero_u64 1 (ms_slot m);
     from_option (uint64_encode 2) [] (ms_parent m);
     if bool_decide (status = 0) then [] else int32_encode 3 status;
     from_option (string_encode 4) [] (ms_dead_error m)].

Definition FilteredUpdateSlot_encoded_len (m : MessageSlot) : Z :=
  let status := SlotStatus_to_proto (ms_status m) in
  usize_sum
    [nonzero_u64_len 1 (ms_slot m);
     from_option (uint64_encoded_len 2) 0 (ms_parent m);
     if bool_decide (status = 0) then 0 else int32_encoded_len 3 status;
     from_option (string_encoded_len 4) 0 (ms_dead_error m)].

(** ** Transactions *)

Definition TransactionEncoder_encode_raw (tx : MessageTransactionInfo) : bytes :=
  concat
    [prost_encode_key 1 wt_len ++ prost_encode_varint (wrap64 (len (ti_signature tx))) ++ ti_signature tx;
     true_bool 2 (ti_is_vote tx);
     message_field 3 (ti_transaction tx);
     message_field 4 (ti_meta tx);
     nonzero_u64 5 (ti_index tx)].

Definition TransactionEncoder_encoded_len (tx : MessageTransactionInfo) : Z :=
  usize_sum
    [prost_field_encoded_len 1 64;
     true_bool_len 2 (ti_is_vote tx);
     message_field_len 3 (ti_transaction tx);
     message_field_len 4 (ti_meta tx);
     nonzero_u64_len 5 (ti_index tx)].

Definition set_tx_cell (tx : MessageTransactionInfo) (cell : option bytes) : MessageTransactionInfo :=
  {| ti_signature := ti_signature tx;
     ti_is_vote := ti_is_vote tx;
     ti_transaction := ti_transaction tx;
     ti_meta := ti_meta tx;
     ti_index := ti_index tx;
     ti_account_keys := ti_account_keys tx;
     ti_pre_encoded := cell;
     ti_token_owners_all := ti_token_owners_all tx;
     ti_token_owners_changed := ti_token_owners_changed tx |}.

Definition TransactionEncoder_pre_encode (tx : MessageTransactionInfo) : MessageTransactionInfo :=
  set_tx_cell tx (once_set (ti_pre_encoded tx) (TransactionEncoder_encode_raw tx)).

Definition tx_encoded_len (tx : MessageTransactionInfo) : Z :=
  match ti_pre_encoded tx with
  | Some pre_encoded => wrap64 (len pre_encoded)
  | None =>
      usize_sum
        [prost_bytes_encoded_len 1 (ti_signature tx);
         true_bool_len 2 (ti_is_vote tx);
         message_field_len 3 (ti_transaction tx);
         message_field_len 4 (ti_meta tx);
         nonzero_u64_len 5 (ti_index tx)]
  end.

(** The fallback of [tx_encode_raw]. *)
Definition tx_encode_scratch (tag : Z) (tx : MessageTransactionInfo) : bytes :=
  prost_encode_key tag wt_len ++ prost_encode_varint (tx_encoded_len tx) ++ concat
    [prost_bytes_encode_raw 1 (ti_signature tx);
     true_bool 2 (ti_is_vote tx);
     message_field 3 (ti_transaction tx);
     message_field 4 (ti_meta tx);
     nonzero_u64 5 (ti_index tx)].

Definition tx_encode_raw (tag : Z) (tx : MessageTransactionInfo) : bytes * MessageTransactionInfo :=
  match ti_pre_encoded tx with
  | Some pre_encoded => (transaction_return_encoded pre_encoded tag, tx)
  | None =>
      let tx := TransactionEncoder_pre_encode tx in
      match ti_pre_encoded tx with
      | Some pre_encoded => (transaction_return_encoded pre_encoded tag, tx)
      | None => (tx_encode_scratch tag tx, tx)
      end
  end.

Definition set_mt_transaction (m : MessageTransaction) (tx : MessageTransactionInfo)
    : MessageTransaction :=
  {| mt_transaction := tx; mt_slot := mt_slot m; mt_created_at := mt_created_at m |}.

Definition FilteredUpdateTransaction_encode_raw (m : FilteredUpdateTransaction)
    : bytes * FilteredUpdateTransaction :=
  let '(b, tx) := tx_encode_raw 1 (mt_transaction (fut_transaction m)) in
  (concat [b; nonzero_u64 2 (fut_slot m)],
   {| fut_transaction := set_mt_transaction (fut_transaction m) tx; fut_slot := fut_slot m |}).

Definition FilteredUpdateTransaction_encoded_len (m : FilteredUpdateTransaction) : Z :=
  usize_sum [prost_field_encoded_len 1 (tx_encoded_len (mt_transaction (fut_transaction m)));
             nonzero_u64_len 2 (fut_slot m)].

Definition FilteredUpdateTransactionStatus_encode_raw (m : MessageTransaction) : bytes :=
  let tx := mt_transaction m in
  concat
    [nonzero_u64 1 (mt_slot m);
     prost_bytes_encode_raw 2 (ti_signature tx);
     true_bool 3 (ti_is_vote tx);
     nonzero_u64 4 (ti_index tx);
     from_option (@message_field _ _ _ gen_error 5) [] (meta_err (ti_meta tx))].

Definition FilteredUpdateTransactionStatus_encoded_len (m : MessageTransaction) : Z :=
  let tx := mt_transaction m in
  usize_sum
    [nonzero_u64_len 1 (mt_slot m);
     prost_bytes_encoded_len 2 (ti_signature tx);
     true_bool_len 3 (ti_is_vote tx);
     nonzero_u64_len 4 (ti_index tx);
     from_option (@message_field_len _ _ _ gen_error 5) 0 (meta_err (ti_meta tx))].

(** ** Entries *)

Definition entry_encode_raw (entry : MessageEntry) : bytes :=
  concat
    [nonzero_u64 1 (me_slot entry);
     nonzero_u64 2 (me_index entry);
     nonzero_u64 3 (me_num_hashes entry);
     prost_bytes_encode_raw 4 (me_hash entry);
     nonzero_u64 5 (me_executed_transaction_count entry);
     nonzero_u64 6 (me_starting_transaction_index entry)].

Definition entry_encoded_len (entry : MessageEntry) : Z :=
  usize_sum
    [nonzero_u64_len 1 (me_slot entry);
     nonzero_u64_len 2 (me_index entry);
     nonzero_u64_len 3 (me_num_hashes entry);
     prost_bytes_encoded_len 4 (me_hash entry);
     nonzero_u64_len 5 (me_executed_transaction_count entry);
     nonzero_u64_len 6 (me_starting_transaction_index entry)].

(** ** Blocks *)

Definition nonempty_string (tag : Z) (s : string) : bytes :=
  if bool_decide (s = "") then [] else string_encode tag s.
Definition nonempty_string_len (tag : Z) (s : string) : Z :=
  if bool_decide (s = "") then 0 else string_encoded_len tag s.

Definition FilteredUpdateBlock_encode_raw (m : FilteredUpdateBlock)
    : outcome (bytes * FilteredUpdateBlock) :=
  let meta := fub_meta m in
  '(txs, transactions) ← encode_each (λ tx,
      let '(b, info) := tx_encode_raw 6 (mt_transaction tx) in
      Done (b, set_mt_transaction tx info)) (fub_transactions m);
  '(accs, accounts) ← encode_each (λ acc,
      '(b, info) ← account_encode_raw 11 (ma_account acc) (fub_accounts_data_slice m);
      Done (b, set_ma_account acc info)) (fub_accounts m);
  Done (concat
    [nonzero_u64 1 (bm_slot meta);
     nonempty_string 2 (bm_blockhash meta);
     from_option (message_field 3) [] (bm_rewards meta);
     from_option (@message_field _ _ _ gen_unix_timestamp 4) [] (bm_block_time meta);
     from_option (@message_field _ _ _ gen_block_height 5) [] (bm_block_height meta);
     txs;
     nonzero_u64 7 (bm_parent_slot meta);
     nonempty_string 8 (bm_parent_blockhash meta);
     nonzero_u64 9 (bm_executed_transaction_count meta);
     nonzero_u64 10 (fub_updated_account_count m);
     accs;
     nonzero_u64 12 (bm_entries_count meta);
     concat ((λ entry, prost_encode_key 13 wt_len ++ prost_encode_varint (entry_encoded_len entry)
                       ++ entry_encode_raw entry) <$> fub_entries m)],
   {| fub_meta := meta; fub_transactions := transactions;
      fub_updated_account_count := fub_updated_account_count m; fub_accounts := accounts;
      fub_accounts_data_slice := fub_accounts_data_slice m; fub_entries := fub_entries m |}).

Definition FilteredUpdateBlock_encoded_len (m : FilteredUpdateBlock) : outcome Z :=
  let meta := fub_meta m in
  acc_lens ← lens_each (λ acc, account_encoded_len (ma_account acc) (fub_accounts_data_slice m))
    (fub_accounts m);
  Done (usize_sum
    [nonzero_u64_len 1 (bm_slot meta);
     nonempty_string_len 2 (bm_blockhash meta);
     from_option (message_field_len 3) 0 (bm_rewards meta);
     from_option (@message_field_len _ _ _ gen_unix_timestamp 4) 0 (bm_block_time meta);
     from_option (@message_field_len _ _ _ gen_block_height 5) 0 (bm_block_height meta);
     prost_repeated_encoded_len_map 6 ((λ tx, tx_encoded_len (mt_transaction tx)) <$> fub_transactions m);
     nonzero_u64_len 7 (bm_parent_slot meta);
     nonempty_string_len 8 (bm_parent_blockhash meta);
     nonzero_u64_len 9 (bm_executed_transaction_count meta);
     nonzero_u64_len 10 (fub_updated_account_count m);
     prost_repeated_encoded_len_map 11 acc_lens;
     nonzero_u64_len 12 (bm_entries_count meta);
     prost_repeated_encoded_len_map 13 (entry_encoded_len <$> fub_entries m)]).

(** ** Updates *)

Definition FilteredUpdateOneof_encoded_len (m : FilteredUpdateOneof) : outcome Z :=
  match m with
  | FuAccount msg => n ← FilteredUpdateAccount_encoded_len msg; Done (message_encoded_len 2 n)
  | FuSlot msg => Done (message_encoded_len 3 (FilteredUpdateSlot_encoded_len msg))
  | FuTransaction msg => Done (message_encoded_len 4 (FilteredUpdateTransaction_encoded_len msg))
  | FuTransactionStatus msg =>
      Done (message_encoded_len 10 (FilteredUpdateTransactionStatus_encoded_len msg))
  | FuBlock msg => n ← FilteredUpdateBlock_encoded_len msg; Done (message_encoded_len 5 n)
  | FuPing => Done (usize_sum [key_len 6; encoded_len_varint 0])
  | FuPong id => Done (@message_field_len _ _ _ gen_pong 9 id)
  | FuBlockMeta msg => Done (message_field_len 7 (block_meta msg))
  | FuEntry msg => Done (message_encoded_len 8 (entry_encoded_len msg))
  end.

Definition FilteredUpdateOneof_encode_raw (m : FilteredUpdateOneof)
    : outcome (bytes * FilteredUpdateOneof) :=
  match m with
  | FuAccount msg =>
      n ← FilteredUpdateAccount_encoded_len msg;
      '(raw, msg) ← FilteredUpdateAccount_encode_raw msg;
      Done (message_encode 2 n raw, FuAccount msg)
  | FuSlot msg =>
      Done (message_encode 3 (FilteredUpdateSlot_encoded_len msg) (FilteredUpdateSlot_encode_raw msg), m)
  | FuTransaction msg =>
      let n := FilteredUpdateTransaction_encoded_len msg in
      let '(raw, msg) := FilteredUpdateTransaction_encode_raw msg in
      Done (message_encode 4 n raw, FuTransaction msg)
  | FuTransactionStatus msg =>
      Done (message_encode 10 (FilteredUpdateTransactionStatus_encoded_len msg)
              (FilteredUpdateTransactionStatus_encode_raw msg), m)
  | FuBlock msg =>
      n ← FilteredUpdateBlock_encoded_len msg;
      '(raw, msg) ← FilteredUpdateBlock_encode_raw msg;
      Done (message_encode 5 n raw, FuBlock msg)
  | FuPing => Done (prost_encode_key 6 wt_len ++ prost_encode_varint 0, m)
  | FuPong id => Done (@message_field _ _ _ gen_pong 9 id, m)
  | FuBlockMeta msg => Done (message_field 7 (block_meta msg), m)
  | FuEntry msg => Done (message_encode 8 (entry_encoded_len msg) (entry_encode_raw msg), m)
  end.

(** The loop over the filter names, shared by the two update types. *)
Definition encode_filters (filters : FilteredUpdateFilters) : bytes :=
  concat ((λ filter, let name := string_bytes (fname_text filter) in
             prost_encode_key 1 wt_len ++ prost_encode_varint (wrap64 (len name)) ++ name) <$> filters).

Definition filters_encoded_len (filters : FilteredUpdateFilters) : Z :=
  prost_repeated_encoded_len_map 1 ((λ filter, wrap64 (len (string_bytes (fname_text filter)))) <$> filters).

Definition FilteredUpdate_encode_raw (u : FilteredUpdate) : outcome (bytes * FilteredUpdate) :=
  '(raw, message) ← FilteredUpdateOneof_encode_raw (fu_message u);
  Done (concat [encode_filters (fu_filters u); raw; message_field 11 (fu_created_at u)],
        {| fu_filters := fu_filters u; fu_message := message; fu_created_at := fu_created_at u |}).

Definition FilteredUpdate_encoded_len (u : FilteredUpdate) : outcome Z :=
  n ← FilteredUpdateOneof_encoded_len (fu_message u);
  Done (usize_sum [filters_encoded_len (fu_filters u); n; message_field_len 11 (fu_created_at u)]).

(** ** Deshred updates *)

Definition deshred_tx_encoded_len (tx : MessageDeshredTransactionInfo) : Z :=
  usize_sum
    [prost_bytes_encoded_len 1 (di_signature tx);
     true_bool_len 2 (di_is_vote tx);
     message_field_len 3 (di_transaction tx);
     prost_repeated_encoded_len_map 4 ((λ pk, wrap64 (len pk)) <$> di_loaded_writable_addresses tx);
     prost_repeated_encoded_len_map 5 ((λ pk, wrap64 (len pk)) <$> di_loaded_readonly_addresses tx);
     nonzero_u32_len 6 (di_completed_data_set_starting_shred_index tx);
     nonzero_u32_len 7 (di_completed_data_set_ending_shred_index_exclusive tx)].

Definition deshred_tx_encode_raw (tag : Z) (tx : MessageDeshredTransactionInfo) : bytes :=
  prost_encode_key tag wt_len ++ prost_encode_varint (deshred_tx_encoded_len tx) ++ concat
    [prost_bytes_encode_raw 1 (di_signature tx);
     true_bool 2 (di_is_vote tx);
     message_field 3 (di_transaction tx);
     concat (prost_bytes_encode_raw 4 <$> di_loaded_writable_addresses tx);
     concat (prost_bytes_encode_raw 5 <$> di_loaded_readonly_addresses tx);
     nonzero_u32 6 (di_completed_data_set_starting_shred_index tx);
     nonzero_u32 7 (di_completed_data_set_ending_shred_index_exclusive tx)].

Definition FilteredUpdateDeshredTransaction_encode_raw (m : MessageDeshredTransaction) : bytes :=
  concat [deshred_tx_encode_raw 1 (md_transaction m); nonzero_u64 2 (md_slot m)].

Definition FilteredUpdateDeshredTransaction_encoded_len (m : MessageDeshredTransaction) : Z :=
  usize_sum [prost_field_encoded_len 1 (deshred_tx_encoded_len (md_transaction m));
             nonzero_u64_len 2 (md_slot m)].

Definition FilteredUpdateDeshredOneof_encode_raw (m : FilteredUpdateDeshredOneof) : bytes :=
  match m with
  | FudDeshredTransaction msg =>
      message_encode 2 (FilteredUpdateDeshredTransaction_encoded_len msg)
        (FilteredUpdateDeshredTransaction_encode_raw msg)
  | FudPing => prost_encode_key 3 wt_len ++ prost_encode_varint 0
  | FudPong id => @message_field _ _ _ gen_pong 4 id
  | FudSlot msg =>
      message_encode 6 (FilteredUpdateSlot_encoded_len msg) (FilteredUpdateSlot_encode_raw msg)
  end.

Definition FilteredUpdateDeshredOneof_encoded_len (m : FilteredUpdateDeshredOneof) : Z :=
  match m with
  | FudDeshredTransaction msg =>
      message_encoded_len 2 (FilteredUpdateDeshredTransaction_encoded_len msg)
  | FudPing => usize_sum [key_len 3; encoded_len_varint 0]
  | FudPong id => @message_field_len _ _ _ gen_pong 4 id
  | FudSlot msg => message_encoded_len 6 (FilteredUpdateSlot_encoded_len msg)
  end.

Definition FilteredUpdateDeshred_encode_raw (u : FilteredUpdateDeshred) : bytes :=
  concat [encode_filters (fud_filters u);
          FilteredUpdateDeshredOneof_encode_raw (fud_message u);
          message_field 5 (fud_created_at u)].

Definition FilteredUpdateDeshred_encoded_len (u : FilteredUpdateDeshred) : Z :=
  usize_sum [filters_encoded_len (fud_filters u);
             FilteredUpdateDeshredOneof_encoded_len (fud_message u);
             message_field_len 5 (fud_created_at u)].
End encode.
