(* ===== verification/SubscribeUpdate.v ===== *)
(** * geyser.proto: the update messages, and what an update stands for

    The messages of yellowstone-grpc-proto/proto/geyser.proto that carry
    updates, their proto3 encoding field by field in tag order (the reference),
    and [FilteredUpdate::as_subscribe_update], the message a filtered update
    stands for. *)

From S2P Require Import Prelude Externals Storage Message Wire Names DataSlice Updates Encode.

Set Default Goal Selector "!".

Local Open Scope Z_scope.

Record SubscribeUpdateAccountInfo := mkSubscribeUpdateAccountInfo {
  sai_pubkey : bytes;
  sai_lamports : Z;
  sai_owner : bytes;
  sai_executable : bool;
  sai_rent_epoch : Z;
  sai_data : bytes;
  sai_write_version : Z;
  sai_txn_signature : option bytes
}.

Record SubscribeUpdateAccount := mkSubscribeUpdateAccount {
  sa_account : option SubscribeUpdateAccountInfo;
  sa_slot : Z;
  sa_is_startup : bool
}.

Record SubscribeUpdateSlot := mkSubscribeUpdateSlot {
  ss_slot : Z;
  ss_parent : option Z;
  ss_status : Z;
  ss_dead_error : option string
}.

Record SubscribeUpdateTransactionInfo := mkSubscribeUpdateTransactionInfo {
  sti_signature : bytes;
  sti_is_vote : bool;
  sti_transaction : option Transaction;
  sti_meta : option TransactionStatusMeta;
  sti_index : Z
}.

Record SubscribeUpdateTransaction := mkSubscribeUpdateTransaction {
  st_transaction : option SubscribeUpdateTransactionInfo;
  st_slot : Z
}.

Record SubscribeUpdateTransactionStatus := mkSubscribeUpdateTransactionStatus {
  sts_slot : Z;
  sts_signature : bytes;
  sts_is_vote : bool;
  sts_index : Z;
  sts_err : option bytes
}.

Record SubscribeUpdateEntry := mkSubscribeUpdateEntry {
  se_slot : Z;
  se_index : Z;
  se_num_hashes : Z;
  se_hash : bytes;
  se_executed_transaction_count : Z;
  se_starting_transaction_index : Z
}.

Record SubscribeUpdateBlock := mkSubscribeUpdateBlock {
  sb_slot : Z;
  sb_blockhash : string;
  sb_rewards : option ProtoRewards;
  sb_block_time : option Z;
  sb_block_height : option Z;
  sb_parent_slot : Z;
  sb_parent_blockhash : string;
  sb_executed_transaction_count : Z;
  sb_transactions : list SubscribeUpdateTransactionInfo;
  sb_updated_account_count : Z;
  sb_accounts : list SubscribeUpdateAccountInfo;
  sb_entries_count : Z;
  sb_entries : list SubscribeUpdateEntry
}.

Inductive UpdateOneof :=
| UoAccount (m : SubscribeUpdateAccount)
| UoSlot (m : SubscribeUpdateSlot)
| UoTransaction (m : SubscribeUpdateTransaction)
| UoTransactionStatus (m : SubscribeUpdateTransactionStatus)
| UoBlock (m : SubscribeUpdateBlock)
| UoPing
| UoPong (id : Z)
| UoBlockMeta (m : SubscribeUpdateBlockMeta)
| UoEntry (m : SubscribeUpdateEntry).

Record SubscribeUpdate := mkSubscribeUpdate {
  su_filters : list string;
  su_update_oneof : option UpdateOneof;
  su_created_at : option Timestamp
}.

Record SubscribeUpdateDeshredTransactionInfo := mkSubscribeUpdateDeshredTransactionInfo {
  sdi_signature : bytes;
  sdi_is_vote : bool;
  sdi_transaction : option Transaction;
  sdi_loaded_writable_addresses : list bytes;
  sdi_loaded_readonly_addresses : list bytes;
  sdi_completed_data_set_starting_shred_index : Z;
  sdi_completed_data_set_ending_shred_index_exclusive : Z
}.

(** ** [as_subscribe_update] *)

Section as_update.
Context {X : Externals}.

Definition as_subscribe_update_account (message : MessageAccountInfo)
    (data_slice : FilterAccountsDataSlice) : outcome SubscribeUpdateAccountInfo :=
  data ← get_slice data_slice (ai_data message);
  Done {| sai_pubkey := ai_pubkey message;
          sai_lamports := ai_lamports message;
          sai_owner := ai_owner message;
          sai_executable := ai_executable message;
          sai_rent_epoch := ai_rent_epoch message;
          sai_data := data;
          sai_write_version := ai_write_version message;
          sai_txn_signature := ai_txn_signature message |}.

Definition as_subscribe_update_transaction (tx : MessageTransactionInfo)
    : SubscribeUpdateTransactionInfo :=
  {| sti_signature := ti_signature tx;
     sti_is_vote := ti_is_vote tx;
     sti_transaction := Some (ti_transaction tx);
     sti_meta := Some (ti_meta tx);
     sti_index := ti_index tx |}.

Definition as_subscribe_update_entry (message : MessageEntry) : SubscribeUpdateEntry :=
  {| se_slot := me_slot message;
     se_index := me_index message;
     se_num_hashes := me_num_hashes message;
     se_hash := me_hash message;
     se_executed_transaction_count := me_executed_transaction_count message;
     se_starting_transaction_index := me_starting_transaction_index message |}.

Fixpoint as_subscribe_update_accounts (accounts : list MessageAccount)
    (data_slice : FilterAccountsDataSlice) : outcome (list SubscribeUpdateAccountInfo) :=
  match accounts with
  | [] => Done []
  | acc :: accounts =>
      a ← as_subscribe_update_account (ma_account acc) data_slice;
      rest ← as_subscribe_update_accounts accounts data_slice;
      Done (a :: rest)
  end.

Definition update_oneof_of (message : FilteredUpdateOneof) : outcome UpdateOneof :=
  match message with
  | FuAccount msg =>
      a ← as_subscribe_update_account (ma_account (fua_account msg)) (fua_data_slice msg);
      Done (UoAccount
        {| sa_account := Some a;
           sa_slot := ma_slot (fua_account msg);
           sa_is_startup := ma_is_startup (fua_account msg) |})
  | FuSlot msg =>
      Done (UoSlot
        {| ss_slot := ms_slot msg;
           ss_parent := ms_parent msg;
           ss_status := SlotStatus_to_proto (ms_status msg);
           ss_dead_error := ms_dead_error msg |})
  | FuTransaction msg =>
      Done (UoTransaction
        {| st_transaction := Some (as_subscribe_update_transaction (mt_transaction (fut_transaction msg)));
           st_slot := fut_slot msg |})
  | FuTransactionStatus tx =>
      Done (UoTransactionStatus
        {| sts_slot := mt_slot tx;
           sts_signature := ti_signature (mt_transaction tx);
           sts_is_vote := ti_is_vote (mt_transaction tx);
           sts_index := ti_index (mt_transaction tx);
           sts_err := meta_err (ti_meta (mt_transaction tx)) |})
  | FuBlock msg =>
      let meta := fub_meta msg in
      accounts ← as_subscribe_update_accounts (fub_accounts msg) (fub_accounts_data_slice msg);
      Done (UoBlock
        {| sb_slot := bm_slot meta;
           sb_blockhash := bm_blockhash meta;
           sb_rewards := bm_rewards meta;
           sb_block_time := bm_block_time meta;
           sb_block_height := bm_block_height meta;
           sb_parent_slot := bm_parent_slot meta;
           sb_parent_blockhash := bm_parent_blockhash meta;
           sb_executed_transaction_count := bm_executed_transaction_count meta;
           sb_transactions := (λ tx, as_subscribe_update_transaction (mt_transaction tx))
             <$> fub_transactions msg;
           sb_updated_account_count := fub_updated_account_count msg;
           sb_accounts := accounts;
           sb_entries_count := bm_entries_count meta;
           sb_entries := as_subscribe_update_entry <$> fub_entries msg |})
  | FuPing => Done UoPing
  | FuPong id => Done (UoPong id)
  | FuBlockMeta msg => Done (UoBlockMeta (block_meta msg))
  | FuEntry msg => Done (UoEntry (as_subscribe_update_entry msg))
  end.

Definition as_subscribe_update (u : FilteredUpdate) : outcome SubscribeUpdate :=
  message ← update_oneof_of (fu_message u);
  Done {| su_filters := fname_text <$> fu_filters u;
          su_update_oneof := Some message;
          su_created_at := Some (fu_created_at u) |}.
End as_update.

(** ** The reference encoding of the schema *)

Section reference.
Context {X : Externals} {G : Generated}.

Definition ref_account_info (m : SubscribeUpdateAccountInfo) : bytes := concat
  [ref_bytes 1 (sai_pubkey m); ref_uint 2 (sai_lamports m); ref_bytes 3 (sai_owner m);
   ref_bool 4 (sai_executable m); ref_uint 5 (sai_rent_epoch m); ref_bytes 6 (sai_data m);
   ref_uint 7 (sai_write_version m); ref_opt_bytes 8 (sai_txn_signature m)].

Definition ref_account (m : SubscribeUpdateAccount) : bytes := concat
  [ref_message 1 (ref_account_info <$> sa_account m); ref_uint 2 (sa_slot m);
   ref_bool 3 (sa_is_startup m)].

Definition ref_slot (m : SubscribeUpdateSlot) : bytes := concat
  [ref_uint 1 (ss_slot m); ref_opt_uint 2 (ss_parent m); ref_enum 3 (ss_status m);
   ref_opt_string 4 (ss_dead_error m)].

Definition ref_transaction_info (m : SubscribeUpdateTransactionInfo) : bytes := concat
  [ref_bytes 1 (sti_signature m); ref_bool 2 (sti_is_vote m);
   ref_message 3 (gen_encode_raw <$> sti_transaction m); ref_message 4 (gen_encode_raw <$> sti_meta m);
   ref_uint 5 (sti_index m)].

Definition ref_transaction (m : SubscribeUpdateTransaction) : bytes := concat
  [ref_message 1 (ref_transaction_info <$> st_transaction m); ref_uint 2 (st_slot m)].

Definition ref_transaction_status (m : SubscribeUpdateTransactionStatus) : bytes := concat
  [ref_uint 1 (sts_slot m); ref_bytes 2 (sts_signature m); ref_bool 3 (sts_is_vote m);
   ref_uint 4 (sts_index m); ref_message 5 (@gen_encode_raw _ gen_error <$> sts_err m)].

Definition ref_entry (m : SubscribeUpdateEntry) : bytes := concat
  [ref_uint 1 (se_slot m); ref_uint 2 (se_index m); ref_uint 3 (se_num_hashes m);
   ref_bytes 4 (se_hash m); ref_uint 5 (se_executed_transaction_count m);
   ref_uint 6 (se_starting_transaction_index m)].

Definition ref_block (m : SubscribeUpdateBlock) : bytes := concat
  [ref_uint 1 (sb_slot m); ref_string 2 (sb_blockhash m);
   ref_message 3 (gen_encode_raw <$> sb_rewards m);
   ref_message 4 (@gen_encode_raw _ gen_unix_timestamp <$> sb_block_time m);
   ref_message 5 (@gen_encode_raw _ gen_block_height <$> sb_block_height m);
   ref_repeated 6 (ref_transaction_info <$> sb_transactions m);
   ref_uint 7 (sb_parent_slot m); ref_string 8 (sb_parent_blockhash m);
   ref_uint 9 (sb_executed_transaction_count m); ref_uint 10 (sb_updated_account_count m);
   ref_repeated 11 (ref_account_info <$> sb_accounts m); ref_uint 12 (sb_entries_count m);
   ref_repeated 13 (ref_entry <$> sb_entries m)].

Definition ref_update_oneof (m : UpdateOneof) : bytes :=
  match m with
  | UoAccount m => ref_delimited 2 (ref_account m)
  | UoSlot m => ref_delimited 3 (ref_slot m)
  | UoTransaction m => ref_delimited 4 (ref_transaction m)
  | UoTransactionStatus m => ref_delimited 10 (ref_transaction_status m)
  | UoBlock m => ref_delimited 5 (ref_block m)
  | UoPing => ref_delimited 6 []
  | UoPong id => ref_delimited 9 (@gen_encode_raw _ gen_pong id)
  | UoBlockMeta m => ref_delimited 7 (gen_encode_raw m)
  | UoEntry m => ref_delimited 8 (ref_entry m)
  end.

Definition ref_subscribe_update (m : SubscribeUpdate) : bytes := concat
  [ref_repeated 1 (string_bytes <$> su_filters m);
   from_option ref_update_oneof [] (su_update_oneof m);
   ref_message 11 (gen_encode_raw <$> su_created_at m)].

(** Deshred updates. *)
Definition ref_deshred_info (m : SubscribeUpdateDeshredTransactionInfo) : bytes := concat
  [ref_bytes 1 (sdi_signature m); ref_bool 2 (sdi_is_vote m);
   ref_message 3 (gen_encode_raw <$> sdi_transaction m);
   ref_repeated 4 (sdi_loaded_writable_addresses m); ref_repeated 5 (sdi_loaded_readonly_addresses m);
   ref_uint 6 (sdi_completed_data_set_starting_shred_index m);
   ref_uint 7 (sdi_completed_data_set_ending_shred_index_exclusive m)].

(** The message a deshred update stands for. *)
Definition deshred_info_of (tx : MessageDeshredTransactionInfo) : SubscribeUpdateDeshredTransactionInfo :=
  {| sdi_signature := di_signature tx;
     sdi_is_vote := di_is_vote tx;
     sdi_transaction := Some (di_transaction tx);
     sdi_loaded_writable_addresses := di_loaded_writable_addresses tx;
     sdi_loaded_readonly_addresses := di_loaded_readonly_addresses tx;
     sdi_completed_data_set_starting_shred_index := di_completed_data_set_starting_shred_index tx;
     sdi_completed_data_set_ending_shred_index_exclusive :=
       di_completed_data_set_ending_shred_index_exclusive tx |}.

Definition slot_of (m : MessageSlot) : SubscribeUpdateSlot :=
  {| ss_slot := ms_slot m; ss_parent := ms_parent m; ss_status := SlotStatus_to_proto (ms_status m);
     ss_dead_error := ms_dead_error m |}.

Definition ref_deshred_update (u : FilteredUpdateDeshred) : bytes := concat
  [ref_repeated 1 (string_bytes <$> (fname_text <$> fud_filters u));
   match fud_message u with
   | FudDeshredTransaction m => ref_delimited 2 (concat
       [ref_delimited 1 (ref_deshred_info (deshred_info_of (md_transaction m))); ref_uint 2 (md_slot m)])
   | FudPing => ref_delimited 3 []
   | FudPong id => ref_delimited 4 (@gen_encode_raw _ gen_pong id)
   | FudSlot m => ref_delimited 6 (ref_slot (slot_of m))
   end;
   ref_delimited 5 (gen_encode_raw (fud_created_at u))].
End reference.
