(* ===== verification/EncodeSpec.v ===== *)
(** * The encoders write the message the update stands for

    Every hand-written encoder of message.rs writes the proto3 encoding of the
    message its update stands for, whatever the state of the [pre_encoded]
    cells, and [encoded_len] is the number of bytes it writes. *)

From S2P Require Import Prelude Externals Storage Message Wire Names DataSlice Updates Encode.
From S2P Require Import SubscribeUpdate.

Set Default Goal Selector "!".

Local Open Scope Z_scope.

Section spec.
Context {X : Externals} {P : Prost} {G : Generated} {L : ProstLaws} {GL : GeneratedLaws}.

#[local] Hint Resolve error_law time_law height_law pong_law : typeclass_instances.
#[local] Hint Resolve timestamp_law transaction_law meta_law rewards_law block_meta_law error_law
  time_law height_law pong_law : wire.

(** ** Well-formed messages

    The sizes of the fixed-size arrays, the bound on a vector's length, and the
    invariant of a [pre_encoded] cell: empty, or the record's own encoding. *)

Definition account_ok (a : MessageAccountInfo) : Prop :=
  len (ai_pubkey a) = 32 ∧ len (ai_owner a) = 32 ∧
  (∀ s, ai_txn_signature a = Some s → len s = 64) ∧ len (ai_data a) <= isize_max ∧
  (∀ b, ai_pre_encoded a = Some b → b = AccountEncoder_buf a).

Definition tx_ok (t : MessageTransactionInfo) : Prop :=
  len (ti_signature t) = 64 ∧ (∀ b, ti_pre_encoded t = Some b → b = TransactionEncoder_encode_raw t).

Definition oneof_ok (m : FilteredUpdateOneof) : Prop :=
  match m with
  | FuAccount m => account_ok (ma_account (fua_account m)) ∧ slices_disjoint (fua_data_slice m)
  | FuTransaction m => tx_ok (mt_transaction (fut_transaction m))
  | FuTransactionStatus m => tx_ok (mt_transaction m)
  | FuBlock m =>
      Forall (λ t, tx_ok (mt_transaction t)) (fub_transactions m) ∧
      Forall (λ a, account_ok (ma_account a)) (fub_accounts m) ∧
      slices_disjoint (fub_accounts_data_slice m) ∧
      Forall (λ e, len (me_hash e) = 32) (fub_entries m)
  | FuEntry m => len (me_hash m) = 32
  | _ => True
  end.

(** The same message with every [pre_encoded] cell empty. *)
Definition forget_account (a : MessageAccountInfo) : MessageAccountInfo := set_account_cell a None.
Definition forget_tx (t : MessageTransactionInfo) : MessageTransactionInfo := set_tx_cell t None.

Definition forget_oneof (m : FilteredUpdateOneof) : FilteredUpdateOneof :=
  match m with
  | FuAccount m => FuAccount
      {| fua_account := set_ma_account (fua_account m) (forget_account (ma_account (fua_account m)));
         fua_data_slice := fua_data_slice m |}
  | FuTransaction m => FuTransaction
      {| fut_transaction := set_mt_transaction (fut_transaction m)
           (forget_tx (mt_transaction (fut_transaction m)));
         fut_slot := fut_slot m |}
  | FuTransactionStatus m => FuTransactionStatus (set_mt_transaction m (forget_tx (mt_transaction m)))
  | FuBlock m => FuBlock
      {| fub_meta := fub_meta m;
         fub_transactions := (λ t, set_mt_transaction t (forget_tx (mt_transaction t)))
           <$> fub_transactions m;
         fub_updated_account_count := fub_updated_account_count m;
         fub_accounts := (λ a, set_ma_account a (forget_account (ma_account a))) <$> fub_accounts m;
         fub_accounts_data_slice := fub_accounts_data_slice m;
         fub_entries := fub_entries m |}
  | m => m
  end.

(** ** Fields *)

Lemma nonzero_u64_ref tag v : nonzero_u64 tag v = ref_uint tag v.
Proof. apply uint64_field. Qed.

Lemma nonzero_u32_ref tag v : nonzero_u32 tag v = ref_uint tag v.
Proof. unfold nonzero_u32, ref_uint. rewrite uint32_ok. by case_bool_decide; case_decide. Qed.

Lemma true_bool_ref tag b : true_bool tag b = ref_bool tag b.
Proof. unfold true_bool, ref_bool. rewrite bool_ok. by destruct b. Qed.

Lemma opt_u64_ref tag v : from_option (uint64_encode tag) [] v = ref_opt_uint tag v.
Proof. destruct v; simpl; [apply uint64_ok|done]. Qed.

Lemma opt_string_ref tag s : from_option (string_encode tag) [] s = ref_opt_string tag s.
Proof. destruct s; simpl; [apply string_ok|done]. Qed.

Lemma opt_bytes_ref tag v : from_option (prost_bytes_encode_raw tag) [] v = ref_opt_bytes tag v.
Proof. done. Qed.

Lemma enum_ref tag v :
  (if bool_decide (v = 0) then [] else int32_encode tag v) = ref_enum tag v.
Proof. unfold ref_enum. rewrite int32_ok. by case_bool_decide; case_decide. Qed.

Lemma fixed_bytes_ref tag v n : len v = Z.pos n → prost_bytes_encode_raw tag v = ref_bytes tag v.
Proof. intros Hn. apply bytes_nonempty. by intros ->. Qed.

Lemma message_ref `{ProstMessageLaw A} tag (o : option A) :
  from_option (message_field tag) [] o = ref_message tag (gen_encode_raw <$> o).
Proof. destruct o; simpl; [apply message_field_ref|done]. Qed.

Lemma message_some_ref `{ProstMessageLaw A} tag (m : A) :
  message_field tag m = ref_message tag (gen_encode_raw <$> Some m).
Proof. apply message_field_ref. Qed.

Lemma string_bytes_empty s : string_bytes s = [] ↔ s = "".
Proof. by destruct s. Qed.

Lemma nonempty_string_ref tag s : nonempty_string tag s = ref_string tag s.
Proof.
  unfold nonempty_string, ref_string, ref_bytes. rewrite string_ok.
  case_bool_decide as H; rewrite <- string_bytes_empty in H; by case_decide.
Qed.

Lemma data_ref ds tag source :
  slices_disjoint ds → len source <= isize_max →
  slice_encode_raw ds tag source = Done (ref_bytes tag (sliced ds source)).
Proof.
  intros Hd Hs. rewrite slice_encode_raw_sliced by done. unfold ref_bytes, ref_delimited. do 2 f_equal.
  case_decide; [done|]. rewrite wrap64_small; [done|].
  pose proof (sliced_le ds source Hd). pose proof (len_nonneg (sliced ds source)).
  unfold isize_max in *. lia.
Qed.

Lemma fixed_bytes_agrees tag v n :
  len v = n → 0 <= n < 2 ^ 64 → agrees (prost_bytes_encode_raw tag v) (prost_field_encoded_len tag n).
Proof.
  intros <- Hn. rewrite <- (wrap64_small (len v)) by done. apply agrees_bytes.
Qed.

Lemma ref_bytes_agrees tag v :
  agrees (ref_bytes tag v) (if bool_decide (wrap64 (len v) = 0) then 0
                            else prost_field_encoded_len tag (wrap64 (len v))) ∨ 2 ^ 64 <= len v.
Proof.
  destruct (Z.lt_ge_cases (len v) (2 ^ 64)) as [Hlt|]; [left|by right].
  pose proof (len_nonneg v). rewrite (wrap64_small (len v)) by done. unfold ref_bytes.
  case_bool_decide as Hz; case_decide as Hn.
  - done.
  - exfalso. apply Hn, nil_length_inv. unfold len in Hz. lia.
  - by rewrite Hn in Hz.
  - rewrite <- (wrap64_small (len v)) by done. by apply agrees_field.
Qed.

Lemma agrees_nonzero_u64 tag v : agrees (nonzero_u64 tag v) (nonzero_u64_len tag v).
Proof. apply agrees_decide, agrees_uint64. Qed.

Lemma agrees_nonzero_u32 tag v : agrees (nonzero_u32 tag v) (nonzero_u32_len tag v).
Proof. apply agrees_decide, agrees_uint32. Qed.

Lemma agrees_true_bool tag b : agrees (true_bool tag b) (true_bool_len tag b).
Proof. apply agrees_if, agrees_bool. Qed.

Lemma agrees_nonempty_string tag s : agrees (nonempty_string tag s) (nonempty_string_len tag s).
Proof. apply agrees_decide, agrees_string. Qed.

Lemma agrees_signature tag o :
  (∀ s : bytes, o = Some s → len s = 64) →
  agrees (from_option (prost_bytes_encode_raw tag) [] o)
    (from_option (λ _, prost_field_encoded_len tag 64) 0 o).
Proof.
  destruct o as [s|]; intros H; [|done]. apply fixed_bytes_agrees; [by apply H|lia].
Qed.

#[local] Hint Resolve agrees_nonzero_u64 agrees_nonzero_u32 agrees_true_bool agrees_nonempty_string
  agrees_signature : wire.

(** ** Accounts *)

Definition sliced_account (a : MessageAccountInfo) (ds : FilterAccountsDataSlice)
    : SubscribeUpdateAccountInfo :=
  mkSubscribeUpdateAccountInfo (ai_pubkey a) (ai_lamports a) (ai_owner a) (ai_executable a)
    (ai_rent_epoch a) (sliced ds (ai_data a)) (ai_write_version a) (ai_txn_signature a).

Lemma as_account_sliced a ds :
  account_ok a → slices_disjoint ds →
  as_subscribe_update_account a ds = Done (sliced_account a ds).
Proof.
  intros (_ & _ & _ & Hd & _) Hds. unfold as_subscribe_update_account.
  by rewrite get_slice_sliced by done.
Qed.

(** The fields of an account, by the encoder and by the reference. *)
Lemma account_fields_ref a ds :
  account_ok a →
  concat [prost_bytes_encode_raw 1 (ai_pubkey a); nonzero_u64 2 (ai_lamports a);
     prost_bytes_encode_raw 3 (ai_owner a); true_bool 4 (ai_executable a);
     nonzero_u64 5 (ai_rent_epoch a); ref_bytes 6 (sliced ds (ai_data a));
     nonzero_u64 7 (ai_write_version a);
     from_option (prost_bytes_encode_raw 8) [] (ai_txn_signature a)]
  = ref_account_info (sliced_account a ds).
Proof.
  intros (Hp & Ho & _). unfold ref_account_info, sliced_account. cbn [sai_pubkey sai_lamports
    sai_owner sai_executable sai_rent_epoch sai_data sai_write_version sai_txn_signature].
  by rewrite !nonzero_u64_ref, true_bool_ref, (fixed_bytes_ref _ _ _ Hp), (fixed_bytes_ref _ _ _ Ho).
Qed.

Lemma account_buf_ref a : account_ok a → AccountEncoder_buf a = ref_account_info (sliced_account a []).
Proof.
  intros Hok. rewrite <- account_fields_ref by done. unfold AccountEncoder_buf. do 6 f_equal.
  change (sliced [] (ai_data a)) with (ai_data a). unfold ref_bytes.
  f_equal. by case_bool_decide; case_decide.
Qed.

Lemma data_len_small ds source :
  slices_disjoint ds → len source <= isize_max → 0 <= len (sliced ds source) < 2 ^ 64.
Proof.
  intros Hd Hs. pose proof (sliced_le ds source Hd). pose proof (len_nonneg (sliced ds source)).
  unfold isize_max in *. lia.
Qed.

Lemma data_agrees tag ds source :
  slices_disjoint ds → len source <= isize_max →
  agrees (ref_bytes tag (sliced ds source))
    (if bool_decide (len (sliced ds source) = 0) then 0
     else prost_field_encoded_len tag (len (sliced ds source))).
Proof.
  intros Hd Hs. pose proof (data_len_small ds source Hd Hs) as Hlt.
  destruct (ref_bytes_agrees tag (sliced ds source)) as [H|]; [|lia]. by rewrite wrap64_small in H by done.
Qed.

Lemma account_sliced_len_ok a ds :
  account_ok a → slices_disjoint ds →
  account_sliced_len a ds = Done (wrap64 (len (ref_account_info (sliced_account a ds)))).
Proof.
  intros Hok Hd. destruct (id Hok) as (Hp & Ho & Hsig & Hdata & _). unfold account_sliced_len.
  rewrite get_slice_len_sliced by done. rewrite outcome_bind_done, <- account_fields_ref by done.
  f_equal. apply agrees_concat. unfold PUBKEY_FIELD_ENCODED_LEN, OWNER_FIELD_ENCODED_LEN,
    SIGNATURE_FIELD_ENCODED_LEN. wire_fields; auto using data_agrees with wire.
  all: apply fixed_bytes_agrees; [done|lia].
Qed.

(** The length [pre_encode] reserves is the length of what it writes. *)
Lemma account_encoder_len_ok a :
  account_ok a → AccountEncoder_encoded_len a = wrap64 (len (AccountEncoder_buf a)).
Proof.
  intros (Hp & Ho & Hsig & Hdata & _). apply agrees_concat.
  unfold PUBKEY_FIELD_ENCODED_LEN, OWNER_FIELD_ENCODED_LEN, SIGNATURE_FIELD_ENCODED_LEN.
  wire_fields; auto with wire. all: apply fixed_bytes_agrees; [done|lia].
Qed.

Lemma account_encoded_len_ok a ds :
  account_ok a → slices_disjoint ds →
  account_encoded_len a ds = Done (wrap64 (len (ref_account_info (sliced_account a ds)))).
Proof.
  intros Hok Hd. unfold account_encoded_len. destruct (id Hok) as (_ & _ & _ & _ & Hcell).
  destruct ds as [|r ds]; [|by apply account_sliced_len_ok].
  destruct (ai_pre_encoded a) as [b|]; [|by apply account_sliced_len_ok].
  by rewrite (Hcell b eq_refl), account_buf_ref.
Qed.

(** The bytes do not depend on the cell, and the cell stays the record's own encoding. *)
Lemma account_encode_ok tag a ds :
  account_ok a → slices_disjoint ds →
  ∃ a', account_encode_raw tag a ds = Done (ref_delimited tag (ref_account_info (sliced_account a ds)), a')
    ∧ account_ok a' ∧ forget_account a' = forget_account a.
Proof.
  intros Hok Hd. destruct (id Hok) as (Hp & Ho & Hsig & Hdata & Hcell).
  assert (Hsl : account_sliced_encode tag a ds
    = Done (ref_delimited tag (ref_account_info (sliced_account a ds)))).
  { unfold account_sliced_encode. rewrite account_encoded_len_ok, outcome_bind_done by done.
    rewrite data_ref, outcome_bind_done by done. by rewrite account_fields_ref. }
  destruct ds as [|r ds]; cbn [account_encode_raw].
  - destruct (ai_pre_encoded a) as [b|] eqn:Hb.
    + exists a. rewrite (Hcell b eq_refl), account_buf_ref by done. done.
    + unfold AccountEncoder_pre_encode. rewrite Hb. cbn [once_set set_account_cell ai_pre_encoded].
      eexists. split; [by rewrite <- account_buf_ref by done|]. split; [|done].
      repeat (split; [done|]). cbn. by intros ? [= <-].
  - rewrite Hsl. by exists a.
Qed.

(** ** Transactions *)

Lemma tx_fields_ref t :
  tx_ok t → TransactionEncoder_encode_raw t = ref_transaction_info (as_subscribe_update_transaction t).
Proof.
  intros [Hs _]. unfold TransactionEncoder_encode_raw, ref_transaction_info.
  rewrite nonzero_u64_ref, true_bool_ref, !message_some_ref.
  fold (prost_bytes_encode_raw 1 (ti_signature t)). by rewrite (fixed_bytes_ref _ _ _ Hs).
Qed.

Lemma tx_encoder_len_ok t :
  tx_ok t → TransactionEncoder_encoded_len t = wrap64 (len (TransactionEncoder_encode_raw t)).
Proof.
  intros [Hs _]. apply agrees_concat. wire_fields; auto with wire.
  apply (fixed_bytes_agrees 1); [done|lia].
Qed.

Lemma tx_encoded_len_ok t :
  tx_ok t → tx_encoded_len t = wrap64 (len (ref_transaction_info (as_subscribe_update_transaction t))).
Proof.
  intros Hok. rewrite <- tx_fields_ref by done. unfold tx_encoded_len.
  destruct (ti_pre_encoded t) as [b|] eqn:Hb; [by rewrite (proj2 Hok b Hb)|].
  apply agrees_concat. wire_fields; auto with wire. apply agrees_bytes.
Qed.

Lemma tx_encode_ok tag t :
  tx_ok t →
  (tx_encode_raw tag t).1 = ref_delimited tag (ref_transaction_info (as_subscribe_update_transaction t))
  ∧ tx_ok (tx_encode_raw tag t).2 ∧ forget_tx (tx_encode_raw tag t).2 = forget_tx t.
Proof.
  intros Hok. destruct (id Hok) as [Hs Hcell]. unfold tx_encode_raw.
  destruct (ti_pre_encoded t) as [b|] eqn:Hb.
  - cbn [fst snd]. by rewrite (Hcell b eq_refl), <- tx_fields_ref.
  - unfold TransactionEncoder_pre_encode. rewrite Hb. cbn [once_set set_tx_cell ti_pre_encoded fst snd].
    split; [by rewrite <- tx_fields_ref by done|]. split; [|done].
    split; [done|]. cbn. by intros ? [= <-].
Qed.

(** ** Slots, statuses, entries *)

Lemma slot_encode_ok m :
  FilteredUpdateSlot_encode_raw m = ref_slot (slot_of m) ∧
  FilteredUpdateSlot_encoded_len m = wrap64 (len (ref_slot (slot_of m))).
Proof.
  assert (FilteredUpdateSlot_encode_raw m = ref_slot (slot_of m)) as Heq.
  { unfold FilteredUpdateSlot_encode_raw, ref_slot, slot_of. cbn [ss_slot ss_parent ss_status ss_dead_error].
    by rewrite nonzero_u64_ref, opt_u64_ref, enum_ref, opt_string_ref. }
  split; [done|]. rewrite <- Heq. apply agrees_concat. wire_fields; auto with wire.
Qed.

Lemma status_encode_ok m :
  tx_ok (mt_transaction m) →
  let r := ref_transaction_status (mkSubscribeUpdateTransactionStatus (mt_slot m)
    (ti_signature (mt_transaction m)) (ti_is_vote (mt_transaction m)) (ti_index (mt_transaction m))
    (meta_err (ti_meta (mt_transaction m)))) in
  FilteredUpdateTransactionStatus_encode_raw m = r ∧
  FilteredUpdateTransactionStatus_encoded_len m = wrap64 (len r).
Proof.
  intros [Hs _] r.
  assert (FilteredUpdateTransactionStatus_encode_raw m = r) as Heq.
  { unfold r, FilteredUpdateTransactionStatus_encode_raw, ref_transaction_status.
    cbn [sts_slot sts_signature sts_is_vote sts_index sts_err].
    by rewrite !nonzero_u64_ref, true_bool_ref, (fixed_bytes_ref _ _ _ Hs), (message_ref 5). }
  split; [done|]. rewrite <- Heq. apply agrees_concat. wire_fields; auto with wire.
Qed.

Lemma entry_encode_ok e :
  len (me_hash e) = 32 →
  entry_encode_raw e = ref_entry (as_subscribe_update_entry e) ∧
  entry_encoded_len e = wrap64 (len (ref_entry (as_subscribe_update_entry e))).
Proof.
  intros Hh.
  assert (entry_encode_raw e = ref_entry (as_subscribe_update_entry e)) as Heq.
  { unfold entry_encode_raw, ref_entry, as_subscribe_update_entry. cbn [se_slot se_index se_num_hashes
      se_hash se_executed_transaction_count se_starting_transaction_index].
    by rewrite !nonzero_u64_ref, (fixed_bytes_ref _ _ _ Hh). }
  split; [done|]. rewrite <- Heq. apply agrees_concat. wire_fields; auto with wire.
Qed.

(** ** Loops *)

Lemma encode_each_ok {A R} (f : A → outcome (bytes * A)) (ref : A → bytes)
    (ok : A → Prop) (forget : A → R) l :
  (∀ a, ok a → ∃ a', f a = Done (ref a, a') ∧ ok a' ∧ forget a' = forget a) →
  Forall ok l →
  ∃ l', encode_each f l = Done (concat (ref <$> l), l') ∧ Forall ok l' ∧ forget <$> l' = forget <$> l.
Proof.
  intros Hf. induction 1 as [|a l Ha _ (l' & IH & Hok & Hfg)]; simpl; [by exists []|].
  destruct (Hf a Ha) as (a' & Hfa & Ha' & Hfa'). rewrite Hfa. simpl. rewrite IH. simpl.
  exists (a' :: l'). split; [done|]. split; [by constructor|]. csimpl. by rewrite Hfa', Hfg.
Qed.

Lemma lens_each_ok {A} (f : A → outcome Z) (g : A → Z) (ok : A → Prop) l :
  (∀ a, ok a → f a = Done (g a)) → Forall ok l → lens_each f l = Done (g <$> l).
Proof.
  intros Hf. induction 1 as [|a l Ha _ IH]; simpl; [done|]. rewrite Hf by done. simpl.
  by rewrite IH.
Qed.

Lemma as_accounts_sliced accounts ds :
  Forall (λ a, account_ok (ma_account a)) accounts → slices_disjoint ds →
  as_subscribe_update_accounts accounts ds = Done ((λ a, sliced_account (ma_account a) ds) <$> accounts).
Proof.
  intros Hok Hd. induction Hok as [|a l Ha _ IH]; simpl; [done|].
  rewrite as_account_sliced by done. simpl. by rewrite IH.
Qed.

(** ** Blocks *)

Definition block_update (m : FilteredUpdateBlock) : SubscribeUpdateBlock :=
  let meta := fub_meta m in
  mkSubscribeUpdateBlock (bm_slot meta) (bm_blockhash meta) (bm_rewards meta) (bm_block_time meta)
    (bm_block_height meta) (bm_parent_slot meta) (bm_parent_blockhash meta)
    (bm_executed_transaction_count meta)
    ((λ tx, as_subscribe_update_transaction (mt_transaction tx)) <$> fub_transactions m)
    (fub_updated_account_count m)
    ((λ a, sliced_account (ma_account a) (fub_accounts_data_slice m)) <$> fub_accounts m)
    (bm_entries_count meta) (as_subscribe_update_entry <$> fub_entries m).

Lemma block_encoded_len_ok m :
  oneof_ok (FuBlock m) →
  FilteredUpdateBlock_encoded_len m = Done (wrap64 (len (ref_block (block_update m)))).
Proof.
  intros (Htx & Hacc & Hd & Hent). unfold FilteredUpdateBlock_encoded_len.
  rewrite (lens_each_ok _ (λ acc, wrap64 (len (ref_account_info (sliced_account (ma_account acc)
    (fub_accounts_data_slice m))))) (λ a, account_ok (ma_account a)))
    by (done || (intros; by apply account_encoded_len_ok)).
  rewrite outcome_bind_done. f_equal.
  assert ((λ tx, tx_encoded_len (mt_transaction tx)) <$> fub_transactions m =
    (λ c, wrap64 (len c)) <$> (ref_transaction_info <$> sb_transactions (block_update m))) as ->.
  { cbn [block_update sb_transactions]. rewrite <- !list_fmap_compose. apply list_fmap_ext.
    intros i t Ht. rewrite Forall_lookup in Htx. apply tx_encoded_len_ok. by eapply Htx. }
  assert (entry_encoded_len <$> fub_entries m =
    (λ c, wrap64 (len c)) <$> (ref_entry <$> sb_entries (block_update m))) as ->.
  { cbn [block_update sb_entries]. rewrite <- !list_fmap_compose. apply list_fmap_ext.
    intros i e He. rewrite Forall_lookup in Hent. apply entry_encode_ok. by eapply Hent. }
  assert ((λ acc, wrap64 (len (ref_account_info (sliced_account (ma_account acc)
      (fub_accounts_data_slice m))))) <$> fub_accounts m =
    (λ c, wrap64 (len c)) <$> (ref_account_info <$> sb_accounts (block_update m))) as ->.
  { cbn [block_update sb_accounts]. by rewrite <- !list_fmap_compose. }
  apply agrees_concat. unfold block_update. cbn [sb_slot sb_blockhash sb_rewards sb_block_time
    sb_block_height sb_parent_slot sb_parent_blockhash sb_executed_transaction_count sb_transactions
    sb_updated_account_count sb_accounts sb_entries_count sb_entries].
  rewrite <- !nonzero_u64_ref, <- !nonempty_string_ref, <- !message_ref.
  wire_fields; auto with wire; apply agrees_option; intros; apply agrees_message_field.
Qed.

Lemma block_encode_ok m :
  oneof_ok (FuBlock m) →
  ∃ m', FilteredUpdateBlock_encode_raw m = Done (ref_block (block_update m), m')
    ∧ oneof_ok (FuBlock m') ∧ forget_oneof (FuBlock m') = forget_oneof (FuBlock m).
Proof.
  intros (Htx & Hacc & Hd & Hent). unfold FilteredUpdateBlock_encode_raw.
  destruct (encode_each_ok (λ tx, let '(b, info) := tx_encode_raw 6 (mt_transaction tx) in
      Done (b, set_mt_transaction tx info))
    (λ tx, ref_delimited 6 (ref_transaction_info (as_subscribe_update_transaction (mt_transaction tx))))
    (λ t, tx_ok (mt_transaction t)) (λ t, set_mt_transaction t (forget_tx (mt_transaction t)))
    (fub_transactions m)) as (txs & -> & Htx' & Hftx); [|done|].
  { intros t Ht. destruct (tx_encode_ok 6 (mt_transaction t) Ht) as (Hb & Hok & Hf).
    destruct (tx_encode_raw 6 (mt_transaction t)) as [b info]. cbn [fst snd] in *. subst b.
    eexists. split; [done|]. split; [done|]. unfold set_mt_transaction. cbn. by rewrite Hf. }
  rewrite outcome_bind_done.
  destruct (encode_each_ok (λ acc,
      '(b, info) ← account_encode_raw 11 (ma_account acc) (fub_accounts_data_slice m);
      Done (b, set_ma_account acc info))
    (λ a, ref_delimited 11 (ref_account_info (sliced_account (ma_account a) (fub_accounts_data_slice m))))
    (λ a, account_ok (ma_account a)) (λ a, set_ma_account a (forget_account (ma_account a)))
    (fub_accounts m)) as (accs & -> & Hacc' & Hfacc); [|done|].
  { intros a Ha. destruct (account_encode_ok 11 (ma_account a) _ Ha Hd) as (a' & -> & Hok & Hf).
    rewrite outcome_bind_done. eexists. split; [done|]. split; [done|].
    unfold set_ma_account. cbn. by rewrite Hf. }
  rewrite outcome_bind_done. eexists. split; [|split].
  - apply (f_equal Done), (f_equal2 pair); [|reflexivity]. unfold ref_block, block_update. cbn [sb_slot sb_blockhash sb_rewards
      sb_block_time sb_block_height sb_parent_slot sb_parent_blockhash sb_executed_transaction_count
      sb_transactions sb_updated_account_count sb_accounts sb_entries_count sb_entries].
    rewrite !nonzero_u64_ref, !nonempty_string_ref, (message_ref 3), (message_ref 4), (message_ref 5).
    unfold ref_repeated. rewrite <- !list_fmap_compose. do 15 f_equal.
    apply list_fmap_ext. intros i e He. rewrite Forall_lookup in Hent. unfold compose.
    destruct (entry_encode_ok e) as [-> ->]; [by eapply Hent|done].
  - done.
  - cbn. by rewrite Hftx, Hfacc.
Qed.

(** ** Updates *)

(** [message::encode] of a message that writes [raw] and counts it. *)
Lemma embedded tag n raw :
  n = wrap64 (len raw) →
  message_encode tag n raw = ref_delimited tag raw ∧
  wrap64 (message_encoded_len tag n) = wrap64 (len (ref_delimited tag raw)).
Proof.
  intros ->. rewrite message_delimited. split; [done|]. rewrite <- message_delimited.
  by apply agrees_message_encode.
Qed.

Lemma embedded_generated `{ProstMessageLaw A} tag (m : A) :
  message_field tag m = ref_delimited tag (gen_encode_raw m) ∧
  wrap64 (message_field_len tag m) = wrap64 (len (ref_delimited tag (gen_encode_raw m))).
Proof. rewrite <- message_field_ref. split; [done|]. apply agrees_message_field. Qed.

Lemma delimited_agrees tag raw :
  agrees (ref_delimited tag raw) (prost_field_encoded_len tag (wrap64 (len raw))).
Proof. by apply agrees_field. Qed.

Lemma empty_delimited tag : prost_encode_key tag wt_len ++ prost_encode_varint 0 = ref_delimited tag [].
Proof. unfold ref_delimited. by rewrite app_nil_r. Qed.

Lemma empty_agrees tag :
  agrees (ref_delimited tag []) (usize_sum [key_len tag; encoded_len_varint 0]).
Proof.
  pose proof (delimited_agrees tag []) as H. unfold prost_field_encoded_len, usize_sum in *.
  unfold agrees in *. rewrite <- H. by rewrite !wrap64_idem.
Qed.

(** One update: the bytes, the length and the cells after encoding. *)
Definition encodes (m : FilteredUpdateOneof) (r : UpdateOneof) : Prop :=
  update_oneof_of m = Done r ∧
  (∃ n, FilteredUpdateOneof_encoded_len m = Done n ∧ wrap64 n = wrap64 (len (ref_update_oneof r))) ∧
  ∃ m', FilteredUpdateOneof_encode_raw m = Done (ref_update_oneof r, m') ∧
    oneof_ok m' ∧ forget_oneof m' = forget_oneof m.

Lemma account_update_encodes m :
  oneof_ok (FuAccount m) → ∃ r, encodes (FuAccount m) r.
Proof.
  intros [Hok Hd]. set (a := ma_account (fua_account m)) in *.
  set (r := mkSubscribeUpdateAccount (Some (sliced_account a (fua_data_slice m)))
    (ma_slot (fua_account m)) (ma_is_startup (fua_account m))).
  assert (FilteredUpdateAccount_encoded_len m = Done (wrap64 (len (ref_account r)))) as Hlen.
  { unfold FilteredUpdateAccount_encoded_len. fold a.
    rewrite account_encoded_len_ok, outcome_bind_done by done. f_equal.
    unfold ref_account, r. cbn [sa_account sa_slot sa_is_startup].
    rewrite <- nonzero_u64_ref, <- true_bool_ref. apply agrees_concat.
    wire_fields; auto with wire. apply delimited_agrees. }
  destruct (account_encode_ok 1 a _ Hok Hd) as (a' & Ha & Hok' & Hf).
  assert (FilteredUpdateAccount_encode_raw m = Done (ref_account r,
    {| fua_account := set_ma_account (fua_account m) a'; fua_data_slice := fua_data_slice m |})) as Henc.
  { unfold FilteredUpdateAccount_encode_raw. fold a. rewrite Ha, outcome_bind_done.
    by rewrite nonzero_u64_ref, true_bool_ref. }
  destruct (embedded 2 _ (ref_account r) eq_refl) as [Hm Hml].
  exists (UoAccount r). split; [|split].
  - cbn [update_oneof_of]. fold a. by rewrite as_account_sliced.
  - cbn [FilteredUpdateOneof_encoded_len]. rewrite Hlen, outcome_bind_done. by eexists.
  - cbn [FilteredUpdateOneof_encode_raw]. rewrite Hlen, outcome_bind_done, Henc, outcome_bind_done, Hm.
    eexists. split; [done|]. split; [done|]. cbn. unfold set_ma_account. cbn. by rewrite Hf.
Qed.

Lemma transaction_update_encodes m :
  oneof_ok (FuTransaction m) → ∃ r, encodes (FuTransaction m) r.
Proof.
  intros Hok. set (t := mt_transaction (fut_transaction m)) in *.
  set (r := mkSubscribeUpdateTransaction (Some (as_subscribe_update_transaction t)) (fut_slot m)).
  assert (FilteredUpdateTransaction_encoded_len m = wrap64 (len (ref_transaction r))) as Hlen.
  { unfold FilteredUpdateTransaction_encoded_len. fold t. rewrite tx_encoded_len_ok by done.
    unfold ref_transaction, r. cbn [st_transaction st_slot]. rewrite <- nonzero_u64_ref.
    apply agrees_concat. wire_fields; auto with wire. apply delimited_agrees. }
  destruct (tx_encode_ok 1 t Hok) as (Hb & Hok' & Hf).
  destruct (embedded 4 _ (ref_transaction r) eq_refl) as [Hm Hml].
  exists (UoTransaction r). split; [done|split].
  - cbn [FilteredUpdateOneof_encoded_len]. rewrite Hlen. by eexists.
  - cbn [FilteredUpdateOneof_encode_raw]. rewrite Hlen.
    unfold FilteredUpdateTransaction_encode_raw. fold t.
    destruct (tx_encode_raw 1 t) as [b t']. cbn [fst snd] in *. subst b.
    rewrite nonzero_u64_ref. cbn [ref_update_oneof]. rewrite <- Hm. eexists. split; [done|]. split; [done|].
    cbn. unfold set_mt_transaction. cbn. by rewrite Hf.
Qed.

Lemma block_update_encodes m : oneof_ok (FuBlock m) → ∃ r, encodes (FuBlock m) r.
Proof.
  intros Hok. destruct (id Hok) as (_ & Hacc & Hd & _).
  destruct (embedded 5 _ (ref_block (block_update m)) eq_refl) as [Hm Hml].
  destruct (block_encode_ok m Hok) as (m' & Henc & Hok' & Hf).
  exists (UoBlock (block_update m)). split; [|split].
  - cbn [update_oneof_of]. by rewrite as_accounts_sliced.
  - cbn [FilteredUpdateOneof_encoded_len]. rewrite block_encoded_len_ok, outcome_bind_done by done.
    by eexists.
  - cbn [FilteredUpdateOneof_encode_raw]. rewrite block_encoded_len_ok, outcome_bind_done by done.
    rewrite Henc, outcome_bind_done, Hm. by eexists.
Qed.

Lemma update_encodes m : oneof_ok m → ∃ r, encodes m r.
Proof.
  intros Hok. destruct m as [m|m|m|m|m| |id|m|m].
  - by apply account_update_encodes.
  - destruct (slot_encode_ok m) as [Hs Hl]. destruct (embedded 3 _ (ref_slot (slot_of m)) eq_refl) as [Hm Hml].
    exists (UoSlot (slot_of m)). split; [done|]. cbn [FilteredUpdateOneof_encoded_len
      FilteredUpdateOneof_encode_raw ref_update_oneof]. rewrite Hs, Hl, Hm. split; by eexists.
  - by apply transaction_update_encodes.
  - destruct (status_encode_ok m Hok) as [Hs Hl].
    eexists (UoTransactionStatus _). split; [done|]. cbn [FilteredUpdateOneof_encoded_len
      FilteredUpdateOneof_encode_raw ref_update_oneof]. rewrite Hs, Hl.
    destruct (embedded 10 _ (ref_transaction_status (mkSubscribeUpdateTransactionStatus (mt_slot m)
      (ti_signature (mt_transaction m)) (ti_is_vote (mt_transaction m)) (ti_index (mt_transaction m))
      (meta_err (ti_meta (mt_transaction m))))) eq_refl) as [-> Hml]. split; by eexists.
  - by apply block_update_encodes.
  - exists UoPing. split; [done|]. split; [|].
    + eexists. split; [done|]. apply empty_agrees.
    + cbn [FilteredUpdateOneof_encode_raw ref_update_oneof]. rewrite empty_delimited. by eexists.
  - exists (UoPong id). destruct (@embedded_generated _ gen_pong pong_law 9 id) as [Hm Hl].
    split; [done|]. cbn [FilteredUpdateOneof_encoded_len FilteredUpdateOneof_encode_raw
      ref_update_oneof]. rewrite Hm. split; by eexists.
  - exists (UoBlockMeta (block_meta m)). destruct (embedded_generated 7 (block_meta m)) as [Hm Hl].
    split; [done|]. cbn [FilteredUpdateOneof_encoded_len FilteredUpdateOneof_encode_raw
      ref_update_oneof]. rewrite Hm. split; by eexists.
  - destruct (entry_encode_ok m Hok) as [Hs Hl].
    destruct (embedded 8 _ (ref_entry (as_subscribe_update_entry m)) eq_refl) as [Hm Hml].
    exists (UoEntry (as_subscribe_update_entry m)). split; [done|].
    cbn [FilteredUpdateOneof_encoded_len FilteredUpdateOneof_encode_raw ref_update_oneof].
    rewrite Hs, Hl, Hm. split; by eexists.
Qed.

Lemma filters_encode_ok filters :
  encode_filters filters = ref_repeated 1 (string_bytes <$> (fname_text <$> filters)) ∧
  agrees (ref_repeated 1 (string_bytes <$> (fname_text <$> filters))) (filters_encoded_len filters).
Proof.
  unfold encode_filters, filters_encoded_len, ref_repeated. split.
  - f_equal. by rewrite <- !list_fmap_compose.
  - assert ((λ filter, wrap64 (len (string_bytes (fname_text filter)))) <$> filters
      = (λ c, wrap64 (len c)) <$> (string_bytes <$> (fname_text <$> filters))) as ->
      by by rewrite <- !list_fmap_compose.
    apply agrees_repeated.
Qed.

(** The agreement of the hand-written encoders with the schema. *)
Lemma filtered_update_encode_ok u :
  oneof_ok (fu_message u) →
  ∃ s u', as_subscribe_update u = Done s ∧
    FilteredUpdate_encoded_len u = Done (wrap64 (len (ref_subscribe_update s))) ∧
    FilteredUpdate_encode_raw u = Done (ref_subscribe_update s, u') ∧
    oneof_ok (fu_message u') ∧ fu_filters u' = fu_filters u ∧ fu_created_at u' = fu_created_at u ∧
    forget_oneof (fu_message u') = forget_oneof (fu_message u).
Proof.
  intros Hok. destruct (update_encodes _ Hok) as (r & Hr & (n & Hn & Hl) & m' & Henc & Hok' & Hf).
  destruct (filters_encode_ok (fu_filters u)) as [Hfe Hfl].
  eexists _, _. unfold as_subscribe_update. rewrite Hr, outcome_bind_done. split; [done|].
  unfold ref_subscribe_update. cbn [su_filters su_update_oneof su_created_at from_option].
  unfold FilteredUpdate_encoded_len, FilteredUpdate_encode_raw.
  rewrite Hn, Henc, !outcome_bind_done, Hfe, <- message_some_ref. split; [|done].
  f_equal. apply agrees_concat. wire_fields; auto with wire.
Qed.

(** ** Deshred updates *)

Lemma deshred_tx_encode_ok tag t :
  len (di_signature t) = 64 →
  deshred_tx_encode_raw tag t = ref_delimited tag (ref_deshred_info (deshred_info_of t)) ∧
  deshred_tx_encoded_len t = wrap64 (len (ref_deshred_info (deshred_info_of t))).
Proof.
  intros Hs.
  assert (concat [prost_bytes_encode_raw 1 (di_signature t); true_bool 2 (di_is_vote t);
     message_field 3 (di_transaction t);
     concat (prost_bytes_encode_raw 4 <$> di_loaded_writable_addresses t);
     concat (prost_bytes_encode_raw 5 <$> di_loaded_readonly_addresses t);
     nonzero_u32 6 (di_completed_data_set_starting_shred_index t);
     nonzero_u32 7 (di_completed_data_set_ending_shred_index_exclusive t)]
    = ref_deshred_info (deshred_info_of t)) as Heq.
  { unfold ref_deshred_info, deshred_info_of. cbn [sdi_signature sdi_is_vote sdi_transaction
      sdi_loaded_writable_addresses sdi_loaded_readonly_addresses
      sdi_completed_data_set_starting_shred_index sdi_completed_data_set_ending_shred_index_exclusive].
    by rewrite !nonzero_u32_ref, true_bool_ref, (message_some_ref 3), (fixed_bytes_ref _ _ _ Hs). }
  assert (deshred_tx_encoded_len t = wrap64 (len (ref_deshred_info (deshred_info_of t)))) as Hl.
  { rewrite <- Heq. apply agrees_concat. wire_fields; auto with wire; try apply agrees_bytes;
      apply agrees_repeated. }
  split; [|done]. unfold deshred_tx_encode_raw. by rewrite Hl, Heq.
Qed.

Definition deshred_ok (u : FilteredUpdateDeshred) : Prop :=
  match fud_message u with
  | FudDeshredTransaction m => len (di_signature (md_transaction m)) = 64
  | _ => True
  end.

Lemma deshred_update_encode_ok u :
  deshred_ok u →
  FilteredUpdateDeshred_encode_raw u = ref_deshred_update u ∧
  FilteredUpdateDeshred_encoded_len u = wrap64 (len (ref_deshred_update u)).
Proof.
  intros Hok. destruct (filters_encode_ok (fud_filters u)) as [Hfe Hfl].
  unfold FilteredUpdateDeshred_encode_raw, FilteredUpdateDeshred_encoded_len, ref_deshred_update.
  rewrite Hfe, <- message_field_ref. unfold deshred_ok in Hok.
  enough (∃ b, FilteredUpdateDeshredOneof_encode_raw (fud_message u) = b ∧
    agrees b (FilteredUpdateDeshredOneof_encoded_len (fud_message u)) ∧
    match fud_message u with
    | FudDeshredTransaction m => ref_delimited 2 (concat
        [ref_delimited 1 (ref_deshred_info (deshred_info_of (md_transaction m))); ref_uint 2 (md_slot m)])
    | FudPing => ref_delimited 3 []
    | FudPong id => ref_delimited 4 (@gen_encode_raw _ gen_pong id)
    | FudSlot m => ref_delimited 6 (ref_slot (slot_of m))
    end = b) as (b & -> & Hb & ->).
  { split; [done|]. apply agrees_concat. wire_fields; auto with wire. }
  destruct (fud_message u) as [m| |id|m]; cbn [FilteredUpdateDeshredOneof_encode_raw
    FilteredUpdateDeshredOneof_encoded_len]; eexists; split; [done| |done| |done| |done|].
  - destruct (deshred_tx_encode_ok 1 _ Hok) as [Ht Htl].
    unfold FilteredUpdateDeshredTransaction_encode_raw, FilteredUpdateDeshredTransaction_encoded_len.
    rewrite Ht, Htl, nonzero_u64_ref.
    set (raw := concat [ref_delimited 1 (ref_deshred_info (deshred_info_of (md_transaction m)));
      ref_uint 2 (md_slot m)]).
    assert (usize_sum [prost_field_encoded_len 1 (wrap64 (len (ref_deshred_info
      (deshred_info_of (md_transaction m))))); nonzero_u64_len 2 (md_slot m)] = wrap64 (len raw)) as ->.
    { apply agrees_concat. rewrite <- nonzero_u64_ref. wire_fields; auto with wire. }
    split; [by apply agrees_message_encode|]. by rewrite message_delimited.
  - rewrite empty_delimited. split; [apply empty_agrees|done].
  - destruct (@embedded_generated _ gen_pong pong_law 4 id) as [Hm Hl]. rewrite Hm. split; [exact Hl|done].
  - destruct (slot_encode_ok m) as [-> ->]. split; [by apply agrees_message_encode|].
    by rewrite message_delimited.
Qed.

(** What an update stands for does not depend on its cells. *)
Lemma update_oneof_forget m : update_oneof_of (forget_oneof m) = update_oneof_of m.
Proof.
  destruct m as [m|m|m|m|m| |id|m|m]; try done. cbn [forget_oneof update_oneof_of fub_meta fub_accounts
    fub_accounts_data_slice fub_transactions fub_updated_account_count fub_entries].
  assert (∀ ds l, as_subscribe_update_accounts
      ((λ a, set_ma_account a (forget_account (ma_account a))) <$> l) ds
    = as_subscribe_update_accounts l ds) as ->.
  { intros ds l. induction l as [|a l IH]; csimpl; [done|]. by rewrite IH. }
  by rewrite <- list_fmap_compose.
Qed.

(** C1. The encoder writes the protobuf message the update stands for, and
    counts it. For every well-formed update, [as_subscribe_update] completes
    with some message, and for every state of the shared [pre_encoded] cells
    (the update encoded before or not, alone or inside a block) [encode_raw]
    writes exactly the proto3 encoding of that message by the schema,
    [encoded_len] is the number of bytes written (as a [usize]), nothing
    panics, and the cells afterwards again hold only the record's own
    encoding. *)
Theorem filtered_update_encode_spec u :
  oneof_ok (fu_message u) →
  ∃ s, as_subscribe_update u = Done s ∧
    ∀ m, oneof_ok m → forget_oneof m = forget_oneof (fu_message u) →
      let v := mkFilteredUpdate (fu_filters u) m (fu_created_at u) in
      FilteredUpdate_encoded_len v = Done (wrap64 (len (ref_subscribe_update s))) ∧
      ∃ v', FilteredUpdate_encode_raw v = Done (ref_subscribe_update s, v') ∧
        oneof_ok (fu_message v') ∧ forget_oneof (fu_message v') = forget_oneof (fu_message u).
Proof.
  intros Hok. destruct (filtered_update_encode_ok u Hok) as (s & _ & Hs & _).
  exists s. split; [done|]. intros m Hm Hf v.
  destruct (filtered_update_encode_ok v Hm) as (s' & v' & Hs' & Hl & Henc & Hok' & _ & _ & Hf').
  assert (s' = s) as ->.
  { unfold as_subscribe_update in *. cbn [fu_message fu_filters fu_created_at v] in *.
    rewrite <- update_oneof_forget, Hf, update_oneof_forget in Hs'. congruence. }
  split; [done|]. exists v'. split; [done|]. split; [done|]. cbn [v fu_message] in *. congruence.
Qed.

(** Deshred updates are written as the schema says, and counted. *)
Theorem deshred_update_encode_spec u :
  deshred_ok u →
  FilteredUpdateDeshred_encode_raw u = ref_deshred_update u ∧
  FilteredUpdateDeshred_encoded_len u = wrap64 (len (ref_deshred_update u)).
Proof. apply deshred_update_encode_ok. Qed.
End spec.

(** ** A concrete account update, on the protobuf wire *)

Section witnesses.
#[local] Existing Instance wire_externals.
#[local] Existing Instance wire_prost.
#[local] Existing Instance wire_prost_laws.

#[local] Instance demo_generated : Generated := {|
  gen_timestamp := message_of_bytes (λ t, ref_uint 1 (ts_seconds t) ++ ref_uint 2 (ts_nanos t));
  gen_transaction := message_of_bytes (λ t, ref_repeated 1 (tx_signatures t));
  gen_meta := message_of_bytes (λ m, ref_uint 2 (meta_fee m));
  gen_rewards := message_of_bytes (λ r, ref_message 2 (ref_uint 1 <$> prws_num_partitions r));
  gen_block_meta := message_of_bytes (λ m, ref_uint 1 (sbm_slot m) ++ ref_string 2 (sbm_blockhash m));
  gen_error := message_of_bytes (ref_bytes 1);
  gen_unix_timestamp := message_of_bytes (ref_uint 1);
  gen_block_height := message_of_bytes (ref_uint 1);
  gen_pong := message_of_bytes (ref_enum 1)
|}.

#[local] Instance demo_generated_laws : GeneratedLaws.
Proof. by split. Qed.

Definition demo_account_info (cell : option bytes) : MessageAccountInfo :=
  mkMessageAccountInfo (replicate 32 Byte.x07) 300 (replicate 32 Byte.x08) true 0
    [Byte.x01; Byte.x02; Byte.x03] 5 (Some (replicate 64 Byte.x09)) cell.

Definition demo_update (ds : FilterAccountsDataSlice) (cell : option bytes) : FilteredUpdate :=
  mkFilteredUpdate [mkFilterName 0 "a"]
    (FuAccount (mkFilteredUpdateAccount
      (mkMessageAccount (demo_account_info cell) 9 false (mkTimestamp 1 2)) ds))
    (mkTimestamp 1 2).

(** The first bytes: the filter name, then the account message (two length
    prefixes), then its key. *)
Example demo_update_bytes :
  (λ r, take 8 r.1) <$> FilteredUpdate_encode_raw (demo_update [] None)
  = Done (bytes_of_Z <$> [10; 1; 97; 18; 151; 1; 10; 146])%Z.
Proof. by vm_compute. Qed.

Lemma demo_update_ok cell :
  (∀ b, cell = Some b → b = AccountEncoder_buf (demo_account_info cell)) →
  oneof_ok (fu_message (demo_update [] cell)).
Proof.
  intros Hc. split; [|done]. split; [done|]. split; [done|]. split; [by intros ? [= <-]|].
  split; [by vm_compute|]. exact Hc.
Qed.

Lemma filtered_update_encode_spec_witness :
  ∃ s, as_subscribe_update (demo_update [] None) = Done s ∧
    ∃ v', FilteredUpdate_encode_raw (demo_update [] (Some (AccountEncoder_buf (demo_account_info None))))
      = Done (ref_subscribe_update s, v').
Proof.
  destruct (filtered_update_encode_spec (demo_update [] None)) as (s & Hs & Hall).
  - apply demo_update_ok. discriminate.
  - exists s. split; [exact Hs|].
    destruct (Hall (fu_message (demo_update [] (Some (AccountEncoder_buf (demo_account_info None))))))
      as (_ & v' & Hv & _).
    + apply demo_update_ok. intros b Hb. injection Hb as <-. reflexivity.
    + reflexivity.
    + exists v'. exact Hv.
Defined.

Definition demo_deshred_update : FilteredUpdateDeshred :=
  mkFilteredUpdateDeshred [mkFilterName 0 "d"]
    (FudDeshredTransaction (mkMessageDeshredTransaction
      (mkMessageDeshredTransactionInfo (replicate 64 Byte.x05) true (mkTransaction [[Byte.x01]] None) ∅
         [replicate 32 Byte.x06] [] 3 4) 8 (mkTimestamp 0 0)))
    (mkTimestamp 0 0).

Lemma deshred_update_encode_spec_witness :
  FilteredUpdateDeshred_encode_raw demo_deshred_update = ref_deshred_update demo_deshred_update.
Proof.
  apply (deshred_update_encode_spec demo_deshred_update). reflexivity.
Defined.
End witnesses.
