(* ===== verification/Convert.v ===== *)
(** * plugin/convert_to.rs and plugin/convert_from.rs

    The conversions between the Solana types of a transaction and its metadata
    (third-party structs, as records in the module [solana]) and the protobuf
    messages of Storage.v. Converting back fails with a message naming the
    first field that does not fit. Numbers keep their width: [u8] is 0..255,
    [u16] 0..65535. [wincode] (the serialization of [TransactionError]) is the
    parameter [Wincode]. *)

From S2P Require Import Prelude Storage Message SubscribeUpdate.

Set Default Goal Selector "!".

Local Open Scope Z_scope.

(** [wincode::serialize] (an [expect] in the code) and [wincode::deserialize]. *)
Class Wincode := {
  TransactionError : Type;
  wincode_serialize : TransactionError → option bytes;
  wincode_deserialize : bytes → option TransactionError
}.

Class WincodeLaws {W : Wincode} : Prop := {
  wincode_roundtrip e : ∃ b, wincode_serialize e = Some b ∧ wincode_deserialize b = Some e
}.

(** ** The standard library: decimal numbers *)

(** [to_string] of an unsigned number; [fuel] bounds the digits. *)
Fixpoint decimal_digits (fuel : nat) (n : Z) (acc : string) : string :=
  match fuel with
  | O => acc
  | S fuel =>
      let acc := String (Ascii.ascii_of_nat (Z.to_nat (48 + n mod 10))) acc in
      if n <? 10 then acc else decimal_digits fuel (n / 10) acc
  end.

Definition decimal (n : Z) : string := decimal_digits 20 n "".

(** [to_string] of a signed number. *)
Definition signed_decimal (n : Z) : string := if Z.ltb n 0 then "-" +:+ decimal (- n) else decimal n.

Definition digit_value (c : Ascii.ascii) : option Z :=
  let v := Z.of_nat (Ascii.nat_of_ascii c) - 48 in
  if (0 <=? v) && (v <=? 9) then Some v else None.

Fixpoint parse_digits (max acc : Z) (s : string) : option Z :=
  match s with
  | EmptyString => Some acc
  | String c s =>
      d ← digit_value c;
      let acc := acc * 10 + d in
      if acc <=? max then parse_digits max acc s else None
  end.

(** [str::parse] of an unsigned number: an optional sign, then at least one digit. *)
Definition parse_uint (max : Z) (s : string) : option Z :=
  match s with
  | EmptyString => None
  | String c rest =>
      if bool_decide (Ascii.nat_of_ascii c = 43%nat)
      then match rest with EmptyString => None | _ => parse_digits max 0 rest end
      else parse_digits max 0 s
  end.

Definition u8_max : Z := 255.
Definition u16_max : Z := 65535.

(** [u8::try_from(u32)], mapped to an error. *)
Definition u8_try_from (err : string) (z : Z) : result string Z :=
  if (0 <=? z) && (z <=? u8_max) then Ok z else Err err.

Definition ok_or {E A} (err : E) (o : option A) : result E A :=
  match o with Some a => Ok a | None => Err err end.

Definition is_none {A} (o : option A) : bool := match o with Some _ => false | None => true end.

(** ** The Solana types *)

Module solana.
Record MessageHeader := mkMessageHeader {
  num_required_signatures : Z;
  num_readonly_signed_accounts : Z;
  num_readonly_unsigned_accounts : Z
}.

Record CompiledInstruction := mkCompiledInstruction {
  program_id_index : Z;
  accounts : bytes;
  data : bytes
}.

Record MessageAddressTableLookup := mkMessageAddressTableLookup {
  account_key : Pubkey;
  writable_indexes : bytes;
  readonly_indexes : bytes
}.

Inductive VersionedMessage :=
| Legacy (header : MessageHeader) (account_keys : list Pubkey) (recent_blockhash : bytes)
    (instructions : list CompiledInstruction)
| V0 (header : MessageHeader) (account_keys : list Pubkey) (recent_blockhash : bytes)
    (instructions : list CompiledInstruction) (lookups : list MessageAddressTableLookup)
| V1 (header : MessageHeader) (config : TransactionConfig) (lifetime_specifier : bytes)
    (account_keys : list Pubkey) (instructions : list CompiledInstruction).

Record VersionedTransaction := mkVersionedTransaction {
  signatures : list Signature;
  message : VersionedMessage
}.

Record InnerInstruction := mkInnerInstruction {
  instruction : CompiledInstruction;
  stack_height : option Z
}.

Record InnerInstructions := mkInnerInstructions {
  index : Z;
  inner : list InnerInstruction
}.

Record TokenAmount := mkTokenAmount {
  ui_amount : option f64;
  decimals : Z;
  amount : string;
  ui_amount_string : string
}.

Record TransactionTokenBalance := mkTransactionTokenBalance {
  account_index : Z;
  mint : string;
  ui_token_amount : TokenAmount;
  owner : string;
  program_id : string
}.

Inductive RewardType := Fee | Rent | Staking | Voting | DeactivatedStake.

Record Reward := mkReward {
  reward_pubkey : string;
  lamports : Z;
  post_balance : Z;
  reward_type : option RewardType;
  commission : option Z;
  commission_bps : option Z
}.

Record LoadedAddresses := mkLoadedAddresses {
  writable : list Pubkey;
  readonly : list Pubkey
}.

Record TransactionReturnData := mkTransactionReturnData {
  return_program_id : Pubkey;
  return_bytes : bytes
}.

Section meta.
Context {W : Wincode}.

(** [status] is [Ok(())] ([None]) or the error. *)
Record TransactionStatusMeta := mkTransactionStatusMeta {
  status : option TransactionError;
  fee : Z;
  pre_balances : list Z;
  post_balances : list Z;
  inner_instructions : option (list InnerInstructions);
  log_messages : option (list string);
  pre_token_balances : option (list TransactionTokenBalance);
  post_token_balances : option (list TransactionTokenBalance);
  rewards : option (list Reward);
  loaded_addresses : LoadedAddresses;
  return_data : option TransactionReturnData;
  compute_units_consumed : option Z;
  cost_units : option Z
}.

Record VersionedTransactionWithStatusMeta := mkTransactionWithMeta {
  wm_transaction : VersionedTransaction;
  wm_meta : TransactionStatusMeta
}.

Record ConfirmedBlock := mkConfirmedBlock {
  previous_blockhash : string;
  blockhash : string;
  parent_slot : Z;
  transactions : list VersionedTransactionWithStatusMeta;
  block_rewards : list Reward;
  num_partitions : option Z;
  block_time : option Z;
  block_height : option Z
}.
End meta.

Record Account := mkAccount {
  account_lamports : Z;
  account_data : bytes;
  account_owner : Pubkey;
  executable : bool;
  rent_epoch : Z
}.
End solana.

(** ** convert_to.rs *)

Module to_proto.

Definition create_header (h : solana.MessageHeader) : ProtoMessageHeader :=
  mkProtoMessageHeader (solana.num_required_signatures h) (solana.num_readonly_signed_accounts h)
    (solana.num_readonly_unsigned_accounts h).

Definition create_pubkeys (pubkeys : list Pubkey) : list bytes := pubkeys.

Definition create_instruction (ix : solana.CompiledInstruction) : ProtoCompiledInstruction :=
  mkProtoCompiledInstruction (solana.program_id_index ix) (solana.accounts ix) (solana.data ix).

Definition create_instructions (ixs : list solana.CompiledInstruction) := create_instruction <$> ixs.

Definition create_lookup (l : solana.MessageAddressTableLookup) : ProtoAddressTableLookup :=
  mkProtoAddressTableLookup (solana.account_key l) (solana.writable_indexes l) (solana.readonly_indexes l).

Definition create_lookups (ls : list solana.MessageAddressTableLookup) := create_lookup <$> ls.

Definition create_message (m : solana.VersionedMessage) : ProtoMessage :=
  match m with
  | solana.Legacy h keys hash ixs =>
      mkProtoMessage (Some (create_header h)) (create_pubkeys keys) hash (create_instructions ixs) false [] None
  | solana.V0 h keys hash ixs lookups =>
      mkProtoMessage (Some (create_header h)) (create_pubkeys keys) hash (create_instructions ixs) true
        (create_lookups lookups) None
  | solana.V1 h config hash keys ixs =>
      mkProtoMessage (Some (create_header h)) (create_pubkeys keys) hash (create_instructions ixs) true []
        (Some (mkTransactionConfig (tc_priority_fee config) (tc_compute_unit_limit config)
                 (tc_loaded_accounts_data_size_limit config) (tc_heap_size config)))
  end.

Definition create_transaction (tx : solana.VersionedTransaction) : Transaction :=
  mkTransaction (solana.signatures tx) (Some (create_message (solana.message tx))).

Definition create_inner_instruction (i : solana.InnerInstruction) : ProtoInnerInstruction :=
  let ix := solana.instruction i in
  mkProtoInnerInstruction (solana.program_id_index ix) (solana.accounts ix) (solana.data ix)
    (solana.stack_height i).

Definition create_inner_instruction_vec (l : list solana.InnerInstruction) := create_inner_instruction <$> l.

Definition create_inner_instructions (i : solana.InnerInstructions) : ProtoInnerInstructions :=
  mkProtoInnerInstructions (solana.index i) (create_inner_instruction_vec (solana.inner i)).

Definition create_inner_instructions_vec (l : list solana.InnerInstructions) := create_inner_instructions <$> l.

Definition create_token_balance (b : solana.TransactionTokenBalance) : TokenBalance :=
  let a := solana.ui_token_amount b in
  mkTokenBalance (solana.account_index b) (solana.mint b)
    (Some (mkUiTokenAmount (default f64_default (solana.ui_amount a)) (solana.decimals a)
             (solana.amount a) (solana.ui_amount_string a)))
    (solana.owner b) (solana.program_id b).

Definition create_token_balances (l : list solana.TransactionTokenBalance) := create_token_balance <$> l.

(** The value of the proto enum. *)
Definition create_reward_type (t : option solana.RewardType) : Z :=
  match t with
  | None => 0
  | Some solana.Fee => 1
  | Some solana.Rent => 2
  | Some solana.Staking => 3
  | Some solana.Voting => 4
  | Some solana.DeactivatedStake => 5
  end.

Definition create_reward (r : solana.Reward) : ProtoReward :=
  mkProtoReward (solana.reward_pubkey r) (solana.lamports r) (solana.post_balance r)
    (create_reward_type (solana.reward_type r))
    (from_option decimal "" (solana.commission r)) (from_option decimal "" (solana.commission_bps r)).

Definition create_rewards (l : list solana.Reward) : list ProtoReward := create_reward <$> l.

Definition create_rewards_obj (rewards : list solana.Reward) (num_partitions : option Z) : ProtoRewards :=
  mkProtoRewards (create_rewards rewards) num_partitions.

Definition create_return_data (d : solana.TransactionReturnData) : ProtoReturnData :=
  mkProtoReturnData (solana.return_program_id d) (solana.return_bytes d).

Section meta.
Context {W : Wincode}.

Definition create_transaction_error (status : option TransactionError) : outcome (option bytes) :=
  match status with
  | None => Done None
  | Some err => match wincode_serialize err with Some b => Done (Some b) | None => Panic end
  end.

Definition create_transaction_meta (meta : solana.TransactionStatusMeta) : outcome TransactionStatusMeta :=
  err ← create_transaction_error (solana.status meta);
  Done
    {| meta_err := err;
       meta_fee := solana.fee meta;
       meta_pre_balances := solana.pre_balances meta;
       meta_post_balances := solana.post_balances meta;
       meta_inner_instructions :=
         from_option create_inner_instructions_vec [] (solana.inner_instructions meta);
       meta_inner_instructions_none := is_none (solana.inner_instructions meta);
       meta_log_messages := default [] (solana.log_messages meta);
       meta_log_messages_none := is_none (solana.log_messages meta);
       meta_pre_token_balances := from_option create_token_balances [] (solana.pre_token_balances meta);
       meta_post_token_balances := from_option create_token_balances [] (solana.post_token_balances meta);
       meta_rewards := from_option create_rewards [] (solana.rewards meta);
       meta_loaded_writable_addresses := create_pubkeys (solana.writable (solana.loaded_addresses meta));
       meta_loaded_readonly_addresses := create_pubkeys (solana.readonly (solana.loaded_addresses meta));
       meta_return_data := create_return_data <$> solana.return_data meta;
       meta_return_data_none := is_none (solana.return_data meta);
       meta_compute_units_consumed := solana.compute_units_consumed meta;
       meta_cost_units := solana.cost_units meta |}.
End meta.
End to_proto.

(** ** convert_from.rs *)

Module from_proto.

Definition create_pubkey (pubkey : bytes) : result string Pubkey :=
  ok_or "failed to parse Pubkey" (Pubkey_try_from pubkey).

Definition create_pubkey_vec (pubkeys : list bytes) : result string (list Pubkey) :=
  collect_result (create_pubkey <$> pubkeys).

Definition create_message_instruction (ix : ProtoCompiledInstruction)
    : result string solana.CompiledInstruction :=
  i ← u8_try_from "failed to decode CompiledInstruction.program_id_index)" (pci_program_id_index ix);
  Ok (solana.mkCompiledInstruction i (pci_accounts ix) (pci_data ix)).

Definition create_message_instructions (ixs : list ProtoCompiledInstruction)
    : result string (list solana.CompiledInstruction) :=
  collect_result (create_message_instruction <$> ixs).

Definition create_lookup_of_proto (table : ProtoAddressTableLookup) : result string solana.MessageAddressTableLookup :=
  k ← ok_or "failed to parse Pubkey" (Pubkey_try_from (pal_account_key table));
  Ok (solana.mkMessageAddressTableLookup k (pal_writable_indexes table) (pal_readonly_indexes table)).

Definition create_header_of_proto (h : ProtoMessageHeader) : result string solana.MessageHeader :=
  a ← u8_try_from "failed to parse num_required_signatures" (pmh_num_required_signatures h);
  b ← u8_try_from "failed to parse num_readonly_signed_accounts" (pmh_num_readonly_signed_accounts h);
  c ← u8_try_from "failed to parse num_readonly_unsigned_accounts" (pmh_num_readonly_unsigned_accounts h);
  Ok (solana.mkMessageHeader a b c).

(** [<[u8; HASH_BYTES]>::try_from]. *)
Definition hash_try_from (b : bytes) : option bytes := if decide (length b = 32%nat) then Some b else None.

Definition create_message_of_proto (message : ProtoMessage) : result string solana.VersionedMessage :=
  header ← ok_or "failed to get MessageHeader" (pm_header message);
  header ← create_header_of_proto header;
  recent_blockhash ← ok_or "failed to parse hash" (hash_try_from (pm_recent_blockhash message));
  match pm_config message with
  | Some config =>
      keys ← create_pubkey_vec (pm_account_keys message);
      ixs ← create_message_instructions (pm_instructions message);
      Ok (solana.V1 header (mkTransactionConfig (tc_priority_fee config) (tc_compute_unit_limit config)
                              (tc_loaded_accounts_data_size_limit config) (tc_heap_size config))
            recent_blockhash keys ixs)
  | None =>
      if pm_versioned message then
        lookups ← collect_result (create_lookup_of_proto <$> pm_address_table_lookups message);
        keys ← create_pubkey_vec (pm_account_keys message);
        ixs ← create_message_instructions (pm_instructions message);
        Ok (solana.V0 header keys recent_blockhash ixs lookups)
      else
        keys ← create_pubkey_vec (pm_account_keys message);
        ixs ← create_message_instructions (pm_instructions message);
        Ok (solana.Legacy header keys recent_blockhash ixs)
  end.

(** [Signature::try_from(&[u8])]. *)
Definition signature_try_from (b : bytes) : option Signature :=
  if decide (length b = 64%nat) then Some b else None.

Definition create_tx_versioned (tx : Transaction) : result string solana.VersionedTransaction :=
  signatures ← collect_result
    ((λ s, ok_or "failed to parse Signature" (signature_try_from s)) <$> tx_signatures tx);
  message ← ok_or "failed to get message" (tx_message tx);
  message ← create_message_of_proto message;
  Ok (solana.mkVersionedTransaction signatures message).

Definition create_inner_instruction_of_proto (ix : ProtoInnerInstruction) : result string solana.InnerInstruction :=
  i ← u8_try_from "failed to decode CompiledInstruction.program_id_index)" (pii_program_id_index ix);
  Ok (solana.mkInnerInstruction (solana.mkCompiledInstruction i (pii_accounts ix) (pii_data ix))
        (pii_stack_height ix)).

Definition create_meta_inner_instruction (ix : ProtoInnerInstructions)
    : result string solana.InnerInstructions :=
  instructions ← collect_result (create_inner_instruction_of_proto <$> piis_instructions ix);
  i ← u8_try_from "failed to decode InnerInstructions.index" (piis_index ix);
  Ok (solana.mkInnerInstructions i instructions).

Definition create_meta_inner_instructions (ixs : list ProtoInnerInstructions)
    : result string (list solana.InnerInstructions) :=
  collect_result (create_meta_inner_instruction <$> ixs).

(** [proto::RewardType::try_from] and the match after it. *)
Definition create_reward_type_of_proto (t : Z) : result string (option solana.RewardType) :=
  match t with
  | 0 => Ok None
  | 1 => Ok (Some solana.Fee)
  | 2 => Ok (Some solana.Rent)
  | 3 => Ok (Some solana.Staking)
  | 4 => Ok (Some solana.Voting)
  | 5 => Ok (Some solana.DeactivatedStake)
  | _ => Err "failed to parse reward_type"
  end.

(** [if s.is_empty() { None } else { Some(s.parse()?) }]. *)
Definition parse_optional (err : string) (max : Z) (s : string) : result string (option Z) :=
  if bool_decide (s = "") then Ok None else n ← ok_or err (parse_uint max s); Ok (Some n).

Definition create_reward_of_proto (r : ProtoReward) : result string solana.Reward :=
  t ← create_reward_type_of_proto (prw_reward_type r);
  c ← parse_optional "failed to parse reward commission" u8_max (prw_commission r);
  bps ← parse_optional "failed to parse reward commission_bps" u16_max (prw_commission_bps r);
  Ok (solana.mkReward (prw_pubkey r) (prw_lamports r) (prw_post_balance r) t c bps).

Definition create_rewards_of_proto (l : list ProtoReward) : result string (list solana.Reward) :=
  collect_result (create_reward_of_proto <$> l).

Definition create_rewards_obj_of_proto (r : ProtoRewards) : result string (list solana.Reward * option Z) :=
  l ← create_rewards_of_proto (prws_rewards r); Ok (l, prws_num_partitions r).

Definition create_token_balance_of_proto (b : TokenBalance) : result string solana.TransactionTokenBalance :=
  a ← ok_or "failed to get ui_token_amount" (tb_ui_token_amount b);
  i ← u8_try_from "failed to parse account_index" (tb_account_index b);
  d ← u8_try_from "failed to parse decimals" (uta_decimals a);
  Ok (solana.mkTransactionTokenBalance i (tb_mint b)
        (solana.mkTokenAmount (Some (uta_ui_amount a)) d (uta_amount a) (uta_ui_amount_string a))
        (tb_owner b) (tb_program_id b)).

Definition create_token_balances_of_proto (l : list TokenBalance) : result string (list solana.TransactionTokenBalance) :=
  collect_result (create_token_balance_of_proto <$> l).

Definition create_loaded_addresses (writable readonly : list bytes) : result string solana.LoadedAddresses :=
  w ← create_pubkey_vec writable;
  r ← create_pubkey_vec readonly;
  Ok (solana.mkLoadedAddresses w r).

Definition create_account (a : SubscribeUpdateAccountInfo) : result string (Pubkey * solana.Account) :=
  pubkey ← create_pubkey (sai_pubkey a);
  owner ← create_pubkey (sai_owner a);
  Ok (pubkey, solana.mkAccount (sai_lamports a) (sai_data a) owner (sai_executable a) (sai_rent_epoch a)).

Section meta.
Context {W : Wincode}.

Definition create_tx_error (err : option bytes) : result string (option TransactionError) :=
  match err with
  | None => Ok None
  | Some b => e ← ok_or "failed to decode TransactionError" (wincode_deserialize b); Ok (Some e)
  end.

Definition create_return_data_of_proto (none : bool) (data : option ProtoReturnData)
    : result string (option solana.TransactionReturnData) :=
  if none then Ok None
  else
    data ← ok_or "failed to get return_data" data;
    program_id ← ok_or "failed to parse program_id" (Pubkey_try_from (prd_program_id data));
    Ok (Some (solana.mkTransactionReturnData program_id (prd_data data))).

Definition create_tx_meta (meta : TransactionStatusMeta) : result string solana.TransactionStatusMeta :=
  status ← create_tx_error (meta_err meta);
  rewards ← create_rewards_of_proto (meta_rewards meta);
  inner ← (if meta_inner_instructions_none meta then Ok None
           else l ← create_meta_inner_instructions (meta_inner_instructions meta); Ok (Some l));
  pre ← create_token_balances_of_proto (meta_pre_token_balances meta);
  post ← create_token_balances_of_proto (meta_post_token_balances meta);
  loaded ← create_loaded_addresses (meta_loaded_writable_addresses meta) (meta_loaded_readonly_addresses meta);
  return_data ← create_return_data_of_proto (meta_return_data_none meta) (meta_return_data meta);
  Ok
    {| solana.status := status;
       solana.fee := meta_fee meta;
       solana.pre_balances := meta_pre_balances meta;
       solana.post_balances := meta_post_balances meta;
       solana.inner_instructions := inner;
       solana.log_messages := if meta_log_messages_none meta then None else Some (meta_log_messages meta);
       solana.pre_token_balances := Some pre;
       solana.post_token_balances := Some post;
       solana.rewards := Some rewards;
       solana.loaded_addresses := loaded;
       solana.return_data := return_data;
       solana.compute_units_consumed := meta_compute_units_consumed meta;
       solana.cost_units := meta_cost_units meta |}.

Definition create_tx_with_meta (tx : SubscribeUpdateTransactionInfo)
    : result string solana.VersionedTransactionWithStatusMeta :=
  meta ← ok_or "failed to get transaction meta" (sti_meta tx);
  tx ← ok_or "failed to get transaction transaction" (sti_transaction tx);
  transaction ← create_tx_versioned tx;
  meta ← create_tx_meta meta;
  Ok (solana.mkTransactionWithMeta transaction meta).

Definition create_block (block : SubscribeUpdateBlock) : result string solana.ConfirmedBlock :=
  transactions ← collect_result (create_tx_with_meta <$> sb_transactions block);
  block_rewards ← ok_or "failed to get rewards" (sb_rewards block);
  rewards ← create_rewards_of_proto (prws_rewards block_rewards);
  block_time ← ok_or "failed to get block_time" (sb_block_time block);
  block_height ← ok_or "failed to get block_height" (sb_block_height block);
  Ok
    {| solana.previous_blockhash := sb_parent_blockhash block;
       solana.blockhash := sb_blockhash block;
       solana.parent_slot := sb_parent_slot block;
       solana.transactions := transactions;
       solana.block_rewards := rewards;
       solana.num_partitions := prws_num_partitions block_rewards;
       solana.block_time := Some block_time;
       solana.block_height := Some block_height |}.
End meta.
End from_proto.
