(* ===== verification/ConvertSpec.v ===== *)
(** * Converting a transaction to protobuf and back

    Converting back what was converted gives the same value, up to the options
    the protobuf messages cannot express. What messages convert back at all is in
    ConvertAccepts.v. *)

From S2P Require Import Prelude Storage Message SubscribeUpdate Convert.

Set Default Goal Selector "!".

Local Open Scope Z_scope.

(** ** Decimal numbers *)

Lemma digit_value_of d : 0 <= d <= 9 → digit_value (Ascii.ascii_of_nat (Z.to_nat (48 + d))) = Some d.
Proof.
  intros Hd. assert (d = 0 ∨ d = 1 ∨ d = 2 ∨ d = 3 ∨ d = 4 ∨ d = 5 ∨ d = 6 ∨ d = 7 ∨ d = 8 ∨ d = 9) as H by lia.
  repeat (destruct H as [->|H]; [reflexivity|]). subst d. reflexivity.
Qed.

Lemma parse_decimal_digits max fuel n acc :
  0 <= n <= max → n < 10 ^ Z.of_nat (S fuel) →
  parse_digits max 0 (decimal_digits (S fuel) n acc) = parse_digits max n acc.
Proof.
  revert n acc. induction fuel as [|fuel IH]; intros n acc Hn Hlt.
  - assert (n < 10) by (simpl in Hlt; lia). cbn [decimal_digits].
    rewrite (proj2 (Z.ltb_lt n 10)) by done. cbn [parse_digits].
    rewrite Z.mod_small, digit_value_of by lia. cbn.
    by rewrite (proj2 (Z.leb_le _ _)) by lia.
  - assert (0 <= n mod 10 < 10) as Hmod by (apply Z.mod_pos_bound; lia).
    cbn [decimal_digits]. destruct (Z.ltb_spec n 10).
    + cbn [parse_digits]. rewrite Z.mod_small, digit_value_of by lia. cbn.
      by rewrite (proj2 (Z.leb_le _ _)) by lia.
    + change (parse_digits max 0 (decimal_digits (S fuel) (n / 10)
        (String (Ascii.ascii_of_nat (Z.to_nat (48 + n mod 10))) acc)) = parse_digits max n acc).
      assert (n / 10 <= n) by (apply Z.div_le_upper_bound; lia).
      assert (0 <= n / 10) by (apply Z.div_pos; lia).
      rewrite IH; [|lia|].
      * cbn [parse_digits]. rewrite digit_value_of by lia. cbn.
        assert (n / 10 * 10 + n mod 10 = n) as -> by (rewrite (Z.div_mod n 10) at 3; lia).
        by rewrite (proj2 (Z.leb_le _ _)) by lia.
      * apply Z.div_lt_upper_bound; [lia|]. rewrite Nat2Z.inj_succ, Z.pow_succ_r in Hlt by lia. lia.
Qed.

(** A decimal number starts with a digit. *)
Lemma decimal_digits_head fuel n acc :
  0 <= n → ∃ c s, decimal_digits (S fuel) n acc = String c s ∧ Ascii.nat_of_ascii c ≠ 43%nat.
Proof.
  revert n acc. induction fuel as [|fuel IH]; intros n acc Hn;
    (assert (0 <= n mod 10 < 10) as Hmod by (apply Z.mod_pos_bound; lia)).
  - cbn [decimal_digits]. destruct (n <? 10); eexists _, _; (split; [done|]);
      rewrite Ascii.nat_ascii_embedding; lia.
  - cbn [decimal_digits]. destruct (n <? 10).
    + eexists _, _. split; [done|]. rewrite Ascii.nat_ascii_embedding; lia.
    + apply IH. apply Z.div_pos; lia.
Qed.

Lemma parse_decimal max n : 0 <= n <= max → max <= u16_max → parse_uint max (decimal n) = Some n.
Proof.
  intros Hn Hmax. unfold decimal. destruct (decimal_digits_head 19 n "") as (c & s & Heq & Hc); [lia|].
  pose proof (parse_decimal_digits max 19 n "" Hn) as Hp. rewrite Heq in Hp |- *. cbn [parse_uint].
  rewrite bool_decide_false by done. apply Hp. unfold u16_max in Hmax. simpl. lia.
Qed.

Lemma decimal_nonempty n : 0 <= n → decimal n ≠ "".
Proof. intros Hn. unfold decimal. by destruct (decimal_digits_head 19 n "" Hn) as (c & s & -> & _). Qed.

(** ** Well-typed values *)

Definition u8_ok (z : Z) : Prop := 0 <= z <= u8_max.
Definition key_ok (k : bytes) : Prop := length k = 32%nat.

Definition header_ok (h : solana.MessageHeader) : Prop :=
  u8_ok (solana.num_required_signatures h) ∧ u8_ok (solana.num_readonly_signed_accounts h) ∧
  u8_ok (solana.num_readonly_unsigned_accounts h).

Definition instruction_ok (ix : solana.CompiledInstruction) : Prop := u8_ok (solana.program_id_index ix).

Definition message_ok (m : solana.VersionedMessage) : Prop :=
  match m with
  | solana.Legacy h keys hash ixs => header_ok h ∧ Forall key_ok keys ∧ key_ok hash ∧ Forall instruction_ok ixs
  | solana.V0 h keys hash ixs lookups =>
      header_ok h ∧ Forall key_ok keys ∧ key_ok hash ∧ Forall instruction_ok ixs ∧
      Forall (λ l, key_ok (solana.account_key l)) lookups
  | solana.V1 h _ hash keys ixs => header_ok h ∧ Forall key_ok keys ∧ key_ok hash ∧ Forall instruction_ok ixs
  end.

Definition versioned_ok (tx : solana.VersionedTransaction) : Prop :=
  Forall (λ s, length s = 64%nat) (solana.signatures tx) ∧ message_ok (solana.message tx).

Definition inner_ok (i : solana.InnerInstructions) : Prop :=
  u8_ok (solana.index i) ∧ Forall (λ i, instruction_ok (solana.instruction i)) (solana.inner i).

Definition balance_ok (b : solana.TransactionTokenBalance) : Prop :=
  u8_ok (solana.account_index b) ∧ u8_ok (solana.decimals (solana.ui_token_amount b)).

Definition opt_le (max : Z) (o : option Z) : Prop := ∀ n, o = Some n → 0 <= n <= max.

Definition reward_ok (r : solana.Reward) : Prop :=
  opt_le u8_max (solana.commission r) ∧ opt_le u16_max (solana.commission_bps r).

Definition loaded_ok (l : solana.LoadedAddresses) : Prop :=
  Forall key_ok (solana.writable l) ∧ Forall key_ok (solana.readonly l).

(** A property of the elements of an optional list. *)
Definition opt_Forall {A} (P : A → Prop) (o : option (list A)) : Prop := ∀ l, o = Some l → Forall P l.

Section spec.
Context {W : Wincode}.

Record meta_ok (m : solana.TransactionStatusMeta) : Prop := {
  mo_inner : opt_Forall inner_ok (solana.inner_instructions m);
  mo_pre : opt_Forall balance_ok (solana.pre_token_balances m);
  mo_post : opt_Forall balance_ok (solana.post_token_balances m);
  mo_rewards : opt_Forall reward_ok (solana.rewards m);
  mo_loaded : loaded_ok (solana.loaded_addresses m);
  mo_return : ∀ d, solana.return_data m = Some d → key_ok (solana.return_program_id d)
}.

(** ** What the protobuf messages cannot express

    An absent list of token balances or rewards becomes an empty one, an
    absent display amount zero. *)

Definition normal_balance (b : solana.TransactionTokenBalance) : solana.TransactionTokenBalance :=
  let a := solana.ui_token_amount b in
  solana.mkTransactionTokenBalance (solana.account_index b) (solana.mint b)
    (solana.mkTokenAmount (Some (default f64_default (solana.ui_amount a))) (solana.decimals a)
       (solana.amount a) (solana.ui_amount_string a)) (solana.owner b) (solana.program_id b).

Definition normal_meta (m : solana.TransactionStatusMeta) : solana.TransactionStatusMeta :=
  {| solana.status := solana.status m;
     solana.fee := solana.fee m;
     solana.pre_balances := solana.pre_balances m;
     solana.post_balances := solana.post_balances m;
     solana.inner_instructions := solana.inner_instructions m;
     solana.log_messages := solana.log_messages m;
     solana.pre_token_balances := Some (normal_balance <$> default [] (solana.pre_token_balances m));
     solana.post_token_balances := Some (normal_balance <$> default [] (solana.post_token_balances m));
     solana.rewards := Some (default [] (solana.rewards m));
     solana.loaded_addresses := solana.loaded_addresses m;
     solana.return_data := solana.return_data m;
     solana.compute_units_consumed := solana.compute_units_consumed m;
     solana.cost_units := solana.cost_units m |}.

(** ** Lists *)

Lemma collect_roundtrip {A P} (to : A → P) (from : P → result string A) (norm : A → A) (ok : A → Prop) l :
  (∀ x, ok x → from (to x) = Ok (norm x)) → Forall ok l →
  collect_result (from <$> (to <$> l)) = Ok (norm <$> l).
Proof.
  intros Hf Hl. apply collect_result_ok. induction Hl as [|x l Hx _ IH]; csimpl; [done|].
  by rewrite Hf, IH.
Qed.

Lemma collect_id {P} (from : P → result string P) (ok : P → Prop) l :
  (∀ x, ok x → from x = Ok x) → Forall ok l → collect_result (from <$> l) = Ok l.
Proof.
  intros Hf Hl. apply collect_result_ok. induction Hl as [|x l Hx _ IH]; csimpl; [done|].
  by rewrite Hf, IH.
Qed.

Lemma collect_all {A P} (from : P → result string A) (ok : A → Prop) l l' :
  (∀ x y, from x = Ok y → ok y) → collect_result (from <$> l) = Ok l' → Forall ok l'.
Proof.
  intros Hf Hl. apply collect_result_ok in Hl. revert l Hl.
  induction l' as [|y l' IH]; intros [|x l] Hl; csimpl in *; try done.
  injection Hl as Hx Hl. constructor; [by eapply Hf|by eapply IH].
Qed.

(** The tactic that opens a chain of fallible steps. *)
Lemma bind_ok {A C} (m : result string A) (f : A → result string C) c :
  (m ≫= f) = Ok c → ∃ a, m = Ok a ∧ f a = Ok c.
Proof. destruct m; [|done]. eauto. Qed.

Lemma ok_or_ok {A} (err : string) (o : option A) a : ok_or err o = Ok a → o = Some a.
Proof. destruct o; simpl; [|done]. by intros [= ->]. Qed.

Lemma u8_try_from_ok err z n : u8_try_from err z = Ok n → n = z ∧ u8_ok n.
Proof.
  unfold u8_try_from, u8_ok. destruct (Z.leb_spec 0 z), (Z.leb_spec z u8_max); cbn; try done.
  intros [= <-]. done.
Qed.

Lemma u8_try_from_small err z : u8_ok z → u8_try_from err z = Ok z.
Proof.
  unfold u8_try_from, u8_ok. intros [??]. by rewrite (proj2 (Z.leb_le _ _)), (proj2 (Z.leb_le _ _)) by done.
Qed.

Lemma pubkey_try_from_ok b k : Pubkey_try_from b = Some k → k = b ∧ key_ok k.
Proof. unfold Pubkey_try_from. case_decide; [|done]. by intros [= <-]. Qed.

Lemma pubkey_try_from_small k : key_ok k → Pubkey_try_from k = Some k.
Proof. unfold Pubkey_try_from, key_ok. intros ?. by rewrite decide_True. Qed.

Lemma pubkeys_id keys : Forall key_ok keys → from_proto.create_pubkey_vec keys = Ok keys.
Proof.
  apply collect_id. intros k Hk. unfold from_proto.create_pubkey. by rewrite pubkey_try_from_small.
Qed.
End spec.

(** One step of a chain of fallible conversions. *)
Ltac step H x Hx := apply bind_ok in H as (x & Hx & H).

Section claims.
Context {W : Wincode}.

(** ** There and back *)

Lemma header_back h : header_ok h → from_proto.create_header_of_proto (to_proto.create_header h) = Ok h.
Proof.
  intros (H1 & H2 & H3). unfold from_proto.create_header_of_proto, to_proto.create_header.
  cbn [pmh_num_required_signatures pmh_num_readonly_signed_accounts pmh_num_readonly_unsigned_accounts].
  rewrite !u8_try_from_small by done. by destruct h.
Qed.

Lemma instructions_back ixs :
  Forall instruction_ok ixs →
  from_proto.create_message_instructions (to_proto.create_instructions ixs) = Ok ixs.
Proof.
  intros H. unfold from_proto.create_message_instructions, to_proto.create_instructions.
  rewrite (collect_roundtrip _ _ id instruction_ok); [by rewrite list_fmap_id| |done].
  intros ix Hix. unfold from_proto.create_message_instruction, to_proto.create_instruction.
  cbn [pci_program_id_index pci_accounts pci_data]. rewrite u8_try_from_small by done. by destruct ix.
Qed.

Lemma lookups_back ls :
  Forall (λ l, key_ok (solana.account_key l)) ls →
  collect_result (from_proto.create_lookup_of_proto <$> to_proto.create_lookups ls) = Ok ls.
Proof.
  intros H. unfold to_proto.create_lookups.
  rewrite (collect_roundtrip _ _ id (λ l, key_ok (solana.account_key l))); [by rewrite list_fmap_id| |done].
  intros l Hl. unfold from_proto.create_lookup_of_proto, to_proto.create_lookup.
  cbn [pal_account_key pal_writable_indexes pal_readonly_indexes].
  rewrite pubkey_try_from_small by done. by destruct l.
Qed.

Lemma hash_back h : key_ok h → from_proto.hash_try_from h = Some h.
Proof. apply pubkey_try_from_small. Qed.

Lemma message_back m : message_ok m → from_proto.create_message_of_proto (to_proto.create_message m) = Ok m.
Proof.
  destruct m as [h keys hash ixs|h keys hash ixs ls|h config hash keys ixs]; cbn [message_ok].
  - intros (Hh & Hk & Hhash & Hi). unfold from_proto.create_message_of_proto, to_proto.create_message.
    cbn [pm_header pm_recent_blockhash pm_config pm_versioned pm_account_keys pm_instructions ok_or mbind result_bind].
    rewrite header_back by done. cbn [mbind result_bind]. rewrite hash_back by done.
    cbn [ok_or mbind result_bind]. unfold to_proto.create_pubkeys. rewrite pubkeys_id by done.
    cbn [mbind result_bind]. by rewrite instructions_back.
  - intros (Hh & Hk & Hhash & Hi & Hl). unfold from_proto.create_message_of_proto, to_proto.create_message.
    cbn [pm_header pm_recent_blockhash pm_config pm_versioned pm_account_keys pm_instructions
      pm_address_table_lookups ok_or mbind result_bind].
    rewrite header_back by done. cbn [mbind result_bind]. rewrite hash_back by done.
    cbn [ok_or mbind result_bind]. rewrite lookups_back by done. cbn [mbind result_bind].
    unfold to_proto.create_pubkeys. rewrite pubkeys_id by done.
    cbn [mbind result_bind]. by rewrite instructions_back.
  - intros (Hh & Hk & Hhash & Hi). unfold from_proto.create_message_of_proto, to_proto.create_message.
    cbn [pm_header pm_recent_blockhash pm_config pm_versioned pm_account_keys pm_instructions ok_or mbind result_bind].
    rewrite header_back by done. cbn [mbind result_bind]. rewrite hash_back by done.
    cbn [ok_or mbind result_bind]. unfold to_proto.create_pubkeys. rewrite pubkeys_id by done.
    cbn [mbind result_bind]. rewrite instructions_back by done. by destruct config.
Qed.

Lemma versioned_back tx :
  versioned_ok tx → from_proto.create_tx_versioned (to_proto.create_transaction tx) = Ok tx.
Proof.
  intros [Hs Hm]. unfold from_proto.create_tx_versioned, to_proto.create_transaction.
  cbn [tx_signatures tx_message].
  rewrite (collect_id _ (λ s, length s = 64%nat)); [|..|done].
  - cbn [mbind result_bind ok_or]. rewrite message_back by done. by destruct tx.
  - intros s Hs'. unfold from_proto.signature_try_from. by rewrite decide_True.
Qed.

Lemma inner_back l :
  Forall inner_ok l →
  from_proto.create_meta_inner_instructions (to_proto.create_inner_instructions_vec l) = Ok l.
Proof.
  intros H. unfold from_proto.create_meta_inner_instructions, to_proto.create_inner_instructions_vec.
  rewrite (collect_roundtrip _ _ id inner_ok); [by rewrite list_fmap_id| |done].
  intros i [Hi Hall]. unfold from_proto.create_meta_inner_instruction, to_proto.create_inner_instructions.
  cbn [piis_index piis_instructions]. unfold to_proto.create_inner_instruction_vec.
  rewrite (collect_roundtrip _ _ id (λ i, instruction_ok (solana.instruction i))); [| |done].
  - cbn [mbind result_bind]. rewrite u8_try_from_small, list_fmap_id by done. by destruct i.
  - intros j Hj. unfold from_proto.create_inner_instruction_of_proto, to_proto.create_inner_instruction.
    cbn [pii_program_id_index pii_accounts pii_data pii_stack_height].
    rewrite u8_try_from_small by done. by destruct j as [[] ?].
Qed.

Lemma balances_back l :
  Forall balance_ok l →
  from_proto.create_token_balances_of_proto (to_proto.create_token_balances l) = Ok (normal_balance <$> l).
Proof.
  intros H. unfold from_proto.create_token_balances_of_proto, to_proto.create_token_balances.
  apply (collect_roundtrip _ _ normal_balance balance_ok); [|done].
  intros b [Hi Hd]. unfold from_proto.create_token_balance_of_proto, to_proto.create_token_balance.
  cbn [tb_ui_token_amount tb_account_index tb_mint tb_owner tb_program_id ok_or mbind result_bind].
  rewrite u8_try_from_small by done. cbn [mbind result_bind uta_decimals uta_ui_amount uta_amount uta_ui_amount_string].
  by rewrite u8_try_from_small.
Qed.

Lemma optional_number_back err max o :
  opt_le max o → max <= u16_max →
  from_proto.parse_optional err max (from_option decimal "" o) = Ok o.
Proof.
  intros Ho Hmax. unfold from_proto.parse_optional. destruct o as [n|]; [|done]. cbn [from_option].
  assert (0 <= n <= max) by by apply Ho. rewrite bool_decide_false by (apply decimal_nonempty; lia).
  by rewrite parse_decimal.
Qed.

Lemma rewards_back l :
  Forall reward_ok l → from_proto.create_rewards_of_proto (to_proto.create_rewards l) = Ok l.
Proof.
  intros H. unfold from_proto.create_rewards_of_proto, to_proto.create_rewards.
  rewrite (collect_roundtrip _ _ id reward_ok); [by rewrite list_fmap_id| |done].
  intros r [Hc Hb]. unfold from_proto.create_reward_of_proto, to_proto.create_reward.
  cbn [prw_pubkey prw_lamports prw_post_balance prw_reward_type prw_commission prw_commission_bps].
  assert (from_proto.create_reward_type_of_proto (to_proto.create_reward_type (solana.reward_type r))
    = Ok (solana.reward_type r)) as -> by by destruct (solana.reward_type r) as [[]|].
  cbn [mbind result_bind]. rewrite optional_number_back by (done || unfold u8_max, u16_max; lia).
  cbn [mbind result_bind]. rewrite optional_number_back by (done || lia). by destruct r.
Qed.

Lemma return_back (d : option solana.TransactionReturnData) :
  (∀ x, d = Some x → key_ok (solana.return_program_id x)) →
  from_proto.create_return_data_of_proto (is_none d) (to_proto.create_return_data <$> d) = Ok d.
Proof.
  intros H. destruct d as [d|]; [|done]. unfold from_proto.create_return_data_of_proto. cbn.
  rewrite pubkey_try_from_small by by apply H. by destruct d.
Qed.

Lemma meta_back {WL : WincodeLaws} m :
  meta_ok m →
  ∃ p, to_proto.create_transaction_meta m = Done p ∧ from_proto.create_tx_meta p = Ok (normal_meta m).
Proof.
  intros [Hi Hpre Hpost Hr [Hw Hro] Hret].
  assert (∃ err, to_proto.create_transaction_error (solana.status m) = Done err ∧
    from_proto.create_tx_error err = Ok (solana.status m)) as (err & He1 & He2).
  { destruct (solana.status m) as [e|]; cbn; [|by exists None].
    destruct (wincode_roundtrip e) as (b & -> & Hb). exists (Some b). split; [done|]. cbn. by rewrite Hb. }
  unfold to_proto.create_transaction_meta. rewrite He1, outcome_bind_done. eexists. split; [done|].
  unfold from_proto.create_tx_meta. cbn [meta_err meta_fee meta_pre_balances meta_post_balances
    meta_inner_instructions meta_inner_instructions_none meta_log_messages meta_log_messages_none
    meta_pre_token_balances meta_post_token_balances meta_rewards meta_loaded_writable_addresses
    meta_loaded_readonly_addresses meta_return_data meta_return_data_none meta_compute_units_consumed
    meta_cost_units].
  rewrite He2. cbn [mbind result_bind].
  assert (∀ o, opt_Forall reward_ok o → from_proto.create_rewards_of_proto (from_option to_proto.create_rewards [] o)
    = Ok (default [] o)) as -> by (intros [l|] Hl; [by apply rewards_back, Hl|done]); [|done].
  cbn [mbind result_bind].
  assert ((if is_none (solana.inner_instructions m) then Ok None
    else l ← from_proto.create_meta_inner_instructions (from_option to_proto.create_inner_instructions_vec []
           (solana.inner_instructions m)); Ok (Some l)) = Ok (E := string) (solana.inner_instructions m)) as ->.
  { destruct (solana.inner_instructions m) as [l|]; [|done]. cbn [is_none from_option].
    by rewrite inner_back by by apply Hi. }
  cbn [mbind result_bind].
  assert (∀ o, opt_Forall balance_ok o →
    from_proto.create_token_balances_of_proto (from_option to_proto.create_token_balances [] o)
    = Ok (normal_balance <$> default [] o)) as Hbal
    by (intros [l|] Hl; [by apply balances_back, Hl|done]).
  rewrite Hbal by done. cbn [mbind result_bind]. rewrite Hbal by done. cbn [mbind result_bind].
  unfold from_proto.create_loaded_addresses, to_proto.create_pubkeys. rewrite pubkeys_id by done.
  cbn [mbind result_bind]. rewrite pubkeys_id by done. cbn [mbind result_bind].
  rewrite return_back by done. cbn [mbind result_bind]. unfold normal_meta. f_equal.
  f_equal; [by destruct (solana.log_messages m)|by destruct (solana.loaded_addresses m)].
Qed.

(** ** What is accepted is well-typed *)

Lemma pubkeys_typed l keys : from_proto.create_pubkey_vec l = Ok keys → Forall key_ok keys.
Proof.
  apply collect_all. intros b k H. by apply ok_or_ok, pubkey_try_from_ok in H as [_ ?].
Qed.

Lemma header_typed h h' : from_proto.create_header_of_proto h = Ok h' → header_ok h'.
Proof.
  unfold from_proto.create_header_of_proto. intros H.
  step H a Ha. step H b Hb. step H c Hc. injection H as <-.
  apply u8_try_from_ok in Ha as [_ ?], Hb as [_ ?], Hc as [_ ?]. by split; [|split].
Qed.

Lemma instructions_typed l ixs : from_proto.create_message_instructions l = Ok ixs → Forall instruction_ok ixs.
Proof.
  apply collect_all. intros x y H. unfold from_proto.create_message_instruction in H. step H i Hi.
  injection H as <-. by apply u8_try_from_ok in Hi as [_ ?].
Qed.

Lemma hash_typed b h : from_proto.hash_try_from b = Some h → key_ok h.
Proof. intros H. by apply pubkey_try_from_ok in H as [_ ?]. Qed.

Lemma message_typed p m : from_proto.create_message_of_proto p = Ok m → message_ok m.
Proof.
  unfold from_proto.create_message_of_proto. intros H. step H h0 Hh0. step H h Hh. step H hash Hhash.
  apply header_typed in Hh. apply ok_or_ok, hash_typed in Hhash.
  destruct (pm_config p) as [config|]; [|destruct (pm_versioned p)].
  2: step H ls Hls.
  all: step H keys Hkeys; step H ixs Hixs; apply pubkeys_typed in Hkeys; apply instructions_typed in Hixs;
    injection H as <-; repeat (split; [done|]); try done.
  eapply collect_all; [|exact Hls]. intros x y Hy. unfold from_proto.create_lookup_of_proto in Hy.
  step Hy k Hk. injection Hy as <-. by apply ok_or_ok, pubkey_try_from_ok in Hk as [_ ?].
Qed.

Lemma versioned_typed p tx : from_proto.create_tx_versioned p = Ok tx → versioned_ok tx.
Proof.
  unfold from_proto.create_tx_versioned. intros H. step H ss Hss. step H m0 Hm0. step H m Hm.
  injection H as <-. split; [|by eapply message_typed].
  eapply collect_all; [|exact Hss]. intros x y Hy. apply ok_or_ok in Hy.
  unfold from_proto.signature_try_from in Hy. case_decide; [|done]. by injection Hy as <-.
Qed.

Lemma inner_typed l iis : from_proto.create_meta_inner_instructions l = Ok iis → Forall inner_ok iis.
Proof.
  apply collect_all. intros x y H. unfold from_proto.create_meta_inner_instruction in H.
  step H js Hjs. step H i Hi. injection H as <-. apply u8_try_from_ok in Hi as [_ Hi]. split; [done|].
  eapply collect_all; [|exact Hjs]. intros u v Hv. unfold from_proto.create_inner_instruction_of_proto in Hv.
  step Hv k Hk. injection Hv as <-. by apply u8_try_from_ok in Hk as [_ ?].
Qed.

Lemma balances_typed l bs : from_proto.create_token_balances_of_proto l = Ok bs → Forall balance_ok bs.
Proof.
  apply collect_all. intros x y H. unfold from_proto.create_token_balance_of_proto in H.
  step H a Ha. step H i Hi. step H d Hd. injection H as <-.
  apply u8_try_from_ok in Hi as [_ ?], Hd as [_ ?]. by split.
Qed.

Lemma parse_digits_range max acc s n :
  0 <= acc <= max → parse_digits max acc s = Some n → 0 <= n <= max.
Proof.
  revert acc. induction s as [|c s IH]; intros acc Hacc; cbn [parse_digits]; [by intros [= <-]|].
  unfold digit_value. destruct (Z.leb_spec 0 (Z.of_nat (Ascii.nat_of_ascii c) - 48)); [|done].
  destruct (Z.leb_spec (Z.of_nat (Ascii.nat_of_ascii c) - 48) 9); [|done]. cbn.
  case_match eqn:E; [|done]. apply Z.leb_le in E. apply IH. lia.
Qed.

Lemma optional_number_typed err max s o :
  0 <= max → from_proto.parse_optional err max s = Ok o → opt_le max o.
Proof.
  unfold from_proto.parse_optional. intros Hmax. case_bool_decide; [by intros [= <-]|]. intros Hr.
  step Hr n Hn. injection Hr as <-. apply ok_or_ok in Hn. intros ? [= <-].
  unfold parse_uint in Hn. destruct s as [|c rest]; [done|].
  case_bool_decide; [destruct rest; [done|]|]; by eapply parse_digits_range; [|exact Hn].
Qed.

Lemma rewards_typed l rs : from_proto.create_rewards_of_proto l = Ok rs → Forall reward_ok rs.
Proof.
  apply collect_all. intros x y H. unfold from_proto.create_reward_of_proto in H.
  step H t Ht. step H c Hc. step H b Hb. injection H as <-.
  split; [by eapply optional_number_typed; [|exact Hc]|by eapply optional_number_typed; [|exact Hb]].
Qed.

Lemma return_typed none d r x :
  from_proto.create_return_data_of_proto none d = Ok r → r = Some x → key_ok (solana.return_program_id x).
Proof.
  unfold from_proto.create_return_data_of_proto. destruct none; [by intros [= <-]|]. intros H.
  step H y Hy. step H k Hk. injection H as <-. intros [= <-].
  by apply ok_or_ok, pubkey_try_from_ok in Hk as [_ ?].
Qed.

Lemma meta_typed p m : from_proto.create_tx_meta p = Ok m → meta_ok m.
Proof.
  unfold from_proto.create_tx_meta. intros H. step H st Hst. step H rs Hrs. step H inner Hin.
  step H pre Hpre. step H post Hpost. step H loaded Hl. step H ret Hret. injection H as <-.
  apply rewards_typed in Hrs. apply balances_typed in Hpre, Hpost.
  split; cbn; [|by intros ? [= <-]..| |].
  - intros l ->. destruct (meta_inner_instructions_none p); [done|]. step Hin k Hk. injection Hin as <-.
    by eapply inner_typed.
  - unfold from_proto.create_loaded_addresses in Hl. step Hl w Hw. step Hl r Hr. injection Hl as <-.
    split; by eapply pubkeys_typed.
  - intros d Hd. by eapply return_typed.
Qed.

Definition with_meta_ok (t : solana.VersionedTransactionWithStatusMeta) : Prop :=
  versioned_ok (solana.wm_transaction t) ∧ meta_ok (solana.wm_meta t).

Lemma with_meta_typed p t : from_proto.create_tx_with_meta p = Ok t → with_meta_ok t.
Proof.
  unfold from_proto.create_tx_with_meta. intros H. step H m0 Hm0. step H t0 Ht0. step H tx Htx.
  step H m Hm. injection H as <-. split; [by eapply versioned_typed|by eapply meta_typed].
Qed.

(** C38. Round trip: a transaction and its metadata converted to the protobuf
    messages of an update and back are the same transaction and the same
    metadata, except that absent token balance lists and rewards come back
    empty and an absent display amount comes back as zero; neither direction
    fails on well-typed values. *)
Theorem convert_roundtrip {WL : WincodeLaws} tx m signature is_vote index :
  versioned_ok tx → meta_ok m →
  ∃ p, to_proto.create_transaction_meta m = Done p ∧
    from_proto.create_tx_with_meta (mkSubscribeUpdateTransactionInfo signature is_vote
      (Some (to_proto.create_transaction tx)) (Some p) index)
    = Ok (solana.mkTransactionWithMeta tx (normal_meta m)) ∧
    (is_Some (solana.pre_token_balances m) → is_Some (solana.post_token_balances m) →
     is_Some (solana.rewards m) →
     Forall (λ b, is_Some (solana.ui_amount (solana.ui_token_amount b)))
       (default [] (solana.pre_token_balances m) ++ default [] (solana.post_token_balances m)) →
     normal_meta m = m).
Proof.
  intros Htx Hm. destruct (meta_back m Hm) as (p & Hp & Hback). exists p. split; [done|]. split.
  - unfold from_proto.create_tx_with_meta. cbn [sti_meta sti_transaction ok_or mbind result_bind].
    rewrite versioned_back by done. cbn [mbind result_bind]. by rewrite Hback.
  - intros [pre Hpre] [post Hpost] [rs Hrs] Hall. unfold normal_meta. destruct m; cbn in *. subst.
    cbn in *. apply Forall_app in Hall as [H1 H2].
    assert (∀ l, Forall (λ b, is_Some (solana.ui_amount (solana.ui_token_amount b))) l →
      normal_balance <$> l = l) as Hn.
    { induction 1 as [|b l [a Ha] _ IH]; csimpl; [done|]. rewrite IH. f_equal. unfold normal_balance.
      destruct b as [? ? [] ? ?]. cbn in *. by subst. }
    by rewrite !Hn.
Qed.
End claims.

(** ** Concrete values *)

Section witnesses.

#[local] Instance byte_wincode : Wincode := {|
  TransactionError := byte;
  wincode_serialize := λ e, Some [e];
  wincode_deserialize := λ b, head b
|}.

#[local] Instance byte_wincode_laws : WincodeLaws.
Proof. split. intros e. by exists [e]. Qed.

Definition demo_key : bytes := replicate 32 Byte.x41.

Definition demo_versioned : solana.VersionedTransaction :=
  solana.mkVersionedTransaction [replicate 64 Byte.x01]
    (solana.V0 (solana.mkMessageHeader 1 0 1) [demo_key; demo_key] demo_key
       [solana.mkCompiledInstruction 1 [Byte.x00] [Byte.x02]]
       [solana.mkMessageAddressTableLookup demo_key [Byte.x03] []]).

Definition demo_solana_meta : solana.TransactionStatusMeta :=
  {| solana.status := Some Byte.x07;
     solana.fee := 5000;
     solana.pre_balances := [10; 20];
     solana.post_balances := [5; 25];
     solana.inner_instructions := Some [solana.mkInnerInstructions 0
       [solana.mkInnerInstruction (solana.mkCompiledInstruction 1 [] []) (Some 2)]];
     solana.log_messages := None;
     solana.pre_token_balances := None;
     solana.post_token_balances := Some [];
     solana.rewards := Some [solana.mkReward "v" (-3) 7 (Some solana.Voting) (Some 255) (Some 10000)];
     solana.loaded_addresses := solana.mkLoadedAddresses [demo_key] [];
     solana.return_data := Some (solana.mkTransactionReturnData demo_key [Byte.x09]);
     solana.compute_units_consumed := Some 300;
     solana.cost_units := None |}.

Lemma demo_versioned_ok : versioned_ok demo_versioned.
Proof.
  split; [by repeat constructor|]. split; [unfold header_ok, u8_ok, u8_max; simpl; lia|].
  split; [by repeat constructor|]. split; [done|].
  split; [repeat constructor; unfold instruction_ok, u8_ok, u8_max; simpl; lia|by repeat constructor].
Qed.

Lemma demo_solana_meta_ok : meta_ok demo_solana_meta.
Proof.
  split; cbn.
  - intros l [= <-]. repeat constructor; unfold u8_max; simpl; lia.
  - done.
  - intros l [= <-]. constructor.
  - intros l [= <-]. apply Forall_singleton. split; unfold opt_le, u8_max, u16_max; intros n [= <-]; lia.
  - split; repeat constructor.
  - intros d [= <-]. done.
Qed.

Lemma convert_roundtrip_witness :
  ∃ p, to_proto.create_transaction_meta demo_solana_meta = Done p ∧
    from_proto.create_tx_with_meta (mkSubscribeUpdateTransactionInfo [] false
      (Some (to_proto.create_transaction demo_versioned)) (Some p) 0)
    = Ok (solana.mkTransactionWithMeta demo_versioned (normal_meta demo_solana_meta)).
Proof.
  destruct (convert_roundtrip demo_versioned demo_solana_meta [] false 0 demo_versioned_ok
    demo_solana_meta_ok) as (p & Hp & Hback & _).
  exists p. split; [exact Hp|exact Hback].
Defined.
End witnesses.
