(* ===== verification/ConvertAccepts.v ===== *)
(** * What converting back from protobuf accepts

    convert_from.rs fails with a text that names the first field that does not
    fit. Here is what fits, said of the protobuf messages themselves: a block
    converts back exactly when its messages are well-formed. And what is accepted
    is stable: converting it to protobuf and back again changes nothing more. *)

From S2P Require Import Prelude Storage Message SubscribeUpdate Convert ConvertSpec.

Set Default Goal Selector "!".

Local Open Scope Z_scope.

(** ** Well-formed messages *)

(** The number a string of digits stands for. *)
Fixpoint decimal_value (acc : Z) (s : string) : option Z :=
  match s with
  | EmptyString => Some acc
  | String c s => d ← digit_value c; decimal_value (acc * 10 + d) s
  end.

Definition PLUS : Ascii.ascii := Ascii.ascii_of_nat 43.

(** An absent number, or digits after an optional sign, within a bound. *)
Definition wf_number (max : Z) (s : string) : Prop :=
  s = "" ∨ ∃ digits n, (s = digits ∨ s = String PLUS digits) ∧ digits ≠ "" ∧ decimal_value 0 digits = Some n ∧ n <= max.

Definition wf_header (h : ProtoMessageHeader) : Prop :=
  u8_ok (pmh_num_required_signatures h) ∧ u8_ok (pmh_num_readonly_signed_accounts h) ∧ u8_ok (pmh_num_readonly_unsigned_accounts h).

(** The address tables of a message count only when it is versioned and has no
    configuration of its own. *)
Definition wf_message (m : ProtoMessage) : Prop :=
  (∃ h, pm_header m = Some h ∧ wf_header h) ∧ key_ok (pm_recent_blockhash m) ∧
  (pm_config m = None → pm_versioned m = true → Forall (λ l, key_ok (pal_account_key l)) (pm_address_table_lookups m)) ∧
  Forall key_ok (pm_account_keys m) ∧ Forall (λ ix, u8_ok (pci_program_id_index ix)) (pm_instructions m).

Definition wf_transaction (tx : Transaction) : Prop :=
  Forall (λ s, length s = 64%nat) (tx_signatures tx) ∧ ∃ m, tx_message tx = Some m ∧ wf_message m.

Definition wf_inner (i : ProtoInnerInstructions) : Prop :=
  Forall (λ ix, u8_ok (pii_program_id_index ix)) (piis_instructions i) ∧ u8_ok (piis_index i).

Definition wf_balance (b : TokenBalance) : Prop :=
  ∃ a, tb_ui_token_amount b = Some a ∧ u8_ok (tb_account_index b) ∧ u8_ok (uta_decimals a).

Definition wf_reward (r : ProtoReward) : Prop :=
  0 <= prw_reward_type r <= 5 ∧ wf_number u8_max (prw_commission r) ∧ wf_number u16_max (prw_commission_bps r).

Section accepts.
Context {W : Wincode}.

Definition wf_meta (m : TransactionStatusMeta) : Prop :=
  (∀ b, meta_err m = Some b → is_Some (wincode_deserialize b)) ∧
  Forall wf_reward (meta_rewards m) ∧
  (meta_inner_instructions_none m = false → Forall wf_inner (meta_inner_instructions m)) ∧
  Forall wf_balance (meta_pre_token_balances m) ∧ Forall wf_balance (meta_post_token_balances m) ∧
  Forall key_ok (meta_loaded_writable_addresses m) ∧ Forall key_ok (meta_loaded_readonly_addresses m) ∧
  (meta_return_data_none m = false → ∃ d, meta_return_data m = Some d ∧ key_ok (prd_program_id d)).

Definition wf_info (info : SubscribeUpdateTransactionInfo) : Prop :=
  (∃ m, sti_meta info = Some m ∧ wf_meta m) ∧ (∃ tx, sti_transaction info = Some tx ∧ wf_transaction tx).

Definition wf_block (b : SubscribeUpdateBlock) : Prop :=
  Forall wf_info (sb_transactions b) ∧ (∃ r, sb_rewards b = Some r ∧ Forall wf_reward (prws_rewards r)) ∧
  is_Some (sb_block_time b) ∧ is_Some (sb_block_height b).

(** ** Accepted: the conversion does not fail *)

Definition accepted {A} (r : result string A) : Prop := ∃ a, r = Ok a.

Lemma accepted_ok {A} (a : A) : accepted (Ok a) ↔ True.
Proof. split; [done|]. by exists a. Qed.

(** One step of a chain, when what follows does not depend on its value. *)
Lemma accepted_bind {A B} (m : result string A) (f : A → result string B) P Q :
  (accepted m ↔ P) → (∀ a, m = Ok a → accepted (f a) ↔ Q) → accepted (m ≫= f) ↔ P ∧ Q.
Proof.
  intros Hm Hf. rewrite <- Hm. split.
  - intros [b Hb]. apply bind_ok in Hb as (a & -> & Hb). split; [by exists a|]. apply (Hf a eq_refl). by exists b.
  - intros [[a ->] HQ]. by apply (Hf a eq_refl).
Qed.

(** The last step only packs what there is. *)
Lemma accepted_last {A B} (m : result string A) (f : A → B) P :
  (accepted m ↔ P) → accepted (a ← m; Ok (f a)) ↔ P.
Proof. intros Hm. rewrite (accepted_bind _ _ P True); [tauto|done|]. intros a _. apply accepted_ok. Qed.

Lemma accepted_u8 err z : accepted (u8_try_from err z) ↔ u8_ok z.
Proof. split; [intros [n [-> ?]%u8_try_from_ok]|intros H; exists z; by apply u8_try_from_small]; done. Qed.

Lemma accepted_ok_or {A} err (o : option A) : accepted (ok_or err o) ↔ is_Some o.
Proof. split; [intros [a Ha%ok_or_ok]; by exists a|intros [a ->]; by exists a]. Qed.

(** An optional part, and what is asked of it. *)
Lemma accepted_part {A B} err (o : option A) (f : A → result string B) (P : A → Prop) :
  (∀ a, accepted (f a) ↔ P a) → accepted (ok_or err o ≫= f) ↔ ∃ a, o = Some a ∧ P a.
Proof. intros Hf. destruct o as [a|]; cbn; [rewrite Hf|]; split; [by eauto|by intros (? & [= <-] & ?)|by intros []|by intros (? & ? & _)]. Qed.

Lemma accepted_key err k : accepted (ok_or err (Pubkey_try_from k)) ↔ key_ok k.
Proof.
  rewrite accepted_ok_or. split; [intros [a [-> ?]%pubkey_try_from_ok]; done|]. intros ?. exists k. by apply pubkey_try_from_small.
Qed.

Lemma accepted_collect {A B} (f : A → result string B) (P : A → Prop) l :
  (∀ a, accepted (f a) ↔ P a) → accepted (collect_result (f <$> l)) ↔ Forall P l.
Proof.
  intros Hf. induction l as [|a l IH]; [split; [constructor|by exists []]|]. rewrite Forall_cons, <- IH, <- Hf, fmap_cons. split.
  - intros [bs Hbs%collect_result_ok]. destruct bs as [|b bs]; [done|]. injection Hbs as Ha Hl.
    split; [by exists b|]. exists bs. by apply collect_result_ok.
  - intros [[b Hb] [bs Hbs%collect_result_ok]]. exists (b :: bs). apply collect_result_ok. csimpl. by rewrite Hb, Hbs.
Qed.

(** ** Numbers *)

Lemma digit_value_range c d : digit_value c = Some d → 0 <= d <= 9.
Proof.
  unfold digit_value. destruct (Z.leb_spec 0 (Z.of_nat (Ascii.nat_of_ascii c) - 48)); [|done].
  destruct (Z.leb_spec (Z.of_nat (Ascii.nat_of_ascii c) - 48) 9); [|done]. by intros [= <-].
Qed.

Lemma decimal_value_ge acc s n : 0 <= acc → decimal_value acc s = Some n → acc <= n.
Proof.
  revert acc. induction s as [|c s IH]; intros acc Hacc; cbn [decimal_value]; [intros [= <-]; lia|].
  destruct (digit_value c) as [d|] eqn:Hd; [|done]. apply digit_value_range in Hd. intros Hn%IH; lia.
Qed.

Lemma parse_digits_value max acc s : 0 <= acc <= max →
  is_Some (parse_digits max acc s) ↔ ∃ n, decimal_value acc s = Some n ∧ n <= max.
Proof.
  revert acc. induction s as [|c s IH]; intros acc Hacc; cbn [parse_digits decimal_value].
  - split; [intros _; exists acc; split; [done|lia]|done].
  - destruct (digit_value c) as [d|] eqn:Hd; cbn [mbind option_bind]; [|split; [by intros []|by intros (? & ? & _)]].
    apply digit_value_range in Hd. destruct (Z.leb_spec (acc * 10 + d) max) as [Hle|Hgt]; [apply IH; lia|].
    split; [by intros []|]. intros (n & Hn & Hmax). apply decimal_value_ge in Hn; lia.
Qed.

Lemma accepted_number err max s : 0 <= max → accepted (from_proto.parse_optional err max s) ↔ wf_number max s.
Proof.
  intros Hmax. unfold from_proto.parse_optional, wf_number. case_bool_decide as Hs; [split; [by left|by exists None]|].
  rewrite (accepted_last _ _ (is_Some (parse_uint max s))) by apply accepted_ok_or.
  destruct s as [|c rest]; [done|]. cbn [parse_uint]. case_bool_decide as Hplus.
  - assert (c = PLUS) as -> by (by rewrite <- (Ascii.ascii_nat_embedding c), Hplus).
    destruct rest as [|c rest].
    + split; [by intros []|]. intros [?|(ds & n & [<-|[= <-]] & Hne & Hv & _)]; [done|done|done].
    + rewrite parse_digits_value by lia. split.
      * intros (n & Hn & Hle). right. exists (String c rest), n. by repeat split; [right|..].
      * intros [?|(ds & n & [<-|[= <-]] & Hne & Hv & Hle)]; [done|done|by exists n].
  - rewrite parse_digits_value by lia. split.
    + intros (n & Hn & Hle). right. exists (String c rest), n. by repeat split; [left|..].
    + intros [?|(ds & n & [<-|[= -> ->]] & Hne & Hv & Hle)]; [done|by exists n|by destruct Hplus].
Qed.

(** ** The messages, from the inside out *)

Lemma accepted_keys keys : accepted (from_proto.create_pubkey_vec keys) ↔ Forall key_ok keys.
Proof. apply accepted_collect. intros k. apply accepted_key. Qed.

Lemma accepted_instructions ixs :
  accepted (from_proto.create_message_instructions ixs) ↔ Forall (λ ix, u8_ok (pci_program_id_index ix)) ixs.
Proof. apply accepted_collect. intros ix. apply accepted_last, accepted_u8. Qed.

Lemma accepted_header h : accepted (from_proto.create_header_of_proto h) ↔ wf_header h.
Proof.
  unfold wf_header. apply accepted_bind; [apply accepted_u8|]. intros ? _. apply accepted_bind; [apply accepted_u8|]. intros ? _.
  apply accepted_last, accepted_u8.
Qed.

Lemma accepted_message m : accepted (from_proto.create_message_of_proto m) ↔ wf_message m.
Proof.
  unfold from_proto.create_message_of_proto, wf_message.
  destruct (pm_header m) as [h|]; cbn [ok_or mbind result_bind]; [|split; [by intros []|by intros ((? & ? & _) & _)]].
  rewrite (accepted_bind _ _ (wf_header h)
    (key_ok (pm_recent_blockhash m) ∧
     (pm_config m = None → pm_versioned m = true → Forall (λ l, key_ok (pal_account_key l)) (pm_address_table_lookups m)) ∧
     Forall key_ok (pm_account_keys m) ∧ Forall (λ ix, u8_ok (pci_program_id_index ix)) (pm_instructions m))); [|apply accepted_header|].
  { split; [intros [? ?]; split; [by exists h|done]|intros ((? & [= <-] & ?) & ?); done]. }
  intros h' _. apply accepted_bind; [apply accepted_key|]. intros hash _.
  assert (∀ {B} (f : list Pubkey → list solana.CompiledInstruction → B),
    accepted (keys ← from_proto.create_pubkey_vec (pm_account_keys m); ixs ← from_proto.create_message_instructions (pm_instructions m); Ok (f keys ixs))
    ↔ Forall key_ok (pm_account_keys m) ∧ Forall (λ ix, u8_ok (pci_program_id_index ix)) (pm_instructions m)) as Hrest.
  { intros C f. apply accepted_bind; [apply accepted_keys|]. intros keys _. apply accepted_last, accepted_instructions. }
  destruct (pm_config m) as [config|]; [rewrite Hrest; naive_solver|].
  destruct (pm_versioned m); [|rewrite Hrest; naive_solver].
  apply accepted_bind; [|intros lookups _; apply Hrest].
  etrans; [apply (accepted_collect _ (λ l, key_ok (pal_account_key l))); intros l; apply accepted_last, accepted_key|].
  split; [done|by intros Hl; apply Hl].
Qed.

Lemma accepted_transaction tx : accepted (from_proto.create_tx_versioned tx) ↔ wf_transaction tx.
Proof.
  unfold wf_transaction. apply accepted_bind.
  - apply accepted_collect. intros s. rewrite accepted_ok_or. unfold from_proto.signature_try_from.
    case_decide; split; try done; by intros [].
  - intros signatures _. apply accepted_part. intros m. apply accepted_last, accepted_message.
Qed.

Lemma accepted_inner l : accepted (from_proto.create_meta_inner_instructions l) ↔ Forall wf_inner l.
Proof.
  apply accepted_collect. intros i. apply accepted_bind; [|intros ixs _; apply accepted_last, accepted_u8].
  apply accepted_collect. intros ix. apply accepted_last, accepted_u8.
Qed.

Lemma accepted_rewards l : accepted (from_proto.create_rewards_of_proto l) ↔ Forall wf_reward l.
Proof.
  apply accepted_collect. intros r. unfold wf_reward. apply accepted_bind.
  - unfold from_proto.create_reward_type_of_proto. split.
    + intros [t Ht]. repeat (case_match; try discriminate Ht); lia.
    + intros Hr. assert (prw_reward_type r = 0 ∨ prw_reward_type r = 1 ∨ prw_reward_type r = 2 ∨ prw_reward_type r = 3 ∨
        prw_reward_type r = 4 ∨ prw_reward_type r = 5) as Ht by lia.
      repeat destruct Ht as [Ht|Ht]; rewrite Ht; by eexists.
  - intros t _. apply accepted_bind; [by apply accepted_number|]. intros c _. by apply accepted_last, accepted_number.
Qed.

Lemma accepted_balances l : accepted (from_proto.create_token_balances_of_proto l) ↔ Forall wf_balance l.
Proof.
  apply accepted_collect. intros b. apply accepted_part. intros a. apply accepted_bind; [apply accepted_u8|]. intros i _.
  apply accepted_last, accepted_u8.
Qed.

Lemma accepted_return none d :
  accepted (from_proto.create_return_data_of_proto none d) ↔ (none = false → ∃ x, d = Some x ∧ key_ok (prd_program_id x)).
Proof.
  unfold from_proto.create_return_data_of_proto. destruct none; [split; [done|by exists None]|].
  rewrite (accepted_part _ _ _ (λ x, key_ok (prd_program_id x))); [naive_solver|]. intros x. apply accepted_last, accepted_key.
Qed.

Lemma accepted_meta m : accepted (from_proto.create_tx_meta m) ↔ wf_meta m.
Proof.
  unfold from_proto.create_tx_meta, wf_meta. apply accepted_bind.
  { unfold from_proto.create_tx_error. destruct (meta_err m) as [b|]; [|split; [done|by exists None]].
    rewrite (accepted_last _ _ (is_Some (wincode_deserialize b))) by apply accepted_ok_or. naive_solver. }
  intros status _. apply accepted_bind; [apply accepted_rewards|]. intros rewards _. apply accepted_bind.
  { destruct (meta_inner_instructions_none m); [split; [done|by exists None]|].
    rewrite (accepted_last _ _ _ (accepted_inner _)). naive_solver. }
  intros inner _. apply accepted_bind; [apply accepted_balances|]. intros pre _. apply accepted_bind; [apply accepted_balances|].
  intros post _. rewrite (assoc (∧)). apply accepted_bind.
  { apply accepted_bind; [apply accepted_keys|]. intros w _. apply accepted_last, accepted_keys. }
  intros loaded _. apply accepted_last, accepted_return.
Qed.

Lemma accepted_info info : accepted (from_proto.create_tx_with_meta info) ↔ wf_info info.
Proof.
  unfold from_proto.create_tx_with_meta, wf_info.
  destruct (sti_meta info) as [m|]; cbn [ok_or mbind result_bind]; [|split; [by intros []|by intros ((? & ? & _) & _)]].
  destruct (sti_transaction info) as [tx|]; cbn [ok_or mbind result_bind]; [|split; [by intros []|by intros (_ & ? & ? & _)]].
  rewrite (accepted_bind _ _ (wf_transaction tx) (wf_meta m)); [|apply accepted_transaction|].
  - split; [intros [? ?]; split; by eauto|intros [(? & [= <-] & ?) (? & [= <-] & ?)]; done].
  - intros t _. apply accepted_last, accepted_meta.
Qed.

Lemma accepted_block block : accepted (from_proto.create_block block) ↔ wf_block block.
Proof.
  unfold from_proto.create_block, wf_block. apply accepted_bind; [apply accepted_collect, accepted_info|]. intros txs _.
  destruct (sb_rewards block) as [r|]; cbn [ok_or mbind result_bind]; [|split; [by intros []|by intros ((? & ? & _) & _)]].
  rewrite (accepted_bind _ _ (Forall wf_reward (prws_rewards r)) (is_Some (sb_block_time block) ∧ is_Some (sb_block_height block)));
    [|apply accepted_rewards|].
  - split; [intros [? ?]; split; [by eauto|done]|intros [(? & [= <-] & ?) ?]; done].
  - intros rs _. apply accepted_bind; [apply accepted_ok_or|]. intros time _. apply accepted_last, accepted_ok_or.
Qed.

(** ** What is accepted is stable *)

Lemma balances_normal l bs : from_proto.create_token_balances_of_proto l = Ok bs → normal_balance <$> bs = bs.
Proof.
  intros H. apply (collect_all _ (λ b, normal_balance b = b)) in H.
  - induction H as [|b bs Hb _ IH]; [done|]. csimpl. by rewrite Hb, IH.
  - intros b b' Hb. unfold from_proto.create_token_balance_of_proto in Hb. step Hb a Ha. step Hb i Hi. step Hb d Hd. by injection Hb as <-.
Qed.

Lemma meta_normal p m : from_proto.create_tx_meta p = Ok m → normal_meta m = m.
Proof.
  unfold from_proto.create_tx_meta. intros H. step H st Hst. step H rs Hrs. step H inner Hin. step H pre Hpre. step H post Hpost.
  step H loaded Hl. step H ret Hret. injection H as <-. unfold normal_meta. cbn.
  by rewrite (balances_normal _ _ Hpre), (balances_normal _ _ Hpost).
Qed.

Lemma info_stable {WL : WincodeLaws} info t signature is_vote index : from_proto.create_tx_with_meta info = Ok t →
  ∃ p, to_proto.create_transaction_meta (solana.wm_meta t) = Done p ∧
    from_proto.create_tx_with_meta (mkSubscribeUpdateTransactionInfo signature is_vote
      (Some (to_proto.create_transaction (solana.wm_transaction t))) (Some p) index) = Ok t.
Proof.
  intros H. destruct (with_meta_typed _ _ H) as [Htx Hm]. destruct (meta_back _ Hm) as (p & Hp & Hback). exists p. split; [done|].
  unfold from_proto.create_tx_with_meta in H. step H m0 Hm0. step H t0 Ht0. step H tx Hx. step H m Hmeta. injection H as <-.
  cbn [solana.wm_transaction solana.wm_meta] in *. unfold from_proto.create_tx_with_meta.
  cbn [sti_meta sti_transaction ok_or mbind result_bind]. rewrite (versioned_back _ Htx). cbn [mbind result_bind].
  rewrite Hback, (meta_normal _ _ Hmeta). done.
Qed.

(** C39. What converting back accepts: a block of protobuf messages converts
    exactly when it is well-formed, that is keys, hashes and signatures have
    their length, every number that was widened fits its width, the numbers kept
    as text are decimals within theirs, the reward types exist, the required parts
    are there and the recorded errors decode; nothing is cut off or guessed to
    make it fit. What is accepted is stable: its transactions and its rewards,
    converted to protobuf and back once more, are unchanged. *)
Theorem convert_from_accepts_well_formed {WL : WincodeLaws} block :
  ((∃ b, from_proto.create_block block = Ok b) ↔ wf_block block) ∧
  ∀ b, from_proto.create_block block = Ok b →
    from_proto.create_rewards_of_proto (to_proto.create_rewards (solana.block_rewards b)) = Ok (solana.block_rewards b) ∧
    Forall (λ t, ∀ signature is_vote index, ∃ p,
      to_proto.create_transaction_meta (solana.wm_meta t) = Done p ∧
      from_proto.create_tx_with_meta (mkSubscribeUpdateTransactionInfo signature is_vote
        (Some (to_proto.create_transaction (solana.wm_transaction t))) (Some p) index) = Ok t) (solana.transactions b).
Proof.
  split; [apply accepted_block|]. intros b H. unfold from_proto.create_block in H.
  step H txs Htxs. step H br Hbr. step H rs Hrs. step H time Htime. step H height Hheight. injection H as <-.
  split; [by apply rewards_back; eapply rewards_typed|].
  eapply collect_all; [|exact Htxs]. intros info t Ht signature is_vote index. by eapply info_stable.
Qed.
End accepts.

(** ** Two blocks that differ in the text of a number *)

Section witnesses.
#[local] Existing Instances byte_wincode byte_wincode_laws.

Definition demo_info_meta : option TransactionStatusMeta :=
  match to_proto.create_transaction_meta demo_solana_meta with Done p => Some p | Panic => None end.

Definition demo_proto_block (commission : string) : SubscribeUpdateBlock :=
  mkSubscribeUpdateBlock 9 "h" (Some (mkProtoRewards [mkProtoReward "v" 1 2 4 commission "+007"] None)) (Some 1) (Some 2) 8 "p" 0
    [mkSubscribeUpdateTransactionInfo [] false (Some (to_proto.create_transaction demo_versioned)) demo_info_meta 0] 0 [] 0 [].

Lemma convert_from_accepts_well_formed_witness : wf_block (demo_proto_block "255") ∧ ¬ wf_block (demo_proto_block "256").
Proof.
  split.
  - apply (proj1 (convert_from_accepts_well_formed (demo_proto_block "255"))). eexists. reflexivity.
  - intros H. apply (proj1 (convert_from_accepts_well_formed (demo_proto_block "256"))) in H. destruct H as [b Hb].
    vm_compute in Hb. discriminate Hb.
Defined.
End witnesses.
