(* ===== verification/FromGeyser.v ===== *)
(** * plugin/message.rs: messages built from the plugin interface

    The [from_geyser] constructors. The replica structs of the interface
    (third-party) are records of the fields the code reads;
    [SystemTime::now()] is the argument [now]. A byte slice of the wrong length
    meets an [expect] and panics. *)

From S2P Require Import Prelude Storage Message SubscribeUpdate Convert ConvertSpec.

Set Default Goal Selector "!".

Record ReplicaAccountInfoV3 := mkReplicaAccountInfoV3 {
  rai_pubkey : bytes;
  rai_lamports : Z;
  rai_owner : bytes;
  rai_executable : bool;
  rai_rent_epoch : Z;
  rai_data : bytes;
  rai_write_version : Z;
  (** [txn.map(|txn| *txn.signature())] *)
  rai_txn_signature : option Signature
}.

(** [Pubkey::try_from(slice).expect(..)]. *)
Definition expect_pubkey (b : bytes) : outcome Pubkey :=
  match Pubkey_try_from b with Some k => Done k | None => Panic end.

Definition MessageAccountInfo_from_geyser (info : ReplicaAccountInfoV3) : outcome MessageAccountInfo :=
  pubkey ← expect_pubkey (rai_pubkey info);
  owner ← expect_pubkey (rai_owner info);
  Done
    {| ai_pubkey := pubkey;
       ai_lamports := rai_lamports info;
       ai_owner := owner;
       ai_executable := rai_executable info;
       ai_rent_epoch := rai_rent_epoch info;
       ai_data := rai_data info;
       ai_write_version := rai_write_version info;
       ai_txn_signature := rai_txn_signature info;
       ai_pre_encoded := None |}.

Definition MessageAccount_from_geyser (now : Timestamp) (info : ReplicaAccountInfoV3) (slot : Z)
    (is_startup : bool) : outcome MessageAccount :=
  account ← MessageAccountInfo_from_geyser info;
  Done {| ma_account := account; ma_slot := slot; ma_is_startup := is_startup; ma_created_at := now |}.

(** [VersionedMessage::static_account_keys]. *)
Definition static_account_keys (m : solana.VersionedMessage) : list Pubkey :=
  match m with
  | solana.Legacy _ keys _ _ => keys
  | solana.V0 _ keys _ _ _ => keys
  | solana.V1 _ _ _ keys _ => keys
  end.

Section tx.
Context {W : Wincode}.

Record ReplicaTransactionInfoV3 := mkReplicaTransactionInfoV3 {
  rti_signature : Signature;
  rti_is_vote : bool;
  rti_transaction : solana.VersionedTransaction;
  rti_transaction_status_meta : solana.TransactionStatusMeta;
  rti_index : Z
}.

Definition MessageTransactionInfo_from_geyser (info : ReplicaTransactionInfoV3)
    : outcome MessageTransactionInfo :=
  let loaded := solana.loaded_addresses (rti_transaction_status_meta info) in
  let account_keys : gset Pubkey := list_to_set
    (static_account_keys (solana.message (rti_transaction info))
     ++ solana.writable loaded ++ solana.readonly loaded) in
  meta ← to_proto.create_transaction_meta (rti_transaction_status_meta info);
  Done
    {| ti_signature := rti_signature info;
       ti_is_vote := rti_is_vote info;
       ti_transaction := to_proto.create_transaction (rti_transaction info);
       ti_meta := meta;
       ti_index := rti_index info;
       ti_account_keys := account_keys;
       ti_pre_encoded := None;
       ti_token_owners_all := None;
       ti_token_owners_changed := None |}.

Definition MessageTransaction_from_geyser (now : Timestamp) (info : ReplicaTransactionInfoV3) (slot : Z)
    : outcome MessageTransaction :=
  transaction ← MessageTransactionInfo_from_geyser info;
  Done {| mt_transaction := transaction; mt_slot := slot; mt_created_at := now |}.
End tx.

Record ReplicaDeshredTransactionInfo := mkReplicaDeshredTransactionInfo {
  rdi_signature : Signature;
  rdi_is_vote : bool;
  rdi_transaction : solana.VersionedTransaction;
  rdi_loaded_addresses : option solana.LoadedAddresses
}.

Record ReplicaDeshredTransactionInfoV2 := mkReplicaDeshredTransactionInfoV2 {
  rdi2_info : ReplicaDeshredTransactionInfo;
  rdi2_completed_data_set_starting_shred_index : Z;
  rdi2_completed_data_set_ending_shred_index_exclusive : Z
}.

Inductive ReplicaDeshredTransactionInfoVersions :=
| V0_0_1 (v1 : ReplicaDeshredTransactionInfo)
| V0_0_2 (v2 : ReplicaDeshredTransactionInfoV2).

Definition MessageDeshredTransactionInfo_from_geyser (info : ReplicaDeshredTransactionInfo)
    : MessageDeshredTransactionInfo :=
  {| di_signature := rdi_signature info;
     di_is_vote := rdi_is_vote info;
     di_transaction := to_proto.create_transaction (rdi_transaction info);
     di_static_account_keys := list_to_set (static_account_keys (solana.message (rdi_transaction info)));
     di_loaded_writable_addresses := from_option solana.writable [] (rdi_loaded_addresses info);
     di_loaded_readonly_addresses := from_option solana.readonly [] (rdi_loaded_addresses info);
     di_completed_data_set_starting_shred_index := 0;
     di_completed_data_set_ending_shred_index_exclusive := 0 |}.

Definition MessageDeshredTransactionInfo_from_geyser_v2 (info : ReplicaDeshredTransactionInfoV2)
    : MessageDeshredTransactionInfo :=
  let v1 := rdi2_info info in
  {| di_signature := rdi_signature v1;
     di_is_vote := rdi_is_vote v1;
     di_transaction := to_proto.create_transaction (rdi_transaction v1);
     di_static_account_keys := list_to_set (static_account_keys (solana.message (rdi_transaction v1)));
     di_loaded_writable_addresses := from_option solana.writable [] (rdi_loaded_addresses v1);
     di_loaded_readonly_addresses := from_option solana.readonly [] (rdi_loaded_addresses v1);
     di_completed_data_set_starting_shred_index := rdi2_completed_data_set_starting_shred_index info;
     di_completed_data_set_ending_shred_index_exclusive :=
       rdi2_completed_data_set_ending_shred_index_exclusive info |}.

Definition MessageDeshredTransaction_from_geyser_versioned (now : Timestamp)
    (transaction : ReplicaDeshredTransactionInfoVersions) (slot : Z) : MessageDeshredTransaction :=
  {| md_transaction :=
       match transaction with
       | V0_0_1 v1 => MessageDeshredTransactionInfo_from_geyser v1
       | V0_0_2 v2 => MessageDeshredTransactionInfo_from_geyser_v2 v2
       end;
     md_slot := slot;
     md_created_at := now |}.

Record ReplicaEntryInfoV2 := mkReplicaEntryInfoV2 {
  rei_slot : Z;
  rei_index : Z;
  rei_num_hashes : Z;
  rei_hash : bytes;
  rei_executed_transaction_count : Z;
  rei_starting_transaction_index : Z
}.

(** [usize] to [u64] never fails on a 64-bit machine. *)
Definition MessageEntry_from_geyser (now : Timestamp) (info : ReplicaEntryInfoV2) : outcome MessageEntry :=
  match from_proto.hash_try_from (rei_hash info) with
  | None => Panic
  | Some hash =>
      Done
        {| me_slot := rei_slot info;
           me_index := rei_index info;
           me_num_hashes := rei_num_hashes info;
           me_hash := hash;
           me_executed_transaction_count := rei_executed_transaction_count info;
           me_starting_transaction_index := rei_starting_transaction_index info;
           me_created_at := now |}
  end.

Record ReplicaBlockInfoV4 := mkReplicaBlockInfoV4 {
  rbi_parent_slot : Z;
  rbi_parent_blockhash : string;
  rbi_slot : Z;
  rbi_blockhash : string;
  rbi_rewards : list solana.Reward;
  rbi_num_partitions : option Z;
  rbi_block_time : option Z;
  rbi_block_height : option Z;
  rbi_executed_transaction_count : Z;
  rbi_entry_count : Z
}.

Definition MessageBlockMeta_from_geyser (now : Timestamp) (info : ReplicaBlockInfoV4) : MessageBlockMeta :=
  {| bm_slot := rbi_slot info;
     bm_blockhash := rbi_blockhash info;
     bm_rewards := Some (to_proto.create_rewards_obj (rbi_rewards info) (rbi_num_partitions info));
     bm_block_time := rbi_block_time info;
     bm_block_height := rbi_block_height info;
     bm_parent_slot := rbi_parent_slot info;
     bm_parent_blockhash := rbi_parent_blockhash info;
     bm_executed_transaction_count := rbi_executed_transaction_count info;
     bm_entries_count := rbi_entry_count info;
     bm_created_at := now |}.

Definition MessageBlockMeta_from_update_oneof (m : SubscribeUpdateBlockMeta) (created_at : Timestamp)
    : MessageBlockMeta :=
  {| bm_slot := sbm_slot m;
     bm_blockhash := sbm_blockhash m;
     bm_rewards := sbm_rewards m;
     bm_block_time := sbm_block_time m;
     bm_block_height := sbm_block_height m;
     bm_parent_slot := sbm_parent_slot m;
     bm_parent_blockhash := sbm_parent_blockhash m;
     bm_executed_transaction_count := sbm_executed_transaction_count m;
     bm_entries_count := sbm_entries_count m;
     bm_created_at := created_at |}.

(** ** The keys the filters look at are the keys of the message that is sent *)

Section spec.
Context {W : Wincode}.

Lemma create_message_keys m : pm_account_keys (to_proto.create_message m) = static_account_keys m.
Proof. by destruct m. Qed.

Lemma insert_account_keys_valid keys l :
  Forall key_ok l → insert_account_keys keys l = Ok (list_to_set l ∪ keys).
Proof. intros Hl. by apply insert_account_keys_ok. Qed.

(** A transaction built from the plugin interface is matched on exactly the
    keys of the message its subscribers receive: recomputing the key set from
    the protobuf transaction and metadata ([fill_account_keys], the path of the
    fixtures and of replays) succeeds and changes nothing. *)
Theorem from_geyser_keys_are_sent info t :
  versioned_ok (rti_transaction info) →
  loaded_ok (solana.loaded_addresses (rti_transaction_status_meta info)) →
  MessageTransactionInfo_from_geyser info = Done t →
  MessageTransactionInfo_fill_account_keys t = Ok t.
Proof.
  intros [_ Hm] [Hw Hr]. unfold MessageTransactionInfo_from_geyser, to_proto.create_transaction_meta.
  destruct (to_proto.create_transaction_error _) as [err|]; [|done]. rewrite !outcome_bind_done.
  intros [= <-]. unfold MessageTransactionInfo_fill_account_keys. cbn [ti_transaction ti_meta ti_signature
    ti_is_vote ti_index ti_pre_encoded ti_token_owners_all ti_token_owners_changed ti_account_keys
    to_proto.create_transaction tx_message meta_loaded_writable_addresses meta_loaded_readonly_addresses].
  rewrite create_message_keys. unfold to_proto.create_pubkeys.
  assert (Forall key_ok (static_account_keys (solana.message (rti_transaction info)))) as Hk
    by (destruct (solana.message (rti_transaction info)); cbn in *; tauto).
  rewrite insert_account_keys_valid by done. cbn [mbind result_bind].
  rewrite insert_account_keys_valid by done. cbn [mbind result_bind].
  rewrite insert_account_keys_valid by done. cbn [mbind result_bind].
  f_equal. f_equal. set_solver.
Qed.
End spec.

Section witnesses.
#[local] Instance geyser_wincode : Wincode := {|
  TransactionError := byte;
  wincode_serialize := λ e, Some [e];
  wincode_deserialize := λ b, head b
|}.

Definition demo_replica_transaction : ReplicaTransactionInfoV3 :=
  mkReplicaTransactionInfoV3 (replicate 64 Byte.x01) false
    (solana.mkVersionedTransaction [replicate 64 Byte.x01]
       (solana.Legacy (solana.mkMessageHeader 1 0 0) [replicate 32 Byte.x41] (replicate 32 Byte.x42) []))
    {| solana.status := None; solana.fee := 1; solana.pre_balances := []; solana.post_balances := [];
       solana.inner_instructions := None; solana.log_messages := None;
       solana.pre_token_balances := None; solana.post_token_balances := None; solana.rewards := None;
       solana.loaded_addresses := solana.mkLoadedAddresses [replicate 32 Byte.x43] [];
       solana.return_data := None; solana.compute_units_consumed := None; solana.cost_units := None |} 3.

Lemma from_geyser_keys_are_sent_witness :
  ∃ t, MessageTransactionInfo_from_geyser demo_replica_transaction = Done t ∧
    MessageTransactionInfo_fill_account_keys t = Ok t.
Proof.
  eexists. split; [reflexivity|].
  apply (from_geyser_keys_are_sent demo_replica_transaction); [| |reflexivity].
  - split; [by repeat constructor|]. split; [unfold header_ok, u8_ok, u8_max; simpl; lia|].
    split; [by repeat constructor|]. split; [done|by constructor].
  - split; by repeat constructor.
Defined.
End witnesses.
