(* ===== verification/Channels.v ===== *)
(** * tokio channels

    The channels the server's tasks share are third-party: they are classes of
    operations with the laws that state their documented behaviour, and the
    concrete instances at the end show that the laws can hold. *)

From S2P Require Import Prelude.

Set Default Goal Selector "!".

Local Open Scope Z_scope.

(** [tokio::sync::broadcast]: a receiver sees what is sent after it was made,
    in order, or is told that it lagged. *)
Inductive RecvResult (E : Type) :=
| Received (event : E)
| RecvEmpty
| RecvLagged (skipped : Z)
| RecvClosed.
Arguments Received {E} event.
Arguments RecvEmpty {E}.
Arguments RecvLagged {E} skipped.
Arguments RecvClosed {E}.

Class Broadcast (E : Type) := {
  channel : Type;
  receiver : Type;
  broadcast_channel : nat → channel;
  broadcast_send : channel → E → channel;
  broadcast_subscribe : channel → receiver;
  broadcast_recv : channel → receiver → RecvResult E * receiver
}.
Arguments channel E {_}.
Arguments receiver E {_}.

(** [tokio::sync::watch] of a [bool]: [watch_channel] has no receiver left (the
    code drops it); a send fails, leaving the value, when there is none. *)
Class Watch := {
  watch : Type;
  watch_channel : bool → watch;
  watch_borrow : watch → bool;
  watch_subscribe : watch → watch;
  watch_drop : watch → watch;
  watch_send : watch → bool → watch
}.

(** A receiver has a position in the sequence of everything sent. *)
Class BroadcastLaws (E : Type) {B : Broadcast E} := {
  sent : channel E → list E;
  position : receiver E → nat;
  sent_new n : sent (broadcast_channel n) = [];
  sent_send c e : sent (broadcast_send c e) = sent c ++ [e];
  position_subscribe c : position (broadcast_subscribe c) = length (sent c);
  recv_event c rx e rx' : broadcast_recv c rx = (Received e, rx') →
    sent c !! position rx = Some e ∧ position rx' = S (position rx);
  recv_empty c rx rx' : broadcast_recv c rx = (RecvEmpty, rx') → (length (sent c) <= position rx)%nat
}.

Class WatchLaws {W : Watch} := {
  watch_receivers : watch → nat;
  borrow_new b : watch_borrow (watch_channel b) = b;
  receivers_new b : watch_receivers (watch_channel b) = 0%nat;
  borrow_subscribe w : watch_borrow (watch_subscribe w) = watch_borrow w;
  receivers_subscribe w : watch_receivers (watch_subscribe w) = S (watch_receivers w);
  borrow_drop w : watch_borrow (watch_drop w) = watch_borrow w;
  receivers_drop w : watch_receivers (watch_drop w) = pred (watch_receivers w);
  receivers_send w b : watch_receivers (watch_send w b) = watch_receivers w;
  borrow_send w b : watch_borrow (watch_send w b)
    = if bool_decide (watch_receivers w = 0%nat) then watch_borrow w else b
}.

(** ** Instances *)

Section instances.
Context {E : Type}.

(** A ring that keeps the last [capacity] events; a receiver is its position. *)
Definition ring_recv (c : nat * list E) (rx : nat) : RecvResult E * nat :=
  let oldest := (length c.2 - c.1)%nat in
  if Nat.ltb rx oldest then (RecvLagged (Z.of_nat (oldest - rx)), oldest)
  else match c.2 !! rx with Some e => (Received e, S rx) | None => (RecvEmpty, rx) end.

Lemma ring_recv_event c rx e rx' : ring_recv c rx = (Received e, rx') → c.2 !! rx = Some e ∧ rx' = S rx.
Proof. unfold ring_recv. cbv zeta. case_match; [done|]. destruct (c.2 !! rx) eqn:He; [|done]. by intros [= -> <-]. Qed.

Lemma ring_recv_empty c rx rx' : ring_recv c rx = (RecvEmpty, rx') → (length c.2 <= rx)%nat.
Proof.
  unfold ring_recv. cbv zeta. case_match; [done|]. destruct (c.2 !! rx) eqn:He; [done|]. intros _.
  by apply lookup_ge_None_1.
Qed.

#[local] Instance ring_broadcast : Broadcast E := {|
  channel := nat * list E;
  receiver := nat;
  broadcast_channel n := (n, []);
  broadcast_send c e := (c.1, c.2 ++ [e]);
  broadcast_subscribe c := length c.2;
  broadcast_recv := ring_recv
|}.

#[local] Instance ring_broadcast_laws : BroadcastLaws E.
Proof.
  by refine {| sent := snd : channel E → list E;
               position := id : receiver E → nat;
               recv_event := ring_recv_event; recv_empty := ring_recv_empty |}.
Defined.

(** The value and the number of receivers. *)
#[local] Instance pair_watch : Watch := {|
  watch := bool * nat;
  watch_channel b := (b, 0%nat);
  watch_borrow w := w.1;
  watch_subscribe w := (w.1, S w.2);
  watch_drop w := (w.1, pred w.2);
  watch_send w b := (if bool_decide (w.2 = 0%nat) then w.1 else b, w.2)
|}.

#[local] Instance pair_watch_laws : WatchLaws.
Proof. by refine {| watch_receivers := snd : watch → nat |}. Defined.

End instances.
