(* ===== verification/ContactInfo.v ===== *)
(** * contact_info.rs, and the contact-info parts of plugin/message.rs and plugin/convert_to.rs

    The gossip feed: one writer ([contact_info_loop]) owns the table of contact
    infos, bumps its version, mutates it and broadcasts the change under one
    lock; every subscriber subscribes to the broadcast, takes a snapshot under
    the lock, sends it and then the events after it. Each task is a program
    counter and a step function whose steps end where another task can run; a
    blocked task has no step. The tokio channels are the parameters
    [Broadcast] and [Watch], the notifications and the behaviour of a client's
    sink are inputs of the steps. The mutex is its owner; it is never poisoned
    because nothing panics while it is held. Logs and metrics are not modelled. *)

From S2P Require Import Prelude Channels Message Convert FromGeyser.

Set Default Goal Selector "!".

Local Open Scope Z_scope.

(** ** std::net: socket addresses and their [Display] *)

Inductive SocketAddr :=
| SocketAddrV4 (octets : list Z) (port : Z)
| SocketAddrV6 (segments : list Z) (scope_id port : Z).

Definition hex_digit (d : Z) : Ascii.ascii :=
  Ascii.ascii_of_nat (Z.to_nat (if d <? 10 then 48 + d else 87 + d)).

(** [{:x}] of a 16-bit number. *)
Fixpoint hex_digits (fuel : nat) (n : Z) (acc : string) : string :=
  match fuel with
  | O => acc
  | S fuel =>
      let acc := String (hex_digit (n mod 16)) acc in
      if n <? 16 then acc else hex_digits fuel (n / 16) acc
  end.

Definition hex16 (n : Z) : string := hex_digits 4 n "".

Definition ipv4_to_string (octets : list Z) : string := String.concat "." (decimal <$> octets).

(** The longest run of zero segments, the first of the longest: (start, length). *)
Fixpoint longest_zero_run (segments : list Z) (i : nat) (current longest : nat * nat) : nat * nat :=
  match segments with
  | [] => longest
  | s :: segments =>
      if s =? 0 then
        let current := ((if bool_decide (current.2 = 0%nat) then i else current.1), S current.2) in
        longest_zero_run segments (S i) current (if Nat.ltb longest.2 current.2 then current else longest)
      else longest_zero_run segments (S i) (0%nat, 0%nat) longest
  end.

Definition segments_to_string (segments : list Z) : string := String.concat ":" (hex16 <$> segments).

Definition ipv6_to_string (segments : list Z) : string :=
  match segments with
  | [0; 0; 0; 0; 0; 65535; ab; cd] =>
      "::ffff:" +:+ ipv4_to_string [ab / 256; ab mod 256; cd / 256; cd mod 256]
  | _ =>
      let '(start, n) := longest_zero_run segments 0 (0%nat, 0%nat) (0%nat, 0%nat) in
      if Nat.ltb 1 n
      then segments_to_string (take start segments) +:+ "::" +:+ segments_to_string (drop (start + n) segments)
      else segments_to_string segments
  end.

Definition socket_to_string (a : SocketAddr) : string :=
  match a with
  | SocketAddrV4 octets port => ipv4_to_string octets +:+ ":" +:+ decimal port
  | SocketAddrV6 segments scope_id port =>
      "[" +:+ ipv6_to_string segments
      +:+ (if scope_id =? 0 then "" else "%" +:+ decimal scope_id) +:+ "]:" +:+ decimal port
  end.

Example socket_to_string_v4 : socket_to_string (SocketAddrV4 [127; 0; 0; 1] 8001) = "127.0.0.1:8001".
Proof. reflexivity. Qed.

Example socket_to_string_v6 :
  socket_to_string (SocketAddrV6 [8193; 3512; 0; 0; 1; 0; 0; 255] 0 80) = "[2001:db8::1:0:0:ff]:80".
Proof. reflexivity. Qed.

Example socket_to_string_loopback : socket_to_string (SocketAddrV6 [0; 0; 0; 0; 0; 0; 0; 1] 3 80) = "[::1%3]:80".
Proof. reflexivity. Qed.

(** ** plugin/message.rs: the contact-info messages *)

Record MessageContactInfo := mkMessageContactInfo {
  ci_pubkey : Pubkey;
  ci_wallclock : Z;
  ci_outset : Z;
  ci_shred_version : Z;
  ci_version_major : Z;
  ci_version_minor : Z;
  ci_version_patch : Z;
  ci_version_commit : Z;
  ci_version_feature_set : Z;
  ci_version_client_id : Z;
  ci_gossip : option SocketAddr;
  ci_tpu_quic : option SocketAddr;
  ci_tpu_forwards_quic : option SocketAddr;
  ci_tpu_vote_udp : option SocketAddr;
  ci_tpu_vote_quic : option SocketAddr;
  ci_tvu_udp : option SocketAddr;
  ci_tvu_quic : option SocketAddr;
  ci_serve_repair_udp : option SocketAddr;
  ci_serve_repair_quic : option SocketAddr;
  ci_rpc : option SocketAddr;
  ci_rpc_pubsub : option SocketAddr;
  ci_alpenglow : option SocketAddr;
  ci_created_at : Timestamp
}.

(** The replica struct has the same fields, with the key as a byte slice. *)
Record ReplicaContactInfo := mkReplicaContactInfo {
  rci_pubkey : bytes;
  rci_wallclock : Z;
  rci_outset : Z;
  rci_shred_version : Z;
  rci_version_major : Z;
  rci_version_minor : Z;
  rci_version_patch : Z;
  rci_version_commit : Z;
  rci_version_feature_set : Z;
  rci_version_client_id : Z;
  rci_gossip : option SocketAddr;
  rci_tpu_quic : option SocketAddr;
  rci_tpu_forwards_quic : option SocketAddr;
  rci_tpu_vote_udp : option SocketAddr;
  rci_tpu_vote_quic : option SocketAddr;
  rci_tvu_udp : option SocketAddr;
  rci_tvu_quic : option SocketAddr;
  rci_serve_repair_udp : option SocketAddr;
  rci_serve_repair_quic : option SocketAddr;
  rci_rpc : option SocketAddr;
  rci_rpc_pubsub : option SocketAddr;
  rci_alpenglow : option SocketAddr
}.

Definition MessageContactInfo_from_geyser (now : Timestamp) (info : ReplicaContactInfo)
    : outcome MessageContactInfo :=
  pubkey ← expect_pubkey (rci_pubkey info);
  Done
    {| ci_pubkey := pubkey;
       ci_wallclock := rci_wallclock info;
       ci_outset := rci_outset info;
       ci_shred_version := rci_shred_version info;
       ci_version_major := rci_version_major info;
       ci_version_minor := rci_version_minor info;
       ci_version_patch := rci_version_patch info;
       ci_version_commit := rci_version_commit info;
       ci_version_feature_set := rci_version_feature_set info;
       ci_version_client_id := rci_version_client_id info;
       ci_gossip := rci_gossip info;
       ci_tpu_quic := rci_tpu_quic info;
       ci_tpu_forwards_quic := rci_tpu_forwards_quic info;
       ci_tpu_vote_udp := rci_tpu_vote_udp info;
       ci_tpu_vote_quic := rci_tpu_vote_quic info;
       ci_tvu_udp := rci_tvu_udp info;
       ci_tvu_quic := rci_tvu_quic info;
       ci_serve_repair_udp := rci_serve_repair_udp info;
       ci_serve_repair_quic := rci_serve_repair_quic info;
       ci_rpc := rci_rpc info;
       ci_rpc_pubsub := rci_rpc_pubsub info;
       ci_alpenglow := rci_alpenglow info;
       ci_created_at := now |}.

Record MessageContactInfoRemoved := mkMessageContactInfoRemoved {
  cir_pubkey : Pubkey;
  cir_created_at : Timestamp
}.

Definition MessageContactInfoRemoved_from_geyser (now : Timestamp) (pubkey : bytes)
    : outcome MessageContactInfoRemoved :=
  pubkey ← expect_pubkey pubkey; Done (mkMessageContactInfoRemoved pubkey now).

Inductive ContactInfoMessage :=
| CiNode (node : MessageContactInfo)
| CiRemoved (removed : MessageContactInfoRemoved).

(** ** The gossip messages of geyser.proto and plugin/convert_to.rs *)

Record SubscribeUpdateContactInfoNode := mkSubscribeUpdateContactInfoNode {
  cn_pubkey : bytes;
  cn_wallclock : Z;
  cn_outset : Z;
  cn_shred_version : Z;
  cn_version_major : Z;
  cn_version_minor : Z;
  cn_version_patch : Z;
  cn_version_commit : Z;
  cn_version_feature_set : Z;
  cn_version_client_id : Z;
  cn_gossip : option string;
  cn_tpu_quic : option string;
  cn_tpu_forwards_quic : option string;
  cn_tpu_vote_udp : option string;
  cn_tpu_vote_quic : option string;
  cn_tvu_udp : option string;
  cn_tvu_quic : option string;
  cn_serve_repair_udp : option string;
  cn_serve_repair_quic : option string;
  cn_rpc : option string;
  cn_rpc_pubsub : option string;
  cn_alpenglow : option string
}.

Inductive GossipOneof :=
| GossipNode (node : SubscribeUpdateContactInfoNode)
| GossipRemoved (pubkey : bytes)
| GossipPing
| GossipSnapshot (nodes : list SubscribeUpdateContactInfoNode).

Record SubscribeUpdateGossip := mkSubscribeUpdateGossip {
  sug_update_oneof : option GossipOneof;
  sug_created_at : option Timestamp;
  sug_seq : Z
}.

Definition create_contact_info_node (node : MessageContactInfo) : SubscribeUpdateContactInfoNode :=
  {| cn_pubkey := ci_pubkey node;
     cn_wallclock := ci_wallclock node;
     cn_outset := ci_outset node;
     cn_shred_version := ci_shred_version node;
     cn_version_major := ci_version_major node;
     cn_version_minor := ci_version_minor node;
     cn_version_patch := ci_version_patch node;
     cn_version_commit := ci_version_commit node;
     cn_version_feature_set := ci_version_feature_set node;
     cn_version_client_id := ci_version_client_id node;
     cn_gossip := socket_to_string <$> ci_gossip node;
     cn_tpu_quic := socket_to_string <$> ci_tpu_quic node;
     cn_tpu_forwards_quic := socket_to_string <$> ci_tpu_forwards_quic node;
     cn_tpu_vote_udp := socket_to_string <$> ci_tpu_vote_udp node;
     cn_tpu_vote_quic := socket_to_string <$> ci_tpu_vote_quic node;
     cn_tvu_udp := socket_to_string <$> ci_tvu_udp node;
     cn_tvu_quic := socket_to_string <$> ci_tvu_quic node;
     cn_serve_repair_udp := socket_to_string <$> ci_serve_repair_udp node;
     cn_serve_repair_quic := socket_to_string <$> ci_serve_repair_quic node;
     cn_rpc := socket_to_string <$> ci_rpc node;
     cn_rpc_pubsub := socket_to_string <$> ci_rpc_pubsub node;
     cn_alpenglow := socket_to_string <$> ci_alpenglow node |}.

Definition create_gossip_update (seq : Z) (message : ContactInfoMessage) : SubscribeUpdateGossip :=
  match message with
  | CiNode node =>
      mkSubscribeUpdateGossip (Some (GossipNode (create_contact_info_node node))) (Some (ci_created_at node)) seq
  | CiRemoved removed =>
      mkSubscribeUpdateGossip (Some (GossipRemoved (cir_pubkey removed))) (Some (cir_created_at removed)) seq
  end.

Definition create_gossip_ping (now : Timestamp) : SubscribeUpdateGossip :=
  mkSubscribeUpdateGossip (Some GossipPing) (Some now) 0.

Definition create_gossip_snapshot (now : Timestamp) (seq : Z) (nodes : list MessageContactInfo)
    : SubscribeUpdateGossip :=
  mkSubscribeUpdateGossip (Some (GossipSnapshot (create_contact_info_node <$> nodes))) (Some now) seq.

(** ** contact_info.rs: the table and its state *)

Record ContactInfoNotification := mkContactInfoNotification {
  cin_message : ContactInfoMessage;
  cin_is_startup : bool
}.

Record ContactInfoEvent := mkContactInfoEvent {
  cie_seq : Z;
  cie_message : ContactInfoMessage
}.

Record TopologySnapshot := mkTopologySnapshot {
  ts_rev : Z;
  ts_topology : list MessageContactInfo
}.

Record ContactInfoTable := mkContactInfoTable {
  cit_nodes : gmap Pubkey MessageContactInfo;
  cit_version : Z
}.

Inductive LockOwner := OwnerLoop | OwnerClient (i : nat).

#[global] Instance LockOwner_eq_dec : EqDecision LockOwner.
Proof. solve_decision. Defined.

Section feed.
Context `{!Broadcast ContactInfoEvent, !Watch}.

Record ContactInfoState := mkContactInfoState {
  cis_map : ContactInfoTable;
  cis_map_owner : option LockOwner;
  cis_tx : channel ContactInfoEvent;
  cis_complete_tx : watch
}.

Definition ContactInfoState_new (capacity : nat) : ContactInfoState :=
  mkContactInfoState (mkContactInfoTable ∅ 0) None (broadcast_channel capacity) (watch_channel false).

Definition set_map (st : ContactInfoState) (table : ContactInfoTable) : ContactInfoState :=
  mkContactInfoState table (cis_map_owner st) (cis_tx st) (cis_complete_tx st).

Definition set_owner (st : ContactInfoState) (owner : option LockOwner) : ContactInfoState :=
  mkContactInfoState (cis_map st) owner (cis_tx st) (cis_complete_tx st).

Definition set_tx (st : ContactInfoState) (tx : channel ContactInfoEvent) : ContactInfoState :=
  mkContactInfoState (cis_map st) (cis_map_owner st) tx (cis_complete_tx st).

Definition set_complete (st : ContactInfoState) (w : watch) : ContactInfoState :=
  mkContactInfoState (cis_map st) (cis_map_owner st) (cis_tx st) w.

(** [map.lock()]. *)
Definition lock_map (st : ContactInfoState) (owner : LockOwner) : option ContactInfoState :=
  match cis_map_owner st with
  | None => Some (set_owner st (Some owner))
  | Some _ => None
  end.

Definition unlock_map (st : ContactInfoState) : ContactInfoState := set_owner st None.

(** ** The writer *)

Definition apply_message (nodes : gmap Pubkey MessageContactInfo) (message : ContactInfoMessage)
    : gmap Pubkey MessageContactInfo :=
  match message with
  | CiNode n => <[ci_pubkey n := n]> nodes
  | CiRemoved r => delete (cir_pubkey r) nodes
  end.

(** Where [contact_info_loop] is: waiting for a notification, then before the
    start-up check, before the lock, and at each statement of the critical
    section. *)
Inductive LoopPc :=
| LoopNext
| LoopReceived (n : ContactInfoNotification)
| LoopLock (n : ContactInfoNotification)
| LoopBump (n : ContactInfoNotification)
| LoopMutate (n : ContactInfoNotification) (seq : Z)
| LoopSend (n : ContactInfoNotification) (seq : Z)
| LoopUnlock
| LoopEnded.

(** The start-up check; counting the nodes for the log takes the lock. *)
Definition startup_check (st : ContactInfoState) (n : ContactInfoNotification) : option ContactInfoState :=
  if negb (cin_is_startup n) && negb (watch_borrow (cis_complete_tx st))
  then
    st ← lock_map st OwnerLoop;
    let st := unlock_map st in
    Some (set_complete st (watch_send (cis_complete_tx st) true))
  else Some st.

Definition loop_step (st : ContactInfoState) (pc : LoopPc) : option (ContactInfoState * LoopPc) :=
  match pc with
  | LoopNext | LoopEnded => None
  | LoopReceived n => st ← startup_check st n; Some (st, LoopLock n)
  | LoopLock n => st ← lock_map st OwnerLoop; Some (st, LoopBump n)
  | LoopBump n =>
      let seq := wrap64 (cit_version (cis_map st) + 1) in
      Some (set_map st (mkContactInfoTable (cit_nodes (cis_map st)) seq), LoopMutate n seq)
  | LoopMutate n seq =>
      Some (set_map st (mkContactInfoTable (apply_message (cit_nodes (cis_map st)) (cin_message n))
                          (cit_version (cis_map st))), LoopSend n seq)
  | LoopSend n seq =>
      Some (set_tx st (broadcast_send (cis_tx st) (mkContactInfoEvent seq (cin_message n))), LoopUnlock)
  | LoopUnlock => Some (unlock_map st, LoopNext)
  end.

(** ** A subscriber *)

Inductive GossipError := Unavailable (message : string) | Internal (message : string).

Definition GossipItem : Type := result GossipError SubscribeUpdateGossip.

Inductive ClientPc :=
| ClientStart
| ClientWaiting
| ClientHandoff
| ClientSubscribed (messages_rx : receiver ContactInfoEvent)
| ClientLocked (messages_rx : receiver ContactInfoEvent)
| ClientSnapshot (messages_rx : receiver ContactInfoEvent) (snapshot : TopologySnapshot)
| ClientStream (messages_rx : receiver ContactInfoEvent) (snapshot_seq : Z)
| ClientEvent (messages_rx : receiver ContactInfoEvent) (snapshot_seq : Z) (event : ContactInfoEvent)
| ClientDone (disconnect_reason : string).

(** [gc_out] is what was put in the client's channel. *)
Record GossipClient := mkGossipClient {
  gc_pc : ClientPc;
  gc_resnapshot_attempts : nat;
  gc_out : list GossipItem
}.

Definition GossipClient_new : GossipClient := mkGossipClient ClientStart 0 [].

Definition MAX_RESNAPSHOT_ATTEMPTS : nat := 3.

Definition goto (c : GossipClient) (pc : ClientPc) : GossipClient :=
  mkGossipClient pc (gc_resnapshot_attempts c) (gc_out c).

(** [sink.send(item)], which succeeds as long as the client's channel is open. *)
Definition push (sink_open : bool) (c : GossipClient) (item : GossipItem) : GossipClient :=
  if sink_open then mkGossipClient (gc_pc c) (gc_resnapshot_attempts c) (gc_out c ++ [item]) else c.

Definition client_recv (sink_open : bool) (c : GossipClient) (snapshot_seq : Z)
    (message : RecvResult ContactInfoEvent * receiver ContactInfoEvent) : option GossipClient :=
  match message with
  | (Received event, messages_rx) =>
      Some (goto c (if cie_seq event <=? snapshot_seq then ClientStream messages_rx snapshot_seq
                    else ClientEvent messages_rx snapshot_seq event))
  | (RecvClosed, _) => Some (goto c (ClientDone "broadcast_closed"))
  | (RecvLagged skipped, _) =>
      let c := mkGossipClient (gc_pc c) (S (gc_resnapshot_attempts c)) (gc_out c) in
      Some (if Nat.ltb MAX_RESNAPSHOT_ATTEMPTS (gc_resnapshot_attempts c)
            then goto (push sink_open c (Err (Internal "lagged to receive contact info messages")))
                   (ClientDone "client_broadcast_lag")
            else goto c ClientHandoff)
  | (RecvEmpty, _) => None
  end.

(** One step of [contact_info_client_loop] when it is not cancelled.
    [topology] is the table's values in the order its iteration gives them. *)
Definition client_step (now : Timestamp) (sink_open : bool) (topology : list MessageContactInfo)
    (i : nat) (st : ContactInfoState) (c : GossipClient) : option (ContactInfoState * GossipClient) :=
  match gc_pc c with
  | ClientStart => Some (set_complete st (watch_subscribe (cis_complete_tx st)), goto c ClientWaiting)
  | ClientWaiting =>
      if watch_borrow (cis_complete_tx st)
      then Some (set_complete st (watch_drop (cis_complete_tx st)), goto c ClientHandoff)
      else None
  | ClientHandoff => Some (st, goto c (ClientSubscribed (broadcast_subscribe (cis_tx st))))
  | ClientSubscribed messages_rx =>
      st ← lock_map st (OwnerClient i); Some (st, goto c (ClientLocked messages_rx))
  | ClientLocked messages_rx =>
      Some (unlock_map st,
            goto c (ClientSnapshot messages_rx (mkTopologySnapshot (cit_version (cis_map st)) topology)))
  | ClientSnapshot messages_rx snapshot =>
      Some (st, if sink_open
                then goto (push sink_open c (Ok (create_gossip_snapshot now (ts_rev snapshot) (ts_topology snapshot))))
                       (ClientStream messages_rx (ts_rev snapshot))
                else goto c (ClientDone "client_closed"))
  | ClientStream messages_rx snapshot_seq =>
      c ← client_recv sink_open c snapshot_seq (broadcast_recv (cis_tx st) messages_rx); Some (st, c)
  | ClientEvent messages_rx snapshot_seq event =>
      Some (st, if sink_open
                then mkGossipClient (ClientStream messages_rx snapshot_seq) 0
                       (gc_out c ++ [Ok (create_gossip_update (cie_seq event) (cie_message event))])
                else goto c (ClientDone "client_closed"))
  | ClientDone _ => None
  end.

(** The [cancelled()] branch of the two selects; the wait's receiver is dropped. *)
Definition client_cancel (sink_open : bool) (st : ContactInfoState) (c : GossipClient)
    : option (ContactInfoState * GossipClient) :=
  let bye := goto (push sink_open c (Err (Unavailable "server is shutting down try again later")))
               (ClientDone "server_shutdown") in
  match gc_pc c with
  | ClientStart | ClientStream _ _ => Some (st, bye)
  | ClientWaiting => Some (set_complete st (watch_drop (cis_complete_tx st)), bye)
  | _ => None
  end.

(** The ping task of [spawn_subscriber] writes into the same channel. *)
Definition client_ping (now : Timestamp) (c : GossipClient) : GossipClient :=
  push true c (Ok (create_gossip_ping now)).

(** ** All tasks together *)

(** [gf_taken] is what [contact_info_loop] has taken from its stream so far. *)
Record GossipFeed := mkGossipFeed {
  gf_state : ContactInfoState;
  gf_loop : LoopPc;
  gf_taken : list ContactInfoNotification;
  gf_clients : gmap nat GossipClient
}.

Definition GossipFeed_new (capacity : nat) : GossipFeed :=
  mkGossipFeed (ContactInfoState_new capacity) LoopNext [] ∅.

Inductive feed_step : GossipFeed → GossipFeed → Prop :=
| feed_next st taken clients n :
    feed_step (mkGossipFeed st LoopNext taken clients)
      (mkGossipFeed st (LoopReceived n) (taken ++ [n]) clients)
| feed_ended st taken clients :
    feed_step (mkGossipFeed st LoopNext taken clients) (mkGossipFeed st LoopEnded taken clients)
| feed_loop st pc taken clients st' pc' :
    loop_step st pc = Some (st', pc') →
    feed_step (mkGossipFeed st pc taken clients) (mkGossipFeed st' pc' taken clients)
| feed_subscriber st pc taken clients i :
    clients !! i = None →
    feed_step (mkGossipFeed st pc taken clients)
      (mkGossipFeed st pc taken (<[i := GossipClient_new]> clients))
| feed_client st pc taken clients i c now sink_open topology st' c' :
    clients !! i = Some c →
    topology ≡ₚ (map_to_list (cit_nodes (cis_map st))).*2 →
    client_step now sink_open topology i st c = Some (st', c') →
    feed_step (mkGossipFeed st pc taken clients) (mkGossipFeed st' pc taken (<[i := c']> clients))
| feed_cancel st pc taken clients i c sink_open st' c' :
    clients !! i = Some c →
    client_cancel sink_open st c = Some (st', c') →
    feed_step (mkGossipFeed st pc taken clients) (mkGossipFeed st' pc taken (<[i := c']> clients))
| feed_ping st pc taken clients i c now :
    clients !! i = Some c →
    feed_step (mkGossipFeed st pc taken clients)
      (mkGossipFeed st pc taken (<[i := client_ping now c]> clients)).

Inductive feed_reachable (capacity : nat) : GossipFeed → Prop :=
| feed_init : feed_reachable capacity (GossipFeed_new capacity)
| feed_more f f' : feed_reachable capacity f → feed_step f f' → feed_reachable capacity f'.

End feed.
