(* ===== verification/ContactInfoSpec.v ===== *)
(** * The gossip feed: what every subscriber sees

    The view a client builds from what it received, and the invariant of all
    interleavings of the writer and the subscribers: a view is always the
    table after a prefix of the notifications. *)

From S2P Require Import Prelude Channels Message ContactInfo.

Set Default Goal Selector "!".

Local Open Scope Z_scope.

(** ** A client's view *)

Abbreviation View := (gmap bytes SubscribeUpdateContactInfoNode).

(** What a client does with an update: a snapshot replaces its table. *)
Definition view_step (view : View) (item : GossipItem) : View :=
  match item with
  | Ok u =>
      match sug_update_oneof u with
      | Some (GossipNode n) => <[cn_pubkey n := n]> view
      | Some (GossipRemoved k) => delete k view
      | Some (GossipSnapshot ns) => list_to_map ((λ n, (cn_pubkey n, n)) <$> ns)
      | Some GossipPing | None => view
      end
  | Err _ => view
  end.

Definition view (out : list GossipItem) : View := fold_left view_step out ∅.

(** The revision of the view: the number of the last update that is no ping. *)
Definition seq_step (seq : option Z) (item : GossipItem) : option Z :=
  match item with
  | Ok u => match sug_update_oneof u with Some GossipPing | None => seq | _ => Some (sug_seq u) end
  | Err _ => seq
  end.

Definition last_seq (out : list GossipItem) : option Z := fold_left seq_step out None.

(** Numbering: a change follows the revision before it, a snapshot never goes back. *)
Inductive numbered : list GossipItem → Prop :=
| numbered_nil : numbered []
| numbered_snapshot out now rev nodes :
    numbered out → (∀ s, last_seq out = Some s → s <= rev) →
    numbered (out ++ [Ok (create_gossip_snapshot now rev nodes)])
| numbered_update out seq message :
    numbered out → last_seq out = Some (seq - 1) →
    numbered (out ++ [Ok (create_gossip_update seq message)])
| numbered_ping out now : numbered out → numbered (out ++ [Ok (create_gossip_ping now)])
| numbered_error out e : numbered out → numbered (out ++ [Err e]).

Lemma view_snoc out item : view (out ++ [item]) = view_step (view out) item.
Proof. apply fold_left_app. Qed.

Lemma last_seq_snoc out item : last_seq (out ++ [item]) = seq_step (last_seq out) item.
Proof. apply fold_left_app. Qed.

(** ** The table after some changes *)

Definition nodes_after (messages : list ContactInfoMessage) : gmap Pubkey MessageContactInfo :=
  fold_left apply_message messages ∅.

Lemma nodes_after_snoc ms m : nodes_after (ms ++ [m]) = apply_message (nodes_after ms) m.
Proof. apply fold_left_app. Qed.

(** Every node is stored under its own key. *)
Definition keyed (nodes : gmap Pubkey MessageContactInfo) : Prop :=
  ∀ k n, nodes !! k = Some n → ci_pubkey n = k.

Lemma nodes_after_keyed ms : keyed (nodes_after ms).
Proof.
  induction ms as [|m ms IH] using rev_ind; [intros k n H; cbn in H; by rewrite lookup_empty in H|].
  rewrite nodes_after_snoc. intros k n. destruct m as [x|r]; cbn [apply_message].
  - intros [[<- <-]|[_ H]]%lookup_insert_Some; [done|by apply IH].
  - intros [_ H]%lookup_delete_Some. by apply IH.
Qed.

Definition sent_view (nodes : gmap Pubkey MessageContactInfo) : View := create_contact_info_node <$> nodes.

Lemma view_step_update view nodes seq m :
  view = sent_view nodes →
  view_step view (Ok (create_gossip_update seq m)) = sent_view (apply_message nodes m).
Proof.
  intros ->. unfold sent_view. destruct m as [n|r]; cbn.
  - by rewrite fmap_insert.
  - by rewrite fmap_delete.
Qed.

Lemma view_step_snapshot view nodes now rev topology :
  keyed nodes → topology ≡ₚ (map_to_list nodes).*2 →
  view_step view (Ok (create_gossip_snapshot now rev topology)) = sent_view nodes.
Proof.
  intros Hk Hp. cbn. rewrite <- list_fmap_compose.
  set (f := compose _ _). set (g := prod_map (@id Pubkey) create_contact_info_node).
  assert (f <$> topology ≡ₚ g <$> map_to_list nodes) as Hf.
  { rewrite Hp, <- list_fmap_compose. apply Permutation_refl', list_fmap_ext.
    intros i [k n] Hi%list_elem_of_lookup_2. apply elem_of_map_to_list in Hi.
    unfold f, g, compose. cbn. f_equal. by apply Hk. }
  rewrite (list_to_map_proper _ (g <$> map_to_list nodes)); [| |done].
  - unfold sent_view. rewrite <- (list_to_map_to_list nodes) at 2. apply list_to_map_fmap.
  - rewrite Hf, <- list_fmap_compose. apply NoDup_fst_map_to_list.
Qed.

(** ** The invariant *)

Section invariant.
Context {B : Broadcast ContactInfoEvent} {BL : BroadcastLaws ContactInfoEvent} {W : Watch} {WL : WatchLaws}.

(** The changes broadcast so far. *)
Definition log (st : ContactInfoState) : list ContactInfoMessage := cie_message <$> sent (cis_tx st).

Definition in_flight (pc : LoopPc) : list ContactInfoMessage :=
  match pc with
  | LoopReceived n | LoopLock n | LoopBump n | LoopMutate n _ | LoopSend n _ => [cin_message n]
  | LoopNext | LoopUnlock | LoopEnded => []
  end.

Definition in_critical_section (pc : LoopPc) : bool :=
  match pc with
  | LoopBump _ | LoopMutate _ _ | LoopSend _ _ | LoopUnlock => true
  | LoopNext | LoopReceived _ | LoopLock _ | LoopEnded => false
  end.

(** The table against the log: ahead by one between the bump and the broadcast. *)
Record loop_inv (st : ContactInfoState) (pc : LoopPc) (taken : list ContactInfoNotification) : Prop := {
  li_taken : cin_message <$> taken = log st ++ in_flight pc;
  li_numbers p e : sent (cis_tx st) !! p = Some e → cie_seq e = Z.of_nat (S p);
  li_version : cit_version (cis_map st)
    = len (log st) + match pc with LoopMutate _ _ | LoopSend _ _ => 1 | _ => 0 end;
  li_seq : match pc with LoopMutate _ seq | LoopSend _ seq => seq = cit_version (cis_map st) | _ => True end;
  li_nodes : cit_nodes (cis_map st)
    = nodes_after (log st ++ match pc with LoopSend n _ => [cin_message n] | _ => [] end);
  li_owner : in_critical_section pc = true ↔ cis_map_owner st = Some OwnerLoop
}.

(** [out] shows the table after the first [o] changes (nothing yet if [None]). *)
Definition sees (messages : list ContactInfoMessage) (out : list GossipItem) (o : option nat) : Prop :=
  last_seq out = Z.of_nat <$> o ∧ (default 0 o <= length messages)%nat ∧
  view out = sent_view (nodes_after (take (default 0%nat o) messages)).

Definition client_inv (events : list ContactInfoEvent) (c : GossipClient) : Prop :=
  let messages := cie_message <$> events in
  numbered (gc_out c) ∧
  match gc_pc c with
  | ClientStart | ClientWaiting | ClientHandoff | ClientDone _ => ∃ o, sees messages (gc_out c) o
  | ClientSubscribed rx | ClientLocked rx =>
      (∃ o, sees messages (gc_out c) o) ∧ (position rx <= length events)%nat
  | ClientSnapshot rx snapshot =>
      ∃ o r, sees messages (gc_out c) o ∧ ts_rev snapshot = Z.of_nat r ∧
        (default 0 o <= r)%nat ∧ (position rx <= r <= length events)%nat ∧
        ts_topology snapshot ≡ₚ (map_to_list (nodes_after (take r messages))).*2
  | ClientStream rx rev =>
      ∃ r : nat, rev = Z.of_nat r ∧ (position rx <= length events)%nat ∧
        sees messages (gc_out c) (Some (max r (position rx)))
  | ClientEvent rx rev e =>
      ∃ r p : nat, rev = Z.of_nat r ∧ (r <= p)%nat ∧ position rx = S p ∧ events !! p = Some e ∧
        sees messages (gc_out c) (Some p)
  end.

Definition owner_inv (st : ContactInfoState) (clients : gmap nat GossipClient) : Prop :=
  ∀ i, cis_map_owner st = Some (OwnerClient i) ↔ ∃ c rx, clients !! i = Some c ∧ gc_pc c = ClientLocked rx.

Record feed_inv (f : GossipFeed) : Prop := {
  fi_loop : loop_inv (gf_state f) (gf_loop f) (gf_taken f);
  fi_owner : owner_inv (gf_state f) (gf_clients f);
  fi_clients i c : gf_clients f !! i = Some c → client_inv (sent (cis_tx (gf_state f))) c
}.

(** What a client has seen stays what it was when more is broadcast. *)
Lemma sees_snoc ms m out o : sees ms out o → sees (ms ++ [m]) out o.
Proof.
  intros (H1 & H2 & H3). split; [done|]. rewrite length_app. split; [lia|].
  by rewrite take_app_le.
Qed.

Lemma sees_some_snoc ms m out : (∃ o, sees ms out o) → ∃ o, sees (ms ++ [m]) out o.
Proof. intros [o Ho]. exists o. by apply sees_snoc. Qed.

Lemma client_inv_snoc events e c : client_inv events c → client_inv (events ++ [e]) c.
Proof.
  intros [Hn H]. split; [done|]. rewrite fmap_app, length_app. cbn [fmap list_fmap length].
  destruct (gc_pc c); try by apply sees_some_snoc.
  - destruct H as [H Hp]. split; [by apply sees_some_snoc|lia].
  - destruct H as [H Hp]. split; [by apply sees_some_snoc|lia].
  - destruct H as (o & r & Ho & Hr & Hle & Hp & Ht). exists o, r. split; [by apply sees_snoc|].
    split; [done|]. split; [done|]. split; [lia|]. by rewrite take_app_le by (rewrite length_fmap; lia).
  - destruct H as (r & Hr & Hp & H). exists r. split; [done|]. split; [lia|by apply sees_snoc].
  - destruct H as (r & p & Hr & Hle & Hp & He & H). exists r, p. repeat (split; [done|]).
    split; [by apply lookup_app_l_Some|by apply sees_snoc].
Qed.

Lemma log_send st e : log (set_tx st (broadcast_send (cis_tx st) e)) = log st ++ [cie_message e].
Proof. unfold log. cbn. by rewrite sent_send, fmap_app. Qed.

Lemma owner_inv_free st clients : owner_inv st clients → cis_map_owner st = None →
  ∀ i c rx, clients !! i = Some c → gc_pc c ≠ ClientLocked rx.
Proof. intros H Ho i c rx Hc Hpc. assert (cis_map_owner st = Some (OwnerClient i)) by (apply H; eauto). congruence. Qed.

Lemma lock_map_some st o st' : lock_map st o = Some st' → cis_map_owner st = None ∧ st' = set_owner st (Some o).
Proof. unfold lock_map. destruct (cis_map_owner st); [done|]. by intros [= <-]. Qed.

Lemma startup_check_some st n st' : startup_check st n = Some st' →
  ∃ w, st' = set_complete st w ∧
    (w = cis_complete_tx st ∨ cin_is_startup n = false ∧ w = watch_send (cis_complete_tx st) true).
Proof.
  unfold startup_check. intros H.
  assert (st' = set_complete st (cis_complete_tx st) ∨ cin_is_startup n = false ∧
    st' = set_complete st (watch_send (cis_complete_tx st) true)) as [->|[? ->]]; [|by eauto..].
  destruct (cin_is_startup n), (watch_borrow (cis_complete_tx st)); cbn [negb andb] in H;
    try (left; injection H as <-; by destruct st).
  right. split; [done|]. destruct (lock_map st OwnerLoop) as [st1|] eqn:El; [|discriminate].
  apply lock_map_some in El as [Ho ->]. injection H as <-. destruct st; cbn in *. by subst.
Qed.

Lemma owner_inv_same st st' clients :
  (∀ i, cis_map_owner st' = Some (OwnerClient i) ↔ cis_map_owner st = Some (OwnerClient i)) →
  owner_inv st clients → owner_inv st' clients.
Proof. intros Hiff H i. rewrite Hiff. apply H. Qed.

Lemma loop_step_inv st pc taken st' pc' :
  loop_inv st pc taken → len taken < 2 ^ 64 → loop_step st pc = Some (st', pc') → loop_inv st' pc' taken.
Proof.
  intros [Ht Hnum Hv Hs Hn Ho] Hlen Hstep.
  assert (len taken = len (log st) + len (in_flight pc)) as Hl.
  { rewrite <- len_app, <- Ht. unfold len. by rewrite length_fmap. }
  destruct pc as [|n|n|n|n seq|n seq| |]; cbn [loop_step] in Hstep; try done.
  - destruct (startup_check st n) as [st1|] eqn:Ec; [|discriminate]. injection Hstep as <- <-.
    apply startup_check_some in Ec as (w & -> & _). by constructor.
  - destruct (lock_map st OwnerLoop) as [st1|] eqn:El; [|discriminate]. injection Hstep as <- <-.
    apply lock_map_some in El as [Hfree ->]. by constructor.
  - injection Hstep as <- <-.
    assert (wrap64 (cit_version (cis_map st) + 1) = len (log st) + 1) as Hw.
    { unfold wrap64. rewrite Hv. cbn [in_flight len length] in Hl. pose proof (len_nonneg (log st)).
      rewrite Z.add_0_r. apply Z.mod_small. unfold len in *. cbn [length] in Hl. lia. }
    by constructor.
  - injection Hstep as <- <-. constructor; cbn; try done. rewrite app_nil_r in Hn. by rewrite nodes_after_snoc, Hn.
  - injection Hstep as <- <-. constructor; cbn [gf_state in_flight in_critical_section]; rewrite ?log_send; cbn [cie_message].
    + by rewrite app_nil_r.
    + cbn. rewrite sent_send. intros p e [Hp|[Hp He]]%lookup_app_Some; [by apply Hnum|].
      apply list_lookup_singleton_Some in He as [Hp0 <-]. cbn. rewrite Hs, Hv.
      unfold len, log. rewrite length_fmap. lia.
    + cbn. rewrite Hv, len_app. unfold len. cbn. lia.
    + done.
    + cbn. by rewrite Hn, app_nil_r.
    + done.
  - injection Hstep as <- <-. by constructor.
Qed.

Lemma loop_step_owner st pc taken clients st' pc' :
  loop_inv st pc taken → owner_inv st clients → loop_step st pc = Some (st', pc') → owner_inv st' clients.
Proof.
  intros Hinv Hown Hstep. pose proof (li_owner _ _ _ Hinv) as Ho. revert Hown. apply owner_inv_same.
  destruct pc as [|n|n|n|n seq|n seq| |]; cbn [loop_step] in Hstep; try done.
  - destruct (startup_check st n) as [st1|] eqn:Ec; [|discriminate]. injection Hstep as <- <-.
    by apply startup_check_some in Ec as (w & -> & _).
  - destruct (lock_map st OwnerLoop) as [st1|] eqn:El; [|discriminate]. injection Hstep as <- <-.
    apply lock_map_some in El as [-> ->]. done.
  - by injection Hstep as <- <-.
  - by injection Hstep as <- <-.
  - by injection Hstep as <- <-.
  - injection Hstep as <- <-. intros i. cbn. by rewrite (proj1 Ho eq_refl).
Qed.

Lemma loop_step_sent st pc st' pc' : loop_step st pc = Some (st', pc') →
  sent (cis_tx st') = sent (cis_tx st) ∨ ∃ e, sent (cis_tx st') = sent (cis_tx st) ++ [e].
Proof.
  intros Hstep. destruct pc as [|n|n|n|n seq|n seq| |]; cbn [loop_step] in Hstep; try done.
  - destruct (startup_check st n) as [st1|] eqn:Ec; [|discriminate]. injection Hstep as <- <-.
    apply startup_check_some in Ec as (w & -> & _). by left.
  - destruct (lock_map st OwnerLoop) as [st1|] eqn:El; [|discriminate]. injection Hstep as <- <-.
    apply lock_map_some in El as [_ ->]. by left.
  - injection Hstep as <- <-. by left.
  - injection Hstep as <- <-. by left.
  - injection Hstep as <- <-. right. eexists. apply sent_send.
  - injection Hstep as <- <-. by left.
Qed.

(** *** Subscriber steps *)

Lemma sees_error ms out o e : sees ms out o → sees ms (out ++ [Err e]) o.
Proof. intros (H1 & H2 & H3). split; [by rewrite last_seq_snoc|]. split; [done|]. by rewrite view_snoc. Qed.

Lemma sees_ping ms out o now : sees ms out o → sees ms (out ++ [Ok (create_gossip_ping now)]) o.
Proof. intros (H1 & H2 & H3). split; [by rewrite last_seq_snoc|]. split; [done|]. by rewrite view_snoc. Qed.

Lemma sees_snapshot ms out r now topology :
  (r <= length ms)%nat → topology ≡ₚ (map_to_list (nodes_after (take r ms))).*2 →
  sees ms (out ++ [Ok (create_gossip_snapshot now (Z.of_nat r) topology)]) (Some r).
Proof.
  intros Hr Hp. split; [by rewrite last_seq_snoc|]. split; [done|]. rewrite view_snoc.
  apply view_step_snapshot; [apply nodes_after_keyed|done].
Qed.

Lemma sees_update ms out p m : ms !! p = Some m → sees ms out (Some p) →
  sees ms (out ++ [Ok (create_gossip_update (Z.of_nat (S p)) m)]) (Some (S p)).
Proof.
  intros Hm (H1 & H2 & H3). pose proof (lookup_lt_Some _ _ _ Hm) as Hlt.
  split; [rewrite last_seq_snoc; by destruct m|]. split; [cbn; lia|].
  rewrite view_snoc. cbn [default from_option id] in *. erewrite take_S_r by done.
  rewrite nodes_after_snoc. by apply view_step_update.
Qed.

Lemma push_error ms sink_open c e o : numbered (gc_out c) → sees ms (gc_out c) o →
  numbered (gc_out (push sink_open c (Err e))) ∧ sees ms (gc_out (push sink_open c (Err e))) o.
Proof. intros. destruct sink_open; cbn; [|done]. split; [by constructor|by apply sees_error]. Qed.

Lemma sees_numbered_le ms out o s r : sees ms out o → last_seq out = Some s → (default 0 o <= r)%nat → s <= Z.of_nat r.
Proof. intros (H & _) Hs Hr. rewrite Hs in H. destruct o; simplify_eq/=. lia. Qed.

(** The writer's part does not see the subscribers. *)
Lemma loop_inv_frame st st' pc taken :
  cis_map st' = cis_map st → cis_tx st' = cis_tx st →
  (cis_map_owner st' = Some OwnerLoop ↔ cis_map_owner st = Some OwnerLoop) →
  loop_inv st pc taken → loop_inv st' pc taken.
Proof. intros Hm Ht Ho []. constructor; unfold log in *; rewrite ?Hm, ?Ht, ?Ho; done. Qed.

(** What a step does to the shared state. *)
Lemma client_step_state now sink_open topology i st c st' c' :
  client_step now sink_open topology i st c = Some (st', c') →
  cis_map st' = cis_map st ∧ cis_tx st' = cis_tx st ∧
  match gc_pc c with
  | ClientSubscribed rx => cis_map_owner st = None ∧ cis_map_owner st' = Some (OwnerClient i) ∧
      gc_pc c' = ClientLocked rx
  | ClientLocked rx => cis_map_owner st' = None ∧ ∀ rx', gc_pc c' ≠ ClientLocked rx'
  | _ => cis_map_owner st' = cis_map_owner st ∧ ∀ rx', gc_pc c' ≠ ClientLocked rx'
  end.
Proof.
  unfold client_step. intros Hstep. destruct (gc_pc c) eqn:Epc; try discriminate.
  - by injection Hstep as <- <-.
  - destruct (watch_borrow _); [|done]. by injection Hstep as <- <-.
  - by injection Hstep as <- <-.
  - destruct (lock_map st (OwnerClient i)) as [st1|] eqn:El; [|discriminate].
    apply lock_map_some in El as [Ho ->]. by injection Hstep as <- <-.
  - by injection Hstep as <- <-.
  - injection Hstep as <- <-. by destruct sink_open.
  - destruct (client_recv _ _ _ _) as [c1|] eqn:Er; [|discriminate]. injection Hstep as <- <-.
    do 3 (split; [done|]). intros rx'. unfold client_recv in Er.
    destruct (broadcast_recv _ _) as [[e| |k|] rx1]; simplify_eq; cbn; by repeat case_match.
  - injection Hstep as <- <-. by destruct sink_open.
Qed.

Lemma client_step_loop now sink_open topology i st c st' c' pc taken :
  loop_inv st pc taken → client_step now sink_open topology i st c = Some (st', c') →
  (∀ rx, gc_pc c = ClientLocked rx → cis_map_owner st = Some (OwnerClient i)) → loop_inv st' pc taken.
Proof.
  intros Hinv (Hm & Ht & Ho)%client_step_state Hlock. revert Hinv. apply loop_inv_frame; [done|done|].
  destruct (gc_pc c) eqn:Epc; destruct Ho as [-> ?]; try done.
  - split; [|done]. naive_solver.
  - by rewrite (Hlock _ eq_refl).
Qed.

Lemma client_step_owner now sink_open topology i st c st' c' clients :
  owner_inv st clients → clients !! i = Some c → client_step now sink_open topology i st c = Some (st', c') →
  owner_inv st' (<[i := c']> clients).
Proof.
  intros Hinv Hc (_ & _ & Ho)%client_step_state j.
  destruct (decide (i = j)) as [<-|Hne].
  - rewrite lookup_insert_eq. pose proof (Hinv i) as Hi. rewrite Hc in Hi.
    destruct (gc_pc c) eqn:Epc; try (destruct Ho as [-> Hpc]; rewrite Hi; split;
      [intros (c0 & rx & [= <-] & Hx); congruence|intros (c0 & rx & [= <-] & Hx); by destruct (Hpc rx)]).
    + destruct Ho as (_ & -> & Hpc). split; [intros _; eauto|done].
    + destruct Ho as [-> Hpc]. split; [done|]. intros (c0 & rx & [= <-] & Hx). by destruct (Hpc rx).
  - rewrite lookup_insert_ne by done. rewrite <- (Hinv j).
    destruct (gc_pc c) eqn:Epc; destruct Ho as [Ho Hpc]; try by rewrite Ho.
    + rewrite Ho. destruct Hpc as [-> _]. split; congruence.
    + assert (cis_map_owner st = Some (OwnerClient i)) as -> by (apply Hinv; eauto). rewrite Ho. split; congruence.
Qed.

Lemma client_recv_inv st pc taken sink_open c rev rx c' :
  loop_inv st pc taken → gc_pc c = ClientStream rx rev → client_inv (sent (cis_tx st)) c →
  client_recv sink_open c rev (broadcast_recv (cis_tx st) rx) = Some c' → client_inv (sent (cis_tx st)) c'.
Proof.
  intros Hinv Epc [Hn H] Hrecv. rewrite Epc in H. destruct H as (r & -> & Hp & Hsees).
  unfold client_recv in Hrecv. destruct (broadcast_recv _ rx) as [[e| |k|] rx'] eqn:Er; [|done| |].
  - apply recv_event in Er as [He Hpos]. pose proof (li_numbers _ _ _ Hinv _ _ He) as Hseq.
    pose proof (lookup_lt_Some _ _ _ He) as Hlt. injection Hrecv as <-. rewrite Hseq.
    destruct (Z.leb_spec (Z.of_nat (S (position rx))) (Z.of_nat r)); split; try done; cbn [goto gc_pc gc_out].
    + exists r. split; [done|]. split; [lia|]. by replace (max r (position rx')) with (max r (position rx)) by lia.
    + exists r, (position rx). split; [done|]. split; [lia|]. split; [done|]. split; [done|].
      by replace (max r (position rx)) with (position rx) in Hsees by lia.
  - injection Hrecv as <-. case_match; cbn [goto gc_pc gc_out]; [|split; [done|by eexists]].
    destruct (push_error (cie_message <$> sent (cis_tx st)) sink_open
      (mkGossipClient (gc_pc c) (S (gc_resnapshot_attempts c)) (gc_out c))
      (Internal "lagged to receive contact info messages") _ Hn Hsees) as [H1 H2].
    split; [exact H1|]. eexists. exact H2.
  - injection Hrecv as <-. split; [done|]. by eexists.
Qed.

Lemma client_step_client now sink_open topology i st c st' c' pc taken :
  loop_inv st pc taken → (∀ rx, gc_pc c = ClientLocked rx → cis_map_owner st = Some (OwnerClient i)) →
  client_inv (sent (cis_tx st)) c → topology ≡ₚ (map_to_list (cit_nodes (cis_map st))).*2 →
  client_step now sink_open topology i st c = Some (st', c') → client_inv (sent (cis_tx st)) c'.
Proof.
  intros Hinv Hlock Hc Htop Hstep. pose proof Hc as [Hn H]. unfold client_step in Hstep.
  destruct (gc_pc c) as [| | |rx|rx|rx snapshot|rx rev|rx rev e|] eqn:Epc; try discriminate.
  - by injection Hstep as <- <-.
  - destruct (watch_borrow _); [|done]. by injection Hstep as <- <-.
  - injection Hstep as <- <-. split; [done|]. split; [done|]. cbn. by rewrite position_subscribe.
  - destruct (lock_map st (OwnerClient i)) as [st1|] eqn:El; [|discriminate]. by injection Hstep as <- <-.
  - injection Hstep as <- <-. destruct H as [[o Ho] Hp]. split; [done|]. cbn [goto gc_pc gc_out ts_rev ts_topology].
    assert (in_critical_section pc = false) as Hcs.
    { apply not_true_iff_false. rewrite (li_owner _ _ _ Hinv), (Hlock rx eq_refl). done. }
    assert (length (log st) = length (sent (cis_tx st))) as Hlen by apply length_fmap.
    exists o, (length (sent (cis_tx st))). split; [done|]. split.
    { rewrite (li_version _ _ _ Hinv). unfold len. rewrite Hlen. destruct pc; try done; lia. }
    split; [rewrite <- Hlen; apply Ho|]. split; [lia|].
    rewrite Htop, (li_nodes _ _ _ Hinv), <- Hlen.
    change (cie_message <$> sent (cis_tx st)) with (log st). rewrite firstn_all.
    by destruct pc; try discriminate; rewrite app_nil_r.
  - injection Hstep as <- <-. destruct H as (o & r & Ho & Hr & Hle & Hp & Ht). destruct sink_open; cycle 1.
    { split; [done|]. by exists o. }
    rewrite Hr. split; cbn [goto push gc_pc gc_out].
    + constructor; [done|]. intros s Hs. by eapply sees_numbered_le.
    + exists r. split; [done|]. split; [lia|]. replace (max r (position rx)) with r by lia.
      apply sees_snapshot; [rewrite length_fmap; lia|done].
  - destruct (client_recv _ _ _ _) as [c1|] eqn:Er; [|discriminate]. injection Hstep as <- <-.
    by eapply client_recv_inv.
  - injection Hstep as <- <-. destruct H as (r & p & Hr & Hle & Hpos & He & Hsees). destruct sink_open; cycle 1.
    { split; [done|]. by eexists. }
    rewrite (li_numbers _ _ _ Hinv _ _ He). pose proof (lookup_lt_Some _ _ _ He) as Hlt. split; cbn [gc_pc gc_out].
    + constructor; [done|]. destruct Hsees as [-> _]. cbn. f_equal. lia.
    + exists r. split; [done|]. rewrite Hpos. split; [lia|]. replace (max r (S p)) with (S p) by lia.
      apply sees_update; [|done]. by rewrite list_lookup_fmap, He.
Qed.

Lemma client_cancel_some sink_open st c st' c' : client_cancel sink_open st c = Some (st', c') →
  cis_map st' = cis_map st ∧ cis_tx st' = cis_tx st ∧ cis_map_owner st' = cis_map_owner st ∧
  (∀ rx, gc_pc c ≠ ClientLocked rx) ∧
  c' = goto (push sink_open c (Err (Unavailable "server is shutting down try again later")))
         (ClientDone "server_shutdown").
Proof. unfold client_cancel. destruct (gc_pc c); try done; by intros [= <- <-]. Qed.

Lemma client_cancel_client sink_open st c st' c' events :
  client_inv events c → client_cancel sink_open st c = Some (st', c') → client_inv events c'.
Proof.
  intros [Hn H] Hc. assert (∃ o, sees (cie_message <$> events) (gc_out c) o) as [o Ho].
  { unfold client_cancel in Hc. destruct (gc_pc c); try done. destruct H as (r & _ & _ & H). by eexists. }
  apply client_cancel_some in Hc as (_ & _ & _ & _ & ->).
  destruct (push_error _ sink_open c (Unavailable "server is shutting down try again later") _ Hn Ho) as [H1 H2].
  split; [done|]. by eexists.
Qed.

Lemma client_ping_client now c events : client_inv events c → client_inv events (client_ping now c).
Proof.
  intros [Hn H]. split; [by constructor|]. cbn [client_ping push gc_pc gc_out].
  destruct (gc_pc c).
  all: repeat match goal with
    | H : ∃ o, sees _ _ o |- _ => destruct H as [o H]
    | H : _ ∧ _ |- _ => destruct H
    | H : ∃ x, _ |- _ => destruct H
    end.
  all: by eauto 12 using sees_ping.
Qed.

(** Replacing a subscriber that does not hold the lock by one that does not. *)
Lemma owner_inv_insert st clients i c : owner_inv st clients →
  (∀ c0 rx, clients !! i = Some c0 → gc_pc c0 ≠ ClientLocked rx) → (∀ rx, gc_pc c ≠ ClientLocked rx) →
  owner_inv st (<[i := c]> clients).
Proof.
  intros H H0 H1 j. rewrite (H j). destruct (decide (i = j)) as [<-|Hne].
  - rewrite lookup_insert_eq. split; [intros (c0 & rx & Hc & Hx); by destruct (H0 c0 rx)|].
    intros (c0 & rx & [= <-] & Hx). by destruct (H1 rx).
  - by rewrite lookup_insert_ne.
Qed.

Lemma feed_step_inv f f' : feed_inv f → feed_step f f' → len (gf_taken f') < 2 ^ 64 → feed_inv f'.
Proof.
  intros [Hl Ho Hc] Hstep Hlen. destruct Hstep; cbn [gf_state gf_loop gf_taken gf_clients] in *.
  - split; [|done|done]. destruct Hl as [H1 H2 H3 H4 H5 H6]. constructor; try done.
    cbn in *. by rewrite fmap_app, H1, app_nil_r.
  - split; [|done|done]. by destruct Hl.
  - split; cbn; [by eapply loop_step_inv|by eapply loop_step_owner|].
    intros i c Hi. destruct (loop_step_sent _ _ _ _ H) as [->|[e ->]]; [|apply client_inv_snoc]; by eapply Hc.
  - split; cbn; [done| |].
    + apply owner_inv_insert; [done|congruence|done].
    + intros j c [[<- <-]|[_ Hj]]%lookup_insert_Some; [|by eapply Hc].
      split; [constructor|]. exists None. split; [done|]. split; [cbn; lia|].
      cbn [default from_option]. rewrite take_0. symmetry. apply fmap_empty.
  - assert (∀ rx, gc_pc c = ClientLocked rx → cis_map_owner st = Some (OwnerClient i)) as Hlock
      by (intros rx Hrx; apply Ho; eauto).
    pose proof (client_step_state _ _ _ _ _ _ _ _ H1) as (_ & Htx & _).
    split; cbn; [by eapply client_step_loop|by eapply client_step_owner|]. rewrite Htx.
    intros j c0 [[<- <-]|[_ Hj]]%lookup_insert_Some; [|by eapply Hc].
    eapply client_step_client; [exact Hl|exact Hlock|by eapply Hc|done|done].
  - pose proof (client_cancel_some _ _ _ _ _ H0) as (Hm & Htx & Hown & Hnl & ->). split; cbn.
    + eapply loop_inv_frame; [exact Hm|exact Htx|by rewrite Hown|exact Hl].
    + eapply owner_inv_same; [intros j; by rewrite Hown|]. apply owner_inv_insert; [done|congruence|done].
    + rewrite Htx. intros j c0 [[<- <-]|[_ Hj]]%lookup_insert_Some; [|by eapply Hc].
      eapply client_cancel_client; [by eapply Hc|done].
  - split; cbn; [done| |].
    + intros j. rewrite (Ho j). destruct (decide (i = j)) as [<-|]; [|by rewrite lookup_insert_ne].
      rewrite lookup_insert_eq, H. split; intros (c0 & rx & [= <-] & Hx); by eexists _, rx.
    + intros j c0 [[<- <-]|[_ Hj]]%lookup_insert_Some; [|by eapply Hc].
      apply client_ping_client. by eapply Hc.
Qed.

Lemma feed_taken_grows f f' : feed_step f f' → len (gf_taken f) <= len (gf_taken f').
Proof. destruct 1; cbn; try lia. rewrite len_app. unfold len. cbn. lia. Qed.

Lemma feed_inv_reachable capacity f :
  feed_reachable capacity f → len (gf_taken f) < 2 ^ 64 → feed_inv f.
Proof.
  induction 1 as [|f f' _ IH Hstep]; intros Hlen.
  - split; cbn.
    + constructor; unfold log; cbn; by rewrite ?sent_new.
    + intros i. split; [done|]. intros (c & rx & Hc & _). by rewrite lookup_empty in Hc.
    + intros i c Hc. by rewrite lookup_empty in Hc.
  - pose proof (feed_taken_grows _ _ Hstep). eapply feed_step_inv; [apply IH; lia|done|done].
Qed.

(** ** The start-up replay *)

(** The notifications of the replay, up to the first live one. *)
Fixpoint startup_prefix (taken : list ContactInfoNotification) : nat :=
  match taken with
  | [] => 0
  | n :: taken => if cin_is_startup n then S (startup_prefix taken) else 0
  end.

Definition any_live (taken : list ContactInfoNotification) : bool := any (λ n, negb (cin_is_startup n)) taken.

Lemma startup_prefix_live taken : any_live taken = true → (startup_prefix taken < length taken)%nat.
Proof. induction taken as [|n taken IH]; cbn; [done|]. destruct (cin_is_startup n); cbn; [|lia]. intros ?%IH. lia. Qed.

Lemma startup_prefix_snoc taken n : any_live taken = true → startup_prefix (taken ++ [n]) = startup_prefix taken.
Proof. induction taken as [|x taken IH]; cbn; [done|]. destruct (cin_is_startup x); cbn; [|done]. intros H. by rewrite IH. Qed.

Lemma any_live_snoc taken n : any_live (taken ++ [n]) = any_live taken || negb (cin_is_startup n).
Proof. unfold any_live. rewrite existsb_app. cbn. by rewrite orb_false_r. Qed.

(** Past the wait of [wait_until_complete]. *)
Definition released (pc : ClientPc) : bool :=
  match pc with ClientStart | ClientWaiting | ClientDone _ => false | _ => true end.

Definition startup_client_inv (complete : bool) (prefix : nat) (c : GossipClient) : Prop :=
  (released (gc_pc c) = true → complete = true) ∧
  (∀ s, last_seq (gc_out c) = Some s → complete = true ∧ Z.of_nat prefix <= s) ∧
  match gc_pc c with ClientSnapshot _ snapshot => Z.of_nat prefix <= ts_rev snapshot | _ => True end.

Record startup_inv (f : GossipFeed) : Prop := {
  si_flight : match gf_loop f with LoopReceived n => last (gf_taken f) = Some n | _ => True end;
  si_live : watch_borrow (cis_complete_tx (gf_state f)) = true → any_live (gf_taken f) = true;
  si_clients i c : gf_clients f !! i = Some c →
    startup_client_inv (watch_borrow (cis_complete_tx (gf_state f))) (startup_prefix (gf_taken f)) c
}.

Lemma startup_client_mono b prefix c : startup_client_inv b prefix c → startup_client_inv true prefix c.
Proof. intros (H1 & H2 & H3). split; [done|]. split; [|done]. intros s Hs. split; [done|]. by apply H2. Qed.

Lemma startup_client_taken b taken n c : (b = true → any_live taken = true) →
  startup_client_inv b (startup_prefix taken) c → startup_client_inv b (startup_prefix (taken ++ [n])) c.
Proof.
  intros Hb (H1 & H2 & H3). split; [done|]. split.
  - intros s Hs. destruct (H2 s Hs) as [Ht ?]. by rewrite startup_prefix_snoc by auto.
  - destruct (gc_pc c); try done. by rewrite startup_prefix_snoc by auto.
Qed.

Lemma loop_step_complete st pc st' pc' : loop_step st pc = Some (st', pc') →
  watch_borrow (cis_complete_tx st') = watch_borrow (cis_complete_tx st) ∨
  watch_borrow (cis_complete_tx st') = true ∧ ∃ n, pc = LoopReceived n ∧ cin_is_startup n = false.
Proof.
  intros Hstep. destruct pc as [|n|n|n|n seq|n seq| |]; cbn [loop_step] in Hstep; try done.
  - destruct (startup_check st n) as [st1|] eqn:Ec; [|discriminate]. injection Hstep as <- <-.
    apply startup_check_some in Ec as (w & -> & [->|[Hn ->]]); [by left|]. cbn. rewrite borrow_send.
    case_bool_decide; [by left|right]. eauto.
  - destruct (lock_map st OwnerLoop) as [st1|] eqn:El; [|discriminate]. injection Hstep as <- <-.
    apply lock_map_some in El as [_ ->]. by left.
  - injection Hstep as <- <-. by left.
  - injection Hstep as <- <-. by left.
  - injection Hstep as <- <-. by left.
  - injection Hstep as <- <-. by left.
Qed.

Lemma client_step_complete now sink_open topology i st c st' c' :
  client_step now sink_open topology i st c = Some (st', c') →
  watch_borrow (cis_complete_tx st') = watch_borrow (cis_complete_tx st).
Proof.
  unfold client_step. intros Hstep. destruct (gc_pc c); try discriminate.
  - injection Hstep as <- <-. apply borrow_subscribe.
  - destruct (watch_borrow (cis_complete_tx st)) eqn:E; [|done]. injection Hstep as <- <-. cbn. by rewrite borrow_drop.
  - by injection Hstep as <- <-.
  - destruct (lock_map st (OwnerClient i)) as [st1|] eqn:El; [|discriminate].
    apply lock_map_some in El as [_ ->]. by injection Hstep as <- <-.
  - by injection Hstep as <- <-.
  - by injection Hstep as <- <-.
  - destruct (client_recv _ _ _ _); [|discriminate]. by injection Hstep as <- <-.
  - by injection Hstep as <- <-.
Qed.

Lemma last_seq_error out e : last_seq (out ++ [Err e]) = last_seq out.
Proof. by rewrite last_seq_snoc. Qed.

Lemma startup_client_error b prefix sink_open c e reason : startup_client_inv b prefix c →
  startup_client_inv b prefix (goto (push sink_open c (Err e)) (ClientDone reason)).
Proof.
  intros (H1 & H2 & H3). split; [done|]. split; [|done]. destruct sink_open; cbn [goto push gc_out]; [|done].
  by rewrite last_seq_error.
Qed.

Lemma client_step_startup f i c now sink_open topology st' c' :
  feed_inv f → startup_inv f → gf_clients f !! i = Some c →
  client_step now sink_open topology i (gf_state f) c = Some (st', c') →
  startup_client_inv (watch_borrow (cis_complete_tx (gf_state f))) (startup_prefix (gf_taken f)) c'.
Proof.
  intros [Hl Ho Hcs] [_ Hlive Hsc] Hi Hstep. pose proof (Hsc i c Hi) as (H1 & H2 & H3).
  pose proof (Hcs i c Hi) as [_ Hc]. assert (∀ pc, pc = gc_pc c → released pc = true →
    watch_borrow (cis_complete_tx (gf_state f)) = true) as Hrel by (intros ? -> ?; by apply H1).
  set (b := watch_borrow _) in *. set (prefix := startup_prefix _) in *.
  assert (∀ pc attempts, (released pc = true → b = true) →
    match pc with ClientSnapshot _ snapshot => Z.of_nat prefix <= ts_rev snapshot | _ => True end →
    startup_client_inv b prefix (mkGossipClient pc attempts (gc_out c))) as Hgoto by done.
  unfold client_step in Hstep. destruct (gc_pc c) as [| | |rx|rx|rx snapshot|rx rev|rx rev e|] eqn:Epc; try discriminate.
  - injection Hstep as <- <-. by apply Hgoto.
  - fold b in Hstep. destruct b eqn:Eb; [|done]. injection Hstep as <- <-. by apply Hgoto.
  - injection Hstep as <- <-. by apply Hgoto.
  - destruct (lock_map _ (OwnerClient i)) as [st1|] eqn:El; [|discriminate]. injection Hstep as <- <-. by apply Hgoto.
  - injection Hstep as <- <-. apply Hgoto; [done|]. cbn [ts_rev].
    assert (any_live (gf_taken f) = true) as Hany by by apply Hlive, H1.
    apply startup_prefix_live in Hany. fold prefix in Hany.
    pose proof (f_equal length (li_taken _ _ _ Hl)) as Hlen. rewrite length_fmap, length_app in Hlen.
    assert (length (in_flight (gf_loop f)) <= 1)%nat by (destruct (gf_loop f); cbn; lia).
    rewrite (li_version _ _ _ Hl). unfold len. destruct (gf_loop f); lia.
  - injection Hstep as <- <-. destruct sink_open; [|by apply Hgoto].
    split; [done|]. split; [|done]. cbn [goto push gc_out]. rewrite last_seq_snoc. intros s [= <-]. auto.
  - destruct (client_recv _ _ _ _) as [c1|] eqn:Er; [|discriminate]. injection Hstep as <- <-. unfold client_recv in Er.
    destruct (broadcast_recv _ rx) as [[e| |k|] rx'] eqn:Ebr; [|done| |]; injection Er as <-.
    + apply Hgoto; [intros _; by apply H1|by destruct (_ <=? _)].
    + case_match; [|by apply Hgoto]. apply startup_client_error. by apply Hgoto; rewrite Epc.
    + by apply Hgoto.
  - injection Hstep as <- <-. destruct sink_open; [|by apply Hgoto].
    destruct Hc as (r & p & _ & _ & _ & He & Hlast & _). cbn in Hlast.
    split; [done|]. split; [|done]. cbn [gc_out]. rewrite last_seq_snoc. intros s Hs.
    split; [by apply H1|]. destruct (H2 _ Hlast) as [_ Hle].
    assert (s = cie_seq e) as -> by (destruct (cie_message e); by injection Hs).
    rewrite (li_numbers _ _ _ Hl _ _ He). lia.
Qed.

Lemma client_ping_startup b prefix now c : startup_client_inv b prefix c → startup_client_inv b prefix (client_ping now c).
Proof.
  intros (H1 & H2 & H3). split; [done|]. split; [|done]. cbn [client_ping push gc_out]. by rewrite last_seq_snoc.
Qed.

Lemma client_cancel_complete sink_open st c st' c' : client_cancel sink_open st c = Some (st', c') →
  watch_borrow (cis_complete_tx st') = watch_borrow (cis_complete_tx st).
Proof.
  unfold client_cancel. destruct (gc_pc c); try done; intros [= <- <-]; try done. apply borrow_drop.
Qed.

Lemma startup_inv_step f f' : feed_inv f → startup_inv f → feed_step f f' → startup_inv f'.
Proof.
  intros Hf Hs Hstep. pose proof Hs as [Hfl Hlive Hc].
  destruct Hstep; cbn [gf_state gf_loop gf_taken gf_clients] in *.
  - split; cbn [gf_state gf_loop gf_taken gf_clients].
    + by rewrite last_snoc.
    + intros Hb. by rewrite any_live_snoc, Hlive.
    + intros i c Hi. apply startup_client_taken; [done|]. by eapply Hc.
  - by split.
  - split; cbn [gf_state gf_loop gf_taken gf_clients].
    + destruct pc; cbn [loop_step] in H; try done; try by injection H as <- <-.
      * destruct (startup_check st n); [|discriminate]. by injection H as <- <-.
      * destruct (lock_map st OwnerLoop); [|discriminate]. by injection H as <- <-.
    + destruct (loop_step_complete _ _ _ _ H) as [->|[-> (n & -> & Hn)]]; [done|]. intros _.
      apply last_Some in Hfl as [l ->]. by rewrite any_live_snoc, Hn, orb_true_r.
    + intros i c Hi. destruct (loop_step_complete _ _ _ _ H) as [->|[-> _]]; [by eapply Hc|].
      eapply startup_client_mono. by eapply Hc.
  - split; cbn [gf_state gf_loop gf_taken gf_clients]; [done|done|].
    intros j c [[<- <-]|[_ Hj]]%lookup_insert_Some; [by split|by eapply Hc].
  - split; cbn [gf_state gf_loop gf_taken gf_clients]; rewrite ?(client_step_complete _ _ _ _ _ _ _ _ H1); [done|done|].
    intros j c0 [[<- <-]|[_ Hj]]%lookup_insert_Some; [|by eapply Hc].
    by eapply (client_step_startup (mkGossipFeed st pc taken clients)).
  - split; cbn [gf_state gf_loop gf_taken gf_clients]; rewrite ?(client_cancel_complete _ _ _ _ _ H0); [done|done|].
    intros j c0 [[<- <-]|[_ Hj]]%lookup_insert_Some; [|by eapply Hc].
    apply client_cancel_some in H0 as (_ & _ & _ & _ & ->). apply startup_client_error. by eapply Hc.
  - split; cbn [gf_state gf_loop gf_taken gf_clients]; [done|done|].
    intros j c0 [[<- <-]|[_ Hj]]%lookup_insert_Some; [|by eapply Hc]. apply client_ping_startup. by eapply Hc.
Qed.

Lemma startup_inv_reachable capacity f :
  feed_reachable capacity f → len (gf_taken f) < 2 ^ 64 → startup_inv f.
Proof.
  induction 1 as [|f f' Hr IH Hstep]; intros Hlen.
  - split; cbn; [done| |].
    + by rewrite borrow_new.
    + intros i c Hc. by rewrite lookup_empty in Hc.
  - pose proof (feed_taken_grows _ _ Hstep). eapply startup_inv_step; [|apply IH; lia|done].
    eapply feed_inv_reachable; [done|lia].
Qed.

Lemma sees_app ms ms' out o : sees ms out o → sees (ms ++ ms') out o.
Proof. induction ms' as [|m ms' IH] using rev_ind; intros H; [by rewrite app_nil_r|]. rewrite app_assoc. by apply sees_snoc, IH. Qed.

(** C7. The gossip feed is consistent under every interleaving of the writer and
    the subscribers, with lags, slow clients, pings and cancellations: at any
    time the view of a client is empty or is exactly the table after some
    prefix of the notifications, which has at least the whole start-up replay;
    its revision is the number of the last update it received, updates are
    numbered without a gap and snapshots never go back. When the client has
    nothing left to receive and the writer waits, the view is the table. *)
Theorem gossip_view_is_table capacity f i c :
  feed_reachable capacity f → len (gf_taken f) < 2 ^ 64 → gf_clients f !! i = Some c →
  ∃ o, sees (cin_message <$> gf_taken f) (gc_out c) o ∧ numbered (gc_out c) ∧
    (∀ s, o = Some s → (startup_prefix (gf_taken f) <= s)%nat) ∧
    (∀ rx rev rx', gc_pc c = ClientStream rx rev →
       broadcast_recv (cis_tx (gf_state f)) rx = (RecvEmpty, rx') → gf_loop f = LoopNext →
       o = Some (length (gf_taken f)) ∧ view (gc_out c) = sent_view (cit_nodes (cis_map (gf_state f)))).
Proof.
  intros Hr Hlen Hi. pose proof (feed_inv_reachable _ _ Hr Hlen) as [Hl _ Hc].
  pose proof (startup_inv_reachable _ _ Hr Hlen) as [_ _ Hs].
  destruct (Hc i c Hi) as [Hnum Hpc]. destruct (Hs i c Hi) as (_ & Hprefix & _).
  assert (∃ o, sees (log (gf_state f)) (gc_out c) o ∧ ∀ rx rev, gc_pc c = ClientStream rx rev →
    ∃ r : nat, o = Some (max r (position rx))) as (o & Ho & Hstream).
  { fold (log (gf_state f)) in Hpc. destruct (gc_pc c).
    all: repeat match goal with
      | H : ∃ o, sees _ _ o |- _ => destruct H as [o H]
      | H : ∃ x, _ |- _ => destruct H
      | H : _ ∧ _ |- _ => destruct H
      end.
    all: eexists; split; [eassumption|]; intros ? ? [=]; subst; by eexists. }
  exists o. pose proof (li_taken _ _ _ Hl) as Ht. split; [rewrite Ht; by apply sees_app|]. split; [done|]. split.
  - intros s ->. destruct Ho as [Ho _]. apply Hprefix in Ho as [_ ?]. lia.
  - intros rx rev rx' Hpcc Hempty Hloop. destruct (Hstream _ _ Hpcc) as [r ->].
    rewrite Hloop, app_nil_r in Ht. pose proof (li_nodes _ _ _ Hl) as Hnodes. rewrite Hloop, app_nil_r in Hnodes.
    apply recv_empty in Hempty. pose proof (f_equal length Ht) as Hlt. unfold log in Hlt. rewrite !length_fmap in Hlt.
    destruct Ho as (_ & Hle & Hview). cbn [default from_option id] in *. unfold log in Hle. rewrite length_fmap in Hle.
    assert (max r (position rx) = length (gf_taken f)) as Hmax by lia. rewrite Hmax in *. split; [done|].
    rewrite Hview, Hnodes. do 2 f_equal. apply take_ge. unfold log. rewrite length_fmap. lia.
Qed.

(** A completed start-up replay is only recorded while a subscriber waits
    for it: as long as no client ever subscribed, the table is never marked
    complete, however many live notifications were processed, so the first
    client finds it incomplete and is blocked until the next live one. Once it
    waits, the next live notification does release it. *)
Theorem startup_completion_missed capacity f :
  feed_reachable capacity f → gf_clients f = ∅ →
  watch_borrow (cis_complete_tx (gf_state f)) = false ∧
  ∀ i now sink_open topology st c,
    client_step now sink_open topology i (gf_state f) GossipClient_new = Some (st, c) →
    client_step now sink_open topology i st c = None ∧
    ∀ n st' pc', cin_is_startup n = false → loop_step st (LoopReceived n) = Some (st', pc') →
      is_Some (client_step now sink_open topology i st' c).
Proof.
  intros Hr He.
  assert (watch_borrow (cis_complete_tx (gf_state f)) = false ∧
    watch_receivers (cis_complete_tx (gf_state f)) = 0%nat) as [Hb _].
  { induction Hr as [|f f' Hr IH Hstep]; [split; [apply borrow_new|apply receivers_new]|].
    destruct Hstep; cbn [gf_clients gf_state] in *; try (by apply IH); try by destruct (insert_non_empty _ _ _ He).
    destruct (IH He) as [Hb Hw]. destruct pc as [|n|n|n|n seq|n seq| |]; cbn [loop_step] in H; try done.
    - destruct (startup_check st n) as [st1|] eqn:Ec; [|discriminate]. injection H as <- <-.
      apply startup_check_some in Ec as (w & -> & [->|[Hn ->]]); [done|]. cbn.
      by rewrite borrow_send, receivers_send, bool_decide_eq_true_2.
    - destruct (lock_map st OwnerLoop) as [st1|] eqn:El; [|discriminate]. injection H as <- <-.
      by apply lock_map_some in El as [_ ->].
    - by injection H as <- <-.
    - by injection H as <- <-.
    - by injection H as <- <-.
    - by injection H as <- <-. }
  split; [done|]. intros i now sink_open topology st c [= <- <-]. cbn. rewrite borrow_subscribe, Hb. split; [done|].
  intros n st' pc' Hn. unfold startup_check. cbn. rewrite Hn, borrow_subscribe, Hb. cbn.
  destruct (lock_map _ _) as [st1|] eqn:El; [|discriminate]. apply lock_map_some in El as [_ ->].
  intros [= <- <-]. cbn. rewrite borrow_send, receivers_subscribe. by eexists.
Qed.
End invariant.

(** ** A concrete feed *)

Section instances.
#[local] Existing Instances ring_broadcast ring_broadcast_laws pair_watch pair_watch_laws.

(** A schedule: which task runs next. *)
Inductive feed_action :=
| ActNotify (n : ContactInfoNotification)
| ActLoop
| ActSubscribe (i : nat)
| ActClient (i : nat)
| ActPing (i : nat).

Definition the_epoch : Timestamp := mkTimestamp 0 0.

Definition run_action (f : GossipFeed) (a : feed_action) : option GossipFeed :=
  let 'mkGossipFeed st pc taken clients := f in
  match a with
  | ActNotify n =>
      match pc with LoopNext => Some (mkGossipFeed st (LoopReceived n) (taken ++ [n]) clients) | _ => None end
  | ActLoop => '(st, pc) ← loop_step st pc; Some (mkGossipFeed st pc taken clients)
  | ActSubscribe i =>
      match clients !! i with
      | None => Some (mkGossipFeed st pc taken (<[i := GossipClient_new]> clients))
      | Some _ => None
      end
  | ActClient i =>
      c ← clients !! i;
      '(st, c) ← client_step the_epoch true (map_to_list (cit_nodes (cis_map st))).*2 i st c;
      Some (mkGossipFeed st pc taken (<[i := c]> clients))
  | ActPing i => c ← clients !! i; Some (mkGossipFeed st pc taken (<[i := client_ping the_epoch c]> clients))
  end.

Fixpoint run_schedule (f : GossipFeed) (schedule : list feed_action) : option GossipFeed :=
  match schedule with
  | [] => Some f
  | a :: schedule => f ← run_action f a; run_schedule f schedule
  end.

Lemma run_action_step f a f' : run_action f a = Some f' → feed_step f f'.
Proof.
  destruct f as [st pc taken clients], a as [n| |i|i|i]; cbn [run_action].
  - destruct pc; try done. intros [= <-]. constructor.
  - destruct (loop_step st pc) as [[st' pc']|] eqn:E; [|done]. intros [= <-]. by constructor.
  - destruct (clients !! i) eqn:E; [done|]. intros [= <-]. by constructor.
  - destruct (clients !! i) as [c|] eqn:E; [|done]. cbn [mbind option_bind].
    destruct (client_step _ _ _ _ _ _) as [[st' c']|] eqn:Es; [|done]. intros [= <-]. by econstructor.
  - destruct (clients !! i) as [c|] eqn:E; [|done]. intros [= <-]. by econstructor.
Qed.

Lemma run_schedule_reachable capacity f schedule f' :
  feed_reachable capacity f → run_schedule f schedule = Some f' → feed_reachable capacity f'.
Proof.
  revert f. induction schedule as [|a schedule IH]; intros f Hf; cbn [run_schedule]; [by intros [= <-]|].
  destruct (run_action f a) as [f1|] eqn:E; [|done]. intros H. apply (IH f1); [|done].
  eapply feed_more; [done|by eapply run_action_step].
Qed.

Definition demo_contact (k : byte) (marker : Z) : MessageContactInfo :=
  mkMessageContactInfo (replicate 32 k) 0 0 marker 0 0 0 0 0 0 (Some (SocketAddrV4 [10; 0; 0; 1] 8001))
    None None None None None None None None None None None the_epoch.

Definition demo_notification (startup : bool) (m : ContactInfoMessage) : ContactInfoNotification :=
  mkContactInfoNotification m startup.

(** A start-up node; a client waits; two live changes race with its snapshot:
    the first is in the snapshot and in its channel; the ring of two then laps
    the client, which takes a second snapshot and catches up. *)
Definition demo_schedule : list feed_action :=
  [ActNotify (demo_notification true (CiNode (demo_contact Byte.x41 1)))] ++ replicate 6 ActLoop
  ++ [ActSubscribe 0; ActClient 0]
  ++ [ActNotify (demo_notification false (CiNode (demo_contact Byte.x42 2)))] ++ [ActLoop; ActClient 0; ActClient 0]
  ++ replicate 5 ActLoop ++ [ActClient 0; ActClient 0; ActClient 0; ActPing 0; ActClient 0]
  ++ concat (replicate 3 (ActNotify (demo_notification false (CiRemoved
       (mkMessageContactInfoRemoved (replicate 32 Byte.x41) the_epoch))) :: replicate 6 ActLoop))
  ++ replicate 5 (ActClient 0).

Definition demo_feed : option GossipFeed := run_schedule (GossipFeed_new 2) demo_schedule.

(** The numbers of the updates the client was sent: a snapshot at 2, a ping, a snapshot at 5. *)
Example demo_feed_out :
  (f ← demo_feed; c ← gf_clients f !! 0%nat; Some (omap (λ r, match r with Ok u => Some (sug_seq u) | Err _ => None end) (gc_out c)))
  = Some [2; 0; 5].
Proof. by vm_compute. Qed.

Definition caught_up (f : GossipFeed) (c : GossipClient) : bool :=
  bool_decide (len (gf_taken f) < 2 ^ 64)
  && match gf_loop f with LoopNext => true | _ => false end
  && match gc_pc c with
     | ClientStream rx _ => match broadcast_recv (cis_tx (gf_state f)) rx with (RecvEmpty, _) => true | _ => false end
     | _ => false
     end.

Lemma demo_feed_caught_up :
  match demo_feed with
  | Some f => match gf_clients f !! 0%nat with Some c => caught_up f c | None => false end
  | None => false
  end = true.
Proof. by vm_compute. Qed.

Lemma gossip_view_is_table_witness :
  ∃ f c, demo_feed = Some f ∧ gf_clients f !! 0%nat = Some c ∧ numbered (gc_out c) ∧
    view (gc_out c) = sent_view (cit_nodes (cis_map (gf_state f))).
Proof.
  pose proof demo_feed_caught_up as Hok.
  destruct demo_feed as [f|] eqn:Ef; [|discriminate Hok].
  destruct (gf_clients f !! 0%nat) as [c|] eqn:Ec; [|discriminate Hok].
  exists f, c. split; [reflexivity|]. split; [exact Ec|].
  assert (feed_reachable 2 f) as Hr by (eapply run_schedule_reachable; [apply feed_init|exact Ef]).
  unfold caught_up in Hok. apply andb_true_iff in Hok as [[Hlen Hloop]%andb_true_iff Hpc].
  apply bool_decide_eq_true in Hlen.
  destruct (gossip_view_is_table 2 f 0 c Hr Hlen Ec) as (o & _ & Hn & _ & Hcaught). split; [exact Hn|].
  destruct (gc_pc c) as [| | | | | |rx rev| |]; try discriminate Hpc.
  destruct (broadcast_recv (cis_tx (gf_state f)) rx) as [[e| |k|] rx'] eqn:Er; try discriminate Hpc.
  apply (Hcaught rx rev rx' eq_refl Er). destruct (gf_loop f); first [reflexivity|discriminate Hloop].
Defined.

(** One live notification, processed before anyone subscribed. *)
Definition demo_missed : option GossipFeed :=
  run_schedule (GossipFeed_new 2)
    (ActNotify (demo_notification false (CiNode (demo_contact Byte.x41 1))) :: replicate 6 ActLoop).

Lemma demo_missed_empty :
  match demo_missed with Some f => Nat.eqb (size (gf_clients f)) 0 && any_live (gf_taken f) | None => false end = true.
Proof. by vm_compute. Qed.

Lemma startup_completion_missed_witness :
  ∃ f, demo_missed = Some f ∧ any_live (gf_taken f) = true ∧ watch_borrow (cis_complete_tx (gf_state f)) = false.
Proof.
  pose proof demo_missed_empty as Hok. destruct demo_missed as [f|] eqn:Ef; [|discriminate Hok].
  apply andb_true_iff in Hok as [Hsize Hlive]. exists f. split; [reflexivity|]. split; [exact Hlive|].
  apply (startup_completion_missed 2 f).
  - eapply run_schedule_reachable; [apply feed_init|exact Ef].
  - apply map_size_empty_iff. by apply Nat.eqb_eq.
Defined.
End instances.
