(* ===== verification/AccountsFilter.v ===== *)
(** * plugin/filter/filter.rs: account filters

    [FilterAccountAggregate] (one parsed account filter), the five matching
    strategies and the choice between them, and [FilterAccounts]. The reference
    is [LinearScanFilter]: asking every aggregate in order. The main theorem
    says that whatever strategy [build] picks, [get_filters] computes the
    linear scan, with no index out of bounds. *)

From S2P Require Import Prelude Bits Externals Proto Message Limits Names FilterBase DataSlice.
From S2P Require Import AccountsState Cuckoo Updates.

Set Default Goal Selector "!".

(** A boxed slice of words. *)
Abbreviation FilterBitSet := (list Z).

Section accounts.
Context {X : Externals}.

Record FilterAccountAggregate := mkFilterAccountAggregate {
  faa_filter_name : FilterName;
  faa_txn_signature : option bool;
  faa_accounts : option (gset Pubkey);
  faa_accounts_cuckoo : option (CuckooFilter YellowstoneHasherBuilder);
  faa_owners : option (gset Pubkey);
  faa_account_state : option FilterAccountsState
}.

Definition FilterAccountAggregate_new (filter_name : FilterName) : FilterAccountAggregate :=
  {| faa_filter_name := filter_name;
     faa_txn_signature := None;
     faa_accounts := None;
     faa_accounts_cuckoo := None;
     faa_owners := None;
     faa_account_state := None |}.

Definition match_txn_signature (a : FilterAccountAggregate) (txn_signature : option Signature)
    : bool :=
  match faa_txn_signature a with
  | Some required => Bool.eqb required (bool_decide (is_Some txn_signature))
  | None => true
  end.

Definition match_account (a : FilterAccountAggregate) (pubkey : Pubkey)
    (matched_account : option bool) : outcome bool :=
  if bool_decide (faa_accounts a = None) && match faa_accounts_cuckoo a with None => true | _ => false end
  then Done true
  else
    let by_set :=
      match faa_accounts a with
      | Some accounts =>
          match matched_account with
          | Some matched_account => matched_account
          | None => bool_decide (pubkey ∈ accounts)
          end
      | None => false
      end in
    if by_set then Done true
    else
      match faa_accounts_cuckoo a with
      | Some accounts_cuckoo => CuckooFilter_contains accounts_cuckoo pubkey
      | None => Done false
      end.

Definition match_owner (a : FilterAccountAggregate) (pubkey : Pubkey)
    (matched_owner : option bool) : bool :=
  match faa_owners a with
  | Some owners =>
      match matched_owner with
      | Some matched_owner => matched_owner
      | None => bool_decide (pubkey ∈ owners)
      end
  | None => true
  end.

Definition match_data_lamports (a : FilterAccountAggregate) (data : bytes) (lamports : Z)
    : outcome bool :=
  match faa_account_state a with
  | Some account_state => FilterAccountsState_is_match account_state data lamports
  | None => Done true
  end.

Definition match_filter (a : FilterAccountAggregate) (account : MessageAccountInfo)
    (matched_account matched_owner : option bool) : outcome (option FilterName) :=
  if negb (match_txn_signature a (ai_txn_signature account)) then Done None
  else
    b ← match_account a (ai_pubkey account) matched_account;
    if negb b then Done None
    else if negb (match_owner a (ai_owner account) matched_owner) then Done None
    else
      b ← match_data_lamports a (ai_data account) (ai_lamports account);
      if negb b then Done None
      else Done (Some (faa_filter_name a)).

(** ** [FilterBitSet] *)

Definition BITS_PER_WORD : nat := 64.

Definition FilterBitSet_new (bits : nat) : FilterBitSet :=
  replicate ((bits + 63) / BITS_PER_WORD) 0%Z.

Definition FilterBitSet_insert (b : FilterBitSet) (index : nat) : outcome FilterBitSet :=
  match b !! (index / BITS_PER_WORD) with
  | Some word =>
      Done (<[index / BITS_PER_WORD :=
        Z.lor word (Z.shiftl 1 (Z.of_nat (index mod BITS_PER_WORD)))]> b)
  | None => Panic
  end.

Definition FilterBitSet_is_empty (b : FilterBitSet) : bool := all (λ word, (word =? 0)%Z) b.

Definition FilterBitSet_word (b : FilterBitSet) (index : nat) : outcome Z := vec_index b index.

(** ** [FilterAccountsIndex] *)

Record FilterAccountsIndex := mkFilterAccountsIndex {
  fai_aggregates : list FilterAccountAggregate;
  fai_accounts : gmap Pubkey FilterBitSet;
  fai_owners : gmap Pubkey FilterBitSet;
  fai_account_fallback : FilterBitSet;
  fai_owner_fallback : FilterBitSet;
  fai_account_fallback_empty : bool;
  fai_owner_fallback_empty : bool
}.

Definition MAX_BITSET_BYTES : Z := (512 * 1024 * 1024)%Z.

(** [.map_or(0, |set| set.len())]. *)
Definition opt_set_len (o : option (gset Pubkey)) : Z :=
  match o with Some s => Z.of_nat (size s) | None => 0%Z end.

(** [map.entry(key).or_insert_with(|| FilterBitSet::new(n)).insert(index)]. *)
Definition bitmap_insert (n index : nat) (m : gmap Pubkey FilterBitSet) (key : Pubkey)
    : outcome (gmap Pubkey FilterBitSet) :=
  b ← FilterBitSet_insert (default (FilterBitSet_new n) (m !! key)) index;
  Done (<[key := b]> m).

(** One iteration of the loop of [try_init]. *)
Definition index_add (n : nat) (this : FilterAccountsIndex)
    (entry : nat * FilterAccountAggregate) : outcome FilterAccountsIndex :=
  let '(index, aggregate) := entry in
  accounts ← match faa_accounts aggregate with
             | Some accounts => foldM (bitmap_insert n index) (fai_accounts this) (elements accounts)
             | None => Done (fai_accounts this)
             end;
  account_fallback ←
    (if bool_decide (faa_accounts aggregate = None)
        || match faa_accounts_cuckoo aggregate with Some _ => true | None => false end
     then FilterBitSet_insert (fai_account_fallback this) index
     else Done (fai_account_fallback this));
  '(owners, owner_fallback) ←
    match faa_owners aggregate with
    | Some owners =>
        m ← foldM (bitmap_insert n index) (fai_owners this) (elements owners);
        Done (m, fai_owner_fallback this)
    | None =>
        b ← FilterBitSet_insert (fai_owner_fallback this) index;
        Done (fai_owners this, b)
    end;
  Done {| fai_aggregates := fai_aggregates this;
          fai_accounts := accounts;
          fai_owners := owners;
          fai_account_fallback := account_fallback;
          fai_owner_fallback := owner_fallback;
          fai_account_fallback_empty := fai_account_fallback_empty this;
          fai_owner_fallback_empty := fai_owner_fallback_empty this |}.

Definition enumerate {A} (l : list A) : list (nat * A) := zip (seq 0 (length l)) l.

Definition index_memory (aggregates : list FilterAccountAggregate) : Z :=
  let word_bytes := saturating_mul (Z.of_nat ((length aggregates + 63) / BITS_PER_WORD)) 8 in
  let memberships :=
    fold_left (λ count aggregate,
      saturating_add (saturating_add count (opt_set_len (faa_accounts aggregate)))
        (opt_set_len (faa_owners aggregate))) aggregates 0%Z in
  saturating_mul word_bytes (saturating_add memberships 2).

Definition FilterAccountsIndex_try_init (aggregates : list FilterAccountAggregate)
    : outcome (option FilterAccountsIndex) :=
  let n := length aggregates in
  if n <=? 1 then Done None
  else if (MAX_BITSET_BYTES <? index_memory aggregates)%Z then Done None
  else
    let this :=
      {| fai_aggregates := aggregates;
         fai_accounts := ∅;
         fai_owners := ∅;
         fai_account_fallback := FilterBitSet_new n;
         fai_owner_fallback := FilterBitSet_new n;
         fai_account_fallback_empty := true;
         fai_owner_fallback_empty := true |} in
    this ← foldM (index_add n) this (enumerate aggregates);
    if bool_decide (fai_accounts this = ∅) && bool_decide (fai_owners this = ∅)
    then Done None
    else
      Done (Some {| fai_aggregates := fai_aggregates this;
                    fai_accounts := fai_accounts this;
                    fai_owners := fai_owners this;
                    fai_account_fallback := fai_account_fallback this;
                    fai_owner_fallback := fai_owner_fallback this;
                    fai_account_fallback_empty :=
                      FilterBitSet_is_empty (fai_account_fallback this);
                    fai_owner_fallback_empty :=
                      FilterBitSet_is_empty (fai_owner_fallback this) |}).

(** [matched.map(|bitset| bitset.word(i)).unwrap_or_default()]. *)
Definition opt_word (o : option FilterBitSet) (word_index : nat) : outcome Z :=
  match o with Some b => FilterBitSet_word b word_index | None => Done 0%Z end.

(** The body of [while candidates != 0] for one bit. *)
Definition check_candidate (this : FilterAccountsIndex) (account : MessageAccountInfo)
    (word_index : nat) (accounts_word owners_word : Z) (bit_index : nat)
    : outcome (option FilterName) :=
  let bit := Z.shiftl 1 (Z.of_nat bit_index) in
  aggregate ← vec_index (fai_aggregates this) (word_index * BITS_PER_WORD + bit_index);
  match_filter aggregate account
    (Some (negb (Z.land accounts_word bit =? 0)%Z)) (Some (negb (Z.land owners_word bit =? 0)%Z)).

(** One word of the scan. *)
Definition scan_word (this : FilterAccountsIndex) (account : MessageAccountInfo)
    (matched_accounts matched_owners : option FilterBitSet)
    (filters : FilteredUpdateFilters) (word_index : nat) : outcome FilteredUpdateFilters :=
  accounts_word ← opt_word matched_accounts word_index;
  owners_word ← opt_word matched_owners word_index;
  account_fallback ← FilterBitSet_word (fai_account_fallback this) word_index;
  owner_fallback ← FilterBitSet_word (fai_owner_fallback this) word_index;
  let candidates :=
    Z.land (Z.lor accounts_word account_fallback) (Z.lor owners_word owner_fallback) in
  found ← filter_mapM (check_candidate this account word_index accounts_word owners_word)
            (visit_bits BITS_PER_WORD candidates);
  Done (filters ++ found).

Definition FilterAccountsIndex_get_filters (this : FilterAccountsIndex)
    (account : MessageAccountInfo) : outcome FilteredUpdateFilters :=
  let matched_accounts := fai_accounts this !! ai_pubkey account in
  if bool_decide (matched_accounts = None) && fai_account_fallback_empty this then Done []
  else
    let matched_owners := fai_owners this !! ai_owner account in
    if bool_decide (matched_owners = None) && fai_owner_fallback_empty this then Done []
    else foldM (scan_word this account matched_accounts matched_owners) []
           (seq 0 (length (fai_account_fallback this))).

(** ** The merge strategies *)

(** [next_union]: the cursors are returned with the answer. *)
Definition next_union (hits unconstrained : list nat) (hits_cursor unconstrained_cursor : nat)
    : option (nat * bool) * (nat * nat) :=
  match hits !! hits_cursor, unconstrained !! unconstrained_cursor with
  | Some hit, Some unconstrained =>
      if hit <? unconstrained then (Some (hit, true), (S hits_cursor, unconstrained_cursor))
      else if unconstrained <? hit
      then (Some (unconstrained, false), (hits_cursor, S unconstrained_cursor))
      else (Some (hit, true), (S hits_cursor, S unconstrained_cursor))
  | Some hit, None => (Some (hit, true), (S hits_cursor, unconstrained_cursor))
  | None, Some unconstrained =>
      (Some (unconstrained, false), (hits_cursor, S unconstrained_cursor))
  | None, None => (None, (hits_cursor, unconstrained_cursor))
  end.

(** [if map.is_empty() { &[] } else { map.get(key).map_or(&[], ..) }]. *)
Definition get_hits (m : gmap Pubkey (list nat)) (key : Pubkey) : list nat :=
  if bool_decide (m = ∅) then [] else default [] (m !! key).

Definition LinearScanFilter_get_filters (aggregates : list FilterAccountAggregate)
    (account : MessageAccountInfo) : outcome FilteredUpdateFilters :=
  filter_mapM (λ aggregate, match_filter aggregate account None None) aggregates.

Record AllUnconstrainedFilter := mkAllUnconstrainedFilter {
  auf_aggregates : list FilterAccountAggregate;
  auf_accounts : gmap Pubkey (list nat);
  auf_owners : gmap Pubkey (list nat)
}.

(** [cursor < hits.len() && hits[cursor] == index], and the advanced cursor. *)
Definition cursor_match (hits : list nat) (cursor index : nat) : bool * nat :=
  if bool_decide (hits !! cursor = Some index) then (true, S cursor) else (false, cursor).

(** The [filter_map] closure with its two captured cursors. *)
Fixpoint all_unconstrained_loop (account : MessageAccountInfo) (account_hits owner_hits : list nat)
    (account_hits_cursor owner_hits_cursor : nat) (l : list (nat * FilterAccountAggregate))
    : outcome FilteredUpdateFilters :=
  match l with
  | [] => Done []
  | (index, aggregate) :: l =>
      let '(matched_account, account_hits_cursor) :=
        cursor_match account_hits account_hits_cursor index in
      let '(matched_owner, owner_hits_cursor) := cursor_match owner_hits owner_hits_cursor index in
      o ← match_filter aggregate account (Some matched_account) (Some matched_owner);
      rest ← all_unconstrained_loop account account_hits owner_hits account_hits_cursor
               owner_hits_cursor l;
      Done (match o with Some name => name :: rest | None => rest end)
  end.

Definition AllUnconstrainedFilter_get_filters (this : AllUnconstrainedFilter)
    (account : MessageAccountInfo) : outcome FilteredUpdateFilters :=
  all_unconstrained_loop account (get_hits (auf_accounts this) (ai_pubkey account))
    (get_hits (auf_owners this) (ai_owner account)) 0 0 (enumerate (auf_aggregates this)).

Record SingleAxisMergeFilter := mkSingleAxisMergeFilter {
  sam_aggregates : list FilterAccountAggregate;
  sam_unbounded_is_owner : bool;
  sam_bounded_hits : gmap Pubkey (list nat);
  sam_bounded_any : list nat
}.

(** [while let Some(..) = next_union(..)]: each iteration advances a cursor, so
    as many iterations as both lists have elements, and one to stop, suffice. *)
Fixpoint single_axis_loop (fuel : nat) (this : SingleAxisMergeFilter) (account : MessageAccountInfo)
    (hits : list nat) (hits_cursor any_cursor : nat) (filters : FilteredUpdateFilters)
    : outcome FilteredUpdateFilters :=
  match fuel with
  | O => Done filters
  | S fuel =>
      match next_union hits (sam_bounded_any this) hits_cursor any_cursor with
      | (None, _) => Done filters
      | (Some (index, matched), (hits_cursor, any_cursor)) =>
          let '(matched_account, matched_owner) :=
            if sam_unbounded_is_owner this then (matched, false) else (false, matched) in
          aggregate ← vec_index (sam_aggregates this) index;
          o ← match_filter aggregate account (Some matched_account) (Some matched_owner);
          single_axis_loop fuel this account hits hits_cursor any_cursor
            (match o with Some name => filters ++ [name] | None => filters end)
      end
  end.

Definition SingleAxisMergeFilter_get_filters (this : SingleAxisMergeFilter)
    (account : MessageAccountInfo) : outcome FilteredUpdateFilters :=
  let bounded_pubkey :=
    if sam_unbounded_is_owner this then ai_pubkey account else ai_owner account in
  let hits := get_hits (sam_bounded_hits this) bounded_pubkey in
  if bool_decide (hits = []) && bool_decide (sam_bounded_any this = []) then Done []
  else single_axis_loop (S (length hits + length (sam_bounded_any this))) this account hits 0 0 [].

Record DualAxisMergeFilter := mkDualAxisMergeFilter {
  dam_aggregates : list FilterAccountAggregate;
  dam_accounts : gmap Pubkey (list nat);
  dam_owners : gmap Pubkey (list nat);
  dam_account_any : list nat;
  dam_owner_any : list nat
}.

(** A walk over the union of two lists: the lists, the cursors and the current
    position of [account_pos] or [owner_pos]. *)
Record union_walk := mkUnionWalk {
  uw_hits : list nat;
  uw_any : list nat;
  uw_cursors : nat * nat;
  uw_pos : option (nat * bool)
}.

Definition walk_next (w : union_walk) : union_walk :=
  let '(pos, cursors) :=
    next_union (uw_hits w) (uw_any w) (uw_cursors w).1 (uw_cursors w).2 in
  {| uw_hits := uw_hits w; uw_any := uw_any w; uw_cursors := cursors; uw_pos := pos |}.

Definition walk_start (hits any : list nat) : union_walk :=
  walk_next {| uw_hits := hits; uw_any := any; uw_cursors := (0, 0); uw_pos := None |}.

(** The [while let] loop; each iteration advances a walk. *)
Fixpoint dual_axis_loop (fuel : nat) (this : DualAxisMergeFilter) (account : MessageAccountInfo)
    (account_walk owner_walk : union_walk) (filters : FilteredUpdateFilters)
    : outcome FilteredUpdateFilters :=
  match fuel with
  | O => Done filters
  | S fuel =>
      match uw_pos account_walk, uw_pos owner_walk with
      | Some (account_index, matched_account), Some (owner_index, matched_owner) =>
          if account_index <? owner_index
          then dual_axis_loop fuel this account (walk_next account_walk) owner_walk filters
          else if owner_index <? account_index
          then dual_axis_loop fuel this account account_walk (walk_next owner_walk) filters
          else
            aggregate ← vec_index (dam_aggregates this) account_index;
            o ← match_filter aggregate account (Some matched_account) (Some matched_owner);
            dual_axis_loop fuel this account (walk_next account_walk) (walk_next owner_walk)
              (match o with Some name => filters ++ [name] | None => filters end)
      | _, _ => Done filters
      end
  end.

Definition DualAxisMergeFilter_get_filters (this : DualAxisMergeFilter)
    (account : MessageAccountInfo) : outcome FilteredUpdateFilters :=
  let account_hits := get_hits (dam_accounts this) (ai_pubkey account) in
  let owner_hits := get_hits (dam_owners this) (ai_owner account) in
  if (bool_decide (account_hits = []) && bool_decide (dam_account_any this = []))
     || (bool_decide (owner_hits = []) && bool_decide (dam_owner_any this = []))
  then Done []
  else
    dual_axis_loop
      (S (length account_hits + length (dam_account_any this)
          + length owner_hits + length (dam_owner_any this)))
      this account (walk_start account_hits (dam_account_any this))
      (walk_start owner_hits (dam_owner_any this)) [].

(** ** [FilterAccountsStrategy] *)

Inductive FilterAccountsStrategy :=
| Empty
| LinearScan (aggregates : list FilterAccountAggregate)
| Indexed (index : FilterAccountsIndex)
| AllUnconstrained (f : AllUnconstrainedFilter)
| SingleAxisMerge (f : SingleAxisMergeFilter)
| DualAxisMerge (f : DualAxisMergeFilter).

Definition DIRECT_SCAN_LIMIT : nat := 4.

(** [map.entry(key).or_default().push(index)] for every key of the set. *)
Definition push_index (index : nat) (m : gmap Pubkey (list nat)) (key : Pubkey)
    : gmap Pubkey (list nat) :=
  <[key := default [] (m !! key) ++ [index]]> m.

(** The maps and lists [accounts], [owners], [account_any], [owner_any]. *)
Definition build_maps : Type :=
  gmap Pubkey (list nat) * gmap Pubkey (list nat) * list nat * list nat.

Definition build_add (maps : build_maps) (entry : nat * FilterAccountAggregate) : build_maps :=
  let '(accounts, owners, account_any, owner_any) := maps in
  let '(index, aggregate) := entry in
  let accounts :=
    match faa_accounts aggregate with
    | Some accs => fold_left (push_index index) (elements accs) accounts
    | None => accounts
    end in
  let account_any :=
    if bool_decide (faa_accounts aggregate = None)
       || match faa_accounts_cuckoo aggregate with Some _ => true | None => false end
    then account_any ++ [index] else account_any in
  match faa_owners aggregate with
  | Some owns => (accounts, fold_left (push_index index) (elements owns) owners, account_any, owner_any)
  | None => (accounts, owners, account_any, owner_any ++ [index])
  end.

Definition FilterAccountsStrategy_build (aggregates : list FilterAccountAggregate)
    : outcome FilterAccountsStrategy :=
  match aggregates with
  | [] => Done Empty
  | _ =>
      index ← FilterAccountsIndex_try_init aggregates;
      match index with
      | Some index => Done (Indexed index)
      | None =>
          if length aggregates <=? DIRECT_SCAN_LIMIT then Done (LinearScan aggregates)
          else
            let '(accounts, owners, account_any, owner_any) :=
              fold_left build_add (enumerate aggregates) (∅, ∅, [], []) in
            let account_unbounded := (length account_any =? length aggregates) in
            let owner_unbounded := (length owner_any =? length aggregates) in
            if account_unbounded && owner_unbounded then
              Done (AllUnconstrained {| auf_aggregates := aggregates;
                                        auf_accounts := accounts;
                                        auf_owners := owners |})
            else if xorb account_unbounded owner_unbounded then
              let '(unbounded_is_owner, bounded_hits, bounded_any) :=
                if owner_unbounded then (true, accounts, account_any)
                else (false, owners, owner_any) in
              Done (SingleAxisMerge {| sam_aggregates := aggregates;
                                       sam_unbounded_is_owner := unbounded_is_owner;
                                       sam_bounded_hits := bounded_hits;
                                       sam_bounded_any := bounded_any |})
            else
              Done (DualAxisMerge {| dam_aggregates := aggregates;
                                     dam_accounts := accounts;
                                     dam_owners := owners;
                                     dam_account_any := account_any;
                                     dam_owner_any := owner_any |})
      end
  end.

Definition FilterAccountsStrategy_get_filters (s : FilterAccountsStrategy)
    (account : MessageAccountInfo) : outcome FilteredUpdateFilters :=
  match s with
  | Empty => Done []
  | LinearScan aggregates => LinearScanFilter_get_filters aggregates account
  | Indexed index => FilterAccountsIndex_get_filters index account
  | AllUnconstrained f => AllUnconstrainedFilter_get_filters f account
  | SingleAxisMerge f => SingleAxisMergeFilter_get_filters f account
  | DualAxisMerge f => DualAxisMergeFilter_get_filters f account
  end.

Definition FilterAccountsStrategy_aggregates (s : FilterAccountsStrategy)
    : list FilterAccountAggregate :=
  match s with
  | Empty => []
  | LinearScan aggregates => aggregates
  | Indexed index => fai_aggregates index
  | AllUnconstrained f => auf_aggregates f
  | SingleAxisMerge f => sam_aggregates f
  | DualAxisMerge f => dam_aggregates f
  end.

(** ** [FilterAccounts] *)

Record FilterAccounts := mkFilterAccounts { fa_strategy : FilterAccountsStrategy }.

Definition FilterAccounts_default : FilterAccounts := {| fa_strategy := Empty |}.

Local Open Scope named_scope.

(** The body of the loop over the configs: the aggregate of one filter. *)
Definition FilterAccounts_aggregate (limits : FilterLimitsAccounts)
    (config : string * SubscribeRequestFilterAccounts) : named FilterAccountAggregate :=
  let '(name, filter) := config in
  let has_filter_criteria :=
    negb (bool_decide (rfa_account filter = [])) || negb (bool_decide (rfa_owner filter = []))
    || match rfa_cuckoo_accounts_filter filter with Some _ => true | None => false end in
  let* _ := lift_check (check_any (negb has_filter_criteria) (fla_any limits)) in
  let* _ := lift_check (check_pubkey_max (len (rfa_account filter)) (fla_account_max limits)) in
  let* _ := lift_check (check_pubkey_max (len (rfa_owner filter)) (fla_owner_max limits)) in
  let* filter_name := names_get name in
  let* accounts :=
    (match rfa_account filter with
     | [] => named_ret None
     | _ =>
         let* accounts := lift (decode_pubkeys_into_set (rfa_account filter) (fla_account_reject limits)) in
         named_ret (if bool_decide (accounts = ∅) then None else Some accounts)
     end) in
  let* owners :=
    (match rfa_owner filter with
     | [] => named_ret None
     | _ =>
         let* owners := lift (decode_pubkeys_into_set (rfa_owner filter) (fla_owner_reject limits)) in
         named_ret (if bool_decide (owners = ∅) then None else Some owners)
     end) in
  let* filter_accounts_state := lift (FilterAccountsState_new (rfa_filters filter)) in
  let account_state :=
    if FilterAccountsState_is_empty filter_accounts_state then None
    else Some filter_accounts_state in
  let* accounts_cuckoo :=
    (match rfa_cuckoo_accounts_filter filter with
     | Some proto_cuckoo =>
         let* _ := lift_check (check_max (len (pcf_data proto_cuckoo)) (fla_cuckoo_max_size limits)) in
         named_ret (Some (CuckooFilter_from_proto proto_cuckoo))
     | None => named_ret None
     end) in
  named_ret {| faa_filter_name := filter_name;
               faa_txn_signature := rfa_nonempty_txn_signature filter;
               faa_accounts := accounts;
               faa_accounts_cuckoo := accounts_cuckoo;
               faa_owners := owners;
               faa_account_state := account_state |}.

(** The aggregates of [FilterAccounts::new]; [build] runs on them at the end. *)
Definition FilterAccounts_aggregates_of (configs : hash_map SubscribeRequestFilterAccounts)
    (limits : FilterLimitsAccounts) : named (list FilterAccountAggregate) :=
  let* _ := lift_check (check_max (len configs) (fla_max limits)) in
  named_mapM (FilterAccounts_aggregate limits) configs.

Definition FilterAccounts_new (configs : hash_map SubscribeRequestFilterAccounts)
    (limits : FilterLimitsAccounts) (names : FilterNames)
    : outcome (FilterResult FilterAccounts * FilterNames) :=
  match FilterAccounts_aggregates_of configs limits names with
  | (Err e, names) => Done (Err e, names)
  | (Ok aggregates, names) =>
      strategy ← FilterAccountsStrategy_build aggregates;
      Done (Ok {| fa_strategy := strategy |}, names)
  end.

Definition FilterAccounts_aggregates (f : FilterAccounts) : list FilterAccountAggregate :=
  FilterAccountsStrategy_aggregates (fa_strategy f).

Definition FilterAccounts_get_updates (f : FilterAccounts) (message : MessageAccount)
    (accounts_data_slice : FilterAccountsDataSlice) : outcome FilteredUpdates :=
  filters ← FilterAccountsStrategy_get_filters (fa_strategy f) (ma_account message);
  Done (filtered_updates_once filters
    (FilteredUpdateOneof_account message accounts_data_slice) (ma_created_at message)).
End accounts.
