(* ===== verification/AccountsScan.v ===== *)
(** * Account filters: candidates and the bitset index

    When a hint given to [match_filter] agrees with the aggregate's own sets it
    changes nothing, and an aggregate that is no candidate on one of the two
    axes never matches; so scanning any increasing list of indices that covers
    the candidates is the linear scan ([scan_cover]). The bitset index is shown
    to enumerate such a list. *)

From S2P Require Import Prelude Bits Externals Proto Message Limits Names FilterBase DataSlice.
From S2P Require Import AccountsState Cuckoo Updates AccountsFilter.

Set Default Goal Selector "!".

Section scan.
Context {X : Externals}.

(** An aggregate stays a candidate on the account axis for [pk]. *)
Definition account_any_of (a : FilterAccountAggregate) : Prop :=
  faa_accounts a = None ∨ faa_accounts_cuckoo a ≠ None.

Definition account_hit (a : FilterAccountAggregate) (pk : Pubkey) : Prop :=
  ∃ s, faa_accounts a = Some s ∧ pk ∈ s.

Definition owner_any_of (a : FilterAccountAggregate) : Prop := faa_owners a = None.

Definition owner_hit (a : FilterAccountAggregate) (pk : Pubkey) : Prop :=
  ∃ s, faa_owners a = Some s ∧ pk ∈ s.

Definition candidate (a : FilterAccountAggregate) (account : MessageAccountInfo) : Prop :=
  (account_any_of a ∨ account_hit a (ai_pubkey account)) ∧
  (owner_any_of a ∨ owner_hit a (ai_owner account)).

#[export] Instance account_any_of_dec a : Decision (account_any_of a).
Proof.
  unfold account_any_of. destruct (faa_accounts a); [|left; by left].
  destruct (faa_accounts_cuckoo a); [left; by right|right; naive_solver].
Defined.

#[export] Instance account_hit_dec a pk : Decision (account_hit a pk).
Proof.
  unfold account_hit. destruct (faa_accounts a) as [s|]; [|right; naive_solver].
  destruct (decide (pk ∈ s)); [left|right]; naive_solver.
Defined.

#[export] Instance owner_hit_dec a pk : Decision (owner_hit a pk).
Proof.
  unfold owner_hit. destruct (faa_owners a) as [s|]; [|right; naive_solver].
  destruct (decide (pk ∈ s)); [left|right]; naive_solver.
Defined.

#[export] Instance owner_any_of_dec a : Decision (owner_any_of a).
Proof. unfold owner_any_of. apply _. Defined.

(** The cuckoo filter of an aggregate comes from one of its constructors. *)
Definition aggregate_wf (a : FilterAccountAggregate) : Prop :=
  ∀ f, faa_accounts_cuckoo a = Some f → cf_wf f.

Lemma account_any_of_bool a :
  (bool_decide (faa_accounts a = None)
   || match faa_accounts_cuckoo a with Some _ => true | None => false end)
  = bool_decide (account_any_of a).
Proof.
  apply eq_true_iff_eq. rewrite orb_true_iff, !bool_decide_eq_true. unfold account_any_of.
  destruct (faa_accounts_cuckoo a); naive_solver.
Qed.

(** A correct hint is the check it replaces. *)
Lemma match_filter_hint a account b1 b2 :
  (b1 = bool_decide (account_hit a (ai_pubkey account)) ∨ faa_accounts a = None) →
  (b2 = bool_decide (owner_hit a (ai_owner account)) ∨ faa_owners a = None) →
  match_filter a account (Some b1) (Some b2) = match_filter a account None None.
Proof.
  intros H1 H2. unfold match_filter.
  assert (match_account a (ai_pubkey account) (Some b1)
    = match_account a (ai_pubkey account) None) as ->.
  { unfold match_account. destruct (faa_accounts a) as [s|] eqn:E; [|done].
    destruct H1 as [->|]; [|done].
    assert (bool_decide (account_hit a (ai_pubkey account)) = bool_decide (ai_pubkey account ∈ s))
      as ->; [|done].
    apply bool_decide_ext. unfold account_hit. rewrite E. naive_solver. }
  assert (match_owner a (ai_owner account) (Some b2)
    = match_owner a (ai_owner account) None) as ->; [|done].
  unfold match_owner. destruct (faa_owners a) as [s|] eqn:E; [|done].
  destruct H2 as [->|]; [|done]. apply bool_decide_ext. unfold owner_hit. rewrite E. naive_solver.
Qed.

(** An aggregate that is not a candidate does not match (nor panic). *)
Lemma match_filter_not_candidate a account :
  aggregate_wf a → ¬ candidate a account → match_filter a account None None = Done None.
Proof.
  intros Hwf Hnot. unfold match_filter. destruct (match_txn_signature _ _); [simpl|done].
  assert (∃ b, match_account a (ai_pubkey account) None = Done b ∧
    (b = true → account_any_of a ∨ account_hit a (ai_pubkey account))) as (b & -> & Hb).
  { unfold match_account, account_any_of, account_hit.
    destruct (faa_accounts_cuckoo a) as [f|] eqn:Ef.
    - rewrite andb_false_r, contains_spec by (by apply Hwf).
      destruct (match faa_accounts a with Some s => _ | None => false end); eexists;
        (split; [done|]); intros _; by left; right.
    - destruct (faa_accounts a) as [s|]; simpl; [|exists true; naive_solver].
      case_bool_decide; [exists true; naive_solver|by exists false]. }
  simpl. destruct b; [simpl|done].
  assert (match_owner a (ai_owner account) None = false) as ->; [|done].
  unfold match_owner. destruct (faa_owners a) as [s|] eqn:Es.
  - rewrite bool_decide_eq_false. intros Hin. apply Hnot. split; [auto|]. right. by exists s.
  - exfalso. apply Hnot. split; [auto|]. by left.
Qed.

(** ** Scanning a list of indices *)

Definition check_at (aggregates : list FilterAccountAggregate) (account : MessageAccountInfo)
    (i : nat) : outcome (option FilterName) :=
  a ← vec_index aggregates i; match_filter a account None None.

Lemma linear_scan_seq aggregates account :
  LinearScanFilter_get_filters aggregates account
  = filter_mapM (check_at aggregates account) (seq 0 (length aggregates)).
Proof.
  unfold LinearScanFilter_get_filters, check_at. induction aggregates as [|a l IH]; [done|].
  simpl. rewrite IH, <- fmap_S_seq, filter_mapM_fmap. done.
Qed.

(** Scanning an increasing list of indices that covers the candidates is the
    linear scan. *)
Lemma scan_cover aggregates account L :
  Forall aggregate_wf aggregates →
  increasing L → (∀ i, i ∈ L → i < length aggregates) →
  (∀ i a, aggregates !! i = Some a → candidate a account → i ∈ L) →
  filter_mapM (check_at aggregates account) L = LinearScanFilter_get_filters aggregates account.
Proof.
  intros Hwf Hinc Hlt Hcov. rewrite linear_scan_seq.
  assert (L = filter (.∈ L) (seq 0 (length aggregates))) as Heq.
  { apply increasing_ext; [done|by apply increasing_filter, increasing_seq|].
    intros i. rewrite list_elem_of_filter, elem_of_seq. split; [|tauto].
    intros Hi. split; [done|]. specialize (Hlt i Hi). lia. }
  rewrite Heq. apply filter_mapM_filter. intros i Hi Hnot. apply elem_of_seq in Hi.
  destruct (lookup_lt_is_Some_2 aggregates i) as [a Ha]; [lia|].
  unfold check_at, vec_index. rewrite Ha. simpl. apply match_filter_not_candidate.
  - rewrite Forall_forall in Hwf. apply Hwf. by eapply list_elem_of_lookup_2.
  - intros Hc. by eapply Hnot, Hcov.
Qed.

(** ** Bit sets *)

Definition bs_ok (n : nat) (b : FilterBitSet) : Prop :=
  length b = (n + 63) / 64 ∧ Forall (word_bits 64) b.

Definition bs_mem (b : FilterBitSet) (i : nat) : Prop :=
  ∃ word, b !! (i / 64) = Some word ∧ Z.testbit word (Z.of_nat (i mod 64)) = true.

Lemma bs_new_ok n : bs_ok n (FilterBitSet_new n).
Proof.
  unfold bs_ok, FilterBitSet_new. rewrite length_replicate. split; [done|].
  apply Forall_replicate, word_bits_0.
Qed.

Lemma bs_new_mem n i : ¬ bs_mem (FilterBitSet_new n) i.
Proof.
  intros (w & Hw & Ht). apply lookup_replicate in Hw as [-> _]. by rewrite Z.bits_0 in Ht.
Qed.

Lemma word_lt n i : i < n → i / 64 < (n + 63) / 64.
Proof.
  intros Hi. pose proof (Nat.div_mod_eq i 64). pose proof (Nat.mod_upper_bound i 64).
  pose proof (Nat.div_mod_eq (n + 63) 64). pose proof (Nat.mod_upper_bound (n + 63) 64). lia.
Qed.

Lemma bs_insert_spec n b i : bs_ok n b → i < n →
  ∃ b', FilterBitSet_insert b i = Done b' ∧ bs_ok n b' ∧ ∀ j, bs_mem b' j ↔ j = i ∨ bs_mem b j.
Proof.
  intros [Hlen Hwf] Hi. unfold FilterBitSet_insert, BITS_PER_WORD.
  destruct (lookup_lt_is_Some_2 b (i / 64)) as [w Hw].
  { rewrite Hlen. by apply word_lt. }
  rewrite Hw. eexists. split; [done|]. split.
  { split; [by rewrite length_insert|]. apply Forall_insert; [done|].
    apply word_bits_lor; [|apply word_bits_single, Nat.mod_upper_bound; lia].
    rewrite Forall_forall in Hwf. apply Hwf. by eapply list_elem_of_lookup_2. }
  intros j. unfold bs_mem. destruct (decide (j / 64 = i / 64)) as [Hd|Hd].
  - rewrite Hd, list_lookup_insert_eq by (by eapply lookup_lt_Some). rewrite Hw.
    pose proof (Nat.div_mod_eq i 64). pose proof (Nat.div_mod_eq j 64).
    split.
    + intros (w' & [= <-] & Ht). rewrite Z.lor_spec, testbit_single in Ht.
      apply orb_true_iff in Ht as [Ht|Ht%bool_decide_eq_true]; [right; eauto|left].
      change (i mod 64 = j mod 64) in Ht. lia.
    + intros Hor. eexists. split; [done|]. rewrite Z.lor_spec, testbit_single.
      apply orb_true_iff. destruct Hor as [->|(w' & [= <-] & ?)]; [|by left].
      right. by apply bool_decide_eq_true.
  - rewrite list_lookup_insert_ne by done. split; [by right|]. by intros [->|].
Qed.

Lemma bs_is_empty_spec n b : bs_ok n b →
  (FilterBitSet_is_empty b = true ↔ ∀ i, ¬ bs_mem b i).
Proof.
  intros [_ Hwf]. unfold FilterBitSet_is_empty. rewrite forallb_In. split.
  - intros Hall i (w & Hw & Ht). specialize (Hall w). rewrite Z.eqb_eq in Hall.
    rewrite Hall in Ht by (by eapply list_elem_of_lookup_2). by rewrite Z.bits_0 in Ht.
  - intros Hno w Hin. apply Z.eqb_eq. destruct (decide (w = 0%Z)) as [|Hne]; [done|].
    apply list_elem_of_lookup in Hin as [k Hk]. rewrite Forall_forall in Hwf.
    destruct (word_bits_neq_0 64 w) as (i & Hi & Ht); [|done|].
    { apply Hwf. by eapply list_elem_of_lookup_2. }
    exfalso. apply (Hno (k * 64 + i)). exists w.
    rewrite Nat.div_add_l, (Nat.div_small i), Nat.add_0_r by lia.
    rewrite Nat.add_comm, Nat.Div0.mod_add, Nat.mod_small by lia. done.
Qed.

(** A map from keys to bit sets, absent keys having no bit. *)
Definition bm_ok (n : nat) (m : gmap Pubkey FilterBitSet) : Prop :=
  ∀ key b, m !! key = Some b → bs_ok n b.

Definition bm_mem (m : gmap Pubkey FilterBitSet) (key : Pubkey) (i : nat) : Prop :=
  ∃ b, m !! key = Some b ∧ bs_mem b i.

Lemma bitmap_insert_spec n index m key : bm_ok n m → index < n →
  ∃ m', bitmap_insert n index m key = Done m' ∧ bm_ok n m' ∧
    ∀ key' j, bm_mem m' key' j ↔ (key' = key ∧ j = index) ∨ bm_mem m key' j.
Proof.
  intros Hok Hi. unfold bitmap_insert.
  assert (bs_ok n (default (FilterBitSet_new n) (m !! key))) as Hd.
  { destruct (m !! key) as [b|] eqn:E; [by eapply Hok|apply bs_new_ok]. }
  destruct (bs_insert_spec n _ index Hd Hi) as (b' & -> & Hok' & Hmem). simpl.
  eexists. split; [done|]. split.
  { intros k b. rewrite lookup_insert. case_decide; [by intros [= <-]|apply Hok]. }
  intros k j. unfold bm_mem. rewrite lookup_insert. case_decide as Hk.
  - subst k. split.
    + intros (b & [= <-] & [->|Hm]%Hmem); [by left|]. right.
      destruct (m !! key) as [b|]; [by exists b|]. by apply bs_new_mem in Hm.
    + intros Hor. exists b'. split; [done|]. apply Hmem.
      destruct Hor as [[_ ->]|(b & Hb & Hj)]; [by left|]. right. by rewrite Hb.
  - naive_solver.
Qed.

Lemma bitmap_insert_all n index m (l : list Pubkey) : bm_ok n m → index < n →
  ∃ m', foldM (bitmap_insert n index) m l = Done m' ∧ bm_ok n m' ∧
    ∀ key j, bm_mem m' key j ↔ (key ∈ l ∧ j = index) ∨ bm_mem m key j.
Proof.
  intros Hok Hi.
  destruct (foldM_ind (λ pre m', bm_ok n m' ∧
    ∀ key j, bm_mem m' key j ↔ (key ∈ pre ∧ j = index) ∨ bm_mem m key j)
    (bitmap_insert n index) m l) as (m' & ? & ? & ?); [| |by exists m'].
  - split; [done|]. intros key j. rewrite elem_of_nil. tauto.
  - intros pre key post m' _ [Hok' Hmem].
    destruct (bitmap_insert_spec n index m' key Hok' Hi) as (m'' & ? & ? & Hmem').
    exists m''. split; [done|]. split; [done|]. intros k j.
    rewrite Hmem', Hmem, elem_of_app, list_elem_of_singleton. tauto.
Qed.
End scan.

(** ** The index *)

Section index.
Context {X : Externals}.

Lemma enumerate_lookup {A} (l : list A) i p :
  enumerate l !! i = Some p ↔ ∃ a, l !! i = Some a ∧ p = (i, a).
Proof.
  destruct p as [j a]. unfold enumerate. rewrite lookup_zip_Some. split.
  - intros [[H1 _]%lookup_seq H2]. exists a. rewrite H2. split; [done|]. by f_equal.
  - intros (a' & Ha & [= -> ->]). split; [|done]. apply lookup_seq.
    apply lookup_lt_Some in Ha. lia.
Qed.

Lemma enumerate_split {A} (l : list A) pre p post :
  enumerate l = pre ++ p :: post → ∃ a, l !! length pre = Some a ∧ p = (length pre, a).
Proof.
  intros Heq. apply enumerate_lookup. rewrite Heq. by apply list_lookup_middle.
Qed.

Lemma enumerate_length {A} (l : list A) : length (enumerate l) = length l.
Proof. unfold enumerate. rewrite length_zip, length_seq. lia. Qed.

(** The aggregates with index below [k] that satisfy [P]. *)
Definition below (aggregates : list FilterAccountAggregate) (k : nat)
    (P : FilterAccountAggregate → Prop) (i : nat) : Prop :=
  i < k ∧ ∃ a, aggregates !! i = Some a ∧ P a.

Lemma below_S aggregates k a P i : aggregates !! k = Some a →
  below aggregates (S k) P i ↔ (P a ∧ i = k) ∨ below aggregates k P i.
Proof.
  intros Ha. unfold below. split.
  - intros [Hlt (a' & Ha' & HP)]. destruct (decide (i = k)) as [->|]; [left|right; naive_solver lia].
    by simplify_eq.
  - intros [[? ->]|[Hlt ?]]; [split; [lia|eauto]|]. split; [lia|done].
Qed.

Record index_built (aggregates : list FilterAccountAggregate) (k : nat) (this : FilterAccountsIndex)
    : Prop := {
  ib_aggregates : fai_aggregates this = aggregates;
  ib_accounts_ok : bm_ok (length aggregates) (fai_accounts this);
  ib_owners_ok : bm_ok (length aggregates) (fai_owners this);
  ib_account_fallback_ok : bs_ok (length aggregates) (fai_account_fallback this);
  ib_owner_fallback_ok : bs_ok (length aggregates) (fai_owner_fallback this);
  ib_accounts : ∀ pk i, bm_mem (fai_accounts this) pk i
    ↔ below aggregates k (λ a, account_hit a pk) i;
  ib_owners : ∀ pk i, bm_mem (fai_owners this) pk i ↔ below aggregates k (λ a, owner_hit a pk) i;
  ib_account_fallback : ∀ i, bs_mem (fai_account_fallback this) i
    ↔ below aggregates k account_any_of i;
  ib_owner_fallback : ∀ i, bs_mem (fai_owner_fallback this) i ↔ below aggregates k owner_any_of i
}.

(** Adding the keys of an optional set to a bit map. *)
Lemma bitmap_insert_opt (n index : nat) (m : gmap Pubkey FilterBitSet) (o : option (gset Pubkey)) :
  bm_ok n m → index < n →
  ∃ m', match o with
        | Some s => foldM (bitmap_insert n index) m (elements s)
        | None => Done m
        end = Done m' ∧ bm_ok n m' ∧
    ∀ key j, bm_mem m' key j ↔ ((∃ s, o = Some s ∧ key ∈ s) ∧ j = index) ∨ bm_mem m key j.
Proof.
  intros Hok Hi. destruct o as [s|]; [|exists m; naive_solver].
  destruct (bitmap_insert_all n index m (elements s) Hok Hi) as (m' & ? & ? & Hm).
  exists m'. split; [done|]. split; [done|]. intros key j. rewrite Hm, elem_of_elements.
  naive_solver.
Qed.

Lemma bs_insert_if n b i (P : Prop) `{!Decision P} : bs_ok n b → i < n →
  ∃ b', (if bool_decide P then FilterBitSet_insert b i else Done b) = Done b' ∧ bs_ok n b' ∧
    ∀ j, bs_mem b' j ↔ (P ∧ j = i) ∨ bs_mem b j.
Proof.
  intros Hok Hi. case_bool_decide; [|exists b; naive_solver].
  destruct (bs_insert_spec n b i Hok Hi) as (b' & ? & ? & Hm). exists b'. naive_solver.
Qed.

Lemma index_add_spec aggregates this k a :
  aggregates !! k = Some a → index_built aggregates k this →
  ∃ this', index_add (length aggregates) this (k, a) = Done this' ∧
    index_built aggregates (S k) this'.
Proof.
  intros Ha [H1 H2 H3 H4 H5 H6 H7 H8 H9]. pose proof (lookup_lt_Some _ _ _ Ha) as Hk.
  unfold index_add. rewrite account_any_of_bool.
  destruct (bitmap_insert_opt _ k (fai_accounts this) (faa_accounts a) H2 Hk)
    as (m1 & -> & Hok1 & Hm1). simpl.
  destruct (bs_insert_if _ (fai_account_fallback this) k (account_any_of a) H4 Hk)
    as (b1 & -> & Hok2 & Hm2). simpl.
  assert (∃ m2 b2, match faa_owners a with
      | Some owners =>
          m ← foldM (bitmap_insert (length aggregates) k) (fai_owners this) (elements owners);
          Done (m, fai_owner_fallback this)
      | None => b ← FilterBitSet_insert (fai_owner_fallback this) k; Done (fai_owners this, b)
      end = Done (m2, b2) ∧ bm_ok (length aggregates) m2 ∧ bs_ok (length aggregates) b2 ∧
      (∀ key j, bm_mem m2 key j ↔ (owner_hit a key ∧ j = k) ∨ bm_mem (fai_owners this) key j) ∧
      (∀ j, bs_mem b2 j ↔ (owner_any_of a ∧ j = k) ∨ bs_mem (fai_owner_fallback this) j))
    as (m2 & b2 & -> & Hok3 & Hok4 & Hm3 & Hm4).
  { destruct (bitmap_insert_opt _ k (fai_owners this) (faa_owners a) H3 Hk) as (m2 & Hr & ? & ?).
    destruct (bs_insert_spec _ (fai_owner_fallback this) k H5 Hk) as (b2 & Hb & ? & Hbm).
    unfold owner_any_of, owner_hit. destruct (faa_owners a) as [s|].
    - rewrite Hr. simpl. eexists _, _. split; [done|]. naive_solver.
    - rewrite Hb. simpl. eexists _, _. split; [done|]. naive_solver. }
  simpl. eexists. split; [done|].
  split; simpl; try done; intros; rewrite (below_S _ _ _ _ _ Ha).
  - by rewrite Hm1, H6.
  - by rewrite Hm3, H7.
  - by rewrite Hm2, H8.
  - by rewrite Hm4, H9.
Qed.

Lemma index_build_all aggregates :
  let n := length aggregates in
  ∃ this, foldM (index_add n)
    {| fai_aggregates := aggregates; fai_accounts := ∅; fai_owners := ∅;
       fai_account_fallback := FilterBitSet_new n; fai_owner_fallback := FilterBitSet_new n;
       fai_account_fallback_empty := true; fai_owner_fallback_empty := true |}
    (enumerate aggregates) = Done this ∧ index_built aggregates n this.
Proof.
  intros n. set (init := {| fai_aggregates := aggregates |}).
  destruct (foldM_ind (λ pre this, index_built aggregates (length pre) this) (index_add n) init
    (enumerate aggregates)) as (this & Hrun & Hb);
    [| |exists this; by rewrite enumerate_length in Hb].
  - assert (∀ pk i, ¬ bm_mem ∅ pk i) as He by (intros pk i (b & Hb & _); done).
    assert (∀ P i, ¬ below aggregates 0 P i) as Hb by (intros P i [? _]; lia).
    split; simpl; try done; try apply bs_new_ok; intros.
    + split; intros Hf; exfalso; [by eapply He|by eapply Hb].
    + split; intros Hf; exfalso; [by eapply He|by eapply Hb].
    + split; intros Hf; exfalso; [by eapply bs_new_mem|by eapply Hb].
    + split; intros Hf; exfalso; [by eapply bs_new_mem|by eapply Hb].
  - intros pre p post this Heq Hthis.
    destruct (enumerate_split _ _ _ _ Heq) as (a & Ha & ->).
    rewrite length_app, Nat.add_1_r. by apply index_add_spec.
Qed.

(** A built index, as [try_init] returns it. *)
Definition index_ready aggregates (this : FilterAccountsIndex) : Prop :=
  index_built aggregates (length aggregates) this ∧
  fai_account_fallback_empty this = FilterBitSet_is_empty (fai_account_fallback this) ∧
  fai_owner_fallback_empty this = FilterBitSet_is_empty (fai_owner_fallback this).

(** Some aggregate lists [pk] explicitly. *)
Definition some_account_hit (aggregates : list FilterAccountAggregate) : Prop :=
  ∃ a pk, a ∈ aggregates ∧ account_hit a pk.

Lemma try_init_spec aggregates :
  ∃ o, FilterAccountsIndex_try_init aggregates = Done o ∧
    match o with
    | Some index => index_ready aggregates index
    | None => length aggregates <= 1 ∨ (MAX_BITSET_BYTES < index_memory aggregates)%Z
              ∨ ¬ some_account_hit aggregates
    end.
Proof.
  unfold FilterAccountsIndex_try_init.
  destruct (Nat.leb_spec (length aggregates) 1); [exists None; auto|].
  destruct (Z.ltb_spec MAX_BITSET_BYTES (index_memory aggregates)); [exists None; auto|].
  destruct (index_build_all aggregates) as (this & -> & Hb). simpl.
  destruct (_ && _) eqn:Ee; eexists; (split; [done|]).
  - right; right. intros (a & pk & Hin & Hhit). apply list_elem_of_lookup in Hin as [i Hi].
    apply andb_true_iff in Ee as [Ee%bool_decide_eq_true _].
    assert (bm_mem (fai_accounts this) pk i) as (b & Hbm & _).
    { apply (ib_accounts _ _ _ Hb). split; [by eapply lookup_lt_Some|eauto]. }
    by rewrite Ee, lookup_empty in Hbm.
  - split; [|done]. by destruct Hb.
Qed.

(** ** Scanning the index *)

(** The candidate word number [w] of a message. *)
Definition candidate_word (o1 o2 : option FilterBitSet) (f1 f2 : FilterBitSet) (w : nat) : Z :=
  let word o := default 0%Z (o ≫= lookup w) in
  Z.land (Z.lor (word o1) (default 0%Z (f1 !! w))) (Z.lor (word o2) (default 0%Z (f2 !! w))).

(** The indices the scan visits. *)
Definition visited (o1 o2 : option FilterBitSet) (f1 f2 : FilterBitSet) (nwords : nat) : list nat :=
  mjoin ((λ w, (λ b, w * 64 + b) <$> set_bits 64 (candidate_word o1 o2 f1 f2 w))
    <$> seq 0 nwords).

Lemma set_bits_lt n w b : b ∈ set_bits n w ↔ b < n ∧ Z.testbit w (Z.of_nat b) = true.
Proof. unfold set_bits. rewrite list_elem_of_filter, elem_of_seq. intuition lia. Qed.

Lemma elem_of_visited o1 o2 f1 f2 nwords i :
  i ∈ visited o1 o2 f1 f2 nwords ↔
  i / 64 < nwords ∧
  Z.testbit (candidate_word o1 o2 f1 f2 (i / 64)) (Z.of_nat (i mod 64)) = true.
Proof.
  unfold visited. rewrite list_elem_of_join. setoid_rewrite list_elem_of_fmap. split.
  - intros (l & Hi & w & -> & Hw%elem_of_seq). apply list_elem_of_fmap in Hi as (b & -> & Hb).
    apply set_bits_lt in Hb as [Hb Ht].
    rewrite Nat.div_add_l, (Nat.div_small b), Nat.add_0_r by lia.
    rewrite Nat.add_comm, Nat.Div0.mod_add, Nat.mod_small by lia. split; [lia|done].
  - intros [Hlt Ht]. eexists. split; [|exists (i / 64); split; [done|apply elem_of_seq; lia]].
    apply list_elem_of_fmap. exists (i mod 64). pose proof (Nat.div_mod_eq i 64).
    split; [lia|]. apply set_bits_lt. split; [apply Nat.mod_upper_bound; lia|done].
Qed.

Lemma increasing_app l1 l2 :
  increasing l1 → increasing l2 → (∀ x y, x ∈ l1 → y ∈ l2 → x < y) → increasing (l1 ++ l2).
Proof.
  induction l1 as [|a l1 IH]; intros H1 H2 H3; [done|]. simpl.
  apply increasing_cons_inv in H1 as [H1 Ha]. constructor.
  - apply IH; [done|done|]. intros x y Hx. apply H3. by right.
  - apply Forall_forall. intros x [Hx|Hx]%elem_of_app; [by apply Ha|]. apply H3; [by left|done].
Qed.

Lemma increasing_shift k l : increasing l → increasing ((λ b, k + b) <$> l).
Proof.
  induction l as [|a l IH]; intros Hl; [constructor|].
  apply increasing_cons_inv in Hl as [Hl Ha]. csimpl. constructor; [by apply IH|].
  apply Forall_fmap, Forall_forall. intros x Hx. apply Ha in Hx. simpl. lia.
Qed.

Lemma visited_increasing o1 o2 f1 f2 nwords : increasing (visited o1 o2 f1 f2 nwords).
Proof.
  induction nwords as [|k IH]; [constructor|].
  assert (visited o1 o2 f1 f2 (S k) = visited o1 o2 f1 f2 k
    ++ ((λ b, k * 64 + b) <$> set_bits 64 (candidate_word o1 o2 f1 f2 k))) as ->.
  { unfold visited. rewrite seq_S, fmap_app, join_app. simpl. by rewrite app_nil_r. }
  apply increasing_app; [done|apply increasing_shift, increasing_filter, increasing_seq|].
  intros x y [Hx _]%elem_of_visited (b & -> & _)%list_elem_of_fmap.
  pose proof (Nat.div_mod_eq x 64). pose proof (Nat.mod_upper_bound x 64 ltac:(lia)). lia.
Qed.
End index.

(** The bit [i] of an optional bit set, absent meaning zero. *)
Section index_scan.
Context {X : Externals}.

Definition opt_bit (o : option FilterBitSet) (i : nat) : bool :=
  Z.testbit (default 0%Z (o ≫= lookup (i / 64))) (Z.of_nat (i mod 64)).

Lemma opt_bit_spec o i : opt_bit o i = true ↔ ∃ b, o = Some b ∧ bs_mem b i.
Proof.
  unfold opt_bit, bs_mem. split.
  - intros Ht. destruct o as [b|].
    + exists b. split; [done|]. change (Some b ≫= lookup (i / 64)) with (b !! (i / 64)) in Ht.
      destruct (b !! (i / 64)) as [w|]; [by exists w|]. by rewrite Z.bits_0 in Ht.
    + by rewrite Z.bits_0 in Ht.
  - intros (b & -> & w & Hw & Ht).
    change (Some b ≫= lookup (i / 64)) with (b !! (i / 64)). by rewrite Hw.
Qed.

Lemma index_div_mod w b : b < 64 → (w * 64 + b) / 64 = w ∧ (w * 64 + b) mod 64 = b.
Proof.
  intros Hb. rewrite Nat.div_add_l, (Nat.div_small b), Nat.add_0_r by lia.
  by rewrite Nat.add_comm, Nat.Div0.mod_add, Nat.mod_small by lia.
Qed.

Lemma opt_bit_at o w b : b < 64 →
  opt_bit o (w * 64 + b) = Z.testbit (default 0%Z (o ≫= lookup w)) (Z.of_nat b).
Proof. intros Hb. unfold opt_bit. by destruct (index_div_mod w b Hb) as [-> ->]. Qed.

Lemma candidate_word_bit o1 o2 f1 f2 i :
  Z.testbit (candidate_word o1 o2 f1 f2 (i / 64)) (Z.of_nat (i mod 64)) = true ↔
  (opt_bit o1 i = true ∨ bs_mem f1 i) ∧ (opt_bit o2 i = true ∨ bs_mem f2 i).
Proof.
  assert (∀ f, bs_mem f i ↔ opt_bit (Some f) i = true) as Hf
    by (intros f; rewrite opt_bit_spec; split; [by exists f|by intros (? & [= <-] & ?)]).
  rewrite !Hf. unfold candidate_word, opt_bit. simpl.
  rewrite Z.land_spec, !Z.lor_spec, andb_true_iff, !orb_true_iff. done.
Qed.

Lemma candidate_word_bits n o1 o2 f1 f2 w :
  (∀ b, o1 = Some b → bs_ok n b) → (∀ b, o2 = Some b → bs_ok n b) → bs_ok n f1 → bs_ok n f2 →
  word_bits 64 (candidate_word o1 o2 f1 f2 w).
Proof.
  intros H1 H2 H3 H4.
  assert (∀ b, bs_ok n b → word_bits 64 (default 0%Z (b !! w))) as Hb.
  { intros b [_ Hb]. destruct (b !! w) as [x|] eqn:E; [|apply word_bits_0].
    rewrite Forall_forall in Hb. apply Hb. by eapply list_elem_of_lookup_2. }
  assert (∀ o, (∀ b, o = Some b → bs_ok n b) →
    word_bits 64 (default 0%Z (o ≫= lookup w))) as Ho.
  { intros [b|] Ho; [by apply Hb, Ho|apply word_bits_0]. }
  apply word_bits_land; apply word_bits_lor; auto.
Qed.

Lemma foldM_scan {A B C} (g : B → outcome (option C)) (h : A → list B) (acc : list C) (l : list A) :
  foldM (λ acc a, found ← filter_mapM g (h a); Done (acc ++ found)) acc l
  = (found ← filter_mapM g (mjoin (h <$> l)); Done (acc ++ found)).
Proof.
  revert acc. induction l as [|a l IH]; intros acc; csimpl; [by rewrite app_nil_r|].
  rewrite filter_mapM_app. destruct (filter_mapM g (h a)) as [bs|]; csimpl; [|done].
  rewrite IH. destruct (filter_mapM g (mjoin (h <$> l))); csimpl; [|done]. by rewrite app_assoc.
Qed.

Lemma foldM_ext {A S} (f g : S → A → outcome S) s l :
  (∀ a s, a ∈ l → f s a = g s a) → foldM f s l = foldM g s l.
Proof.
  revert s. induction l as [|a l IH]; intros s Hfg; simpl; [done|].
  rewrite Hfg by set_solver. apply outcome_bind_ext. intros s'. apply IH. set_solver.
Qed.

(** One visited bit is the check of its aggregate. *)
Lemma check_candidate_at aggregates this account w b :
  index_built aggregates (length aggregates) this → b < 64 → w * 64 + b < length aggregates →
  let o1 := fai_accounts this !! ai_pubkey account in
  let o2 := fai_owners this !! ai_owner account in
  check_candidate this account w (default 0%Z (o1 ≫= lookup w)) (default 0%Z (o2 ≫= lookup w)) b
  = check_at aggregates account (w * 64 + b).
Proof.
  intros Hb Hlt Hi o1 o2. unfold check_candidate, check_at. rewrite (ib_aggregates _ _ _ Hb).
  unfold BITS_PER_WORD. destruct (lookup_lt_is_Some_2 aggregates (w * 64 + b) Hi) as [a Ha].
  unfold vec_index. rewrite Ha. simpl. rewrite !land_single_nonzero.
  rewrite <- !opt_bit_at by done.
  apply match_filter_hint; left; apply eq_true_iff_eq; rewrite opt_bit_spec, bool_decide_eq_true.
  - change (bm_mem (fai_accounts this) (ai_pubkey account) (w * 64 + b)
      ↔ account_hit a (ai_pubkey account)).
    rewrite (ib_accounts _ _ _ Hb). unfold below. naive_solver.
  - change (bm_mem (fai_owners this) (ai_owner account) (w * 64 + b)
      ↔ owner_hit a (ai_owner account)).
    rewrite (ib_owners _ _ _ Hb). unfold below. naive_solver.
Qed.

(** The aggregates the visited bits stand for. *)
Lemma index_bit_candidate aggregates this account i :
  index_built aggregates (length aggregates) this →
  (opt_bit (fai_accounts this !! ai_pubkey account) i = true ∨ bs_mem (fai_account_fallback this) i)
  ∧ (opt_bit (fai_owners this !! ai_owner account) i = true ∨ bs_mem (fai_owner_fallback this) i)
  ↔ ∃ a, aggregates !! i = Some a ∧ candidate a account.
Proof.
  intros Hb. rewrite !opt_bit_spec.
  change (∃ b, fai_accounts this !! ai_pubkey account = Some b ∧ bs_mem b i)
    with (bm_mem (fai_accounts this) (ai_pubkey account) i).
  change (∃ b, fai_owners this !! ai_owner account = Some b ∧ bs_mem b i)
    with (bm_mem (fai_owners this) (ai_owner account) i).
  rewrite (ib_accounts _ _ _ Hb), (ib_owners _ _ _ Hb), (ib_account_fallback _ _ _ Hb),
    (ib_owner_fallback _ _ _ Hb).
  unfold below, candidate. split.
  - intros [[(Hi & a & Ha & ?)|(Hi & a & Ha & ?)] [(_ & a' & Ha' & ?)|(_ & a' & Ha' & ?)]];
      simplify_eq; (eexists; split; [eassumption|tauto]).
  - intros (a & Ha & Hc). pose proof (lookup_lt_Some _ _ _ Ha).
    destruct Hc as [[?|?] [?|?]]; split; eauto 6.
Qed.

Lemma scan_word_spec aggregates this account filters w :
  index_built aggregates (length aggregates) this → w < (length aggregates + 63) / 64 →
  let o1 := fai_accounts this !! ai_pubkey account in
  let o2 := fai_owners this !! ai_owner account in
  let cw := candidate_word o1 o2 (fai_account_fallback this) (fai_owner_fallback this) w in
  scan_word this account o1 o2 filters w
  = (found ← filter_mapM (check_at aggregates account) ((λ b, w * 64 + b) <$> set_bits 64 cw);
     Done (filters ++ found)).
Proof.
  intros Hb Hw o1 o2 cw. unfold scan_word, FilterBitSet_word.
  assert (∀ b, bs_ok (length aggregates) b → vec_index b w = Done (default 0%Z (b !! w))) as Hv.
  { intros b [Hl _]. destruct (lookup_lt_is_Some_2 b w) as [x Hx]; [lia|].
    unfold vec_index. by rewrite Hx. }
  assert (∀ o, (∀ b, o = Some b → bs_ok (length aggregates) b) →
    opt_word o w = Done (default 0%Z (o ≫= lookup w))) as Ho.
  { intros [b|] Hok; [|done]. simpl. unfold FilterBitSet_word. by rewrite Hv by by apply Hok. }
  assert (∀ b, o1 = Some b → bs_ok (length aggregates) b) as Ho1
    by (intros b; apply (ib_accounts_ok _ _ _ Hb)).
  assert (∀ b, o2 = Some b → bs_ok (length aggregates) b) as Ho2
    by (intros b; apply (ib_owners_ok _ _ _ Hb)).
  rewrite (Ho o1 Ho1), (Ho o2 Ho2), !outcome_bind_done.
  rewrite (Hv _ (ib_account_fallback_ok _ _ _ Hb)), (Hv _ (ib_owner_fallback_ok _ _ _ Hb)),
    !outcome_bind_done.
  change (Z.land _ _) with cw. unfold BITS_PER_WORD. rewrite visit_bits_set_bits
    by (exact (candidate_word_bits _ _ _ _ _ w Ho1 Ho2 (ib_account_fallback_ok _ _ _ Hb)
      (ib_owner_fallback_ok _ _ _ Hb))).
  rewrite filter_mapM_fmap.
  rewrite (filter_mapM_ext _ (λ b, check_at aggregates account (w * 64 + b))); [done|].
  intros b [Hlt Ht]%set_bits_lt. apply check_candidate_at; [done|done|].
  destruct (index_div_mod w b Hlt) as [Hwd Hbm].
  assert (Z.testbit (candidate_word o1 o2 (fai_account_fallback this) (fai_owner_fallback this)
    ((w * 64 + b) / 64)) (Z.of_nat ((w * 64 + b) mod 64)) = true) as Hbit by by rewrite Hwd, Hbm.
  apply candidate_word_bit, (index_bit_candidate _ _ _ _ Hb) in Hbit as (a & Ha & _).
  by eapply lookup_lt_Some.
Qed.

(** The index computes the linear scan. *)
Lemma index_get_filters_scan aggregates this account :
  Forall aggregate_wf aggregates → index_ready aggregates this →
  FilterAccountsIndex_get_filters this account = LinearScanFilter_get_filters aggregates account.
Proof.
  intros Hwf (Hb & Haf & Hof). unfold FilterAccountsIndex_get_filters.
  assert ((∀ i, ¬ ∃ a, aggregates !! i = Some a ∧ candidate a account) →
    Done [] = LinearScanFilter_get_filters aggregates account) as Hempty.
  { intros Hno. apply (scan_cover aggregates account [] Hwf); [constructor|set_solver|].
    intros i a Ha Hc. exfalso. eapply Hno; eauto. }
  assert (∀ (o : option FilterBitSet) f, bs_ok (length aggregates) f →
    bool_decide (o = None) && FilterBitSet_is_empty f = true →
    ∀ i, ¬ (opt_bit o i = true ∨ bs_mem f i)) as Hnone.
  { intros o f Hok [->%bool_decide_eq_true He]%andb_true_iff i.
    rewrite (bs_is_empty_spec _ _ Hok) in He. rewrite opt_bit_spec. naive_solver. }
  rewrite Haf, Hof.
  destruct (bool_decide _ && FilterBitSet_is_empty (fai_account_fallback this)) eqn:E1.
  { apply Hempty. intros i Hi. apply (index_bit_candidate _ _ _ _ Hb) in Hi as [Hi _].
    exact (Hnone _ _ (ib_account_fallback_ok _ _ _ Hb) E1 i Hi). }
  destruct (bool_decide _ && FilterBitSet_is_empty (fai_owner_fallback this)) eqn:E2.
  { apply Hempty. intros i Hi. apply (index_bit_candidate _ _ _ _ Hb) in Hi as [_ Hi].
    exact (Hnone _ _ (ib_owner_fallback_ok _ _ _ Hb) E2 i Hi). }
  set (o1 := fai_accounts this !! _). set (o2 := fai_owners this !! _).
  destruct (ib_account_fallback_ok _ _ _ Hb) as [Hlen _]. rewrite Hlen.
  set (h := λ w, (λ b, w * 64 + b) <$> set_bits 64 (candidate_word o1 o2
    (fai_account_fallback this) (fai_owner_fallback this) w)).
  rewrite (foldM_ext _ (λ acc w, found ← filter_mapM (check_at aggregates account) (h w);
    Done (acc ++ found))).
  2: { intros w filters Hw. apply elem_of_seq in Hw. apply scan_word_spec; [done|lia]. }
  rewrite foldM_scan. cbn [app]. rewrite outcome_bind_ret.
  fold (visited o1 o2 (fai_account_fallback this) (fai_owner_fallback this)
    ((length aggregates + 63) / 64)).
  apply scan_cover; [done|apply visited_increasing| |].
  - intros i [_ Hi]%elem_of_visited.
    apply candidate_word_bit, (index_bit_candidate _ _ _ _ Hb) in Hi as (a & Ha & _).
    by eapply lookup_lt_Some.
  - intros i a Ha Hc. apply elem_of_visited. split; [by eapply word_lt, lookup_lt_Some|].
    apply candidate_word_bit, (index_bit_candidate _ _ _ _ Hb). eauto.
Qed.
End index_scan.
