(* ===== verification/AccountsMerge.v ===== *)
(** * Account filters: the merge strategies and the choice of strategy

    [next_union] walks the sorted union of two index lists ([merge]); the three
    merge filters are shown to visit increasing lists that cover the candidates
    with correct hints, and with the index of AccountsScan.v this gives the
    equivalence of every strategy with the linear scan. *)

From S2P Require Import Prelude Bits Externals Proto Message Limits Names FilterBase DataSlice.
From S2P Require Import AccountsState Cuckoo Updates AccountsFilter AccountsScan.

Set Default Goal Selector "!".

(** ** The union of two increasing lists *)

Fixpoint merge (l1 : list nat) : list nat → list (nat * bool) :=
  fix aux (l2 : list nat) :=
    match l1, l2 with
    | [], _ => (λ u, (u, false)) <$> l2
    | _, [] => (λ h, (h, true)) <$> l1
    | h :: l1', u :: l2' =>
        if h <? u then (h, true) :: merge l1' l2
        else if u <? h then (u, false) :: aux l2'
        else (h, true) :: merge l1' l2'
    end.

Lemma merge_nil_r l : merge l [] = (λ h, (h, true)) <$> l.
Proof. by destruct l. Qed.

Lemma merge_nil_l l : merge [] l = (λ u, (u, false)) <$> l.
Proof. by destruct l. Qed.

Lemma merge_cons h l1 u l2 :
  merge (h :: l1) (u :: l2) =
    if h <? u then (h, true) :: merge l1 (u :: l2)
    else if u <? h then (u, false) :: merge (h :: l1) l2
    else (h, true) :: merge l1 l2.
Proof. done. Qed.

Lemma merge_length l1 l2 : length (merge l1 l2) <= length l1 + length l2.
Proof.
  revert l2. induction l1 as [|h l1 IH1]; intros l2.
  { by rewrite merge_nil_l, length_fmap. }
  induction l2 as [|u l2 IH2]; [rewrite merge_nil_r, length_fmap; lia|].
  rewrite merge_cons. destruct (h <? u); [|destruct (u <? h)]; simpl in *.
  - specialize (IH1 (u :: l2)). simpl in IH1. lia.
  - lia.
  - specialize (IH1 l2). lia.
Qed.

Lemma elem_of_merge l1 l2 p : increasing l1 → increasing l2 →
  p ∈ merge l1 l2 ↔ (p.1 ∈ l1 ∨ p.1 ∈ l2) ∧ p.2 = bool_decide (p.1 ∈ l1).
Proof.
  destruct p as [i b]. simpl. revert l2.
  induction l1 as [|h l1 IH1]; intros l2 H1 H2.
  { rewrite merge_nil_l, list_elem_of_fmap, bool_decide_false by set_solver. set_solver. }
  pose proof (increasing_cons_inv _ _ H1) as [H1' Hh].
  assert (h ∉ l1) as Hnh by (intros Hin; apply Hh in Hin; lia).
  induction l2 as [|u l2 IH2].
  { rewrite merge_nil_r, list_elem_of_fmap. split.
    - intros (x & [= -> ->] & Hx). rewrite bool_decide_true by done. auto.
    - intros [[Hi|Hi] ->]; [|by apply not_elem_of_nil in Hi]. rewrite bool_decide_true by done. eauto. }
  pose proof (increasing_cons_inv _ _ H2) as [H2' Hu].
  rewrite merge_cons. destruct (Nat.ltb_spec h u) as [Hlt|Hge]; [|destruct (Nat.ltb_spec u h)].
  - rewrite elem_of_cons, IH1 by done. rewrite !elem_of_cons. split.
    + intros [[= -> ->]|[Hin ->]].
      { split; [by left; left|]. by rewrite bool_decide_true by set_solver. }
      split; [set_solver|]. apply bool_decide_ext. rewrite elem_of_cons.
      assert (i ≠ h) as Hne; [|set_solver]. intros ->. destruct Hin as [?|[?|Hin]]; [done|lia|].
      apply Hu in Hin. lia.
    + intros [Hin ->]. destruct (decide (i = h)) as [->|Hne].
      * left. by rewrite bool_decide_true by set_solver.
      * right. split; [set_solver|]. apply bool_decide_ext. set_solver.
  - rewrite elem_of_cons, IH2 by done. rewrite (elem_of_cons l2 i u). split.
    + intros [[= -> ->]|[Hin ->]]; [|split; [naive_solver|done]]. split; [auto|].
      rewrite bool_decide_false; [done|]. intros [->|Hin]%elem_of_cons; [lia|]. apply Hh in Hin. lia.
    + intros [Hin ->]. destruct (decide (i = u)) as [->|Hne]; [left|right; split; [naive_solver|done]].
      rewrite bool_decide_false; [done|]. intros [->|Hin']%elem_of_cons; [lia|].
      apply Hh in Hin'. lia.
  - assert (h = u) as <- by lia. rewrite elem_of_cons, IH1 by done. split.
    + intros [[= -> ->]|[Hin ->]].
      { split; [left; by left|]. by rewrite bool_decide_true by set_solver. }
      split; [set_solver|]. apply bool_decide_ext. rewrite elem_of_cons.
      assert (i ≠ h) as Hne; [|set_solver]. intros ->. destruct Hin as [?|Hin]; [done|].
      apply Hu in Hin. lia.
    + intros [Hin ->]. destruct (decide (i = h)) as [->|Hne].
      * left. by rewrite bool_decide_true by set_solver.
      * right. split; [set_solver|]. apply bool_decide_ext. set_solver.
Qed.

Lemma merge_increasing l1 l2 : increasing l1 → increasing l2 → increasing (merge l1 l2).*1.
Proof.
  revert l2. induction l1 as [|h l1 IH1]; intros l2 H1 H2.
  { rewrite merge_nil_l, <- list_fmap_compose. change (increasing (id <$> l2)).
    by rewrite list_fmap_id. }
  pose proof (increasing_cons_inv _ _ H1) as [H1' Hh].
  induction l2 as [|u l2 IH2].
  { rewrite merge_nil_r, <- list_fmap_compose. change (increasing (id <$> h :: l1)).
    by rewrite list_fmap_id. }
  pose proof (increasing_cons_inv _ _ H2) as [H2' Hu].
  assert (∀ la lb a, increasing la → increasing lb → (∀ x, x ∈ la ∨ x ∈ lb → a < x) →
    increasing (merge la lb).*1 → increasing (a :: (merge la lb).*1)) as Hcons.
  { intros la lb a Ha Hb Hlt Hinc. constructor; [done|]. apply Forall_forall.
    intros x (p & -> & Hp)%list_elem_of_fmap.
    apply (elem_of_merge la lb) in Hp as [Hp _]; [|done|done]. auto. }
  rewrite merge_cons. destruct (Nat.ltb_spec h u) as [Hlt|Hge]; [|destruct (Nat.ltb_spec u h)];
    rewrite fmap_cons; cbn [fst]; apply Hcons; try done; auto.
  - intros x [?|[->|Hx]%elem_of_cons]; [auto|lia|]. apply Hu in Hx. lia.
  - intros x [[->|Hx]%elem_of_cons|?]; [lia| |auto]. apply Hh in Hx. lia.
  - intros x [?|Hx]; [auto|]. apply Hu in Hx. lia.
Qed.

Lemma drop_cons {A} (l : list A) k :
  drop k l = match l !! k with Some a => a :: drop (S k) l | None => [] end.
Proof.
  destruct (l !! k) as [a|] eqn:E; [by apply drop_S|]. apply drop_ge. by apply lookup_ge_None.
Qed.

(** [next_union] yields the head of the merge of what the cursors have left. *)
Lemma next_union_spec hits any hc ac :
  let '(o, (hc', ac')) := next_union hits any hc ac in
  match merge (drop hc hits) (drop ac any) with
  | [] => o = None ∧ hc' = hc ∧ ac' = ac
  | p :: rest => o = Some p ∧ merge (drop hc' hits) (drop ac' any) = rest
  end.
Proof.
  unfold next_union. rewrite (drop_cons hits hc), (drop_cons any ac).
  destruct (hits !! hc) as [h|] eqn:Eh, (any !! ac) as [u|] eqn:Eu.
  - rewrite merge_cons. destruct (h <? u); [|destruct (u <? h)]; (split; [done|]).
    + by rewrite (drop_cons any ac), Eu.
    + by rewrite (drop_cons hits hc), Eh.
    + done.
  - rewrite merge_nil_r. csimpl. split; [done|].
    rewrite (drop_ge any) by by apply lookup_ge_None. by rewrite merge_nil_r.
  - rewrite merge_nil_l. csimpl. split; [done|].
    rewrite (drop_ge hits) by by apply lookup_ge_None. by rewrite merge_nil_l.
  - done.
Qed.

(** ** The maps of [build] *)

Section maps.
Context {X : Externals}.

Lemma get_hits_default m key : get_hits m key = default [] (m !! key).
Proof. unfold get_hits. case_bool_decide as He; [|done]. by rewrite He, lookup_empty. Qed.

Lemma push_index_all index (l : list Pubkey) m key : NoDup l →
  default [] (fold_left (push_index index) l m !! key)
  = default [] (m !! key) ++ (if decide (key ∈ l) then [index] else []).
Proof.
  revert m. induction l as [|k l IH]; intros m Hnd; [by rewrite app_nil_r|].
  apply NoDup_cons in Hnd as [Hk Hnd]. cbn [fold_left]. rewrite IH by done.
  unfold push_index. destruct (decide (key = k)) as [->|Hne].
  - rewrite lookup_insert_eq, (decide_False (P := k ∈ l)) by done.
    rewrite decide_True by (by left). simpl. by rewrite app_nil_r.
  - rewrite lookup_insert_ne by done. f_equal. apply decide_ext. set_solver.
Qed.

Lemma push_index_opt (index : nat) (o : option (gset Pubkey)) (m : gmap Pubkey (list nat)) pk (b : bool) :
  (b = true ↔ ∃ s, o = Some s ∧ pk ∈ s) →
  default [] (match o with
              | Some s => fold_left (push_index index) (elements s) m
              | None => m end !! pk)
  = default [] (m !! pk) ++ (if b then [index] else []).
Proof.
  intros Hb. destruct o as [s|].
  - rewrite push_index_all by apply NoDup_elements. f_equal. destruct b; case_decide as Hin; try done.
    + destruct (proj1 Hb eq_refl) as (s' & [= <-] & Hs). exfalso. apply Hin. by apply elem_of_elements.
    + assert (false = true); [|done]. apply Hb. exists s. split; [done|]. by apply elem_of_elements.
  - destruct b; [|by rewrite app_nil_r]. by destruct (proj1 Hb eq_refl) as (s' & ? & _).
Qed.

(** A list of indices that enumerates the aggregates below [k] satisfying [P]. *)
Definition lists aggregates k (P : FilterAccountAggregate → Prop) (l : list nat) : Prop :=
  increasing l ∧ ∀ i, i ∈ l ↔ below aggregates k P i.

Lemma lists_add aggregates k a P l (b : bool) : aggregates !! k = Some a →
  (b = true ↔ P a) → lists aggregates k P l →
  lists aggregates (S k) P (l ++ if b then [k] else []).
Proof.
  intros Ha HP [Hinc Hl]. split.
  - destruct b; [|by rewrite app_nil_r]. apply increasing_snoc; [done|].
    intros x Hx. apply Hl in Hx as [? _]. done.
  - intros i. rewrite (below_S _ _ _ _ _ Ha), elem_of_app, Hl, <- HP.
    destruct b; [rewrite list_elem_of_singleton|rewrite elem_of_nil]; intuition congruence.
Qed.

Definition maps_built aggregates k (maps : build_maps) : Prop :=
  let '(accounts, owners, account_any, owner_any) := maps in
  (∀ pk, lists aggregates k (λ a, account_hit a pk) (default [] (accounts !! pk))) ∧
  (∀ pk, lists aggregates k (λ a, owner_hit a pk) (default [] (owners !! pk))) ∧
  lists aggregates k account_any_of account_any ∧
  lists aggregates k owner_any_of owner_any.

Lemma build_add_spec aggregates k a maps : aggregates !! k = Some a →
  maps_built aggregates k maps → maps_built aggregates (S k) (build_add maps (k, a)).
Proof.
  destruct maps as [[[accounts owners] account_any] owner_any].
  intros Ha (H1 & H2 & H3 & H4). unfold build_add. rewrite account_any_of_bool.
  assert (∀ pk, lists aggregates (S k) (λ a, account_hit a pk)
    (default [] (match faa_accounts a with
       | Some accs => fold_left (push_index k) (elements accs) accounts
       | None => accounts end !! pk))) as H1'.
  { intros pk.
    rewrite (push_index_opt _ _ _ _ (bool_decide (account_hit a pk))) by apply bool_decide_eq_true.
    apply (lists_add _ _ a); [done|apply bool_decide_eq_true|apply H1]. }
  assert (lists aggregates (S k) account_any_of
    (if bool_decide (account_any_of a) then account_any ++ [k] else account_any)) as H3'.
  { pose proof (lists_add _ _ a _ _ _ Ha (bool_decide_eq_true (account_any_of a)) H3) as Hl.
    case_bool_decide; [done|]. by rewrite app_nil_r in Hl. }
  assert (∀ s pk, faa_owners a = Some s → lists aggregates (S k) (λ a, owner_hit a pk)
    (default [] (fold_left (push_index k) (elements s) owners !! pk))) as H2'.
  { intros s pk Hs.
    pose proof (push_index_opt k (Some s) owners pk (bool_decide (owner_hit a pk))) as Hp.
    rewrite bool_decide_eq_true in Hp. unfold owner_hit in Hp at 1. rewrite Hs in Hp.
    rewrite Hp by done. apply (lists_add _ _ a); [done|apply bool_decide_eq_true|apply H2]. }
  destruct (faa_owners a) as [s|] eqn:Eo; (split; [done|]); split.
  - intros pk. by apply H2'.
  - split; [done|]. pose proof (lists_add _ _ a owner_any_of owner_any false Ha) as Hl.
    rewrite app_nil_r in Hl. apply Hl; [|done]. unfold owner_any_of. by rewrite Eo.
  - intros pk. pose proof (lists_add _ _ a (λ a, owner_hit a pk) (default [] (owners !! pk)) false Ha)
      as Hl. rewrite app_nil_r in Hl. apply Hl; [|apply H2]. unfold owner_hit. rewrite Eo.
    split; [done|]. by intros (? & ? & _).
  - split; [done|]. apply (lists_add _ _ a owner_any_of owner_any true Ha); [|done].
    by unfold owner_any_of.
Qed.

Lemma build_maps_spec aggregates :
  maps_built aggregates (length aggregates)
    (fold_left build_add (enumerate aggregates) (∅, ∅, [], [])).
Proof.
  assert (∀ post pre maps, enumerate aggregates = pre ++ post →
    maps_built aggregates (length pre) maps →
    maps_built aggregates (length aggregates) (fold_left build_add post maps)) as Hgen.
  { induction post as [|p post IH]; intros pre maps Heq Hm; simpl.
    - rewrite app_nil_r in Heq. by rewrite <- Heq, enumerate_length in Hm.
    - destruct (enumerate_split _ _ _ _ Heq) as (a & Ha & ->).
      apply (IH (pre ++ [(length pre, a)])); [by rewrite <- app_assoc|].
      rewrite length_app, Nat.add_1_r. by apply build_add_spec. }
  apply (Hgen _ []); [done|].
  assert (∀ P, lists aggregates 0 P []) as Hnil.
  { intros P. split; [constructor|]. intros i. unfold below. rewrite elem_of_nil. split; [done|lia]. }
  split; [intros pk; rewrite lookup_empty; apply Hnil|].
  split; [intros pk; rewrite lookup_empty; apply Hnil|]. split; apply Hnil.
Qed.

(** A list of indices is as long as the aggregates exactly when every
    aggregate satisfies the property. *)
Lemma lists_full aggregates P l : lists aggregates (length aggregates) P l →
  (length l = length aggregates ↔ Forall P aggregates).
Proof.
  intros [Hinc Hl].
  assert (∀ i, i ∈ l → i ∈ seq 0 (length aggregates)) as Hsub.
  { intros i [Hi _]%Hl. apply elem_of_seq. lia. }
  assert (∀ k, increasing k → NoDup k) as Hnd.
  { induction k as [|x k IH]; intros Hk; [constructor|].
    apply increasing_cons_inv in Hk as [Hk Hx]. constructor; [|by apply IH].
    intros Hin%Hx. lia. }
  split.
  - intros Hlen. apply Forall_lookup_2. intros i a Ha.
    assert (l ≡ₚ seq 0 (length aggregates)) as Hperm.
    { apply submseteq_length_Permutation; [|by rewrite length_seq, Hlen].
      apply NoDup_submseteq; [by apply Hnd|done]. }
    assert (i ∈ l) as Hi.
    { rewrite Hperm. apply elem_of_seq. apply lookup_lt_Some in Ha. lia. }
    apply Hl in Hi as (_ & a' & Ha' & HP). by simplify_eq.
  - intros HP. rewrite <- (length_seq (length aggregates) 0). f_equal.
    apply increasing_ext; [done|apply increasing_seq|]. intros i. split; [apply Hsub|].
    intros Hi%elem_of_seq. apply Hl. split; [lia|].
    destruct (lookup_lt_is_Some_2 aggregates i) as [a Ha]; [lia|]. exists a. split; [done|].
    by eapply Forall_lookup_1.
Qed.
End maps.

(** ** The loops *)

(** The indices on which two walks agree, with both flags. *)
Fixpoint join (l1 : list (nat * bool)) : list (nat * bool) → list (nat * bool * bool) :=
  fix aux (l2 : list (nat * bool)) :=
    match l1, l2 with
    | (i, b) :: l1', (j, c) :: l2' =>
        if i <? j then join l1' l2
        else if j <? i then aux l2'
        else (i, b, c) :: join l1' l2'
    | _, _ => []
    end.

Lemma join_nil_l l : join [] l = [].
Proof. by destruct l. Qed.

Lemma join_nil_r l : join l [] = [].
Proof. by destruct l as [|[??]]. Qed.

Lemma join_cons i b l1 j c l2 :
  join ((i, b) :: l1) ((j, c) :: l2) =
    if i <? j then join l1 ((j, c) :: l2)
    else if j <? i then join ((i, b) :: l1) l2
    else (i, b, c) :: join l1 l2.
Proof. done. Qed.

Lemma increasing_head_lt (i : nat) (b : bool) l p :
  increasing ((i, b) :: l).*1 → p ∈ l → i < p.1.
Proof.
  intros H Hp. apply increasing_cons_inv in H as [_ H]. apply H.
  apply list_elem_of_fmap. by exists p.
Qed.

Lemma elem_of_join l1 l2 i b c : increasing l1.*1 → increasing l2.*1 →
  (i, b, c) ∈ join l1 l2 ↔ (i, b) ∈ l1 ∧ (i, c) ∈ l2.
Proof.
  revert l2. induction l1 as [|[j x] l1 IH1]; intros l2 H1 H2; [rewrite join_nil_l; set_solver|].
  pose proof (λ p, increasing_head_lt j x l1 p H1) as Hj.
  pose proof (increasing_cons_inv _ _ H1) as [H1' _].
  induction l2 as [|[k y] l2 IH2]; [rewrite join_nil_r; set_solver|].
  pose proof (λ p, increasing_head_lt k y l2 p H2) as Hk.
  pose proof (increasing_cons_inv _ _ H2) as [H2' _].
  rewrite join_cons. destruct (Nat.ltb_spec j k) as [Hlt|]; [|destruct (Nat.ltb_spec k j)].
  - rewrite IH1 by done. rewrite !elem_of_cons. split; [tauto|]. intros [[[= -> ->]|?] Hin]; [|done].
    exfalso. destruct Hin as [[= -> ->]|Hin]; [lia|]. apply Hk in Hin. simpl in Hin. lia.
  - rewrite IH2 by done. rewrite !elem_of_cons. split; [tauto|]. intros [Hin [[= -> ->]|?]]; [|done].
    exfalso. destruct Hin as [[= -> ->]|Hin]; [lia|]. apply Hj in Hin. simpl in Hin. lia.
  - assert (j = k) as <- by lia. rewrite elem_of_cons, IH1 by done. rewrite !elem_of_cons. split.
    + intros [[= -> -> ->]|[? ?]]; auto.
    + intros [[[= -> ->]|Hin1] [Heq|Hin2]].
      * injection Heq as ->. by left.
      * apply Hk in Hin2. simpl in Hin2. lia.
      * injection Heq as -> ->. apply Hj in Hin1. simpl in Hin1. lia.
      * by right.
Qed.

Lemma join_increasing l1 l2 : increasing l1.*1 → increasing l2.*1 →
  increasing ((λ t : nat * bool * bool, t.1.1) <$> join l1 l2).
Proof.
  revert l2. induction l1 as [|[j x] l1 IH1]; intros l2 H1 H2; [rewrite join_nil_l; constructor|].
  pose proof (λ p, increasing_head_lt j x l1 p H1) as Hj.
  pose proof (increasing_cons_inv _ _ H1) as [H1' _].
  induction l2 as [|[k y] l2 IH2]; [rewrite join_nil_r; constructor|].
  pose proof (increasing_cons_inv _ _ H2) as [H2' _].
  rewrite join_cons. destruct (Nat.ltb_spec j k) as [Hlt|]; [|destruct (Nat.ltb_spec k j)].
  - by apply IH1.
  - by apply IH2.
  - rewrite fmap_cons. cbn [fst]. constructor; [by apply IH1|]. apply Forall_fmap, Forall_forall.
    intros [[i b] c] Hin. apply elem_of_join in Hin as [Hin _]; [|done..]. by apply Hj in Hin.
Qed.

Section loops.
Context {X : Externals}.

(** Checking an aggregate with hints. *)
Definition check_hint {A} aggregates account (idx : A → nat) (h1 h2 : A → bool) (x : A)
    : outcome (option FilterName) :=
  a ← vec_index aggregates (idx x); match_filter a account (Some (h1 x)) (Some (h2 x)).

Lemma check_hint_eq {A} aggregates account (idx : A → nat) (h1 h2 : A → bool) x :
  check_hint aggregates account idx h1 h2 x
  = (a ← vec_index aggregates (idx x); match_filter a account (Some (h1 x)) (Some (h2 x))).
Proof. done. Qed.

(** Correct hints change nothing. *)
Lemma scan_hints {A} aggregates account (idx : A → nat) (h1 h2 : A → bool) l :
  (∀ x a, x ∈ l → aggregates !! idx x = Some a →
     (h1 x = bool_decide (account_hit a (ai_pubkey account)) ∨ faa_accounts a = None) ∧
     (h2 x = bool_decide (owner_hit a (ai_owner account)) ∨ faa_owners a = None)) →
  filter_mapM (check_hint aggregates account idx h1 h2) l
  = filter_mapM (check_at aggregates account) (idx <$> l).
Proof.
  intros Hh. rewrite filter_mapM_fmap. apply filter_mapM_ext. intros x Hx.
  unfold check_hint, check_at, vec_index. destruct (aggregates !! idx x) as [a|] eqn:E; [|done].
  destruct (Hh x a Hx E). by apply match_filter_hint.
Qed.

Lemma outcome_bind_snoc (o : option FilterName) filters rest (m : outcome (list FilterName)) :
  m = (found ← rest; Done ((match o with Some name => filters ++ [name] | None => filters end) ++ found)) →
  m = (found ← (bs ← rest; Done (match o with Some b => b :: bs | None => bs end));
       Done (filters ++ found)).
Proof. intros ->. destruct rest; [|done]. simpl. destruct o; [|done]. by rewrite <- app_assoc. Qed.

Lemma single_axis_loop_spec fuel this account hits hc ac filters :
  let rest := merge (drop hc hits) (drop ac (sam_bounded_any this)) in
  length rest < fuel →
  single_axis_loop fuel this account hits hc ac filters
  = (found ← filter_mapM (check_hint (sam_aggregates this) account fst
       (λ p, if sam_unbounded_is_owner this then p.2 else false)
       (λ p, if sam_unbounded_is_owner this then false else p.2)) rest;
     Done (filters ++ found)).
Proof.
  revert hc ac filters. induction fuel as [|fuel IH]; intros hc ac filters rest Hfuel; [lia|].
  cbn [single_axis_loop]. pose proof (next_union_spec hits (sam_bounded_any this) hc ac) as Hn.
  destruct (next_union hits (sam_bounded_any this) hc ac) as [o [hc' ac']].
  unfold rest in *. destruct (merge _ _) as [|[i b] rest'].
  - destruct Hn as (-> & _). simpl. by rewrite app_nil_r.
  - destruct Hn as (-> & Hrest). cbn [filter_mapM]. rewrite check_hint_eq. cbn [fst snd].
    destruct (vec_index (sam_aggregates this) i) as [a|];
      [|destruct (sam_unbounded_is_owner this); reflexivity].
    cbn [length] in Hfuel. specialize (λ fs, IH hc' ac' fs). cbv zeta in IH. rewrite Hrest in IH.
    destruct (sam_unbounded_is_owner this);
      rewrite !outcome_bind_done; (destruct (match_filter a account _ _) as [m|]; [|done]);
      rewrite !outcome_bind_done; apply outcome_bind_snoc, IH; lia.
Qed.

(** ** Walks *)

Definition walk_yields (w : union_walk) (l : list (nat * bool)) : Prop :=
  match l with
  | [] => uw_pos w = None
  | p :: rest =>
      uw_pos w = Some p ∧
      merge (drop (uw_cursors w).1 (uw_hits w)) (drop (uw_cursors w).2 (uw_any w)) = rest
  end.

Lemma walk_next_yields_merge w :
  walk_yields (walk_next w)
    (merge (drop (uw_cursors w).1 (uw_hits w)) (drop (uw_cursors w).2 (uw_any w))).
Proof.
  unfold walk_next. pose proof (next_union_spec (uw_hits w) (uw_any w)
    (uw_cursors w).1 (uw_cursors w).2) as Hn.
  destruct (next_union _ _ _ _) as [o [hc' ac']]. destruct (merge _ _) as [|p rest]; simpl.
  - by destruct Hn.
  - done.
Qed.

Lemma walk_next_yields w p rest : walk_yields w (p :: rest) → walk_yields (walk_next w) rest.
Proof. intros [_ <-]. apply walk_next_yields_merge. Qed.

Lemma walk_start_yields hits any : walk_yields (walk_start hits any) (merge hits any).
Proof. unfold walk_start. apply walk_next_yields_merge. Qed.

Lemma dual_axis_loop_spec fuel this account w1 w2 l1 l2 filters :
  walk_yields w1 l1 → walk_yields w2 l2 → length l1 + length l2 < fuel →
  dual_axis_loop fuel this account w1 w2 filters
  = (found ← filter_mapM (check_hint (dam_aggregates this) account (λ t : nat * bool * bool, t.1.1)
       (λ t, t.1.2) snd) (join l1 l2);
     Done (filters ++ found)).
Proof.
  revert w1 w2 l1 l2 filters. induction fuel as [|fuel IH]; intros w1 w2 l1 l2 filters H1 H2 Hf; [lia|].
  cbn [dual_axis_loop].
  destruct l1 as [|[i b] l1].
  { rewrite H1, join_nil_l. simpl. by rewrite app_nil_r. }
  destruct l2 as [|[j c] l2].
  { rewrite H2, join_nil_r. destruct (uw_pos w1) as [[]|]; simpl; by rewrite app_nil_r. }
  pose proof (walk_next_yields _ _ _ H1) as Hn1. pose proof (walk_next_yields _ _ _ H2) as Hn2.
  rewrite (proj1 H1), (proj1 H2), join_cons. cbn [length] in Hf.
  destruct (i <? j); [by apply IH; cbn [length]; lia || done|].
  destruct (j <? i); [by apply IH; cbn [length]; lia || done|].
  cbn [filter_mapM]. rewrite check_hint_eq. cbn [fst snd].
  destruct (vec_index (dam_aggregates this) i) as [a|]; [|done].
  rewrite !outcome_bind_done. destruct (match_filter a account _ _) as [m|]; [|done].
  rewrite !outcome_bind_done. apply outcome_bind_snoc. apply IH; [done|done|lia].
Qed.

(** The cursor comparison of [AllUnconstrainedFilter] recognises the indices of
    an increasing list met in order. *)
Definition cursor_at (hits : list nat) (cursor k : nat) : Prop :=
  increasing (drop cursor hits) ∧ ∀ i, i ∈ drop cursor hits ↔ i ∈ hits ∧ k <= i.

Lemma cursor_match_spec hits cursor k : cursor_at hits cursor k →
  let '(b, cursor') := cursor_match hits cursor k in
  b = bool_decide (k ∈ hits) ∧ cursor_at hits cursor' (S k).
Proof.
  unfold cursor_at, cursor_match. intros [Hinc Hin]. rewrite drop_cons in Hinc, Hin.
  case_bool_decide as Hk.
  - rewrite Hk in Hinc, Hin. apply increasing_cons_inv in Hinc as [Hinc Hlt]. split.
    + rewrite bool_decide_true; [done|]. apply (Hin k). by left.
    + split; [done|]. intros i. specialize (Hin i). rewrite elem_of_cons in Hin. split.
      * intros Hi. pose proof (Hlt i Hi). tauto.
      * intros [Hi Hle]. destruct (proj2 Hin) as [->|?]; [split; [done|lia]|lia|done].
  - assert (k ∉ hits) as Hnk.
    { intros Hkh. assert (k ∈ match hits !! cursor with Some a => a :: drop (S cursor) hits
        | None => [] end) as Hk' by (apply Hin; auto).
      destruct (hits !! cursor) as [h|]; [|by apply not_elem_of_nil in Hk'].
      apply elem_of_cons in Hk' as [->|Hk']; [done|].
      apply increasing_cons_inv in Hinc as [_ Hlt]. apply Hlt in Hk'.
      assert (k <= h); [|lia]. apply Hin. by left. }
    rewrite bool_decide_false by done. split; [done|]. rewrite drop_cons. split; [done|].
    intros i. rewrite Hin. split; intros [? ?]; (split; [done|]); [|lia].
    destruct (decide (i = k)) as [->|]; [done|lia].
Qed.

Lemma all_unconstrained_loop_spec account ah oh ac oc k l :
  cursor_at ah ac k → cursor_at oh oc k →
  all_unconstrained_loop account ah oh ac oc (zip (seq k (length l)) l)
  = filter_mapM (λ p : nat * FilterAccountAggregate, match_filter p.2 account
      (Some (bool_decide (p.1 ∈ ah))) (Some (bool_decide (p.1 ∈ oh)))) (zip (seq k (length l)) l).
Proof.
  revert ac oc k. induction l as [|a l IH]; intros ac oc k Ha Ho; [done|].
  cbn [length seq zip_with all_unconstrained_loop filter_mapM fst snd].
  pose proof (cursor_match_spec ah ac k Ha) as Ha'. pose proof (cursor_match_spec oh oc k Ho) as Ho'.
  destruct (cursor_match ah ac k) as [b1 ac'], (cursor_match oh oc k) as [b2 oc'].
  destruct Ha' as [-> Ha'], Ho' as [-> Ho']. apply outcome_bind_ext. intros o.
  by rewrite (IH ac' oc' (S k)).
Qed.
End loops.

(** ** The strategies compute the linear scan *)

Section strategies.
Context {X : Externals}.

(** The one shape of filters on which the strategies differ: the index is over
    its memory budget, every aggregate is unconstrained by account (some of
    them through a cuckoo filter next to an explicit list) and some aggregate
    is constrained by owner. *)
Definition merge_hint_gap (aggregates : list FilterAccountAggregate) : Prop :=
  (MAX_BITSET_BYTES < index_memory aggregates)%Z ∧ some_account_hit aggregates ∧
  Forall account_any_of aggregates ∧ ¬ Forall owner_any_of aggregates.

Lemma lists_hit aggregates (P : FilterAccountAggregate → Prop) `{!∀ a, Decision (P a)} l i a :
  lists aggregates (length aggregates) P l → aggregates !! i = Some a →
  bool_decide (i ∈ l) = bool_decide (P a).
Proof.
  intros [_ Hl] Ha. apply bool_decide_ext. rewrite Hl. unfold below. split.
  - intros (_ & a' & Ha' & ?). by simplify_eq.
  - intros HP. split; [by eapply lookup_lt_Some|eauto].
Qed.

Lemma enumerate_filter_mapM {A B} (f : A → outcome (option B)) (l : list A) :
  filter_mapM (λ p : nat * A, f p.2) (enumerate l) = filter_mapM f l.
Proof.
  unfold enumerate. generalize 0. induction l as [|a l IH]; intros k; [done|].
  cbn [length seq zip_with filter_mapM snd]. by rewrite IH.
Qed.

Lemma all_unconstrained_scan aggregates accounts owners account_any owner_any account :
  maps_built aggregates (length aggregates) (accounts, owners, account_any, owner_any) →
  AllUnconstrainedFilter_get_filters
    {| auf_aggregates := aggregates; auf_accounts := accounts; auf_owners := owners |} account
  = LinearScanFilter_get_filters aggregates account.
Proof.
  intros (H1 & H2 & _ & _). unfold AllUnconstrainedFilter_get_filters. cbn.
  rewrite !get_hits_default. specialize (H1 (ai_pubkey account)). specialize (H2 (ai_owner account)).
  assert (∀ l, increasing l → cursor_at l 0 0) as Hc.
  { intros l Hl. unfold cursor_at. rewrite drop_0. split; [done|]. intros i. split; [|tauto].
    intros. split; [done|lia]. }
  unfold enumerate. rewrite all_unconstrained_loop_spec by (apply Hc; apply H1 || apply H2).
  transitivity (filter_mapM (λ p : nat * FilterAccountAggregate, match_filter p.2 account None None)
    (enumerate aggregates)).
  2: { apply (enumerate_filter_mapM (λ a, match_filter a account None None)). }
  apply filter_mapM_ext. intros [i a] Hin. apply list_elem_of_lookup in Hin as [k Hk].
  apply enumerate_lookup in Hk as (a' & Ha & [= -> ->]). cbn [fst snd].
  apply match_filter_hint; left; [exact (lists_hit _ _ _ _ _ H1 Ha)|exact (lists_hit _ _ _ _ _ H2 Ha)].
Qed.

(** A merged walk covers one axis. *)
Lemma merge_below aggregates P Q l1 l2 :
  lists aggregates (length aggregates) P l1 → lists aggregates (length aggregates) Q l2 →
  ∀ p, p ∈ merge l1 l2 ↔
    (∃ a, aggregates !! p.1 = Some a ∧ (P a ∨ Q a)) ∧ p.2 = bool_decide (p.1 ∈ l1).
Proof.
  intros [H1 H1'] [H2 H2'] p. rewrite elem_of_merge by done.
  split; intros [Hin ->]; (split; [|done]).
  - rewrite H1', H2' in Hin. unfold below in Hin. destruct Hin as [(_ & a & ? & ?)|(_ & a & ? & ?)]; eauto.
  - rewrite H1', H2'. unfold below.
    destruct Hin as (a & Ha & [?|?]); pose proof (lookup_lt_Some _ _ _ Ha); eauto 6.
Qed.

Lemma single_axis_scan aggregates hits bounded_any unb account P Q :
  Forall aggregate_wf aggregates →
  lists aggregates (length aggregates) P
    (get_hits hits (if unb : bool then ai_pubkey account else ai_owner account)) →
  lists aggregates (length aggregates) Q bounded_any →
  (∀ a, a ∈ aggregates → candidate a account → P a ∨ Q a) →
  (∀ a, a ∈ aggregates →
     if unb then (P a ↔ account_hit a (ai_pubkey account)) ∧ faa_owners a = None
     else (P a ↔ owner_hit a (ai_owner account)) ∧ ¬ account_hit a (ai_pubkey account)) →
  SingleAxisMergeFilter_get_filters
    {| sam_aggregates := aggregates; sam_unbounded_is_owner := unb;
       sam_bounded_hits := hits; sam_bounded_any := bounded_any |} account
  = LinearScanFilter_get_filters aggregates account.
Proof.
  intros Hwf HP HQ Hcand Haxis. unfold SingleAxisMergeFilter_get_filters. cbn -[single_axis_loop].
  set (h := get_hits hits _) in *. pose proof (merge_below _ _ _ _ _ HP HQ) as Hm.
  assert (filter_mapM (check_hint aggregates account fst
      (λ p : nat * bool, if unb then p.2 else false) (λ p : nat * bool, if unb then false else p.2))
      (merge h bounded_any) = LinearScanFilter_get_filters aggregates account) as Hscan.
  { rewrite scan_hints.
    - apply scan_cover; [done|apply merge_increasing; apply HP || apply HQ| |].
      + intros i (p & -> & Hp)%list_elem_of_fmap. apply Hm in Hp as [(a & Ha & _) _].
        by eapply lookup_lt_Some.
      + intros i a Ha Hc. apply list_elem_of_fmap. exists (i, bool_decide (i ∈ h)).
        split; [done|]. apply Hm. split; [|done]. exists a. split; [done|].
        apply Hcand; [by eapply list_elem_of_lookup_2|done].
    - intros [i b] a Hp Ha. cbn [fst snd] in *. apply Hm in Hp as [_ Hb].
      cbn [fst snd] in Hb. subst b.
      specialize (Haxis a ltac:(by eapply list_elem_of_lookup_2)).
      assert (i ∈ h ↔ P a) as Hi.
      { destruct HP as [_ HP]. rewrite HP. unfold below. split.
        - intros (_ & a' & Ha' & ?). by simplify_eq.
        - intros HPa. split; [by eapply lookup_lt_Some|eauto]. }
      destruct unb; destruct Haxis as [HPa Hnone].
      + split; [left|by right]. apply bool_decide_ext. tauto.
      + split; left; [by rewrite bool_decide_false|]. apply bool_decide_ext. tauto. }
  destruct (bool_decide (h = []) && bool_decide (bounded_any = [])) eqn:Ee.
  - apply andb_true_iff in Ee as [->%bool_decide_eq_true ->%bool_decide_eq_true].
    rewrite <- Hscan. done.
  - rewrite single_axis_loop_spec by (cbn; rewrite !drop_0; pose proof (merge_length h bounded_any); lia).
    cbn [sam_aggregates sam_unbounded_is_owner sam_bounded_any]. rewrite !drop_0, Hscan. cbn [app].
    by rewrite outcome_bind_ret.
Qed.

Lemma dual_axis_scan aggregates accounts owners account_any owner_any account :
  Forall aggregate_wf aggregates →
  maps_built aggregates (length aggregates) (accounts, owners, account_any, owner_any) →
  DualAxisMergeFilter_get_filters
    {| dam_aggregates := aggregates; dam_accounts := accounts; dam_owners := owners;
       dam_account_any := account_any; dam_owner_any := owner_any |} account
  = LinearScanFilter_get_filters aggregates account.
Proof.
  intros Hwf (H1 & H2 & H3 & H4). unfold DualAxisMergeFilter_get_filters. cbn -[dual_axis_loop].
  rewrite !get_hits_default. specialize (H1 (ai_pubkey account)). specialize (H2 (ai_owner account)).
  set (ah := default [] (accounts !! _)) in *. set (oh := default [] (owners !! _)) in *.
  pose proof (merge_below _ _ _ _ _ H1 H3) as Hm1. pose proof (merge_below _ _ _ _ _ H2 H4) as Hm2.
  pose proof (merge_increasing ah account_any (proj1 H1) (proj1 H3)) as Hi1.
  pose proof (merge_increasing oh owner_any (proj1 H2) (proj1 H4)) as Hi2.
  assert (filter_mapM (check_hint aggregates account (λ t : nat * bool * bool, t.1.1)
      (λ t, t.1.2) snd) (join (merge ah account_any) (merge oh owner_any))
      = LinearScanFilter_get_filters aggregates account) as Hscan.
  { rewrite scan_hints.
    - apply scan_cover; [done|by apply join_increasing| |].
      + intros i ([[j b] c] & -> & Hp)%list_elem_of_fmap. apply elem_of_join in Hp as [Hp _]; [|done..].
        apply Hm1 in Hp as [(a & Ha & _) _]. by eapply lookup_lt_Some.
      + intros i a Ha [Hc1 Hc2]. apply list_elem_of_fmap.
        exists (i, bool_decide (i ∈ ah), bool_decide (i ∈ oh)). split; [done|].
        apply elem_of_join; [done..|]. split; [apply Hm1|apply Hm2]; (split; [|done]); exists a; tauto.
    - intros [[i b] c] a Hp Ha. cbn [fst snd] in *. apply elem_of_join in Hp as [Hp1 Hp2]; [|done..].
      apply Hm1 in Hp1 as [_ Hb]. apply Hm2 in Hp2 as [_ Hc]. cbn [fst snd] in Hb, Hc. subst b c.
      split; left; [exact (lists_hit _ _ _ _ _ H1 Ha)|exact (lists_hit _ _ _ _ _ H2 Ha)]. }
  destruct ((bool_decide (ah = []) && bool_decide (account_any = []))
     || (bool_decide (oh = []) && bool_decide (owner_any = []))) eqn:Ee.
  - rewrite <- Hscan. apply orb_true_iff in Ee as [Ee|Ee];
      apply andb_true_iff in Ee as [->%bool_decide_eq_true ->%bool_decide_eq_true].
    + by rewrite merge_nil_l, join_nil_l.
    + by rewrite (merge_nil_l []), join_nil_r.
  - rewrite (dual_axis_loop_spec _ _ _ _ _ (merge ah account_any) (merge oh owner_any)).
    + cbn [dam_aggregates]. rewrite Hscan. cbn [app]. by rewrite outcome_bind_ret.
    + apply walk_start_yields.
    + apply walk_start_yields.
    + pose proof (merge_length ah account_any). pose proof (merge_length oh owner_any). lia.
Qed.

(** What [build] picks when the index is not available. *)
Lemma build_spec aggregates :
  Forall aggregate_wf aggregates → ¬ merge_hint_gap aggregates →
  ∃ s, FilterAccountsStrategy_build aggregates = Done s ∧
    FilterAccountsStrategy_aggregates s = aggregates ∧
    ∀ account, FilterAccountsStrategy_get_filters s account
      = LinearScanFilter_get_filters aggregates account.
Proof.
  intros Hwf Hgap. destruct aggregates as [|a0 rest]; [by exists Empty|].
  unfold FilterAccountsStrategy_build. cbv iota. set (aggregates := a0 :: rest) in *.
  clearbody aggregates.
  destruct (try_init_spec aggregates) as ([index|] & -> & Hidx); rewrite outcome_bind_done;
    cbn -[fold_left enumerate].
  { exists (Indexed index). split; [done|]. split; [by destruct Hidx as [[] _]|].
    intros account. by apply index_get_filters_scan. }
  destruct (Nat.leb_spec (length aggregates) DIRECT_SCAN_LIMIT) as [|Hlen];
    [by exists (LinearScan aggregates)|].
  pose proof (build_maps_spec aggregates) as Hmaps.
  destruct (fold_left build_add (enumerate aggregates) _) as [[[accounts owners] account_any] owner_any].
  pose proof Hmaps as (H1 & H2 & H3 & H4).
  pose proof (lists_full _ _ _ H3) as Hfa. pose proof (lists_full _ _ _ H4) as Hfo.
  destruct (Nat.eqb_spec (length account_any) (length aggregates)) as [Ha|Ha],
    (Nat.eqb_spec (length owner_any) (length aggregates)) as [Ho|Ho]; cbn [andb xorb].
  - eexists. split; [done|]. split; [done|]. intros account. by eapply all_unconstrained_scan.
  - eexists. split; [done|]. split; [done|]. intros account.
    eapply single_axis_scan; [done|rewrite get_hits_default; apply H2|exact H4| |].
    + intros a _ [_ ?]. tauto.
    + intros a Hin. split; [done|]. intros Hhit.
      assert (some_account_hit aggregates) as Hsome by (exists a; eauto).
      destruct Hidx as [Hidx|[Hidx|Hidx]]; [unfold DIRECT_SCAN_LIMIT in Hlen; lia| |done].
      apply Hgap. split; [done|]. split; [done|]. split; [by apply Hfa|]. by rewrite <- Hfo.
  - eexists. split; [done|]. split; [done|]. intros account.
    eapply single_axis_scan; [done|rewrite get_hits_default; apply H1|exact H3| |].
    + intros a _ [? _]. tauto.
    + intros a Hin. split; [done|]. apply Hfo in Ho. rewrite Forall_forall in Ho. by apply Ho.
  - eexists. split; [done|]. split; [done|]. intros account. by apply dual_axis_scan.
Qed.
End strategies.
