(* ===== verification/AccountsSpec.v ===== *)
(** * Account filters: correctness

    The claims about [FilterAccounts]: every strategy is the linear scan, and
    the updates produced from a request are those the request describes. *)

From stdpp Require Import pretty.
From S2P Require Import Prelude Bits Externals Proto Message Limits Names FilterBase DataSlice.
From S2P Require Import AccountsState Cuckoo Updates AccountsFilter AccountsScan AccountsMerge.

Set Default Goal Selector "!".

Section spec.
Context {X : Externals}.

Lemma build_total aggregates :
  ∃ s, FilterAccountsStrategy_build aggregates = Done s ∧
    FilterAccountsStrategy_aggregates s = aggregates.
Proof.
  destruct aggregates as [|a0 rest]; [by exists Empty|].
  unfold FilterAccountsStrategy_build. cbv iota. set (aggregates := a0 :: rest) in *.
  clearbody aggregates.
  destruct (try_init_spec aggregates) as ([index|] & -> & Hidx); rewrite outcome_bind_done.
  { exists (Indexed index). split; [done|]. by destruct Hidx as [[] _]. }
  destruct (_ <=? _); [by exists (LinearScan aggregates)|].
  destruct (fold_left build_add _ _) as [[[accounts owners] account_any] owner_any].
  destruct (_ && _); [by eexists|]. destruct (xorb _ _); [|by eexists].
  destruct (length owner_any =? length aggregates); by eexists.
Qed.

(** ** What a request's account filter asks for *)

Definition config_matches (filter : SubscribeRequestFilterAccounts) (account : MessageAccountInfo)
    : Prop :=
  (∀ b, rfa_nonempty_txn_signature filter = Some b →
     (b = true ↔ is_Some (ai_txn_signature account))) ∧
  ((rfa_account filter = [] ∧ rfa_cuckoo_accounts_filter filter = None) ∨
   (∃ str, str ∈ rfa_account filter ∧ pubkey_from_str str = Ok (ai_pubkey account)) ∨
   (∃ p, rfa_cuckoo_accounts_filter filter = Some p ∧
      CuckooFilter_contains (CuckooFilter_from_proto p) (ai_pubkey account) = Done true)) ∧
  (rfa_owner filter = [] ∨
   ∃ str, str ∈ rfa_owner filter ∧ pubkey_from_str str = Ok (ai_owner account)) ∧
  (∃ st, FilterAccountsState_new (rfa_filters filter) = Ok st ∧
     state_holds st (ai_data account) (ai_lamports account)).

(** The aggregate parsed from a config. *)
Record aggregate_of (limits : FilterLimitsAccounts) (name : string)
    (filter : SubscribeRequestFilterAccounts) (a : FilterAccountAggregate) : Prop := {
  ao_name : fname_text (faa_filter_name a) = name;
  ao_signature : faa_txn_signature a = rfa_nonempty_txn_signature filter;
  ao_accounts : match faa_accounts a with
    | None => rfa_account filter = []
    | Some s => rfa_account filter ≠ [] ∧ s ## fla_account_reject limits ∧
        ∀ pk, pk ∈ s ↔ ∃ str, str ∈ rfa_account filter ∧ pubkey_from_str str = Ok pk
    end;
  ao_owners : match faa_owners a with
    | None => rfa_owner filter = []
    | Some s => rfa_owner filter ≠ [] ∧ s ## fla_owner_reject limits ∧
        ∀ pk, pk ∈ s ↔ ∃ str, str ∈ rfa_owner filter ∧ pubkey_from_str str = Ok pk
    end;
  ao_cuckoo : faa_accounts_cuckoo a = CuckooFilter_from_proto <$> rfa_cuckoo_accounts_filter filter;
  ao_state : ∃ st, FilterAccountsState_new (rfa_filters filter) = Ok st ∧
    faa_account_state a = if FilterAccountsState_is_empty st then None else Some st
}.

(** The optional sets of the parser: none exactly when the list is empty. *)
Lemma parse_keys_ok (l : list string) limit ns o ns' :
  match l with
  | [] => named_ret None
  | _ => named_bind (lift (decode_pubkeys_into_set l limit))
           (λ s, named_ret (if bool_decide (s = ∅) then None else Some s))
  end ns = (Ok o, ns') →
  match o with
  | None => l = []
  | Some s => l ≠ [] ∧ s ## limit ∧ ∀ pk, pk ∈ s ↔ ∃ str, str ∈ l ∧ pubkey_from_str str = Ok pk
  end.
Proof.
  destruct l as [|str0 l]; [by intros [= <- _]|]. rewrite named_bind_ok.
  intros (s & ns1 & Hs & Hr). apply lift_ok in Hs as [Hs _].
  pose proof (decode_pubkeys_into_set_nonempty _ _ _ Hs) as Hne.
  rewrite bool_decide_false in Hr by by apply Hne. injection Hr as <- _.
  apply decode_pubkeys_into_set_ok in Hs as [? ?]. done.
Qed.

Lemma aggregate_spec limits name filter ns a ns' :
  FilterAccounts_aggregate limits (name, filter) ns = (Ok a, ns') →
  aggregate_of limits name filter a ∧
  (len (rfa_account filter) <= fla_account_max limits)%Z ∧
  (len (rfa_owner filter) <= fla_owner_max limits)%Z.
Proof.
  unfold FilterAccounts_aggregate. intros Hrun.
  apply named_bind_ok in Hrun as (_ & n1 & _ & Hrun).
  apply named_bind_ok in Hrun as (u2 & n2 & Hc2 & Hrun). apply lift_check_ok in Hc2 as [Hc2 ->].
  apply named_bind_ok in Hrun as (u3 & n3 & Hc3 & Hrun). apply lift_check_ok in Hc3 as [Hc3 ->].
  apply named_bind_ok in Hrun as (h & n4 & Hname & Hrun). apply names_get_ok in Hname.
  apply named_bind_ok in Hrun as (accounts & n5 & Hacc & Hrun). apply parse_keys_ok in Hacc.
  apply named_bind_ok in Hrun as (owners & n6 & Hown & Hrun). apply parse_keys_ok in Hown.
  apply named_bind_ok in Hrun as (st & n7 & Hst & Hrun). apply lift_ok in Hst as [Hst ->].
  apply named_bind_ok in Hrun as (cuckoo & n8 & Hck & Hrun). injection Hrun as <- _.
  split; [|by split; apply check_pubkey_max_ok; destruct u2, u3].
  split; simpl; try done; [|by exists st].
  destruct (rfa_cuckoo_accounts_filter filter) as [p|]; [|by injection Hck as <- _].
  apply named_bind_ok in Hck as (_ & n9 & _ & Hck). by injection Hck as <- _.
Qed.

Lemma aggregate_of_wf limits name filter a : aggregate_of limits name filter a → aggregate_wf a.
Proof.
  intros Ha f Hf. rewrite (ao_cuckoo _ _ _ _ Ha) in Hf.
  destruct (rfa_cuckoo_accounts_filter filter); [|done]. injection Hf as <-. apply from_proto_wf.
Qed.

(** Matching the parsed aggregate is matching the config. *)
Lemma match_filter_config limits name filter a account :
  aggregate_of limits name filter a → offsets_ok (rfa_filters filter) →
  ∃ o, match_filter a account None None = Done o ∧
    (o = Some (faa_filter_name a) ∧ config_matches filter account
     ∨ o = None ∧ ¬ config_matches filter account).
Proof.
  intros Ha Hoff. pose proof (aggregate_of_wf _ _ _ _ Ha) as Hwf.
  destruct Ha as [_ Hsig Hacc Hown Hck (st & Hst & Hstate)].
  unfold match_filter, config_matches.
  assert (match_txn_signature a (ai_txn_signature account) = true ↔
    ∀ b, rfa_nonempty_txn_signature filter = Some b →
      (b = true ↔ is_Some (ai_txn_signature account))) as Hs.
  { unfold match_txn_signature. rewrite Hsig. destruct (rfa_nonempty_txn_signature filter) as [b|];
      [|naive_solver]. rewrite eqb_true_iff. split.
    - intros -> b' [= <-]. apply bool_decide_eq_true.
    - intros H. apply eq_true_iff_eq. rewrite (H b eq_refl). by rewrite bool_decide_eq_true. }
  destruct (match_txn_signature a _); simpl;
    [|exists None; split; [done|]; right; split; [done|]; intros [Hx _]; by apply Hs in Hx].
  assert (∃ b, match_account a (ai_pubkey account) None = Done b ∧ (b = true ↔
    (rfa_account filter = [] ∧ rfa_cuckoo_accounts_filter filter = None) ∨
    (∃ str, str ∈ rfa_account filter ∧ pubkey_from_str str = Ok (ai_pubkey account)) ∨
    (∃ p, rfa_cuckoo_accounts_filter filter = Some p ∧
      CuckooFilter_contains (CuckooFilter_from_proto p) (ai_pubkey account) = Done true)))
    as (b1 & -> & Hb1).
  { unfold match_account. rewrite Hck. destruct (rfa_cuckoo_accounts_filter filter) as [p|]; simpl.
    - rewrite andb_false_r.
      assert (∃ c, CuckooFilter_contains (CuckooFilter_from_proto p) (ai_pubkey account) = Done c)
        as [c Hc] by (eexists; by apply contains_spec, from_proto_wf).
      destruct (faa_accounts a) as [s|].
      + destruct Hacc as (_ & _ & Hacc). case_bool_decide as Hin.
        * exists true. split; [done|]. apply Hacc in Hin. tauto.
        * rewrite Hc. eexists. split; [done|]. rewrite Hacc in Hin. split.
          -- intros Hb. right; right. exists p. split; [done|]. by rewrite Hc, Hb.
          -- intros [[_ ?]|[?|(p' & [= <-] & Hp)]]; [done|tauto|]. rewrite Hc in Hp. by injection Hp.
      + rewrite Hc. eexists. split; [done|]. rewrite Hacc. split.
        * intros Hb. right; right. exists p. split; [done|]. by rewrite Hc, Hb.
        * intros [[_ ?]|[(str & Hin & _)|(p' & [= <-] & Hp)]];
            [done|by apply elem_of_nil in Hin|]. rewrite Hc in Hp. by injection Hp.
    - rewrite andb_true_r. destruct (faa_accounts a) as [s|]; simpl.
      + destruct Hacc as (Hne & _ & Hacc). case_bool_decide as Hin.
        * exists true. split; [done|]. apply Hacc in Hin. tauto.
        * exists false. split; [done|]. rewrite Hacc in Hin. naive_solver.
      + exists true. split; [done|]. tauto. }
  simpl. destruct b1; simpl; [|exists None; split; [done|right]; naive_solver].
  assert (match_owner a (ai_owner account) None = true ↔ rfa_owner filter = [] ∨
    ∃ str, str ∈ rfa_owner filter ∧ pubkey_from_str str = Ok (ai_owner account)) as Ho.
  { unfold match_owner. destruct (faa_owners a) as [s|]; [|tauto].
    destruct Hown as (Hne & _ & Hown). rewrite bool_decide_eq_true, Hown. tauto. }
  destruct (match_owner a _ None); simpl; [|exists None; split; [done|right]; naive_solver].
  assert (∃ b, match_data_lamports a (ai_data account) (ai_lamports account) = Done b ∧
    (b = true ↔ ∃ st, FilterAccountsState_new (rfa_filters filter) = Ok st ∧
       state_holds st (ai_data account) (ai_lamports account))) as (b & -> & Hb).
  { unfold match_data_lamports. rewrite Hstate.
    destruct (FilterAccountsState_is_empty st) eqn:Ee.
    - exists true. split; [done|]. split; [|done]. intros _. exists st. split; [done|].
      by apply is_empty_holds.
    - destruct (is_match_spec st (ai_data account) (ai_lamports account)) as (b & -> & Hb);
        [by eapply new_in_range|]. exists b. split; [done|]. rewrite Hb. split; [eauto|].
      intros (st' & Hst' & ?). rewrite Hst in Hst'. by injection Hst' as <-. }
  simpl. destruct b; simpl.
  - eexists. split; [done|]. left. split; [done|]. naive_solver.
  - exists None. split; [done|]. right. naive_solver.
Qed.

(** The linear scan over parsed aggregates selects the matching configs. *)
Lemma linear_scan_configs limits configs aggregates account :
  Forall2 (λ c a, aggregate_of limits c.1 c.2 a) configs aggregates →
  Forall (λ c, offsets_ok (rfa_filters c.2)) configs →
  ∃ filters, LinearScanFilter_get_filters aggregates account = Done filters ∧
    ∀ name, name ∈ fname_text <$> filters ↔
      ∃ filter, (name, filter) ∈ configs ∧ config_matches filter account.
Proof.
  unfold LinearScanFilter_get_filters. intros Hagg. induction Hagg as [|[name filter] a configs aggs Ha _ IH].
  - intros _. exists []. split; [done|]. set_solver.
  - rewrite Forall_cons. intros [Hoff Hoffs]. destruct (IH Hoffs) as (filters & Hf & Hin).
    cbn [filter_mapM]. rewrite Hf.
    destruct (match_filter_config _ _ _ _ account Ha Hoff) as (o & -> & Ho).
    rewrite !outcome_bind_done. eexists. split; [done|]. intros n.
    destruct Ho as [[-> Hm]|[-> Hm]]; csimpl; rewrite ?elem_of_cons, Hin.
    + rewrite (ao_name _ _ _ _ Ha). split.
      * intros [->|(f & ? & ?)]; [exists filter|exists f]; (split; [|done]); [by left|by right].
      * intros (f & [[= -> ->]|?]%elem_of_cons & ?); [by left|right; eauto].
    + split.
      * intros (f & ? & ?). exists f. split; [by right|done].
      * intros (f & [[= -> ->]|?]%elem_of_cons & ?); [done|eauto].
Qed.

Lemma FilterAccounts_new_ok configs limits ns f ns' :
  FilterAccounts_new configs limits ns = Done (Ok f, ns') →
  (len configs <= fla_max limits)%Z ∧
  FilterAccountsStrategy_build (FilterAccounts_aggregates f) = Done (fa_strategy f) ∧
  Forall2 (λ c a, aggregate_of limits c.1 c.2 a) configs (FilterAccounts_aggregates f).
Proof.
  unfold FilterAccounts_new.
  destruct (FilterAccounts_aggregates_of configs limits ns) as [[aggregates|e] ns1] eqn:Ea; [|done].
  destruct (build_total aggregates) as (s & Hs & Hagg). rewrite Hs. intros [= <- _].
  unfold FilterAccounts_aggregates. simpl. rewrite Hagg.
  unfold FilterAccounts_aggregates_of in Ea. apply named_bind_ok in Ea as (u & n1 & Hc & Ea).
  apply lift_check_ok in Hc as [Hc ->]. destruct u. split; [by apply check_max_ok|].
  split; [done|]. apply named_mapM_ok in Ea. eapply Forall2_impl; [exact Ea|].
  intros [name filter] a (n & n' & H). by apply aggregate_spec in H as [? _].
Qed.
(** ** The strategy that drops matches *)

Lemma memberships_ones aggregates c :
  Forall (λ a, opt_set_len (faa_accounts a) = 1%Z ∧ opt_set_len (faa_owners a) = 1%Z) aggregates →
  (0 <= c)%Z → (c + 2 * len aggregates <= usize_max)%Z →
  fold_left (λ count aggregate,
    saturating_add (saturating_add count (opt_set_len (faa_accounts aggregate)))
      (opt_set_len (faa_owners aggregate))) aggregates c = (c + 2 * len aggregates)%Z.
Proof.
  revert c. induction aggregates as [|a l IH]; intros c Hall Hc Hb; cbn [fold_left].
  { unfold len. simpl. lia. }
  apply Forall_cons in Hall as [[Ha Ho] Hall].
  replace (len (a :: l)) with (1 + len l)%Z in * by (unfold len; simpl length; lia).
  pose proof (len_nonneg l). rewrite Ha, Ho. unfold saturating_add. rewrite !Z.min_l by lia.
  rewrite IH; [lia|done|lia|lia].
Qed.

(** Over the memory budget, with every aggregate unconstrained by account and
    not every one by owner, [build] picks the merge over the owner axis. *)
Lemma build_single_axis aggregates :
  (MAX_BITSET_BYTES < index_memory aggregates)%Z → 5 <= length aggregates →
  Forall account_any_of aggregates → ¬ Forall owner_any_of aggregates →
  ∃ owners owner_any,
    FilterAccountsStrategy_build aggregates
    = Done (SingleAxisMerge {| sam_aggregates := aggregates; sam_unbounded_is_owner := false;
                               sam_bounded_hits := owners; sam_bounded_any := owner_any |}) ∧
    (∀ pk, lists aggregates (length aggregates) (λ a, owner_hit a pk) (default [] (owners !! pk))) ∧
    lists aggregates (length aggregates) owner_any_of owner_any.
Proof.
  intros Hmem Hlen Hacc Hown. destruct aggregates as [|a0 rest]; [simpl in Hlen; lia|].
  unfold FilterAccountsStrategy_build. cbv iota. set (aggregates := a0 :: rest) in *.
  clearbody aggregates. unfold FilterAccountsIndex_try_init.
  destruct (Nat.leb_spec (length aggregates) 1); [lia|].
  destruct (Z.ltb_spec MAX_BITSET_BYTES (index_memory aggregates)); [|lia].
  rewrite outcome_bind_done. unfold DIRECT_SCAN_LIMIT.
  destruct (Nat.leb_spec (length aggregates) 4); [lia|].
  pose proof (build_maps_spec aggregates) as Hmaps.
  destruct (fold_left build_add (enumerate aggregates) _) as [[[accounts owners] account_any] owner_any].
  destruct Hmaps as (_ & Hown2 & Hacc3 & Hown4).
  rewrite (proj2 (Nat.eqb_eq _ _) (proj2 (lists_full _ _ _ Hacc3) Hacc)).
  destruct (Nat.eqb_spec (length owner_any) (length aggregates)) as [Ho|Ho].
  { exfalso. by apply Hown, (lists_full _ _ _ Hown4). }
  exists owners, owner_any. done.
Qed.

(** The merge passes [false] for the axis it does not walk. *)
Lemma single_axis_unhinted aggregates owners owner_any account :
  (∀ a b, a ∈ aggregates → match_filter a account (Some false) (Some b) = Done None) →
  (∀ pk, lists aggregates (length aggregates) (λ a, owner_hit a pk) (default [] (owners !! pk))) →
  lists aggregates (length aggregates) owner_any_of owner_any →
  SingleAxisMergeFilter_get_filters
    {| sam_aggregates := aggregates; sam_unbounded_is_owner := false;
       sam_bounded_hits := owners; sam_bounded_any := owner_any |} account = Done [].
Proof.
  intros Hnone H2 H4. unfold SingleAxisMergeFilter_get_filters. cbn -[single_axis_loop].
  destruct (_ && _); [done|]. rewrite get_hits_default. specialize (H2 (ai_owner account)).
  set (h := default [] _) in *. pose proof (merge_below _ _ _ _ _ H2 H4) as Hm.
  rewrite single_axis_loop_spec by (cbn; rewrite !drop_0; pose proof (merge_length h owner_any); lia).
  cbn [sam_aggregates sam_unbounded_is_owner sam_bounded_any]. rewrite !drop_0.
  rewrite (filter_mapM_ext _ (λ _, Done None)).
  { assert (∀ l : list (nat * bool), filter_mapM (λ _, Done (@None FilterName)) l = Done []) as ->;
      [|done]. induction l as [|p l IH]; [done|]. simpl. by rewrite IH. }
  intros [i b] Hp. apply Hm in Hp as [(a & Ha & _) _]. unfold check_hint.
  rewrite (vec_index_lookup _ _ _ Ha). apply Hnone. by eapply list_elem_of_lookup_2.
Qed.

Definition empty_proto : ProtoCuckooFilter := mkProtoCuckooFilter [] 1 4 16 0 0.

(** A filter on key [pk] and owner [ow] that also carries an empty cuckoo filter. *)
Definition gap_aggregate (pk ow : Pubkey) (i : nat) : FilterAccountAggregate :=
  {| faa_filter_name := mkFilterName i (pretty i);
     faa_txn_signature := None;
     faa_accounts := Some {[pk]};
     faa_accounts_cuckoo := Some (CuckooFilter_from_proto empty_proto);
     faa_owners := Some {[ow]};
     faa_account_state := None |}.

Lemma empty_cuckoo_contains pk :
  CuckooFilter_contains (CuckooFilter_from_proto empty_proto) pk = Done false.
Proof.
  rewrite contains_spec by apply from_proto_wf. rewrite bool_decide_false; [done|].
  assert (footprint (CuckooFilter_from_proto empty_proto) = ∅) as ->.
  { unfold footprint. apply (table_keys_empty _ 0 1). }
  set_solver.
Qed.

Lemma gap_memory pk ow :
  (MAX_BITSET_BYTES < index_memory (gap_aggregate pk ow <$> seq 0 (Z.to_nat 65536)))%Z.
Proof.
  unfold index_memory. rewrite memberships_ones; [|..].
  - unfold len. rewrite length_fmap, length_seq. unfold BITS_PER_WORD.
    replace (Z.of_nat ((Z.to_nat 65536 + 63) / 64)) with 1024%Z.
    + rewrite Z2Nat.id by lia. vm_compute. done.
    + rewrite Nat2Z.inj_div, Nat2Z.inj_add, Z2Nat.id by lia. done.
  - apply Forall_fmap, Forall_forall. intros i _.
    assert (∀ pk : Pubkey, opt_set_len (Some {[pk]}) = 1%Z) as Hone.
    { intros k. unfold opt_set_len. by rewrite (size_singleton (C := gset Pubkey)). }
    split; apply Hone.
  - lia.
  - unfold len. rewrite length_fmap, length_seq, Z2Nat.id by lia. vm_compute. done.
Qed.
End spec.

(** ** Claims *)

Section claims.
Context {X : Externals}.

(** C3. Optimised account matching is exact. [build] always completes and
    keeps the aggregates; and unless the filters have the one shape
    [merge_hint_gap], whatever strategy it picks (bitset index, linear scan or
    one of the three merges), [get_filters] on every account completes exactly
    as the linear scan over all filters does and returns the same names in the
    same order, without any index going out of bounds. *)
Theorem account_strategy_is_linear_scan aggregates :
  Forall aggregate_wf aggregates →
  (∃ s, FilterAccountsStrategy_build aggregates = Done s ∧
     FilterAccountsStrategy_aggregates s = aggregates) ∧
  (¬ merge_hint_gap aggregates →
   ∀ s account, FilterAccountsStrategy_build aggregates = Done s →
     FilterAccountsStrategy_get_filters s account
     = LinearScanFilter_get_filters aggregates account).
Proof.
  intros Hwf. split; [apply build_total|]. intros Hgap s account Hs.
  destruct (build_spec aggregates Hwf Hgap) as (s' & Hs' & _ & Heq).
  rewrite Hs in Hs'. injection Hs' as <-. apply Heq.
Qed.

(** The excluded shape is a real loss: 65536 filters that each name the
    same account key and owner and also carry a cuckoo filter exceed the index
    budget, the merge over the owner axis is chosen, and it tells every filter
    that its explicit account list missed; an account with that key and owner
    matches all of the filters and none of them is reported. *)
Theorem account_merge_drops_matches pk ow account :
  ai_pubkey account = pk → ai_owner account = ow →
  let aggregates := gap_aggregate pk ow <$> seq 0 (Z.to_nat 65536) in
  LinearScanFilter_get_filters aggregates account = Done (faa_filter_name <$> aggregates) ∧
  ∃ s, FilterAccountsStrategy_build aggregates = Done s ∧
    FilterAccountsStrategy_get_filters s account = Done [].
Proof.
  intros Hpk How aggregates. split.
  - unfold LinearScanFilter_get_filters, aggregates. generalize (seq 0 (Z.to_nat 65536)) as l.
    induction l as [|i l IH]; [done|]. rewrite !fmap_cons. cbn [filter_mapM].
    assert (match_filter (gap_aggregate pk ow i) account None None
      = Done (Some (faa_filter_name (gap_aggregate pk ow i)))) as ->.
    { unfold match_filter, match_account, match_owner, match_txn_signature, match_data_lamports.
      cbn [faa_txn_signature faa_accounts faa_accounts_cuckoo faa_owners faa_account_state
        faa_filter_name gap_aggregate negb].
      rewrite andb_false_r, Hpk, How, !bool_decide_true by by apply elem_of_singleton. done. }
    by rewrite IH.
  - destruct (build_single_axis aggregates) as (owners & owner_any & -> & H2 & H4).
    + apply gap_memory.
    + unfold aggregates. rewrite length_fmap, length_seq. lia.
    + apply Forall_fmap, Forall_forall. intros i _. by right.
    + intros Hall. assert (owner_any_of (gap_aggregate pk ow 0)) as Ho; [|done].
      rewrite Forall_forall in Hall. apply Hall. unfold aggregates. apply list_elem_of_fmap.
      exists 0. split; [done|]. apply elem_of_seq. lia.
    + eexists. split; [done|]. apply single_axis_unhinted; [|done..].
      intros a b (i & -> & _)%list_elem_of_fmap. unfold match_filter, match_account.
      cbn [faa_txn_signature faa_accounts faa_accounts_cuckoo gap_aggregate match_txn_signature negb].
      by rewrite andb_false_r, empty_cuckoo_contains.
Qed.

Lemma account_updates_ok configs limits ns f ns' message data_slice :
  FilterAccounts_new configs limits ns = Done (Ok f, ns') →
  Forall (λ c, offsets_ok (rfa_filters c.2)) configs →
  ¬ merge_hint_gap (FilterAccounts_aggregates f) →
  (len configs <= fla_max limits)%Z ∧
  ∃ filters,
    FilterAccounts_get_updates f message data_slice
    = Done (filtered_updates_once filters (FilteredUpdateOneof_account message data_slice)
              (ma_created_at message)) ∧
    ∀ name, name ∈ fname_text <$> filters ↔
      ∃ filter, (name, filter) ∈ configs ∧ config_matches filter (ma_account message).
Proof.
  intros Hnew Hoff Hgap. destruct (FilterAccounts_new_ok _ _ _ _ _ Hnew) as (Hmax & Hb & Hagg).
  split; [done|].
  assert (Forall aggregate_wf (FilterAccounts_aggregates f)) as Hwf.
  { apply Forall_lookup_2. intros i a Ha. destruct (Forall2_lookup_r _ _ _ _ _ Hagg Ha) as (c & _ & Hc).
    by eapply aggregate_of_wf. }
  destruct (build_spec _ Hwf Hgap) as (s & Hs & _ & Heq). rewrite Hb in Hs. injection Hs as <-.
  destruct (linear_scan_configs _ _ _ (ma_account message) Hagg Hoff) as (filters & Hf & Hin).
  exists filters. split; [|done]. unfold FilterAccounts_get_updates. by rewrite Heq, Hf.
Qed.
(** C4. From request to update: when the account section of a request is
    accepted, its limits hold, and (for offsets below 2^64 - 128 and filters
    outside [merge_hint_gap]) an account update is answered, without panic, by
    at most one update message carrying exactly the names of the filters whose
    conditions the account meets: signature presence, key listed explicitly or
    in the cuckoo filter, owner, and every data predicate. *)
Theorem account_filters_spec configs limits ns f ns' message data_slice :
  FilterAccounts_new configs limits ns = Done (Ok f, ns') →
  Forall (λ c, offsets_ok (rfa_filters c.2)) configs →
  ¬ merge_hint_gap (FilterAccounts_aggregates f) →
  (len configs <= fla_max limits)%Z ∧
  ∃ filters,
    FilterAccounts_get_updates f message data_slice
    = Done (filtered_updates_once filters (FilteredUpdateOneof_account message data_slice)
              (ma_created_at message)) ∧
    ∀ name, name ∈ fname_text <$> filters ↔
      ∃ filter, (name, filter) ∈ configs ∧ config_matches filter (ma_account message).
Proof. apply account_updates_ok. Qed.
End claims.

(** ** Witnesses *)

Section witnesses.
#[local] Existing Instance toy_externals.

Definition demo_account (pk ow : Pubkey) : MessageAccountInfo :=
  mkMessageAccountInfo pk 5 ow false 0 [Byte.x01; Byte.x02] 1 None None.

Definition demo_aggregates : list FilterAccountAggregate :=
  [mkFilterAccountAggregate (mkFilterName 0 "a") None (Some {[ [Byte.x41] ]}) None None None;
   mkFilterAccountAggregate (mkFilterName 1 "b") None None None (Some {[ [Byte.x42] ]}) None;
   mkFilterAccountAggregate (mkFilterName 2 "c") None (Some {[ [Byte.x43] ]}) None None None].

Lemma account_strategy_is_linear_scan_witness :
  ∃ s, FilterAccountsStrategy_build demo_aggregates = Done s ∧
    FilterAccountsStrategy_get_filters s (demo_account [Byte.x41] [Byte.x42])
    = LinearScanFilter_get_filters demo_aggregates (demo_account [Byte.x41] [Byte.x42]).
Proof.
  assert (Forall aggregate_wf demo_aggregates) as Hwf by (repeat constructor; done).
  destruct (proj1 (account_strategy_is_linear_scan demo_aggregates Hwf)) as (s & Hs & _).
  exists s. split; [exact Hs|].
  apply (proj2 (account_strategy_is_linear_scan demo_aggregates Hwf)); [|exact Hs].
  intros [Hm _]. revert Hm. vm_compute. discriminate.
Defined.

Lemma account_merge_drops_matches_witness :
  LinearScanFilter_get_filters (gap_aggregate [Byte.x41] [Byte.x42] <$> seq 0 (Z.to_nat 65536))
    (demo_account [Byte.x41] [Byte.x42])
  = Done (faa_filter_name <$> (gap_aggregate [Byte.x41] [Byte.x42] <$> seq 0 (Z.to_nat 65536))).
Proof.
  exact (proj1 (account_merge_drops_matches [Byte.x41] [Byte.x42]
    (demo_account [Byte.x41] [Byte.x42]) eq_refl eq_refl)).
Defined.

Definition demo_configs : hash_map SubscribeRequestFilterAccounts :=
  [("a", mkRequestAccounts ["A"] [] [Some (FilterDatasize 2)] None None);
   ("b", mkRequestAccounts [] ["B"] [] (Some true) None)].

(** The configs are accepted and the index stays below the bitset limit. *)
Definition demo_configs_indexed : bool :=
  match FilterAccounts_new demo_configs FilterLimitsAccounts_default (FilterNames_new 0 10 10 10) with
  | Done (Ok f, _) => (index_memory (FilterAccounts_aggregates f) <=? MAX_BITSET_BYTES)%Z
  | _ => false
  end.

Lemma demo_configs_indexed_true : demo_configs_indexed = true.
Proof. by vm_compute. Qed.

Lemma account_filters_spec_witness :
  ∃ filters,
    (∃ f ns, FilterAccounts_new demo_configs FilterLimitsAccounts_default
       (FilterNames_new 0 10 10 10) = Done (Ok f, ns) ∧
       FilterAccounts_get_updates f (mkMessageAccount (demo_account [Byte.x41] [Byte.x42]) 7 false
         (mkTimestamp 0 0)) []
       = Done (filtered_updates_once filters (FilteredUpdateOneof_account
           (mkMessageAccount (demo_account [Byte.x41] [Byte.x42]) 7 false (mkTimestamp 0 0)) [])
           (mkTimestamp 0 0))) ∧
    ∀ name, name ∈ fname_text <$> filters ↔
      ∃ filter, (name, filter) ∈ demo_configs ∧
        config_matches filter (demo_account [Byte.x41] [Byte.x42]).
Proof.
  pose proof demo_configs_indexed_true as Hok. unfold demo_configs_indexed in Hok.
  destruct (FilterAccounts_new demo_configs FilterLimitsAccounts_default
    (FilterNames_new 0 10 10 10)) as [[[f|e] ns]|] eqn:E; [|discriminate Hok|discriminate Hok].
  assert (Forall (λ c, offsets_ok (rfa_filters c.2)) demo_configs) as Hoff.
  { unfold offsets_ok. apply Forall_cons. split; [by apply Forall_singleton|].
    apply Forall_singleton. by apply Forall_nil. }
  assert (¬ merge_hint_gap (FilterAccounts_aggregates f)) as Hgap.
  { intros [Hm _]. apply Z.leb_le in Hok. lia. }
  destruct (account_filters_spec _ _ _ _ _
    (mkMessageAccount (demo_account [Byte.x41] [Byte.x42]) 7 false (mkTimestamp 0 0)) [] E Hoff Hgap)
    as (_ & filters & Hu & Hin).
  exists filters. split; [|exact Hin]. exists f, ns. split; [reflexivity|exact Hu].
Defined.
End witnesses.
