(* ===== verification/TransactionsFilter.v ===== *)
(** * plugin/filter/filter.rs: transaction and transaction-status filters

    [FilterTransactions], the token-account expansion (owners of token balances,
    and of those that changed) and its two lazily filled cells. The claims: a
    transaction is delivered with exactly the names of the matching configs,
    whatever the cells already hold, and what "changed" means. *)

From S2P Require Import Prelude Storage Externals Proto Message Limits Names FilterBase.
From S2P Require Import DataSlice Cuckoo Updates.

Set Default Goal Selector "!".

Section transactions.
Context {X : Externals}.

(** ** Token balances *)

Definition parse_token_balance_owner (balance : TokenBalance) : option Pubkey :=
  match pubkey_from_str (tb_owner balance) with Ok pk => Some pk | Err _ => None end.

Definition token_balance_amount (balance : TokenBalance) : string :=
  from_option uta_amount "" (tb_ui_token_amount balance).

Definition owners_in_any_balance (meta : TransactionStatusMeta) : gset Pubkey :=
  fold_left (λ owners balance,
      match parse_token_balance_owner balance with
      | Some owner => {[owner]} ∪ owners
      | None => owners
      end)
    (meta_pre_token_balances meta ++ meta_post_token_balances meta) ∅.

(** [FoldHashMap<u32, (Pubkey, &str)>]. *)
Definition index_pre_token_balances (pre : list TokenBalance) : gmap Z (Pubkey * string) :=
  fold_left (λ by_index bal,
      match parse_token_balance_owner bal with
      | Some pubkey => <[tb_account_index bal := (pubkey, token_balance_amount bal)]> by_index
      | None => by_index
      end)
    pre ∅.

(** The body of the loop over the post balances: [(changed, seen_in_post)]. *)
Definition post_balance_step (pre_by_index : gmap Z (Pubkey * string))
    (st : gset Pubkey * gset Z) (bal : TokenBalance) : gset Pubkey * gset Z :=
  let '(changed, seen_in_post) := st in
  match parse_token_balance_owner bal with
  | None => (changed, seen_in_post)
  | Some pubkey =>
      let seen_in_post := {[tb_account_index bal]} ∪ seen_in_post in
      let post_amount := token_balance_amount bal in
      let amount_differs :=
        match pre_by_index !! tb_account_index bal with
        | Some (_, pre_amount) => negb (bool_decide (pre_amount = post_amount))
        | None => true
        end in
      (if amount_differs then {[pubkey]} ∪ changed else changed, seen_in_post)
  end.

Definition owners_with_changed_balance (meta : TransactionStatusMeta) : gset Pubkey :=
  let pre_by_index := index_pre_token_balances (meta_pre_token_balances meta) in
  let '(changed, seen_in_post) :=
    fold_left (post_balance_step pre_by_index) (meta_post_token_balances meta) (∅, ∅) in
  fold_left (λ changed kv,
      if bool_decide (kv.1 ∈ seen_in_post) then changed else {[kv.2.1]} ∪ changed)
    (map_to_list pre_by_index) changed.

(** ** The filters *)

Inductive FilterTransactionsType := TypeTransaction | TypeTransactionStatus.

Inductive TokenAccountsMode := ModeAll | ModeBalanceChanged.

(** [TokenAccountExpansionControlFlag] has the values 0 and 1. *)
Definition TokenAccountsMode_from_proto (value : Z) : FilterResult TokenAccountsMode :=
  match value with
  | 0 => Ok ModeAll
  | 1 => Ok ModeBalanceChanged
  | _ => Err (ErrInvalidTokenAccountsMode value)
  end%Z.

Record FilterTransactionsInner := mkFilterTransactionsInner {
  fti_vote : option bool;
  fti_failed : option bool;
  fti_signature : option Signature;
  fti_account_include : HybridSet;
  fti_account_exclude : HybridSet;
  fti_account_required : list Pubkey;
  fti_account_cuckoo : option (CuckooFilter YellowstoneHasherBuilder);
  fti_token_accounts : option TokenAccountsMode
}.

Record FilterTransactions := mkFilterTransactions {
  ft_filter_type : FilterTransactionsType;
  ft_filters : name_map FilterTransactionsInner
}.

Local Open Scope named_scope.

(** [option.map(f).transpose()?]. *)
Definition lift_option {A B} (f : A → FilterResult B) (o : option A) : named (option B) :=
  match o with
  | None => named_ret None
  | Some a => let* b := lift (f a) in named_ret (Some b)
  end.

Definition option_none {A} (o : option A) : bool :=
  match o with None => true | Some _ => false end.

(** The cuckoo filter of a transaction or block filter, within the size limit. *)
Definition decode_cuckoo (max_size : Z) (o : option ProtoCuckooFilter)
    : named (option (CuckooFilter YellowstoneHasherBuilder)) :=
  match o with
  | Some proto_cuckoo =>
      let* _ := lift_check (check_max (len (pcf_data proto_cuckoo)) max_size) in
      named_ret (Some (CuckooFilter_from_proto proto_cuckoo))
  | None => named_ret None
  end.

Definition parse_signature (signature_str : string) : FilterResult Signature :=
  map_err ErrInvalidSignature (signature_from_str signature_str).

(** The body of the loop of [FilterTransactions::new]. *)
Definition FilterTransactions_inner (limits : FilterLimitsTransactions)
    (config : string * SubscribeRequestFilterTransactions)
    : named (FilterName * FilterTransactionsInner) :=
  let '(name, filter) := config in
  let* _ := lift_check (check_any
    (option_none (rft_vote filter) && option_none (rft_failed filter)
     && bool_decide (rft_account_include filter = [])
     && option_none (rft_cuckoo_account_include filter)
     && bool_decide (rft_account_exclude filter = [])
     && bool_decide (rft_account_required filter = [])
     && option_none (rft_token_accounts filter)) (flt_any limits)) in
  let* _ := lift_check (check_pubkey_max (len (rft_account_include filter)) (flt_account_include_max limits)) in
  let* _ := lift_check (check_pubkey_max (len (rft_account_exclude filter)) (flt_account_exclude_max limits)) in
  let* _ := lift_check (check_pubkey_max (len (rft_account_required filter)) (flt_account_required_max limits)) in
  let* account_cuckoo := decode_cuckoo (flt_cuckoo_max_size limits) (rft_cuckoo_account_include filter) in
  let* filter_name := names_get name in
  let* signature := lift_option parse_signature (rft_signature filter) in
  let* account_include := lift (decode_pubkeys_into_set (rft_account_include filter) (flt_account_include_reject limits)) in
  let* account_exclude := lift (decode_pubkeys_into_set (rft_account_exclude filter) ∅) in
  let* account_required := lift (decode_pubkeys_into_set (rft_account_required filter) ∅) in
  let* token_accounts := lift_option TokenAccountsMode_from_proto (rft_token_accounts filter) in
  named_ret (filter_name,
    {| fti_vote := rft_vote filter;
       fti_failed := rft_failed filter;
       fti_signature := signature;
       fti_account_include := HybridSet_new_with_set account_include;
       fti_account_exclude := HybridSet_new_with_set account_exclude;
       fti_account_required := elements account_required;
       fti_account_cuckoo := account_cuckoo;
       fti_token_accounts := token_accounts |}).

Definition FilterTransactions_new (configs : hash_map SubscribeRequestFilterTransactions)
    (limits : FilterLimitsTransactions) (filter_type : FilterTransactionsType)
    : named FilterTransactions :=
  let* _ := lift_check (check_max (len configs) (flt_max limits)) in
  let* filters := named_collect_map (FilterTransactions_inner limits) configs in
  named_ret {| ft_filter_type := filter_type; ft_filters := filters |}.

(** [OnceLock::get_or_init]: the value, and the cell afterwards. *)
Definition get_or_init {A} (cell : option A) (init : A) : A * option A :=
  match cell with Some a => (a, cell) | None => (init, Some init) end.

(** The owner set of the mode, and the transaction with its cells afterwards. *)
Definition token_owners (mode : option TokenAccountsMode) (t : MessageTransactionInfo)
    : option (gset Pubkey) * MessageTransactionInfo :=
  match mode with
  | None => (None, t)
  | Some ModeAll =>
      let '(owners, cell) := get_or_init (ti_token_owners_all t) (owners_in_any_balance (ti_meta t)) in
      (Some owners,
       mkMessageTransactionInfo (ti_signature t) (ti_is_vote t) (ti_transaction t) (ti_meta t)
         (ti_index t) (ti_account_keys t) (ti_pre_encoded t) cell (ti_token_owners_changed t))
  | Some ModeBalanceChanged =>
      let '(owners, cell) := get_or_init (ti_token_owners_changed t) (owners_with_changed_balance (ti_meta t)) in
      (Some owners,
       mkMessageTransactionInfo (ti_signature t) (ti_is_vote t) (ti_transaction t) (ti_meta t)
         (ti_index t) (ti_account_keys t) (ti_pre_encoded t) (ti_token_owners_all t) cell)
  end.

Local Close Scope named_scope.

(** The guards of the closure that precede the token owners. *)
Definition FilterTransactionsInner_precheck (inner : FilterTransactionsInner)
    (t : MessageTransactionInfo) : bool :=
  match fti_vote inner with
  | Some is_vote => eqb is_vote (ti_is_vote t)
  | None => true
  end &&
  match fti_failed inner with
  | Some is_failed => eqb is_failed (bool_decide (is_Some (meta_err (ti_meta t))))
  | None => true
  end &&
  match fti_signature inner with
  | Some signature => bool_decide (Some signature = head (tx_signatures (ti_transaction t)))
  | None => true
  end.

(** The include test: explicit keys first, the cuckoo filter when they miss. *)
Definition account_included (inner : FilterTransactionsInner) (effective_len : Z)
    (in_effective_set : Pubkey → bool) (effective_keys : list Pubkey) : outcome bool :=
  if negb (HybridSet_is_empty (fti_account_include inner)
           && option_none (fti_account_cuckoo inner)) then
    let include_hit :=
      negb (HybridSet_is_empty (fti_account_include inner))
      && HybridSet_overlaps (fti_account_include inner) effective_len in_effective_set effective_keys in
    if include_hit then Done true
    else match fti_account_cuckoo inner with
         | Some cuckoo => anyM (λ pk : Pubkey, CuckooFilter_contains cuckoo pk) effective_keys
         | None => Done false
         end
  else Done true.

(** The rest of the closure: required, include and exclude on the effective keys. *)
Definition FilterTransactionsInner_accounts (inner : FilterTransactionsInner)
    (account_keys : gset Pubkey) (owners : option (gset Pubkey)) : outcome bool :=
  let in_effective_set pubkey :=
    bool_decide (pubkey ∈ account_keys)
    || match owners with Some set => bool_decide (pubkey ∈ set) | None => false end in
  let effective_keys :=
    elements account_keys ++ match owners with Some set => elements set | None => [] end in
  if negb (all in_effective_set (fti_account_required inner)) then Done false
  else
    let effective_len :=
      (Z.of_nat (size account_keys)
       + match owners with Some set => Z.of_nat (size set) | None => 0 end)%Z in
    account_included inner effective_len in_effective_set effective_keys ≫= λ included : bool,
    if negb included then Done false
    else if negb (HybridSet_is_empty (fti_account_exclude inner))
            && HybridSet_overlaps (fti_account_exclude inner) effective_len in_effective_set effective_keys
         then Done false
    else Done true.

(** The closure of [filter_map]: does the filter select the transaction, and
    the transaction with its cells afterwards. *)
Definition FilterTransactionsInner_matches (inner : FilterTransactionsInner)
    (t : MessageTransactionInfo) : outcome (bool * MessageTransactionInfo) :=
  if FilterTransactionsInner_precheck inner t then
    let '(owners, t) := token_owners (fti_token_accounts inner) t in
    FilterTransactionsInner_accounts inner (ti_account_keys t) owners ≫= λ b, Done (b, t)
  else Done (false, t).

Fixpoint FilterTransactions_select (filters : name_map FilterTransactionsInner)
    (t : MessageTransactionInfo) : outcome (FilteredUpdateFilters * MessageTransactionInfo) :=
  match filters with
  | [] => Done ([], t)
  | (name, inner) :: filters =>
      FilterTransactionsInner_matches inner t ≫= λ '((b, t) : bool * _),
      FilterTransactions_select filters t ≫= λ '(names, t),
      Done (if b then name :: names else names, t)
  end.

(** The updates, and the message with its cells afterwards (the updates share
    its allocation, so they hold the same message). *)
Definition FilterTransactions_get_updates (f : FilterTransactions) (message : MessageTransaction)
    : outcome (FilteredUpdates * MessageTransaction) :=
  '(filters, t) ← FilterTransactions_select (ft_filters f) (mt_transaction message);
  let message := mkMessageTransaction t (mt_slot message) (mt_created_at message) in
  Done (filtered_updates_once filters
      match ft_filter_type f with
      | TypeTransaction => FilteredUpdateOneof_transaction message
      | TypeTransactionStatus => FuTransactionStatus message
      end (mt_created_at message), message).
End transactions.

(** ** What changed balances mean *)

Section balances.
Context {X : Externals}.

(** The owner and amount a balance gives for an account index. *)
Definition balance_at (i : Z) (bal : TokenBalance) : option (Pubkey * string) :=
  if decide (tb_account_index bal = i)
  then (λ pk, (pk, token_balance_amount bal)) <$> parse_token_balance_owner bal
  else None.

(** The last parseable balance of an index wins, as in a map filled in order. *)
Definition last_balance (l : list TokenBalance) (i : Z) : option (Pubkey * string) :=
  last (omap (balance_at i) l).

(** An owner's balance changed: a post balance of the owner differs from the
    index's pre balance or has none, or the index of a pre balance of the owner
    has no post balance any more. *)
Definition balance_changed (meta : TransactionStatusMeta) (pk : Pubkey) : Prop :=
  (∃ bal, bal ∈ meta_post_token_balances meta ∧ parse_token_balance_owner bal = Some pk ∧
     ∀ pk' amount, last_balance (meta_pre_token_balances meta) (tb_account_index bal) = Some (pk', amount) →
       amount ≠ token_balance_amount bal) ∨
  (∃ i amount, last_balance (meta_pre_token_balances meta) i = Some (pk, amount) ∧
     ∀ bal, bal ∈ meta_post_token_balances meta → tb_account_index bal = i →
       parse_token_balance_owner bal = None).

Lemma elem_of_owners_in_any_balance meta pk :
  pk ∈ owners_in_any_balance meta ↔
  ∃ bal, bal ∈ meta_pre_token_balances meta ++ meta_post_token_balances meta ∧
    parse_token_balance_owner bal = Some pk.
Proof.
  unfold owners_in_any_balance. generalize (meta_pre_token_balances meta ++ meta_post_token_balances meta).
  intros l. induction l as [|bal l IH] using rev_ind; [set_solver|].
  rewrite fold_left_app. simpl.
  setoid_rewrite elem_of_app. setoid_rewrite list_elem_of_singleton.
  destruct (parse_token_balance_owner bal) as [owner|] eqn:E; [rewrite elem_of_union, elem_of_singleton|];
    rewrite IH; naive_solver.
Qed.

Lemma index_pre_lookup pre i : index_pre_token_balances pre !! i = last_balance pre i.
Proof.
  unfold index_pre_token_balances, last_balance.
  induction pre as [|bal pre IH] using rev_ind; [done|].
  rewrite fold_left_app, omap_app, last_app. simpl. unfold balance_at at 1.
  destruct (parse_token_balance_owner bal) as [pk|]; simpl.
  - rewrite lookup_insert. case_decide; simpl; [done|apply IH].
  - case_decide; simpl; apply IH.
Qed.

(** The loop over the post balances. *)
Lemma post_loop_spec m l changed seen :
  fold_left (post_balance_step m) l (∅, ∅) = (changed, seen) →
  (∀ pk, pk ∈ changed ↔ ∃ bal, bal ∈ l ∧ parse_token_balance_owner bal = Some pk ∧
     ∀ pk' amount, m !! tb_account_index bal = Some (pk', amount) →
       amount ≠ token_balance_amount bal) ∧
  (∀ i, i ∈ seen ↔ ∃ bal, bal ∈ l ∧ tb_account_index bal = i ∧
     is_Some (parse_token_balance_owner bal)).
Proof.
  revert changed seen. induction l as [|bal l IH] using rev_ind; intros changed seen.
  { intros [= <- <-]. set_solver. }
  rewrite fold_left_app. destruct (fold_left _ l _) as [c s]. destruct (IH c s eq_refl) as [IH1 IH2].
  simpl. setoid_rewrite elem_of_app. setoid_rewrite list_elem_of_singleton.
  destruct (parse_token_balance_owner bal) as [pk0|] eqn:E.
  2:{ intros [= <- <-]. split; intros ?; [rewrite IH1|rewrite IH2]; [naive_solver|].
      split; [naive_solver|]. intros (b & [?| ->] & <- & Hb); [eauto|]. rewrite E in Hb. by destruct Hb. }
  intros [= <- <-]. split.
  - intros pk. assert (pk ∈ c ∨ (pk = pk0 ∧ ∀ pk' amount, m !! tb_account_index bal = Some (pk', amount) →
        amount ≠ token_balance_amount bal) ↔ ∃ b, (b ∈ l ∨ b = bal) ∧
        parse_token_balance_owner b = Some pk ∧ ∀ pk' amount, m !! tb_account_index b = Some (pk', amount) →
        amount ≠ token_balance_amount b) as <- by (rewrite IH1; naive_solver).
    destruct (m !! tb_account_index bal) as [[pk' amount]|].
    + case_bool_decide; simpl; [|rewrite elem_of_union, elem_of_singleton]; naive_solver.
    + rewrite elem_of_union, elem_of_singleton. naive_solver.
  - intros i. rewrite elem_of_union, elem_of_singleton, IH2. naive_solver.
Qed.

(** The loop over the pre balances that looks for closed accounts. *)
Lemma closed_loop_spec (seen : gset Z) (l : list (Z * (Pubkey * string))) (changed : gset Pubkey) pk :
  pk ∈ fold_left (λ changed kv,
      if bool_decide (kv.1 ∈ seen) then changed else {[kv.2.1]} ∪ changed) l changed ↔
  pk ∈ changed ∨ ∃ kv, kv ∈ l ∧ (kv.1 ∉ seen) ∧ kv.2.1 = pk.
Proof.
  induction l as [|kv l IH] using rev_ind; [set_solver|].
  rewrite fold_left_app. cbn [fold_left]. setoid_rewrite elem_of_app.
  setoid_rewrite list_elem_of_singleton.
  case_bool_decide; [|rewrite elem_of_union, elem_of_singleton]; rewrite IH; naive_solver.
Qed.

Lemma elem_of_owners_with_changed_balance (meta : TransactionStatusMeta) (pk : Pubkey) :
  pk ∈ owners_with_changed_balance meta ↔ balance_changed meta pk.
Proof.
  unfold owners_with_changed_balance, balance_changed.
  destruct (fold_left _ (meta_post_token_balances meta) _) as [changed seen] eqn:E.
  apply post_loop_spec in E as [H1 H2]. rewrite closed_loop_spec, H1.
  setoid_rewrite index_pre_lookup. f_equiv. split.
  - intros ([i [pk' amount]] & Hin & Hs & Heq). cbn [fst snd] in *. subst pk'.
    apply elem_of_map_to_list in Hin. rewrite index_pre_lookup in Hin.
    exists i, amount. split; [done|]. intros bal Hb Hi.
    destruct (parse_token_balance_owner bal) eqn:Ep; [|done].
    exfalso. apply Hs, H2. eauto.
  - intros (i & amount & Hl & Hall). exists (i, (pk, amount)). cbn [fst snd].
    split; [apply elem_of_map_to_list; by rewrite index_pre_lookup|]. split; [|done].
    intros (bal & Hb & Hi & [o Ho])%H2. rewrite (Hall _ Hb Hi) in Ho. done.
Qed.

(** The owners that [BalanceChanged] expansion adds: an owner is in the set
    exactly when one of its post balances differs from the pre balance recorded
    for the same account index (or there was none), or an account index it held
    before has no parseable post balance. Balances whose owner does not parse
    are ignored, and of several pre balances with one index the last counts. *)
Theorem changed_owners_spec (meta : TransactionStatusMeta) (pk : Pubkey) :
  pk ∈ owners_with_changed_balance meta ↔ balance_changed meta pk.
Proof. apply elem_of_owners_with_changed_balance. Qed.

(** The empty amount stands for a missing one. When exactly one side is
    missing its amount the owner reads as changed; when both are missing the
    two empty strings are equal and the owner reads as unchanged. *)
Theorem missing_amounts_read_unchanged (index : Z) (owner : string) (pk : Pubkey)
    (ui : UiTokenAmount) (mint program : string) :
  pubkey_from_str owner = Ok pk → uta_amount ui ≠ "" →
  let missing := mkTokenBalance index mint None owner program in
  let present := mkTokenBalance index mint (Some ui) owner program in
  pk ∈ owners_with_changed_balance (meta_with_balances [present] [missing]) ∧
  pk ∈ owners_with_changed_balance (meta_with_balances [missing] [present]) ∧
  pk ∉ owners_with_changed_balance (meta_with_balances [missing] [missing]).
Proof.
  intros Hpk Hne missing present.
  assert (∀ o, parse_token_balance_owner (mkTokenBalance index mint o owner program) = Some pk) as Hp
    by (intros o; unfold parse_token_balance_owner; simpl; by rewrite Hpk).
  unfold owners_with_changed_balance, index_pre_token_balances, post_balance_step. simpl.
  subst missing present. rewrite !Hp. simpl. rewrite !insert_empty, !lookup_singleton_eq. simpl.
  rewrite !map_to_list_singleton. simpl.
  rewrite !bool_decide_true by set_solver. simpl.
  rewrite !bool_decide_false by done. simpl. set_solver.
Qed.
End balances.

(** ** Correctness of the filters *)

Section spec.
Context {X : Externals}.

(** The cells hold nothing or what their initialiser computes. *)
Definition cells_ok (t : MessageTransactionInfo) : Prop :=
  (∀ s, ti_token_owners_all t = Some s → s = owners_in_any_balance (ti_meta t)) ∧
  (∀ s, ti_token_owners_changed t = Some s → s = owners_with_changed_balance (ti_meta t)).

(** The same transaction, the two cells of token owners aside. *)
Definition forget_cells (t : MessageTransactionInfo) : MessageTransactionInfo :=
  mkMessageTransactionInfo (ti_signature t) (ti_is_vote t) (ti_transaction t) (ti_meta t)
    (ti_index t) (ti_account_keys t) (ti_pre_encoded t) None None.

(** The keys a request filter looks at. *)
Definition effective_key (filter : SubscribeRequestFilterTransactions)
    (t : MessageTransactionInfo) (pk : Pubkey) : Prop :=
  pk ∈ ti_account_keys t
  ∨ (rft_token_accounts filter = Some 0%Z ∧ ∃ bal,
       bal ∈ meta_pre_token_balances (ti_meta t) ++ meta_post_token_balances (ti_meta t) ∧
       parse_token_balance_owner bal = Some pk)
  ∨ (rft_token_accounts filter = Some 1%Z ∧ balance_changed (ti_meta t) pk).

(** Some key of the list parses to an effective key. *)
Definition mentions (filter : SubscribeRequestFilterTransactions) (t : MessageTransactionInfo)
    (l : list string) : Prop :=
  ∃ str pk, str ∈ l ∧ pubkey_from_str str = Ok pk ∧ effective_key filter t pk.

(** What a request's transaction filter asks for. *)
Definition tx_config_matches (filter : SubscribeRequestFilterTransactions)
    (t : MessageTransactionInfo) : Prop :=
  (∀ b, rft_vote filter = Some b → b = ti_is_vote t) ∧
  (∀ b, rft_failed filter = Some b → (b = true ↔ is_Some (meta_err (ti_meta t)))) ∧
  (∀ str, rft_signature filter = Some str →
     ∃ sg, signature_from_str str = Ok sg ∧ head (tx_signatures (ti_transaction t)) = Some sg) ∧
  (∀ str pk, str ∈ rft_account_required filter → pubkey_from_str str = Ok pk →
     effective_key filter t pk) ∧
  ((rft_account_include filter = [] ∧ rft_cuckoo_account_include filter = None) ∨
   mentions filter t (rft_account_include filter) ∨
   (∃ p pk, rft_cuckoo_account_include filter = Some p ∧ effective_key filter t pk ∧
      CuckooFilter_contains (CuckooFilter_from_proto p) pk = Done true)) ∧
  ¬ mentions filter t (rft_account_exclude filter).

(** The keys parsed from a list of strings. *)
Definition keys_of (l : list string) (s : gset Pubkey) : Prop :=
  (∀ pk, pk ∈ s ↔ ∃ str, str ∈ l ∧ pubkey_from_str str = Ok pk) ∧ (s = ∅ → l = []).

Lemma keys_of_decode l limit s : decode_pubkeys_into_set l limit = Ok s → keys_of l s.
Proof.
  intros H. split; [by eapply decode_pubkeys_into_set_ok|]. intros Hs.
  destruct l as [|x l]; [done|]. by eapply decode_pubkeys_into_set_nonempty in H.
Qed.

(** The inner filter parsed from a config. *)
Record tx_inner_of (filter : SubscribeRequestFilterTransactions) (inner : FilterTransactionsInner)
    : Prop := {
  tio_vote : fti_vote inner = rft_vote filter;
  tio_failed : fti_failed inner = rft_failed filter;
  tio_signature : match rft_signature filter with
    | None => fti_signature inner = None
    | Some str => ∃ sg, signature_from_str str = Ok sg ∧ fti_signature inner = Some sg
    end;
  tio_include : ∃ s, fti_account_include inner = HybridSet_new_with_set s ∧
    keys_of (rft_account_include filter) s;
  tio_exclude : ∃ s, fti_account_exclude inner = HybridSet_new_with_set s ∧
    keys_of (rft_account_exclude filter) s;
  tio_required : ∃ s, fti_account_required inner = elements s ∧
    keys_of (rft_account_required filter) s;
  tio_cuckoo : fti_account_cuckoo inner = CuckooFilter_from_proto <$> rft_cuckoo_account_include filter;
  tio_mode : match rft_token_accounts filter with
    | None => fti_token_accounts inner = None
    | Some v => ∃ mode, TokenAccountsMode_from_proto v = Ok mode ∧ fti_token_accounts inner = Some mode
    end
}.

Lemma lift_option_ok {A B} (f : A → FilterResult B) o ns r ns' :
  lift_option f o ns = (Ok r, ns') →
  match o with None => r = None | Some a => ∃ b, f a = Ok b ∧ r = Some b end.
Proof.
  destruct o as [a|]; simpl; [|by intros [= <- _]].
  rewrite named_bind_ok. intros (b & n & Hb & Hr). apply lift_ok in Hb as [Hb _].
  injection Hr as <- _. eauto.
Qed.

Lemma decode_cuckoo_ok max_size o ns r ns' :
  decode_cuckoo max_size o ns = (Ok r, ns') →
  r = CuckooFilter_from_proto <$> o ∧ ∀ p, o = Some p → (len (pcf_data p) <= max_size)%Z.
Proof.
  destruct o as [p|]; simpl; [|by intros [= <- _]].
  rewrite named_bind_ok. intros ([] & n & Hb & Hr). apply lift_check_ok in Hb as [Hb ->].
  injection Hr as <- _. apply check_max_ok in Hb. split; [done|]. by intros ? [= <-].
Qed.

Lemma tx_inner_spec limits c kv ns ns' :
  FilterTransactions_inner limits c ns = (Ok kv, ns') →
  fname_text kv.1 = c.1 ∧ tx_inner_of c.2 kv.2.
Proof.
  destruct c as [name filter]. unfold FilterTransactions_inner. intros Hrun.
  apply named_bind_ok in Hrun as (_ & n1 & _ & Hrun).
  apply named_bind_ok in Hrun as (_ & n2 & _ & Hrun).
  apply named_bind_ok in Hrun as (_ & n3 & _ & Hrun).
  apply named_bind_ok in Hrun as (_ & n4 & _ & Hrun).
  apply named_bind_ok in Hrun as (cuckoo & n5 & Hck & Hrun). apply decode_cuckoo_ok in Hck as [Hck _].
  apply named_bind_ok in Hrun as (h & n6 & Hname & Hrun). apply names_get_ok in Hname.
  apply named_bind_ok in Hrun as (sg & n7 & Hsg & Hrun). apply lift_option_ok in Hsg.
  apply named_bind_ok in Hrun as (inc & n8 & Hinc & Hrun). apply lift_ok in Hinc as [Hinc _].
  apply named_bind_ok in Hrun as (exc & n9 & Hexc & Hrun). apply lift_ok in Hexc as [Hexc _].
  apply named_bind_ok in Hrun as (req & n10 & Hreq & Hrun). apply lift_ok in Hreq as [Hreq _].
  apply named_bind_ok in Hrun as (mode & n11 & Hmode & Hrun). apply lift_option_ok in Hmode.
  injection Hrun as <- _. split; [done|]. split; cbn; eauto using keys_of_decode.
  destruct (rft_signature filter) as [str|]; [|done]. destruct Hsg as (b & Hb & ->).
  exists b. split; [|done]. unfold parse_signature in Hb. destruct (signature_from_str str); simpl in Hb; by inv_done.
Qed.

Lemma token_owners_spec mode t :
  cells_ok t →
  ∃ t', token_owners mode t =
    ((λ m, match m with
           | ModeAll => owners_in_any_balance (ti_meta t)
           | ModeBalanceChanged => owners_with_changed_balance (ti_meta t)
           end) <$> mode, t') ∧ cells_ok t' ∧ forget_cells t' = forget_cells t.
Proof.
  intros [H1 H2]. destruct mode as [[]|]; unfold token_owners, get_or_init; [..|by exists t].
  - destruct (ti_token_owners_all t) as [s|] eqn:E.
    + rewrite (H1 s eq_refl). eexists. split; [done|]. split; [|done]. split; simpl; [by intros ? [= <-]|done].
    + eexists. split; [done|]. split; [|done]. split; simpl; [by intros ? [= <-]|done].
  - destruct (ti_token_owners_changed t) as [s|] eqn:E.
    + rewrite (H2 s eq_refl). eexists. split; [done|]. split; [|done]. split; simpl; [done|by intros ? [= <-]].
    + eexists. split; [done|]. split; [|done]. split; simpl; [done|by intros ? [= <-]].
Qed.

(** A non-empty set overlaps the effective keys, or is empty and does not count. *)
Lemma nonempty_overlaps s n in_eff effl :
  (∀ pk, in_eff pk = true ↔ pk ∈ effl) →
  negb (HybridSet_is_empty (HybridSet_new_with_set s))
  && HybridSet_overlaps (HybridSet_new_with_set s) n in_eff effl = true
  ↔ ∃ pk, pk ∈ s ∧ pk ∈ effl.
Proof.
  intros Hin. rewrite andb_true_iff, HybridSet_overlaps_spec by done.
  rewrite HybridSet_is_empty_new, negb_true_iff, bool_decide_eq_false. set_solver.
Qed.

Lemma account_included_spec inner s n in_eff effl :
  fti_account_include inner = HybridSet_new_with_set s →
  (∀ c, fti_account_cuckoo inner = Some c → cf_wf c) →
  (∀ pk, in_eff pk = true ↔ pk ∈ effl) →
  ∃ b, account_included inner n in_eff effl = Done b ∧ (b = true ↔
    (s = ∅ ∧ fti_account_cuckoo inner = None) ∨
    (∃ pk, pk ∈ s ∧ pk ∈ effl) ∨
    (∃ c pk, fti_account_cuckoo inner = Some c ∧ pk ∈ effl ∧ CuckooFilter_contains c pk = Done true)).
Proof.
  intros Hinc Hwf Hin. unfold account_included. rewrite Hinc.
  pose proof (nonempty_overlaps s n in_eff effl Hin) as Hov.
  destruct (fti_account_cuckoo inner) as [c|] eqn:Ec; cbn [option_none];
    rewrite ?andb_false_r, ?andb_true_r; cbn [negb].
  - destruct (_ && _).
    { exists true. split; [done|]. split; [|done]. intros _. right; left. by apply Hov. }
    destruct (anyM_total (λ pk : Pubkey, CuckooFilter_contains c pk) effl) as (b & -> & Hb).
    { intros pk _. eexists. by apply contains_spec, Hwf. }
    exists b. split; [done|]. rewrite Hb. split; [intros (pk & ? & ?); eauto 10|].
    intros [[_ ?]|[Hx|(c' & pk & [= <-] & ? & ?)]]; [done|by apply Hov in Hx|eauto].
  - rewrite HybridSet_is_empty_new in *. case_bool_decide; cbn [negb andb] in *.
    { exists true. split; [done|]. split; [by left|done]. }
    destruct (HybridSet_overlaps _ _ _ _).
    { exists true. split; [done|]. split; [|done]. intros _. right; left. by apply Hov. }
    exists false. split; [done|].
    split; [done|]. intros [[? _]|[Hx|(? & ? & [=] & _)]]; [done|by apply Hov in Hx].
Qed.

(** The decision on the account lists, for any effective keys. *)
Lemma inner_accounts_spec inner keys owners s_inc s_exc :
  fti_account_include inner = HybridSet_new_with_set s_inc →
  fti_account_exclude inner = HybridSet_new_with_set s_exc →
  (∀ c, fti_account_cuckoo inner = Some c → cf_wf c) →
  let eff pk := pk ∈ keys ∨ ∃ s, owners = Some s ∧ pk ∈ s in
  ∃ b, FilterTransactionsInner_accounts inner keys owners = Done b ∧ (b = true ↔
    (∀ pk, pk ∈ fti_account_required inner → eff pk) ∧
    ((s_inc = ∅ ∧ fti_account_cuckoo inner = None) ∨
     (∃ pk, pk ∈ s_inc ∧ eff pk) ∨
     (∃ c pk, fti_account_cuckoo inner = Some c ∧ eff pk ∧ CuckooFilter_contains c pk = Done true)) ∧
    ¬ ∃ pk, pk ∈ s_exc ∧ eff pk).
Proof.
  intros Hinc Hexc Hwf eff. unfold FilterTransactionsInner_accounts.
  set (in_eff := λ pk : Pubkey, _ || _). set (effl := elements keys ++ _). set (n := (_ + _)%Z).
  assert (∀ pk, in_eff pk = true ↔ eff pk) as Hin.
  { intros pk. unfold in_eff, eff. rewrite orb_true_iff, bool_decide_eq_true.
    destruct owners as [s|]; [rewrite bool_decide_eq_true|]; naive_solver. }
  assert (∀ pk, pk ∈ effl ↔ eff pk) as Hel.
  { intros pk. unfold effl, eff. rewrite elem_of_app, elem_of_elements.
    destruct owners as [s|]; [rewrite elem_of_elements|rewrite elem_of_nil]; naive_solver. }
  clearbody in_eff effl n. setoid_rewrite <- Hel. setoid_rewrite <- Hel in Hin. clear eff Hel.
  destruct (all in_eff _) eqn:Ereq; cbn [negb].
  2:{ exists false. split; [done|]. split; [done|]. intros (Hreq & _).
      rewrite <- not_true_iff_false in Ereq. exfalso. apply Ereq, forallb_In.
      intros pk Hpk. by apply Hin, Hreq. }
  rewrite forallb_In in Ereq. setoid_rewrite Hin in Ereq.
  destruct (account_included_spec inner s_inc n in_eff effl Hinc Hwf Hin) as (i & -> & Hi).
  rewrite outcome_bind_done. rewrite Hexc.
  pose proof (nonempty_overlaps s_exc n in_eff effl Hin) as Hov.
  destruct i; cbn [negb]; [destruct (_ && _)|].
  - exists false. split; [done|]. split; [done|]. intros (_ & _ & H). exfalso. by apply H, Hov.
  - exists true. split; [done|]. split; [|done]. intros _. split; [done|]. split; [by apply Hi|].
    intros H. by apply Hov in H.
  - exists false. split; [done|]. split; [done|]. intros (_ & H & _). by apply Hi in H.
Qed.

(** Matching does not depend on the cells. *)
Lemma config_matches_forget filter t t' :
  forget_cells t' = forget_cells t → tx_config_matches filter t' ↔ tx_config_matches filter t.
Proof.
  intros H. change (tx_config_matches filter (forget_cells t') ↔ tx_config_matches filter (forget_cells t)).
  by rewrite H.
Qed.

Lemma precheck_spec filter inner t :
  tx_inner_of filter inner →
  FilterTransactionsInner_precheck inner t = true ↔
  (∀ b, rft_vote filter = Some b → b = ti_is_vote t) ∧
  (∀ b, rft_failed filter = Some b → (b = true ↔ is_Some (meta_err (ti_meta t)))) ∧
  (∀ str, rft_signature filter = Some str →
     ∃ sg, signature_from_str str = Ok sg ∧ head (tx_signatures (ti_transaction t)) = Some sg).
Proof.
  intros [Hv Hf Hs _ _ _ _ _]. unfold FilterTransactionsInner_precheck. rewrite !andb_true_iff, Hv, Hf.
  rewrite (and_assoc (∀ b, rft_vote filter = Some b → b = ti_is_vote t)). f_equiv; [f_equiv|].
  - destruct (rft_vote filter) as [b|]; [rewrite eqb_true_iff|]; naive_solver.
  - destruct (rft_failed filter) as [b|]; [|naive_solver]. rewrite eqb_true_iff. split.
    + intros -> b' [= <-]. apply bool_decide_eq_true.
    + intros H. apply eq_true_iff_eq. by rewrite (H b eq_refl), bool_decide_eq_true.
  - destruct (rft_signature filter) as [str|]; [|rewrite Hs; naive_solver].
    destruct Hs as (sg & Hsg & ->). rewrite bool_decide_eq_true. split; [naive_solver|].
    intros H. destruct (H str eq_refl) as (sg' & Hsg' & ->). rewrite Hsg in Hsg'. by injection Hsg' as ->.
Qed.

(** The owner sets of the modes are the expansions of the request. *)
Lemma effective_owners filter inner t :
  tx_inner_of filter inner →
  ∀ pk, effective_key filter t pk ↔
    pk ∈ ti_account_keys t ∨ ∃ s, (λ m, match m with
           | ModeAll => owners_in_any_balance (ti_meta t)
           | ModeBalanceChanged => owners_with_changed_balance (ti_meta t)
           end) <$> fti_token_accounts inner = Some s ∧ pk ∈ s.
Proof.
  intros Hi pk. pose proof (tio_mode _ _ Hi) as Hm. unfold effective_key. f_equiv.
  rewrite <- elem_of_owners_in_any_balance, <- elem_of_owners_with_changed_balance.
  destruct (rft_token_accounts filter) as [v|]; [|rewrite Hm; naive_solver].
  destruct Hm as (mode & Hv & ->). unfold TokenAccountsMode_from_proto in Hv.
  destruct v as [|[]|]; simplify_eq/=; naive_solver.
Qed.

Lemma inner_matches_spec filter inner t :
  tx_inner_of filter inner → cells_ok t →
  ∃ b t', FilterTransactionsInner_matches inner t = Done (b, t') ∧
    cells_ok t' ∧ forget_cells t' = forget_cells t ∧ (b = true ↔ tx_config_matches filter t).
Proof.
  intros Hi Hcells. unfold FilterTransactionsInner_matches, tx_config_matches.
  pose proof (precheck_spec filter inner t Hi) as Hpre.
  destruct (FilterTransactionsInner_precheck inner t).
  2:{ exists false, t. split; [done|]. split; [done|]. split; [done|]. split; [done|].
      intros (H1 & H2 & H3 & _). by apply Hpre. }
  destruct (token_owners_spec (fti_token_accounts inner) t Hcells) as (t' & -> & Hcells' & Hf).
  assert (ti_account_keys t' = ti_account_keys t) as -> by by injection Hf.
  destruct (tio_include _ _ Hi) as (si & Hsi & Hki), (tio_exclude _ _ Hi) as (se & Hse & Hke).
  destruct (tio_required _ _ Hi) as (sr & Hsr & Hkr).
  edestruct (inner_accounts_spec inner (ti_account_keys t)) as (b & -> & Hb); [exact Hsi|exact Hse|..].
  { rewrite (tio_cuckoo _ _ Hi). destruct (rft_cuckoo_account_include filter); [|done].
    intros ? [= <-]. apply from_proto_wf. }
  setoid_rewrite <- (effective_owners filter inner t Hi) in Hb.
  exists b, t'. split; [done|]. split; [done|]. split; [done|]. rewrite Hb.
  rewrite Hsr, (tio_cuckoo _ _ Hi). unfold mentions. clear Hb Hcells Hcells' Hf b t'.
  destruct Hki as [Hki Hki0], Hke as [Hke _], Hkr as [Hkr _].
  setoid_rewrite elem_of_elements. setoid_rewrite Hki. setoid_rewrite Hke. setoid_rewrite Hkr.
  assert (s_iff : si = ∅ ↔ rft_account_include filter = []).
  { split; [done|]. intros E. apply set_eq. intros pk. rewrite Hki, E. set_solver. }
  assert (o_iff : CuckooFilter_from_proto <$> rft_cuckoo_account_include filter = None ↔
    rft_cuckoo_account_include filter = None) by (destruct (rft_cuckoo_account_include filter); done).
  rewrite s_iff, o_iff. clear Hki Hke Hkr s_iff o_iff.
  destruct (rft_cuckoo_account_include filter) as [p|]; naive_solver.
Qed.

(** Running through the filters of the parsed configs. *)
Lemma select_spec configs filters t :
  Forall2 (λ c kv, fname_text kv.1 = c.1 ∧ tx_inner_of c.2 kv.2) configs filters →
  cells_ok t →
  ∃ names t', FilterTransactions_select filters t = Done (names, t') ∧
    cells_ok t' ∧ forget_cells t' = forget_cells t ∧
    ∀ name, name ∈ fname_text <$> names ↔
      ∃ filter, (name, filter) ∈ configs ∧ tx_config_matches filter t.
Proof.
  intros Hf. revert t. induction Hf as [|[n0 filter] [h inner] configs filters [Hn Hi] _ IH]; intros t Hc.
  - exists [], t. split; [done|]. set_solver.
  - cbn [fst snd] in Hn, Hi. cbn [FilterTransactions_select].
    destruct (inner_matches_spec filter inner t Hi Hc) as (b & t1 & -> & Hc1 & Hf1 & Hb).
    destruct (IH t1 Hc1) as (names & t2 & Heq & Hc2 & Hf2 & Hin).
    rewrite outcome_bind_done, Heq, outcome_bind_done. eexists _, t2. split; [done|].
    split; [done|]. split; [congruence|]. intros name.
    setoid_rewrite (config_matches_forget _ _ _ Hf1) in Hin.
    destruct b; csimpl; setoid_rewrite elem_of_cons; rewrite Hin; naive_solver.
Qed.

Lemma FilterTransactions_new_ok configs limits ty ns f ns' :
  FilterTransactions_new configs limits ty ns = (Ok f, ns') → NoDup configs.*1 →
  ft_filter_type f = ty ∧
  Forall2 (λ c kv, fname_text kv.1 = c.1 ∧ tx_inner_of c.2 kv.2) configs (ft_filters f).
Proof.
  unfold FilterTransactions_new. intros Hrun Hnd.
  apply named_bind_ok in Hrun as (_ & n1 & _ & Hrun).
  apply named_bind_ok in Hrun as (filters & n2 & Hm & Hrun). injection Hrun as <- _.
  split; [done|]. eapply (named_collect_map_ok _ (λ c, tx_inner_of c.2)); [exact Hm|done|].
  intros c kv n n' H. by eapply tx_inner_spec.
Qed.

Lemma transaction_updates_all_ok configs limits ty ns f ns' message :
  FilterTransactions_new configs limits ty ns = (Ok f, ns') → NoDup configs.*1 →
  cells_ok (mt_transaction message) →
  ∃ us message', FilterTransactions_get_updates f message = Done (us, message') ∧
    cells_ok (mt_transaction message') ∧
    forget_cells (mt_transaction message') = forget_cells (mt_transaction message) ∧
    mt_slot message' = mt_slot message ∧
    (∀ name, name ∈ fname_text <$> (us ≫= fu_filters) ↔
       ∃ filter, (name, filter) ∈ configs ∧ tx_config_matches filter (mt_transaction message)) ∧
    (∀ u, u ∈ us → fu_created_at u = mt_created_at message ∧ fu_message u =
       match ty with
       | TypeTransaction => FuTransaction (mkFilteredUpdateTransaction message' (mt_slot message))
       | TypeTransactionStatus => FuTransactionStatus message'
       end).
Proof.
  intros Hnew Hnd Hc. apply FilterTransactions_new_ok in Hnew as [Hty Hf]; [|done].
  destruct (select_spec configs (ft_filters f) (mt_transaction message) Hf Hc)
    as (names & t' & Hsel & Hc' & Hf' & Hin).
  unfold FilterTransactions_get_updates. rewrite Hsel, outcome_bind_done, Hty.
  eexists _, _. split; [done|]. split; [done|]. split; [done|]. split; [done|]. split.
  - intros name. by rewrite filtered_updates_once_names.
  - intros u (Hm & Ht & _)%filtered_updates_once_message. split; [done|]. rewrite Hm. by destruct ty.
Qed.
Lemma transaction_updates_ok configs limits ty ns f ns' message :
  FilterTransactions_new configs limits ty ns = (Ok f, ns') → NoDup configs.*1 →
  cells_ok (mt_transaction message) →
  ∃ us message', FilterTransactions_get_updates f message = Done (us, message') ∧
    cells_ok (mt_transaction message') ∧
    forget_cells (mt_transaction message') = forget_cells (mt_transaction message) ∧
    mt_slot message' = mt_slot message ∧
    (∀ name, name ∈ fname_text <$> (us ≫= fu_filters) ↔
       ∃ filter, (name, filter) ∈ configs ∧ tx_config_matches filter (mt_transaction message)).
Proof.
  intros H1 H2 H3. destruct (transaction_updates_all_ok _ _ _ _ _ _ _ H1 H2 H3)
    as (us & m & ? & ? & ? & ? & ? & _). by exists us, m.
Qed.

(** C36. Transaction filters: once a request's filters are accepted, every
    transaction is processed without panic and delivered under exactly the
    names of the filters whose conditions it meets: vote and failed flags,
    first signature, every required key, some included key (listed, or in the
    cuckoo filter), no excluded key, where the keys are the account keys and,
    if asked for, the owners of token balances. The lazily filled owner sets
    never change the answer: the cells stay consistent with the transaction. *)
Theorem transaction_filters_spec configs limits ty ns f ns' message :
  FilterTransactions_new configs limits ty ns = (Ok f, ns') → NoDup configs.*1 →
  cells_ok (mt_transaction message) →
  ∃ us message', FilterTransactions_get_updates f message = Done (us, message') ∧
    cells_ok (mt_transaction message') ∧
    forget_cells (mt_transaction message') = forget_cells (mt_transaction message) ∧
    mt_slot message' = mt_slot message ∧
    (∀ name, name ∈ fname_text <$> (us ≫= fu_filters) ↔
       ∃ filter, (name, filter) ∈ configs ∧ tx_config_matches filter (mt_transaction message)) ∧
    (∀ u, u ∈ us → fu_created_at u = mt_created_at message ∧ fu_message u =
       match ty with
       | TypeTransaction => FuTransaction (mkFilteredUpdateTransaction message' (mt_slot message))
       | TypeTransactionStatus => FuTransactionStatus message'
       end).
Proof. apply transaction_updates_all_ok. Qed.
End spec.

(** ** Concrete instances *)

Section witnesses.
#[local] Existing Instance toy_externals.

Definition demo_balance (amount : option string) : TokenBalance :=
  mkTokenBalance 3 "M" ((λ a, mkUiTokenAmount f64_default 0 a a) <$> amount) "B" "P".

Definition demo_tx : MessageTransaction :=
  let meta := meta_with_balances [demo_balance (Some "5")] [demo_balance (Some "7")] in
  let info := mkMessageTransactionInfo [] false (mkTransaction [[Byte.x01]] None) meta 0
    {[ [Byte.x41] ]} None None None in
  mkMessageTransaction info 9 (mkTimestamp 0 0).

Definition demo_tx_configs : hash_map SubscribeRequestFilterTransactions :=
  [("direct", mkRequestTransactions (Some false) None None ["A"] [] [] None None);
   ("plain", mkRequestTransactions None None None ["B"] [] [] None None);
   ("changed", mkRequestTransactions None (Some false) None ["B"] ["C"] ["A"] None (Some 1%Z))].

Definition demo_tx_run : option (list string) :=
  match FilterTransactions_new demo_tx_configs FilterLimitsTransactions_default TypeTransaction
          (FilterNames_new 0 10 10 10) with
  | (Ok f, _) =>
      match FilterTransactions_get_updates f demo_tx with
      | Done (us, _) => Some (fname_text <$> (us ≫= fu_filters))
      | Panic => None
      end
  | _ => None
  end.

Example demo_tx_run_result : demo_tx_run = Some ["direct"; "changed"].
Proof. by vm_compute. Qed.

Lemma demo_tx_configs_accepted :
  is_ok (FilterTransactions_new demo_tx_configs FilterLimitsTransactions_default TypeTransaction
    (FilterNames_new 0 10 10 10)).1 = true.
Proof. by vm_compute. Qed.

Lemma transaction_filters_spec_witness :
  ∃ f ns us message',
    FilterTransactions_new demo_tx_configs FilterLimitsTransactions_default TypeTransaction
      (FilterNames_new 0 10 10 10) = (Ok f, ns) ∧
    FilterTransactions_get_updates f demo_tx = Done (us, message') ∧
    ∀ name, name ∈ fname_text <$> (us ≫= fu_filters) ↔
      ∃ filter, (name, filter) ∈ demo_tx_configs ∧ tx_config_matches filter (mt_transaction demo_tx).
Proof.
  pose proof demo_tx_configs_accepted as Hok.
  destruct (FilterTransactions_new demo_tx_configs FilterLimitsTransactions_default TypeTransaction
    (FilterNames_new 0 10 10 10)) as [[f|e] ns] eqn:E; [|discriminate Hok].
  edestruct (transaction_filters_spec _ _ _ _ _ _ demo_tx E) as (us & m' & Hu & _ & _ & _ & Hn & _).
  - apply (bool_decide_eq_true_1 _). reflexivity.
  - split; intros s Hs; discriminate Hs.
  - exists f, ns, us, m'. split; [reflexivity|]. split; [exact Hu|exact Hn].
Defined.

Lemma missing_amounts_read_unchanged_witness :
  [Byte.x42] ∉ owners_with_changed_balance
    (meta_with_balances [demo_balance None] [demo_balance None]).
Proof.
  eapply (missing_amounts_read_unchanged 3 "B" [Byte.x42] (mkUiTokenAmount f64_default 0 "5" "5")
    "M" "P"); [reflexivity|discriminate].
Defined.
End witnesses.
