(* ===== verification/SimpleFilters.v ===== *)
(** * plugin/filter/filter.rs: slot, entry, block-meta and deshred filters

    [FilterSlots], [FilterEntries], [FilterBlocksMeta],
    [FilterDeshredTransactions] and [DeshredFilter], the filter of the
    SubscribeDeshred endpoint. Each component's theorem says which names an
    update carries. *)

From S2P Require Import Prelude Storage Externals Proto Message Limits Names FilterBase.
From S2P Require Import DataSlice Cuckoo Updates TransactionsFilter.

Set Default Goal Selector "!".

(** ** Slots *)

Record FilterSlotsInner := mkFilterSlotsInner {
  fsi_filter_by_commitment : bool;
  fsi_interslot_updates : bool
}.

Definition FilterSlotsInner_new (filter : SubscribeRequestFilterSlots) : FilterSlotsInner :=
  {| fsi_filter_by_commitment := default false (rfs_filter_by_commitment filter);
     fsi_interslot_updates := default false (rfs_interslot_updates filter) |}.

Record FilterSlots := mkFilterSlots { fs_filters : name_map FilterSlotsInner }.

(** The closure shared by the two [get_updates] over slot filters. *)
Definition FilterSlotsInner_matches (inner : FilterSlotsInner) (message : MessageSlot)
    (commitment : option CommitmentLevel) : bool :=
  (negb (fsi_filter_by_commitment inner)
   || match commitment with
      | Some commitment => CommitmentLevel_eq_status commitment (ms_status message)
      | None => false
      end)
  && (fsi_interslot_updates inner
      || match ms_status message with
         | StatusProcessed | StatusConfirmed | StatusFinalized => true
         | _ => false
         end).

Definition FilterSlots_select (f : FilterSlots) (message : MessageSlot)
    (commitment : option CommitmentLevel) : FilteredUpdateFilters :=
  omap (λ kv, if FilterSlotsInner_matches kv.2 message commitment then Some kv.1 else None)
    (fs_filters f).

Definition FilterSlots_get_updates (f : FilterSlots) (message : MessageSlot)
    (commitment : option CommitmentLevel) : FilteredUpdates :=
  filtered_updates_once (FilterSlots_select f message commitment) (FuSlot message)
    (ms_created_at message).

(** ** Entries and block metas: filters without conditions *)

Record FilterEntries := mkFilterEntries { fe_filters : list FilterName }.

Definition FilterEntries_get_updates (f : FilterEntries) (message : MessageEntry) : FilteredUpdates :=
  filtered_updates_once (fe_filters f) (FuEntry message) (me_created_at message).

Record FilterBlocksMeta := mkFilterBlocksMeta { fbm_filters : list FilterName }.

Definition FilterBlocksMeta_get_updates (f : FilterBlocksMeta) (message : MessageBlockMeta)
    : FilteredUpdates :=
  filtered_updates_once (fbm_filters f) (FuBlockMeta message) (bm_created_at message).

Section simple.
Context {X : Externals}.
Local Open Scope named_scope.

Definition FilterSlots_new (configs : hash_map SubscribeRequestFilterSlots)
    (limits : FilterLimitsSlots) : named FilterSlots :=
  let* _ := lift_check (check_max (len configs) (fls_max limits)) in
  let* filters := named_collect_map (λ '(name, filter),
      let* name := names_get name in named_ret (name, FilterSlotsInner_new filter)) configs in
  named_ret {| fs_filters := filters |}.

(** [configs.keys().map(|name| names.get(name)).collect()]. *)
Definition names_of_keys (configs : hash_map unit) : named (list FilterName) :=
  named_mapM names_get (configs.*1).

Definition FilterEntries_new (configs : hash_map unit) (limits : FilterLimitsEntries)
    : named FilterEntries :=
  let* _ := lift_check (check_max (len configs) (fle_max limits)) in
  let* filters := names_of_keys configs in
  named_ret {| fe_filters := filters |}.

Definition FilterBlocksMeta_new (configs : hash_map unit) (limits : FilterLimitsBlocksMeta)
    : named FilterBlocksMeta :=
  let* _ := lift_check (check_max (len configs) (flbm_max limits)) in
  let* filters := names_of_keys configs in
  named_ret {| fbm_filters := filters |}.

(** ** Deshred transactions *)

Record FilterDeshredTransactionsInner := mkFilterDeshredTransactionsInner {
  fdi_vote : option bool;
  fdi_account_include : gset Pubkey;
  fdi_account_exclude : gset Pubkey;
  fdi_account_required : gset Pubkey
}.

Record FilterDeshredTransactions := mkFilterDeshredTransactions {
  fdt_filters : name_map FilterDeshredTransactionsInner
}.

Definition FilterDeshredTransactions_inner (limits : FilterLimitsDeshredTransactions)
    (config : string * SubscribeRequestFilterDeshredTransactions)
    : named (FilterName * FilterDeshredTransactionsInner) :=
  let '(name, filter) := config in
  let* _ := lift_check (check_any
    (option_none (rfd_vote filter) && bool_decide (rfd_account_include filter = [])
     && bool_decide (rfd_account_exclude filter = [])
     && bool_decide (rfd_account_required filter = [])) (fld_any limits)) in
  let* _ := lift_check (check_pubkey_max (len (rfd_account_include filter)) (fld_account_include_max limits)) in
  let* _ := lift_check (check_pubkey_max (len (rfd_account_exclude filter)) (fld_account_exclude_max limits)) in
  let* _ := lift_check (check_pubkey_max (len (rfd_account_required filter)) (fld_account_required_max limits)) in
  let* filter_name := names_get name in
  let* account_include := lift (decode_pubkeys_into_set (rfd_account_include filter) (fld_account_include_reject limits)) in
  let* account_exclude := lift (decode_pubkeys_into_set (rfd_account_exclude filter) ∅) in
  let* account_required := lift (decode_pubkeys_into_set (rfd_account_required filter) ∅) in
  named_ret (filter_name,
    {| fdi_vote := rfd_vote filter;
       fdi_account_include := account_include;
       fdi_account_exclude := account_exclude;
       fdi_account_required := account_required |}).

Definition FilterDeshredTransactions_new
    (configs : hash_map SubscribeRequestFilterDeshredTransactions)
    (limits : FilterLimitsDeshredTransactions) : named FilterDeshredTransactions :=
  let* _ := lift_check (check_max (len configs) (fld_max limits)) in
  let* filters := named_collect_map (FilterDeshredTransactions_inner limits) configs in
  named_ret {| fdt_filters := filters |}.

Local Close Scope named_scope.

Definition set_is_empty (s : gset Pubkey) : bool := bool_decide (s = ∅).

Definition FilterDeshredTransactionsInner_matches (inner : FilterDeshredTransactionsInner)
    (tx : MessageDeshredTransactionInfo) : bool :=
  match fdi_vote inner with
  | Some is_vote => eqb is_vote (di_is_vote tx)
  | None => true
  end
  && negb (negb (set_is_empty (fdi_account_include inner))
           && negb (any (λ key, bool_decide (key ∈ fdi_account_include inner)) (all_account_keys tx)))
  && negb (negb (set_is_empty (fdi_account_exclude inner))
           && any (λ key, bool_decide (key ∈ fdi_account_exclude inner)) (all_account_keys tx))
  && (set_is_empty (fdi_account_required inner)
      || let all_keys : gset Pubkey := list_to_set (all_account_keys tx) in
         all (λ key, bool_decide (key ∈ all_keys)) (elements (fdi_account_required inner))).

(** The deshred form of the once-macros. *)
Definition deshred_updates_once (filters : FilteredUpdateFilters)
    (message : FilteredUpdateDeshredOneof) (created_at : Timestamp) : FilteredUpdatesDeshred :=
  match filters with
  | [] => []
  | _ => [{| fud_filters := filters; fud_message := message; fud_created_at := created_at |}]
  end.

Definition FilterDeshredTransactions_get_updates (f : FilterDeshredTransactions)
    (message : MessageDeshredTransaction) : FilteredUpdatesDeshred :=
  let filters :=
    omap (λ kv, if FilterDeshredTransactionsInner_matches kv.2 (md_transaction message)
                then Some kv.1 else None) (fdt_filters f) in
  deshred_updates_once filters (FudDeshredTransaction message) (md_created_at message).

Record DeshredFilter := mkDeshredFilter {
  df_deshred_transactions : FilterDeshredTransactions;
  df_slots : FilterSlots;
  df_ping : option Z
}.

Local Open Scope named_scope.

Definition DeshredFilter_new (config : SubscribeDeshredRequest) (limits : FilterLimits)
    : named DeshredFilter :=
  let* deshred_transactions := FilterDeshredTransactions_new (dreq_deshred_transactions config)
    (fl_deshred_transactions limits) in
  let* slots := FilterSlots_new (dreq_slots config) (fl_slots limits) in
  named_ret {| df_deshred_transactions := deshred_transactions;
               df_slots := slots;
               df_ping := dreq_ping config |}.

Local Close Scope named_scope.

Definition DeshredFilter_get_slot_updates (f : DeshredFilter) (message : MessageSlot)
    (commitment : option CommitmentLevel) : FilteredUpdatesDeshred :=
  deshred_updates_once (FilterSlots_select (df_slots f) message commitment) (FudSlot message)
    (ms_created_at message).

Definition DeshredFilter_get_updates (f : DeshredFilter) (message : Message)
    (commitment : option CommitmentLevel) : FilteredUpdatesDeshred :=
  match message with
  | MsgDeshredTransaction message =>
      FilterDeshredTransactions_get_updates (df_deshred_transactions f) message
  | MsgSlot message => DeshredFilter_get_slot_updates f message commitment
  | _ => []
  end.

Definition DeshredFilter_get_pong_msg (now : Timestamp) (f : DeshredFilter)
    : option FilteredUpdateDeshred :=
  (λ id, FilteredUpdateDeshred_new_empty now (FudPong id)) <$> df_ping f.

Definition DeshredFilter_get_metrics (f : DeshredFilter) : list (string * Z) :=
  [("deshred_transactions", len (fdt_filters (df_deshred_transactions f)));
   ("slots", len (fs_filters (df_slots f)));
   ("all", len (fdt_filters (df_deshred_transactions f)) + len (fs_filters (df_slots f)))]%Z.

(** ** Lemmas *)

Lemma map_text {C V} (R : string * C → V → Prop) l (m : name_map V) :
  Forall2 (λ c kv, fname_text kv.1 = c.1 ∧ R c kv.2) l m → fname_text <$> m.*1 = l.*1.
Proof. induction 1 as [|c kv l m [H _] _ IH]; csimpl; [done|]. by rewrite H, IH. Qed.

(** Selecting by a test on the inner filters is selecting the configs. *)
Lemma omap_select {C V} (R : string * C → V → Prop) (P : C → Prop) (test : V → bool) l (m : name_map V) :
  Forall2 (λ c kv, fname_text kv.1 = c.1 ∧ R c kv.2) l m →
  (∀ c v, R c v → test v = true ↔ P c.2) →
  ∀ name, name ∈ fname_text <$> omap (λ kv : FilterName * V, if test kv.2 then Some kv.1 else None) m
    ↔ ∃ c, (name, c) ∈ l ∧ P c.
Proof.
  intros Hall HP name. induction Hall as [|[n c] [h v] l m [Hn HR] _ IH]; csimpl; [set_solver|].
  cbn [fst snd] in Hn. apply HP in HR. cbn [snd] in HR.
  destruct (test v); csimpl; setoid_rewrite elem_of_cons; rewrite IH; naive_solver.
Qed.

Lemma FilterSlots_new_ok configs limits ns f ns' :
  FilterSlots_new configs limits ns = (Ok f, ns') → NoDup configs.*1 →
  (len configs <= fls_max limits)%Z ∧
  Forall2 (λ c kv, fname_text kv.1 = c.1 ∧ kv.2 = FilterSlotsInner_new c.2) configs (fs_filters f).
Proof.
  unfold FilterSlots_new. intros Hrun Hnd.
  apply named_bind_ok in Hrun as ([] & n1 & Hmax & Hrun). apply lift_check_ok in Hmax as [Hmax ->].
  apply named_bind_ok in Hrun as (filters & n2 & Hm & Hrun). injection Hrun as <- _.
  split; [by apply check_max_ok|].
  eapply (named_collect_map_ok _ (λ c v, v = FilterSlotsInner_new c.2)); [exact Hm|done|].
  intros [name c] kv n n' H. apply named_bind_ok in H as (h & n3 & Hname & Hr).
  injection Hr as <- _. apply names_get_ok in Hname. done.
Qed.

Lemma names_of_keys_ok configs ns l ns' :
  names_of_keys configs ns = (Ok l, ns') → fname_text <$> l = configs.*1.
Proof.
  intros H%named_mapM_ok. remember (configs.*1) as keys. clear Heqkeys.
  induction H as [|k h keys l (n & n' & Hn) _ IH]; csimpl; [done|].
  apply names_get_ok in Hn. by rewrite Hn, IH.
Qed.

Lemma FilterEntries_new_ok configs limits ns f ns' :
  FilterEntries_new configs limits ns = (Ok f, ns') →
  (len configs <= fle_max limits)%Z ∧ fname_text <$> fe_filters f = configs.*1.
Proof.
  unfold FilterEntries_new. intros Hrun.
  apply named_bind_ok in Hrun as ([] & n1 & Hmax & Hrun). apply lift_check_ok in Hmax as [Hmax ->].
  apply named_bind_ok in Hrun as (l & n2 & Hm & Hrun). injection Hrun as <- _.
  split; [by apply check_max_ok|]. by eapply names_of_keys_ok.
Qed.

Lemma FilterBlocksMeta_new_ok configs limits ns f ns' :
  FilterBlocksMeta_new configs limits ns = (Ok f, ns') →
  (len configs <= flbm_max limits)%Z ∧ fname_text <$> fbm_filters f = configs.*1.
Proof.
  unfold FilterBlocksMeta_new. intros Hrun.
  apply named_bind_ok in Hrun as ([] & n1 & Hmax & Hrun). apply lift_check_ok in Hmax as [Hmax ->].
  apply named_bind_ok in Hrun as (l & n2 & Hm & Hrun). injection Hrun as <- _.
  split; [by apply check_max_ok|]. by eapply names_of_keys_ok.
Qed.

(** What a slot filter asks for: with [filter_by_commitment], only the status
    the subscription's commitment names; without [interslot_updates], only the
    three commitment statuses. *)
Definition slot_config_matches (filter : SubscribeRequestFilterSlots) (message : MessageSlot)
    (commitment : option CommitmentLevel) : Prop :=
  (rfs_filter_by_commitment filter = Some true →
     ∃ c, commitment = Some c ∧ SlotStatus_to_proto (ms_status message) = CommitmentLevel_to_proto c) ∧
  (rfs_interslot_updates filter = Some true ∨ (SlotStatus_to_proto (ms_status message) <= 2)%Z).

Lemma slot_matches_spec filter message commitment :
  FilterSlotsInner_matches (FilterSlotsInner_new filter) message commitment = true ↔
  slot_config_matches filter message commitment.
Proof.
  unfold FilterSlotsInner_matches, slot_config_matches, FilterSlotsInner_new. simpl.
  rewrite andb_true_iff, !orb_true_iff, negb_true_iff. f_equiv.
  - destruct (rfs_filter_by_commitment filter) as [[]|]; simpl; [|naive_solver..].
    destruct commitment as [[]|], (ms_status message); simpl; naive_solver.
  - destruct (rfs_interslot_updates filter) as [[]|], (ms_status message); simpl; naive_solver lia.
Qed.

Lemma FilterSlots_select_spec configs limits ns f ns' message commitment :
  FilterSlots_new configs limits ns = (Ok f, ns') → NoDup configs.*1 →
  ∀ name, name ∈ fname_text <$> FilterSlots_select f message commitment ↔
    ∃ filter, (name, filter) ∈ configs ∧ slot_config_matches filter message commitment.
Proof.
  intros Hnew Hnd. apply FilterSlots_new_ok in Hnew as [_ Hall]; [|done].
  apply (omap_select (λ c v, v = FilterSlotsInner_new c.2)
    (λ c, slot_config_matches c message commitment)
    (λ v, FilterSlotsInner_matches v message commitment)); [done|].
  intros c v ->. apply slot_matches_spec.
Qed.

(** What a deshred filter asks for. *)
Definition deshred_config_matches (filter : SubscribeRequestFilterDeshredTransactions)
    (tx : MessageDeshredTransactionInfo) : Prop :=
  let mentioned str := ∃ pk, pubkey_from_str str = Ok pk ∧ pk ∈ all_account_keys tx in
  (∀ b, rfd_vote filter = Some b → b = di_is_vote tx) ∧
  (rfd_account_include filter = [] ∨ ∃ str, str ∈ rfd_account_include filter ∧ mentioned str) ∧
  (¬ ∃ str, str ∈ rfd_account_exclude filter ∧ mentioned str) ∧
  (∀ str pk, str ∈ rfd_account_required filter → pubkey_from_str str = Ok pk →
     pk ∈ all_account_keys tx).

Definition deshred_inner_of (filter : SubscribeRequestFilterDeshredTransactions)
    (inner : FilterDeshredTransactionsInner) : Prop :=
  fdi_vote inner = rfd_vote filter ∧
  keys_of (rfd_account_include filter) (fdi_account_include inner) ∧
  keys_of (rfd_account_exclude filter) (fdi_account_exclude inner) ∧
  keys_of (rfd_account_required filter) (fdi_account_required inner).

Lemma deshred_inner_spec limits c kv ns ns' :
  FilterDeshredTransactions_inner limits c ns = (Ok kv, ns') →
  fname_text kv.1 = c.1 ∧ deshred_inner_of c.2 kv.2.
Proof.
  destruct c as [name filter]. unfold FilterDeshredTransactions_inner. intros Hrun.
  apply named_bind_ok in Hrun as (_ & n1 & _ & Hrun).
  apply named_bind_ok in Hrun as (_ & n2 & _ & Hrun).
  apply named_bind_ok in Hrun as (_ & n3 & _ & Hrun).
  apply named_bind_ok in Hrun as (_ & n4 & _ & Hrun).
  apply named_bind_ok in Hrun as (h & n5 & Hname & Hrun). apply names_get_ok in Hname.
  apply named_bind_ok in Hrun as (inc & n6 & Hinc & Hrun). apply lift_ok in Hinc as [Hinc _].
  apply named_bind_ok in Hrun as (exc & n7 & Hexc & Hrun). apply lift_ok in Hexc as [Hexc _].
  apply named_bind_ok in Hrun as (req & n8 & Hreq & Hrun). apply lift_ok in Hreq as [Hreq _].
  injection Hrun as <- _. split; [done|]. repeat split; cbn; by eapply keys_of_decode.
Qed.

Lemma deshred_matches_spec filter inner tx :
  deshred_inner_of filter inner →
  FilterDeshredTransactionsInner_matches inner tx = true ↔ deshred_config_matches filter tx.
Proof.
  intros (Hv & [Hi Hi0] & [He He0] & [Hr _]).
  unfold FilterDeshredTransactionsInner_matches, deshred_config_matches, set_is_empty.
  rewrite !andb_true_iff, !negb_true_iff, !andb_false_iff, !negb_false_iff, <- !(assoc and), Hv.
  rewrite orb_true_iff, !bool_decide_eq_true, forallb_In, existsb_In.
  rewrite <- (not_true_iff_false (any _ _)), existsb_In. setoid_rewrite bool_decide_eq_true.
  setoid_rewrite elem_of_elements. setoid_rewrite elem_of_list_to_set.
  f_equiv; [|f_equiv; [|f_equiv]].
  - destruct (rfd_vote filter) as [b|]; [rewrite eqb_true_iff|]; naive_solver.
  - setoid_rewrite Hi. split; [naive_solver|]. intros [E|?]; [left|naive_solver].
    apply set_eq. intros pk. rewrite Hi, E. set_solver.
  - setoid_rewrite He. split; [|naive_solver]. intros [E|Hno]; [|naive_solver].
    rewrite (He0 E). set_solver.
  - setoid_rewrite Hr. split; [|intros H; right; naive_solver]. intros [E|H]; [|naive_solver].
    intros str pk Hs Hp. exfalso. assert (pk ∈ fdi_account_required inner) by (apply Hr; eauto). set_solver.
Qed.

Lemma deshred_updates_once_names filters message created_at :
  deshred_updates_once filters message created_at ≫= fud_filters = filters.
Proof. destruct filters; simpl; [done|]. by rewrite app_nil_r. Qed.

(** What a deshred subscription wants of a message. *)
Definition deshred_request_wants (config : SubscribeDeshredRequest)
    (commitment : option CommitmentLevel) (message : Message) (name : string) : Prop :=
  match message with
  | MsgDeshredTransaction m =>
      ∃ filter, (name, filter) ∈ dreq_deshred_transactions config ∧
        deshred_config_matches filter (md_transaction m)
  | MsgSlot m =>
      ∃ filter, (name, filter) ∈ dreq_slots config ∧ slot_config_matches filter m commitment
  | _ => False
  end.

(** The SubscribeDeshred endpoint: an accepted request delivers every
    message under exactly the names that want it: deshred transactions by vote
    flag and key lists over the static and loaded keys, slots by status, and
    nothing else. *)
Theorem deshred_filter_spec config limits ns f ns' message commitment :
  DeshredFilter_new config limits ns = (Ok f, ns') →
  NoDup (dreq_deshred_transactions config).*1 → NoDup (dreq_slots config).*1 →
  ∀ name, name ∈ fname_text <$> (DeshredFilter_get_updates f message commitment ≫= fud_filters)
    ↔ deshred_request_wants config commitment message name.
Proof.
  unfold DeshredFilter_new. intros Hrun Hnd1 Hnd2.
  apply named_bind_ok in Hrun as (txs & n1 & Htx & Hrun).
  apply named_bind_ok in Hrun as (slots & n2 & Hs & Hrun). injection Hrun as <- _.
  intros name. destruct message; cbn [DeshredFilter_get_updates deshred_request_wants df_deshred_transactions];
    try (cbn; set_solver).
  - unfold DeshredFilter_get_slot_updates. rewrite deshred_updates_once_names.
    by apply (FilterSlots_select_spec _ _ _ _ _ _ _ Hs).
  - unfold FilterDeshredTransactions_get_updates. rewrite deshred_updates_once_names.
    unfold FilterDeshredTransactions_new in Htx.
    apply named_bind_ok in Htx as (_ & n3 & _ & Htx).
    apply named_bind_ok in Htx as (m0 & n4 & Hm & Htx). injection Htx as <- _.
    apply (omap_select (λ c, deshred_inner_of c.2)
      (λ c, deshred_config_matches c (md_transaction m))
      (λ v, FilterDeshredTransactionsInner_matches v (md_transaction m))).
    + eapply (named_collect_map_ok _ (λ c, deshred_inner_of c.2)); [exact Hm|done|].
      intros c kv n n' H. by eapply deshred_inner_spec.
    + intros c v. apply deshred_matches_spec.
Qed.
End simple.

(** ** A concrete instance *)

Section witnesses.
#[local] Existing Instance toy_externals.

Definition demo_deshred : SubscribeDeshredRequest :=
  mkSubscribeDeshredRequest
    [("a", mkRequestDeshred (Some false) ["A"] [] []); ("b", mkRequestDeshred None [] ["A"] [])]
    None [("s", mkRequestSlots None None)].

Definition demo_deshred_tx : MessageDeshredTransaction :=
  mkMessageDeshredTransaction
    (mkMessageDeshredTransactionInfo [] false (mkTransaction [] None) ∅ [[Byte.x41]] [] 0 1) 5 (mkTimestamp 0 0).

Lemma deshred_filter_spec_witness :
  ∃ f ns, DeshredFilter_new demo_deshred FilterLimits_default (FilterNames_new 0 10 10 10) = (Ok f, ns) ∧
    "a" ∈ fname_text <$> (DeshredFilter_get_updates f (MsgDeshredTransaction demo_deshred_tx) None
                           ≫= fud_filters).
Proof.
  assert (is_ok (DeshredFilter_new demo_deshred FilterLimits_default (FilterNames_new 0 10 10 10)).1
    = true) as Hok by by vm_compute.
  destruct (DeshredFilter_new demo_deshred FilterLimits_default (FilterNames_new 0 10 10 10))
    as [[f|e] ns] eqn:E; [|discriminate Hok].
  exists f, ns. split; [reflexivity|].
  apply (deshred_filter_spec _ _ _ _ _ (MsgDeshredTransaction demo_deshred_tx) None E).
  - apply (bool_decide_eq_true_1 _). reflexivity.
  - apply (bool_decide_eq_true_1 _). reflexivity.
  - exists (mkRequestDeshred (Some false) ["A"] [] []). split; [left|].
    split; [intros b [= <-]; reflexivity|]. split; [right|split].
    + exists "A". split; [left|]. exists [Byte.x41]. split; [reflexivity|]. vm_compute. left.
    + intros (str & Hs & _). by apply elem_of_nil in Hs.
    + intros str pk Hs. by apply elem_of_nil in Hs.
Defined.
End witnesses.
