(* ===== verification/BlocksFilter.v ===== *)
(** * plugin/filter/filter.rs: block filters

    [FilterBlocks]: every filter receives every block as an update of its own,
    reduced to the transactions and accounts that mention its keys. *)

From S2P Require Import Prelude Storage Externals Proto Message Limits Names FilterBase.
From S2P Require Import DataSlice Cuckoo Updates TransactionsFilter SimpleFilters.

Set Default Goal Selector "!".

(** [filter_map] that keeps the elements a test, which may panic, selects. *)
Definition select_arcs {A} (test : A → outcome bool) (l : list A) : outcome (list A) :=
  filter_mapM (λ x, test x ≫= λ b : bool, Done (if b then Some x else None)) l.

(** The sublist of the elements that satisfy a property, in order. *)
Inductive selects {A} (P : A → Prop) : list A → list A → Prop :=
| selects_nil : selects P [] []
| selects_keep x l l' : P x → selects P l l' → selects P (x :: l) (x :: l')
| selects_skip x l l' : ¬ P x → selects P l l' → selects P (x :: l) l'.

Section blocks.
Context {X : Externals}.

Record FilterBlocksInner := mkFilterBlocksInner {
  fbi_account_include : gset Pubkey;
  fbi_account_cuckoo : option (CuckooFilter YellowstoneHasherBuilder);
  fbi_include_transactions : option bool;
  fbi_include_accounts : option bool;
  fbi_include_entries : option bool
}.

Record FilterBlocks := mkFilterBlocks { fb_filters : name_map FilterBlocksInner }.

(** [matches!(o, None | Some(b))] and [o == Some(b)]. *)
Definition none_or (b : bool) (o : option bool) : bool :=
  match o with None => true | Some b' => eqb b b' end.

Definition is_some_of (b : bool) (o : option bool) : bool :=
  match o with None => false | Some b' => eqb b b' end.

Definition allow_or_err (allowed : bool) (what : string) : FilterResult unit :=
  if negb allowed then Err (ErrCreateBlocksNotAllowed what) else Ok tt.

Local Open Scope named_scope.

(** The body of the loop of [FilterBlocks::new]; the guard on the entries reads
    [limits.include_accounts], as the source does. *)
Definition FilterBlocks_inner (limits : FilterLimitsBlocks)
    (config : string * SubscribeRequestFilterBlocks) : named (FilterName * FilterBlocksInner) :=
  let '(name, filter) := config in
  let* _ := lift_check (check_any (bool_decide (rfb_account_include filter = [])) (flb_account_include_any limits)) in
  let* _ := lift_check (check_pubkey_max (len (rfb_account_include filter)) (flb_account_include_max limits)) in
  let* _ := lift (allow_or_err
    (is_some_of false (rfb_include_transactions filter) || flb_include_transactions limits) "transactions") in
  let* _ := lift (allow_or_err
    (none_or false (rfb_include_accounts filter) || flb_include_accounts limits) "accounts") in
  let* _ := lift (allow_or_err
    (none_or false (rfb_include_entries filter) || flb_include_accounts limits) "entries") in
  let* account_cuckoo := decode_cuckoo (flb_cuckoo_max_size limits) (rfb_cuckoo_account_include filter) in
  let* filter_name := names_get name in
  let* account_include := lift (decode_pubkeys_into_set (rfb_account_include filter) (flb_account_include_reject limits)) in
  named_ret (filter_name,
    {| fbi_account_include := account_include;
       fbi_account_cuckoo := account_cuckoo;
       fbi_include_transactions := rfb_include_transactions filter;
       fbi_include_accounts := rfb_include_accounts filter;
       fbi_include_entries := rfb_include_entries filter |}).

Definition FilterBlocks_new (configs : hash_map SubscribeRequestFilterBlocks)
    (limits : FilterLimitsBlocks) : named FilterBlocks :=
  let* _ := lift_check (check_max (len configs) (flb_max limits)) in
  let* filters := named_collect_map (FilterBlocks_inner limits) configs in
  named_ret {| fb_filters := filters |}.

Local Close Scope named_scope.

Definition unrestricted (inner : FilterBlocksInner) : bool :=
  set_is_empty (fbi_account_include inner) && option_none (fbi_account_cuckoo inner).

Definition matches_account (inner : FilterBlocksInner) (pubkey : Pubkey) : outcome bool :=
  if unrestricted inner then Done true
  else if bool_decide (pubkey ∈ fbi_account_include inner) then Done true
  else match fbi_account_cuckoo inner with
       | Some cuckoo => CuckooFilter_contains cuckoo pubkey
       | None => Done false
       end.

Definition matches_any_in_set (inner : FilterBlocksInner) (account_keys : gset Pubkey)
    : outcome bool :=
  if unrestricted inner then Done true
  else
    let explicit_match :=
      if size (fbi_account_include inner) <=? size account_keys
      then any (λ pubkey, bool_decide (pubkey ∈ account_keys)) (elements (fbi_account_include inner))
      else any (λ pubkey, bool_decide (pubkey ∈ fbi_account_include inner)) (elements account_keys) in
    if explicit_match then Done true
    else match fbi_account_cuckoo inner with
         | Some cuckoo => anyM (λ pk : Pubkey, CuckooFilter_contains cuckoo pk) (elements account_keys)
         | None => Done false
         end.

(** The body of the loop of [FilterBlocks::get_updates]. *)
Definition FilterBlocksInner_update (message : MessageBlock)
    (accounts_data_slice : FilterAccountsDataSlice) (kv : FilterName * FilterBlocksInner)
    : outcome FilteredUpdate :=
  let '(filter, inner) := kv in
  transactions ←
    (if none_or true (fbi_include_transactions inner)
     then select_arcs (λ tx, matches_any_in_set inner (ti_account_keys (mt_transaction tx)))
            (mb_transactions message)
     else Done []);
  accounts ←
    (if is_some_of true (fbi_include_accounts inner)
     then select_arcs (λ account, matches_account inner (ai_pubkey (ma_account account)))
            (mb_accounts message)
     else Done []);
  let entries := if is_some_of true (fbi_include_entries inner) then mb_entries message else [] in
  Done {| fu_filters := [filter];
          fu_message := FuBlock {| fub_meta := mb_meta message;
                                   fub_transactions := transactions;
                                   fub_updated_account_count := mb_updated_account_count message;
                                   fub_accounts := accounts;
                                   fub_accounts_data_slice := accounts_data_slice;
                                   fub_entries := entries |};
          fu_created_at := mb_created_at message |}.

Definition FilterBlocks_get_updates (f : FilterBlocks) (message : MessageBlock)
    (accounts_data_slice : FilterAccountsDataSlice) : outcome FilteredUpdates :=
  foldM (λ updates kv,
      u ← FilterBlocksInner_update message accounts_data_slice kv; Done (updates ++ [u]))
    [] (fb_filters f).

(** ** What a block filter asks for *)

(** Keys the filter is about: all of them when it names none. *)
Definition block_key (filter : SubscribeRequestFilterBlocks) (pk : Pubkey) : Prop :=
  (∃ str, str ∈ rfb_account_include filter ∧ pubkey_from_str str = Ok pk) ∨
  (∃ p, rfb_cuckoo_account_include filter = Some p ∧
     CuckooFilter_contains (CuckooFilter_from_proto p) pk = Done true).

Definition block_unrestricted (filter : SubscribeRequestFilterBlocks) : Prop :=
  rfb_account_include filter = [] ∧ rfb_cuckoo_account_include filter = None.

(** The update a block filter receives for a block. *)
Definition block_update_of (filter : SubscribeRequestFilterBlocks) (message : MessageBlock)
    (accounts_data_slice : FilterAccountsDataSlice) (b : FilteredUpdateBlock) : Prop :=
  fub_meta b = mb_meta message ∧
  fub_updated_account_count b = mb_updated_account_count message ∧
  fub_accounts_data_slice b = accounts_data_slice ∧
  (if none_or true (rfb_include_transactions filter)
   then selects (λ tx, block_unrestricted filter ∨
          ∃ pk, block_key filter pk ∧ pk ∈ ti_account_keys (mt_transaction tx))
        (mb_transactions message) (fub_transactions b)
   else fub_transactions b = []) ∧
  (if is_some_of true (rfb_include_accounts filter)
   then selects (λ account, block_unrestricted filter ∨ block_key filter (ai_pubkey (ma_account account)))
        (mb_accounts message) (fub_accounts b)
   else fub_accounts b = []) ∧
  fub_entries b = (if is_some_of true (rfb_include_entries filter) then mb_entries message else []).

Record block_inner_of (limits : FilterLimitsBlocks) (filter : SubscribeRequestFilterBlocks)
    (inner : FilterBlocksInner) : Prop := {
  bio_include : keys_of (rfb_account_include filter) (fbi_account_include inner);
  bio_reject : fbi_account_include inner ## flb_account_include_reject limits;
  bio_cuckoo : fbi_account_cuckoo inner = CuckooFilter_from_proto <$> rfb_cuckoo_account_include filter;
  bio_flags : (fbi_include_transactions inner, fbi_include_accounts inner, fbi_include_entries inner)
    = (rfb_include_transactions filter, rfb_include_accounts filter, rfb_include_entries filter)
}.

(** ** Lemmas *)

Lemma select_arcs_spec {A} (P : A → Prop) test (l : list A) :
  (∀ x, x ∈ l → ∃ b, test x = Done b ∧ (b = true ↔ P x)) →
  ∃ l', select_arcs test l = Done l' ∧ selects P l l'.
Proof.
  unfold select_arcs. induction l as [|x l IH]; intros H.
  { exists []. split; [done|constructor]. }
  destruct IH as (l' & Hl & Hs); [intros y Hy; apply H; by right|].
  destruct (H x) as (b & Hb & HP); [by left|]. cbn [filter_mapM]. rewrite Hb, !outcome_bind_done, Hl.
  rewrite outcome_bind_done. eexists. split; [done|]. destruct b.
  - constructor; [by apply HP|done].
  - constructor; [|done]. by intros ?%HP.
Qed.

Lemma block_inner_spec limits c kv ns ns' :
  FilterBlocks_inner limits c ns = (Ok kv, ns') →
  fname_text kv.1 = c.1 ∧ block_inner_of limits c.2 kv.2.
Proof.
  destruct c as [name filter]. unfold FilterBlocks_inner. intros Hrun.
  apply named_bind_ok in Hrun as (_ & n1 & _ & Hrun).
  apply named_bind_ok in Hrun as (_ & n2 & _ & Hrun).
  apply named_bind_ok in Hrun as (_ & n3 & _ & Hrun).
  apply named_bind_ok in Hrun as (_ & n4 & _ & Hrun).
  apply named_bind_ok in Hrun as (_ & n5 & _ & Hrun).
  apply named_bind_ok in Hrun as (cuckoo & n6 & Hck & Hrun). apply decode_cuckoo_ok in Hck as [Hck _].
  apply named_bind_ok in Hrun as (h & n7 & Hname & Hrun). apply names_get_ok in Hname.
  apply named_bind_ok in Hrun as (inc & n8 & Hinc & Hrun). apply lift_ok in Hinc as [Hinc _].
  injection Hrun as <- _. split; [done|]. split; cbn; [by eapply keys_of_decode| |done..].
  by eapply decode_pubkeys_into_set_ok.
Qed.

Lemma unrestricted_spec limits filter inner :
  block_inner_of limits filter inner → unrestricted inner = true ↔ block_unrestricted filter.
Proof.
  intros [[Hi Hi0] _ Hc _]. unfold unrestricted, block_unrestricted, set_is_empty.
  rewrite andb_true_iff, bool_decide_eq_true, Hc. f_equiv.
  - split; [done|]. intros E. apply set_eq. intros pk. rewrite Hi, E. set_solver.
  - by destruct (rfb_cuckoo_account_include filter).
Qed.

Lemma matches_account_spec limits filter inner pk :
  block_inner_of limits filter inner →
  ∃ b, matches_account inner pk = Done b ∧ (b = true ↔ block_unrestricted filter ∨ block_key filter pk).
Proof.
  intros Hi. unfold matches_account, block_key. setoid_rewrite <- (unrestricted_spec _ _ _ Hi).
  destruct (unrestricted inner); [exists true; tauto|].
  destruct Hi as [[Hk _] _ Hc _]. setoid_rewrite <- Hk.
  case_bool_decide; [exists true; tauto|].
  destruct (rfb_cuckoo_account_include filter) as [p|]; simpl in Hc; rewrite Hc.
  - assert (∃ b, CuckooFilter_contains (CuckooFilter_from_proto p) pk = Done b) as [b Hb]
      by (eexists; apply contains_spec, from_proto_wf).
    exists b. split; [done|]. split; [intros ->; right; right; by exists p|].
    intros [?|[?|(p' & [= <-] & Hp)]]; [done|done|]. rewrite Hb in Hp. by injection Hp.
  - exists false. split; [done|]. naive_solver.
Qed.

Lemma explicit_match_spec (s keys : gset Pubkey) :
  (if size s <=? size keys
   then any (λ pubkey, bool_decide (pubkey ∈ keys)) (elements s)
   else any (λ pubkey, bool_decide (pubkey ∈ s)) (elements keys)) = true ↔
  ∃ pk, pk ∈ s ∧ pk ∈ keys.
Proof.
  case_match; rewrite existsb_In; setoid_rewrite bool_decide_eq_true;
    setoid_rewrite elem_of_elements; naive_solver.
Qed.

Lemma matches_any_spec limits filter inner keys :
  block_inner_of limits filter inner →
  ∃ b, matches_any_in_set inner keys = Done b ∧
    (b = true ↔ block_unrestricted filter ∨ ∃ pk, block_key filter pk ∧ pk ∈ keys).
Proof.
  intros Hi. unfold matches_any_in_set, block_key. setoid_rewrite <- (unrestricted_spec _ _ _ Hi).
  destruct (unrestricted inner); [exists true; tauto|].
  pose proof (explicit_match_spec (fbi_account_include inner) keys) as He.
  destruct Hi as [[Hk _] _ Hc _]. setoid_rewrite <- Hk. cbv zeta.
  destruct (if _ <=? _ then _ else _).
  { exists true. split; [done|]. split; [|done]. intros _. right.
    destruct (proj1 He eq_refl) as (pk & ? & ?). eauto. }
  destruct (rfb_cuckoo_account_include filter) as [p|]; simpl in Hc; rewrite Hc.
  - destruct (anyM_total (λ pk : Pubkey, CuckooFilter_contains (CuckooFilter_from_proto p) pk)
      (elements keys)) as (b & -> & Hb); [intros pk _; eexists; apply contains_spec, from_proto_wf|].
    exists b. split; [done|]. rewrite Hb. setoid_rewrite elem_of_elements. split.
    + intros (pk & ? & ?). right. exists pk. split; [|done]. right. by exists p.
    + intros [?|(pk & [?|(p' & [= <-] & ?)] & ?)]; [done| |by exists pk].
      assert (false = true) by (apply He; eauto). done.
  - exists false. split; [done|]. split; [done|].
    intros [?|(pk & [?|(p' & [=] & _)] & ?)]; [done|]. apply He. eauto.
Qed.

Lemma block_update_spec limits name filter h inner message ds :
  fname_text h = name → block_inner_of limits filter inner →
  ∃ u b, FilterBlocksInner_update message ds (h, inner) = Done u ∧
    fname_text <$> fu_filters u = [name] ∧ fu_message u = FuBlock b ∧
    fu_created_at u = mb_created_at message ∧ block_update_of filter message ds b.
Proof.
  intros <- Hi. unfold FilterBlocksInner_update, block_update_of.
  pose proof (bio_flags _ _ _ Hi) as [= -> -> ->].
  destruct (select_arcs_spec _ (λ tx, matches_any_in_set inner (ti_account_keys (mt_transaction tx)))
    (mb_transactions message) (λ tx _, matches_any_spec _ _ _ (ti_account_keys (mt_transaction tx)) Hi))
    as (txs & Htx & Hstx).
  destruct (select_arcs_spec _ (λ account, matches_account inner (ai_pubkey (ma_account account)))
    (mb_accounts message) (λ a _, matches_account_spec _ _ _ (ai_pubkey (ma_account a)) Hi))
    as (accs & Hacc & Hsacc).
  rewrite Htx, Hacc.
  destruct (none_or true _), (is_some_of true (rfb_include_accounts filter));
    rewrite !outcome_bind_done; eexists _, _; (split; [done|]); (split; [done|]); (split; [done|]);
    (split; [done|]); repeat split; done.
Qed.

Lemma FilterBlocks_new_ok configs limits ns f ns' :
  FilterBlocks_new configs limits ns = (Ok f, ns') → NoDup configs.*1 →
  (len configs <= flb_max limits)%Z ∧
  Forall2 (λ c kv, fname_text kv.1 = c.1 ∧ block_inner_of limits c.2 kv.2) configs (fb_filters f).
Proof.
  unfold FilterBlocks_new. intros Hrun Hnd.
  apply named_bind_ok in Hrun as ([] & n1 & Hmax & Hrun). apply lift_check_ok in Hmax as [Hmax ->].
  apply named_bind_ok in Hrun as (filters & n2 & Hm & Hrun). injection Hrun as <- _.
  split; [by apply check_max_ok|].
  eapply (named_collect_map_ok _ (λ c, block_inner_of limits c.2)); [exact Hm|done|].
  intros c kv n n' H. by eapply block_inner_spec.
Qed.

Lemma block_updates_ok configs limits ns f ns' message ds :
  FilterBlocks_new configs limits ns = (Ok f, ns') → NoDup configs.*1 →
  ∃ us, FilterBlocks_get_updates f message ds = Done us ∧
    Forall2 (λ c u, fname_text <$> fu_filters u = [c.1] ∧ fu_created_at u = mb_created_at message ∧
      ∃ b, fu_message u = FuBlock b ∧ block_update_of c.2 message ds b) configs us.
Proof.
  intros Hnew Hnd. apply FilterBlocks_new_ok in Hnew as [_ Hall]; [|done].
  unfold FilterBlocks_get_updates. clear Hnd.
  cut (∀ acc, ∃ us, foldM (λ updates kv,
      u ← FilterBlocksInner_update message ds kv; Done (updates ++ [u])) acc (fb_filters f)
      = Done (acc ++ us) ∧
    Forall2 (λ c u, fname_text <$> fu_filters u = [c.1] ∧ fu_created_at u = mb_created_at message ∧
      ∃ b, fu_message u = FuBlock b ∧ block_update_of c.2 message ds b) configs us).
  { intros H. apply (H []). }
  induction Hall as [|[name filter] [h inner] l m [Hn Hi] _ IH]; intros acc; cbn [foldM].
  { exists []. rewrite app_nil_r. by split; [|constructor]. }
  cbn [fst snd] in Hn, Hi.
  destruct (block_update_spec _ _ _ _ _ message ds Hn Hi) as (u & b & Hu & ? & ? & ? & ?).
  rewrite Hu, !outcome_bind_done. destruct (IH (acc ++ [u])) as (us & -> & ?).
  exists (u :: us). split; [by rewrite <- app_assoc|]. constructor; [|done]. eauto.
Qed.

(** C37. Block filters: once accepted, a block is answered without panic by one
    update per filter, in the filters' order, each with the block's meta and
    counts, and with exactly those transactions, accounts and entries the
    filter's flags and keys (explicit or in the cuckoo filter) ask for, in the
    block's order. *)
Theorem blocks_filter_spec configs limits ns f ns' message ds :
  FilterBlocks_new configs limits ns = (Ok f, ns') → NoDup configs.*1 →
  ∃ us, FilterBlocks_get_updates f message ds = Done us ∧
    Forall2 (λ c u, fname_text <$> fu_filters u = [c.1] ∧ fu_created_at u = mb_created_at message ∧
      ∃ b, fu_message u = FuBlock b ∧ block_update_of c.2 message ds b) configs us.
Proof. apply block_updates_ok. Qed.

(** The operator's [include_entries] limit is never consulted: whatever its
    value the same requests are accepted and rejected, since the guard on the
    entries reads [include_accounts]. With entries forbidden and accounts
    allowed a request for entries is accepted; with entries allowed and
    accounts forbidden it is rejected. *)
Theorem blocks_entries_limit_ignored (configs : hash_map SubscribeRequestFilterBlocks)
    (l : FilterLimitsBlocks) (names : FilterNames) (allow : bool) :
  let with_limits accounts entries :=
    mkFilterLimitsBlocks (flb_max l) (flb_account_include_max l) (flb_account_include_any l)
      (flb_account_include_reject l) (flb_include_transactions l) accounts entries
      (flb_cuckoo_max_size l) in
  let request name := [(name, mkRequestBlocks [] (Some false) None (Some true) None)] in
  FilterBlocks_new configs (with_limits (flb_include_accounts l) allow) names
  = FilterBlocks_new configs l names ∧
  (∀ name arc, fn_names names !! name = Some arc → (1 <= flb_max l)%Z → (0 <= flb_account_include_max l)%Z →
     flb_account_include_any l = true →
     is_ok (FilterBlocks_new (request name) (with_limits true false) names).1 = true ∧
     (FilterBlocks_new (request name) (with_limits false true) names).1
     = Err (ErrCreateBlocksNotAllowed "entries")).
Proof.
  intros with_limits request. split; [by destruct l|].
  intros name arc Hn Hmax Hinc Hany.
  assert (check_max 1 (flb_max l) = Ok tt) as Hc1 by by apply check_max_ok.
  assert (check_pubkey_max 0 (flb_account_include_max l) = Ok tt) as Hc2 by by apply check_pubkey_max_ok.
  unfold FilterBlocks_new, named_bind, lift_check, lift. cbn [flb_max with_limits].
  change (len (request name)) with 1%Z. rewrite Hc1. cbn [map_err].
  unfold named_collect_map. cbn [named_foldM request]. unfold named_bind, FilterBlocks_inner.
  cbn [flb_account_include_any flb_account_include_max flb_include_accounts flb_include_transactions
    rfb_account_include rfb_include_transactions rfb_include_accounts rfb_include_entries
    rfb_cuckoo_account_include with_limits].
  unfold named_bind, lift_check, lift. change (len []) with 0%Z. rewrite Hc2, Hany.
  cbn. unfold names_get. rewrite (get_existing _ _ _ Hn). done.
Qed.
End blocks.

(** ** A concrete instance *)

Section witnesses.
#[local] Existing Instance toy_externals.

Definition demo_block : MessageBlock :=
  MessageBlock_new (mkTimestamp 0 0)
    (mkMessageBlockMeta 9 "h" None None None 8 "p" 1 0 (mkTimestamp 0 0)) [demo_tx] [] [].

Definition demo_block_configs : hash_map SubscribeRequestFilterBlocks :=
  [("all", mkRequestBlocks [] None None None None);
   ("other", mkRequestBlocks ["Z"] (Some true) (Some true) (Some true) None)].

Lemma blocks_filter_spec_witness :
  ∃ f ns us, FilterBlocks_new demo_block_configs FilterLimitsBlocks_default
      (FilterNames_new 0 10 10 10) = (Ok f, ns) ∧
    FilterBlocks_get_updates f demo_block [] = Done us ∧ length us = 2.
Proof.
  assert (is_ok (FilterBlocks_new demo_block_configs FilterLimitsBlocks_default
    (FilterNames_new 0 10 10 10)).1 = true) as Hok by by vm_compute.
  destruct (FilterBlocks_new demo_block_configs FilterLimitsBlocks_default (FilterNames_new 0 10 10 10))
    as [[f|e] ns] eqn:E; [|discriminate Hok].
  destruct (blocks_filter_spec _ _ _ _ _ demo_block [] E) as (us & Hu & Hall).
  - apply (bool_decide_eq_true_1 _). reflexivity.
  - exists f, ns, us. split; [reflexivity|]. split; [exact Hu|].
    symmetry. exact (Forall2_length _ _ _ Hall).
Defined.

Lemma blocks_entries_limit_ignored_witness :
  let limits := mkFilterLimitsBlocks 1 1 true ∅ true true false 100 in
  let names := (FilterNames_get "b" (FilterNames_new 0 10 10 10)).2 in
  is_ok (FilterBlocks_new [("b", mkRequestBlocks [] (Some false) None (Some true) None)] limits names).1
  = true.
Proof.
  intros limits names.
  destruct (blocks_entries_limit_ignored [] limits names true) as [_ H].
  apply (H "b" 0%nat); [reflexivity|vm_compute; discriminate|vm_compute; discriminate|reflexivity].
Defined.
End witnesses.
