(* ===== verification/Filter.v ===== *)
(** * plugin/filter/filter.rs: [Filter], the filter of one subscription

    [Filter] puts the filters of a subscribe request together. The main claim is
    the contract of the plugin's filtering: an accepted request receives each
    message under exactly the names that ask for it; the second says what
    acceptance guarantees to the operator. *)

From S2P Require Import Prelude Bits Externals Proto Message Limits Names FilterBase DataSlice.
From S2P Require Import AccountsState Cuckoo Updates AccountsFilter AccountsScan AccountsMerge.
From S2P Require Import AccountsSpec TransactionsFilter SimpleFilters BlocksFilter.

Set Default Goal Selector "!".

Section filter.
Context {X : Externals}.

Record Filter := mkFilter {
  f_accounts : FilterAccounts;
  f_slots : FilterSlots;
  f_transactions : FilterTransactions;
  f_transactions_status : FilterTransactions;
  f_entries : FilterEntries;
  f_blocks : FilterBlocks;
  f_blocks_meta : FilterBlocksMeta;
  f_commitment : CommitmentLevel;
  f_accounts_data_slice : FilterAccountsDataSlice;
  f_ping : option Z
}.

Definition Filter_default : Filter :=
  {| f_accounts := FilterAccounts_default;
     f_slots := {| fs_filters := [] |};
     f_transactions := {| ft_filter_type := TypeTransaction; ft_filters := [] |};
     f_transactions_status := {| ft_filter_type := TypeTransactionStatus; ft_filters := [] |};
     f_entries := {| fe_filters := [] |};
     f_blocks := {| fb_filters := [] |};
     f_blocks_meta := {| fbm_filters := [] |};
     f_commitment := Processed;
     f_accounts_data_slice := [];
     f_ping := None |}.

Local Open Scope named_scope.

(** The fields of [Filter::new] after the accounts, in order. *)
Definition Filter_new_rest (config : SubscribeRequest) (limits : FilterLimits)
    (accounts : FilterAccounts) : named Filter :=
  let* slots := FilterSlots_new (req_slots config) (fl_slots limits) in
  let* transactions := FilterTransactions_new (req_transactions config) (fl_transactions limits) TypeTransaction in
  let* transactions_status := FilterTransactions_new (req_transactions_status config)
    (fl_transactions_status limits) TypeTransactionStatus in
  let* entries := FilterEntries_new (req_entry config) (fl_entries limits) in
  let* blocks := FilterBlocks_new (req_blocks config) (fl_blocks limits) in
  let* blocks_meta := FilterBlocksMeta_new (req_blocks_meta config) (fl_blocks_meta limits) in
  let* commitment := lift (decode_commitment (req_commitment config)) in
  let* accounts_data_slice := lift (FilterAccountsDataSlice_new (req_accounts_data_slice config)
    (fla_data_slice_max (fl_accounts limits))) in
  named_ret {| f_accounts := accounts;
               f_slots := slots;
               f_transactions := transactions;
               f_transactions_status := transactions_status;
               f_entries := entries;
               f_blocks := blocks;
               f_blocks_meta := blocks_meta;
               f_commitment := commitment;
               f_accounts_data_slice := accounts_data_slice;
               f_ping := req_ping config |}.

Local Close Scope named_scope.

Definition Filter_new (config : SubscribeRequest) (limits : FilterLimits) (names : FilterNames)
    : outcome (FilterResult Filter * FilterNames) :=
  '(r, names) ← FilterAccounts_new (req_accounts config) (fl_accounts limits) names;
  Done match r with
       | Ok accounts => Filter_new_rest config limits accounts names
       | Err e => (Err e, names)
       end.

(** ** Statistics *)

Record AccountFilterStats := mkAccountFilterStats { afs_accounts_len : Z; afs_owners_len : Z }.

Record TxnFilterStats := mkTxnFilterStats {
  tfs_accounts_include_len : Z;
  tfs_accounts_exclude_len : Z;
  tfs_accounts_required_len : Z;
  tfs_token_accounts_enabled : bool
}.

Record BlocksFilterStats := mkBlocksFilterStats { bfs_include_len : Z; bfs_exclude_len : Z }.

Record FilterStats := mkFilterStats {
  st_accounts : list AccountFilterStats;
  st_transactions : list TxnFilterStats;
  st_transaction_status : list TxnFilterStats;
  st_blocks : list BlocksFilterStats
}.

(** [usize::from(bool)]. *)
Definition usize_from (b : bool) : Z := if b then 1 else 0.

Definition account_stats (aggregate : FilterAccountAggregate) : AccountFilterStats :=
  {| afs_accounts_len := opt_set_len (faa_accounts aggregate);
     afs_owners_len := opt_set_len (faa_owners aggregate) |}.

Definition txn_stats (inner : FilterTransactionsInner) : TxnFilterStats :=
  {| tfs_accounts_include_len := HybridSet_len (fti_account_include inner);
     tfs_accounts_exclude_len := HybridSet_len (fti_account_exclude inner);
     tfs_accounts_required_len := len (fti_account_required inner);
     tfs_token_accounts_enabled := negb (option_none (fti_token_accounts inner)) |}.

Definition blocks_stats (inner : FilterBlocksInner) : BlocksFilterStats :=
  {| bfs_include_len :=
       Z.of_nat (size (fbi_account_include inner))
       + usize_from (negb (option_none (fbi_account_cuckoo inner)))
       + usize_from (none_or true (fbi_include_transactions inner))
       + usize_from (is_some_of true (fbi_include_accounts inner))
       + usize_from (is_some_of true (fbi_include_entries inner));
     bfs_exclude_len :=
       usize_from (is_some_of false (fbi_include_transactions inner))
       + usize_from (is_some_of false (fbi_include_accounts inner))
       + usize_from (is_some_of false (fbi_include_entries inner)) |}%Z.

Definition get_filter_stats (f : Filter) : FilterStats :=
  {| st_accounts := account_stats <$> FilterAccounts_aggregates (f_accounts f);
     st_transactions := (λ kv, txn_stats kv.2) <$> ft_filters (f_transactions f);
     st_transaction_status := (λ kv, txn_stats kv.2) <$> ft_filters (f_transactions_status f);
     st_blocks := (λ kv, blocks_stats kv.2) <$> fb_filters (f_blocks f) |}.

Definition get_metrics (f : Filter) : list (string * Z) :=
  let accounts := len (FilterAccounts_aggregates (f_accounts f)) in
  let slots := len (fs_filters (f_slots f)) in
  let transactions := len (ft_filters (f_transactions f)) in
  let transactions_status := len (ft_filters (f_transactions_status f)) in
  let entries := len (fe_filters (f_entries f)) in
  let blocks := len (fb_filters (f_blocks f)) in
  let blocks_meta := len (fbm_filters (f_blocks_meta f)) in
  [("accounts", accounts); ("slots", slots); ("transactions", transactions);
   ("transactions_status", transactions_status); ("entries", entries); ("blocks", blocks);
   ("blocks_meta", blocks_meta);
   ("all", accounts + slots + transactions + transactions_status + entries + blocks + blocks_meta)%Z].

Definition get_commitment_level (f : Filter) : CommitmentLevel := f_commitment f.

(** ** Updates *)

(** The updates, and the message afterwards: the lazily filled cells of a
    transaction are part of it. *)
Definition Filter_get_updates (f : Filter) (message : Message) (commitment : option CommitmentLevel)
    : outcome (FilteredUpdates * Message) :=
  match message with
  | MsgAccount m =>
      us ← FilterAccounts_get_updates (f_accounts f) m (f_accounts_data_slice f); Done (us, message)
  | MsgSlot m => Done (FilterSlots_get_updates (f_slots f) m commitment, message)
  | MsgTransaction m =>
      '(updates, m) ← FilterTransactions_get_updates (f_transactions f) m;
      '(status, m) ← FilterTransactions_get_updates (f_transactions_status f) m;
      Done (updates ++ status, MsgTransaction m)
  | MsgDeshredTransaction _ => Done ([], message)
  | MsgEntry m => Done (FilterEntries_get_updates (f_entries f) m, message)
  | MsgBlock m =>
      us ← FilterBlocks_get_updates (f_blocks f) m (f_accounts_data_slice f); Done (us, message)
  | MsgBlockMeta m => Done (FilterBlocksMeta_get_updates (f_blocks_meta f) m, message)
  end.

Definition Filter_get_pong_msg (now : Timestamp) (f : Filter) : option FilteredUpdate :=
  (λ id, FilteredUpdate_new_empty now (FuPong id)) <$> f_ping f.

(** ** What a request asks for *)

Definition request_wants (config : SubscribeRequest) (commitment : option CommitmentLevel)
    (message : Message) (name : string) : Prop :=
  match message with
  | MsgAccount m =>
      ∃ filter, (name, filter) ∈ req_accounts config ∧ config_matches filter (ma_account m)
  | MsgSlot m =>
      ∃ filter, (name, filter) ∈ req_slots config ∧ slot_config_matches filter m commitment
  | MsgTransaction m =>
      ∃ filter, ((name, filter) ∈ req_transactions config
                 ∨ (name, filter) ∈ req_transactions_status config) ∧
        tx_config_matches filter (mt_transaction m)
  | MsgDeshredTransaction _ => False
  | MsgEntry _ => name ∈ (req_entry config).*1
  | MsgBlock _ => name ∈ (req_blocks config).*1
  | MsgBlockMeta _ => name ∈ (req_blocks_meta config).*1
  end.

(** Protobuf maps have distinct keys. *)
Record request_wf (config : SubscribeRequest) : Prop := {
  rw_slots : NoDup (req_slots config).*1;
  rw_transactions : NoDup (req_transactions config).*1;
  rw_transactions_status : NoDup (req_transactions_status config).*1;
  rw_blocks : NoDup (req_blocks config).*1;
  rw_offsets : Forall (λ c, offsets_ok (rfa_filters c.2)) (req_accounts config)
}.

Definition message_cells_ok (message : Message) : Prop :=
  match message with
  | MsgTransaction m => cells_ok (mt_transaction m)
  | _ => True
  end.

(** The pieces of an accepted filter. *)
Lemma Filter_new_ok config limits names f names' :
  Filter_new config limits names = Done (Ok f, names') →
  (∃ n1 n2, FilterAccounts_new (req_accounts config) (fl_accounts limits) n1 = Done (Ok (f_accounts f), n2)) ∧
  (∃ n1 n2, FilterSlots_new (req_slots config) (fl_slots limits) n1 = (Ok (f_slots f), n2)) ∧
  (∃ n1 n2, FilterTransactions_new (req_transactions config) (fl_transactions limits) TypeTransaction n1
     = (Ok (f_transactions f), n2)) ∧
  (∃ n1 n2, FilterTransactions_new (req_transactions_status config) (fl_transactions_status limits)
     TypeTransactionStatus n1 = (Ok (f_transactions_status f), n2)) ∧
  (∃ n1 n2, FilterEntries_new (req_entry config) (fl_entries limits) n1 = (Ok (f_entries f), n2)) ∧
  (∃ n1 n2, FilterBlocks_new (req_blocks config) (fl_blocks limits) n1 = (Ok (f_blocks f), n2)) ∧
  (∃ n1 n2, FilterBlocksMeta_new (req_blocks_meta config) (fl_blocks_meta limits) n1
     = (Ok (f_blocks_meta f), n2)) ∧
  decode_commitment (req_commitment config) = Ok (f_commitment f) ∧
  FilterAccountsDataSlice_new (req_accounts_data_slice config) (fla_data_slice_max (fl_accounts limits))
    = Ok (f_accounts_data_slice f) ∧
  f_ping f = req_ping config.
Proof.
  unfold Filter_new. destruct (FilterAccounts_new _ _ names) as [[[accounts|e] n0]|] eqn:Ea; [|done..].
  intros Hrun. rewrite outcome_bind_done in Hrun. injection Hrun as Hrun. unfold Filter_new_rest in Hrun.
  apply named_bind_ok in Hrun as (slots & n1 & H1 & Hrun).
  apply named_bind_ok in Hrun as (txs & n2 & H2 & Hrun).
  apply named_bind_ok in Hrun as (sts & n3 & H3 & Hrun).
  apply named_bind_ok in Hrun as (ents & n4 & H4 & Hrun).
  apply named_bind_ok in Hrun as (blks & n5 & H5 & Hrun).
  apply named_bind_ok in Hrun as (metas & n6 & H6 & Hrun).
  apply named_bind_ok in Hrun as (c & n7 & H7 & Hrun). apply lift_ok in H7 as [H7 ->].
  apply named_bind_ok in Hrun as (ds & n8 & H8 & Hrun). apply lift_ok in H8 as [H8 ->].
  injection Hrun as <- _.
  cbn [f_accounts f_slots f_transactions f_transactions_status f_entries f_blocks f_blocks_meta
    f_commitment f_accounts_data_slice f_ping].
  repeat (split; [by eauto|]). done.
Qed.

(** C2. The contract of a subscription: when a request is accepted, every
    message of the plugin is processed without panic and the updates carry
    exactly the filter names whose conditions the message meets, by kind of
    message: accounts, slots (against the commitment of the caller),
    transactions under both transaction sections, entries, blocks and block
    metas; deshred transactions never match. (Offsets of memcmp filters below
    2^64 - 128, account filters outside [merge_hint_gap].) *)
Theorem filter_updates_spec config limits names f names' message commitment :
  Filter_new config limits names = Done (Ok f, names') →
  request_wf config → ¬ merge_hint_gap (FilterAccounts_aggregates (f_accounts f)) →
  message_cells_ok message →
  ∃ us message', Filter_get_updates f message commitment = Done (us, message') ∧
    message_cells_ok message' ∧ Message_get_slot message' = Message_get_slot message ∧
    ∀ name, name ∈ fname_text <$> (us ≫= fu_filters) ↔ request_wants config commitment message name.
Proof.
  intros Hnew [Hws Hwt Hwts Hwb Hoff] Hgap Hcells.
  apply Filter_new_ok in Hnew as ((n1 & n1' & Ha) & (n2 & n2' & Hs) & (n3 & n3' & Ht) & (n4 & n4' & Hts)
    & (n5 & n5' & He) & (n6 & n6' & Hb) & (n7 & n7' & Hm) & _ & _ & _).
  destruct message as [m|m|m|m|m|m|m]; cbn [Filter_get_updates request_wants].
  - eexists _, _. split; [done|]. split; [done|]. split; [done|]. intros name.
    unfold FilterSlots_get_updates. rewrite filtered_updates_once_names.
    by apply (FilterSlots_select_spec _ _ _ _ _ _ _ Hs).
  - destruct (account_updates_ok _ _ _ _ _ m (f_accounts_data_slice f) Ha Hoff Hgap) as (_ & filters & -> & Hin).
    rewrite outcome_bind_done. eexists _, _. split; [done|]. split; [done|]. split; [done|].
    intros name. by rewrite filtered_updates_once_names.
  - destruct (transaction_updates_ok _ _ _ _ _ _ m Ht Hwt Hcells) as (us & m1 & -> & Hc1 & Hf1 & Hs1 & Hin1).
    destruct (transaction_updates_ok _ _ _ _ _ _ m1 Hts Hwts Hc1) as (us2 & m2 & Heq & Hc2 & Hf2 & Hs2 & Hin2).
    rewrite outcome_bind_done, Heq, outcome_bind_done. eexists _, _. split; [done|]. split; [done|].
    split; [cbn; congruence|]. intros name. rewrite bind_app, fmap_app, elem_of_app, Hin1, Hin2.
    setoid_rewrite (config_matches_forget _ _ _ Hf1). naive_solver.
  - eexists _, _. split; [done|]. split; [done|]. split; [done|]. intros name. cbn. set_solver.
  - apply FilterEntries_new_ok in He as [_ He]. eexists _, _. split; [done|]. split; [done|].
    split; [done|]. intros name. unfold FilterEntries_get_updates. by rewrite filtered_updates_once_names, He.
  - apply FilterBlocksMeta_new_ok in Hm as [_ Hm]. eexists _, _. split; [done|]. split; [done|].
    split; [done|]. intros name. unfold FilterBlocksMeta_get_updates. by rewrite filtered_updates_once_names, Hm.
  - destruct (block_updates_ok _ _ _ _ _ m (f_accounts_data_slice f) Hb Hwb) as (us & -> & Hall).
    rewrite outcome_bind_done. eexists _, _. split; [done|]. split; [done|]. split; [done|]. intros name.
    assert (fname_text <$> (us ≫= fu_filters) = (req_blocks config).*1) as ->; [|done].
    clear -Hall. induction Hall as [|c u l us [H _] _ IH]; csimpl; [done|].
    rewrite fmap_app, H, IH. done.
Qed.

(** ** What acceptance guarantees *)

(** Every string is a key, and not one the operator rejects. *)
Definition keys_allowed (l : list string) (reject : gset Pubkey) : Prop :=
  Forall (λ str, ∃ pk, pubkey_from_str str = Ok pk ∧ pk ∉ reject) l.

Definition cuckoo_allowed (o : option ProtoCuckooFilter) (max_size : Z) : Prop :=
  ∀ p, o = Some p → (len (pcf_data p) <= max_size)%Z.

Definition account_within (limits : FilterLimitsAccounts) (filter : SubscribeRequestFilterAccounts)
    : Prop :=
  (fla_any limits = false → rfa_account filter ≠ [] ∨ rfa_owner filter ≠ [] ∨
     rfa_cuckoo_accounts_filter filter ≠ None) ∧
  (len (rfa_account filter) <= fla_account_max limits)%Z ∧
  (len (rfa_owner filter) <= fla_owner_max limits)%Z ∧
  keys_allowed (rfa_account filter) (fla_account_reject limits) ∧
  keys_allowed (rfa_owner filter) (fla_owner_reject limits) ∧
  cuckoo_allowed (rfa_cuckoo_accounts_filter filter) (fla_cuckoo_max_size limits).

Definition tx_within (limits : FilterLimitsTransactions) (filter : SubscribeRequestFilterTransactions)
    : Prop :=
  (flt_any limits = false → filter ≠ mkRequestTransactions None None (rft_signature filter) [] [] [] None None) ∧
  (len (rft_account_include filter) <= flt_account_include_max limits)%Z ∧
  (len (rft_account_exclude filter) <= flt_account_exclude_max limits)%Z ∧
  (len (rft_account_required filter) <= flt_account_required_max limits)%Z ∧
  keys_allowed (rft_account_include filter) (flt_account_include_reject limits) ∧
  keys_allowed (rft_account_exclude filter) ∅ ∧
  keys_allowed (rft_account_required filter) ∅ ∧
  cuckoo_allowed (rft_cuckoo_account_include filter) (flt_cuckoo_max_size limits).

Definition block_within (limits : FilterLimitsBlocks) (filter : SubscribeRequestFilterBlocks) : Prop :=
  (flb_account_include_any limits = false → rfb_account_include filter ≠ []) ∧
  (len (rfb_account_include filter) <= flb_account_include_max limits)%Z ∧
  keys_allowed (rfb_account_include filter) (flb_account_include_reject limits) ∧
  (flb_include_transactions limits = false → rfb_include_transactions filter = Some false) ∧
  (flb_include_accounts limits = false → rfb_include_accounts filter ≠ Some true) ∧
  cuckoo_allowed (rfb_cuckoo_account_include filter) (flb_cuckoo_max_size limits).

Definition request_within (limits : FilterLimits) (config : SubscribeRequest) : Prop :=
  (len (req_accounts config) <= fla_max (fl_accounts limits))%Z ∧
  (len (req_slots config) <= fls_max (fl_slots limits))%Z ∧
  (len (req_transactions config) <= flt_max (fl_transactions limits))%Z ∧
  (len (req_transactions_status config) <= flt_max (fl_transactions_status limits))%Z ∧
  (len (req_entry config) <= fle_max (fl_entries limits))%Z ∧
  (len (req_blocks config) <= flb_max (fl_blocks limits))%Z ∧
  (len (req_blocks_meta config) <= flbm_max (fl_blocks_meta limits))%Z ∧
  (len (req_accounts_data_slice config) <= fla_data_slice_max (fl_accounts limits))%Z ∧
  Forall (λ c, account_within (fl_accounts limits) c.2) (req_accounts config) ∧
  Forall (λ c, tx_within (fl_transactions limits) c.2) (req_transactions config) ∧
  Forall (λ c, tx_within (fl_transactions_status limits) c.2) (req_transactions_status config) ∧
  Forall (λ c, block_within (fl_blocks limits) c.2) (req_blocks config).

Lemma keys_allowed_decode l reject s : decode_pubkeys_into_set l reject = Ok s → keys_allowed l reject.
Proof.
  unfold decode_pubkeys_into_set. destruct (collect_result _) as [pks|e] eqn:E; [|done].
  intros _. apply decode_pubkeys_ok in E. unfold keys_allowed.
  induction E as [|str pk l pks H _ IH]; constructor; [|done]. by exists pk.
Qed.

Lemma keys_allowed_parse (l : list string) reject ns o ns' :
  match l with
  | [] => named_ret None
  | _ => named_bind (lift (decode_pubkeys_into_set l reject))
           (λ s, named_ret (if bool_decide (s = ∅) then None else Some s))
  end ns = (Ok o, ns') → keys_allowed l reject.
Proof.
  destruct l as [|str0 l]; [intros; constructor|]. rewrite named_bind_ok.
  intros (s & ns1 & Hs & _). apply lift_ok in Hs as [Hs _]. by eapply keys_allowed_decode.
Qed.

Lemma lift_check_tt (r : result FilterLimitsCheckError unit) ns u ns' :
  lift_check r ns = (Ok u, ns') → r = Ok tt.
Proof. destruct u. by intros [? _]%lift_check_ok. Qed.

Lemma account_limits limits c ns a ns' :
  FilterAccounts_aggregate limits c ns = (Ok a, ns') → account_within limits c.2.
Proof.
  destruct c as [name filter]. unfold FilterAccounts_aggregate, account_within. intros Hrun. cbn [snd].
  apply named_bind_ok in Hrun as (u1 & n1 & Hc1 & Hrun). apply lift_check_tt in Hc1. rewrite check_any_ok in Hc1.
  apply named_bind_ok in Hrun as (u2 & n2 & Hc2 & Hrun). apply lift_check_tt, check_pubkey_max_ok in Hc2.
  apply named_bind_ok in Hrun as (u3 & n3 & Hc3 & Hrun). apply lift_check_tt, check_pubkey_max_ok in Hc3.
  apply named_bind_ok in Hrun as (h & n4 & _ & Hrun).
  apply named_bind_ok in Hrun as (accounts & n5 & Hacc%keys_allowed_parse & Hrun).
  apply named_bind_ok in Hrun as (owners & n6 & Hown%keys_allowed_parse & Hrun).
  apply named_bind_ok in Hrun as (st & n7 & _ & Hrun).
  apply named_bind_ok in Hrun as (cuckoo & n8 & Hck & Hrun).
  repeat (split; [done|]). split; [|split; [done|split; [done|split; [done|split; [done|]]]]].
  - intros Hany. rewrite Hany in Hc1.
    destruct (rfa_account filter), (rfa_owner filter), (rfa_cuckoo_accounts_filter filter);
      try (by left); try (by right; left); try (by right; right). by discriminate Hc1.
  - intros p Hp. rewrite Hp in Hck. apply named_bind_ok in Hck as (u & n9 & Hc & _).
    by apply lift_check_tt, check_max_ok in Hc.
Qed.

Lemma tx_limits limits c ns kv ns' :
  FilterTransactions_inner limits c ns = (Ok kv, ns') → tx_within limits c.2.
Proof.
  destruct c as [name filter]. unfold FilterTransactions_inner, tx_within. intros Hrun. cbn [snd].
  apply named_bind_ok in Hrun as (u1 & n1 & Hc1 & Hrun). apply lift_check_tt in Hc1. rewrite check_any_ok in Hc1.
  apply named_bind_ok in Hrun as (u2 & n2 & Hc2 & Hrun). apply lift_check_tt, check_pubkey_max_ok in Hc2.
  apply named_bind_ok in Hrun as (u3 & n3 & Hc3 & Hrun). apply lift_check_tt, check_pubkey_max_ok in Hc3.
  apply named_bind_ok in Hrun as (u4 & n4 & Hc4 & Hrun). apply lift_check_tt, check_pubkey_max_ok in Hc4.
  apply named_bind_ok in Hrun as (cuckoo & n5 & Hck & Hrun). apply decode_cuckoo_ok in Hck as [_ Hck].
  apply named_bind_ok in Hrun as (h & n6 & _ & Hrun).
  apply named_bind_ok in Hrun as (sg & n7 & _ & Hrun).
  apply named_bind_ok in Hrun as (inc & n8 & Hinc & Hrun). apply lift_ok in Hinc as [Hinc%keys_allowed_decode _].
  apply named_bind_ok in Hrun as (exc & n9 & Hexc & Hrun). apply lift_ok in Hexc as [Hexc%keys_allowed_decode _].
  apply named_bind_ok in Hrun as (req & n10 & Hreq & Hrun). apply lift_ok in Hreq as [Hreq%keys_allowed_decode _].
  split; [|done]. intros Hany Hf. rewrite Hf in Hc1. rewrite Hc1 in Hany; done.
Qed.

Lemma block_limits limits c ns kv ns' :
  FilterBlocks_inner limits c ns = (Ok kv, ns') → block_within limits c.2.
Proof.
  destruct c as [name filter]. unfold FilterBlocks_inner, block_within. intros Hrun. cbn [snd].
  apply named_bind_ok in Hrun as (u1 & n1 & Hc1 & Hrun). apply lift_check_tt in Hc1. rewrite check_any_ok in Hc1.
  apply named_bind_ok in Hrun as (u2 & n2 & Hc2 & Hrun). apply lift_check_tt, check_pubkey_max_ok in Hc2.
  apply named_bind_ok in Hrun as (u3 & n3 & Hc3 & Hrun). apply lift_ok in Hc3 as [Hc3 _].
  apply named_bind_ok in Hrun as (u4 & n4 & Hc4 & Hrun). apply lift_ok in Hc4 as [Hc4 _].
  apply named_bind_ok in Hrun as (u5 & n5 & _ & Hrun).
  apply named_bind_ok in Hrun as (cuckoo & n6 & Hck & Hrun). apply decode_cuckoo_ok in Hck as [_ Hck].
  apply named_bind_ok in Hrun as (h & n7 & _ & Hrun).
  apply named_bind_ok in Hrun as (inc & n8 & Hinc & Hrun). apply lift_ok in Hinc as [Hinc%keys_allowed_decode _].
  split; [|split; [done|split; [done|split; [|split; [|done]]]]].
  - intros Hany Hf. rewrite Hany in Hc1. by discriminate (Hc1 (bool_decide_eq_true_2 _ Hf)).
  - intros Hl. rewrite Hl in Hc3. unfold allow_or_err in Hc3.
    by destruct (rfb_include_transactions filter) as [[]|].
  - intros Hl. rewrite Hl in Hc4. unfold allow_or_err in Hc4.
    by destruct (rfb_include_accounts filter) as [[]|].
Qed.

Lemma named_mapM_forall {A B} (f : A → named B) (P : A → Prop) l ns bs ns' :
  named_mapM f l ns = (Ok bs, ns') → (∀ a n b n', f a n = (Ok b, n') → P a) → Forall P l.
Proof.
  intros H HP. apply named_mapM_ok in H. induction H as [|a b l bs (n & n' & H) _ IH]; constructor; eauto.
Qed.

Lemma named_collect_forall {C V} (f : C → named (FilterName * V)) (P : C → Prop) l ns m ns' :
  named_collect_map f l ns = (Ok m, ns') → (∀ c n kv n', f c n = (Ok kv, n') → P c) → Forall P l.
Proof.
  intros H HP. eapply (named_foldM_ind (λ pre _, Forall P pre)); [exact H|done|].
  intros pre c post s n s' n' _ Hstep Hpre. apply named_bind_ok in Hstep as (kv & n1 & Hf & _).
  apply Forall_app. split; [done|]. apply Forall_singleton. eauto.
Qed.

Lemma transactions_limits configs limits ty ns f ns' :
  FilterTransactions_new configs limits ty ns = (Ok f, ns') →
  (len configs <= flt_max limits)%Z ∧ Forall (λ c, tx_within limits c.2) configs.
Proof.
  unfold FilterTransactions_new. intros Hrun.
  apply named_bind_ok in Hrun as (u & n1 & Hc & Hrun). apply lift_check_tt, check_max_ok in Hc.
  apply named_bind_ok in Hrun as (filters & n2 & Hm & Hrun). split; [done|].
  eapply named_collect_forall; [exact Hm|]. intros. by eapply tx_limits.
Qed.

Lemma accounts_limits configs limits ns f ns' :
  FilterAccounts_new configs limits ns = Done (Ok f, ns') →
  (len configs <= fla_max limits)%Z ∧ Forall (λ c, account_within limits c.2) configs.
Proof.
  intros Hnew. pose proof (FilterAccounts_new_ok _ _ _ _ _ Hnew) as [Hmax _]. split; [done|].
  unfold FilterAccounts_new, FilterAccounts_aggregates_of in Hnew.
  destruct (named_bind _ _ ns) as [[aggs|e] n0] eqn:E; [|done].
  apply named_bind_ok in E as (u & n1 & _ & E). eapply named_mapM_forall; [exact E|].
  intros. by eapply account_limits.
Qed.

Lemma blocks_limits configs limits ns f ns' :
  FilterBlocks_new configs limits ns = (Ok f, ns') →
  (len configs <= flb_max limits)%Z ∧ Forall (λ c, block_within limits c.2) configs.
Proof.
  unfold FilterBlocks_new. intros Hrun.
  apply named_bind_ok in Hrun as (u & n1 & Hc & Hrun). apply lift_check_tt, check_max_ok in Hc.
  apply named_bind_ok in Hrun as (filters & n2 & Hm & Hrun). split; [done|].
  eapply named_collect_forall; [exact Hm|]. intros. by eapply block_limits.
Qed.

Lemma slots_limits configs limits ns f ns' :
  FilterSlots_new configs limits ns = (Ok f, ns') → (len configs <= fls_max limits)%Z.
Proof.
  unfold FilterSlots_new. intros Hrun. apply named_bind_ok in Hrun as (u & n1 & Hc & _).
  by apply lift_check_tt, check_max_ok in Hc.
Qed.

(** Admission: building the filter of a request never panics, and a request
    that is accepted is within every limit of the operator that is enforced
    (counts, key lists, rejected keys, cuckoo sizes, the bans on empty filters
    and on block transactions and accounts); its commitment is one of the three
    levels and is the one the subscription runs at. *)
Theorem filter_new_within_limits config limits names :
  ∃ r names', Filter_new config limits names = Done (r, names') ∧
    ∀ f, r = Ok f →
      request_within limits config ∧
      get_commitment_level f = default Processed (req_commitment config ≫= CommitmentLevel_try_from) ∧
      (∀ v, req_commitment config = Some v → (0 <= v <= 2)%Z).
Proof.
  assert (∃ r names', Filter_new config limits names = Done (r, names')) as (r & names' & Hrun).
  { unfold Filter_new, FilterAccounts_new.
    destruct (FilterAccounts_aggregates_of _ _ names) as [[aggs|e] n]; [|by eexists _, _].
    destruct (build_total aggs) as (s & -> & _). rewrite !outcome_bind_done.
    destruct (Filter_new_rest _ _ _ n) as [r n'] eqn:E. by eexists _, _. }
  exists r, names'. split; [done|]. intros f ->.
  apply Filter_new_ok in Hrun as ((n1 & n1' & Ha) & (n2 & n2' & Hs) & (n3 & n3' & Ht) & (n4 & n4' & Hts)
    & (n5 & n5' & He) & (n6 & n6' & Hb) & (n7 & n7' & Hm) & Hc & Hds & _).
  apply accounts_limits in Ha as [? ?]. apply slots_limits in Hs.
  apply transactions_limits in Ht as [? ?]. apply transactions_limits in Hts as [? ?].
  apply FilterEntries_new_ok in He as [? _]. apply FilterBlocksMeta_new_ok in Hm as [? _].
  apply blocks_limits in Hb as [? ?].
  split; [|].
  - repeat (split; [done|]). split; [|done].
    unfold FilterAccountsDataSlice_new in Hds. case_match; [|done].
    destruct a. by apply check_max_ok.
  - unfold decode_commitment in Hc. unfold get_commitment_level.
    destruct (req_commitment config) as [v|]; simpl in Hc |- *.
    + destruct (CommitmentLevel_try_from v) as [c|] eqn:Ev; [|done]. case_match; [|done].
      injection Hc as <-. split; [done|]. intros ? [= <-].
      unfold CommitmentLevel_try_from in Ev. destruct (Z.eqb_spec v 0); [lia|].
      destruct (Z.eqb_spec v 1); [lia|]. destruct (Z.eqb_spec v 2); [lia|done].
    + split; [|done]. by injection Hc as <-.
Qed.
End filter.

(** ** A concrete subscription *)

Section witnesses.
#[local] Existing Instance toy_externals.

Definition demo_request : SubscribeRequest :=
  mkSubscribeRequest [("acc", mkRequestAccounts ["A"] [] [] None None)]
    [("s", mkRequestSlots (Some true) None)] demo_tx_configs [("st", mkRequestTransactions None None None [] [] [] None None)]
    demo_block_configs [("meta", ())] [("e", ())] (Some 1%Z) [] (Some 7%Z) None.

(** The names each update of a message carries. *)
Definition demo_run (message : Message) : option (list (list string)) :=
  match Filter_new demo_request FilterLimits_default (FilterNames_new 0 10 10 10) with
  | Done (Ok f, _) =>
      match Filter_get_updates f message (Some (get_commitment_level f)) with
      | Done (us, _) => Some ((λ u, fname_text <$> fu_filters u) <$> us)
      | Panic => None
      end
  | _ => None
  end.

Example demo_run_results :
  demo_run (MsgTransaction demo_tx) = Some [["direct"; "changed"]; ["st"]] ∧
  demo_run (MsgSlot (mkMessageSlot 4 None StatusConfirmed None (mkTimestamp 0 0))) = Some [["s"]] ∧
  demo_run (MsgSlot (mkMessageSlot 4 None StatusProcessed None (mkTimestamp 0 0))) = Some [] ∧
  demo_run (MsgBlock demo_block) = Some [["all"]; ["other"]].
Proof. by vm_compute. Qed.

(** The request is accepted and its account index stays below the bitset limit. *)
Definition demo_request_indexed : bool :=
  match Filter_new demo_request FilterLimits_default (FilterNames_new 0 10 10 10) with
  | Done (Ok f, _) => (index_memory (FilterAccounts_aggregates (f_accounts f)) <=? MAX_BITSET_BYTES)%Z
  | _ => false
  end.

Lemma demo_request_indexed_true : demo_request_indexed = true.
Proof. by vm_compute. Qed.

Lemma filter_updates_spec_witness :
  ∃ f names' us message',
    Filter_new demo_request FilterLimits_default (FilterNames_new 0 10 10 10) = Done (Ok f, names') ∧
    Filter_get_updates f (MsgTransaction demo_tx) None = Done (us, message') ∧
    ∀ name, name ∈ fname_text <$> (us ≫= fu_filters) ↔
      request_wants demo_request None (MsgTransaction demo_tx) name.
Proof.
  pose proof demo_request_indexed_true as Hok. unfold demo_request_indexed in Hok.
  destruct (Filter_new demo_request FilterLimits_default (FilterNames_new 0 10 10 10))
    as [[[f|e] ns]|] eqn:E; [|discriminate Hok|discriminate Hok].
  edestruct (filter_updates_spec _ _ _ _ _ (MsgTransaction demo_tx) None E) as (us & m' & Hu & _ & _ & Hn).
  - split; try (apply (bool_decide_eq_true_1 _); reflexivity).
    apply Forall_singleton. by apply Forall_nil.
  - intros [Hm _]. apply Z.leb_le in Hok. lia.
  - split; intros s Hs; discriminate Hs.
  - exists f, ns, us, m'. split; [reflexivity|]. split; [exact Hu|exact Hn].
Defined.
End witnesses.
