(* ===== verification/Service.v ===== *)
(** * grpc.rs: statuses and subscription permits

    [SubscriptionTracker] counts the live subscriptions of each subscriber. Its
    mutex makes every handler one step. Metrics and logs are not modelled. *)

From S2P Require Import Prelude Message.

Set Default Goal Selector "!".

Local Open Scope Z_scope.

(** The tonic statuses the handlers build. *)
Inductive TonicStatus :=
| StatusInternal (message : string)
| StatusUnknown (message : string)
| StatusUnimplemented (message : string)
| StatusResourceExhausted (message : string)
| StatusUnavailable (message : string)
| StatusOutOfRange (message : string)
| StatusInvalidArgument (message : string).

(** ** Permits *)

Record SubscriptionTracker := mkSubscriptionTracker {
  str_counters : gmap string Z;
  str_subscription_limit : Z;
  str_limit_enforce : bool
}.

Definition SubscriptionTracker_new (limit : Z) (enforce : bool) : SubscriptionTracker :=
  mkSubscriptionTracker ∅ limit enforce.

Definition set_counters (t : SubscriptionTracker) (counters : gmap string Z) : SubscriptionTracker :=
  mkSubscriptionTracker counters (str_subscription_limit t) (str_limit_enforce t).

(** A permit is the key it was given for. [entry(id).or_insert(0)] comes first. *)
Definition try_insert (t : SubscriptionTracker) (subscriber_id : string)
    : SubscriptionTracker * result unit string :=
  let count := default 0 (str_counters t !! subscriber_id) in
  let t := set_counters t (<[subscriber_id := count]> (str_counters t)) in
  if (str_subscription_limit t <=? count) && str_limit_enforce t
  then (t, Err tt)
  else (set_counters t (<[subscriber_id := saturating_add count 1]> (str_counters t)), Ok subscriber_id).

Definition SubscriptionOwnedPermit_drop (t : SubscriptionTracker) (key : string) : SubscriptionTracker :=
  match str_counters t !! key with
  | Some count =>
      let count := saturating_sub count 1 in
      if count =? 0 then set_counters t (delete key (str_counters t))
      else set_counters t (<[key := count]> (str_counters t))
  | None => t
  end.

(** The permit of [subscribe], [subscribe_deshred] and [subscribe_gossip]. *)
Definition subscription_permit (t : SubscriptionTracker) (subscriber_id : option string)
    : SubscriptionTracker * result TonicStatus (option string) :=
  match subscriber_id with
  | Some id =>
      match try_insert t id with
      | (t, Ok permit) => (t, Ok (Some permit))
      | (t, Err _) => (t, Err (StatusResourceExhausted "max subscription limit exceeded"))
      end
  | None => (t, Ok None)
  end.

(** The permits that are alive after some subscriptions and drops. (Every live
    permit takes memory, so there are fewer than [usize::MAX].) *)
Inductive permits_reachable (limit : Z) (enforce : bool) : SubscriptionTracker → list string → Prop :=
| permits_init : permits_reachable limit enforce (SubscriptionTracker_new limit enforce) []
| permits_subscribe t live id t' permit :
    permits_reachable limit enforce t live → len live < usize_max →
    subscription_permit t id = (t', Ok permit) →
    permits_reachable limit enforce t' (option_list permit ++ live)
| permits_refused t live id t' e :
    permits_reachable limit enforce t live → len live < usize_max →
    subscription_permit t id = (t', Err e) →
    permits_reachable limit enforce t' live
| permits_drop t live key live' :
    permits_reachable limit enforce t live → live ≡ₚ key :: live' →
    permits_reachable limit enforce (SubscriptionOwnedPermit_drop t key) live'.

Definition occurrences (key : string) (live : list string) : nat := length (filter (key =.) live).

Lemma occurrences_cons key k live :
  occurrences key (k :: live) = (if bool_decide (key = k) then S (occurrences key live) else occurrences key live).
Proof. unfold occurrences. rewrite filter_cons. by case_decide; case_bool_decide. Qed.

Lemma occurrences_perm key live live' : live ≡ₚ live' → occurrences key live = occurrences key live'.
Proof. intros H. unfold occurrences. by rewrite H. Qed.

Lemma occurrences_le key live : (occurrences key live <= length live)%nat.
Proof. apply length_filter. Qed.

(** What the counters should be. *)
Definition counter_of (key : string) (live : list string) : option Z :=
  match occurrences key live with O => None | n => Some (Z.of_nat n) end.

Lemma try_insert_counters t live id : 0 < str_subscription_limit t → len live < usize_max →
  (∀ key, str_counters t !! key = counter_of key live) →
  (str_limit_enforce t = true → ∀ key, Z.of_nat (occurrences key live) <= str_subscription_limit t) →
  match try_insert t id with
  | (t', Ok permit) => permit = id ∧ (∀ key, str_counters t' !! key = counter_of key (id :: live)) ∧
      (str_limit_enforce t = true → Z.of_nat (occurrences id live) < str_subscription_limit t)
  | (t', Err _) => str_limit_enforce t = true ∧ t' = t ∧
      Z.of_nat (occurrences id live) = str_subscription_limit t
  end ∧ str_subscription_limit (try_insert t id).1 = str_subscription_limit t ∧
  str_limit_enforce (try_insert t id).1 = str_limit_enforce t.
Proof.
  intros Hpos Hlen Hc Hmax. unfold try_insert.
  assert (default 0 (str_counters t !! id) = Z.of_nat (occurrences id live)) as ->.
  { rewrite Hc. unfold counter_of. by destruct (occurrences id live). }
  cbn [set_counters str_subscription_limit str_limit_enforce str_counters].
  pose proof (occurrences_le id live) as Hle.
  destruct (Z.leb_spec (str_subscription_limit t) (Z.of_nat (occurrences id live))); cbn [andb].
  - destruct (str_limit_enforce t) eqn:Ee; cbn [fst].
    + split; [|done]. split; [done|]. specialize (Hmax eq_refl id). split; [|lia].
      rewrite insert_id; [by destruct t|]. rewrite Hc. unfold counter_of. destruct (occurrences id live); [lia|done].
    + split; [|done]. split; [done|]. split; [|done]. intros key. cbn [set_counters str_counters]. rewrite insert_insert_eq.
      unfold counter_of. rewrite occurrences_cons. case_bool_decide as Hk; [subst key|].
      * rewrite lookup_insert_eq. unfold saturating_add, len, usize_max in *. f_equal. lia.
      * rewrite lookup_insert_ne by done. apply Hc.
  - split; [|done]. split; [done|]. split; [|done]. intros key. cbn [set_counters str_counters]. rewrite insert_insert_eq.
    unfold counter_of. rewrite occurrences_cons. case_bool_decide as Hk; [subst key|].
    + rewrite lookup_insert_eq. unfold saturating_add, len, usize_max in *. f_equal. lia.
    + rewrite lookup_insert_ne by done. apply Hc.
Qed.

Lemma permit_drop_counters t live key live' :
  (∀ k, str_counters t !! k = counter_of k live) → live ≡ₚ key :: live' →
  ∀ k, str_counters (SubscriptionOwnedPermit_drop t key) !! k = counter_of k live'.
Proof.
  intros Hc Hp k. set (n := occurrences key live').
  assert (∀ k, str_counters t !! k = counter_of k (key :: live')) as Hc'.
  { intros k0. rewrite Hc. unfold counter_of. by rewrite (occurrences_perm k0 _ _ Hp). }
  assert (k ≠ key → str_counters t !! k = counter_of k live') as Hne.
  { intros Hk. rewrite Hc'. unfold counter_of. by rewrite occurrences_cons, bool_decide_eq_false_2. }
  assert (str_counters t !! key = Some (Z.of_nat (S n))) as Hk.
  { rewrite Hc'. unfold counter_of. by rewrite occurrences_cons, bool_decide_eq_true_2. }
  unfold SubscriptionOwnedPermit_drop. rewrite Hk. unfold saturating_sub.
  replace (Z.max (Z.of_nat (S n) - 1) 0) with (Z.of_nat n) by lia.
  destruct (Z.eqb_spec (Z.of_nat n) 0); cbn [set_counters str_counters]; destruct (decide (k = key)) as [->|Hkk].
  - rewrite lookup_delete_eq. unfold counter_of. fold n. by replace n with O by lia.
  - rewrite lookup_delete_ne by done. by apply Hne.
  - rewrite lookup_insert_eq. unfold counter_of. fold n. by destruct n.
  - rewrite lookup_insert_ne by done. by apply Hne.
Qed.

Record permits_inv (limit : Z) (enforce : bool) (t : SubscriptionTracker) (live : list string) : Prop := {
  pi_limit : str_subscription_limit t = limit;
  pi_enforce : str_limit_enforce t = enforce;
  pi_counters key : str_counters t !! key = counter_of key live;
  pi_bounded : enforce = true → ∀ key, Z.of_nat (occurrences key live) <= limit
}.

Lemma permits_inv_reachable limit enforce t live :
  0 < limit → permits_reachable limit enforce t live → permits_inv limit enforce t live ∧ len live <= usize_max.
Proof.
  intros Hl. induction 1 as [|t live id t' permit Hr [[<- <- Hc Hb] Hlen] Hlt Hs
    |t live id t' e Hr [[<- <- Hc Hb] Hlen] Hlt Hs|t live key live' Hr [[<- <- Hc Hb] Hlen] Hp].
  - split; [|done]. split; try done. intros _ key. cbn. lia.
  - destruct id as [id|]; [|by injection Hs as <- <-]. unfold subscription_permit in Hs.
    destruct (try_insert_counters t live id) as (Hi & H1 & H2); [done|done|done|done|].
    destruct (try_insert t id) as [t1 [permit1|e]]; [|done]. injection Hs as <- <-. cbn [fst] in *.
    destruct Hi as (-> & Hc' & Hlt'). split; [|unfold len in *; cbn; lia]. split; [done|done|exact Hc'|].
    intros He key. change (option_list (Some id) ++ live) with (id :: live). rewrite occurrences_cons. case_bool_decide as Hk; [subst key|].
    + specialize (Hlt' He). lia.
    + by apply Hb.
  - split; [|done]. destruct id as [id|]; [|done]. unfold subscription_permit in Hs.
    destruct (try_insert_counters t live id) as (Hi & H1 & H2); [done|done|done|done|].
    destruct (try_insert t id) as [t1 [permit1|e1]]; [done|]. injection Hs as <- <-. cbn [fst] in *.
    destruct Hi as (_ & -> & _). by split.
  - pose proof (Permutation_length Hp) as Hlen'. split; [|unfold len in *; cbn in Hlen'; lia].
    split; [unfold SubscriptionOwnedPermit_drop; by repeat case_match..|by eapply permit_drop_counters|].
    intros He k. specialize (Hb He k). rewrite (occurrences_perm k _ _ Hp), occurrences_cons in Hb.
    case_bool_decide; lia.
Qed.

(** When a subscriber is refused. *)
Lemma permit_refused_iff limit enforce t live id :
  0 < limit → permits_reachable limit enforce t live → len live < usize_max →
  (∃ t' e, subscription_permit t (Some id) = (t', Err e)) ↔ enforce = true ∧ Z.of_nat (occurrences id live) = limit.
Proof.
  intros Hl Hr Hlen. destruct (permits_inv_reachable _ _ _ _ Hl Hr) as [[<- <- Hc Hb] _].
  destruct (try_insert_counters t live id) as (Hi & _); [done|done|done|done|].
  unfold subscription_permit. destruct (try_insert t id) as [t1 [permit|e]].
  - destruct Hi as (_ & _ & Hlt). split; [by intros (t' & e & [=])|]. intros [He Heq]. specialize (Hlt He). lia.
  - destruct Hi as (He & _ & Heq). split; [done|]. intros _. by eexists _, _.
Qed.

(** Subscription permits: after any subscriptions, refusals and drops in any
    order, the counter of every subscriber is the number of its live permits
    and subscribers without one have no counter. When the limit is enforced no
    subscriber holds more permits than it; a subscription is refused exactly
    when its subscriber holds that many, and a refusal changes nothing. *)
Theorem permits_counted limit enforce t live :
  0 < limit → permits_reachable limit enforce t live → len live < usize_max →
  (∀ key, str_counters t !! key = counter_of key live) ∧
  (enforce = true → ∀ key, Z.of_nat (occurrences key live) <= limit) ∧
  (∀ id, (∃ t' e, subscription_permit t (Some id) = (t', Err e)) ↔
     enforce = true ∧ Z.of_nat (occurrences id live) = limit) ∧
  (∀ id t' e, subscription_permit t id = (t', Err e) → t' = t).
Proof.
  intros Hl Hr Hlen. destruct (permits_inv_reachable _ _ _ _ Hl Hr) as [[<- <- Hc Hb] _].
  split; [done|]. split; [done|]. split.
  - intros id. by apply permit_refused_iff.
  - intros [id|] t' e; [|done]. destruct (try_insert_counters t live id) as (Hi & _); [done|done|done|done|].
    unfold subscription_permit. destruct (try_insert t id) as [t1 [permit|e1]]; [done|]. intros [= <- _]. apply Hi.
Qed.

Lemma permits_counted_witness :
  ∃ t, permits_reachable 1 true t ["a"] ∧ ∃ t' e, subscription_permit t (Some "a") = (t', Err e).
Proof.
  assert (permits_reachable 1 true (subscription_permit (SubscriptionTracker_new 1 true) (Some "a")).1 ["a"]) as Hr.
  { eapply (permits_subscribe 1 true _ [] (Some "a") _ (Some "a")); [apply permits_init|reflexivity|reflexivity]. }
  eexists. split; [exact Hr|].
  apply (permits_counted 1 true _ ["a"]); [reflexivity|exact Hr|reflexivity|]. split; reflexivity.
Defined.
