(* ===== verification/BlockMeta.v ===== *)
(** * grpc.rs: BlockMetaStorage and the unary methods

    A task stores the slot statuses and block metas the plugin sends; the
    unary methods read it. The store is behind a write lock for a whole message
    and a read lock for a whole request, so both are single steps.
    [MAX_RECENT_BLOCKHASHES] (solana-clock) is a parameter. *)

From S2P Require Import Prelude Message Convert Service.

Set Default Goal Selector "!".

Local Open Scope Z_scope.

Record BlockhashStatus := mkBlockhashStatus {
  bhs_slot : Z;
  bhs_processed : bool;
  bhs_confirmed : bool;
  bhs_finalized : bool
}.

Definition BlockhashStatus_new (slot : Z) : BlockhashStatus := mkBlockhashStatus slot false false false.

Record BlockMetaStorageInner := mkBlockMetaStorageInner {
  bmi_blocks : gmap Z MessageBlockMeta;
  bmi_blockhashes : gmap string BlockhashStatus;
  bmi_processed : option Z;
  bmi_confirmed : option Z;
  bmi_finalized : option Z
}.

Definition BlockMetaStorageInner_default : BlockMetaStorageInner :=
  mkBlockMetaStorageInner ∅ ∅ None None None.

Definition KEEP_SLOTS : Z := 3.

(** [u64::checked_sub]. *)
Definition checked_sub (a b : Z) : option Z := if b <=? a then Some (a - b) else None.

Class RecentBlockhashes := MAX_RECENT_BLOCKHASHES : Z.

Section storage.
Context {C : RecentBlockhashes}.

Definition set_latest (s : BlockMetaStorageInner) (status : SlotStatus) (slot : Z) : BlockMetaStorageInner :=
  match status with
  | StatusProcessed =>
      mkBlockMetaStorageInner (bmi_blocks s) (bmi_blockhashes s) (Some slot) (bmi_confirmed s) (bmi_finalized s)
  | StatusConfirmed =>
      mkBlockMetaStorageInner (bmi_blocks s) (bmi_blockhashes s) (bmi_processed s) (Some slot) (bmi_finalized s)
  | StatusFinalized =>
      mkBlockMetaStorageInner (bmi_blocks s) (bmi_blockhashes s) (bmi_processed s) (bmi_confirmed s) (Some slot)
  | _ => s
  end.

Definition mark (e : BlockhashStatus) (status : SlotStatus) : BlockhashStatus :=
  match status with
  | StatusProcessed => mkBlockhashStatus (bhs_slot e) true (bhs_confirmed e) (bhs_finalized e)
  | StatusConfirmed => mkBlockhashStatus (bhs_slot e) (bhs_processed e) true (bhs_finalized e)
  | StatusFinalized => mkBlockhashStatus (bhs_slot e) (bhs_processed e) (bhs_confirmed e) true
  | _ => e
  end.

Definition set_blocks (s : BlockMetaStorageInner) (blocks : gmap Z MessageBlockMeta) : BlockMetaStorageInner :=
  mkBlockMetaStorageInner blocks (bmi_blockhashes s) (bmi_processed s) (bmi_confirmed s) (bmi_finalized s).

Definition set_blockhashes (s : BlockMetaStorageInner) (h : gmap string BlockhashStatus) : BlockMetaStorageInner :=
  mkBlockMetaStorageInner (bmi_blocks s) h (bmi_processed s) (bmi_confirmed s) (bmi_finalized s).

(** [entry(blockhash).or_insert_with(..)] and the flags. *)
Definition mark_blockhash (s : BlockMetaStorageInner) (msg : MessageSlot) : BlockMetaStorageInner :=
  match bm_blockhash <$> bmi_blocks s !! ms_slot msg with
  | Some blockhash =>
      let entry := default (BlockhashStatus_new (ms_slot msg)) (bmi_blockhashes s !! blockhash) in
      set_blockhashes s (<[blockhash := mark entry (ms_status msg)]> (bmi_blockhashes s))
  | None => s
  end.

Definition retain_blocks (s : BlockMetaStorageInner) (slot : Z) : BlockMetaStorageInner :=
  match checked_sub slot KEEP_SLOTS with
  | Some keep_slot => set_blocks s (filter (λ kv, keep_slot <= kv.1) (bmi_blocks s))
  | None => s
  end.

Definition retain_blockhashes (s : BlockMetaStorageInner) (slot : Z) : BlockMetaStorageInner :=
  match checked_sub slot (MAX_RECENT_BLOCKHASHES + 32) with
  | Some keep_slot => set_blockhashes s (filter (λ kv, keep_slot <= bhs_slot kv.2) (bmi_blockhashes s))
  | None => s
  end.

(** One message of the storage task; others are logged. *)
Definition store_message (s : BlockMetaStorageInner) (message : Message) : BlockMetaStorageInner :=
  match message with
  | MsgSlot msg =>
      let s := mark_blockhash (set_latest s (ms_status msg) (ms_slot msg)) msg in
      if bool_decide (ms_status msg = StatusFinalized)
      then retain_blockhashes (retain_blocks s (ms_slot msg)) (ms_slot msg)
      else s
  | MsgBlockMeta msg => set_blocks s (<[bm_slot msg := msg]> (bmi_blocks s))
  | _ => s
  end.

(** ** The unary methods *)

Definition parse_commitment (commitment : option Z) : result TonicStatus CommitmentLevel :=
  let commitment := default (CommitmentLevel_to_proto Processed) commitment in
  match CommitmentLevel_try_from commitment with
  | Some c => Ok c
  | None => Err (StatusUnknown ("failed to create CommitmentLevel from " +:+ signed_decimal commitment))
  end.

Definition latest_slot (s : BlockMetaStorageInner) (c : CommitmentLevel) : option Z :=
  match c with
  | Processed => bmi_processed s
  | Confirmed => bmi_confirmed s
  | Finalized => bmi_finalized s
  end.

Definition get_block {T} (s : BlockMetaStorageInner) (handler : MessageBlockMeta → option T)
    (commitment : option Z) : result TonicStatus T :=
  commitment ← parse_commitment commitment;
  match latest_slot s commitment ≫= λ slot, bmi_blocks s !! slot with
  | Some block =>
      match handler block with
      | Some resp => Ok resp
      | None => Err (StatusInternal "failed to build response")
      end
  | None => Err (StatusInternal "block is not available yet")
  end.

Definition has_level (e : BlockhashStatus) (c : CommitmentLevel) : bool :=
  match c with
  | Processed => bhs_processed e
  | Confirmed => bhs_confirmed e
  | Finalized => bhs_finalized e
  end.

Record IsBlockhashValidResponse := mkIsBlockhashValidResponse { ibv_valid : bool; ibv_slot : Z }.

Definition is_blockhash_valid (s : BlockMetaStorageInner) (blockhash : string) (commitment : option Z)
    : result TonicStatus IsBlockhashValidResponse :=
  commitment ← parse_commitment commitment;
  if Z.of_nat (size (bmi_blockhashes s)) <? MAX_RECENT_BLOCKHASHES + 32 then Err (StatusInternal "startup")
  else
    slot ← match latest_slot s commitment with Some slot => Ok slot | None => Err (StatusInternal "startup") end;
    let valid := from_option (λ status, has_level status commitment) false (bmi_blockhashes s !! blockhash) in
    Ok (mkIsBlockhashValidResponse valid slot).

Record GetLatestBlockhashResponse := mkGetLatestBlockhashResponse {
  glb_slot : Z;
  glb_blockhash : string;
  glb_last_valid_block_height : Z
}.

(** [blocks_meta] is [None] when the unary methods are disabled. *)
Definition unary {T} (blocks_meta : option BlockMetaStorageInner)
    (f : BlockMetaStorageInner → result TonicStatus T) : result TonicStatus T :=
  match blocks_meta with
  | Some s => f s
  | None => Err (StatusUnimplemented "method disabled")
  end.

Definition get_latest_blockhash (blocks_meta : option BlockMetaStorageInner) (commitment : option Z)
    : result TonicStatus GetLatestBlockhashResponse :=
  unary blocks_meta (λ s, get_block s (λ block,
    height ← bm_block_height block;
    Some (mkGetLatestBlockhashResponse (bm_slot block) (bm_blockhash block)
            (wrap64 (height + MAX_RECENT_BLOCKHASHES)))) commitment).

Definition get_block_height (blocks_meta : option BlockMetaStorageInner) (commitment : option Z)
    : result TonicStatus Z :=
  unary blocks_meta (λ s, get_block s bm_block_height commitment).

Definition get_slot (blocks_meta : option BlockMetaStorageInner) (commitment : option Z) : result TonicStatus Z :=
  unary blocks_meta (λ s, get_block s (λ block, Some (bm_slot block)) commitment).

Definition is_blockhash_valid_method (blocks_meta : option BlockMetaStorageInner) (blockhash : string)
    (commitment : option Z) : result TonicStatus IsBlockhashValidResponse :=
  unary blocks_meta (λ s, is_blockhash_valid s blockhash commitment).

(** ** What the storage knows *)

Definition stored (messages : list Message) : BlockMetaStorageInner :=
  fold_left store_message messages BlockMetaStorageInner_default.

Lemma stored_snoc ms m : stored (ms ++ [m]) = store_message (stored ms) m.
Proof. apply fold_left_app. Qed.

(** The slot of a status message of a level. *)
Definition level_slot (c : CommitmentLevel) (m : Message) : option Z :=
  match m with
  | MsgSlot m => if CommitmentLevel_eq_status c (ms_status m) then Some (ms_slot m) else None
  | _ => None
  end.

Lemma latest_slot_retain s slot c :
  latest_slot (retain_blockhashes (retain_blocks s slot) slot) c = latest_slot s c.
Proof. unfold retain_blockhashes, retain_blocks. by repeat case_match. Qed.

Lemma latest_slot_mark s m c : latest_slot (mark_blockhash s m) c = latest_slot s c.
Proof. unfold mark_blockhash. by case_match. Qed.

Lemma latest_slot_store s m c :
  latest_slot (store_message s (MsgSlot m)) c = latest_slot (set_latest s (ms_status m) (ms_slot m)) c.
Proof. cbn [store_message]. case_bool_decide; rewrite ?latest_slot_retain; apply latest_slot_mark. Qed.

Lemma latest_slot_stored ms c : latest_slot (stored ms) c = last (omap (level_slot c) ms).
Proof.
  induction ms as [|m ms IH] using rev_ind; [by destruct c|].
  rewrite stored_snoc, omap_app, last_app.
  destruct m as [m|m|m|m|m|m|m]; [rewrite latest_slot_store|..]; cbn; rewrite <- ?IH; try done; try by destruct c.
  by destruct c, (ms_status m).
Qed.

(** A block is stored under its slot. *)
Lemma stored_block ms slot b : bmi_blocks (stored ms) !! slot = Some b → bm_slot b = slot ∧ MsgBlockMeta b ∈ ms.
Proof.
  induction ms as [|m ms IH] using rev_ind; [done|]. rewrite stored_snoc, elem_of_app.
  assert (bmi_blocks (stored ms) !! slot = Some b → bm_slot b = slot ∧ (MsgBlockMeta b ∈ ms ∨ MsgBlockMeta b ∈ [m]))
    as IH' by (intros H; destruct (IH H); auto).
  destruct m as [m|m|m|m|m|m|m]; try exact IH'; cbn [store_message].
  - assert (bmi_blocks (mark_blockhash (set_latest (stored ms) (ms_status m) (ms_slot m)) m)
      = bmi_blocks (stored ms)) as Hb by (unfold mark_blockhash; case_match; by destruct (ms_status m)).
    case_bool_decide; [|by rewrite Hb]. unfold retain_blockhashes, retain_blocks.
    destruct (checked_sub _ KEEP_SLOTS), (checked_sub _ _); cbn; rewrite ?Hb; try exact IH';
      intros [Hk _]%map_lookup_filter_Some; by apply IH'.
  - cbn. intros [[<- <-]|[_ Hk]]%lookup_insert_Some; [|by apply IH']. split; [done|]. right. by left.
Qed.

(** [bh] was announced for a slot and the slot reached the level afterwards. *)
Definition reached (messages : list Message) (bh : string) (c : CommitmentLevel) : Prop :=
  ∃ pre b mid m post, messages = pre ++ MsgBlockMeta b :: mid ++ MsgSlot m :: post ∧
    bm_blockhash b = bh ∧ bm_slot b = ms_slot m ∧ CommitmentLevel_eq_status c (ms_status m) = true.

Lemma reached_snoc ms m bh c : reached ms bh c → reached (ms ++ [m]) bh c.
Proof.
  intros (pre & b & mid & m' & post & -> & H). exists pre, b, mid, m', (post ++ [m]). split; [|exact H].
  by rewrite <- app_assoc, <- app_comm_cons, <- app_assoc.
Qed.

Lemma mark_level e status c :
  has_level (mark e status) c = has_level e c || CommitmentLevel_eq_status c status.
Proof. destruct status, c; cbn; by rewrite ?orb_false_r, ?orb_true_r. Qed.

Lemma blockhashes_retain s slot bh e :
  bmi_blockhashes (retain_blockhashes (retain_blocks s slot) slot) !! bh = Some e →
  bmi_blockhashes s !! bh = Some e.
Proof.
  unfold retain_blockhashes, retain_blocks. repeat case_match; cbn; try done; by intros [Hk _]%map_lookup_filter_Some.
Qed.

Lemma store_slot_blockhashes s m bh e :
  bmi_blockhashes (store_message s (MsgSlot m)) !! bh = Some e →
  bmi_blockhashes (mark_blockhash (set_latest s (ms_status m) (ms_slot m)) m) !! bh = Some e.
Proof. cbn [store_message]. case_bool_decide; [|done]. apply blockhashes_retain. Qed.

Lemma set_latest_maps s status slot :
  bmi_blocks (set_latest s status slot) = bmi_blocks s ∧ bmi_blockhashes (set_latest s status slot) = bmi_blockhashes s.
Proof. by destruct status. Qed.

Lemma stored_blockhash_reached ms bh e c :
  bmi_blockhashes (stored ms) !! bh = Some e → has_level e c = true → reached ms bh c.
Proof.
  revert e. induction ms as [|m ms IH] using rev_ind; [done|]. intros e. rewrite stored_snoc.
  destruct m as [m|m|m|m|m|m|m]; try (intros He Hc; by eapply reached_snoc, IH).
  intros He%store_slot_blockhashes Hc. unfold mark_blockhash in He.
  destruct (set_latest_maps (stored ms) (ms_status m) (ms_slot m)) as [Hb Hh]. rewrite Hb in He.
  assert (∀ e0, bmi_blockhashes (stored ms) !! bh = Some e0 → has_level e0 c = true → reached (ms ++ [MsgSlot m]) bh c)
    as IH' by (intros e0 H0 H1; by eapply reached_snoc, IH).
  destruct (bmi_blocks (stored ms) !! ms_slot m) as [b|] eqn:Eb; cbn in He; rewrite Hh in He; [|by eapply IH'].
  apply lookup_insert_Some in He as [[<- <-]|[_ He]]; [|by eapply IH'].
  rewrite mark_level in Hc. apply orb_true_iff in Hc as [Hc|Hc].
  - apply reached_snoc. destruct (bmi_blockhashes (stored ms) !! bm_blockhash b) as [e0|] eqn:E0;
      [by eapply IH|by destruct c].
  - apply stored_block in Eb as [Hslot (pre & mid & ->)%list_elem_of_split].
    exists pre, b, mid, m, []. split; [by rewrite <- app_assoc|]. done.
Qed.

(** No later finalized slot is far enough ahead of [slot] to drop it. *)
Definition keeps (slot : Z) (m : Message) : bool :=
  match m with
  | MsgSlot m => negb (bool_decide (ms_status m = StatusFinalized)) || (ms_slot m <=? slot + MAX_RECENT_BLOCKHASHES + 32)
  | _ => true
  end.

Lemma store_slot_keeps s m bh e :
  bmi_blockhashes (mark_blockhash (set_latest s (ms_status m) (ms_slot m)) m) !! bh = Some e →
  keeps (bhs_slot e) (MsgSlot m) = true → bmi_blockhashes (store_message s (MsgSlot m)) !! bh = Some e.
Proof.
  set (s1 := mark_blockhash _ m). intros He Hk. cbn [store_message]. fold s1. case_bool_decide as Hf; [|done].
  cbn [keeps] in Hk. rewrite bool_decide_eq_true_2 in Hk by done. cbn in Hk. apply Z.leb_le in Hk.
  assert (bmi_blockhashes (retain_blocks s1 (ms_slot m)) !! bh = Some e) as He2
    by (unfold retain_blocks; by case_match).
  unfold retain_blockhashes, checked_sub. case_match; [|done]. case_match; [|done]. cbn. simplify_eq.
  apply map_lookup_filter_Some. split; [done|]. cbn. lia.
Qed.

Lemma mark_slot e status : bhs_slot (mark e status) = bhs_slot e.
Proof. by destruct status. Qed.

Lemma store_keeps s m bh e c : bmi_blockhashes s !! bh = Some e → has_level e c = true → keeps (bhs_slot e) m = true →
  ∃ e', bmi_blockhashes (store_message s m) !! bh = Some e' ∧ has_level e' c = true ∧ bhs_slot e' = bhs_slot e.
Proof.
  intros He Hc Hk. destruct m as [m|m|m|m|m|m|m]; try by exists e.
  assert (∃ e', bmi_blockhashes (mark_blockhash (set_latest s (ms_status m) (ms_slot m)) m) !! bh = Some e' ∧
    has_level e' c = true ∧ bhs_slot e' = bhs_slot e) as (e' & He' & Hc' & Hs').
  { unfold mark_blockhash. destruct (set_latest_maps s (ms_status m) (ms_slot m)) as [-> Hh].
    destruct (bmi_blocks s !! ms_slot m) as [b|]; cbn; rewrite Hh; [|by exists e].
    destruct (decide (bm_blockhash b = bh)) as [->|Hne]; [|exists e; by rewrite lookup_insert_ne].
    rewrite lookup_insert_eq, He. eexists. split; [reflexivity|]. cbn [default from_option id].
    by rewrite mark_level, Hc, mark_slot. }
  exists e'. split; [|done]. apply store_slot_keeps; [done|by rewrite Hs'].
Qed.

(** A status marks the blockhash of the slot's block. *)
Lemma store_marks s m b c : bmi_blocks s !! ms_slot m = Some b → bmi_blockhashes s !! bm_blockhash b = None →
  CommitmentLevel_eq_status c (ms_status m) = true → keeps (ms_slot m) (MsgSlot m) = true →
  ∃ e, bmi_blockhashes (store_message s (MsgSlot m)) !! bm_blockhash b = Some e ∧
    has_level e c = true ∧ bhs_slot e = ms_slot m.
Proof.
  intros Hb Hn Hc Hk. exists (mark (BlockhashStatus_new (ms_slot m)) (ms_status m)).
  split; [|by rewrite mark_level, mark_slot, Hc, orb_true_r]. apply store_slot_keeps; [|by rewrite mark_slot].
  unfold mark_blockhash. destruct (set_latest_maps s (ms_status m) (ms_slot m)) as [-> Hh]. rewrite Hb. cbn.
  by rewrite lookup_insert_eq, Hh, Hn.
Qed.

Lemma stored_keeps s ms bh e c : bmi_blockhashes s !! bh = Some e → has_level e c = true →
  Forall (λ m, keeps (bhs_slot e) m = true) ms →
  ∃ e', bmi_blockhashes (fold_left store_message ms s) !! bh = Some e' ∧ has_level e' c = true.
Proof.
  intros He Hc Hms. revert s e He Hc Hms. induction ms as [|m ms IH]; intros s e He Hc Hms; [by exists e|].
  apply Forall_cons in Hms as [Hm Hms]. destruct (store_keeps s m bh e c He Hc Hm) as (e' & He' & Hc' & Hs').
  cbn. apply (IH _ e'); [done|done|by rewrite Hs'].
Qed.

(** Answers of the unary methods. A blockhash is reported valid at a level
    only if a block meta announced it for some slot and a status of that level
    for that slot came after it; conversely such a status for a stored block
    makes the blockhash valid until a finalized slot more than
    [MAX_RECENT_BLOCKHASHES] + 32 ahead of the slot it was first seen at drops
    it. The slot reported, and the slot whose block the other methods describe, is the one
    of the last status of the level. *)
Theorem unary_methods_spec ms :
  (∀ bh commitment r, is_blockhash_valid (stored ms) bh commitment = Ok r →
     ∃ c, parse_commitment commitment = Ok c ∧ last (omap (level_slot c) ms) = Some (ibv_slot r) ∧
       (ibv_valid r = true → reached ms bh c)) ∧
  (∀ m b c, bmi_blocks (stored ms) !! ms_slot m = Some b → CommitmentLevel_eq_status c (ms_status m) = true →
     keeps (ms_slot m) (MsgSlot m) = true → bmi_blockhashes (stored ms) !! bm_blockhash b = None →
     ∀ post commitment r, Forall (λ m', keeps (ms_slot m) m' = true) post →
       parse_commitment commitment = Ok c →
       is_blockhash_valid (stored (ms ++ MsgSlot m :: post)) (bm_blockhash b) commitment = Ok r →
       ibv_valid r = true) ∧
  (∀ T (handler : MessageBlockMeta → option T) commitment r, get_block (stored ms) handler commitment = Ok r →
     ∃ c slot b, parse_commitment commitment = Ok c ∧ last (omap (level_slot c) ms) = Some slot ∧
       bm_slot b = slot ∧ MsgBlockMeta b ∈ ms ∧ handler b = Some r).
Proof.
  split; [|split].
  - intros bh commitment r. unfold is_blockhash_valid. destruct (parse_commitment commitment) as [c|]; [|done].
    cbn [mbind result_bind]. case_match; [done|]. rewrite latest_slot_stored.
    destruct (last (omap (level_slot c) ms)) as [slot|] eqn:El; [|done]. cbn [mbind result_bind]. intros [= <-].
    exists c. cbn. split; [done|]. split; [done|].
    destruct (bmi_blockhashes (stored ms) !! bh) as [e|] eqn:Ee; [|done]. cbn. by apply stored_blockhash_reached.
  - intros m b c Hb Hc Hk Hnone post commitment r Hpost Hpc.
    destruct (store_marks _ _ _ _ Hb Hnone Hc Hk) as (e & He & Hec & Hes).
    destruct (stored_keeps _ post _ e c He Hec) as (e' & He' & Hc'); [by rewrite Hes|].
    unfold stored. rewrite fold_left_app. cbn [fold_left]. fold (stored ms). unfold is_blockhash_valid.
    rewrite Hpc. cbn [mbind result_bind]. case_match; [done|]. rewrite He'. case_match; [|done].
    cbn. by intros [= <-].
  - intros T handler commitment r. unfold get_block. destruct (parse_commitment commitment) as [c|]; [|done].
    cbn [mbind result_bind]. rewrite latest_slot_stored.
    destruct (last (omap (level_slot c) ms)) as [slot|] eqn:El; [|done]. cbn [mbind option_bind].
    destruct (bmi_blocks (stored ms) !! slot) as [b|] eqn:Eb; [|done].
    destruct (handler b) as [x|] eqn:Eh; [|done]. intros [= <-]. apply stored_block in Eb as [Hs Hin].
    by exists c, slot, b.
Qed.
End storage.

(** ** A concrete history: 332 blocks reach processed, then the first one is confirmed *)

Section example.
#[local] Instance solana_clock : RecentBlockhashes := 300.

Definition demo_block_meta (slot : Z) : MessageBlockMeta :=
  mkMessageBlockMeta slot (decimal slot) None None (Some slot) 0 "" 0 0 (mkTimestamp 0 0).

Definition demo_slot (slot : Z) (status : SlotStatus) : Message :=
  MsgSlot (mkMessageSlot slot None status None (mkTimestamp 0 0)).

Definition demo_history : list Message :=
  concat ((λ i, [MsgBlockMeta (demo_block_meta (Z.of_nat i)); demo_slot (Z.of_nat i) StatusProcessed]) <$> seq 0 332)
  ++ [demo_slot 7 StatusConfirmed].

Example demo_answers :
  (is_blockhash_valid (stored demo_history) "7" (Some 1), is_blockhash_valid (stored demo_history) "8" (Some 1),
   get_slot (Some (stored demo_history)) None, get_slot (Some (stored demo_history)) (Some 2),
   is_blockhash_valid (stored (take 600 demo_history)) "7" None)
  = (Ok (mkIsBlockhashValidResponse true 7), Ok (mkIsBlockhashValidResponse false 7), Ok 331,
     Err (StatusInternal "block is not available yet"), Err (StatusInternal "startup")).
Proof. by vm_compute. Qed.
End example.
