(* ===== verification/Pipeline.v ===== *)
(** * stream.rs and grpc.rs: batches, and geyser_loop

    [geyser_loop] takes the messages of its channel in batches, broadcasts them
    at level processed and passes them on to [block_reconstruction_loop]. A
    channel's receiving side is the list of what its polls return: [Some item],
    or [None] when it is momentarily empty; the list ends when it is closed.
    What a step sends is the list of its effects. Metrics and logs are not
    modelled. *)

From S2P Require Import Prelude Storage Message Limits Convert FromGeyser ContactInfo BlockReconstruction.

Set Default Goal Selector "!".

(** ** stream.rs *)

Class Buffer (B T : Type) := {
  buffer_ready : B → bool;
  (** An item that does not fit is handed back. *)
  buffer_accumulate : B → T → result T B
}.

(** What the receivers rely on; otherwise they reach [unreachable!]. *)
Class BufferLaws (B T : Type) `{!Buffer B T} : Prop := {
  ready_accumulates (b : B) (item : T) : buffer_ready b = true → ∃ b', buffer_accumulate b item = Ok b'
}.

(** A [Vec] and its capacity. *)
Record VecBuffer (T : Type) := mkVecBuffer { vb_items : list T; vb_capacity : nat }.
Arguments mkVecBuffer {T} _ _.
Arguments vb_items {T} _.
Arguments vb_capacity {T} _.

#[global] Instance vec_buffer {T} : Buffer (VecBuffer T) T := {|
  buffer_ready b := Nat.ltb (length (vb_items b)) (vb_capacity b);
  buffer_accumulate b item :=
    if Nat.ltb (length (vb_items b)) (vb_capacity b)
    then Ok (mkVecBuffer (vb_items b ++ [item]) (vb_capacity b)) else Err item
|}.

#[global] Instance vec_buffer_laws {T} : BufferLaws (VecBuffer T) T.
Proof. split. intros b item H. cbn in *. rewrite H. by eexists. Qed.

Abbreviation Queue T := (list (option T)).

Inductive PollBatch := PollPending | PollReady (count : option nat).

Section receiver.
Context {B T : Type} `{!Buffer B T}.

(** The ['drain] loop: take what is there while the buffer has room. *)
Fixpoint drain_queue (buffer : B) (queue : Queue T) : outcome (B * Queue T * nat) :=
  if buffer_ready buffer then
    match queue with
    | Some item :: queue =>
        match buffer_accumulate buffer item with
        | Err _ => Panic
        | Ok buffer =>
            '(buffer, queue, i) ← drain_queue buffer queue;
            Done (buffer, queue, S i)
        end
    | None :: queue => Done (buffer, queue, 0)
    | [] => Done (buffer, [], 0)
    end
  else Done (buffer, queue, 0).

(** [BatchStreamUnboundedReceiver::poll_recv_batch_with_buffer] (and the bounded one). *)
Definition poll_recv_batch (buffer : B) (queue : Queue T) : outcome (B * Queue T * PollBatch) :=
  if buffer_ready buffer then
    match queue with
    | Some item :: queue =>
        match buffer_accumulate buffer item with
        | Err _ => Panic
        | Ok buffer =>
            '(buffer, queue, i) ← drain_queue buffer queue;
            Done (buffer, queue, PollReady (Some (S i)))
        end
    | None :: queue => Done (buffer, queue, PollPending)
    | [] => Done (buffer, [], PollReady None)
    end
  else Done (buffer, queue, PollReady (Some 0)).

(** [next_batch(..).await]; [fuel] bounds the polls. *)
Fixpoint next_batch (fuel : nat) (buffer : B) (queue : Queue T)
    : option (outcome (B * Queue T * option nat)) :=
  match fuel with
  | O => None
  | S fuel =>
      match poll_recv_batch buffer queue with
      | Panic => Some Panic
      | Done (buffer, queue, PollPending) => next_batch fuel buffer queue
      | Done (buffer, queue, PollReady count) => Some (Done (buffer, queue, count))
      end
  end.
End receiver.

(** ** grpc.rs: geyser_loop *)

Inductive BlockReconstructionMessage :=
| RecSingle (message : Message)
| RecBatch (messages : list Message).

Definition MESSAGE_BATCH_SIZE : nat := 1024.

Record PartitionedBuffer := mkPartitionedBuffer {
  pb_message_batch : list Message;
  pb_capacity : nat;
  pb_blockmeta_batch : option Message
}.

#[global] Instance partitioned_buffer : Buffer PartitionedBuffer Message := {|
  buffer_accumulate b item :=
    if Nat.eqb (length (pb_message_batch b)) (pb_capacity b) then Err item
    else match item with
         | MsgBlockMeta _ => Ok (mkPartitionedBuffer (pb_message_batch b) (pb_capacity b) (Some item))
         | _ => Ok (mkPartitionedBuffer (pb_message_batch b ++ [item]) (pb_capacity b) (pb_blockmeta_batch b))
         end;
  buffer_ready b :=
    Nat.ltb (length (pb_message_batch b)) (pb_capacity b) && negb (bool_decide (is_Some (pb_blockmeta_batch b)))
|}.

#[global] Instance partitioned_buffer_laws : BufferLaws PartitionedBuffer Message.
Proof.
  split. intros b item [H _]%andb_true_iff. cbn [buffer_accumulate partitioned_buffer] in *.
  apply Nat.ltb_lt in H. rewrite (proj2 (Nat.eqb_neq _ _)) by lia. destruct item; by eexists.
Qed.

Definition PartitionedBuffer_new : PartitionedBuffer := mkPartitionedBuffer [] MESSAGE_BATCH_SIZE None.

(** What the loops send: a batch on the broadcast of a level, or a message to
    the reconstruction loop. *)
Inductive Sent :=
| Broadcasted (commitment : CommitmentLevel) (messages : list Message)
| ToReconstruction (message : BlockReconstructionMessage).

(** The body of the loop after a batch arrived: its sends and the buffer it leaves. *)
Definition geyser_flush (buffer : PartitionedBuffer) : list Sent * PartitionedBuffer :=
  let '(sent_batch, buffer) :=
    match pb_message_batch buffer with
    | [] => ([], buffer)
    | batch =>
        ([Broadcasted Processed batch; ToReconstruction (RecBatch batch)],
         mkPartitionedBuffer [] MESSAGE_BATCH_SIZE (pb_blockmeta_batch buffer))
    end in
  match pb_blockmeta_batch buffer with
  | Some m =>
      (sent_batch ++ [ToReconstruction (RecSingle m)],
       mkPartitionedBuffer (pb_message_batch buffer) (pb_capacity buffer) None)
  | None => (sent_batch, buffer)
  end.

Fixpoint geyser_loop (fuel : nat) (buffer : PartitionedBuffer) (queue : Queue Message)
    : option (outcome (list Sent)) :=
  match fuel with
  | O => None
  | S fuel' =>
      match next_batch fuel buffer queue with
      | None => None
      | Some Panic => Some Panic
      | Some (Done (_, _, None)) => Some (Done [])
      | Some (Done (buffer, queue, Some _)) =>
          let '(effects, buffer) := geyser_flush buffer in
          match geyser_loop fuel' buffer queue with
          | Some (Done rest) => Some (Done (effects ++ rest))
          | o => o
          end
      end
  end.

(** ** What geyser_loop forwards *)

Definition is_block_meta (m : Message) : bool := match m with MsgBlockMeta _ => true | _ => false end.

Definition reconstruction_messages (m : BlockReconstructionMessage) : list Message :=
  match m with RecSingle m => [m] | RecBatch l => l end.

Definition to_reconstruction (effects : list Sent) : list Message :=
  concat ((λ s, match s with ToReconstruction m => reconstruction_messages m | Broadcasted _ _ => [] end) <$> effects).

Definition broadcasted (c : CommitmentLevel) (effects : list Sent) : list (list Message) :=
  omap (λ s, match s with Broadcasted c' l => if bool_decide (c' = c) then Some l else None | _ => None end) effects.

Lemma to_reconstruction_app e1 e2 : to_reconstruction (e1 ++ e2) = to_reconstruction e1 ++ to_reconstruction e2.
Proof. unfold to_reconstruction. by rewrite fmap_app, concat_app. Qed.

Lemma broadcasted_app c e1 e2 : broadcasted c (e1 ++ e2) = broadcasted c e1 ++ broadcasted c e2.
Proof. apply omap_app. Qed.

(** The content of a buffer, in arrival order. *)
Definition buffered (b : PartitionedBuffer) : list Message := pb_message_batch b ++ option_list (pb_blockmeta_batch b).

Record buffer_wf (b : PartitionedBuffer) : Prop := {
  bw_metas : Forall (λ m, is_block_meta m = false) (pb_message_batch b);
  bw_meta m : pb_blockmeta_batch b = Some m → is_block_meta m = true;
  bw_len : (length (pb_message_batch b) <= pb_capacity b)%nat;
  bw_capacity : pb_capacity b = MESSAGE_BATCH_SIZE
}.

Lemma buffer_wf_new : buffer_wf PartitionedBuffer_new.
Proof. split; cbn; [done|done|lia|done]. Qed.

Lemma accumulate_wf b item : buffer_wf b → buffer_ready b = true →
  ∃ b', buffer_accumulate b item = Ok b' ∧ buffer_wf b' ∧ buffered b' = buffered b ++ [item].
Proof.
  intros [H1 H2 H3 H4] [Hlt Hnone]%andb_true_iff. apply Nat.ltb_lt in Hlt.
  apply negb_true_iff, bool_decide_eq_false in Hnone. apply eq_None_not_Some in Hnone.
  cbn [buffer_accumulate partitioned_buffer]. rewrite (proj2 (Nat.eqb_neq _ _)) by lia.
  assert (∀ b', b' = mkPartitionedBuffer (pb_message_batch b ++ [item]) (pb_capacity b) (pb_blockmeta_batch b) →
    is_block_meta item = false → buffer_wf b' ∧ buffered b' = buffered b ++ [item]) as Hpush.
  { intros b' -> Hi. split; [|unfold buffered; cbn; by rewrite Hnone, !app_nil_r].
    split; cbn; [apply Forall_app; split; [done|by repeat constructor]|done|rewrite length_app; cbn; lia|done]. }
  destruct item; try (eexists; split; [reflexivity|by apply Hpush]).
  eexists. split; [reflexivity|]. split; [|unfold buffered; cbn; by rewrite Hnone, app_nil_r].
  split; cbn; [done|by intros ? [= <-]|lia|done].
Qed.

(** Draining keeps order and loses nothing. *)
Lemma drain_queue_wf queue : ∀ b, buffer_wf b →
  ∃ b' queue' i, drain_queue b queue = Done (b', queue', i) ∧ buffer_wf b' ∧
    buffered b' ++ omap id queue' = buffered b ++ omap id queue ∧ (length queue' <= length queue)%nat.
Proof.
  induction queue as [|o queue IH]; intros b Hb; cbn [drain_queue].
  - destruct (buffer_ready b); by eexists _, _, _.
  - destruct (buffer_ready b) eqn:Er; [|by eexists _, _, _].
    destruct o as [item|]; [|eexists _, _, _; split; [reflexivity|]; split; [done|]; split; [done|cbn; lia]].
    destruct (accumulate_wf b item Hb Er) as (b1 & -> & Hb1 & He). destruct (IH b1 Hb1) as (b' & q' & i & -> & Hb' & Hq & Hl).
    eexists _, _, _. split; [reflexivity|]. split; [done|]. split; [|cbn; lia].
    rewrite Hq, He. cbn. by rewrite <- app_assoc.
Qed.

Lemma next_batch_wf fuel queue : ∀ b, buffer_wf b → buffer_ready b = true → (length queue < fuel)%nat →
  (∃ b', next_batch fuel b queue = Some (Done (b', [], None)) ∧ omap id queue = []) ∨
  ∃ b' queue' n, next_batch fuel b queue = Some (Done (b', queue', Some n)) ∧ buffer_wf b' ∧
    buffered b' ++ omap id queue' = buffered b ++ omap id queue ∧ (length queue' < length queue)%nat.
Proof.
  revert queue. induction fuel as [|fuel IH]; intros queue b Hb Hr Hf; [lia|]. cbn [next_batch].
  unfold poll_recv_batch. rewrite Hr. destruct queue as [|[item|] queue]; cbn [length] in Hf.
  - left. by eexists.
  - destruct (accumulate_wf b item Hb Hr) as (b1 & -> & Hb1 & He).
    destruct (drain_queue_wf queue b1 Hb1) as (b' & q' & i & -> & Hb' & Hq & Hl). cbn [mbind outcome_bind].
    right. eexists _, _, _. split; [reflexivity|]. split; [done|]. split; [|cbn; lia].
    rewrite Hq, He. cbn. by rewrite <- app_assoc.
  - destruct (IH queue b Hb Hr) as [(b' & -> & He)|(b' & q' & n & -> & Hb' & Hq & Hl)]; [lia| |].
    + left. by eexists.
    + right. eexists _, _, _. split; [reflexivity|]. split; [done|]. split; [done|cbn; lia].
Qed.

(** Flushing sends exactly the content and leaves an empty buffer. *)
Lemma geyser_flush_wf b : buffer_wf b →
  let '(effects, b') := geyser_flush b in
  b' = PartitionedBuffer_new ∧ to_reconstruction effects = buffered b ∧
  concat (broadcasted Processed effects) = filter (λ m, is_block_meta m = false) (buffered b) ∧
  broadcasted Confirmed effects = [] ∧ broadcasted Finalized effects = [] ∧
  Forall (λ l, l ≠ [] ∧ (length l <= MESSAGE_BATCH_SIZE)%nat) (broadcasted Processed effects).
Proof.
  intros [H1 H2 H3 H4]. unfold geyser_flush, buffered.
  assert (filter (λ m, is_block_meta m = false) (option_list (pb_blockmeta_batch b)) = []) as Hmeta.
  { destruct (pb_blockmeta_batch b) as [m|]; [|done]. specialize (H2 m eq_refl).
    change (option_list (Some m)) with [m]. rewrite filter_cons, decide_False by congruence. done. }
  rewrite filter_app, Hmeta, app_nil_r, (filter_all_id _ (pb_message_batch b)) by done.
  destruct b as [batch cap meta]. cbn [pb_message_batch pb_capacity pb_blockmeta_batch] in *. subst cap.
  destruct batch as [|m0 batch], meta as [meta|]; cbn -[MESSAGE_BATCH_SIZE]; rewrite ?app_nil_r.
  all: rewrite ?(bool_decide_eq_true_2 (Processed = Processed)), ?(bool_decide_eq_false_2 (Processed = Confirmed)),
    ?(bool_decide_eq_false_2 (Processed = Finalized)) by done; cbn -[MESSAGE_BATCH_SIZE]; rewrite ?app_nil_r.
  all: repeat (split; [done|]); try done. all: by apply Forall_singleton.
Qed.

Lemma geyser_loop_forwarded (queue : Queue Message) :
  ∃ effects, geyser_loop (S (length queue)) PartitionedBuffer_new queue = Some (Done effects) ∧
    to_reconstruction effects = omap id queue ∧
    concat (broadcasted Processed effects) = filter (λ m, is_block_meta m = false) (omap id queue) ∧
    broadcasted Confirmed effects = [] ∧ broadcasted Finalized effects = [] ∧
    Forall (λ l, l ≠ [] ∧ (length l <= MESSAGE_BATCH_SIZE)%nat) (broadcasted Processed effects).
Proof.
  enough (∀ fuel queue, (length queue < fuel)%nat →
    ∃ effects, geyser_loop fuel PartitionedBuffer_new queue = Some (Done effects) ∧
    to_reconstruction effects = omap id queue ∧
    concat (broadcasted Processed effects) = filter (λ m, is_block_meta m = false) (omap id queue) ∧
    broadcasted Confirmed effects = [] ∧ broadcasted Finalized effects = [] ∧
    Forall (λ l, l ≠ [] ∧ (length l <= MESSAGE_BATCH_SIZE)%nat) (broadcasted Processed effects)) as H by (apply H; lia).
  clear queue. induction fuel as [|fuel IH]; intros queue Hlen; [lia|]. cbn [geyser_loop].
  destruct (next_batch_wf (S fuel) queue _ buffer_wf_new eq_refl Hlen)
    as [(b' & -> & He)|(b' & q' & n & -> & Hb' & Hq & Hl)].
  - exists []. rewrite He. by repeat (split; [done|]).
  - pose proof (geyser_flush_wf b' Hb') as Hflush. destruct (geyser_flush b') as [effects b2].
    destruct Hflush as (-> & H1 & H2 & H3 & H4 & H5). cbn [buffered PartitionedBuffer_new pb_message_batch pb_blockmeta_batch app option_list] in Hq.
    destruct (IH q') as (rest & -> & R1 & R2 & R3 & R4 & R5); [lia|].
    assert (buffered b' ++ omap id q' = omap id queue) as Hq' by exact Hq.
    exists (effects ++ rest). split; [done|].
    rewrite to_reconstruction_app, !broadcasted_app, concat_app, H1, R1, H2, R2, H3, R3, H4, R4, <- Hq', filter_app.
    repeat (split; [done|]). by apply Forall_app.
Qed.

(** C11. [geyser_loop] always ends with its channel, whatever the timing of the
    arrivals and the sizes of the batches, and never meets its [unreachable!]:
    the reconstruction loop gets every message exactly once and in order, with
    each block meta after everything that was received before it; the
    subscribers at level processed get every message but the block metas, in
    order, in non-empty batches of at most 1024; the other levels get nothing
    from it. *)
Theorem geyser_loop_forwards (queue : Queue Message) :
  ∃ effects, geyser_loop (S (length queue)) PartitionedBuffer_new queue = Some (Done effects) ∧
    to_reconstruction effects = omap id queue ∧
    concat (broadcasted Processed effects) = filter (λ m, is_block_meta m = false) (omap id queue) ∧
    broadcasted Confirmed effects = [] ∧ broadcasted Finalized effects = [] ∧
    Forall (λ l, l ≠ [] ∧ (length l <= MESSAGE_BATCH_SIZE)%nat) (broadcasted Processed effects).
Proof. apply geyser_loop_forwarded. Qed.
