(* ===== verification/Plugin.v ===== *)
(** * plugin/entry.rs: the callbacks of the validator

    Each callback turns one event into messages on the channels of the service;
    the value of a callback is what it sends, in order. An unsupported version
    of a replica struct is a panic ([unreachable!]). [now] is
    [SystemTime::now()]. Loading and unloading are in PluginLoad.v, metrics in
    Metrics.v. *)

From S2P Require Import Prelude Storage Message Limits Convert FromGeyser ContactInfo Pipeline.

Set Default Goal Selector "!".

(** The channels of [PluginInner]. *)
Inductive PluginSend :=
| SendGeyser (message : Message)
| SendReconstruction (message : BlockReconstructionMessage)
| SendBroadcast (commitment : CommitmentLevel) (messages : list Message)
| SendDeshred (message : Message)
| SendBlocksMeta (message : Message)
| SendSnapshot (message : Message)
| SendContactInfo (notification : ContactInfoNotification).

Section callbacks.
Context {W : Wincode}.

Inductive ReplicaAccountInfoVersions :=
| AccountUnsupported
| AccountV0_0_3 (info : ReplicaAccountInfoV3).

(** [snapshot_open]: the snapshot channel was made and is not taken yet. *)
Definition update_account (now : Timestamp) (filter_limits : FilterLimits) (snapshot_open : bool)
    (account : ReplicaAccountInfoVersions) (slot : Z) (is_startup : bool) : outcome (list PluginSend) :=
  match account with
  | AccountUnsupported => Panic
  | AccountV0_0_3 account =>
      let rejected :=
        match Pubkey_try_from (rai_owner account) with
        | Some owner => bool_decide (owner ∈ fla_owner_reject (fl_accounts filter_limits))
        | None => false
        end in
      if rejected then Done []
      else if is_startup then
        if snapshot_open then
          m ← MessageAccount_from_geyser now account slot is_startup;
          Done [SendSnapshot (MsgAccount m)]
        else Done []
      else
        m ← MessageAccount_from_geyser now account slot is_startup;
        Done [SendGeyser (MsgAccount m)]
  end.

Definition is_commitment_status (status : GeyserSlotStatus) : bool :=
  match status with GeyserProcessed | GeyserConfirmed | GeyserRooted => true | _ => false end.

Definition update_slot_status (now : Timestamp) (slot : Z) (parent : option Z) (status : GeyserSlotStatus)
    : list PluginSend :=
  let message := MsgSlot (MessageSlot_from_geyser now slot parent status) in
  (if is_commitment_status status then [SendReconstruction (RecSingle message)]
   else
     [SendGeyser message]
     ++ match status with
        | GeyserFirstShredReceived | GeyserCompleted | GeyserCreatedBank | GeyserDead _ =>
            [SendBroadcast Confirmed [message]; SendBroadcast Finalized [message]]
        | _ => []
        end)
  ++ [SendDeshred message; SendBlocksMeta message].

Inductive ReplicaTransactionInfoVersions :=
| TransactionUnsupported
| TransactionV0_0_3 (info : ReplicaTransactionInfoV3).

Definition notify_transaction (now : Timestamp) (transaction : ReplicaTransactionInfoVersions) (slot : Z)
    : outcome (list PluginSend) :=
  match transaction with
  | TransactionUnsupported => Panic
  | TransactionV0_0_3 info =>
      m ← MessageTransaction_from_geyser now info slot; Done [SendGeyser (MsgTransaction m)]
  end.

Inductive ReplicaEntryInfoVersions :=
| EntryUnsupported
| EntryV0_0_2 (info : ReplicaEntryInfoV2).

Definition notify_entry (now : Timestamp) (entry : ReplicaEntryInfoVersions) : outcome (list PluginSend) :=
  match entry with
  | EntryUnsupported => Panic
  | EntryV0_0_2 info => m ← MessageEntry_from_geyser now info; Done [SendGeyser (MsgEntry m)]
  end.

Inductive ReplicaBlockInfoVersions :=
| BlockUnsupported
| BlockV0_0_4 (info : ReplicaBlockInfoV4).

Definition notify_block_metadata (now : Timestamp) (blockinfo : ReplicaBlockInfoVersions)
    : outcome (list PluginSend) :=
  match blockinfo with
  | BlockUnsupported => Panic
  | BlockV0_0_4 info =>
      let message := MsgBlockMeta (MessageBlockMeta_from_geyser now info) in
      Done [SendGeyser message; SendBlocksMeta message]
  end.

Definition notify_deshred_transaction (now : Timestamp) (transaction : ReplicaDeshredTransactionInfoVersions)
    (slot : Z) : list PluginSend :=
  [SendDeshred (MsgDeshredTransaction (MessageDeshredTransaction_from_geyser_versioned now transaction slot))].

Definition notify_contact_info (now : Timestamp) (info : ReplicaContactInfo) (is_startup : bool)
    : outcome (list PluginSend) :=
  node ← MessageContactInfo_from_geyser now info;
  Done [SendContactInfo (mkContactInfoNotification (CiNode node) is_startup)].

Definition notify_contact_info_removed (now : Timestamp) (pubkey : bytes) : outcome (list PluginSend) :=
  removed ← MessageContactInfoRemoved_from_geyser now pubkey;
  Done [SendContactInfo (mkContactInfoNotification (CiRemoved removed) false)].
End callbacks.

(** ** What a list of callbacks sends on each channel *)

Definition geyser_sends (sends : list PluginSend) : list Message :=
  omap (λ s, match s with SendGeyser m => Some m | _ => None end) sends.

Definition reconstruction_sends (sends : list PluginSend) : list Message :=
  concat ((λ s, match s with SendReconstruction m => reconstruction_messages m | _ => [] end) <$> sends).

Definition broadcast_sends (c : CommitmentLevel) (sends : list PluginSend) : list Message :=
  concat ((λ s, match s with SendBroadcast c' l => if bool_decide (c' = c) then l else [] | _ => [] end) <$> sends).

Definition deshred_sends (sends : list PluginSend) : list Message :=
  omap (λ s, match s with SendDeshred m => Some m | _ => None end) sends.

Definition blocks_meta_sends (sends : list PluginSend) : list Message :=
  omap (λ s, match s with SendBlocksMeta m => Some m | _ => None end) sends.

(** ** The routing of slot statuses *)

(** The arguments of a call of [update_slot_status]. *)
Record SlotCall := mkSlotCall {
  sc_now : Timestamp;
  sc_slot : Z;
  sc_parent : option Z;
  sc_status : GeyserSlotStatus
}.

Definition slot_call_message (c : SlotCall) : Message :=
  MsgSlot (MessageSlot_from_geyser (sc_now c) (sc_slot c) (sc_parent c) (sc_status c)).

Definition slot_call_sends (c : SlotCall) : list PluginSend :=
  update_slot_status (sc_now c) (sc_slot c) (sc_parent c) (sc_status c).

(** Life-cycle statuses, and the commitment statuses. *)
Definition lifecycle_messages (calls : list SlotCall) : list Message :=
  slot_call_message <$> filter (λ c, is_commitment_status (sc_status c) = false) calls.

Definition commitment_messages (calls : list SlotCall) : list Message :=
  slot_call_message <$> filter (λ c, is_commitment_status (sc_status c) = true) calls.

(** One call: a life-cycle status goes to [geyser_loop] and, directly, to the
    two higher levels; a commitment status to the reconstruction loop only. *)
Lemma slot_call_one c :
  let sends := slot_call_sends c in let m := slot_call_message c in
  let lifecycle := if is_commitment_status (sc_status c) then [] else [m] in
  geyser_sends sends = lifecycle ∧
  reconstruction_sends sends = (if is_commitment_status (sc_status c) then [m] else []) ∧
  broadcast_sends Processed sends = [] ∧ broadcast_sends Confirmed sends = lifecycle ∧
  broadcast_sends Finalized sends = lifecycle ∧ deshred_sends sends = [m] ∧ blocks_meta_sends sends = [m].
Proof.
  destruct c as [now slot parent status]. unfold slot_call_sends, slot_call_message. cbn [sc_now sc_slot sc_parent sc_status].
  destruct status; repeat split; reflexivity.
Qed.

Lemma slot_calls_sends calls :
  let sends := concat (slot_call_sends <$> calls) in
  geyser_sends sends = lifecycle_messages calls ∧ reconstruction_sends sends = commitment_messages calls ∧
  broadcast_sends Processed sends = [] ∧ broadcast_sends Confirmed sends = lifecycle_messages calls ∧
  broadcast_sends Finalized sends = lifecycle_messages calls ∧
  deshred_sends sends = slot_call_message <$> calls ∧ blocks_meta_sends sends = slot_call_message <$> calls.
Proof.
  induction calls as [|c calls (H1 & H2 & H3 & H4 & H5 & H6 & H7)]; [by repeat split|].
  destruct (slot_call_one c) as (C1 & C2 & C3 & C4 & C5 & C6 & C7). cbn [fmap list_fmap concat] in *.
  unfold geyser_sends, reconstruction_sends, broadcast_sends, deshred_sends, blocks_meta_sends, lifecycle_messages,
    commitment_messages in *.
  rewrite !omap_app, !fmap_app, !concat_app, H1, H2, H3, H4, H5, H6, H7, C1, C2, C3, C4, C5, C6, C7, !filter_cons.
  destruct (is_commitment_status (sc_status c)); repeat case_decide; naive_solver.
Qed.

(** Routing of slot statuses, from the callbacks through [geyser_loop]: every
    life-cycle status (first shred, completed, bank created, dead) reaches the
    subscribers of each of the three levels exactly once and in order, and the
    reconstruction loop exactly once; a commitment status reaches no subscriber
    on this way, only the reconstruction loop, which sends it once the block is
    there. The deshred subscribers and the block-meta storage get all of them.
    Any other messages may be queued in between. *)
Theorem slot_status_routing (calls : list SlotCall) (queue : Queue Message) :
  let sends := concat (slot_call_sends <$> calls) in
  let is_slot m := match m with MsgSlot _ => true | _ => false end in
  filter (λ m, is_slot m = true) (omap id queue) = geyser_sends sends →
  ∃ effects, geyser_loop (S (length queue)) PartitionedBuffer_new queue = Some (Done effects) ∧
    (∀ c, filter (λ m, is_slot m = true) (concat (broadcasted c effects)) ++ broadcast_sends c sends
       = lifecycle_messages calls) ∧
    filter (λ m, is_slot m = true) (to_reconstruction effects) = lifecycle_messages calls ∧
    reconstruction_sends sends = commitment_messages calls ∧
    deshred_sends sends = slot_call_message <$> calls ∧ blocks_meta_sends sends = slot_call_message <$> calls.
Proof.
  intros sends is_slot Hq. destruct (geyser_loop_forwarded queue) as (effects & Hrun & H1 & H2 & H3 & H4 & _).
  destruct (slot_calls_sends calls) as (S1 & S2 & S3 & S4 & S5 & S6 & S7). fold sends in S1, S2, S3, S4, S5, S6, S7.
  exists effects. split; [done|]. split; [|split; [by rewrite H1, Hq, S1|done]].
  intros [].
  - rewrite H2, S3, app_nil_r, list_filter_filter.
    rewrite (list_filter_iff _ (λ m, is_slot m = true)); [by rewrite Hq, S1|]. intros m. destruct m; cbn; naive_solver.
  - by rewrite H3, S4.
  - by rewrite H4, S5.
Qed.

Lemma slot_status_routing_witness :
  let calls := [mkSlotCall (mkTimestamp 0 0) 7 None GeyserCreatedBank; mkSlotCall (mkTimestamp 0 0) 7 None GeyserRooted] in
  ∃ effects, geyser_loop 3 PartitionedBuffer_new
    [None; Some (slot_call_message (mkSlotCall (mkTimestamp 0 0) 7 None GeyserCreatedBank))] = Some (Done effects) ∧
    reconstruction_sends (concat (slot_call_sends <$> calls)) = commitment_messages calls.
Proof.
  intros calls. destruct (slot_status_routing calls
    [None; Some (slot_call_message (mkSlotCall (mkTimestamp 0 0) 7 None GeyserCreatedBank))])
    as (effects & H1 & _ & _ & H2 & _); [reflexivity|].
  exists effects. split; [exact H1|exact H2].
Defined.
