(* ===== verification/ReconstructionLoop.v ===== *)
(** * grpc.rs: block_reconstruction_loop and the replay requests

    One branch of the loop takes a batch of messages, adds them to the block
    machine's storage and broadcasts the blocks that became ready; the other
    answers a request to replay the stored slots. Each is one step, its
    broadcasts being effects. [fuel] bounds the loops of [add] and of the ready
    blocks ([now] is [SystemTime::now()]). Metrics and logs are not modelled. *)

From S2P Require Import Prelude Message BlockReconstruction BlockReconstructionSpec FromGeyser Plugin Pipeline.

Set Default Goal Selector "!".

Local Open Scope Z_scope.

Definition status_of_commitment (c : CommitmentLevel) : SlotStatus :=
  match c with
  | Processed => StatusProcessed
  | Confirmed => StatusConfirmed
  | Finalized => StatusFinalized
  end.

(** The slot message built from a status update. *)
Definition slot_message (now : Timestamp) (u : SlotCommitmentStatusUpdate) : Message :=
  MsgSlot (mkMessageSlot (scu_slot u) (scu_parent_slot u) (status_of_commitment (scu_commitment u)) None now).

Definition ALL_COMMITMENT_LEVELS : list CommitmentLevel := [Processed; Confirmed; Finalized].

Definition block_message (fb : FrozenBlock) : Message := MsgBlock (fb_pre_computed_message_block fb).
Definition block_meta_message (fb : FrozenBlock) : Message := MsgBlockMeta (fb_block_meta fb).

(** The broadcasts of one ready block. *)
Definition broadcast_ready (now : Timestamp) (ready : SlotCommitmentStatusUpdate * FrozenBlock) : list Sent :=
  let '(slot_update, frozen_block) := ready in
  let commitment_level := scu_commitment slot_update in
  (if bool_decide (commitment_level = Processed) then []
   else [Broadcasted commitment_level (fb_original_messages frozen_block)])
  ++ [Broadcasted commitment_level [block_message frozen_block; block_meta_message frozen_block]]
  ++ ((λ c, Broadcasted c [slot_message now slot_update]) <$> ALL_COMMITMENT_LEVELS).

Inductive ReplayResponseMessageType :=
| ReplaySingle (m : Message)
| ReplayBatch (l : list Message).

(** [ReplayResponseMessageIterator], collected. *)
Definition replay_response_messages (r : ReplayResponseMessageType) : list Message :=
  match r with ReplaySingle m => [m] | ReplayBatch l => l end.

Inductive ReplayedResponse :=
| ReplayedMessages (messages : list ReplayResponseMessageType)
| ReplayLagged (slot : Z).

Definition replay_slot (created_at : Timestamp) (r : ReplayedSlot) : list ReplayResponseMessageType :=
  [ReplayBatch (fb_original_messages (rs_frozen_block r));
   ReplaySingle (block_message (rs_frozen_block r));
   ReplaySingle (block_meta_message (rs_frozen_block r))]
  ++ ((λ u, ReplaySingle (slot_message created_at u)) <$> rs_slot_status_messages r).

Section loop.
Context {B : BlockMachine}.

(** [rl_first_available]: the atomic shared with [subscribe_first_available_slot]
    ([None] when replay is disabled). *)
Record ReconstructionLoop := mkReconstructionLoop {
  rl_block_machine : BlockMachineStorage;
  rl_first_available : option Z
}.

Definition ReconstructionLoop_new (replay_stored_slots : Z) : ReconstructionLoop :=
  mkReconstructionLoop (BlockMachineStorage_new replay_stored_slots)
    (if replay_stored_slots =? 0 then None else Some u64_max).

Fixpoint add_all (fuel : nat) (now : Timestamp) (st : BlockMachineStorage) (messages : list Message)
    : outcome (option BlockMachineStorage) :=
  match messages with
  | [] => Done (Some st)
  | m :: messages =>
      o ← add fuel now st m;
      match o with Some st => add_all fuel now st messages | None => Done None end
  end.

(** [while let Some(..) = pop_ready_block()]. *)
Fixpoint ready_loop (fuel : nat) (now : Timestamp) (st : BlockMachineStorage)
    : option (list Sent * BlockMachineStorage) :=
  match fuel with
  | O => None
  | S fuel =>
      match pop_ready_block st with
      | (Some ready, st) =>
          '(sends, st) ← ready_loop fuel now st; Some (broadcast_ready now ready ++ sends, st)
      | (None, st) => Some ([], st)
      end
  end.

Definition on_batch (fuel : nat) (now : Timestamp) (rl : ReconstructionLoop)
    (buffered_messages : list BlockReconstructionMessage) : outcome (option (list Sent * ReconstructionLoop)) :=
  o ← add_all fuel now (rl_block_machine rl) (concat (reconstruction_messages <$> buffered_messages));
  Done (st ← o;
        '(sends, st) ← ready_loop fuel now st;
        let first_available :=
          match min_replayable_slot st, rl_first_available rl with
          | Some min_slot, Some _ => Some min_slot
          | _, first_available => first_available
          end in
        Some (sends, mkReconstructionLoop st first_available)).

(** The answer to a replay request; [None]: the answer's channel is dropped unused. *)
Definition on_replay_request (created_at : Timestamp) (rl : ReconstructionLoop)
    (commitment : CommitmentLevel) (replay_slot_from : Z) : option ReplayedResponse :=
  let lagged :=
    match min_replayable_slot (rl_block_machine rl) with
    | Some slot => if replay_slot_from <? slot then Some slot else None
    | None => None
    end in
  match lagged with
  | Some slot => Some (ReplayLagged slot)
  | None =>
      let replayed_messages :=
        concat (replay_slot created_at <$> replay_from_slot (rl_block_machine rl) replay_slot_from commitment) in
      match replayed_messages with
      | [] => None
      | _ => Some (ReplayedMessages replayed_messages)
      end
  end.

(** [subscribe_first_available_slot]. *)
Definition subscribe_first_available_slot (rl : ReconstructionLoop) : option Z := rl_first_available rl.

(** ** What a subscriber of a level sees *)

(** The messages of a ready block at level [c]. *)
Definition ready_at (c : CommitmentLevel) (now : Timestamp) (ready : SlotCommitmentStatusUpdate * FrozenBlock)
    : list Message :=
  let '(u, fb) := ready in
  (if decide (scu_commitment u = c)
   then (if decide (c = Processed) then [] else fb_original_messages fb) ++ [block_message fb; block_meta_message fb]
   else [])
  ++ [slot_message now u].

Lemma broadcast_ready_at c now ready : concat (broadcasted c (broadcast_ready now ready)) = ready_at c now ready.
Proof.
  destruct ready as [u fb]. unfold broadcast_ready, ready_at, ALL_COMMITMENT_LEVELS, broadcasted.
  destruct (scu_commitment u), c; repeat case_decide; try congruence; cbn; repeat case_bool_decide; try congruence; cbn;
    repeat case_bool_decide; try congruence; cbn; rewrite ?app_nil_r; try done; by rewrite <- app_assoc.
Qed.

Lemma ready_loop_ok fuel now st : (length (bms_ready_queue st) < fuel)%nat →
  ∃ sends, ready_loop fuel now st = Some (sends, set_ready st []) ∧
    (∀ c, concat (broadcasted c sends) = concat (ready_at c now <$> bms_ready_queue st)) ∧
    to_reconstruction sends = [].
Proof.
  revert st. induction fuel as [|fuel IH]; intros st Hlen; [lia|]. cbn [ready_loop]. unfold pop_ready_block.
  destruct (bms_ready_queue st) as [|q rest] eqn:Eq.
  - exists []. split; [|done]. do 2 f_equal. destruct st; cbn in *. by subst.
  - destruct (IH (set_ready st rest)) as (sends & -> & Hc & Hr); [cbn in *; lia|].
    cbn [mbind option_bind]. eexists. split; [reflexivity|]. split.
    + intros c. rewrite broadcasted_app, concat_app, broadcast_ready_at, Hc. done.
    + rewrite to_reconstruction_app, Hr, app_nil_r. destruct q as [u fb]. unfold broadcast_ready, to_reconstruction.
      by case_bool_decide.
Qed.

Lemma ready_loop_fuel now fuel : ∀ fuel' st, (length (bms_ready_queue st) < fuel)%nat → (fuel <= fuel')%nat →
  ready_loop fuel' now st = ready_loop fuel now st.
Proof.
  induction fuel as [|fuel IH]; intros fuel' st Hlt Hle; [lia|]. destruct fuel' as [|fuel']; [lia|].
  cbn [ready_loop]. unfold pop_ready_block. destruct (bms_ready_queue st) as [|q rest] eqn:E; [done|].
  rewrite (IH fuel'); [done|cbn in *; lia|lia].
Qed.

Context {BL : BlockMachineLaws}.

Lemma add_all_total now messages : ∀ st,
  ∃ fuel r, (∀ fuel', (fuel <= fuel')%nat → add_all fuel' now st messages = r) ∧ r ≠ Done None.
Proof.
  induction messages as [|m messages IH]; intros st; [by exists 0%nat, (Done (Some st))|].
  destruct (add_total now st m) as (f1 & r1 & H1 & Hne1). destruct r1 as [[st1|]|]; [|done|].
  - destruct (IH st1) as (f2 & r2 & H2 & Hne2). exists (max f1 f2), r2. split; [|done].
    intros fuel' Hle. cbn [add_all]. rewrite H1 by lia. cbn [mbind outcome_bind]. apply H2. lia.
  - exists f1, Panic. split; [|done]. intros fuel' Hle. cbn [add_all]. by rewrite H1.
Qed.

Lemma add_all_reachable cap fuel now messages : ∀ st st',
  reachable cap st → add_all fuel now st messages = Done (Some st') → reachable cap st'.
Proof.
  induction messages as [|m messages IH]; intros st st' Hst; cbn [add_all]; [by intros [= <-]|].
  destruct (add fuel now st m) as [[st1|]|] eqn:E; [|done|done]. cbn [mbind outcome_bind].
  apply IH. by eapply reachable_add.
Qed.

Lemma reachable_set_ready cap st : reachable cap st → reachable cap (set_ready st []).
Proof.
  intros Hst. assert (∀ n st, length (bms_ready_queue st) = n → reachable cap st → reachable cap (set_ready st [])) as H.
  { clear st Hst. induction n as [|n IH]; intros st Hn Hst.
    - destruct (bms_ready_queue st) eqn:E; [|done]. by replace (set_ready st []) with st by (destruct st; cbn in *; by subst).
    - destruct (bms_ready_queue st) as [|q rest] eqn:E; [done|]. injection Hn as Hn.
      apply reachable_pop in Hst. unfold pop_ready_block in Hst. rewrite E in Hst. cbn [snd] in Hst.
      apply (IH (set_ready st rest)) in Hst; [exact Hst|done]. }
  by eapply H.
Qed.

(** C10. A batch of the reconstruction loop always ends. It broadcasts exactly
    the blocks that became ready, in order: to the subscribers of the block's
    level, at confirmed and finalized, all its messages, then the block and its
    meta, and only then the status of the slot; the other levels get the status
    alone, so nobody sees a commitment status before the content it commits to.
    Each block is the block of data of the slot the status is about. Afterwards
    nothing is left waiting and the first available slot is the smallest one
    that can be replayed. *)
Theorem reconstruction_batch_spec cap now rl batch :
  reachable cap (rl_block_machine rl) →
  ∃ fuel r, (∀ fuel', (fuel <= fuel')%nat → on_batch fuel' now rl batch = r) ∧ r ≠ Done None ∧
    ∀ sends rl', r = Done (Some (sends, rl')) →
      ∃ st, add_all fuel now (rl_block_machine rl) (concat (reconstruction_messages <$> batch)) = Done (Some st) ∧
        (∀ c, concat (broadcasted c sends) = concat (ready_at c now <$> bms_ready_queue st)) ∧
        (∀ u fb, (u, fb) ∈ bms_ready_queue st → block_for (scu_slot u) fb) ∧
        reachable cap (rl_block_machine rl') ∧ bms_ready_queue (rl_block_machine rl') = [] ∧
        (rl_first_available rl = None → subscribe_first_available_slot rl' = None) ∧
        (∀ a s, rl_first_available rl = Some a → min_replayable_slot (rl_block_machine rl') = Some s →
           subscribe_first_available_slot rl' = Some s).
Proof.
  intros Hst. destruct (add_all_total now (concat (reconstruction_messages <$> batch)) (rl_block_machine rl))
    as (f1 & r1 & H1 & Hne). destruct r1 as [[st|]|]; [|done|].
  - set (f := max f1 (S (length (bms_ready_queue st)))).
    assert (reachable cap st) as Hst' by (eapply add_all_reachable; [exact Hst|by apply (H1 f1)]).
    destruct (ready_loop_ok f now st) as (sends' & Hready & Hc' & _); [lia|].
    exists f. eexists. split; [|split].
    + intros fuel' Hle. unfold on_batch. rewrite H1 by lia. cbn [mbind outcome_bind option_bind].
      rewrite (ready_loop_fuel now f), Hready by lia. cbn [mbind option_bind]. reflexivity.
    + done.
    + intros s rl' [= <- <-]. exists st. split; [apply H1; lia|]. split; [exact Hc'|]. split.
      { intros u fb. by apply (reachable_ready cap). }
      cbn [rl_block_machine rl_first_available subscribe_first_available_slot].
      split; [by apply reachable_set_ready|]. split; [done|]. split.
      * unfold subscribe_first_available_slot. cbn [rl_first_available]. intros ->. by case_match.
      * unfold subscribe_first_available_slot. cbn [rl_first_available]. intros a s' -> Hmin.
        change (bms_min_slot st = Some s') in Hmin. by rewrite Hmin.
  - exists f1, Panic. split; [|done]. intros fuel' Hle. unfold on_batch. by rewrite H1.
Qed.

(** ** Replay *)

Lemma concat_replay_nil now l : concat (replay_slot now <$> l) = [] → l = [].
Proof. by destruct l. Qed.

(** Everything a replayed slot delivers: its messages, then the block and its
    meta, then the statuses the slot got. *)
Definition replayed_at (now : Timestamp) (r : ReplayedSlot) : list Message :=
  fb_original_messages (rs_frozen_block r)
  ++ [block_message (rs_frozen_block r); block_meta_message (rs_frozen_block r)]
  ++ (slot_message now <$> rs_slot_status_messages r).

Lemma replay_slot_messages now r : concat (replay_response_messages <$> replay_slot now r) = replayed_at now r.
Proof.
  unfold replay_slot, replayed_at. rewrite fmap_app, concat_app.
  assert (concat (replay_response_messages <$> ((λ u, ReplaySingle (slot_message now u)) <$> rs_slot_status_messages r))
    = slot_message now <$> rs_slot_status_messages r) as ->.
  { induction (rs_slot_status_messages r) as [|u us IH]; [done|]. cbn. by rewrite IH. }
  cbn [fmap list_fmap replay_response_messages concat]. by rewrite app_nil_r, <- !app_assoc.
Qed.

Lemma replay_messages now l :
  concat (replay_response_messages <$> concat (replay_slot now <$> l)) = concat (replayed_at now <$> l).
Proof.
  induction l as [|r l IH]; [done|]. cbn [fmap list_fmap concat]. by rewrite fmap_app, concat_app, IH, replay_slot_messages.
Qed.

(** The three answers. *)
Lemma replay_request_cases cap now rl c from : reachable cap (rl_block_machine rl) →
  let st := rl_block_machine rl in
  (∃ first, from < first ∧ is_Some (bms_replayed_slot st !! first) ∧
     (∀ s, is_Some (bms_replayed_slot st !! s) → first <= s) ∧
     on_replay_request now rl c from = Some (ReplayLagged first)) ∨
  (∃ l, replay_from_slot st from c ≠ [] ∧
     concat (replay_response_messages <$> l) = concat (replayed_at now <$> replay_from_slot st from c) ∧
     on_replay_request now rl c from = Some (ReplayedMessages l)) ∨
  (replay_from_slot st from c = [] ∧ on_replay_request now rl c from = None).
Proof.
  intros Hst st. destruct (reachable_min cap st Hst) as [Hmin _]. unfold on_replay_request. fold st. cbv zeta.
  destruct (match min_replayable_slot st with Some slot => _ | None => _ end) as [m|] eqn:Em.
  - left. exists m. destruct (min_replayable_slot st) as [m'|] eqn:E; [|done].
    destruct (Z.ltb_spec from m'); [|done]. injection Em as ->. split; [done|]. by destruct (proj1 (Hmin m) eq_refl).
  - right. destruct (concat (replay_slot now <$> replay_from_slot st from c)) as [|x l] eqn:El.
    + right. by apply concat_replay_nil in El.
    + left. exists (x :: l). split; [by intros Hn; rewrite Hn in El|]. split; [|done]. rewrite <- El. apply replay_messages.
Qed.

End loop.

(** ** A concrete loop *)

Section witnesses.
#[local] Existing Instances queue_machine queue_machine_laws.

Definition demo_loop : ReconstructionLoop := mkReconstructionLoop (set_ready demo_storage []) (Some u64_max).

Lemma demo_loop_reachable : reachable 1 (rl_block_machine demo_loop).
Proof. apply reachable_set_ready, demo_storage_reachable. Qed.

(** A batch with the next slot: an account, its meta, then its confirmed status. *)
Definition demo_batch : list BlockReconstructionMessage :=
  [RecBatch [demo_account_event 8 3 []]; RecSingle (MsgBlockMeta (demo_meta 8)); RecBatch [demo_status 8 StatusConfirmed]].

Definition sent_slots (o : outcome (option (list Sent * ReconstructionLoop))) : list (list Z) :=
  match o with
  | Done (Some (sends, rl)) =>
      (λ c, Message_get_slot <$> concat (broadcasted c sends)) <$> ALL_COMMITMENT_LEVELS
  | _ => []
  end.

(** Processed and finalized subscribers get the status only. *)
Example demo_batch_sends : sent_slots (on_batch 20 (mkTimestamp 0 0) demo_loop demo_batch) = [[8]; [8; 8; 8; 8]; [8]].
Proof. by vm_compute. Qed.

Lemma reconstruction_batch_spec_witness :
  ∃ fuel r, (∀ fuel', (fuel <= fuel')%nat → on_batch fuel' (mkTimestamp 0 0) demo_loop demo_batch = r) ∧ r ≠ Done None.
Proof.
  destruct (reconstruction_batch_spec 1 (mkTimestamp 0 0) demo_loop demo_batch demo_loop_reachable)
    as (fuel & r & H1 & H2 & _).
  exists fuel, r. split; [exact H1|exact H2].
Defined.

Definition response_slots (o : option ReplayedResponse) : option (Z + list Z) :=
  match o with
  | Some (ReplayLagged s) => Some (inl s)
  | Some (ReplayedMessages l) => Some (inr (Message_get_slot <$> concat (replay_response_messages <$> l)))
  | None => None
  end.

(** Slot 7 is buffered and finalized: a request from 6 lags, from 7 it gets
    the account, the block, its meta and the two statuses, from 8 nothing. *)
Example demo_replays :
  response_slots <$> (on_replay_request (mkTimestamp 0 0) demo_loop Finalized <$> [6; 7; 8])
  = [Some (inl 7); Some (inr [7; 7; 7; 7; 7]); None].
Proof. by vm_compute. Qed.
End witnesses.
