(* ===== verification/ClientLoop.v ===== *)
(** * grpc.rs: client_loop

    The server side of one subscription: a select over the cancellation, the
    requests of the client and the broadcast of its commitment level. Each
    branch is one step. The outgoing channel is what was put in it
    ([cl_out]) and [tx], which says for the n-th item whether there is room,
    none, or nobody left to receive; a blocking send waits for room. Tasks
    spawned to deliver a last error deliver it at once. The lazily filled cells
    of the shared messages are not written back: no update depends on them
    (Filter.v, EncodeSpec.v). Metrics and logs are not modelled. *)

From S2P Require Import Prelude Proto Channels Message Limits Names Convert Externals FilterBase Updates Filter Service BlockReconstruction BlockReconstructionSpec FromGeyser Plugin Pipeline ReconstructionLoop.

Set Default Goal Selector "!".

Inductive TrySend := TxOk | TxFull | TxClosed.

Inductive ForwardError := ForwardFull | ForwardClosed.

Section client.
Context {X : Externals} `{!Broadcast (list Message)}.

(** [SubscriberChannels]. *)
Record SubscriberChannels := mkSubscriberChannels {
  sch_processed : channel (list Message);
  sch_confirmed : channel (list Message);
  sch_finalized : channel (list Message)
}.

Definition SubscriberChannels_new (processed confirmed finalized : nat) : SubscriberChannels :=
  mkSubscriberChannels (broadcast_channel processed) (broadcast_channel confirmed) (broadcast_channel finalized).

Definition channels_sender (s : SubscriberChannels) (commitment : CommitmentLevel) : channel (list Message) :=
  match commitment with
  | Processed => sch_processed s
  | Confirmed => sch_confirmed s
  | Finalized => sch_finalized s
  end.

Definition channels_send (s : SubscriberChannels) (commitment : CommitmentLevel) (messages : list Message)
    : SubscriberChannels :=
  let sender := broadcast_send (channels_sender s commitment) messages in
  match commitment with
  | Processed => mkSubscriberChannels sender (sch_confirmed s) (sch_finalized s)
  | Confirmed => mkSubscriberChannels (sch_processed s) sender (sch_finalized s)
  | Finalized => mkSubscriberChannels (sch_processed s) (sch_confirmed s) sender
  end.

Definition channels_subscribe (s : SubscriberChannels) (commitment : CommitmentLevel) : receiver (list Message) :=
  broadcast_subscribe (channels_sender s commitment).

Definition StreamItem : Type := result TonicStatus FilteredUpdate.

(** [ClientSession] and the variables of the loop; [cl_disconnect_reason] is
    set when the loop has ended. *)
Record Client := mkClient {
  cl_filter : Filter;
  cl_commitment : CommitmentLevel;
  cl_messages_rx : receiver (list Message);
  cl_out : list StreamItem;
  cl_disconnect_reason : option string
}.

Definition Client_new (broadcast : SubscriberChannels) : Client :=
  let commitment := get_commitment_level Filter_default in
  mkClient Filter_default commitment (channels_subscribe broadcast commitment) [] None.

Definition set_out (c : Client) (out : list StreamItem) : Client :=
  mkClient (cl_filter c) (cl_commitment c) (cl_messages_rx c) out (cl_disconnect_reason c).

Definition set_rx (c : Client) (rx : receiver (list Message)) : Client :=
  mkClient (cl_filter c) (cl_commitment c) rx (cl_out c) (cl_disconnect_reason c).

(** [break 'outer] with a reason. *)
Definition finish (c : Client) (reason : string) : Client :=
  mkClient (cl_filter c) (cl_commitment c) (cl_messages_rx c) (cl_out c) (Some reason).

Section step.
Context (tx : nat → TrySend).

(** [stream_tx.send(Err(status)).await] of a spawned task. *)
Definition send_error (c : Client) (status : TonicStatus) : Client :=
  match tx (length (cl_out c)) with
  | TxClosed => c
  | _ => set_out c (cl_out c ++ [Err status])
  end.

(** The inner loop of both paths: [try_send] fails when there is no room, the
    blocking send of the replay waits. *)
Fixpoint forward_updates {U} (blocking : bool) (out : list (result TonicStatus U)) (updates : list U)
    : list (result TonicStatus U) * option ForwardError :=
  match updates with
  | [] => (out, None)
  | u :: updates =>
      match tx (length out) with
      | TxOk => forward_updates blocking (out ++ [Ok u]) updates
      | TxFull => if blocking then forward_updates blocking (out ++ [Ok u]) updates else (out, Some ForwardFull)
      | TxClosed => (out, Some ForwardClosed)
      end
  end.

(** [filter.get_updates] of each message, forwarded as they come. *)
Fixpoint forward_messages (blocking : bool) (f : Filter) (commitment : option CommitmentLevel) (out : list StreamItem)
    (messages : list Message) : outcome (list StreamItem * option ForwardError) :=
  match messages with
  | [] => Done (out, None)
  | m :: messages =>
      '(updates, _) ← Filter_get_updates f m commitment;
      match forward_updates blocking out updates with
      | (out, None) => forward_messages blocking f commitment out messages
      | (out, Some e) => Done (out, Some e)
      end
  end.

Definition on_cancelled (c : Client) : Client :=
  finish (match tx (length (cl_out c)) with
          | TxOk => set_out c (cl_out c ++ [Err (StatusUnavailable "server is shutting down try again later")])
          | _ => c
          end) "server_shutdown".

(** What came out of the broadcast; [None]: nothing to receive yet. *)
Definition on_broadcast (c : Client) (message : RecvResult (list Message) * receiver (list Message))
    : outcome (option Client) :=
  match message with
  | (Received messages, rx) =>
      '(out, error) ← forward_messages false (cl_filter c) (Some (cl_commitment c)) (cl_out c) messages;
      let c := set_out (set_rx c rx) out in
      Done (Some (match error with
                  | None => c
                  | Some ForwardFull =>
                      finish (send_error c (StatusInternal "lagged to send an update")) "client_channel_full"
                  | Some ForwardClosed => finish c "client_closed"
                  end))
  | (RecvClosed, _) => Done (Some (finish c "broadcast_closed"))
  | (RecvLagged _, _) =>
      Done (Some (finish (send_error c (StatusInternal "lagged to receive geyser messages")) "client_broadcast_lag"))
  | (RecvEmpty, _) => Done None
  end.

(** What the client asked for: a filter and a slot to resume from, or its end. *)
Definition ClientRequest : Type := option (option Z * Filter).

(** The requests queued so far; only the last one counts, and none when the
    sender is gone. *)
Definition latest_request (queued : list ClientRequest) (disconnected : bool) : option ClientRequest :=
  if disconnected then None else last queued.

Definition out_of_range (from_slot slot : Z) : TonicStatus :=
  StatusOutOfRange ("broadcast from " +:+ decimal from_slot +:+ " is not available, last available: " +:+ decimal slot).

(** A replay request to the reconstruction loop: it cannot be sent, its answer
    is dropped, or it is answered. *)
Inductive ReplayOutcome :=
| ReplayNotSent
| ReplayDropped
| ReplayAnswered (r : ReplayedResponse).

(** The [from_slot] part of a request. [replay] is [None] when replay is disabled. *)
Definition replay_from (replay : option (CommitmentLevel → Z → ReplayOutcome)) (c : Client) (from_slot : Z)
    : outcome Client :=
  match replay with
  | None => Done (finish (send_error c (StatusInternal "from_slot is not supported")) "from_slot_unsupported")
  | Some request =>
      match request (cl_commitment c) from_slot with
      | ReplayNotSent =>
          Done (finish (send_error c (StatusInternal "failed to send from_slot request")) "replay_error")
      | ReplayDropped =>
          Done (finish (send_error c (StatusInternal "failed to get replay response")) "replay_error")
      | ReplayAnswered (ReplayLagged slot) =>
          Done (finish (send_error c (out_of_range from_slot slot)) "slot_unavailable")
      | ReplayAnswered (ReplayedMessages messages_batch) =>
          '(out, error) ← forward_messages true (cl_filter c) (Some (cl_commitment c)) (cl_out c)
                            (concat (replay_response_messages <$> messages_batch));
          let c := set_out c out in
          Done (match error with None => c | Some _ => finish c "client_closed" end)
      end
  end.

Definition on_request (broadcast : SubscriberChannels) (replay : option (CommitmentLevel → Z → ReplayOutcome))
    (c : Client) (request : option ClientRequest) : outcome Client :=
  match request with
  | Some (Some (from_slot, filter_new)) =>
      let commitment_new := get_commitment_level filter_new in
      let c :=
        mkClient filter_new commitment_new
          (if decide (commitment_new = cl_commitment c) then cl_messages_rx c
           else channels_subscribe broadcast commitment_new)
          (cl_out c) (cl_disconnect_reason c) in
      match from_slot with
      | Some from_slot => replay_from replay c from_slot
      | None => Done c
      end
  | Some None | None => Done (finish c "client_disconnect")
  end.

(** ** The updates of a sequence of messages *)

(** [get_updates] of each message in turn, concatenated. *)
Fixpoint filter_messages (f : Filter) (commitment : option CommitmentLevel) (messages : list Message)
    : outcome (list FilteredUpdate) :=
  match messages with
  | [] => Done []
  | m :: messages =>
      '(us, _) ← Filter_get_updates f m commitment;
      rest ← filter_messages f commitment messages;
      Done (us ++ rest)
  end.

Lemma filter_messages_app f commitment l l' us us' :
  filter_messages f commitment l = Done us → filter_messages f commitment l' = Done us' →
  filter_messages f commitment (l ++ l') = Done (us ++ us').
Proof.
  revert us. induction l as [|m l IH]; intros us Hl Hl'; cbn [filter_messages app] in *; [by inv_done|].
  destruct (Filter_get_updates f m commitment) as [[u m']|] eqn:Em; [|done].
  cbn [mbind outcome_bind] in *. destruct (filter_messages f commitment l) as [r|] eqn:Er; [|done].
  cbn [mbind outcome_bind] in *. inv_done. rewrite (IH r) by done. cbn [mbind outcome_bind].
  by rewrite app_assoc.
Qed.

Lemma filter_messages_app_inv f commitment l l' us :
  filter_messages f commitment (l ++ l') = Done us →
  ∃ us1 us2, filter_messages f commitment l = Done us1 ∧ filter_messages f commitment l' = Done us2 ∧ us = us1 ++ us2.
Proof.
  revert us. induction l as [|m l IH]; intros us; cbn [filter_messages app]; [by exists [], us|].
  destruct (Filter_get_updates f m commitment) as [[u m']|] eqn:Em; [|done]. cbn [mbind outcome_bind].
  destruct (filter_messages f commitment (l ++ l')) as [r|] eqn:Er; [|done]. cbn [mbind outcome_bind]. intros [= <-].
  destruct (IH r eq_refl) as (us1 & us2 & -> & H2 & ->). exists (u ++ us1), us2. by rewrite app_assoc.
Qed.

(** [us] is what a client has of [messages] when the delivery stopped: all the
    updates of the first messages and perhaps some of those of the next one. *)
Definition delivered_of (f : Filter) (commitment : option CommitmentLevel) (messages : list Message)
    (us : list FilteredUpdate) : Prop :=
  ∃ got all, got `prefix_of` messages ∧ filter_messages f commitment got = Done all ∧ us `prefix_of` all.

Lemma delivered_of_app f commitment l messages us us' :
  filter_messages f commitment l = Done us → delivered_of f commitment messages us' →
  delivered_of f commitment (l ++ messages) (us ++ us').
Proof.
  intros Hl (got & all & Hgot & Hall & Hus). exists (l ++ got), (us ++ all).
  split; [by apply prefix_app|]. split; [by apply filter_messages_app|by apply prefix_app].
Qed.

Lemma forward_updates_spec {U} blocking (updates : list U) : ∀ out out' e,
  forward_updates blocking out updates = (out', e) →
  ∃ us, us `prefix_of` updates ∧ out' = out ++ (Ok <$> us) ∧ (e = None → us = updates).
Proof.
  induction updates as [|u updates IH]; intros out out' e; cbn [forward_updates].
  - intros [= <- <-]. exists []. split; [done|]. split; [by rewrite app_nil_r|done].
  - assert (forward_updates blocking (out ++ [Ok u]) updates = (out', e) →
      ∃ us, us `prefix_of` u :: updates ∧ out' = out ++ (Ok <$> us) ∧ (e = None → us = u :: updates)) as Hcons.
    { intros (us & Hpre & -> & He)%IH. exists (u :: us). split; [by apply prefix_cons|].
      split; [by rewrite <- app_assoc|]. by intros ->%He. }
    assert (∀ e', (out, Some e') = (out', e) →
      ∃ us, us `prefix_of` u :: updates ∧ out' = out ++ (Ok <$> us) ∧ (e = None → us = u :: updates)) as Hstop.
    { intros e' [= <- <-]. exists []. split; [apply prefix_nil|]. split; [by rewrite app_nil_r|done]. }
    destruct (tx (length out)); [done| |by apply Hstop]. destruct blocking; [done|by apply Hstop].
Qed.

Lemma forward_messages_spec blocking f commitment messages : ∀ out out' e,
  forward_messages blocking f commitment out messages = Done (out', e) →
  ∃ us, out' = out ++ (Ok <$> us) ∧ delivered_of f commitment messages us ∧
    (e = None → filter_messages f commitment messages = Done us).
Proof.
  induction messages as [|m messages IH]; intros out out' e; cbn [forward_messages filter_messages].
  { intros [= <- <-]. exists []. split; [by rewrite app_nil_r|]. split; [|done]. by exists [], []. }
  destruct (Filter_get_updates f m commitment) as [[updates m']|] eqn:Em; [|done]. cbn [mbind outcome_bind].
  assert (filter_messages f commitment [m] = Done updates) as Hone.
  { cbn [filter_messages]. rewrite Em. cbn [mbind outcome_bind]. by rewrite app_nil_r. }
  destruct (forward_updates blocking out updates) as [out1 e1] eqn:Ef.
  apply forward_updates_spec in Ef as (us & Hpre & -> & He1). destruct e1 as [e1|].
  - intros [= <- <-]. exists us. split; [done|]. split; [|done]. exists [m], updates.
    split; [|done]. apply prefix_cons, prefix_nil.
  - rewrite (He1 eq_refl). intros (us2 & -> & Hdel & He)%IH. exists (updates ++ us2).
    split; [by rewrite fmap_app, app_assoc|]. split; [by apply (delivered_of_app _ _ [m])|].
    by intros ->%He.
Qed.

(** With room, nothing stops the delivery but a panic of the filter. *)
Lemma forward_messages_ok blocking f commitment messages : (∀ n, tx n = TxOk) → ∀ us out,
  filter_messages f commitment messages = Done us →
  forward_messages blocking f commitment out messages = Done (out ++ (Ok <$> us), None).
Proof.
  intros Htx. assert (∀ (updates : list FilteredUpdate) out, forward_updates blocking out updates = (out ++ (Ok <$> updates), None)) as Hu.
  { induction updates as [|u updates IH]; intros out; cbn [forward_updates fmap list_fmap]; [by rewrite app_nil_r|].
    by rewrite Htx, IH, <- app_assoc. }
  induction messages as [|m messages IH]; intros us out; cbn [forward_messages filter_messages].
  { intros [= <-]. by rewrite app_nil_r. }
  destruct (Filter_get_updates f m commitment) as [[updates m']|] eqn:Em; [|done]. cbn [mbind outcome_bind].
  destruct (filter_messages f commitment messages) as [rest|] eqn:Er; [|done]. cbn [mbind outcome_bind].
  intros [= <-]. rewrite Hu, (IH rest) by done. by rewrite fmap_app, app_assoc.
Qed.

(** ** The live stream *)

(** A message is broadcast at some level, the client receives one, or the
    server shuts down. *)
Inductive live_step : SubscriberChannels * Client → SubscriberChannels * Client → Prop :=
| live_send b c level messages : live_step (b, c) (channels_send b level messages, c)
| live_recv b c c' :
    cl_disconnect_reason c = None →
    on_broadcast c (broadcast_recv (channels_sender b (cl_commitment c)) (cl_messages_rx c)) = Done (Some c') →
    live_step (b, c) (b, c')
| live_cancel b c : cl_disconnect_reason c = None → live_step (b, c) (b, on_cancelled c).

Context {BL : BroadcastLaws (list Message)}.

(** The batches broadcast at the level of [c]. *)
Definition level_log (b : SubscriberChannels) (c : Client) : list (list Message) :=
  sent (channels_sender b (cl_commitment c)).

(** All the messages broadcast at the level of [c0] since its position. *)
Definition broadcast_since (b : SubscriberChannels) (c0 : Client) : list Message :=
  concat (drop (position (cl_messages_rx c0)) (level_log b c0)).

Definition last_error (last : list StreamItem) : Prop := last = [] ∨ ∃ status, last = [Err status].

(** What [c0] has become after some live steps. *)
Definition live_inv (c0 : Client) (bc : SubscriberChannels * Client) : Prop :=
  let '(b, c) := bc in
  cl_filter c = cl_filter c0 ∧ cl_commitment c = cl_commitment c0 ∧
  match cl_disconnect_reason c with
  | None =>
      ∃ n us, position (cl_messages_rx c) = (position (cl_messages_rx c0) + n)%nat ∧
        (position (cl_messages_rx c) <= length (level_log b c0))%nat ∧
        filter_messages (cl_filter c0) (Some (cl_commitment c0))
          (concat (take n (drop (position (cl_messages_rx c0)) (level_log b c0)))) = Done us ∧
        cl_out c = cl_out c0 ++ (Ok <$> us)
  | Some _ =>
      ∃ us last, delivered_of (cl_filter c0) (Some (cl_commitment c0)) (broadcast_since b c0) us ∧
        last_error last ∧ cl_out c = cl_out c0 ++ (Ok <$> us) ++ last
  end.

Lemma level_log_send b level messages c :
  level_log (channels_send b level messages) c = level_log b c ++ (if decide (level = cl_commitment c) then [messages] else []).
Proof.
  unfold level_log, channels_send, channels_sender.
  destruct level, (cl_commitment c); cbn; rewrite ?sent_send, ?app_nil_r; done.
Qed.

Lemma delivered_of_prefix f commitment l l' us :
  l `prefix_of` l' → delivered_of f commitment l us → delivered_of f commitment l' us.
Proof. intros Hl (got & all & Hgot & H). exists got, all. split; [by trans l|done]. Qed.

Lemma concat_prefix {A} (l l' : list (list A)) : l `prefix_of` l' → concat l `prefix_of` concat l'.
Proof. intros [k ->]. rewrite concat_app. by apply prefix_app_r. Qed.

Lemma send_error_out c status :
  ∃ last, last_error last ∧ send_error c status = set_out c (cl_out c ++ last).
Proof.
  unfold send_error. assert (c = set_out c (cl_out c ++ [])) as Hc by (destruct c; cbn; by rewrite app_nil_r).
  destruct (tx (length (cl_out c))).
  3: by exists []; split; [left|].
  all: exists [Err status]; split; [right; by eexists|done].
Qed.

(** A receiver that saw [n] of the batches, and what it sees next. *)
Lemma live_inv_take c0 b n us :
  filter_messages (cl_filter c0) (Some (cl_commitment c0))
    (concat (take n (drop (position (cl_messages_rx c0)) (level_log b c0)))) = Done us →
  delivered_of (cl_filter c0) (Some (cl_commitment c0)) (broadcast_since b c0) us.
Proof. intros H. exists (concat (take n (drop (position (cl_messages_rx c0)) (level_log b c0)))), us.
  split; [apply concat_prefix, prefix_take|]. done. Qed.

Lemma live_inv_recv c0 b c c' :
  live_inv c0 (b, c) → cl_disconnect_reason c = None →
  on_broadcast c (broadcast_recv (channels_sender b (cl_commitment c)) (cl_messages_rx c)) = Done (Some c') →
  live_inv c0 (b, c').
Proof.
  intros (Hf & Hl & Hinv) Hrun. rewrite Hrun in Hinv. destruct Hinv as (n & us & Hpos & Hle & Hus & Hout).
  set (log := level_log b c0) in *. set (p0 := position (cl_messages_rx c0)) in *.
  assert (sent (channels_sender b (cl_commitment c)) = log) as Hlog by (unfold log, level_log; by rewrite Hl).
  assert (∀ c2 status reason, cl_out c2 = cl_out c → cl_filter c2 = cl_filter c → cl_commitment c2 = cl_commitment c →
    live_inv c0 (b, finish (send_error c2 status) reason)) as Hended.
  { intros c2 status reason Ho Hf2 Hl2. destruct (send_error_out c2 status) as (last & Hlast & ->).
    unfold live_inv. cbn. rewrite Hf2, Hl2. repeat (split; [done|]). exists us, last.
    split; [by eapply live_inv_take|]. split; [done|]. by rewrite Ho, Hout, <- app_assoc. }
  unfold on_broadcast. destruct (broadcast_recv _ _) as [[messages| |skipped|] rx] eqn:Erx; [|done| |].
  2: { intros [= <-]. by apply Hended. }
  2: { intros [= <-]. unfold live_inv. cbn. repeat (split; [done|]). exists us, [].
       split; [by eapply live_inv_take|]. split; [by left|]. by rewrite app_nil_r. }
  apply recv_event in Erx as [Hget Hrx]. rewrite Hlog, Hpos in Hget. rewrite Hpos in Hrx.
  destruct (forward_messages false (cl_filter c) (Some (cl_commitment c)) (cl_out c) messages) as [[out e]|] eqn:Ef; [|done].
  cbn [mbind outcome_bind]. rewrite Hf, Hl in Ef. apply forward_messages_spec in Ef as (us2 & -> & Hdel & He).
  assert (take (S n) (drop p0 log) = take n (drop p0 log) ++ [messages]) as Htake.
  { apply take_S_r. by rewrite lookup_drop. }
  assert (delivered_of (cl_filter c0) (Some (cl_commitment c0)) (broadcast_since b c0) (us ++ us2)) as Hdel2.
  { eapply delivered_of_prefix; [|by eapply delivered_of_app]. unfold broadcast_since.
    fold log p0. etrans; [|apply concat_prefix, (prefix_take (drop p0 log) (S n))].
    rewrite Htake, concat_app. cbn [concat]. by rewrite app_nil_r. }
  intros [= <-]. destruct e as [[]|].
  - match goal with |- live_inv _ (_, finish (send_error ?c2 ?s) _) => destruct (send_error_out c2 s) as (last & Hlast & ->) end.
    unfold live_inv. cbn. repeat (split; [done|]). exists (us ++ us2), last. split; [done|]. split; [done|].
    by rewrite Hout, fmap_app, <- !app_assoc.
  - unfold live_inv. cbn. repeat (split; [done|]). exists (us ++ us2), []. split; [done|]. split; [by left|].
    by rewrite Hout, fmap_app, app_nil_r, <- app_assoc.
  - unfold live_inv. cbn. rewrite Hrun. repeat (split; [done|]). exists (S n), (us ++ us2). fold log p0.
    split; [lia|]. split; [apply lookup_lt_Some in Hget; lia|]. split.
    + rewrite Htake, concat_app. apply filter_messages_app; [done|]. cbn [concat]. rewrite app_nil_r. by apply He.
    + by rewrite Hout, fmap_app, <- app_assoc.
Qed.

Lemma live_inv_step c0 bc bc' : live_inv c0 bc → live_step bc bc' → live_inv c0 bc'.
Proof.
  intros Hinv Hstep. destruct Hstep as [b c level messages|b c c' Hrun Hrecv|b c Hrun].
  - destruct Hinv as (Hf & Hl & Hinv). split; [done|]. split; [done|].
    assert (level_log b c0 `prefix_of` level_log (channels_send b level messages) c0) as Hpre.
    { rewrite level_log_send. by apply prefix_app_r. }
    destruct Hpre as [k Hk]. destruct (cl_disconnect_reason c).
    + destruct Hinv as (us & last & Hdel & Hinv). exists us, last. split; [|done].
      eapply delivered_of_prefix; [|exact Hdel]. unfold broadcast_since. rewrite Hk, drop_app, concat_app.
      by apply prefix_app_r.
    + destruct Hinv as (n & us & Hpos & Hle & Hus & Hout). exists n, us. split; [done|].
      rewrite Hk. split; [rewrite length_app; lia|]. split; [|done].
      rewrite drop_app_le, take_app_le; [done| |]; rewrite ?length_drop; lia.
  - by eapply live_inv_recv.
  - destruct Hinv as (Hf & Hl & Hinv). rewrite Hrun in Hinv. destruct Hinv as (n & us & Hpos & Hle & Hus & Hout).
    apply live_inv_take in Hus. unfold live_inv, on_cancelled.
    destruct (tx (length (cl_out c))); cbn; (split; [done|]); (split; [done|]).
    1: eexists us, _; split; [done|]; split; [right; by eexists|]; by rewrite Hout, <- app_assoc.
    all: exists us, []; split; [done|]; split; [by left|]; by rewrite app_nil_r.
Qed.

Lemma live_inv_start b c0 :
  cl_disconnect_reason c0 = None → (position (cl_messages_rx c0) <= length (level_log b c0))%nat → live_inv c0 (b, c0).
Proof.
  intros Hrun Hpos. split; [done|]. split; [done|]. rewrite Hrun. exists 0%nat, [].
  split; [lia|]. split; [done|]. split; [done|]. by rewrite app_nil_r.
Qed.

Lemma live_inv_reach b0 c0 b c :
  cl_disconnect_reason c0 = None → (position (cl_messages_rx c0) <= length (level_log b0 c0))%nat →
  rtc live_step (b0, c0) (b, c) → live_inv c0 (b, c).
Proof.
  intros Hrun Hpos Hsteps. eapply (rtc_ind_r (λ bc, live_inv c0 bc)); [by apply live_inv_start| |exact Hsteps].
  intros bc bc' _ Hstep Hinv. by eapply live_inv_step.
Qed.

(** C8. The live stream of a subscription has no gap, no duplicate and no
    reordering: whatever is broadcast and whenever the client receives, the
    stream is at every moment what it was at the start followed by the updates
    of its filter for the first of the batches broadcast at its level since its
    position. When there is nothing left to receive it is all of them; when the
    subscription has ended (a shutdown, a lag, a full or a closed stream) it is
    a prefix of their updates and at most one error, which comes last. *)
Theorem client_live_stream b0 c0 b c :
  cl_disconnect_reason c0 = None → (position (cl_messages_rx c0) <= length (level_log b0 c0))%nat →
  rtc live_step (b0, c0) (b, c) →
  match cl_disconnect_reason c with
  | None =>
      ∃ n us, filter_messages (cl_filter c0) (Some (cl_commitment c0))
                (concat (take n (drop (position (cl_messages_rx c0)) (level_log b c0)))) = Done us ∧
        cl_out c = cl_out c0 ++ (Ok <$> us) ∧
        (on_broadcast c (broadcast_recv (channels_sender b (cl_commitment c)) (cl_messages_rx c)) = Done None →
         filter_messages (cl_filter c0) (Some (cl_commitment c0)) (broadcast_since b c0) = Done us)
  | Some _ =>
      ∃ us last, delivered_of (cl_filter c0) (Some (cl_commitment c0)) (broadcast_since b c0) us ∧
        last_error last ∧ cl_out c = cl_out c0 ++ (Ok <$> us) ++ last
  end.
Proof.
  intros Hrun Hpos Hsteps. destruct (live_inv_reach b0 c0 b c) as (Hf & Hl & Hinv); [done..|].
  destruct (cl_disconnect_reason c); [exact Hinv|]. destruct Hinv as (n & us & Hp & Hle & Hus & Hout).
  exists n, us. split; [done|]. split; [done|]. intros Hend. unfold on_broadcast in Hend.
  destruct (broadcast_recv _ _) as [[messages| |skipped|] rx] eqn:Erx; [|clear Hend|done|done].
  { destruct (forward_messages _ _ _ _ _) as [[]|]; done. }
  apply recv_empty in Erx. rewrite Hl in Erx. change (length (level_log b c0) <= position (cl_messages_rx c))%nat in Erx.
  rewrite take_ge in Hus; [done|]. rewrite length_drop. lia.
Qed.

(** The receiver is never told that it lagged or that the channel is closed,
    from any position on. *)
Definition keeps_up (ch : channel (list Message)) (from : nat) : Prop :=
  ∀ rx, (from <= position rx)%nat →
    match (broadcast_recv ch rx).1 with RecvLagged _ | RecvClosed => False | _ => True end.

(** A client that keeps up gets everything: with room in its stream and no
    lag, and when the filter does not panic on what was broadcast, receiving
    ends after finitely many steps with the subscription still alive, nothing
    left to receive, and the updates of every message broadcast at its level
    since its position in the stream. *)
Theorem client_catches_up b c us :
  (∀ n, tx n = TxOk) → cl_disconnect_reason c = None →
  (position (cl_messages_rx c) <= length (level_log b c))%nat →
  keeps_up (channels_sender b (cl_commitment c)) (position (cl_messages_rx c)) →
  filter_messages (cl_filter c) (Some (cl_commitment c)) (broadcast_since b c) = Done us →
  ∃ c', rtc live_step (b, c) (b, c') ∧ cl_disconnect_reason c' = None ∧
    on_broadcast c' (broadcast_recv (channels_sender b (cl_commitment c')) (cl_messages_rx c')) = Done None ∧
    cl_out c' = cl_out c ++ (Ok <$> us).
Proof.
  intros Htx. remember (length (level_log b c) - position (cl_messages_rx c))%nat as k eqn:Ek.
  revert c us Ek. induction k as [k IH] using lt_wf_ind. intros c us Ek Hrun Hle Hup Hus.
  destruct (broadcast_recv (channels_sender b (cl_commitment c)) (cl_messages_rx c)) as [r rx] eqn:Erx.
  pose proof (Hup (cl_messages_rx c) ltac:(lia)) as Hr. rewrite Erx in Hr. cbn [fst] in Hr.
  destruct r as [messages| | |]; [|clear Hr|done|done].
  - pose proof (recv_event _ _ _ _ Erx) as [Hget Hrx]. fold (level_log b c) in Hget.
    pose proof (lookup_lt_Some _ _ _ Hget) as Hlt.
    assert (broadcast_since b c = messages ++ concat (drop (S (position (cl_messages_rx c))) (level_log b c))) as Hsplit.
    { unfold broadcast_since. by rewrite (drop_S _ _ _ Hget). }
    rewrite Hsplit in Hus. apply filter_messages_app_inv in Hus as (us1 & us2 & H1 & H2 & ->).
    pose proof (forward_messages_ok false _ _ _ Htx us1 (cl_out c) H1) as Hf.
    set (c1 := set_out (set_rx c rx) (cl_out c ++ (Ok <$> us1))).
    destruct (IH (length (level_log b c1) - position (cl_messages_rx c1))%nat) with (c := c1) (us := us2)
      as (c' & Hsteps & Hrun' & Hend & Hout).
    + unfold c1. change (level_log b (set_out _ _)) with (level_log b c). cbn. lia.
    + done.
    + done.
    + unfold c1. change (level_log b (set_out _ _)) with (level_log b c). cbn. lia.
    + intros rx' Hrx'. apply Hup. unfold c1 in Hrx'. cbn in Hrx'. lia.
    + unfold broadcast_since, c1. change (level_log b (set_out _ _)) with (level_log b c). cbn. by rewrite Hrx.
    + exists c'. split; [|split; [done|split; [done|]]].
      * eapply rtc_l; [|exact Hsteps]. apply live_recv; [done|]. rewrite Erx. unfold on_broadcast.
        rewrite Hf. done.
      * rewrite Hout. unfold c1. cbn. by rewrite fmap_app, app_assoc.
  - exists c. split; [done|]. split; [done|]. rewrite Erx. split; [done|].
    apply recv_empty in Erx. fold (level_log b c) in Erx. unfold broadcast_since in Hus.
    rewrite drop_ge in Hus by done. cbn in Hus. inv_done. by rewrite app_nil_r.
Qed.

(** ** Resuming from a slot *)

Lemma forward_updates_blocking {U} (updates : list U) : (∀ n, tx n ≠ TxClosed) → ∀ out,
  forward_updates true out updates = (out ++ (Ok <$> updates), None).
Proof.
  intros Htx. induction updates as [|u updates IH]; intros out; cbn [forward_updates fmap list_fmap]; [by rewrite app_nil_r|].
  destruct (tx (length out)) eqn:Et; [..|by destruct (Htx (length out))]. all: by rewrite IH, <- app_assoc.
Qed.

Lemma forward_messages_blocking f commitment messages : (∀ n, tx n ≠ TxClosed) → ∀ out out' e,
  forward_messages true f commitment out messages = Done (out', e) →
  ∃ us, filter_messages f commitment messages = Done us ∧ out' = out ++ (Ok <$> us) ∧ e = None.
Proof.
  intros Htx. induction messages as [|m messages IH]; intros out out' e; cbn [forward_messages filter_messages].
  { intros [= <- <-]. exists []. by rewrite app_nil_r. }
  destruct (Filter_get_updates f m commitment) as [[updates m']|]; [|done]. cbn [mbind outcome_bind].
  rewrite forward_updates_blocking by done. intros (us & -> & -> & ->)%IH. exists (updates ++ us).
  split; [done|]. by rewrite fmap_app, app_assoc.
Qed.

Lemma send_error_open c status :
  (∀ n, tx n ≠ TxClosed) → send_error c status = set_out c (cl_out c ++ [Err status]).
Proof. intros Htx. unfold send_error. destruct (tx (length (cl_out c))) eqn:E; [done..|by destruct (Htx (length (cl_out c)))]. Qed.

(** Replay requests are answered by the reconstruction loop. *)
Definition replay_of `{!BlockMachine} (now : Timestamp) (rl : ReconstructionLoop)
    : option (CommitmentLevel → Z → ReplayOutcome) :=
  Some (λ commitment from,
    match on_replay_request now rl commitment from with
    | Some r => ReplayAnswered r
    | None => ReplayDropped
    end).

(** The client after the request's filter is in place. *)
Definition set_filter (broadcast : SubscriberChannels) (c : Client) (f : Filter) : Client :=
  mkClient f (get_commitment_level f)
    (if decide (get_commitment_level f = cl_commitment c) then cl_messages_rx c
     else channels_subscribe broadcast (get_commitment_level f))
    (cl_out c) (cl_disconnect_reason c).

(** The blocks a resumed subscription is sent. *)
Definition resumable `{!BlockMachine} (st : BlockMachineStorage) (from : Z) (level : CommitmentLevel) (r : ReplayedSlot)
    : Prop :=
  ∃ s p, (from <= s)%Z ∧ bms_replayed_slot st !! s = Some (rs_frozen_block r) ∧
    bms_slot_commitment_progression_map st !! s = Some p ∧
    cmp_commitment_level (sp_max_commitment p) level ≠ Lt ∧ rs_slot_status_messages r = sp_commitment p.

(** C9. A request with [from_slot], from the client loop to the block storage
    and back. The new filter is in place and the client subscribed to its level
    before the replay is asked for, so that what is broadcast meanwhile stays
    receivable. If the slot is before the buffered ones the stream ends with an
    out-of-range status; otherwise, if some block from that slot on has the
    level, the stream continues with the updates of each such block, in slot
    order (its messages, the block and its meta, the statuses of its slot), and
    stays alive. If there is none the stream is ended with an internal error,
    though the slot is not out of range. *)
Theorem client_resume_spec `{!BlockMachine, !BlockMachineLaws} cap now rl b c from f c' :
  reachable cap (rl_block_machine rl) → (∀ n, tx n ≠ TxClosed) → cl_disconnect_reason c = None →
  on_request b (replay_of now rl) c (Some (Some (Some from, f))) = Done c' →
  let st := rl_block_machine rl in
  let level := get_commitment_level f in
  let c1 := set_filter b c f in
  ((∃ first, (from < first)%Z ∧ is_Some (bms_replayed_slot st !! first) ∧
      (∀ s, is_Some (bms_replayed_slot st !! s) → (first <= s)%Z) ∧
      c' = finish (set_out c1 (cl_out c ++ [Err (out_of_range from first)])) "slot_unavailable") ∨
   (∃ blocks us, blocks ≠ [] ∧ StronglySorted Z.lt ((λ r, bm_slot (fb_block_meta (rs_frozen_block r))) <$> blocks) ∧
      (∀ r, r ∈ blocks ↔ resumable st from level r) ∧
      filter_messages f (Some level) (concat (replayed_at now <$> blocks)) = Done us ∧
      c' = set_out c1 (cl_out c ++ (Ok <$> us))) ∨
   ((∀ r, ¬ resumable st from level r) ∧
      c' = finish (set_out c1 (cl_out c ++ [Err (StatusInternal "failed to get replay response")])) "replay_error")) ∧
  (level ≠ cl_commitment c → position (cl_messages_rx c') = length (sent (channels_sender b level))) ∧
  (level = cl_commitment c → cl_messages_rx c' = cl_messages_rx c).
Proof.
  intros Hst Htx Hrun Hreq st level c1.
  assert (replay_from (replay_of now rl) c1 from = Done c') as Hreplay by exact Hreq. clear Hreq.
  assert (cl_out c1 = cl_out c) as Hout by done.
  assert ((level ≠ cl_commitment c → position (cl_messages_rx c1) = length (sent (channels_sender b level))) ∧
          (level = cl_commitment c → cl_messages_rx c1 = cl_messages_rx c)) as Hrx.
  { unfold c1, set_filter, level. cbn [cl_messages_rx]. case_decide as Hd; [|split; [|done]]; [by split|].
    intros _. unfold channels_subscribe. apply position_subscribe. }
  assert (∀ r, r ∈ replay_from_slot st from level ↔ resumable st from level r) as Hin.
  { intros r. rewrite (proj2 (replay_from_slot_spec cap st from level Hst) r).
    split.
    - intros (s & fb & p & H1 & H2 & H3 & H4 & ->). by exists s, p.
    - intros (s & p & H1 & H2 & H3 & H4 & H5). exists s, (rs_frozen_block r), p. repeat (split; [done|]).
      destruct r; cbn in *; by subst. }
  pose proof (proj1 (replay_from_slot_spec cap st from level Hst)) as Hsorted.
  unfold replay_of, replay_from in Hreplay. cbv beta iota in Hreplay.
  change (cl_commitment c1) with level in Hreplay. change (cl_filter c1) with f in Hreplay. rewrite Hout in Hreplay.
  destruct (replay_request_cases cap now rl level from Hst) as [(first & Hf1 & Hf2 & Hf3 & E)|[(l & Hne & Hl & E)|[Hnil E]]];
    rewrite E in Hreplay; cbv beta iota in Hreplay.
  - rewrite send_error_open in Hreplay by done. injection Hreplay as <-. split; [left|exact Hrx].
    exists first. by repeat (split; [done|]).
  - destruct (forward_messages true _ _ _ _) as [[out e]|] eqn:Ef in Hreplay; [|done].
    rewrite Hl in Ef. apply forward_messages_blocking in Ef as (us & Hus & -> & ->); [|done].
    injection Hreplay as <-. split; [right; left|exact Hrx]. exists (replay_from_slot st from level), us.
    by repeat (split; [done|]).
  - rewrite send_error_open in Hreplay by done. injection Hreplay as <-. split; [right; right|exact Hrx].
    split; [|done]. intros r Hr%Hin. fold st in Hnil. rewrite Hnil in Hr. by apply elem_of_nil in Hr.
Qed.
End step.
End client.

(** ** A concrete subscription *)

Section witnesses.
#[local] Existing Instances toy_externals ring_broadcast ring_broadcast_laws queue_machine queue_machine_laws.

(** Slots and the account "A". *)
Definition loop_request : SubscribeRequest :=
  mkSubscribeRequest [("acc", mkRequestAccounts [] [] [] None None)] [("s", mkRequestSlots None None)]
    [] [] [] [] [] None [] None None.

Definition loop_filter : Filter :=
  match Filter_new loop_request FilterLimits_default (FilterNames_new 0 10 10 10) with
  | Done (Ok f, _) => f
  | _ => Filter_default
  end.

Definition loop_slot (slot : Z) : Message := MsgSlot (mkMessageSlot slot None StatusProcessed None (mkTimestamp 0 0)).

Definition loop_tx (n : nat) : TrySend := if Nat.ltb n 9 then TxOk else TxFull.

Definition loop_channels0 : SubscriberChannels := SubscriberChannels_new 8 8 8.
Definition loop_client0 : Client := set_filter loop_channels0 (Client_new loop_channels0) loop_filter.

(** A batch at its level, and one at another. *)
Definition loop_channels : SubscriberChannels :=
  channels_send (channels_send loop_channels0 Confirmed [loop_slot 3]) Processed [loop_slot 1; loop_slot 2].

Definition loop_recv (c : Client) : Client :=
  match on_broadcast loop_tx c (broadcast_recv (channels_sender loop_channels (cl_commitment c)) (cl_messages_rx c)) with
  | Done (Some c) => c
  | _ => c
  end.

Definition update_slots (out : list StreamItem) : list (option Z) :=
  (λ i, match i with Ok (mkFilteredUpdate _ (FuSlot m) _) => Some (ms_slot m) | _ => None end) <$> out.

Example loop_recv_slots :
  update_slots (cl_out (loop_recv loop_client0)) = [Some 1; Some 2]%Z ∧
  cl_out (loop_recv (loop_recv loop_client0)) = cl_out (loop_recv loop_client0).
Proof. by vm_compute. Qed.

Lemma loop_recv_step :
  on_broadcast loop_tx loop_client0
    (broadcast_recv (channels_sender loop_channels (cl_commitment loop_client0)) (cl_messages_rx loop_client0))
  = Done (Some (loop_recv loop_client0)).
Proof. by vm_compute. Qed.

Lemma client_live_stream_witness :
  ∃ n us, filter_messages loop_filter (Some Processed) (concat (take n (level_log loop_channels loop_client0))) = Done us ∧
    cl_out (loop_recv loop_client0) = Ok <$> us.
Proof.
  destruct (client_live_stream loop_tx loop_channels0 loop_client0 loop_channels (loop_recv loop_client0))
    as (n & us & H1 & H2 & _).
  - reflexivity.
  - vm_compute. lia.
  - eapply rtc_l; [apply (live_send _ _ _ Confirmed [loop_slot 3])|].
    eapply rtc_l; [apply (live_send _ _ _ Processed [loop_slot 1; loop_slot 2])|].
    apply rtc_once, live_recv; [reflexivity|]. exact loop_recv_step.
  - exists n, us. split; [exact H1|exact H2].
Defined.

Definition loop_updates : list FilteredUpdate :=
  match filter_messages loop_filter (Some Processed) [loop_slot 1; loop_slot 2] with Done us => us | Panic => [] end.

Lemma loop_channel :
  channels_sender loop_channels (cl_commitment loop_client0) = (8, [[loop_slot 1; loop_slot 2]]).
Proof. by vm_compute. Qed.

Lemma ring_never_lags {E} (log : list E) (rx : nat) : length log ≤ 8 →
  match (ring_recv (8, log) rx).1 with RecvLagged _ | RecvClosed => False | _ => True end.
Proof.
  intros Hlen. unfold ring_recv. cbn [fst snd]. replace (length log - 8) with 0 by lia. cbn [Nat.ltb Nat.leb].
  by destruct (log !! rx).
Qed.

Lemma client_catches_up_witness :
  ∃ c', rtc (live_step (λ _, TxOk)) (loop_channels, loop_client0) (loop_channels, c') ∧
    cl_disconnect_reason c' = None ∧ cl_out c' = Ok <$> loop_updates.
Proof.
  destruct (client_catches_up (λ _, TxOk) loop_channels loop_client0 loop_updates) as (c' & H1 & H2 & _ & H3).
  - reflexivity.
  - reflexivity.
  - vm_compute. lia.
  - rewrite loop_channel. intros rx _. apply (ring_never_lags [[loop_slot 1; loop_slot 2]] rx). cbn. lia.
  - vm_compute. reflexivity.
  - exists c'. split; [exact H1|]. split; [exact H2|exact H3].
Defined.

Definition loop_resume (from : Z) : outcome Client :=
  on_request loop_tx loop_channels (replay_of (mkTimestamp 0 0) demo_loop) loop_client0
    (Some (Some (Some from, loop_filter))).

Definition loop_resumed (from : Z) : Client :=
  match loop_resume from with Done c => c | Panic => loop_client0 end.

(** Slot 7 is buffered: a resume from 6 is out of range, from 7 it is sent the
    account and the statuses, from 8 the stream is ended. *)
Example loop_resumes :
  ((λ from, (length (cl_out (loop_resumed from)), cl_disconnect_reason (loop_resumed from))) <$> [6; 7; 8]%Z)
  = [(1, Some "slot_unavailable"); (3, None); (1, Some "replay_error")].
Proof. by vm_compute. Qed.

Lemma loop_resumed_7 : loop_resume 7 = Done (loop_resumed 7) ∧ cl_disconnect_reason (loop_resumed 7) = None.
Proof. by vm_compute. Qed.

Lemma client_resume_spec_witness :
  ∃ blocks us, blocks ≠ [] ∧
    filter_messages loop_filter (Some Processed) (concat (replayed_at (mkTimestamp 0 0) <$> blocks)) = Done us ∧
    cl_out (loop_resumed 7) = Ok <$> us.
Proof.
  destruct loop_resumed_7 as [Hreq Hlive].
  destruct (client_resume_spec loop_tx 1 (mkTimestamp 0 0) demo_loop loop_channels loop_client0 7 loop_filter
    (loop_resumed 7)) as [[(first & _ & _ & _ & E)|[(blocks & us & H1 & _ & _ & H2 & E)|[_ E]]] _].
  - exact demo_loop_reachable.
  - intros n. unfold loop_tx. destruct (Nat.ltb n 9); intros E; discriminate E.
  - reflexivity.
  - exact Hreq.
  - rewrite E in Hlive. discriminate Hlive.
  - exists blocks, us. split; [exact H1|]. split; [exact H2|]. rewrite E. reflexivity.
  - rewrite E in Hlive. discriminate Hlive.
Defined.
End witnesses.
