(* ===== verification/Subscribe.v ===== *)
(** * grpc.rs: the tasks of a subscription besides its client loop

    The incoming task reads the requests of the client, answers pings and
    rejected requests itself and queues the filters for [client_loop];
    [client_loop_snapshot] replays the startup snapshot before the live stream.
    Each turn of a task is one step, up to the [send] it ends with and that send
    ([now] is its clock); Tasks.v runs them side by side, with the ping task. The outgoing channel is as in ClientLoop.v. The base58 text of a key
    and the messages of third-party parse errors are parameters. The deshred
    subscription has the same tasks around [DeshredFilter]. *)

From S2P Require Import Prelude Proto Channels Message Limits Names Convert Externals FilterBase Updates Filter Service FromGeyser SimpleFilters ClientLoop.

Set Default Goal Selector "!".

Local Open Scope Z_scope.

(** What [request.get_mut().message().await] yields. *)
Inductive Incoming (R : Type) :=
| IncomingRequest (r : R)
| IncomingClosed
| IncomingError.
Arguments IncomingRequest {R} r.
Arguments IncomingClosed {R}.
Arguments IncomingError {R}.

(** The task reads, waits for the cancellation, or has ended. *)
Inductive TaskState := TaskReading | TaskWaiting | TaskEnded.

Record IncomingTask (U Q : Type) := mkIncomingTask {
  it_names : FilterNames;
  it_out : list (result TonicStatus U);
  it_queue : list (option Q);
  it_state : TaskState
}.
Arguments mkIncomingTask {U Q} _ _ _ _.
Arguments it_names {U Q} _.
Arguments it_out {U Q} _.
Arguments it_queue {U Q} _.
Arguments it_state {U Q} _.

Section subscribe.
Context {X : Externals}.
Context (pubkey_display : Pubkey → string) (pubkey_error_display : ParsePubkeyError → string)
  (signature_error_display : ParseSignatureError → string).

(** The messages derived by thiserror. *)
Definition FilterNameError_display (e : FilterNameError) : string :=
  match e with
  | Oversized limit size =>
      "oversized filter name (max allowed size " +:+ decimal limit +:+ "), found " +:+ decimal size
  end.

Definition FilterLimitsCheckError_display (e : FilterLimitsCheckError) : string :=
  match e with
  | LimitMax max => "Max amount of filters/data_slices reached, only " +:+ decimal max +:+ " allowed"
  | LimitAny => "Subscribe on full stream with `any` is not allowed, at least one filter required"
  | LimitMaxPubkey max => "Max amount of Pubkeys reached, only " +:+ decimal max +:+ " allowed"
  | LimitPubkeyReject pubkey => "Pubkey " +:+ pubkey_display pubkey +:+ " in filters is not allowed"
  end.

Definition FilterError_display (e : FilterError) : string :=
  match e with
  | ErrName e => FilterNameError_display e
  | ErrLimitsCheck e => FilterLimitsCheckError_display e
  | ErrInvalidCommitment commitment => "failed to create CommitmentLevel from " +:+ signed_decimal commitment
  | ErrInvalidPubkey e => pubkey_error_display e
  | ErrInvalidSignature e => signature_error_display e
  | ErrCreateAccountStateMaxFilters max => "Too many filters provided; max " +:+ decimal max
  | ErrCreateAccountState msg => msg
  | ErrCreateBlocksNotAllowed what => "`include_" +:+ what +:+ "` is not allowed"
  | ErrCreateDataSliceOutOfOrder => "failed to create filter: data slices out of order"
  | ErrCreateDataSliceOverlap => "failed to create filter: data slices overlapped"
  | ErrInvalidTokenAccountsMode value =>
      "invalid token_accounts mode value " +:+ signed_decimal value +:+ "; expected ALL (0) or BALANCE_CHANGED (1)"
  end.

(** ** The incoming task *)

Section task.
Context {R F U Q : Type}.
Context (new : R → FilterNames → outcome (FilterResult F * FilterNames))
  (pong : Timestamp → F → option U) (queued : R → F → Q) (what : string).

(** [client_alive]: the client loop still holds its end of the queue. *)
Definition queue_send (client_alive : bool) (t : IncomingTask U Q) (q : option Q) : IncomingTask U Q :=
  if client_alive then mkIncomingTask (it_names t) (it_out t) (it_queue t ++ [q]) (it_state t) else t.

Definition task_end (t : IncomingTask U Q) : IncomingTask U Q :=
  mkIncomingTask (it_names t) (it_out t) (it_queue t) TaskEnded.

(** The [send(..).await] a turn ends with: the item, and whether the task ends
    when the client has gone. *)
Record IncomingSend := mkIncomingSend {
  send_item : result TonicStatus U;
  send_last : bool
}.

(** A request that is refused, or whose filter cannot be queued any more. *)
Definition reject (error : string) : IncomingSend :=
  mkIncomingSend (Err (StatusInvalidArgument ("failed to create " +:+ what +:+ ": " +:+ error))) false.

(** One turn of the loop, up to its send; [clock] is the one of the intern table. *)
Definition incoming_turn (client_alive : bool) (clock : Z) (now : Timestamp) (strong_count : nat → nat)
    (t : IncomingTask U Q) (message : Incoming R) : outcome (IncomingTask U Q * option IncomingSend) :=
  match message with
  | IncomingRequest request =>
      let names := FilterNames_try_clean clock strong_count (it_names t) in
      '(filter, names) ← new request names;
      let t := mkIncomingTask names (it_out t) (it_queue t) (it_state t) in
      Done (match filter with
            | Ok filter =>
                match pong now filter with
                | Some msg => (t, Some (mkIncomingSend (Ok msg) true))
                | None =>
                    if client_alive then (queue_send client_alive t (Some (queued request filter)), None)
                    else (t, Some (reject "channel closed"))
                end
            | Err error => (t, Some (reject (FilterError_display error)))
            end)
  | IncomingClosed => Done (mkIncomingTask (it_names t) (it_out t) (it_queue t) TaskWaiting, None)
  | IncomingError => Done (task_end (queue_send client_alive t None), None)
  end.

(** The send, once there is room or nobody left to receive. *)
Definition incoming_sent (tx : nat → TrySend) (client_alive : bool) (t : IncomingTask U Q) (send : IncomingSend) : IncomingTask U Q :=
  match tx (length (it_out t)) with
  | TxClosed => let t := queue_send client_alive t None in if send_last send then task_end t else t
  | _ => mkIncomingTask (it_names t) (it_out t ++ [send_item send]) (it_queue t) (it_state t)
  end.

(** A whole turn. *)
Definition on_incoming (tx : nat → TrySend) (client_alive : bool) (clock : Z) (now : Timestamp)
    (strong_count : nat → nat) (t : IncomingTask U Q) (message : Incoming R) : outcome (IncomingTask U Q) :=
  '(t, send) ← incoming_turn client_alive clock now strong_count t message;
  Done (match send with Some send => incoming_sent tx client_alive t send | None => t end).
End task.
Arguments mkIncomingSend {U} _ _.
Arguments send_item {U} _.
Arguments send_last {U} _.

(** The tasks of [subscribe] and [subscribe_deshred]. *)
Definition on_subscribe_request (limits : FilterLimits) :=
  on_incoming (λ request, Filter_new request limits) Filter_get_pong_msg
    (λ (request : SubscribeRequest) (filter : Filter), (req_from_slot request, filter)) "filter".

Definition subscribe_turn (limits : FilterLimits) :=
  incoming_turn (λ request, Filter_new request limits) Filter_get_pong_msg
    (λ (request : SubscribeRequest) (filter : Filter), (req_from_slot request, filter)) "filter".

Definition deshred_subscribe_turn (limits : FilterLimits) :=
  incoming_turn (λ (request : SubscribeDeshredRequest) names, Done (DeshredFilter_new request limits names))
    DeshredFilter_get_pong_msg (λ (request : SubscribeDeshredRequest) (filter : DeshredFilter), filter) "deshred filter".

(** ** client_loop_snapshot *)

Inductive ClientSnapshotReplayError := SnapshotCancelled | SnapshotConnectionClosed.

Section snapshot.
Context `{!Broadcast (list Message)} (tx : nat → TrySend).

(** What the first loop selects: the cancellation or a message of the client. *)
Inductive SnapshotWait := WaitCancelled | WaitRequest (maybe : option ClientRequest).

(** [None]: keep waiting. *)
Definition on_snapshot_wait (now : Timestamp) (c : Client) (event : SnapshotWait)
    : Client * option (result ClientSnapshotReplayError ()) :=
  match event with
  | WaitCancelled => (c, Some (Err SnapshotCancelled))
  | WaitRequest (Some (Some (_, filter_new))) =>
      match Filter_get_pong_msg now filter_new with
      | Some msg =>
          match tx (length (cl_out c)) with
          | TxClosed => (c, Some (Err SnapshotConnectionClosed))
          | _ => (set_out c (cl_out c ++ [Ok msg]), None)
          end
      | None =>
          (mkClient filter_new (cl_commitment c) (cl_messages_rx c) (cl_out c) (cl_disconnect_reason c), Some (Ok ()))
      end
  | WaitRequest (Some None) | WaitRequest None => (c, Some (Err SnapshotConnectionClosed))
  end.

(** What a turn of the second loop finds; the list ends when the snapshot does. *)
Inductive SnapshotTurn := TurnCancelled | TurnMessage (m : Message) | TurnEmpty.

Fixpoint snapshot_replay (f : Filter) (out : list StreamItem) (turns : list SnapshotTurn)
    : outcome (list StreamItem * result ClientSnapshotReplayError ()) :=
  match turns with
  | [] => Done (out, Ok ())
  | TurnCancelled :: _ => Done (out, Err SnapshotCancelled)
  | TurnEmpty :: turns => snapshot_replay f out turns
  | TurnMessage m :: turns =>
      '(out, error) ← forward_messages tx true f None out [m];
      match error with
      | None => snapshot_replay f out turns
      | Some _ => Done (out, Err SnapshotConnectionClosed)
      end
  end.

(** What [client_loop] does when the snapshot is over: it fails with it, or it
    subscribes to the level of the filter. *)
Definition after_snapshot (broadcast : SubscriberChannels) (c : Client) (r : result ClientSnapshotReplayError ()) : Client :=
  match r with
  | Ok _ =>
      let commitment := get_commitment_level (cl_filter c) in
      mkClient (cl_filter c) commitment (channels_subscribe broadcast commitment) (cl_out c) (cl_disconnect_reason c)
  | Err SnapshotCancelled =>
      finish (match tx (length (cl_out c)) with
              | TxOk => set_out c (cl_out c ++ [Err (StatusInternal "server is shutting down try again later")])
              | _ => c
              end) "server_shutdown"
  | Err SnapshotConnectionClosed => finish c "client_closed"
  end.
End snapshot.

(** ** Every request has one consequence *)

Section spec.
Context {R F U Q : Type}.
Context (new : R → FilterNames → outcome (FilterResult F * FilterNames))
  (pong : Timestamp → F → option U) (queued : R → F → Q) (what : string).

(** What a request leads to, given the filter made of it. *)
Inductive consequence (now : Timestamp) (request : R) : list (result TonicStatus U) → list (option Q) → Prop :=
| cons_rejected names names' error :
    new request names = Done (Err error, names') →
    consequence now request
      [Err (StatusInvalidArgument ("failed to create " +:+ what +:+ ": " +:+ FilterError_display error))] []
| cons_pong names names' filter msg :
    new request names = Done (Ok filter, names') → pong now filter = Some msg → consequence now request [Ok msg] []
| cons_queued names names' filter :
    new request names = Done (Ok filter, names') → pong now filter = None →
    consequence now request [] [Some (queued request filter)].

Definition read_requests (tx : nat → TrySend) (clock : Z) (now : Timestamp) (strong_count : nat → nat)
    (t : IncomingTask U Q) (requests : list R) : outcome (IncomingTask U Q) :=
  foldM (λ t r, on_incoming new pong queued what tx true clock now strong_count t (IncomingRequest r)) t requests.

Lemma on_incoming_consequence tx clock now strong_count t r t' : (∀ n, tx n ≠ TxClosed) →
  on_incoming new pong queued what tx true clock now strong_count t (IncomingRequest r) = Done t' →
  ∃ out queue, consequence now r out queue ∧ it_out t' = it_out t ++ out ∧ it_queue t' = it_queue t ++ queue ∧
    it_state t' = it_state t.
Proof.
  intros Htx. unfold on_incoming. cbn [incoming_turn]. set (names := FilterNames_try_clean clock strong_count (it_names t)).
  destruct (new r names) as [[[filter|e] names']|] eqn:En; [| |done]; cbn [mbind outcome_bind].
  - destruct (pong now filter) as [msg|] eqn:Ep; cbn [mbind outcome_bind].
    + unfold incoming_sent. cbn [it_out]. destruct (tx _) eqn:Et; [..|by destruct (Htx (length (it_out t)))]; intros [= <-]; exists [Ok msg], [];
        (split; [by eapply cons_pong|]); cbn; by rewrite app_nil_r.
    + intros [= <-]. exists [], [Some (queued r filter)]. split; [by eapply cons_queued|]. cbn. by rewrite app_nil_r.
  - intros [= <-]. unfold incoming_sent. cbn [it_out]. destruct (tx _) eqn:Et; [..|by destruct (Htx (length (it_out t)))];
      (eexists _, []; split; [by eapply cons_rejected|]); cbn; by rewrite app_nil_r.
Qed.

Lemma read_requests_consequences tx clock now strong_count requests : (∀ n, tx n ≠ TxClosed) → ∀ t t',
  read_requests tx clock now strong_count t requests = Done t' →
  ∃ cs, Forall2 (λ r c, consequence now r c.1 c.2) requests cs ∧
    it_out t' = it_out t ++ concat cs.*1 ∧ it_queue t' = it_queue t ++ concat cs.*2 ∧ it_state t' = it_state t.
Proof.
  intros Htx. induction requests as [|r requests IH]; intros t t'; cbn [read_requests foldM].
  { intros [= <-]. exists []. cbn. by rewrite !app_nil_r. }
  destruct (on_incoming _ _ _ _ _ _ _ _ _ _ _) as [t1|] eqn:E; [|done]. cbn [mbind outcome_bind].
  intros (cs & Hcs & Ho & Hq & Hs)%IH.
  apply on_incoming_consequence in E as (out & queue & Hc & Ho1 & Hq1 & Hs1); [|done].
  exists ((out, queue) :: cs). split; [by constructor|]. csimpl. rewrite Ho, Hq, Hs, Ho1, Hq1, Hs1, !app_assoc. done.
Qed.
End spec.

(** C35. Requests: each request read by a subscription, in order, is either
    refused with an invalid-argument status carrying the reason, or, when it is
    a ping, answered by a pong, or queued with its own [from_slot] for the
    client loop: exactly one of the three. The task keeps reading after every
    one of them, so that a bad request does not end the subscription. *)
Theorem requests_answered limits tx clock now strong_count t requests t' :
  (∀ n, tx n ≠ TxClosed) →
  foldM (λ t r, on_subscribe_request limits tx true clock now strong_count t (IncomingRequest r)) t requests = Done t' →
  ∃ cs, it_out t' = it_out t ++ concat cs.*1 ∧ it_queue t' = it_queue t ++ concat cs.*2 ∧ it_state t' = it_state t ∧
    Forall2 (λ (r : SubscribeRequest) c,
      ∃ names filter names', Filter_new r limits names = Done (filter, names') ∧
        match filter with
        | Err e => c = ([Err (StatusInvalidArgument ("failed to create filter: " +:+ FilterError_display e))], [])
        | Ok f =>
            c = match f_ping f with
                | Some id => ([Ok (FilteredUpdate_new_empty now (FuPong id))], [])
                | None => ([], [Some (req_from_slot r, f)])
                end
        end) requests cs.
Proof.
  intros Htx Hrun.
  destruct (read_requests_consequences (λ r, Filter_new r limits) Filter_get_pong_msg
    (λ r f, (req_from_slot r, f)) "filter" tx clock now strong_count requests Htx t t' Hrun) as (cs & Hcs & Ho & Hq & Hs).
  exists cs. repeat (split; [done|]). eapply Forall2_impl; [exact Hcs|]. intros r [out queue] Hc. cbn [fst snd] in Hc.
  destruct Hc as [names names' e Hn|names names' f msg Hn Hp|names names' f Hn Hp]; eexists _, _, _; (split; [exact Hn|]).
  - done.
  - unfold Filter_get_pong_msg in Hp. destruct (f_ping f) as [id|] eqn:Ep; [|discriminate Hp]. injection Hp as <-. cbn. by rewrite Ep.
  - unfold Filter_get_pong_msg in Hp. destruct (f_ping f) as [id|] eqn:Ep; [discriminate Hp|]. cbn. by rewrite Ep.
Qed.

(** ** The snapshot, then the live stream *)

Section replayed.
Context {Bc : Broadcast (list Message)} {BcL : BroadcastLaws (list Message)} (tx : nat → TrySend).

Definition turn_messages (turns : list SnapshotTurn) : list Message :=
  omap (λ t, match t with TurnMessage m => Some m | _ => None end) turns.

Lemma snapshot_replay_ok f turns : (∀ n, tx n ≠ TxClosed) → TurnCancelled ∉ turns → ∀ out out' r,
  snapshot_replay tx f out turns = Done (out', r) →
  ∃ us, filter_messages f None (turn_messages turns) = Done us ∧ out' = out ++ (Ok <$> us) ∧ r = Ok ().
Proof.
  intros Htx. induction turns as [|turn turns IH]; intros Hnc out out' r; cbn [snapshot_replay].
  { intros [= <- <-]. exists []. by rewrite app_nil_r. }
  apply not_elem_of_cons in Hnc as [Hturn Hnc]. destruct turn as [|m|]; [done| |by apply IH].
  destruct (forward_messages tx true f None out [m]) as [[out1 e]|] eqn:Ef; [|done]. cbn [mbind outcome_bind].
  apply forward_messages_blocking in Ef as (us1 & Hus1 & -> & ->); [|done].
  intros (us2 & Hus2 & -> & ->)%IH; [|done]. exists (us1 ++ us2). split; [|split; [|done]].
  - exact (filter_messages_app f None [m] (turn_messages turns) us1 us2 Hus1 Hus2).
  - by rewrite fmap_app, app_assoc.
Qed.

(** A client that asked for the snapshot gets the updates of its filter for
    every message of the snapshot, in order, and then, without a restart of
    the stream, those of the batches broadcast at the level of its filter since
    the snapshot ended. *)
Theorem snapshot_then_live b c turns out r b' c' :
  (∀ n, tx n ≠ TxClosed) → TurnCancelled ∉ turns → cl_disconnect_reason c = None →
  snapshot_replay tx (cl_filter c) (cl_out c) turns = Done (out, r) →
  rtc (live_step tx) (b, after_snapshot tx b (set_out c out) r) (b', c') →
  cl_disconnect_reason c' = None →
  let level := get_commitment_level (cl_filter c) in
  ∃ us us' n,
    filter_messages (cl_filter c) None (turn_messages turns) = Done us ∧
    filter_messages (cl_filter c) (Some level)
      (concat (take n (drop (length (sent (channels_sender b level))) (sent (channels_sender b' level))))) = Done us' ∧
    cl_out c' = cl_out c ++ (Ok <$> (us ++ us')).
Proof.
  intros Htx Hnc Hrun Hreplay Hsteps Hrun' level.
  destruct (snapshot_replay_ok (cl_filter c) turns Htx Hnc (cl_out c) out r Hreplay) as (us & Hus & -> & ->).
  apply (live_inv_reach tx) in Hsteps as (_ & _ & Hinv); [|done|].
  - rewrite Hrun' in Hinv. destruct Hinv as (n & us' & _ & _ & Hus' & Hout). exists us, us', n. split; [done|].
    cbn [cl_filter cl_commitment cl_messages_rx cl_out set_out after_snapshot] in Hus', Hout.
    unfold channels_subscribe in Hus'. rewrite position_subscribe in Hus'.
    split; [exact Hus'|]. by rewrite Hout, fmap_app, app_assoc.
  - cbn. unfold channels_subscribe. by rewrite position_subscribe.
Qed.
End replayed.
End subscribe.

(** ** A concrete subscription *)

Section witnesses.
#[local] Existing Instances toy_externals ring_broadcast ring_broadcast_laws.

(** No such commitment; a ping; a resume from slot 7; the same without a slot. *)
Definition demo_requests : list SubscribeRequest :=
  let slots := [("s", mkRequestSlots None None)] in
  [mkSubscribeRequest [] [] [] [] [] [] [] (Some (-1)) [] None None;
   mkSubscribeRequest [] [] [] [] [] [] [] None [] (Some 5) None;
   mkSubscribeRequest [] slots [] [] [] [] [] None [] None (Some 7);
   mkSubscribeRequest [] slots [] [] [] [] [] None [] None None].

Definition demo_task : IncomingTask FilteredUpdate (option Z * Filter) :=
  mkIncomingTask (FilterNames_new 0 10 10 10) [] [] TaskReading.

Definition demo_read : outcome (IncomingTask FilteredUpdate (option Z * Filter)) :=
  foldM (λ t r, on_subscribe_request (λ _, "") (λ _, "") (λ _, "") FilterLimits_default (λ _, TxOk) true 0
    (mkTimestamp 0 0) (λ _, 1%nat) t (IncomingRequest r)) demo_task demo_requests.

Definition demo_answered : IncomingTask FilteredUpdate (option Z * Filter) :=
  match demo_read with Done t => t | Panic => demo_task end.

Definition item_text (i : result TonicStatus FilteredUpdate) : string :=
  match i with
  | Err (StatusInvalidArgument m) => m
  | Ok (mkFilteredUpdate _ (FuPong id) _) => "pong " +:+ decimal id
  | _ => ""
  end.

(** A client loop that polls now takes the last request only: the slot the one
    before it asked to resume from is lost. *)
Example demo_requests_answers :
  item_text <$> it_out demo_answered = ["failed to create filter: failed to create CommitmentLevel from -1"; "pong 5"] ∧
  option_map fst <$> it_queue demo_answered = [Some (Some 7); Some None] ∧
  option_map fst <$> latest_request (it_queue demo_answered) false = Some (Some None).
Proof. by vm_compute. Qed.

Lemma demo_read_done : demo_read = Done demo_answered.
Proof. by vm_compute. Qed.

Lemma requests_answered_witness :
  ∃ cs, it_out demo_answered = concat cs.*1 ∧ it_queue demo_answered = concat cs.*2 ∧ length cs = 4%nat.
Proof.
  destruct (requests_answered (λ _, "") (λ _, "") (λ _, "") FilterLimits_default (λ _, TxOk) 0 (mkTimestamp 0 0)
    (λ _, 1%nat) demo_task demo_requests demo_answered) as (cs & H1 & H2 & _ & H3).
  - intros n E. discriminate E.
  - exact demo_read_done.
  - exists cs. split; [exact H1|]. split; [exact H2|]. symmetry. exact (Forall2_length _ _ _ H3).
Defined.

Definition demo_turns : list SnapshotTurn := [TurnMessage (loop_slot 1); TurnEmpty; TurnMessage (loop_slot 2)].

Definition demo_replay_out : list StreamItem :=
  match snapshot_replay loop_tx loop_filter [] demo_turns with Done (out, _) => out | Panic => [] end.

Lemma demo_replay_done : snapshot_replay loop_tx loop_filter [] demo_turns = Done (demo_replay_out, Ok ()).
Proof. by vm_compute. Qed.

Lemma snapshot_then_live_witness :
  ∃ us us', filter_messages loop_filter None [loop_slot 1; loop_slot 2] = Done us ∧
    demo_replay_out = Ok <$> (us ++ us').
Proof.
  destruct (snapshot_then_live loop_tx loop_channels0 loop_client0 demo_turns demo_replay_out (Ok ()) loop_channels0
    (after_snapshot loop_tx loop_channels0 (set_out loop_client0 demo_replay_out) (Ok ()))) as (us & us' & n & H1 & _ & H2).
  - intros n. unfold loop_tx. destruct (Nat.ltb n 9); intros E; discriminate E.
  - unfold demo_turns. set_solver.
  - reflexivity.
  - exact demo_replay_done.
  - apply rtc_refl.
  - reflexivity.
  - exists us, us'. split; [exact H1|exact H2].
Defined.
End witnesses.
