(* ===== verification/DeshredLoop.v ===== *)
(** * grpc.rs: deshred_client_loop

    The loop of a deshred subscription: one broadcast channel, no commitment
    level and no replay. As in ClientLoop.v each branch of the select is one
    step and the outgoing channel is what was put in it. *)

From S2P Require Import Prelude Proto Channels Message Limits Names Externals FilterBase Updates Service SimpleFilters ClientLoop.

Set Default Goal Selector "!".

Section deshred.
Context {B : Broadcast Message}.

(** [DeshredClientSession] and the variables of the loop. *)
Record DeshredClient := mkDeshredClient {
  dc_filter : DeshredFilter;
  dc_messages_rx : receiver Message;
  dc_out : list (result TonicStatus FilteredUpdateDeshred);
  dc_disconnect_reason : option string
}.

(** The derived [Default]. *)
Definition DeshredFilter_default : DeshredFilter :=
  mkDeshredFilter (mkFilterDeshredTransactions []) (mkFilterSlots []) None.

Definition DeshredClient_new (channel : channel Message) : DeshredClient :=
  mkDeshredClient DeshredFilter_default (broadcast_subscribe channel) [] None.

Definition deshred_finish (c : DeshredClient) (out : list (result TonicStatus FilteredUpdateDeshred)) (reason : string)
    : DeshredClient :=
  mkDeshredClient (dc_filter c) (dc_messages_rx c) out (Some reason).

Section step.
Context (tx : nat → TrySend).

(** A spawned [send] of the last error. *)
Definition push_error (out : list (result TonicStatus FilteredUpdateDeshred)) (status : TonicStatus)
    : list (result TonicStatus FilteredUpdateDeshred) :=
  match tx (length out) with TxClosed => out | _ => out ++ [Err status] end.

Definition on_deshred_cancelled (c : DeshredClient) : DeshredClient :=
  deshred_finish c
    (match tx (length (dc_out c)) with
     | TxOk => dc_out c ++ [Err (StatusUnavailable "server is shutting down try again later")]
     | _ => dc_out c
     end) "server_shutdown".

(** [client_rx] with the same forwarding to the latest filter. *)
Definition on_deshred_request (c : DeshredClient) (queued : list (option DeshredFilter)) (disconnected : bool)
    : DeshredClient :=
  match if disconnected then None else last queued with
  | Some (Some filter_new) => mkDeshredClient filter_new (dc_messages_rx c) (dc_out c) (dc_disconnect_reason c)
  | Some None | None => deshred_finish c (dc_out c) "client_disconnect"
  end.

(** [None]: nothing to receive yet. *)
Definition on_deshred_broadcast (c : DeshredClient) (message : RecvResult Message * receiver Message)
    : option DeshredClient :=
  match message with
  | (Received message, rx) =>
      let '(out, error) := forward_updates tx false (dc_out c) (DeshredFilter_get_updates (dc_filter c) message None) in
      Some (match error with
            | None => mkDeshredClient (dc_filter c) rx out (dc_disconnect_reason c)
            | Some ForwardFull =>
                deshred_finish c (push_error out (StatusInternal "lagged to send an update")) "client_channel_full"
            | Some ForwardClosed => deshred_finish c out "client_closed"
            end)
  | (RecvClosed, _) => Some (deshred_finish c (dc_out c) "broadcast_closed")
  | (RecvLagged _, _) =>
      Some (deshred_finish c (push_error (dc_out c) (StatusInternal "lagged to receive deshred messages"))
        "client_broadcast_lag")
  | (RecvEmpty, _) => None
  end.

Inductive deshred_step : channel Message * DeshredClient → channel Message * DeshredClient → Prop :=
| deshred_send ch c message : deshred_step (ch, c) (broadcast_send ch message, c)
| deshred_recv ch c c' :
    dc_disconnect_reason c = None →
    on_deshred_broadcast c (broadcast_recv ch (dc_messages_rx c)) = Some c' →
    deshred_step (ch, c) (ch, c')
| deshred_cancel ch c : dc_disconnect_reason c = None → deshred_step (ch, c) (ch, on_deshred_cancelled c).

(** ** The deshred stream *)

Context {BL : BroadcastLaws Message}.

Definition deshred_updates (f : DeshredFilter) (messages : list Message) : list FilteredUpdateDeshred :=
  messages ≫= λ m, DeshredFilter_get_updates f m None.

Definition deshred_since (ch : channel Message) (c0 : DeshredClient) : list Message :=
  drop (position (dc_messages_rx c0)) (sent ch).

Definition deshred_inv (c0 : DeshredClient) (s : channel Message * DeshredClient) : Prop :=
  let '(ch, c) := s in
  dc_filter c = dc_filter c0 ∧
  match dc_disconnect_reason c with
  | None =>
      ∃ n, position (dc_messages_rx c) = (position (dc_messages_rx c0) + n)%nat ∧
        (position (dc_messages_rx c) <= length (sent ch))%nat ∧
        dc_out c = dc_out c0 ++ (Ok <$> deshred_updates (dc_filter c0) (take n (deshred_since ch c0)))
  | Some _ =>
      ∃ us last, us `prefix_of` deshred_updates (dc_filter c0) (deshred_since ch c0) ∧
        (last = [] ∨ ∃ status, last = [Err status]) ∧ dc_out c = dc_out c0 ++ (Ok <$> us) ++ last
  end.

Lemma deshred_updates_prefix f l l' : l `prefix_of` l' → deshred_updates f l `prefix_of` deshred_updates f l'.
Proof. intros [k ->]. unfold deshred_updates. rewrite bind_app. by apply prefix_app_r. Qed.

Lemma push_error_out out status : ∃ last, (last = [] ∨ ∃ status, last = [Err status]) ∧ push_error out status = out ++ last.
Proof.
  unfold push_error. destruct (tx (length out)).
  3: by exists []; split; [left|rewrite app_nil_r].
  all: exists [Err status]; split; [right; by eexists|done].
Qed.

Lemma deshred_inv_recv c0 ch c c' : deshred_inv c0 (ch, c) → dc_disconnect_reason c = None →
  on_deshred_broadcast c (broadcast_recv ch (dc_messages_rx c)) = Some c' → deshred_inv c0 (ch, c').
Proof.
  intros (Hf & Hinv) Hrun. rewrite Hrun in Hinv. destruct Hinv as (n & Hpos & Hle & Hout).
  set (since := deshred_since ch c0) in *.
  assert (deshred_updates (dc_filter c0) (take n since) `prefix_of` deshred_updates (dc_filter c0) since) as Hpre
    by apply deshred_updates_prefix, prefix_take.
  assert (∀ out us last reason, out = dc_out c0 ++ (Ok <$> us) ++ last →
    us `prefix_of` deshred_updates (dc_filter c0) since → (last = [] ∨ ∃ status, last = [Err status]) →
    deshred_inv c0 (ch, deshred_finish c out reason)) as Hend.
  { intros out us last reason -> Hus Hlast. split; [done|]. by exists us, last. }
  unfold on_deshred_broadcast. destruct (broadcast_recv _ _) as [[m| |skipped|] rx] eqn:Erx; [|done| |].
  - apply recv_event in Erx as [Hget Hrx]. rewrite Hpos in Hget. rewrite Hpos in Hrx.
    destruct (forward_updates _ _ _ _) as [out e] eqn:Ef. rewrite Hf in Ef.
    apply forward_updates_spec in Ef as (us & Hus & -> & He).
    assert (take (S n) since = take n since ++ [m]) as Htake by (apply take_S_r; unfold since, deshred_since; by rewrite lookup_drop).
    assert (deshred_updates (dc_filter c0) (take (S n) since)
      = deshred_updates (dc_filter c0) (take n since) ++ DeshredFilter_get_updates (dc_filter c0) m None) as Hsnoc.
    { rewrite Htake. unfold deshred_updates. rewrite bind_app. cbn. by rewrite app_nil_r. }
    assert (deshred_updates (dc_filter c0) (take n since) ++ us `prefix_of` deshred_updates (dc_filter c0) since) as Hpre2.
    { etrans; [|apply deshred_updates_prefix, (prefix_take since (S n))]. rewrite Hsnoc. by apply prefix_app. }
    intros [= <-]. destruct e as [[]|].
    + destruct (push_error_out (dc_out c ++ (Ok <$> us)) (StatusInternal "lagged to send an update")) as (last & Hlast & ->).
      eapply Hend; [|exact Hpre2|exact Hlast]. by rewrite Hout, fmap_app, <- !app_assoc.
    + eapply Hend; [|exact Hpre2|by left]. by rewrite Hout, fmap_app, app_nil_r, <- !app_assoc.
    + split; [done|]. cbn [dc_disconnect_reason dc_messages_rx dc_out]. rewrite Hrun. exists (S n).
      split; [lia|]. split; [apply lookup_lt_Some in Hget; lia|]. fold since.
      by rewrite Hsnoc, <- (He eq_refl), fmap_app, Hout, app_assoc.
  - intros [= <-]. destruct (push_error_out (dc_out c) (StatusInternal "lagged to receive deshred messages")) as (last & Hlast & ->).
    eapply Hend; [|exact Hpre|exact Hlast]. by rewrite Hout, <- !app_assoc.
  - intros [= <-]. eapply Hend; [|exact Hpre|by left]. by rewrite Hout, app_nil_r.
Qed.

Lemma deshred_inv_step c0 s s' : deshred_inv c0 s → deshred_step s s' → deshred_inv c0 s'.
Proof.
  intros Hinv Hstep. destruct Hstep as [ch c m|ch c c' Hrun Hrecv|ch c Hrun].
  - destruct Hinv as (Hf & Hinv). split; [done|]. unfold deshred_since in *. rewrite sent_send.
    destruct (dc_disconnect_reason c).
    + destruct Hinv as (us & last & Hus & Hinv). exists us, last. split; [|done]. etrans; [exact Hus|].
      apply deshred_updates_prefix. rewrite drop_app. by apply prefix_app_r.
    + destruct Hinv as (n & Hpos & Hle & Hout). exists n. split; [done|]. split; [rewrite length_app; lia|].
      rewrite drop_app_le, take_app_le; [done| |]; rewrite ?length_drop; lia.
  - by eapply deshred_inv_recv.
  - destruct Hinv as (Hf & Hinv). rewrite Hrun in Hinv. destruct Hinv as (n & Hpos & Hle & Hout).
    split; [done|]. unfold on_deshred_cancelled. cbn [deshred_finish dc_disconnect_reason dc_out].
    exists (deshred_updates (dc_filter c0) (take n (deshred_since ch c0))).
    destruct (tx (length (dc_out c))); eexists; (split; [apply deshred_updates_prefix, prefix_take|]).
    1: split; [right; by eexists|by rewrite Hout, <- app_assoc].
    all: split; [by left|]; by rewrite Hout, app_nil_r.
Qed.

(** The stream of a deshred subscription is at every moment the updates of its
    filter for the first of the messages sent since its position, and when it
    has ended a prefix of the updates of all of them with at most one error. *)
Lemma deshred_live_stream ch0 c0 ch c :
  dc_disconnect_reason c0 = None → (position (dc_messages_rx c0) <= length (sent ch0))%nat →
  rtc deshred_step (ch0, c0) (ch, c) → deshred_inv c0 (ch, c).
Proof.
  intros Hrun Hpos Hsteps. eapply (rtc_ind_r (λ s, deshred_inv c0 s)); [| |exact Hsteps].
  - split; [done|]. rewrite Hrun. exists 0%nat. split; [lia|]. split; [done|]. by rewrite app_nil_r.
  - intros s s' _ Hstep Hinv. by eapply deshred_inv_step.
Qed.
End step.
End deshred.
