(* ===== verification/LoadAware.v ===== *)
(** * util/stream.rs: the load-aware channel

    A tokio channel and a shared counter of the items in it, which the loops
    report as the queue size. Sending puts the item in the channel and then
    counts it, receiving takes it out and then discounts it: two steps each,
    which the senders (clones share the counter) and the receiver interleave.
    The counter is a [u64] whose additions and subtractions wrap. *)

From S2P Require Import Prelude.

Set Default Goal Selector "!".

Local Open Scope Z_scope.

Section load_aware.
Context {T : Type}.

(** [la_adding]: senders between the two steps; [la_taking]: likewise the
    receiver, whose handle is unique. *)
Record LoadAware := mkLoadAware {
  la_inner : list T;
  la_queue_size : Z;
  la_adding : nat;
  la_taking : bool
}.

Definition load_aware_channel : LoadAware := mkLoadAware [] 0 0 false.

Definition add_load (queue_size : Z) : Z := wrap64 (queue_size + 1).
Definition decr_load (queue_size : Z) : Z := wrap64 (queue_size - 1).

(** [queue_size()]. *)
Definition queue_size (ch : LoadAware) : Z := la_queue_size ch.

Inductive load_step : LoadAware → LoadAware → Prop :=
| load_send ch item :
    load_step ch (mkLoadAware (la_inner ch ++ [item]) (la_queue_size ch) (S (la_adding ch)) (la_taking ch))
| load_sent ch n :
    la_adding ch = S n → load_step ch (mkLoadAware (la_inner ch) (add_load (la_queue_size ch)) n (la_taking ch))
| load_recv ch item rest :
    la_taking ch = false → la_inner ch = item :: rest →
    load_step ch (mkLoadAware rest (la_queue_size ch) (la_adding ch) true)
| load_received ch :
    la_taking ch = true → load_step ch (mkLoadAware (la_inner ch) (decr_load (la_queue_size ch)) (la_adding ch) false).

(** The counter is off by the operations in flight only. *)
Definition load_inv (ch : LoadAware) : Prop :=
  la_queue_size ch
  = wrap64 (Z.of_nat (length (la_inner ch)) + (if la_taking ch then 1 else 0) - Z.of_nat (la_adding ch)).

Lemma wrap64_add_l a b : wrap64 (wrap64 a + b) = wrap64 (a + b).
Proof. unfold wrap64. by rewrite Zplus_mod_idemp_l. Qed.

Lemma load_inv_step ch ch' : load_inv ch → load_step ch ch' → load_inv ch'.
Proof.
  unfold load_inv. intros Hinv Hstep. destruct Hstep as [ch item|ch n Hn|ch item rest Ht Hi|ch Ht];
    cbn [la_inner la_queue_size la_adding la_taking]; unfold add_load, decr_load.
  - rewrite Hinv. f_equal. rewrite length_app. cbn. lia.
  - rewrite Hinv, wrap64_add_l, Hn. f_equal. lia.
  - rewrite Hinv, Ht, Hi. f_equal. cbn. lia.
  - rewrite Hinv, Ht. unfold Z.sub at 1. rewrite wrap64_add_l. f_equal. lia.
Qed.

(** Whatever was sent and received, once no operation is in flight the queue
    size is the number of items in the channel. *)
Lemma queue_size_exact ch : rtc load_step load_aware_channel ch → la_adding ch = 0%nat → la_taking ch = false →
  Z.of_nat (length (la_inner ch)) < 2 ^ 64 → queue_size ch = Z.of_nat (length (la_inner ch)).
Proof.
  intros Hsteps Ha Ht Hlen.
  assert (load_inv ch) as Hinv.
  { refine (rtc_ind_r load_inv load_aware_channel _ _ ch Hsteps); [done|]. intros x y _ Hs Hx. by eapply load_inv_step. }
  unfold queue_size. rewrite Hinv, Ha, Ht, Z.add_0_r, Z.sub_0_r. apply Z.mod_small. lia.
Qed.

(** In flight it can be observed as [u64::MAX]: the receiver discounts an item
    its sender has not counted yet. *)
Lemma queue_size_underflows (item : T) : ∃ ch, rtc load_step load_aware_channel ch ∧ queue_size ch = u64_max.
Proof.
  eexists. split.
  - eapply rtc_l; [apply (load_send _ item)|]. eapply rtc_l; [by eapply load_recv|].
    eapply rtc_l; [by apply load_received|]. apply rtc_refl.
  - done.
Qed.
End load_aware.
