(* ===== verification/Dedup.v ===== *)
(** * yellowstone-grpc-client/src/dedup.rs: duplicate suppression across reconnects

    [DedupState] remembers, per slot, what was delivered; [ReplayBuffer] holds
    what a new connection replays until the slot's block meta gives the verdict;
    [DedupStream] is the stream built on them. The claims: the state is bounded
    and consistent in every reachable state, nothing is delivered twice, a
    replayed slot is completed exactly, polling always ends; and that slots
    sealed without having been seen escape the retention window. *)

From S2P Require Import Prelude.

Set Default Goal Selector "!".

Local Open Scope Z_scope.

Definition DEFAULT_SLOT_RETENTION : Z := 250.

(** [SlotStatus::SlotCreatedBank as i32]. *)
Definition CREATED_BANK_STATUS : Z := 5.

Inductive DedupKey :=
| KeySlot (status : Z)
| KeyAccount (pubkey : bytes) (txn_signature : option bytes)
| KeyTransaction (index : Z)
| KeyTransactionStatus (index : Z)
| KeyEntry (index : Z)
| KeyBlockMeta (blockhash : string)
| KeyBlock (slot : Z)
| KeyDeshredTransaction (signature : bytes).

#[global] Instance DedupKey_eq_dec : EqDecision DedupKey.
Proof. solve_decision. Defined.

#[global] Instance DedupKey_countable : Countable DedupKey.
Proof.
  refine (inj_countable'
    (λ k, match k with
          | KeySlot s => inl (0%nat, s)
          | KeyTransaction i => inl (1%nat, i)
          | KeyTransactionStatus i => inl (2%nat, i)
          | KeyEntry i => inl (3%nat, i)
          | KeyBlock s => inl (4%nat, s)
          | KeyAccount p s => inr (inl (p, s))
          | KeyDeshredTransaction s => inr (inr (inl s))
          | KeyBlockMeta h => inr (inr (inr h))
          end)
    (λ x, match x with
          | inl (0%nat, s) => KeySlot s
          | inl (1%nat, i) => KeyTransaction i
          | inl (2%nat, i) => KeyTransactionStatus i
          | inl (3%nat, i) => KeyEntry i
          | inl (_, s) => KeyBlock s
          | inr (inl (p, s)) => KeyAccount p s
          | inr (inr (inl s)) => KeyDeshredTransaction s
          | inr (inr (inr h)) => KeyBlockMeta h
          end) _).
  by intros [].
Defined.

Inductive Observation :=
| ObsNew
| ObsDuplicate
| ObsReplay
| ObsReplayComplete (same : bool)
| ObsPartialReplayComplete (keys : gset DedupKey).

Record SealedSlot := mkSealedSlot {
  sealed_blockhash : option string;
  sealed_statuses : gset Z
}.

Record SlotState := mkSlotState {
  slot_keys : gset DedupKey;
  slot_replaying : bool;
  slot_statuses : gset Z
}.

Definition SlotState_default : SlotState := mkSlotState ∅ false ∅.

Record DedupState := mkDedupState {
  ds_inflight : gmap Z SlotState;
  ds_sealed : gmap Z SealedSlot;
  ds_slot_order : list Z;
  ds_slot_retention : Z
}.

Definition DedupState_with_slot_retention (slot_retention : Z) : DedupState :=
  {| ds_inflight := ∅; ds_sealed := ∅; ds_slot_order := []; ds_slot_retention := slot_retention |}.

Definition DedupState_default : DedupState := DedupState_with_slot_retention DEFAULT_SLOT_RETENTION.

(** [self.inflight.get(&slot).is_some_and(|state| state.replaying)]. *)
Definition is_replaying (s : DedupState) (slot : Z) : bool :=
  match ds_inflight s !! slot with Some state => slot_replaying state | None => false end.

(** [slot_mut]: the order is extended when the slot is not tracked; the entry
    is created when absent. Returns the entry and the state it lives in. *)
Definition slot_mut (s : DedupState) (slot : Z) : SlotState * DedupState :=
  let order :=
    if bool_decide (ds_inflight s !! slot = None) && bool_decide (ds_sealed s !! slot = None)
    then ds_slot_order s ++ [slot] else ds_slot_order s in
  let state := default SlotState_default (ds_inflight s !! slot) in
  (state, mkDedupState (<[slot := state]> (ds_inflight s)) (ds_sealed s) order (ds_slot_retention s)).

(** Writing back through the reference [slot_mut] returned. *)
Definition set_inflight (s : DedupState) (slot : Z) (state : SlotState) : DedupState :=
  mkDedupState (<[slot := state]> (ds_inflight s)) (ds_sealed s) (ds_slot_order s) (ds_slot_retention s).

(** The [while] loop of [prune], on the slots in arrival order. *)
Fixpoint prune_loop (order : list Z) (inflight : gmap Z SlotState) (sealed : gmap Z SealedSlot)
    (retention : Z) : list Z * gmap Z SlotState * gmap Z SealedSlot :=
  match order with
  | [] => ([], inflight, sealed)
  | slot :: rest =>
      if retention <? len order
      then prune_loop rest (delete slot inflight) (delete slot sealed) retention
      else (order, inflight, sealed)
  end.

Definition prune (s : DedupState) : DedupState :=
  let '(order, inflight, sealed) :=
    prune_loop (ds_slot_order s) (ds_inflight s) (ds_sealed s) (ds_slot_retention s) in
  mkDedupState inflight sealed order (ds_slot_retention s).

Definition clear_slot (s : DedupState) (slot : Z) : DedupState :=
  mkDedupState (delete slot (ds_inflight s)) (delete slot (ds_sealed s))
    (filter (λ s', s' ≠ slot) (ds_slot_order s)) (ds_slot_retention s).

Definition DedupState_prepare_for_replay (s : DedupState) : DedupState :=
  mkDedupState ((λ state, mkSlotState (slot_keys state) true (slot_statuses state)) <$> ds_inflight s)
    (ds_sealed s) (ds_slot_order s) (ds_slot_retention s).

Definition observe_slot (s : DedupState) (slot status : Z) : Observation * DedupState :=
  let s :=
    if (status =? CREATED_BANK_STATUS) && negb (is_replaying s slot) then clear_slot s slot else s in
  match ds_sealed s !! slot with
  | Some sealed =>
      let s' := mkDedupState (ds_inflight s)
        (<[slot := mkSealedSlot (sealed_blockhash sealed) ({[status]} ∪ sealed_statuses sealed)]> (ds_sealed s))
        (ds_slot_order s) (ds_slot_retention s) in
      (if bool_decide (status ∈ sealed_statuses sealed) then ObsDuplicate else ObsNew, s')
  | None =>
      let '(state, s) := slot_mut s slot in
      if bool_decide (status ∈ slot_statuses state) then (ObsDuplicate, s)
      else (ObsNew, prune (set_inflight s slot
              (mkSlotState (slot_keys state) (slot_replaying state) ({[status]} ∪ slot_statuses state))))
  end.

Definition observe_block_meta (s : DedupState) (slot : Z) (blockhash : string)
    : Observation * DedupState :=
  match ds_sealed s !! slot with
  | Some sealed =>
      (ObsReplayComplete (bool_decide (sealed_blockhash sealed = Some blockhash)),
       mkDedupState (ds_inflight s)
         (<[slot := mkSealedSlot (Some blockhash) (sealed_statuses sealed)]> (ds_sealed s))
         (ds_slot_order s) (ds_slot_retention s))
  | None =>
      let state := default SlotState_default (ds_inflight s !! slot) in
      let s := prune (mkDedupState (delete slot (ds_inflight s))
        (<[slot := mkSealedSlot (Some blockhash) (slot_statuses state)]> (ds_sealed s))
        (ds_slot_order s) (ds_slot_retention s)) in
      (if slot_replaying state then ObsPartialReplayComplete (slot_keys state) else ObsNew, s)
  end.

Definition observe_payload (s : DedupState) (slot : Z) (payload : DedupKey)
    : Observation * DedupState :=
  if bool_decide (is_Some (ds_sealed s !! slot)) || is_replaying s slot then (ObsReplay, s)
  else
    let '(state, s) := slot_mut s slot in
    if bool_decide (payload ∈ slot_keys state) then (ObsDuplicate, s)
    else (ObsNew, prune (set_inflight s slot
            (mkSlotState ({[payload]} ∪ slot_keys state) (slot_replaying state) (slot_statuses state)))).

Definition observe (s : DedupState) (slot : Z) (key : DedupKey) : Observation * DedupState :=
  match key with
  | KeySlot status => observe_slot s slot status
  | KeyBlockMeta blockhash => observe_block_meta s slot blockhash
  | payload => observe_payload s slot payload
  end.

(** ** The messages a client receives *)

Class Dedupable (T : Type) := extract_key : T → option (Z * DedupKey).

(** [<[u8; n]>::try_from(slice)]. *)
Definition array_try_from (n : nat) (b : bytes) : option bytes :=
  if decide (length b = n) then Some b else None.

(** The oneof of [SubscribeUpdate], with the fields the client reads. *)
Inductive UpdateOneof :=
| UpAccount (slot : Z) (account : option (bytes * option bytes))
| UpSlot (slot status : Z)
| UpTransaction (slot : Z) (transaction_index : option Z)
| UpTransactionStatus (slot index : Z)
| UpBlock (slot : Z)
| UpPing
| UpPong (id : Z)
| UpBlockMeta (slot : Z) (blockhash : string)
| UpEntry (slot index : Z).

Record SubscribeUpdate := mkSubscribeUpdate {
  su_filters : list string;
  su_update_oneof : option UpdateOneof
}.

#[global] Instance SubscribeUpdate_dedupable : Dedupable SubscribeUpdate := λ u,
  oneof ← su_update_oneof u;
  match oneof with
  | UpSlot slot status => Some (slot, KeySlot status)
  | UpAccount slot account =>
      '(pubkey, txn_signature) ← account;
      pubkey ← array_try_from 32 pubkey;
      Some (slot, KeyAccount pubkey (txn_signature ≫= array_try_from 64))
  | UpTransaction slot transaction_index =>
      index ← transaction_index; Some (slot, KeyTransaction index)
  | UpTransactionStatus slot index => Some (slot, KeyTransactionStatus index)
  | UpEntry slot index => Some (slot, KeyEntry index)
  | UpBlockMeta slot blockhash => Some (slot, KeyBlockMeta blockhash)
  | UpBlock slot => Some (slot, KeyBlock slot)
  | UpPing | UpPong _ => None
  end.

Inductive DeshredUpdateOneof :=
| DeshredTx (slot : Z) (transaction_signature : option bytes)
| DeshredSlot (slot status : Z)
| DeshredPing
| DeshredPong (id : Z).

(** [SubscribeUpdateDeshred] is read through its oneof only. *)
Record SubscribeUpdateDeshred := mkSubscribeUpdateDeshred {
  sud_update_oneof : option DeshredUpdateOneof
}.

#[global] Instance SubscribeUpdateDeshred_dedupable : Dedupable SubscribeUpdateDeshred := λ u,
  oneof ← sud_update_oneof u;
  match oneof with
  | DeshredTx slot transaction_signature =>
      signature ← transaction_signature;
      sig ← array_try_from 64 signature;
      Some (slot, KeyDeshredTransaction sig)
  | DeshredSlot slot status => Some (slot, KeySlot status)
  | DeshredPing | DeshredPong _ => None
  end.

(** ** The replay buffer and the stream *)

Section stream.
Context {T Status : Type} `{!Dedupable T}.

Record ReplayBuffer := mkReplayBuffer {
  rb_quarantine : gmap Z (list T);
  rb_flush_queue : list T
}.

Definition ReplayBuffer_new : ReplayBuffer := mkReplayBuffer ∅ [].

Definition hold (r : ReplayBuffer) (slot : Z) (msg : T) : ReplayBuffer :=
  mkReplayBuffer (<[slot := default [] (rb_quarantine r !! slot) ++ [msg]]> (rb_quarantine r))
    (rb_flush_queue r).

Definition ReplayBuffer_prepare_for_replay (r : ReplayBuffer) : ReplayBuffer :=
  mkReplayBuffer ∅ (rb_flush_queue r).

Definition ReplayBuffer_prune (r : ReplayBuffer) (state : DedupState) : ReplayBuffer :=
  mkReplayBuffer
    (filter (λ kv, is_Some (ds_inflight state !! kv.1) ∨ is_Some (ds_sealed state !! kv.1))
       (rb_quarantine r))
    (rb_flush_queue r).

Definition flush (r : ReplayBuffer) (slot : Z) (blockmeta : T) : ReplayBuffer :=
  mkReplayBuffer (delete slot (rb_quarantine r))
    (rb_flush_queue r ++ default [] (rb_quarantine r !! slot) ++ [blockmeta]).

Definition discard (r : ReplayBuffer) (slot : Z) : ReplayBuffer :=
  mkReplayBuffer (delete slot (rb_quarantine r)) (rb_flush_queue r).

(** [filter(|msg| msg.extract_key().is_none_or(|(_, key)| keys.insert(key)))]. *)
Fixpoint filter_unseen (keys : gset DedupKey) (buffered : list T) : list T :=
  match buffered with
  | [] => []
  | msg :: buffered =>
      match extract_key msg with
      | None => msg :: filter_unseen keys buffered
      | Some (_, key) =>
          if bool_decide (key ∈ keys) then filter_unseen keys buffered
          else msg :: filter_unseen ({[key]} ∪ keys) buffered
      end
  end.

Definition reconcile (r : ReplayBuffer) (slot : Z) (keys : gset DedupKey) (blockmeta : T)
    : ReplayBuffer :=
  mkReplayBuffer (delete slot (rb_quarantine r))
    (rb_flush_queue r ++ filter_unseen keys (default [] (rb_quarantine r !! slot)) ++ [blockmeta]).

Definition drain_next (r : ReplayBuffer) : option (T * ReplayBuffer) :=
  match rb_flush_queue r with
  | [] => None
  | msg :: queue => Some (msg, mkReplayBuffer (rb_quarantine r) queue)
  end.

(** [Poll<Option<Result<T, Status>>>]. *)
Inductive poll :=
| Pending
| ReadyItem (msg : T)
| ReadyErr (status : Status)
| ReadyEnd.

(** The inner stream: what successive polls return, with the reconnect count
    read after the poll. Past the end of the list it is pending. *)
Record DedupStream := mkDedupStream {
  str_state : DedupState;
  str_inner : list (poll * Z);
  str_replay : ReplayBuffer;
  str_last_reconnect_count : Z
}.

Definition DedupStream_new (inner : list (poll * Z)) (state : DedupState) : DedupStream :=
  mkDedupStream state inner ReplayBuffer_new 0.

(** The part of an iteration after the inner stream yielded a message: the
    value to return, or nothing when the loop continues. *)
Definition handle_message (st : DedupStream) (msg : T) (count : Z) : option poll * DedupStream :=
  let '(replay, state, last) :=
    if negb (count =? str_last_reconnect_count st)
    then (ReplayBuffer_prepare_for_replay (str_replay st),
          DedupState_prepare_for_replay (str_state st), count)
    else (str_replay st, str_state st, str_last_reconnect_count st) in
  match extract_key msg with
  | None => (Some (ReadyItem msg), mkDedupStream state (str_inner st) replay last)
  | Some (slot, key) =>
      let '(observation, state) := observe state slot key in
      let replay := ReplayBuffer_prune replay state in
      let finish r := mkDedupStream state (str_inner st) r last in
      match observation with
      | ObsNew => (Some (ReadyItem msg), finish replay)
      | ObsDuplicate => (None, finish replay)
      | ObsReplay => (None, finish (hold replay slot msg))
      | ObsReplayComplete true => (None, finish (discard replay slot))
      | ObsReplayComplete false => (None, finish (flush replay slot msg))
      | ObsPartialReplayComplete keys => (None, finish (reconcile replay slot keys msg))
      end
  end.

(** One iteration of the loop of [poll_next]. *)
Definition poll_iteration (st : DedupStream) : option poll * DedupStream :=
  match drain_next (str_replay st) with
  | Some (msg, replay) =>
      (Some (ReadyItem msg),
       mkDedupStream (str_state st) (str_inner st) replay (str_last_reconnect_count st))
  | None =>
      match str_inner st with
      | [] => (Some Pending, st)
      | (p, count) :: inner =>
          let st := mkDedupStream (str_state st) inner (str_replay st) (str_last_reconnect_count st) in
          match p with
          | ReadyItem msg => handle_message st msg count
          | other => (Some other, st)
          end
      end
  end.

Fixpoint poll_next (fuel : nat) (st : DedupStream) : option (poll * DedupStream) :=
  match fuel with
  | O => None
  | S fuel =>
      match poll_iteration st with
      | (Some p, st) => Some (p, st)
      | (None, st) => poll_next fuel st
      end
  end.

(** The items a consumer obtains by polling until the stream is pending, fails
    or ends. *)
Fixpoint run_stream (fuel : nat) (st : DedupStream) : list T * DedupStream :=
  match fuel with
  | O => ([], st)
  | S fuel =>
      match poll_iteration st with
      | (Some (ReadyItem msg), st) => let '(items, st) := run_stream fuel st in (msg :: items, st)
      | (None, st) => run_stream fuel st
      | (Some _, st) => ([], st)
      end
  end.
End stream.

(** ** The invariant of the state *)

(** Consistency: the order lists the tracked slots once each, except that a
    slot sealed before it was seen is missing; a slot is in flight or sealed. *)
Record dedup_consistent (s : DedupState) : Prop := {
  dc_nodup : NoDup (ds_slot_order s);
  dc_inflight : ∀ slot, is_Some (ds_inflight s !! slot) → slot ∈ ds_slot_order s;
  dc_tracked : ∀ slot, slot ∈ ds_slot_order s →
    is_Some (ds_inflight s !! slot) ∨ is_Some (ds_sealed s !! slot);
  dc_disjoint : ∀ slot, is_Some (ds_inflight s !! slot) → ds_sealed s !! slot = None;
  dc_retention : 0 <= ds_slot_retention s
}.

Definition dedup_inv (s : DedupState) : Prop :=
  dedup_consistent s ∧ len (ds_slot_order s) <= ds_slot_retention s.

Definition tracked (s : DedupState) (slot : Z) : Prop :=
  is_Some (ds_inflight s !! slot) ∨ is_Some (ds_sealed s !! slot).

(** The number of slots [prune] drops. *)
Definition excess (order : list Z) (retention : Z) : nat := Z.to_nat (len order - retention).

Lemma prune_loop_spec order inflight sealed retention : 0 <= retention →
  ∃ inflight' sealed',
    prune_loop order inflight sealed retention = (drop (excess order retention) order, inflight', sealed') ∧
    (∀ slot, inflight' !! slot =
      if decide (slot ∈ take (excess order retention) order) then None else inflight !! slot) ∧
    (∀ slot, sealed' !! slot =
      if decide (slot ∈ take (excess order retention) order) then None else sealed !! slot).
Proof.
  intros Hr. revert inflight sealed. induction order as [|x rest IH]; intros inflight sealed.
  { exists inflight, sealed. rewrite take_nil, drop_nil. split; [done|].
    split; intros slot; rewrite decide_False by set_solver; done. }
  cbn [prune_loop]. destruct (Z.ltb_spec retention (len (x :: rest))) as [Hlt|Hge].
  - assert (excess (x :: rest) retention = S (excess rest retention)) as ->.
    { unfold excess, len in *. simpl length in *. lia. }
    destruct (IH (delete x inflight) (delete x sealed)) as (i' & s' & -> & Hi & Hs).
    exists i', s'. split; [done|]. simpl. split; intros slot; rewrite ?Hi, ?Hs;
      destruct (decide (slot = x)) as [->|];
      repeat case_decide; rewrite ?lookup_delete_eq, ?lookup_delete_ne by done; set_solver.
  - assert (excess (x :: rest) retention = 0%nat) as -> by (unfold excess; lia).
    exists inflight, sealed. split; [done|]. split; intros slot; by rewrite decide_False by set_solver.
Qed.

Lemma prune_lookup s : 0 <= ds_slot_retention s →
  let dropped := take (excess (ds_slot_order s) (ds_slot_retention s)) (ds_slot_order s) in
  ds_slot_order (prune s) = drop (excess (ds_slot_order s) (ds_slot_retention s)) (ds_slot_order s) ∧
  ds_slot_retention (prune s) = ds_slot_retention s ∧
  (∀ slot, ds_inflight (prune s) !! slot = if decide (slot ∈ dropped) then None else ds_inflight s !! slot) ∧
  (∀ slot, ds_sealed (prune s) !! slot = if decide (slot ∈ dropped) then None else ds_sealed s !! slot).
Proof.
  intros Hr dropped. unfold prune.
  destruct (prune_loop_spec (ds_slot_order s) (ds_inflight s) (ds_sealed s) _ Hr) as (i & sl & -> & ? & ?).
  done.
Qed.

Lemma prune_inv s : dedup_consistent s → dedup_inv (prune s).
Proof.
  intros [Hnd Hin Htr Hdis Hr]. destruct (prune_lookup s Hr) as (Ho & Hret & Hi & Hs).
  set (k := excess _ _) in *.
  assert (∀ slot, slot ∈ ds_slot_order s → slot ∉ take k (ds_slot_order s) → slot ∈ drop k (ds_slot_order s)) as Hsplit.
  { intros slot Hsl Hnt. rewrite <- (take_drop k (ds_slot_order s)) in Hsl. set_solver. }
  assert (∀ slot, slot ∈ take k (ds_slot_order s) → slot ∉ drop k (ds_slot_order s)) as Hexcl.
  { rewrite <- (take_drop k (ds_slot_order s)) in Hnd. apply NoDup_app in Hnd as (_ & ? & _). done. }
  split; [split|].
  - rewrite Ho. rewrite <- (take_drop k (ds_slot_order s)) in Hnd. by apply NoDup_app in Hnd as (_ & _ & ?).
  - intros slot. rewrite Hi, Ho. case_decide; [by intros []|]. intros ?%Hin. by apply Hsplit.
  - intros slot. rewrite Ho, Hi, Hs. intros Hd. rewrite !decide_False.
    + apply Htr. rewrite <- (take_drop k (ds_slot_order s)). set_solver.
    + intros Ht. by apply Hexcl in Ht.
    + intros Ht. by apply Hexcl in Ht.
  - intros slot. rewrite Hi, Hs. case_decide; [by intros []|]. apply Hdis.
  - by rewrite Hret.
  - rewrite Ho, Hret. unfold k, excess, len. rewrite length_drop. unfold len. lia.
Qed.

Lemma clear_slot_inv s slot : dedup_inv s → dedup_inv (clear_slot s slot).
Proof.
  intros [[Hnd Hin Htr Hdis Hr] Hlen]. unfold clear_slot. split; [split|]; cbn.
  - by apply NoDup_filter.
  - intros sl. rewrite lookup_delete. case_decide; [by intros []|]. intros ?%Hin.
    apply list_elem_of_filter. auto.
  - intros sl [Hne Hsl]%list_elem_of_filter. rewrite !lookup_delete_ne by done. by apply Htr.
  - intros sl. rewrite !lookup_delete. case_decide; [done|]. apply Hdis.
  - done.
  - etransitivity; [|done]. unfold len. apply inj_le. apply length_filter.
Qed.

(** Creating or updating the entry of a slot that is not sealed. *)
Lemma slot_mut_consistent s slot : dedup_consistent s → ds_sealed s !! slot = None →
  dedup_consistent (slot_mut s slot).2.
Proof.
  intros [Hnd Hin Htr Hdis Hr] Hseal. unfold slot_mut. cbn. rewrite Hseal.
  rewrite (bool_decide_eq_true_2 (None = None)), andb_true_r by done.
  split; cbn; [| | | |done].
  - case_bool_decide as He; [|done]. apply NoDup_app. split; [done|]. split; [|by apply NoDup_singleton].
    intros x Hx ->%list_elem_of_singleton. destruct (Htr _ Hx) as [Hx'|Hx']; [rewrite He in Hx'|rewrite Hseal in Hx'];
      by destruct Hx'.
  - intros sl. rewrite lookup_insert. case_decide as Heq; [subst sl|].
    + intros _. case_bool_decide as He; [set_solver|]. apply Hin. by destruct (ds_inflight s !! slot).
    + intros ?%Hin. case_bool_decide; set_solver.
  - intros sl Hsl. rewrite lookup_insert. case_decide; [by left|].
    apply Htr. case_bool_decide; [|done]. set_solver.
  - intros sl. rewrite lookup_insert. case_decide as Heq; [by subst|]. apply Hdis.
Qed.

Lemma set_inflight_consistent s slot state : dedup_consistent s → is_Some (ds_inflight s !! slot) →
  dedup_consistent (set_inflight s slot state).
Proof.
  intros [Hnd Hin Htr Hdis Hr] Hsome. unfold set_inflight. split; cbn; [done| | | |done].
  - intros sl. rewrite lookup_insert. case_decide; [subst|]; auto.
  - intros sl Hsl. rewrite lookup_insert. case_decide; [by left|]. by apply Htr.
  - intros sl. rewrite lookup_insert. case_decide; [subst|]; auto.
Qed.

Lemma slot_mut_lookup s slot :
  ds_inflight (slot_mut s slot).2 = <[slot := (slot_mut s slot).1]> (ds_inflight s) ∧
  ds_sealed (slot_mut s slot).2 = ds_sealed s ∧
  (slot_mut s slot).1 = default SlotState_default (ds_inflight s !! slot).
Proof. done. Qed.

(** A branch that only looks leaves the bound alone: the entry existed. *)
Lemma slot_mut_noop s slot state : ds_inflight s !! slot = Some state → slot_mut s slot = (state, s).
Proof.
  intros H. unfold slot_mut. rewrite H. cbn. rewrite insert_id by done. by destruct s.
Qed.

Lemma observe_payload_inv s slot key : dedup_inv s → dedup_inv (observe_payload s slot key).2.
Proof.
  intros [Hc Hlen]. unfold observe_payload.
  case_bool_decide as Hs; [done|]. cbn [orb]. destruct (is_replaying s slot); [done|].
  assert (ds_sealed s !! slot = None) as Hseal by (by destruct (ds_sealed s !! slot); [destruct Hs|]).
  pose proof (slot_mut_consistent s slot Hc Hseal) as Hc'.
  pose proof (slot_mut_lookup s slot) as (Hi & _ & Hst).
  destruct (slot_mut s slot) as [state s'] eqn:E. cbn [fst snd] in *. case_bool_decide as Hk.
  - destruct (ds_inflight s !! slot) as [st0|] eqn:E0.
    + rewrite (slot_mut_noop _ _ _ E0) in E. by injection E as <- <-.
    + subst state. cbn in Hk. set_solver.
  - apply prune_inv, set_inflight_consistent; [done|]. rewrite Hi, lookup_insert_eq. done.
Qed.

Lemma observe_slot_inv s slot status : dedup_inv s → dedup_inv (observe_slot s slot status).2.
Proof.
  intros Hinv. unfold observe_slot.
  assert (dedup_inv (if (status =? CREATED_BANK_STATUS) && negb (is_replaying s slot)
    then clear_slot s slot else s)) as H by (case_match; [by apply clear_slot_inv|done]).
  revert H. generalize (if (status =? CREATED_BANK_STATUS) && negb (is_replaying s slot)
    then clear_slot s slot else s). clear s Hinv. intros s [Hc Hlen].
  destruct (ds_sealed s !! slot) as [sealed|] eqn:Hseal.
  - destruct Hc as [Hnd Hin Htr Hdis Hr]. split; [split|]; cbn; [done|done| | |done|done].
    + intros sl Hsl. rewrite lookup_insert. case_decide; [by right|]. by apply Htr.
    + intros sl Hsl. rewrite lookup_insert. case_decide; [|by apply Hdis]. subst.
      apply Hdis in Hsl. congruence.
  - pose proof (slot_mut_consistent s slot Hc Hseal) as Hc'.
    pose proof (slot_mut_lookup s slot) as (Hi & _ & Hst).
    destruct (slot_mut s slot) as [state s'] eqn:E. cbn [fst snd] in *. case_bool_decide as Hk.
    + destruct (ds_inflight s !! slot) as [st0|] eqn:E0.
      * rewrite (slot_mut_noop _ _ _ E0) in E. by injection E as <- <-.
      * subst state. cbn in Hk. set_solver.
    + apply prune_inv, set_inflight_consistent; [done|]. rewrite Hi, lookup_insert_eq. done.
Qed.

Lemma observe_block_meta_inv s slot h : dedup_inv s → dedup_inv (observe_block_meta s slot h).2.
Proof.
  intros [Hc Hlen]. unfold observe_block_meta. destruct (ds_sealed s !! slot) as [sealed|] eqn:Hseal.
  - destruct Hc as [Hnd Hin Htr Hdis Hr]. split; [split|]; cbn; [done|done| | |done|done].
    + intros sl Hsl. rewrite lookup_insert. case_decide; [by right|]. by apply Htr.
    + intros sl Hsl. rewrite lookup_insert. case_decide; [|by apply Hdis]. subst.
      apply Hdis in Hsl. congruence.
  - cbn [snd]. apply prune_inv. destruct Hc as [Hnd Hin Htr Hdis Hr]. split; cbn; [done| | | |done].
    + intros sl. rewrite lookup_delete. case_decide; [by intros []|]. apply Hin.
    + intros sl Hsl. rewrite lookup_insert, lookup_delete. case_decide; [by right|]. by apply Htr.
    + intros sl. rewrite lookup_insert, lookup_delete. case_decide; [by intros []|]. apply Hdis.
Qed.

Lemma observe_inv s slot key : dedup_inv s → dedup_inv (observe s slot key).2.
Proof.
  intros H. destruct key; cbn [observe];
    auto using observe_payload_inv, observe_slot_inv, observe_block_meta_inv.
Qed.

Lemma prepare_inv s : dedup_inv s → dedup_inv (DedupState_prepare_for_replay s).
Proof.
  intros [[Hnd Hin Htr Hdis Hr] Hlen]. split; [split|]; cbn; try done.
  - intros sl. rewrite lookup_fmap, fmap_is_Some. apply Hin.
  - intros sl. rewrite lookup_fmap, fmap_is_Some. apply Htr.
  - intros sl. rewrite lookup_fmap, fmap_is_Some. apply Hdis.
Qed.

(** What happens to the state: an observation, or the preparation for a replay. *)
Inductive dedup_op :=
| OpObserve (slot : Z) (key : DedupKey)
| OpReconnect.

Definition apply_op (s : DedupState) (op : dedup_op) : DedupState :=
  match op with
  | OpObserve slot key => (observe s slot key).2
  | OpReconnect => DedupState_prepare_for_replay s
  end.

Definition run_ops (s : DedupState) (ops : list dedup_op) : DedupState := fold_left apply_op ops s.

Lemma run_ops_inv s ops : dedup_inv s → dedup_inv (run_ops s ops).
Proof.
  revert s. induction ops as [|op ops IH]; intros s Hs; [done|]. apply IH.
  destruct op; [by apply observe_inv|by apply prepare_inv].
Qed.

Lemma dedup_inv_init retention : 0 <= retention → dedup_inv (DedupState_with_slot_retention retention).
Proof.
  intros H. split; [split|]; cbn.
  - by apply NoDup_nil_2.
  - intros sl Hsl. rewrite lookup_empty in Hsl. by destruct Hsl.
  - set_solver.
  - done.
  - done.
  - done.
Qed.

Lemma prune_retention s : ds_slot_retention (prune s) = ds_slot_retention s.
Proof. unfold prune. by destruct (prune_loop _ _ _ _) as [[]]. Qed.

Lemma apply_op_retention s op : ds_slot_retention (apply_op s op) = ds_slot_retention s.
Proof.
  destruct op as [slot key|]; [|done]. cbn [apply_op].
  assert (∀ k, ds_slot_retention (observe_payload s slot k).2 = ds_slot_retention s) as Hp.
  { intros k. unfold observe_payload. case_match; [done|]. cbn. case_match; cbn; by rewrite ?prune_retention. }
  destruct key; cbn [observe]; try apply Hp.
  - unfold observe_slot. set (s0 := if _ && _ then _ else _).
    assert (ds_slot_retention s0 = ds_slot_retention s) as <- by (subst s0; by case_match).
    clearbody s0. destruct (ds_sealed s0 !! slot); [done|]. cbn.
    case_bool_decide; cbn; by rewrite ?prune_retention.
  - unfold observe_block_meta. destruct (ds_sealed s !! slot); cbn; by rewrite ?prune_retention.
Qed.

Lemma run_ops_retention s ops : ds_slot_retention (run_ops s ops) = ds_slot_retention s.
Proof.
  revert s. induction ops as [|op ops IH]; intros s; [done|].
  etransitivity; [apply IH|]. apply apply_op_retention.
Qed.

(** The state in every reachable state, for any sequence of observations
    and reconnects: a slot is in flight or sealed but not both, every slot of
    the arrival order is tracked and occurs once, every slot in flight is in
    the order, and so at most [slot_retention] slots are in flight. *)
Theorem dedup_state_invariant (retention : Z) (ops : list dedup_op) :
  0 <= retention →
  let s := run_ops (DedupState_with_slot_retention retention) ops in
  dedup_inv s ∧ Z.of_nat (size (ds_inflight s)) <= retention.
Proof.
  intros Hr s. assert (dedup_inv s) as Hs by by apply run_ops_inv, dedup_inv_init.
  split; [done|].
  assert (ds_slot_retention s = retention) as Hret by apply run_ops_retention.
  clearbody s.
  destruct Hs as [[Hnd Hin _ _ _] Hlen]. rewrite <- Hret. etransitivity; [|exact Hlen].
  rewrite <- size_dom. unfold len. apply inj_le.
  rewrite <- (size_list_to_set (C := gset Z) (ds_slot_order s)) by done.
  apply subseteq_size. intros sl Hsl%elem_of_dom. apply elem_of_list_to_set. by apply Hin.
Qed.

(** ** At most once *)

(** The key is remembered for the slot, or the slot is complete. *)
Definition settled (s : DedupState) (slot : Z) (key : DedupKey) : Prop :=
  is_Some (ds_sealed s !! slot) ∨
  ∃ state, ds_inflight s !! slot = Some state ∧ key ∈ slot_keys state.

(** Keys of payloads: everything but statuses and block metas. *)
Definition is_payload (key : DedupKey) : bool :=
  match key with KeySlot _ | KeyBlockMeta _ => false | _ => true end.

Lemma observe_is_payload s slot key : is_payload key = true → observe s slot key = observe_payload s slot key.
Proof. by destruct key. Qed.

(** Pruning settles nothing new and unsettles a slot only by forgetting it. *)
Lemma settled_prune s slot key : 0 <= ds_slot_retention s →
  settled s slot key → tracked (prune s) slot → settled (prune s) slot key.
Proof.
  intros Hr Hset Htr. destruct (prune_lookup s Hr) as (_ & _ & Hi & Hs).
  unfold settled, tracked in *. setoid_rewrite Hi. setoid_rewrite Hi in Htr.
  rewrite Hs in *. case_decide; [|done]. by destruct Htr as [[]|[]].
Qed.

Lemma settled_set_inflight s slot key sl state :
  settled s slot key → (sl = slot → ∀ st, ds_inflight s !! slot = Some st → slot_keys st ⊆ slot_keys state) →
  settled (set_inflight s sl state) slot key.
Proof.
  intros [Hs|(st & Hst & Hk)] Hsub; [by left|]. right. cbn. rewrite lookup_insert. case_decide as Heq.
  - exists state. split; [done|]. by apply (Hsub Heq st Hst).
  - by exists st.
Qed.

Lemma settled_slot_mut s slot key sl : settled s slot key → settled (slot_mut s sl).2 slot key.
Proof.
  intros [Hs|(st & Hst & Hk)]; [by left|]. right. cbn. rewrite lookup_insert. case_decide as Heq.
  - subst sl. rewrite Hst. by exists st.
  - by exists st.
Qed.

(** Every operation but a rollback of the slot keeps the key settled, as long
    as the slot is tracked. *)
Lemma settled_op s slot key op : dedup_inv s → settled s slot key →
  op ≠ OpObserve slot (KeySlot CREATED_BANK_STATUS) → tracked (apply_op s op) slot →
  settled (apply_op s op) slot key.
Proof.
  intros [[_ _ _ Hdis Hr] _] Hset Hop Htr. destruct op as [sl k|]; cbn [apply_op] in *.
  2:{ destruct Hset as [Hs|(st & Hst & Hk)]; [by left|]. right. cbn. rewrite lookup_fmap, Hst. eauto. }
  assert (Hpayload : ∀ k, tracked (observe_payload s sl k).2 slot → settled (observe_payload s sl k).2 slot key).
  { intros k'. unfold observe_payload. case_match; [done|].
    pose proof (settled_slot_mut s slot key sl Hset) as Hm. pose proof (slot_mut_lookup s sl) as (Hi & _ & Hst).
    assert (ds_slot_retention (slot_mut s sl).2 = ds_slot_retention s) as Hret by done.
    destruct (slot_mut s sl) as [state s']. cbn [fst snd] in *. case_match; [done|].
    apply settled_prune; [cbn; lia|]. apply settled_set_inflight; [done|].
    intros -> st. rewrite Hi, lookup_insert_eq. intros [= <-]. cbn. set_solver. }
  destruct k as [status| | | | |h| |]; cbn [observe] in *; try by apply Hpayload.
  - revert Htr. unfold observe_slot.
    set (s0 := if (status =? CREATED_BANK_STATUS) && negb (is_replaying s sl) then clear_slot s sl else s).
    assert (settled s0 slot key ∧ ds_slot_retention s0 = ds_slot_retention s) as [Hset0 Hret0].
    { subst s0. destruct (Z.eqb_spec status CREATED_BANK_STATUS) as [->|]; cbn [andb]; [|done].
      case_match; [|done]. split; [|done]. assert (sl ≠ slot) by (intros ->; done). unfold settled. cbn.
      by rewrite !lookup_delete_ne. }
    clearbody s0. destruct (ds_sealed s0 !! sl) as [sealed|] eqn:Hseal; cbn [snd].
    + intros _. destruct Hset0 as [Hs|?]; [left|by right]. cbn. rewrite lookup_insert. by case_decide.
    + pose proof (settled_slot_mut s0 slot key sl Hset0) as Hm.
      pose proof (slot_mut_lookup s0 sl) as (Hi & _ & Hst).
      assert (ds_slot_retention (slot_mut s0 sl).2 = ds_slot_retention s0) as Hret by done.
      destruct (slot_mut s0 sl) as [state s']. cbn [fst snd] in *. case_match; [done|].
      apply settled_prune; [cbn; lia|]. apply settled_set_inflight; [done|].
      intros -> st. rewrite Hi, lookup_insert_eq. by intros [= <-].
  - revert Htr. unfold observe_block_meta. destruct (ds_sealed s !! sl) as [sealed|] eqn:Hseal; cbn [snd].
    + intros _. destruct Hset as [Hs|?]; [left|by right]. cbn. rewrite lookup_insert. by case_decide.
    + apply settled_prune; [done|]. unfold settled. cbn. rewrite lookup_insert, lookup_delete.
      case_decide; [left; done|]. done.
Qed.

(** C34. Nothing is delivered twice: once a payload has been reported new for a
    slot, then along any sequence of observations (of any slot) and reconnects
    that neither rolls the slot back (a CreatedBank status) nor makes the window
    forget it, observing the same payload again is never new: it is dropped as a
    duplicate, or quarantined until the slot's block meta decides. *)
Theorem dedup_never_delivers_twice (s : DedupState) (slot : Z) (key : DedupKey) (ops : list dedup_op) :
  dedup_inv s → is_payload key = true → (observe s slot key).1 = ObsNew →
  let s' := (observe s slot key).2 in
  Forall (λ op, op ≠ OpObserve slot (KeySlot CREATED_BANK_STATUS)) ops →
  (∀ n, tracked (run_ops s' (take n ops)) slot) →
  (observe (run_ops s' ops) slot key).1 = ObsDuplicate ∨ (observe (run_ops s' ops) slot key).1 = ObsReplay.
Proof.
  intros Hinv Hp Hnew s' Hops Htr.
  assert (settled (run_ops s' ops) slot key) as Hset.
  { assert (settled s' slot key ∧ dedup_inv s') as [H0 H0'].
    { split; [|by apply observe_inv]. specialize (Htr 0%nat). cbn in Htr. subst s'.
      rewrite observe_is_payload in * by done. revert Hnew Htr. unfold observe_payload.
      case_match; [done|]. pose proof (slot_mut_lookup s slot) as (Hi & _ & Hst).
      assert (ds_slot_retention (slot_mut s slot).2 = ds_slot_retention s) as Hret by done.
      destruct (slot_mut s slot) as [state s']. cbn [fst snd] in *. case_match; [done|].
      intros _. cbn [snd]. destruct Hinv as [[_ _ _ _ Hr] _].
      apply settled_prune; [cbn; lia|]. right. cbn. rewrite lookup_insert_eq. eexists. split; [done|]. cbn. set_solver. }
    clearbody s'. clear Hnew. revert s' H0 H0' Htr. induction ops as [|op ops IH]; intros s' H0 H0' Htr; [done|].
    apply Forall_cons in Hops as [Hop Hops]. cbn [run_ops fold_left]. apply IH; [done| | |].
    - apply settled_op; [done|done|done|]. by specialize (Htr 1%nat); cbn in Htr; rewrite take_0 in Htr.
    - destruct op; [by apply observe_inv|by apply prepare_inv].
    - intros n. by specialize (Htr (S n)). }
  rewrite observe_is_payload by done. unfold observe_payload.
  destruct Hset as [Hs|(st & Hst & Hk)].
  - rewrite bool_decide_eq_true_2 by done. by right.
  - case_match; [by right|]. rewrite (slot_mut_noop _ _ _ Hst).
    rewrite bool_decide_eq_true_2 by done. by left.
Qed.

(** ** Slots that escape the retention window *)

Definition metas (n : nat) : list dedup_op :=
  (λ i, OpObserve (Z.of_nat i) (KeyBlockMeta "hash")) <$> seq 0 n.

Lemma metas_state retention n : 0 <= retention →
  let s := run_ops (DedupState_with_slot_retention retention) (metas n) in
  ds_slot_order s = [] ∧ ds_inflight s = ∅ ∧ ds_slot_retention s = retention ∧
  ∀ slot, is_Some (ds_sealed s !! slot) ↔ 0 <= slot < Z.of_nat n.
Proof.
  intros Hr. induction n as [|n IH]; cbn zeta.
  { cbn. repeat (split; [done|]). intros slot. rewrite lookup_empty. split; [by intros []|lia]. }
  destruct IH as (Ho & Hi & Hret & Hs). unfold metas in *. rewrite seq_S, fmap_app. unfold run_ops in *.
  rewrite fold_left_app. set (s := fold_left apply_op _ _) in *. clearbody s.
  cbn [fold_left fmap list_fmap apply_op observe]. unfold observe_block_meta.
  assert (ds_sealed s !! Z.of_nat n = None) as Hn by (apply eq_None_not_Some; rewrite Hs; lia).
  rewrite Nat.add_0_l, Hn. cbn [snd]. rewrite Hi, Ho, Hret, lookup_empty. unfold prune. cbn.
  split; [done|]. split; [apply delete_empty|]. split; [done|]. intros slot.
  rewrite lookup_insert. case_decide; [split; [lia|done]|]. rewrite Hs. lia.
Qed.

(** The retention window does not bound sealed slots that were never seen in
    flight: on a stream that carries only block metas, each one adds a sealed
    slot that is in no eviction order, so after [n] of them [n] slots are
    retained whatever [slot_retention] is. *)
Theorem dedup_sealed_slots_unbounded (retention : Z) (n : nat) :
  0 <= retention →
  let s := run_ops (DedupState_with_slot_retention retention) (metas n) in
  size (ds_sealed s) = n ∧ ds_slot_order s = [].
Proof.
  intros Hr s. destruct (metas_state retention n Hr) as (Ho & _ & _ & Hs). fold s in Ho, Hs.
  split; [|done]. rewrite <- size_dom.
  assert (dom (ds_sealed s) = list_to_set (C := gset Z) (Z.of_nat <$> seq 0 n)) as ->.
  { apply set_eq. intros slot. rewrite elem_of_dom, Hs, elem_of_list_to_set, list_elem_of_fmap.
    split.
    - intros H. exists (Z.to_nat slot). split; [lia|]. apply elem_of_seq. lia.
    - intros (i & -> & Hi%elem_of_seq). lia. }
  rewrite size_list_to_set; [by rewrite length_fmap, length_seq|].
  apply NoDup_fmap_2; [intros ???; lia|apply NoDup_seq].
Qed.

(** ** The stream *)

Section stream_spec.
Context {T Status : Type} `{!Dedupable T}.

Lemma poll_iteration_inner (st : DedupStream (T := T) (Status := Status)) :
  match poll_iteration st with
  | (Some _, _) => True
  | (None, st') => S (length (str_inner st')) = length (str_inner st)
  end.
Proof.
  unfold poll_iteration. destruct (drain_next _) as [[msg r]|]; [done|].
  destruct (str_inner st) as [|[[|msg| |] count] inner]; try done.
  unfold handle_message. cbn [str_inner].
  destruct (negb _); (destruct (extract_key msg) as [[slot key]|]; [|done]);
    destruct (observe _ slot key) as [[| | |[]|] s']; done.
Qed.

(** Polling always returns: one call of [poll_next] loops at most once more
    than the number of items its inner stream has ready. *)
Theorem dedup_poll_terminates (st : DedupStream (T := T) (Status := Status)) :
  ∃ p st', poll_next (S (length (str_inner st))) st = Some (p, st').
Proof.
  remember (length (str_inner st)) as n eqn:Hn. revert st Hn.
  induction n as [|n IH]; intros st Hn; cbn [poll_next];
    pose proof (poll_iteration_inner st) as Hi; destruct (poll_iteration st) as [[p|] st'].
  - by eexists _, _.
  - lia.
  - by eexists _, _.
  - apply IH. lia.
Qed.

(** A stream whose state, quarantine and pending polls are given. *)
Definition stream_at (s : DedupState) (inner : list (poll (T := T) (Status := Status) * Z))
    (quarantine : gmap Z (list T)) (last : Z) : DedupStream :=
  mkDedupStream s inner (mkReplayBuffer quarantine []) last.

(** Replayed payloads of a partial slot are all held, in order. *)
Lemma run_holds s slot state last msgs : ∀ inner quarantine held,
  ds_inflight s !! slot = Some state → slot_replaying state = true → ds_sealed s !! slot = None →
  default [] (quarantine !! slot) = held →
  Forall (λ m, ∃ key, extract_key m = Some (slot, key) ∧ is_payload key = true) msgs →
  ∃ quarantine', default [] (quarantine' !! slot) = held ++ msgs ∧ ∀ fuel,
    run_stream (length msgs + fuel) (stream_at s (((λ m, (ReadyItem m, last)) <$> msgs) ++ inner) quarantine last)
    = run_stream fuel (stream_at s inner quarantine' last).
Proof.
  induction msgs as [|m msgs IH]; intros inner quarantine held Hst Hrep Hseal Hheld Hall.
  { exists quarantine. rewrite app_nil_r. done. }
  apply Forall_cons in Hall as [(key & Hkey & Hp) Hall].
  set (q1 := rb_quarantine (hold (ReplayBuffer_prune (mkReplayBuffer quarantine []) s) slot m)).
  destruct (IH inner q1 (held ++ [m]) Hst Hrep Hseal) as (q' & Hq' & Heq); [|done|].
  { unfold q1, hold, ReplayBuffer_prune. cbn. rewrite lookup_insert_eq. cbn. f_equal.
    rewrite <- Hheld. destruct (quarantine !! slot) as [l|] eqn:E.
    - rewrite (map_lookup_filter_Some_2 _ _ _ _ E); [done|]. left. cbn [fst]. by rewrite Hst.
    - by rewrite (map_lookup_filter_None_2 _ _ _ (or_introl E)). }
  exists q'. split; [by rewrite Hq', <- app_assoc|]. intros fuel. rewrite <- Heq.
  cbn [length Nat.add fmap list_fmap app run_stream]. unfold poll_iteration at 1, handle_message.
  cbn [stream_at drain_next str_replay rb_flush_queue str_inner str_last_reconnect_count str_state].
  rewrite Z.eqb_refl. cbn [negb]. rewrite Hkey, observe_is_payload by done.
  unfold observe_payload, is_replaying. rewrite Hst, Hrep, orb_true_r. done.
Qed.

Lemma run_queue (s : DedupState) (inner : list (poll (T := T) (Status := Status) * Z)) quarantine queue last fuel :
  run_stream (length queue + fuel) (mkDedupStream s inner (mkReplayBuffer quarantine queue) last)
  = (let '(items, st) := run_stream fuel (stream_at s inner quarantine last) in (queue ++ items, st)).
Proof.
  induction queue as [|m queue IH]; [by destruct (run_stream _ _)|].
  cbn [length Nat.add run_stream]. unfold poll_iteration at 1. cbn -[run_stream Nat.add].
  rewrite IH. by destruct (run_stream fuel _).
Qed.

Lemma prune_noop s : len (ds_slot_order s) <= ds_slot_retention s → prune s = s.
Proof.
  intros H. unfold prune. destruct s as [i sl [|x order] r]; [done|]. cbn in *.
  destruct (Z.ltb_spec r (len (x :: order))); [lia|done].
Qed.

(** The block meta of a replaying slot seals it and queues what was held. *)
Lemma run_meta s slot state h meta inner last :
  dedup_inv s → ds_inflight s !! slot = Some state → slot_replaying state = true →
  ds_sealed s !! slot = None → extract_key meta = Some (slot, KeyBlockMeta h) →
  let s' := (observe_block_meta s slot h).2 in
  ds_sealed s' !! slot = Some (mkSealedSlot (Some h) (slot_statuses state)) ∧
  ∀ quarantine, ∃ quarantine', quarantine' !! slot = None ∧ ∀ fuel,
    run_stream (S fuel) (stream_at s ((ReadyItem meta, last) :: inner) quarantine last)
    = run_stream fuel (mkDedupStream s' inner
        (mkReplayBuffer quarantine'
           (filter_unseen (slot_keys state) (default [] (quarantine !! slot)) ++ [meta])) last).
Proof.
  intros [_ Hlen] Hst Hrep Hseal Hmeta s'.
  set (s0 := mkDedupState (delete slot (ds_inflight s))
        (<[slot := mkSealedSlot (Some h) (slot_statuses state)]> (ds_sealed s))
        (ds_slot_order s) (ds_slot_retention s)).
  assert (observe_block_meta s slot h = (ObsPartialReplayComplete (slot_keys state), s0)) as Hobs.
  { unfold observe_block_meta. rewrite Hseal, Hst. cbn [from_option id]. rewrite Hrep. f_equal. by apply prune_noop. }
  subst s'. rewrite Hobs. cbn [snd].
  assert (ds_sealed s0 !! slot = Some (mkSealedSlot (Some h) (slot_statuses state))) as Hs0
    by apply lookup_insert_eq.
  split; [done|]. intros quarantine.
  set (qp := rb_quarantine (ReplayBuffer_prune (mkReplayBuffer quarantine []) s0)).
  exists (delete slot qp). split; [apply lookup_delete_eq|]. intros fuel. cbn [run_stream].
  unfold poll_iteration at 1, handle_message. cbn [stream_at drain_next str_replay rb_flush_queue str_inner
    str_last_reconnect_count str_state]. rewrite Z.eqb_refl. cbn [negb]. rewrite Hmeta. cbn [observe].
  rewrite Hobs. unfold reconcile. fold qp.
  assert (qp !! slot = quarantine !! slot) as ->; [|done].
  unfold qp, ReplayBuffer_prune. cbn [rb_quarantine]. destruct (quarantine !! slot) as [l|] eqn:E.
  - apply map_lookup_filter_Some_2; [done|]. right. cbn [fst]. by rewrite Hs0.
  - by apply map_lookup_filter_None_2; left.
Qed.

(** The keys of the messages [filter_unseen] keeps are new and distinct, and
    none is missing. *)
Lemma filter_unseen_spec keys msgs :
  Forall (λ m : T, is_Some (extract_key m)) msgs →
  let delivered := omap (λ m, snd <$> extract_key m) (filter_unseen keys msgs) in
  NoDup delivered ∧ (∀ k, k ∈ delivered → k ∉ keys) ∧
  (∀ k, k ∈ omap (λ m, snd <$> extract_key m) msgs → k ∈ keys ∨ k ∈ delivered).
Proof.
  intros Hall. revert keys. induction Hall as [|m msgs [[sl k] Hk] _ IH]; intros keys; cbn -[omap].
  { split; [apply NoDup_nil_2|]. set_solver. }
  rewrite Hk. cbn. rewrite Hk. cbn. case_bool_decide as Hin.
  - destruct (IH keys) as (? & ? & ?). split; [done|]. split; [done|]. set_solver.
  - destruct (IH ({[k]} ∪ keys)) as (H1 & H2 & H3). cbn. rewrite Hk. cbn. split; [|split].
    + apply NoDup_cons. split; [|done]. intros Hd%H2. set_solver.
    + intros k' [->|Hd]%elem_of_cons; [done|]. apply H2 in Hd. set_solver.
    + intros k' [->|Hd]%elem_of_cons; [right; by left|]. apply H3 in Hd. set_solver.
Qed.

(** C32. A slot interrupted by a lost connection is completed exactly. The keys
    in [delivered] have reached the consumer; the new connection replays the
    slot's payloads [msgs], in any order and with any repetition, and then its
    block meta. The consumer then receives precisely the replayed payloads whose
    key had not been delivered, each once and in order, followed by the block
    meta; every replayed key has been delivered exactly once over both
    connections, nothing is left held, and the slot is sealed under its hash. *)
Theorem replay_completes_partial_slot (s : DedupState) (slot : Z) (state : SlotState) (h : string)
    (replay : ReplayBuffer) (m0 : T) (msgs : list T) (meta : T)
    (inner : list (poll (T := T) (Status := Status) * Z)) (last count : Z) :
  dedup_inv s → ds_inflight s !! slot = Some state → count ≠ last → rb_flush_queue replay = [] →
  Forall (λ m, ∃ key, extract_key m = Some (slot, key) ∧ is_payload key = true) (m0 :: msgs) →
  extract_key meta = Some (slot, KeyBlockMeta h) →
  let delivered := slot_keys state in
  let items := filter_unseen delivered (m0 :: msgs) in
  let keys_of l := omap (λ m, snd <$> extract_key m) l in
  let polls := ((λ m, (ReadyItem m, count)) <$> m0 :: msgs) ++ (ReadyItem meta, count) :: inner in
  (∃ fuel st,
    (∀ n, run_stream (fuel + n) (mkDedupStream s polls replay last)
      = (let '(rest, st') := run_stream n st in (items ++ [meta] ++ rest, st'))) ∧
    str_inner st = inner ∧ rb_quarantine (str_replay st) !! slot = None ∧
    (ds_sealed (str_state st) !! slot = Some (mkSealedSlot (Some h) (slot_statuses state)))) ∧
  NoDup (keys_of items) ∧ (∀ k, k ∈ keys_of items → k ∉ delivered) ∧
  (∀ k, k ∈ keys_of (m0 :: msgs) → k ∈ delivered ∨ k ∈ keys_of items).
Proof.
  intros Hinv Hst Hcount Hqueue Hall Hmeta delivered items keys_of polls.
  split; [|apply filter_unseen_spec; eapply Forall_impl; [exact Hall|]; intros m (k & -> & _); done].
  pose proof (prepare_inv s Hinv) as Hinv1. destruct Hinv as [[_ _ _ Hdis _] _].
  set (s1 := DedupState_prepare_for_replay s) in *. set (state1 := mkSlotState (slot_keys state) true (slot_statuses state)).
  assert (ds_inflight s1 !! slot = Some state1) as Hst1 by (cbn; by rewrite lookup_fmap, Hst).
  assert (ds_sealed s1 !! slot = None) as Hseal1 by (apply Hdis; by rewrite Hst).
  apply Forall_cons in Hall as [(key & Hkey & Hp) Hall].
  set (q1 := rb_quarantine (hold (ReplayBuffer_prune (mkReplayBuffer ∅ []) s1) slot m0)).
  assert (default [] (q1 !! slot) = [m0]) as Hq1.
  { unfold q1, hold, ReplayBuffer_prune. cbn. rewrite lookup_insert_eq. cbn.
    by rewrite map_filter_empty, lookup_empty. }
  destruct (run_meta s1 slot state1 h meta inner count Hinv1 Hst1 eq_refl Hseal1 Hmeta) as (Hsealed & Hmeta_run).
  set (s2 := (observe_block_meta s1 slot h).2) in *.
  assert (∃ q, default [] (q !! slot) = m0 :: msgs ∧ ∀ fuel,
    run_stream (S (length msgs + fuel)) (mkDedupStream s polls replay last)
    = run_stream fuel (stream_at s1 ((ReadyItem meta, count) :: inner) q count)) as (q & Hq & Hrun).
  { destruct (run_holds s1 slot state1 count msgs ((ReadyItem meta, count) :: inner) q1 [m0])
      as (q & Hq & Hrun); [done..|]. exists q. split; [done|]. intros fuel. rewrite <- Hrun.
    cbn [run_stream]. unfold poll_iteration at 1, drain_next. cbn [str_replay]. rewrite Hqueue.
    cbn [str_inner polls fmap list_fmap app]. unfold handle_message. cbn [str_last_reconnect_count str_state str_replay str_inner].
    destruct (Z.eqb_spec count last); [done|]. cbn [negb]. rewrite Hkey, observe_is_payload by done.
    unfold observe_payload, is_replaying. fold s1. rewrite Hst1, orb_true_r. cbn [slot_replaying state1].
    unfold ReplayBuffer_prepare_for_replay. rewrite Hqueue. done. }
  destruct (Hmeta_run q) as (q' & Hnone & Hm).
  exists (S (length msgs + S (length (items ++ [meta])))), (stream_at s2 inner q' count).
  split; [|done]. intros n.
  replace (S (length msgs + S (length (items ++ [meta]))) + n)%nat
    with (S (length msgs + S (length (items ++ [meta]) + n))) by lia.
  rewrite Hrun, Hm, Hq. fold delivered items. rewrite run_queue.
  destruct (run_stream n _) as [rest st']. by rewrite <- app_assoc.
Qed.
End stream_spec.

(** ** Concrete instances *)

Section witnesses.

Lemma dedup_state_invariant_witness :
  dedup_inv (run_ops (DedupState_with_slot_retention 2)
    [OpObserve 1 (KeyEntry 0); OpReconnect; OpObserve 2 (KeyEntry 0); OpObserve 3 (KeySlot 0)]).
Proof. apply dedup_state_invariant. discriminate. Defined.

Lemma dedup_never_delivers_twice_witness :
  let s := DedupState_default in
  (observe s 7 (KeyEntry 0)).1 = ObsNew ∧
  ((observe (run_ops (observe s 7 (KeyEntry 0)).2 [OpReconnect]) 7 (KeyEntry 0)).1 = ObsDuplicate ∨
   (observe (run_ops (observe s 7 (KeyEntry 0)).2 [OpReconnect]) 7 (KeyEntry 0)).1 = ObsReplay).
Proof.
  intros s. split; [reflexivity|]. apply dedup_never_delivers_twice.
  - apply dedup_inv_init. discriminate.
  - reflexivity.
  - reflexivity.
  - constructor; [discriminate|constructor].
  - intros [|n]; left; [|rewrite (take_ge _ (S n)) by (simpl; lia)];
      apply (bool_decide_eq_true_1 _); vm_compute; reflexivity.
Defined.

Lemma dedup_sealed_slots_unbounded_witness :
  size (ds_sealed (run_ops (DedupState_with_slot_retention 2) (metas 100))) = 100%nat.
Proof. apply (dedup_sealed_slots_unbounded 2 100). discriminate. Defined.

(** The new connection replays entries 0 and 1 of slot 8, of which 0 had arrived. *)
Definition demo_partial : DedupState := (observe DedupState_default 8 (KeyEntry 0)).2.

Definition demo_entry (index : Z) : SubscribeUpdate := mkSubscribeUpdate [] (Some (UpEntry 8 index)).

Definition demo_meta : SubscribeUpdate := mkSubscribeUpdate [] (Some (UpBlockMeta 8 "h")).

Example demo_replay_items :
  (run_stream 10 (mkDedupStream (Status := unit) demo_partial
    ((λ m, (ReadyItem m, 1)) <$> [demo_entry 0; demo_entry 1; demo_meta]) ReplayBuffer_new 0)).1
  = [demo_entry 1; demo_meta].
Proof. by vm_compute. Qed.

Lemma replay_completes_partial_slot_witness :
  ∃ fuel st, ∀ n,
    run_stream (fuel + n) (mkDedupStream (Status := unit) demo_partial
      (((λ m, (ReadyItem m, 1)) <$> [demo_entry 0; demo_entry 1]) ++ [(ReadyItem demo_meta, 1)])
      ReplayBuffer_new 0)
    = (let '(rest, st') := run_stream n st in ([demo_entry 1] ++ [demo_meta] ++ rest, st')).
Proof.
  edestruct (replay_completes_partial_slot (Status := unit) demo_partial 8 (mkSlotState {[KeyEntry 0]} false ∅)
    "h" ReplayBuffer_new (demo_entry 0) [demo_entry 1] demo_meta [] 0 1) as [(fuel & st & Hrun & _) _].
  - apply observe_inv, dedup_inv_init. discriminate.
  - reflexivity.
  - discriminate.
  - reflexivity.
  - repeat constructor; eexists; split; reflexivity.
  - reflexivity.
  - exists fuel, st. exact Hrun.
Defined.
End witnesses.
