(* ===== verification/Reconnect.v ===== *)
(** * yellowstone-grpc-client/src/reconnect.rs: backoff and automatic reconnection

    [Backoff] and its retry loop, the [AutoReconnect] stream (a state machine
    between a live stream and a pending connection), the classification of
    errors, and the internal filter injected into requests. A stream is the list
    of what its successive polls return, past the end it is pending; a
    connection attempt is a number of pending polls and a result. *)

From Stdlib Require Import Floats.SpecFloat.
From S2P Require Import Prelude F64 Proto Externals Cuckoo Dedup.

Set Default Goal Selector "!".

Local Open Scope Z_scope.

Definition CHECKPOINT_SLOT_BUFFER : Z := 2.

Definition AUTORECONNECT_FILTER_KEY : string := "__autoreconnect".

(** ** Backoff *)

Record Backoff := mkBackoff {
  bo_initial_interval : Z;
  bo_multiplier : spec_float;
  bo_max_retries : Z
}.

Inductive ErrorCategory (E : Type) :=
| Retryable (e : E)
| Unrecoverable (e : E).
Arguments Retryable {E} e.
Arguments Unrecoverable {E} e.

Definition is_retryable {E} (c : ErrorCategory E) : bool :=
  match c with Retryable _ => true | Unrecoverable _ => false end.

Definition into_inner {E} (c : ErrorCategory E) : E :=
  match c with Retryable e | Unrecoverable e => e end.

Record BackoffInstance := mkBackoffInstance {
  bi_current_interval : Z;
  bi_attempts : Z;
  bi_multiplier : spec_float;
  bi_max_retries : Z
}.

Definition BackoffInstance_new (config : Backoff) : BackoffInstance :=
  {| bi_current_interval := bo_initial_interval config;
     bi_attempts := 0;
     bi_multiplier := bo_multiplier config;
     bi_max_retries := bo_max_retries config |}.

Definition exhausted (b : BackoffInstance) : bool := bi_max_retries b <=? bi_attempts b.

Definition advance (b : BackoffInstance) : outcome BackoffInstance :=
  interval ← mul_f64 (bi_current_interval b) (bi_multiplier b);
  Done {| bi_current_interval := interval;
          bi_attempts := bi_attempts b + 1;
          bi_multiplier := bi_multiplier b;
          bi_max_retries := bi_max_retries b |}.

(** [Iterator::next]. *)
Definition BackoffInstance_next (b : BackoffInstance) : outcome (option Z * BackoffInstance) :=
  if exhausted b then Done (None, b)
  else
    let interval := bi_current_interval b in
    b ← advance b; Done (Some interval, b).

Definition Backoff_default : Backoff :=
  {| bo_initial_interval := 10 * 1000000;
     bo_multiplier := S754_finite false 4503599627370496 (-51);
     bo_max_retries := 3 |}.

(** [Backoff::retry] on an operation whose [i]-th call has the outcome [operation i]:
    the result, the number of calls and the sleeps. [None] is out of fuel. *)
Fixpoint retry_loop {T E} (fuel : nat) (operation : nat → result (ErrorCategory E) T)
    (calls : nat) (sleeps : list Z) (state : BackoffInstance)
    : option (outcome (result E T * nat * list Z)) :=
  match fuel with
  | O => None
  | S fuel =>
      match operation calls with
      | Ok value => Some (Done (Ok value, S calls, sleeps))
      | Err error =>
          if negb (is_retryable error) then Some (Done (Err (into_inner error), S calls, sleeps))
          else
            match BackoffInstance_next state with
            | Panic => Some Panic
            | Done (None, _) => Some (Done (Err (into_inner error), S calls, sleeps))
            | Done (Some sleep_for, state) =>
                retry_loop fuel operation (S calls) (sleeps ++ [sleep_for]) state
            end
      end
  end.

Definition retry {T E} (fuel : nat) (b : Backoff) (operation : nat → result (ErrorCategory E) T)
    : option (outcome (result E T * nat * list Z)) :=
  retry_loop fuel operation 0 [] (BackoffInstance_new b).

(** ** Errors *)

(** [tonic::Code]. *)
Inductive Code :=
| CodeOk | Cancelled | Unknown | InvalidArgument | DeadlineExceeded | NotFound | AlreadyExists
| PermissionDenied | ResourceExhausted | FailedPrecondition | Aborted | OutOfRange
| Unimplemented | Internal | Unavailable | DataLoss | Unauthenticated.

#[global] Instance Code_eq_dec : EqDecision Code.
Proof. solve_decision. Defined.

(** [tonic::Status], and whether its source is a transport error. *)
Record Status := mkStatus {
  status_code : Code;
  status_message : string;
  status_source_is_transport : bool
}.

Inductive GeyserGrpcClientError :=
| TonicStatus (status : Status)
| TransportError (message : string).

Definition is_recoverable_status_code (code : Code) : bool :=
  match code with
  | Cancelled | Unknown | DeadlineExceeded | ResourceExhausted | Aborted | Internal | Unavailable
  | DataLoss | OutOfRange => true
  | _ => false
  end.

Definition is_recoverable_client_error (err : GeyserGrpcClientError) : bool :=
  match err with
  | TonicStatus status =>
      if status_source_is_transport status then true
      else is_recoverable_status_code (status_code status)
  | TransportError _ => true
  end.

Definition extract_slot (msg : SubscribeUpdate) : option Z :=
  oneof ← su_update_oneof msg;
  match oneof with
  | UpAccount slot _ | UpSlot slot _ | UpTransaction slot _ | UpBlock slot | UpBlockMeta slot _
  | UpEntry slot _ | UpTransactionStatus slot _ => Some slot
  | UpPing | UpPong _ => None
  end.

Definition inject_autoreconnect_filter (req : SubscribeRequest) : SubscribeRequest :=
  if bool_decide (req_blocks_meta req = []) then
    {| req_accounts := req_accounts req;
       req_slots := hash_map_insert AUTORECONNECT_FILTER_KEY (mkRequestSlots None None) (req_slots req);
       req_transactions := req_transactions req;
       req_transactions_status := req_transactions_status req;
       req_blocks := req_blocks req;
       req_blocks_meta := hash_map_insert AUTORECONNECT_FILTER_KEY () (req_blocks_meta req);
       req_entry := req_entry req;
       req_commitment := req_commitment req;
       req_accounts_data_slice := req_accounts_data_slice req;
       req_ping := req_ping req;
       req_from_slot := req_from_slot req |}
  else req.

(** ** AutoReconnect *)

Abbreviation update_poll := (poll (T := SubscribeUpdate) (Status := Status)).

(** What successive polls of a connection's stream return. *)
Abbreviation GrpcStream := (list update_poll).

(** [ConnectFuture]: the arguments captured by the async block, the number of
    polls that are still pending, and what the future resolves to. *)
Record ConnectFuture := mkConnectFuture {
  cf_request : SubscribeRequest;
  cf_from_slot : option Z;
  cf_pending : nat;
  cf_result : result GeyserGrpcClientError GrpcStream
}.

(** [trait GrpcConnector]: what connecting gives, by the number of earlier
    reconnections, the request and the slot to resume from. *)
Class GrpcConnector :=
  connect : Z → SubscribeRequest → option Z → nat * result GeyserGrpcClientError GrpcStream.

Record AutoReconnect := mkAutoReconnect {
  ar_request : SubscribeRequest;
  ar_last_checkpoint : option Z;
  ar_stop : bool;
  ar_backoff : Backoff;
  ar_inner_stream : option GrpcStream;
  ar_pending : option ConnectFuture;
  ar_reconnect_count : Z;
  ar_resume_from_checkpoint : bool
}.

Section auto_reconnect.
Context `{!GrpcConnector}.

Definition AutoReconnect_new (stream : GrpcStream) (request : SubscribeRequest) (backoff : Backoff)
    : AutoReconnect :=
  {| ar_request := request;
     ar_last_checkpoint := None;
     ar_stop := false;
     ar_backoff := backoff;
     ar_inner_stream := Some stream;
     ar_pending := None;
     ar_reconnect_count := 0;
     ar_resume_from_checkpoint := true |}.

Definition without_checkpoint (a : AutoReconnect) : AutoReconnect :=
  mkAutoReconnect (ar_request a) (ar_last_checkpoint a) (ar_stop a) (ar_backoff a)
    (ar_inner_stream a) (ar_pending a) (ar_reconnect_count a) false.

(** Assignments to the fields the state machine changes. *)
Definition set_inner (a : AutoReconnect) (inner : option GrpcStream) : AutoReconnect :=
  mkAutoReconnect (ar_request a) (ar_last_checkpoint a) (ar_stop a) (ar_backoff a)
    inner (ar_pending a) (ar_reconnect_count a) (ar_resume_from_checkpoint a).

Definition set_pending (a : AutoReconnect) (pending : option ConnectFuture) : AutoReconnect :=
  mkAutoReconnect (ar_request a) (ar_last_checkpoint a) (ar_stop a) (ar_backoff a)
    (ar_inner_stream a) pending (ar_reconnect_count a) (ar_resume_from_checkpoint a).

Definition set_checkpoint (a : AutoReconnect) (checkpoint : option Z) : AutoReconnect :=
  mkAutoReconnect (ar_request a) checkpoint (ar_stop a) (ar_backoff a)
    (ar_inner_stream a) (ar_pending a) (ar_reconnect_count a) (ar_resume_from_checkpoint a).

Definition set_stop (a : AutoReconnect) : AutoReconnect :=
  mkAutoReconnect (ar_request a) (ar_last_checkpoint a) true (ar_backoff a)
    (ar_inner_stream a) (ar_pending a) (ar_reconnect_count a) (ar_resume_from_checkpoint a).

(** [reconnect_count += 1] on a [u32]. *)
Definition count_reconnect (a : AutoReconnect) : AutoReconnect :=
  mkAutoReconnect (ar_request a) (ar_last_checkpoint a) (ar_stop a) (ar_backoff a)
    (ar_inner_stream a) (ar_pending a) ((ar_reconnect_count a + 1) mod 2 ^ 32)
    (ar_resume_from_checkpoint a).

Definition make_connection_future (a : AutoReconnect) : ConnectFuture :=
  let from_slot := if ar_resume_from_checkpoint a then ar_last_checkpoint a else None in
  let '(pending, result) := connect (ar_reconnect_count a) (ar_request a) from_slot in
  {| cf_request := ar_request a;
     cf_from_slot := from_slot;
     cf_pending := pending;
     cf_result := result |}.

(** What the loop body does next: return, go around, or fail its assertion. *)
Inductive control :=
| Return (p : update_poll)
| Continue
| AssertionFailed.

(** [last_checkpoint] after a message. *)
Definition checkpoint_after (checkpoint : option Z) (msg : SubscribeUpdate) : option Z :=
  match su_update_oneof msg with
  | Some (UpBlockMeta _ _) =>
      match extract_slot msg with
      | Some slot => Some (saturating_sub slot CHECKPOINT_SLOT_BUFFER)
      | None => checkpoint
      end
  | _ => checkpoint
  end.

(** The message is dropped when only the internal filter matched it; otherwise
    it is forwarded without the internal filter. *)
Definition internal_only (msg : SubscribeUpdate) : bool :=
  negb (bool_decide (su_filters msg = []))
  && all (λ f, bool_decide (f = AUTORECONNECT_FILTER_KEY)) (su_filters msg).

Definition strip_internal (msg : SubscribeUpdate) : SubscribeUpdate :=
  mkSubscribeUpdate (filter (λ f, f ≠ AUTORECONNECT_FILTER_KEY) (su_filters msg)) (su_update_oneof msg).

(** The second half of the loop body: poll the pending connection. (The text of
    the error a failed connection reports is not modelled.) *)
Definition poll_connecting (a : AutoReconnect) : control * AutoReconnect :=
  match ar_pending a with
  | Some fut =>
      let a := set_pending a None in
      match cf_pending fut with
      | S pending =>
          (Return Pending,
           set_pending a (Some (mkConnectFuture (cf_request fut) (cf_from_slot fut) pending (cf_result fut))))
      | O =>
          match cf_result fut with
          | Ok stream => (Continue, set_inner (count_reconnect a) (Some stream))
          | Err _ => (Return (ReadyErr (mkStatus Internal "reconnect failed" false)), set_stop a)
          end
      end
  | None =>
      match ar_inner_stream a with
      | Some _ => (Continue, a)
      | None => if ar_stop a then (Continue, a) else (AssertionFailed, a)
      end
  end.

(** One iteration of the [while] loop of [poll_next]. *)
Definition ar_iteration (a : AutoReconnect) : control * AutoReconnect :=
  match ar_inner_stream a with
  | None => poll_connecting a
  | Some stream =>
      let a := set_inner a None in
      match stream with
      | [] | Pending :: _ =>
          (Return Pending, set_inner a (Some (tail stream)))
      | ReadyItem msg :: stream =>
          let a := set_checkpoint a (checkpoint_after (ar_last_checkpoint a) msg) in
          let a := set_inner a (Some stream) in
          if internal_only msg then (Continue, a) else (Return (ReadyItem (strip_internal msg)), a)
      | ReadyErr status :: _ =>
          if is_recoverable_status_code (status_code status) then
            let a := if bool_decide (status_code status = OutOfRange) then set_checkpoint a None else a in
            if bo_max_retries (ar_backoff a) =? 0 then (Return (ReadyErr status), set_stop a)
            else poll_connecting (set_pending a (Some (make_connection_future a)))
          else (Return (ReadyErr status), set_stop a)
      | ReadyEnd :: _ => (Return ReadyEnd, set_stop a)
      end
  end.

(** The loop: [None] is out of fuel, [Some Panic] the failed assertion. *)
Fixpoint ar_poll_next (fuel : nat) (a : AutoReconnect) : option (outcome (update_poll * AutoReconnect)) :=
  if ar_stop a then Some (Done (ReadyEnd, a))
  else
    match fuel with
    | O => None
    | S fuel =>
        match ar_iteration a with
        | (Return p, a) => Some (Done (p, a))
        | (Continue, a) => ar_poll_next fuel a
        | (AssertionFailed, _) => Some Panic
        end
    end.

(** A consumer that keeps polling: everything returned but pending polls, with
    the reconnect count read after the poll, until the stream ends. *)
Fixpoint ar_drive (fuel : nat) (a : AutoReconnect) : list (update_poll * Z) * AutoReconnect :=
  match fuel with
  | O => ([], a)
  | S fuel =>
      if ar_stop a then ([(ReadyEnd, ar_reconnect_count a)], a)
      else
        match ar_iteration a with
        | (Return Pending, a) => ar_drive fuel a
        | (Return ReadyEnd, a) => ([(ReadyEnd, ar_reconnect_count a)], a)
        | (Return p, a) =>
            let '(items, a') := ar_drive fuel a in ((p, ar_reconnect_count a) :: items, a')
        | (Continue, a) => ar_drive fuel a
        | (AssertionFailed, a) => ([], a)
        end
  end.
End auto_reconnect.

(** ** Backoff: termination and results *)

Lemma retry_loop_spec {T E} (operation : nat → result (ErrorCategory E) T) fuel : ∀ calls sleeps state,
  0 <= bi_attempts state → bi_attempts state = Z.of_nat calls → len sleeps = Z.of_nat calls →
  Z.of_nat calls <= bi_max_retries state →
  bi_max_retries state - bi_attempts state < Z.of_nat fuel →
  ∃ o, retry_loop fuel operation calls sleeps state = Some o ∧
    ∀ r n sl, o = Done (r, n, sl) →
      (calls < n)%nat ∧ Z.of_nat n <= bi_max_retries state + 1 ∧ len sl = Z.of_nat n - 1 ∧
      (∀ i, (calls <= i < n - 1)%nat → ∃ e, operation i = Err (Retryable e)) ∧
      match r with
      | Ok value => operation (n - 1)%nat = Ok value
      | Err e => operation (n - 1)%nat = Err (Unrecoverable e) ∨
          (operation (n - 1)%nat = Err (Retryable e) ∧ Z.of_nat n = bi_max_retries state + 1)
      end.
Proof.
  induction fuel as [|fuel IH]; intros calls sleeps state H0 Hat Hlen Hmax Hfuel; [lia|].
  cbn [retry_loop]. destruct (operation calls) as [value|[e|e]] eqn:Eop; cbn [is_retryable negb into_inner].
  - eexists. split; [done|]. intros r n sl [= <- <- <-]. rewrite Nat.sub_1_r. cbn [Nat.pred].
    split; [lia|]. split; [lia|]. split; [lia|]. split; [lia|done].
  - unfold BackoffInstance_next, exhausted. destruct (Z.leb_spec (bi_max_retries state) (bi_attempts state)).
    + eexists. split; [done|]. intros r n sl [= <- <- <-]. rewrite Nat.sub_1_r. cbn [Nat.pred].
      split; [lia|]. split; [lia|]. split; [lia|]. split; [lia|]. right. split; [done|lia].
    + unfold advance. destruct (mul_f64 _ _) as [interval|]; cbn [mbind outcome_bind];
        [|by eexists; split].
      edestruct (IH (S calls) (sleeps ++ [bi_current_interval state])) as (o & -> & Ho);
        [..|exists o; split; [done|]]; cbn [bi_attempts bi_max_retries] in *; [lia|lia| |lia|lia|].
      { rewrite len_app, Hlen. change (len [bi_current_interval state]) with 1. lia. }
      intros r n sl E1. destruct (Ho r n sl E1) as (H1 & H2 & H3 & H4 & H5).
      split; [lia|]. split; [done|]. split; [done|]. split; [|done].
      intros i Hi. destruct (decide (i = calls)) as [->|]; [by exists e|]. apply H4. lia.
  - eexists. split; [done|]. intros r n sl [= <- <- <-]. rewrite Nat.sub_1_r. cbn [Nat.pred].
    split; [lia|]. split; [lia|]. split; [lia|]. split; [lia|by left].
Qed.

Lemma retry_total {T E} (operation : nat → result (ErrorCategory E) T) (b : Backoff) :
  0 <= bo_max_retries b →
  ∃ o, retry (S (Z.to_nat (bo_max_retries b))) b operation = Some o ∧
    ∀ r n sl, o = Done (r, n, sl) →
      (0 < n)%nat ∧ Z.of_nat n <= bo_max_retries b + 1 ∧ len sl = Z.of_nat n - 1 ∧
      (∀ i, (i < n - 1)%nat → ∃ e, operation i = Err (Retryable e)) ∧
      match r with
      | Ok value => operation (n - 1)%nat = Ok value
      | Err e => operation (n - 1)%nat = Err (Unrecoverable e) ∨
          (operation (n - 1)%nat = Err (Retryable e) ∧ Z.of_nat n = bo_max_retries b + 1)
      end.
Proof.
  intros Hb. unfold retry.
  destruct (retry_loop_spec operation (S (Z.to_nat (bo_max_retries b))) 0 [] (BackoffInstance_new b))
    as (o & -> & Ho); cbn [bi_attempts bi_max_retries BackoffInstance_new] in *; [done|done|done|lia|lia|].
  exists o. split; [done|]. intros r n sl E1. destruct (Ho r n sl E1) as (H1 & H2 & H3 & H4 & H5).
  split; [done|]. split; [done|]. split; [done|]. split; [|done]. intros i Hi. apply H4. lia.
Qed.

(** The retry loop always ends, after at most [max_retries] + 1 calls of the
    operation and one sleep between two calls: it returns the value of the first
    call that succeeds, the error of the first unrecoverable call, or the last
    error once the retries are spent; every earlier call failed with a
    retryable error. (A panic can only come from an interval that overflows.) *)
Theorem backoff_retry_spec {T E} (b : Backoff) (operation : nat → result (ErrorCategory E) T) :
  0 <= bo_max_retries b →
  ∃ o, retry (S (Z.to_nat (bo_max_retries b))) b operation = Some o ∧
    ∀ r n sl, o = Done (r, n, sl) →
      (0 < n)%nat ∧ Z.of_nat n <= bo_max_retries b + 1 ∧ len sl = Z.of_nat n - 1 ∧
      (∀ i, (i < n - 1)%nat → ∃ e, operation i = Err (Retryable e)) ∧
      match r with
      | Ok value => operation (n - 1)%nat = Ok value
      | Err e => operation (n - 1)%nat = Err (Unrecoverable e) ∨
          (operation (n - 1)%nat = Err (Retryable e) ∧ Z.of_nat n = bo_max_retries b + 1)
      end.
Proof. apply retry_total. Qed.

(** The default policy: three retries, 10, 20 and 40 milliseconds apart. *)
Example backoff_default_intervals :
  retry 4 Backoff_default (λ _, Err (Retryable ()) : result (ErrorCategory ()) ())
  = Some (Done (Err (), 4%nat, [10000000; 20000000; 40000000])).
Proof. by vm_compute. Qed.

(** ** The state machine *)

Section state_machine.
Context `{!GrpcConnector}.

(** Between two polls the user may also store a new request. *)
Inductive ar_step : AutoReconnect → AutoReconnect → Prop :=
| ar_step_iterate a : ar_stop a = false → ar_step a (ar_iteration a).2
| ar_step_request a request :
    ar_step a (mkAutoReconnect request (ar_last_checkpoint a) (ar_stop a) (ar_backoff a)
      (ar_inner_stream a) (ar_pending a) (ar_reconnect_count a) (ar_resume_from_checkpoint a)).

Inductive ar_reachable (a0 : AutoReconnect) : AutoReconnect → Prop :=
| ar_reach_init : ar_reachable a0 a0
| ar_reach_step a a' : ar_reachable a0 a → ar_step a a' → ar_reachable a0 a'.

(** One of the two: a live stream or a pending connection. *)
Definition ar_inv (a : AutoReconnect) : Prop :=
  ar_stop a = false → (is_Some (ar_inner_stream a) ↔ ar_pending a = None).

Lemma poll_connecting_inv a : (ar_inner_stream a = None ∧ is_Some (ar_pending a)) →
  ar_inv (poll_connecting a).2 ∧ (poll_connecting a).1 ≠ AssertionFailed.
Proof.
  intros [Hi [fut Hp]]. unfold poll_connecting, ar_inv. rewrite Hp.
  destruct (cf_pending fut); [destruct (cf_result fut)|]; cbn; split; try done.
  rewrite Hi. intros _. split; [by intros []|done].
Qed.

Lemma ar_iteration_inv a : ar_stop a = false → ar_inv a →
  ar_inv (ar_iteration a).2 ∧ (ar_iteration a).1 ≠ AssertionFailed.
Proof.
  intros Hs Hinv. specialize (Hinv Hs). unfold ar_iteration.
  destruct (ar_inner_stream a) as [stream|] eqn:Ei.
  2:{ apply poll_connecting_inv. split; [done|]. destruct (ar_pending a); [done|].
      destruct (proj2 Hinv eq_refl). done. }
  assert (ar_pending a = None) as Hp by by apply Hinv.
  destruct stream as [|[|msg|status|] stream]; cbn [tail].
  - split; [|done]. intros _. cbn. by rewrite Hp.
  - split; [|done]. intros _. cbn. by rewrite Hp.
  - destruct (internal_only msg); (split; [|done]); intros _; cbn; by rewrite Hp.
  - destruct (is_recoverable_status_code _); [|by split].
    case_bool_decide; cbn [set_inner set_checkpoint ar_backoff]; (destruct (_ =? 0); [by split|]);
      apply poll_connecting_inv; by split.
  - by split.
Qed.

(** The reconnection state machine: in every reachable state, whatever the
    streams and the connector return and whenever the user replaces the
    request, a stream that has not stopped has either a live connection or a
    pending one and not both, so the loop's assertion never fails; once
    stopped, every poll returns the end of the stream. *)
Theorem autoreconnect_state_machine (stream : GrpcStream) (request : SubscribeRequest)
    (backoff : Backoff) (checkpoint : bool) (a : AutoReconnect) :
  let a0 := AutoReconnect_new stream request backoff in
  ar_reachable (if checkpoint then a0 else without_checkpoint a0) a →
  ar_inv a ∧ (ar_stop a = false → (ar_iteration a).1 ≠ AssertionFailed) ∧
  (ar_stop a = true → ∀ fuel, ar_poll_next fuel a = Some (Done (ReadyEnd, a))).
Proof.
  intros a0 Hreach. assert (ar_inv a) as Hinv.
  { induction Hreach as [|a a' _ IH Hstep]; [intros _; by destruct checkpoint|].
    destruct Hstep as [a Hs|a r]; [by apply ar_iteration_inv|]. exact IH. }
  split; [done|]. split; [intros Hs; by apply ar_iteration_inv|].
  intros Hs fuel. destruct fuel; cbn [ar_poll_next]; by rewrite Hs.
Qed.

(** ** One connection and the next *)

(** What a consumer sees of a message. *)
Definition forward (msg : SubscribeUpdate) : option SubscribeUpdate :=
  if internal_only msg then None else Some (strip_internal msg).

(** The messages of a connection, among pending polls. *)
Definition polls_of (l : list (option SubscribeUpdate)) : GrpcStream :=
  (λ o, match o with Some msg => ReadyItem msg | None => Pending end) <$> l.

Lemma drive_messages l : ∀ a rest n,
  ar_stop a = false → ar_inner_stream a = Some (polls_of l ++ rest) → ar_pending a = None →
  let a' := set_inner (set_checkpoint a
    (fold_left checkpoint_after (omap id l) (ar_last_checkpoint a))) (Some rest) in
  ar_drive (length l + n) a
  = (let '(items, a'') := ar_drive n a' in
     (((λ m, (ReadyItem m, ar_reconnect_count a)) <$> omap forward (omap id l)) ++ items, a'')).
Proof.
  induction l as [|o l IH]; intros a rest n Hs Hi Hp; cbn zeta.
  { cbn [polls_of fmap list_fmap app] in Hi. cbn.
    assert (set_inner (set_checkpoint a (ar_last_checkpoint a)) (Some rest) = a) as ->
      by (unfold set_inner, set_checkpoint; rewrite <- Hi; by destruct a).
    by destruct (ar_drive n a). }
  cbn [length Nat.add ar_drive]. rewrite Hs. unfold ar_iteration. rewrite Hi.
  destruct o as [msg|]; cbn [polls_of fmap list_fmap app].
  - csimpl. unfold forward at 1. destruct (internal_only msg).
    + rewrite (IH _ rest) by done. cbn. by destruct (ar_drive n _).
    + rewrite (IH _ rest) by done. cbn. by destruct (ar_drive n _).
  - cbn [tail]. rewrite (IH _ rest) by done. cbn. by destruct (ar_drive n _).
Qed.

(** ** What the connection promises *)

(** What the consumer is meant to see of a message: the filters are its own; a
    message that only the internal filter selected is not seen. *)
Definition consumer_view (msg : SubscribeUpdate) : option SubscribeUpdate :=
  let own := filter (λ f, f ≠ AUTORECONNECT_FILTER_KEY) (su_filters msg) in
  if bool_decide (su_filters msg ≠ [] ∧ own = []) then None
  else Some (mkSubscribeUpdate own (su_update_oneof msg)).

Lemma forward_consumer_view msg : forward msg = consumer_view msg.
Proof.
  unfold forward, consumer_view, internal_only, strip_internal.
  assert (all (λ f, bool_decide (f = AUTORECONNECT_FILTER_KEY)) (su_filters msg) = true ↔
    filter (λ f, f ≠ AUTORECONNECT_FILTER_KEY) (su_filters msg) = []) as Hall.
  { induction (su_filters msg) as [|f fs IH]; [done|]. cbn [all]. rewrite filter_cons.
    case_bool_decide; case_decide; naive_solver. }
  destruct (all _ _); repeat case_bool_decide; cbn; naive_solver.
Qed.

Lemma omap_consumer_view (msgs : list SubscribeUpdate) : omap forward msgs = omap consumer_view msgs.
Proof. induction msgs as [|msg msgs IH]; [done|]. cbn. by rewrite forward_consumer_view, IH. Qed.

Definition block_meta_slot (msg : SubscribeUpdate) : option Z :=
  match su_update_oneof msg with Some (UpBlockMeta slot _) => Some slot | _ => None end.

(** The slot to resume from: two before the last block meta. *)
Definition resume_slot (before : option Z) (msgs : list SubscribeUpdate) : option Z :=
  match last (omap block_meta_slot msgs) with
  | Some slot => Some (Z.max 0 (slot - 2))
  | None => before
  end.

Lemma checkpoint_resume_slot msgs before : fold_left checkpoint_after msgs before = resume_slot before msgs.
Proof.
  induction msgs as [|msg msgs IH] using rev_ind; [done|].
  rewrite fold_left_app. cbn [fold_left]. rewrite IH. unfold resume_slot. rewrite omap_app, last_app.
  unfold checkpoint_after, block_meta_slot, extract_slot. cbn [omap list_omap].
  destruct (su_update_oneof msg) as [[]|]; try done.
  cbn. unfold saturating_sub, CHECKPOINT_SLOT_BUFFER. by rewrite Z.max_comm.
Qed.

(** C33. Resuming after a failure. A connection that delivers messages, with
    pending polls anywhere, and then fails with a recoverable status is replaced:
    the consumer receives the messages that some filter of its own matched,
    without the internal filter's name and in order; the new connection is asked
    for from the slot of the last block meta minus two (from the head if there
    was none, if the server said OutOfRange, or if the policy skips missed data)
    with the request as it is then; when it succeeds, after any number of
    pending polls, the stream goes on with it and the reconnect count is one
    more. *)
Theorem autoreconnect_resumes (a : AutoReconnect) (l : list (option SubscribeUpdate))
    (status : Status) (rest stream' : GrpcStream) (pending : nat) :
  ar_stop a = false → ar_inner_stream a = Some (polls_of l ++ ReadyErr status :: rest) →
  ar_pending a = None → bo_max_retries (ar_backoff a) ≠ 0 →
  is_recoverable_status_code (status_code status) = true →
  let seen := resume_slot (ar_last_checkpoint a) (omap id l) in
  let checkpoint := if bool_decide (status_code status = OutOfRange) then None else seen in
  let from_slot := if ar_resume_from_checkpoint a then checkpoint else None in
  connect (ar_reconnect_count a) (ar_request a) from_slot = (pending, Ok stream') →
  let a' := set_inner (count_reconnect (set_checkpoint a checkpoint)) (Some stream') in
  ∀ n, ar_drive (length l + S pending + n) a
    = (let '(items, a'') := ar_drive n a' in
       (((λ m, (ReadyItem m, ar_reconnect_count a)) <$> omap consumer_view (omap id l)) ++ items, a'')).
Proof.
  intros Hs Hi Hp Hret Hrec seen checkpoint from_slot Hconn a' n.
  rewrite <- Nat.add_assoc, (drive_messages l a _ _ Hs Hi Hp), checkpoint_resume_slot. fold seen.
  rewrite omap_consumer_view.
  set (a1 := set_inner (set_checkpoint a seen) (Some (ReadyErr status :: rest))).
  enough (ar_drive (S pending + n) a1 = ar_drive n a') as -> by done.
  set (fut k := mkConnectFuture (ar_request a) from_slot k (Ok stream')).
  set (b k := set_pending (set_inner (set_checkpoint a checkpoint) None) (Some (fut k))).
  assert (∀ k m, ar_drive (S k + m) (b k) = ar_drive m a') as Hwait.
  { induction k as [|k IH]; intros m; cbn [Nat.add ar_drive]; cbn [b ar_stop set_pending set_inner set_checkpoint];
      rewrite Hs; unfold ar_iteration, poll_connecting;
      cbn [b ar_inner_stream ar_pending set_pending set_inner set_checkpoint fut cf_pending cf_result].
    - unfold a', count_reconnect, set_inner, set_checkpoint. cbn. by rewrite Hp, Hs.
    - apply IH. }
  rewrite <- (Hwait pending n). cbn [Nat.add ar_drive].
  cbn [a1 b ar_stop set_pending set_inner set_checkpoint]. rewrite Hs.
  enough (ar_iteration a1 = ar_iteration (b pending)) as -> by done.
  unfold ar_iteration at 1. cbn [a1 ar_inner_stream set_inner]. rewrite Hrec.
  unfold ar_iteration. cbn [b ar_inner_stream set_pending set_inner].
  change (set_inner a1 None) with (set_inner (set_checkpoint a seen) None).
  assert ((if bool_decide (status_code status = OutOfRange)
    then set_checkpoint (set_inner (set_checkpoint a seen) None) None
    else set_inner (set_checkpoint a seen) None) = set_inner (set_checkpoint a checkpoint) None) as ->.
  { unfold checkpoint. by case_bool_decide. }
  destruct (Z.eqb_spec (bo_max_retries (ar_backoff (set_inner (set_checkpoint a checkpoint) None))) 0); [done|].
  assert (make_connection_future (set_inner (set_checkpoint a checkpoint) None) = fut pending) as ->; [|done].
  unfold make_connection_future. cbn [ar_reconnect_count ar_request ar_resume_from_checkpoint ar_last_checkpoint set_inner set_checkpoint].
  fold from_slot. by rewrite Hconn.
Qed.

(** What a consumer sees never mentions the internal filter: a message is
    dropped exactly when it has filters and all of them are the internal one,
    and a forwarded message keeps its content and all the user's filters. *)
Theorem internal_filter_is_invisible (msg : SubscribeUpdate) :
  (forward msg = None ↔ su_filters msg ≠ [] ∧ ∀ f, f ∈ su_filters msg → f = AUTORECONNECT_FILTER_KEY) ∧
  (∀ msg', forward msg = Some msg' →
     (AUTORECONNECT_FILTER_KEY ∉ su_filters msg') ∧ su_update_oneof msg' = su_update_oneof msg ∧
     ∀ f, f ≠ AUTORECONNECT_FILTER_KEY → (f ∈ su_filters msg' ↔ f ∈ su_filters msg)).
Proof.
  unfold forward. assert (internal_only msg = true ↔
    su_filters msg ≠ [] ∧ ∀ f, f ∈ su_filters msg → f = AUTORECONNECT_FILTER_KEY) as <-.
  { unfold internal_only. rewrite andb_true_iff, negb_true_iff, bool_decide_eq_false, forallb_In.
    by setoid_rewrite bool_decide_eq_true. }
  destruct (internal_only msg); split; [done|done|split; [done|discriminate]|].
  intros msg' [= <-]. cbn. split; [|split; [done|]].
  - rewrite list_elem_of_filter. naive_solver.
  - intros f Hf. rewrite list_elem_of_filter. naive_solver.
Qed.

End state_machine.

(** The injected filters: after the injection the request subscribes to block
    metas, injecting again changes nothing, every entry of the user's maps is
    still there, and the other sections are untouched. A request that brings its
    own block-meta filter is left as it is, slot filter included. *)
Theorem inject_autoreconnect_filter_spec (req : SubscribeRequest) :
  let req' := inject_autoreconnect_filter req in
  req_blocks_meta req' ≠ [] ∧ inject_autoreconnect_filter req' = req' ∧
  (∀ kv, kv ∈ req_blocks_meta req → kv ∈ req_blocks_meta req') ∧
  (∀ kv, kv ∈ req_slots req → kv.1 ≠ AUTORECONNECT_FILTER_KEY → kv ∈ req_slots req') ∧
  req_accounts req' = req_accounts req ∧ req_transactions req' = req_transactions req ∧
  req_transactions_status req' = req_transactions_status req ∧ req_blocks req' = req_blocks req ∧
  req_entry req' = req_entry req ∧
  (req_blocks_meta req ≠ [] → req' = req).
Proof.
  unfold inject_autoreconnect_filter. case_bool_decide as He; cbn [req_blocks_meta req_slots].
  - rewrite He. cbn [hash_map_insert]. rewrite bool_decide_eq_false_2 by done.
    split; [done|]. split; [done|]. split; [set_solver|]. split; [|repeat (split; [done|]); done].
    intros [k v] Hkv Hne. cbn [fst] in Hne.
    induction (req_slots req) as [|[k' v'] m IH]; [by apply elem_of_nil in Hkv|].
    cbn [hash_map_insert]. apply elem_of_cons in Hkv as [[= <- <-]|Hkv]; case_decide; try done.
    + by left.
    + right. done.
    + right. by apply IH.
  - split; [done|]. rewrite bool_decide_eq_false_2 by done. repeat (split; [done|]). done.
Qed.

(** ** Concrete instances *)

Section witnesses.

Lemma backoff_retry_spec_witness :
  ∃ o, retry 4 Backoff_default (λ i, if Nat.ltb i 2 then Err (Retryable "down") else Ok i) = Some o ∧
    ∀ r n sl, o = Done (r, n, sl) → Z.of_nat n <= 4.
Proof.
  destruct (backoff_retry_spec Backoff_default
    (λ i, if Nat.ltb i 2 then Err (Retryable "down") else Ok i)) as (o & Ho & H); [discriminate|].
  exists o. split; [exact Ho|]. intros r n sl E. apply (H r n sl E).
Defined.

Definition demo_update (filters : list string) (slot : Z) : SubscribeUpdate :=
  mkSubscribeUpdate filters (Some (UpBlockMeta slot "h")).

(** The second connection is pending once and then delivers one message, whose
    filter names the slot it was asked for. *)
#[local] Instance demo_connector : GrpcConnector := λ _ _ from_slot,
  (1%nat, Ok [ReadyItem (demo_update (if bool_decide (from_slot = Some 7) then ["a"] else ["b"]) 8);
              ReadyEnd]).

Definition demo_auto (stream : GrpcStream) : AutoReconnect :=
  AutoReconnect_new stream (mkSubscribeRequest [] [] [] [] [] [] [] None [] None None) Backoff_default.

Definition demo_stream : GrpcStream :=
  polls_of [Some (demo_update [AUTORECONNECT_FILTER_KEY] 9); None; Some (demo_update ["a"; AUTORECONNECT_FILTER_KEY] 9)]
  ++ [ReadyErr (mkStatus Unavailable "" false)].

Example demo_drive :
  (ar_drive 20 (demo_auto demo_stream)).1
  = [(ReadyItem (demo_update ["a"] 9), 0); (ReadyItem (demo_update ["a"] 8), 1); (ReadyEnd, 1)].
Proof. by vm_compute. Qed.

(** The whole client stack: the polls of the reconnecting stream feed the
    duplicate filter, which drops the block meta that was replayed. *)
Example demo_stack :
  (run_stream 20 (DedupStream_new (ar_drive 20 (demo_auto
      (polls_of [Some (demo_update ["a"] 9); Some (demo_update ["a"] 8)]
       ++ [ReadyErr (mkStatus Unavailable "" false)]))).1 DedupState_default)).1
  = [demo_update ["a"] 9; demo_update ["a"] 8].
Proof. by vm_compute. Qed.

Lemma autoreconnect_state_machine_witness :
  ar_inv (ar_iteration (demo_auto demo_stream)).2.
Proof.
  refine (proj1 (autoreconnect_state_machine demo_stream _ Backoff_default true _ _)).
  eapply ar_reach_step; [apply ar_reach_init|]. apply ar_step_iterate. reflexivity.
Defined.

Lemma autoreconnect_resumes_witness : ∃ a' items,
  ar_drive (3 + 2 + 10) (demo_auto demo_stream) = ((ReadyItem (demo_update ["a"] 9), 0) :: items, a').
Proof.
  pose proof (autoreconnect_resumes (demo_auto demo_stream)
    [Some (demo_update [AUTORECONNECT_FILTER_KEY] 9); None; Some (demo_update ["a"; AUTORECONNECT_FILTER_KEY] 9)]
    (mkStatus Unavailable "" false) []
    [ReadyItem (demo_update ["a"] 8); ReadyEnd] 1 eq_refl eq_refl eq_refl ltac:(discriminate) eq_refl eq_refl 10) as H.
  destruct (ar_drive 10 _) as [items a'] in H. exists a', items. exact H.
Defined.
End witnesses.
