(* ===== verification/Client.v ===== *)
(** * yellowstone-grpc-client/src/lib.rs: subscribing, and the request sink

    The policies of [ReconnectConfig], how [subscribe_with_request] wires the
    streams, the [SubscribeRequestSink] through which a consumer replaces its
    request, and the connector's attempt to open a new connection (reconnect.rs),
    which swaps the sink's channel. Channels are numbered, those of the attempts
    of a reconnection included; what is sent on them is a log. *)

From S2P Require Import Prelude Proto Externals Cuckoo Dedup Reconnect.

Set Default Goal Selector "!".

Local Open Scope Z_scope.

(** ** Requests and metadata *)

Definition SubscribeRequest_default : SubscribeRequest :=
  mkSubscribeRequest [] [] [] [] [] [] [] None [] None None.

Definition with_from_slot (req : SubscribeRequest) (from_slot : option Z) : SubscribeRequest :=
  mkSubscribeRequest (req_accounts req) (req_slots req) (req_transactions req)
    (req_transactions_status req) (req_blocks req) (req_blocks_meta req) (req_entry req)
    (req_commitment req) (req_accounts_data_slice req) (req_ping req) from_slot.

(** [InterceptorXToken] on the metadata map of a request. *)
Record InterceptorXToken := mkInterceptorXToken {
  x_token : option string;
  x_request_snapshot : bool
}.

Definition interceptor_call (i : InterceptorXToken) (metadata : gmap string string) : gmap string string :=
  let metadata := match x_token i with
                  | Some token => <["x-token" := token]> metadata
                  | None => metadata
                  end in
  if x_request_snapshot i then <["x-request-snapshot" := "true"]> metadata else metadata.

(** ** Policies *)

Inductive ReconnectionPolicy :=
| SkipMissedData
| RecoverMissedData (slot_retention : Z).

Record ReconnectConfig := mkReconnectConfig {
  rc_backoff : Backoff;
  rc_policy : ReconnectionPolicy
}.

Definition ReconnectConfig_default : ReconnectConfig :=
  {| rc_backoff := Backoff_default; rc_policy := RecoverMissedData DEFAULT_SLOT_RETENTION |}.

Definition with_backoff (c : ReconnectConfig) (backoff : Backoff) : ReconnectConfig :=
  {| rc_backoff := backoff; rc_policy := rc_policy c |}.

Definition with_slot_retention (c : ReconnectConfig) (slot_retention : Z) : ReconnectConfig :=
  {| rc_backoff := rc_backoff c; rc_policy := RecoverMissedData slot_retention |}.

(** ** The sink *)

Record SubscribeRequestSink := mkSubscribeRequestSink {
  (** the channel [inner] holds, and everything accepted by the channels *)
  sink_channel : nat;
  sink_sent : list (nat * SubscribeRequest);
  (** [shared], read by the reconnecting stream *)
  sink_shared : SubscribeRequest
}.

(** [start_send]; [accepted] is whether the channel takes the item. *)
Definition start_send (accepted : bool) (sink : SubscribeRequestSink) (item : SubscribeRequest)
    : bool * SubscribeRequestSink :=
  let item :=
    if hash_map_contains_key AUTORECONNECT_FILTER_KEY (req_blocks_meta (sink_shared sink))
    then inject_autoreconnect_filter item else item in
  if accepted then
    (true, mkSubscribeRequestSink (sink_channel sink) (sink_sent sink ++ [(sink_channel sink, item)]) item)
  else (false, sink).

Definition wants_recovery (config : option ReconnectConfig) : bool :=
  match config with
  | Some c => match rc_policy c with RecoverMissedData _ => true | SkipMissedData => false end
  | None => false
  end.

(** [subscribe_raw]: the request sent on the first channel, and the sink. *)
Definition subscribe_raw (config : option ReconnectConfig) (request : option SubscribeRequest)
    : SubscribeRequestSink :=
  let request := default SubscribeRequest_default request in
  let request := if wants_recovery config then inject_autoreconnect_filter request else request in
  mkSubscribeRequestSink 0 [(0%nat, request)] request.

(** The stream [subscribe_with_request] builds on the first connection. *)
Inductive InnerStream :=
| NoReconnect (stream : GrpcStream)
| Replay (reconnect : AutoReconnect) (state : DedupState)
| NoReplay (reconnect : AutoReconnect).

Definition subscribe_with_request (config : option ReconnectConfig) (request : option SubscribeRequest)
    (stream : GrpcStream) : SubscribeRequestSink * InnerStream :=
  let sink := subscribe_raw config request in
  (sink,
   match config with
   | None => NoReconnect stream
   | Some config =>
       let reconnect_stream := AutoReconnect_new stream (sink_shared sink) (rc_backoff config) in
       match rc_policy config with
       | SkipMissedData => NoReplay (without_checkpoint reconnect_stream)
       | RecoverMissedData slot_retention =>
           Replay reconnect_stream (DedupState_with_slot_retention slot_retention)
       end
   end).

(** ** A new connection *)

(** The transport and the server, by attempt: opening the channel, and the
    answer to the subscription. *)
Record Network := mkNetwork {
  net_connect : nat → result string unit;
  net_subscribe : nat → SubscribeRequest → result Status GrpcStream
}.

(** The operation [TonicGrpcConnector::connect] retries. *)
Definition connect_attempt (net : Network) (base_request : SubscribeRequest) (from_slot : option Z)
    (attempt : nat) : result (ErrorCategory GeyserGrpcClientError) GrpcStream :=
  let request := with_from_slot base_request from_slot in
  match net_connect net attempt with
  | Err e => Err (Retryable (TransportError e))
  | Ok _ =>
      match net_subscribe net attempt request with
      | Ok stream => Ok stream
      | Err status =>
          let e := TonicStatus status in
          if is_recoverable_client_error e then Err (Retryable e) else Err (Unrecoverable e)
      end
  end.

(** What the attempts put on the wire: each that opens a channel sends its
    request there first, whatever the server then answers. Attempt [i] of a
    reconnection uses the channel [S i] after the one the sink holds. *)
Definition attempts_sent (net : Network) (request : SubscribeRequest) (channel calls : nat) : list (nat * SubscribeRequest) :=
  omap (λ i, match net_connect net i with Ok _ => Some ((channel + S i)%nat, request) | Err _ => None end) (seq 0 calls).

(** [TonicGrpcConnector::connect]: the result and the sink afterwards, whose
    channel is swapped (to the one of the last attempt) only on success. *)
Definition tonic_connect (net : Network) (backoff : Backoff) (request : SubscribeRequest)
    (from_slot : option Z) (sink : SubscribeRequestSink)
    : option (outcome (result GeyserGrpcClientError GrpcStream * SubscribeRequestSink)) :=
  match retry (S (Z.to_nat (bo_max_retries backoff))) backoff (connect_attempt net request from_slot) with
  | None => None
  | Some Panic => Some Panic
  | Some (Done (r, calls, _)) =>
      let sent := sink_sent sink ++ attempts_sent net (with_from_slot request from_slot) (sink_channel sink) calls in
      Some (Done (r, mkSubscribeRequestSink
        (match r with Ok _ => sink_channel sink + calls | Err _ => sink_channel sink end) sent (sink_shared sink)))
  end.

(** ** Correctness *)

(** Sending a list of requests, each accepted. *)
Definition send_all (sink : SubscribeRequestSink) (items : list SubscribeRequest) : SubscribeRequestSink :=
  fold_left (λ sink item, (start_send true sink item).2) items sink.

Definition has_internal (req : SubscribeRequest) : bool :=
  hash_map_contains_key AUTORECONNECT_FILTER_KEY (req_blocks_meta req).

Lemma inject_has_internal req : req_blocks_meta req = [] → has_internal (inject_autoreconnect_filter req) = true.
Proof. intros H. unfold inject_autoreconnect_filter, has_internal. rewrite H. done. Qed.

Lemma inject_own req : req_blocks_meta req ≠ [] → inject_autoreconnect_filter req = req.
Proof. intros H. unfold inject_autoreconnect_filter. by rewrite bool_decide_eq_false_2. Qed.

Lemma send_all_cons sink r items :
  send_all sink (r :: items) =
  let item := if has_internal (sink_shared sink) then inject_autoreconnect_filter r else r in
  send_all (mkSubscribeRequestSink (sink_channel sink) (sink_sent sink ++ [(sink_channel sink, item)]) item) items.
Proof. done. Qed.

(** Once the current request lacks the internal filter, requests go out as the
    consumer wrote them. *)
Lemma send_all_verbatim items : ∀ sink,
  has_internal (sink_shared sink) = false → Forall (λ r, has_internal r = false) items →
  sink_sent (send_all sink items) = sink_sent sink ++ ((λ r, (sink_channel sink, r)) <$> items).
Proof.
  induction items as [|r items IH]; intros sink Hs Hall.
  { by rewrite app_nil_r. }
  apply Forall_cons in Hall as [Hr Hall]. rewrite send_all_cons, Hs. cbv zeta.
  rewrite IH by done. cbn. by rewrite <- app_assoc.
Qed.

Lemma send_all_internal items : ∀ sink,
  has_internal (sink_shared sink) = true → Forall (λ r, req_blocks_meta r = []) items →
  sink_sent (send_all sink items)
  = sink_sent sink ++ ((λ r, (sink_channel sink, inject_autoreconnect_filter r)) <$> items).
Proof.
  induction items as [|r items IH]; intros sink Hs Hall.
  { by rewrite app_nil_r. }
  apply Forall_cons in Hall as [Hr Hall]. rewrite send_all_cons, Hs. cbv zeta.
  rewrite IH; [|by apply inject_has_internal|done]. cbn. by rewrite <- app_assoc.
Qed.

(** While the consumer never asks for block metas itself, a recovering
    subscription keeps them: the first request and every replacement the sink
    sends carries the internal block-meta filter, so that checkpoints advance. *)
Theorem sink_keeps_block_metas (config : ReconnectConfig) (slot_retention : Z)
    (request : SubscribeRequest) (items : list SubscribeRequest) :
  rc_policy config = RecoverMissedData slot_retention →
  req_blocks_meta request = [] → Forall (λ r, req_blocks_meta r = []) items →
  let sink := send_all (subscribe_raw (Some config) (Some request)) items in
  length (sink_sent sink) = S (length items) ∧
  ∀ channel r, (channel, r) ∈ sink_sent sink → req_blocks_meta r = [(AUTORECONNECT_FILTER_KEY, ())].
Proof.
  intros Hpol Hr Hall sink. subst sink. unfold subscribe_raw, wants_recovery. rewrite Hpol.
  cbn [from_option id]. rewrite send_all_internal; [|by apply inject_has_internal|done].
  cbn [sink_sent sink_channel]. split; [by rewrite length_app, length_fmap|].
  intros channel r [[= -> ->]%list_elem_of_singleton|Hin]%elem_of_app.
  - unfold inject_autoreconnect_filter. by rewrite Hr.
  - apply list_elem_of_fmap in Hin as (r0 & [= -> ->] & Hin). rewrite Forall_forall in Hall.
    unfold inject_autoreconnect_filter. by rewrite (Hall r0 Hin).
Qed.

(** A recovering subscription can lose its block metas for good: if the
    consumer's request brings a block-meta filter of its own, nothing is
    injected and the sink takes the absence of the internal filter to mean that
    none is wanted. From then on every replacement is sent exactly as written,
    so a replacement without block metas leaves a recovering subscription with
    no block meta at all: its checkpoint can no longer advance. *)
Theorem sink_loses_block_metas (config : ReconnectConfig) (request : SubscribeRequest)
    (items : list SubscribeRequest) :
  wants_recovery (Some config) = true →
  req_blocks_meta request ≠ [] → has_internal request = false →
  Forall (λ r, has_internal r = false) items →
  sink_sent (send_all (subscribe_raw (Some config) (Some request)) items)
  = (λ r, (0%nat, r)) <$> request :: items.
Proof.
  intros Hpol Hne Hint Hall. unfold subscribe_raw. rewrite Hpol. cbn [from_option id].
  rewrite inject_own by done. by rewrite send_all_verbatim.
Qed.

Lemma attempts_sent_requests net request channel calls c r :
  (c, r) ∈ attempts_sent net request channel calls → r = request.
Proof. intros (i & _ & Hi)%list_elem_of_omap. destruct (net_connect net i); [by injection Hi as _ <-|done]. Qed.

(** Opening a new connection: at most [max_retries] + 1 attempts, which send
    nothing but the request with the slot to resume from; when it succeeds the
    server of the last attempt accepted that, every earlier attempt failed for a
    recoverable reason, and the sink writes to the new channel; when it fails the
    sink still writes to the old one and the error is unrecoverable or the
    attempts are spent. *)
Theorem tonic_connect_spec (net : Network) (backoff : Backoff) (request : SubscribeRequest)
    (from_slot : option Z) (sink : SubscribeRequestSink) :
  0 <= bo_max_retries backoff →
  ∃ o, tonic_connect net backoff request from_slot sink = Some o ∧
    ∀ r sink', o = Done (r, sink') →
      sink_shared sink' = sink_shared sink ∧
      ∃ n, (0 < n)%nat ∧ Z.of_nat n <= bo_max_retries backoff + 1 ∧
        sink_sent sink' = sink_sent sink ++ attempts_sent net (with_from_slot request from_slot) (sink_channel sink) n ∧
        (∀ i, (i < n - 1)%nat → ∃ e,
          connect_attempt net request from_slot i = Err (Retryable e) ∧ is_recoverable_client_error e = true) ∧
        match r with
        | Ok stream => sink_channel sink' = (sink_channel sink + n)%nat ∧
            connect_attempt net request from_slot (n - 1) = Ok stream
        | Err e => sink_channel sink' = sink_channel sink ∧
            (connect_attempt net request from_slot (n - 1) = Err (Unrecoverable e) ∧ is_recoverable_client_error e = false ∨
             connect_attempt net request from_slot (n - 1) = Err (Retryable e) ∧ Z.of_nat n = bo_max_retries backoff + 1)
        end.
Proof.
  intros Hb. assert (∀ i e, connect_attempt net request from_slot i = Err (Retryable e) →
    is_recoverable_client_error e = true) as Hretry.
  { intros i e. unfold connect_attempt. destruct (net_connect net i); [|by intros [= <-]].
    destruct (net_subscribe net i _) as [|st]; [done|].
    destruct (is_recoverable_client_error _) eqn:E; [|done]. by intros [= <-]. }
  unfold tonic_connect. edestruct (retry_total (connect_attempt net request from_slot) backoff Hb) as (o & -> & Ho).
  destruct o as [[[r n] sl]|]; [|by eexists]. destruct (Ho r n sl eq_refl) as (Hn & Hmax & _ & Hearlier & Hr).
  eexists. split; [done|]. intros r' sink' [= <- <-]. cbn [sink_sent sink_shared sink_channel]. split; [done|].
  exists n. split; [lia|]. split; [done|]. split; [done|]. split.
  - intros i Hi. destruct (Hearlier i Hi) as [e He]. exists e. split; [done|]. by eapply Hretry.
  - destruct r as [stream|e]; [done|]. split; [done|]. destruct Hr as [Hr|[Hr Hspent]]; [left; split; [done|]|by right].
    revert Hr. unfold connect_attempt. destruct (net_connect net (n - 1)); [|done].
    destruct (net_subscribe net (n - 1) _) as [s|st]; [done|].
    destruct (is_recoverable_client_error (TonicStatus st)) eqn:E; [done|]. by intros [= <-].
Qed.

(** ** Concrete instances *)

Section witnesses.

Definition own_metas : SubscribeRequest :=
  mkSubscribeRequest [] [] [] [] [] [("m", ())] [] None [] None None.

Lemma sink_keeps_block_metas_witness :
  length (sink_sent (send_all (subscribe_raw (Some ReconnectConfig_default) (Some SubscribeRequest_default))
    [SubscribeRequest_default])) = 2%nat.
Proof.
  apply (sink_keeps_block_metas ReconnectConfig_default 250); [reflexivity|reflexivity|].
  constructor; [reflexivity|constructor].
Defined.

Lemma sink_loses_block_metas_witness :
  sink_sent (send_all (subscribe_raw (Some ReconnectConfig_default) (Some own_metas)) [SubscribeRequest_default])
  = [(0%nat, own_metas); (0%nat, SubscribeRequest_default)].
Proof.
  apply sink_loses_block_metas; [reflexivity|discriminate|reflexivity|].
  constructor; [reflexivity|constructor].
Defined.

(** Two refused connections, then a server that accepts. *)
Definition demo_net : Network :=
  mkNetwork (λ i, if Nat.ltb i 2 then Err "refused" else Ok ()) (λ _ _, Ok [ReadyEnd]).

Lemma tonic_connect_spec_witness :
  ∃ o, tonic_connect demo_net Backoff_default SubscribeRequest_default (Some 7)
         (subscribe_raw None None) = Some o ∧
    ∀ r sink', o = Done (r, sink') → sink_shared sink' = SubscribeRequest_default.
Proof.
  destruct (tonic_connect_spec demo_net Backoff_default SubscribeRequest_default (Some 7)
    (subscribe_raw None None)) as (o & Ho & H); [discriminate|].
  exists o. split; [exact Ho|]. intros r sink' E. apply (H r sink' E).
Defined.

Example tonic_connect_channel :
  match tonic_connect demo_net Backoff_default SubscribeRequest_default (Some 7) (subscribe_raw None None) with
  | Some (Done (Ok _, sink)) => Some (sink_channel sink, sink_sent sink)
  | _ => None
  end = Some (3%nat, [(0%nat, SubscribeRequest_default); (3%nat, with_from_slot SubscribeRequest_default (Some 7))]).
Proof. by vm_compute. Qed.
End witnesses.
