(* ===== verification/Transport.v ===== *)
(** * yellowstone-grpc-tools: server/tonic/ratelimit/transport.rs

    The listener counts the connections of each peer address in a table that all
    listeners share behind a mutex: [try_new] of [RateLimitedIO] counts a
    connection or refuses it, its [Drop] gives the place back. Each of the two
    holds the lock for its whole effect, so the runs are sequences of them.

    The counter never exceeds the limit and the live connections whose address
    is known never exceed the counter, and neither [expect] can fail; the address
    of a TLS connection is not known ([extract_remote_peer_addr], Tls.v). But [drop] subtracts from a copy
    of the counter: a counter of two or more never goes down again, and an
    address that once had two connections at a time has a bounded number of
    connections left for the life of the server. *)

From S2P Require Import Prelude.

Set Default Goal Selector "!".

Local Open Scope Z_scope.

(** ** Addresses and connection metadata *)

(** [std::net::IpAddr]: the bits of the address. *)
Inductive IpAddr :=
| IpAddr_V4 (bits : Z)
| IpAddr_V6 (bits : Z).

#[global] Instance IpAddr_eq_dec : EqDecision IpAddr.
Proof. solve_decision. Defined.

#[global] Instance IpAddr_countable : Countable IpAddr.
Proof.
  refine (inj_countable' (λ a, match a with IpAddr_V4 b => inl b | IpAddr_V6 b => inr b end)
    (λ s, match s with inl b => IpAddr_V4 b | inr b => IpAddr_V6 b end) _).
  by intros [].
Defined.

Record SocketAddr := mkSocketAddr {
  sa_ip : IpAddr;
  sa_port : Z
}.

#[global] Instance SocketAddr_eq_dec : EqDecision SocketAddr.
Proof. solve_decision. Defined.

(** [tonic::transport::server::TcpConnectInfo]. *)
Record TcpConnectInfo := mkTcpConnectInfo {
  tcp_remote_addr : option SocketAddr
}.

(** What [info.downcast_ref] can tell apart of the connection metadata. *)
Inductive ConnectInfo :=
| ConnectInfo_tcp (info : TcpConnectInfo)
| ConnectInfo_tls (info : TcpConnectInfo)
| ConnectInfo_other.

Definition extract_remote_peer_addr (info : ConnectInfo) : option SocketAddr :=
  let maybe_tcp_info :=
    match info with
    | ConnectInfo_tcp tcp => Some tcp
    | ConnectInfo_tls tls => Some tls
    | ConnectInfo_other => None
    end in
  maybe_tcp_info ≫= tcp_remote_addr.

(** ** The table and the connections *)

Abbreviation SharedRateLimitTable := (gmap IpAddr Z).

Definition DEFAULT_MAX_IP_CONNCUR : Z := 250.

(** The only error [try_new] makes; [io_error_other] stands for those of the
    listener. *)
Inductive IoError :=
| QuotaExceeded
| io_error_other (code : Z).

Section transport.
Context {IO : Type} (connect_info : IO → ConnectInfo).

Record RateLimitedIO := mkRateLimitedIO {
  rl_wrappee : IO;
  rl_remote_peer : option SocketAddr
}.

(** [and_modify(|count| *count = count.checked_add(1).expect(..)).or_insert(1)]. *)
Definition count_connection (ip : IpAddr) (table : SharedRateLimitTable) : outcome SharedRateLimitTable :=
  match table !! ip with
  | Some count => if bool_decide (count + 1 <= u64_max) then Done (<[ip := count + 1]> table) else Panic
  | None => Done (<[ip := 1]> table)
  end.

(** [RateLimitedIO::try_new]: the connection or the error, the table, and the
    calls of [on_rate_limit_exceeded]. *)
Definition try_new (io : IO) (max_ip_conncur : Z) (table : SharedRateLimitTable) :
    outcome (result IoError RateLimitedIO * SharedRateLimitTable * list (option IpAddr)) :=
  let maybe_remote_peer_addr := extract_remote_peer_addr (connect_info io) in
  match maybe_remote_peer_addr with
  | Some remote_peer_addr =>
      let curr_val := default 0 (table !! sa_ip remote_peer_addr) in
      if bool_decide (max_ip_conncur <= curr_val) then
        Done (Err QuotaExceeded, table, [Some (sa_ip remote_peer_addr)])
      else
        table ← count_connection (sa_ip remote_peer_addr) table;
        Done (Ok (mkRateLimitedIO io maybe_remote_peer_addr), table, [])
  | None => Done (Ok (mkRateLimitedIO io None), table, [])
  end.

(** [Drop for RateLimitedIO]. The second [let new_val] shadows the reference
    into the table with a number: nothing is written back. *)
Definition RateLimitedIO_drop (io : RateLimitedIO) (table : SharedRateLimitTable) : outcome SharedRateLimitTable :=
  match rl_remote_peer io with
  | Some remote_peer_ip =>
      match table !! sa_ip remote_peer_ip with
      | Some count =>
          if bool_decide (1 <= count) then
            let new_val := count - 1 in
            Done (if bool_decide (new_val = 0) then delete (sa_ip remote_peer_ip) table else table)
          else Panic
      | None => Panic
      end
  | None => Done table
  end.

(** [RateLimitedIncoming::poll_next], on what the poll of the wrapped stream
    returns; [None] is [Poll::Pending]. *)
Definition RateLimitedIncoming_poll_next (max_ip_conncur : Z) (table : SharedRateLimitTable)
    (polled : option (option (result IoError IO))) :
    outcome (option (option (result IoError RateLimitedIO)) * SharedRateLimitTable * list (option IpAddr)) :=
  match polled with
  | Some (Some (Ok io)) =>
      '(io, table, calls) ← try_new io max_ip_conncur table;
      Done (Some (Some io), table, calls)
  | Some (Some (Err e)) => Done (Some (Some (Err e)), table, [])
  | Some None => Done (Some None, table, [])
  | None => Done (None, table, [])
  end.

(** ** Runs of the listeners of a server *)

Record Transport := mkTransport {
  tr_table : SharedRateLimitTable;
  tr_live : list RateLimitedIO
}.

Definition Transport_new : Transport := mkTransport ∅ [].

(** A poll of a listener, or the end of one of the live connections. *)
Inductive transport_event :=
| Polled (polled : option (option (result IoError IO)))
| Dropped (index : nat).

Definition transport_step (max_ip_conncur : Z) (st : Transport) (ev : transport_event) :
    outcome (Transport * option (result IoError RateLimitedIO)) :=
  match ev with
  | Polled polled =>
      '(item, table, _) ← RateLimitedIncoming_poll_next max_ip_conncur (tr_table st) polled;
      match item with
      | Some (Some (Ok io)) => Done (mkTransport table (io :: tr_live st), Some (Ok io))
      | Some (Some (Err e)) => Done (mkTransport table (tr_live st), Some (Err e))
      | _ => Done (mkTransport table (tr_live st), None)
      end
  | Dropped index =>
      match tr_live st !! index with
      | Some io =>
          table ← RateLimitedIO_drop io (tr_table st);
          Done (mkTransport table (delete index (tr_live st)), None)
      | None => Done (st, None)
      end
  end.

(** The connections accepted by a run of events, the latest first. *)
Fixpoint transport_run (max_ip_conncur : Z) (st : Transport) (evs : list transport_event) :
    outcome (Transport * list RateLimitedIO) :=
  match evs with
  | [] => Done (st, [])
  | ev :: evs =>
      '(st, item) ← transport_step max_ip_conncur st ev;
      '(st, accepted) ← transport_run max_ip_conncur st evs;
      Done (st, match item with Some (Ok io) => io :: accepted | _ => accepted end)
  end.

Definition from_ip (ip : IpAddr) (io : RateLimitedIO) : bool :=
  match rl_remote_peer io with
  | Some addr => bool_decide (sa_ip addr = ip)
  | None => false
  end.

(** How many connections of a list are from an address. *)
Fixpoint count_from (ip : IpAddr) (ios : list RateLimitedIO) : Z :=
  match ios with
  | [] => 0
  | io :: ios => (if from_ip ip io then 1 else 0) + count_from ip ios
  end.

Definition counter (table : SharedRateLimitTable) (ip : IpAddr) : Z := default 0 (table !! ip).

(** ** Lemmas *)

Lemma count_from_nonneg ip ios : 0 <= count_from ip ios.
Proof. induction ios as [|io ios IH]; cbn [count_from]; [done|]. destruct (from_ip ip io); lia. Qed.

Lemma count_from_delete ip ios i io : ios !! i = Some io →
  count_from ip ios = (if from_ip ip io then 1 else 0) + count_from ip (delete i ios).
Proof.
  revert i. induction ios as [|io' ios IH]; intros [|i] Hi; [done..|by injection Hi as ->|].
  cbn in Hi. change (delete (S i) (io' :: ios)) with (io' :: delete i ios). cbn [count_from]. rewrite (IH i Hi). lia.
Qed.

(** The live connections of every address are at most its counter, and the
    counters are positive and within the limit. *)
Definition transport_inv (max_ip_conncur : Z) (st : Transport) : Prop :=
  (∀ ip, count_from ip (tr_live st) <= counter (tr_table st) ip) ∧
  (∀ ip count, tr_table st !! ip = Some count → 1 <= count <= max_ip_conncur).

(** One step under the invariant: it does not panic, keeps the invariant, and a
    counter of two or more goes up by the connections accepted. *)
Definition step_ok (max_ip_conncur : Z) (st : Transport) (ev : transport_event) : Prop :=
  ∃ st' item, transport_step max_ip_conncur st ev = Done (st', item) ∧ transport_inv max_ip_conncur st' ∧
    ∀ ip, 2 <= counter (tr_table st) ip →
      counter (tr_table st') ip
      = counter (tr_table st) ip
        + match item with Some (Ok io) => if from_ip ip io then 1 else 0 | _ => 0 end.

Lemma try_new_spec max_ip_conncur table io : 0 <= max_ip_conncur <= u64_max →
  (∀ ip count, table !! ip = Some count → 1 <= count <= max_ip_conncur) →
  (∃ addr, extract_remote_peer_addr (connect_info io) = Some addr
    ∧ max_ip_conncur <= counter table (sa_ip addr)
    ∧ try_new io max_ip_conncur table = Done (Err QuotaExceeded, table, [Some (sa_ip addr)])) ∨
  (∃ addr, extract_remote_peer_addr (connect_info io) = Some addr
    ∧ counter table (sa_ip addr) < max_ip_conncur
    ∧ try_new io max_ip_conncur table
      = Done (Ok (mkRateLimitedIO io (Some addr)), <[sa_ip addr := counter table (sa_ip addr) + 1]> table, [])) ∨
  (extract_remote_peer_addr (connect_info io) = None
    ∧ try_new io max_ip_conncur table = Done (Ok (mkRateLimitedIO io None), table, [])).
Proof.
  intros Hmax Hcounts. unfold try_new, counter.
  destruct (extract_remote_peer_addr (connect_info io)) as [addr|]; [|by auto].
  case_bool_decide as Hlim; [left; by eauto|].
  right. left. exists addr. split; [done|]. split; [lia|].
  unfold count_connection. destruct (table !! sa_ip addr) as [count|] eqn:Hip; [|done].
  apply Hcounts in Hip. cbn in Hlim. rewrite bool_decide_true by (cbn; lia). done.
Qed.

Lemma step_ok_noop max_ip_conncur st ev item : transport_inv max_ip_conncur st →
  transport_step max_ip_conncur st ev = Done (st, item) → (∀ io, item ≠ Some (Ok io)) →
  step_ok max_ip_conncur st ev.
Proof.
  intros Hinv Hstep Hitem. exists st, item. split; [done|]. split; [done|]. intros ip _.
  destruct item as [[io|e]|]; [by destruct (Hitem io)|lia..].
Qed.

Lemma step_ok_polled max_ip_conncur st polled : 0 <= max_ip_conncur <= u64_max →
  transport_inv max_ip_conncur st → step_ok max_ip_conncur st (Polled polled).
Proof.
  intros Hmax Hinv. pose proof Hinv as [Hlive Hcounts]. destruct st as [table live]. cbn in Hlive, Hcounts.
  destruct polled as [[[io|e]|]|]; [|by eapply step_ok_noop..].
  destruct (try_new_spec max_ip_conncur table io Hmax Hcounts)
    as [(addr&_&_&Hnew)|[(addr&Haddr&Hlt&Hnew)|[Haddr Hnew]]].
  - eapply step_ok_noop; [done|by cbn; rewrite Hnew|done].
  - unfold step_ok. cbn. rewrite Hnew. cbn. do 2 eexists. split; [done|]. split; [split; cbn [tr_table tr_live]|].
    + intros ip. specialize (Hlive ip). cbn [count_from]. unfold from_ip, counter in *. cbn [rl_remote_peer].
      destruct (decide (sa_ip addr = ip)) as [<-|Hne].
      * rewrite bool_decide_true by done. rewrite lookup_insert_eq. cbn [from_option id]. lia.
      * rewrite bool_decide_false by done. rewrite lookup_insert_ne by done. lia.
    + intros ip count. destruct (decide (sa_ip addr = ip)) as [<-|Hne].
      * rewrite lookup_insert_eq. intros [= <-]. pose proof (count_from_nonneg (sa_ip addr) live).
        specialize (Hlive (sa_ip addr)). lia.
      * rewrite lookup_insert_ne by done. apply Hcounts.
    + intros ip _. cbn [tr_table]. unfold from_ip, counter. cbn [rl_remote_peer].
      destruct (decide (sa_ip addr = ip)) as [<-|Hne].
      * rewrite bool_decide_true by done. by rewrite lookup_insert_eq.
      * rewrite bool_decide_false by done. rewrite lookup_insert_ne by done. lia.
  - unfold step_ok. cbn. rewrite Hnew. cbn. do 2 eexists. split; [done|]. split; [split; cbn [tr_table tr_live]; [|done]|].
    + intros ip. specialize (Hlive ip). cbn [count_from]. unfold from_ip. cbn [rl_remote_peer]. lia.
    + intros ip _. unfold from_ip. cbn [rl_remote_peer tr_table]. lia.
Qed.

Lemma step_ok_dropped max_ip_conncur st i :
  transport_inv max_ip_conncur st → step_ok max_ip_conncur st (Dropped i).
Proof.
  intros Hinv. pose proof Hinv as [Hlive Hcounts]. destruct st as [table live]. cbn in Hlive, Hcounts.
  destruct (live !! i) as [io|] eqn:Hio; [|by eapply step_ok_noop; [done|cbn; by rewrite Hio|]].
  assert (∀ ip, (if from_ip ip io then 1 else 0) + count_from ip (delete i live) <= counter table ip) as Hdel.
  { intros ip. rewrite <- count_from_delete by done. apply Hlive. }
  clear Hlive. unfold step_ok. cbn. rewrite Hio. unfold RateLimitedIO_drop.
  unfold from_ip in Hdel. destruct (rl_remote_peer io) as [addr|] eqn:Hpeer.
  2:{ cbn. do 2 eexists. split; [done|]. split; [split; cbn [tr_table tr_live]; [|done]|].
      - intros ip. specialize (Hdel ip). lia.
      - intros ip _. cbn. lia. }
  assert (1 <= counter table (sa_ip addr)) as Hpos.
  { specialize (Hdel (sa_ip addr)). rewrite bool_decide_true in Hdel by done.
    pose proof (count_from_nonneg (sa_ip addr) (delete i live)). lia. }
  unfold counter in Hpos. destruct (table !! sa_ip addr) as [count|] eqn:Hip; cbn in Hpos; [|lia].
  rewrite bool_decide_true by lia. cbn. do 2 eexists. split; [done|]. case_bool_decide as Hz.
  - split; [split; cbn [tr_table tr_live]|].
    + intros ip. specialize (Hdel ip). unfold counter in *. destruct (decide (sa_ip addr = ip)) as [<-|Hne].
      * rewrite bool_decide_true in Hdel by done. rewrite Hip in Hdel. rewrite lookup_delete_eq.
        cbn [from_option id] in *. lia.
      * rewrite bool_decide_false in Hdel by done. rewrite lookup_delete_ne by done. lia.
    + intros ip c [_ Hc]%lookup_delete_Some. by eapply Hcounts.
    + intros ip Htwo. cbn [tr_table] in *. unfold counter in *. destruct (decide (sa_ip addr = ip)) as [<-|Hne].
      * rewrite Hip in Htwo. cbn in Htwo. lia.
      * rewrite lookup_delete_ne by done. lia.
  - split; [split; cbn [tr_table tr_live]; [|done]|].
    + intros ip. specialize (Hdel ip). destruct (bool_decide (sa_ip addr = ip)); lia.
    + intros ip _. cbn. lia.
Qed.

Lemma transport_run_ok max_ip_conncur evs : 0 <= max_ip_conncur <= u64_max → ∀ st, transport_inv max_ip_conncur st →
  ∃ st' accepted, transport_run max_ip_conncur st evs = Done (st', accepted) ∧ transport_inv max_ip_conncur st' ∧
    ∀ ip, 2 <= counter (tr_table st) ip →
      counter (tr_table st') ip = counter (tr_table st) ip + count_from ip accepted.
Proof.
  intros Hmax. induction evs as [|ev evs IH]; intros st Hinv.
  { cbn. do 2 eexists. split; [done|]. split; [done|]. intros ip _. cbn. lia. }
  assert (step_ok max_ip_conncur st ev) as (st1&item&Hstep&Hinv1&Hcount1).
  { destruct ev; [by apply step_ok_polled|by apply step_ok_dropped]. }
  destruct (IH st1 Hinv1) as (st2&accepted&Hrun&Hinv2&Hcount2).
  cbn [transport_run]. rewrite Hstep. cbn. rewrite Hrun. cbn. do 2 eexists. split; [done|]. split; [done|].
  intros ip Htwo. specialize (Hcount1 ip Htwo).
  assert (0 <= match item with Some (Ok io) => if from_ip ip io then 1 else 0 | _ => 0 end) as Hge.
  { destruct item as [[io|e]|]; [|done..]. by destruct (from_ip ip io). }
  rewrite Hcount2 by lia. rewrite Hcount1. destruct item as [[io|e]|]; cbn [count_from]; lia.
Qed.

Lemma transport_inv_new max_ip_conncur : transport_inv max_ip_conncur Transport_new.
Proof.
  split; [intros ip; unfold counter|intros ip count]; cbn [tr_table tr_live Transport_new]; by rewrite lookup_empty.
Qed.

(** ** The connections of a peer *)

(** Where a connection really comes from, if it has an address. *)
Context (peer : IO → option SocketAddr).

(** A connection of a TCP listener in the clear, whose tonic metadata names its
    peer, or of a Unix socket, which has none. (A connection of a TLS listener is
    neither: Tls.v.) *)
Definition plain (io : IO) : Prop :=
  connect_info io = ConnectInfo_tcp (mkTcpConnectInfo (peer io)) ∨
  (connect_info io = ConnectInfo_other ∧ peer io = None).

Definition plain_event (ev : transport_event) : Prop :=
  match ev with Polled (Some (Some (Ok io))) => plain io | _ => True end.

(** How many of the connections come from an address. *)
Definition connections_of (ip : IpAddr) (ios : list RateLimitedIO) : Z :=
  len (filter (λ io, sa_ip <$> peer (rl_wrappee io) = Some ip) ios).

(** The wrapper remembers the peer of a plain connection. *)
Definition remembers (io : RateLimitedIO) : Prop := rl_remote_peer io = peer (rl_wrappee io).

Lemma plain_peer io : plain io → extract_remote_peer_addr (connect_info io) = peer io.
Proof. intros [->|[-> ->]]; done. Qed.

Lemma try_new_remembers io max_ip_conncur table rl table' calls : plain io →
  try_new io max_ip_conncur table = Done (Ok rl, table', calls) → remembers rl.
Proof.
  intros Hplain%plain_peer. unfold try_new, remembers. rewrite Hplain. destruct (peer io) as [addr|] eqn:Hpeer.
  - case_bool_decide; [done|]. destruct (count_connection _ _); [|done]. by intros [= <- _ _].
  - by intros [= <- _ _].
Qed.

Lemma transport_run_remembers max_ip_conncur evs : ∀ st st' accepted, Forall plain_event evs →
  Forall remembers (tr_live st) → transport_run max_ip_conncur st evs = Done (st', accepted) → Forall remembers (tr_live st').
Proof.
  induction evs as [|ev evs IH]; intros st st' accepted; cbn [transport_run]; [by intros _ Hst [= <- _]|].
  intros [Hev Hevs]%Forall_cons Hst. destruct (transport_step max_ip_conncur st ev) as [[st1 item]|] eqn:Hstep; [|done].
  cbn [mbind outcome_bind]. destruct (transport_run max_ip_conncur st1 evs) as [[st2 acc]|] eqn:Hrun; [|done].
  cbn [mbind outcome_bind]. intros [= <- _]. refine (IH st1 st2 acc Hevs _ Hrun). clear Hrun IH Hevs.
  destruct ev as [[[[io|e]|]|]|i]; cbn [transport_step RateLimitedIncoming_poll_next] in Hstep.
  - destruct (try_new io max_ip_conncur (tr_table st)) as [[[[rl|e] table] calls]|] eqn:Hnew; [..|done];
      cbn [mbind outcome_bind] in Hstep; injection Hstep as <- _; [|done].
    constructor; [|done]. by eapply try_new_remembers.
  - by injection Hstep as <- _.
  - by injection Hstep as <- _.
  - by injection Hstep as <- _.
  - destruct (tr_live st !! i) as [io|]; [|by injection Hstep as <- _].
    destruct (RateLimitedIO_drop io (tr_table st)); [|done]. cbn [mbind outcome_bind] in Hstep.
    injection Hstep as <- _. by apply Forall_delete.
Qed.

Lemma count_from_connections ip ios : Forall remembers ios → count_from ip ios = connections_of ip ios.
Proof.
  unfold connections_of. induction 1 as [|io ios Hio _ IH]; [done|]. cbn [count_from]. rewrite filter_cons, IH.
  unfold from_ip. rewrite Hio. destruct (peer (rl_wrappee io)) as [addr|]; cbn [fmap option_fmap option_map].
  - case_bool_decide as Hip; [rewrite decide_True by (by f_equal); unfold len; cbn [length]; lia|].
    rewrite decide_False by (by intros [= ?]). lia.
  - rewrite decide_False by done. lia.
Qed.

(** C20. On listeners that are not TLS the limit of connections per address
    holds: whatever they accept and in whatever order connections end, no step
    panics (neither [expect] of [drop] nor the checked addition fails), and no
    address ever has more live connections than its counter says, nor a counter
    above the limit; a connection from an address is refused exactly when the
    counter of that address has reached the limit, and one without an address is
    never refused. (Connections of TLS listeners are not counted at all:
    [tls_connections_unlimited] in Tls.v; that the counter may stay above the live
    connections for good is [transport_lockout].) *)
Theorem transport_limit_holds max_ip_conncur evs : 0 <= max_ip_conncur <= u64_max → Forall plain_event evs →
  ∃ st accepted, transport_run max_ip_conncur Transport_new evs = Done (st, accepted) ∧
    (∀ ip, connections_of ip (tr_live st) <= counter (tr_table st) ip <= max_ip_conncur) ∧
    (∀ io, plain io → ∃ st' item, transport_step max_ip_conncur st (Polled (Some (Some (Ok io)))) = Done (st', Some item) ∧
      match peer io with
      | Some addr => item = Err QuotaExceeded ↔ counter (tr_table st) (sa_ip addr) = max_ip_conncur
      | None => is_ok item = true
      end).
Proof.
  intros Hmax Hplain. destruct (transport_run_ok max_ip_conncur evs Hmax _ (transport_inv_new _)) as (st&acc&Hrun&[Hl Hc]&_).
  exists st, acc. split; [done|].
  assert (Forall remembers (tr_live st)) as Hrem by (refine (transport_run_remembers _ _ _ _ _ Hplain _ Hrun); by apply (Forall_nil_2 remembers)).
  assert (∀ ip, counter (tr_table st) ip <= max_ip_conncur) as Hle.
  { intros ip. unfold counter. destruct (tr_table st !! ip) as [count|] eqn:Hip; cbn; [by eapply Hc|lia]. }
  split.
  - intros ip. rewrite <- (count_from_connections _ _ Hrem). split; [apply Hl|apply Hle].
  - intros io Hio. apply plain_peer in Hio. cbn [transport_step RateLimitedIncoming_poll_next].
    destruct (try_new_spec max_ip_conncur (tr_table st) io Hmax Hc) as [(addr&Ha&Hlim&->)|[(addr&Ha&Hlim&->)|[Ha ->]]];
      rewrite Hio in Ha; rewrite Ha; cbn [mbind outcome_bind]; do 2 eexists; (split; [done|]).
    + specialize (Hle (sa_ip addr)). split; [lia|done].
    + split; [done|lia].
    + done.
Qed.

(** The places are not given back: once an address has had two connections
    at a time, the listeners accept fewer than [max_ip_conncur - 1] further
    connections from it in all the events that follow, however many of its
    connections end. *)
Theorem transport_lockout max_ip_conncur evs1 evs2 st1 accepted1 st2 accepted2 ip :
  0 <= max_ip_conncur <= u64_max →
  transport_run max_ip_conncur Transport_new evs1 = Done (st1, accepted1) →
  2 <= count_from ip (tr_live st1) →
  transport_run max_ip_conncur st1 evs2 = Done (st2, accepted2) →
  count_from ip accepted2 <= max_ip_conncur - 2.
Proof.
  intros Hmax Hrun1 Htwo Hrun2.
  destruct (transport_run_ok max_ip_conncur evs1 Hmax _ (transport_inv_new _)) as (st1'&acc1'&Hrun1'&Hinv1&_).
  rewrite Hrun1 in Hrun1'. injection Hrun1' as <- <-. destruct (transport_run_ok max_ip_conncur evs2 Hmax _ Hinv1) as (st2'&acc2'&Hrun2'&[_ Hc2]&Hcount).
  rewrite Hrun2 in Hrun2'. injection Hrun2' as <- <-. destruct Hinv1 as [Hl1 _]. specialize (Hl1 ip). specialize (Hcount ip ltac:(lia)).
  pose proof (count_from_nonneg ip accepted2).
  assert (counter (tr_table st2) ip <= max_ip_conncur); [|lia].
  unfold counter in *. destruct (tr_table st2 !! ip) as [count|] eqn:Hip; cbn; [by eapply Hc2|lia].
Qed.
End transport.

(** ** Examples *)

Section demo.
Local Definition demo_addr : SocketAddr := mkSocketAddr (IpAddr_V4 3232235818) 50051.
Local Definition demo_connect_info (tls : bool) : ConnectInfo :=
  (if tls then ConnectInfo_tls else ConnectInfo_tcp) (mkTcpConnectInfo (Some demo_addr)).
Local Definition demo_accept : transport_event := Polled (Some (Some (Ok false))).

(** Two connections accepted and closed at a limit of two: the third is refused. *)
Lemma demo_transport_closed_refused :
  (λ r, match r with Done (st, accepted) => Some (length (tr_live st), tr_table st, length accepted) | _ => None end)
    (transport_run demo_connect_info 2 Transport_new
       [demo_accept; demo_accept; Dropped 0; Dropped 0; demo_accept; demo_accept])
  = Some (0%nat, {[sa_ip demo_addr := 2]}, 2%nat).
Proof. by vm_compute. Qed.

Lemma transport_limit_holds_witness :
  ∃ st accepted, transport_run demo_connect_info 2 Transport_new [demo_accept; demo_accept; demo_accept] = Done (st, accepted)
    ∧ ∀ ip, connections_of (λ _, Some demo_addr) ip (tr_live st) <= counter (tr_table st) ip <= 2.
Proof.
  destruct (transport_limit_holds demo_connect_info (λ _, Some demo_addr) 2 [demo_accept; demo_accept; demo_accept])
    as (st & accepted & Hrun & Hlimit & _).
  - by vm_compute.
  - repeat constructor.
  - exists st, accepted. exact (conj Hrun Hlimit).
Defined.

Local Definition demo_io : RateLimitedIO := mkRateLimitedIO false (Some demo_addr).
Local Definition demo_two : Transport := mkTransport {[sa_ip demo_addr := 2]} [demo_io; demo_io].
Local Definition demo_none : @Transport bool := mkTransport {[sa_ip demo_addr := 2]} [].

Lemma demo_transport_opens :
  transport_run demo_connect_info 2 Transport_new [demo_accept; demo_accept] = Done (demo_two, [demo_io; demo_io]).
Proof. by vm_compute. Qed.

Lemma demo_transport_refuses :
  transport_run demo_connect_info 2 demo_two [Dropped 0; Dropped 0; demo_accept; demo_accept] = Done (demo_none, []).
Proof. by vm_compute. Qed.

Lemma transport_lockout_witness : tr_live demo_none = [] ∧ count_from (sa_ip demo_addr) ([] : list (@RateLimitedIO bool)) <= 2 - 2.
Proof.
  split; [done|].
  apply (transport_lockout demo_connect_info 2 _ _ _ _ _ _ (sa_ip demo_addr) ltac:(by vm_compute)
           demo_transport_opens ltac:(by vm_compute) demo_transport_refuses).
Defined.
End demo.
