(* ===== verification/Window.v ===== *)
(** * yellowstone-grpc-tools: server/window.rs

    The token bucket behind the rate limits, on doubles as the code has it: the
    refill by the elapsed time, the check that takes a token, the pruning of full
    buckets. An instant is a number of nanoseconds of the monotonic clock. *)

From Stdlib Require Import Floats.SpecFloat.
From S2P Require Import Prelude F64.

Set Default Goal Selector "!".

Local Open Scope Z_scope.

Record WindowDecision := mkWindowDecision {
  wd_allowed : bool;
  wd_remaining : Z;
  wd_retry_after : Z
}.

Record TokenState := mkTokenState {
  ts_tokens : spec_float;
  ts_last_refill : Z
}.

Record TokenBucketRateLimiter := mkTokenBucketRateLimiter {
  tb_burst_capacity : spec_float;
  tb_refill_per_sec : spec_float;
  tb_window : Z;
  tb_state : option TokenState
}.

Definition with_tb_state (state : option TokenState) (l : TokenBucketRateLimiter) : TokenBucketRateLimiter :=
  mkTokenBucketRateLimiter (tb_burst_capacity l) (tb_refill_per_sec l) (tb_window l) state.

Definition TokenBucketRateLimiter_new (max_hits window : Z) : TokenBucketRateLimiter :=
  let burst_capacity := usize_as_f64 max_hits in
  let window_secs := f64_max (as_secs_f64 window) F64_EPSILON in
  let refill_per_sec := f64_div burst_capacity window_secs in
  mkTokenBucketRateLimiter burst_capacity refill_per_sec window None.

Definition max_hits (l : TokenBucketRateLimiter) : Z := f64_as_u64 (tb_burst_capacity l).

Definition bucket_window (l : TokenBucketRateLimiter) : Z := tb_window l.

Definition bucket_count (l : TokenBucketRateLimiter) : Z := 1.

Definition key_count (l : TokenBucketRateLimiter) : Z := if tb_state l is Some _ then 1 else 0.

Definition refill_state (state : TokenState) (now : Z) (burst_capacity refill_per_sec : spec_float) : TokenState :=
  let elapsed := as_secs_f64 (saturating_duration_since now (ts_last_refill state)) in
  if SFltb (S754_zero false) elapsed then
    mkTokenState (f64_min (f64_add (ts_tokens state) (f64_mul elapsed refill_per_sec)) burst_capacity) now
  else state.

Definition retry_after (tokens refill_per_sec : spec_float) : outcome Z :=
  if SFleb refill_per_sec (S754_zero false) then Done DURATION_MAX
  else
    let missing := f64_max (f64_sub f64_one tokens) (S754_zero false) in
    from_secs_f64 (f64_max (f64_div missing refill_per_sec) (S754_zero false)).

(** [check_at]. The [floor] before [as u64], which truncates, changes nothing. *)
Definition check_at (l : TokenBucketRateLimiter) (now : Z) : outcome (WindowDecision * TokenBucketRateLimiter) :=
  if SFleb (tb_burst_capacity l) (S754_zero false) then
    Done (mkWindowDecision false 0 (tb_window l), l)
  else
    let state := default (mkTokenState (tb_burst_capacity l) now) (tb_state l) in
    let state := refill_state state now (tb_burst_capacity l) (tb_refill_per_sec l) in
    if SFleb f64_one (ts_tokens state) then
      let tokens := f64_sub (ts_tokens state) f64_one in
      Done (mkWindowDecision true (f64_as_u64 tokens) 0,
            with_tb_state (Some (mkTokenState tokens (ts_last_refill state))) l)
    else
      retry_after ← retry_after (ts_tokens state) (tb_refill_per_sec l);
      Done (mkWindowDecision false 0 retry_after, with_tb_state (Some state) l).

Definition prune_at (l : TokenBucketRateLimiter) (now : Z) : TokenBucketRateLimiter :=
  match tb_state l with
  | Some state =>
      let state := refill_state state now (tb_burst_capacity l) (tb_refill_per_sec l) in
      if SFleb (tb_burst_capacity l) (f64_add (ts_tokens state) F64_EPSILON)
      then with_tb_state None l
      else with_tb_state (Some state) l
  | None => l
  end.

(** The uses of a limiter, with the decisions of its checks. *)
Inductive bucket_op :=
| Check (now : Z)
| Prune (now : Z).

Definition op_instant (op : bucket_op) : Z :=
  match op with Check now => now | Prune now => now end.

Fixpoint bucket_run (l : TokenBucketRateLimiter) (ops : list bucket_op) :
    outcome (list WindowDecision * TokenBucketRateLimiter) :=
  match ops with
  | [] => Done ([], l)
  | Check now :: ops =>
      '(decision, l) ← check_at l now;
      '(decisions, l) ← bucket_run l ops;
      Done (decision :: decisions, l)
  | Prune now :: ops => bucket_run (prune_at l now) ops
  end.

(** ** The invariant *)

(** What the clock can show: seconds in a signed 64-bit word. *)
Definition instant (now : Z) : Prop := 0 <= now < 2 ^ 63 * NANOS_PER_SEC.

Definition token_state_ok (n : Z) (state : TokenState) : Prop :=
  f64_up_to n (ts_tokens state) ∧ instant (ts_last_refill state).

Definition limiter_ok (n window : Z) (l : TokenBucketRateLimiter) : Prop :=
  l = with_tb_state (tb_state l) (TokenBucketRateLimiter_new n window) ∧
  (∀ state, tb_state l = Some state → token_state_ok n state).

(** The events a limiter would admit at [now]. *)
Definition available (n : Z) (l : TokenBucketRateLimiter) (now : Z) : Z :=
  match tb_state l with
  | Some state => f64_as_u64 (ts_tokens (refill_state state now (tb_burst_capacity l) (tb_refill_per_sec l)))
  | None => n
  end.

Section limiter.
Context (n window : Z) (Hn : 0 < n < 2 ^ 53) (Hwindow : 0 <= window < 2 ^ 58 * NANOS_PER_SEC).

Local Abbreviation burst := (usize_as_f64 n).
Local Abbreviation refill := (tb_refill_per_sec (TokenBucketRateLimiter_new n window)).

Lemma burst_positive : SFleb burst (S754_zero false) = false.
Proof. by rewrite usize_as_f64_exact. Qed.

(** The refill rate is a positive number: at least [2^-60], below [2^106]. *)
Lemma refill_range : f64_above (-60) refill ∧ f64_below 106 refill.
Proof.
  cbn [tb_refill_per_sec TokenBucketRateLimiter_new].
  destruct (f64_max_epsilon 61 (as_secs_f64 window)) as [Hb Ha]; [lia|by apply (as_secs_f64_below 58)|].
  pose proof (log2_53 n Hn). rewrite usize_as_f64_exact by lia. pose proof (f64_exact_mag n 0 Hn) as Hmag.
  pose proof (f64_bounded_exact n 0 Hn ltac:(lia)) as Hbd. unfold f64_exact.
  split.
  - apply (f64_div_above 1 53 61 (-51)); [..|lia|lia]; try done; (split; [done|]); lia.
  - apply (f64_div_below 53 (-51)); [split; [done|lia]|done|lia].
Qed.

Lemma refill_positive : SFleb refill (S754_zero false) = false.
Proof. destruct refill_range as [Ha _]. by destruct refill as [| | |[]]. Qed.

Lemma refill_state_ok state now : token_state_ok n state → instant now →
  token_state_ok n (refill_state state now burst refill).
Proof.
  intros [Ht Hl] Hnow. unfold refill_state. destruct (SFltb _ _); [|done]. split; [|done].
  apply f64_up_to_min; [done|]. apply f64_add_nonneg; [apply Ht|].
  apply (f64_mul_nonneg 67 106); [|apply refill_range].
  apply (as_secs_f64_below 64); [lia|]. unfold saturating_duration_since, instant in *. unfold NANOS_PER_SEC in *. lia.
Qed.

Lemma refill_state_idem state now :
  refill_state (refill_state state now burst refill) now burst refill = refill_state state now burst refill.
Proof.
  unfold refill_state at 2 3. destruct (SFltb _ _) eqn:Helapsed.
  - unfold refill_state. cbn [ts_last_refill]. unfold saturating_duration_since.
    by rewrite Z.sub_diag, Z.max_id, as_secs_f64_zero.
  - unfold refill_state. by rewrite Helapsed.
Qed.

(** The tokens do not decide how much time has passed. *)
Lemma refill_state_tokens tokens state now :
  refill_state state now burst refill = state →
  refill_state (mkTokenState tokens (ts_last_refill state)) now burst refill
  = mkTokenState tokens (ts_last_refill state).
Proof.
  destruct state as [tokens' last]. unfold refill_state. cbn [ts_last_refill ts_tokens].
  destruct (SFltb _ _) eqn:Helapsed; [|done]. intros [= _ ->]. exfalso.
  unfold saturating_duration_since in Helapsed. by rewrite Z.sub_diag, Z.max_id, as_secs_f64_zero in Helapsed.
Qed.

Lemma retry_after_total t : f64_up_to n t → f64_as_u64 t < 1 → ∃ d, retry_after t refill = Done d.
Proof.
  intros Ht Hlt. unfold retry_after. rewrite refill_positive. apply from_secs_f64_below, f64_max_zero_below.
  apply (f64_div_below 1 (-60)); [by eapply f64_up_to_missing|apply refill_range|lia].
Qed.

Lemma limiter_ok_new : limiter_ok n window (TokenBucketRateLimiter_new n window).
Proof. by split. Qed.

(** One check: the event is admitted exactly when one is available, and takes
    it; no check panics. *)
Lemma check_at_spec l now : limiter_ok n window l → instant now →
  ∃ d l', check_at l now = Done (d, l') ∧ limiter_ok n window l' ∧ 0 <= available n l now <= n ∧
    wd_allowed d = bool_decide (1 <= available n l now) ∧
    wd_remaining d = Z.max 0 (available n l now - 1) ∧
    available n l' now = Z.max 0 (available n l now - 1).
Proof.
  intros [Hl Hstate] Hnow. set (state0 := default (mkTokenState burst now) (tb_state l)).
  assert (token_state_ok n state0) as Hok0.
  { unfold state0. destruct (tb_state l) as [state|]; [by apply Hstate|]. split; [by apply f64_up_to_full|done]. }
  set (state := refill_state state0 now burst refill).
  assert (token_state_ok n state) as [Ht Hlast] by (by apply refill_state_ok).
  assert (available n l now = f64_as_u64 (ts_tokens state)) as Havail.
  { unfold available, state, state0. destruct (tb_state l) as [s|]; cbn [default from_option id]; [by rewrite Hl|].
    unfold refill_state. cbn [ts_last_refill]. unfold saturating_duration_since.
    rewrite Z.sub_diag, Z.max_id, as_secs_f64_zero. cbn [ts_tokens SFltb SFcompare].
    symmetry. rewrite usize_as_f64_exact, f64_as_u64_exact by (pose proof (log2_53 n Hn); lia). apply Z.shiftr_0_r. }
  pose proof (f64_up_to_floor n Hn _ Ht) as Hfloor. unfold check_at.
  replace (tb_burst_capacity l) with burst by (by rewrite Hl). rewrite burst_positive. fold state0.
  replace (tb_refill_per_sec l) with refill by (by rewrite Hl). fold state. fold f64_one.
  rewrite (f64_up_to_one_le n Hn _ Ht), Havail.
  assert (refill_state state now burst refill = state) as Hidem by apply refill_state_idem.
  case_bool_decide as Hone.
  - destruct (f64_up_to_take n Hn _ Ht Hone) as [Htake Hless].
    do 2 eexists. split; [done|]. split; [|split; [done|]].
    { split; [by rewrite Hl|]. intros s [= <-]. by split. }
    split; [done|]. cbn [wd_remaining]. rewrite Hless. split; [lia|].
    unfold available. cbn [with_tb_state tb_state tb_burst_capacity tb_refill_per_sec].
    replace (tb_burst_capacity l) with burst by (by rewrite Hl). replace (tb_refill_per_sec l) with refill by (by rewrite Hl).
    rewrite refill_state_tokens by done. cbn [ts_tokens]. rewrite Hless. lia.
  - destruct (retry_after_total _ Ht ltac:(lia)) as [d ->]. cbn [mbind outcome_bind].
    do 2 eexists. split; [done|]. split; [|split; [done|]].
    { split; [by rewrite Hl|]. intros s [= <-]. by split. }
    split; [done|]. cbn [wd_remaining]. split; [lia|].
    unfold available. cbn [with_tb_state tb_state tb_burst_capacity tb_refill_per_sec].
    replace (tb_burst_capacity l) with burst by (by rewrite Hl). replace (tb_refill_per_sec l) with refill by (by rewrite Hl).
    rewrite Hidem. lia.
Qed.

Lemma prune_at_ok l now : limiter_ok n window l → instant now → limiter_ok n window (prune_at l now).
Proof.
  intros [Hl Hstate] Hnow. unfold prune_at. destruct (tb_state l) as [state|] eqn:Hs; [|split; by rewrite Hs].
  replace (tb_burst_capacity l) with burst by (by rewrite Hl). replace (tb_refill_per_sec l) with refill by (by rewrite Hl).
  destruct (SFleb _ _); (split; [by rewrite Hl|]); [done|]. intros s [= <-]. by apply refill_state_ok; [apply Hstate|].
Qed.

Lemma bucket_run_ok ops l : limiter_ok n window l → Forall (λ op, instant (op_instant op)) ops →
  ∃ decisions l', bucket_run l ops = Done (decisions, l') ∧ limiter_ok n window l' ∧
    Forall (λ d, 0 <= wd_remaining d < n) decisions.
Proof.
  intros Hl Hops. revert l Hl. induction Hops as [|[now|now] ops Hnow Hops IH]; intros l Hl; cbn [bucket_run].
  - eauto 10.
  - destruct (check_at_spec l now Hl Hnow) as (d&l'&Hcheck&Hl'&Ha&_&Hrem&_). rewrite Hcheck. cbn.
    destruct (IH l' Hl') as (ds&l''&->&Hl''&Hds). cbn. do 2 eexists. split; [done|]. split; [done|].
    constructor; [lia|done].
  - by apply IH, prune_at_ok.
Qed.

(** Checks at one instant admit what is available, one by one. *)
Lemma burst_run k now l : limiter_ok n window l → instant now →
  ∃ decisions l', bucket_run l (replicate k (Check now)) = Done (decisions, l') ∧
    (λ d, (wd_allowed d, wd_remaining d)) <$> decisions
    = (λ i, let left := available n l now - Z.of_nat i in (bool_decide (0 < left), Z.max 0 (left - 1))) <$> seq 0 k.
Proof.
  revert l. induction k as [|k IH]; intros l Hl Hnow; [cbn; by eauto|].
  destruct (check_at_spec l now Hl Hnow) as (d&l'&Hcheck&Hl'&Ha&Hallowed&Hrem&Hnext).
  destruct (IH l' Hl' Hnow) as (ds&l''&Hrun&Hds). cbn [replicate bucket_run]. rewrite Hcheck. cbn [mbind outcome_bind].
  rewrite Hrun. cbn [mbind outcome_bind]. do 2 eexists. split; [done|].
  change (seq 0 (S k)) with (0%nat :: seq 1 k). rewrite !fmap_cons, Hds, <- fmap_S_seq, <- list_fmap_compose.
  f_equal.
  - rewrite Hallowed, Hrem. cbv zeta. rewrite Z.sub_0_r. f_equal. apply bool_decide_ext. lia.
  - rewrite Hnext. apply list_fmap_ext. intros _ i _. cbn. f_equal; [apply bool_decide_ext|]; lia.
Qed.

(** In every use of a limiter (checks and prunings at any instants of the
    clock, even going backwards) no operation panics, in particular not the
    conversion of the retry delay, and its tokens stay a number between zero and
    the burst capacity: no NaN, no infinity, whatever is rounded. *)
Theorem token_bucket_invariant ops : Forall (λ op, instant (op_instant op)) ops →
  ∃ decisions l, bucket_run (TokenBucketRateLimiter_new n window) ops = Done (decisions, l) ∧
    (∀ state, tb_state l = Some state →
      f64_below 53 (ts_tokens state) ∧ SFleb (ts_tokens state) (tb_burst_capacity l) = true) ∧
    Forall (λ d, 0 <= wd_remaining d < n) decisions.
Proof.
  intros Hops. destruct (bucket_run_ok ops _ limiter_ok_new Hops) as (ds&l&Hrun&[Hl Hok]&Hds).
  exists ds, l. split; [done|]. split; [|done]. intros state Hs. destruct (Hok state Hs) as [Ht _].
  split; [by eapply f64_up_to_below|]. rewrite Hl. apply Ht.
Qed.

(** C23. A burst: whatever was done with the limiter before, checks at one
    instant are admitted as long as whole tokens are left, each reporting how
    many remain, and then denied; at most [max_hits] are admitted, and a fresh
    bucket admits exactly [max_hits]. *)
Theorem token_bucket_burst ops decisions0 l now k : Forall (λ op, instant (op_instant op)) ops →
  bucket_run (TokenBucketRateLimiter_new n window) ops = Done (decisions0, l) → instant now →
  ∃ decisions l', bucket_run l (replicate k (Check now)) = Done (decisions, l') ∧
    (λ d, (wd_allowed d, wd_remaining d)) <$> decisions
    = (λ i, let left := available n l now - Z.of_nat i in (bool_decide (0 < left), Z.max 0 (left - 1))) <$> seq 0 k
    ∧ 0 <= available n l now <= n ∧ (ops = [] → available n l now = n).
Proof.
  intros Hops Hrun Hnow. destruct (bucket_run_ok ops _ limiter_ok_new Hops) as (ds&l0&Hrun0&Hok&_).
  rewrite Hrun in Hrun0. injection Hrun0 as <- <-.
  destruct (burst_run k now l Hok Hnow) as (ds'&l'&Hburst&Hds). exists ds', l'. split; [done|]. split; [done|].
  split; [by destruct (check_at_spec l now Hok Hnow) as (?&?&_&_&?&_)|].
  intros ->. injection Hrun as _ <-. done.
Qed.
End limiter.

(** A limiter of no hits denies everything. *)
Lemma no_hits_denied window now :
  check_at (TokenBucketRateLimiter_new 0 window) now
  = Done (mkWindowDecision false 0 window, TokenBucketRateLimiter_new 0 window).
Proof. done. Qed.

(** ** Examples *)

Section demo.
Local Definition demo_secs (s : Z) : Z := s * NANOS_PER_SEC.

(** Ten hits in ten seconds: after a burst, one more each second. *)
Lemma demo_recovers :
  (λ r, match r with Done (ds, _) => (λ d, (wd_allowed d, wd_retry_after d)) <$> ds | _ => [] end)
    (bucket_run (TokenBucketRateLimiter_new 10 (demo_secs 10))
       (replicate 11 (Check 0) ++ [Check (demo_secs 1); Check (demo_secs 1)]))
  = replicate 10 (true, 0) ++ [(false, demo_secs 1); (true, 0); (false, demo_secs 1)].
Proof. by vm_compute. Qed.

Lemma demo_prune :
  (λ r, match r with Done (ds, l) => Some (length ds, key_count l) | _ => None end)
    (bucket_run (TokenBucketRateLimiter_new 2 (demo_secs 4)) [Check 0; Prune (demo_secs 5)]) = Some (1%nat, 0).
Proof. by vm_compute. Qed.

Lemma token_bucket_invariant_witness : ∃ decisions l,
  bucket_run (TokenBucketRateLimiter_new 2 (demo_secs 10)) [Check 0; Check 5; Prune 9; Check 7] = Done (decisions, l) ∧
    (∀ state, tb_state l = Some state →
      f64_below 53 (ts_tokens state) ∧ SFleb (ts_tokens state) (tb_burst_capacity l) = true) ∧
    Forall (λ d, 0 <= wd_remaining d < 2) decisions.
Proof. apply (token_bucket_invariant 2 (demo_secs 10)); [lia|vm_compute; done|]. by repeat constructor. Defined.

Lemma token_bucket_burst_witness : ∃ decisions l',
  bucket_run (TokenBucketRateLimiter_new 2 (demo_secs 10)) (replicate 3 (Check 4)) = Done (decisions, l') ∧
  (λ d, (wd_allowed d, wd_remaining d)) <$> decisions = [(true, 1); (true, 0); (false, 0)].
Proof.
  destruct (token_bucket_burst 2 (demo_secs 10) ltac:(lia) ltac:(by vm_compute) [] [] _ 4 3 (Forall_nil_2 _) eq_refl
    ltac:(by vm_compute)) as (ds&l'&Hrun&Hds&_). exists ds, l'. by split.
Defined.
End demo.
