(* ===== verification/Auth.v ===== *)
(** * auth.rs, cache_ext.rs: who a request belongs to

    The repositories that resolve a request to its [SubscriptionInfo]: by host
    and token in memory, by the headers of a trusted proxy, or by asking an HTTP
    endpoint behind a moka cache. The http crate is the class [Http] (header maps
    and values) with the laws used; the answers of the endpoint and of the cache
    are parameters. *)

From S2P Require Import Prelude.

Set Default Goal Selector "!".

Local Open Scope Z_scope.

(** ** The http crate *)

Class Http := {
  HeaderMap : Type;
  HeaderValue : Type;
  headers_new : HeaderMap;
  headers_get : HeaderMap → string → option HeaderValue;
  headers_insert : string → HeaderValue → HeaderMap → HeaderMap;
  (** [HeaderValue::to_str]: only for visible ASCII. *)
  header_to_str : HeaderValue → option string;
  (** [HeaderName::from_str] is [Ok]. *)
  header_name_valid : string → bool
}.

Definition NUL : Ascii.ascii := Ascii.zero.

Fixpoint no_nul (s : string) : bool :=
  match s with
  | EmptyString => true
  | String c s => negb (bool_decide (c = NUL)) && no_nul s
  end.

Class HttpLaws (H : Http) : Prop := {
  headers_get_valid h name value : headers_get h name = Some value → header_name_valid name = true;
  header_name_no_nul name : header_name_valid name = true → no_nul name = true;
  header_to_str_no_nul value s : header_to_str value = Some s → no_nul s = true;
  header_to_str_inj v1 v2 s : header_to_str v1 = Some s → header_to_str v2 = Some s → v1 = v2
}.

(** [http::request::Parts], as far as it is read. *)
Record Parts {H : Http} := mkParts {
  parts_host : option string;
  parts_headers : HeaderMap
}.
Arguments mkParts {H} parts_host parts_headers.
Arguments parts_host {H} p.
Arguments parts_headers {H} p.

(** ** Subscriptions *)

Record SubscriptionKey := mkSubscriptionKey {
  key_token : string;
  key_host : string
}.

Record SubscriptionRateLimits := mkSubscriptionRateLimits {
  rate_default : Z;
  rate_methods : gmap string Z
}.

Definition default_rate_limit : Z := 1000.

Definition SubscriptionRateLimits_default : SubscriptionRateLimits :=
  mkSubscriptionRateLimits default_rate_limit (list_to_map [
    ("/geyser.Geyser/Subscribe"%string, 1000);
    ("/geyser.Geyser/SubscribeReplayInfo"%string, 1000);
    ("/geyser.Geyser/Ping"%string, 1000);
    ("/geyser.Geyser/GetLatestBlockhash"%string, 1000);
    ("/geyser.Geyser/GetBlockHeight"%string, 1000);
    ("/geyser.Geyser/GetSlot"%string, 1000);
    ("/geyser.Geyser/IsBlockhashValid"%string, 1000);
    ("/geyser.Geyser/GetVersion"%string, 1000)]).

Record SubscriptionInfo := mkSubscriptionInfo {
  si_subscription_id : string;
  si_ratelimits : option SubscriptionRateLimits
}.

(** ** The repository in memory *)

Definition ConstantSubscriptionRepository : Type := gmap string (gmap string SubscriptionInfo).

(** [nested.entry(host).or_default().insert(token, info)]. *)
Definition nested_insert (nested : gmap string (gmap string SubscriptionInfo)) (entry : SubscriptionKey * SubscriptionInfo) :
    gmap string (gmap string SubscriptionInfo) :=
  let '(key, info) := entry in
  <[key_host key := <[key_token key := info]> (default ∅ (nested !! key_host key))]> nested.

Definition create_from_iter (it : list (SubscriptionKey * SubscriptionInfo)) : ConstantSubscriptionRepository :=
  foldl nested_insert ∅ it.

Definition repository_get (repo : ConstantSubscriptionRepository) (host token : string) : option SubscriptionInfo :=
  let hashmap : gmap string (gmap string SubscriptionInfo) := repo in
  by_token ← hashmap !! host; by_token !! token.

Record TokenSubscriptionInfoMapping := mkTokenSubscriptionInfoMapping {
  map_token : string;
  map_host : string;
  map_subscription_info : SubscriptionInfo
}.

(** [FileBackedAuthConfig::build_repository] on what the file deserialises to. *)
Definition file_backed_repository {E} (mappings : result E (list TokenSubscriptionInfoMapping)) :
    result E ConstantSubscriptionRepository :=
  match mappings with
  | Ok mappings =>
      Ok (create_from_iter ((λ mapping, (mkSubscriptionKey (map_token mapping) (map_host mapping),
                                         map_subscription_info mapping)) <$> mappings))
  | Err e => Err e
  end.

Definition constant_authenticate {H : Http} (repo : ConstantSubscriptionRepository) (parts : Parts) : option SubscriptionInfo :=
  let host := parts_host parts in
  let token := headers_get (parts_headers parts) "x-token" ≫= header_to_str in
  match host, token with
  | Some host, Some token => repository_get repo host token
  | _, _ => None
  end.

(** ** The trusted proxy *)

Definition X_SUBSCRIPTION_ID_HEADER : string := "x-subscription-id".

Definition TrustedMetadataAuthenticator_new (default_ratelimits : list (string * Z)) : SubscriptionRateLimits :=
  mkSubscriptionRateLimits (rate_default SubscriptionRateLimits_default)
    (foldl (λ m '(method, limit), <[method := limit]> m) ∅ default_ratelimits).

Definition trusted_authenticate {H : Http} (default_ratelimits : SubscriptionRateLimits) (parts : Parts) : option SubscriptionInfo :=
  let subscription_id := headers_get (parts_headers parts) X_SUBSCRIPTION_ID_HEADER ≫= header_to_str in
  option_map (λ subscription_id, mkSubscriptionInfo subscription_id (Some default_ratelimits)) subscription_id.

(** ** The HTTP endpoint *)

(** The request to the endpoint: its URL with [host=..] appended, and headers. *)
Record UpstreamRequest {H : Http} := mkUpstreamRequest {
  up_url : string;
  up_host : string;
  up_headers : HeaderMap
}.

Record HttpSubscriptionRepository := mkHttpSubscriptionRepository {
  hsr_url : string;
  hsr_cached : bool;
  hsr_forwarded_headers : list string
}.

Definition SEPARATOR : string := String NUL EmptyString.

Section http_repository.
Context {H : Http}.

(** The body of the loop over [forwarded_headers]. *)
Definition forward_header (headers : HeaderMap) (acc : list string * HeaderMap) (header_to_forward : string) :
    outcome (list string * HeaderMap) :=
  let '(caching_key_parts, header_map) := acc in
  match headers_get headers header_to_forward with
  | Some value =>
      match header_to_str value with
      | Some s =>
          if header_name_valid header_to_forward then
            Done (caching_key_parts ++ [header_to_forward; s], headers_insert header_to_forward value header_map)
          else Panic
      | None => Panic
      end
  | None => Done acc
  end.

(** The first half of [get_subscription_info]: the caching key and the request. *)
Definition subscription_request (repo : HttpSubscriptionRepository) (host : string) (headers : HeaderMap) :
    outcome (string * UpstreamRequest) :=
  '(caching_key_parts, header_map) ← foldM (forward_header headers) ([host], headers_new) (hsr_forwarded_headers repo);
  Done (String.concat SEPARATOR caching_key_parts, mkUpstreamRequest H (hsr_url repo) host header_map).

(** What the endpoint answers, after [error_for_status]: a deserialised body, or
    an error with its status if it has one. *)
Inductive UpstreamResponse (E : Type) :=
| Response_ok (json : result E SubscriptionInfo)
| Response_err (e : E) (status : option Z).
Arguments Response_ok {E} json.
Arguments Response_err {E} e status.

Definition handle_response {E} (response : UpstreamResponse E) : result E (option SubscriptionInfo) :=
  match response with
  | Response_ok (Ok subscription_info) => Ok (Some subscription_info)
  | Response_ok (Err e) => Err e
  | Response_err e status => if bool_decide (status = Some 404) then Ok None else Err e
  end.

(** ** cache_ext.rs *)

(** What one call of moka's [optionally_get_with] can be for its caller: the
    value was found, or another caller's initialiser gave it; the caller's own
    initialiser ran; or it waited for another one, which gave nothing. *)
Inductive moka_outcome (E V : Type) :=
| Moka_found (v : V)
| Moka_ran (r : result E (option V))
| Moka_joined_none.
Arguments Moka_found {E V} v.
Arguments Moka_ran {E V} r.
Arguments Moka_joined_none {E V}.

Fixpoint cache_loop {E V} (attempts_left : nat) (calls : nat → moka_outcome E V) (loop_iteration : nat) : result E (option V) :=
  match calls loop_iteration with
  | Moka_found v => Ok (Some v)
  | Moka_ran (Ok (Some v)) => Ok (Some v)
  | Moka_ran (Err error) => Err error
  | Moka_ran (Ok None) => Ok None
  | Moka_joined_none =>
      match attempts_left with
      | O => Ok None
      | S attempts_left => cache_loop attempts_left calls (S loop_iteration)
      end
  end.

(** [calls] are the outcomes of the successive iterations, from zero. *)
Definition try_optionally_get_with {E V} (max_loop_iterations : nat) (calls : nat → moka_outcome E V) : result E (option V) :=
  let max_loop_iterations := Nat.max max_loop_iterations 1 in
  cache_loop (pred max_loop_iterations) calls 0.

Definition MAX_ATTEMPTS : nat := 10.

(** [HttpSubscriptionRepository::authenticate]: [fetch] is the endpoint. *)
Definition http_authenticate {E} (repo : HttpSubscriptionRepository) (fetch : UpstreamRequest → UpstreamResponse E)
    (calls : nat → moka_outcome E SubscriptionInfo) (parts : Parts) : outcome (result E (option SubscriptionInfo)) :=
  match parts_host parts with
  | None => Done (Ok None)
  | Some host =>
      '(_, request) ← subscription_request repo host (parts_headers parts);
      Done (if hsr_cached repo then try_optionally_get_with MAX_ATTEMPTS calls
            else handle_response (fetch request))
  end.
End http_repository.
Arguments Response_ok {E} json.
Arguments Response_err {E} e status.
Arguments Moka_found {E V} v.
Arguments Moka_ran {E V} r.
Arguments Moka_joined_none {E V}.

(** ** Lemmas *)

(** The repository in memory answers with the last entry of a host and token. *)
Lemma create_from_iter_snoc it key info host token :
  repository_get (create_from_iter (it ++ [(key, info)])) host token
  = if bool_decide (key_host key = host ∧ key_token key = token) then Some info
    else repository_get (create_from_iter it) host token.
Proof.
  unfold create_from_iter. rewrite foldl_app. cbn [foldl nested_insert]. set (nested := foldl nested_insert ∅ it).
  unfold repository_get. destruct (decide (key_host key = host)) as [<-|Hh].
  - rewrite lookup_insert_eq. cbn [mbind option_bind]. destruct (decide (key_token key = token)) as [<-|Ht].
    + by rewrite lookup_insert_eq, bool_decide_true.
    + rewrite lookup_insert_ne, bool_decide_false by naive_solver.
      by destruct (nested !! key_host key).
  - rewrite lookup_insert_ne, bool_decide_false by naive_solver. done.
Qed.

Lemma no_nul_split s1 s2 r1 r2 : no_nul s1 = true → no_nul s2 = true →
  (s1 ++ String NUL r1 = s2 ++ String NUL r2)%string → s1 = s2 ∧ r1 = r2.
Proof.
  revert s2. induction s1 as [|c1 s1 IH]; intros [|c2 s2] H1 H2; cbn in *.
  - by intros [= ->].
  - intros [= <- _]. done.
  - intros [= -> _]. done.
  - apply andb_prop in H1 as [_ H1], H2 as [_ H2]. intros [= -> Heq].
    by destruct (IH s2 H1 H2 Heq) as [-> ->].
Qed.

Lemma no_nul_absurd s1 s2 r : no_nul s1 = true → s1 ≠ (s2 ++ String NUL r)%string.
Proof.
  revert s1. induction s2 as [|c s2 IH]; intros [|c1 s1] H1; cbn in *; try done.
  - intros [= -> _]. done.
  - apply andb_prop in H1 as [_ H1]. intros [= -> Heq]. by eapply IH.
Qed.

(** Joining is injective on non-empty lists of parts without NUL. *)
Lemma join_inj x1 l1 x2 l2 : Forall (λ s, no_nul s = true) (x1 :: l1) → Forall (λ s, no_nul s = true) (x2 :: l2) →
  String.concat SEPARATOR (x1 :: l1) = String.concat SEPARATOR (x2 :: l2) → x1 :: l1 = x2 :: l2.
Proof.
  revert x1 x2 l2. induction l1 as [|y1 l1 IH]; intros x1 x2 [|y2 l2] [H1 H1']%Forall_cons [H2 H2']%Forall_cons Heq.
  - cbn in Heq. by subst.
  - change (x1 = (x2 ++ String NUL (String.concat SEPARATOR (y2 :: l2)))%string) in Heq. by apply no_nul_absurd in Heq.
  - change ((x1 ++ String NUL (String.concat SEPARATOR (y1 :: l1)))%string = x2) in Heq. symmetry in Heq.
    by apply no_nul_absurd in Heq.
  - change ((x1 ++ String NUL (String.concat SEPARATOR (y1 :: l1)))%string
      = (x2 ++ String NUL (String.concat SEPARATOR (y2 :: l2)))%string) in Heq.
    apply no_nul_split in Heq as [-> Heq]; [|done..]. f_equal. by apply IH.
Qed.

Section laws.
Context {H : Http} {HL : HttpLaws H}.

(** The headers a request is forwarded with. *)
Definition selected (names : list string) (headers : HeaderMap) : list (string * HeaderValue) :=
  omap (λ name, option_map (pair name) (headers_get headers name)) names.

Definition key_parts (sel : list (string * HeaderValue)) : list string :=
  flat_map (λ '(name, value), [name; default ""%string (header_to_str value)]) sel.

Definition header_map_of (m : HeaderMap) (sel : list (string * HeaderValue)) : HeaderMap :=
  foldl (λ m '(name, value), headers_insert name value m) m sel.

Lemma selected_cons name names headers :
  selected (name :: names) headers
  = match headers_get headers name with
    | Some value => (name, value) :: selected names headers
    | None => selected names headers
    end.
Proof. unfold selected. cbn. by destruct (headers_get headers name). Qed.

Lemma forward_headers_spec headers names parts m :
  foldM (forward_header headers) (parts, m) names
  = if forallb (λ '(_, value), bool_decide (is_Some (header_to_str value))) (selected names headers)
    then Done (parts ++ key_parts (selected names headers), header_map_of m (selected names headers))
    else Panic.
Proof using HL.
  revert parts m. induction names as [|name names IH]; intros parts m; [cbn; by rewrite app_nil_r|].
  rewrite selected_cons. change (foldM (forward_header headers) (parts, m) (name :: names))
    with (forward_header headers (parts, m) name ≫= λ acc, foldM (forward_header headers) acc names).
  cbn [forward_header]. destruct (headers_get headers name) as [value|] eqn:Hget; [|apply IH].
  cbn [forallb key_parts flat_map header_map_of foldl].
  destruct (header_to_str value) as [s|] eqn:Hs; cbn [default from_option id].
  - rewrite (headers_get_valid _ _ _ Hget), bool_decide_true by done. cbn [mbind outcome_bind andb].
    rewrite IH. destruct (forallb _ _); [|done]. by rewrite <- app_assoc.
  - rewrite bool_decide_false; [done|]. by intros [? ?].
Qed.

Lemma selected_parts_no_nul names headers :
  forallb (λ '(_, value), bool_decide (is_Some (header_to_str value))) (selected names headers) = true →
  Forall (λ s, no_nul s = true) (key_parts (selected names headers)).
Proof using HL.
  induction names as [|name names IH]; [by constructor|]. rewrite selected_cons.
  destruct (headers_get headers name) as [value|] eqn:Hget; [|apply IH].
  cbn [forallb key_parts flat_map app]. intros [Hs Hrest]%andb_prop. apply bool_decide_eq_true in Hs as [s Hs].
  rewrite Hs. cbn [default from_option id]. constructor.
  - by eapply header_name_no_nul, headers_get_valid.
  - constructor; [by eapply header_to_str_no_nul|by apply IH].
Qed.

Lemma key_parts_inj sel1 sel2 :
  forallb (λ '(_, value), bool_decide (is_Some (header_to_str value))) sel1 = true →
  forallb (λ '(_, value), bool_decide (is_Some (header_to_str value))) sel2 = true →
  key_parts sel1 = key_parts sel2 → sel1 = sel2.
Proof using HL.
  revert sel2. induction sel1 as [|[n1 v1] sel1 IH]; intros [|[n2 v2] sel2]; cbn; [done..|].
  intros [H1 Hr1]%andb_prop [H2 Hr2]%andb_prop. apply bool_decide_eq_true in H1 as [s1 H1], H2 as [s2 H2].
  rewrite H1, H2. cbn [default from_option id]. intros [= -> -> Heq].
  rewrite (header_to_str_inj v1 v2 s2 H1 H2). f_equal. by apply IH.
Qed.

Lemma selected_unprintable names headers :
  forallb (λ '(_, value), bool_decide (is_Some (header_to_str value))) (selected names headers) = false ↔
  Exists (λ name, ∃ value, headers_get headers name = Some value ∧ header_to_str value = None) names.
Proof using.
  induction names as [|name names IH]; [split; [done|by intros ?%Exists_nil]|].
  rewrite selected_cons, Exists_cons, <- IH. destruct (headers_get headers name) as [value|]; cbn [forallb]; [|naive_solver].
  rewrite andb_false_iff, bool_decide_eq_false, <- eq_None_not_Some. naive_solver.
Qed.

(** Requests with the same caching key ask the endpoint the same thing. *)
Lemma cache_key_determines_request repo host1 headers1 host2 headers2 key request1 request2 :
  no_nul host1 = true → no_nul host2 = true →
  subscription_request repo host1 headers1 = Done (key, request1) →
  subscription_request repo host2 headers2 = Done (key, request2) → request1 = request2.
Proof using HL.
  intros Hh1 Hh2. unfold subscription_request. rewrite !forward_headers_spec.
  destruct (forallb _ (selected _ headers1)) eqn:H1; cbn [mbind outcome_bind]; [|done].
  destruct (forallb _ (selected _ headers2)) eqn:H2; cbn [mbind outcome_bind]; [|done].
  intros [= Hk1 <-] [= Hk2 <-]. rewrite <- Hk2 in Hk1.
  apply join_inj in Hk1; [|constructor; [done|by apply selected_parts_no_nul]..].
  injection Hk1 as -> Hparts. by rewrite (key_parts_inj _ _ H1 H2 Hparts).
Qed.

(** Where the answer of a call comes from: the first iteration that did not just
    wait for another caller; after the last one the answer is [None]. *)
Lemma cache_loop_spec {E V} n (calls : nat → moka_outcome E V) i :
  (∃ j, (i <= j <= i + n)%nat ∧ match calls j with
    | Moka_found v => cache_loop n calls i = Ok (Some v)
    | Moka_ran own => cache_loop n calls i = own
    | Moka_joined_none => False
    end) ∨
  cache_loop n calls i = Ok None ∧ ∀ j, (i <= j <= i + n)%nat → calls j = Moka_joined_none.
Proof.
  revert i. induction n as [|n IH]; intros i.
  - cbn. destruct (calls i) as [v|r|] eqn:Hi; [left; exists i; rewrite Hi; split; [lia|]; by try destruct r as [[]|]..|right].
    split; [done|]. intros j Hj. by replace j with i by lia.
  - cbn. destruct (calls i) as [v|r|] eqn:Hi; [left; exists i; rewrite Hi; split; [lia|]; by try destruct r as [[]|]..|].
    destruct (IH (S i)) as [(j&Hj&Hr)|[Hr Hall]].
    + left. exists j. split; [lia|done].
    + right. split; [done|]. intros j Hj. destruct (decide (j = i)) as [->|]; [done|]. apply Hall. lia.
Qed.

(** C22. Nobody is let in on somebody else's answer: when a request is
    authenticated as a subscription, the endpoint answered that subscription to
    a request with the same host and the same forwarded headers, whether the
    answer was fetched for this request or found in the cache under its key. *)
Theorem authenticated_by_own_answer {E} repo (fetch : UpstreamRequest → UpstreamResponse E) calls parts host info :
  parts_host parts = Some host → no_nul host = true →
  (* the cache: a value is found under a key when it was fetched for a request with
     that key, and the caller's own initialiser fetches *)
  (∀ key request i, subscription_request repo host (parts_headers parts) = Done (key, request) →
    match calls i with
    | Moka_found v => ∃ host' headers' request', no_nul host' = true ∧
        subscription_request repo host' headers' = Done (key, request') ∧ handle_response (fetch request') = Ok (Some v)
    | Moka_ran r => r = handle_response (fetch request)
    | Moka_joined_none => True
    end) →
  http_authenticate repo fetch calls parts = Done (Ok (Some info)) →
  ∃ key request, subscription_request repo host (parts_headers parts) = Done (key, request) ∧
    handle_response (fetch request) = Ok (Some info).
Proof using HL.
  intros Hhost Hnul Hcache. unfold http_authenticate. rewrite Hhost.
  destruct (subscription_request repo host (parts_headers parts)) as [[key request]|] eqn:Hreq; [|done].
  cbn [mbind outcome_bind]. intros [= Hres]. exists key, request. split; [done|].
  destruct (hsr_cached repo); [|done]. unfold try_optionally_get_with in Hres.
  destruct (cache_loop_spec (pred (Nat.max MAX_ATTEMPTS 1)) calls 0) as [(j&_&Hj)|[Hnone _]]; [|by rewrite Hnone in Hres].
  specialize (Hcache key request j eq_refl). destruct (calls j) as [v|r|]; [| |done].
  - destruct Hcache as (host'&headers'&request'&Hnul'&Hreq'&Hv). rewrite Hj in Hres. injection Hres as ->.
    by rewrite (cache_key_determines_request _ _ _ _ _ _ _ _ Hnul Hnul' Hreq Hreq').
  - by rewrite <- Hcache, <- Hj.
Qed.

(** A client can make the authentication panic: the value of a forwarded
    header that is not visible ASCII (which HTTP allows) reaches the [expect] of
    [to_str]. It panics exactly on such requests. *)
Theorem forwarded_header_panics repo host headers :
  subscription_request repo host headers = Panic ↔
  ∃ name value, name ∈ hsr_forwarded_headers repo ∧ headers_get headers name = Some value ∧ header_to_str value = None.
Proof using HL.
  unfold subscription_request. rewrite forward_headers_spec.
  assert (forallb (λ '(_, value), bool_decide (is_Some (header_to_str value))) (selected (hsr_forwarded_headers repo) headers) = false
    ↔ ∃ name value, name ∈ hsr_forwarded_headers repo ∧ headers_get headers name = Some value ∧ header_to_str value = None) as <-.
  { rewrite selected_unprintable, Exists_exists. naive_solver. }
  by destruct (forallb _ _).
Qed.
End laws.

(** ** Examples *)

Section demo.
(** Header maps as association lists, values as strings, printable when they do
    not start with a tilde. *)
Local Definition demo_printable (s : string) : bool :=
  no_nul s && match s with String (Ascii.Ascii false true true true true true true false) _ => false | _ => true end.

Local Instance demo_http : Http := {|
  HeaderMap := list (string * string);
  HeaderValue := string;
  headers_new := [];
  headers_get h name := if no_nul name then option_map snd (List.find (λ e, String.eqb (fst e) name) h) else None;
  headers_insert name value h := (name, value) :: h;
  header_to_str s := if demo_printable s then Some s else None;
  header_name_valid := no_nul
|}.

Local Instance demo_http_laws : HttpLaws demo_http.
Proof.
  split; cbn.
  - intros h name value. by destruct (no_nul name).
  - done.
  - intros value s. destruct (demo_printable value) eqn:Hp; [|done]. intros [= <-]. by apply andb_prop in Hp as [? _].
  - intros v1 v2 s. destruct (demo_printable v1), (demo_printable v2); naive_solver.
Qed.

Local Definition demo_repo : HttpSubscriptionRepository := mkHttpSubscriptionRepository "u" true ["x-token"; "x-zone"].
Local Definition demo_parts : Parts := mkParts (Some "h") [("x-zone", "b"); ("x-token", "a")].
Local Definition demo_info : SubscriptionInfo := mkSubscriptionInfo "s" None.
Local Definition demo_fetch (r : UpstreamRequest) : UpstreamResponse nat := Response_ok (Ok demo_info).

(** Another request waited for, then the value found in the cache. *)
Local Definition demo_calls (i : nat) : moka_outcome nat SubscriptionInfo :=
  match i with 0%nat => Moka_joined_none | _ => Moka_found demo_info end.

Lemma demo_key : (λ r, match r with Done (k, _) => String.length k | _ => 0%nat end)
  (subscription_request demo_repo "h" (parts_headers demo_parts)) = 20%nat.
Proof. by vm_compute. Qed.

Lemma authenticated_by_own_answer_witness :
  ∃ key request, subscription_request demo_repo "h" (parts_headers demo_parts) = Done (key, request) ∧
    handle_response (demo_fetch request) = Ok (Some demo_info).
Proof.
  apply (authenticated_by_own_answer demo_repo demo_fetch demo_calls demo_parts "h" demo_info); [done|done| |by vm_compute].
  intros key request i Hreq. destruct i as [|i]; [done|]. exists "h"%string, (parts_headers demo_parts), request. by split.
Defined.
End demo.
