(* ===== verification/AuthService.v ===== *)
(** * yellowstone-grpc-tools: server/tonic/auth/service.rs

    The tower layer that authenticates a request before the inner service sees
    it: [AuthGuardedService] takes a permit of a semaphore when it is polled
    ready, its future authenticates, waits for the inner service and calls it.
    The authenticator's future, the inner service and its future are parameters:
    a poll returns what it gives and the next state. The inner service is shared
    behind a mutex, so its state at each poll of the future is arbitrary; a call
    of it returns here, and Layers.v says what a call that panics does to the
    mutex. *)

From S2P Require Import Prelude.

Set Default Goal Selector "!".

Local Open Scope Z_scope.

(** [tonic::Code] and [http::StatusCode], as far as they occur. *)
Definition Code_Unauthenticated : Z := 16.
Definition Code_Internal : Z := 13.
Definition StatusCode_UNAUTHORIZED : Z := 401.
Definition StatusCode_INTERNAL_SERVER_ERROR : Z := 500.

(** Sums over a list with one element changed or removed. *)
Lemma sum_list_with_insert {A} (f : A → nat) l i x y : l !! i = Some x →
  (sum_list_with f (<[i := y]> l) + f x = sum_list_with f l + f y)%nat.
Proof.
  revert i. induction l as [|z l IH]; intros [|i] Hi; try done.
  - injection Hi as ->. cbn. lia.
  - specialize (IH i Hi). change (<[S i := y]> (z :: l)) with (z :: <[i := y]> l). cbn [sum_list_with]. lia.
Qed.

Lemma sum_list_with_delete {A} (f : A → nat) l i x : l !! i = Some x →
  (sum_list_with f (delete i l) + f x = sum_list_with f l)%nat.
Proof.
  revert i. induction l as [|z l IH]; intros [|i] Hi; try done.
  - injection Hi as ->. cbn. lia.
  - specialize (IH i Hi). change (delete (S i) (z :: l)) with (z :: delete i l). cbn [sum_list_with]. lia.
Qed.

Section service.
Context {R X : Type}.

(** A request, with the extension the authenticator gives it. *)
Record Request := mkRequest {
  req_inner : R;
  req_extension : option X
}.

Definition insert_extension (x : X) (request : Request) : Request := mkRequest (req_inner request) (Some x).

Context {S AF SF AE E Resp : Type}.
Context (authenticate : R → AF) (auth_poll : AF → Poll (result AE (option X)) * AF).
Context (inner_poll_ready : S → Poll (result E unit) * S) (inner_call : S → Request → SF * S).
Context (inner_poll : SF → Poll (result E Resp) * SF).

(** A response made here, or the inner service's. *)
Inductive GuardResponse :=
| grpc_error_response (code status : Z)
| inner_response (response : Resp).

(** The permit is the fact of holding one. *)
Inductive AuthGuardFuture :=
| Authenticating (auth_fut : AF) (request : option Request) (permit : bool)
| PollingService (permit : bool) (request : option Request)
| CallingInner (inner_fut : SF)
| Denied (denied_result : option (result E GuardResponse)).

(** What a poll does to the inner service. *)
Inductive service_event :=
| Polled_ready (polled : Poll (result E unit))
| Called (request : Request).

Definition internal_error : AuthGuardFuture :=
  Denied (Some (Ok (grpc_error_response Code_Internal StatusCode_INTERNAL_SERVER_ERROR))).

(** One iteration of the loop of [poll]: the next state, the result if it
    returns, the inner service and what was done to it. *)
Definition guard_iteration (this : AuthGuardFuture) (service : S) :
    outcome (AuthGuardFuture * option (Poll (result E GuardResponse)) * S * list service_event) :=
  match this with
  | Authenticating auth_fut request permit =>
      match auth_poll auth_fut with
      | (Pending, auth_fut) => Done (Authenticating auth_fut request permit, Some Pending, service, [])
      | (Ready (Ok None), _) =>
          Done (Denied (Some (Ok (grpc_error_response Code_Unauthenticated StatusCode_UNAUTHORIZED))), None, service, [])
      | (Ready (Ok (Some auth_extension)), _) =>
          if permit then
            match request with
            | Some request =>
                let request := insert_extension auth_extension request in
                let '(polled, service) := inner_poll_ready service in
                match polled with
                | Pending => Done (PollingService true (Some request), None, service, [Polled_ready polled])
                | Ready (Ok _) =>
                    let '(inner_fut, service) := inner_call service request in
                    Done (CallingInner inner_fut, None, service, [Polled_ready polled; Called request])
                | Ready (Err _) => Done (internal_error, None, service, [Polled_ready polled])
                end
            | None => Panic
            end
          else Panic
      | (Ready (Err _), _) => Done (internal_error, None, service, [])
      end
  | PollingService permit request =>
      if permit then
        let '(polled, service) := inner_poll_ready service in
        match polled with
        | Pending => Done (PollingService permit request, Some Pending, service, [Polled_ready polled])
        | Ready (Ok _) =>
            match request with
            | Some req =>
                let '(inner_fut, service) := inner_call service req in
                Done (CallingInner inner_fut, None, service, [Polled_ready polled; Called req])
            | None => Panic
            end
        | Ready (Err _) => Done (internal_error, None, service, [Polled_ready polled])
        end
      else Panic
  | CallingInner inner_fut =>
      match inner_poll inner_fut with
      | (Pending, inner_fut) => Done (CallingInner inner_fut, Some Pending, service, [])
      | (Ready (Ok response), inner_fut) => Done (CallingInner inner_fut, Some (Ready (Ok (inner_response response))), service, [])
      | (Ready (Err err), inner_fut) => Done (CallingInner inner_fut, Some (Ready (Err err)), service, [])
      end
  | Denied denied_result =>
      match denied_result with
      | Some r => Done (Denied None, Some (Ready r), service, [])
      | None => Panic
      end
  end.

(** The loop; [None] when the fuel does not suffice. *)
Fixpoint guard_loop (fuel : nat) (this : AuthGuardFuture) (service : S) :
    outcome (option (AuthGuardFuture * Poll (result E GuardResponse) * S * list service_event)) :=
  match fuel with
  | O => Done None
  | Datatypes.S fuel =>
      '(this, returned, service, events) ← guard_iteration this service;
      match returned with
      | Some polled => Done (Some (this, polled, service, events))
      | None =>
          rest ← guard_loop fuel this service;
          Done (option_map (λ '(this, polled, service, events'), (this, polled, service, events ++ events')) rest)
      end
  end.

(** Authenticating, waiting, calling: at most three iterations. *)
Definition POLL_FUEL : nat := 3.

Definition AuthGuardFuture_poll (this : AuthGuardFuture) (service : S) :
    outcome (option (AuthGuardFuture * Poll (result E GuardResponse) * S * list service_event)) :=
  guard_loop POLL_FUEL this service.

(** ** The service and its semaphore *)

(** A clone of [AuthGuardedService]: [already_acquired_permit]. *)
Record AuthGuardedService := mkAuthGuardedService {
  ags_already_acquired_permit : bool
}.

Definition AuthGuardedService_clone (this : AuthGuardedService) : AuthGuardedService := mkAuthGuardedService false.

(** [poll_ready], with the permits left in the semaphore. *)
Definition guarded_poll_ready (this : AuthGuardedService) (permits : nat) : Poll (result E unit) * AuthGuardedService * nat :=
  if ags_already_acquired_permit this then (Ready (Ok tt), this, permits)
  else
    match permits with
    | O => (Pending, this, permits)
    | Datatypes.S permits => (Ready (Ok tt), mkAuthGuardedService true, permits)
    end.

Definition guarded_call (this : AuthGuardedService) (request : Request) : outcome (AuthGuardFuture * AuthGuardedService) :=
  if ags_already_acquired_permit this then
    let auth_fut := authenticate (req_inner request) in
    Done (Authenticating auth_fut (Some request) true, mkAuthGuardedService false)
  else Panic.

(** ** Running one request *)

(** Polls of a future, each finding the inner service in some state, until it is
    ready: the result, and what happened to the inner service. *)
Fixpoint guard_run (this : AuthGuardFuture) (services : list S) :
    outcome (option (result E GuardResponse) * list service_event) :=
  match services with
  | [] => Done (None, [])
  | service :: services =>
      polled ← AuthGuardFuture_poll this service;
      match polled with
      | Some (this, Pending, _, events) =>
          '(r, events') ← guard_run this services;
          Done (r, events ++ events')
      | Some (_, Ready r, _, events) => Done (Some r, events)
      | None => Done (None, [])
      end
  end.

(** What a future is ready with when it is polled long enough. *)
Inductive Answer {F T} (poll : F → Poll T * F) : F → T → Prop :=
| answer_ready f t f' : poll f = (Ready t, f') → Answer poll f t
| answer_pending f f' t : poll f = (Pending, f') → Answer poll f' t → Answer poll f t.

Definition map_response (r : result E Resp) : result E GuardResponse :=
  match r with Ok response => Ok (inner_response response) | Err e => Err e end.

(** After the call: the inner service's answer, or none yet. *)
Definition called_outcome (inner_fut : SF) (res : option (result E GuardResponse)) : Prop :=
  res = None ∨ ∃ r, Answer inner_poll inner_fut r ∧ res = Some (map_response r).

(** After the authentication: the inner service is polled until it is ready, and
    called with [request] right then; its failure to be ready is an internal
    error. *)
Definition admitted_outcome (request : Request) (res : option (result E GuardResponse)) (events : list service_event) : Prop :=
  ∃ n,
    (res = None ∧ events = replicate n (Polled_ready Pending)) ∨
    (∃ e, res = Some (Ok (grpc_error_response Code_Internal StatusCode_INTERNAL_SERVER_ERROR)) ∧
      events = replicate n (Polled_ready Pending) ++ [Polled_ready (Ready (Err e))]) ∨
    (∃ service u, events = replicate n (Polled_ready Pending) ++ [Polled_ready (Ready (Ok u)); Called request] ∧
      called_outcome (fst (inner_call service request)) res).

Lemma guard_loop_S k this service :
  guard_loop (Datatypes.S k) this service
  = ('(this, returned, service, events) ← guard_iteration this service;
     match returned with
     | Some polled => Done (Some (this, polled, service, events))
     | None =>
         rest ← guard_loop k this service;
         Done (option_map (λ '(this, polled, service, events'), (this, polled, service, events ++ events')) rest)
     end).
Proof. done. Qed.

Lemma calling_loop k inner_fut service : ∃ inner_fut' polled,
  guard_loop (Datatypes.S k) (CallingInner inner_fut) service = Done (Some (CallingInner inner_fut', polled, service, [])) ∧
  match polled with
  | Pending => inner_poll inner_fut = (Pending, inner_fut')
  | Ready r => ∃ r', inner_poll inner_fut = (Ready r', inner_fut') ∧ r = map_response r'
  end.
Proof.
  cbn [guard_loop guard_iteration]. destruct (inner_poll inner_fut) as [[|[r|e]] inner_fut'] eqn:Hp; cbn;
    (do 2 eexists; split; [done|]); [done|exists (Ok r); done|exists (Err e); done].
Qed.

Lemma calling_run inner_fut services : ∃ res,
  guard_run (CallingInner inner_fut) services = Done (res, []) ∧ called_outcome inner_fut res.
Proof.
  revert inner_fut. induction services as [|service services IH]; intros inner_fut; cbn [guard_run].
  { exists None. split; [done|by left]. }
  unfold AuthGuardFuture_poll, POLL_FUEL. destruct (calling_loop 2 inner_fut service) as (f'&polled&->&Hp). cbn [mbind outcome_bind].
  destruct polled as [|r].
  - destruct (IH f') as (res&->&Hres). cbn. exists res. split; [done|].
    destruct Hres as [->|(r&Hans&->)]; [by left|right]. exists r. split; [|done]. by eapply answer_pending.
  - destruct Hp as (r'&Hp&->). exists (Some (map_response r')). split; [done|right]. exists r'.
    split; [by eapply answer_ready|done].
Qed.

(** From the state that waits for the inner service, and likewise right after the
    authentication, a poll asks the inner service at least once. *)
Lemma polling_loop k request service : ∃ this polled service' events,
  guard_loop (Datatypes.S (Datatypes.S k)) (PollingService true (Some request)) service = Done (Some (this, polled, service', events)) ∧
  ((this = PollingService true (Some request) ∧ polled = Pending ∧ events = [Polled_ready Pending]) ∨
   (∃ e, events = [Polled_ready (Ready (Err e))] ∧
      polled = Ready (Ok (grpc_error_response Code_Internal StatusCode_INTERNAL_SERVER_ERROR))) ∨
   (∃ service0 u, events = [Polled_ready (Ready (Ok u)); Called request] ∧
      match polled with
      | Pending => ∃ f', this = CallingInner f' ∧ inner_poll (fst (inner_call service0 request)) = (Pending, f')
      | Ready r => called_outcome (fst (inner_call service0 request)) (Some r)
      end)).
Proof.
  cbn [guard_loop]. cbn [guard_iteration]. destruct (inner_poll_ready service) as [[|[u|e]] service'] eqn:Hready; cbn [mbind outcome_bind].
  - eauto 10.
  - destruct (inner_call service' request) as [f service''] eqn:Hcall. cbn [mbind outcome_bind].
    destruct (calling_loop k f service'') as (f'&polled&Hloop&Hp). cbn [guard_loop] in Hloop. rewrite Hloop. cbn.
    do 4 eexists. split; [done|]. right. right. exists service', u. rewrite Hcall. split; [done|].
    destruct polled as [|r]; [by eauto|]. destruct Hp as (r'&Hp&->). right. exists r'.
    split; [by eapply answer_ready|done].
  - do 4 eexists. split; [done|]. right. left. by eauto.
Qed.

Lemma polling_run request services : ∃ res events,
  guard_run (PollingService true (Some request)) services = Done (res, events) ∧ admitted_outcome request res events.
Proof.
  induction services as [|service services IH]; cbn [guard_run].
  { do 2 eexists. split; [done|]. exists 0%nat. by left. }
  unfold AuthGuardFuture_poll, POLL_FUEL. destruct (polling_loop 1 request service) as (this&polled&service'&events&->&Hcases). cbn [mbind outcome_bind].
  destruct Hcases as [(->&->&->)|[(e&->&->)|(service0&u&->&Hpolled)]].
  - destruct IH as (res&events&->&n&IH). cbn. do 2 eexists. split; [done|]. exists (Datatypes.S n).
    destruct IH as [[-> ->]|[(e&->&->)|(service0&u&->&Hc)]]; [by left|right; left; by eauto|right; right; by eauto].
  - do 2 eexists. split; [done|]. exists 0%nat. right. left. by eauto.
  - destruct polled as [|r].
    + destruct Hpolled as (f'&->&Hp). destruct (calling_run f' services) as (res&->&Hres). cbn.
      do 2 eexists. split; [done|]. exists 0%nat. right. right. exists service0, u. split; [done|].
      destruct Hres as [->|(r&Hans&->)]; [by left|right]. exists r. split; [by eapply answer_pending|done].
    + do 2 eexists. split; [done|]. exists 0%nat. right. right. by exists service0, u.
Qed.

(** What can come of a request, by the authenticator's answer. *)
Definition guard_outcome (r : R) (auth_fut : AF) (res : option (result E GuardResponse)) (events : list service_event) : Prop :=
  (res = None ∧ events = []) ∨
  (Answer auth_poll auth_fut (Ok None) ∧ events = [] ∧
    res = Some (Ok (grpc_error_response Code_Unauthenticated StatusCode_UNAUTHORIZED))) ∨
  (∃ e, Answer auth_poll auth_fut (Err e) ∧ events = [] ∧
    res = Some (Ok (grpc_error_response Code_Internal StatusCode_INTERNAL_SERVER_ERROR))) ∨
  (∃ x, Answer auth_poll auth_fut (Ok (Some x)) ∧ admitted_outcome (mkRequest r (Some x)) res events).

Lemma guard_outcome_pending r auth_fut auth_fut' res events : auth_poll auth_fut = (Pending, auth_fut') →
  guard_outcome r auth_fut' res events → guard_outcome r auth_fut res events.
Proof.
  intros Hp [H|[(Ha&H)|[(e&Ha&H)|(x&Ha&H)]]]; [by left|right; left|right; right; left; exists e|right; right; right; exists x];
    (split; [by eapply answer_pending|done]).
Qed.

(** After the authentication, in the same poll. *)
Lemma admitted_poll r x service auth_fut auth_fut' : auth_poll auth_fut = (Ready (Ok (Some x)), auth_fut') →
  ∃ this polled service' events,
  AuthGuardFuture_poll (Authenticating auth_fut (Some (mkRequest r None)) true) service = Done (Some (this, polled, service', events)) ∧
  match polled with
  | Pending => ∀ services, ∃ res events', guard_run this services = Done (res, events') ∧
      admitted_outcome (mkRequest r (Some x)) res (events ++ events')
  | Ready res => admitted_outcome (mkRequest r (Some x)) (Some res) events
  end.
Proof.
  intros Ha. unfold AuthGuardFuture_poll, POLL_FUEL. rewrite guard_loop_S. cbn [guard_iteration]. rewrite Ha.
  unfold insert_extension. cbn [req_inner].
  set (q := mkRequest r (Some x)).
  destruct (inner_poll_ready service) as [[|[u|e]] service'] eqn:Hready; cbn [mbind outcome_bind].
  - destruct (polling_loop 0 q service') as (this&polled&service''&events&Hloop&Hcases).
    rewrite Hloop. cbn. do 4 eexists. split; [done|].
    destruct Hcases as [(->&->&->)|[(e&->&->)|(service0&u&->&Hpolled)]].
    + intros services. destruct (polling_run q services) as (res&events&->&n&Hn). do 2 eexists. split; [done|].
      exists (Datatypes.S (Datatypes.S n)).
      destruct Hn as [[-> ->]|[(e&->&->)|(service0&u&->&Hc)]]; [by left|right; left; by eauto|right; right; by eauto].
    + exists 1%nat. right. left. by eauto.
    + destruct polled as [|res].
      * destruct Hpolled as (f'&->&Hp). intros services. destruct (calling_run f' services) as (res&->&Hres).
        do 2 eexists. split; [done|]. exists 1%nat. right. right. exists service0, u. split; [done|].
        destruct Hres as [->|(r0&Hans&->)]; [by left|right]. exists r0. split; [by eapply answer_pending|done].
      * exists 1%nat. right. right. by exists service0, u.
  - destruct (inner_call service' q) as [f service''] eqn:Hcall. cbn [mbind outcome_bind].
    destruct (calling_loop 1 f service'') as (f'&polled&Hloop&Hp). rewrite Hloop. cbn.
    do 4 eexists. split; [done|]. destruct polled as [|res].
    + intros services. destruct (calling_run f' services) as (res&->&Hres). do 2 eexists. split; [done|].
      exists 0%nat. right. right. exists service', u. split; [done|]. rewrite Hcall.
      destruct Hres as [->|(r0&Hans&->)]; [by left|right]. exists r0. split; [by eapply answer_pending|done].
    + destruct Hp as (r'&Hp&->). exists 0%nat. right. right. exists service', u. split; [done|]. rewrite Hcall.
      right. exists r'. split; [by eapply answer_ready|done].
  - cbn. do 4 eexists. split; [done|]. exists 0%nat. right. left. by eauto.
Qed.

(** A request goes to the inner service only after the authenticator has
    answered with an extension for it, carrying that extension, once, and right
    after the inner service said it was ready; refusals and failures are answered
    with the matching status without touching the inner service. However often
    and with whatever inner service the future is polled, it does not panic
    before it is ready, as long as the inner service itself does not panic, and a
    poll never runs out of fuel. *)
Theorem auth_guard_admits_only_authenticated r services : ∃ res events,
  guard_run (Authenticating (authenticate r) (Some (mkRequest r None)) true) services = Done (res, events) ∧
  guard_outcome r (authenticate r) res events.
Proof.
  generalize (authenticate r) as auth_fut. induction services as [|service services IH]; intros auth_fut.
  { do 2 eexists. split; [done|by left]. }
  destruct (auth_poll auth_fut) as [[|[[x|]|e]] auth_fut'] eqn:Ha; cbn [guard_run].
  - destruct (IH auth_fut') as (res&events&Hrun&Ho). exists res, events. split; [|by eapply guard_outcome_pending].
    unfold AuthGuardFuture_poll, POLL_FUEL. cbn [guard_loop guard_iteration]. rewrite Ha. cbn [mbind outcome_bind].
    rewrite Hrun. done.
  - destruct (admitted_poll r x service auth_fut auth_fut' Ha) as (this&polled&service'&events&->&Hp). cbn [mbind outcome_bind].
    destruct polled as [|res].
    + destruct (Hp services) as (res&events'&->&Hadm). cbn. do 2 eexists. split; [done|].
      right. right. right. exists x. split; [by eapply answer_ready|done].
    + do 2 eexists. split; [done|]. right. right. right. exists x. split; [by eapply answer_ready|done].
  - unfold AuthGuardFuture_poll, POLL_FUEL. cbn [guard_loop guard_iteration]. rewrite Ha. cbn.
    do 2 eexists. split; [done|]. right. left. split; [by eapply answer_ready|done].
  - unfold AuthGuardFuture_poll, POLL_FUEL. cbn [guard_loop guard_iteration]. rewrite Ha. cbn.
    do 2 eexists. split; [done|]. right. right. left. exists e. split; [by eapply answer_ready|done].
Qed.

(** Polled again after a denial, the future panics. *)
Lemma denied_polled_again service : AuthGuardFuture_poll (Denied None) service = Panic.
Proof. done. Qed.
(** ** The permits *)

Definition future_holds (this : AuthGuardFuture) : nat :=
  match this with
  | Authenticating _ _ true | PollingService true _ => 1
  | _ => 0
  end.

Definition handle_holds (this : AuthGuardedService) : nat := if ags_already_acquired_permit this then 1 else 0.

(** A request that is still being authenticated or waits for the inner service,
    whatever it holds. *)
Definition waiting (this : AuthGuardFuture) : bool :=
  match this with Authenticating _ _ _ | PollingService _ _ => true | _ => false end.

(** The clones of the service, the futures in flight, and the permits left. *)
Record GuardSystem := mkGuardSystem {
  gs_permits : nat;
  gs_handles : list AuthGuardedService;
  gs_futures : list AuthGuardFuture
}.

Definition GuardSystem_new (concurrent_auth_limit : nat) : GuardSystem :=
  mkGuardSystem concurrent_auth_limit [mkAuthGuardedService false] [].

(** The steps of the tasks that serve the connections. A permit goes back to the
    semaphore when what held it is dropped or has moved on; the semaphore may keep
    a handle waiting for its turn, which changes nothing. *)
Inductive guard_step : GuardSystem → GuardSystem → Prop :=
| step_clone sys h : h ∈ gs_handles sys →
    guard_step sys (mkGuardSystem (gs_permits sys) (gs_handles sys ++ [AuthGuardedService_clone h]) (gs_futures sys))
| step_poll_ready sys i h p h' permits : gs_handles sys !! i = Some h →
    guarded_poll_ready h (gs_permits sys) = (p, h', permits) →
    guard_step sys (mkGuardSystem permits (<[i := h']> (gs_handles sys)) (gs_futures sys))
| step_call sys i h r f h' : gs_handles sys !! i = Some h →
    guarded_call h (mkRequest r None) = Done (f, h') →
    guard_step sys (mkGuardSystem (gs_permits sys) (<[i := h']> (gs_handles sys)) (gs_futures sys ++ [f]))
| step_drop_handle sys i h : gs_handles sys !! i = Some h →
    guard_step sys (mkGuardSystem (gs_permits sys + handle_holds h) (delete i (gs_handles sys)) (gs_futures sys))
| step_poll_future sys j f service f' polled service' events : gs_futures sys !! j = Some f →
    AuthGuardFuture_poll f service = Done (Some (f', polled, service', events)) →
    guard_step sys (mkGuardSystem (gs_permits sys + (future_holds f - future_holds f')) (gs_handles sys)
                      (<[j := f']> (gs_futures sys)))
| step_drop_future sys j f : gs_futures sys !! j = Some f →
    guard_step sys (mkGuardSystem (gs_permits sys + future_holds f) (gs_handles sys) (delete j (gs_futures sys))).

Definition held (sys : GuardSystem) : nat :=
  sum_list_with handle_holds (gs_handles sys) + sum_list_with future_holds (gs_futures sys).

(** A future that waits holds its permit, and its request. *)
Definition permit_ok (this : AuthGuardFuture) : Prop :=
  match this with
  | Authenticating _ request permit => permit = true ∧ is_Some request
  | PollingService permit request => permit = true ∧ is_Some request
  | _ => True
  end.

Lemma permit_ok_holds this : permit_ok this → future_holds this = if waiting this then 1%nat else 0%nat.
Proof. destruct this as [? ? []|[] ?|?|?]; cbn; [done|by intros [? _]|done|by intros [? _]|done|done]. Qed.

Lemma guard_iteration_holds this service this' returned service' events : permit_ok this →
  guard_iteration this service = Done (this', returned, service', events) →
  permit_ok this' ∧ (future_holds this' <= future_holds this)%nat.
Proof.
  destruct this as [auth_fut request permit|permit request|inner_fut|r]; cbn [guard_iteration permit_ok].
  - intros [-> [q ->]]. destruct (auth_poll auth_fut) as [[|[[x|]|e]] auth_fut']; [by intros [= <- _ _ _]| |intros [= <- _ _ _]; cbn; split; [done|lia]..].
    destruct (inner_poll_ready service) as [[|[u|e]] service''].
    + by intros [= <- _ _ _].
    + destruct (inner_call service'' _). intros [= <- _ _ _]. cbn. split; [done|lia].
    + intros [= <- _ _ _]. cbn. split; [done|lia].
  - intros [-> [q ->]]. destruct (inner_poll_ready service) as [[|[u|e]] service''].
    + by intros [= <- _ _ _].
    + destruct (inner_call service'' _). intros [= <- _ _ _]. cbn. split; [done|lia].
    + intros [= <- _ _ _]. cbn. split; [done|lia].
  - intros _. destruct (inner_poll inner_fut) as [[|[r|e]] f']; by intros [= <- _ _ _].
  - intros _. destruct r; [|done]. by intros [= <- _ _ _].
Qed.

Lemma guard_loop_holds fuel this service this' polled service' events : permit_ok this →
  guard_loop fuel this service = Done (Some (this', polled, service', events)) →
  permit_ok this' ∧ (future_holds this' <= future_holds this)%nat.
Proof.
  revert this service events. induction fuel as [|fuel IH]; intros this service events Hok; [done|].
  rewrite guard_loop_S. destruct (guard_iteration this service) as [[[[this1 returned] service1] events1]|] eqn:Hit; [|done].
  apply guard_iteration_holds in Hit as [Hok1 Hle]; [|done]. cbn [mbind outcome_bind]. destruct returned; [by intros [= <- _ _ _]|].
  destruct (guard_loop fuel this1 service1) as [[[[[this2 polled2] service2] events2]|]|] eqn:Hloop; [|done..].
  intros [= -> -> -> _]. apply IH in Hloop as [??]; [|done]. split; [done|lia].
Qed.

Lemma guarded_poll_ready_holds h permits p h' permits' : guarded_poll_ready h permits = (p, h', permits') →
  (permits' + handle_holds h' = permits + handle_holds h)%nat.
Proof.
  unfold guarded_poll_ready, handle_holds. destruct (ags_already_acquired_permit h) eqn:Hh.
  - intros [= _ <- <-]. by rewrite Hh.
  - destruct permits; intros [= _ <- <-]; rewrite ?Hh; cbn; lia.
Qed.

Lemma guarded_call_holds h r f h' : guarded_call h (mkRequest r None) = Done (f, h') →
  (handle_holds h' + future_holds f = handle_holds h)%nat.
Proof. unfold guarded_call, handle_holds. destruct (ags_already_acquired_permit h); [|done]. by intros [= <- <-]. Qed.

(** The permits add up, and every future that waits holds one. *)
Definition guard_inv (limit : nat) (sys : GuardSystem) : Prop :=
  (gs_permits sys + held sys = limit)%nat ∧ Forall permit_ok (gs_futures sys).

Lemma guard_step_inv limit sys sys' : guard_inv limit sys → guard_step sys sys' → guard_inv limit sys'.
Proof.
  unfold guard_inv, held. intros [Hsum Hok] Hstep.
  destruct Hstep as [sys h Hh|sys i h p h' permits Hi Hp|sys i h r f h' Hi Hc|sys i h Hi
    |sys j f service f' polled service' events Hj Hp|sys j f Hj]; cbn [gs_permits gs_handles gs_futures].
  - rewrite sum_list_with_app. split; [cbn; lia|done].
  - pose proof (sum_list_with_insert handle_holds _ _ _ h' Hi). apply guarded_poll_ready_holds in Hp. split; [lia|done].
  - pose proof (sum_list_with_insert handle_holds _ _ _ h' Hi). pose proof (guarded_call_holds _ _ _ _ Hc).
    rewrite sum_list_with_app. split; [cbn; lia|]. apply Forall_app. split; [done|]. constructor; [|constructor].
    unfold guarded_call in Hc. destruct (ags_already_acquired_permit h); [|done]. injection Hc as <- _. split; [done|by eexists].
  - pose proof (sum_list_with_delete handle_holds _ _ _ Hi). split; [lia|done].
  - pose proof (sum_list_with_insert future_holds _ _ _ f' Hj).
    apply guard_loop_holds in Hp as [Hf' Hle]; [|by eapply Forall_lookup_1]. split; [lia|]. by apply Forall_insert.
  - pose proof (sum_list_with_delete future_holds _ _ _ Hj). split; [lia|]. by apply Forall_delete.
Qed.

Lemma held_futures fs : Forall permit_ok fs → sum_list_with future_holds fs = length (filter waiting fs).
Proof.
  induction 1 as [|f fs Hf _ IH]; [done|]. rewrite filter_cons. cbn [sum_list_with]. rewrite (permit_ok_holds _ Hf), IH.
  by destruct (waiting f).
Qed.

Lemma held_handles hs : sum_list_with handle_holds hs = length (filter ags_already_acquired_permit hs).
Proof. induction hs as [|h hs IH]; [done|]. rewrite filter_cons. cbn [sum_list_with]. rewrite IH. unfold handle_holds. by destruct (ags_already_acquired_permit h). Qed.

(** C21. Under every interleaving of the connections each request that is being
    authenticated or waits for the inner service accounts for exactly one permit,
    and so does each handle that is ready to be called: with the permits left
    they add up to the limit at all times. So no more than
    [concurrent_auth_limit] requests are authenticated or waiting at a time,
    whatever the authenticator and the inner service do; no permit is given back
    before its request is called or refused, and none is lost: with no request
    and no handle left over all permits are there again. *)
Theorem auth_permits_conserved concurrent_auth_limit sys :
  rtc guard_step (GuardSystem_new concurrent_auth_limit) sys →
  (gs_permits sys + length (filter ags_already_acquired_permit (gs_handles sys)) + length (filter waiting (gs_futures sys))
    = concurrent_auth_limit)%nat.
Proof.
  intros Hsteps. assert (guard_inv concurrent_auth_limit sys) as [Hsum Hok].
  { refine (rtc_ind_r (guard_inv concurrent_auth_limit) (GuardSystem_new concurrent_auth_limit) _ _ sys Hsteps).
    - unfold guard_inv, held. cbn. split; [lia|constructor].
    - intros y z _ Hstep Hy. by eapply guard_step_inv. }
  unfold held in Hsum. rewrite (held_futures _ Hok), held_handles in Hsum. lia.
Qed.
End service.

(** ** Example: two handles, one permit *)

Section demo.
Local Abbreviation demo_future := (@AuthGuardFuture nat nat unit unit unit nat nat).
Local Definition demo_system : GuardSystem := GuardSystem_new (R:=nat) (X:=nat) (AF:=unit) (SF:=unit) (E:=nat) (Resp:=nat) 1.

Lemma auth_permits_conserved_witness :
  ∃ sys, rtc (guard_step (R:=nat) (X:=nat) (S:=unit) (AE:=nat) (λ _, tt) (λ f, (Pending, f)) (λ s, (Pending, s)) (λ s _, (tt, s)) (λ f, (Pending, f)))
    demo_system sys ∧ (gs_permits sys = 0 ∧ length (gs_futures sys) = 1)%nat ∧
  (gs_permits sys + length (filter ags_already_acquired_permit (gs_handles sys)) + length (filter waiting (gs_futures sys)) = 1)%nat.
Proof.
  set (step := guard_step _ _ _ _ _). assert (∃ sys, rtc step demo_system sys ∧ (gs_permits sys = 0 ∧ length (gs_futures sys) = 1)%nat)
    as (sys&Hsteps&Hsys).
  - eexists. split.
    + eapply rtc_l; [eapply step_poll_ready with (i := 0%nat); reflexivity|].
      eapply rtc_l; [eapply step_call with (i := 0%nat) (r := 7%nat); reflexivity|apply rtc_refl].
    + done.
  - exists sys. split; [done|]. split; [done|]. eapply auth_permits_conserved. exact Hsteps.
Defined.
End demo.
