(* ===== verification/Ratelimit.v ===== *)
(** * ratelimit.rs, util/uri.rs: the calls a subscriber makes of a method

    The interceptor that keeps a token bucket per subscriber, method and limit,
    in a map the connections share: the limit that applies, the collection of
    idle buckets every [gc_tick] calls, the check. *)

From S2P Require Import Prelude F64 Window Auth.

Set Default Goal Selector "!".

Local Open Scope Z_scope.

(** ** util/uri.rs *)

(** [http::uri::PathAndQuery]. *)
Record PathAndQuery := mkPathAndQuery {
  pq_path : string;
  pq_query : option string
}.

Record PathName := mkPathName {
  pn_path_and_query : PathAndQuery
}.

Definition PathName_as_ref (p : PathName) : string := pq_path (pn_path_and_query p).

(** [PartialEq] and [Hash] look at the path only. *)
#[global] Instance PathName_equiv : Equiv PathName := λ p q, PathName_as_ref p = PathName_as_ref q.

#[global] Instance PathName_equivalence : Equivalence (≡@{PathName}).
Proof. split; [by intros ?|by intros ? ?|intros x y z Hx Hy; by transitivity (PathName_as_ref y)]. Qed.

#[global] Instance PathName_as_ref_proper : Proper ((≡) ==> (=)) PathName_as_ref.
Proof. by intros ? ?. Qed.

(** ** ratelimit.rs *)

Definition DEFAULT_RATE_LIMIT_WINDOW : Z := 10 * NANOS_PER_SEC.
Definition DEFAULT_RATE_LIMIT_MAX_HITS_FALLBACK : Z := 1000.
Definition DEFAULT_METHOD_RATELIMIT_IDLE_TIMEOUT : Z := 300 * NANOS_PER_SEC.
Definition DEFAULT_METHOD_RATELIMIT_GC_TICK : Z := 1024.

Record MethodRatelimitKey := mkMethodRatelimitKey {
  rk_subscriber_id : string;
  rk_method_name : PathName;
  rk_ratelimit : Z
}.

(** What the derived [Eq] and [Hash] of a key compare. *)
Definition key_index (key : MethodRatelimitKey) : string * string * Z :=
  (rk_subscriber_id key, PathName_as_ref (rk_method_name key), rk_ratelimit key).

Record MethodWindowState := mkMethodWindowState {
  mw_limiter : TokenBucketRateLimiter;
  mw_last_seen : Z
}.

Record SharedMethodRatelimiterState := mkShared {
  sh_active_windows_map : gmap (string * string * Z) MethodWindowState;
  sh_request_counter : Z
}.

Record MethodRatelimiter := mkMethodRatelimiter {
  mr_window : Z;
  mr_max_hits_fallback : Z;
  mr_idle_timeout : Z;
  mr_gc_tick : Z
}.

Definition shared_new : SharedMethodRatelimiterState := mkShared ∅ 0.

Definition MethodRatelimiter_with_gc (max_hits_fallback window idle_timeout gc_tick : Z) :
    MethodRatelimiter * SharedMethodRatelimiterState :=
  (mkMethodRatelimiter window max_hits_fallback idle_timeout gc_tick, shared_new).

Definition MethodRatelimiter_new (max_hits_fallback window : Z) : MethodRatelimiter * SharedMethodRatelimiterState :=
  MethodRatelimiter_with_gc max_hits_fallback window DEFAULT_METHOD_RATELIMIT_IDLE_TIMEOUT DEFAULT_METHOD_RATELIMIT_GC_TICK.

Definition MethodRatelimiter_default : MethodRatelimiter * SharedMethodRatelimiterState :=
  MethodRatelimiter_new DEFAULT_RATE_LIMIT_MAX_HITS_FALLBACK DEFAULT_RATE_LIMIT_WINDOW.

(** What the interceptor reads of a request. *)
Record HttpRequest := mkHttpRequest {
  rq_subscription : option SubscriptionInfo;
  rq_path_and_query : option PathAndQuery
}.

Inductive Status :=
| resource_exhausted (message : string)
| unauthenticated (message : string).

Definition maybe_run_gc (this : MethodRatelimiter) (shared : SharedMethodRatelimiterState) (now : Z) : SharedMethodRatelimiterState :=
  if mr_gc_tick this =? 0 then shared
  else
    let request_counter := wrap64 (sh_request_counter shared + 1) in
    mkShared
      (if request_counter mod mr_gc_tick this =? 0 then
         filter (λ '(_, state), saturating_duration_since now (mw_last_seen state) <= mr_idle_timeout this)
           (sh_active_windows_map shared)
       else sh_active_windows_map shared)
      request_counter.

(** The limit that applies. [request.uri().path()] is the path of
    [path_and_query], which is present here. *)
Definition applicable_ratelimit (this : MethodRatelimiter) (subscription_info : SubscriptionInfo) (path : string) : Z :=
  match si_ratelimits subscription_info with
  | Some ratelimits => default (rate_default ratelimits) (rate_methods ratelimits !! path)
  | None => mr_max_hits_fallback this
  end.

(** The bucket of a key and its check. *)
Definition check_window (this : MethodRatelimiter) (window_key : MethodRatelimitKey)
    (shared : SharedMethodRatelimiterState) (now : Z) : outcome (WindowDecision * SharedMethodRatelimiterState) :=
  let state := default (mkMethodWindowState (TokenBucketRateLimiter_new (rk_ratelimit window_key) (mr_window this)) now)
                 (sh_active_windows_map shared !! key_index window_key) in
  '(decision, limiter) ← check_at (mw_limiter state) now;
  Done (decision,
        mkShared (<[key_index window_key := mkMethodWindowState limiter now]> (sh_active_windows_map shared))
          (sh_request_counter shared)).

(** [inner_call]: the request goes on unchanged, or is refused. *)
Definition inner_call (this : MethodRatelimiter) (shared : SharedMethodRatelimiterState) (request : HttpRequest) (now : Z) :
    outcome (result Status HttpRequest * SharedMethodRatelimiterState) :=
  let shared := maybe_run_gc this shared now in
  match rq_subscription request with
  | None => Done (Ok request, shared)
  | Some subscription_info =>
      match rq_path_and_query request with
      | None => Done (Ok request, shared)
      | Some path_and_query =>
          let method_name := mkPathName path_and_query in
          let window_key := mkMethodRatelimitKey (si_subscription_id subscription_info) method_name
                              (applicable_ratelimit this subscription_info (PathName_as_ref method_name)) in
          if rk_ratelimit window_key <? 0 then Done (Ok request, shared)
          else if 0 <? rk_ratelimit window_key then
            '(decision, shared) ← check_window this window_key shared now;
            Done (if wd_allowed decision then Ok request else Err (resource_exhausted "rate limit exceeded"), shared)
          else Panic
      end
  end.

(** The calls of all connections, in the order they reach the interceptor. *)
Fixpoint calls_run (this : MethodRatelimiter) (shared : SharedMethodRatelimiterState) (calls : list (HttpRequest * Z)) :
    outcome (list (result Status HttpRequest) * SharedMethodRatelimiterState) :=
  match calls with
  | [] => Done ([], shared)
  | (request, now) :: calls =>
      '(r, shared) ← inner_call this shared request now;
      '(rs, shared) ← calls_run this shared calls;
      Done (r :: rs, shared)
  end.

(** The key of a request that a limit applies to. *)
Definition request_key (this : MethodRatelimiter) (request : HttpRequest) : option (string * string * Z) :=
  match rq_subscription request, rq_path_and_query request with
  | Some info, Some path =>
      let limit := applicable_ratelimit this info (pq_path path) in
      if limit <? 0 then None else Some (si_subscription_id info, pq_path path, limit)
  | _, _ => None
  end.

(** How many requests of a key were let through. *)
Fixpoint admitted (this : MethodRatelimiter) (κ : string * string * Z) (rs : list (result Status HttpRequest)) : Z :=
  match rs with
  | [] => 0
  | Ok request :: rs => (if bool_decide (request_key this request = Some κ) then 1 else 0) + admitted this κ rs
  | Err _ :: rs => admitted this κ rs
  end.

(** How many requests have a key. *)
Fixpoint asked (this : MethodRatelimiter) (κ : string * string * Z) (requests : list HttpRequest) : Z :=
  match requests with
  | [] => 0
  | request :: requests => (if bool_decide (request_key this request = Some κ) then 1 else 0) + asked this κ requests
  end.

(** ** Lemmas *)

(** Requests that differ in the query only share a bucket. *)
Lemma key_index_proper s p q l : p ≡ q → key_index (mkMethodRatelimitKey s p l) = key_index (mkMethodRatelimitKey s q l).
Proof. intros Hpq. unfold key_index. cbn. by rewrite Hpq. Qed.

(** No limit of zero: the calls that do not reach the assertion. *)
Definition limit_ok (this : MethodRatelimiter) (request : HttpRequest) : Prop :=
  match request_key this request with Some (_, _, limit) => 0 < limit < 2 ^ 31 | None => True end.

Definition window_ok (this : MethodRatelimiter) (κ : string * string * Z) (state : MethodWindowState) : Prop :=
  0 < snd κ < 2 ^ 31 ∧ limiter_ok (snd κ) (mr_window this) (mw_limiter state) ∧ instant (mw_last_seen state).

Definition shared_ok (this : MethodRatelimiter) (shared : SharedMethodRatelimiterState) : Prop :=
  map_Forall (window_ok this) (sh_active_windows_map shared).

(** The calls of a key that its bucket would let through at [now]. *)
Definition left_at (κ : string * string * Z) (shared : SharedMethodRatelimiterState) (now : Z) : Z :=
  match sh_active_windows_map shared !! κ with
  | Some state => available (snd κ) (mw_limiter state) now
  | None => snd κ
  end.

Section limiter.
Context (this : MethodRatelimiter) (Hwindow : 0 <= mr_window this < 2 ^ 58 * NANOS_PER_SEC)
  (Hidle : 0 <= mr_idle_timeout this).

Lemma shared_ok_new : shared_ok this shared_new.
Proof. intros κ state. cbn. by rewrite lookup_empty. Qed.

Lemma window_gc_ok shared now : shared_ok this shared → shared_ok this (maybe_run_gc this shared now).
Proof.
  intros Hok. unfold maybe_run_gc. destruct (mr_gc_tick this =? 0); [done|].
  destruct (_ =? 0); cbn; [|done]. intros κ state Hκ. apply map_lookup_filter_Some in Hκ as [Hκ _]. by apply Hok.
Qed.

(** The collection leaves a bucket alone, or removes one not used at [now]. *)
Lemma gc_lookup shared now κ :
  sh_active_windows_map (maybe_run_gc this shared now) !! κ = sh_active_windows_map shared !! κ ∨
  sh_active_windows_map (maybe_run_gc this shared now) !! κ = None ∧
  ∀ state, sh_active_windows_map shared !! κ = Some state → mw_last_seen state ≠ now.
Proof using Hidle.
  unfold maybe_run_gc. destruct (mr_gc_tick this =? 0); [by left|].
  destruct (_ =? 0); cbn; [|by left]. destruct (sh_active_windows_map shared !! κ) as [state|] eqn:Hκ.
  - destruct (decide (saturating_duration_since now (mw_last_seen state) <= mr_idle_timeout this)) as [Hle|Hgt].
    + left. by apply map_lookup_filter_Some.
    + right. split; [apply map_lookup_filter_None; right; intros state' Hs; by simplify_eq|].
      intros state' [= <-] Hseen. unfold saturating_duration_since in Hgt. lia.
  - left. apply map_lookup_filter_None. by left.
Qed.

Lemma check_window_spec key shared now : shared_ok this shared → 0 < rk_ratelimit key < 2 ^ 31 → instant now →
  let κ := key_index key in
  ∃ d shared', check_window this key shared now = Done (d, shared') ∧ shared_ok this shared' ∧
    0 <= left_at κ shared now <= rk_ratelimit key ∧
    wd_allowed d = bool_decide (1 <= left_at κ shared now) ∧
    left_at κ shared' now = Z.max 0 (left_at κ shared now - 1) ∧
    (∃ state, sh_active_windows_map shared' !! κ = Some state ∧ mw_last_seen state = now) ∧
    ∀ κ', κ' ≠ κ → sh_active_windows_map shared' !! κ' = sh_active_windows_map shared !! κ'.
Proof using Hwindow.
  intros Hok Hlimit Hnow κ. unfold check_window. fold κ.
  set (state := default _ _).
  assert (limiter_ok (rk_ratelimit key) (mr_window this) (mw_limiter state)) as Hl.
  { unfold state. destruct (sh_active_windows_map shared !! κ) as [s|] eqn:Hs; [|apply limiter_ok_new].
    by apply Hok in Hs as (_&Hs&_). }
  assert (left_at κ shared now = available (rk_ratelimit key) (mw_limiter state) now) as Hleft.
  { unfold left_at, state. by destruct (sh_active_windows_map shared !! κ). }
  destruct (check_at_spec (rk_ratelimit key) (mr_window this) ltac:(lia) Hwindow _ _ Hl Hnow) as (d&l'&->&Hl'&Ha&Hallow&_&Hnext).
  cbn [mbind outcome_bind]. do 2 eexists. split; [done|]. rewrite Hleft. split; [|split; [done|split; [done|]]].
  { intros κ' s. cbn. destruct (decide (κ' = κ)) as [->|Hne].
    - rewrite lookup_insert_eq. intros [= <-]. by split.
    - rewrite lookup_insert_ne by done. apply Hok. }
  cbn [sh_active_windows_map]. split; [|split].
  - unfold left_at. cbn [sh_active_windows_map]. rewrite lookup_insert_eq. exact Hnext.
  - rewrite lookup_insert_eq. by eexists.
  - intros κ' Hne. by rewrite lookup_insert_ne.
Qed.
(** One call: those without a limit go through; one with a limit goes through
    when its bucket has a token left, which it takes. *)
Lemma inner_call_spec shared request now : shared_ok this shared → limit_ok this request → instant now →
  let shared1 := maybe_run_gc this shared now in
  ∃ r shared', inner_call this shared request now = Done (r, shared') ∧ shared_ok this shared' ∧
    match request_key this request with
    | None => r = Ok request ∧ shared' = shared1
    | Some κ =>
        0 <= left_at κ shared1 now <= snd κ ∧
        r = (if bool_decide (1 <= left_at κ shared1 now) then Ok request else Err (resource_exhausted "rate limit exceeded")) ∧
        left_at κ shared' now = Z.max 0 (left_at κ shared1 now - 1) ∧
        (∃ state, sh_active_windows_map shared' !! κ = Some state ∧ mw_last_seen state = now) ∧
        ∀ κ', κ' ≠ κ → sh_active_windows_map shared' !! κ' = sh_active_windows_map shared1 !! κ'
    end.
Proof using Hwindow.
  intros Hok Hlimit Hnow. apply (window_gc_ok _ now) in Hok. unfold limit_ok, request_key in *.
  unfold inner_call. set (shared1 := maybe_run_gc this shared now) in *. cbv zeta.
  destruct (rq_subscription request) as [info|]; [|by do 2 eexists].
  destruct (rq_path_and_query request) as [path|]; [|by do 2 eexists].
  change (PathName_as_ref (mkPathName path)) with (pq_path path). cbn [rk_ratelimit].
  set (limit := applicable_ratelimit this info (pq_path path)) in *.
  destruct (limit <? 0); [by do 2 eexists|]. rewrite (proj2 (Z.ltb_lt 0 limit)) by lia.
  destruct (check_window_spec (mkMethodRatelimitKey (si_subscription_id info) (mkPathName path) limit) shared1 now Hok Hlimit Hnow)
    as (d&shared'&->&Hok'&Ha&Hallow&Hnext&Hseen&Hother). cbn [mbind outcome_bind].
  do 2 eexists. split; [done|]. split; [done|]. by rewrite Hallow.
Qed.

Lemma calls_run_ok calls shared : shared_ok this shared → Forall (λ '(request, now), limit_ok this request ∧ instant now) calls →
  ∃ rs shared', calls_run this shared calls = Done (rs, shared') ∧ shared_ok this shared'.
Proof using Hwindow.
  intros Hok Hcalls. revert shared Hok. induction Hcalls as [|[request now] calls [Hlimit Hnow] Hcalls IH]; intros shared Hok.
  - by do 2 eexists.
  - destruct (inner_call_spec shared request now Hok Hlimit Hnow) as (r&shared'&Hcall&Hok'&_).
    destruct (IH shared' Hok') as (rs&shared''&Hrun&Hok''). cbn [calls_run]. rewrite Hcall. cbn [mbind outcome_bind].
    rewrite Hrun. by do 2 eexists.
Qed.

(** A bucket that is fresh or was used at [now]: the collection cannot replace it. *)
Definition settled (κ : string * string * Z) (shared : SharedMethodRatelimiterState) (now : Z) : Prop :=
  ∀ state, sh_active_windows_map shared !! κ = Some state → mw_last_seen state = now.

Lemma gc_settled κ shared now : settled κ shared now →
  sh_active_windows_map (maybe_run_gc this shared now) !! κ = sh_active_windows_map shared !! κ.
Proof using Hidle.
  intros Hs. destruct (gc_lookup shared now κ) as [|[Hnone Hnot]]; [done|]. rewrite Hnone.
  destruct (sh_active_windows_map shared !! κ) as [state|] eqn:Hκ; [|done]. by destruct (Hnot state eq_refl (Hs state Hκ)).
Qed.

Lemma left_at_range κ shared now : shared_ok this shared → instant now → 0 < snd κ →
  0 <= left_at κ shared now <= snd κ.
Proof using Hwindow.
  intros Hok Hnow Hpos. unfold left_at. destruct (sh_active_windows_map shared !! κ) as [state|] eqn:Hs; [|lia].
  destruct (Hok κ state Hs) as (Hl&Hlim&_).
  by destruct (check_at_spec (snd κ) (mr_window this) ltac:(lia) Hwindow _ _ Hlim Hnow) as (?&?&_&_&?&_).
Qed.

Lemma asked_nonneg κ requests : 0 <= asked this κ requests.
Proof. induction requests as [|r rs IH]; cbn [asked]; [done|]. case_bool_decide; lia. Qed.

(** Calls at one instant: a key gets through what it asks for, up to what its
    bucket has left; a bucket is only replaced by a full one before its first
    call. *)
Lemma instant_calls κ now requests shared : shared_ok this shared → Forall (limit_ok this) requests → instant now →
  0 < snd κ →
  ∃ rs shared', calls_run this shared ((λ request, (request, now)) <$> requests) = Done (rs, shared') ∧
    admitted this κ rs <= snd κ ∧
    (settled κ shared now → admitted this κ rs = Z.min (left_at κ shared now) (asked this κ requests)).
Proof using Hwindow Hidle.
  intros Hok Hreqs Hnow Hpos. revert shared Hok. induction Hreqs as [|request requests Hlimit Hreqs IH]; intros shared Hok.
  { do 2 eexists. split; [done|]. pose proof (left_at_range κ shared now Hok Hnow Hpos). cbn. lia. }
  pose proof (left_at_range κ _ now (window_gc_ok shared now Hok) Hnow Hpos) as Hrange.
  destruct (inner_call_spec shared request now Hok Hlimit Hnow) as (r&shared'&Hcall&Hok'&Hr).
  destruct (IH shared' Hok') as (rs&shared''&Hrun&Hle&Hleft). rewrite fmap_cons. cbn [calls_run]. rewrite Hcall.
  cbn [mbind outcome_bind]. rewrite Hrun. cbn [mbind outcome_bind]. do 2 eexists. split; [done|].
  pose proof (asked_nonneg κ requests). cbn [asked].
  assert (settled κ shared now → left_at κ shared now = left_at κ (maybe_run_gc this shared now) now) as Hgc.
  { intros Hs. unfold left_at. by rewrite gc_settled. }
  destruct (request_key this request) as [κ'|] eqn:Hkey.
  - destruct Hr as (_&->&Hnext&(state&Hs&Hseen)&Hother). destruct (decide (κ' = κ)) as [->|Hne].
    + assert (settled κ shared' now) as Hset by (intros s; by rewrite Hs; intros [= <-]).
      specialize (Hleft Hset). rewrite Hnext in Hleft. rewrite (bool_decide_true (Some κ = Some κ)) by done.
      case_bool_decide as Hone; cbn [admitted]; rewrite ?Hkey, ?bool_decide_true by done;
        (split; [lia|intros Hin; specialize (Hgc Hin); lia]).
    + rewrite (bool_decide_false (Some κ' = Some κ)) by congruence.
      assert (∀ b : bool, admitted this κ ((if b then Ok request else Err (resource_exhausted "rate limit exceeded")) :: rs)
        = admitted this κ rs) as ->.
      { intros []; [|done]. cbn [admitted]. rewrite Hkey, bool_decide_false by congruence. lia. }
      split; [done|]. intros Hin. rewrite Hgc by done.
      assert (sh_active_windows_map shared' !! κ = sh_active_windows_map shared !! κ) as Heq
        by (rewrite Hother by done; by apply gc_settled).
      rewrite Hleft; [|intros s; rewrite Heq; apply Hin]. unfold left_at. rewrite Heq, gc_settled by done. done.
  - destruct Hr as [-> ->]. cbn [admitted]. rewrite Hkey, bool_decide_false by done. split; [lia|].
    intros Hin. rewrite Hgc by done. rewrite Hleft; [done|]. intros s. rewrite gc_settled by done. apply Hin.
Qed.

(** Whatever calls were made before, of those that reach the interceptor at
    one instant, from any connections and for any methods, at most the limit is
    let through for a subscriber, method and limit, and exactly the limit, or all
    that are made, when the key was not used before. No call panics as long as no
    limit is zero. *)
Theorem method_burst_limited calls requests now subscriber path limit :
  Forall (λ '(request, at_), limit_ok this request ∧ instant at_) calls →
  Forall (limit_ok this) requests → instant now → 0 < limit →
  let κ := (subscriber, path, limit) in
  ∃ rs0 shared rs shared', calls_run this shared_new calls = Done (rs0, shared) ∧
    calls_run this shared ((λ request, (request, now)) <$> requests) = Done (rs, shared') ∧
    admitted this κ rs <= limit ∧
    (sh_active_windows_map shared !! κ = None → admitted this κ rs = Z.min limit (asked this κ requests)).
Proof using Hwindow Hidle.
  intros Hcalls Hreqs Hnow Hpos κ. destruct (calls_run_ok calls shared_new shared_ok_new Hcalls) as (rs0&shared&Hrun&Hok).
  destruct (instant_calls κ now requests shared Hok Hreqs Hnow Hpos) as (rs&shared'&Hrun'&Hle&Heq).
  exists rs0, shared, rs, shared'. split; [done|]. split; [done|]. split; [done|]. intros Hnone.
  rewrite Heq by (intros s; by rewrite Hnone). unfold left_at. by rewrite Hnone.
Qed.
End limiter.

(** A limit of zero, which nothing rules out in what the authentication endpoint
    answers, panics. *)
Lemma zero_limit_panics this shared request now info path :
  rq_subscription request = Some info → rq_path_and_query request = Some path →
  applicable_ratelimit this info (pq_path path) = 0 → inner_call this shared request now = Panic.
Proof.
  intros Hinfo Hpath Hzero. unfold inner_call. rewrite Hinfo, Hpath. cbn [rk_ratelimit].
  change (PathName_as_ref (mkPathName path)) with (pq_path path). by rewrite Hzero.
Qed.

(** ** Examples *)

Section demo.
Local Definition demo_request (subscriber : string) (limit : Z) : HttpRequest :=
  mkHttpRequest (Some (mkSubscriptionInfo subscriber (Some (mkSubscriptionRateLimits limit ∅))))
    (Some (mkPathAndQuery "/geyser.Geyser/Ping" None)).

(** One call in ten minutes, an idle timeout of five: another subscriber's call
    after five minutes collects the drained bucket, and the next call of the
    first is let through. *)
Lemma idle_timeout_resets_limit :
  (λ r, match r with Done (rs, _) => is_ok <$> rs | _ => [] end)
    (calls_run (fst (MethodRatelimiter_with_gc 1000 (600 * NANOS_PER_SEC) DEFAULT_METHOD_RATELIMIT_IDLE_TIMEOUT 3))
       shared_new
       [(demo_request "a" 1, 0); (demo_request "a" 1, NANOS_PER_SEC); (demo_request "b" 1, 302 * NANOS_PER_SEC);
        (demo_request "a" 1, 302 * NANOS_PER_SEC)])
  = [true; false; true; true].
Proof. by vm_compute. Qed.

Lemma method_burst_limited_witness : ∃ rs0 shared rs shared',
  calls_run (fst MethodRatelimiter_default) shared_new [(demo_request "a" 1, 5)] = Done (rs0, shared) ∧
  calls_run (fst MethodRatelimiter_default) shared
    ((λ request, (request, 7)) <$> [demo_request "a" 2; demo_request "b" 1; demo_request "a" 2; demo_request "a" 2])
  = Done (rs, shared') ∧
  admitted (fst MethodRatelimiter_default) ("a"%string, "/geyser.Geyser/Ping"%string, 2) rs <= 2 ∧
  (sh_active_windows_map shared !! ("a"%string, "/geyser.Geyser/Ping"%string, 2) = None →
    admitted (fst MethodRatelimiter_default) ("a"%string, "/geyser.Geyser/Ping"%string, 2) rs
    = Z.min 2 (asked (fst MethodRatelimiter_default) ("a"%string, "/geyser.Geyser/Ping"%string, 2)
        [demo_request "a" 2; demo_request "b" 1; demo_request "a" 2; demo_request "a" 2])).
Proof.
  apply (method_burst_limited (fst MethodRatelimiter_default)); [by vm_compute|done| | |by vm_compute|done].
  - apply Forall_singleton. by vm_compute.
  - by repeat constructor.
Defined.
End demo.
