(* ===== verification/Metered.v ===== *)
(** * Counting the bytes of the responses

    server/tonic/metered.rs of yellowstone-grpc-tools and metered.rs of the
    server: the body that counts the bytes of its data frames and reports them
    past a threshold and when it is dropped, the hooks that take the reports, the
    managers that build the hooks of a request, and how both are stacked. Hooks
    act on a world [W], what they share: channels, gauges. *)

From S2P Require Import Prelude Auth Ratelimit AuthService.

Set Default Goal Selector "!".

Local Open Scope Z_scope.

(** ** The interfaces *)

(** [MeteredBandwidthHooks], with the effect of dropping the hooks. The instants
    of a report are not used by any implementation. *)
Class MeteredBandwidthHooks (W MH : Type) := {
  on_emit_bytes : MH → Z → W → MH * W;
  drop_hooks : MH → W → W
}.

(** [http::request::Parts], with the subscription the authentication attached. *)
Record RequestParts {H : Http} := mkRequestParts {
  rp_subscription : option SubscriptionInfo;
  rp_path_and_query : option PathAndQuery;
  rp_headers : HeaderMap
}.
Arguments mkRequestParts {H} rp_subscription rp_path_and_query rp_headers.
Arguments rp_subscription {H} r.
Arguments rp_path_and_query {H} r.
Arguments rp_headers {H} r.

Class MeteredManager {H : Http} (W MM MH : Type) := {
  build_hooks : MM → RequestParts → W → option MH * W;
  on_method : MM → RequestParts → W → W
}.

(** ** Stacking *)

Record StackMeteredHooks (MH1 MH2 : Type) := mkStackMeteredHooks {
  smh_hooks1 : MH1;
  smh_hooks2 : MH2
}.
Arguments mkStackMeteredHooks {MH1 MH2} smh_hooks1 smh_hooks2.
Arguments smh_hooks1 {MH1 MH2} s.
Arguments smh_hooks2 {MH1 MH2} s.

#[global] Instance StackMeteredHooks_hooks {W MH1 MH2} (H1 : MeteredBandwidthHooks W MH1) (H2 : MeteredBandwidthHooks W MH2) :
    MeteredBandwidthHooks W (StackMeteredHooks MH1 MH2) := {|
  on_emit_bytes self byte_count w :=
    let '(hooks1, w) := on_emit_bytes (smh_hooks1 self) byte_count w in
    let '(hooks2, w) := on_emit_bytes (smh_hooks2 self) byte_count w in
    (mkStackMeteredHooks hooks1 hooks2, w);
  drop_hooks self w := drop_hooks (smh_hooks2 self) (drop_hooks (smh_hooks1 self) w)
|}.

#[global] Instance option_hooks {W MH} (H : MeteredBandwidthHooks W MH) : MeteredBandwidthHooks W (option MH) := {|
  on_emit_bytes self byte_count w :=
    match self with
    | Some hooks => let '(hooks, w) := on_emit_bytes hooks byte_count w in (Some hooks, w)
    | None => (None, w)
    end;
  drop_hooks self w := match self with Some hooks => drop_hooks hooks w | None => w end
|}.

Record StackMeteredManager (MM1 MM2 : Type) := mkStackMeteredManager {
  smm_manager1 : MM1;
  smm_manager2 : MM2
}.
Arguments mkStackMeteredManager {MM1 MM2} smm_manager1 smm_manager2.
Arguments smm_manager1 {MM1 MM2} s.
Arguments smm_manager2 {MM1 MM2} s.

#[global] Instance StackMeteredManager_manager {H : Http} {W MM1 MM2 MH1 MH2}
    (M1 : MeteredManager W MM1 MH1) (M2 : MeteredManager W MM2 MH2) :
    MeteredManager W (StackMeteredManager MM1 MM2) (StackMeteredHooks (option MH1) (option MH2)) := {|
  build_hooks self parts w :=
    let '(hooks1, w) := build_hooks (smm_manager1 self) parts w in
    let '(hooks2, w) := build_hooks (smm_manager2 self) parts w in
    match hooks1, hooks2 with
    | None, None => (None, w)
    | _, _ => (Some (mkStackMeteredHooks hooks1 hooks2), w)
    end;
  on_method self parts w := on_method (smm_manager2 self) parts (on_method (smm_manager1 self) parts w)
|}.

#[global] Instance option_manager {H : Http} {W MM MH} (M : MeteredManager W MM MH) : MeteredManager W (option MM) MH := {|
  build_hooks self parts w := match self with Some manager => build_hooks manager parts w | None => (None, w) end;
  on_method self parts w := match self with Some manager => on_method manager parts w | None => w end
|}.

(** ** The body *)

Definition DEFAULT_TRAFFIC_REPORTING_THRESHOLD : Z := 32 * 1024.

(** A poll of the inner body: a data frame with its remaining bytes, another
    frame, an error or the end. *)
Inductive frame_poll (E : Type) :=
| Frame_pending
| Frame_data (remaining : Z)
| Frame_other
| Frame_err (err : E)
| Frame_end.
Arguments Frame_pending {E}.
Arguments Frame_data {E} remaining.
Arguments Frame_other {E}.
Arguments Frame_err {E} err.
Arguments Frame_end {E}.

Record MeteredBandwidthBody (MH : Type) := mkMeteredBandwidthBody {
  mb_metered_hooks : option MH;
  mb_traffic_reporting_threshold : Z;
  mb_cumulative_bytes : Z
}.
Arguments mkMeteredBandwidthBody {MH} mb_metered_hooks mb_traffic_reporting_threshold mb_cumulative_bytes.
Arguments mb_metered_hooks {MH} m.
Arguments mb_traffic_reporting_threshold {MH} m.
Arguments mb_cumulative_bytes {MH} m.

Section body.
Context {W MH E : Type} {HM : MeteredBandwidthHooks W MH}.

(** [poll_frame]: the poll itself is passed on unchanged. *)
Definition poll_frame (this : MeteredBandwidthBody MH) (polled : frame_poll E) (w : W) :
    frame_poll E * MeteredBandwidthBody MH * W :=
  match polled with
  | Frame_data remaining =>
      let cumulative_bytes := wrap64 (mb_cumulative_bytes this + remaining) in
      if bool_decide (mb_traffic_reporting_threshold this <= cumulative_bytes) then
        let '(metered_hooks, w) := on_emit_bytes (mb_metered_hooks this) cumulative_bytes w in
        (polled, mkMeteredBandwidthBody metered_hooks (mb_traffic_reporting_threshold this) 0, w)
      else
        (polled, mkMeteredBandwidthBody (mb_metered_hooks this) (mb_traffic_reporting_threshold this) cumulative_bytes, w)
  | _ => (polled, this, w)
  end.

(** The drop reports the rest, also when it is zero; then the hooks go. *)
Definition MeteredBandwidthBody_drop (this : MeteredBandwidthBody MH) (w : W) : W :=
  let '(metered_hooks, w) := on_emit_bytes (mb_metered_hooks this) (mb_cumulative_bytes this) w in
  drop_hooks metered_hooks w.

(** [MeteredBandwidthFuture::poll], on what the wrapped future gives: the body of
    a response is wrapped, an error drops the hooks with the future. *)
Definition MeteredBandwidthFuture_ready {R Err_} (metered_hooks : option MH) (traffic_reporting_threshold : Z)
    (result_ : result Err_ R) (w : W) : result Err_ (R * MeteredBandwidthBody MH) * W :=
  match result_ with
  | Ok response => (Ok (response, mkMeteredBandwidthBody metered_hooks traffic_reporting_threshold 0), w)
  | Err e => (Err e, drop_hooks metered_hooks w)
  end.

Fixpoint poll_frames (this : MeteredBandwidthBody MH) (polls : list (frame_poll E)) (w : W) : MeteredBandwidthBody MH * W :=
  match polls with
  | [] => (this, w)
  | polled :: polls => let '(_, this, w) := poll_frame this polled w in poll_frames this polls w
  end.

(** The life of a body: its polls and its drop. *)
Definition body_run (metered_hooks : option MH) (threshold : Z) (polls : list (frame_poll E)) (w : W) : W :=
  let '(this, w) := poll_frames (mkMeteredBandwidthBody metered_hooks threshold 0) polls w in
  MeteredBandwidthBody_drop this w.

(** The bytes that go out. *)
Fixpoint emitted_bytes (polls : list (frame_poll E)) : Z :=
  match polls with
  | [] => 0
  | Frame_data remaining :: polls => remaining + emitted_bytes polls
  | _ :: polls => emitted_bytes polls
  end.

(** A list of reports, one after the other. *)
Definition emit_all (hooks : option MH) (reports : list Z) (w : W) : option MH * W :=
  foldl (λ '(hooks, w) byte_count, on_emit_bytes hooks byte_count w) (hooks, w) reports.
End body.

(** [MeteredBandwidthService::call]: the hooks are built from the request's
    parts, after the managers have seen the method. *)
Definition metered_call {H : Http} {W MM MH} `{!MeteredManager W MM MH} (metered_manager : MM) (parts : RequestParts) (w : W) :
    option MH * W :=
  let w := on_method metered_manager parts w in
  build_hooks metered_manager parts w.

Section body_facts.
Context {W MH E : Type} {HM : MeteredBandwidthHooks W MH}.

Lemma emit_all_app hooks r1 r2 (w : W) :
  emit_all hooks (r1 ++ r2) w = (let '(hooks, w) := emit_all hooks r1 w in emit_all hooks r2 w).
Proof. unfold emit_all. rewrite foldl_app. by destruct (foldl _ _ r1). Qed.

Lemma sum_Z_app (l1 l2 : list Z) : foldr Z.add 0 (l1 ++ l2) = foldr Z.add 0 l1 + foldr Z.add 0 l2.
Proof. induction l1 as [|x l1 IH]; cbn [app foldr]; [done|]. rewrite IH. lia. Qed.

Lemma emitted_bytes_nonneg (polls : list (frame_poll E)) :
  Forall (λ p, match p with Frame_data n => 0 <= n | _ => True end) polls → 0 <= emitted_bytes polls.
Proof. induction 1 as [|p polls Hp _ IH]; cbn [emitted_bytes]; [done|]. destruct p; lia. Qed.

(** What the polls report: full thresholds, and less than one is left over. *)
Lemma poll_frames_reports (polls : list (frame_poll E)) hooks threshold cumulative (w : W) :
  Forall (λ p, match p with Frame_data n => 0 <= n | _ => True end) polls →
  0 < threshold → 0 <= cumulative < threshold → cumulative + emitted_bytes polls < 2 ^ 64 →
  ∃ reports rest, let '(this, w') := poll_frames (mkMeteredBandwidthBody hooks threshold cumulative) polls w in
    emit_all hooks reports w = (mb_metered_hooks this, w') ∧ mb_cumulative_bytes this = rest ∧
    Forall (λ n, threshold <= n) reports ∧ 0 <= rest < threshold ∧
    foldr Z.add 0 reports + rest = cumulative + emitted_bytes polls.
Proof.
  intros Hpolls Hthr. revert hooks cumulative w. induction Hpolls as [|p polls Hp Hpolls IH]; intros hooks cumulative w Hc Hb.
  { exists [], cumulative. cbn. split; [done|]. split; [done|]. split; [done|]. lia. }
  pose proof (emitted_bytes_nonneg polls Hpolls) as Hge.
  cbn [poll_frames]. unfold poll_frame. destruct p as [|n| |e|]; cbn [emitted_bytes] in *; try by apply IH.
  cbn [mb_cumulative_bytes mb_traffic_reporting_threshold mb_metered_hooks].
  unfold wrap64. rewrite Z.mod_small by lia. case_bool_decide as Hcmp.
  - destruct (on_emit_bytes hooks (cumulative + n) w) as [hooks' w1] eqn:Hemit.
    destruct (IH hooks' 0 w1 ltac:(lia) ltac:(lia)) as (reports&rest&HIH). exists (cumulative + n :: reports), rest.
    destruct (poll_frames (mkMeteredBandwidthBody hooks' threshold 0) polls w1) as [this w2].
    destruct HIH as (He&Hr&Hall&Hrest&Hsum). split; [|split; [done|split; [by constructor|split; [done|cbn [foldr]; lia]]]].
    unfold emit_all in *. cbn [foldl]. by rewrite Hemit.
  - destruct (IH hooks (cumulative + n) w ltac:(lia) ltac:(lia)) as (reports&rest&HIH). exists reports, rest.
    destruct (poll_frames (mkMeteredBandwidthBody hooks threshold (cumulative + n)) polls w) as [this w2].
    destruct HIH as (He&Hr&Hall&Hrest&Hsum). split; [done|]. split; [done|]. split; [done|]. split; [done|lia].
Qed.

(** The reports of a body over its life: they add up to the bytes that went out,
    and all but the last, made by the drop, reach the threshold. *)
Lemma metered_bytes_reported (polls : list (frame_poll E)) hooks threshold (w : W) :
  Forall (λ p, match p with Frame_data n => 0 <= n | _ => True end) polls →
  0 < threshold → emitted_bytes polls < 2 ^ 64 →
  ∃ reports rest,
    body_run hooks threshold polls w = (let '(hooks, w) := emit_all hooks (reports ++ [rest]) w in drop_hooks hooks w) ∧
    foldr Z.add 0 (reports ++ [rest]) = emitted_bytes polls ∧
    Forall (λ n, threshold <= n) reports ∧ 0 <= rest < threshold.
Proof.
  intros Hpolls Hthr Hb. destruct (poll_frames_reports polls hooks threshold 0 w Hpolls Hthr ltac:(lia) ltac:(lia))
    as (reports&rest&H). exists reports, rest. unfold body_run.
  destruct (poll_frames _ polls w) as [this w']. destruct H as (He&Hr&Hall&Hrest&Hsum).
  rewrite emit_all_app, He, sum_Z_app. unfold MeteredBandwidthBody_drop. rewrite Hr. cbn [foldr]. split; [|split; [lia|done]].
  unfold emit_all. done.
Qed.

End body_facts.

(** ** metered.rs of the server: the Prometheus gauges *)

(** A part of the world, and what holds of reading and writing it. *)
Class HasPart (W P : Type) := {
  get_part : W → P;
  set_part : P → W → W
}.

Class HasPartLaws {W P} (L : HasPart W P) : Prop := {
  get_set_part p w : get_part (set_part p w) = p;
  set_get_part w : set_part (get_part w) w = w;
  set_set_part p q w : set_part p (set_part q w) = set_part p w
}.

#[global] Instance fst_part {P Q} : HasPart (P * Q) P := {| get_part := fst; set_part p w := (p, snd w) |}.
#[global] Instance snd_part {P Q} : HasPart (P * Q) Q := {| get_part := snd; set_part q w := (fst w, q) |}.
#[global] Instance fst_part_laws {P Q} : HasPartLaws (fst_part (P:=P) (Q:=Q)).
Proof. split; [done|by intros []|done]. Qed.
#[global] Instance snd_part_laws {P Q} : HasPartLaws (snd_part (P:=P) (Q:=Q)).
Proof. split; [done|by intros []|done]. Qed.

Definition X_SUBSCRIPTION_ID_HEADER_METERED : string := "x-subscription-id".
Definition UNKNOWN_SUBSCRIBER_ID : string := "unknown".

(** The bodies being sent per subscriber and path, the outbound gauges (one that
    was never set reads zero) and the counter of all traffic. *)
Record Prometheus := mkPrometheus {
  pm_active_bodies : gmap (string * string) Z;
  pm_outbound_bytes : gmap (string * string) Z;
  pm_total_traffic : Z
}.

Definition Prometheus_new : Prometheus := mkPrometheus ∅ ∅ 0.

Definition add_grpc_service_outbound_bytes (key : string * string) (bytes : Z) (m : Prometheus) : Prometheus :=
  mkPrometheus (pm_active_bodies m) (<[key := default 0 (pm_outbound_bytes m !! key) + bytes]> (pm_outbound_bytes m))
    (pm_total_traffic m).

Definition reset_grpc_service_outbound_bytes (key : string * string) (m : Prometheus) : Prometheus :=
  mkPrometheus (pm_active_bodies m) (<[key := 0]> (pm_outbound_bytes m)) (pm_total_traffic m).

Definition add_total_traffic_sent (bytes : Z) (m : Prometheus) : Prometheus :=
  mkPrometheus (pm_active_bodies m) (pm_outbound_bytes m) (pm_total_traffic m + bytes).

Definition increment_active_metered_bodies (key : string * string) (m : Prometheus) : Prometheus :=
  mkPrometheus (<[key := match pm_active_bodies m !! key with Some count => count + 1 | None => 1 end]> (pm_active_bodies m))
    (pm_outbound_bytes m) (pm_total_traffic m).

Definition decrement_active_metered_bodies (key : string * string) (m : Prometheus) : Prometheus :=
  match pm_active_bodies m !! key with
  | Some count =>
      if bool_decide (1 < count) then
        mkPrometheus (<[key := count - 1]> (pm_active_bodies m)) (pm_outbound_bytes m) (pm_total_traffic m)
      else
        reset_grpc_service_outbound_bytes key
          (mkPrometheus (delete key (pm_active_bodies m)) (pm_outbound_bytes m) (pm_total_traffic m))
  | None => m
  end.

Record PrometheusMeteredHooks := mkPrometheusMeteredHooks {
  pmh_subscriber_id : string;
  pmh_uri_path : PathAndQuery
}.

Definition prometheus_key (h : PrometheusMeteredHooks) : string * string := (pmh_subscriber_id h, pq_path (pmh_uri_path h)).

(** The early return of the hooks. *)
Definition unattributed (subscriber_id path : string) : bool :=
  bool_decide (subscriber_id = ""%string) && bool_decide (path = ""%string).

Inductive PrometheusMeteredManager := prometheus_metered_manager.

Section prometheus.
Context {W : Type} {L : HasPart W Prometheus}.

Definition update_prometheus (f : Prometheus → Prometheus) (w : W) : W := set_part (f (get_part w)) w.

#[global] Instance PrometheusMeteredHooks_hooks : MeteredBandwidthHooks W PrometheusMeteredHooks := {|
  on_emit_bytes self byte_count w :=
    if unattributed (pmh_subscriber_id self) (pq_path (pmh_uri_path self)) then (self, w)
    else (self, update_prometheus (λ m, add_grpc_service_outbound_bytes (prometheus_key self) byte_count
                  (add_total_traffic_sent byte_count m)) w);
  drop_hooks self w :=
    if unattributed (pmh_subscriber_id self) (pq_path (pmh_uri_path self)) then w
    else update_prometheus (decrement_active_metered_bodies (prometheus_key self)) w
|}.

#[global] Instance PrometheusMeteredManager_manager {H : Http} :
    MeteredManager W PrometheusMeteredManager PrometheusMeteredHooks := {|
  build_hooks _ parts w :=
    let subscriber_id :=
      match rp_subscription parts with
      | Some info => Some (si_subscription_id info)
      | None => headers_get (rp_headers parts) X_SUBSCRIPTION_ID_HEADER_METERED ≫= header_to_str
      end in
    match subscriber_id, rp_path_and_query parts with
    | Some subscriber_id, Some uri_path =>
        (Some (mkPrometheusMeteredHooks subscriber_id uri_path),
         update_prometheus (increment_active_metered_bodies (subscriber_id, pq_path uri_path)) w)
    | _, _ => (None, w)
    end;
  on_method _ _ w := w
|}.
End prometheus.

(** ** The hooks of many bodies at a time *)

Inductive hooks_op :=
| Hooks_built (subscriber_id : string) (uri_path : PathAndQuery)
| Hooks_emit (index : nat) (byte_count : Z)
| Hooks_dropped (index : nat).

(** The gauges and the hooks alive. *)
Definition hooks_step (st : Prometheus * list PrometheusMeteredHooks) (op : hooks_op) : Prometheus * list PrometheusMeteredHooks :=
  let '(m, hooks) := st in
  match op with
  | Hooks_built subscriber_id uri_path =>
      (increment_active_metered_bodies (subscriber_id, pq_path uri_path) m, mkPrometheusMeteredHooks subscriber_id uri_path :: hooks)
  | Hooks_emit index byte_count =>
      match hooks !! index with
      | Some h => ((on_emit_bytes h byte_count (m, tt)).2.1, hooks)
      | None => st
      end
  | Hooks_dropped index =>
      match hooks !! index with
      | Some h => ((drop_hooks h (m, tt)).1, delete index hooks)
      | None => st
      end
  end.

Definition hooks_run (ops : list hooks_op) : Prometheus * list PrometheusMeteredHooks :=
  foldl hooks_step (Prometheus_new, []) ops.

Fixpoint count_hooks (key : string * string) (hooks : list PrometheusMeteredHooks) : Z :=
  match hooks with
  | [] => 0
  | h :: hooks => (if bool_decide (prometheus_key h = key) then 1 else 0) + count_hooks key hooks
  end.

Lemma count_hooks_delete key hooks i h : hooks !! i = Some h →
  count_hooks key hooks = (if bool_decide (prometheus_key h = key) then 1 else 0) + count_hooks key (delete i hooks).
Proof.
  revert i. induction hooks as [|h' hooks IH]; intros [|i] Hi; try done.
  - by injection Hi as ->.
  - change (delete (S i) (h' :: hooks)) with (h' :: delete i hooks). cbn [count_hooks]. rewrite (IH i Hi). lia.
Qed.

Lemma count_hooks_nonneg key hooks : 0 <= count_hooks key hooks.
Proof. induction hooks as [|h hooks IH]; cbn [count_hooks]; [done|]. case_bool_decide; lia. Qed.

Definition active (m : Prometheus) (key : string * string) : Z := default 0 (pm_active_bodies m !! key).

(** The active bodies are the hooks alive, no entry is zero, and the gauge of a
    subscriber with no body is zero. *)
Definition hooks_inv (st : Prometheus * list PrometheusMeteredHooks) : Prop :=
  let '(m, hooks) := st in
  (∀ key, active m key = count_hooks key hooks) ∧
  (∀ key count, pm_active_bodies m !! key = Some count → 0 < count) ∧
  (∀ key, count_hooks key hooks = 0 → default 0 (pm_outbound_bytes m !! key) = 0) ∧
  (∀ h, h ∈ hooks → pq_path (pmh_uri_path h) ≠ ""%string).

(** http gives a path of ["/"] when it is empty. *)
Definition hooks_op_ok (op : hooks_op) : Prop :=
  match op with Hooks_built _ uri_path => pq_path uri_path ≠ ""%string | _ => True end.

Lemma attributed h : pq_path (pmh_uri_path h) ≠ ""%string →
  unattributed (pmh_subscriber_id h) (pq_path (pmh_uri_path h)) = false.
Proof. intros Hp. unfold unattributed. rewrite (bool_decide_false (pq_path _ = _)) by done. apply andb_false_r. Qed.

Lemma hooks_inv_built m hooks s p : pq_path p ≠ ""%string → hooks_inv (m, hooks) →
  hooks_inv (hooks_step (m, hooks) (Hooks_built s p)).
Proof.
  intros Hp (Hact&Hpos&Hgauge&Hpath). cbn [hooks_step]. set (key0 := (s, pq_path p)).
  assert (∀ key, count_hooks key (mkPrometheusMeteredHooks s p :: hooks) = (if bool_decide (key0 = key) then 1 else 0) + count_hooks key hooks)
    as Hcount by done.
  split; [|split; [|split]].
  - intros key. rewrite Hcount. specialize (Hact key). unfold active, increment_active_metered_bodies in *. cbn [pm_active_bodies].
    destruct (decide (key0 = key)) as [<-|Hne].
    + rewrite lookup_insert_eq, bool_decide_true by done. destruct (pm_active_bodies m !! key0); cbn [from_option id] in *; lia.
    + rewrite lookup_insert_ne, bool_decide_false by done. lia.
  - intros key count. cbn [increment_active_metered_bodies pm_active_bodies]. destruct (decide (key0 = key)) as [<-|Hne].
    + rewrite lookup_insert_eq. intros [= <-]. destruct (pm_active_bodies m !! key0) as [c|] eqn:Hc; [|lia].
      apply Hpos in Hc. lia.
    + rewrite lookup_insert_ne by done. apply Hpos.
  - intros key. rewrite Hcount. cbn [increment_active_metered_bodies pm_outbound_bytes]. pose proof (count_hooks_nonneg key hooks).
    intros Hz. apply Hgauge. destruct (bool_decide (key0 = key)); lia.
  - intros h [->|Hin]%elem_of_cons; [done|by apply Hpath].
Qed.

Lemma hooks_inv_emit m hooks i n : hooks_inv (m, hooks) → hooks_inv (hooks_step (m, hooks) (Hooks_emit i n)).
Proof.
  intros Hinv. pose proof Hinv as (Hact&Hpos&Hgauge&Hpath). cbn [hooks_step]. destruct (hooks !! i) as [h|] eqn:Hi; [|done].
  assert (h ∈ hooks) as Hin by (by eapply list_elem_of_lookup_2).
  cbn [on_emit_bytes PrometheusMeteredHooks_hooks]. rewrite attributed by (by apply Hpath).
  cbn [fst snd update_prometheus set_part get_part fst_part].
  split; [done|split; [done|split; [|done]]]. intros key Hz. cbn [add_grpc_service_outbound_bytes pm_outbound_bytes].
  rewrite lookup_insert_ne; [by apply Hgauge|]. intros Heq. pose proof (count_hooks_delete key hooks i h Hi) as Hd.
  rewrite bool_decide_true in Hd by done. pose proof (count_hooks_nonneg key (delete i hooks)). lia.
Qed.

Lemma hooks_inv_dropped m hooks i : hooks_inv (m, hooks) → hooks_inv (hooks_step (m, hooks) (Hooks_dropped i)).
Proof.
  intros Hinv. pose proof Hinv as (Hact&Hpos&Hgauge&Hpath). cbn [hooks_step]. destruct (hooks !! i) as [h|] eqn:Hi; [|done].
  assert (h ∈ hooks) as Hin by (by eapply list_elem_of_lookup_2).
  cbn [drop_hooks PrometheusMeteredHooks_hooks]. rewrite attributed by (by apply Hpath).
  cbn [fst snd update_prometheus set_part get_part fst_part].
  set (key0 := prometheus_key h).
  assert (∀ key, count_hooks key hooks = (if bool_decide (key0 = key) then 1 else 0) + count_hooks key (delete i hooks)) as Hd
    by (intros key; by apply count_hooks_delete).
  assert (∀ h', h' ∈ delete i hooks → pq_path (pmh_uri_path h') ≠ ""%string) as Hpath'.
  { intros h' Hin'. apply Hpath. by eapply list_elem_of_delete_inv. }
  pose proof (Hact key0) as Hact0. rewrite Hd, bool_decide_true in Hact0 by done.
  pose proof (count_hooks_nonneg key0 (delete i hooks)) as Hge.
  unfold active in Hact0. unfold decrement_active_metered_bodies.
  destruct (pm_active_bodies m !! key0) as [count|] eqn:Hc; cbn [from_option id] in Hact0; [|lia].
  case_bool_decide as Hcmp; (split; [|split; [|split; [|done]]]); cbn [pm_active_bodies pm_outbound_bytes reset_grpc_service_outbound_bytes].
  - intros key. specialize (Hact key). rewrite Hd in Hact. unfold active in *. cbn [pm_active_bodies].
    destruct (decide (key0 = key)) as [<-|Hne].
    + rewrite bool_decide_true in Hact by done. rewrite lookup_insert_eq. rewrite Hc in Hact. cbn [from_option id] in *. lia.
    + rewrite bool_decide_false in Hact by done. rewrite lookup_insert_ne by done. lia.
  - intros key c. destruct (decide (key0 = key)) as [<-|Hne].
    + rewrite lookup_insert_eq. intros [= <-]. lia.
    + rewrite lookup_insert_ne by done. apply Hpos.
  - intros key Hz. apply Hgauge. rewrite Hd. case_bool_decide as Hk; [subst key; lia|lia].
  - intros key. specialize (Hact key). rewrite Hd in Hact. unfold active in *. cbn [pm_active_bodies reset_grpc_service_outbound_bytes].
    destruct (decide (key0 = key)) as [<-|Hne].
    + rewrite bool_decide_true in Hact by done. rewrite lookup_delete_eq. rewrite Hc in Hact. cbn [from_option id] in *. lia.
    + rewrite bool_decide_false in Hact by done. rewrite lookup_delete_ne by done. lia.
  - intros key c [_ Hk]%lookup_delete_Some. by eapply Hpos.
  - intros key Hz. destruct (decide (key0 = key)) as [<-|Hne]; [by rewrite lookup_insert_eq|].
    rewrite lookup_insert_ne by done. apply Hgauge. by rewrite Hd, bool_decide_false.
Qed.

(** Under any interleaving of requests, frames and disconnections, the number
    of active bodies of a subscriber and path is the number of bodies being sent,
    and once none is left its outbound gauge is back to zero. *)
Theorem active_bodies_exact ops key : Forall hooks_op_ok ops →
  let '(m, hooks) := hooks_run ops in
  active m key = count_hooks key hooks ∧ (count_hooks key hooks = 0 → default 0 (pm_outbound_bytes m !! key) = 0).
Proof.
  intros Hops. assert (hooks_inv (hooks_run ops)) as Hinv.
  { unfold hooks_run. assert (hooks_inv (Prometheus_new, [])) as Hst.
    { split; [|split; [|split]]; [done|done|done|]. intros h Hh. by apply elem_of_nil in Hh. }
    generalize dependent (Prometheus_new, @nil PrometheusMeteredHooks). induction Hops as [|op ops Hop Hops IH]; intros st Hst; [done|].
    cbn [foldl]. apply IH. destruct st as [m hooks]. destruct op; [by apply hooks_inv_built|by apply hooks_inv_emit|by apply hooks_inv_dropped]. }
  destruct (hooks_run ops) as [m hooks]. destruct Hinv as (Hact&_&Hgauge&_). split; [done|apply Hgauge].
Qed.

Section demo.
Local Definition demo_path : PathAndQuery := mkPathAndQuery "/geyser.Geyser/Subscribe" None.
Local Definition demo_ops : list hooks_op :=
  [Hooks_built "s" demo_path; Hooks_emit 0 5; Hooks_built "s" demo_path; Hooks_dropped 1; Hooks_emit 0 7].

Lemma demo_gauges : pm_outbound_bytes (hooks_run demo_ops).1 !! ("s"%string, pq_path demo_path) = Some 12
  ∧ active (hooks_run demo_ops).1 ("s"%string, pq_path demo_path) = 1.
Proof. by vm_compute. Qed.

Lemma active_bodies_exact_witness :
  active (hooks_run demo_ops).1 ("s"%string, pq_path demo_path) = 1 ∧
  (let '(m, hooks) := hooks_run demo_ops in
   active m ("t"%string, pq_path demo_path) = count_hooks ("t"%string, pq_path demo_path) hooks ∧
   (count_hooks ("t"%string, pq_path demo_path) hooks = 0 → default 0 (pm_outbound_bytes m !! ("t"%string, pq_path demo_path)) = 0)).
Proof. split; [by vm_compute|]. apply (active_bodies_exact demo_ops ("t"%string, pq_path demo_path)). by repeat constructor. Defined.
End demo.
