(* ===== verification/Billing.v ===== *)
(** * billing.rs: what is billed, and its way to the billing service

    The billing hooks turn the reports of a body into events on an unbounded
    channel; [HttpBillingEventSink] is the future that takes the events off the
    channel, buffers them as lines of JSON and posts the buffer when it is large,
    when the channel is idle or closed, one request at a time. The serialiser is a
    parameter; what the polls of the channel and of the requests return, and what
    the clock shows, are lists the loop reads, pending past their end. Every
    event is posted, and the future ends when the channel is closed and the
    requests are answered. *)

From S2P Require Import Prelude F64 Auth Ratelimit AuthService Metered.

Set Default Goal Selector "!".

Local Open Scope Z_scope.

(** ** The events *)

Record BandwidthBillingEvent := mkBandwidthBillingEvent {
  bbe_subscription_id : string;
  bbe_method : PathName;
  bbe_quantity : Z
}.

Record RequestBillingEvent := mkRequestBillingEvent {
  rbe_subscription_id : string;
  rbe_method : PathName;
  rbe_quantity : Z
}.

Inductive BillingEvent :=
| Bandwidth (event : BandwidthBillingEvent)
| Requests (event : RequestBillingEvent).

(** The sending side of the channel: what was sent, and whether the receiver is
    there; a failed send is logged. *)
Record UsageChannel := mkUsageChannel {
  uc_sent : list BillingEvent;
  uc_open : bool
}.

Definition usage_send (event : BillingEvent) (ch : UsageChannel) : UsageChannel :=
  if uc_open ch then mkUsageChannel (uc_sent ch ++ [event]) true else ch.

Inductive BillingMeteredManager := billing_metered_manager.

Record BillingBandwidthMeteredHooks := mkBillingBandwidthMeteredHooks {
  bmh_subscriber_id : string;
  bmh_uri_path : PathName
}.

Section hooks.
Context {W : Type} {L : HasPart W UsageChannel}.

Definition update_usage (f : UsageChannel → UsageChannel) (w : W) : W := set_part (f (get_part w)) w.

#[global] Instance BillingBandwidthMeteredHooks_hooks : MeteredBandwidthHooks W BillingBandwidthMeteredHooks := {|
  on_emit_bytes self byte_count w :=
    if unattributed (bmh_subscriber_id self) (PathName_as_ref (bmh_uri_path self)) then (self, w)
    else
      let event := Bandwidth (mkBandwidthBillingEvent (bmh_subscriber_id self) (bmh_uri_path self) byte_count) in
      (self, update_usage (usage_send event) w);
  drop_hooks self w := w
|}.

#[global] Instance BillingMeteredManager_manager {H : Http} :
    MeteredManager W BillingMeteredManager BillingBandwidthMeteredHooks := {|
  build_hooks _ parts w :=
    match rp_subscription parts, rp_path_and_query parts with
    | Some info, Some path => (Some (mkBillingBandwidthMeteredHooks (si_subscription_id info) (mkPathName path)), w)
    | _, _ => (None, w)
    end;
  on_method _ parts w :=
    match rp_path_and_query parts with
    | Some path =>
        update_usage (usage_send (Requests (mkRequestBillingEvent
          (match rp_subscription parts with Some info => si_subscription_id info | None => "" end) (mkPathName path) 1))) w
    | None => w
    end
|}.
End hooks.

(** ** The sink *)

Definition FLUSH_THRESHOLD_BYTES : Z := 4 * 1024.
Definition REPORT_INTERVAL : Z := 5 * NANOS_PER_SEC.

(** A request that is being sent: its payload and the number of its events. *)
Record Flush := mkFlush {
  fl_payload : bytes;
  fl_num_events : Z
}.

Record HttpBillingEventSink := mkHttpBillingEventSink {
  sk_ndjson_buffer : bytes;
  sk_source_closed : bool;
  sk_ongoing_flush : option Flush;
  sk_report_interval : Z;
  sk_events_since_last_flush : Z;
  sk_events_flushed_since_last_report : Z;
  sk_last_report_time : Z
}.

Definition HttpBillingEventSink_new (reporting_interval : option Z) (now : Z) : HttpBillingEventSink :=
  mkHttpBillingEventSink [] false None (default REPORT_INTERVAL reporting_interval) 0 0 now.

Inductive FlushBufferError :=
| FlushEmpty
| OngoingFlush.

Inductive source_poll :=
| Source_item (event : BillingEvent)
| Source_end
| Source_pending.

(** A poll of the request: pending, answered with success, or failed (an error
    status, the time-out, the connection). *)
Inductive flush_poll :=
| Flush_pending
| Flush_ok
| Flush_err.

(** What the loop reads, and the payloads it has posted and those that were
    answered with success. *)
Record SinkEnv := mkSinkEnv {
  en_source : list source_poll;
  en_flushes : list flush_poll;
  en_clock : list Z;
  en_posted : list bytes;
  en_delivered : list bytes
}.

Definition poll_source (env : SinkEnv) : source_poll * SinkEnv :=
  match en_source env with
  | [] => (Source_pending, env)
  | p :: source => (p, mkSinkEnv source (en_flushes env) (en_clock env) (en_posted env) (en_delivered env))
  end.

Definition poll_request (env : SinkEnv) : flush_poll * SinkEnv :=
  match en_flushes env with
  | [] => (Flush_pending, env)
  | p :: flushes => (p, mkSinkEnv (en_source env) flushes (en_clock env) (en_posted env) (en_delivered env))
  end.

Definition read_clock (env : SinkEnv) : Z * SinkEnv :=
  match en_clock env with
  | [] => (0, env)
  | now :: clock => (now, mkSinkEnv (en_source env) (en_flushes env) clock (en_posted env) (en_delivered env))
  end.

Definition env_post (payload : bytes) (env : SinkEnv) : SinkEnv :=
  mkSinkEnv (en_source env) (en_flushes env) (en_clock env) (en_posted env ++ [payload]) (en_delivered env).

Definition env_deliver (payload : bytes) (env : SinkEnv) : SinkEnv :=
  mkSinkEnv (en_source env) (en_flushes env) (en_clock env) (en_posted env) (en_delivered env ++ [payload]).

Section sink.
(** [serde_json::to_writer]: the bytes written, and whether it succeeded. *)
Context (to_writer : BillingEvent → bytes * bool).

(** [try_flush_buffer_without_polling]; the request is sent with its first poll,
    which is the next thing the loop does. *)
Definition try_flush_buffer_without_polling (this : HttpBillingEventSink) (env : SinkEnv) :
    result FlushBufferError (HttpBillingEventSink * SinkEnv) :=
  if bool_decide (sk_ndjson_buffer this = []) then Err FlushEmpty
  else
    match sk_ongoing_flush this with
    | Some _ => Err OngoingFlush
    | None =>
        let num_events_in_ndjson := sk_events_since_last_flush this in
        let payload := sk_ndjson_buffer this in
        Ok (mkHttpBillingEventSink [] (sk_source_closed this) (Some (mkFlush payload num_events_in_ndjson))
              (sk_report_interval this) 0 (sk_events_flushed_since_last_report this) (sk_last_report_time this),
            env_post payload env)
    end.

(** [poll_ongoing_flush]: [true] for [Poll::Ready]. *)
Definition poll_ongoing_flush (this : HttpBillingEventSink) (env : SinkEnv) : bool * HttpBillingEventSink * SinkEnv :=
  match sk_ongoing_flush this with
  | Some fut =>
      let '(polled, env) := poll_request env in
      match polled with
      | Flush_ok =>
          (true, mkHttpBillingEventSink (sk_ndjson_buffer this) (sk_source_closed this) None (sk_report_interval this)
             (sk_events_since_last_flush this) (wrap64 (sk_events_flushed_since_last_report this + fl_num_events fut))
             (sk_last_report_time this), env_deliver (fl_payload fut) env)
      | Flush_err =>
          (true, mkHttpBillingEventSink (sk_ndjson_buffer this) (sk_source_closed this) None (sk_report_interval this)
             (sk_events_since_last_flush this) (sk_events_flushed_since_last_report this) (sk_last_report_time this), env)
      | Flush_pending => (false, this, env)
      end
  | None => (true, this, env)
  end.

(** [report_if_needed]; [elapsed] reads the clock again. *)
Definition report_if_needed (now : Z) (this : HttpBillingEventSink) (env : SinkEnv) : HttpBillingEventSink * SinkEnv :=
  let '(now2, env) := read_clock env in
  (if bool_decide (sk_report_interval this <= saturating_duration_since now2 (sk_last_report_time this)) then
     mkHttpBillingEventSink (sk_ndjson_buffer this) (sk_source_closed this) (sk_ongoing_flush this) (sk_report_interval this)
       (sk_events_since_last_flush this) 0 now
   else this, env).

(** An event taken off the source: serialised and buffered. *)
Definition buffer_event (event : BillingEvent) (this : HttpBillingEventSink) : HttpBillingEventSink :=
  let '(written, ok) := to_writer event in
  let ndjson_buffer := sk_ndjson_buffer this ++ written in
  mkHttpBillingEventSink (if ok then ndjson_buffer ++ [bytes_of_Z 10] else ndjson_buffer) (sk_source_closed this)
    (sk_ongoing_flush this) (sk_report_interval this)
    (if ok then saturating_add (sk_events_since_last_flush this) 1 else sk_events_since_last_flush this)
    (sk_events_flushed_since_last_report this) (sk_last_report_time this).

Definition close_source (this : HttpBillingEventSink) : HttpBillingEventSink :=
  mkHttpBillingEventSink (sk_ndjson_buffer this) true (sk_ongoing_flush this) (sk_report_interval this)
    (sk_events_since_last_flush this) (sk_events_flushed_since_last_report this) (sk_last_report_time this).

(** One iteration of the loop of [poll]: [Some] when it returns. *)
Definition sink_iteration (this : HttpBillingEventSink) (env : SinkEnv) :
    outcome (option (Poll unit) * HttpBillingEventSink * SinkEnv) :=
  let '(now, env) := read_clock env in
  let '(this, env) := report_if_needed now this env in
  let '(ready, this, env) := poll_ongoing_flush this env in
  if negb ready then Done (Some Pending, this, env)
  else if sk_source_closed this then
    match try_flush_buffer_without_polling this env with
    | Ok (this, env) => Done (None, this, env)
    | Err FlushEmpty => Done (Some (Ready tt), this, env)
    | Err OngoingFlush => Panic
    end
  else
    let '(polled, env) := poll_source env in
    match polled with
    | Source_item event =>
        let this := buffer_event event this in
        if bool_decide (FLUSH_THRESHOLD_BYTES <= len (sk_ndjson_buffer this)) then
          match try_flush_buffer_without_polling this env with
          | Ok (this, env) => Done (None, this, env)
          | Err _ => Done (None, this, env)
          end
        else Done (None, this, env)
    | Source_end => Done (None, close_source this, env)
    | Source_pending =>
        match try_flush_buffer_without_polling this env with
        | Ok (this, env) => Done (None, this, env)
        | Err FlushEmpty => Done (Some Pending, this, env)
        | Err OngoingFlush => Done (Some Pending, this, env)
        end
    end.

(** The loop; [None] when the fuel does not suffice. *)
Fixpoint sink_loop (fuel : nat) (this : HttpBillingEventSink) (env : SinkEnv) :
    outcome (option (Poll unit * HttpBillingEventSink * SinkEnv)) :=
  match fuel with
  | O => Done None
  | S fuel =>
      '(returned, this, env) ← sink_iteration this env;
      match returned with
      | Some polled => Done (Some (polled, this, env))
      | None => sink_loop fuel this env
      end
  end.

(** Each iteration that does not return takes a poll of the source, or empties
    the buffer. *)
Definition sink_fuel (env : SinkEnv) : nat := 2 * length (en_source env) + 2.

Definition sink_poll (this : HttpBillingEventSink) (env : SinkEnv) :
    outcome (option (Poll unit * HttpBillingEventSink * SinkEnv)) := sink_loop (sink_fuel env) this env.

(** A number of polls of the future, by the executor. *)
Fixpoint sink_polls (n : nat) (this : HttpBillingEventSink) (env : SinkEnv) :
    outcome (option (Poll unit * HttpBillingEventSink * SinkEnv)) :=
  match n with
  | O => Done (Some (Pending, this, env))
  | S n =>
      polled ← sink_poll this env;
      match polled with
      | Some (Pending, this, env) => sink_polls n this env
      | _ => Done polled
      end
  end.
(** ** What the sink has taken, posted and kept *)

(** What an event adds to the buffer. *)
Definition ndjson_line (event : BillingEvent) : bytes :=
  let '(written, ok) := to_writer event in if ok then written ++ [bytes_of_Z 10] else written.

Definition ndjson (events : list BillingEvent) : bytes := concat (ndjson_line <$> events).

Definition source_events (polls : list source_poll) : list BillingEvent :=
  omap (λ p, match p with Source_item event => Some event | _ => None end) polls.

(** The invariant, for the source and the answers the sink started with: the
    events taken so far are those of the payloads posted, in order and never
    split, and those still buffered; a payload is answered before the next one is
    posted, and delivered if the answer is a success. *)
Record sink_inv (source0 : list source_poll) (no_err : Prop) (this : HttpBillingEventSink) (env : SinkEnv) : Prop := {
  inv_events : ∃ taken groups rest, source0 = taken ++ en_source env ∧ source_events taken = concat groups ++ rest ∧
    en_posted env = ndjson <$> groups ∧ sk_ndjson_buffer this = ndjson rest ∧
    (sk_source_closed this = true → Source_end ∈ taken);
  inv_posted : Forall (λ payload, payload ≠ []) (en_posted env);
  inv_flush : ∃ answered, en_posted env = answered ++ match sk_ongoing_flush this with Some fl => [fl_payload fl] | None => [] end ∧
    en_delivered env `sublist_of` answered ∧
    (no_err → Forall (λ p, p ≠ Flush_err) (en_flushes env) ∧ en_delivered env = answered)
}.

Definition sink_measure (this : HttpBillingEventSink) (env : SinkEnv) : nat :=
  2 * length (en_source env) + match sk_ndjson_buffer this with [] => 0 | _ => 1 end.

Lemma read_clock_inv source0 no_err this env now env' : read_clock env = (now, env') →
  sink_inv source0 no_err this env → sink_inv source0 no_err this env' ∧ sink_measure this env' = sink_measure this env.
Proof.
  unfold read_clock. intros Hread Hinv. destruct (en_clock env); injection Hread as _ <-; [done|].
  destruct Hinv. split; [by split|done].
Qed.

Lemma report_inv source0 no_err this env now this' env' : report_if_needed now this env = (this', env') →
  sink_inv source0 no_err this env → sink_inv source0 no_err this' env' ∧ sink_measure this' env' = sink_measure this env.
Proof.
  unfold report_if_needed. destruct (read_clock env) as [now2 env2] eqn:Hclock. intros [= <- <-] Hinv.
  apply (read_clock_inv _ _ _ _ _ _ Hclock) in Hinv as [[He Hp Hf] <-]. case_bool_decide; by split.
Qed.

Lemma poll_ongoing_inv source0 no_err this env ready this' env' : poll_ongoing_flush this env = (ready, this', env') →
  sink_inv source0 no_err this env →
  sink_inv source0 no_err this' env' ∧ sink_measure this' env' = sink_measure this env ∧ (ready = true → sk_ongoing_flush this' = None).
Proof.
  unfold poll_ongoing_flush, poll_request. intros Hpoll [He Hp (answered&Hposted&Hsub&Hno)].
  destruct (sk_ongoing_flush this) as [fut|] eqn:Hfut.
  2:{ injection Hpoll as <- <- <-. split; [split; [done|done|]|done]. exists answered. by rewrite Hfut. }
  destruct (en_flushes env) as [|[| |] flushes] eqn:Hflushes; injection Hpoll as <- <- <-.
  - split; [split; [done|done|]|done]. exists answered. by rewrite Hfut, Hflushes.
  - split; [split; [done|done|]|done]. exists answered. cbn. rewrite Hfut. split; [done|split; [done|]].
    intros Hn. destruct (Hno Hn) as [Hall Hd]. by inversion Hall.
  - split; [split; [done|done|]|done]. exists (answered ++ [fl_payload fut]). cbn.
    split; [by rewrite app_nil_r|]. split; [by apply sublist_app|]. intros Hn. destruct (Hno Hn) as [Hall ->]. by inversion Hall.
  - split; [split; [done|done|]|done]. exists (answered ++ [fl_payload fut]). cbn.
    split; [by rewrite app_nil_r|]. split; [by apply sublist_inserts_r|].
    intros Hn. destruct (Hno Hn) as [Hall _]. by inversion Hall.
Qed.

(** Starting a request when none is being sent. *)
Lemma try_flush_inv source0 no_err this env : sink_inv source0 no_err this env → sk_ongoing_flush this = None →
  match try_flush_buffer_without_polling this env with
  | Ok (this', env') => sink_inv source0 no_err this' env' ∧ (sink_measure this' env' + 1 = sink_measure this env)%nat
  | Err FlushEmpty => sk_ndjson_buffer this = []
  | Err OngoingFlush => False
  end.
Proof.
  intros [(taken&groups&rest&Hs&Hev&Hposted&Hbuf&Hcl) Hp (answered&Hans&Hsub&Hno)] Hnone.
  unfold try_flush_buffer_without_polling. case_bool_decide as Hempty; [done|]. rewrite Hnone in *. rewrite app_nil_r in Hans.
  split; [split|].
  - exists taken, (groups ++ [rest]), []. cbn. split; [done|]. split; [by rewrite concat_app, app_nil_r; cbn; rewrite app_nil_r|].
    split; [by rewrite fmap_app, Hposted, Hbuf|]. by split.
  - cbn. apply Forall_app. split; [done|by apply Forall_singleton].
  - cbn. exists answered. split; [by rewrite Hans|]. by split.
  - unfold sink_measure. cbn. destruct (sk_ndjson_buffer this); [done|lia].
Qed.

Lemma ndjson_snoc events event : ndjson (events ++ [event]) = ndjson events ++ ndjson_line event.
Proof. unfold ndjson. rewrite fmap_app, concat_app. cbn. by rewrite app_nil_r. Qed.

Lemma source_events_snoc taken p :
  source_events (taken ++ [p]) = source_events taken ++ match p with Source_item event => [event] | _ => [] end.
Proof. unfold source_events. rewrite omap_app. by destruct p. Qed.

Lemma buffer_event_flush event this : sk_ongoing_flush (buffer_event event this) = sk_ongoing_flush this.
Proof. unfold buffer_event. by destruct (to_writer event). Qed.

(** Taking a poll of the source. *)
Lemma poll_source_inv source0 no_err this env polled env' : poll_source env = (polled, env') →
  sink_inv source0 no_err this env → sk_source_closed this = false →
  match polled with
  | Source_item event => sink_inv source0 no_err (buffer_event event this) env' ∧
      (sink_measure (buffer_event event this) env' + 1 <= sink_measure this env)%nat
  | Source_end => sink_inv source0 no_err (close_source this) env' ∧
      (sink_measure (close_source this) env' + 1 <= sink_measure this env)%nat
  | Source_pending => sink_inv source0 no_err this env' ∧ (sink_measure this env' <= sink_measure this env)%nat
  end.
Proof.
  unfold poll_source. intros Hpoll [(taken&groups&rest&Hs&Hev&Hposted&Hbuf&Hcl) Hp Hf] Hopen.
  destruct (en_source env) as [|p source] eqn:Hsource; injection Hpoll as <- <-.
  { split; [|done]. split; [|done|done]. exists taken, groups, rest. by rewrite Hsource. }
  assert (source0 = (taken ++ [p]) ++ source) as Hs' by (by rewrite <- app_assoc).
  unfold sink_measure. rewrite Hsource. cbn [length en_source]. destruct p as [event| |];
    (split; [split; [|done|rewrite ?buffer_event_flush; exact Hf]|]).
  - exists (taken ++ [Source_item event]), groups, (rest ++ [event]). split; [done|]. rewrite source_events_snoc, Hev, app_assoc.
    split; [done|]. split; [done|]. unfold buffer_event. rewrite ndjson_snoc, <- Hbuf. unfold ndjson_line.
    destruct (to_writer event) as [written []]; cbn [sk_ndjson_buffer sk_source_closed]; rewrite Hopen; by rewrite ?app_assoc.
  - repeat case_match; lia.
  - exists (taken ++ [Source_end]), groups, rest. split; [done|]. rewrite source_events_snoc, Hev, app_nil_r.
    split; [done|]. split; [done|]. split; [done|]. intros _. apply elem_of_app. right. by apply list_elem_of_singleton.
  - cbn. lia.
  - exists (taken ++ [Source_pending]), groups, rest. split; [done|]. rewrite source_events_snoc, Hev, app_nil_r.
    split; [done|]. split; [done|]. split; [done|]. by rewrite Hopen.
  - lia.
Qed.

Lemma sink_iteration_spec source0 no_err this env : sink_inv source0 no_err this env →
  ∃ returned this' env', sink_iteration this env = Done (returned, this', env') ∧ sink_inv source0 no_err this' env' ∧
    match returned with
    | None => (sink_measure this' env' < sink_measure this env)%nat
    | Some Pending => True
    | Some (Ready _) => sk_source_closed this' = true ∧ sk_ndjson_buffer this' = [] ∧ sk_ongoing_flush this' = None
    end.
Proof.
  intros Hinv. unfold sink_iteration. destruct (read_clock env) as [now env1] eqn:H1.
  destruct (read_clock_inv _ _ _ _ _ _ H1 Hinv) as [Hinv1 Hm1]. destruct (report_if_needed now this env1) as [this2 env2] eqn:H2.
  destruct (report_inv _ _ _ _ _ _ _ H2 Hinv1) as [Hinv2 Hm2]. destruct (poll_ongoing_flush this2 env2) as [[ready this3] env3] eqn:H3.
  destruct (poll_ongoing_inv _ _ _ _ _ _ _ H3 Hinv2) as (Hinv3&Hm3&Hready). destruct ready; cbn [negb]; [|by eauto 10].
  specialize (Hready eq_refl). destruct (sk_source_closed this3) eqn:Hclosed.
  { pose proof (try_flush_inv _ _ _ _ Hinv3 Hready) as Hflush.
    destruct (try_flush_buffer_without_polling this3 env3) as [[this4 env4]|[]]; [|by eauto 15|done].
    destruct Hflush as [Hinv4 Hm4]. do 3 eexists. split; [done|]. split; [done|]. lia. }
  destruct (poll_source env3) as [polled env4] eqn:H4. pose proof (poll_source_inv _ _ _ _ _ _ H4 Hinv3 Hclosed) as Hpolled.
  destruct polled as [event| |].
  - destruct Hpolled as [Hinv4 Hm4]. case_bool_decide; [|do 3 eexists; split; [done|split; [done|lia]]].
    assert (sk_ongoing_flush (buffer_event event this3) = None) as Hnone
      by (by rewrite buffer_event_flush).
    pose proof (try_flush_inv _ _ _ _ Hinv4 Hnone) as Hflush.
    destruct (try_flush_buffer_without_polling (buffer_event event this3) env4) as [[this5 env5]|[]]; [|do 3 eexists; split; [done|split; [done|lia]]|done].
    destruct Hflush as [Hinv5 Hm5]. do 3 eexists. split; [done|]. split; [done|]. lia.
  - destruct Hpolled as [Hinv4 Hm4]. do 3 eexists. split; [done|]. split; [done|]. lia.
  - destruct Hpolled as [Hinv4 Hm4]. pose proof (try_flush_inv _ _ _ _ Hinv4 Hready) as Hflush.
    destruct (try_flush_buffer_without_polling this3 env4) as [[this5 env5]|[]]; [|by eauto 10|done].
    destruct Hflush as [Hinv5 Hm5]. do 3 eexists. split; [done|]. split; [done|]. lia.
Qed.

(** A poll returns: the fuel is enough. *)
Lemma sink_loop_spec fuel source0 no_err this env : (sink_measure this env < fuel)%nat → sink_inv source0 no_err this env →
  ∃ polled this' env', sink_loop fuel this env = Done (Some (polled, this', env')) ∧ sink_inv source0 no_err this' env' ∧
    (∀ u, polled = Ready u → sk_source_closed this' = true ∧ sk_ndjson_buffer this' = [] ∧ sk_ongoing_flush this' = None).
Proof.
  revert this env. induction fuel as [|fuel IH]; intros this env Hfuel Hinv; [lia|].
  destruct (sink_iteration_spec _ _ _ _ Hinv) as (returned&this'&env'&Hit&Hinv'&Hr). cbn [sink_loop]. rewrite Hit.
  cbn [mbind outcome_bind]. destruct returned as [[|u]|].
  - do 3 eexists. split; [done|]. by split.
  - do 3 eexists. split; [done|]. by split.
  - apply IH; [lia|done].
Qed.

Lemma sink_polls_spec n source0 no_err this env : sink_inv source0 no_err this env →
  ∃ polled this' env', sink_polls n this env = Done (Some (polled, this', env')) ∧ sink_inv source0 no_err this' env' ∧
    (∀ u, polled = Ready u → sk_source_closed this' = true ∧ sk_ndjson_buffer this' = [] ∧ sk_ongoing_flush this' = None).
Proof.
  revert this env. induction n as [|n IH]; intros this env Hinv.
  { do 3 eexists. split; [done|]. by split. }
  assert (sink_measure this env < sink_fuel env)%nat as Hfuel.
  { unfold sink_measure, sink_fuel. destruct (sk_ndjson_buffer this); lia. }
  destruct (sink_loop_spec _ _ _ _ _ Hfuel Hinv) as (polled&this'&env'&Hloop&Hinv'&Hready).
  cbn [sink_polls]. unfold sink_poll. rewrite Hloop. cbn [mbind outcome_bind]. destruct polled as [|u]; [by apply IH|].
  do 3 eexists. split; [done|]. by split.
Qed.

(** ** The sink ends *)

(** What is left to read, and the answers that requests still to be made need:
    one for the request under way, one for the buffer, one for each event. *)
Definition env_left (env : SinkEnv) : nat := length (en_source env) + length (en_flushes env).

Definition is_answer (p : flush_poll) : bool := match p with Flush_pending => false | _ => true end.

Definition answers (flushes : list flush_poll) : nat := length (filter is_answer flushes).

Lemma answers_cons p flushes : answers (p :: flushes) = ((if is_answer p then 1 else 0) + answers flushes)%nat.
Proof. unfold answers. rewrite filter_cons. by destruct p. Qed.

Definition owed (this : HttpBillingEventSink) (env : SinkEnv) : nat :=
  match sk_ongoing_flush this with Some _ => 1 | None => 0 end
  + match sk_ndjson_buffer this with [] => 0 | _ => 1 end + length (source_events (en_source env)).

(** The end of the source is still to come unless it was read, and there are
    answers for everything that is posted. *)
Definition can_end (this : HttpBillingEventSink) (env : SinkEnv) : Prop :=
  (sk_source_closed this = true ∨ Source_end ∈ en_source env) ∧ (owed this env <= answers (en_flushes env))%nat.

Lemma clock_can_end now this env this' env1 env' : read_clock env = (now, env1) → report_if_needed now this env1 = (this', env') →
  can_end this env → can_end this' env' ∧ env_left env' = env_left env.
Proof.
  unfold report_if_needed, read_clock, can_end, owed, env_left. intros H1 H2 Hinv.
  destruct (en_clock env) as [|c clock]; injection H1 as <- <-; cbn [en_clock en_source en_flushes] in H2;
    [destruct (en_clock env) as [|c clock]|destruct clock as [|c2 clock]]; injection H2 as <- <-;
    case_bool_decide; by split.
Qed.

Lemma ongoing_can_end this env ready this' env' : poll_ongoing_flush this env = (ready, this', env') → can_end this env →
  can_end this' env' ∧
  if ready then sk_ongoing_flush this' = None ∧ (env_left env' <= env_left env)%nat
  else (env_left env' < env_left env)%nat.
Proof.
  unfold poll_ongoing_flush, poll_request, can_end, owed, env_left.
  destruct (sk_ongoing_flush this) as [fut|] eqn:Hfut; [|intros [= <- <- <-]; rewrite Hfut; by intros].
  destruct (en_flushes env) as [|[| |] flushes] eqn:Hflushes; intros [= <- <- <-] [Hend Howed];
    rewrite ?answers_cons in Howed; cbn [is_answer] in Howed;
    cbn [sk_source_closed sk_ongoing_flush sk_ndjson_buffer en_source en_flushes env_deliver length].
  - cbn in Howed. lia.
  - rewrite Hfut. split_and!; (done || lia).
  - split_and!; (done || lia).
  - split_and!; (done || lia).
Qed.

Lemma flush_can_end this env this' env' : try_flush_buffer_without_polling this env = Ok (this', env') → can_end this env →
  can_end this' env' ∧ env_left env' = env_left env.
Proof.
  unfold try_flush_buffer_without_polling, can_end, owed, env_left. case_bool_decide as Hempty; [done|].
  destruct (sk_ongoing_flush this); [done|]. intros [= <- <-] [Hend Howed].
  cbn [sk_source_closed sk_ongoing_flush sk_ndjson_buffer en_source en_flushes env_post]. split; [|done]. split; [done|].
  destruct (sk_ndjson_buffer this); [done|lia].
Qed.

Lemma source_can_end this env polled env' : poll_source env = (polled, env') → sk_source_closed this = false →
  can_end this env →
  (env_left env' < env_left env)%nat ∧
  match polled with
  | Source_item event => can_end (buffer_event event this) env'
  | Source_end => can_end (close_source this) env'
  | Source_pending => can_end this env'
  end.
Proof.
  unfold poll_source, can_end, owed, env_left. intros Hpoll Hopen [[Hcl|Hend] Howed]; [congruence|].
  destruct (en_source env) as [|p source] eqn:Hs; [by apply not_elem_of_nil in Hend|]. injection Hpoll as <- <-.
  cbn [en_source en_flushes length]. split; [lia|]. apply elem_of_cons in Hend. destruct p as [event| |].
  - rewrite buffer_event_flush. destruct Hend as [Hend|Hend]; [done|]. split; [by right|].
    change (source_events (Source_item event :: source)) with (event :: source_events source) in Howed.
    cbn [length] in Howed. repeat case_match; lia.
  - split; [by left|exact Howed].
  - destruct Hend as [Hend|Hend]; [done|]. split; [by right|exact Howed].
Qed.

(** A turn of the loop reads at least one thing if it waits. *)
Lemma iteration_can_end this env returned this' env' : can_end this env →
  sink_iteration this env = Done (returned, this', env') →
  match returned with
  | Some Pending => can_end this' env' ∧ (env_left env' < env_left env)%nat
  | Some (Ready _) => True
  | None => can_end this' env' ∧ (env_left env' <= env_left env)%nat
  end.
Proof.
  unfold sink_iteration. intros Hinv. destruct (read_clock env) as [now env1] eqn:H1.
  destruct (report_if_needed now this env1) as [this2 env2] eqn:H2.
  destruct (clock_can_end _ _ _ _ _ _ H1 H2 Hinv) as [Hinv2 <-]. clear H1 H2.
  destruct (poll_ongoing_flush this2 env2) as [[ready this3] env3] eqn:H3.
  destruct (ongoing_can_end _ _ _ _ _ H3 Hinv2) as [Hinv3 Hr]. destruct ready; cbn [negb]; [|by intros [= <- <- <-]].
  destruct Hr as [Hnone Hle]. destruct (sk_source_closed this3) eqn:Hclosed.
  { destruct (try_flush_buffer_without_polling this3 env3) as [[this4 env4]|[]] eqn:Hf; [|by intros [= <- <- <-]|done].
    intros [= <- <- <-]. apply flush_can_end in Hf as [? ->]; done. }
  destruct (poll_source env3) as [polled env4] eqn:H4. destruct (source_can_end _ _ _ _ H4 Hclosed Hinv3) as [Hlt Hp].
  destruct polled as [event| |].
  - case_bool_decide; [|intros [= <- <- <-]; split; [done|lia]].
    destruct (try_flush_buffer_without_polling (buffer_event event this3) env4) as [[this5 env5]|[]] eqn:Hf; intros [= <- <- <-];
      [apply flush_can_end in Hf as [? ->]; [|done]|..]; (split; [done|lia]).
  - intros [= <- <- <-]. split; [done|lia].
  - destruct (try_flush_buffer_without_polling this3 env4) as [[this5 env5]|[]] eqn:Hf; intros [= <- <- <-];
      [apply flush_can_end in Hf as [? ->]; [|done]|..]; (split; [done|lia]).
Qed.

Lemma loop_can_end fuel : ∀ this env this' env', can_end this env →
  sink_loop fuel this env = Done (Some (Pending, this', env')) → can_end this' env' ∧ (env_left env' < env_left env)%nat.
Proof.
  induction fuel as [|fuel IH]; intros this env this' env' Hinv; [done|]. cbn [sink_loop].
  destruct (sink_iteration this env) as [[[returned this1] env1]|] eqn:Hit; [|done]. cbn [mbind outcome_bind].
  apply iteration_can_end in Hit; [|done]. destruct returned as [[|u]|]; [by intros [= <- <-]|done|].
  destruct Hit as [Hinv1 Hle]. intros [? ?]%IH; [|done]. split; [done|lia].
Qed.

Lemma polls_end n : ∀ this env polled this' env', can_end this env → (env_left env < n)%nat →
  sink_polls n this env = Done (Some (polled, this', env')) → polled = Ready tt.
Proof.
  induction n as [|n IH]; intros this env polled this' env' Hinv Hn; [lia|]. cbn [sink_polls].
  destruct (sink_poll this env) as [[[[[|u] this1] env1]|]|] eqn:Hpoll; cbn [mbind outcome_bind]; [|by destruct u; intros [= <- _ _]|done..].
  apply loop_can_end in Hpoll as [Hinv1 Hlt]; [|done]. apply IH; [done|lia].
Qed.

(** ** Nothing waits in the buffer without a reason *)

Definition settled (this : HttpBillingEventSink) : Prop := is_Some (sk_ongoing_flush this) ∨ sk_ndjson_buffer this = [].

Lemma iteration_settled this env this' env' : sink_iteration this env = Done (Some Pending, this', env') → settled this'.
Proof.
  unfold sink_iteration, settled. destruct (read_clock env) as [now env1]. destruct (report_if_needed now this env1) as [this2 env2].
  destruct (poll_ongoing_flush this2 env2) as [[ready this3] env3] eqn:H3. destruct ready; cbn [negb].
  - destruct (sk_source_closed this3).
    { destruct (try_flush_buffer_without_polling this3 env3) as [[]|[]]; discriminate. }
    destruct (poll_source env3) as [[event| |] env4]; [case_bool_decide; [|discriminate]|discriminate|].
    + destruct (try_flush_buffer_without_polling _ _) as [[]|]; discriminate.
    + unfold try_flush_buffer_without_polling. case_bool_decide; [intros [= <- _]; by right|].
      destruct (sk_ongoing_flush this3) eqn:Ho; [intros [= <- _]; left; by eexists|discriminate].
  - intros [= <- _]. left. revert H3. unfold poll_ongoing_flush. destruct (sk_ongoing_flush this2) eqn:Ho; [|discriminate].
    destruct (poll_request env2) as [[| |] env4]; intros [= <- <-]. rewrite Ho. by eexists.
Qed.

Lemma polls_settled n : ∀ this env this' env', settled this →
  sink_polls n this env = Done (Some (Pending, this', env')) → settled this'.
Proof.
  assert (∀ fuel this env this' env', sink_loop fuel this env = Done (Some (Pending, this', env')) → settled this') as Hloop.
  { induction fuel as [|fuel IH]; intros this env this' env'; [done|]. cbn [sink_loop].
    destruct (sink_iteration this env) as [[[returned this1] env1]|] eqn:Hit; [|done]. cbn [mbind outcome_bind].
    destruct returned as [[|u]|]; [|done|apply IH]. intros [= <- <-]. by eapply iteration_settled. }
  induction n as [|n IH]; intros this env this' env' Hs; [by intros [= <- _]|]. cbn [sink_polls].
  destruct (sink_poll this env) as [[[[[|u] this1] env1]|]|] eqn:Hpoll; cbn [mbind outcome_bind]; [|done..].
  apply IH. by eapply Hloop.
Qed.

(** C24. Whatever the channel, the network and the clock do, every poll of the
    sink returns without panic, and the events taken off the channel are exactly
    those of the payloads posted, in order, no event split between two payloads,
    and those still buffered. While the sink waits nothing stays in the buffer
    unless a request is under way. Once the channel is closed and requests are
    answered, one way or the other, the sink ends, within as many polls as the
    channel and the requests are pending for and one for each of their other
    answers; it has then posted every event, and when no request failed every
    event has been delivered once. *)
Theorem billing_sink_posts_all n source flushes clock now interval :
  ∃ polled this env,
    sink_polls n (HttpBillingEventSink_new interval now) (mkSinkEnv source flushes clock [] []) = Done (Some (polled, this, env)) ∧
    (polled = Pending → is_Some (sk_ongoing_flush this) ∨ sk_ndjson_buffer this = []) ∧
    (Source_end ∈ source → (length (source_events source) <= answers flushes)%nat → (length source + length flushes < n)%nat →
      polled = Ready tt) ∧
    ∃ taken groups rest, source = taken ++ en_source env ∧ source_events taken = concat groups ++ rest ∧
      en_posted env = ndjson <$> groups ∧ sk_ndjson_buffer this = ndjson rest ∧
      en_delivered env `sublist_of` en_posted env ∧
      (polled = Ready tt → Source_end ∈ taken ∧ concat (en_posted env) = ndjson (source_events taken) ∧
        (Forall (λ p, p ≠ Flush_err) flushes → concat (en_delivered env) = ndjson (source_events taken))).
Proof.
  assert (sink_inv source (Forall (λ p, p ≠ Flush_err) flushes) (HttpBillingEventSink_new interval now)
    (mkSinkEnv source flushes clock [] [])) as Hinv.
  { split; cbn; [|done|].
    - by exists [], [], [].
    - exists []. split; [done|]. split; [done|]. done. }
  destruct (sink_polls_spec n _ _ _ _ Hinv) as (polled&this&env&Hrun&[Hev _ (answered&Hans&Hsub&Hno)]&Hready).
  destruct Hev as (taken&groups&rest&Hs&Hev&Hposted&Hbuf&Hcl). exists polled, this, env. split; [done|].
  split; [intros ->; eapply polls_settled; [|exact Hrun]; by right|].
  split; [intros Hend Ha Hn; eapply polls_end; [..|exact Hrun]; [split; [by right|exact Ha]|exact Hn]|].
  exists taken, groups, rest. do 4 (split; [done|]). split; [rewrite Hans; by apply sublist_inserts_r|].
  intros ->. destruct (Hready tt eq_refl) as (Hclosed&Hempty&Hnone). split; [by apply Hcl|].
  assert (concat (en_posted env) = ndjson (source_events taken)) as Hall.
  { rewrite Hposted, Hev. unfold ndjson. rewrite fmap_app, concat_app.
    replace (concat (ndjson_line <$> rest)) with (@nil byte) by (symmetry; rewrite <- Hempty, Hbuf; done).
    rewrite app_nil_r. clear. induction groups as [|g groups IH]; [done|]. cbn. rewrite fmap_app, concat_app. by rewrite <- IH. }
  split; [done|]. intros Herr. destruct (Hno Herr) as [_ ->]. rewrite <- Hall, Hans, Hnone. by rewrite app_nil_r.
Qed.
End sink.

(** ** The bytes of a response are billed *)

(** The world of the server's managers, and their stack with billing on. *)
Abbreviation MeterWorld := (Prometheus * UsageChannel)%type.

Abbreviation server_metered_man :=
  (mkStackMeteredManager prometheus_metered_manager (Some billing_metered_manager)).

Section billed.
Context {H : Http}.

(** [MeteredBandwidthLayer] over the stack of the two managers. *)
Definition server_metered_call (parts : RequestParts) (w : MeterWorld) :
    option (StackMeteredHooks (option PrometheusMeteredHooks) (option BillingBandwidthMeteredHooks)) * MeterWorld :=
  metered_call (W:=MeterWorld) server_metered_man parts w.

Definition bandwidth_event (info : SubscriptionInfo) (path : PathAndQuery) (quantity : Z) : BillingEvent :=
  Bandwidth (mkBandwidthBillingEvent (si_subscription_id info) (mkPathName path) quantity).

Definition request_event (info : SubscriptionInfo) (path : PathAndQuery) : BillingEvent :=
  Requests (mkRequestBillingEvent (si_subscription_id info) (mkPathName path) 1).

Local Definition server_hooks (info : SubscriptionInfo) (path : PathAndQuery) :
    option (StackMeteredHooks (option PrometheusMeteredHooks) (option BillingBandwidthMeteredHooks)) :=
  Some (mkStackMeteredHooks (Some (mkPrometheusMeteredHooks (si_subscription_id info) path))
          (Some (mkBillingBandwidthMeteredHooks (si_subscription_id info) (mkPathName path)))).

Lemma server_hooks_emit info path reports (w : MeterWorld) : pq_path path ≠ ""%string → uc_open w.2 = true →
  ∃ w' : MeterWorld, emit_all (server_hooks info path) reports w = (server_hooks info path, w') ∧
    pm_total_traffic w'.1 = pm_total_traffic w.1 + foldr Z.add 0 reports ∧
    w'.2 = mkUsageChannel (uc_sent w.2 ++ (bandwidth_event info path <$> reports)) true.
Proof.
  intros Hpath. revert w. induction reports as [|n reports IH]; intros [m [sent o]] Hopen; cbn in Hopen; subst o.
  { exists (m, mkUsageChannel sent true). cbn. split; [done|]. split; [lia|by rewrite app_nil_r]. }
  set (w1 := (add_grpc_service_outbound_bytes (si_subscription_id info, pq_path path) n (add_total_traffic_sent n m),
              mkUsageChannel (sent ++ [bandwidth_event info path n]) true)).
  assert (on_emit_bytes (server_hooks info path) n (m, mkUsageChannel sent true) = (server_hooks info path, w1)) as Hemit.
  { cbn. unfold PathName_as_ref. cbn [pn_path_and_query]. unfold unattributed. rewrite (bool_decide_false (pq_path path = _)) by done.
    by rewrite andb_false_r. }
  destruct (IH w1 eq_refl) as (w'&Hrun&Htotal&Hsent). exists w'. unfold emit_all in *. cbn [foldl]. rewrite Hemit.
  split; [done|]. split; [rewrite Htotal; cbn; lia|]. rewrite Hsent. cbn. by rewrite <- app_assoc.
Qed.

(** A subscriber's response is billed exactly: one event for the request, and
    events for the bytes whose quantities add up to the bytes of the data frames
    that went out, to the subscription and method of the request, also when the
    response ends early; the traffic counter grows by the same. *)
Theorem response_bytes_billed {E} (polls : list (frame_poll E)) threshold parts info path (w : MeterWorld) :
  rp_subscription parts = Some info → rp_path_and_query parts = Some path → pq_path path ≠ ""%string →
  uc_open w.2 = true → Forall (λ p, match p with Frame_data n => 0 <= n | _ => True end) polls →
  0 < threshold → emitted_bytes polls < 2 ^ 64 →
  let '(hooks, w1) := server_metered_call parts w in
  let w2 := body_run hooks threshold polls w1 in
  ∃ quantities,
    uc_sent w2.2 = uc_sent w.2 ++ request_event info path :: (bandwidth_event info path <$> quantities) ∧
    foldr Z.add 0 quantities = emitted_bytes polls ∧
    pm_total_traffic w2.1 = pm_total_traffic w.1 + emitted_bytes polls.
Proof.
  intros Hinfo Hpq Hpath Hopen Hpolls Hthr Hb. destruct w as [m [sent o]]. cbn in Hopen. subst o.
  unfold server_metered_call, metered_call. cbn -[body_run increment_active_metered_bodies emitted_bytes]. rewrite Hinfo, Hpq.
  cbn -[body_run increment_active_metered_bodies emitted_bytes].
  set (w1 := (_, _)). fold (server_hooks info path).
  destruct (metered_bytes_reported polls (server_hooks info path) threshold w1 Hpolls Hthr Hb) as (reports&rest&->&Hsum&_&_).
  destruct (server_hooks_emit info path (reports ++ [rest]) w1 Hpath eq_refl) as (w'&->&Htotal&Hsent).
  exists (reports ++ [rest]). cbn [drop_hooks option_hooks StackMeteredHooks_hooks server_hooks smh_hooks1 smh_hooks2
    PrometheusMeteredHooks_hooks BillingBandwidthMeteredHooks_hooks pmh_subscriber_id pmh_uri_path].
  unfold unattributed. rewrite (bool_decide_false (pq_path path = _)) by done. rewrite andb_false_r.
  cbn [update_prometheus set_part get_part fst_part fst snd]. split; [|split; [done|]].
  - rewrite Hsent. cbn. by rewrite <- app_assoc.
  - rewrite <- Hsum. transitivity (pm_total_traffic w'.1).
    + unfold decrement_active_metered_bodies. destruct (pm_active_bodies w'.1 !! _); [|done]. by case_bool_decide.
    + by rewrite Htotal.
Qed.
End billed.

(** ** Examples *)

Section demo.
Local Definition demo_writer (event : BillingEvent) : bytes * bool :=
  match event with
  | Bandwidth e => (replicate (Z.to_nat 3000) (bytes_of_Z (bbe_quantity e)), true)
  | Requests e => ([bytes_of_Z (rbe_quantity e)], true)
  end.

Local Definition demo_event (q : Z) : BillingEvent :=
  Bandwidth (mkBandwidthBillingEvent "s" (mkPathName (mkPathAndQuery "/p" None)) q).

Local Definition demo_source : list source_poll :=
  [Source_item (demo_event 1); Source_item (demo_event 2); Source_item (demo_event 3); Source_pending; Source_end].

(** Nine polls are enough here, and three answers for three events. *)
Lemma billing_sink_posts_all_witness :
  ∃ this env,
    sink_polls demo_writer 9 (HttpBillingEventSink_new None 0) (mkSinkEnv demo_source [Flush_ok; Flush_ok; Flush_ok] [] [] [])
      = Done (Some (Ready tt, this, env)) ∧
    ∃ taken, Source_end ∈ taken ∧ concat (en_delivered env) = ndjson demo_writer (source_events taken).
Proof.
  destruct (billing_sink_posts_all demo_writer 9 demo_source [Flush_ok; Flush_ok; Flush_ok] [] 0 None)
    as (polled & this & env & Hrun & _ & Hend & taken & groups & rest & _ & _ & _ & _ & _ & Hready).
  assert (polled = Ready tt) as -> by (apply Hend; [do 4 right; left|vm_compute; lia|vm_compute; lia]).
  exists this, env. split; [exact Hrun|]. destruct (Hready eq_refl) as (H1 & _ & H3). exists taken. split; [exact H1|].
  apply H3. repeat constructor; discriminate.
Defined.

(** Two large events make one payload, the third goes out when the channel is idle,
    and the closed channel ends the sink. *)
Lemma demo_sink_completes :
  (λ r, match r with Done (Some (p, _, env)) => Some (p, len <$> en_posted env, len <$> en_delivered env) | _ => None end)
    (sink_polls demo_writer 3 (HttpBillingEventSink_new None 0)
       (mkSinkEnv [Source_item (demo_event 1); Source_item (demo_event 2); Source_item (demo_event 3); Source_pending; Source_end]
          [Flush_ok; Flush_pending; Flush_ok] [] [] []))
  = Some (Ready tt, [6002; 3001], [6002; 3001]).
Proof. by vm_compute. Qed.

Local Instance demo_http : Http := {|
  HeaderMap := unit; HeaderValue := unit; headers_new := tt; headers_get _ _ := None; headers_insert _ _ h := h;
  header_to_str _ := None; header_name_valid _ := false |}.

Local Definition demo_info : SubscriptionInfo := mkSubscriptionInfo "s" None.
Local Definition demo_path : PathAndQuery := mkPathAndQuery "/p" None.
Local Definition demo_world : MeterWorld := (Prometheus_new, mkUsageChannel [] true).

Local Definition demo_parts : RequestParts (H:=demo_http) := mkRequestParts (H:=demo_http) (Some demo_info) (Some demo_path) tt.

Local Definition demo_polls : list (frame_poll nat) := [Frame_data 7; Frame_pending; Frame_data 8; Frame_data 2; Frame_end].

Lemma response_bytes_billed_witness :
  let '(hooks, w1) := server_metered_call demo_parts demo_world in
  let w2 := body_run hooks 10 demo_polls w1 in
  ∃ quantities,
    uc_sent w2.2 = uc_sent demo_world.2 ++ request_event demo_info demo_path :: (bandwidth_event demo_info demo_path <$> quantities) ∧
    foldr Z.add 0 quantities = emitted_bytes demo_polls ∧
    pm_total_traffic w2.1 = pm_total_traffic demo_world.1 + emitted_bytes demo_polls.
Proof.
  apply (response_bytes_billed demo_polls 10 demo_parts demo_info demo_path demo_world);
    [done|done|done|done|by repeat constructor|done|done].
Defined.
End demo.
