(* ===== verification/RequestValidation.v ===== *)
(** * yellowstone-grpc-client-nodejs/napi/src: what the bindings accept

    subscribe_request_validation.rs: the checks of a [SubscribeRequest] before it
    reaches the sink, with the path an error names; and the reconnect
    configuration of utils.rs. *)

From Stdlib Require Import Floats.SpecFloat.
From S2P Require Import Prelude F64 Externals Proto Cuckoo FilterBase AccountsState Convert Reconnect Client.

Set Default Goal Selector "!".

Local Open Scope Z_scope.

(** ** subscribe_request_validation.rs *)

Inductive SubscribeRequestValidationError :=
| ReservedFilterName
| MissingFilter (path : string)
| MissingMemcmpData (path : string)
| MissingLamportsComparator (path : string)
| UnsupportedCuckooHashAlgorithm (path : string) (value : Z)
| InvalidCuckooEntriesPerBucket (path : string) (value : Z)
| InvalidCuckooFingerprintBits (path : string) (value : Z)
| InvalidCuckooBucketCount (path : string) (value : Z)
| InvalidCuckooDataLength (path : string) (expected actual : Z).

Definition error_at (path message : string) : string := "invalid subscribe request at " +:+ path +:+ ": " +:+ message.

(** [fmt::Display]. *)
Definition SubscribeRequestValidationError_fmt (e : SubscribeRequestValidationError) : string :=
  match e with
  | ReservedFilterName => "invalid subscribe request: filter name " +:+ AUTORECONNECT_FILTER_KEY +:+ " is reserved"
  | MissingFilter path => error_at path "filter should be defined"
  | MissingMemcmpData path => error_at path "memcmp filter data should be defined"
  | MissingLamportsComparator path => error_at path "lamports comparator should be defined"
  | UnsupportedCuckooHashAlgorithm path value =>
      error_at path ("unsupported cuckoo hash algorithm " +:+ signed_decimal value)
  | InvalidCuckooEntriesPerBucket path value =>
      error_at path ("cuckoo entriesPerBucket should be 4, got " +:+ decimal value)
  | InvalidCuckooFingerprintBits path value =>
      error_at path ("cuckoo fingerprintBits should be 16, got " +:+ decimal value)
  | InvalidCuckooBucketCount path value =>
      error_at path ("cuckoo bucketCount should be a non-zero power of two, got " +:+ decimal value)
  | InvalidCuckooDataLength path expected actual =>
      error_at path ("cuckoo data length should be " +:+ decimal expected +:+ " bytes, got " +:+ decimal actual)
  end.

Abbreviation validation := (result SubscribeRequestValidationError unit).

(** A loop whose body may return an error. *)
Fixpoint try_for_each {A} (f : A → validation) (l : list A) : validation :=
  match l with
  | [] => Ok tt
  | x :: l => match f x with Ok _ => try_for_each f l | Err e => Err e end
  end.

(** [u32::is_power_of_two]. *)
Definition is_power_of_two (n : Z) : bool := (0 <? n) && (n =? 2 ^ Z.log2 n).

(** [usize::checked_mul]. *)
Definition checked_mul (a b : Z) : option Z := if bool_decide (a * b <= usize_max) then Some (a * b) else None.

Definition validate_cuckoo_filter (cuckoo_filter : ProtoCuckooFilter) (filter_path : string) : validation :=
  if bool_decide (pcf_hash_algorithm cuckoo_filter ≠ 0) then
    Err (UnsupportedCuckooHashAlgorithm filter_path (pcf_hash_algorithm cuckoo_filter))
  else if bool_decide (pcf_entries_per_bucket cuckoo_filter ≠ 4) then
    Err (InvalidCuckooEntriesPerBucket filter_path (pcf_entries_per_bucket cuckoo_filter))
  else if bool_decide (pcf_fingerprint_bits cuckoo_filter ≠ 16) then
    Err (InvalidCuckooFingerprintBits filter_path (pcf_fingerprint_bits cuckoo_filter))
  else if bool_decide (pcf_bucket_count cuckoo_filter = 0) || negb (is_power_of_two (pcf_bucket_count cuckoo_filter)) then
    Err (InvalidCuckooBucketCount filter_path (pcf_bucket_count cuckoo_filter))
  else
    match checked_mul (pcf_bucket_count cuckoo_filter) (pcf_entries_per_bucket cuckoo_filter)
            ≫= λ slot_count, checked_mul slot_count (pcf_fingerprint_bits cuckoo_filter / 8) with
    | None => Err (InvalidCuckooDataLength filter_path usize_max (len (pcf_data cuckoo_filter)))
    | Some expected_data_len =>
        if bool_decide (len (pcf_data cuckoo_filter) ≠ expected_data_len) then
          Err (InvalidCuckooDataLength filter_path expected_data_len (len (pcf_data cuckoo_filter)))
        else Ok tt
    end.

Definition validate_memcmp_filter (memcmp_filter : SubscribeRequestFilterAccountsFilterMemcmp) (filter_path : string) : validation :=
  match memcmp_data memcmp_filter with
  | None => Err (MissingMemcmpData (filter_path +:+ ".memcmp.data"))
  | Some _ => Ok tt
  end.

Definition validate_lamports_filter (cmp : option AccountsFilterLamports) (filter_path : string) : validation :=
  match cmp with
  | None => Err (MissingLamportsComparator (filter_path +:+ ".lamports.cmp"))
  | Some _ => Ok tt
  end.

Definition contains_reserved_filter_name {V} (filters : hash_map V) : bool :=
  hash_map_contains_key AUTORECONNECT_FILTER_KEY filters.

Definition contains_reserved_autoreconnect_filter (request : SubscribeRequest) : bool :=
  contains_reserved_filter_name (req_accounts request)
  || contains_reserved_filter_name (req_slots request)
  || contains_reserved_filter_name (req_transactions request)
  || contains_reserved_filter_name (req_transactions_status request)
  || contains_reserved_filter_name (req_blocks request)
  || contains_reserved_filter_name (req_blocks_meta request)
  || contains_reserved_filter_name (req_entry request).

Definition quoted (group key : string) : string :=
  group +:+ "[" +:+ String (Ascii.Ascii false true false false false true false false) EmptyString +:+ key
  +:+ String (Ascii.Ascii false true false false false true false false) "]".

(** The optional cuckoo filter of a filter. *)
Definition validate_optional_cuckoo (cuckoo : option ProtoCuckooFilter) (path : string) : validation :=
  match cuckoo with Some cuckoo_filter => validate_cuckoo_filter cuckoo_filter path | None => Ok tt end.

(** The body of the loop over the filters of an account filter. *)
Definition validate_account_entry (account_key : string) (entry : nat * SubscribeRequestFilterAccountsFilter) : validation :=
  let '(index, filter) := entry in
  let filter_path := quoted "accounts" account_key +:+ ".filters[" +:+ decimal (Z.of_nat index) +:+ "]" in
  match filter with
  | None => Err (MissingFilter filter_path)
  | Some (FilterMemcmp memcmp_filter) => validate_memcmp_filter memcmp_filter filter_path
  | Some (FilterLamports lamports_filter) => validate_lamports_filter lamports_filter filter_path
  | Some (FilterDatasize _) | Some (FilterTokenAccountState _) => Ok tt
  end.

Definition validate_account_filter (kv : string * SubscribeRequestFilterAccounts) : validation :=
  let '(account_key, account_filter) := kv in
  match validate_optional_cuckoo (rfa_cuckoo_accounts_filter account_filter)
          (quoted "accounts" account_key +:+ ".cuckooAccountsFilter") with
  | Err e => Err e
  | Ok _ => try_for_each (validate_account_entry account_key) (imap pair (rfa_filters account_filter))
  end.

Definition validate_transaction_filter (group_name : string) (kv : string * SubscribeRequestFilterTransactions) : validation :=
  let '(filter_name, filter) := kv in
  validate_optional_cuckoo (rft_cuckoo_account_include filter) (quoted group_name filter_name +:+ ".cuckooAccountInclude").

Definition validate_block_filter (kv : string * SubscribeRequestFilterBlocks) : validation :=
  let '(block_key, block_filter) := kv in
  validate_optional_cuckoo (rfb_cuckoo_account_include block_filter) (quoted "blocks" block_key +:+ ".cuckooAccountInclude").

(** Validations one after the other. *)
Definition and_validate (a b : validation) : validation := match a with Ok _ => b | Err e => Err e end.

Definition validate_subscribe_request (request : SubscribeRequest) : validation :=
  if contains_reserved_autoreconnect_filter request then Err ReservedFilterName
  else
    and_validate (try_for_each validate_account_filter (req_accounts request))
    (and_validate (try_for_each (validate_transaction_filter "transactions") (req_transactions request))
    (and_validate (try_for_each (validate_transaction_filter "transactionsStatus") (req_transactions_status request))
      (try_for_each validate_block_filter (req_blocks request)))).

(** ** utils.rs: the reconnect configuration *)

Record JsReconnectBackoff := mkJsReconnectBackoff {
  js_initial_interval_ms : option Z;
  js_multiplier : option spec_float;
  js_max_retries : option Z
}.

Inductive JsReconnectPolicy :=
| JsRecoverMissedData
| JsSkipMissedData.

Record JsReconnectConfig := mkJsReconnectConfig {
  js_enabled : option bool;
  js_backoff : option JsReconnectBackoff;
  js_slot_retention : option Z;
  js_policy : option JsReconnectPolicy
}.

Definition f64_is_finite (x : spec_float) : bool :=
  match x with S754_zero _ | S754_finite _ _ _ => true | _ => false end.

(** [reconnect_config_from_js]; an error is its message. *)
Definition reconnect_config_from_js (reconnect_config : option JsReconnectConfig) : result string (option ReconnectConfig) :=
  match reconnect_config with
  | None => Ok None
  | Some reconnect_config =>
      if bool_decide (js_enabled reconnect_config = Some false) then Ok None
      else
        let native_config := ReconnectConfig_default in
        let policy :=
          match js_policy reconnect_config, js_slot_retention reconnect_config with
          | Some JsSkipMissedData, _ => Ok SkipMissedData
          | _, Some slot_retention =>
              if bool_decide (slot_retention = 0) then Err "invalid reconnect.slotRetention: expected a positive integer"%string
              else Ok (RecoverMissedData slot_retention)
          | _, None => Ok (rc_policy native_config)
          end in
        match policy with
        | Err e => Err e
        | Ok policy =>
            match js_backoff reconnect_config with
            | None => Ok (Some (mkReconnectConfig (rc_backoff native_config) policy))
            | Some backoff =>
                let initial_interval := match js_initial_interval_ms backoff with
                                        | Some ms => ms * 1000000
                                        | None => bo_initial_interval (rc_backoff native_config) end in
                let multiplier := default (bo_multiplier (rc_backoff native_config)) (js_multiplier backoff) in
                let max_retries := default (bo_max_retries (rc_backoff native_config)) (js_max_retries backoff) in
                if negb (f64_is_finite multiplier) || SFltb multiplier f64_one then
                  Err "invalid reconnect.backoff.multiplier: expected a finite number >= 1"%string
                else Ok (Some (mkReconnectConfig (mkBackoff initial_interval multiplier max_retries) policy))
            end
        end
  end.

(** ** What an accepted request satisfies *)

(** The filter is the wire form of the one the server builds of it. *)
Definition cuckoo_exact (p : ProtoCuckooFilter) : Prop :=
  is_power_of_two (pcf_bucket_count p) = true ∧
  len (cf_buckets (CuckooFilter_from_proto p)) = pcf_bucket_count p ∧
  CuckooFilter_to_proto (CuckooFilter_from_proto p) = p.

(** The oneofs of an account filter's entry are set. *)
Definition entry_complete (filter : SubscribeRequestFilterAccountsFilter) : Prop :=
  match filter with
  | None => False
  | Some (FilterMemcmp memcmp) => memcmp_data memcmp ≠ None
  | Some (FilterLamports cmp) => cmp ≠ None
  | Some _ => True
  end.

Definition optional_exact (cuckoo : option ProtoCuckooFilter) : Prop :=
  match cuckoo with Some p => cuckoo_exact p | None => True end.

Definition unreserved {V} (m : hash_map V) : Prop := Forall (λ kv, kv.1 ≠ AUTORECONNECT_FILTER_KEY) m.

Record request_valid (request : SubscribeRequest) : Prop := {
  valid_unreserved : unreserved (req_accounts request) ∧ unreserved (req_slots request) ∧
    unreserved (req_transactions request) ∧ unreserved (req_transactions_status request) ∧
    unreserved (req_blocks request) ∧ unreserved (req_blocks_meta request) ∧ unreserved (req_entry request);
  valid_accounts : Forall (λ kv, optional_exact (rfa_cuckoo_accounts_filter kv.2) ∧ Forall entry_complete (rfa_filters kv.2))
    (req_accounts request);
  valid_transactions : Forall (λ kv, optional_exact (rft_cuckoo_account_include kv.2)) (req_transactions request);
  valid_transactions_status : Forall (λ kv, optional_exact (rft_cuckoo_account_include kv.2)) (req_transactions_status request);
  valid_blocks : Forall (λ kv, optional_exact (rfb_cuckoo_account_include kv.2)) (req_blocks request)
}.

(** The [u32] field of the bucket count, of all cuckoo filters of a request. *)
Definition u32_count (cuckoo : option ProtoCuckooFilter) : Prop :=
  match cuckoo with Some p => 0 <= pcf_bucket_count p < 2 ^ 32 | None => True end.

Record request_u32 (request : SubscribeRequest) : Prop := {
  u32_accounts : Forall (λ kv, u32_count (rfa_cuckoo_accounts_filter kv.2)) (req_accounts request);
  u32_transactions : Forall (λ kv, u32_count (rft_cuckoo_account_include kv.2)) (req_transactions request);
  u32_transactions_status : Forall (λ kv, u32_count (rft_cuckoo_account_include kv.2)) (req_transactions_status request);
  u32_blocks : Forall (λ kv, u32_count (rfb_cuckoo_account_include kv.2)) (req_blocks request)
}.

(** *** Cuckoo filters *)

Lemma to_le_bytes_u16 a b : to_le_bytes 2 (Z_of_byte a + 256 * Z_of_byte b) = [a; b].
Proof.
  pose proof (Z_of_byte_range a). pose proof (Z_of_byte_range b). cbn [to_le_bytes].
  assert (∀ z c, z mod 256 = Z_of_byte c → bytes_of_Z z = c) as Hbyte.
  { intros z c Hz. rewrite <- (bytes_of_Z_of_byte c). unfold bytes_of_Z. rewrite Hz.
    by rewrite (Z.mod_small (Z_of_byte c)) by (pose proof (Z_of_byte_range c); lia). }
  f_equal; [|f_equal]; apply Hbyte.
  - rewrite Z.mul_comm, Z_mod_plus_full. apply Z.mod_small. lia.
  - rewrite Z.mul_comm, Z.div_add by lia. rewrite Z.div_small by lia. apply Z.mod_small. lia.
Qed.

Lemma u16s_from_le_back n data : length data = (2 * n)%nat →
  (u16s_from_le data ≫= to_le_bytes 2) = data ∧ length (u16s_from_le data) = n.
Proof.
  revert data. induction n as [|n IH]; intros data Hlen.
  - by apply nil_length_inv in Hlen as ->.
  - destruct data as [|a [|b data]]; [cbn in Hlen; lia..|]. cbn [length] in Hlen.
    destruct (IH data ltac:(lia)) as [Hd Hl]. cbn [u16s_from_le length]. rewrite bind_cons, Hd, to_le_bytes_u16.
    split; [done|lia].
Qed.

Lemma buckets_of_u16s_back n l : length l = (4 * n)%nat →
  concat (buckets_of_u16s l) = l ∧ length (buckets_of_u16s l) = n.
Proof.
  revert l. induction n as [|n IH]; intros l Hlen.
  - by apply nil_length_inv in Hlen as ->.
  - destruct l as [|a [|b [|c [|d l]]]]; [cbn in Hlen; lia..|]. cbn [length] in Hlen.
    destruct (IH l ltac:(lia)) as [Hl Hn]. cbn [buckets_of_u16s length concat]. rewrite Hl. split; [done|lia].
Qed.

(** Data of the right length is read back bucket by bucket. *)
Lemma from_proto_exact p n : length (pcf_data p) = (8 * n)%nat → (0 < n)%nat →
  (concat (cf_buckets (CuckooFilter_from_proto p)) ≫= to_le_bytes 2) = pcf_data p ∧
  length (cf_buckets (CuckooFilter_from_proto p)) = n.
Proof.
  intros Hlen Hn. destruct (u16s_from_le_back (4 * n) (pcf_data p) ltac:(lia)) as [Hu Hul].
  destruct (buckets_of_u16s_back n (u16s_from_le (pcf_data p)) Hul) as [Hb Hbl].
  unfold CuckooFilter_from_proto. destruct (pcf_data p) as [|x data] eqn:Hd; [cbn in Hlen; lia|].
  destruct (buckets_of_u16s (u16s_from_le (x :: data))) as [|b bs] eqn:Hbs; [cbn in Hbl; lia|]. cbn [cf_buckets].
  by rewrite Hb.
Qed.

Lemma concat_buckets_length (bs : list Bucket) : Forall bucket_wf bs →
  length (concat bs ≫= to_le_bytes 2) = (8 * length bs)%nat.
Proof.
  assert (∀ l : list Z, length (l ≫= to_le_bytes 2) = (2 * length l)%nat) as Hbind.
  { intros l. induction l as [|z l IH]; [done|]. rewrite bind_cons, length_app, IH. cbn. lia. }
  intros Hwf. rewrite Hbind. induction Hwf as [|b bs [Hb _] _ IH]; [done|].
  cbn [concat length]. rewrite length_app, Hb. unfold ENTRIES_PER_BUCKET. lia.
Qed.

Lemma is_power_of_two_pos n : is_power_of_two n = true → 0 < n.
Proof. unfold is_power_of_two. intros [H%Z.ltb_lt _]%andb_prop. done. Qed.

Lemma validate_cuckoo_filter_spec p path : 0 <= pcf_bucket_count p < 2 ^ 32 →
  validate_cuckoo_filter p path = Ok tt ↔ cuckoo_exact p.
Proof.
  intros Hcount. unfold validate_cuckoo_filter, cuckoo_exact. destruct p as [data count entries bits seed alg].
  cbn [pcf_data pcf_bucket_count pcf_entries_per_bucket pcf_fingerprint_bits pcf_hash_algorithm] in *.
  set (p := mkProtoCuckooFilter data count entries bits seed alg).
  pose proof (from_proto_wf p) as [_ Hwf]. pose proof (concat_buckets_length _ Hwf) as Hlen. split.
  - case_bool_decide as Halg; [done|]. case_bool_decide as Hent; [done|]. case_bool_decide as Hbits; [done|].
    subst alg entries bits.
    destruct (is_power_of_two count) eqn:Hpow; [|by rewrite orb_true_r]. pose proof (is_power_of_two_pos _ Hpow) as Hpos.
    rewrite bool_decide_false by lia. cbn [orb negb]. unfold checked_mul. rewrite bool_decide_true by (unfold usize_max; lia).
    cbn [mbind option_bind]. change (16 / 8) with 2. rewrite bool_decide_true by (unfold usize_max; lia).
    case_bool_decide as Hdata; [done|]. intros _. split; [done|]. unfold len in Hdata.
    destruct (from_proto_exact p (Z.to_nat count)) as [Hd Hn]; [cbn [pcf_data p]; lia|lia|].
    split; [unfold len; lia|]. unfold CuckooFilter_to_proto. rewrite Hd. unfold len. rewrite Hn, Z2Nat.id by lia.
    rewrite Z.mod_small by lia. unfold p. cbn [pcf_data]. f_equal.
    unfold CuckooFilter_from_proto. cbn [pcf_data pcf_hash_seed]. destruct data as [|x data]; [done|].
    by destruct (buckets_of_u16s _).
  - intros (Hpow&Hn&Hrt). pose proof (is_power_of_two_pos _ Hpow) as Hpos.
    assert (pcf_hash_algorithm p = 0 ∧ pcf_entries_per_bucket p = 4 ∧ pcf_fingerprint_bits p = 16 ∧
      pcf_data p = concat (cf_buckets (CuckooFilter_from_proto p)) ≫= to_le_bytes 2) as (Ha&He&Hb&Hd) by (by rewrite <- Hrt at 1 2 3 4).
    cbn [p pcf_hash_algorithm pcf_entries_per_bucket pcf_fingerprint_bits pcf_data] in Ha, He, Hb, Hd. subst alg entries bits.
    rewrite !(bool_decide_false (_ ≠ _)) by lia. rewrite bool_decide_false by lia. rewrite Hpow. cbn [orb negb].
    unfold checked_mul. rewrite bool_decide_true by (unfold usize_max; lia). cbn [mbind option_bind]. change (16 / 8) with 2.
    rewrite bool_decide_true by (unfold usize_max; lia). rewrite bool_decide_false; [done|].
    intros Hne. apply Hne. rewrite Hd. unfold len in *. lia.
Qed.

(** *** Requests *)

Lemma validation_err (f : validation) e : f = Err e → f ≠ Ok tt.
Proof. by intros ->. Qed.

Lemma validation_tt (f : validation) u : f = Ok u ↔ f = Ok tt.
Proof. by destruct u. Qed.

Lemma and_validate_spec (a b : validation) : and_validate a b = Ok tt ↔ a = Ok tt ∧ b = Ok tt.
Proof. destruct a as [[]|e]; cbn [and_validate]; naive_solver. Qed.

Lemma try_for_each_spec {A} (f : A → validation) l : try_for_each f l = Ok tt ↔ Forall (λ x, f x = Ok tt) l.
Proof.
  induction l as [|x l IH]; cbn [try_for_each]; [by split|]. rewrite Forall_cons, <- IH.
  destruct (f x) as [[]|e]; naive_solver.
Qed.

(** A loop of checks, each of which says [P] of an element that satisfies [U]. *)
Lemma try_for_each_Forall {A} (f : A → validation) (U P : A → Prop) l :
  (∀ x, U x → f x = Ok tt ↔ P x) → Forall U l → try_for_each f l = Ok tt ↔ Forall P l.
Proof.
  intros Hf HU. rewrite try_for_each_spec. induction HU as [|x l Hx _ IH]; [by rewrite !Forall_nil|].
  by rewrite !Forall_cons, IH, (Hf x Hx).
Qed.

Lemma validate_optional_cuckoo_spec cuckoo path :
  u32_count cuckoo → validate_optional_cuckoo cuckoo path = Ok tt ↔ optional_exact cuckoo.
Proof. destruct cuckoo as [p|]; cbn; [apply validate_cuckoo_filter_spec|done]. Qed.

Lemma validate_account_entry_spec key index filter :
  validate_account_entry key (index, filter) = Ok tt ↔ entry_complete filter.
Proof.
  destruct filter as [[memcmp|size|b|cmp]|]; cbn [validate_account_entry entry_complete]; try done.
  - unfold validate_memcmp_filter. by destruct (memcmp_data memcmp).
  - unfold validate_lamports_filter. by destruct cmp.
Qed.

Lemma validate_account_entries_spec key filters :
  try_for_each (validate_account_entry key) (imap pair filters) = Ok tt ↔ Forall entry_complete filters.
Proof.
  rewrite try_for_each_spec, !Forall_lookup. split.
  - intros H i f Hf. apply (validate_account_entry_spec key i). apply (H i). by rewrite list_lookup_imap, Hf.
  - intros H i [j f]. rewrite list_lookup_imap. destruct (filters !! i) as [g|] eqn:Hg; [|done].
    intros [= <- <-]. by apply validate_account_entry_spec, (H i).
Qed.

Lemma validate_account_filter_spec kv : u32_count (rfa_cuckoo_accounts_filter kv.2) →
  validate_account_filter kv = Ok tt ↔
  optional_exact (rfa_cuckoo_accounts_filter kv.2) ∧ Forall entry_complete (rfa_filters kv.2).
Proof.
  destruct kv as [key filter]. cbn [snd]. intros Hu. unfold validate_account_filter.
  rewrite <- (validate_optional_cuckoo_spec _ (quoted "accounts" key +:+ ".cuckooAccountsFilter") Hu).
  rewrite <- (validate_account_entries_spec key). destruct (validate_optional_cuckoo _ _) as [[]|e]; naive_solver.
Qed.

Lemma validate_transaction_filter_spec group kv : u32_count (rft_cuckoo_account_include kv.2) →
  validate_transaction_filter group kv = Ok tt ↔ optional_exact (rft_cuckoo_account_include kv.2).
Proof. destruct kv. apply validate_optional_cuckoo_spec. Qed.

Lemma validate_block_filter_spec kv : u32_count (rfb_cuckoo_account_include kv.2) →
  validate_block_filter kv = Ok tt ↔ optional_exact (rfb_cuckoo_account_include kv.2).
Proof. destruct kv. apply validate_optional_cuckoo_spec. Qed.

Lemma unreserved_spec {V} (m : hash_map V) : contains_reserved_filter_name m = false ↔ unreserved m.
Proof.
  unfold contains_reserved_filter_name, hash_map_contains_key, unreserved.
  induction m as [|[k v] m IH]; cbn [existsb fst]; [by rewrite Forall_nil|].
  rewrite Forall_cons, orb_false_iff, bool_decide_eq_false, IH. done.
Qed.

Lemma validation_error (f : validation) : f ≠ Ok tt → ∃ e, f = Err e.
Proof. destruct f as [[]|e]; [done|by exists e]. Qed.

(** C28. The bindings accept a request exactly when the reserved filter name
    occurs in none of its seven maps, every entry of an account filter has its
    oneof and its inner oneof set, and every cuckoo filter is exactly the wire
    form of the filter the server reads from it: a power-of-two number of
    buckets, all present, of four 16-bit fingerprints, under the known hash
    algorithm, with no trailing bytes; any other request is an error. *)
Theorem request_validation_spec request : request_u32 request →
  (validate_subscribe_request request = Ok tt ↔ request_valid request) ∧
  (¬ request_valid request → ∃ e, validate_subscribe_request request = Err e).
Proof.
  intros [Ha Ht Hts Hb].
  assert (validate_subscribe_request request = Ok tt ↔ request_valid request) as Hspec.
  { unfold validate_subscribe_request.
    destruct (contains_reserved_autoreconnect_filter request) eqn:Hres; unfold contains_reserved_autoreconnect_filter in Hres.
    - split; [done|]. intros [(H1&H2&H3&H4&H5&H6&H7) _ _ _ _]. apply unreserved_spec in H1, H2, H3, H4, H5, H6, H7.
      by rewrite H1, H2, H3, H4, H5, H6, H7 in Hres.
    - rewrite !orb_false_iff, !unreserved_spec in Hres. rewrite !and_validate_spec.
      rewrite (try_for_each_Forall _ _ _ _ validate_account_filter_spec Ha).
      rewrite (try_for_each_Forall _ _ _ _ (validate_transaction_filter_spec "transactions") Ht).
      rewrite (try_for_each_Forall _ _ _ _ (validate_transaction_filter_spec "transactionsStatus") Hts).
      rewrite (try_for_each_Forall _ _ _ _ validate_block_filter_spec Hb).
      split; [intros (?&?&?&?); constructor; tauto|intros []; tauto]. }
  split; [done|]. intros Hinv. apply validation_error. by rewrite Hspec.
Qed.

(** A multiplier accepted by [reconnect_config_from_js] can be too large for a
    [Duration]: the first retry then panics. *)
Lemma accepted_multiplier_panics :
  let js := mkJsReconnectConfig None (Some (mkJsReconnectBackoff None (Some (f64_exact 1 100)) None)) None None in
  ∃ config, reconnect_config_from_js (Some js) = Ok (Some config) ∧
    BackoffInstance_next (BackoffInstance_new (rc_backoff config)) = Panic.
Proof. eexists. split; [vm_compute; reflexivity|vm_compute; reflexivity]. Qed.

(** ** Witness *)

Definition demo_wire_cuckoo (extra : bytes) : ProtoCuckooFilter :=
  mkProtoCuckooFilter (repeat Byte.x01 16 ++ extra) 2 4 16 7 0.

Definition demo_validated (extra : bytes) : SubscribeRequest :=
  let account := mkRequestAccounts [] [] [Some (FilterDatasize 165)] None (Some (demo_wire_cuckoo extra)) in
  mkSubscribeRequest [("a"%string, account)] [] [] [] [] [] [] None [] None None.

Lemma demo_validated_u32 extra : request_u32 (demo_validated extra).
Proof. split; repeat constructor; cbn; lia. Qed.

Lemma request_validation_spec_witness :
  request_valid (demo_validated []) ∧ ¬ request_valid (demo_validated [Byte.x00]).
Proof.
  split.
  - apply (request_validation_spec _ (demo_validated_u32 [])). vm_compute. reflexivity.
  - intros H. apply (request_validation_spec _ (demo_validated_u32 [Byte.x00])) in H. vm_compute in H. discriminate H.
Defined.
