(* ===== verification/DuplexStream.v ===== *)
(** * yellowstone-grpc-client-nodejs/napi/src/lib.rs: the duplex streams

    [SharedStream], a stream that several tasks may poll at once although the
    wrapped stream keeps one waker; and [DuplexStreamInner], the read, write and
    close operations the bindings export. The wrapped stream, protobuf decoding
    and the sink are parameters. *)

From S2P Require Import Prelude Proto RequestValidation.

Set Default Goal Selector "!".

(** ** SharedStream *)

(** A stream with one waker slot. The only waker it is polled with is the
    proxy, so the slot is a flag. [stream_event] is what its other end may do to
    it, and whether that wakes the registered waker. *)
Class WrappedStream (St Item : Type) := {
  stream_poll : St → Poll (option Item) * St;
  stream_ready : St → bool;
  stream_registered : St → bool;
  stream_event : St → St → bool → Prop
}.

(** The contract of [Stream::poll_next] and of a waker slot: a poll that
    returns [Pending] has registered the waker; what makes the stream ready or
    empties the slot wakes the waker that was registered. *)
Class WrappedStreamLaws (St Item : Type) `{WrappedStream St Item} := {
  poll_pending : ∀ s, stream_ready s = false →
    ∃ s', stream_poll s = (Pending, s') ∧ stream_registered s' = true ∧ stream_ready s' = false;
  poll_ready : ∀ s, stream_ready s = true → ∃ item s', stream_poll s = (Ready item, s');
  event_wakes : ∀ s s' woken, stream_event s s' woken → stream_registered s = true → stream_ready s = false →
    woken = true ∨ (stream_registered s' = true ∧ stream_ready s' = false)
}.

(** [ProtoEncodedSt]: each item encoded as it is polled. *)
Definition ProtoEncodedSt_poll_next {St Msg Error Bytes : Type} (encode_to_vec : Msg → Bytes)
    (try_poll_next : St → Poll (option (result Error Msg)) * St) (this : St) : Poll (option (result Error Bytes)) * St :=
  match try_poll_next this with
  | (Pending, this) => (Pending, this)
  | (Ready (Some (Ok message)), this) => (Ready (Some (Ok (encode_to_vec message))), this)
  | (Ready (Some (Err error)), this) => (Ready (Some (Err error)), this)
  | (Ready None, this) => (Ready None, this)
  end.

Section shared.
Context {St Item : Type} `{WrappedStreamLaws St Item}.

(** A waker, as [will_wake] compares it: the task it wakes. *)
Definition task : Type := nat.

Record SharedStreamState := mkSharedStreamState {
  ss_stream : St;
  ss_waiters : list task
}.

Definition SharedStream_new (inner : St) : SharedStreamState := mkSharedStreamState inner [].

(** [SharedStream::poll_next] of a task; it holds the lock throughout. *)
Definition SharedStream_poll_next (waker : task) (guard : SharedStreamState) : Poll (option Item) * SharedStreamState :=
  match stream_poll (ss_stream guard) with
  | (Ready item, stream) => (Ready item, mkSharedStreamState stream (ss_waiters guard))
  | (Pending, stream) =>
      if existsb (Nat.eqb waker) (ss_waiters guard) then (Pending, mkSharedStreamState stream (ss_waiters guard))
      else (Pending, mkSharedStreamState stream (ss_waiters guard ++ [waker]))
  end.

(** [std::mem::take] of the waiters, under the lock. *)
Definition take_waiters (guard : SharedStreamState) : list task * SharedStreamState :=
  (ss_waiters guard, mkSharedStreamState (ss_stream guard) []).

(** A read's future. *)
Inductive read_status :=
| Runnable
| Waiting
| Finished (item : option Item).

(** The tasks that read, the calls of [wake_by_ref] that wait for the lock, and
    the waiters those have taken and not yet woken. *)
Record read_system := mkSystem {
  sys_shared : SharedStreamState;
  sys_tasks : gmap task read_status;
  sys_waking : nat;
  sys_woken : list task
}.

Definition set_task (t : task) (r : read_status) (s : read_system) : read_system :=
  mkSystem (sys_shared s) (<[t := r]> (sys_tasks s)) (sys_waking s) (sys_woken s).

(** [Waker::wake]: a task that waits is polled again. *)
Definition wake_task (t : task) (s : read_system) : read_system :=
  match sys_tasks s !! t with Some Waiting => set_task t Runnable s | _ => s end.

Definition poll_task (t : task) (s : read_system) : read_system :=
  match SharedStream_poll_next t (sys_shared s) with
  | (Ready item, shared) => mkSystem shared (<[t := Finished item]> (sys_tasks s)) (sys_waking s) (sys_woken s)
  | (Pending, shared) => mkSystem shared (<[t := Waiting]> (sys_tasks s)) (sys_waking s) (sys_woken s)
  end.

(** [SharedStreamWaker::wake_by_ref], which releases the lock before it wakes
    the waiters it took. *)
Inductive wake_step : read_system → read_system → Prop :=
| wake_takes s n :
    sys_waking s = S n →
    wake_step s (mkSystem (take_waiters (sys_shared s)).2 (sys_tasks s) n (sys_woken s ++ (take_waiters (sys_shared s)).1))
| wake_one s t rest :
    sys_woken s ≡ₚ t :: rest →
    wake_step s (wake_task t (mkSystem (sys_shared s) (sys_tasks s) (sys_waking s) rest)).

(** What happens in any order: a read starts, is polled, is woken for no
    reason or is dropped; the other end of the stream acts; wake-ups proceed. *)
Inductive read_step : read_system → read_system → Prop :=
| step_read s t : sys_tasks s !! t = None → read_step s (set_task t Runnable s)
| step_poll s t : sys_tasks s !! t = Some Runnable → read_step s (poll_task t s)
| step_spurious s t : sys_tasks s !! t = Some Waiting → read_step s (set_task t Runnable s)
| step_drop s t : read_step s (mkSystem (sys_shared s) (delete t (sys_tasks s)) (sys_waking s) (sys_woken s))
| step_event s stream woken :
    stream_event (ss_stream (sys_shared s)) stream woken →
    read_step s (mkSystem (mkSharedStreamState stream (ss_waiters (sys_shared s))) (sys_tasks s)
                  (if woken then S (sys_waking s) else sys_waking s) (sys_woken s))
| step_wake s s' : wake_step s s' → read_step s s'.

Definition read_system_new (inner : St) : read_system := mkSystem (SharedStream_new inner) ∅ 0 [].

(** A task that waits will be woken: it has been taken, or it is in the list of
    waiters; and that list is empty, or a wake-up is on its way, or the stream
    is not ready and holds the proxy. *)
Record read_inv (s : read_system) : Prop := {
  inv_waiting : ∀ t, sys_tasks s !! t = Some Waiting → t ∈ sys_woken s ∨ t ∈ ss_waiters (sys_shared s);
  inv_proxy : ss_waiters (sys_shared s) = [] ∨ (0 < sys_waking s)%nat ∨
    (stream_registered (ss_stream (sys_shared s)) = true ∧ stream_ready (ss_stream (sys_shared s)) = false);
  inv_waiters : NoDup (ss_waiters (sys_shared s))
}.

Lemma existsb_waker w l : existsb (Nat.eqb w) l = true ↔ w ∈ l.
Proof.
  rewrite existsb_exists. setoid_rewrite Nat.eqb_eq. setoid_rewrite list_elem_of_In.
  split; [by intros (x&?&->)|by exists w].
Qed.

(** Setting one task, when it is not left to wait. *)
Lemma inv_set_task t r s : r ≠ Waiting → read_inv s → read_inv (set_task t r s).
Proof.
  intros Hr [Hw Hp Hn]. split; cbn [set_task sys_shared sys_tasks sys_waking sys_woken]; [|done..].
  intros u. destruct (decide (u = t)) as [->|Hu].
  - rewrite lookup_insert_eq. intros [= ->]. done.
  - rewrite lookup_insert_ne by done. apply Hw.
Qed.

Lemma inv_poll_task t s : read_inv s → read_inv (poll_task t s).
Proof.
  intros [Hw Hp Hn]. unfold poll_task, SharedStream_poll_next.
  destruct (stream_ready (ss_stream (sys_shared s))) eqn:Hready.
  - destruct (poll_ready _ Hready) as (item&stream&->).
    split; cbn [sys_shared sys_tasks sys_waking sys_woken ss_stream ss_waiters]; [|naive_solver|done].
    intros u. destruct (decide (u = t)) as [->|Hu]; [by rewrite lookup_insert_eq|].
    rewrite lookup_insert_ne by done. apply Hw.
  - destruct (poll_pending _ Hready) as (stream&->&Hreg&Hnr).
    destruct (existsb (Nat.eqb t) (ss_waiters (sys_shared s))) eqn:Hin.
    + apply existsb_waker in Hin.
      split; cbn [sys_shared sys_tasks sys_waking sys_woken ss_stream ss_waiters]; [|by auto|done].
      intros u. destruct (decide (u = t)) as [->|Hu]; [by right|]. rewrite lookup_insert_ne by done. apply Hw.
    + split; cbn [sys_shared sys_tasks sys_waking sys_woken ss_stream ss_waiters]; [|by auto|].
      * intros u. rewrite elem_of_app, list_elem_of_singleton. destruct (decide (u = t)) as [->|Hu]; [by auto|].
        rewrite lookup_insert_ne by done. intros [?|?]%Hw; auto.
      * apply NoDup_app. split_and!; [done| |apply NoDup_singleton].
        intros u Hu ->%list_elem_of_singleton. apply existsb_waker in Hu. by rewrite Hu in Hin.
Qed.

Lemma inv_wake_step s s' : wake_step s s' → read_inv s → read_inv s'.
Proof.
  intros [s0 n Hn|s0 t rest Hperm] [Hw Hp Hnd].
  - split; cbn [sys_shared sys_tasks sys_waking sys_woken take_waiters fst snd ss_waiters ss_stream]; [|by left|constructor].
    intros t [?|?]%Hw; left; apply elem_of_app; auto.
  - unfold wake_task. cbn [sys_tasks]. set (s1 := mkSystem _ _ _ _).
    assert (∀ u, u ≠ t → sys_tasks s1 !! u = Some Waiting → u ∈ sys_woken s1 ∨ u ∈ ss_waiters (sys_shared s1)) as Hother.
    { intros u Hu Hwait. destruct (Hw u Hwait) as [Hin|Hin]; [left|by right]. rewrite Hperm in Hin.
      by apply elem_of_cons in Hin as [->|?]. }
    destruct (sys_tasks s0 !! t) as [[| |item]|] eqn:Ht.
    2: { split; cbn [set_task sys_shared sys_tasks sys_waking sys_woken]; [|done..].
         intros u. destruct (decide (u = t)) as [->|Hu]; [by rewrite lookup_insert_eq|].
         rewrite lookup_insert_ne by done. by apply Hother. }
    all: split; [|done..]; intros u Hu; apply Hother; [|done]; intros ->; cbn [s1 sys_tasks] in Hu; congruence.
Qed.

Lemma inv_read_step s s' : read_step s s' → read_inv s → read_inv s'.
Proof.
  intros [s0 t Ht|s0 t Ht|s0 t Ht|s0 t|s0 stream woken Hev|s0 s1 Hwake] Hinv.
  - by apply inv_set_task.
  - by apply inv_poll_task.
  - by apply inv_set_task.
  - destruct Hinv as [Hw Hp Hn]. split; cbn [sys_shared sys_tasks sys_waking sys_woken]; [|done..].
    intros u [? ?]%lookup_delete_Some. by apply Hw.
  - destruct Hinv as [Hw Hp Hn]. split; cbn [sys_shared sys_tasks sys_waking sys_woken ss_stream ss_waiters]; [done| |done].
    destruct Hp as [?|[?|[Hreg Hnr]]]; [by left|right; left; destruct woken; lia|].
    destruct (event_wakes _ _ _ Hev Hreg Hnr) as [->|?]; right; [left; lia|by right].
  - by apply (inv_wake_step s0).
Qed.

Lemma inv_reachable inner s : rtc read_step (read_system_new inner) s → read_inv s.
Proof.
  refine (rtc_ind_r (λ s, read_inv s) (read_system_new inner) _ _ s).
  - split; [|by left|constructor]. intros t. cbn. by rewrite lookup_empty.
  - intros. by eapply inv_read_step.
Qed.

(** Wake-ups yet to be made, in calls and in wakers. *)
Definition wakes_left (s : read_system) : nat :=
  (sys_waking s + length (sys_woken s) + length (ss_waiters (sys_shared s)))%nat.

(** No wake-up is under way. *)
Definition settled (s : read_system) : Prop := sys_waking s = 0%nat ∧ sys_woken s = [].

Lemma wake_task_rest t s : sys_shared (wake_task t s) = sys_shared s ∧ sys_waking (wake_task t s) = sys_waking s ∧
  sys_woken (wake_task t s) = sys_woken s.
Proof. unfold wake_task. by destruct (sys_tasks s !! t) as [[]|]. Qed.

(** Each step makes one wake-up and leaves the stream alone. *)
Lemma wake_step_left s s' : wake_step s s' →
  S (wakes_left s') = wakes_left s ∧ ss_stream (sys_shared s') = ss_stream (sys_shared s).
Proof.
  unfold wakes_left. intros [s0 n Hn|s0 t rest Hperm].
  - cbn [sys_shared sys_waking sys_woken take_waiters fst snd ss_waiters ss_stream]. rewrite length_app, Hn. cbn [length].
    split; [lia|done].
  - destruct (wake_task_rest t (mkSystem (sys_shared s0) (sys_tasks s0) (sys_waking s0) rest)) as (->&->&->).
    apply Permutation_length in Hperm. rewrite Hperm. cbn [sys_shared sys_waking sys_woken length]. split; [lia|done].
Qed.

Lemma wakes_bounded n s s' : nsteps wake_step n s s' → (n + wakes_left s' = wakes_left s)%nat.
Proof. induction 1 as [|n s s1 s' Hstep _ IH]; [done|]. destruct (wake_step_left _ _ Hstep) as [? _]. lia. Qed.

Lemma wakes_keep s s' : rtc wake_step s s' → read_inv s →
  read_inv s' ∧ ss_stream (sys_shared s') = ss_stream (sys_shared s).
Proof.
  induction 1 as [|s s1 s' Hstep _ IH]; [done|]. intros Hinv.
  destruct IH as [? ->]; [by eapply inv_wake_step|]. split; [done|]. by apply wake_step_left.
Qed.

Lemma wakes_settle s : ∃ s', rtc wake_step s s' ∧ settled s'.
Proof.
  remember (wakes_left s) as n eqn:Hn. revert s Hn. induction n as [|n IH]; intros s Hn.
  - exists s. split; [done|]. unfold wakes_left in Hn. split; [lia|]. apply nil_length_inv. lia.
  - destruct (sys_waking s) as [|k] eqn:Hk; [destruct (sys_woken s) as [|t rest] eqn:Hw|].
    + exists s. by split.
    + assert (wake_step s (wake_task t (mkSystem (sys_shared s) (sys_tasks s) (sys_waking s) rest))) as Hstep
        by (apply wake_one; by rewrite Hw).
      destruct (wake_step_left _ _ Hstep) as [Hl _].
      destruct (IH _ (eq_add_S _ _ (eq_trans Hn (eq_sym Hl)))) as (s'&Hs'&Hset).
      exists s'. split; [by eapply rtc_l|done].
    + pose proof (wake_takes s k Hk) as Hstep.
      destruct (wake_step_left _ _ Hstep) as [Hl _].
      destruct (IH _ (eq_add_S _ _ (eq_trans Hn (eq_sym Hl)))) as (s'&Hs'&Hset).
      exists s'. split; [by eapply rtc_l|done].
Qed.

Lemma inv_settled s : read_inv s → settled s → stream_ready (ss_stream (sys_shared s)) = true →
  ∀ t, sys_tasks s !! t ≠ Some Waiting.
Proof.
  intros [Hw Hp _] [Hk Hwoken] Hready t Ht. destruct (Hw t Ht) as [Hin|Hin].
  - rewrite Hwoken in Hin. by apply not_elem_of_nil in Hin.
  - destruct Hp as [Hnil|[?|[_ ?]]]; [|lia|congruence]. rewrite Hnil in Hin. by apply not_elem_of_nil in Hin.
Qed.

Lemma poll_task_ready t s : stream_ready (ss_stream (sys_shared s)) = true →
  ∃ item, sys_tasks (poll_task t s) !! t = Some (Finished item).
Proof.
  intros Hready. unfold poll_task, SharedStream_poll_next. destruct (poll_ready _ Hready) as (item&stream&->).
  exists item. apply lookup_insert_eq.
Qed.

(** C25. However many reads overlap, none is stranded. In every reachable state
    the wake-ups under way are finitely many and can always be completed; and
    once they are, if the stream is ready, no read is left waiting, and polling
    any read that has not finished finishes it. The list of waiters never holds
    a task twice. *)
Theorem shared_stream_no_stranded_reader (inner : St) s :
  rtc read_step (read_system_new inner) s →
  NoDup (ss_waiters (sys_shared s)) ∧
  (∀ n s', nsteps wake_step n s s' → (n ≤ wakes_left s)%nat) ∧
  (∃ s', rtc wake_step s s' ∧ settled s') ∧
  (∀ s', rtc wake_step s s' → settled s' → stream_ready (ss_stream (sys_shared s)) = true →
     ∀ t r, sys_tasks s' !! t = Some r →
       r ≠ Waiting ∧ (r = Runnable → ∃ item, sys_tasks (poll_task t s') !! t = Some (Finished item))).
Proof.
  intros Hreach%inv_reachable. split_and!.
  - apply Hreach.
  - intros n s' Hn%wakes_bounded. lia.
  - apply wakes_settle.
  - intros s' Hwakes Hset Hready t r Ht. destruct (wakes_keep _ _ Hwakes Hreach) as [Hinv Hstream].
    rewrite <- Hstream in Hready. split.
    + intros ->. by eapply inv_settled.
    + intros _. by apply poll_task_ready.
Qed.

End shared.
Arguments SharedStreamState St : clear implicits.
Arguments read_system St Item : clear implicits.

(** ** DuplexStreamInner *)

(** [napi::Status], as far as it occurs. *)
Inductive NapiStatus :=
| InvalidArg
| GenericFailure.

Inductive NapiError := mkNapiError (status : NapiStatus) (reason : string) (cause : option NapiError).

(** [std::error::Error]: what it displays, and what its sources display. *)
Class StdError (E : Type) := {
  error_to_string : E → string;
  error_sources : E → list string
}.

Fixpoint napi_cause_chain (status : NapiStatus) (message : string) (sources : list string) : NapiError :=
  mkNapiError status message
    (match sources with [] => None | next :: sources => Some (napi_cause_chain status next sources) end).

Definition to_napi_cause {E} `{StdError E} (status : NapiStatus) (source : E) : NapiError :=
  napi_cause_chain status (error_to_string source) (error_sources source).

Definition napi_error_with_cause {E} `{StdError E} (status : NapiStatus) (reason : string) (cause : E) : NapiError :=
  mkNapiError status reason (Some (to_napi_cause status cause)).

Definition napi_error (status : NapiStatus) (reason : string) : NapiError :=
  mkNapiError status reason (Some (mkNapiError status reason None)).

#[export] Instance validation_error_std : StdError SubscribeRequestValidationError :=
  {| error_to_string := SubscribeRequestValidationError_fmt; error_sources := λ _, [] |}.

(** [std::sync::PoisonError]. *)
Inductive PoisonError := poisoned.
#[export] Instance poison_error_std : StdError PoisonError :=
  {| error_to_string := λ _, "poisoned lock: another task failed inside"%string; error_sources := λ _, [] |}.

Section duplex.
Context {Bytes Sk DecodeError SendError Status : Type}.
Context `{StdError DecodeError, StdError SendError, StdError Status}.
Context (decode : Bytes → result DecodeError SubscribeRequest).

(** The write side, its lock poisoned or not, and the terminal error. *)
Record DuplexStreamInner := mkDuplex {
  dx_writable : option Sk;
  dx_writable_poisoned : bool;
  dx_terminal_error : option NapiError
}.

Definition DuplexStreamInner_new (sink : Sk) : DuplexStreamInner := mkDuplex (Some sink) false None.

Definition capture_terminal_error (terminal_error : option NapiError) (error : NapiError) : option NapiError :=
  match terminal_error with None => Some error | Some first => Some first end.

(** [Option::take]. *)
Definition get_terminal_error (terminal_error : option NapiError) : option NapiError * option NapiError :=
  (terminal_error, None).

Definition DuplexStream_close (d : DuplexStreamInner) : result NapiError unit * DuplexStreamInner :=
  if dx_writable_poisoned d then
    (Err (napi_error_with_cause GenericFailure "Failed to acquire writable lock" poisoned), d)
  else (Ok tt, mkDuplex None (dx_writable_poisoned d) (dx_terminal_error d)).

Definition take_sink_for_write (d : DuplexStreamInner) (closed_message : string) : result NapiError Sk :=
  if dx_writable_poisoned d then
    Err (napi_error_with_cause GenericFailure "Failed to acquire writable lock" poisoned)
  else
    match dx_writable d with
    | Some sink => Ok sink
    | None => Err (napi_error GenericFailure closed_message)
    end.

(** [send_subscribe_request], given what [sink.send(request).await] returns. *)
Definition send_subscribe_request (sent : result SendError unit) (terminal_error : option NapiError)
    (failure_message : string) : result NapiError unit * option NapiError :=
  match sent with
  | Ok _ => (Ok tt, terminal_error)
  | Err error =>
      let terminal_error :=
        capture_terminal_error terminal_error (napi_error_with_cause GenericFailure failure_message error) in
      (Err (napi_error_with_cause GenericFailure failure_message error), terminal_error)
  end.

(** [recv_update_or_error], given the item the shared stream yields. *)
Definition recv_update_or_error (item : option (result Status Bytes)) (terminal_error : option NapiError)
    (failure_message : string) : result NapiError (option Bytes) * option NapiError :=
  match item with
  | Some (Ok update_bytes) => (Ok (Some update_bytes), terminal_error)
  | Some (Err status) => (Err (napi_error_with_cause GenericFailure failure_message status), terminal_error)
  | None =>
      match get_terminal_error terminal_error with
      | (Some error, terminal_error) => (Err error, terminal_error)
      | (None, terminal_error) => (Ok None, terminal_error)
      end
  end.

Definition decode_and_validate_subscribe_request (request_bytes : Bytes) : result NapiError SubscribeRequest :=
  match decode request_bytes with
  | Err error => Err (napi_error_with_cause InvalidArg "invalid SubscribeRequest payload" error)
  | Ok request =>
      match validate_subscribe_request request with
      | Err error => Err (napi_error_with_cause InvalidArg (error_to_string error) error)
      | Ok _ => Ok request
      end
  end.

(** [DuplexStream::write_raw], up to the future it spawns. *)
Definition write_raw (d : DuplexStreamInner) (request_bytes : Bytes) : result NapiError (Sk * SubscribeRequest) :=
  match decode_and_validate_subscribe_request request_bytes with
  | Err e => Err e
  | Ok request =>
      match take_sink_for_write d "Cannot write to a closed subscription stream" with
      | Err e => Err e
      | Ok sink => Ok (sink, request)
      end
  end.

(** What JavaScript calls, and what the spawned futures come to. *)
Inductive duplex_event :=
| Duplex_write (request_bytes : Bytes)
| Duplex_sent (sent : result SendError unit)
| Duplex_recv (item : option (result Status Bytes))
| Duplex_close.

(** The stream, the sends spawned, and what the reads returned. *)
Record duplex_system := mkDuplexSystem {
  du_inner : DuplexStreamInner;
  du_sends : list (Sk * SubscribeRequest);
  du_reads : list (result NapiError (option Bytes))
}.

Definition duplex_step (s : duplex_system) (ev : duplex_event) : duplex_system :=
  let d := du_inner s in
  match ev with
  | Duplex_write request_bytes =>
      match write_raw d request_bytes with
      | Ok send => mkDuplexSystem d (du_sends s ++ [send]) (du_reads s)
      | Err _ => s
      end
  | Duplex_sent sent =>
      let '(_, terminal_error) := send_subscribe_request sent (dx_terminal_error d) "subscribe stream send failed" in
      mkDuplexSystem (mkDuplex (dx_writable d) (dx_writable_poisoned d) terminal_error) (du_sends s) (du_reads s)
  | Duplex_recv item =>
      let '(read, terminal_error) := recv_update_or_error item (dx_terminal_error d) "subscribe stream receive failed" in
      mkDuplexSystem (mkDuplex (dx_writable d) (dx_writable_poisoned d) terminal_error) (du_sends s) (du_reads s ++ [read])
  | Duplex_close => mkDuplexSystem (DuplexStream_close d).2 (du_sends s) (du_reads s)
  end.

Definition duplex_run (sink : Sk) (evs : list duplex_event) : duplex_system :=
  foldl duplex_step (mkDuplexSystem (DuplexStreamInner_new sink) [] []) evs.

Lemma duplex_run_snoc sink evs ev : duplex_run sink (evs ++ [ev]) = duplex_step (duplex_run sink evs) ev.
Proof. unfold duplex_run. by rewrite foldl_app. Qed.

(** The write side is open until the first [close], then gone for good. *)
Lemma duplex_writable sink evs :
  dx_writable_poisoned (du_inner (duplex_run sink evs)) = false ∧
  ((Duplex_close ∉ evs ∧ dx_writable (du_inner (duplex_run sink evs)) = Some sink) ∨
   (Duplex_close ∈ evs ∧ dx_writable (du_inner (duplex_run sink evs)) = None)).
Proof.
  induction evs as [|ev evs IH] using rev_ind; [split; [done|left; split; [apply not_elem_of_nil|done]]|].
  rewrite duplex_run_snoc. destruct IH as [Hp IH]. setoid_rewrite elem_of_app. setoid_rewrite list_elem_of_singleton.
  destruct ev as [b|sent|item|]; cbn [duplex_step].
  - destruct (write_raw _ b); cbn [du_inner]; naive_solver.
  - destruct (send_subscribe_request _ _ _). cbn [du_inner dx_writable dx_writable_poisoned]. naive_solver.
  - destruct (recv_update_or_error _ _ _). cbn [du_inner dx_writable dx_writable_poisoned]. naive_solver.
  - cbn [du_inner]. unfold DuplexStream_close. rewrite Hp. cbn [snd dx_writable dx_writable_poisoned]. naive_solver.
Qed.

Lemma write_raw_ok d b sk request : write_raw d b = Ok (sk, request) →
  dx_writable d = Some sk ∧ decode b = Ok request ∧ validate_subscribe_request request = Ok tt.
Proof.
  unfold write_raw, decode_and_validate_subscribe_request, take_sink_for_write.
  destruct (decode b) as [r|]; [|done]. destruct (validate_subscribe_request r) as [[]|] eqn:Hv; [|done].
  destruct (dx_writable_poisoned d); [done|]. destruct (dx_writable d); [|done]. by intros [= <- <-].
Qed.

Lemma duplex_sends_validated sink evs sk request : (sk, request) ∈ du_sends (duplex_run sink evs) →
  sk = sink ∧ validate_subscribe_request request = Ok tt ∧
  ∃ before request_bytes after, evs = before ++ Duplex_write request_bytes :: after ∧
    Duplex_close ∉ before ∧ decode request_bytes = Ok request.
Proof.
  induction evs as [|ev evs IH] using rev_ind; [by intros ?%not_elem_of_nil|]. rewrite duplex_run_snoc. intros Hin.
  assert ((sk, request) ∈ du_sends (duplex_run sink evs) ∨
    ∃ b, ev = Duplex_write b ∧ write_raw (du_inner (duplex_run sink evs)) b = Ok (sk, request)) as [Hold|(b&->&Hw)].
  { destruct ev as [b|sent|item|]; cbn [duplex_step] in Hin.
    - destruct (write_raw _ b) as [send|] eqn:Hw; [|by left]. cbn [du_sends] in Hin.
      apply elem_of_app in Hin as [?|<-%list_elem_of_singleton]; [by left|right; eauto].
    - destruct (send_subscribe_request _ _ _). by left.
    - destruct (recv_update_or_error _ _ _). by left.
    - by left. }
  - destruct (IH Hold) as (->&Hv&before&b&after&->&Hc&Hd). split; [done|]. split; [done|].
    exists before, b, (after ++ [ev]). by rewrite <- app_assoc.
  - apply write_raw_ok in Hw as (Hsk&Hd&Hv). destruct (duplex_writable sink evs) as [_ [[Hc Hopen]|[_ Hclosed]]]; [|congruence].
    split; [congruence|]. split; [done|]. by exists evs, b, [].
Qed.

(** Only a read at the end of the stream takes the terminal error. *)
Lemma duplex_error_kept sink evs more error : Duplex_recv None ∉ more →
  dx_terminal_error (du_inner (duplex_run sink evs)) = Some error →
  dx_terminal_error (du_inner (duplex_run sink (evs ++ more))) = Some error.
Proof.
  intros Hmore Herr. induction more as [|ev more IH] using rev_ind; [by rewrite app_nil_r|].
  rewrite app_assoc, duplex_run_snoc. apply not_elem_of_app in Hmore as [Hmore Hev]. specialize (IH Hmore).
  destruct ev as [b|[u|e]|[[v|v]|]|]; cbn [duplex_step send_subscribe_request recv_update_or_error].
  - by destruct (write_raw _ b).
  - done.
  - rewrite IH. done.
  - done.
  - done.
  - by rewrite list_elem_of_singleton in Hev.
  - cbn [du_inner]. unfold DuplexStream_close. by destruct (dx_writable_poisoned _).
Qed.

(** C26. Whatever the calls, in whatever order, every request the bindings hand to
    the gRPC sink was decoded from a buffer written before any [close], passed
    validation, and goes to the stream's own sink; and a send that fails is
    reported by the next read that meets the end of the stream, as the error of
    the first send that failed since the last such report, which then is
    forgotten. *)
Theorem duplex_writes_validated sink evs :
  (∀ sk request, (sk, request) ∈ du_sends (duplex_run sink evs) →
     sk = sink ∧ validate_subscribe_request request = Ok tt ∧
     ∃ before request_bytes after, evs = before ++ Duplex_write request_bytes :: after ∧
       Duplex_close ∉ before ∧ decode request_bytes = Ok request) ∧
  (∀ before error between,
     evs = before ++ Duplex_sent (Err error) :: between ++ [Duplex_recv None] →
     dx_terminal_error (du_inner (duplex_run sink before)) = None →
     Duplex_recv None ∉ between →
     last (du_reads (duplex_run sink evs)) =
       Some (Err (napi_error_with_cause GenericFailure "subscribe stream send failed" error)) ∧
     dx_terminal_error (du_inner (duplex_run sink evs)) = None).
Proof.
  split; [apply duplex_sends_validated|]. intros before error between -> Hnone Hbetween.
  rewrite app_comm_cons, app_assoc, duplex_run_snoc.
  assert (dx_terminal_error (du_inner (duplex_run sink (before ++ Duplex_sent (Err error) :: between))) =
    Some (napi_error_with_cause GenericFailure "subscribe stream send failed" error)) as Herr.
  { change (Duplex_sent (Err error) :: between) with ([Duplex_sent (Err error)] ++ between). rewrite app_assoc.
    apply duplex_error_kept; [done|]. rewrite duplex_run_snoc. cbn [duplex_step send_subscribe_request du_inner dx_terminal_error].
    by rewrite Hnone. }
  cbn [duplex_step recv_update_or_error get_terminal_error]. rewrite Herr.
  cbn [du_reads du_inner dx_terminal_error]. by rewrite last_snoc.
Qed.

End duplex.

(** ** Witnesses *)

(** A channel: its items, whether the sender is gone, and its waker slot. *)
Record channel := mkChannel {
  ch_items : list nat;
  ch_closed : bool;
  ch_waker : bool
}.

Inductive channel_event : channel → channel → bool → Prop :=
| channel_send x items closed waker :
    channel_event (mkChannel items closed waker) (mkChannel (items ++ [x]) closed false) waker
| channel_close items closed waker :
    channel_event (mkChannel items closed waker) (mkChannel items true false) waker.

#[local] Instance channel_stream : WrappedStream channel nat := {|
  stream_poll c :=
    match ch_items c with
    | x :: items => (Ready (Some x), mkChannel items (ch_closed c) (ch_waker c))
    | [] => if ch_closed c then (Ready None, c) else (Pending, mkChannel [] false true)
    end;
  stream_ready c := negb (bool_decide (ch_items c = [])) || ch_closed c;
  stream_registered := ch_waker;
  stream_event := channel_event
|}.

#[local] Instance channel_laws : WrappedStreamLaws channel nat.
Proof.
  split.
  - intros [[|x items] [] waker]; [done| |done..]. intros _. by eexists.
  - intros [[|x items] [] waker]; [|done|..]; intros _; cbn; eauto.
  - intros c c' woken Hev Hreg Hnr. left. by destruct Hev.
Qed.

Definition demo_read_event (stream : channel) (woken : bool) (s : read_system channel nat) : read_system channel nat :=
  mkSystem (mkSharedStreamState stream (ss_waiters (sys_shared s))) (sys_tasks s)
    (if woken then S (sys_waking s) else sys_waking s) (sys_woken s).

(** Two reads wait at once when an item arrives. *)
Definition demo_reads : read_system channel nat :=
  demo_read_event (mkChannel [7] false false) true
    (poll_task 2 (set_task 2 Runnable (poll_task 1 (set_task 1 Runnable (read_system_new (mkChannel [] false false)))))).

Lemma demo_reads_reachable : rtc read_step (read_system_new (mkChannel [] false false)) demo_reads.
Proof.
  eapply rtc_l; [by apply (step_read _ 1)|]. eapply rtc_l; [by apply (step_poll _ 1)|].
  eapply rtc_l; [by apply (step_read _ 2)|]. eapply rtc_l; [by apply (step_poll _ 2)|].
  apply rtc_once. apply (step_event _ (mkChannel [7] false false) true). apply (channel_send 7 [] false true).
Qed.

Lemma shared_stream_no_stranded_reader_witness :
  ss_waiters (sys_shared demo_reads) = [1; 2] ∧
  (∃ s', rtc wake_step demo_reads s' ∧ settled s') ∧
  (∀ s', rtc wake_step demo_reads s' → settled s' → ∀ t r, sys_tasks s' !! t = Some r → r ≠ Waiting).
Proof.
  destruct (shared_stream_no_stranded_reader _ _ demo_reads_reachable) as (_&_&Hset&Hall).
  split; [reflexivity|]. split; [exact Hset|]. intros s' Hs' Hsettled t r Ht.
  exact (proj1 (Hall s' Hs' Hsettled eq_refl t r Ht)).
Defined.

#[local] Instance demo_std : StdError string := {| error_to_string := id; error_sources := λ _, [] |}.

(** A codec of two requests, the first valid and the second not. *)
Definition demo_decode (b : nat) : result string SubscribeRequest :=
  match b with
  | 0 => Ok (demo_validated [])
  | 1 => Ok (demo_validated [Byte.x00])
  | _ => Err "unexpected end of buffer"%string
  end.

(** A valid and an invalid write, two failed sends, a close, a write after it,
    and a read that meets the end. *)
Definition demo_calls : list (duplex_event (Bytes := nat) (SendError := string) (Status := string)) :=
  [Duplex_write 0; Duplex_write 1] ++
  Duplex_sent (Err "first"%string) :: [Duplex_close; Duplex_write 0; Duplex_sent (Err "second"%string)] ++ [Duplex_recv None].

Lemma duplex_writes_validated_witness :
  du_sends (duplex_run demo_decode tt demo_calls) = [(tt, demo_validated [])] ∧
  validate_subscribe_request (demo_validated []) = Ok tt ∧
  last (du_reads (duplex_run demo_decode tt demo_calls)) =
    Some (Err (napi_error_with_cause GenericFailure "subscribe stream send failed" "first"%string)).
Proof.
  destruct (duplex_writes_validated demo_decode tt demo_calls) as [Hsends Herr].
  split; [vm_compute; reflexivity|]. split.
  - apply (Hsends tt). vm_compute. constructor.
  - refine (proj1 (Herr [Duplex_write 0; Duplex_write 1] _ _ eq_refl _ _)); [vm_compute; reflexivity|].
    intros Hin. repeat (apply elem_of_cons in Hin as [Hin|Hin]; [discriminate|]). by apply not_elem_of_nil in Hin.
Defined.
