(* ===== verification/Tls.v ===== *)
(** * yellowstone-grpc-tools: server/tls.rs

    [SniResolver], which chooses the certificate of a connection by its server
    name; the registration of the certificates of a directory; [TlsIncoming],
    which runs handshakes concurrently; and the connection metadata of [TlsIO],
    as the connection limit of ratelimit/transport.rs reads it. Certificates,
    PEM files, X.509 names and handshakes are parameters. *)

From stdpp Require Import strings sorting.
From S2P Require Import Prelude Transport.

Set Default Goal Selector "!".

(** ** Names *)

(** A host name, as its characters. *)
Abbreviation host_name := (list Ascii.ascii).

Definition DOT : Ascii.ascii := Ascii.Ascii false true true true false true false false.
Definition STAR : Ascii.ascii := Ascii.Ascii false true false true false true false false.

(** [u8::to_ascii_lowercase]. *)
Definition ascii_lowercase (c : Ascii.ascii) : Ascii.ascii :=
  let n := Ascii.N_of_ascii c in
  if bool_decide (65 <= n <= 90)%N then Ascii.ascii_of_N (n + 32) else c.

Definition to_ascii_lowercase (name : host_name) : host_name := ascii_lowercase <$> name.

(** [name.strip_prefix("*.")]. *)
Definition strip_wildcard (name : host_name) : option host_name :=
  match name with
  | a :: b :: rest => if bool_decide (a = STAR ∧ b = DOT) then Some rest else None
  | _ => None
  end.

Section resolver.
Context {CertifiedKey : Type}.

(** ** SniResolver *)

Record SniResolver := mkSniResolver {
  sni_exact : gmap host_name CertifiedKey;
  sni_wildcard : list (host_name * CertifiedKey)
}.

Definition SniResolver_new : SniResolver := mkSniResolver ∅ [].

(** The [io::Error]s of [add]. *)
Inductive SniError :=
| DuplicateWildcard (name : host_name)
| DuplicateName (name : host_name).

(** [SniResolver::add]; a duplicate name has replaced the certificate of the
    first when its error is returned. *)
Definition SniResolver_add (name : host_name) (certified_key : CertifiedKey) (r : SniResolver) :
    result SniError unit * SniResolver :=
  let name := to_ascii_lowercase name in
  match strip_wildcard name with
  | Some suffix =>
      let suffix := DOT :: suffix in
      if existsb (λ entry, bool_decide (entry.1 = suffix)) (sni_wildcard r) then (Err (DuplicateWildcard name), r)
      else (Ok tt, mkSniResolver (sni_exact r) (sni_wildcard r ++ [(suffix, certified_key)]))
  | None =>
      let exact := <[name := certified_key]> (sni_exact r) in
      match sni_exact r !! name with
      | Some _ => (Err (DuplicateName name), mkSniResolver exact (sni_wildcard r))
      | None => (Ok tt, mkSniResolver exact (sni_wildcard r))
      end
  end.

(** The two [continue]s of the loop of [resolve_by_name]. *)
Definition wildcard_matches (server_name suffix : host_name) : bool :=
  if bool_decide (suffix `suffix_of` server_name) then
    let prefix := take (length server_name - length suffix) server_name in
    negb (bool_decide (prefix = []) || bool_decide (DOT ∈ prefix))
  else false.

(** An iteration of the loop. *)
Definition better_match (server_name : host_name) (best_match : option (host_name * CertifiedKey))
    (entry : host_name * CertifiedKey) : option (host_name * CertifiedKey) :=
  if wildcard_matches server_name entry.1 then
    match best_match with
    | Some (best_suffix, cert) =>
        if bool_decide (length entry.1 ≤ length best_suffix) then Some (best_suffix, cert) else Some entry
    | None => Some entry
    end
  else best_match.

Definition resolve_by_name (server_name : host_name) (r : SniResolver) : option CertifiedKey :=
  let server_name := to_ascii_lowercase server_name in
  match sni_exact r !! server_name with
  | Some cert => Some cert
  | None => snd <$> foldl (better_match server_name) None (sni_wildcard r)
  end.

(** [ResolvesServerCert::resolve], on the server name of the client hello. *)
Definition sni_resolve (client_hello : option host_name) (r : SniResolver) : option CertifiedKey :=
  client_hello ≫= λ server_name, resolve_by_name server_name r.

(** ** The certificates of a directory *)

(** [extract_cert_names]: the DNS names and the common names of a certificate,
    in lower case, without duplicates, sorted by [name_le]. *)
Definition extract_cert_names (name_le : relation host_name) `{!RelDecision name_le}
    (dns_names common_names : list host_name) : list host_name :=
  merge_sort name_le (remove_dups (to_ascii_lowercase <$> dns_names ++ common_names)).

(** What a PEM file gives: nothing usable, an error, or the names and the key. *)
Inductive pem_file (E : Type) :=
| Pem_skipped
| Pem_error (e : E)
| Pem_bundle (names : list host_name) (certified_key : CertifiedKey).
Arguments Pem_skipped {E}.
Arguments Pem_error {E} e.
Arguments Pem_bundle {E} names certified_key.

Inductive cert_dir_error (E : Type) :=
| File_error (e : E)
| No_names
| Not_registered (e : SniError)
| No_bundles.
Arguments File_error {E} e.
Arguments No_names {E}.
Arguments Not_registered {E} e.
Arguments No_bundles {E}.

(** The loop over the names of a certificate. *)
Fixpoint add_names {E} (names : list host_name) (certified_key : CertifiedKey) (r : SniResolver) :
    result (cert_dir_error E) SniResolver :=
  match names with
  | [] => Ok r
  | name :: names =>
      match SniResolver_add name certified_key r with
      | (Ok _, r) => add_names names certified_key r
      | (Err e, _) => Err (Not_registered e)
      end
  end.

(** The loop over the files of the directory, with the number of bundles. *)
Fixpoint add_files {E} (files : list (pem_file E)) (r : SniResolver) (loaded_bundle_count : nat) :
    result (cert_dir_error E) (SniResolver * nat) :=
  match files with
  | [] => Ok (r, loaded_bundle_count)
  | Pem_skipped :: files => add_files files r loaded_bundle_count
  | Pem_error e :: _ => Err (File_error e)
  | Pem_bundle names certified_key :: files =>
      if bool_decide (names = []) then Err No_names
      else
        match add_names names certified_key r with
        | Ok r => add_files files r (S loaded_bundle_count)
        | Err e => Err e
        end
  end.

Definition build_sni_resolver_from_cert_dir {E} (files : list (pem_file E)) : result (cert_dir_error E) SniResolver :=
  match add_files files SniResolver_new 0 with
  | Ok (r, loaded_bundle_count) => if bool_decide (loaded_bundle_count = 0) then Err No_bundles else Ok r
  | Err e => Err e
  end.

(** ** What the resolver answers *)

(** The name registered covers the server name: it is the same name, ... *)
Definition covers_exactly (name server_name : host_name) : Prop :=
  strip_wildcard (to_ascii_lowercase name) = None ∧ to_ascii_lowercase name = to_ascii_lowercase server_name.

(** ... or it is [*.domain], and the server name is one label before the domain. *)
Definition covers_label (name server_name : host_name) : Prop :=
  ∃ domain label, strip_wildcard (to_ascii_lowercase name) = Some domain ∧
    to_ascii_lowercase server_name = label ++ DOT :: domain ∧ label ≠ [] ∧ DOT ∉ label.

(** The resolver after [added] were added, all with success. *)
Record resolver_of (added : list (host_name * CertifiedKey)) (r : SniResolver) : Prop := {
  res_exact : ∀ n c, sni_exact r !! n = Some c ↔
    ∃ name, (name, c) ∈ added ∧ strip_wildcard (to_ascii_lowercase name) = None ∧ to_ascii_lowercase name = n;
  res_wildcard : ∀ suffix c, (suffix, c) ∈ sni_wildcard r ↔
    ∃ name domain, (name, c) ∈ added ∧ strip_wildcard (to_ascii_lowercase name) = Some domain ∧ suffix = DOT :: domain;
  res_nodup : NoDup (sni_wildcard r).*1
}.

Lemma resolver_of_new : resolver_of [] SniResolver_new.
Proof.
  split; [..|constructor]; cbn.
  - intros n c. rewrite lookup_empty. split; [done|]. by intros (?&?%not_elem_of_nil&_).
  - intros suffix c. split; [by intros ?%not_elem_of_nil|]. by intros (?&?&?%not_elem_of_nil&_).
Qed.

Lemma resolver_of_add added r name c r' : resolver_of added r →
  SniResolver_add name c r = (Ok tt, r') → resolver_of (added ++ [(name, c)]) r'.
Proof.
  intros [He Hw Hn]. unfold SniResolver_add. destruct (strip_wildcard (to_ascii_lowercase name)) as [domain|] eqn:Hs.
  - destruct (existsb _ _) eqn:Hex; [done|]. intros [= <-]. split; cbn [sni_exact sni_wildcard].
    + intros n d. rewrite He. setoid_rewrite elem_of_app. setoid_rewrite list_elem_of_singleton. naive_solver.
    + intros suffix d. rewrite elem_of_app, list_elem_of_singleton, Hw. setoid_rewrite elem_of_app.
      setoid_rewrite list_elem_of_singleton. naive_solver.
    + rewrite fmap_app. apply NoDup_app. split_and!; [done| |apply NoDup_singleton].
      intros s (entry&->&Hin)%list_elem_of_fmap Hs1. cbn in Hs1. apply list_elem_of_singleton in Hs1.
      apply not_true_iff_false in Hex. apply Hex, existsb_exists. exists entry. split; [by apply list_elem_of_In|].
      by apply bool_decide_eq_true.
  - destruct (sni_exact r !! to_ascii_lowercase name) as [d|] eqn:Hold; [done|]. intros [= <-].
    split; cbn [sni_exact sni_wildcard]; [| |done].
    + intros n d. setoid_rewrite elem_of_app. setoid_rewrite list_elem_of_singleton.
      destruct (decide (n = to_ascii_lowercase name)) as [->|Hne].
      * rewrite lookup_insert_eq. split; [intros [= ->]; naive_solver|].
        intros (name'&[Hin|[= -> ->]]&Hs'&Heq); [|done]. exfalso.
        assert (sni_exact r !! to_ascii_lowercase name = Some d) by (apply He; eauto). congruence.
      * rewrite lookup_insert_ne, He by done. naive_solver.
    + intros suffix d. rewrite Hw. setoid_rewrite elem_of_app. setoid_rewrite list_elem_of_singleton. naive_solver.
Qed.

Lemma wildcard_matches_spec server_name suffix : wildcard_matches server_name suffix = true ↔
  ∃ label, server_name = label ++ suffix ∧ label ≠ [] ∧ DOT ∉ label.
Proof.
  unfold wildcard_matches. case_bool_decide as Hsuf.
  - destruct Hsuf as [label ->]. rewrite length_app.
    replace (length label + length suffix - length suffix) with (length label) by lia. rewrite take_app_length.
    rewrite negb_true_iff, orb_false_iff, !bool_decide_eq_false. split; [intros [? ?]; by exists label|].
    by intros (l&->%(inj (.++ suffix))&?&?).
  - split; [done|]. intros (label&->&_). destruct Hsuf. by exists label.
Qed.

(** Splitting at the first dot. *)
Lemma first_dot label1 label2 domain1 domain2 : DOT ∉ label1 → DOT ∉ label2 →
  label1 ++ DOT :: domain1 = label2 ++ DOT :: domain2 → domain1 = domain2.
Proof.
  revert label2. induction label1 as [|a label1 IH]; intros [|b label2] H1 H2 Heq; cbn in Heq.
  - by injection Heq.
  - injection Heq as <- _. rewrite elem_of_cons in H2. tauto.
  - injection Heq as -> _. rewrite elem_of_cons in H1. tauto.
  - injection Heq as _ Heq. rewrite elem_of_cons in H1, H2. apply (IH label2); tauto.
Qed.

Lemma better_match_cases server_name best entry :
  (wildcard_matches server_name entry.1 = false ∧ better_match server_name best entry = best) ∨
  (wildcard_matches server_name entry.1 = true ∧
   ∃ e, better_match server_name best entry = Some e ∧ (best = Some e ∨ e = entry)).
Proof.
  unfold better_match. destruct (wildcard_matches server_name entry.1); [right|by left]. split; [done|].
  destruct best as [[best_suffix cert]|]; [case_bool_decide|]; eauto.
Qed.

Lemma best_match_spec server_name l best :
  match foldl (better_match server_name) best l with
  | Some entry => best = Some entry ∨ (entry ∈ l ∧ wildcard_matches server_name entry.1 = true)
  | None => best = None ∧ Forall (λ entry, wildcard_matches server_name entry.1 = false) l
  end.
Proof.
  revert best. induction l as [|entry l IH]; intros best; [cbn; destruct best; auto|].
  cbn [foldl]. specialize (IH (better_match server_name best entry)).
  destruct (foldl _ _ l) as [found|].
  - destruct IH as [IH|[Hin Hm]]; [|right; by rewrite elem_of_cons; auto].
    destruct (better_match_cases server_name best entry) as [[_ Heq]|(Hm&e&Heq&He)]; rewrite Heq in IH; [by left|].
    injection IH as <-. destruct He as [->| ->]; [by left|right]. split; [constructor|done].
  - destruct IH as [IH Hall]. destruct (better_match_cases server_name best entry) as [[Hm Heq]|(Hm&e&Heq&He)]; [|congruence].
    rewrite Heq in IH. split; [done|by constructor].
Qed.

Lemma NoDup_fst_unique {A B} (l : list (A * B)) a b1 b2 : NoDup l.*1 → (a, b1) ∈ l → (a, b2) ∈ l → b1 = b2.
Proof.
  induction l as [|[x y] l IH]; [by intros _ ?%not_elem_of_nil|]. cbn. intros [Hx Hn]%NoDup_cons.
  rewrite !elem_of_cons. intros [?|H1] [?|H2]; simplify_eq/=; [done|..|by apply IH].
  - exfalso. apply Hx, list_elem_of_fmap. by exists (x, b2).
  - exfalso. apply Hx, list_elem_of_fmap. by exists (x, b1).
Qed.

(** The resolver of successful additions. *)
Fixpoint sni_add_all (added : list (host_name * CertifiedKey)) (r : SniResolver) : option SniResolver :=
  match added with
  | [] => Some r
  | (name, c) :: added =>
      match SniResolver_add name c r with (Ok _, r) => sni_add_all added r | (Err _, _) => None end
  end.

Lemma resolver_of_add_all before added r r' : resolver_of before r → sni_add_all added r = Some r' →
  resolver_of (before ++ added) r'.
Proof.
  revert before r. induction added as [|[name c] added IH]; intros before r Hr; cbn [sni_add_all].
  - intros [= <-]. by rewrite app_nil_r.
  - destruct (SniResolver_add name c r) as [[[]|e] r1] eqn:Hadd; [|done]. intros Hall.
    rewrite (cons_middle (name, c) before added), app_assoc. eapply IH; [|done]. by eapply resolver_of_add.
Qed.

(** What the loop over the wildcards finds. *)
Lemma sni_wildcard_spec added r server_name c : resolver_of added r →
  snd <$> foldl (better_match (to_ascii_lowercase server_name)) None (sni_wildcard r) = Some c ↔
  ∃ name, (name, c) ∈ added ∧ covers_label name server_name.
Proof.
  intros [_ Hw Hn]. unfold covers_label.
  pose proof (best_match_spec (to_ascii_lowercase server_name) (sni_wildcard r) None) as Hbest.
  destruct (foldl _ _ _) as [[suffix d]|].
  - destruct Hbest as [?|[Hin (label&Heq&Hne&Hdot)%wildcard_matches_spec]]; [done|].
    destruct (proj1 (Hw suffix d) Hin) as (name&domain&Hadded&Hstrip&Hsuffix). cbn in Heq. subst suffix. split.
    + intros [= ->]. exists name. split; [done|]. by exists domain, label.
    + intros (name'&Hadded'&domain'&label'&Hstrip'&Heq'&Hne'&Hdot'). rewrite Heq in Heq'.
      pose proof (first_dot _ _ _ _ Hdot Hdot' Heq'); subst domain'. cbn. f_equal.
      assert ((DOT :: domain, c) ∈ sni_wildcard r) as Hin' by (apply Hw; eauto).
      by eapply NoDup_fst_unique.
  - destruct Hbest as [_ Hall]. split; [done|]. intros (name&Hadded&domain&label&Hstrip&Heq&Hne&Hdot). exfalso.
    assert ((DOT :: domain, c) ∈ sni_wildcard r) as Hin by (apply Hw; eauto).
    rewrite Forall_forall in Hall. specialize (Hall _ Hin). cbn in Hall. apply not_true_iff_false in Hall. apply Hall.
    apply wildcard_matches_spec. by exists label.
Qed.

(** C19. The certificate of a connection is the one registered under its server
    name, letter case aside; if there is none, the one registered under [*.] and
    the server name without its first label, which must not be empty; and
    otherwise there is none. No other wildcard ever answers, so the search for
    the longest suffix never has a choice. *)
Theorem sni_resolution_spec added r server_name c : sni_add_all added SniResolver_new = Some r →
  (resolve_by_name server_name r = Some c ↔
     (∃ name, (name, c) ∈ added ∧ covers_exactly name server_name) ∨
     ((¬ ∃ name c', (name, c') ∈ added ∧ covers_exactly name server_name) ∧
      ∃ name, (name, c) ∈ added ∧ covers_label name server_name)).
Proof.
  intros Hr%(resolver_of_add_all []); [|apply resolver_of_new]. cbn in Hr. unfold resolve_by_name, covers_exactly.
  assert (∀ d, sni_exact r !! to_ascii_lowercase server_name = Some d ↔
    ∃ name, (name, d) ∈ added ∧ covers_exactly name server_name) as Hexact by apply (res_exact _ _ Hr).
  destruct (sni_exact r !! to_ascii_lowercase server_name) as [d|] eqn:Hlookup.
  - assert (∃ name, (name, d) ∈ added ∧ covers_exactly name server_name) as (name&Hin&Hcov) by by apply Hexact.
    rewrite Hexact. unfold covers_exactly in *. naive_solver.
  - assert (¬ ∃ name c', (name, c') ∈ added ∧ covers_exactly name server_name) as Hnone.
    { intros (name&d&Hin&Hcov). assert (None = Some d) by (apply Hexact; eauto). done. }
    rewrite <- (sni_wildcard_spec _ _ _ _ Hr). unfold covers_exactly in Hnone. naive_solver.
Qed.

Lemma add_names_all {E} names c r r' : add_names (E := E) names c r = Ok r' → sni_add_all ((λ name, (name, c)) <$> names) r = Some r'.
Proof.
  revert r. induction names as [|name names IH]; intros r; cbn [add_names fmap list_fmap sni_add_all].
  - by intros [= <-].
  - destruct (SniResolver_add name c r) as [[[]|e] r1]; [apply IH|done].
Qed.

Lemma sni_add_all_app l1 l2 r : sni_add_all (l1 ++ l2) r = sni_add_all l1 r ≫= sni_add_all l2.
Proof.
  revert r. induction l1 as [|[name c] l1 IH]; intros r; cbn [app sni_add_all]; [done|].
  by destruct (SniResolver_add name c r) as [[[]|e] r1].
Qed.

(** The names and keys of the bundles of a directory, in order. *)
Definition bundle_entries {E} (file : pem_file E) : list (host_name * CertifiedKey) :=
  match file with Pem_bundle names c => (λ name, (name, c)) <$> names | _ => [] end.

Lemma add_files_all {E} (files : list (pem_file E)) r n r' n' : add_files files r n = Ok (r', n') →
  sni_add_all (files ≫= bundle_entries) r = Some r'.
Proof.
  revert r n. induction files as [|[|e|names c] files IH]; intros r n; cbn [add_files].
  - by intros [= <- _].
  - apply IH.
  - done.
  - case_bool_decide; [done|]. destruct (add_names names c r) as [r1|] eqn:Hr1; [|done]. intros Hfiles.
    rewrite bind_cons, sni_add_all_app. cbn [bundle_entries]. rewrite (add_names_all _ _ _ _ Hr1). by apply (IH r1 (S n)).
Qed.

(** The resolver of a directory is the resolver of the names of its bundles, so
    [sni_resolution_spec] says what it answers. *)
Lemma cert_dir_resolver {E} (files : list (pem_file E)) r : build_sni_resolver_from_cert_dir files = Ok r →
  sni_add_all (files ≫= bundle_entries) SniResolver_new = Some r ∧ files ≫= bundle_entries ≠ [].
Proof.
  unfold build_sni_resolver_from_cert_dir. destruct (add_files files SniResolver_new 0) as [[r' n]|] eqn:Hfiles; [|done].
  case_bool_decide as Hn; [done|]. intros [= ->]. split; [by eapply add_files_all|]. intros Hnil. apply Hn. clear Hn.
  assert (∀ r0 n0, files ≫= bundle_entries = [] → add_files files r0 n0 = Ok (r, n) → n = n0) as Hcount; [|eauto].
  clear. induction files as [|[|e|names c] files IH]; intros r0 n0; cbn [add_files].
  - by intros _ [= _ <-].
  - apply IH.
  - done.
  - rewrite bind_cons. cbn [bundle_entries]. case_bool_decide as Hnames; [done|]. by destruct names.
Qed.

End resolver.

(** ** TlsIncoming *)

(** tls.rs's own [TlsConnectInfo]. *)
Record TlsConnectInfo := mkTlsConnectInfo {
  tci_local_addr : option SocketAddr;
  tci_remote_addr : option SocketAddr;
  tci_sni : option host_name
}.

Section incoming.
Context {Tcp TlsStream E : Type} (local_addr peer_addr : Tcp → option SocketAddr) (server_name : TlsStream → option host_name).

Record TlsIO := mkTlsIO {
  tio_inner : TlsStream;
  tio_connect_info : TlsConnectInfo
}.

(** The task spawned for a connection, given what [acceptor.accept] returns. *)
Definition handshake_task (tcp_stream : Tcp) (accepted : result E TlsStream) : result E TlsIO :=
  match accepted with
  | Ok tls_stream =>
      Ok (mkTlsIO tls_stream (mkTlsConnectInfo (local_addr tcp_stream) (peer_addr tcp_stream) (server_name tls_stream)))
  | Err err => Err err
  end.

(** The [JoinSet]: the tasks that run, and those that have ended, in order; a
    task that panicked ended with [None]. *)
Record JoinSet := mkJoinSet {
  js_running : list Tcp;
  js_ended : list (Tcp * option (result E TlsStream))
}.

(** [JoinSet::poll_join_next]. *)
Definition poll_join_next (tasks : JoinSet) : Poll (option (Tcp * option (result E TlsStream))) * JoinSet :=
  match js_ended tasks with
  | ended :: rest => (Ready (Some ended), mkJoinSet (js_running tasks) rest)
  | [] => match js_running tasks with [] => (Ready None, tasks) | _ => (Pending, tasks) end
  end.

Definition js_is_empty (tasks : JoinSet) : bool := bool_decide (js_running tasks = []) && bool_decide (js_ended tasks = []).

Definition js_spawn (tcp_stream : Tcp) (tasks : JoinSet) : JoinSet :=
  mkJoinSet (js_running tasks ++ [tcp_stream]) (js_ended tasks).

(** What the stream yields: a connection, the error of a task that panicked, or
    an error of the listener. *)
Inductive tls_item :=
| Tls_stream (io : TlsIO)
| Tls_task_failed
| Tls_listener_error (e : E).

(** The poll of the listener, of which [incoming] is what its polls return; it
    has nothing more when the list is empty. *)
Definition poll_listener (tasks : JoinSet) (incoming : list (option (result E Tcp))) (task_pending : bool) :
    option (Poll (option tls_item)) * JoinSet * list (option (result E Tcp)) :=
  match incoming with
  | None :: incoming => (Some (Ready None), tasks, incoming)
  | Some (Ok tcp_stream) :: incoming => (None, js_spawn tcp_stream tasks, incoming)
  | Some (Err err) :: incoming => (Some (Ready (Some (Tls_listener_error err))), tasks, incoming)
  | [] => (if task_pending || js_is_empty tasks then Some Pending else None, tasks, incoming)
  end.

(** One iteration of the loop of [poll_next]: what it returns, if it does. *)
Definition tls_iteration (tasks : JoinSet) (incoming : list (option (result E Tcp))) :
    option (Poll (option tls_item)) * JoinSet * list (option (result E Tcp)) :=
  match poll_join_next tasks with
  | (Ready (Some (tcp_stream, Some accepted)), tasks) =>
      match handshake_task tcp_stream accepted with
      | Ok stream => (Some (Ready (Some (Tls_stream stream))), tasks, incoming)
      | Err _ => (None, tasks, incoming)
      end
  | (Ready (Some (_, None)), tasks) => (Some (Ready (Some Tls_task_failed)), tasks, incoming)
  | (Ready None, tasks) => poll_listener tasks incoming false
  | (Pending, tasks) => poll_listener tasks incoming true
  end.

(** The loop; [None] when the fuel does not suffice. *)
Fixpoint tls_loop (fuel : nat) (tasks : JoinSet) (incoming : list (option (result E Tcp))) :
    option (Poll (option tls_item) * JoinSet * list (option (result E Tcp))) :=
  match fuel with
  | O => None
  | S fuel =>
      match tls_iteration tasks incoming with
      | (Some polled, tasks, incoming) => Some (polled, tasks, incoming)
      | (None, tasks, incoming) => tls_loop fuel tasks incoming
      end
  end.

Definition TlsIncoming_poll_next (tasks : JoinSet) (incoming : list (option (result E Tcp))) :
    option (Poll (option tls_item) * JoinSet * list (option (result E Tcp))) :=
  tls_loop (S (length (js_ended tasks) + length incoming)) tasks incoming.

(** The connections of a list of listener polls. *)
Definition connections (incoming : list (option (result E Tcp))) : list Tcp :=
  omap (λ polled, match polled with Some (Ok tcp_stream) => Some tcp_stream | _ => None end) incoming.

(** A handshake that failed. *)
Definition handshake_failed (ended : Tcp * option (result E TlsStream)) : Prop := ∃ e, ended.2 = Some (Err e).

(** What a poll that took [used] from the listener and [reported] from the ended
    tasks returns. *)
Definition poll_answer (polled : Poll (option tls_item)) (used : list (option (result E Tcp)))
    (reported : list (Tcp * option (result E TlsStream))) (tasks : JoinSet) (incoming : list (option (result E Tcp))) : Prop :=
  match polled with
  | Ready (Some (Tls_stream io)) => ∃ tcp_stream s, reported = [(tcp_stream, Some (Ok s))] ∧
      io = mkTlsIO s (mkTlsConnectInfo (local_addr tcp_stream) (peer_addr tcp_stream) (server_name s))
  | Ready (Some Tls_task_failed) => ∃ tcp_stream, reported = [(tcp_stream, None)]
  | Ready (Some (Tls_listener_error e)) => reported = [] ∧ last used = Some (Some (Err e))
  | Ready None => reported = [] ∧ last used = Some None
  | Pending => reported = [] ∧ js_ended tasks = [] ∧ incoming = []
  end.

(** What a poll does with its tasks and its listener. *)
Definition poll_outcome (tasks : JoinSet) (incoming : list (option (result E Tcp)))
    (res : option (Poll (option tls_item) * JoinSet * list (option (result E Tcp)))) : Prop :=
  ∃ polled tasks' incoming' used failed reported,
    res = Some (polled, tasks', incoming') ∧ incoming = used ++ incoming' ∧
    js_running tasks' = js_running tasks ++ connections used ∧
    js_ended tasks = failed ++ reported ++ js_ended tasks' ∧ Forall handshake_failed failed ∧
    poll_answer polled used reported tasks' incoming'.

(** A poll that goes on after a connection was taken, ... *)
Lemma outcome_spawn running incoming tcp_stream res :
  poll_outcome (js_spawn tcp_stream (mkJoinSet running [])) incoming res →
  poll_outcome (mkJoinSet running []) (Some (Ok tcp_stream) :: incoming) res.
Proof.
  intros (polled&tasks'&incoming'&used&failed&reported&->&->&Hr&He&Hf&Ha).
  exists polled, tasks', incoming', (Some (Ok tcp_stream) :: used), failed, reported.
  split_and!; [done|done| |done|done|].
  - rewrite Hr. cbn [js_spawn js_running]. by rewrite <- app_assoc.
  - unfold poll_answer in *. destruct polled as [|[[]|]]; try done; destruct Ha as [Ha1 Ha2]; (split; [done|]);
      rewrite last_cons, Ha2; done.
Qed.

(** ... or a failed handshake was passed over. *)
Lemma outcome_failed running ended incoming tcp_stream e res :
  poll_outcome (mkJoinSet running ended) incoming res →
  poll_outcome (mkJoinSet running ((tcp_stream, Some (Err e)) :: ended)) incoming res.
Proof.
  intros (polled&tasks'&incoming'&used&failed&reported&->&->&Hr&He&Hf&Ha).
  exists polled, tasks', incoming', used, ((tcp_stream, Some (Err e)) :: failed), reported. cbn [js_ended] in He.
  split_and!; [done..| | |done]; [cbn [js_ended]; by rewrite He|]. constructor; [by exists e|done].
Qed.

Lemma outcome_listener fuel running incoming task_pending : task_pending = true ∨ running = [] →
  (∀ tcp_stream rest, incoming = Some (Ok tcp_stream) :: rest →
     poll_outcome (js_spawn tcp_stream (mkJoinSet running [])) rest (tls_loop fuel (js_spawn tcp_stream (mkJoinSet running [])) rest)) →
  poll_outcome (mkJoinSet running []) incoming
    match poll_listener (mkJoinSet running []) incoming task_pending with
    | (Some polled, tasks, incoming) => Some (polled, tasks, incoming)
    | (None, tasks, incoming) => tls_loop fuel tasks incoming
    end.
Proof.
  intros Hp Hspawn. destruct incoming as [|[[tcp_stream|e]|] incoming]; cbn [poll_listener].
  - exists Pending, (mkJoinSet running []), [], [], [], [].
    assert (task_pending || js_is_empty (mkJoinSet running []) = true) as -> by (destruct Hp as [->| ->]; [done|apply orb_true_r]).
    cbn. by rewrite app_nil_r.
  - by apply outcome_spawn, Hspawn.
  - exists (Ready (Some (Tls_listener_error e))), (mkJoinSet running []), incoming, [Some (Err e)], [], [].
    cbn. by rewrite app_nil_r.
  - exists (Ready None), (mkJoinSet running []), incoming, [None], [], []. cbn. by rewrite app_nil_r.
Qed.

Lemma tls_loop_spec fuel tasks incoming : (length (js_ended tasks) + length incoming < fuel)%nat →
  poll_outcome tasks incoming (tls_loop fuel tasks incoming).
Proof.
  revert tasks incoming. induction fuel as [|fuel IH]; intros [running ended] incoming Hfuel; [lia|].
  cbn [tls_loop js_running js_ended] in *. unfold tls_iteration, poll_join_next. cbn [js_ended js_running].
  destruct ended as [|[tcp_stream [[s|e]|]] ended]; cbn [length] in Hfuel.
  - assert (∀ tcp_stream rest, incoming = Some (Ok tcp_stream) :: rest → poll_outcome (js_spawn tcp_stream (mkJoinSet running [])) rest
      (tls_loop fuel (js_spawn tcp_stream (mkJoinSet running [])) rest)) as Hspawn.
    { intros tcp_stream rest ->. apply IH. cbn [js_spawn js_ended length] in *. lia. }
    destruct running; apply outcome_listener; auto.
  - exists (Ready (Some (Tls_stream (mkTlsIO s (mkTlsConnectInfo (local_addr tcp_stream) (peer_addr tcp_stream) (server_name s)))))),
      (mkJoinSet running ended), incoming, [], [], [(tcp_stream, Some (Ok s))].
    cbn. rewrite app_nil_r. split_and!; eauto.
  - cbn [handshake_task]. apply outcome_failed, IH. cbn [js_ended]. lia.
  - exists (Ready (Some Tls_task_failed)), (mkJoinSet running ended), incoming, [], [], [(tcp_stream, None)].
    cbn. rewrite app_nil_r. split_and!; eauto.
Qed.

(** Every poll of the TLS listener returns, and loses nothing: it adds the
    connections it took to the running handshakes in order and leaves those
    already running alone; of the handshakes that ended it passes over failed
    ones only, which neither end the stream nor appear in it; it yields the first
    that succeeded, with the addresses of its own TCP connection and its own
    server name; and it returns [Pending] only when no handshake has ended
    unreported and the listener has no more. *)
Theorem tls_incoming_poll_spec tasks incoming :
  poll_outcome tasks incoming (TlsIncoming_poll_next tasks incoming).
Proof. apply tls_loop_spec. lia. Qed.

(** *** Under the connection limit *)

(** [Connected for TlsIO] returns tls.rs's own [TlsConnectInfo], which is
    neither of the types [extract_remote_peer_addr] looks for. *)
Definition TlsIO_connect_info (_ : TlsIO) : ConnectInfo := ConnectInfo_other.

(** Nothing limits the connections of a TLS listener: whatever the limit, all of
    them are accepted and none is counted. *)
Lemma tls_connections_unlimited max_ip_conncur ios : ∃ st accepted,
  transport_run TlsIO_connect_info max_ip_conncur Transport_new ((λ io, Polled (Some (Some (Ok io)))) <$> ios) = Done (st, accepted) ∧
  tr_table st = ∅ ∧ length accepted = length ios.
Proof.
  enough (∀ st0, ∃ st accepted,
    transport_run TlsIO_connect_info max_ip_conncur st0 ((λ io, Polled (Some (Some (Ok io)))) <$> ios) = Done (st, accepted) ∧
    tr_table st = tr_table st0 ∧ length accepted = length ios) as H by apply H.
  induction ios as [|io ios IH]; intros st0; [by exists st0, []|].
  destruct (IH (mkTransport (tr_table st0) (mkRateLimitedIO io None :: tr_live st0))) as (st&accepted&Hrun&Ht&Hl).
  exists st, (mkRateLimitedIO io None :: accepted). cbn in *. rewrite Hrun. cbn. by rewrite Ht, Hl.
Qed.

End incoming.

(** ** Witness *)

Definition host (s : string) : host_name := String.list_ascii_of_string s.

(** A resolver with an exact name and two wildcards. *)
Definition demo_names : list (host_name * nat) :=
  [(host "Api.example.com", 1); (host "*.example.com", 2); (host "*.eu.example.com", 3)].

Definition demo_resolver : SniResolver (CertifiedKey := nat) := default SniResolver_new (sni_add_all demo_names SniResolver_new).

Lemma demo_resolver_added : sni_add_all demo_names SniResolver_new = Some demo_resolver.
Proof. vm_compute. reflexivity. Qed.

Lemma sni_resolution_spec_witness :
  ((∃ name, (name, 1) ∈ demo_names ∧ covers_exactly name (host "api.Example.com")) ∨
   ((¬ ∃ name c', (name, c') ∈ demo_names ∧ covers_exactly name (host "api.Example.com")) ∧
    ∃ name, (name, 1) ∈ demo_names ∧ covers_label name (host "api.Example.com"))) ∧
  ((∃ name, (name, 2) ∈ demo_names ∧ covers_exactly name (host "grpc.example.com")) ∨
   ((¬ ∃ name c', (name, c') ∈ demo_names ∧ covers_exactly name (host "grpc.example.com")) ∧
    ∃ name, (name, 2) ∈ demo_names ∧ covers_label name (host "grpc.example.com"))) ∧
  resolve_by_name (host "a.b.example.com") demo_resolver = None.
Proof.
  split; [|split].
  - apply (sni_resolution_spec demo_names demo_resolver (host "api.Example.com") 1 demo_resolver_added). vm_compute. reflexivity.
  - apply (sni_resolution_spec demo_names demo_resolver (host "grpc.example.com") 2 demo_resolver_added). vm_compute. reflexivity.
  - vm_compute. reflexivity.
Defined.
