(* ===== verification/Layers.v ===== *)
(** * The layers of the server: tonic/interceptor.rs and build_service of grpc.rs

    [HttpInterceptedService] and its response future and body; the x-token
    interceptor; and the composition [build_service] makes: authentication
    guard, x-token, method rate limit, metering and the service, behind the
    guard's mutex, or without a guard for a listener that has no authentication.
    The response future of the service is a parameter, and so are
    the two futures tonic's own interceptor layer makes. *)

From S2P Require Import Prelude F64 Auth AuthService Window Ratelimit Metered Billing.

Set Default Goal Selector "!".

Local Open Scope Z_scope.

(** ** interceptor.rs *)

Inductive OptionalHttpInterceptor (I : Type) :=
| Enabled (interceptor : I)
| Disabled.
Arguments Enabled {I} interceptor.
Arguments Disabled {I}.

Definition interceptor_from_option {I} (interceptor : option I) : OptionalHttpInterceptor I :=
  match interceptor with Some i => Enabled i | None => Disabled end.

(** [HttpInterceptor::call] of an optional interceptor, whose own state is [W]. *)
Definition OptionalHttpInterceptor_call {I Req W} (call : I → Req → W → outcome (result Status Req * W))
    (this : OptionalHttpInterceptor I) (request : Req) (w : W) : outcome (result Status Req * W) :=
  match this with
  | Enabled interceptor => call interceptor request w
  | Disabled => Done (Ok request, w)
  end.

(** [ResponseFuture], by its [Kind]. *)
Inductive ResponseFuture (F : Type) :=
| Kind_Future (future : F)
| Kind_Status (status : option Status).
Arguments Kind_Future {F} future.
Arguments Kind_Status {F} status.

Inductive ResponseBody (B : Type) :=
| Empty
| Wrap (body : B).
Arguments Empty {B}.
Arguments Wrap {B} body.

(** A response: the parts of the inner one or of the status, and the body. *)
Inductive ResponseParts (P : Type) :=
| inner_parts (parts : P)
| status_parts (status : Status).
Arguments inner_parts {P} parts.
Arguments status_parts {P} status.

Section intercepted.
Context {F P B E : Type} (poll : F → Poll (result E (P * B)) * F).

(** [Future for ResponseFuture]; a status that was returned is gone. *)
Definition ResponseFuture_poll (this : ResponseFuture F) :
    outcome (Poll (result E (ResponseParts P * ResponseBody B)) * ResponseFuture F) :=
  match this with
  | Kind_Future future =>
      match poll future with
      | (Pending, future) => Done (Pending, Kind_Future future)
      | (Ready (Ok (parts, body)), future) => Done (Ready (Ok (inner_parts parts, Wrap body)), Kind_Future future)
      | (Ready (Err e), future) => Done (Ready (Err e), Kind_Future future)
      end
  | Kind_Status (Some status) => Done (Ready (Ok (status_parts status, Empty)), Kind_Status None)
  | Kind_Status None => Panic
  end.

(** [http_body::Body for ResponseBody]. *)
Definition ResponseBody_poll_frame {Fr} (poll_frame : B → Poll (option Fr) * B) (this : ResponseBody B) :
    Poll (option Fr) * ResponseBody B :=
  match this with
  | Empty => (Ready None, Empty)
  | Wrap body => let '(polled, body) := poll_frame body in (polled, Wrap body)
  end.

Definition ResponseBody_is_end_stream (is_end_stream : B → bool) (this : ResponseBody B) : bool :=
  match this with Empty => true | Wrap body => is_end_stream body end.

(** A body made of a status ends at once, and says so. *)
Lemma status_body_empty {Fr} (poll_frame : B → Poll (option Fr) * B) is_end_stream status : ∃ parts body future,
  ResponseFuture_poll (Kind_Status (Some status)) = Done (Ready (Ok (parts, body)), future) ∧
  parts = status_parts status ∧ ResponseBody_poll_frame poll_frame body = (Ready None, body) ∧
  ResponseBody_is_end_stream is_end_stream body = true.
Proof. by exists (status_parts status), Empty, (Kind_Status None). Qed.
End intercepted.

(** ** The services of [build_service] *)

Section layers.
Context {H : Http} `{!EqDecision HeaderValue}.
Context {W MM MH AE F TF : Type} `{!MeteredManager W MM MH}.
(** The future of the service, with the hooks of its metered body; the futures
    of tonic's interceptor layer, which passes a request on or answers with the
    interceptor's status. *)
Context (geyser_call : RequestParts → F) (tonic_future : ResponseFuture (F * option MH) → TF) (tonic_status : Status → TF).

(** What the layers below the guard keep. [sv_reached] are the requests that
    reached the service. *)
Record ServerState := mkServerState {
  sv_windows : SharedMethodRatelimiterState;
  sv_world : W;
  sv_reached : list RequestParts
}.

Record ServerConfig := mkServerConfig {
  cfg_x_token : option HeaderValue;
  cfg_ratelimiter : option MethodRatelimiter;
  cfg_metered_man : MM
}.

(** [XTokenInterceptor::call]. *)
Definition XTokenInterceptor_call (x_token : option HeaderValue) (request : RequestParts) : result Status RequestParts :=
  match x_token with
  | Some x_token =>
      match headers_get (rp_headers request) "x-token" with
      | Some token => if bool_decide (token = x_token) then Ok request else Err (unauthenticated "No valid auth token")
      | None => Err (unauthenticated "No valid auth token")
      end
  | None => Ok request
  end.

(** [HttpInterceptor for MethodRatelimiter]. *)
Definition MethodRatelimiter_call (now : Z) (this : MethodRatelimiter) (request : RequestParts)
    (windows : SharedMethodRatelimiterState) : outcome (result Status RequestParts * SharedMethodRatelimiterState) :=
  '(r, windows) ← inner_call this windows (mkHttpRequest (rp_subscription request) (rp_path_and_query request)) now;
  Done (match r with Ok _ => Ok request | Err status => Err status end, windows).

(** [MeteredBandwidthService::call] on the Geyser service. *)
Definition metered_svc_call (cfg : ServerConfig) (request : RequestParts) (st : ServerState) : (F * option MH) * ServerState :=
  let '(hooks, w) := metered_call (cfg_metered_man cfg) request (sv_world st) in
  ((geyser_call request, hooks), mkServerState (sv_windows st) w (sv_reached st ++ [request])).

(** [HttpInterceptedService::call]. *)
Definition HttpInterceptedService_call (cfg : ServerConfig) (now : Z) (request : RequestParts) (st : ServerState) :
    outcome (ResponseFuture (F * option MH) * ServerState) :=
  '(r, windows) ← OptionalHttpInterceptor_call (MethodRatelimiter_call now) (interceptor_from_option (cfg_ratelimiter cfg))
                    request (sv_windows st);
  let st := mkServerState windows (sv_world st) (sv_reached st) in
  match r with
  | Ok request => let '(future, st) := metered_svc_call cfg request st in Done (Kind_Future future, st)
  | Err status => Done (Kind_Status (Some status), st)
  end.

(** tonic's interceptor layer with [XTokenInterceptor], over the services above. *)
Definition intercepted_svc_call (cfg : ServerConfig) (now : Z) (request : RequestParts) (st : ServerState) : outcome (TF * ServerState) :=
  match XTokenInterceptor_call (cfg_x_token cfg) request with
  | Ok request =>
      '(future, st) ← HttpInterceptedService_call cfg now request st;
      Done (tonic_future future, st)
  | Err status => Done (tonic_status status, st)
  end.

(** The inner service of the guard, in its mutex. *)
Record Locked := mkLocked {
  lk_poisoned : bool;
  lk_state : ServerState
}.

(** The extension, where the layers below read it. *)
Definition with_subscription (request : Request (R := RequestParts) (X := SubscriptionInfo)) : RequestParts :=
  mkRequestParts (req_extension request) (rp_path_and_query (req_inner request)) (rp_headers (req_inner request)).

(** [inner_service.lock().expect(..)] and the call while the guard is held. A
    panic, of either, is [None]; one during the call poisons the mutex. What the
    call had changed by then is never read again. *)
Definition locked_call (cfg : ServerConfig) (now : Z) (svc : Locked) (request : Request (R := RequestParts) (X := SubscriptionInfo)) :
    option TF * Locked :=
  if lk_poisoned svc then (None, svc)
  else
    match intercepted_svc_call cfg now (with_subscription request) (lk_state svc) with
    | Done (future, st) => (Some future, mkLocked false st)
    | Panic => (None, mkLocked true (lk_state svc))
    end.

(** A request with the authenticator's answer, and the instant it comes. *)
Record Arrival := mkArrival {
  ar_answer : result AE (option SubscriptionInfo);
  ar_parts : RequestParts;
  ar_now : Z
}.

(** The poll of [AuthGuardFuture] that finds the answer. The service is always
    ready; its response is not followed further. *)
Definition serve (cfg : ServerConfig) (svc : Locked) (a : Arrival) :=
  AuthGuardFuture_poll (E := Empty_set) (Resp := Empty_set) (λ answer, (Ready answer, answer)) (λ svc, (Ready (Ok tt), svc))
    (locked_call cfg (ar_now a)) (λ future, (Pending, future))
    (Authenticating (ar_answer a) (Some (mkRequest (ar_parts a) None)) true) svc.

(** The service after a request. *)
Definition serve_next (cfg : ServerConfig) (svc : Locked) (a : Arrival) : Locked :=
  match serve cfg svc a with Done (Some (_, _, svc, _)) => svc | _ => svc end.

Definition serve_all (cfg : ServerConfig) (svc : Locked) (arrivals : list Arrival) : Locked := foldl (serve_next cfg) svc arrivals.

(** The service of a listener with an authentication layer. *)
Definition guarded_service (w : W) : Locked := mkLocked false (mkServerState shared_new w []).

(** What a listener serves: the guarded service, or the intercepted one as it is. *)
Inductive Routes :=
| Guarded (svc : Locked)
| Unguarded (st : ServerState).

(** The end of [build_service]. *)
Definition build_service (maybe_auth_layer : bool) (w : W) : Routes :=
  if maybe_auth_layer then Guarded (guarded_service w) else Unguarded (mkServerState shared_new w []).

(** A request of a listener; without the authentication layer it has no
    subscription and its call is made without a mutex, so that a panic ends the
    task of its connection only. *)
Definition routes_next (cfg : ServerConfig) (routes : Routes) (a : Arrival) : Routes :=
  match routes with
  | Guarded svc => Guarded (serve_next cfg svc a)
  | Unguarded st =>
      match intercepted_svc_call cfg (ar_now a) (with_subscription (mkRequest (ar_parts a) None)) st with
      | Done (_, st) => Unguarded st
      | Panic => Unguarded st
      end
  end.

(** ** What a request does to the service *)

(** What the layers check after the authentication: the request that comes of it,
    the windows after, or a panic. *)
Definition admission (cfg : ServerConfig) (now : Z) (request : RequestParts) (windows : SharedMethodRatelimiterState) :
    outcome (result Status RequestParts * SharedMethodRatelimiterState) :=
  match XTokenInterceptor_call (cfg_x_token cfg) request with
  | Ok request =>
      match cfg_ratelimiter cfg with
      | Some limiter => MethodRatelimiter_call now limiter request windows
      | None => Done (Ok request, windows)
      end
  | Err status => Done (Err status, windows)
  end.

Lemma admission_same cfg now request windows request' windows' :
  admission cfg now request windows = Done (Ok request', windows') → request' = request.
Proof.
  unfold admission, XTokenInterceptor_call, MethodRatelimiter_call.
  destruct (cfg_x_token cfg); [destruct (headers_get _ _); [case_bool_decide|]|]; try done;
    (destruct (cfg_ratelimiter cfg); [|congruence]); destruct (inner_call _ _ _ _) as [[[] ?]|]; cbn; congruence.
Qed.

(** The request, with the subscription attached. *)
Definition authenticated (a : Arrival) (info : SubscriptionInfo) : RequestParts :=
  with_subscription (mkRequest (ar_parts a) (Some info)).

Lemma intercepted_svc_call_spec cfg now request st :
  match admission cfg now request (sv_windows st) with
  | Done (Ok _, windows) => ∃ future, intercepted_svc_call cfg now request st =
      Done (future, mkServerState windows (snd (metered_call (cfg_metered_man cfg) request (sv_world st))) (sv_reached st ++ [request]))
  | Done (Err _, windows) => ∃ future, intercepted_svc_call cfg now request st =
      Done (future, mkServerState windows (sv_world st) (sv_reached st))
  | Panic => intercepted_svc_call cfg now request st = Panic
  end.
Proof.
  destruct (admission cfg now request (sv_windows st)) as [[r windows]|] eqn:Hadm.
  - pose proof (admission_same cfg now request (sv_windows st)) as Hsame. rewrite Hadm in Hsame.
    unfold admission in Hadm. unfold intercepted_svc_call, HttpInterceptedService_call.
    destruct (XTokenInterceptor_call (cfg_x_token cfg) request) as [request1|status] eqn:Hx.
    + destruct (cfg_ratelimiter cfg) as [limiter|]; cbn [interceptor_from_option OptionalHttpInterceptor_call].
      * rewrite Hadm. cbn [mbind outcome_bind]. destruct r as [request2|status]; [|by eexists].
        rewrite (Hsame _ _ eq_refl). unfold metered_svc_call. cbn [sv_world sv_windows sv_reached].
        destruct (metered_call _ _ _) as [hooks w]. by eexists.
      * injection Hadm as <- <-. cbn [mbind outcome_bind]. rewrite (Hsame _ _ eq_refl). unfold metered_svc_call.
        cbn [sv_world sv_windows sv_reached]. destruct (metered_call _ _ _) as [hooks w]. by eexists.
    + injection Hadm as <- <-. exists (tonic_status status). by destruct st.
  - unfold admission in Hadm. unfold intercepted_svc_call, HttpInterceptedService_call.
    destruct (XTokenInterceptor_call (cfg_x_token cfg) request); [|done]. destruct (cfg_ratelimiter cfg); [|done].
    cbn [interceptor_from_option OptionalHttpInterceptor_call]. by rewrite Hadm.
Qed.

(** The service after a request, by the answer and the admission. *)
Lemma serve_next_spec cfg svc a : serve_next cfg svc a =
  match ar_answer a with
  | Ok (Some info) => snd (locked_call cfg (ar_now a) svc (mkRequest (ar_parts a) (Some info)))
  | _ => svc
  end.
Proof.
  unfold serve_next, serve. destruct a as [[[info|]|e] parts now]; cbn [ar_answer ar_parts ar_now]; [|done..].
  unfold AuthGuardFuture_poll, POLL_FUEL. cbn [guard_loop guard_iteration insert_extension req_inner].
  destruct (locked_call cfg now svc _) as [future svc']. done.
Qed.

(** A request that has come through everything. *)
Definition entitled (cfg : ServerConfig) (arrivals : list Arrival) (request : RequestParts) : Prop :=
  ∃ a info, a ∈ arrivals ∧ ar_answer a = Ok (Some info) ∧ request = authenticated a info ∧
    match cfg_x_token cfg with Some x_token => headers_get (rp_headers request) "x-token" = Some x_token | None => True end.

(** No zero limit for an authenticated request, and a sane clock. *)
Definition arrival_ok (cfg : ServerConfig) (a : Arrival) : Prop :=
  match ar_answer a, cfg_ratelimiter cfg with
  | Ok (Some info), Some limiter =>
      limit_ok limiter (mkHttpRequest (Some info) (rp_path_and_query (ar_parts a))) ∧ instant (ar_now a)
  | _, _ => True
  end.

Definition limiter_sane (cfg : ServerConfig) : Prop :=
  match cfg_ratelimiter cfg with Some limiter => 0 <= mr_window limiter < 2 ^ 58 * NANOS_PER_SEC | None => True end.

Definition windows_ok (cfg : ServerConfig) (windows : SharedMethodRatelimiterState) : Prop :=
  match cfg_ratelimiter cfg with Some limiter => shared_ok limiter windows | None => True end.

Lemma entitled_mono cfg l a request : entitled cfg l request → entitled cfg (l ++ [a]) request.
Proof. intros (b&info&Hb&?). exists b, info. split; [|done]. apply elem_of_app. by left. Qed.

Lemma admission_token cfg now request windows request' windows' : admission cfg now request windows = Done (Ok request', windows') →
  match cfg_x_token cfg with Some x_token => headers_get (rp_headers request) "x-token" = Some x_token | None => True end.
Proof.
  unfold admission, XTokenInterceptor_call. destruct (cfg_x_token cfg); [|done].
  destruct (headers_get _ _); [|done]. case_bool_decide; [by intros _; f_equal|done].
Qed.

Lemma admission_total cfg a info windows : limiter_sane cfg → ar_answer a = Ok (Some info) → arrival_ok cfg a → windows_ok cfg windows →
  ∃ r windows', admission cfg (ar_now a) (authenticated a info) windows = Done (r, windows') ∧ windows_ok cfg windows'.
Proof.
  unfold limiter_sane, arrival_ok, windows_ok, admission. intros Hsane -> Ha Hw.
  destruct (XTokenInterceptor_call _ _) as [request|status] eqn:Hx; [|by do 2 eexists].
  destruct (cfg_ratelimiter cfg) as [limiter|]; [|by do 2 eexists]. destruct Ha as [Hlimit Hnow].
  assert (request = authenticated a info) as ->.
  { unfold XTokenInterceptor_call in Hx. destruct (cfg_x_token cfg); [|congruence].
    destruct (headers_get _ _); [|done]. case_bool_decide; congruence. }
  unfold MethodRatelimiter_call.
  destruct (inner_call_spec limiter Hsane windows _ _ Hw Hlimit Hnow) as (r&windows'&Hcall&Hok&_).
  change (mkHttpRequest (rp_subscription (authenticated a info)) (rp_path_and_query (authenticated a info)))
    with (mkHttpRequest (Some info) (rp_path_and_query (ar_parts a))). rewrite Hcall. cbn. by do 2 eexists.
Qed.

(** What holds between requests. *)
Record server_inv (cfg : ServerConfig) (w : W) (arrivals : list Arrival) (st : ServerState) : Prop := {
  inv_reached : Forall (entitled cfg arrivals) (sv_reached st);
  inv_world : sv_world st = foldl (λ w request, snd (metered_call (cfg_metered_man cfg) request w)) w (sv_reached st);
}.

Lemma server_inv_next cfg w arrivals svc a : server_inv cfg w arrivals (lk_state svc) →
  server_inv cfg w (arrivals ++ [a]) (lk_state (serve_next cfg svc a)).
Proof.
  intros [Hr Hw]. rewrite serve_next_spec.
  assert (server_inv cfg w (arrivals ++ [a]) (lk_state svc)) as Hsame
    by (split; [eapply Forall_impl; [done|intros; by apply entitled_mono]|done]).
  destruct (ar_answer a) as [[info|]|e] eqn:Ha; [|done..]. unfold locked_call. destruct (lk_poisoned svc); [done|].
  fold (authenticated a info). pose proof (intercepted_svc_call_spec cfg (ar_now a) (authenticated a info) (lk_state svc)) as Hcall.
  destruct (admission _ _ _ _) as [[[request|status] windows]|] eqn:Hadm.
  - destruct Hcall as [future ->]. cbn [snd lk_state]. split; cbn [sv_reached sv_world].
    + apply Forall_app. split; [apply Hsame|]. apply Forall_singleton. exists a, info.
      split; [apply elem_of_app; right; constructor|]. split; [done|]. split; [done|]. by eapply admission_token.
    + rewrite foldl_app. cbn [foldl]. by rewrite <- Hw.
  - destruct Hcall as [future ->]. cbn [snd lk_state]. by destruct Hsame; split.
  - by rewrite Hcall.
Qed.

Lemma serve_all_inv cfg w arrivals : server_inv cfg w arrivals (lk_state (serve_all cfg (guarded_service w) arrivals)).
Proof.
  induction arrivals as [|a arrivals IH] using rev_ind; [by split|].
  unfold serve_all. rewrite foldl_app. by apply server_inv_next.
Qed.

Lemma serve_all_unpoisoned cfg w arrivals : limiter_sane cfg → Forall (arrival_ok cfg) arrivals →
  let svc := serve_all cfg (guarded_service w) arrivals in lk_poisoned svc = false ∧ windows_ok cfg (sv_windows (lk_state svc)).
Proof.
  intros Hsane Harr. induction arrivals as [|a arrivals IH] using rev_ind.
  { split; [done|]. unfold windows_ok. destruct (cfg_ratelimiter cfg); [|done]. intros κ state. cbn. by rewrite lookup_empty. }
  apply Forall_app in Harr as [Harr Ha]. rewrite Forall_singleton in Ha. destruct (IH Harr) as [Hp Hw].
  unfold serve_all in *. rewrite foldl_app. cbn [foldl]. set (svc := foldl _ _ _) in *. rewrite serve_next_spec.
  destruct (ar_answer a) as [[info|]|e] eqn:Hans; [|done..]. unfold locked_call. rewrite Hp. fold (authenticated a info).
  pose proof (intercepted_svc_call_spec cfg (ar_now a) (authenticated a info) (lk_state svc)) as Hcall.
  destruct (admission_total cfg a info _ Hsane Hans Ha Hw) as (r&windows&Hadm&Hok). rewrite Hadm in Hcall.
  by destruct r as [request|status]; destruct Hcall as [future ->].
Qed.

(** C18. Whatever requests arrive, only those reach the service that their own
    authenticator answer let in, with that answer's subscription attached, and
    that carry the x-token where one is configured; exactly the requests that
    reach the service are metered and billed, once each and in order, so a
    request refused by any layer costs its client nothing; and if no subscriber
    has a limit of zero, the mutex of the service is never poisoned, so every
    authenticated request gets an answer. *)
Theorem layers_admit_and_meter cfg w arrivals :
  let svc := serve_all cfg (guarded_service w) arrivals in
  Forall (entitled cfg arrivals) (sv_reached (lk_state svc)) ∧
  sv_world (lk_state svc) =
    foldl (λ w request, snd (metered_call (cfg_metered_man cfg) request w)) w (sv_reached (lk_state svc)) ∧
  (limiter_sane cfg → Forall (arrival_ok cfg) arrivals → lk_poisoned svc = false ∧
    ∀ a info, ar_answer a = Ok (Some info) → arrival_ok cfg a →
      is_Some (fst (locked_call cfg (ar_now a) svc (mkRequest (ar_parts a) (Some info))))).
Proof.
  cbv zeta. destruct (serve_all_inv cfg w arrivals) as [Hr Hw]. split; [done|]. split; [done|]. intros Hsane Harr.
  destruct (serve_all_unpoisoned cfg w arrivals Hsane Harr) as [Hp Hok]. split; [done|]. intros a info Hans Ha.
  unfold locked_call. rewrite Hp. fold (authenticated a info).
  pose proof (intercepted_svc_call_spec cfg (ar_now a) (authenticated a info) (lk_state (serve_all cfg (guarded_service w) arrivals))) as Hcall.
  destruct (admission_total cfg a info _ Hsane Hans Ha Hok) as (r&windows&Hadm&_). rewrite Hadm in Hcall.
  by destruct r; destruct Hcall as [future ->].
Qed.

(** The request of a listener without authentication, as the layers see it. *)
Definition unguarded_request (a : Arrival) : RequestParts := with_subscription (mkRequest (ar_parts a) None).

(** Without an authentication layer, and so without a rate limit, a listener lets
    every request in that carries the x-token, in order and metered; none has a
    subscription. *)
Theorem unguarded_admits_by_token cfg w arrivals : cfg_ratelimiter cfg = None →
  let admitted := filter (λ request, is_ok (XTokenInterceptor_call (cfg_x_token cfg) request)) (unguarded_request <$> arrivals) in
  foldl (routes_next cfg) (build_service false w) arrivals =
  Unguarded (mkServerState shared_new (foldl (λ w request, snd (metered_call (cfg_metered_man cfg) request w)) w admitted) admitted).
Proof.
  intros Hlimit. cbv zeta. induction arrivals as [|a arrivals IH] using rev_ind; [done|].
  rewrite foldl_app, IH, fmap_app, filter_app. cbn [foldl routes_next fmap list_fmap]. fold (unguarded_request a).
  set (admitted := filter _ _). set (st := mkServerState _ _ _).
  pose proof (intercepted_svc_call_spec cfg (ar_now a) (unguarded_request a) st) as Hcall.
  unfold admission in Hcall. rewrite Hlimit in Hcall. rewrite filter_cons, filter_nil.
  destruct (XTokenInterceptor_call (cfg_x_token cfg) (unguarded_request a)) as [request|status] eqn:Hx; cbn [is_ok Is_true].
  - assert (request = unguarded_request a) as ->.
    { unfold XTokenInterceptor_call in Hx. destruct (cfg_x_token cfg); [|by injection Hx].
      destruct (headers_get _ _); [|done]. case_bool_decide; [by injection Hx|done]. }
    destruct Hcall as [future ->]. rewrite decide_True by done. by rewrite foldl_app.
  - destruct Hcall as [future ->]. rewrite decide_False by tauto. by rewrite app_nil_r.
Qed.

(** One request of a subscriber whose limit is zero panics while the mutex is
    held: from then on every authenticated request panics, whoever sends it. *)
Lemma zero_limit_poisons_service cfg svc a info limiter path later : lk_poisoned svc = false →
  ar_answer a = Ok (Some info) → rp_path_and_query (ar_parts a) = Some path → cfg_x_token cfg = None →
  cfg_ratelimiter cfg = Some limiter → applicable_ratelimit limiter info (pq_path path) = 0 →
  let poisoned := serve_next cfg svc a in
  lk_poisoned poisoned = true ∧ serve_all cfg poisoned later = poisoned ∧
  ∀ now request, locked_call cfg now (serve_all cfg poisoned later) request = (None, poisoned).
Proof.
  intros Hp Hans Hpath Htoken Hlimiter Hzero. cbv zeta.
  assert (lk_poisoned (serve_next cfg svc a) = true) as Hpoisoned.
  { rewrite serve_next_spec, Hans. unfold locked_call. rewrite Hp. fold (authenticated a info).
    pose proof (intercepted_svc_call_spec cfg (ar_now a) (authenticated a info) (lk_state svc)) as Hcall.
    unfold admission, XTokenInterceptor_call, MethodRatelimiter_call in Hcall. rewrite Htoken, Hlimiter in Hcall.
    rewrite (zero_limit_panics limiter (sv_windows (lk_state svc))
      (mkHttpRequest (rp_subscription (authenticated a info)) (rp_path_and_query (authenticated a info))) (ar_now a) info path)
      in Hcall by done. cbn in Hcall. by rewrite Hcall. }
  assert (serve_all cfg (serve_next cfg svc a) later = serve_next cfg svc a) as Hlater.
  { unfold serve_all. induction later as [|b later IH] using rev_ind; [done|]. rewrite foldl_app, IH. cbn [foldl].
    rewrite (serve_next_spec cfg _ b). destruct (ar_answer b) as [[?|]|]; [|done..]. unfold locked_call. by rewrite Hpoisoned. }
  split; [done|]. split; [done|]. intros now request. rewrite Hlater. unfold locked_call. by rewrite Hpoisoned.
Qed.

End layers.

(** ** Witness *)

Section demo.

(** Headers as pairs of strings. *)
Local Instance demo_layers_http : Http := {|
  HeaderMap := list (string * string); HeaderValue := string; headers_new := [];
  headers_get h name := snd <$> list_find (λ kv, kv.1 = name) h ≫= λ '(_, kv), Some kv;
  headers_insert name v h := (name, v) :: h; header_to_str v := Some v; header_name_valid _ := true |}.

Local Instance demo_header_eq : EqDecision (HeaderValue (Http := demo_layers_http)).
Proof. unfold HeaderValue, demo_layers_http. apply _. Defined.

Local Definition demo_config : ServerConfig :=
  mkServerConfig (Some "secret"%string) (Some (fst MethodRatelimiter_default)) server_metered_man.

Local Definition demo_arrival (answer : result nat (option SubscriptionInfo)) (token : string) : Arrival :=
  mkArrival answer (mkRequestParts None (Some (mkPathAndQuery "/geyser.Geyser/Ping" None)) [("x-token"%string, token)]) 5.

Local Definition demo_arrivals : list Arrival :=
  let info := mkSubscriptionInfo "s" (Some (mkSubscriptionRateLimits 1 ∅)) in
  [demo_arrival (Ok (Some info)) "wrong"; demo_arrival (Ok None) "secret"; demo_arrival (Ok (Some info)) "secret";
   demo_arrival (Err 7%nat) "secret"; demo_arrival (Ok (Some info)) "secret"].

(** Of five requests one is let through: the others have a wrong token, are not
    known, fail to be authenticated, or come when the limit is used up. *)
Lemma layers_admit_and_meter_witness :
  let svc := serve_all (F := nat) (TF := nat) (λ _, 0%nat) (λ _, 1%nat) (λ _, 2%nat) demo_config
               (guarded_service (Prometheus_new, mkUsageChannel [] true)) demo_arrivals in
  length (sv_reached (lk_state svc)) = 1%nat ∧ length (uc_sent (snd (sv_world (lk_state svc)))) = 1%nat ∧
  Forall (entitled demo_config demo_arrivals) (sv_reached (lk_state svc)) ∧ lk_poisoned svc = false.
Proof.
  destruct (layers_admit_and_meter (F := nat) (TF := nat) (λ _, 0%nat) (λ _, 1%nat) (λ _, 2%nat) demo_config
    (Prometheus_new, mkUsageChannel [] true) demo_arrivals) as (Hr&_&Hok).
  split; [vm_compute; reflexivity|]. split; [vm_compute; reflexivity|]. split; [exact Hr|].
  apply Hok; [vm_compute; split; [discriminate|reflexivity]|]. repeat apply Forall_cons_2; try exact I; [..|by constructor];
    vm_compute; repeat split; discriminate.
Defined.
End demo.
