(* ===== verification/FileWatcher.v ===== *)
(** * yellowstone-grpc-geyser: file_watcher.rs

    Callbacks on changes of files and folders: registering one, deregistering it
    with its handle, and calling those an event concerns. The watcher of the
    notify crate is a parameter: whether it accepts a path is given with the
    registration. Registering takes the lock twice, so two registrations may
    interleave. *)

From S2P Require Import Prelude.

Set Default Goal Selector "!".

(** ** Paths *)

(** [std::path::Path], as its components. *)
Record Path := mkPath {
  path_absolute : bool;
  path_names : list string
}.

#[global] Instance Path_eq_dec : EqDecision Path.
Proof. solve_decision. Defined.

(** [Path::starts_with]. *)
Definition path_starts_with (p base : Path) : bool :=
  bool_decide (path_absolute p = path_absolute base) && bool_decide (path_names base `prefix_of` path_names p).

(** [Path::parent]. *)
Definition path_parent (p : Path) : option Path :=
  match path_names p with [] => None | _ => Some (mkPath (path_absolute p) (removelast (path_names p))) end.

(** ** Scopes and events *)

Inductive WatchScope :=
| Scope_file (path : Path)
| Scope_folder (path : Path) (recursive : bool).

Definition matches_event_path (scope : WatchScope) (event_path : Path) : bool :=
  match scope with
  | Scope_file path => bool_decide (event_path = path)
  | Scope_folder path recursive =>
      if recursive then path_starts_with event_path path
      else bool_decide (event_path = path)
           || match path_parent event_path with Some parent_path => bool_decide (parent_path = path) | None => false end
  end.

(** [notify::EventKind], as far as it is told apart. *)
Inductive EventKind :=
| Event_create
| Event_modify
| Event_remove
| Event_other.

Record Event := mkEvent {
  ev_kind : EventKind;
  ev_paths : list Path
}.

Definition is_event_relevant (event : Event) : bool :=
  match ev_kind event with Event_create | Event_modify | Event_remove => true | Event_other => false end.

Section watcher.
(** A callback, by what identifies it. *)
Context {Callback : Type}.

Record CallbackRegistration := mkCallbackRegistration {
  reg_id : nat;
  reg_scope : WatchScope;
  reg_callback : Callback
}.

Definition matches_event (r : CallbackRegistration) (event : Event) : bool :=
  existsb (matches_event_path (reg_scope r)) (ev_paths event).

Record Inner := mkInner {
  in_registrations : list CallbackRegistration;
  in_next_registration_id : nat
}.

Definition Inner_new : Inner := mkInner [] 0.

Definition allocate_registration_id (guard : Inner) : nat * Inner :=
  (in_next_registration_id guard, mkInner (in_registrations guard) (S (in_next_registration_id guard))).

(** The second half of [watch_file] and [watch_folder], under the lock: nothing
    is registered if the watcher refuses the path. *)
Definition register {E} (watched : result E unit) (registration : CallbackRegistration) (guard : Inner) : result E unit * Inner :=
  match watched with
  | Ok _ => (Ok tt, mkInner (in_registrations guard ++ [registration]) (in_next_registration_id guard))
  | Err e => (Err e, guard)
  end.

Record FileWatchHandle := mkFileWatchHandle {
  fh_registration_id : nat;
  fh_deregister_on_drop : bool
}.

Definition FileWatchHandle_forget (h : FileWatchHandle) : FileWatchHandle := mkFileWatchHandle (fh_registration_id h) false.

Definition FileWatchHandle_drop (h : FileWatchHandle) (guard : Inner) : Inner :=
  if fh_deregister_on_drop h then
    mkInner (filter (λ registration, reg_id registration ≠ fh_registration_id h) (in_registrations guard))
      (in_next_registration_id guard)
  else guard.

(** [handle_event]: the callbacks it calls, in order. *)
Definition handle_event (event_result : result string Event) (guard : Inner) : list Callback :=
  match event_result with
  | Ok event =>
      if negb (is_event_relevant event) then []
      else
        let registrations_snapshot := in_registrations guard in
        reg_callback <$> filter (λ registration, matches_event registration event = true) registrations_snapshot
  | Err _ => []
  end.

(** ** Everything that happens to a watcher *)

(** The watcher, the calls that have an id and have not registered yet, and the
    handles given out and neither dropped nor forgotten. *)
Record watch_system := mkWatchSystem {
  ws_inner : Inner;
  ws_pending : list nat;
  ws_handles : list FileWatchHandle
}.

(** What is recorded of a step. *)
Inductive watch_label :=
| Watch_allocated (id : nat)
| Watch_registered (registration : CallbackRegistration)
| Watch_refused (id : nat)
| Watch_dropped (id : nat)
| Watch_forgotten (id : nat).

Inductive watch_step : watch_system → watch_label → watch_system → Prop :=
| step_allocate s id inner :
    allocate_registration_id (ws_inner s) = (id, inner) →
    watch_step s (Watch_allocated id) (mkWatchSystem inner (id :: ws_pending s) (ws_handles s))
| step_register s pending1 pending2 r inner :
    ws_pending s = pending1 ++ reg_id r :: pending2 →
    register (E := unit) (Ok tt) r (ws_inner s) = (Ok tt, inner) →
    watch_step s (Watch_registered r)
      (mkWatchSystem inner (pending1 ++ pending2) (mkFileWatchHandle (reg_id r) true :: ws_handles s))
| step_refuse s pending1 pending2 r inner :
    ws_pending s = pending1 ++ reg_id r :: pending2 →
    register (Err tt) r (ws_inner s) = (Err tt, inner) →
    watch_step s (Watch_refused (reg_id r)) (mkWatchSystem inner (pending1 ++ pending2) (ws_handles s))
| step_drop_handle s handles1 handles2 h :
    ws_handles s = handles1 ++ h :: handles2 →
    watch_step s (Watch_dropped (fh_registration_id h))
      (mkWatchSystem (FileWatchHandle_drop h (ws_inner s)) (ws_pending s) (handles1 ++ handles2))
| step_forget s handles1 handles2 h :
    ws_handles s = handles1 ++ h :: handles2 →
    watch_step s (Watch_forgotten (fh_registration_id h))
      (mkWatchSystem (FileWatchHandle_drop (FileWatchHandle_forget h) (ws_inner s)) (ws_pending s) (handles1 ++ handles2)).

Inductive watch_trace : list watch_label → watch_system → Prop :=
| trace_new : watch_trace [] (mkWatchSystem Inner_new [] [])
| trace_step labels s label s' : watch_trace labels s → watch_step s label s' → watch_trace (labels ++ [label]) s'.

(** The registrations made, in order. *)
Definition registered (labels : list watch_label) : list CallbackRegistration :=
  omap (λ label, match label with Watch_registered r => Some r | _ => None end) labels.

Definition dropped (labels : list watch_label) : list nat :=
  omap (λ label, match label with Watch_dropped id => Some id | _ => None end) labels.

(** Ids are given once, and a registration is there until its handle is dropped. *)
Record watch_inv (labels : list watch_label) (s : watch_system) : Prop := {
  winv_pending : NoDup (ws_pending s ++ (reg_id <$> registered labels));
  winv_next : Forall (λ id, id < in_next_registration_id (ws_inner s)) (ws_pending s ++ (reg_id <$> registered labels));
  winv_handles : Forall (λ h, fh_deregister_on_drop h = true ∧ fh_registration_id h ∈ reg_id <$> registered labels) (ws_handles s);
  winv_dropped : Forall (λ id, id ∈ reg_id <$> registered labels) (dropped labels);
  winv_registrations : in_registrations (ws_inner s) = filter (λ r, reg_id r ∉ dropped labels) (registered labels)
}.

Lemma registered_snoc labels label : registered (labels ++ [label]) =
  registered labels ++ match label with Watch_registered r => [r] | _ => [] end.
Proof. unfold registered. rewrite omap_app. by destruct label. Qed.

Lemma dropped_snoc labels label : dropped (labels ++ [label]) =
  dropped labels ++ match label with Watch_dropped id => [id] | _ => [] end.
Proof. unfold dropped. rewrite omap_app. by destruct label. Qed.

Lemma inv_allocate labels s id inner : watch_inv labels s → allocate_registration_id (ws_inner s) = (id, inner) →
  watch_inv (labels ++ [Watch_allocated id]) (mkWatchSystem inner (id :: ws_pending s) (ws_handles s)).
Proof.
  intros [Hp Hn Hh Hd Hr]. unfold allocate_registration_id. intros [= <- <-].
  split; rewrite ?registered_snoc, ?dropped_snoc, ?app_nil_r; cbn [ws_inner ws_pending ws_handles]; [| |done..].
  - apply NoDup_cons. split; [|done]. intros Hin. rewrite Forall_forall in Hn. specialize (Hn _ Hin). cbn in Hn. lia.
  - cbn [app in_next_registration_id]. constructor; [lia|]. eapply Forall_impl; [exact Hn|]. intros. cbn in *. lia.
Qed.

Lemma inv_register labels s pending1 pending2 r : watch_inv labels s → ws_pending s = pending1 ++ reg_id r :: pending2 →
  watch_inv (labels ++ [Watch_registered r])
    (mkWatchSystem (mkInner (in_registrations (ws_inner s) ++ [r]) (in_next_registration_id (ws_inner s)))
       (pending1 ++ pending2) (mkFileWatchHandle (reg_id r) true :: ws_handles s)).
Proof.
  intros [Hp Hn Hh Hd Hr] Hpend. rewrite Hpend in Hp, Hn.
  assert ((pending1 ++ reg_id r :: pending2) ++ (reg_id <$> registered labels) ≡ₚ
    (pending1 ++ pending2) ++ (reg_id <$> registered labels ++ [r])) as Hperm by (rewrite fmap_app; cbn; solve_Permutation).
  assert (reg_id r ∉ dropped labels) as Hfresh.
  { intros Hin. rewrite Forall_forall in Hd. specialize (Hd _ Hin). apply NoDup_app in Hp as (_&Hdisj&_).
    apply (Hdisj (reg_id r)); [|done]. apply elem_of_app. right. constructor. }
  split; rewrite ?registered_snoc, ?dropped_snoc, ?app_nil_r; cbn [ws_inner ws_pending ws_handles in_next_registration_id in_registrations].
  - by rewrite <- Hperm.
  - by rewrite <- Hperm.
  - constructor; [|eapply Forall_impl; [exact Hh|]]; cbn [fh_deregister_on_drop fh_registration_id];
      rewrite fmap_app; setoid_rewrite elem_of_app; [|tauto]. split; [done|]. right. constructor.
  - eapply Forall_impl; [exact Hd|]. intros id Hid. rewrite fmap_app. apply elem_of_app. by left.
  - rewrite filter_app, Hr, filter_cons_True, filter_nil; done.
Qed.

Lemma inv_refuse labels s pending1 pending2 id : watch_inv labels s → ws_pending s = pending1 ++ id :: pending2 →
  watch_inv (labels ++ [Watch_refused id]) (mkWatchSystem (ws_inner s) (pending1 ++ pending2) (ws_handles s)).
Proof.
  intros [Hp Hn Hh Hd Hr] Hpend. rewrite Hpend in Hp, Hn.
  split; rewrite ?registered_snoc, ?dropped_snoc, ?app_nil_r; cbn [ws_inner ws_pending ws_handles];
    rewrite ?app_nil_r; [..|done|done|done].
  - assert ((pending1 ++ id :: pending2) ++ (reg_id <$> registered labels) ≡ₚ
      id :: (pending1 ++ pending2) ++ (reg_id <$> registered labels)) as Hperm by solve_Permutation.
    rewrite Hperm in Hp. by apply NoDup_cons in Hp as [_ ?].
  - rewrite !Forall_app, Forall_cons in Hn. rewrite !Forall_app. tauto.
Qed.

(** A handle goes; its registration with it if it is dropped. *)
Lemma inv_handle labels s handles1 handles2 h (drop : bool) : watch_inv labels s → ws_handles s = handles1 ++ h :: handles2 →
  watch_inv (labels ++ [if drop then Watch_dropped (fh_registration_id h) else Watch_forgotten (fh_registration_id h)])
    (mkWatchSystem (FileWatchHandle_drop (if drop then h else FileWatchHandle_forget h) (ws_inner s)) (ws_pending s) (handles1 ++ handles2)).
Proof.
  intros [Hp Hn Hh Hd Hr] Hhs. rewrite Hhs, Forall_app, Forall_cons in Hh. destruct Hh as (Hh1&[Hderegister Hreg]&Hh2).
  split; rewrite registered_snoc, ?dropped_snoc; cbn [ws_inner ws_pending ws_handles].
  - destruct drop; by rewrite app_nil_r.
  - unfold FileWatchHandle_drop. rewrite ?Hderegister. destruct drop; rewrite app_nil_r; rewrite ?Hderegister; done.
  - destruct drop; rewrite app_nil_r; by apply Forall_app.
  - destruct drop; rewrite ?app_nil_r; [|done]. apply Forall_app. split; [done|]. by apply Forall_singleton.
  - unfold FileWatchHandle_drop. destruct drop; rewrite !app_nil_r; [rewrite Hderegister|done]. cbn [in_registrations].
    rewrite Hr, list_filter_filter. apply list_filter_iff. intros r. rewrite not_elem_of_app, list_elem_of_singleton. tauto.
Qed.

Lemma watch_inv_step labels s label s' : watch_inv labels s → watch_step s label s' → watch_inv (labels ++ [label]) s'.
Proof.
  intros Hinv Hstep.
  destruct Hstep as [s id inner Ha|s p1 p2 r inner Hpend Hreg|s p1 p2 r inner Hpend Hreg|s h1 h2 h Hhs|s h1 h2 h Hhs].
  - by apply inv_allocate.
  - injection Hreg as <-. by apply inv_register.
  - injection Hreg as <-. by apply inv_refuse.
  - by apply (inv_handle labels s h1 h2 h true).
  - by apply (inv_handle labels s h1 h2 h false).
Qed.

Lemma watch_inv_trace labels s : watch_trace labels s → watch_inv labels s.
Proof. induction 1 as [|labels s label s' _ IH Hstep]; [by split; constructor|]. by eapply watch_inv_step. Qed.

(** Under every interleaving of registrations, drops and forgets: ids are
    never given twice, and an event calls exactly the callbacks registered so far
    whose handle has not been dropped and whose scope it touches, each once, in
    the order they were registered; an event that is none of creation, change
    and removal, or an error of the watcher, calls none. *)
Theorem file_events_reach_callbacks labels s event_result : watch_trace labels s →
  NoDup (reg_id <$> registered labels) ∧
  handle_event event_result (ws_inner s) =
    match event_result with
    | Ok event =>
        if is_event_relevant event then
          reg_callback <$> filter (λ r, reg_id r ∉ dropped labels ∧ matches_event r event = true) (registered labels)
        else []
    | Err _ => []
    end.
Proof.
  intros [Hp _ _ _ Hr]%watch_inv_trace. split; [by apply NoDup_app in Hp as (_&_&?)|].
  unfold handle_event. destruct event_result as [event|]; [|done]. destruct (is_event_relevant event); [|done]. cbn [negb].
  rewrite Hr, list_filter_filter. f_equal. apply list_filter_iff. intros r. tauto.
Qed.
End watcher.

(** ** Witness *)

Definition demo_path (names : list string) : Path := mkPath true names.

Definition demo_file : CallbackRegistration (Callback := string) := mkCallbackRegistration 0 (Scope_file (demo_path ["etc"; "a.pem"])) "file".
Definition demo_folder : CallbackRegistration (Callback := string) := mkCallbackRegistration 1 (Scope_folder (demo_path ["etc"]) false) "folder".

(** Two registrations interleave, and the handle of the first is dropped. *)
Definition demo_labels : list (watch_label (Callback := string)) :=
  [Watch_allocated 0; Watch_allocated 1; Watch_registered demo_folder; Watch_registered demo_file; Watch_dropped 0].

Definition demo_system : watch_system (Callback := string) :=
  mkWatchSystem (mkInner [demo_folder] 2) [] [mkFileWatchHandle 1 true].

Lemma demo_watch_trace : watch_trace demo_labels demo_system.
Proof.
  pose (s2 := mkWatchSystem (mkInner (Callback := string) [] 2) [1; 0] []).
  pose (s3 := mkWatchSystem (mkInner [demo_folder] 2) [0] [mkFileWatchHandle 1 true]).
  pose (s4 := mkWatchSystem (mkInner [demo_folder; demo_file] 2) [] [mkFileWatchHandle 0 true; mkFileWatchHandle 1 true]).
  eapply (trace_step [_; _; _; _] s4); [|exact (step_drop_handle s4 [] [mkFileWatchHandle 1 true] (mkFileWatchHandle 0 true) eq_refl)].
  eapply (trace_step [_; _; _] s3); [|exact (step_register s3 [] [] demo_file _ eq_refl eq_refl)].
  eapply (trace_step [_; _] s2); [|exact (step_register s2 [] [0] demo_folder _ eq_refl eq_refl)].
  eapply (trace_step [_]); [|exact (step_allocate (mkWatchSystem (mkInner [] 1) [0] []) 1 _ eq_refl)].
  eapply (trace_step []); [constructor|exact (step_allocate (mkWatchSystem Inner_new [] []) 0 _ eq_refl)].
Qed.

Lemma file_events_reach_callbacks_witness :
  NoDup (reg_id <$> registered demo_labels) ∧
  handle_event (Ok (mkEvent Event_modify [demo_path ["etc"; "a.pem"]])) (ws_inner demo_system) = ["folder"%string].
Proof.
  destruct (file_events_reach_callbacks demo_labels demo_system
    (Ok (mkEvent Event_modify [demo_path ["etc"; "a.pem"]])) demo_watch_trace) as [Hids Hcalls].
  split; [exact Hids|]. rewrite Hcalls. vm_compute. reflexivity.
Defined.
