(* ===== verification/Config.v ===== *)
(** * yellowstone-grpc-geyser: config.rs

    The parsers the configuration is deserialized with: sets of processors,
    numbers with separators, compression names and listen addresses. serde
    itself, socket addresses and the affinity of the process are parameters. *)

From stdpp Require Import sorting.
From S2P Require Import Prelude Externals Convert.

Set Default Goal Selector "!".

Local Open Scope Z_scope.

(** ** Strings *)

Definition COMMA : Ascii.ascii := Ascii.Ascii false false true true false true false false.
Definition DASH : Ascii.ascii := Ascii.Ascii true false true true false true false false.
Definition UNDERSCORE : Ascii.ascii := Ascii.Ascii true true true true true false true false.

(** [str::split] at a character: at least one part. *)
Fixpoint split_char (c : Ascii.ascii) (s : string) : list string :=
  match s with
  | EmptyString => [EmptyString]
  | String a s =>
      if bool_decide (a = c) then EmptyString :: split_char c s
      else match split_char c s with [] => [String a EmptyString] | part :: parts => String a part :: parts end
  end.

(** [str::split_once]. *)
Fixpoint split_once (c : Ascii.ascii) (s : string) : option (string * string) :=
  match s with
  | EmptyString => None
  | String a s =>
      if bool_decide (a = c) then Some (EmptyString, s)
      else '(before, after) ← split_once c s; Some (String a before, after)
  end.

(** [value.replace('_', "")]. *)
Fixpoint remove_char (c : Ascii.ascii) (s : string) : string :=
  match s with
  | EmptyString => EmptyString
  | String a s => if bool_decide (a = c) then remove_char c s else String a (remove_char c s)
  end.

(** ** Sets of processors *)

Inductive TasksetError :=
| Failed_to_parse (part : string)
| Invalid_interval (part : string)
| Failed_affinity
| Out_of_range (max_index : Z).

(** The body of the loop of [parse_taskset]. *)
Definition taskset_part (set : gset Z) (taskset2 : string) : result TasksetError (gset Z) :=
  match split_once DASH taskset2 with
  | Some (start, end_) =>
      match parse_uint usize_max start with
      | None => Err (Failed_to_parse start)
      | Some start =>
          match parse_uint usize_max end_ with
          | None => Err (Failed_to_parse end_)
          | Some end_ =>
              if end_ <? start then Err (Invalid_interval taskset2)
              else Ok (set ∪ list_to_set (seqZ start (end_ - start + 1)))
          end
      end
  | None =>
      match parse_uint usize_max taskset2 with
      | None => Err (Failed_to_parse taskset2)
      | Some idx => Ok (set ∪ {[idx]})
      end
  end.

Fixpoint taskset_parts (set : gset Z) (parts : list string) : result TasksetError (gset Z) :=
  match parts with
  | [] => Ok set
  | part :: parts => match taskset_part set part with Ok set => taskset_parts set parts | Err e => Err e end
  end.

(** [parse_taskset], with what [get_thread_affinity] returns. *)
Definition parse_taskset (get_thread_affinity : result string (list Z)) (taskset : string) : result TasksetError (list Z) :=
  match taskset_parts ∅ (split_char COMMA taskset) with
  | Err e => Err e
  | Ok set =>
      let vec := merge_sort Z.le (elements set) in
      match last vec with
      | Some set_max_index =>
          match get_thread_affinity with
          | Err _ => Err Failed_affinity
          | Ok cpus =>
              let max_index := match cpus with [] => 0 | cpu :: cpus => foldl Z.max cpu cpus end in
              if max_index <? set_max_index then Err (Out_of_range max_index) else Ok vec
          end
      | None => Ok vec
      end
  end.

(** The interval a part names. *)
Definition part_interval (part : string) : option (Z * Z) :=
  match split_once DASH part with
  | Some (start, end_) =>
      start ← parse_uint usize_max start; end_ ← parse_uint usize_max end_;
      if end_ <? start then None else Some (start, end_)
  | None => idx ← parse_uint usize_max part; Some (idx, idx)
  end.

Lemma taskset_part_spec set part :
  match taskset_part set part, part_interval part with
  | Ok set', Some (a, b) => a <= b ∧ ∀ x, x ∈ set' ↔ x ∈ set ∨ a <= x <= b
  | Err _, None => True
  | _, _ => False
  end.
Proof.
  unfold taskset_part, part_interval. destruct (split_once DASH part) as [[start end_]|].
  - destruct (parse_uint usize_max start) as [a|]; [|done]. destruct (parse_uint usize_max end_) as [b|]; [|done].
    cbn [mbind option_bind]. destruct (Z.ltb_spec b a); [done|]. split; [done|].
    intros x. rewrite elem_of_union, elem_of_list_to_set, elem_of_seqZ. naive_solver lia.
  - destruct (parse_uint usize_max part) as [a|]; [|done]. cbn. split; [lia|].
    intros x. rewrite elem_of_union, elem_of_singleton. naive_solver lia.
Qed.

(** A processor is in one of the intervals the parts name. *)
Definition in_parts (x : Z) (parts : list string) : Prop :=
  ∃ part a b, part ∈ parts ∧ part_interval part = Some (a, b) ∧ a <= x <= b.

Lemma in_parts_nil x : ¬ in_parts x [].
Proof. intros (part & a & b & H & _). by apply not_elem_of_nil in H. Qed.

Lemma in_parts_cons x part parts a b :
  part_interval part = Some (a, b) → in_parts x (part :: parts) ↔ a <= x <= b ∨ in_parts x parts.
Proof.
  intros Hp. unfold in_parts. setoid_rewrite elem_of_cons. split.
  - intros (p & a' & b' & [->|Hin] & Hi & Hx); [|right; by eauto 6]. simplify_eq. by left.
  - intros [Hx | (p & a' & b' & Hin & Hi & Hx)]; [exists part, a, b; by auto|]. exists p, a', b'. by auto.
Qed.

Lemma taskset_parts_spec parts : ∀ set,
  match taskset_parts set parts with
  | Ok set' => Forall (λ part, is_Some (part_interval part)) parts ∧ ∀ x, x ∈ set' ↔ x ∈ set ∨ in_parts x parts
  | Err _ => ¬ Forall (λ part, is_Some (part_interval part)) parts
  end.
Proof.
  induction parts as [|part parts IH]; intros set; cbn.
  - split; [by constructor|]. intros x. pose proof (in_parts_nil x). tauto.
  - pose proof (taskset_part_spec set part) as Hp. destruct (taskset_part set part) as [set1|e].
    + destruct (part_interval part) as [[a b]|] eqn:Hi; [|done]. destruct Hp as [_ Hp].
      specialize (IH set1). destruct (taskset_parts set1 parts) as [set'|e].
      * destruct IH as [Hall IH]. split; [constructor; [by rewrite Hi|done]|].
        intros x. rewrite IH, Hp, (in_parts_cons x part parts a b Hi). tauto.
      * by intros [_ ?]%Forall_cons.
    + destruct (part_interval part) eqn:Hi; [done|]. intros [[? ?] _]%Forall_cons. congruence.
Qed.

(** A [usize] that parses is in range, so the interval is too. *)
Lemma foldl_max_ge l : ∀ acc x, x <= acc ∨ x ∈ l → x <= foldl Z.max acc l.
Proof.
  induction l as [|y l IH]; intros acc x; cbn; [by intros [?|?%not_elem_of_nil]|].
  rewrite elem_of_cons. intros [H|[->|H]]; apply IH; [left; lia..|by right].
Qed.

Lemma sorted_last_max (l : list Z) m : StronglySorted Z.le l → last l = Some m → Forall (λ x, x <= m) l.
Proof.
  induction l as [|y l IH]; intros Hs Hl; [by constructor|]. inversion Hs as [|? ? Hs' Hy]; subst.
  destruct l as [|z l]; [cbn in Hl; simplify_eq; by repeat constructor|].
  change (last (z :: l) = Some m) in Hl. specialize (IH Hs' Hl). constructor; [|done].
  apply Forall_inv in IH. apply Forall_inv in Hy. lia.
Qed.

Lemma foldl_max_bound l : ∀ acc, foldl Z.max acc l = acc ∨ foldl Z.max acc l ∈ l.
Proof.
  induction l as [|y l IH]; intros acc; cbn; [by left|]. rewrite elem_of_cons.
  destruct (IH (Z.max acc y)) as [->|H]; [|by auto]. destruct (Z.max_spec acc y) as [[_ ->]|[_ ->]]; auto.
Qed.

(** [cpus.into_iter().max().unwrap_or(0)]. *)
Definition max_cpu (cpus : list Z) : Z := match cpus with [] => 0 | cpu :: cpus => foldl Z.max cpu cpus end.

Lemma max_cpu_spec cpus :
  (max_cpu cpus ∈ cpus ∨ cpus = [] ∧ max_cpu cpus = 0) ∧ Forall (λ cpu, cpu <= max_cpu cpus) cpus.
Proof.
  destruct cpus as [|cpu cpus]; [split; [by right|by constructor]|]. cbn [max_cpu]. split.
  - left. rewrite elem_of_cons. destruct (foldl_max_bound cpus cpu) as [->|?]; auto.
  - apply Forall_forall. intros x Hx%list_elem_of_In. apply foldl_max_ge.
    apply list_elem_of_In, elem_of_cons in Hx as [->|?]; [left; lia|by right].
Qed.

Definition all_parse (parts : list string) : Prop := Forall (λ part, is_Some (part_interval part)) parts.

Lemma split_char_nonempty c s : split_char c s ≠ [].
Proof. destruct s as [|a s]; cbn; [done|]. case_bool_decide; [done|]. by destruct (split_char c s). Qed.

Lemma all_parse_inhabited parts : parts ≠ [] → all_parse parts → ∃ x, in_parts x parts.
Proof.
  intros Hne Hall. destruct parts as [|part parts]; [done|]. apply Forall_cons in Hall as [[[a b] Hi] _].
  pose proof (taskset_part_spec ∅ part) as Hp. rewrite Hi in Hp.
  destruct (taskset_part ∅ part) as [set|]; [|done]. destruct Hp as [Hab _].
  exists a, part, a, b. split; [by apply elem_of_cons; left|]. split; [done|lia].
Qed.

(** The set of processors of [tokio.affinity]: the parts between commas are
    numbers or intervals; the text is accepted if they all parse, none of the
    intervals is reversed and no index is above the highest processor of the
    process, and the vector returned is sorted, has no duplicates and holds
    exactly the indices the parts name (at least one). It is refused as out of
    range exactly when a named index is above that processor. *)
Theorem parse_taskset_spec cpus taskset :
  let parts := split_char COMMA taskset in
  match parse_taskset (Ok cpus) taskset with
  | Ok vec => all_parse parts ∧ StronglySorted Z.le vec ∧ NoDup vec ∧ vec ≠ [] ∧
              (∀ x, x ∈ vec ↔ in_parts x parts) ∧ ∀ x, in_parts x parts → x <= max_cpu cpus
  | Err (Out_of_range m) => all_parse parts ∧ m = max_cpu cpus ∧ ∃ x, in_parts x parts ∧ m < x
  | Err _ => ¬ all_parse parts
  end.
Proof.
  intros parts. unfold parse_taskset. fold parts. pose proof (taskset_parts_spec parts ∅) as Hp.
  destruct (taskset_parts ∅ parts) as [set|e] eqn:Hparts; [|].
  - destruct Hp as [Hall Hset]. fold (max_cpu cpus). set (vec := merge_sort Z.le (elements set)).
    assert (Hvec : ∀ x, x ∈ vec ↔ in_parts x parts).
    { intros x. unfold vec. rewrite merge_sort_Permutation, elem_of_elements, Hset. set_solver. }
    assert (Hsort : StronglySorted Z.le vec) by (apply StronglySorted_merge_sort; apply _).
    assert (Hnd : NoDup vec) by (unfold vec; rewrite merge_sort_Permutation; apply NoDup_elements).
    destruct (all_parse_inhabited parts (split_char_nonempty _ _) Hall) as [x0 Hx0].
    destruct (last vec) as [m|] eqn:Hlast.
    + pose proof (sorted_last_max vec m Hsort Hlast) as Hmax. rewrite Forall_forall in Hmax.
      destruct (Z.ltb_spec (max_cpu cpus) m).
      * split; [done|]. split; [done|]. exists m. split; [|done]. apply Hvec. by apply last_Some_elem_of.
      * split_and!; [done..| | |].
        -- intros Hnil. by rewrite Hnil in Hlast.
        -- done.
        -- intros x Hx%Hvec. specialize (Hmax x Hx). lia.
    + apply last_None in Hlast. apply Hvec in Hx0. rewrite Hlast in Hx0. by apply not_elem_of_nil in Hx0.
  - destruct e; [done..|]. exfalso. clear -Hparts. revert Hparts. generalize (∅ : gset Z).
    induction parts as [|part parts IH]; intros set; cbn; [done|].
    destruct (taskset_part set part) as [set'|e] eqn:Hpart; [apply IH|]. intros [= ->].
    unfold taskset_part in Hpart. repeat (case_match; simplify_eq).
Qed.

(** ** Numbers: [ValueIntStr], [deserialize_int_str] *)

(** What serde makes of the value: a number of the type, or a string. *)
Inductive ValueIntStr (T : Type) :=
| Int (value : T)
| Str (value : string).
Arguments Int {_} _.
Arguments Str {_} _.

Section int_str.
  Context {T : Type} (parse : string → option T).

Definition deserialize_int_str (raw : result string (ValueIntStr T)) : result string T :=
  match raw with
  | Err e => Err e
  | Ok (Int value) => Ok value
  | Ok (Str value) => match parse (remove_char UNDERSCORE value) with Some v => Ok v | None => Err "invalid digit"%string end
  end.

Definition deserialize_int_str_maybe (raw : result string (option (ValueIntStr T))) : result string (option T) :=
  match raw with
  | Err e => Err e
  | Ok (Some (Int value)) => Ok (Some value)
  | Ok (Some (Str value)) =>
      match parse (remove_char UNDERSCORE value) with Some v => Ok (Some v) | None => Err "invalid digit"%string end
  | Ok None => Ok None
  end.
End int_str.

(** ** Compression: [ConfigGrpcCompression] *)

Inductive CompressionEncoding := Gzip | Zstd.

#[global] Instance CompressionEncoding_eq_dec : EqDecision CompressionEncoding.
Proof. solve_decision. Defined.

Definition compression_name (value : string) : result string CompressionEncoding :=
  if bool_decide (value = "gzip"%string) then Ok Gzip
  else if bool_decide (value = "zstd"%string) then Ok Zstd
  else Err ("Unknown compression format: " +:+ value).

Fixpoint deserialize_compression (values : list string) : result string (list CompressionEncoding) :=
  match values with
  | [] => Ok []
  | value :: values =>
      match compression_name value with
      | Err e => Err e
      | Ok encoding =>
          match deserialize_compression values with Ok encodings => Ok (encoding :: encodings) | Err e => Err e end
      end
  end.

Definition default_compression : list CompressionEncoding := [Gzip; Zstd].

Definition compression_text (encoding : CompressionEncoding) : string :=
  match encoding with Gzip => "gzip" | Zstd => "zstd" end.

(** The error names the first format that is not known. *)
Lemma deserialize_compression_spec values :
  match deserialize_compression values with
  | Ok encodings => compression_text <$> encodings = values
  | Err e => ∃ known value rest, values = (compression_text <$> known) ++ value :: rest ∧
               value ≠ "gzip"%string ∧ value ≠ "zstd"%string ∧ e = "Unknown compression format: " +:+ value
  end.
Proof.
  induction values as [|value values IH]; [done|]. cbn [deserialize_compression]. unfold compression_name.
  case_bool_decide as Hg; [|case_bool_decide as Hz; [|by exists [], value, values]].
  1: subst; destruct (deserialize_compression values); [by rewrite <- IH|].
  1: destruct IH as (known & v & rest & -> & ?); by exists (Gzip :: known), v, rest.
  subst; destruct (deserialize_compression values); [by rewrite <- IH|].
  destruct IH as (known & v & rest & -> & ?); by exists (Zstd :: known), v, rest.
Qed.

(** ** Listen addresses: [GrpcAddress], [GrpcAddresses] *)

(** [str::strip_prefix]. *)
Fixpoint str_strip_prefix (prefix s : string) : option string :=
  match prefix, s with
  | EmptyString, _ => Some s
  | String _ _, EmptyString => None
  | String a prefix, String b s => if bool_decide (a = b) then str_strip_prefix prefix s else None
  end.

Lemma str_strip_prefix_app prefix s : str_strip_prefix prefix (prefix +:+ s) = Some s.
Proof. induction prefix as [|a prefix IH]; [done|]. simpl. by rewrite bool_decide_true. Qed.

Lemma str_strip_prefix_spec prefix s rest : str_strip_prefix prefix s = Some rest → s = prefix +:+ rest.
Proof.
  revert s. induction prefix as [|a prefix IH]; intros [|b s]; simpl; [by intros [= <-]..|done|].
  case_bool_decide; [|done]. intros ?%IH. by subst.
Qed.


Definition DEFAULT_UNIX_SOCKET_MODE : Z := 432.

Section addresses.
  Context {SocketAddr : Type}.
  (** [SocketAddr::from_str] and its [Display]. *)
  Context (parse_socket : string → result string SocketAddr) (show_socket : SocketAddr → string).

Inductive GrpcAddress :=
| Tcp (addr : SocketAddr)
| Unix (path : string) (mode : Z).

Definition UNIX_SCHEME : string := "unix://".

Definition GrpcAddress_from_str (s : string) : result string GrpcAddress :=
  match str_strip_prefix UNIX_SCHEME s with
  | Some path => Ok (Unix path DEFAULT_UNIX_SOCKET_MODE)
  | None => match parse_socket s with Ok addr => Ok (Tcp addr) | Err e => Err e end
  end.

Definition GrpcAddress_fmt (address : GrpcAddress) : string :=
  match address with Tcp addr => show_socket addr | Unix path _ => UNIX_SCHEME +:+ path end.

Inductive RawAddress :=
| RawString (s : string)
| RawObject (path : string) (mode : option Z).

Definition GrpcAddress_deserialize (raw : result string RawAddress) : result string GrpcAddress :=
  match raw with
  | Err e => Err e
  | Ok (RawString s) => GrpcAddress_from_str s
  | Ok (RawObject path mode) =>
      match GrpcAddress_from_str path with
      | Err e => Err e
      | Ok (Unix path _) => Ok (Unix path (default DEFAULT_UNIX_SOCKET_MODE mode))
      | Ok (Tcp _) => Err "mode is only valid for unix:// addresses"%string
      end
  end.

(** The three forms the visitor of [GrpcAddresses] accepts. *)
Definition visit_str (s : string) : result string (list GrpcAddress) :=
  match GrpcAddress_from_str s with Ok addr => Ok [addr] | Err e => Err e end.

Definition visit_map (map : result string RawAddress) : result string (list GrpcAddress) :=
  match GrpcAddress_deserialize map with Ok addr => Ok [addr] | Err e => Err e end.

Fixpoint visit_seq_loop (addrs : list GrpcAddress) (seq : list (result string RawAddress))
    : result string (list GrpcAddress) :=
  match seq with
  | [] => if bool_decide (addrs = []) then Err "at least one address is required"%string else Ok addrs
  | raw :: seq =>
      match GrpcAddress_deserialize raw with Err e => Err e | Ok addr => visit_seq_loop (addrs ++ [addr]) seq end
  end.

Definition visit_seq (seq : list (result string RawAddress)) : result string (list GrpcAddress) := visit_seq_loop [] seq.

Lemma visit_seq_loop_spec seq : ∀ addrs,
  match visit_seq_loop addrs seq with
  | Ok out => out ≠ [] ∧ ∃ tail, out = addrs ++ tail ∧ GrpcAddress_deserialize <$> seq = Ok <$> tail
  | Err e => addrs = [] ∧ seq = [] ∨ ∃ raw, raw ∈ seq ∧ GrpcAddress_deserialize raw = Err e
  end.
Proof.
  induction seq as [|raw seq IH]; intros addrs; cbn [visit_seq_loop].
  - case_bool_decide; [by left|]. split; [done|]. exists []. by rewrite app_nil_r.
  - destruct (GrpcAddress_deserialize raw) as [addr|e] eqn:Haddr.
    + specialize (IH (addrs ++ [addr])). destruct (visit_seq_loop (addrs ++ [addr]) seq) as [out|e].
      * destruct IH as (Hne & tail & -> & Htail). split; [done|]. exists (addr :: tail). rewrite <- app_assoc.
        split; [done|]. cbn. by rewrite Haddr, Htail.
      * right. destruct IH as [[[]%app_nil _]|(raw' & Hin & He)]; [done|]. exists raw'. split; [by right|done].
    + right. exists raw. split; [by left|done].
Qed.

(** Reading back an address as it is displayed gives the address, a socket
    with the default mode: the mode is not shown. An object sets the mode of a
    socket path (the default when it is absent) and is refused for an address
    that is not one, a string never sets a mode, and a list of addresses is
    accepted only if it is not empty and each of its members is. *)
Theorem grpc_address_spec :
  (∀ addr, parse_socket (show_socket addr) = Ok addr ∧ str_strip_prefix UNIX_SCHEME (show_socket addr) = None) →
  (∀ address, GrpcAddress_from_str (GrpcAddress_fmt address) =
     Ok match address with Tcp addr => Tcp addr | Unix path _ => Unix path DEFAULT_UNIX_SOCKET_MODE end) ∧
  (∀ raw path mode, GrpcAddress_deserialize (Ok raw) = Ok (Unix path mode) ↔
     match raw with
     | RawString s => s = UNIX_SCHEME +:+ path ∧ mode = DEFAULT_UNIX_SOCKET_MODE
     | RawObject s m => s = UNIX_SCHEME +:+ path ∧ mode = default DEFAULT_UNIX_SOCKET_MODE m
     end) ∧
  (∀ path mode addr, GrpcAddress_deserialize (Ok (RawObject path mode)) ≠ Ok (Tcp addr)) ∧
  ∀ seq out, visit_seq seq = Ok out ↔ out ≠ [] ∧ GrpcAddress_deserialize <$> seq = Ok <$> out.
Proof.
  intros Hsock. assert (Hunix : ∀ path, GrpcAddress_from_str (UNIX_SCHEME +:+ path) = Ok (Unix path DEFAULT_UNIX_SOCKET_MODE)).
  { intros path. unfold GrpcAddress_from_str. by rewrite str_strip_prefix_app. }
  assert (Hinv : ∀ s path mode, GrpcAddress_from_str s = Ok (Unix path mode) → s = UNIX_SCHEME +:+ path ∧ mode = DEFAULT_UNIX_SOCKET_MODE).
  { intros s path mode. unfold GrpcAddress_from_str. destruct (str_strip_prefix UNIX_SCHEME s) eqn:Hs.
    - intros [= -> <-]. by apply str_strip_prefix_spec in Hs.
    - by destruct (parse_socket s). }
  split_and!.
  - intros [addr|path mode]; [|apply Hunix]. destruct (Hsock addr) as [Hp Hn].
    unfold GrpcAddress_from_str, GrpcAddress_fmt. by rewrite Hn, Hp.
  - intros [s|s m] path mode; cbn [GrpcAddress_deserialize]; split.
    + apply Hinv.
    + intros [-> ->]. apply Hunix.
    + destruct (GrpcAddress_from_str s) as [[addr|p m']|] eqn:Hs; [done| |done]. intros [= -> <-].
      by apply Hinv in Hs as [-> _].
    + intros [-> ->]. by rewrite Hunix.
  - intros path mode addr. cbn. by destruct (GrpcAddress_from_str path) as [[]|].
  - intros seq out. pose proof (visit_seq_loop_spec seq []) as Hspec. unfold visit_seq. split.
    + intros Hout. rewrite Hout in Hspec. by destruct Hspec as (? & tail & -> & ?).
    + intros [Hne Hall]. destruct (visit_seq_loop [] seq) as [out'|e].
      * destruct Hspec as (_ & tail & -> & Htail). rewrite Hall in Htail. f_equal. symmetry.
        revert Htail. apply list_fmap_eq_inj. by intros ? ? [= ->].
      * exfalso. destruct Hspec as [[_ ->]|(raw & Hin & He)]; [by destruct out|].
        apply (list_elem_of_fmap_2 GrpcAddress_deserialize) in Hin. rewrite Hall, He in Hin.
        apply list_elem_of_fmap_1 in Hin as (? & ? & _). done.
Qed.
End addresses.

(** The tests of the source, and a configuration that is refused. *)
Example taskset_tests :
  parse_taskset (Ok [0; 1; 2; 3]) "0-2,3" = Ok [0; 1; 2; 3] ∧
  parse_taskset (Ok [0; 1; 2; 3]) "3,1-2,2" = Ok [1; 2; 3] ∧
  parse_taskset (Ok [0; 1]) "0-2" = Err (Out_of_range 1) ∧
  parse_taskset (Ok [0; 1]) "2-0" = Err (Invalid_interval "2-0") ∧
  parse_taskset (Ok [0; 1]) "0,,1" = Err (Failed_to_parse "").
Proof. by vm_compute. Qed.

Definition demo_parse_socket (s : string) : result string bool :=
  if bool_decide (s = "0.0.0.0:10000"%string) then Ok true
  else if bool_decide (s = "[::1]:10000"%string) then Ok false else Err "invalid socket address syntax"%string.
Definition demo_show_socket (b : bool) : string := if b then "0.0.0.0:10000" else "[::1]:10000".

Lemma grpc_address_spec_witness :
  GrpcAddress_from_str demo_parse_socket (GrpcAddress_fmt demo_show_socket (Tcp true)) = Ok (Tcp true) ∧
  GrpcAddress_from_str demo_parse_socket "unix:///var/run/geyser.sock" = Ok (Unix "/var/run/geyser.sock" 432) ∧
  ∀ path mode addr, GrpcAddress_deserialize demo_parse_socket (Ok (RawObject path mode)) ≠ Ok (Tcp addr).
Proof.
  destruct (grpc_address_spec demo_parse_socket demo_show_socket) as (Hrt & _ & Hobj & _); [by intros []|].
  split; [exact (Hrt (Tcp true))|]. split; [exact (Hrt (Unix "/var/run/geyser.sock" 504))|exact Hobj].
Defined.
