(* ===== verification/Tcp.v ===== *)
(** * yellowstone-grpc-tools: server/tcp.rs

    Accepted TCP connections and the options they are given. The sockets of the
    operating system are a class: a state [M] that binding, accepting and
    setting an option may change. *)

From S2P Require Import Prelude.

Set Default Goal Selector "!".

Local Open Scope Z_scope.

(** [socket2::TcpKeepalive]. *)
Record TcpKeepalive := mkTcpKeepalive {
  ka_time : option Z;
  ka_interval : option Z;
  ka_retries : option Z
}.

Definition TcpKeepalive_new : TcpKeepalive := mkTcpKeepalive None None None.

(** For the targets that have every parameter. *)
Definition make_keepalive (keepalive_time keepalive_interval keepalive_retries : option Z) : option TcpKeepalive :=
  let dirty := false in
  let keepalive := TcpKeepalive_new in
  let '(keepalive, dirty) :=
    match keepalive_time with
    | Some t => (mkTcpKeepalive (Some t) (ka_interval keepalive) (ka_retries keepalive), true)
    | None => (keepalive, dirty)
    end in
  let '(keepalive, dirty) :=
    match keepalive_interval with
    | Some t => (mkTcpKeepalive (ka_time keepalive) (Some t) (ka_retries keepalive), true)
    | None => (keepalive, dirty)
    end in
  let '(keepalive, dirty) :=
    match keepalive_retries with
    | Some r => (mkTcpKeepalive (ka_time keepalive) (ka_interval keepalive) (Some r), true)
    | None => (keepalive, dirty)
    end in
  if dirty : bool then Some keepalive else None.

Record TcpConfiguration := mkTcpConfiguration {
  tc_nodelay : option bool;
  tc_keepalive : option TcpKeepalive
}.

Definition TcpConfiguration_default : TcpConfiguration := mkTcpConfiguration None None.

Definition with_nodelay (this : TcpConfiguration) (nodelay : option bool) : TcpConfiguration :=
  mkTcpConfiguration nodelay (tc_keepalive this).

Definition with_keepalive (this : TcpConfiguration) (keepalive : option Z) : TcpConfiguration :=
  mkTcpConfiguration (tc_nodelay this)
    (match keepalive with Some k => make_keepalive (Some k) None None | None => None end).

Class TcpSockets (M E SocketAddr : Type) := {
  TcpListener : Type;
  TcpStream : Type;
  tcp_listener_bind : SocketAddr → M → result E TcpListener * M;
  listener_local_addr : TcpListener → M → result E SocketAddr;
  listener_poll_next : TcpListener → M → Poll (option (result E TcpStream)) * M;
  set_nodelay : TcpStream → bool → M → result E unit * M;
  set_tcp_keepalive : TcpStream → TcpKeepalive → M → result E unit * M
}.

Section incoming.
Context {M E SocketAddr : Type} {T : TcpSockets M E SocketAddr}.

Record TcpIncoming := mkTcpIncoming {
  ti_listener : TcpListener;
  ti_nodelay : option bool;
  ti_keepalive : option TcpKeepalive
}.

Definition TcpIncoming_bind (addr : SocketAddr) (m : M) : result E TcpIncoming * M :=
  match tcp_listener_bind addr m with
  | (Ok listener, m) => (Ok (mkTcpIncoming listener None None), m)
  | (Err e, m) => (Err e, m)
  end.

Definition bind_with_config (addr : SocketAddr) (config : TcpConfiguration) (m : M) : result E TcpIncoming * M :=
  match tcp_listener_bind addr m with
  | (Ok listener, m) => (Ok (mkTcpIncoming listener (tc_nodelay config) (tc_keepalive config)), m)
  | (Err e, m) => (Err e, m)
  end.

Definition local_addr (this : TcpIncoming) (m : M) : result E SocketAddr := listener_local_addr (ti_listener this) m.

(** An option that cannot be set is logged only. *)
Definition set_accepted_socket_options (stream : TcpStream) (nodelay : option bool) (keepalive : option TcpKeepalive) (m : M) : M :=
  let m := match nodelay with Some nodelay => (set_nodelay stream nodelay m).2 | None => m end in
  match keepalive with Some keepalive => (set_tcp_keepalive stream keepalive m).2 | None => m end.

Definition TcpIncoming_poll_next (this : TcpIncoming) (m : M) : Poll (option (result E TcpStream)) * M :=
  let '(polled, m) := listener_poll_next (ti_listener this) m in
  let m := match polled with
           | Ready (Some (Ok stream)) => set_accepted_socket_options stream (ti_nodelay this) (ti_keepalive this) m
           | _ => m
           end in
  (polled, m).
End incoming.

Lemma make_keepalive_none time interval retries : make_keepalive time interval retries = None ↔ time = None ∧ interval = None ∧ retries = None.
Proof. destruct time, interval, retries; cbn; naive_solver. Qed.

(** ** What an accepted connection is set to *)

(** Whatever was set before, a connection has the configured options once it is
    handed out, if setting one option reads back and leaves the other. *)
Section options.
Context {M E SocketAddr : Type} {T : TcpSockets M E SocketAddr}.
Context (nodelay_of : TcpStream → M → option bool) (keepalive_of : TcpStream → M → option TcpKeepalive).
Context (nodelay_set : ∀ s b m m', set_nodelay s b m = (Ok tt, m') → nodelay_of s m' = Some b ∧ keepalive_of s m' = keepalive_of s m).
Context (keepalive_set : ∀ s k m m', set_tcp_keepalive s k m = (Ok tt, m') → keepalive_of s m' = Some k ∧ nodelay_of s m' = nodelay_of s m).

Lemma accepted_options this m stream m' : TcpIncoming_poll_next this m = (Ready (Some (Ok stream)), m') →
  (∀ b m, ∃ m', set_nodelay stream b m = (Ok tt, m')) → (∀ k m, ∃ m', set_tcp_keepalive stream k m = (Ok tt, m')) →
  (∀ b, ti_nodelay this = Some b → nodelay_of stream m' = Some b) ∧
  (∀ k, ti_keepalive this = Some k → keepalive_of stream m' = Some k).
Proof.
  unfold TcpIncoming_poll_next, set_accepted_socket_options. destruct (listener_poll_next _ m) as [polled m1].
  intros H. assert (polled = Ready (Some (Ok stream))) as -> by congruence. injection H as <-. intros Hn Hk.
  destruct (ti_nodelay this) as [b0|]; destruct (ti_keepalive this) as [k0|]; split; intros ? [= <-].
  all: repeat match goal with
    | |- context [set_nodelay ?s ?b ?m] => let H := fresh in destruct (Hn b m) as [? H]; rewrite H; destruct (nodelay_set _ _ _ _ H); cbn [snd]
    | |- context [set_tcp_keepalive ?s ?k ?m] => let H := fresh in destruct (Hk k m) as [? H]; rewrite H; destruct (keepalive_set _ _ _ _ H); cbn [snd]
    end; congruence.
Qed.
End options.
