(* ===== verification/Tokens.v ===== *)
(** * tokio_util: cancellation tokens

    The tokens by which the tasks of the server are told to stop are
    third-party: a class of operations with the laws that state their
    documented behaviour, and an instance, a tree of tokens, that shows the
    laws can hold. The state shared by all tokens is explicit. *)

From S2P Require Import Prelude.

Set Default Goal Selector "!".

Class CancellationTokens := {
  tokens : Type;
  token : Type;
  (** [CancellationToken::new] with nothing else around, [child_token], [cancel], [is_cancelled]. *)
  tokens_new : token * tokens;
  child_token : token → tokens → token * tokens;
  cancel : token → tokens → tokens;
  is_cancelled : token → tokens → bool
}.

(** Cancelling a token cancels it and the tokens made from it, and no other; a
    token made from a cancelled one is cancelled. [token_known s t]: [t] was
    handed out; [below s t u]: [t] is [u] or was made from it, directly or not. *)
Class CancellationTokensLaws {T : CancellationTokens} := {
  token_known : tokens → token → Prop;
  below : tokens → token → token → Prop;
  below_refl s t : below s t t;
  below_trans s t u v : below s t u → below s u v → below s t v;
  new_known : token_known tokens_new.2 tokens_new.1;
  new_not_cancelled : is_cancelled tokens_new.1 tokens_new.2 = false;
  child_fresh s t c s' : child_token t s = (c, s') → token_known s t →
    token_known s' c ∧ ¬ token_known s c ∧ is_cancelled c s' = is_cancelled t s;
  child_known s t c s' u : child_token t s = (c, s') → token_known s t → token_known s u →
    token_known s' u ∧ is_cancelled u s' = is_cancelled u s;
  child_below s t c s' u v : child_token t s = (c, s') → token_known s t → token_known s v → (u = c ∨ token_known s u) →
    below s' u v ↔ (u = c ∧ below s t v) ∨ (u ≠ c ∧ below s u v);
  child_below_child s t c s' u : child_token t s = (c, s') → token_known s t → token_known s u → ¬ below s' u c;
  cancel_known s t u : token_known (cancel t s) u ↔ token_known s u;
  cancel_below s t u v : below (cancel t s) u v ↔ below s u v;
  is_cancelled_cancel s t u : token_known s t → token_known s u →
    is_cancelled u (cancel t s) = true ↔ is_cancelled u s = true ∨ below s u t
}.

Section lemmas.
Context {T : CancellationTokens} {TL : CancellationTokensLaws}.

Lemma cancel_self s t : token_known s t → is_cancelled t (cancel t s) = true.
Proof. intros Ht. apply is_cancelled_cancel; [done..|]. right. apply below_refl. Qed.

Lemma cancel_mono s t u : token_known s t → token_known s u → is_cancelled u s = true → is_cancelled u (cancel t s) = true.
Proof. intros Ht Hu Hc. apply is_cancelled_cancel; auto. Qed.

Lemma cancel_other s t u : token_known s t → token_known s u → ¬ below s u t →
  is_cancelled u (cancel t s) = is_cancelled u s.
Proof.
  intros Ht Hu Hb. destruct (is_cancelled u s) eqn:E; [by apply cancel_mono|].
  destruct (is_cancelled u (cancel t s)) eqn:E'; [|done]. apply is_cancelled_cancel in E'; [|done..]. naive_solver congruence.
Qed.

(** A child is cancelled with its parent. *)
Lemma child_token_below s t c s' : child_token t s = (c, s') → token_known s t → below s' c t.
Proof. intros Hc Ht. apply (child_below s t c s' c t Hc Ht Ht); auto using below_refl. Qed.
End lemmas.

(** ** An instance *)

(** A token is the path to it, latest step first; the number of tokens made
    names the next one, and the cancelled tokens are those below one that
    [cancel] was called on. *)
Record token_tree := mkTokenTree {
  tree_made : nat;
  tree_cancelled : list (list nat)
}.

Definition tree_child (t : list nat) (s : token_tree) : list nat * token_tree :=
  let c := tree_made s :: t in
  (c, mkTokenTree (S (tree_made s)) (filter (λ u, u ≠ c) (tree_cancelled s))).

Definition tree_below (t u : list nat) : bool := bool_decide (u `suffix_of` t).

Definition tree_is_cancelled (t : list nat) (s : token_tree) : bool := existsb (tree_below t) (tree_cancelled s).

Definition tree_known (s : token_tree) (t : list nat) : Prop := Forall (λ n, n < tree_made s) t.

#[local] Instance tree_tokens : CancellationTokens := {|
  tokens := token_tree;
  token := list nat;
  tokens_new := ([], mkTokenTree 0 []);
  child_token := tree_child;
  cancel t s := mkTokenTree (tree_made s) (t :: tree_cancelled s);
  is_cancelled := tree_is_cancelled
|}.

Lemma tree_is_cancelled_spec t s : tree_is_cancelled t s = true ↔ ∃ u, u ∈ tree_cancelled s ∧ u `suffix_of` t.
Proof.
  unfold tree_is_cancelled. rewrite existsb_exists. unfold tree_below. setoid_rewrite bool_decide_eq_true.
  by setoid_rewrite list_elem_of_In.
Qed.

Lemma suffix_cons_r (n : nat) t u : u `suffix_of` n :: t ↔ u = n :: t ∨ u `suffix_of` t.
Proof.
  split; [|intros [->|H]; [done|by apply suffix_cons_r]]. intros [[|m k] Hk]; [by left|]. right.
  injection Hk as -> ->. by exists k.
Qed.

Lemma tree_known_child s t n : tree_known s t → n `suffix_of` t → tree_made s ∉ n.
Proof.
  intros Ht [k ->] Hin. unfold tree_known in Ht. rewrite Forall_app, !Forall_forall in Ht.
  destruct Ht as [_ Ht]. specialize (Ht _ Hin). lia.
Qed.

(** Making a child leaves the tokens there were as they are. *)
Lemma tree_child_cancelled s t u : tree_known s u →
  tree_is_cancelled u (tree_child t s).2 = tree_is_cancelled u s.
Proof.
  intros Hu. apply eq_bool_prop_intro. rewrite !Is_true_true, !tree_is_cancelled_spec. cbn.
  split; [intros (v&[_ Hv]%list_elem_of_filter&Hs); by exists v|].
  intros (v&Hv&Hs). exists v. split; [|done]. apply list_elem_of_filter. split; [|done]. intros ->.
  apply (tree_known_child s u _ Hu Hs). by left.
Qed.

Lemma tree_child_itself s t : tree_is_cancelled (tree_child t s).1 (tree_child t s).2 = tree_is_cancelled t s.
Proof.
  apply eq_bool_prop_intro. rewrite !Is_true_true, !tree_is_cancelled_spec. cbn.
  setoid_rewrite suffix_cons_r. setoid_rewrite list_elem_of_filter. split; [naive_solver|].
  intros (v&Hv&Hs). exists v. split; [split; [|done]|by right]. intros ->. apply suffix_length in Hs. cbn in Hs. lia.
Qed.

Lemma tree_child_known s t u : tree_known s u → tree_known (tree_child t s).2 u.
Proof. intros Hu. eapply Forall_impl; [exact Hu|]. cbn. lia. Qed.

#[local] Instance tree_tokens_laws : CancellationTokensLaws.
Proof.
  refine {| token_known := tree_known : @tokens tree_tokens → token → Prop;
            below := (λ _ t u, u `suffix_of` t) : @tokens tree_tokens → token → token → Prop |}.
  - done.
  - intros s t u v Htu Huv. by etransitivity.
  - by constructor.
  - done.
  - intros s t c s' [= <- <-] Ht. split; [constructor; [cbn; lia|by apply (tree_child_known s t)]|].
    split; [|apply (tree_child_itself s t)]. intros Hc. apply Forall_inv in Hc. lia.
  - intros s t c s' u [= <- <-] Ht Hu. split; [by apply (tree_child_known s t)|]. by apply (tree_child_cancelled s t).
  - intros s t c s' u v [= <- <-] Ht Hv Hu. destruct (decide (u = tree_made s :: t)) as [->|Hne].
    + rewrite suffix_cons_r. split; [intros [->|?]; [apply Forall_inv in Hv; lia|by left]|naive_solver].
    + naive_solver.
  - intros s t c s' u [= <- <-] Ht Hu Hs. apply (tree_known_child s u _ Hu Hs). by left.
  - done.
  - done.
  - intros s t u Ht Hu. cbn [is_cancelled cancel tree_tokens]. rewrite !tree_is_cancelled_spec. cbn. setoid_rewrite elem_of_cons. naive_solver.
Defined.
