(* ===== verification/Sessions.v ===== *)
(** * grpc.rs: opening and closing subscriptions

    The handlers [subscribe], [subscribe_deshred] and [subscribe_gossip] up to
    the tasks they spawn, and the drop of the session a client loop owns: who
    the subscriber is, the permit, the id, the cancellation tokens, the
    snapshot. A handler is one step: what it shares is behind a lock or atomic.
    The tasks are in Tasks.v; metrics of the sessions are in Metrics.v. *)

From S2P Require Import Prelude Message Service Auth Tokens.

Set Default Goal Selector "!".

Local Open Scope Z_scope.

Section sessions.
Context {H : Http} {T : CancellationTokens}.
(** The receiver of the startup snapshot. *)
Context {Snapshot : Type}.

(** The parts of a [tonic::Request] the handlers read: the extension left by
    authentication, the metadata, and the address of the peer as text. *)
Record GrpcRequest := mkGrpcRequest {
  gr_subscription_info : option SubscriptionInfo;
  gr_metadata : HeaderMap;
  gr_remote_ip : option string
}.

Definition metadata_str (r : GrpcRequest) (name : string) : option string :=
  headers_get (gr_metadata r) name ≫= header_to_str.

(** The header [x-subscription-id], or the address. *)
Definition peer_subscriber_id (r : GrpcRequest) : option string :=
  match metadata_str r "x-subscription-id" with Some s => Some s | None => gr_remote_ip r end.

Definition request_subscriber_id (r : GrpcRequest) : option string :=
  match gr_subscription_info r with Some info => Some (si_subscription_id info) | None => peer_subscriber_id r end.

(** The fields of [GrpcService] the handlers use. *)
Record GrpcService := mkGrpcService {
  gs_subscription_tracker : SubscriptionTracker;
  gs_subscribe_id : Z;
  gs_snapshot_rx : option Snapshot;
  gs_tokens : tokens;
  gs_cancellation_token : token;
  gs_channel_capacity : Z;
  gs_snapshot_client_channel_capacity : Z
}.

Definition gs_with_tracker (st : GrpcService) (t : SubscriptionTracker) : GrpcService :=
  mkGrpcService t (gs_subscribe_id st) (gs_snapshot_rx st) (gs_tokens st) (gs_cancellation_token st)
    (gs_channel_capacity st) (gs_snapshot_client_channel_capacity st).

Definition gs_with_tokens (st : GrpcService) (s : tokens) : GrpcService :=
  mkGrpcService (gs_subscription_tracker st) (gs_subscribe_id st) (gs_snapshot_rx st) s (gs_cancellation_token st)
    (gs_channel_capacity st) (gs_snapshot_client_channel_capacity st).

Definition gs_with_snapshot (st : GrpcService) (snapshot : option Snapshot) : GrpcService :=
  mkGrpcService (gs_subscription_tracker st) (gs_subscribe_id st) snapshot (gs_tokens st) (gs_cancellation_token st)
    (gs_channel_capacity st) (gs_snapshot_client_channel_capacity st).

(** [fetch_add] of an [AtomicUsize]. *)
Definition next_subscribe_seq_id (st : GrpcService) : Z * GrpcService :=
  (gs_subscribe_id st,
   mkGrpcService (gs_subscription_tracker st) (wrap64 (gs_subscribe_id st + 1)) (gs_snapshot_rx st) (gs_tokens st)
     (gs_cancellation_token st) (gs_channel_capacity st) (gs_snapshot_client_channel_capacity st)).

Definition permit_drop (t : SubscriptionTracker) (permit : option string) : SubscriptionTracker :=
  match permit with Some key => SubscriptionOwnedPermit_drop t key | None => t end.

(** What a handler hands to the tasks it spawns. *)
Record Subscription := mkSubscription {
  sub_id : Z;
  (** the name of the session in logs and metrics *)
  sub_subscriber_id : string;
  sub_endpoint : string;
  sub_permit : option string;
  sub_token : token;
  sub_incoming_token : option token;
  sub_capacity : Z;
  sub_snapshot : option Snapshot
}.

(** What the three handlers begin with: the permit, the id, and a token of their
    own; on the early return the permit is dropped. *)
Definition open_subscription (st : GrpcService) (r : GrpcRequest)
    : GrpcService * result TonicStatus (option string * Z * token) :=
  let '(tracker, permit) := subscription_permit (gs_subscription_tracker st) (request_subscriber_id r) in
  let st := gs_with_tracker st tracker in
  match permit with
  | Err e => (st, Err e)
  | Ok permit =>
      let '(id, st) := next_subscribe_seq_id st in
      let '(client_token, s) := child_token (gs_cancellation_token st) (gs_tokens st) in
      let st := gs_with_tokens st s in
      if is_cancelled client_token (gs_tokens st)
      then (gs_with_tracker st (permit_drop (gs_subscription_tracker st) permit), Err (StatusUnavailable "server is shutting down"))
      else (st, Ok (permit, id, client_token))
  end.

Definition subscribe (st : GrpcService) (r : GrpcRequest) : GrpcService * result TonicStatus Subscription :=
  match open_subscription st r with
  | (st, Err e) => (st, Err e)
  | (st, Ok (permit, id, client_token)) =>
      let x_request_snapshot := bool_decide (is_Some (headers_get (gr_metadata r) "x-request-snapshot")) in
      let snapshot_rx := if x_request_snapshot then gs_snapshot_rx st else None in
      let st := if x_request_snapshot then gs_with_snapshot st None else st in
      let capacity := if snapshot_rx is Some _ then gs_snapshot_client_channel_capacity st else gs_channel_capacity st in
      let endpoint := default EmptyString (metadata_str r "x-endpoint") in
      let '(incoming_token, s) := child_token client_token (gs_tokens st) in
      (gs_with_tokens st s,
       Ok (mkSubscription id (default "UNKNOWN"%string (request_subscriber_id r)) endpoint permit client_token
             (Some incoming_token) capacity snapshot_rx))
  end.

(** The session is named by the metadata alone: line 2301 computes the id anew. *)
Definition subscribe_deshred (st : GrpcService) (r : GrpcRequest) : GrpcService * result TonicStatus Subscription :=
  match open_subscription st r with
  | (st, Err e) => (st, Err e)
  | (st, Ok (permit, id, client_token)) =>
      let '(incoming_token, s) := child_token client_token (gs_tokens st) in
      (gs_with_tokens st s,
       Ok (mkSubscription id (default "UNKNOWN"%string (peer_subscriber_id r)) EmptyString permit client_token
             (Some incoming_token) (gs_channel_capacity st) None))
  end.

Definition subscribe_gossip (st : GrpcService) (r : GrpcRequest) : GrpcService * result TonicStatus Subscription :=
  match open_subscription st r with
  | (st, Err e) => (st, Err e)
  | (st, Ok (permit, id, client_token)) =>
      (st, Ok (mkSubscription id (default EmptyString (request_subscriber_id r)) EmptyString permit client_token
                 None (gs_channel_capacity st) None))
  end.

(** [Drop] of the session, then of its permit. *)
Definition session_drop (st : GrpcService) (sub : Subscription) : GrpcService :=
  let st := gs_with_tokens st (cancel (sub_token sub) (gs_tokens st)) in
  gs_with_tracker st (permit_drop (gs_subscription_tracker st) (sub_permit sub)).

Inductive Method := MethodSubscribe | MethodSubscribeDeshred | MethodSubscribeGossip.

Definition run_method (m : Method) : GrpcService → GrpcRequest → GrpcService * result TonicStatus Subscription :=
  match m with
  | MethodSubscribe => subscribe
  | MethodSubscribeDeshred => subscribe_deshred
  | MethodSubscribeGossip => subscribe_gossip
  end.

(** ** Everything that happens to the subscriptions of a server *)

Record Server := mkServer {
  sv_service : GrpcService;
  (** calls so far; subscriptions opened, in order; those whose session is alive;
      those whose ping task or client found the other side gone *)
  sv_calls : nat;
  sv_opened : list Subscription;
  sv_live : list Subscription;
  sv_killed : list Z
}.

Inductive server_step : Server → Server → Prop :=
| server_open s m r st sub :
    run_method m (sv_service s) r = (st, Ok sub) →
    server_step s (mkServer st (S (sv_calls s)) (sv_opened s ++ [sub]) (sub :: sv_live s) (sv_killed s))
| server_refuse s m r st e :
    run_method m (sv_service s) r = (st, Err e) →
    server_step s (mkServer st (S (sv_calls s)) (sv_opened s) (sv_live s) (sv_killed s))
| server_session_drop s live1 sub live2 :
    sv_live s = live1 ++ sub :: live2 →
    server_step s (mkServer (session_drop (sv_service s) sub) (sv_calls s) (sv_opened s) (live1 ++ live2) (sv_killed s))
| server_kill s sub :
    sub ∈ sv_opened s →
    server_step s (mkServer (gs_with_tokens (sv_service s) (cancel (sub_token sub) (gs_tokens (sv_service s))))
                     (sv_calls s) (sv_opened s) (sv_live s) (sub_id sub :: sv_killed s))
| server_shutdown s :
    server_step s (mkServer (gs_with_tokens (sv_service s) (cancel (gs_cancellation_token (sv_service s)) (gs_tokens (sv_service s))))
                     (sv_calls s) (sv_opened s) (sv_live s) (sv_killed s)).

(** ** The tokens of a server *)

Context {TL : CancellationTokensLaws}.

Definition sub_tokens (sub : Subscription) : list token := sub_token sub :: option_list (sub_incoming_token sub).

(** Each subscription has tokens of its own below the one of the service. *)
Record tokens_inv (s : tokens) (svc : token) (opened : list Subscription) : Prop := {
  ti_service : token_known s svc;
  ti_known i sub t : opened !! i = Some sub → t ∈ sub_tokens sub → token_known s t;
  ti_below i sub t : opened !! i = Some sub → t ∈ sub_tokens sub → below s t svc;
  ti_apart i j sub sub' t : opened !! i = Some sub → opened !! j = Some sub' → t ∈ sub_tokens sub →
    below s t (sub_token sub') ↔ i = j;
  ti_above i sub : opened !! i = Some sub → ¬ below s svc (sub_token sub)
}.

Lemma sub_token_in sub : sub_token sub ∈ sub_tokens sub.
Proof. by left. Qed.
#[local] Hint Resolve sub_token_in : core.

Lemma tokens_inv_cancel s svc opened t : tokens_inv s svc opened → tokens_inv (cancel t s) svc opened.
Proof.
  intros [H1 H2 H3 H4 H5]. split; intros; rewrite ?cancel_known, ?cancel_below; eauto.
Qed.

(** Making a child changes nothing between the tokens there were. *)
Lemma tokens_inv_child s svc opened t c s' : token_known s t → child_token t s = (c, s') →
  tokens_inv s svc opened → tokens_inv s' svc opened.
Proof.
  intros Ht Hc [H1 H2 H3 H4 H5]. assert (∀ u, token_known s u → token_known s' u) as Hk.
  { intros u Hu. by apply (child_known s t c s' u Hc Ht Hu). }
  assert (∀ u v, token_known s u → token_known s v → below s' u v ↔ below s u v) as Hb.
  { intros u v Hu Hv. rewrite (child_below s t c s' u v Hc Ht Hv) by auto.
    destruct (child_fresh s t c s' Hc Ht) as (_ & Hf & _). naive_solver. }
  split; intros; rewrite ?Hb by eauto; eauto.
Qed.

(** A new subscription: its tokens are below the service and apart from all others. *)
Lemma tokens_inv_snoc s svc opened sub :
  tokens_inv s svc opened → (∀ t, t ∈ sub_tokens sub → token_known s t ∧ below s t svc ∧ below s t (sub_token sub)) →
  ¬ below s svc (sub_token sub) →
  (∀ i sub', opened !! i = Some sub' →
     (∀ t, t ∈ sub_tokens sub' → ¬ below s t (sub_token sub)) ∧ (∀ t, t ∈ sub_tokens sub → ¬ below s t (sub_token sub'))) →
  tokens_inv s svc (opened ++ [sub]).
Proof.
  intros [H1 H2 H3 H4 H5] Hsub Habove Hold.
  split; [done|intros i sub1 t Hi Ht..|intros i j sub1 sub2 t Hi Hj Ht|intros i sub1 Hi];
    apply lookup_app_Some in Hi as [Hi|[Hlen Hi]]; try (apply list_lookup_singleton_Some in Hi as [Hi <-]); eauto.
  1,2: by apply Hsub.
  - apply lookup_app_Some in Hj as [Hj|[Hlen Hj]]; [by eapply H4|]. apply list_lookup_singleton_Some in Hj as [Hj <-].
    apply lookup_lt_Some in Hi as Hlt. split; [|lia]. intros Hb. by destruct (proj1 (Hold i sub1 Hi) t Ht).
  - apply lookup_app_Some in Hj as [Hj|[Hlen' Hj]].
    + apply lookup_lt_Some in Hj as Hlt. split; [|lia]. intros Hb. by destruct (proj2 (Hold j sub2 Hj) t Ht).
    + apply list_lookup_singleton_Some in Hj as [Hj <-]. split; [lia|]. intros _. by apply Hsub.
Qed.

Definition token_apart (s : tokens) (opened : list Subscription) (c : token) (u : token) : Prop :=
  ∀ i sub, opened !! i = Some sub → (∀ t, t ∈ sub_tokens sub → ¬ below s t u) ∧ ¬ below s c (sub_token sub).

(** A child of the service is below it and apart from the subscriptions. *)
Lemma tokens_inv_client s svc opened c s' : tokens_inv s svc opened → child_token svc s = (c, s') →
  tokens_inv s' svc opened ∧ token_known s' c ∧ below s' c svc ∧ ¬ below s' svc c ∧ token_apart s' opened c c.
Proof.
  intros Hinv Hc. pose proof Hinv as [H1 H2 H3 H4 H5]. split; [by eapply tokens_inv_child|].
  destruct (child_fresh s svc c s' Hc H1) as (Hk & Hf & _). split; [done|].
  split; [by apply (child_token_below s svc c s')|]. split; [by apply (child_below_child s svc c s' svc Hc H1 H1)|].
  intros i sub Hi. split.
  - intros t Ht. apply (child_below_child s svc c s' t Hc H1). by eapply H2.
  - rewrite (child_below s svc c s' c (sub_token sub) Hc H1); [|by eapply H2|by left].
    intros [[_ Hb]|[Hne _]]; [|done]. by eapply H5.
Qed.

(** A child of the client token, for the task that reads requests. *)
Lemma tokens_inv_incoming s svc opened c d s' : tokens_inv s svc opened → token_known s c → below s c svc →
  ¬ below s svc c → token_apart s opened c c → child_token c s = (d, s') →
  tokens_inv s' svc opened ∧ (∀ t, t ∈ [c; d] → token_known s' t ∧ below s' t svc ∧ below s' t c) ∧
  ¬ below s' svc c ∧ token_apart s' opened c c ∧ token_apart s' opened d c.
Proof.
  intros Hinv Hk Hb Hab Hap Hd. pose proof Hinv as [H1 H2 H3 H4 H5]. split; [by apply (tokens_inv_child s svc opened c d s')|].
  destruct (child_fresh s c d s' Hd Hk) as (Hkd & Hfd & _).
  assert (∀ u v, token_known s u → token_known s v → below s' u v ↔ below s u v) as Hold.
  { intros u v Hu Hv. rewrite (child_below s c d s' u v Hd Hk Hv) by auto. naive_solver. }
  assert (∀ v, token_known s v → below s' d v ↔ below s c v) as Hnew.
  { intros v Hv. rewrite (child_below s c d s' d v Hd Hk Hv) by auto. naive_solver. }
  split; [|split; [by rewrite Hold|]].
  - intros t [->|[->|[]%not_elem_of_nil]%elem_of_cons]%elem_of_cons.
    + rewrite !Hold by done. split; [by apply (child_known s c d s' c)|]. split; [done|apply below_refl].
    + rewrite !Hnew by done. split; [done|]. split; [done|apply below_refl].
  - split; intros i sub Hi; destruct (Hap i sub Hi) as [Ha1 Ha2].
    + split; [intros t Ht|]; rewrite Hold; eauto.
    + split; [intros t Ht; rewrite Hold; eauto|]. rewrite Hnew; eauto.
Qed.

(** ** The invariant of a server *)

Record server_inv (limit : Z) (enforce : bool) (s : Server) : Prop := {
  si_permits : permits_reachable limit enforce (gs_subscription_tracker (sv_service s)) (omap sub_permit (sv_live s));
  si_tokens : tokens_inv (gs_tokens (sv_service s)) (gs_cancellation_token (sv_service s)) (sv_opened s);
  si_id : 0 <= gs_subscribe_id (sv_service s) <= Z.of_nat (sv_calls s);
  si_ids : Forall (λ sub, 0 <= sub_id sub < gs_subscribe_id (sv_service s)) (sv_opened s);
  si_nodup : NoDup (sub_id <$> sv_opened s);
  si_live : NoDup (sv_live s) ∧ (∀ sub, sub ∈ sv_live s → sub ∈ sv_opened s) ∧ (length (sv_live s) <= sv_calls s)%nat;
  si_cancelled sub t : sub ∈ sv_opened s → t ∈ sub_tokens sub →
    is_cancelled t (gs_tokens (sv_service s)) = true ↔
    is_cancelled (gs_cancellation_token (sv_service s)) (gs_tokens (sv_service s)) = true ∨
    sub ∉ sv_live s ∨ sub_id sub ∈ sv_killed s;
  si_killed : Forall (λ id, 0 <= id < gs_subscribe_id (sv_service s)) (sv_killed s);
  si_snapshot : (length (omap sub_snapshot (sv_opened s)) + (if gs_snapshot_rx (sv_service s) is Some _ then 1 else 0) <= 1)%nat
}.

(** What a handler has done when the subscription is opened or refused. *)
Lemma open_subscription_spec limit enforce st r live :
  permits_reachable limit enforce (gs_subscription_tracker st) live → len live < usize_max →
  0 <= gs_subscribe_id st < usize_max → token_known (gs_tokens st) (gs_cancellation_token st) →
  let svc := gs_cancellation_token st in
  let '(st', result) := open_subscription st r in
  gs_cancellation_token st' = svc ∧ gs_snapshot_rx st' = gs_snapshot_rx st ∧
  gs_channel_capacity st' = gs_channel_capacity st ∧
  gs_snapshot_client_channel_capacity st' = gs_snapshot_client_channel_capacity st ∧
  match result with
  | Ok (permit, id, c) =>
      is_cancelled svc (gs_tokens st) = false ∧ permit = request_subscriber_id r ∧ id = gs_subscribe_id st ∧
      gs_subscribe_id st' = gs_subscribe_id st + 1 ∧ child_token svc (gs_tokens st) = (c, gs_tokens st') ∧
      permits_reachable limit enforce (gs_subscription_tracker st') (option_list permit ++ live)
  | Err e =>
      permits_reachable limit enforce (gs_subscription_tracker st') live ∧
      ((gs_subscribe_id st' = gs_subscribe_id st ∧ gs_tokens st' = gs_tokens st) ∨
       (is_cancelled svc (gs_tokens st) = true ∧ gs_subscribe_id st' = gs_subscribe_id st + 1 ∧
        ∃ c, child_token svc (gs_tokens st) = (c, gs_tokens st')))
  end.
Proof.
  intros Hp Hlen Hid Hk. cbv zeta. unfold open_subscription.
  destruct (subscription_permit _ _) as [tracker [permit|e]] eqn:Hperm.
  - assert (permit = request_subscriber_id r) as Hpermit.
    { unfold subscription_permit, try_insert in Hperm. destruct (request_subscriber_id r); [|by injection Hperm].
      repeat case_match; by simplify_eq. }
    pose proof (permits_subscribe _ _ _ _ _ _ _ Hp Hlen Hperm) as Hp'. cbn.
    destruct (child_token _ _) as [c s] eqn:Hc. destruct (child_fresh _ _ _ _ Hc Hk) as (_ & _ & Hcanc). cbn.
    assert (wrap64 (gs_subscribe_id st + 1) = gs_subscribe_id st + 1) as Hwrap
      by (apply Z.mod_small; unfold usize_max in Hid; lia).
    rewrite Hcanc. destruct (is_cancelled (gs_cancellation_token st) (gs_tokens st)) eqn:E;
      cbn; (do 4 (split; [done|])); [|by auto 10].
    split; [|right; by eauto]. destruct permit as [key|]; [|done]. cbn.
    by eapply permits_drop.
  - cbn. do 4 (split; [done|]). split; [|by left]. by eapply permits_refused.
Qed.

Definition has_snapshot (o : option Snapshot) : nat := if o is Some _ then 1 else 0.

Lemma run_method_err m st r st' e : run_method m st r = (st', Err e) → open_subscription st r = (st', Err e).
Proof.
  destruct m; cbn; unfold subscribe, subscribe_deshred, subscribe_gossip;
    destruct (open_subscription st r) as [st1 [[[permit id] c]|e1]]; cbn; repeat case_match; congruence.
Qed.

Lemma run_method_ok m st r st' sub : run_method m st r = (st', Ok sub) →
  ∃ st1, open_subscription st r = (st1, Ok (sub_permit sub, sub_id sub, sub_token sub)) ∧
    gs_subscription_tracker st' = gs_subscription_tracker st1 ∧ gs_subscribe_id st' = gs_subscribe_id st1 ∧
    gs_cancellation_token st' = gs_cancellation_token st1 ∧
    (has_snapshot (sub_snapshot sub) + has_snapshot (gs_snapshot_rx st') <= has_snapshot (gs_snapshot_rx st1))%nat ∧
    match sub_incoming_token sub with
    | None => gs_tokens st' = gs_tokens st1
    | Some d => child_token (sub_token sub) (gs_tokens st1) = (d, gs_tokens st')
    end.
Proof.
  destruct m; cbn; unfold subscribe, subscribe_deshred, subscribe_gossip;
    destruct (open_subscription st r) as [st1 [[[permit id] c]|e1]]; try done.
  - case_bool_decide; cbn; destruct (child_token _ _) as [d s] eqn:Hd; intros [= <- <-]; cbn; exists st1; cbn;
      do 4 (split; [done|]); (split; [|done]); destruct (gs_snapshot_rx st1); cbn; lia.
  - destruct (child_token _ _) as [d s] eqn:Hd. intros [= <- <-]. by exists st1.
  - intros [= <- <-]. by exists st1.
Qed.

Definition calls_left (s : Server) : Prop := Z.of_nat (sv_calls s) < usize_max.

Lemma omap_permits_le (l : list Subscription) : (length (omap sub_permit l) <= length l)%nat.
Proof. induction l as [|x l IH]; cbn; [done|]. destruct (sub_permit x); cbn; lia. Qed.

(** The conditions of [open_subscription_spec] hold in every server. *)
Lemma server_inv_open limit enforce s : server_inv limit enforce s → calls_left s →
  len (omap sub_permit (sv_live s)) < usize_max ∧ 0 <= gs_subscribe_id (sv_service s) < usize_max ∧
  token_known (gs_tokens (sv_service s)) (gs_cancellation_token (sv_service s)).
Proof.
  intros [Hp Ht Hid _ _ (_&_&Hl) _ _ _] Hc. unfold calls_left in Hc. pose proof (omap_permits_le (sv_live s)).
  unfold len. split_and!; [lia|lia|lia|apply Ht].
Qed.

Lemma server_inv_refused limit enforce s m r st e :
  server_inv limit enforce s → calls_left s → run_method m (sv_service s) r = (st, Err e) →
  server_inv limit enforce (mkServer st (S (sv_calls s)) (sv_opened s) (sv_live s) (sv_killed s)).
Proof.
  intros Hinv Hc Hrun%run_method_err. destruct (server_inv_open _ _ s Hinv Hc) as (Hlen & Hid & Hk).
  destruct Hinv as [Hp Ht Hid' Hids Hnd (Hl1&Hl2&Hl3) Hcanc Hkill Hsnap].
  pose proof (open_subscription_spec limit enforce _ r _ Hp Hlen Hid Hk) as Hspec. rewrite Hrun in Hspec.
  destruct Hspec as (Hsvc & Hsn & _ & _ & Hp' & [[Hid1 Htok]|(Hc1 & Hid1 & c & Hchild)]);
    split; cbn [sv_service sv_calls sv_opened sv_live sv_killed]; rewrite ?Hid1, ?Hsvc, ?Hsn, ?Htok; try done; try lia;
    try (by repeat split; auto).
  - by eapply tokens_inv_child.
  - eapply Forall_impl; [exact Hids|]. cbn. lia.
  - intros sub t Hin Ht'. apply list_elem_of_lookup in Hin as [i Hi].
    rewrite (proj2 (child_known _ _ _ _ t Hchild Hk (ti_known _ _ _ Ht i sub t Hi Ht'))).
    rewrite (proj2 (child_known _ _ _ _ _ Hchild Hk Hk)). apply Hcanc; [|done]. by eapply list_elem_of_lookup_2.
  - eapply Forall_impl; [exact Hkill|]. cbn. lia.
Qed.

(** The tokens after a subscription was opened. *)
Lemma open_tokens s svc opened sub s1 s' : tokens_inv s svc opened → child_token svc s = (sub_token sub, s1) →
  match sub_incoming_token sub with None => s' = s1 | Some d => child_token (sub_token sub) s1 = (d, s') end →
  tokens_inv s' svc (opened ++ [sub]) ∧
  (∀ u, token_known s u → token_known s' u ∧ is_cancelled u s' = is_cancelled u s) ∧
  ∀ t, t ∈ sub_tokens sub → is_cancelled t s' = is_cancelled svc s.
Proof.
  intros Hinv Hc Hd. pose proof (ti_service _ _ _ Hinv) as Hk.
  destruct (tokens_inv_client _ _ _ _ _ Hinv Hc) as (Hinv1 & Hkc & Hb & Hab & Hap).
  pose proof (λ u, child_known _ _ _ _ u Hc Hk) as Hold. destruct (child_fresh _ _ _ _ Hc Hk) as (_ & _ & Hcc).
  destruct (sub_incoming_token sub) as [d|] eqn:Hinc.
  - destruct (tokens_inv_incoming _ _ _ _ _ _ Hinv1 Hkc Hb Hab Hap Hd) as (Hinv2 & Hcd & Hab2 & Hapc & Hapd).
    pose proof (λ u, child_known _ _ _ _ u Hd Hkc) as Hold2. destruct (child_fresh _ _ _ _ Hd Hkc) as (_ & _ & Hdc).
    assert (sub_tokens sub = [sub_token sub; d]) as Hsub by (unfold sub_tokens; by rewrite Hinc).
    split; [|split].
    + apply tokens_inv_snoc; [done|by rewrite Hsub|done|]. intros i sub' Hi.
      destruct (Hapc i sub' Hi) as [Ha1 Ha2], (Hapd i sub' Hi) as [_ Ha3]. split; [done|].
      rewrite Hsub. intros t [->|[->|[]%not_elem_of_nil]%elem_of_cons]%elem_of_cons; done.
    + intros u Hu. destruct (Hold u Hu) as [Hu1 E1], (Hold2 u Hu1) as [Hu2 E2]. split; [done|congruence].
    + rewrite Hsub. intros t [->|[->|[]%not_elem_of_nil]%elem_of_cons]%elem_of_cons; [|congruence].
      rewrite (proj2 (Hold2 _ Hkc)). congruence.
  - subst s'. assert (sub_tokens sub = [sub_token sub]) as Hsub by (unfold sub_tokens; by rewrite Hinc).
    rewrite Hsub. split; [|split; [done|by intros t ->%list_elem_of_singleton]].
    apply tokens_inv_snoc; [done| |done|].
    + rewrite Hsub. intros t ->%list_elem_of_singleton. split; [done|]. split; [done|apply below_refl].
    + intros i sub' Hi. rewrite Hsub. destruct (Hap i sub' Hi) as [Ha1 Ha2]. split; [done|].
      by intros t ->%list_elem_of_singleton.
Qed.

Lemma server_inv_opened limit enforce s m r st sub :
  server_inv limit enforce s → calls_left s → run_method m (sv_service s) r = (st, Ok sub) →
  server_inv limit enforce (mkServer st (S (sv_calls s)) (sv_opened s ++ [sub]) (sub :: sv_live s) (sv_killed s)).
Proof.
  intros Hinv Hc (st1 & Hopen & Htr & Hid1 & Hsvc1 & Hsnap1 & Htok1)%run_method_ok.
  destruct (server_inv_open _ _ s Hinv Hc) as (Hlen & Hid & Hk).
  destruct Hinv as [Hp Ht Hid' Hids Hnd (Hl1&Hl2&Hl3) Hcanc Hkill Hsnap].
  pose proof (open_subscription_spec limit enforce _ r _ Hp Hlen Hid Hk) as Hspec. rewrite Hopen in Hspec.
  destruct Hspec as (Hsvc & Hsn & _ & _ & Hrun & _ & Hsid & Hnext & Hchild & Hp').
  assert (gs_cancellation_token st = gs_cancellation_token (sv_service s)) as Hsvc' by congruence.
  assert (gs_subscribe_id st = gs_subscribe_id (sv_service s) + 1) as Hnext' by congruence.
  destruct (open_tokens _ _ _ sub _ (gs_tokens st) Ht Hchild) as (Ht' & Hold & Hnew); [by destruct (sub_incoming_token sub)|].
  assert (sub ∉ sv_opened s) as Hfresh.
  { intros Hin. rewrite Forall_forall in Hids. specialize (Hids sub Hin). cbn in Hids. lia. }
  split; cbn [sv_service sv_calls sv_opened sv_live sv_killed]; rewrite ?Hsvc', ?Hnext'; try lia.
  - rewrite Htr. cbn. destruct (sub_permit sub); exact Hp'.
  - exact Ht'.
  - apply Forall_app. split; [eapply Forall_impl; [exact Hids|]; cbn; lia|]. apply Forall_singleton. lia.
  - rewrite fmap_app. apply NoDup_app. split; [done|]. split; [|apply NoDup_singleton].
    intros id Hin ->%list_elem_of_singleton. apply list_elem_of_fmap in Hin as (sub' & Heq & Hin).
    rewrite Forall_forall in Hids. specialize (Hids sub' Hin). cbn in Hids. lia.
  - split; [by apply NoDup_cons; auto|]. split; [|cbn; lia].
    intros sub' [->|Hin]%elem_of_cons; apply elem_of_app; [right; by left|left; auto].
  - intros sub' t Hin Hsub. rewrite (proj2 (Hold _ Hk)).
    apply elem_of_app in Hin as [Hin| ->%list_elem_of_singleton].
    + apply list_elem_of_lookup in Hin as Hi. destruct Hi as [i Hi].
      rewrite (proj2 (Hold t (ti_known _ _ _ Ht i sub' t Hi Hsub))), Hcanc by done.
      rewrite not_elem_of_cons. assert (sub' ≠ sub) by (by intros ->). tauto.
    + rewrite Hnew, Hrun by done. split; [done|]. intros [?|[Hn|Hkd]]; [done|by destruct Hn; left|].
      rewrite Forall_forall in Hkill. specialize (Hkill _ Hkd). cbn in Hkill. lia.
  - eapply Forall_impl; [exact Hkill|]. cbn. lia.
  - rewrite omap_app, length_app. cbn. fold (has_snapshot (gs_snapshot_rx st)).
    rewrite <- Hsn in Hsnap. fold (has_snapshot (gs_snapshot_rx st1)) in Hsnap.
    destruct (sub_snapshot sub); cbn in *; lia.
Qed.

Lemma server_inv_kill limit enforce s sub : server_inv limit enforce s → sub ∈ sv_opened s →
  server_inv limit enforce
    (mkServer (gs_with_tokens (sv_service s) (cancel (sub_token sub) (gs_tokens (sv_service s))))
       (sv_calls s) (sv_opened s) (sv_live s) (sub_id sub :: sv_killed s)).
Proof.
  intros [Hp Ht Hid Hids Hnd Hl Hcanc Hkill Hsnap] Hin. apply list_elem_of_lookup in Hin as [i Hi].
  split; cbn [sv_service sv_calls sv_opened sv_live sv_killed gs_with_tokens gs_subscription_tracker gs_tokens
    gs_cancellation_token gs_subscribe_id gs_snapshot_rx]; try done.
  - by apply tokens_inv_cancel.
  - intros sub' t Hin' Hsub. apply list_elem_of_lookup in Hin' as [j Hj].
    pose proof (ti_service _ _ _ Ht) as Hk. pose proof (ti_known _ _ _ Ht i sub _ Hi (sub_token_in sub)) as Hks.
    rewrite is_cancelled_cancel by (done || by eapply ti_known).
    rewrite (cancel_other _ (sub_token sub)) by (done || by eapply ti_above).
    rewrite (ti_apart _ _ _ Ht j i sub' sub t Hj Hi Hsub), Hcanc, elem_of_cons by (done || by eapply list_elem_of_lookup_2).
    assert (j = i ↔ sub_id sub' = sub_id sub) as ->; [|tauto].
    split; [intros ->; congruence|]. intros Heq. eapply (NoDup_lookup (sub_id <$> sv_opened s)); [done|..];
      rewrite list_lookup_fmap; [by rewrite Hj|by rewrite Hi; cbn; f_equal].
  - apply Forall_cons. split; [|done]. rewrite Forall_forall in Hids. apply Hids. by eapply list_elem_of_lookup_2.
Qed.

Lemma server_inv_shutdown limit enforce s : server_inv limit enforce s →
  server_inv limit enforce
    (mkServer (gs_with_tokens (sv_service s) (cancel (gs_cancellation_token (sv_service s)) (gs_tokens (sv_service s))))
       (sv_calls s) (sv_opened s) (sv_live s) (sv_killed s)).
Proof.
  intros [Hp Ht Hid Hids Hnd Hl Hcanc Hkill Hsnap].
  split; cbn [sv_service sv_calls sv_opened sv_live sv_killed gs_with_tokens gs_subscription_tracker gs_tokens
    gs_cancellation_token gs_subscribe_id gs_snapshot_rx]; try done.
  - by apply tokens_inv_cancel.
  - intros sub' t Hin' Hsub. apply list_elem_of_lookup in Hin' as [j Hj]. pose proof (ti_service _ _ _ Ht) as Hk.
    rewrite (cancel_self _ _ Hk), is_cancelled_cancel by (done || by eapply ti_known).
    split; [by left|]. intros _. right. by eapply ti_below.
Qed.

Lemma server_inv_drop limit enforce s live1 sub live2 : server_inv limit enforce s → sv_live s = live1 ++ sub :: live2 →
  server_inv limit enforce (mkServer (session_drop (sv_service s) sub) (sv_calls s) (sv_opened s) (live1 ++ live2) (sv_killed s)).
Proof.
  intros [Hp Ht Hid Hids Hnd (Hl1&Hl2&Hl3) Hcanc Hkill Hsnap] Hlive. rewrite Hlive in Hp, Hl1, Hl3.
  assert (live1 ++ sub :: live2 ≡ₚ sub :: live1 ++ live2) as Hperm by (by rewrite Permutation_middle).
  assert (sub ∈ sv_opened s) as Hin by (apply Hl2; rewrite Hlive; set_solver).
  apply list_elem_of_lookup in Hin as [i Hi]. rewrite Hperm in Hl1. apply NoDup_cons in Hl1 as [Hnot Hl1].
  split; cbn [sv_service sv_calls sv_opened sv_live sv_killed session_drop gs_with_tokens gs_with_tracker
    gs_subscription_tracker gs_tokens gs_cancellation_token gs_subscribe_id gs_snapshot_rx]; try done.
  - unfold permit_drop. assert (omap sub_permit (live1 ++ sub :: live2) ≡ₚ
      option_list (sub_permit sub) ++ omap sub_permit (live1 ++ live2)) as Hpp.
    { rewrite Hperm. cbn. by destruct (sub_permit sub). }
    destruct (sub_permit sub) as [key|] eqn:Hkey; [by eapply permits_drop|].
    assert (omap sub_permit (live1 ++ live2) = omap sub_permit (live1 ++ sub :: live2)) as ->; [|done].
    rewrite !omap_app. cbn. by rewrite Hkey.
  - by apply tokens_inv_cancel.
  - split; [done|]. split; [|rewrite length_app in *; cbn in Hl3; lia]. intros sub' Hin. apply Hl2. rewrite Hlive. set_solver.
  - intros sub' t Hin' Hsub. apply list_elem_of_lookup in Hin' as [j Hj].
    pose proof (ti_service _ _ _ Ht) as Hk. pose proof (ti_known _ _ _ Ht i sub _ Hi (sub_token_in sub)) as Hks.
    rewrite is_cancelled_cancel by (done || by eapply ti_known).
    rewrite (cancel_other _ (sub_token sub)) by (done || by eapply ti_above).
    rewrite (ti_apart _ _ _ Ht j i sub' sub t Hj Hi Hsub), Hcanc by (done || by eapply list_elem_of_lookup_2).
    rewrite Hlive, Hperm, not_elem_of_cons. destruct (decide (j = i)) as [->|Hne].
    + assert (sub' = sub) as -> by congruence. tauto.
    + assert (sub' ≠ sub); [|tauto]. intros ->. apply Hne. eapply (NoDup_lookup (sub_id <$> sv_opened s)); [done|..];
        rewrite list_lookup_fmap; [by rewrite Hj|by rewrite Hi].
Qed.

Lemma server_inv_step limit enforce s s' :
  server_inv limit enforce s → calls_left s → server_step s s' → server_inv limit enforce s'.
Proof.
  intros Hinv Hc Hstep.
  destruct Hstep as [s0 m r st sub Hrun|s0 m r st e Hrun|s0 live1 sub live2 Hlive|s0 sub Hin|s0].
  - by apply (server_inv_opened _ _ _ m r).
  - by apply (server_inv_refused _ _ _ m r _ e).
  - by apply server_inv_drop.
  - by apply server_inv_kill.
  - by apply server_inv_shutdown.
Qed.

Definition Server_new (limit : Z) (enforce : bool) (snapshot : option Snapshot) (s : tokens) (svc : token)
    (capacity snapshot_capacity : Z) : Server :=
  mkServer (mkGrpcService (SubscriptionTracker_new limit enforce) 0 snapshot s svc capacity snapshot_capacity) 0 [] [] [].

Lemma server_step_calls s s' : server_step s s' → (sv_calls s <= sv_calls s')%nat.
Proof. intros []; cbn; lia. Qed.

Lemma server_inv_reach limit enforce snapshot s0 svc capacity snapshot_capacity s :
  token_known s0 svc → rtc server_step (Server_new limit enforce snapshot s0 svc capacity snapshot_capacity) s →
  calls_left s → server_inv limit enforce s.
Proof.
  intros Hk Hsteps. refine (rtc_ind_r (λ s, calls_left s → server_inv limit enforce s) _ _ _ s Hsteps).
  - intros _. split; cbn [Server_new sv_service sv_calls sv_opened sv_live sv_killed gs_subscription_tracker gs_tokens
      gs_cancellation_token gs_subscribe_id gs_snapshot_rx omap list_omap length]; try lia; try (by constructor).
    + split; [by constructor|]. split; [|lia]. by intros sub Hin.
    + intros sub t Hin. by apply not_elem_of_nil in Hin.
    + destruct snapshot; lia.
  - intros x y _ Hstep IH Hy. apply server_step_calls in Hstep as Hle. unfold calls_left in *.
    eapply server_inv_step; [apply IH; lia| |exact Hstep]. unfold calls_left. lia.
Qed.

(** C15. The subscriptions of a server, under every interleaving of calls of the
    three methods, sessions that end, clients found dead and the shutdown: ids
    are never given twice; the counter of every subscriber is the number of its
    live sessions; the startup snapshot is given to at most one; and the tokens
    of a subscription, hence its tasks, are cancelled exactly when the service
    is shut down, its own session has ended or its own client was found dead:
    never because of another subscription. *)
Theorem subscriptions_isolated limit enforce snapshot s0 svc capacity snapshot_capacity s :
  0 < limit → token_known s0 svc →
  rtc server_step (Server_new limit enforce snapshot s0 svc capacity snapshot_capacity) s → calls_left s →
  NoDup (sub_id <$> sv_opened s) ∧
  (∀ key, str_counters (gs_subscription_tracker (sv_service s)) !! key = counter_of key (omap sub_permit (sv_live s))) ∧
  (enforce = true → ∀ key, Z.of_nat (occurrences key (omap sub_permit (sv_live s))) <= limit) ∧
  (length (omap sub_snapshot (sv_opened s)) <= 1)%nat ∧
  ∀ sub t, sub ∈ sv_opened s → t ∈ sub_tokens sub →
    is_cancelled t (gs_tokens (sv_service s)) = true ↔
    is_cancelled (gs_cancellation_token (sv_service s)) (gs_tokens (sv_service s)) = true ∨
    sub ∉ sv_live s ∨ sub_id sub ∈ sv_killed s.
Proof.
  intros Hl Hk Hsteps Hc. pose proof (server_inv_reach _ _ _ _ _ _ _ _ Hk Hsteps Hc) as Hinv.
  destruct (server_inv_open _ _ _ Hinv Hc) as (Hlen & _ & _).
  destruct Hinv as [Hp Ht Hid Hids Hnd _ Hcanc _ Hsnap].
  destruct (permits_inv_reachable _ _ _ _ Hl Hp) as [[_ _ Hcount Hmax] _].
  split; [done|]. split; [done|]. split; [done|]. split; [lia|done].
Qed.

(** C16. A subscription is refused exactly when its subscriber holds as many live
    ones as an enforced limit allows, or the server is shutting down; a refusal
    leaves the counters and the snapshot as they are. *)
Theorem subscription_admission limit enforce snapshot s0 svc capacity snapshot_capacity s m r :
  0 < limit → token_known s0 svc →
  rtc server_step (Server_new limit enforce snapshot s0 svc capacity snapshot_capacity) s → calls_left s →
  let st := sv_service s in
  let over := match request_subscriber_id r with
              | Some id => enforce = true ∧ Z.of_nat (occurrences id (omap sub_permit (sv_live s))) = limit
              | None => False
              end in
  let shutdown := is_cancelled (gs_cancellation_token st) (gs_tokens st) = true in
  match run_method m st r with
  | (st', Ok sub) =>
      ¬ over ∧ ¬ shutdown ∧ sub_permit sub = request_subscriber_id r ∧
      (m = MethodSubscribe → is_Some (headers_get (gr_metadata r) "x-request-snapshot") → sub_snapshot sub = gs_snapshot_rx st)
  | (st', Err e) =>
      gs_snapshot_rx st' = gs_snapshot_rx st ∧
      (∀ key, str_counters (gs_subscription_tracker st') !! key = str_counters (gs_subscription_tracker st) !! key) ∧
      ((over ∧ e = StatusResourceExhausted "max subscription limit exceeded") ∨
       (¬ over ∧ shutdown ∧ e = StatusUnavailable "server is shutting down"))
  end.
Proof.
  intros Hl Hk Hsteps Hc st over shutdown. pose proof (server_inv_reach _ _ _ _ _ _ _ _ Hk Hsteps Hc) as Hinv.
  destruct (server_inv_open _ _ _ Hinv Hc) as (Hlen & Hid & Hks). destruct Hinv as [Hp _ _ _ _ _ _ _ _].
  assert (over ↔ ∃ t' e, subscription_permit (gs_subscription_tracker st) (request_subscriber_id r) = (t', Err e)) as Hover.
  { subst over. destruct (request_subscriber_id r) as [id|]; [|split; [done|by intros (?&?&[=])]].
    symmetry. by apply (permit_refused_iff limit enforce _ _ id). }
  pose proof (open_subscription_spec limit enforce st r _ Hp Hlen Hid Hks) as Hspec.
  destruct (run_method m st r) as [st' [sub|e]] eqn:Hrun.
  - pose proof Hrun as (st1 & Hopen & _)%run_method_ok. rewrite Hopen in Hspec.
    destruct Hspec as (_ & Hsnap & _ & _ & Hns & Hperm & _). rewrite Hover. unfold shutdown.
    split; [|split; [by rewrite Hns|split; [done|]]].
    + intros (t' & e & He). unfold open_subscription in Hopen. by rewrite He in Hopen.
    + intros -> Hreq. cbn in Hrun. unfold subscribe in Hrun. rewrite Hopen in Hrun. rewrite bool_decide_eq_true_2 in Hrun by done.
      destruct (child_token _ _) in Hrun. by injection Hrun as <- <-.
  - apply run_method_err in Hrun. rewrite Hrun in Hspec. destruct Hspec as (_ & Hsnap & _ & _ & Hp' & _).
    split; [done|]. destruct (permits_inv_reachable _ _ _ _ Hl Hp) as [[_ _ Hcount _] _].
    destruct (permits_inv_reachable _ _ _ _ Hl Hp') as [[_ _ Hcount' _] _].
    split; [intros key; by rewrite Hcount, Hcount'|]. rewrite Hover. unfold open_subscription in Hrun.
    destruct (subscription_permit _ _) as [tr [permit|e']] eqn:Hsp.
    + right. split; [by intros (?&?&[=])|]. cbn in Hrun. destruct (child_token _ _) as [c s1] eqn:Hch.
      destruct (child_fresh _ _ _ _ Hch Hks) as (_ & _ & Hcc). cbn in Hrun. rewrite Hcc in Hrun. unfold shutdown.
      destruct (is_cancelled _ _); [|done]. by injection Hrun.
    + left. injection Hrun as <- <-. split; [by eexists _, _|]. unfold subscription_permit in Hsp.
      repeat case_match; by simplify_eq.
Qed.

(** The tokens the tasks of a subscription start with. *)
Lemma open_subscription_token st r st' permit id c : open_subscription st r = (st', Ok (permit, id, c)) →
  child_token (gs_cancellation_token st) (gs_tokens st) = (c, gs_tokens st').
Proof.
  unfold open_subscription. destruct (subscription_permit _ _) as [tr [p|e]]; [|done]. cbn.
  destruct (child_token _ _) as [c1 s1]. cbn. destruct (is_cancelled c1 s1); [done|]. by intros [= <- <- <- <-].
Qed.

Lemma subscription_tokens m st r st' sub d : token_known (gs_tokens st) (gs_cancellation_token st) →
  run_method m st r = (st', Ok sub) → sub_incoming_token sub = Some d →
  token_known (gs_tokens st') (sub_token sub) ∧ token_known (gs_tokens st') d ∧
  below (gs_tokens st') d (sub_token sub) ∧ is_cancelled d (gs_tokens st') = is_cancelled (sub_token sub) (gs_tokens st').
Proof.
  intros Hk (st1 & Hopen%open_subscription_token & _ & _ & _ & _ & Hd)%run_method_ok Hinc. rewrite Hinc in Hd.
  destruct (child_fresh _ _ _ _ Hopen Hk) as (Hkc & _ & _). destruct (child_fresh _ _ _ _ Hd Hkc) as (Hkd & _ & Hcd).
  destruct (child_known _ _ _ _ _ Hd Hkc Hkc) as [Hkc' Hcc]. split; [done|]. split; [done|].
  split; [by apply (child_token_below _ _ _ _ Hd)|congruence].
Qed.
End sessions.

(** ** The deshred session has another name *)

Section deshred_name.
Context {H : Http} {T : CancellationTokens} {Snapshot : Type}.

(** The permit of a deshred subscription is the one of the authenticated
    subscriber, but its session is named after the headers and the address. *)
Lemma deshred_session_name (st st' : GrpcService (Snapshot := Snapshot)) r sub info :
  subscribe_deshred st r = (st', Ok sub) → gr_subscription_info r = Some info →
  sub_permit sub = Some (si_subscription_id info) ∧
  sub_subscriber_id sub = default "UNKNOWN"%string (peer_subscriber_id r).
Proof.
  intros Hrun Hinfo. pose proof Hrun as (st1 & Hopen & _)%(run_method_ok MethodSubscribeDeshred).
  unfold subscribe_deshred in Hrun. rewrite Hopen in Hrun. destruct (child_token _ _) in Hrun.
  injection Hrun as _ <-. cbn. split; [|done]. unfold open_subscription, request_subscriber_id in Hopen. rewrite Hinfo in Hopen.
  unfold subscription_permit, try_insert in Hopen. repeat case_match; by simplify_eq.
Qed.
End deshred_name.

(** ** A server *)

Section witnesses.
#[local] Existing Instances demo_http tree_tokens tree_tokens_laws.

Definition demo_call (id : string) (snapshot : bool) : GrpcRequest :=
  mkGrpcRequest (Some (mkSubscriptionInfo id None)) (if snapshot then [("x-request-snapshot", "1")] else [])%string (Some "10.0.0.1"%string).

Definition demo_start : Server (Snapshot := string) := Server_new 1 true (Some "snapshot"%string) tokens_new.2 tokens_new.1 10 100.

(** The server after a call. *)
Definition demo_run (s : Server (Snapshot := string)) (m : Method) (r : GrpcRequest) : Server :=
  match run_method m (sv_service s) r with
  | (st, Ok sub) => mkServer st (S (sv_calls s)) (sv_opened s ++ [sub]) (sub :: sv_live s) (sv_killed s)
  | (st, Err _) => mkServer st (S (sv_calls s)) (sv_opened s) (sv_live s) (sv_killed s)
  end.

Lemma demo_run_step s m r : server_step s (demo_run s m r).
Proof. unfold demo_run. destruct (run_method m (sv_service s) r) as [st [sub|e]] eqn:E; econstructor; exact E. Qed.

(** Two subscribers ask for the snapshot, the first calls again, and its session ends. *)
Definition demo_server1 : Server := demo_run demo_start MethodSubscribe (demo_call "a" true).
Definition demo_server2 : Server := demo_run demo_server1 MethodSubscribeDeshred (demo_call "b" true).
Definition demo_server3 : Server := demo_run demo_server2 MethodSubscribeGossip (demo_call "a" false).
Definition demo_first : Subscription (Snapshot := string) := mkSubscription 0 "a" "" (Some "a"%string) [0%nat] (Some [1; 0])%nat 100 (Some "snapshot"%string).
Definition demo_second : Subscription (Snapshot := string) := mkSubscription 1 "10.0.0.1" "" (Some "b"%string) [2%nat] (Some [3; 2])%nat 10 None.

Lemma demo_server3_live : sv_live demo_server3 = [demo_second; demo_first] ∧ sv_opened demo_server3 = [demo_first; demo_second].
Proof. by vm_compute. Qed.

Definition demo_server4 : Server :=
  mkServer (session_drop (sv_service demo_server3) demo_first) (sv_calls demo_server3) (sv_opened demo_server3)
    [demo_second] (sv_killed demo_server3).

Lemma demo_server3_steps : rtc server_step demo_start demo_server3.
Proof.
  eapply rtc_l; [apply (demo_run_step demo_start)|]. eapply rtc_l; [apply (demo_run_step demo_server1)|].
  eapply rtc_l; [apply (demo_run_step demo_server2)|]. apply rtc_refl.
Qed.

Lemma demo_server4_steps : rtc server_step demo_start demo_server4.
Proof.
  eapply rtc_r; [apply demo_server3_steps|]. apply (server_session_drop demo_server3 [demo_second] demo_first []).
  apply demo_server3_live.
Qed.

Lemma demo_server4_facts :
  sv_opened demo_server4 = [demo_first; demo_second] ∧ sv_live demo_server4 = [demo_second] ∧ sv_killed demo_server4 = [] ∧
  is_cancelled (gs_cancellation_token (sv_service demo_server4)) (gs_tokens (sv_service demo_server4)) = false ∧
  calls_left demo_server4.
Proof. by vm_compute. Qed.

Lemma demo_server3_facts :
  calls_left demo_server3 ∧ request_subscriber_id (demo_call "a" false) = Some "a"%string ∧
  Z.of_nat (occurrences "a" (omap sub_permit (sv_live demo_server3))) = 1 ∧
  is_cancelled (gs_cancellation_token (sv_service demo_server3)) (gs_tokens (sv_service demo_server3)) = false.
Proof. by vm_compute. Qed.

(** The end of the first cancels its tokens and not those of the second. *)
Lemma subscriptions_isolated_witness :
  NoDup (sub_id <$> sv_opened demo_server4) ∧
  is_cancelled [1; 0]%nat (gs_tokens (sv_service demo_server4)) = true ∧
  is_cancelled [3; 2]%nat (gs_tokens (sv_service demo_server4)) ≠ true.
Proof.
  destruct demo_server4_facts as (Hopened & Hlive & Hkilled & Hsvc & Hcalls).
  destruct (subscriptions_isolated 1 true (Some "snapshot"%string) tokens_new.2 tokens_new.1 10 100 demo_server4)
    as (Hids & _ & _ & _ & Htok); [reflexivity|apply new_known|exact demo_server4_steps|exact Hcalls|].
  split; [exact Hids|]. rewrite Hopened, Hlive, Hkilled, Hsvc in Htok. split.
  - apply (Htok demo_first [1; 0]%nat); [by left|right; by left|].
    right. left. intros Hin%list_elem_of_singleton. discriminate Hin.
  - rewrite (Htok demo_second [3; 2]%nat); [|right; by left|right; by left].
    intros [Hc|[Hn|Hk]]; [discriminate Hc|by destruct Hn; left|by apply not_elem_of_nil in Hk].
Defined.

Lemma subscription_admission_witness :
  ∃ st, run_method MethodSubscribe (sv_service demo_server3) (demo_call "a" false)
    = (st, Err (StatusResourceExhausted "max subscription limit exceeded")).
Proof.
  destruct demo_server3_facts as (Hcalls & Hid & Hocc & Hsvc).
  pose proof (subscription_admission 1 true (Some "snapshot"%string) tokens_new.2 tokens_new.1 10 100 demo_server3
    MethodSubscribe (demo_call "a" false) eq_refl new_known demo_server3_steps Hcalls) as Hspec.
  cbv zeta in Hspec. rewrite Hid, Hocc, Hsvc in Hspec.
  destruct (run_method _ _ _) as [st [sub|e]].
  - destruct Hspec as [Hover _]. destruct Hover. by split.
  - exists st. destruct Hspec as (_ & _ & [[_ ->]|[Hover _]]); [done|]. destruct Hover. by split.
Defined.
End witnesses.
