(* ===== verification/Tasks.v ===== *)
(** * grpc.rs: the tasks of a subscription

    A subscription is three tasks over one bounded outgoing channel: the ping
    task, the task that reads requests, and the client loop, which owns the
    session. They stop each other through the client token, the channel of
    requests and the drop of the session. Here they run side by side, one select
    branch or one item sent a step: a [send(..).await] on a full channel is a
    state of its task, which it leaves when the client receives an item or drops
    its receiver, and in which it does not look at its token. The turns are those
    of Subscribe.v, ClientLoop.v and DeshredLoop.v. A turn without an await runs
    between two receptions of the client. *)

From S2P Require Import Prelude Proto Channels Tokens Message Limits Names Externals FilterBase Updates SimpleFilters Filter Service Auth FromGeyser ReconstructionLoop Sessions ClientLoop Subscribe DeshredLoop.

Set Default Goal Selector "!".

(** Who makes a step: a task of the subscription, the client (which sends
    requests, receives items or drops its receiver), the reconstruction loop,
    or whoever cancels a token. *)
Inductive Actor := ActTask | ActClientSends | ActClientReceives | ActClientDrops | ActReconstruction | ActCancels.

(** ** Client loops *)

(** A loop over the outgoing channel, between two of its awaits: its outgoing
    items; its [disconnect_reason], set when it has returned; the select branch
    of its token and the one of its requests; what else it does ([bool]: its
    token is cancelled); the answer it waits for. *)
Class LoopTask (U Q C : Type) := {
  loop_out : C → list (result TonicStatus U);
  loop_set_out : C → list (result TonicStatus U) → C;
  loop_reason : C → option string;
  loop_cancelled : (nat → TrySend) → C → C → Prop;
  loop_request : (nat → TrySend) → C → list (option Q) → bool → outcome C → list (option Q) → Prop;
  loop_turn : (nat → TrySend) → bool → C → outcome C → Prop;
  loop_answer : (nat → TrySend) → C → outcome C → Prop
}.

(** It has returned, or its task has panicked. *)
Definition loop_over {U Q C} `{LoopTask U Q C} (r : outcome C) : Prop :=
  match r with Done c => loop_reason c ≠ None | Panic => True end.

(** What a loop promises about its end. [loop_work] counts the items and
    messages between it and its next select; it waits for the answer of the
    reconstruction loop if it is [loop_asking]; a loop that is [loop_listening]
    looks at its requests at its next select. *)
Class LoopTaskLaws (U Q C : Type) `{LoopTask U Q C} := {
  loop_work : C → nat;
  loop_asking : C → bool;
  loop_listening : C → Prop;
  loop_out_set c out : loop_out (loop_set_out c out) = out;
  loop_work_set c out : loop_work (loop_set_out c out) = loop_work c;
  loop_asking_set c out : loop_asking (loop_set_out c out) = loop_asking c;
  loop_listening_set c out : loop_listening c → loop_listening (loop_set_out c out);
  (** At a select the cancellation can be taken, ends the loop and sends at most
      an item there is room for. *)
  loop_cancelled_ends tx c : loop_work c = 0%nat → ∃ c', loop_cancelled tx c c' ∧ loop_reason c' ≠ None ∧
    (loop_out c' = loop_out c ∨ (tx (length (loop_out c)) = TxOk ∧ ∃ i, loop_out c' = loop_out c ++ [i]));
  (** A loop that listens ends when the reading task is gone. *)
  loop_disconnected_ends tx c queue : loop_work c = 0%nat → loop_listening c →
    ∃ r queue', loop_request tx c queue true r queue' ∧ loop_over r ∧
      match r with Done c' => loop_out c' = loop_out c | Panic => True end;
  (** Before it, the loop gets on if its next item is not blocked. *)
  loop_turn_progress tx cancelled c : loop_work c ≠ 0%nat → loop_asking c = false → tx (length (loop_out c)) ≠ TxFull →
    ∃ r, loop_turn tx cancelled c r ∧
      (loop_over r ∨ ∃ c', r = Done c' ∧ (loop_work c' < loop_work c)%nat ∧ (loop_listening c → loop_listening c'));
  (** The reconstruction loop can always drop the request, which ends the loop. *)
  loop_answer_ends tx c : loop_asking c = true → ∃ r, loop_answer tx c r ∧ loop_over r
}.

Section tasks.
Context {T : CancellationTokens} {R U Q C : Type} {L : LoopTask U Q C}.
Abbreviation item := (result TonicStatus U).

(** The reading task's turn ([incoming_turn] with its filters and limits), the
    ping; the capacity of the channel; the two tokens. *)
Context (turn : bool → Z → Timestamp → (nat → nat) → IncomingTask U Q → Incoming R → outcome (IncomingTask U Q * option (IncomingSend (U := U))))
  (ping : Timestamp → U) (capacity : nat) (client_token incoming_token : token).

(** The ping task: waiting for its tick or its token, in a [send], or over. *)
Inductive PingTask :=
| PingWaiting
| PingSending (msg : U)
| PingEnded.

Record Tasks := mkTasks {
  tk_tokens : tokens;
  (** all items sent, and how many of them the client has received *)
  tk_out : list item;
  tk_received : nat;
  (** the client still holds the response stream *)
  tk_receiver : bool;
  tk_ping : PingTask;
  tk_incoming : IncomingTask U Q;
  (** the [send] the reading task is in *)
  tk_incoming_send : option (IncomingSend (U := U));
  (** [None]: the loop has returned and dropped its session *)
  tk_loop : option C;
  (** the tasks spawned to deliver a last error, by it *)
  tk_spawned : list item
}.

(** Room in the channel for the n-th item. *)
Definition tk_tx (s : Tasks) (n : nat) : TrySend :=
  if tk_receiver s then if Nat.ltb n (tk_received s + capacity) then TxOk else TxFull else TxClosed.

(** Whether the next item can be sent. *)
Definition next_tx (s : Tasks) : TrySend := tk_tx s (length (tk_out s)).

Definition with_tokens (s : Tasks) (ts : tokens) : Tasks :=
  mkTasks ts (tk_out s) (tk_received s) (tk_receiver s) (tk_ping s) (tk_incoming s) (tk_incoming_send s) (tk_loop s) (tk_spawned s).
Definition with_out (s : Tasks) (out : list item) : Tasks :=
  mkTasks (tk_tokens s) out (tk_received s) (tk_receiver s) (tk_ping s) (tk_incoming s) (tk_incoming_send s) (tk_loop s) (tk_spawned s).
Definition with_client (s : Tasks) (received : nat) (receiver : bool) : Tasks :=
  mkTasks (tk_tokens s) (tk_out s) received receiver (tk_ping s) (tk_incoming s) (tk_incoming_send s) (tk_loop s) (tk_spawned s).
Definition with_ping (s : Tasks) (p : PingTask) : Tasks :=
  mkTasks (tk_tokens s) (tk_out s) (tk_received s) (tk_receiver s) p (tk_incoming s) (tk_incoming_send s) (tk_loop s) (tk_spawned s).
Definition with_incoming (s : Tasks) (t : IncomingTask U Q) (send : option IncomingSend) : Tasks :=
  mkTasks (tk_tokens s) (tk_out s) (tk_received s) (tk_receiver s) (tk_ping s) t send (tk_loop s) (tk_spawned s).
Definition with_loop (s : Tasks) (c : option C) : Tasks :=
  mkTasks (tk_tokens s) (tk_out s) (tk_received s) (tk_receiver s) (tk_ping s) (tk_incoming s) (tk_incoming_send s) c (tk_spawned s).
Definition with_spawned (s : Tasks) (spawned : list item) : Tasks :=
  mkTasks (tk_tokens s) (tk_out s) (tk_received s) (tk_receiver s) (tk_ping s) (tk_incoming s) (tk_incoming_send s) (tk_loop s) spawned.

Definition shared_out (t : IncomingTask U Q) (out : list item) : IncomingTask U Q :=
  mkIncomingTask (it_names t) out (it_queue t) (it_state t).

Definition set_queue (t : IncomingTask U Q) (queue : list (option Q)) : IncomingTask U Q :=
  mkIncomingTask (it_names t) (it_out t) queue (it_state t).

Definition incoming_ended (t : IncomingTask U Q) : bool := match it_state t with TaskEnded => true | _ => false end.

Definition client_alive (s : Tasks) : bool := bool_decide (is_Some (tk_loop s)).

(** A turn of the reading task, up to its send; a panic ends it like a return. *)
Definition run_incoming (s : Tasks) (clock : Z) (now : Timestamp) (strong_count : nat → nat) (message : Incoming R) : Tasks :=
  match turn (client_alive s) clock now strong_count (tk_incoming s) message with
  | Done (t, send) => with_incoming s t send
  | Panic => with_incoming s (task_end (tk_incoming s)) None
  end.

(** Its send. *)
Definition send_incoming (s : Tasks) (send : IncomingSend) : Tasks :=
  let t := incoming_sent (tk_tx s) (client_alive s) (shared_out (tk_incoming s) (tk_out s)) send in
  with_out (with_incoming s t None) (it_out t).

(** A last error is in the channel if there is room, and otherwise with the
    task spawned for it. *)
Definition loop_sent (s : Tasks) (out : list item) : Tasks :=
  with_spawned (with_out s (take (tk_received s + capacity) out)) (tk_spawned s ++ drop (tk_received s + capacity) out).

(** What is left of a branch of the client loop: it goes on, or it has returned
    or panicked and the session is dropped, which cancels the client token. *)
Definition run_loop (s : Tasks) (r : outcome C) (queue : list (option Q)) : Tasks :=
  let s := with_incoming s (set_queue (tk_incoming s) queue) (tk_incoming_send s) in
  match r with
  | Done c =>
      let s := loop_sent s (loop_out c) in
      match loop_reason c with
      | None => with_loop s (Some c)
      | Some _ => with_tokens (with_loop s None) (cancel client_token (tk_tokens s))
      end
  | Panic => with_tokens (with_loop s None) (cancel client_token (tk_tokens s))
  end.

(** The client loop, with the channel as it is now. *)
Definition loop_now (s : Tasks) (c : C) : C := loop_set_out c (tk_out s).

Definition client_cancelled (s : Tasks) : bool := is_cancelled client_token (tk_tokens s).

Context {TL : CancellationTokensLaws}.

Inductive task_step : Actor → Tasks → Tasks → Prop :=
| task_receives s :
    tk_receiver s = true → (tk_received s < length (tk_out s))%nat →
    task_step ActClientReceives s (with_client s (S (tk_received s)) true)
| task_receiver_gone s : task_step ActClientDrops s (with_client s (tk_received s) false)
| task_cancel_elsewhere s t :
    token_known (tk_tokens s) t → task_step ActCancels s (with_tokens s (cancel t (tk_tokens s)))
| task_ping_tick s now :
    tk_ping s = PingWaiting → task_step ActTask s (with_ping s (PingSending (ping now)))
| task_ping_sent s msg :
    tk_ping s = PingSending msg → next_tx s = TxOk →
    task_step ActTask s (with_ping (with_out s (tk_out s ++ [Ok msg])) PingWaiting)
| task_ping_dead s msg :
    tk_ping s = PingSending msg → next_tx s = TxClosed →
    task_step ActTask s (with_ping (with_tokens s (cancel client_token (tk_tokens s))) PingEnded)
| task_ping_cancelled s :
    tk_ping s = PingWaiting → client_cancelled s = true → task_step ActTask s (with_ping s PingEnded)
| task_incoming s clock now strong_count message :
    it_state (tk_incoming s) = TaskReading → tk_incoming_send s = None →
    task_step ActClientSends s (run_incoming s clock now strong_count message)
| task_incoming_sent s send :
    tk_incoming_send s = Some send → next_tx s ≠ TxFull → task_step ActTask s (send_incoming s send)
| task_incoming_cancelled s :
    incoming_ended (tk_incoming s) = false → tk_incoming_send s = None → is_cancelled incoming_token (tk_tokens s) = true →
    task_step ActTask s (with_incoming s (task_end (tk_incoming s)) None)
| task_loop_cancelled s c c' :
    tk_loop s = Some c → client_cancelled s = true → loop_cancelled (tk_tx s) (loop_now s c) c' →
    task_step ActTask s (run_loop s (Done c') (it_queue (tk_incoming s)))
| task_loop_request s c r queue :
    tk_loop s = Some c →
    loop_request (tk_tx s) (loop_now s c) (it_queue (tk_incoming s)) (incoming_ended (tk_incoming s)) r queue →
    task_step ActTask s (run_loop s r queue)
| task_loop_turn s c r :
    tk_loop s = Some c → loop_turn (tk_tx s) (client_cancelled s) (loop_now s c) r →
    task_step ActTask s (run_loop s r (it_queue (tk_incoming s)))
| task_loop_answer s c r :
    tk_loop s = Some c → loop_answer (tk_tx s) (loop_now s c) r →
    task_step ActReconstruction s (run_loop s r (it_queue (tk_incoming s)))
| task_spawned_sent s i spawned :
    tk_spawned s = i :: spawned → next_tx s = TxOk →
    task_step ActTask s (with_spawned (with_out s (tk_out s ++ [i])) spawned)
| task_spawned_closed s i spawned :
    tk_spawned s = i :: spawned → next_tx s = TxClosed → task_step ActTask s (with_spawned s spawned).

(** The steps of some actors, and of any. *)
Definition acting (p : Actor → Prop) (s s' : Tasks) : Prop := ∃ a, p a ∧ task_step a s s'.
Definition any_step : Tasks → Tasks → Prop := acting (λ _, True).
Definition own_step : Tasks → Tasks → Prop := task_step ActTask.

Definition Tasks_new (s : tokens) (names : FilterNames) (c : C) : Tasks :=
  mkTasks s [] 0 true PingWaiting (mkIncomingTask names [] [] TaskReading) None (Some c) [].

(** No task is left. *)
Definition all_ended (s : Tasks) : Prop :=
  tk_ping s = PingEnded ∧ incoming_ended (tk_incoming s) = true ∧ tk_incoming_send s = None ∧ tk_loop s = None ∧ tk_spawned s = [].

(** ** The invariant *)

Record tasks_inv (s : Tasks) : Prop := {
  tv_client : token_known (tk_tokens s) client_token;
  tv_incoming : token_known (tk_tokens s) incoming_token;
  tv_below : below (tk_tokens s) incoming_token client_token;
  tv_ping : tk_ping s = PingEnded → client_cancelled s = true;
  tv_loop : tk_loop s = None → client_cancelled s = true;
  tv_cancelled : client_cancelled s = true → is_cancelled incoming_token (tk_tokens s) = true;
  (** the channel holds no more than it has room for *)
  tv_room : (length (tk_out s) <= tk_received s + capacity)%nat
}.

Lemma tasks_inv_cancel s t : tasks_inv s → token_known (tk_tokens s) t → tasks_inv (with_tokens s (cancel t (tk_tokens s))).
Proof.
  intros [H1 H2 H3 H4 H5 H6 H7] Ht. unfold client_cancelled in *.
  split; unfold client_cancelled; cbn [tk_tokens tk_ping tk_loop tk_out tk_received with_tokens]; rewrite ?cancel_known, ?cancel_below; try done.
  - intros E. apply cancel_mono; auto.
  - intros E. apply cancel_mono; auto.
  - rewrite !is_cancelled_cancel by done. intros [E|E]; [by left; auto|right]. by eapply below_trans.
Qed.

(** Only the tokens, the ends of the ping task and of the loop, and the room matter. *)
Lemma tasks_inv_keep s s' : tasks_inv s → tk_tokens s' = tk_tokens s →
  (tk_ping s' = PingEnded → tk_ping s = PingEnded ∨ client_cancelled s = true) →
  (tk_loop s' = None → tk_loop s = None ∨ client_cancelled s = true) →
  (length (tk_out s') <= tk_received s' + capacity)%nat → tasks_inv s'.
Proof.
  intros [H1 H2 H3 H4 H5 H6 H7] Ht Hp Hl Hr. unfold client_cancelled in *. split; unfold client_cancelled; rewrite ?Ht; naive_solver.
Qed.

(** An item is sent where there is room. *)
Lemma next_tx_ok s : next_tx s = TxOk → (length (tk_out s) < tk_received s + capacity)%nat ∧ tk_receiver s = true.
Proof. unfold next_tx, tk_tx. destruct (tk_receiver s); [|done]. destruct (Nat.ltb_spec (length (tk_out s)) (tk_received s + capacity)); done. Qed.

Lemma next_tx_closed s : next_tx s = TxClosed ↔ tk_receiver s = false.
Proof. unfold next_tx, tk_tx. destruct (tk_receiver s); [|done]. by destruct (Nat.ltb _ _). Qed.

Lemma run_loop_over s r queue : tasks_inv s → loop_over r →
  let s' := run_loop s r queue in
  tasks_inv s' ∧ tk_loop s' = None ∧ client_cancelled s' = true ∧ tk_receiver s' = tk_receiver s ∧ tk_ping s' = tk_ping s ∧
  it_state (tk_incoming s') = it_state (tk_incoming s) ∧ tk_incoming_send s' = tk_incoming_send s.
Proof.
  intros Hinv Hr. pose proof Hinv as [H1 H2 H3 H4 H5 H6 H7].
  assert (∀ s', tk_tokens s' = cancel client_token (tk_tokens s) → client_cancelled s' = true) as Hc.
  { intros s' E. unfold client_cancelled. rewrite E. by apply cancel_self. }
  assert (∀ s', tk_tokens s' = cancel client_token (tk_tokens s) → (length (tk_out s') <= tk_received s' + capacity)%nat → tasks_inv s') as Hi.
  { intros s' E Hlen. eapply (tasks_inv_keep (with_tokens s (cancel client_token (tk_tokens s)))); [by apply tasks_inv_cancel|done|..|done];
      intros _; right; by apply Hc. }
  unfold run_loop. destruct r as [c|]; [destruct (loop_reason c) as [reason|] eqn:Er; [|by destruct Hr]|].
  - split; [apply Hi; [done|]; cbn; rewrite length_take; lia|]. split; [done|]. split; [by apply Hc|done].
  - split; [by apply Hi|]. split; [done|]. split; [by apply Hc|done].
Qed.

Lemma tasks_inv_run_loop s c r queue : tasks_inv s → tk_loop s = Some c → tasks_inv (run_loop s r queue).
Proof.
  intros Hinv Hc. destruct r as [c'|]; [|by apply run_loop_over]. destruct (loop_reason c') eqn:Er; [apply run_loop_over; [done|]; cbn; by rewrite Er|].
  unfold run_loop. rewrite Er. eapply tasks_inv_keep; [exact Hinv|done|by left|done|]. cbn. rewrite length_take. lia.
Qed.

Lemma tasks_inv_send s send : tasks_inv s → next_tx s ≠ TxFull → tasks_inv (send_incoming s send).
Proof.
  intros Hinv Hn. eapply tasks_inv_keep; [exact Hinv|done|by left|by left|]. cbn. unfold incoming_sent. cbn.
  change (tk_tx s (length (tk_out s))) with (next_tx s). pose proof (tv_room _ Hinv). destruct (next_tx s) eqn:En; [|done|].
  - apply next_tx_ok in En as [En _]. cbn. rewrite length_app. cbn. lia.
  - by destruct (send_last send), (client_alive s).
Qed.

Lemma tasks_inv_step a s s' : tasks_inv s → task_step a s s' → tasks_inv s'.
Proof.
  intros Hinv Hstep. pose proof Hinv as [H1 H2 H3 H4 H5 H6 H7].
  assert (∀ i, next_tx s = TxOk → (length (tk_out s ++ [i]) <= tk_received s + capacity)%nat) as Hroom.
  { intros i [Hl _]%next_tx_ok. rewrite length_app. cbn. lia. }
  destruct Hstep as [s Hr Hlt|s|s t Ht|s now Hp|s msg Hp Hn|s msg Hp Hn|s Hp Hc|s clock now sc m Hr Hs|s send Hs Hn|s Hi Hs Hc
    |s c c' Hl Hc _|s c r queue Hl _|s c r Hl _|s c r Hl _|s i l Hl Hn|s i l Hl Hn];
    try (by eapply tasks_inv_run_loop); try (eapply tasks_inv_keep; [exact Hinv|done|by (left + right)|by left|by (done || apply Hroom)]).
  - eapply tasks_inv_keep; [exact Hinv|done|by left|by left|]. cbn. lia.
  - by apply tasks_inv_cancel.
  - eapply tasks_inv_keep; [exact (tasks_inv_cancel _ _ Hinv H1)|done|right; by apply cancel_self|by left|done].
  - eapply tasks_inv_keep; [exact Hinv|..]; unfold run_incoming; destruct (turn _ _ _ _ _ _) as [[]|]; by (done || left).
  - by apply tasks_inv_send.
Qed.

(** The invariant holds of every state of a subscription. *)
Lemma tasks_inv_reach s0 names c0 s :
  token_known s0 client_token → token_known s0 incoming_token → below s0 incoming_token client_token →
  is_cancelled incoming_token s0 = is_cancelled client_token s0 →
  rtc any_step (Tasks_new s0 names c0) s → tasks_inv s.
Proof.
  intros H1 H2 H3 H4 Hsteps. refine (rtc_ind_r tasks_inv _ _ _ s Hsteps); [|intros x y _ (a & _ & Hs) Hx; by eapply tasks_inv_step].
  split; try done; unfold client_cancelled; cbn; [congruence|lia].
Qed.

(** ** How a subscription ends *)

Context {LL : LoopTaskLaws U Q C} (capacity_pos : (0 < capacity)%nat).

(** The steps that end a subscription: those of its tasks, an answer of the
    reconstruction loop, and a reception if the client still has its receiver. *)
Definition closing (receiver : bool) (a : Actor) : Prop :=
  match a with ActTask | ActReconstruction => True | ActClientReceives => receiver = true | _ => False end.

Definition closes (s s' : Tasks) : Prop := rtc (acting (closing (tk_receiver s))) s s' ∧ tk_receiver s' = tk_receiver s ∧ tasks_inv s'.

Lemma closes_refl s : tasks_inv s → closes s s.
Proof. by split. Qed.

Lemma closes_trans s1 s2 s3 : closes s1 s2 → closes s2 s3 → closes s1 s3.
Proof. intros (H1 & E1 & _) (H2 & E2 & Hi). split; [|split; [congruence|done]]. etrans; [exact H1|]. by rewrite E1 in H2. Qed.

Lemma closes_own s s' : tasks_inv s → own_step s s' → tk_receiver s' = tk_receiver s → closes s s'.
Proof. intros Hinv Hs E. split; [apply rtc_once; by exists ActTask|]. split; [done|]. by eapply tasks_inv_step. Qed.

Lemma with_client_self s : with_client s (tk_received s) (tk_receiver s) = s.
Proof. by destruct s. Qed.

(** A full channel has room once the client receives an item. *)
Lemma make_room s : tasks_inv s → ∃ n, let s' := with_client s n (tk_receiver s) in closes s s' ∧ next_tx s' ≠ TxFull.
Proof.
  intros Hinv. destruct (next_tx s) eqn:En.
  1,3: exists (tk_received s); cbn zeta; rewrite with_client_self, En; split; [by apply closes_refl|done].
  assert (tk_receiver s = true ∧ (tk_received s + capacity <= length (tk_out s))%nat) as [Er Hlen].
  { unfold next_tx, tk_tx in En. destruct (tk_receiver s); [|done]. by destruct (Nat.ltb_spec (length (tk_out s)) (tk_received s + capacity)). }
  pose proof (tv_room _ Hinv). exists (S (tk_received s)). cbn zeta. rewrite Er.
  assert (task_step ActClientReceives s (with_client s (S (tk_received s)) true)) as Hs by (apply task_receives; [done|lia]).
  split.
  - split; [apply rtc_once; by exists ActClientReceives|]. split; [done|]. by eapply tasks_inv_step.
  - unfold next_tx, tk_tx. cbn [with_client tk_receiver tk_received tk_out].
    destruct (Nat.ltb_spec (length (tk_out s)) (S (tk_received s) + capacity)); [done|lia].
Qed.

(** The loop gets to its next select and ends there, if its token is cancelled
    or it listens to requests that nobody will send. *)
Lemma loop_ends n : ∀ s c, (loop_work c < n)%nat → tasks_inv s → tk_loop s = Some c →
  client_cancelled s = true ∨ (loop_listening c ∧ incoming_ended (tk_incoming s) = true) →
  ∃ s', closes s s' ∧ tk_loop s' = None ∧ client_cancelled s' = true.
Proof.
  induction n as [|n IH]; intros s c Hn Hinv Hc Hend; [lia|].
  assert (∀ s1 a r queue, closes s s1 → closing (tk_receiver s) a → task_step a s1 (run_loop s1 r queue) → loop_over r →
    ∃ s', closes s s' ∧ tk_loop s' = None ∧ client_cancelled s' = true) as Hover.
  { intros s1 a r queue Hs1 Ha Hstep Hr. destruct (run_loop_over s1 r queue) as (Hi & Hl & Hcc & Hrec & _); [by apply Hs1|done|].
    exists (run_loop s1 r queue). split; [|done]. eapply closes_trans; [exact Hs1|]. split; [|done]. apply rtc_once. exists a.
    destruct Hs1 as (_ & -> & _). done. }
  destruct (decide (loop_work c = 0%nat)) as [H0|H0].
  - destruct Hend as [Hcan|[Hlis Hi]].
    + destruct (loop_cancelled_ends (tk_tx s) (loop_now s c)) as (c' & Hc' & Hr & _); [unfold loop_now; by rewrite loop_work_set|].
      exact (Hover s ActTask (Done c') _ (closes_refl s Hinv) I (task_loop_cancelled s c c' Hc Hcan Hc') Hr).
    + destruct (loop_disconnected_ends (tk_tx s) (loop_now s c) (it_queue (tk_incoming s))) as (r & queue & Hr & Ho & _);
        [unfold loop_now; by rewrite loop_work_set|by apply loop_listening_set|]. rewrite <- Hi in Hr.
      exact (Hover s ActTask r _ (closes_refl s Hinv) I (task_loop_request s c r queue Hc Hr) Ho).
  - destruct (loop_asking c) eqn:Ea.
    + destruct (loop_answer_ends (tk_tx s) (loop_now s c)) as (r & Hr & Ho); [unfold loop_now; by rewrite loop_asking_set|].
      exact (Hover s ActReconstruction r _ (closes_refl s Hinv) I (task_loop_answer s c r Hc Hr) Ho).
    + destruct (make_room s Hinv) as (m & Hs1 & Hroom). set (s1 := with_client s m (tk_receiver s)) in *.
      destruct (loop_turn_progress (tk_tx s1) (client_cancelled s1) (loop_now s1 c)) as (r & Hr & [Ho|(c' & -> & Hlt & Hlis)]);
        [unfold loop_now; by rewrite loop_work_set|unfold loop_now; by rewrite loop_asking_set|unfold loop_now; by rewrite loop_out_set| |];
        pose proof (task_loop_turn s1 c _ Hc Hr) as Hstep; [exact (Hover s1 ActTask r _ Hs1 I Hstep Ho)|].
      destruct (loop_reason c') eqn:Er; [refine (Hover s1 ActTask _ _ Hs1 I Hstep _); cbn; by rewrite Er|].
      set (s2 := run_loop s1 (Done c') (it_queue (tk_incoming s1))) in *.
      assert (tk_loop s2 = Some c' ∧ client_cancelled s2 = client_cancelled s ∧ tk_receiver s2 = tk_receiver s1 ∧
        incoming_ended (tk_incoming s2) = incoming_ended (tk_incoming s)) as (Hl2 & Hc2 & Hr2 & Hi2) by by unfold s2, run_loop; rewrite Er.
      assert (closes s s2) as Hs2 by (eapply closes_trans; [exact Hs1|]; by apply closes_own; [apply Hs1|..]).
      unfold loop_now in Hlt, Hlis. rewrite loop_work_set in Hlt.
      destruct (IH s2 c') as (s' & Hs' & He); [lia|by apply Hs2|done| |exists s'; split; [by eapply closes_trans|done]].
      rewrite Hc2, Hi2. destruct Hend as [|[]]; [by left|right]. split; [|done]. by apply Hlis, loop_listening_set.
Qed.

Lemma ping_ends s : tasks_inv s → client_cancelled s = true →
  ∃ s', closes s s' ∧ tk_ping s' = PingEnded ∧ client_cancelled s' = true ∧ tk_loop s' = tk_loop s.
Proof.
  intros Hinv Hc. assert (∀ s, tasks_inv s → client_cancelled s = true → tk_ping s = PingWaiting →
    closes s (with_ping s PingEnded)) as Hw by (intros s0 Hi0 Hc0 Hp0; apply closes_own; [done|by apply task_ping_cancelled|done]).
  destruct (tk_ping s) as [|msg|] eqn:Hp; [by eexists; split; [apply Hw|done]| |by exists s; split; [apply closes_refl|done]].
  destruct (make_room s Hinv) as (m & Hs1 & Hroom). set (s1 := with_client s m (tk_receiver s)) in *. destruct (next_tx s1) eqn:En; [|done|].
  - set (s2 := with_ping (with_out s1 (tk_out s1 ++ [Ok msg])) PingWaiting).
    assert (closes s s2) as Hs2. { eapply closes_trans; [exact Hs1|]. apply closes_own; [apply Hs1|by apply task_ping_sent|done]. }
    exists (with_ping s2 PingEnded). split; [|done]. eapply closes_trans; [exact Hs2|]. apply Hw; [by apply Hs2|done|done].
  - eexists. split; [eapply closes_trans; [exact Hs1|]; apply closes_own; [apply Hs1|by eapply task_ping_dead|done]|].
    split; [done|]. split; [by apply cancel_self, (tv_client _ Hinv)|done].
Qed.

Lemma incoming_ends s : tasks_inv s → client_cancelled s = true →
  ∃ s', closes s s' ∧ incoming_ended (tk_incoming s') = true ∧ tk_incoming_send s' = None ∧ tk_ping s' = tk_ping s ∧ tk_loop s' = tk_loop s.
Proof.
  intros Hinv Hc. assert (∀ s, tasks_inv s → client_cancelled s = true → tk_incoming_send s = None →
    ∃ s', closes s s' ∧ incoming_ended (tk_incoming s') = true ∧ tk_incoming_send s' = None ∧ tk_ping s' = tk_ping s ∧ tk_loop s' = tk_loop s) as Hw.
  { intros s0 Hi0 Hc0 Hs0. destruct (incoming_ended (tk_incoming s0)) eqn:Ei; [by exists s0; split; [apply closes_refl|done]|].
    eexists. split; [apply closes_own; [done|apply task_incoming_cancelled; [done..|by apply (tv_cancelled _ Hi0)]|done]|done]. }
  destruct (tk_incoming_send s) as [send|] eqn:Es; [|by apply Hw].
  destruct (make_room s Hinv) as (m & Hs1 & Hroom). set (s1 := with_client s m (tk_receiver s)) in *.
  assert (closes s (send_incoming s1 send)) as Hs2. { eapply closes_trans; [exact Hs1|]. apply closes_own; [apply Hs1|by apply task_incoming_sent|done]. }
  destruct (Hw (send_incoming s1 send)) as (s' & Hs' & He); [by apply Hs2|done|done|]. exists s'. split; [by eapply closes_trans|done].
Qed.

Lemma spawned_end l : ∀ s, tk_spawned s = l → tasks_inv s →
  ∃ s', closes s s' ∧ tk_spawned s' = [] ∧ tk_ping s' = tk_ping s ∧ tk_incoming s' = tk_incoming s ∧
    tk_incoming_send s' = tk_incoming_send s ∧ tk_loop s' = tk_loop s.
Proof.
  induction l as [|i l IH]; intros s Hl Hinv; [by exists s; split; [apply closes_refl|]|].
  destruct (make_room s Hinv) as (m & Hs1 & Hroom). set (s1 := with_client s m (tk_receiver s)) in *.
  assert (∃ s2, closes s s2 ∧ tk_spawned s2 = l ∧ tk_ping s2 = tk_ping s ∧ tk_incoming s2 = tk_incoming s ∧
    tk_incoming_send s2 = tk_incoming_send s ∧ tk_loop s2 = tk_loop s) as (s2 & Hs2 & Hl2 & Hp2 & Hi2 & Hsend2 & Hlo2).
  { destruct (next_tx s1) eqn:En; [|done|]; eexists; (split; [eapply closes_trans; [exact Hs1|]; apply closes_own; [apply Hs1| |]|]).
    - by eapply (task_spawned_sent s1).
    - done.
    - done.
    - by eapply (task_spawned_closed s1).
    - done.
    - done. }
  destruct (IH s2 Hl2) as (s' & Hs' & He); [by apply Hs2|]. exists s'. split; [by eapply closes_trans|]. by rewrite <- Hp2, <- Hi2, <- Hsend2, <- Hlo2.
Qed.

(** A task of the subscription has ended, its token is cancelled, or nobody will
    send requests to a loop that listens to them. *)
Definition ending (s : Tasks) : Prop :=
  tk_ping s = PingEnded ∨ tk_loop s = None ∨ client_cancelled s = true ∨
  (incoming_ended (tk_incoming s) = true ∧ ∀ c, tk_loop s = Some c → loop_listening c).

Lemma ending_closes s : tasks_inv s → ending s → ∃ s', closes s s' ∧ all_ended s'.
Proof.
  intros Hinv Hend.
  assert (∃ s1, closes s s1 ∧ tk_loop s1 = None ∧ client_cancelled s1 = true) as (s1 & Hs1 & Hl1 & Hc1).
  { destruct (tk_loop s) as [c|] eqn:Hc; [|exists s; split; [by apply closes_refl|split; [done|by apply (tv_loop _ Hinv)]]].
    apply (loop_ends (S (loop_work c)) s c); [lia|done|done|].
    destruct Hend as [Hp|[Hl|[Hcc|[Hi Hlis]]]]; [left; by apply (tv_ping _ Hinv)|congruence|by left|right; by auto]. }
  destruct (ping_ends s1) as (s2 & Hs2 & Hp2 & Hc2 & Hl2); [by apply Hs1|done|].
  destruct (incoming_ends s2) as (s3 & Hs3 & Hi3 & Hsend3 & Hp3 & Hl3); [by apply Hs2|done|].
  destruct (spawned_end (tk_spawned s3) s3) as (s4 & Hs4 & Hsp4 & Hp4 & Hi4 & Hsend4 & Hl4); [done|by apply Hs3|].
  exists s4. split; [by eapply closes_trans, closes_trans, closes_trans|].
  split; [congruence|]. split; [congruence|]. split; [congruence|]. split; [congruence|done].
Qed.

(** *** When no task is in a [send] *)

Record idle (s : Tasks) : Prop := {
  id_ping msg : tk_ping s ≠ PingSending msg;
  id_incoming : tk_incoming_send s = None;
  id_spawned : tk_spawned s = [];
  id_loop c : tk_loop s = Some c → loop_work c = 0%nat
}.

(** An end of the loop that sends nothing there is no room for. *)
Lemma run_loop_idle s c r queue : tasks_inv s → idle s → tk_loop s = Some c → loop_over r →
  match r with
  | Done c' => loop_out c' = tk_out s ∨ (next_tx s = TxOk ∧ ∃ i, loop_out c' = tk_out s ++ [i])
  | Panic => True
  end → idle (run_loop s r queue).
Proof.
  intros Hinv [H1 H2 H3 H4] Hc Ho Hout. destruct (run_loop_over s r queue Hinv Ho) as (_ & Hl & _ & _ & Hp & _ & Hs).
  split; [by rewrite Hp|by rewrite Hs| |by rewrite Hl]. pose proof (tv_room _ Hinv). unfold run_loop. destruct r as [c'|]; [|done].
  cbn in Ho. destruct (loop_reason c'); [|done]. cbn. rewrite H3. apply drop_ge.
  destruct Hout as [->|[[Hn _]%next_tx_ok (i & ->)]]; [done|]. rewrite length_app. cbn. lia.
Qed.

Lemma loop_over_step s c : tasks_inv s → idle s → tk_loop s = Some c →
  client_cancelled s = true ∨ (loop_listening c ∧ incoming_ended (tk_incoming s) = true) →
  ∃ s', own_step s s' ∧ tasks_inv s' ∧ idle s' ∧ client_cancelled s' = true ∧ tk_loop s' = None.
Proof.
  intros Hinv Hid Hc Hend. pose proof (id_loop _ Hid c Hc) as H0.
  assert (∃ r queue, own_step s (run_loop s r queue) ∧ loop_over r ∧
    match r with Done c' => loop_out c' = tk_out s ∨ (next_tx s = TxOk ∧ ∃ i, loop_out c' = tk_out s ++ [i]) | Panic => True end)
    as (r & queue & Hstep & Ho & Hout).
  { destruct Hend as [Hcan|[Hlis Hi]].
    - destruct (loop_cancelled_ends (tk_tx s) (loop_now s c)) as (c' & Hc' & Hr & Hout); [unfold loop_now; by rewrite loop_work_set|].
      unfold loop_now in Hout. rewrite loop_out_set in Hout. exists (Done c'). eexists. split; [by eapply task_loop_cancelled|done].
    - destruct (loop_disconnected_ends (tk_tx s) (loop_now s c) (it_queue (tk_incoming s))) as (r & queue & Hr & Ho & Hout);
        [unfold loop_now; by rewrite loop_work_set|by apply loop_listening_set|]. rewrite <- Hi in Hr. exists r, queue.
      split; [by eapply task_loop_request|]. split; [done|]. destruct r; [left|done]. unfold loop_now in Hout. by rewrite loop_out_set in Hout. }
  exists (run_loop s r queue). split; [done|]. destruct (run_loop_over s r queue Hinv Ho) as (Hi & Hl & Hcc & _).
  split; [done|]. split; [by eapply run_loop_idle|done].
Qed.

Lemma idle_ends_without_loop s : tasks_inv s → idle s → client_cancelled s = true → tk_loop s = None →
  ∃ n s', (n <= 2)%nat ∧ nsteps own_step n s s' ∧ all_ended s'.
Proof.
  intros Hinv [H1 H2 H3 H4] Hc Hl.
  assert (∃ n s1, (n <= 1)%nat ∧ nsteps own_step n s s1 ∧ tk_tokens s1 = tk_tokens s ∧ tk_ping s1 = PingEnded ∧ tk_loop s1 = None ∧
    tk_incoming_send s1 = None ∧ tk_spawned s1 = []) as (n1 & s1 & Hn1 & Hs1 & Ht1 & Hp1 & Hl1 & Hi1 & Hsp1).
  { destruct (tk_ping s) as [|msg|] eqn:Hp; [|by destruct (H1 msg)|exists 0%nat, s; split_and!; (lia || done || constructor)].
    exists 1%nat, (with_ping s PingEnded). split; [done|]. split; [apply nsteps_once; by apply task_ping_cancelled|done]. }
  destruct (incoming_ended (tk_incoming s1)) eqn:Ei; [exists n1, s1; split_and!; (lia || done)|].
  exists (n1 + 1)%nat, (with_incoming s1 (task_end (tk_incoming s1)) None). split; [lia|]. split; [|by split_and!].
  eapply nsteps_trans; [exact Hs1|]. apply nsteps_once. apply task_incoming_cancelled; [done..|]. rewrite Ht1. by apply (tv_cancelled _ Hinv).
Qed.

Lemma idle_ends s : tasks_inv s → idle s → ending s → ∃ n s', (n <= 3)%nat ∧ nsteps own_step n s s' ∧ all_ended s'.
Proof.
  intros Hinv Hid Hend.
  destruct (tk_loop s) as [c|] eqn:Hc.
  - destruct (loop_over_step s c) as (s1 & Hs1 & Hinv1 & Hid1 & Hc1 & Hl1); [done..| |].
    { destruct Hend as [Hp|[Hl|[Hcc|[Hi Hlis]]]]; [left; by apply (tv_ping _ Hinv)|congruence|by left|right; by auto]. }
    destruct (idle_ends_without_loop s1) as (n & s' & Hn & Hs' & He); [done..|]. exists (S n), s'. split; [lia|]. split; [by econstructor|done].
  - destruct (idle_ends_without_loop s) as (n & s' & Hn & Hs' & He); [done|done|by apply (tv_loop _ Hinv)|done|]. exists n, s'. split; [lia|done].
Qed.

(** *** When every task is *)

(** The tasks that are left are all in a [send], and the channel is full. *)
Record blocked (s : Tasks) : Prop := {
  bl_full : next_tx s = TxFull;
  bl_ping : tk_ping s = PingEnded ∨ ∃ msg, tk_ping s = PingSending msg;
  bl_incoming : tk_incoming_send s ≠ None ∨ incoming_ended (tk_incoming s) = true;
  bl_loop c : tk_loop s = Some c → ∀ c' queue r queue', ¬ loop_cancelled (tk_tx s) (loop_now s c) c' ∧
    ¬ loop_request (tk_tx s) (loop_now s c) queue (incoming_ended (tk_incoming s)) r queue' ∧
    ¬ loop_turn (tk_tx s) (client_cancelled s) (loop_now s c) r
}.

(** Then none of them makes a step of its own, whatever token is cancelled. *)
Lemma blocked_tasks_stay s s' : blocked s → ¬ own_step s s'.
Proof.
  intros [Hf Hp Hi Hl] Hs. unfold own_step in Hs. remember ActTask as a eqn:Ea. destruct Hs; try done; try congruence.
  all: try (destruct Hp as [Hp|[msg' Hp]]; congruence).
  - destruct Hi; congruence.
  - by destruct (Hl c H c' [] (Done c) []) as [[] _].
  - by destruct (Hl c H c (it_queue (tk_incoming s)) r queue) as (_ & [] & _).
  - by destruct (Hl c H c [] r []) as (_ & _ & []).
Qed.
End tasks.

(** ** The tasks of [subscribe] *)

Section subscribe_tasks.
Context {T : CancellationTokens} {TL : CancellationTokensLaws} {X : Externals} `{!Broadcast (list Message)}.
Context (pubkey_display : Pubkey → string) (pubkey_error_display : ParsePubkeyError → string)
  (signature_error_display : ParseSignatureError → string) (limits : FilterLimits).
Context (capacity : nat) (client_token incoming_token : token).

(** What a [send(..).await] of the loop is part of: the answer to a ping before
    the snapshot, the snapshot, or the replay from a slot. *)
Inductive SendingFor := ForPong | ForSnapshot | ForReplay.

(** Where [client_loop] is: waiting for a filter for the snapshot, at the next
    message of the snapshot, live, waiting for the reconstruction loop, or in a
    [send], with what it still has to send. *)
Inductive ClientPhase :=
| PhaseWait (c : Client)
| PhaseReplay (c : Client)
| PhaseLive (c : Client)
| PhaseAsking (c : Client) (from_slot : Z)
| PhaseSending (k : SendingFor) (c : Client) (updates : list FilteredUpdate) (messages : list Message).

Definition phase_client (p : ClientPhase) : Client :=
  match p with PhaseWait c | PhaseReplay c | PhaseLive c | PhaseAsking c _ | PhaseSending _ c _ _ => c end.

Definition phase_set_out (p : ClientPhase) (out : list StreamItem) : ClientPhase :=
  match p with
  | PhaseWait c => PhaseWait (set_out c out)
  | PhaseReplay c => PhaseReplay (set_out c out)
  | PhaseLive c => PhaseLive (set_out c out)
  | PhaseAsking c from_slot => PhaseAsking (set_out c out) from_slot
  | PhaseSending k c updates messages => PhaseSending k (set_out c out) updates messages
  end.

(** The level [get_updates] is asked for, and where the loop goes on. *)
Definition sending_commitment (k : SendingFor) (c : Client) : option CommitmentLevel :=
  match k with ForReplay => Some (cl_commitment c) | _ => None end.

Definition sending_done (k : SendingFor) (c : Client) : ClientPhase :=
  match k with ForPong => PhaseWait c | ForSnapshot => PhaseReplay c | ForReplay => PhaseLive c end.

(** The cancellation branch; there is none in a [send] or a wait for an answer. *)
Inductive phase_cancelled (tx : nat → TrySend) : ClientPhase → ClientPhase → Prop :=
| cancelled_wait broadcast now c c' r :
    on_snapshot_wait tx now c WaitCancelled = (c', Some r) →
    phase_cancelled tx (PhaseWait c) (PhaseLive (after_snapshot tx broadcast c' r))
| cancelled_replay broadcast c out r :
    snapshot_replay tx (cl_filter c) (cl_out c) [TurnCancelled] = Done (out, r) →
    phase_cancelled tx (PhaseReplay c) (PhaseLive (after_snapshot tx broadcast (set_out c out) r))
| cancelled_live c : phase_cancelled tx (PhaseLive c) (PhaseLive (on_cancelled tx c)).

(** Whether replay is configured. *)
Context (replay_enabled : bool).

(** The slot a request asks to be replayed from, and its filter. *)
Definition asks_replay (request : option ClientRequest) : option (Z * Filter) :=
  match request with
  | Some (Some (Some from_slot, filter_new)) => if replay_enabled then Some (from_slot, filter_new) else None
  | _ => None
  end.

(** The branch on the requests: one at a time for the snapshot, the latest when
    live; the replay of the snapshot does not look. *)
Inductive phase_request (tx : nat → TrySend) : ClientPhase → list ClientRequest → bool → outcome ClientPhase → list ClientRequest → Prop :=
| request_pong now c from_slot filter msg queue ended :
    Filter_get_pong_msg now filter = Some msg →
    phase_request tx (PhaseWait c) (Some (from_slot, filter) :: queue) ended (Done (PhaseSending ForPong c [msg] [])) queue
| request_filter now c q queue ended c' :
    on_snapshot_wait tx now c (WaitRequest (Some q)) = (c', Some (Ok ())) →
    phase_request tx (PhaseWait c) (q :: queue) ended (Done (PhaseReplay c')) queue
| request_closed broadcast now c queue ended c' r :
    on_snapshot_wait tx now c (WaitRequest (Some None)) = (c', Some r) →
    phase_request tx (PhaseWait c) (None :: queue) ended (Done (PhaseLive (after_snapshot tx broadcast c' r))) queue
| request_disconnected broadcast now c c' r :
    on_snapshot_wait tx now c (WaitRequest None) = (c', Some r) →
    phase_request tx (PhaseWait c) [] true (Done (PhaseLive (after_snapshot tx broadcast c' r))) []
| request_live broadcast c queue ended r :
    queue ≠ [] ∨ ended = true → asks_replay (latest_request queue ended) = None →
    on_request tx broadcast None c (latest_request queue ended) = r →
    phase_request tx (PhaseLive c) queue ended (c' ← r; Done (PhaseLive c')) []
| request_replay broadcast c queue ended from_slot filter_new c' :
    asks_replay (latest_request queue ended) = Some (from_slot, filter_new) →
    on_request tx broadcast None c (Some (Some (None, filter_new))) = Done c' →
    phase_request tx (PhaseLive c) queue ended (Done (PhaseAsking c' from_slot)) [].

(** The items of a [send], the snapshot, and the broadcast. *)
Inductive phase_turn (tx : nat → TrySend) : bool → ClientPhase → outcome ClientPhase → Prop :=
| turn_sent cancelled k c u updates messages :
    tx (length (cl_out c)) = TxOk →
    phase_turn tx cancelled (PhaseSending k c (u :: updates) messages)
      (Done (PhaseSending k (set_out c (cl_out c ++ [Ok u])) updates messages))
| turn_closed cancelled k c u updates messages :
    tx (length (cl_out c)) = TxClosed →
    phase_turn tx cancelled (PhaseSending k c (u :: updates) messages) (Done (PhaseLive (finish c "client_closed")))
| turn_message cancelled k c m messages updates m' :
    Filter_get_updates (cl_filter c) m (sending_commitment k c) = Done (updates, m') →
    phase_turn tx cancelled (PhaseSending k c [] (m :: messages)) (Done (PhaseSending k c updates messages))
| turn_panic cancelled k c m messages :
    Filter_get_updates (cl_filter c) m (sending_commitment k c) = Panic →
    phase_turn tx cancelled (PhaseSending k c [] (m :: messages)) Panic
| turn_sent_all cancelled k c : phase_turn tx cancelled (PhaseSending k c [] []) (Done (sending_done k c))
| turn_snapshot_message c m : phase_turn tx false (PhaseReplay c) (Done (PhaseSending ForSnapshot c [] [m]))
| turn_snapshot_empty c : phase_turn tx false (PhaseReplay c) (Done (PhaseReplay c))
| turn_snapshot_ended broadcast c :
    phase_turn tx false (PhaseReplay c) (Done (PhaseLive (after_snapshot tx broadcast c (Ok ()))))
| turn_broadcast cancelled broadcast c r :
    on_broadcast tx c (broadcast_recv (channels_sender broadcast (cl_commitment c)) (cl_messages_rx c)) = r →
    r ≠ Done None →
    phase_turn tx cancelled (PhaseLive c) (c' ← r; match c' with Some c' => Done (PhaseLive c') | None => Panic end).

(** The answer to a replay request. *)
Inductive phase_answer (tx : nat → TrySend) : ClientPhase → outcome ClientPhase → Prop :=
| answer_refused c from_slot answer c' :
    (∀ batch, answer ≠ ReplayAnswered (ReplayedMessages batch)) →
    replay_from tx (Some (λ _ _, answer)) c from_slot = Done c' →
    phase_answer tx (PhaseAsking c from_slot) (Done (PhaseLive c'))
| answer_messages c from_slot batch :
    phase_answer tx (PhaseAsking c from_slot) (Done (PhaseSending ForReplay c [] (concat (replay_response_messages <$> batch)))).

#[global] Instance subscribe_loop : LoopTask FilteredUpdate (option Z * Filter) ClientPhase := {|
  loop_out p := cl_out (phase_client p);
  loop_set_out := phase_set_out;
  loop_reason p := cl_disconnect_reason (phase_client p);
  loop_cancelled := phase_cancelled;
  loop_request := phase_request;
  loop_turn := phase_turn;
  loop_answer := phase_answer
|}.

Abbreviation SubscribeTasks := (Tasks (U := FilteredUpdate) (Q := option Z * Filter) (C := ClientPhase)).

Definition subscribe_step : Actor → SubscribeTasks → SubscribeTasks → Prop :=
  task_step (subscribe_turn pubkey_display pubkey_error_display signature_error_display limits)
    (λ now, FilteredUpdate_new_empty now FuPing) capacity client_token incoming_token.

(** What [subscribe] spawns. *)
Definition subscribe_tasks (s : tokens) (names : FilterNames) (broadcast : SubscriberChannels) (snapshot : bool) : SubscribeTasks :=
  Tasks_new s names (if snapshot then PhaseWait (Client_new broadcast) else PhaseLive (Client_new broadcast)).

(** *** The blocking sends are those of ClientLoop.v and Subscribe.v *)

Lemma sending_updates tx cancelled k messages updates : ∀ c, (∀ n, tx n ≠ TxFull) →
  rtc (λ p p', phase_turn tx cancelled p (Done p')) (PhaseSending k c updates messages)
    (match forward_updates tx true (cl_out c) updates with
     | (out, None) => PhaseSending k (set_out c out) [] messages
     | (out, Some _) => PhaseLive (finish (set_out c out) "client_closed")
     end).
Proof.
  induction updates as [|u updates IH]; intros c Htx; cbn [forward_updates]; [by destruct c|].
  destruct (tx (@length (result TonicStatus FilteredUpdate) (cl_out c))) eqn:Et; [|by destruct (Htx _ Et)|].
  - eapply rtc_l; [by apply turn_sent|]. exact (IH (set_out c (cl_out c ++ [Ok u])) Htx).
  - apply rtc_once. assert (set_out c (cl_out c) = c) as -> by by destruct c. by apply turn_closed.
Qed.

(** Item by item the loop sends what [forward_messages] does at once. *)
Lemma sending_messages tx cancelled k messages : ∀ c out e, (∀ n, tx n ≠ TxFull) →
  forward_messages tx true (cl_filter c) (sending_commitment k c) (cl_out c) messages = Done (out, e) →
  rtc (λ p p', phase_turn tx cancelled p (Done p')) (PhaseSending k c [] messages)
    (match e with None => sending_done k (set_out c out) | Some _ => PhaseLive (finish (set_out c out) "client_closed") end).
Proof.
  induction messages as [|m messages IH]; intros c out e Htx; cbn [forward_messages].
  { intros [= <- <-]. apply rtc_once. assert (set_out c (cl_out c) = c) as -> by by destruct c. by apply turn_sent_all. }
  destruct (Filter_get_updates _ _ _) as [[updates m']|] eqn:Em; [|done]. cbn [mbind outcome_bind]. intros Hf.
  eapply rtc_l; [by eapply turn_message|]. pose proof (sending_updates tx cancelled k messages updates c Htx) as Hu.
  destruct (forward_updates tx true (cl_out c) updates) as [out1 [e1|]]; [injection Hf as <- <-; exact Hu|].
  etrans; [exact Hu|]. by apply (IH (set_out c out1) out e).
Qed.

(** So a replay from a slot ends as [replay_from] does. *)
Lemma replaying_is_replay_from tx cancelled c from_slot batch c' : (∀ n, tx n ≠ TxFull) →
  replay_from tx (Some (λ _ _, ReplayAnswered (ReplayedMessages batch))) c from_slot = Done c' →
  rtc (λ p p', phase_turn tx cancelled p (Done p'))
    (PhaseSending ForReplay c [] (concat (replay_response_messages <$> batch))) (PhaseLive c').
Proof.
  intros Htx. cbn [replay_from]. destruct (forward_messages _ _ _ _ _ _) as [[out e]|] eqn:Ef; [|done]. intros [= <-].
  pose proof (sending_messages tx cancelled ForReplay _ c out e Htx Ef) as Hs. by destruct e.
Qed.

(** *** How the loop ends *)

Definition phase_listening (p : ClientPhase) : Prop :=
  match p with PhaseLive _ | PhaseAsking _ _ | PhaseSending ForReplay _ _ _ => True | _ => False end.

(** It is at a select, or where it looks at its token. *)
Definition phase_selects (p : ClientPhase) : Prop :=
  match p with PhaseWait _ | PhaseReplay _ | PhaseLive _ => True | _ => False end.

Definition message_work (k : SendingFor) (c : Client) (m : Message) : nat :=
  S (match Filter_get_updates (cl_filter c) m (sending_commitment k c) with Done (updates, _) => length updates | Panic => 0 end).

Definition phase_work (p : ClientPhase) : nat :=
  match p with
  | PhaseSending k c updates messages => S (length updates + sum_list (message_work k c <$> messages))
  | PhaseAsking _ _ => 1
  | _ => 0
  end.

Definition phase_asking (p : ClientPhase) : bool := match p with PhaseAsking _ _ => true | _ => false end.

Lemma phase_selects_work p : phase_selects p → phase_work p = 0%nat.
Proof. by destruct p. Qed.

Lemma on_cancelled_out tx c : cl_out (on_cancelled tx c) = cl_out c ∨
  (tx (length (cl_out c)) = TxOk ∧ ∃ i, cl_out (on_cancelled tx c) = cl_out c ++ [i]).
Proof. unfold on_cancelled. destruct (tx _); [right|by left..]. split; [done|by eexists]. Qed.

Lemma phase_cancelled_ends tx p : phase_work p = 0%nat → ∃ p', phase_cancelled tx p p' ∧ loop_reason p' ≠ None ∧
  (loop_out p' = loop_out p ∨ (tx (length (loop_out p)) = TxOk ∧ ∃ i, loop_out p' = loop_out p ++ [i])).
Proof.
  pose (b := SubscriberChannels_new 1 1 1). destruct p as [c|c|c|c slot|k c us ms]; cbn; [..|done|done]; intros _.
  - eexists. split; [by eapply (cancelled_wait tx b (mkTimestamp 0 0))|]. split; [done|]. cbn. destruct (tx _); [right|by left..].
    split; [done|by eexists].
  - eexists. split; [by eapply (cancelled_replay tx b)|]. split; [done|]. cbn. destruct (tx _); [right|by left..].
    split; [done|by eexists].
  - eexists. split; [apply cancelled_live|]. split; [done|]. apply on_cancelled_out.
Qed.

Lemma phase_turn_progress tx cancelled p :
  phase_work p ≠ 0%nat → phase_asking p = false → tx (length (loop_out p)) ≠ TxFull →
  ∃ r, phase_turn tx cancelled p r ∧
    (loop_over r ∨ ∃ p', r = Done p' ∧ (phase_work p' < phase_work p)%nat ∧ (phase_listening p → phase_listening p')).
Proof.
  destruct p as [c|c|c|c slot|k c us ms]; cbn; [done..|]. intros _ _ Htx. destruct us as [|u us].
  - destruct ms as [|m ms].
    + eexists. split; [apply turn_sent_all|]. right. eexists. split; [done|]. destruct k; (split; [cbn; lia|done]).
    + destruct (Filter_get_updates (cl_filter c) m (sending_commitment k c)) as [[us m']|] eqn:Em.
      * eexists. split; [by eapply turn_message|]. right. eexists. split; [done|]. split; [|done].
        assert (message_work k c m = S (length us)) as Ew by (unfold message_work; by rewrite Em).
        cbn [phase_work]. rewrite fmap_cons. cbn [sum_list]. rewrite Ew. cbn. lia.
      * eexists. split; [by eapply turn_panic|]. by left.
  - destruct (tx (length (cl_out c))) eqn:Et; [|done|].
    + eexists. split; [by apply turn_sent|]. right. eexists. split; [done|]. split; [|done]. cbn [phase_work length]. change (message_work k (set_out c (cl_out c ++ [Ok u]))) with (message_work k c). lia.
    + eexists. split; [by apply turn_closed|]. by left.
Qed.

#[global] Program Instance subscribe_loop_laws : LoopTaskLaws FilteredUpdate (option Z * Filter) ClientPhase := {|
  loop_work := phase_work;
  loop_asking := phase_asking;
  loop_listening := phase_listening
|}.
Next Obligation. by intros []. Qed.
Next Obligation. by intros []. Qed.
Next Obligation. by intros []. Qed.
Next Obligation. by intros [] ?. Qed.
Next Obligation. exact phase_cancelled_ends. Qed.
Next Obligation.
  intros tx p queue H0 Hlis. destruct p as [c|c|c|c slot|k c us ms]; try done. eexists _, []. split.
  - by eapply (request_live tx (SubscriberChannels_new 1 1 1)); [right|..].
  - done.
Qed.
Next Obligation. exact phase_turn_progress. Qed.
Next Obligation.
  intros tx p. destruct p as [c|c|c|c slot|k c us ms]; try done. intros _. eexists. split.
  - by eapply (answer_refused tx c slot ReplayDropped).
  - done.
Qed.
End subscribe_tasks.

Abbreviation SubscribeTasks := (Tasks (U := FilteredUpdate) (Q := option Z * Filter) (C := ClientPhase)).

Section subscription.
Context {Hp : Http} {T : CancellationTokens} {TL : CancellationTokensLaws} {X : Externals} `{!Broadcast (list Message)}.
Context (pubkey_display : Pubkey → string) (pubkey_error_display : ParsePubkeyError → string)
  (signature_error_display : ParseSignatureError → string) (limits : FilterLimits) (replay_enabled : bool).

(** The steps of a subscription, its channel as large as the handler makes it. *)
Definition subscription_step {Snapshot} (sub : Subscription (Snapshot := Snapshot)) (d : token) : Actor → SubscribeTasks → SubscribeTasks → Prop :=
  subscribe_step pubkey_display pubkey_error_display signature_error_display limits
    (Z.to_nat (sub_capacity sub)) (sub_token sub) d replay_enabled.

(** C17. The end of a subscription: in whatever state the tasks [subscribe]
    spawned are, once one of them has ended (the ping task on finding the client
    gone, the client loop for any reason or by a panic, or the task that reads
    requests while the loop is live or replaying) or the subscription is
    cancelled, no task, and so no session and no permit, is stranded. All of
    them, with the tasks spawned for a last error, can end by their own steps,
    the answer of the reconstruction loop if one waits for it, and receptions of
    the client for the items that wait for room; without the client once it has
    dropped its receiver. When none of them is in a [send], they end by three
    steps of their own. A task in a [send] on a full channel does not look at its
    token ([blocked_tasks_stay]). *)
Theorem subscription_tasks_end {Snapshot} (st st' : GrpcService (Snapshot := Snapshot)) r sub d names broadcast s :
  token_known (gs_tokens st) (gs_cancellation_token st) →
  subscribe st r = (st', Ok sub) → sub_incoming_token sub = Some d → (0 < sub_capacity sub)%Z →
  let step := subscription_step sub d in
  rtc (λ s s', ∃ a, step a s s') (subscribe_tasks (gs_tokens st') names broadcast (bool_decide (is_Some (sub_snapshot sub)))) s →
  tk_ping s = PingEnded ∨ tk_loop s = None ∨ is_cancelled (sub_token sub) (tk_tokens s) = true ∨
    (incoming_ended (tk_incoming s) = true ∧ ∀ p, tk_loop s = Some p → phase_listening p) →
  (∃ s', rtc (λ s1 s2, ∃ a, match a with
                            | ActTask | ActReconstruction => True
                            | ActClientReceives => tk_receiver s = true
                            | _ => False
                            end ∧ step a s1 s2) s s' ∧ all_ended s') ∧
  ((∀ msg, tk_ping s ≠ PingSending msg) → tk_incoming_send s = None → tk_spawned s = [] →
   (∀ p, tk_loop s = Some p → phase_selects p) →
   ∃ n s', (n <= 3)%nat ∧ nsteps (step ActTask) n s s' ∧ all_ended s').
Proof.
  intros Hk Hsub Hd Hcap step Hsteps Hended. assert (0 < Z.to_nat (sub_capacity sub))%nat as Hpos by lia.
  destruct (subscription_tokens MethodSubscribe st r st' sub d Hk Hsub Hd) as (H1 & H2 & H3 & H4).
  assert (tasks_inv (Z.to_nat (sub_capacity sub)) (sub_token sub) d s) as Hinv.
  { eapply tasks_inv_reach; [exact H1|exact H2|exact H3|exact H4|]. eapply rtc_subrel; [|exact Hsteps]. intros x y [a Ha]. by exists a. }
  assert (ending (LL := subscribe_loop_laws replay_enabled) (sub_token sub) s) as Hend by exact Hended. split.
  - destruct (ending_closes (subscribe_turn pubkey_display pubkey_error_display signature_error_display limits)
      (λ now, FilteredUpdate_new_empty now FuPing) _ (sub_token sub) d Hpos s Hinv Hend) as (s' & (Hs' & _) & He).
    exists s'. split; [|done]. eapply rtc_subrel; [|exact Hs']. intros x y (a & Ha & Hs). by exists a.
  - intros Hping Hi Hsp Hl. eapply idle_ends; [exact Hpos|exact Hinv| |exact Hend].
    split; [done..|]. intros c Hc. by apply phase_selects_work, Hl.
Qed.

(** Replaying for a client that keeps its receiver and does not read, the
    subscription keeps its session whatever is cancelled. *)
Lemma blocked_replay_stays {Snapshot} (sub : Subscription (Snapshot := Snapshot)) d (s s' : SubscribeTasks) k c u updates messages :
  tk_loop s = Some (PhaseSending k c (u :: updates) messages) → tk_ping s = PingEnded → incoming_ended (tk_incoming s) = true →
  tk_incoming_send s = None → next_tx (Z.to_nat (sub_capacity sub)) s = TxFull → ¬ subscription_step sub d ActTask s s'.
Proof.
  intros Hl Hping Hi Hs Hn. apply blocked_tasks_stay. split; [done|by left|by right|].
  intros c0 Hc0 c' queue r queue'. rewrite Hl in Hc0. injection Hc0 as <-. unfold loop_now. cbn.
  split; [by intros Hx; inv Hx|]. split; [by intros Hx; inv Hx|]. unfold next_tx in Hn. intros Hx. inv Hx; unfold StreamItem in *; cbn in *; congruence.
Qed.
End subscription.

(** ** The tasks of [subscribe_deshred] *)

Section deshred_tasks.
Context {Hp : Http} {T : CancellationTokens} {TL : CancellationTokensLaws} {X : Externals} {B : Broadcast Message}.
Context (pubkey_display : Pubkey → string) (pubkey_error_display : ParsePubkeyError → string)
  (signature_error_display : ParseSignatureError → string) (limits : FilterLimits).

Definition deshred_set_out (c : DeshredClient) (out : list (result TonicStatus FilteredUpdateDeshred)) : DeshredClient :=
  mkDeshredClient (dc_filter c) (dc_messages_rx c) out (dc_disconnect_reason c).

Inductive deshred_cancelled_branch (tx : nat → TrySend) : DeshredClient → DeshredClient → Prop :=
| deshred_cancelled c : deshred_cancelled_branch tx c (on_deshred_cancelled tx c).

Inductive deshred_request_branch (tx : nat → TrySend) : DeshredClient → list (option DeshredFilter) → bool →
    outcome DeshredClient → list (option DeshredFilter) → Prop :=
| deshred_request c queue ended :
    queue ≠ [] ∨ ended = true → deshred_request_branch tx c queue ended (Done (on_deshred_request c queue ended)) [].

Inductive deshred_broadcast_branch (tx : nat → TrySend) : bool → DeshredClient → outcome DeshredClient → Prop :=
| deshred_broadcast cancelled ch c c' :
    on_deshred_broadcast tx c (broadcast_recv ch (dc_messages_rx c)) = Some c' →
    deshred_broadcast_branch tx cancelled c (Done c').

(** The deshred loop has no blocking [send] and asks for no replay. *)
#[global] Instance deshred_loop : LoopTask FilteredUpdateDeshred DeshredFilter DeshredClient := {|
  loop_out := dc_out;
  loop_set_out := deshred_set_out;
  loop_reason := dc_disconnect_reason;
  loop_cancelled := deshred_cancelled_branch;
  loop_request := deshred_request_branch;
  loop_turn := deshred_broadcast_branch;
  loop_answer _ _ _ := False
|}.

#[global] Program Instance deshred_loop_laws : LoopTaskLaws FilteredUpdateDeshred DeshredFilter DeshredClient := {|
  loop_work _ := 0%nat;
  loop_asking _ := false;
  loop_listening _ := True
|}.
Next Obligation. done. Qed.
Next Obligation. done. Qed.
Next Obligation. done. Qed.
Next Obligation. done. Qed.
Next Obligation.
  intros tx c _. eexists. split; [constructor|]. split; [done|]. cbn. destruct (tx _); [right|by left..]. split; [done|by eexists].
Qed.
Next Obligation. intros tx c queue _ _. eexists _, []. split; [constructor; by right|done]. Qed.
Next Obligation. done. Qed.
Next Obligation. done. Qed.

Definition deshred_task_step (capacity : nat) (client_token incoming_token : token) :=
  task_step (deshred_subscribe_turn pubkey_display pubkey_error_display signature_error_display limits)
    (λ now, FilteredUpdateDeshred_new_empty now FudPing) capacity client_token incoming_token.

(** The same holds of a deshred subscription, whose loop always listens. *)
Theorem deshred_tasks_end {Snapshot} (st st' : GrpcService (Snapshot := Snapshot)) r sub d names ch s :
  token_known (gs_tokens st) (gs_cancellation_token st) →
  subscribe_deshred st r = (st', Ok sub) → sub_incoming_token sub = Some d → (0 < sub_capacity sub)%Z →
  let step := deshred_task_step (Z.to_nat (sub_capacity sub)) (sub_token sub) d in
  rtc (λ s s', ∃ a, step a s s') (Tasks_new (gs_tokens st') names (DeshredClient_new ch)) s →
  tk_ping s = PingEnded ∨ tk_loop s = None ∨ is_cancelled (sub_token sub) (tk_tokens s) = true ∨
    incoming_ended (tk_incoming s) = true →
  (∃ s', rtc (λ s1 s2, ∃ a, closing (tk_receiver s) a ∧ step a s1 s2) s s' ∧ all_ended s') ∧
  ((∀ msg, tk_ping s ≠ PingSending msg) → tk_incoming_send s = None → tk_spawned s = [] →
   ∃ n s', (n <= 3)%nat ∧ nsteps (step ActTask) n s s' ∧ all_ended s').
Proof.
  intros Hk Hsub Hd Hcap step Hsteps Hended. assert (0 < Z.to_nat (sub_capacity sub))%nat as Hpos by lia.
  destruct (subscription_tokens MethodSubscribeDeshred st r st' sub d Hk Hsub Hd) as (H1 & H2 & H3 & H4).
  assert (tasks_inv (Z.to_nat (sub_capacity sub)) (sub_token sub) d s) as Hinv.
  { eapply tasks_inv_reach; [exact H1|exact H2|exact H3|exact H4|]. eapply rtc_subrel; [|exact Hsteps]. intros x y [a Ha]. by exists a. }
  assert (ending (sub_token sub) s) as Hend by by destruct Hended as [|[|[|]]]; [left|right; left|right; right; left|right; right; right].
  split.
  - by destruct (ending_closes (deshred_subscribe_turn pubkey_display pubkey_error_display signature_error_display limits)
      (λ now, FilteredUpdateDeshred_new_empty now FudPing) _ (sub_token sub) d Hpos s Hinv Hend) as (s' & (Hs' & _) & He); exists s'.
  - intros Hping Hi Hsp. by eapply idle_ends; [exact Hpos|exact Hinv|split|exact Hend].
Qed.
End deshred_tasks.

(** ** A client that goes away *)

Section witnesses.
#[local] Existing Instances demo_http tree_tokens tree_tokens_laws toy_externals ring_broadcast ring_broadcast_laws.

Definition demo_opened : GrpcService (Snapshot := string) * result TonicStatus Subscription :=
  subscribe (sv_service demo_start) (demo_call "a" false).

Definition demo_subscription : Subscription (Snapshot := string) :=
  mkSubscription 0 "a" "" (Some "a"%string) [0%nat] (Some [1; 0]%nat) 10 None.

Lemma demo_opened_ok : demo_opened = (demo_opened.1, Ok demo_subscription).
Proof. by vm_compute. Qed.

Definition demo_names : FilterNames := FilterNames_new 0 10 10 10.

Definition demo_tasks : SubscribeTasks := subscribe_tasks (gs_tokens demo_opened.1) demo_names loop_channels0 false.

(** The ping task is in its [send] when the client drops its stream. *)
Definition demo_ping : SubscribeTasks := with_ping demo_tasks (PingSending (FilteredUpdate_new_empty (mkTimestamp 0 0) FuPing)).
Definition demo_alone : SubscribeTasks := with_client demo_ping 0 false.
Definition demo_left : SubscribeTasks :=
  with_ping (with_tokens demo_alone (cancel (sub_token demo_subscription) (tk_tokens demo_alone))) PingEnded.

Definition demo_step : Actor → SubscribeTasks → SubscribeTasks → Prop :=
  subscription_step (λ _, "") (λ _, "") (λ _, "") FilterLimits_default true demo_subscription [1; 0]%nat.

Lemma demo_left_reached : rtc (λ s s', ∃ a, demo_step a s s') demo_tasks demo_left.
Proof.
  eapply rtc_l; [exists ActTask; by apply (task_ping_tick _ _ _ _ _ demo_tasks (mkTimestamp 0 0))|].
  eapply rtc_l; [exists ActClientDrops; by apply (task_receiver_gone _ _ _ _ _ demo_ping)|].
  apply rtc_once. exists ActTask. by eapply (task_ping_dead _ _ _ _ _ demo_alone).
Qed.

Lemma subscription_tasks_end_witness :
  (∃ s', rtc (λ s1 s2, ∃ a, match a with ActTask | ActReconstruction => True | ActClientReceives => tk_receiver demo_left = true | _ => False end
                        ∧ demo_step a s1 s2) demo_left s' ∧ all_ended s') ∧
  ∃ n s', (n <= 3)%nat ∧ nsteps (demo_step ActTask) n demo_left s' ∧ all_ended s'.
Proof.
  destruct (subscription_tasks_end (λ _, ""%string) (λ _, ""%string) (λ _, ""%string) FilterLimits_default true
    (sv_service demo_start) demo_opened.1 (demo_call "a" false) demo_subscription [1; 0]%nat demo_names loop_channels0 demo_left)
    as [Hends Hidle].
  - apply new_known.
  - exact demo_opened_ok.
  - reflexivity.
  - reflexivity.
  - exact demo_left_reached.
  - by left.
  - split; [exact Hends|]. apply Hidle; [done|done|done|]. intros p Hp. injection Hp as <-. exact I.
Defined.

(** A client that keeps its stream and reads nothing, over a channel of one
    item: after the second tick and the cancellation the ping task stays. *)
Definition demo_item : FilteredUpdate := FilteredUpdate_new_empty (mkTimestamp 0 0) FuPing.
Definition demo_one_step : Actor → SubscribeTasks → SubscribeTasks → Prop :=
  subscribe_step (λ _, "") (λ _, "") (λ _, "") FilterLimits_default 1 [0%nat] [1; 0]%nat true.
Definition demo_second : SubscribeTasks := with_ping (with_out demo_tasks [Ok demo_item]) (PingSending demo_item).
Definition demo_cancelled : SubscribeTasks := with_tokens demo_second (cancel [0%nat] (tk_tokens demo_second)).
Definition demo_unread : SubscribeTasks := with_incoming demo_cancelled (task_end (tk_incoming demo_cancelled)) None.
Definition demo_returned : ClientPhase := PhaseLive (on_cancelled (tk_tx 1 demo_unread) (set_out (Client_new loop_channels0) [Ok demo_item])).
Definition demo_stuck : SubscribeTasks :=
  run_loop (L := subscribe_loop true) 1 [0%nat] demo_unread (Done demo_returned) (it_queue (tk_incoming demo_unread)).

Lemma demo_stuck_reached : rtc (λ s s', ∃ a, demo_one_step a s s') demo_tasks demo_stuck.
Proof.
  eapply rtc_l; [exists ActTask; by apply (task_ping_tick _ _ _ _ _ demo_tasks (mkTimestamp 0 0))|].
  eapply rtc_l; [exists ActTask; by apply (task_ping_sent _ _ _ _ _ (with_ping demo_tasks (PingSending demo_item)) demo_item)|].
  eapply rtc_l; [exists ActTask; by apply (task_ping_tick _ _ _ _ _ (with_ping (with_out demo_tasks [Ok demo_item]) PingWaiting) (mkTimestamp 0 0))|].
  eapply rtc_l; [exists ActCancels; apply (task_cancel_elsewhere _ _ _ _ _ demo_second [0%nat])|].
  { assert (∃ st', subscribe (sv_service demo_start) (demo_call "a" false) = (st', Ok demo_subscription) ∧ gs_tokens st' = tk_tokens demo_second)
      as (st' & Hs & <-) by (exists demo_opened.1; by split; [exact demo_opened_ok|]).
    apply (proj1 (subscription_tokens MethodSubscribe (sv_service demo_start) _ _ _ [1; 0]%nat new_known Hs eq_refl)). }
  eapply rtc_l; [exists ActTask; by apply (task_incoming_cancelled _ _ _ _ _ demo_cancelled)|].
  apply rtc_once. exists ActTask.
  by apply (task_loop_cancelled (L := subscribe_loop true) _ _ _ _ _ demo_unread (PhaseLive (Client_new loop_channels0)) demo_returned);
    [..|apply cancelled_live].
Qed.

Lemma ping_stuck s' : is_cancelled [0%nat] (tk_tokens demo_stuck) = true ∧ tk_ping demo_stuck ≠ PingEnded ∧ ¬ demo_one_step ActTask demo_stuck s'.
Proof.
  split; [done|]. split; [done|]. apply blocked_tasks_stay. split; [done|right; by eexists|by right|done].
Qed.
End witnesses.
