(* ===== verification/Metrics.v ===== *)
(** * metrics.rs: the metrics of the plugin

    The table of metrics, what each function writes to which of them, and the
    gauges that follow the state of the server: the filters of the live
    sessions and the permits of each subscriber. The prometheus crate is what
    its documentation says of it: a vector panics on a wrong number of label
    values, removing labels that are not there is an error, and a registry
    refuses a second collector of the same name. The HTTP service that serves
    the registry is not modelled. *)

From S2P Require Import Prelude F64 Message Limits Names Externals FilterBase Filter Service.
From Stdlib Require Import Floats.SpecFloat.

Set Default Goal Selector "!".

Local Open Scope Z_scope.

(** ** The table *)

Inductive Metric :=
| VERSION
| SLOT_STATUS
| SLOT_STATUS_PLUGIN
| INVALID_FULL_BLOCKS
| MESSAGE_QUEUE_SIZE
| DESHRED_QUEUE_SIZE
| BLOCK_RECONSTRUCTION_QUEUE_SIZE
| SUBSCRIPTIONS_TOTAL
| MISSED_STATUS_MESSAGE
| GRPC_MESSAGE_SENT
| GRPC_SUBSCRIBER_SEND_BANDWIDTH_LOAD
| GRPC_SUBSCRIBER_QUEUE_SIZE
| GRPC_CLIENT_DISCONNECTS
| GEYSER_ACCOUNT_UPDATE_RECEIVED
| PRE_ENCODED_CACHE_HIT
| PRE_ENCODED_CACHE_MISS
| GRPC_CONCURRENT_SUBSCRIBE_PER_SUBSCRIBER_ID
| TOTAL_TRAFFIC_SENT
| GRPC_METHOD_CALL_COUNT
| GRPC_SUBSCRIPTION_LIMIT_EXCEEDED
| GRPC_SERVICE_OUTBOUND_BYTES
| GEYSER_EVENT_DROPPED
| GEYSER_BLOCK_MISMATCH_TRANSACTION
| GEYSER_UNTRACK_SLOT_EVENT_DROPPED
| IP_CONNCUR_RATE_LIMIT_EXCEEDED
| UNAUTHORIZED_COUNT
| AUTHORIZED_COUNT
| METHOD_RATELIMITED_COUNT
| FILTER_STATS.

#[global] Instance Metric_eq_dec : EqDecision Metric.
Proof. solve_decision. Defined.

Inductive MetricKind := IntCounter | IntCounterVec | IntGauge | IntGaugeVec | Histogram | HistogramVec.

Definition metric_kind (m : Metric) : MetricKind :=
  match m with
  | TOTAL_TRAFFIC_SENT | GEYSER_BLOCK_MISMATCH_TRANSACTION | GEYSER_UNTRACK_SLOT_EVENT_DROPPED
  | UNAUTHORIZED_COUNT | AUTHORIZED_COUNT => IntCounter
  | VERSION | MISSED_STATUS_MESSAGE | GRPC_MESSAGE_SENT | GRPC_CLIENT_DISCONNECTS
  | PRE_ENCODED_CACHE_HIT | PRE_ENCODED_CACHE_MISS | GRPC_METHOD_CALL_COUNT
  | GRPC_SUBSCRIPTION_LIMIT_EXCEEDED | GEYSER_EVENT_DROPPED | IP_CONNCUR_RATE_LIMIT_EXCEEDED
  | METHOD_RATELIMITED_COUNT => IntCounterVec
  | MESSAGE_QUEUE_SIZE | DESHRED_QUEUE_SIZE | BLOCK_RECONSTRUCTION_QUEUE_SIZE => IntGauge
  | SLOT_STATUS | SLOT_STATUS_PLUGIN | INVALID_FULL_BLOCKS | SUBSCRIPTIONS_TOTAL
  | GRPC_SUBSCRIBER_SEND_BANDWIDTH_LOAD | GRPC_CONCURRENT_SUBSCRIBE_PER_SUBSCRIBER_ID
  | GRPC_SERVICE_OUTBOUND_BYTES => IntGaugeVec
  | GEYSER_ACCOUNT_UPDATE_RECEIVED => Histogram
  | GRPC_SUBSCRIBER_QUEUE_SIZE | FILTER_STATS => HistogramVec
  end.

Definition metric_name (m : Metric) : string :=
  match m with
  | VERSION => "yellowstone_grpc_geyser_version"
  | SLOT_STATUS => "yellowstone_grpc_geyser_slot_status"
  | SLOT_STATUS_PLUGIN => "yellowstone_grpc_geyser_slot_status_plugin"
  | INVALID_FULL_BLOCKS => "yellowstone_grpc_geyser_invalid_full_blocks_total"
  | MESSAGE_QUEUE_SIZE => "yellowstone_grpc_geyser_message_queue_size"
  | DESHRED_QUEUE_SIZE => "yellowstone_grpc_geyser_deshred_queue_size"
  | BLOCK_RECONSTRUCTION_QUEUE_SIZE => "yellowstone_grpc_geyser_block_reconstruction_queue_size"
  | SUBSCRIPTIONS_TOTAL => "yellowstone_grpc_geyser_subscriptions_total"
  | MISSED_STATUS_MESSAGE => "yellowstone_grpc_geyser_missed_status_message_total"
  | GRPC_MESSAGE_SENT => "yellowstone_grpc_geyser_message_sent_count"
  | GRPC_SUBSCRIBER_SEND_BANDWIDTH_LOAD => "yellowstone_grpc_geyser_subscriber_send_bandwidth_load"
  | GRPC_SUBSCRIBER_QUEUE_SIZE => "yellowstone_grpc_geyser_subscriber_queue_size"
  | GRPC_CLIENT_DISCONNECTS => "yellowstone_grpc_geyser_client_disconnects_total"
  | GEYSER_ACCOUNT_UPDATE_RECEIVED => "yellowstone_grpc_geyser_account_update_data_size_kib"
  | PRE_ENCODED_CACHE_HIT => "yellowstone_grpc_geyser_pre_encoded_cache_hit"
  | PRE_ENCODED_CACHE_MISS => "yellowstone_grpc_geyser_pre_encoded_cache_miss"
  | GRPC_CONCURRENT_SUBSCRIBE_PER_SUBSCRIBER_ID => "yellowstone_grpc_geyser_concurrent_subscribe_per_subscriber_id"
  | TOTAL_TRAFFIC_SENT => "yellowstone_grpc_geyser_total_traffic_sent_bytes"
  | GRPC_METHOD_CALL_COUNT => "yellowstone_grpc_geyser_method_call_count"
  | GRPC_SUBSCRIPTION_LIMIT_EXCEEDED => "yellowstone_grpc_geyser_subscription_limit_exceeded_total"
  | GRPC_SERVICE_OUTBOUND_BYTES => "yellowstone_grpc_geyser_service_outbound_bytes"
  | GEYSER_EVENT_DROPPED => "yellowstone_grpc_geyser_event_dropped_total"
  | GEYSER_BLOCK_MISMATCH_TRANSACTION => "yellowstone_grpc_geyser_block_mismatch_transaction"
  | GEYSER_UNTRACK_SLOT_EVENT_DROPPED => "yellowstone_grpc_geyser_untrack_slot_event_dropped_total"
  | IP_CONNCUR_RATE_LIMIT_EXCEEDED => "yellowstone_grpc_geyser_ip_concurrent_rate_limit_exceeded_total"
  | UNAUTHORIZED_COUNT => "yellowstone_grpc_geyser_unauthorized_count_total"
  | AUTHORIZED_COUNT => "yellowstone_grpc_geyser_authorized_count_total"
  | METHOD_RATELIMITED_COUNT => "yellowstone_grpc_geyser_method_ratelimited_count_total"
  | FILTER_STATS => "yellowstone_grpc_geyser_filter_stats"
  end.

(** The labels a vector is made with; [[]] for a metric that is not one. *)
Definition metric_labels (m : Metric) : list string :=
  match m with
  | VERSION => ["buildts"; "git"; "package"; "proto"; "rustc"; "solana"; "version"]
  | SLOT_STATUS => ["status"]
  | SLOT_STATUS_PLUGIN => ["status"]
  | INVALID_FULL_BLOCKS => ["reason"]
  | SUBSCRIPTIONS_TOTAL => ["endpoint"; "subscription"]
  | MISSED_STATUS_MESSAGE => ["status"]
  | GRPC_MESSAGE_SENT => ["subscriber_id"]
  | GRPC_SUBSCRIBER_SEND_BANDWIDTH_LOAD => ["subscriber_id"]
  | GRPC_SUBSCRIBER_QUEUE_SIZE => ["subscriber_id"; "kind"]
  | GRPC_CLIENT_DISCONNECTS => ["subscriber_id"; "reason"]
  | PRE_ENCODED_CACHE_HIT => ["type"]
  | PRE_ENCODED_CACHE_MISS => ["type"]
  | GRPC_CONCURRENT_SUBSCRIBE_PER_SUBSCRIBER_ID => ["subscriber_id"]
  | GRPC_METHOD_CALL_COUNT => ["method"]
  | GRPC_SUBSCRIPTION_LIMIT_EXCEEDED => ["subscriber_id"]
  | GRPC_SERVICE_OUTBOUND_BYTES => ["subscriber_id"; "uri_path"]
  | GEYSER_EVENT_DROPPED => ["event"]
  | IP_CONNCUR_RATE_LIMIT_EXCEEDED => ["remote_peer_ip"]
  | METHOD_RATELIMITED_COUNT => ["subscriber_id"; "method"]
  | FILTER_STATS => ["subscriber_id"; "type"; "prop"]
  | _ => []
  end.

(** In the order they are declared, registered and reset. *)
Definition METRICS : list Metric :=
  [VERSION; SLOT_STATUS; SLOT_STATUS_PLUGIN; INVALID_FULL_BLOCKS; MESSAGE_QUEUE_SIZE;
   DESHRED_QUEUE_SIZE; BLOCK_RECONSTRUCTION_QUEUE_SIZE; SUBSCRIPTIONS_TOTAL;
   MISSED_STATUS_MESSAGE; GRPC_MESSAGE_SENT; GRPC_SUBSCRIBER_SEND_BANDWIDTH_LOAD;
   GRPC_SUBSCRIBER_QUEUE_SIZE; GRPC_CLIENT_DISCONNECTS; GEYSER_ACCOUNT_UPDATE_RECEIVED;
   PRE_ENCODED_CACHE_HIT; PRE_ENCODED_CACHE_MISS; GRPC_CONCURRENT_SUBSCRIBE_PER_SUBSCRIBER_ID;
   TOTAL_TRAFFIC_SENT; GRPC_METHOD_CALL_COUNT; GRPC_SUBSCRIPTION_LIMIT_EXCEEDED;
   GRPC_SERVICE_OUTBOUND_BYTES; GEYSER_EVENT_DROPPED; GEYSER_BLOCK_MISMATCH_TRANSACTION;
   GEYSER_UNTRACK_SLOT_EVENT_DROPPED; IP_CONNCUR_RATE_LIMIT_EXCEEDED; UNAUTHORIZED_COUNT;
   AUTHORIZED_COUNT; METHOD_RATELIMITED_COUNT; FILTER_STATS].

Definition REGISTERED : list Metric :=
  [VERSION; SLOT_STATUS; SLOT_STATUS_PLUGIN; INVALID_FULL_BLOCKS; MESSAGE_QUEUE_SIZE;
   BLOCK_RECONSTRUCTION_QUEUE_SIZE; SUBSCRIPTIONS_TOTAL; MISSED_STATUS_MESSAGE;
   GRPC_MESSAGE_SENT; GEYSER_ACCOUNT_UPDATE_RECEIVED; GRPC_SUBSCRIBER_SEND_BANDWIDTH_LOAD;
   GRPC_SUBSCRIBER_QUEUE_SIZE; GRPC_CLIENT_DISCONNECTS; PRE_ENCODED_CACHE_HIT;
   PRE_ENCODED_CACHE_MISS; GRPC_CONCURRENT_SUBSCRIBE_PER_SUBSCRIBER_ID; TOTAL_TRAFFIC_SENT;
   GRPC_METHOD_CALL_COUNT; GRPC_SUBSCRIPTION_LIMIT_EXCEEDED; GRPC_SERVICE_OUTBOUND_BYTES;
   GEYSER_EVENT_DROPPED; GEYSER_BLOCK_MISMATCH_TRANSACTION; GEYSER_UNTRACK_SLOT_EVENT_DROPPED;
   IP_CONNCUR_RATE_LIMIT_EXCEEDED; UNAUTHORIZED_COUNT; AUTHORIZED_COUNT;
   METHOD_RATELIMITED_COUNT; FILTER_STATS].

Definition RESET : list Metric :=
  [MESSAGE_QUEUE_SIZE; DESHRED_QUEUE_SIZE; BLOCK_RECONSTRUCTION_QUEUE_SIZE; SUBSCRIPTIONS_TOTAL;
   SLOT_STATUS; SLOT_STATUS_PLUGIN; INVALID_FULL_BLOCKS; GRPC_SUBSCRIBER_SEND_BANDWIDTH_LOAD;
   GRPC_SUBSCRIBER_QUEUE_SIZE; MISSED_STATUS_MESSAGE; GRPC_MESSAGE_SENT;
   GRPC_CLIENT_DISCONNECTS; GRPC_CONCURRENT_SUBSCRIBE_PER_SUBSCRIBER_ID; TOTAL_TRAFFIC_SENT;
   GRPC_SERVICE_OUTBOUND_BYTES; GRPC_SUBSCRIPTION_LIMIT_EXCEEDED; GRPC_METHOD_CALL_COUNT;
   PRE_ENCODED_CACHE_HIT; PRE_ENCODED_CACHE_MISS; GEYSER_EVENT_DROPPED;
   GEYSER_BLOCK_MISMATCH_TRANSACTION; GEYSER_UNTRACK_SLOT_EVENT_DROPPED;
   IP_CONNCUR_RATE_LIMIT_EXCEEDED; UNAUTHORIZED_COUNT; AUTHORIZED_COUNT;
   METHOD_RATELIMITED_COUNT; FILTER_STATS].

(** ** Reading and writing *)

(** A time series is a metric and its label values. *)
Definition Series : Type := Metric * list string.

#[global] Instance Metric_countable : Countable Metric.
Proof.
  refine (inj_countable' metric_name (λ s, default VERSION (list_find (λ m, metric_name m = s) METRICS ≫= λ p, Some p.2)) _).
  by intros [].
Defined.

Record Store := mkStore {
  st_values : gmap Series Z;
  st_observed : gmap Series (list spec_float)
}.

(** [with_label_values], and a metric that is not a vector. *)
Definition with_label_values (m : Metric) (values : list string) : outcome Series :=
  if bool_decide (length values = length (metric_labels m)) then Done (m, values) else Panic.

Definition wrap_i64 (z : Z) : Z := (z + 2 ^ 63) mod 2 ^ 64 - 2 ^ 63.

(** Counters are [u64]s and gauges [i64]s. *)
Definition wrap_metric (m : Metric) (z : Z) : Z :=
  match metric_kind m with IntGauge | IntGaugeVec => wrap_i64 z | _ => wrap64 z end.

Definition value (s : Store) (series : Series) : Z := default 0 (st_values s !! series).

Definition metric_add (m : Metric) (values : list string) (z : Z) (s : Store) : outcome Store :=
  series ← with_label_values m values;
  Done (mkStore (<[series := wrap_metric m (value s series + z)]> (st_values s)) (st_observed s)).

Definition metric_set (m : Metric) (values : list string) (z : Z) (s : Store) : outcome Store :=
  series ← with_label_values m values; Done (mkStore (<[series := z]> (st_values s)) (st_observed s)).

Definition metric_observe (m : Metric) (values : list string) (x : spec_float) (s : Store) : outcome Store :=
  series ← with_label_values m values;
  Done (mkStore (st_values s) (<[series := default [] (st_observed s !! series) ++ [x]]> (st_observed s))).

(** [remove_label_values(..).expect(..)]. *)
Definition metric_remove (m : Metric) (values : list string) (s : Store) : outcome Store :=
  match st_values s !! (m, values) with
  | Some _ => Done (mkStore (delete (m, values) (st_values s)) (st_observed s))
  | None => Panic
  end.

Definition metric_reset (m : Metric) (s : Store) : Store :=
  mkStore (filter (λ kv, kv.1.1 ≠ m) (st_values s)) (filter (λ kv, kv.1.1 ≠ m) (st_observed s)).

(** ** The functions *)

Definition observe_each {A} (f : A → Store → outcome Store) (l : list A) (s : Store) : outcome Store :=
  foldM (λ s x, f x s) s l.

Definition stat (subscriber_id kind prop : string) (x : spec_float) : Store → outcome Store :=
  metric_observe FILTER_STATS [subscriber_id; kind; prop] x.

Definition f64_of_bool (b : bool) : spec_float := usize_as_f64 (if b then 1 else 0).

Definition observe_txn_stats (subscriber_id kind : string) (score : TxnFilterStats) (s : Store) : outcome Store :=
  s ← stat subscriber_id kind "accounts_include_len" (usize_as_f64 (tfs_accounts_include_len score)) s;
  s ← stat subscriber_id kind "accounts_exclude_len" (usize_as_f64 (tfs_accounts_exclude_len score)) s;
  s ← stat subscriber_id kind "accounts_required_len" (usize_as_f64 (tfs_accounts_required_len score)) s;
  stat subscriber_id kind "token_accounts_enabled" (f64_of_bool (tfs_token_accounts_enabled score)) s.

Definition observe_filter_complexity (subscriber_id : string) (observation : FilterStats) (s : Store) : outcome Store :=
  let stat := stat subscriber_id in
  s ← stat "accounts" "len" (usize_as_f64 (len (st_accounts observation))) s;
  s ← observe_each (λ score s,
        s ← stat "accounts" "accounts_len" (usize_as_f64 (afs_accounts_len score)) s;
        stat "accounts" "owners_len" (usize_as_f64 (afs_owners_len score)) s) (st_accounts observation) s;
  s ← stat "transactions" "len" (usize_as_f64 (len (st_transactions observation))) s;
  s ← observe_each (observe_txn_stats subscriber_id "transactions") (st_transactions observation) s;
  s ← stat "transaction_status" "len" (usize_as_f64 (len (st_transaction_status observation))) s;
  s ← observe_each (observe_txn_stats subscriber_id "transaction_status") (st_transaction_status observation) s;
  s ← stat "blocks" "len" (usize_as_f64 (len (st_blocks observation))) s;
  observe_each (λ score s,
    s ← stat "blocks" "include_len" (usize_as_f64 (bfs_include_len score)) s;
    stat "blocks" "exclude_len" (usize_as_f64 (bfs_exclude_len score)) s) (st_blocks observation) s.

Definition update_invalid_blocks (reason : string) (s : Store) : outcome Store :=
  s ← metric_add INVALID_FULL_BLOCKS [reason] 1 s; metric_add INVALID_FULL_BLOCKS ["all"] 1 s.

(** The body of the loop of [update_subscriptions]. *)
Definition count_filter (endpoint : string) (multiplier : Z) (f : Filter) (s : Store) : outcome Store :=
  s ← metric_add SUBSCRIPTIONS_TOTAL [endpoint; "grpc_total"] multiplier s;
  observe_each (λ '(name, v) s,
    metric_add SUBSCRIPTIONS_TOTAL [endpoint; name] (wrap_i64 (wrap_i64 v * multiplier)) s) (get_metrics f) s.

Definition update_subscriptions (endpoint : string) (old new : option Filter) (s : Store) : outcome Store :=
  observe_each (λ '(multiplier, f) s, match f with Some f => count_filter endpoint multiplier f s | None => Done s end)
    [(-1, old); (1, new)] s.

(** The others, by what they are called with. *)
Inductive MetricCall :=
| incr_ip_conncur_rate_limit_exceeded (remote_peer_ip : option string)
| incr_unauthorized_count
| incr_authorized_count
| incr_method_ratelimited_count (subscriber_id method : string)
| incr_geyser_event_dropped (event : string)
| incr_geyser_block_mismatch_transaction
| incr_geyser_untrack_slot_event_dropped
| incr_grpc_message_sent_counter (remote_id : string)
| update_slot_status (status : string) (slot : Z)
| update_slot_plugin_status (status : SlotStatus) (slot : Z)
| message_queue_size_inc
| deshred_queue_size_inc (amount : Z)
| block_reconstruction_queue_size_inc
| message_queue_size_dec
| message_queue_size_dec_by (amount : Z)
| deshred_queue_size_dec
| block_reconstruction_queue_size_dec_by (amount : Z)
| subscription_limit_exceeded_inc (subscriber_id : string)
| missed_status_message_inc (status : SlotStatus)
| observe_geyser_account_update_received (data_bytesize : Z)
| set_subscriber_send_bandwidth_load (subscriber_id : string) (load : Z)
| observe_subscriber_queue_size (subscriber_id : string) (size : Z) (kind : string)
| incr_client_disconnect (subscriber_id reason : string)
| pre_encoded_cache_hit (msg_type : string)
| pre_encoded_cache_miss (msg_type : string)
| incr_grpc_method_call_count (method : string)
| add_service_outbound_bytes (subscriber_id uri_path : string) (bytes : Z)
| reset_service_outbound_bytes (subscriber_id uri_path : string)
| add_traffic_sent (bytes : Z)
| set_grpc_concurrent_subscribe_per_subscriber_id (subscriber_id : string) (size : Z)
| remove_grpc_concurrent_subscribe_per_subscriber_id (subscriber_id : string).

Definition run_call (c : MetricCall) : Store → outcome Store :=
  match c with
  | incr_ip_conncur_rate_limit_exceeded ip => metric_add IP_CONNCUR_RATE_LIMIT_EXCEEDED [default "unknown"%string ip] 1
  | incr_unauthorized_count => metric_add UNAUTHORIZED_COUNT [] 1
  | incr_authorized_count => metric_add AUTHORIZED_COUNT [] 1
  | incr_method_ratelimited_count id method => metric_add METHOD_RATELIMITED_COUNT [id; method] 1
  | incr_geyser_event_dropped event => metric_add GEYSER_EVENT_DROPPED [event] 1
  | incr_geyser_block_mismatch_transaction => metric_add GEYSER_BLOCK_MISMATCH_TRANSACTION [] 1
  | incr_geyser_untrack_slot_event_dropped => metric_add GEYSER_UNTRACK_SLOT_EVENT_DROPPED [] 1
  | incr_grpc_message_sent_counter id => metric_add GRPC_MESSAGE_SENT [id] 1
  | update_slot_status status slot => metric_set SLOT_STATUS [status] (wrap_i64 slot)
  | update_slot_plugin_status status slot => metric_set SLOT_STATUS_PLUGIN [SlotStatus_as_str status] (wrap_i64 slot)
  | message_queue_size_inc => metric_add MESSAGE_QUEUE_SIZE [] 1
  | deshred_queue_size_inc amount => metric_add DESHRED_QUEUE_SIZE [] amount
  | block_reconstruction_queue_size_inc => metric_add BLOCK_RECONSTRUCTION_QUEUE_SIZE [] 1
  | message_queue_size_dec => metric_add MESSAGE_QUEUE_SIZE [] (-1)
  | message_queue_size_dec_by amount => metric_add MESSAGE_QUEUE_SIZE [] (- amount)
  | deshred_queue_size_dec => metric_add DESHRED_QUEUE_SIZE [] (-1)
  | block_reconstruction_queue_size_dec_by amount => metric_add BLOCK_RECONSTRUCTION_QUEUE_SIZE [] (- amount)
  | subscription_limit_exceeded_inc id => metric_add GRPC_SUBSCRIPTION_LIMIT_EXCEEDED [id] 1
  | missed_status_message_inc status => metric_add MISSED_STATUS_MESSAGE [SlotStatus_as_str status] 1
  | observe_geyser_account_update_received bytes =>
      metric_observe GEYSER_ACCOUNT_UPDATE_RECEIVED [] (f64_div (usize_as_f64 bytes) (usize_as_f64 1024))
  | set_subscriber_send_bandwidth_load id load => metric_set GRPC_SUBSCRIBER_SEND_BANDWIDTH_LOAD [id] load
  | observe_subscriber_queue_size id size kind => metric_observe GRPC_SUBSCRIBER_QUEUE_SIZE [id; kind] (usize_as_f64 size)
  | incr_client_disconnect id reason => metric_add GRPC_CLIENT_DISCONNECTS [id; reason] 1
  | pre_encoded_cache_hit msg_type => metric_add PRE_ENCODED_CACHE_HIT [msg_type] 1
  | pre_encoded_cache_miss msg_type => metric_add PRE_ENCODED_CACHE_MISS [msg_type] 1
  | incr_grpc_method_call_count method => metric_add GRPC_METHOD_CALL_COUNT [method] 1
  | add_service_outbound_bytes id path bytes => metric_add GRPC_SERVICE_OUTBOUND_BYTES [id; path] (wrap_i64 bytes)
  | reset_service_outbound_bytes id path => metric_set GRPC_SERVICE_OUTBOUND_BYTES [id; path] 0
  | add_traffic_sent bytes => metric_add TOTAL_TRAFFIC_SENT [] bytes
  | set_grpc_concurrent_subscribe_per_subscriber_id id size =>
      metric_set GRPC_CONCURRENT_SUBSCRIBE_PER_SUBSCRIBER_ID [id] (wrap_i64 size)
  | remove_grpc_concurrent_subscribe_per_subscriber_id id => metric_remove GRPC_CONCURRENT_SUBSCRIBE_PER_SUBSCRIBER_ID [id]
  end.

Definition reset_metrics (s : Store) : Store := foldl (λ s m, metric_reset m s) s RESET.

(** ** No function panics *)

Definition total (f : Store → outcome Store) : Prop := ∀ s, ∃ s', f s = Done s'.

Lemma total_bind f (g : Store → outcome Store) : total f → total g → total (λ s, s ← f s; g s).
Proof. intros Hf Hg s. destruct (Hf s) as [s1 E]. rewrite E. apply Hg. Qed.

Lemma total_add m values z : length values = length (metric_labels m) → total (metric_add m values z).
Proof. intros Hl s. unfold metric_add, with_label_values. rewrite bool_decide_eq_true_2 by done. by eexists. Qed.

Lemma total_set m values z : length values = length (metric_labels m) → total (metric_set m values z).
Proof. intros Hl s. unfold metric_set, with_label_values. rewrite bool_decide_eq_true_2 by done. by eexists. Qed.

Lemma total_observe m values x : length values = length (metric_labels m) → total (metric_observe m values x).
Proof. intros Hl s. unfold metric_observe, with_label_values. rewrite bool_decide_eq_true_2 by done. by eexists. Qed.

Lemma total_each {A} (f : A → Store → outcome Store) l : (∀ x, total (f x)) → total (observe_each f l).
Proof.
  intros Hf. unfold observe_each. induction l as [|x l IH]; intros s; cbn [foldM]; [by eexists|].
  destruct (Hf x s) as [s1 E]. rewrite E. apply IH.
Qed.

Create HintDb metrics.
#[local] Hint Resolve total_add total_set total_observe : metrics.

Lemma total_stat id kind prop x : total (stat id kind prop x).
Proof. by apply total_observe. Qed.
#[local] Hint Resolve total_stat : metrics.

Lemma total_txn_stats id kind score : total (observe_txn_stats id kind score).
Proof. unfold observe_txn_stats. repeat apply total_bind; apply total_stat. Qed.
#[local] Hint Resolve total_txn_stats : metrics.

Lemma total_count_filter endpoint multiplier f : total (count_filter endpoint multiplier f).
Proof. unfold count_filter. apply total_bind; [by apply total_add|]. apply total_each. intros [name v]. by apply total_add. Qed.

(** Every function that writes a metric gives it as many label values as the
    metric has labels, so that none panics, save the one that removes the
    labels of a subscriber, which panics exactly when they are not there; the
    names of the metrics registered are distinct, so that registering them does
    not panic either. *)
Theorem metric_functions_total :
  (∀ c, (∀ id, c ≠ remove_grpc_concurrent_subscribe_per_subscriber_id id) → total (run_call c)) ∧
  (∀ id s, run_call (remove_grpc_concurrent_subscribe_per_subscriber_id id) s = Panic ↔
     st_values s !! (GRPC_CONCURRENT_SUBSCRIBE_PER_SUBSCRIBER_ID, [id]) = None) ∧
  (∀ id observation, total (observe_filter_complexity id observation)) ∧
  (∀ endpoint old new, total (update_subscriptions endpoint old new)) ∧
  (∀ reason, total (update_invalid_blocks reason)) ∧
  NoDup (metric_name <$> REGISTERED).
Proof.
  split_and!.
  - intros c Hc. destruct c; cbn [run_call]; try (auto with metrics; fail).
    all: try (first [apply total_add|apply total_set|apply total_observe]; reflexivity).
    by destruct (Hc subscriber_id).
  - intros id s. cbn [run_call]. unfold metric_remove. by destruct (st_values s !! _).
  - intros id observation. unfold observe_filter_complexity. cbv zeta.
    repeat (lazymatch goal with
            | |- total (λ s, stat _ _ _ _ s ≫= _) => apply total_bind; [apply total_stat|]
            | |- total (λ s, observe_each _ _ s ≫= _) => apply total_bind; [apply total_each; intros|]
            | |- total (observe_each _ _) => apply total_each; intros
            | |- total (observe_txn_stats _ _ _) => apply total_txn_stats
            | |- total (stat _ _ _ _) => apply total_stat
            end).
  - intros endpoint old new. apply total_each. intros [multiplier [f|]]; [apply total_count_filter|by eexists].
  - intros reason. by apply total_bind; apply total_add.
  - apply (bool_decide_unpack _). by vm_compute.
Qed.

(** One gauge is written and reset but not registered: it is never served. *)
Lemma deshred_queue_size_not_served : filter (λ m, m ∉ REGISTERED) METRICS = [DESHRED_QUEUE_SIZE].
Proof. by vm_compute. Qed.

(** ** The subscriptions gauge *)

Lemma wrap_i64_mod a : wrap_i64 a mod 2 ^ 64 = a mod 2 ^ 64.
Proof. unfold wrap_i64. rewrite Zminus_mod_idemp_l. f_equal. lia. Qed.

Lemma wrap_i64_congr a b : a mod 2 ^ 64 = b mod 2 ^ 64 → wrap_i64 a = wrap_i64 b.
Proof. intros E. unfold wrap_i64. by rewrite <- Zplus_mod_idemp_l, E, Zplus_mod_idemp_l. Qed.

Lemma wrap_i64_add a b : wrap_i64 (wrap_i64 a + wrap_i64 b) = wrap_i64 (a + b).
Proof. apply wrap_i64_congr. by rewrite Zplus_mod, !wrap_i64_mod, <- Zplus_mod. Qed.

Lemma wrap_i64_add_r a b : wrap_i64 (wrap_i64 a + b) = wrap_i64 (a + b).
Proof. apply wrap_i64_congr. by rewrite Zplus_mod, !wrap_i64_mod, <- Zplus_mod. Qed.

Lemma wrap_i64_mul a b : wrap_i64 (wrap_i64 a * b) = wrap_i64 (a * b).
Proof. apply wrap_i64_congr. by rewrite Zmult_mod, wrap_i64_mod, <- Zmult_mod. Qed.

Lemma wrap_i64_small a : - 2 ^ 63 <= a < 2 ^ 63 → wrap_i64 a = a.
Proof. intros Ha. unfold wrap_i64. rewrite Z.mod_small; lia. Qed.

Definition named_total (name : string) (l : list (string * Z)) : Z :=
  foldr Z.add 0 ((λ kv, if bool_decide (kv.1 = name) then kv.2 else 0) <$> l).

(** What a filter counts for under a name. *)
Definition filter_count (name : string) (f : Filter) : Z :=
  (if bool_decide (name = "grpc_total"%string) then 1 else 0) + named_total name (get_metrics f).

Definition subscriptions (s : Store) (endpoint name : string) : Z := value s (SUBSCRIPTIONS_TOTAL, [endpoint; name]).

Lemma add_subscriptions endpoint name z s s' endpoint' name' v :
  metric_add SUBSCRIPTIONS_TOTAL [endpoint; name] z s = Done s' → subscriptions s endpoint' name' = wrap_i64 v →
  subscriptions s' endpoint' name' =
    wrap_i64 (v + (if bool_decide (endpoint = endpoint') then if bool_decide (name = name') then z else 0 else 0)).
Proof.
  unfold metric_add, with_label_values. cbn. intros [= <-] Hv. unfold subscriptions, value in *. cbn [st_values].
  destruct (decide ((endpoint, name) = (endpoint', name'))) as [[= -> ->]|Hne].
  - rewrite lookup_insert_eq, !bool_decide_eq_true_2 by done. cbn. rewrite Hv. apply wrap_i64_add_r.
  - rewrite lookup_insert_ne by (intros [=]; by subst). rewrite Hv. f_equal.
    case_bool_decide; [case_bool_decide|]; [|lia..]. by subst.
Qed.

Lemma each_subscriptions endpoint multiplier endpoint' name' l : ∀ s s' v,
  observe_each (λ '(name, v) s,
    metric_add SUBSCRIPTIONS_TOTAL [endpoint; name] (wrap_i64 (wrap_i64 v * multiplier)) s) l s = Done s' →
  subscriptions s endpoint' name' = wrap_i64 v →
  subscriptions s' endpoint' name' = wrap_i64 (v + (if bool_decide (endpoint = endpoint') then named_total name' l * multiplier else 0)).
Proof.
  unfold observe_each. induction l as [|[name x] l IH]; intros s s' v; cbn [foldM].
  { intros [= <-] ->. f_equal. cbn. case_bool_decide; lia. }
  destruct (metric_add _ _ _ s) as [s1|] eqn:E; [|done]. cbn [mbind outcome_bind]. intros Hrest Hv.
  rewrite wrap_i64_mul in E. pose proof (add_subscriptions _ _ _ _ _ endpoint' name' v E Hv) as H1.
  rewrite (IH s1 s' _ Hrest H1). cbn [named_total fmap list_fmap foldr fst snd]. fold (named_total name' l).
  case_bool_decide; [|f_equal; lia]. case_bool_decide.
  - rewrite (Z.add_comm v), <- Z.add_assoc, wrap_i64_add_r. f_equal. lia.
  - f_equal. lia.
Qed.

Lemma count_filter_subscriptions endpoint multiplier f s s' endpoint' name' v :
  count_filter endpoint multiplier f s = Done s' → subscriptions s endpoint' name' = wrap_i64 v →
  subscriptions s' endpoint' name' =
    wrap_i64 (v + (if bool_decide (endpoint = endpoint') then filter_count name' f * multiplier else 0)).
Proof.
  unfold count_filter. destruct (metric_add _ _ _ s) as [s1|] eqn:E; [|done]. cbn [mbind outcome_bind]. intros Hrest Hv.
  pose proof (add_subscriptions _ _ _ _ _ endpoint' name' v E Hv) as H1.
  rewrite (each_subscriptions _ _ _ _ _ s1 s' _ Hrest H1). f_equal. unfold filter_count.
  repeat case_bool_decide; subst; try done; lia.
Qed.

Lemma update_subscriptions_effect endpoint old new s s' endpoint' name' v :
  update_subscriptions endpoint old new s = Done s' → subscriptions s endpoint' name' = wrap_i64 v →
  let count o := from_option (filter_count name') 0 o in
  subscriptions s' endpoint' name' = wrap_i64 (v + (if bool_decide (endpoint = endpoint') then count new - count old else 0)).
Proof.
  unfold update_subscriptions, observe_each. cbn [foldM]. intros Hrun Hv. cbv zeta.
  assert (∃ s1, (match old with Some f => count_filter endpoint (-1) f s | None => Done s end) = Done s1 ∧
    (match new with Some f => count_filter endpoint 1 f s1 | None => Done s1 end) = Done s') as (s1 & H1 & H2).
  { destruct (match old with Some f => _ | None => _ end) as [s1|]; [|done]. exists s1. split; [done|].
    cbn [mbind outcome_bind] in Hrun. by destruct (match new with Some f => _ | None => _ end). }
  assert (subscriptions s1 endpoint' name' = wrap_i64 (v + (if bool_decide (endpoint = endpoint') then - from_option (filter_count name') 0 old else 0))) as Hs1.
  { destruct old as [f|]; [|injection H1 as <-; rewrite Hv; f_equal; case_bool_decide; cbn; lia].
    rewrite (count_filter_subscriptions _ _ _ _ _ endpoint' name' v H1 Hv). f_equal. case_bool_decide; cbn; lia. }
  destruct new as [f|]; [|injection H2 as <-; rewrite Hs1; f_equal; case_bool_decide; cbn; lia].
  rewrite (count_filter_subscriptions _ _ _ _ _ endpoint' name' _ H2 Hs1). f_equal. case_bool_decide; cbn; lia.
Qed.

(** ** What the server reports of its state *)

(** A live session, as far as it is counted. *)
Record MetricSession := mkMetricSession {
  ms_endpoint : string;
  ms_filter : Filter
}.

(** [try_insert] and the drop of a permit with the gauge they set. *)
Definition try_insert_metered (t : SubscriptionTracker) (id : string) (s : Store)
    : outcome (SubscriptionTracker * result unit string * Store) :=
  let count := default 0 (str_counters t !! id) in
  let t := set_counters t (<[id := count]> (str_counters t)) in
  s ← (if str_subscription_limit t <=? count then run_call (subscription_limit_exceeded_inc id) s else Done s);
  if (str_subscription_limit t <=? count) && str_limit_enforce t then Done (t, Err tt, s)
  else
    let count := saturating_add count 1 in
    s ← run_call (set_grpc_concurrent_subscribe_per_subscriber_id id count) s;
    Done (set_counters t (<[id := count]> (str_counters t)), Ok id, s).

Definition permit_drop_metered (t : SubscriptionTracker) (key : string) (s : Store) : outcome (SubscriptionTracker * Store) :=
  match str_counters t !! key with
  | Some count =>
      let count := saturating_sub count 1 in
      if count =? 0 then
        s ← run_call (remove_grpc_concurrent_subscribe_per_subscriber_id key) s;
        Done (set_counters t (delete key (str_counters t)), s)
      else
        s ← run_call (set_grpc_concurrent_subscribe_per_subscriber_id key count) s;
        Done (set_counters t (<[key := count]> (str_counters t)), s)
  | None => Done (t, s)
  end.

(** The store, the live sessions, and the permits with their tracker. *)
Record Reported := mkReported {
  rp_store : Store;
  rp_sessions : list MetricSession;
  rp_tracker : SubscriptionTracker;
  rp_permits : list string
}.

(** Writes to the two gauges come from the sessions and the permits only. *)
Definition other_call (c : MetricCall) : Prop :=
  match c with
  | set_grpc_concurrent_subscribe_per_subscriber_id _ _ | remove_grpc_concurrent_subscribe_per_subscriber_id _ => False
  | _ => True
  end.

Inductive report_step : Reported → Reported → Prop :=
| report_session_new w endpoint s :
    update_subscriptions endpoint None (Some Filter_default) (rp_store w) = Done s →
    report_step w (mkReported s (mkMetricSession endpoint Filter_default :: rp_sessions w) (rp_tracker w) (rp_permits w))
| report_set_filter w l1 m l2 f s :
    rp_sessions w = l1 ++ m :: l2 →
    update_subscriptions (ms_endpoint m) (Some (ms_filter m)) (Some f) (rp_store w) = Done s →
    report_step w (mkReported s (l1 ++ mkMetricSession (ms_endpoint m) f :: l2) (rp_tracker w) (rp_permits w))
| report_session_drop w l1 m l2 s :
    rp_sessions w = l1 ++ m :: l2 →
    update_subscriptions (ms_endpoint m) (Some (ms_filter m)) None (rp_store w) = Done s →
    report_step w (mkReported s (l1 ++ l2) (rp_tracker w) (rp_permits w))
| report_permit w id t r s :
    len (rp_permits w) < usize_max →
    try_insert_metered (rp_tracker w) id (rp_store w) = Done (t, r, s) →
    report_step w (mkReported s (rp_sessions w) t (if r is Ok key then key :: rp_permits w else rp_permits w))
| report_permit_drop w key permits t s :
    rp_permits w ≡ₚ key :: permits →
    permit_drop_metered (rp_tracker w) key (rp_store w) = Done (t, s) →
    report_step w (mkReported s (rp_sessions w) t permits)
| report_other w c s :
    other_call c → run_call c (rp_store w) = Done s →
    report_step w (mkReported s (rp_sessions w) (rp_tracker w) (rp_permits w)).

Definition Reported_new (limit : Z) (enforce : bool) : Reported :=
  mkReported (mkStore ∅ ∅) [] (SubscriptionTracker_new limit enforce) [].

(** What the live sessions of an endpoint count for under a name. *)
Definition sessions_count (endpoint name : string) (l : list MetricSession) : Z :=
  foldr Z.add 0 ((λ m, if bool_decide (ms_endpoint m = endpoint) then filter_count name (ms_filter m) else 0) <$> l).

Definition permit_gauge (s : Store) (id : string) : option Z := st_values s !! (GRPC_CONCURRENT_SUBSCRIBE_PER_SUBSCRIBER_ID, [id]).

Record reported_inv (limit : Z) (enforce : bool) (w : Reported) : Prop := {
  ri_sessions endpoint name :
    subscriptions (rp_store w) endpoint name = wrap_i64 (sessions_count endpoint name (rp_sessions w));
  ri_permits : permits_reachable limit enforce (rp_tracker w) (rp_permits w);
  ri_gauge id : permit_gauge (rp_store w) id = wrap_i64 <$> str_counters (rp_tracker w) !! id
}.

Lemma sessions_count_app endpoint name l l' :
  sessions_count endpoint name (l ++ l') = sessions_count endpoint name l + sessions_count endpoint name l'.
Proof.
  unfold sessions_count. rewrite fmap_app, foldr_app. induction (_ <$> l) as [|x r IH]; [done|]. cbn. rewrite IH. lia.
Qed.

Lemma sessions_count_cons endpoint name m l : sessions_count endpoint name (m :: l) =
  (if bool_decide (ms_endpoint m = endpoint) then filter_count name (ms_filter m) else 0) + sessions_count endpoint name l.
Proof. done. Qed.

(** A call on another metric leaves a series alone. *)
Lemma metric_add_other m values z s s' series : metric_add m values z s = Done s' → series.1 ≠ m →
  st_values s' !! series = st_values s !! series.
Proof.
  unfold metric_add, with_label_values. case_bool_decide; [|done]. cbn. intros [= <-] Hne. cbn.
  apply lookup_insert_ne. by intros <-.
Qed.

Lemma metric_set_other m values z s s' series : metric_set m values z s = Done s' → series.1 ≠ m →
  st_values s' !! series = st_values s !! series.
Proof.
  unfold metric_set, with_label_values. case_bool_decide; [|done]. cbn. intros [= <-] Hne. cbn.
  apply lookup_insert_ne. by intros <-.
Qed.

Lemma metric_observe_values m values x s s' : metric_observe m values x s = Done s' → st_values s' = st_values s.
Proof. unfold metric_observe, with_label_values. case_bool_decide; [|done]. by intros [= <-]. Qed.

Lemma metric_remove_other m values s s' series : metric_remove m values s = Done s' → series.1 ≠ m →
  st_values s' !! series = st_values s !! series.
Proof.
  unfold metric_remove. destruct (st_values s !! _); [|done]. intros [= <-] Hne. cbn. apply lookup_delete_ne. by intros <-.
Qed.

(** The metrics a call is about. *)
Lemma run_call_other c s s' series : run_call c s = Done s' → other_call c →
  series.1 = SUBSCRIPTIONS_TOTAL ∨ series.1 = GRPC_CONCURRENT_SUBSCRIBE_PER_SUBSCRIBER_ID →
  st_values s' !! series = st_values s !! series.
Proof.
  intros Hrun Hother Hs. destruct c; cbn [run_call] in Hrun; try done;
    lazymatch type of Hrun with
    | metric_add _ _ _ _ = _ => apply (metric_add_other _ _ _ _ _ _ Hrun); destruct Hs as [->| ->]; discriminate
    | metric_set _ _ _ _ = _ => apply (metric_set_other _ _ _ _ _ _ Hrun); destruct Hs as [->| ->]; discriminate
    | metric_observe _ _ _ _ = _ => by rewrite (metric_observe_values _ _ _ _ _ Hrun)
    end.
Qed.

Lemma each_other endpoint multiplier l id : ∀ s s',
  observe_each (λ '(name, v) s,
    metric_add SUBSCRIPTIONS_TOTAL [endpoint; name] (wrap_i64 (wrap_i64 v * multiplier)) s) l s = Done s' →
  permit_gauge s' id = permit_gauge s id.
Proof.
  unfold observe_each. induction l as [|[name x] l IH]; intros s s'; cbn [foldM]; [by intros [= <-]|].
  destruct (metric_add _ _ _ s) as [s1|] eqn:E; [|done]. cbn [mbind outcome_bind]. intros Hrest.
  rewrite (IH _ _ Hrest). by apply (metric_add_other _ _ _ _ _ _ E).
Qed.

Lemma count_filter_other endpoint multiplier f s s' id :
  count_filter endpoint multiplier f s = Done s' → permit_gauge s' id = permit_gauge s id.
Proof.
  unfold count_filter. destruct (metric_add _ _ _ s) as [s1|] eqn:E; [|done]. cbn [mbind outcome_bind]. intros Hrest.
  rewrite (each_other _ _ _ _ _ _ Hrest). by apply (metric_add_other _ _ _ _ _ _ E).
Qed.

Lemma update_subscriptions_other endpoint old new s s' id :
  update_subscriptions endpoint old new s = Done s' → permit_gauge s' id = permit_gauge s id.
Proof.
  unfold update_subscriptions, observe_each. cbn [foldM].
  destruct (match old with Some f => _ | None => _ end) as [s1|] eqn:E1; [|done]. cbn [mbind outcome_bind].
  destruct (match new with Some f => _ | None => _ end) as [s2|] eqn:E2; [|done]. intros [= <-].
  transitivity (permit_gauge s1 id).
  - destruct new; [by eapply count_filter_other|by simplify_eq].
  - destruct old; [by eapply count_filter_other|by simplify_eq].
Qed.

(** A call on another series leaves the subscriptions alone. *)
Lemma subscriptions_series s s' : (∀ series, series.1 = SUBSCRIPTIONS_TOTAL → st_values s' !! series = st_values s !! series) →
  ∀ endpoint name, subscriptions s' endpoint name = subscriptions s endpoint name.
Proof. intros H endpoint name. unfold subscriptions, value. by rewrite H. Qed.

(** The metered operations are the operations, the gauge following the counter. *)
Lemma try_insert_metered_spec t id s t' r s' : try_insert_metered t id s = Done (t', r, s') →
  (∀ id, permit_gauge s id = wrap_i64 <$> str_counters t !! id) →
  try_insert t id = (t', r) ∧
  (∀ series, series.1 = SUBSCRIPTIONS_TOTAL → st_values s' !! series = st_values s !! series) ∧
  (t' = t ∨ r = Ok id → ∀ id, permit_gauge s' id = wrap_i64 <$> str_counters t' !! id).
Proof.
  unfold try_insert_metered, try_insert. set (count := default 0 (str_counters t !! id)).
  cbn [set_counters str_counters str_subscription_limit str_limit_enforce]. intros Hrun Hg.
  destruct (if str_subscription_limit t <=? count then _ else _) as [s1|] eqn:E1; [|done]. cbn [mbind outcome_bind] in Hrun.
  assert (∀ series, series.1 = SUBSCRIPTIONS_TOTAL ∨ series.1 = GRPC_CONCURRENT_SUBSCRIBE_PER_SUBSCRIBER_ID →
    st_values s1 !! series = st_values s !! series) as H1.
  { intros series Hs. destruct (str_subscription_limit t <=? count); [by apply (run_call_other _ _ _ _ E1)|].
    by simplify_eq. }
  destruct (_ && _).
  - injection Hrun as <- <- <-. split; [done|]. split; [by auto|]. intros [Ht|Hr]; [|done]. intros id'. rewrite Ht.
    unfold permit_gauge. rewrite H1 by auto. apply Hg.
  - destruct (run_call _ s1) as [s2|] eqn:E2; [|done]. injection Hrun as <- <- <-. split; [done|]. split.
    + intros series Hs. rewrite (metric_set_other _ _ _ _ _ _ E2) by (rewrite Hs; discriminate). auto.
    + intros _ id'. cbn in E2. injection E2 as <-. unfold permit_gauge. cbn [st_values str_counters set_counters].
      rewrite ?insert_insert_eq. destruct (decide (id' = id)) as [->|Hne]; [by rewrite !lookup_insert_eq|].
      rewrite !lookup_insert_ne by congruence. rewrite H1 by auto. apply Hg.
Qed.

Lemma permit_drop_metered_spec t key s :
  (∀ id, permit_gauge s id = wrap_i64 <$> str_counters t !! id) →
  ∃ s', permit_drop_metered t key s = Done (SubscriptionOwnedPermit_drop t key, s') ∧
    (∀ series, series.1 = SUBSCRIPTIONS_TOTAL → st_values s' !! series = st_values s !! series) ∧
    ∀ id, permit_gauge s' id = wrap_i64 <$> str_counters (SubscriptionOwnedPermit_drop t key) !! id.
Proof.
  intros Hg. unfold permit_drop_metered, SubscriptionOwnedPermit_drop.
  destruct (str_counters t !! key) as [count|] eqn:Ek; [|by exists s].
  pose proof (Hg key) as Hk. rewrite Ek in Hk. unfold permit_gauge in Hk.
  destruct (saturating_sub count 1 =? 0); cbn [run_call]; unfold metric_remove, metric_set, with_label_values.
  - rewrite Hk. cbn. eexists. split; [done|]. split.
    + intros series Hs. cbn. apply lookup_delete_ne. intros <-. discriminate.
    + intros id. unfold permit_gauge. cbn. destruct (decide (id = key)) as [->|Hne]; [by rewrite !lookup_delete_eq|].
      rewrite !lookup_delete_ne by congruence. apply Hg.
  - rewrite bool_decide_eq_true_2 by done. cbn. eexists. split; [done|]. split.
    + intros series Hs. cbn. apply lookup_insert_ne. intros <-. discriminate.
    + intros id. unfold permit_gauge. cbn. destruct (decide (id = key)) as [->|Hne]; [by rewrite !lookup_insert_eq|].
      rewrite !lookup_insert_ne by congruence. apply Hg.
Qed.

Lemma subscriptions_other s s' l endpoint name : 
  (∀ series, series.1 = SUBSCRIPTIONS_TOTAL → st_values s' !! series = st_values s !! series) →
  subscriptions s endpoint name = wrap_i64 (sessions_count endpoint name l) →
  subscriptions s' endpoint name = wrap_i64 (sessions_count endpoint name l).
Proof. intros H <-. by apply subscriptions_series. Qed.

Lemma report_step_inv limit enforce w w' : 0 < limit →
  reported_inv limit enforce w → report_step w w' → reported_inv limit enforce w'.
Proof.
  intros Hl [Hs Hp Hg] Hstep.
  destruct Hstep as [w endpoint s Hu|w l1 m l2 f s Hm Hu|w l1 m l2 s Hm Hu|w id t r s Hlen Hi|w key permits t s Hperm Hd|w c s Hc Hu];
    split; cbn [rp_store rp_sessions rp_tracker rp_permits]; try exact Hp.
  - intros endpoint' name. rewrite (update_subscriptions_effect _ _ _ _ _ _ _ _ Hu (Hs endpoint' name)).
    rewrite sessions_count_cons. cbn [ms_endpoint ms_filter from_option]. f_equal. case_bool_decide; lia.
  - intros id. rewrite (update_subscriptions_other _ _ _ _ _ id Hu). apply Hg.
  - intros endpoint' name. rewrite (update_subscriptions_effect _ _ _ _ _ _ _ _ Hu (Hs endpoint' name)).
    rewrite Hm, !sessions_count_app, !sessions_count_cons. cbn [ms_endpoint ms_filter from_option]. f_equal. case_bool_decide; lia.
  - intros id. rewrite (update_subscriptions_other _ _ _ _ _ id Hu). apply Hg.
  - intros endpoint' name. rewrite (update_subscriptions_effect _ _ _ _ _ _ _ _ Hu (Hs endpoint' name)).
    rewrite Hm, !sessions_count_app, !sessions_count_cons. cbn [from_option]. f_equal. case_bool_decide; lia.
  - intros id. rewrite (update_subscriptions_other _ _ _ _ _ id Hu). apply Hg.
  - intros endpoint' name. destruct (try_insert_metered_spec _ _ _ _ _ _ Hi Hg) as (_ & H & _).
    by apply (subscriptions_other _ _ _ _ _ H).
  - destruct (try_insert_metered_spec _ _ _ _ _ _ Hi Hg) as (Ht & _). destruct r as [key|e].
    + apply (permits_subscribe _ _ (rp_tracker w) (rp_permits w) (Some id) t (Some key)); [done|done|].
      unfold subscription_permit. by rewrite Ht.
    + eapply (permits_refused _ _ (rp_tracker w) (rp_permits w) (Some id) t); [done|done|]. unfold subscription_permit. by rewrite Ht.
  - destruct (try_insert_metered_spec _ _ _ _ _ _ Hi Hg) as (Ht & _ & H). apply H.
    destruct (permits_inv_reachable _ _ _ _ Hl Hp) as [[Hlim Henf Hcount Hb] _].
    destruct (try_insert_counters (rp_tracker w) (rp_permits w) id) as (Hcase & _); [by rewrite Hlim|done|done| |].
    { intros He. rewrite Hlim. apply Hb. by rewrite <- Henf. }
    rewrite Ht in Hcase. destruct r; [right|left; tauto]. by destruct Hcase as (-> & _).
  - intros endpoint name. destruct (permit_drop_metered_spec _ key _ Hg) as (s' & E & H & _). rewrite Hd in E. simplify_eq.
    by apply (subscriptions_other _ _ _ _ _ H).
  - destruct (permit_drop_metered_spec _ key _ Hg) as (s' & E & _). rewrite Hd in E. simplify_eq. by eapply permits_drop.
  - destruct (permit_drop_metered_spec _ key _ Hg) as (s' & E & _ & H). rewrite Hd in E. by simplify_eq.
  - intros endpoint name. apply (subscriptions_other (rp_store w)); [|done]. intros series E. apply (run_call_other _ _ _ _ Hu); auto.
  - intros id. rewrite <- Hg. apply (run_call_other _ _ _ _ Hu); auto.
Qed.

Lemma reported_inv_reachable limit enforce w : 0 < limit →
  rtc report_step (Reported_new limit enforce) w → reported_inv limit enforce w.
Proof.
  intros Hl Hr. refine (rtc_ind_r (λ w, reported_inv limit enforce w) (Reported_new limit enforce) _ _ w Hr).
  - split; [done|apply permits_init|done].
  - intros w1 w2 _ Hstep IH. by apply (report_step_inv _ _ w1).
Qed.

(** What the metrics say is what the server holds: however sessions are
    opened, change their filter and are dropped, permits are asked for,
    refused and dropped, and other metrics are written, in any order, the
    subscriptions gauge of an endpoint is the number of its live sessions and,
    under each name, the sum over their filters, and the gauge of a subscriber
    is the number of its live permits, absent when there is none; so the
    removal that could panic never does. *)
Theorem metrics_follow_state limit enforce w : 0 < limit → rtc report_step (Reported_new limit enforce) w →
  (∀ endpoint name, subscriptions (rp_store w) endpoint name = wrap_i64 (sessions_count endpoint name (rp_sessions w))) ∧
  (∀ id, permit_gauge (rp_store w) id = wrap_i64 <$> counter_of id (rp_permits w)) ∧
  (∀ key, ∃ s, permit_drop_metered (rp_tracker w) key (rp_store w) = Done (SubscriptionOwnedPermit_drop (rp_tracker w) key, s)).
Proof.
  intros Hl Hr. destruct (reported_inv_reachable _ _ _ Hl Hr) as [Hs Hp Hg].
  destruct (permits_inv_reachable _ _ _ _ Hl Hp) as [[_ _ Hcount _] _].
  split; [done|]. split; [intros id; by rewrite Hg, Hcount|].
  intros key. destruct (permit_drop_metered_spec _ key _ Hg) as (s & E & _). by exists s.
Qed.

(** A second subscription of the same subscriber is refused when one is allowed. *)
Definition refused_example : Reported :=
  mkReported
    (mkStore (<[(GRPC_SUBSCRIPTION_LIMIT_EXCEEDED, ["a"%string]) := 1]>
      {[(GRPC_CONCURRENT_SUBSCRIBE_PER_SUBSCRIBER_ID, ["a"%string]) := 1]}) ∅) []
    (mkSubscriptionTracker {["a"%string := 1]} 1 true) ["a"%string].

Lemma refused_example_reachable : rtc report_step (Reported_new 1 true) refused_example.
Proof.
  set (w1 := mkReported
    (mkStore {[(GRPC_CONCURRENT_SUBSCRIBE_PER_SUBSCRIBER_ID, ["a"%string]) := 1]} ∅) []
    (mkSubscriptionTracker {["a"%string := 1]} 1 true) ["a"%string]).
  assert (try_insert_metered (rp_tracker (Reported_new 1 true)) "a" (rp_store (Reported_new 1 true))
    = Done (rp_tracker w1, Ok "a"%string, rp_store w1)) as H1 by reflexivity.
  assert (try_insert_metered (rp_tracker w1) "a" (rp_store w1)
    = Done (rp_tracker refused_example, Err tt, rp_store refused_example)) as H2 by reflexivity.
  eapply rtc_l; [exact (report_permit (Reported_new 1 true) "a" _ _ _ eq_refl H1)|].
  eapply rtc_l; [exact (report_permit w1 "a" _ _ _ eq_refl H2)|]. apply rtc_refl.
Qed.

Lemma metrics_follow_state_witness : rtc report_step (Reported_new 1 true) refused_example ∧
  permit_gauge (rp_store refused_example) "a" = Some 1.
Proof.
  split; [exact refused_example_reachable|].
  destruct (metrics_follow_state 1 true refused_example eq_refl refused_example_reachable) as (_ & Hg & _).
  rewrite (Hg "a"%string). reflexivity.
Defined.
