(* ===== verification/ClientBuilder.v ===== *)
(** * yellowstone-grpc-client/src/lib.rs: the builder, and the connections of a client

    [GeyserGrpcBuilder] collects the options of the transport and of the
    generated client, opens the first connection and hands what is needed for
    the next ones to the connector of reconnect.rs. [Endpoint], [Channel], the
    generated [GeyserClient] and what they do on the network are tonic's: a class
    of operations. *)

From S2P Require Import Prelude F64 Proto Externals Cuckoo Dedup Convert Reconnect Client Config.

Set Default Goal Selector "!".

Local Open Scope Z_scope.

(** ** tonic *)

(** The setters of [Endpoint]. *)
Inductive EndpointOption :=
| ConnectTimeout (dur : Z)
| BufferSize (sz : option Z)
| Http2AdaptiveWindow (enabled : bool)
| Http2KeepAliveInterval (interval : Z)
| InitialConnectionWindowSize (sz : option Z)
| InitialStreamWindowSize (sz : option Z)
| KeepAliveTimeout (duration : Z)
| KeepAliveWhileIdle (enabled : bool)
| TcpKeepalive (tcp_keepalive : option Z)
| TcpNodelay (enabled : bool)
| Timeout (dur : Z).

Inductive EndpointKey :=
| KConnectTimeout | KBufferSize | KHttp2AdaptiveWindow | KHttp2KeepAliveInterval | KInitialConnectionWindowSize
| KInitialStreamWindowSize | KKeepAliveTimeout | KKeepAliveWhileIdle | KTcpKeepalive | KTcpNodelay | KTimeout.

#[global] Instance EndpointKey_eq_dec : EqDecision EndpointKey.
Proof. solve_decision. Defined.

Definition endpoint_key (o : EndpointOption) : EndpointKey :=
  match o with
  | ConnectTimeout _ => KConnectTimeout
  | BufferSize _ => KBufferSize
  | Http2AdaptiveWindow _ => KHttp2AdaptiveWindow
  | Http2KeepAliveInterval _ => KHttp2KeepAliveInterval
  | InitialConnectionWindowSize _ => KInitialConnectionWindowSize
  | InitialStreamWindowSize _ => KInitialStreamWindowSize
  | KeepAliveTimeout _ => KKeepAliveTimeout
  | KeepAliveWhileIdle _ => KKeepAliveWhileIdle
  | TcpKeepalive _ => KTcpKeepalive
  | TcpNodelay _ => KTcpNodelay
  | Timeout _ => KTimeout
  end.

(** The setters of the generated client. *)
Inductive GeyserClientOption :=
| ClientSendCompressed (encoding : CompressionEncoding)
| ClientAcceptCompressed (encoding : CompressionEncoding)
| ClientMaxDecodingMessageSize (limit : Z)
| ClientMaxEncodingMessageSize (limit : Z).

(** Where a channel is opened to: the address of an endpoint, or a socket file. *)
Inductive ConnectTarget (Endpoint : Type) :=
| ToEndpoint (endpoint : Endpoint)
| ToSocket (path : string).
Arguments ToEndpoint {Endpoint} endpoint.
Arguments ToSocket {Endpoint} path.

Class Tonic := {
  Endpoint : Type;
  ClientTlsConfig : Type;
  Channel : Type;
  GeyserClient : Type;
  HealthClient : Type;
  (** [AsciiMetadataValue::try_from] *)
  metadata_value : string → result string string;
  (** [Endpoint::from_shared], the setters, [tls_config] *)
  endpoint_from_shared : string → result string Endpoint;
  endpoint_set : EndpointOption → Endpoint → Endpoint;
  endpoint_tls_config : ClientTlsConfig → Endpoint → result string Endpoint;
  (** opening a channel, by attempt *)
  open_channel : nat → ConnectTarget Endpoint → result string Channel;
  connect_lazy : Endpoint → Channel;
  geyser_with_interceptor : Channel → InterceptorXToken → GeyserClient;
  geyser_set : GeyserClientOption → GeyserClient → GeyserClient;
  health_with_interceptor : Channel → InterceptorXToken → HealthClient;
  (** the call of [subscribe] with the metadata of the call and the first request, by attempt *)
  geyser_subscribe : GeyserClient → nat → gmap string string → SubscribeRequest → result Status GrpcStream
}.

(** The documented behaviour of the setters: each sets its own option. *)
Class TonicLaws {T : Tonic} := {
  endpoint_get : EndpointKey → Endpoint → option EndpointOption;
  endpoint_get_new s e k : endpoint_from_shared s = Ok e → endpoint_get k e = None;
  endpoint_get_set k o e :
    endpoint_get k (endpoint_set o e) = if decide (endpoint_key o = k) then Some o else endpoint_get k e;
  endpoint_get_tls k tls e e' : endpoint_tls_config tls e = Ok e' → endpoint_get k e' = endpoint_get k e
}.

Section builder.
Context {T : Tonic}.

(** ** Options *)

Record TonicGeyserClientOptions := mkTonicGeyserClientOptions {
  tgo_x_request_snapshot : bool;
  tgo_send_compressed : option CompressionEncoding;
  tgo_accept_compressed : option CompressionEncoding;
  tgo_max_decoding_message_size : option Z;
  tgo_max_encoding_message_size : option Z
}.

Definition TonicGeyserClientOptions_default : TonicGeyserClientOptions :=
  mkTonicGeyserClientOptions false None None (Some 50000000) (Some 50000000).

Record GeyserGrpcBuilder := mkGeyserGrpcBuilder {
  gb_endpoint : Endpoint;
  gb_x_token : option string;
  gb_x_request_snapshot : bool;
  gb_send_compressed : option CompressionEncoding;
  gb_accept_compressed : option CompressionEncoding;
  gb_max_decoding_message_size : option Z;
  gb_max_encoding_message_size : option Z;
  gb_reconnect_config : option ReconnectConfig
}.

Inductive GeyserGrpcBuilderError :=
| MetadataValueError (message : string)
| TonicError (message : string).

Definition GeyserGrpcBuilder_new (endpoint : Endpoint) : GeyserGrpcBuilder :=
  mkGeyserGrpcBuilder endpoint None false None None None None None.

Definition GeyserGrpcBuilder_from_shared (endpoint : string) : result GeyserGrpcBuilderError GeyserGrpcBuilder :=
  match endpoint_from_shared endpoint with
  | Ok endpoint => Ok (GeyserGrpcBuilder_new (endpoint_set (Http2AdaptiveWindow true) endpoint))
  | Err e => Err (TonicError e)
  end.

Definition build_from_shared (endpoint : string) : result GeyserGrpcBuilderError GeyserGrpcBuilder :=
  match endpoint_from_shared endpoint with
  | Ok endpoint => Ok (GeyserGrpcBuilder_new endpoint)
  | Err e => Err (TonicError e)
  end.

Definition with_endpoint (b : GeyserGrpcBuilder) (endpoint : Endpoint) : GeyserGrpcBuilder :=
  mkGeyserGrpcBuilder endpoint (gb_x_token b) (gb_x_request_snapshot b) (gb_send_compressed b) (gb_accept_compressed b)
    (gb_max_decoding_message_size b) (gb_max_encoding_message_size b) (gb_reconnect_config b).

(** The methods of the builder, by what they are called with. *)
Inductive BuilderCall :=
| SetEndpoint (o : EndpointOption)
| SetTlsConfig (tls_config : ClientTlsConfig)
| SetXToken (x_token : option string)
| SetXRequestSnapshot (value : bool)
| SetSendCompressed (encoding : CompressionEncoding)
| SetAcceptCompressed (encoding : CompressionEncoding)
| SetMaxDecodingMessageSize (limit : Z)
| SetMaxEncodingMessageSize (limit : Z)
| SetReconnectConfig (config : ReconnectConfig).

Definition builder_call (b : GeyserGrpcBuilder) (c : BuilderCall) : result GeyserGrpcBuilderError GeyserGrpcBuilder :=
  match c with
  | SetEndpoint o => Ok (with_endpoint b (endpoint_set o (gb_endpoint b)))
  | SetTlsConfig tls =>
      match endpoint_tls_config tls (gb_endpoint b) with
      | Ok endpoint => Ok (with_endpoint b endpoint)
      | Err e => Err (TonicError e)
      end
  | SetXToken x_token =>
      x_token ← match x_token with
                | Some s => match metadata_value s with Ok v => Ok (Some v) | Err e => Err (MetadataValueError e) end
                | None => Ok None
                end;
      Ok (mkGeyserGrpcBuilder (gb_endpoint b) x_token (gb_x_request_snapshot b) (gb_send_compressed b) (gb_accept_compressed b)
            (gb_max_decoding_message_size b) (gb_max_encoding_message_size b) (gb_reconnect_config b))
  | SetXRequestSnapshot value =>
      Ok (mkGeyserGrpcBuilder (gb_endpoint b) (gb_x_token b) value (gb_send_compressed b) (gb_accept_compressed b)
            (gb_max_decoding_message_size b) (gb_max_encoding_message_size b) (gb_reconnect_config b))
  | SetSendCompressed encoding =>
      Ok (mkGeyserGrpcBuilder (gb_endpoint b) (gb_x_token b) (gb_x_request_snapshot b) (Some encoding) (gb_accept_compressed b)
            (gb_max_decoding_message_size b) (gb_max_encoding_message_size b) (gb_reconnect_config b))
  | SetAcceptCompressed encoding =>
      Ok (mkGeyserGrpcBuilder (gb_endpoint b) (gb_x_token b) (gb_x_request_snapshot b) (gb_send_compressed b) (Some encoding)
            (gb_max_decoding_message_size b) (gb_max_encoding_message_size b) (gb_reconnect_config b))
  | SetMaxDecodingMessageSize limit =>
      Ok (mkGeyserGrpcBuilder (gb_endpoint b) (gb_x_token b) (gb_x_request_snapshot b) (gb_send_compressed b) (gb_accept_compressed b)
            (Some limit) (gb_max_encoding_message_size b) (gb_reconnect_config b))
  | SetMaxEncodingMessageSize limit =>
      Ok (mkGeyserGrpcBuilder (gb_endpoint b) (gb_x_token b) (gb_x_request_snapshot b) (gb_send_compressed b) (gb_accept_compressed b)
            (gb_max_decoding_message_size b) (Some limit) (gb_reconnect_config b))
  | SetReconnectConfig config =>
      Ok (mkGeyserGrpcBuilder (gb_endpoint b) (gb_x_token b) (gb_x_request_snapshot b) (gb_send_compressed b) (gb_accept_compressed b)
            (gb_max_decoding_message_size b) (gb_max_encoding_message_size b) (Some config))
  end.

(** A chain of calls, the first error ending it ([?]). *)
Fixpoint builder_calls (b : GeyserGrpcBuilder) (calls : list BuilderCall) : result GeyserGrpcBuilderError GeyserGrpcBuilder :=
  match calls with
  | [] => Ok b
  | c :: calls => b ← builder_call b c; builder_calls b calls
  end.

(** ** The client *)

Record GeyserGrpcClient := mkGeyserGrpcClient {
  gc_health : HealthClient;
  gc_geyser : GeyserClient;
  gc_reconnect_config : option ReconnectConfig;
  gc_geyser_client_opts : TonicGeyserClientOptions;
  gc_reconnect_endpoint : option Endpoint;
  gc_reconnect_x_token : option string
}.

Definition GeyserGrpcClient_new (health : HealthClient) (geyser : GeyserClient) : GeyserGrpcClient :=
  mkGeyserGrpcClient health geyser None (mkTonicGeyserClientOptions false None None None None) None None.

Definition build (b : GeyserGrpcBuilder) (channel : Channel) : GeyserGrpcClient :=
  let reconnect_x_token := gb_x_token b in
  let geyser_client_opts := mkTonicGeyserClientOptions (gb_x_request_snapshot b) (gb_send_compressed b)
    (gb_accept_compressed b) (gb_max_decoding_message_size b) (gb_max_encoding_message_size b) in
  let interceptor := mkInterceptorXToken (gb_x_token b) (gb_x_request_snapshot b) in
  let geyser := geyser_with_interceptor channel interceptor in
  let geyser := match gb_send_compressed b with Some encoding => geyser_set (ClientSendCompressed encoding) geyser | None => geyser end in
  let geyser := match gb_accept_compressed b with Some encoding => geyser_set (ClientAcceptCompressed encoding) geyser | None => geyser end in
  let geyser := match gb_max_decoding_message_size b with Some limit => geyser_set (ClientMaxDecodingMessageSize limit) geyser | None => geyser end in
  let geyser := match gb_max_encoding_message_size b with Some limit => geyser_set (ClientMaxEncodingMessageSize limit) geyser | None => geyser end in
  mkGeyserGrpcClient (health_with_interceptor channel interceptor) geyser (gb_reconnect_config b) geyser_client_opts
    (Some (gb_endpoint b)) reconnect_x_token.

(** [GeyserGrpcBuilder::connect], [connect_lazy] and [connect_uds]; [attempt] numbers the connections. *)
Definition builder_connect (attempt : nat) (b : GeyserGrpcBuilder) : result GeyserGrpcBuilderError GeyserGrpcClient :=
  match open_channel attempt (ToEndpoint (gb_endpoint b)) with
  | Ok channel => Ok (build b channel)
  | Err e => Err (TonicError e)
  end.

Definition builder_connect_lazy (b : GeyserGrpcBuilder) : GeyserGrpcClient := build b (connect_lazy (gb_endpoint b)).

Definition connect_uds (attempt : nat) (b : GeyserGrpcBuilder) (path : string) : result GeyserGrpcBuilderError GeyserGrpcClient :=
  match open_channel attempt (ToSocket path) with
  | Ok channel => Ok (build b channel)
  | Err e => Err (TonicError e)
  end.

(** ** The connector *)

Record TonicGrpcConnector := mkTonicGrpcConnector {
  tc_backoff : Backoff;
  tc_endpoint : Endpoint;
  tc_x_token : option string;
  tc_x_request_snapshot : bool;
  tc_send_compressed : option CompressionEncoding;
  tc_accept_compressed : option CompressionEncoding;
  tc_max_decoding_message_size : option Z;
  tc_max_encoding_message_size : option Z
}.

Definition TonicGrpcConnector_new (endpoint : Endpoint) (config : ReconnectConfig) (x_token : option string)
    (options : TonicGeyserClientOptions) : TonicGrpcConnector :=
  mkTonicGrpcConnector (rc_backoff config) endpoint x_token (tgo_x_request_snapshot options) (tgo_send_compressed options)
    (tgo_accept_compressed options) (tgo_max_decoding_message_size options) (tgo_max_encoding_message_size options).

(** The client an attempt of [TonicGrpcConnector::connect] makes on its channel. *)
Definition connector_client (c : TonicGrpcConnector) (channel : Channel) : GeyserClient :=
  let interceptor := mkInterceptorXToken (tc_x_token c) (tc_x_request_snapshot c) in
  let geyser := geyser_with_interceptor channel interceptor in
  let geyser := match tc_send_compressed c with Some encoding => geyser_set (ClientSendCompressed encoding) geyser | None => geyser end in
  let geyser := match tc_accept_compressed c with Some encoding => geyser_set (ClientAcceptCompressed encoding) geyser | None => geyser end in
  let geyser := match tc_max_decoding_message_size c with Some limit => geyser_set (ClientMaxDecodingMessageSize limit) geyser | None => geyser end in
  match tc_max_encoding_message_size c with Some limit => geyser_set (ClientMaxEncodingMessageSize limit) geyser | None => geyser end.

(** The metadata of the call of [subscribe] that resumes at a slot. *)
Definition connector_metadata (from_slot : option Z) : gmap string string :=
  match from_slot with Some slot => {["x-min-context-slot"%string := decimal slot]} | None => ∅ end.

(** The connections a connector opens, as the [Network] of Client.v. *)
Definition connector_network (c : TonicGrpcConnector) : Network :=
  mkNetwork
    (λ attempt, match open_channel attempt (ToEndpoint (tc_endpoint c)) with Ok _ => Ok () | Err e => Err e end)
    (λ attempt request,
      match open_channel attempt (ToEndpoint (tc_endpoint c)) with
      | Ok channel => geyser_subscribe (connector_client c channel) attempt (connector_metadata (req_from_slot request)) request
      | Err e => Err (mkStatus Unavailable e true)
      end).

(** The endpoint of a client that was not made by the builder. *)
Context (placeholder : Endpoint).

(** [subscribe_with_request] of a client: the sink, the stream, and the
    connector of a stream that reconnects. *)
Definition client_subscribe (attempt : nat) (client : GeyserGrpcClient) (request : option SubscribeRequest)
    : result GeyserGrpcClientError (SubscribeRequestSink * InnerStream * option TonicGrpcConnector) :=
  let endpoint := default placeholder (gc_reconnect_endpoint client) in
  let sent := sink_shared (subscribe_raw (gc_reconnect_config client) request) in
  match geyser_subscribe (gc_geyser client) attempt ∅ sent with
  | Err status => Err (TonicStatus status)
  | Ok stream =>
      let '(sink, inner) := subscribe_with_request (gc_reconnect_config client) request stream in
      Ok (sink, inner,
          (λ config, TonicGrpcConnector_new endpoint config (gc_reconnect_x_token client) (gc_geyser_client_opts client))
            <$> gc_reconnect_config client)
  end.

(** The stream alone; the sink is dropped. *)
Definition subscribe_once (attempt : nat) (client : GeyserGrpcClient) (request : SubscribeRequest)
    : result GeyserGrpcClientError (InnerStream * option TonicGrpcConnector) :=
  match client_subscribe attempt client (Some request) with
  | Ok (_, inner, connector) => Ok (inner, connector)
  | Err e => Err e
  end.
End builder.

(** ** What the builder collects *)

Section collected.
Context {T : Tonic} {TL : TonicLaws}.

(** The value of the last call that sets something. *)
Definition last_call {A} (f : BuilderCall → option A) (calls : list BuilderCall) : option A := last (omap f calls).

Lemma builder_calls_app l1 l2 : ∀ b, builder_calls b (l1 ++ l2) = (b ← builder_calls b l1; builder_calls b l2).
Proof.
  induction l1 as [|c l1 IH]; intros b; [done|]. cbn [app builder_calls].
  destruct (builder_call b c) as [b1|]; [|done]. apply IH.
Qed.

Lemma builder_calls_one b c : builder_calls b [c] = builder_call b c.
Proof. cbn. by destruct (builder_call b c). Qed.

Lemma builder_calls_snoc calls c b : builder_calls b (calls ++ [c]) = (b ← builder_calls b calls; builder_call b c).
Proof. rewrite builder_calls_app. destruct (builder_calls b calls) as [b1|]; [apply builder_calls_one|done]. Qed.

Lemma last_call_snoc {A} (f : BuilderCall → option A) calls c :
  last_call f (calls ++ [c]) = match f c with Some v => Some v | None => last_call f calls end.
Proof.
  unfold last_call. rewrite omap_app. cbn. destruct (f c); [by rewrite last_snoc|by rewrite app_nil_r].
Qed.

(** A part of the builder that a call sets or leaves is what the last call set. *)
Lemma last_wins {A} (part : GeyserGrpcBuilder → A) (f : BuilderCall → option A) b0 calls : ∀ b,
  (∀ b c b', builder_call b c = Ok b' → part b' = default (part b) (f c)) →
  builder_calls b0 calls = Ok b → part b = default (part b0) (last_call f calls).
Proof.
  intros b Hf. revert b. induction calls as [|c calls IH] using rev_ind; intros b; [by intros [= ->]|].
  rewrite builder_calls_snoc. destruct (builder_calls b0 calls) as [b1|]; [|done]. cbn [mbind result_bind]. intros Hb.
  rewrite (Hf _ _ _ Hb), (IH b1 eq_refl), last_call_snoc. by destruct (f c).
Qed.

Lemma last_wins_option {A} (part : GeyserGrpcBuilder → option A) (f : BuilderCall → option A) b0 calls b :
  (∀ b c b', builder_call b c = Ok b' → part b' = match f c with Some v => Some v | None => part b end) →
  builder_calls b0 calls = Ok b → part b = match last_call f calls with Some v => Some v | None => part b0 end.
Proof.
  intros Hf. revert b. induction calls as [|c calls IH] using rev_ind; intros b; [by intros [= ->]|].
  rewrite builder_calls_snoc. destruct (builder_calls b0 calls) as [b1|]; [|done]. cbn [mbind result_bind]. intros Hb.
  rewrite (Hf _ _ _ Hb), (IH b1 eq_refl), last_call_snoc. by destruct (f c).
Qed.

Ltac one_call :=
  intros ? c ? Hc; destruct c; cbn in Hc; repeat case_match; simplify_eq/=; by repeat case_match; simplify_eq/=.

(** The endpoint option of a call, and its token as the builder keeps it. *)
Definition endpoint_call (k : EndpointKey) (c : BuilderCall) : option EndpointOption :=
  match c with SetEndpoint o => if decide (endpoint_key o = k) then Some o else None | _ => None end.

Definition kept_token (c : BuilderCall) : option (option string) :=
  match c with
  | SetXToken (Some s) => Some (match metadata_value s with Ok v => Some v | Err _ => None end)
  | SetXToken None => Some None
  | _ => None
  end.

Lemma endpoint_last_wins k b0 calls b : builder_calls b0 calls = Ok b →
  endpoint_get k (gb_endpoint b) =
    match last_call (endpoint_call k) calls with Some o => Some o | None => endpoint_get k (gb_endpoint b0) end.
Proof.
  apply (last_wins_option (λ b, endpoint_get k (gb_endpoint b)) (endpoint_call k)).
  intros b1 c b2 Hc. destruct c; cbn in Hc; cbn [endpoint_call].
  - injection Hc as <-. cbn [with_endpoint gb_endpoint]. rewrite endpoint_get_set. by case_decide.
  - destruct (endpoint_tls_config _ _) as [e|] eqn:E; [|done]. injection Hc as <-. by apply (endpoint_get_tls _ _ _ _ E).
  - destruct x_token as [s|]; [destruct (metadata_value s); [|done]|]; by injection Hc as <-.
  - by injection Hc as <-.
  - by injection Hc as <-.
  - by injection Hc as <-.
  - by injection Hc as <-.
  - by injection Hc as <-.
  - by injection Hc as <-.
Qed.

Lemma kept_token_wins b0 calls b : builder_calls b0 calls = Ok b →
  gb_x_token b = default (gb_x_token b0) (last_call kept_token calls).
Proof. intros Hb. apply (last_wins gb_x_token kept_token b0 calls b); [|done]. one_call. Qed.

(** Where a chain stops. *)
Lemma builder_calls_failed b0 calls e : builder_calls b0 calls = Err e →
  ∃ b c, c ∈ calls ∧ builder_call b c = Err e.
Proof.
  revert b0. induction calls as [|c calls IH]; intros b0; [done|]. cbn [builder_calls].
  destruct (builder_call b0 c) as [b1|e1] eqn:E; cbn [mbind result_bind].
  - intros H. destruct (IH _ H) as (b & c' & Hc & Hb). exists b, c'. split; [by right|done].
  - intros [= ->]. exists b0, c. split; [by left|done].
Qed.

Lemma builder_calls_each b0 calls b c : builder_calls b0 calls = Ok b → c ∈ calls →
  ∃ b1 b2, builder_call b1 c = Ok b2.
Proof.
  revert b0. induction calls as [|c' calls IH]; intros b0; [by intros _ ?%not_elem_of_nil|]. cbn [builder_calls].
  destruct (builder_call b0 c') as [b1|] eqn:E; [|done]. cbn [mbind result_bind].
  intros H [->|Hin]%elem_of_cons; [by eexists _, _|by eapply IH].
Qed.

(** The options of the client that a chain of calls leaves. *)
Lemma client_options_last b0 calls b : builder_calls b0 calls = Ok b →
  let last_or {A} (f : BuilderCall → option A) (o : option A) := match last_call f calls with Some v => Some v | None => o end in
  gb_x_request_snapshot b =
    default (gb_x_request_snapshot b0) (last_call (λ c, if c is SetXRequestSnapshot v then Some v else None) calls) ∧
  gb_send_compressed b = last_or (λ c, if c is SetSendCompressed e then Some e else None) (gb_send_compressed b0) ∧
  gb_accept_compressed b = last_or (λ c, if c is SetAcceptCompressed e then Some e else None) (gb_accept_compressed b0) ∧
  gb_max_decoding_message_size b =
    last_or (λ c, if c is SetMaxDecodingMessageSize l then Some l else None) (gb_max_decoding_message_size b0) ∧
  gb_max_encoding_message_size b =
    last_or (λ c, if c is SetMaxEncodingMessageSize l then Some l else None) (gb_max_encoding_message_size b0) ∧
  gb_reconnect_config b = last_or (λ c, if c is SetReconnectConfig r then Some r else None) (gb_reconnect_config b0).
Proof.
  intros Hb. cbv zeta. split_and!; [|refine (last_wins_option _ _ _ _ _ _ Hb); clear; one_call..].
  refine (last_wins gb_x_request_snapshot (λ c, if c is SetXRequestSnapshot v then Some v else None) _ _ _ _ Hb). clear. one_call.
Qed.

(** What a chain of builder calls comes to: of each option of the transport
    and of the client the last call decides, whatever other calls stand between;
    without a call an option is unset (a builder made from a shared address has
    the adaptive window on). A chain only fails on a token that is no metadata
    value or a TLS configuration tonic refuses. *)
Theorem builder_last_call_wins uri b0 calls :
  GeyserGrpcBuilder_from_shared uri = Ok b0 →
  match builder_calls b0 calls with
  | Ok b =>
      (∀ k, endpoint_get k (gb_endpoint b) =
        match last_call (endpoint_call k) calls with
        | Some o => Some o
        | None => if decide (k = KHttp2AdaptiveWindow) then Some (Http2AdaptiveWindow true) else None
        end) ∧
      gb_x_token b = default None (last_call kept_token calls) ∧
      gb_x_request_snapshot b = default false (last_call (λ c, if c is SetXRequestSnapshot v then Some v else None) calls) ∧
      gb_send_compressed b = last_call (λ c, if c is SetSendCompressed e then Some e else None) calls ∧
      gb_accept_compressed b = last_call (λ c, if c is SetAcceptCompressed e then Some e else None) calls ∧
      gb_max_decoding_message_size b = last_call (λ c, if c is SetMaxDecodingMessageSize l then Some l else None) calls ∧
      gb_max_encoding_message_size b = last_call (λ c, if c is SetMaxEncodingMessageSize l then Some l else None) calls ∧
      gb_reconnect_config b = last_call (λ c, if c is SetReconnectConfig r then Some r else None) calls ∧
      (∀ s, SetXToken (Some s) ∈ calls → ∃ v, metadata_value s = Ok v)
  | Err (MetadataValueError e) => ∃ s, SetXToken (Some s) ∈ calls ∧ metadata_value s = Err e
  | Err (TonicError e) => ∃ tls endpoint, SetTlsConfig tls ∈ calls ∧ endpoint_tls_config tls endpoint = Err e
  end.
Proof.
  unfold GeyserGrpcBuilder_from_shared. destruct (endpoint_from_shared uri) as [e0|] eqn:E; [|done]. intros [= <-].
  destruct (builder_calls _ calls) as [b|e] eqn:Hb.
  - destruct (client_options_last _ _ _ Hb) as (Hs & Hsc & Hac & Hmd & Hme & Hr). cbv zeta in Hsc, Hac, Hmd, Hme, Hr.
    rewrite Hs, Hsc, Hac, Hmd, Hme, Hr. split_and!; try done; try (lazymatch goal with |- _ = last_call ?f _ => by destruct (last_call f calls) end).
    + intros k. rewrite (endpoint_last_wins _ _ _ _ Hb). destruct (last_call (endpoint_call k) calls); [done|].
      cbn [gb_endpoint GeyserGrpcBuilder_new]. rewrite endpoint_get_set, (endpoint_get_new _ _ _ E).
      cbn [endpoint_key]. repeat case_decide; congruence.
    + by apply kept_token_wins in Hb.
    + intros s Hin. destruct (builder_calls_each _ _ _ _ Hb Hin) as (b1 & b2 & Hc). cbn in Hc.
      destruct (metadata_value s) as [v|]; [by exists v|done].
  - destruct (builder_calls_failed _ _ _ Hb) as (b & c & Hin & Hc). destruct c; cbn in Hc; try done.
    + destruct (endpoint_tls_config _ _) eqn:Et; [done|]. injection Hc as <-. by eexists _, _.
    + destruct x_token as [s|]; [|done]. destruct (metadata_value s) eqn:Em; [done|]. injection Hc as <-. by exists s.
Qed.
End collected.

(** ** Reconnecting *)

Section reconnecting.
Context {T : Tonic} (placeholder : Endpoint).

(** A client that reconnects knows the endpoint of its builder: the placeholder
    of [subscribe_with_request] is never used. *)
Lemma placeholder_unused b channel : is_Some (gc_reconnect_config (build b channel)) →
  gc_reconnect_endpoint (build b channel) = Some (gb_endpoint b).
Proof. done. Qed.

Lemma new_never_reconnects health geyser attempt request sink stream connector :
  client_subscribe placeholder attempt (GeyserGrpcClient_new health geyser) request = Ok (sink, stream, connector) →
  connector = None.
Proof. unfold client_subscribe. cbn. by destruct (geyser_subscribe _ _ _ _); intros [= <- <- <-]. Qed.

Lemma subscribe_connector attempt b channel request sink stream connector :
  client_subscribe placeholder attempt (build b channel) request = Ok (sink, stream, Some connector) →
  ∃ config, gb_reconnect_config b = Some config ∧ tc_backoff connector = rc_backoff config ∧
    tc_endpoint connector = gb_endpoint b ∧ ∀ channel', connector_client connector channel' = gc_geyser (build b channel').
Proof.
  unfold client_subscribe. destruct (geyser_subscribe _ _ _ _) as [st|]; [|done].
  destruct (subscribe_with_request _ _ _) as [sk inner]. intros [= -> -> Hc].
  change (gc_reconnect_config (build b channel)) with (gb_reconnect_config b) in Hc.
  destruct (gb_reconnect_config b) as [config|]; [|done]. injection Hc as <-. by exists config.
Qed.

(** What connecting the builder anew would come to, for a subscription with a
    request that resumes at a slot. *)
Definition fresh_attempt (b : GeyserGrpcBuilder) (request : SubscribeRequest) (from_slot : option Z) (attempt : nat)
    : result (ErrorCategory GeyserGrpcClientError) GrpcStream :=
  match builder_connect attempt b with
  | Ok client =>
      match geyser_subscribe (gc_geyser client) attempt (connector_metadata from_slot) (with_from_slot request from_slot) with
      | Ok stream => Ok stream
      | Err status =>
          Err (if is_recoverable_client_error (TonicStatus status) then Retryable (TonicStatus status)
               else Unrecoverable (TonicStatus status))
      end
  | Err (TonicError e) => Err (Retryable (TransportError e))
  | Err (MetadataValueError e) => Err (Unrecoverable (TransportError e))
  end.

Lemma connector_like_fresh b channel0 attempt0 request0 sink stream connector request from_slot attempt :
  client_subscribe placeholder attempt0 (build b channel0) request0 = Ok (sink, stream, Some connector) →
  connect_attempt (connector_network connector) request from_slot attempt = fresh_attempt b request from_slot attempt.
Proof.
  intros H. destruct (subscribe_connector _ _ _ _ _ _ _ H) as (config & _ & _ & He & Hg).
  unfold fresh_attempt, connect_attempt, connector_network, builder_connect. cbn [net_connect net_subscribe]. rewrite He.
  destruct (open_channel attempt (ToEndpoint (gb_endpoint b))) as [channel|]; [|done]. rewrite Hg.
  change (req_from_slot (with_from_slot request from_slot)) with from_slot.
  destruct (geyser_subscribe _ _ _ _); [done|]. by case_match.
Qed.

(** C30. A client that was connected to the address of its builder (by [connect]
    or [connect_lazy]) reconnects the way it connected first: each attempt of its
    connector does what connecting the builder anew and subscribing with the
    latest request and the slot to resume from would do, with the same address,
    token, snapshot flag, compression and size limits. A reconnection makes at
    most one attempt more than the retries of the configuration: it comes back
    with the stream of the first attempt that succeeds, or gives up at an
    unrecoverable status or when the last attempt has failed too. (A client
    connected through a socket file is different: [uds_not_resumed].) *)
Theorem reconnect_like_first b client attempt0 attempt1 request0 sink stream connector request from_slot :
  builder_connect attempt0 b = Ok client ∨ client = builder_connect_lazy b →
  client_subscribe placeholder attempt1 client request0 = Ok (sink, stream, Some connector) →
  0 <= bo_max_retries (tc_backoff connector) →
  (∀ attempt, connect_attempt (connector_network connector) request from_slot attempt = fresh_attempt b request from_slot attempt) ∧
  ∃ config o, gb_reconnect_config b = Some config ∧
    tonic_connect (connector_network connector) (tc_backoff connector) request from_slot sink = Some o ∧
    ∀ r sink', o = Done (r, sink') →
      ∃ n, (0 < n)%nat ∧ Z.of_nat n <= bo_max_retries (rc_backoff config) + 1 ∧
        (∀ i, (i < n - 1)%nat → ∃ e, fresh_attempt b request from_slot i = Err (Retryable e)) ∧
        match r with
        | Ok stream' => fresh_attempt b request from_slot (n - 1) = Ok stream' ∧ sink_channel sink' ≠ sink_channel sink
        | Err e => fresh_attempt b request from_slot (n - 1) = Err (Unrecoverable e) ∨
            fresh_attempt b request from_slot (n - 1) = Err (Retryable e) ∧ Z.of_nat n = bo_max_retries (rc_backoff config) + 1
        end.
Proof.
  intros Hclient H Hb. assert (∃ channel, client = build b channel) as [channel ->].
  { destruct Hclient as [Hc|Hc]; [|by eexists]. unfold builder_connect in Hc. destruct (open_channel _ _) as [channel|]; [|done].
    injection Hc as <-. by exists channel. }
  pose proof (λ attempt, connector_like_fresh _ _ _ _ _ _ _ request from_slot attempt H) as Hfresh. split; [exact Hfresh|].
  destruct (subscribe_connector _ _ _ _ _ _ _ H) as (config & Hconfig & Hbackoff & _ & _).
  destruct (tonic_connect_spec (connector_network connector) (tc_backoff connector) request from_slot sink Hb) as (o & Ho & Hspec).
  exists config, o. split; [done|]. split; [done|]. intros r sink' E. destruct (Hspec _ _ E) as (_ & n & Hn & Hmax & _ & Hearlier & Hr).
  rewrite Hbackoff in Hmax, Hr. exists n. split; [done|]. split; [done|]. split.
  - intros i Hi. destruct (Hearlier i Hi) as (e & He & _). exists e. by rewrite <- Hfresh.
  - destruct r as [st|e]; rewrite !Hfresh in Hr; [destruct Hr as [-> ?]; split; [done|lia]|]. destruct Hr as [_ [[? _]|?]]; auto.
Qed.

(** A client connected through a socket file reconnects to the address of the
    builder: when nothing answers there its stream cannot be resumed, although
    the socket may be up. *)
Theorem uds_not_resumed b path attempt client attempt0 request0 sink stream connector request from_slot :
  connect_uds attempt b path = Ok client →
  client_subscribe placeholder attempt0 client request0 = Ok (sink, stream, Some connector) →
  (∀ i, is_ok (open_channel i (ToEndpoint (gb_endpoint b))) = false) →
  0 <= bo_max_retries (tc_backoff connector) →
  ∃ o, tonic_connect (connector_network connector) (tc_backoff connector) request from_slot sink = Some o ∧
    ∀ r sink', o = Done (r, sink') → is_ok r = false.
Proof.
  unfold connect_uds. destruct (open_channel attempt (ToSocket path)) as [channel|]; [|done]. intros [= <-] H Hdown Hb.
  destruct (subscribe_connector _ _ _ _ _ _ _ H) as (config & _ & _ & He & _).
  destruct (tonic_connect_spec (connector_network connector) (tc_backoff connector) request from_slot sink Hb)
    as (o & Ho & Hspec). exists o. split; [done|]. intros r sink' E. destruct r as [st|e]; [|done]. exfalso.
  destruct (Hspec _ _ E) as (_ & n & _ & _ & _ & _ & _ & Hsub). unfold connect_attempt in Hsub.
  cbn [net_connect connector_network] in Hsub. rewrite He in Hsub.
  specialize (Hdown (n - 1)%nat). by destruct (open_channel _ _).
Qed.
End reconnecting.

(** ** A concrete transport *)

Section example.

(** An endpoint is its address with the options set, the latest first; a channel
    can be opened where [reachable] says, and a server answers with no updates. *)
#[local] Instance demo_tonic (reachable : string → bool) : Tonic := {
  Endpoint := string * list EndpointOption;
  ClientTlsConfig := unit;
  Channel := string;
  GeyserClient := string * InterceptorXToken * list GeyserClientOption;
  HealthClient := string;
  metadata_value s := if bool_decide (s = EmptyString) then Err "empty" else Ok s;
  endpoint_from_shared s := if bool_decide (s = EmptyString) then Err "invalid uri" else Ok (s, []);
  endpoint_set o e := (e.1, o :: e.2);
  endpoint_tls_config _ e := Ok e;
  open_channel _ target :=
    let where_ := match target with ToEndpoint e => e.1 | ToSocket path => path end in
    if reachable where_ then Ok where_ else Err "connection refused"%string;
  connect_lazy e := e.1;
  geyser_with_interceptor channel interceptor := (channel, interceptor, []);
  geyser_set o g := (g.1, o :: g.2);
  health_with_interceptor channel _ := channel;
  geyser_subscribe _ _ _ _ := Ok [ReadyEnd]
}.

Definition demo_endpoint_get (k : EndpointKey) (e : string * list EndpointOption) : option EndpointOption :=
  list_find (λ o, endpoint_key o = k) e.2 ≫= λ p, Some p.2.

#[local] Instance demo_tonic_laws reachable : TonicLaws (T := demo_tonic reachable).
Proof.
  refine {| endpoint_get := demo_endpoint_get : EndpointKey → Endpoint (Tonic := demo_tonic reachable) → _ |}.
  - intros s e k. cbn. by case_bool_decide; intros [= <-].
  - intros k o e. unfold demo_endpoint_get. cbn. case_decide; [done|]. by destruct (list_find _ e.2) as [[]|].
  - by intros k tls e e' [= <-].
Defined.

Definition everywhere : string → bool := λ _, true.
Definition only_socket : string → bool := λ s, bool_decide (s = "/tmp/yellowstone.sock"%string).

Definition demo_calls (T : Tonic) : list (BuilderCall (T := T)) :=
  [SetEndpoint (Timeout 5); SetXToken (Some "a"%string); SetMaxDecodingMessageSize 10; SetEndpoint (Timeout 7);
   SetXToken (Some "b"%string); SetReconnectConfig ReconnectConfig_default].

Definition demo_builder (reachable : string → bool) : GeyserGrpcBuilder (T := demo_tonic reachable) :=
  mkGeyserGrpcBuilder (T := demo_tonic reachable) ("http://node"%string, [Timeout 7; Timeout 5; Http2AdaptiveWindow true])
    (Some "b"%string) false None None (Some 10) None (Some ReconnectConfig_default).

Definition demo_start (reachable : string → bool) : GeyserGrpcBuilder (T := demo_tonic reachable) :=
  mkGeyserGrpcBuilder (T := demo_tonic reachable) ("http://node"%string, [Http2AdaptiveWindow true]) None false None None None None None.

Lemma demo_builder_calls : builder_calls (T := demo_tonic everywhere) (demo_start everywhere) (demo_calls _) = Ok (demo_builder everywhere).
Proof. reflexivity. Qed.

Lemma builder_last_call_wins_witness :
  endpoint_get (TonicLaws := demo_tonic_laws everywhere) KTimeout (gb_endpoint (demo_builder everywhere)) = Some (Timeout 7).
Proof.
  pose proof (builder_last_call_wins (T := demo_tonic everywhere) (TL := demo_tonic_laws everywhere) "http://node"
    (demo_start everywhere) (demo_calls _) eq_refl) as H.
  rewrite demo_builder_calls in H. exact (proj1 H KTimeout).
Defined.

Definition demo_connector (reachable : string → bool) : TonicGrpcConnector (T := demo_tonic reachable) :=
  TonicGrpcConnector_new (T := demo_tonic reachable) (gb_endpoint (demo_builder reachable)) ReconnectConfig_default
    (Some "b"%string) (mkTonicGeyserClientOptions false None None (Some 10) None).

Definition demo_stream : SubscribeRequestSink * InnerStream :=
  subscribe_with_request (Some ReconnectConfig_default) None [ReadyEnd].

Lemma reconnect_like_first_witness :
  connect_attempt (connector_network (demo_connector everywhere)) SubscribeRequest_default (Some 3) 1 = Ok [ReadyEnd].
Proof.
  destruct (reconnect_like_first (T := demo_tonic everywhere) (EmptyString, []) (demo_builder everywhere)
    (build (T := demo_tonic everywhere) (demo_builder everywhere) "http://node"%string) 0 0 None
    demo_stream.1 demo_stream.2 (demo_connector everywhere) SubscribeRequest_default (Some 3)) as [Hattempt _];
    [left; reflexivity|reflexivity|discriminate|].
  exact (Hattempt 1%nat).
Defined.

(** The socket is up, the placeholder address of the builder is not. *)
Lemma uds_not_resumed_witness :
  ∃ o, tonic_connect (connector_network (demo_connector only_socket)) (tc_backoff (demo_connector only_socket))
         SubscribeRequest_default None demo_stream.1 = Some o ∧
    ∀ r sink', o = Done (r, sink') → is_ok r = false.
Proof.
  apply (uds_not_resumed (T := demo_tonic only_socket) (EmptyString, []) (demo_builder only_socket) "/tmp/yellowstone.sock" 0
    (build (T := demo_tonic only_socket) (demo_builder only_socket) "/tmp/yellowstone.sock"%string) 0 None
    demo_stream.1 demo_stream.2); [reflexivity|reflexivity|reflexivity|discriminate].
Defined.
End example.
