(* ===== verification/NodeClient.v ===== *)
(** * yellowstone-grpc-client-nodejs/napi/src: the client

    How the bindings configure a client (utils.rs, bindings.rs), its unary
    methods (client.rs) over those of the Rust client (yellowstone-grpc-client/
    src/lib.rs) and the server's, and the account filter set (cuckoo.rs). The
    bytes JavaScript exchanges, the decoding of requests and the encoding of
    responses are parameters. *)

From S2P Require Import Prelude F64 Externals Proto Message Service BlockMeta Cuckoo CuckooSet Convert Dedup Reconnect Client Config ClientBuilder.
From S2P Require Import RequestValidation DuplexStream.

Set Default Goal Selector "!".

Local Open Scope Z_scope.

(** ** The builder of a client *)

Inductive JsCompressionAlgorithm := JsGzip | JsZstd.

Record JsChannelOptions := mkJsChannelOptions {
  grpc_connect_timeout : option Z;
  grpc_buffer_size : option Z;
  grpc_http2_keep_alive_interval : option Z;
  grpc_initial_connection_window_size : option Z;
  grpc_initial_stream_window_size : option Z;
  grpc_keep_alive_timeout : option Z;
  grpc_tcp_keepalive : option Z;
  grpc_timeout : option Z;
  grpc_max_decoding_message_size : option Z;
  grpc_max_encoding_message_size : option Z;
  grpc_default_compression_algorithm : option JsCompressionAlgorithm;
  grpc_set_x_request_snapshot : option bool;
  grpc_http2_adaptive_window : option bool;
  grpc_keep_alive_while_idle : option bool;
  grpc_tcp_nodelay : option bool
}.

Definition JsChannelOptions_default : JsChannelOptions := {|
  grpc_connect_timeout := Some 10000;
  grpc_timeout := Some 30000;
  grpc_initial_connection_window_size := Some (8 * 1024 * 1024);
  grpc_initial_stream_window_size := Some (4 * 1024 * 1024);
  grpc_max_decoding_message_size := Some (1024 * 1024 * 1024);
  grpc_max_encoding_message_size := Some (32 * 1024 * 1024);
  grpc_http2_adaptive_window := Some true;
  grpc_tcp_nodelay := Some true;
  grpc_keep_alive_while_idle := None;
  grpc_buffer_size := None;
  grpc_http2_keep_alive_interval := None;
  grpc_keep_alive_timeout := None;
  grpc_tcp_keepalive := None;
  grpc_default_compression_algorithm := None;
  grpc_set_x_request_snapshot := None
|}.

(** [Duration::from_millis], in nanoseconds. *)
Definition from_millis (ms : Z) : Z := ms * 1000000.

Section node_builder.
Context {T : Tonic} (enabled_roots : ClientTlsConfig).
(** What tonic's errors have as sources. *)
Context (tonic_sources : string → list string).

#[local] Instance builder_error_std : StdError GeyserGrpcBuilderError := {|
  error_to_string e := match e with
                       | MetadataValueError m => "Failed to parse x-token: " +:+ m
                       | TonicError m => "gRPC transport error: " +:+ m
                       end%string;
  error_sources e := match e with MetadataValueError m => [m] | TonicError m => m :: tonic_sources m end
|}.

(** The options every client starts from. *)
Definition default_calls : list BuilderCall :=
  let d := JsChannelOptions_default in
  [SetEndpoint (ConnectTimeout (from_millis (default 10000 (grpc_connect_timeout d))));
   SetEndpoint (Timeout (from_millis (default 30000 (grpc_timeout d))));
   SetEndpoint (InitialStreamWindowSize (Some (default (4 * 1024 * 1024) (grpc_initial_stream_window_size d))));
   SetEndpoint (InitialConnectionWindowSize (Some (default (8 * 1024 * 1024) (grpc_initial_connection_window_size d))));
   SetMaxDecodingMessageSize (default (1024 * 1024 * 1024) (grpc_max_decoding_message_size d));
   SetMaxEncodingMessageSize (default (32 * 1024 * 1024) (grpc_max_encoding_message_size d));
   SetEndpoint (Http2AdaptiveWindow (default true (grpc_http2_adaptive_window d)));
   SetEndpoint (TcpNodelay (default true (grpc_tcp_nodelay d)))].

(** [if let Some(v) = o { builder = builder.set(v) }]. *)
Definition when_some {A} (o : option A) (f : A → list BuilderCall) : list BuilderCall := from_option f [] o.

Definition override_calls (o : JsChannelOptions) : list BuilderCall :=
  when_some (grpc_connect_timeout o) (λ ms, [SetEndpoint (ConnectTimeout (from_millis ms))]) ++
  when_some (grpc_buffer_size o) (λ sz, [SetEndpoint (BufferSize (Some sz))]) ++
  when_some (grpc_http2_keep_alive_interval o) (λ ms, [SetEndpoint (Http2KeepAliveInterval (from_millis ms))]) ++
  when_some (grpc_initial_connection_window_size o) (λ sz, [SetEndpoint (InitialConnectionWindowSize (Some sz))]) ++
  when_some (grpc_initial_stream_window_size o) (λ sz, [SetEndpoint (InitialStreamWindowSize (Some sz))]) ++
  when_some (grpc_keep_alive_timeout o) (λ ms, [SetEndpoint (KeepAliveTimeout (from_millis ms))]) ++
  when_some (grpc_tcp_keepalive o) (λ ms, [SetEndpoint (TcpKeepalive (Some (from_millis ms)))]) ++
  when_some (grpc_timeout o) (λ ms, [SetEndpoint (Timeout (from_millis ms))]) ++
  when_some (grpc_max_decoding_message_size o) (λ sz, [SetMaxDecodingMessageSize sz]) ++
  when_some (grpc_max_encoding_message_size o) (λ sz, [SetMaxEncodingMessageSize sz]) ++
  when_some (grpc_set_x_request_snapshot o) (λ b, [SetXRequestSnapshot b]) ++
  when_some (grpc_http2_adaptive_window o) (λ b, [SetEndpoint (Http2AdaptiveWindow b)]) ++
  when_some (grpc_keep_alive_while_idle o) (λ b, [SetEndpoint (KeepAliveWhileIdle b)]) ++
  when_some (grpc_tcp_nodelay o) (λ b, [SetEndpoint (TcpNodelay b)]) ++
  when_some (grpc_default_compression_algorithm o) (λ algorithm,
    let compression_encoding := match algorithm with JsGzip => Gzip | JsZstd => Zstd end in
    [SetSendCompressed compression_encoding; SetAcceptCompressed compression_encoding]).

(** [invalid_arg_with_cause]. *)
Definition invalid_arg_with_cause (reason : string) (cause : GeyserGrpcBuilderError) : NapiError :=
  napi_error_with_cause InvalidArg reason cause.

(** A call that may fail, with the reason to report. *)
Definition builder_try (reason : string) (b : GeyserGrpcBuilder) (c : BuilderCall) : result NapiError GeyserGrpcBuilder :=
  map_err (invalid_arg_with_cause reason) (builder_call b c).

(** Calls that cannot fail. *)
Definition builder_set (b : GeyserGrpcBuilder) (calls : list BuilderCall) : GeyserGrpcBuilder :=
  match builder_calls b calls with Ok b => b | Err _ => b end.

Definition get_client_builder (endpoint : string) (x_token : option string) (channel_options : option JsChannelOptions)
    (reconnect_config : option JsReconnectConfig) : result NapiError GeyserGrpcBuilder :=
  let use_tls := String.prefix "https://" endpoint in
  b ← map_err (invalid_arg_with_cause "invalid gRPC endpoint configuration") (GeyserGrpcBuilder_from_shared endpoint);
  b ← builder_try "invalid x-token configuration" b (SetXToken x_token);
  b ← (if use_tls then builder_try "invalid TLS configuration for gRPC endpoint" b (SetTlsConfig enabled_roots) else Ok b);
  reconnect_config ← map_err (napi_error InvalidArg) (reconnect_config_from_js reconnect_config);
  let b := match reconnect_config with Some config => builder_set b [SetReconnectConfig config] | None => b end in
  let b := builder_set b default_calls in
  Ok (match channel_options with Some o => builder_set b (override_calls o) | None => b end).

(** [GrpcClient::new]. *)
Definition GrpcClient_new (endpoint : string) (x_token : option string) (channel_options : option JsChannelOptions)
    (reconnect_config : option JsReconnectConfig) : result NapiError GeyserGrpcClient :=
  b ← get_client_builder endpoint x_token channel_options reconnect_config;
  map_err (napi_error_with_cause GenericFailure "failed to connect to gRPC endpoint") (builder_connect 0 b).

(** What an option of the channel comes to. *)
Definition effective_option (o : JsChannelOptions) (k : EndpointKey) : option EndpointOption :=
  match k with
  | KConnectTimeout => Some (ConnectTimeout (from_millis (default 10000 (grpc_connect_timeout o))))
  | KBufferSize => (λ sz, BufferSize (Some sz)) <$> grpc_buffer_size o
  | KHttp2AdaptiveWindow => Some (Http2AdaptiveWindow (default true (grpc_http2_adaptive_window o)))
  | KHttp2KeepAliveInterval => (λ ms, Http2KeepAliveInterval (from_millis ms)) <$> grpc_http2_keep_alive_interval o
  | KInitialConnectionWindowSize =>
      Some (InitialConnectionWindowSize (Some (default 8388608 (grpc_initial_connection_window_size o))))
  | KInitialStreamWindowSize => Some (InitialStreamWindowSize (Some (default 4194304 (grpc_initial_stream_window_size o))))
  | KKeepAliveTimeout => (λ ms, KeepAliveTimeout (from_millis ms)) <$> grpc_keep_alive_timeout o
  | KKeepAliveWhileIdle => KeepAliveWhileIdle <$> grpc_keep_alive_while_idle o
  | KTcpKeepalive => (λ ms, TcpKeepalive (Some (from_millis ms))) <$> grpc_tcp_keepalive o
  | KTcpNodelay => Some (TcpNodelay (default true (grpc_tcp_nodelay o)))
  | KTimeout => Some (Timeout (from_millis (default 30000 (grpc_timeout o))))
  end.

Definition no_options : JsChannelOptions :=
  mkJsChannelOptions None None None None None None None None None None None None None None None.

(** ** What the options come to *)

Context {TL : TonicLaws}.

Definition infallible (c : BuilderCall) : bool :=
  match c with SetTlsConfig _ | SetXToken _ => false | _ => true end.

Lemma builder_set_calls b calls : forallb infallible calls = true → builder_calls b calls = Ok (builder_set b calls).
Proof.
  intros H. unfold builder_set. assert (∃ b', builder_calls b calls = Ok b') as (b' & ->); [|done].
  revert b H. induction calls as [|c calls IH]; intros b; [by exists b|]. cbn [forallb builder_calls].
  intros [Hc H]%andb_prop. destruct (builder_call b c) as [b1|] eqn:E; [by apply IH|]. by destruct c.
Qed.

Lemma forallb_when {A} (o : option A) f : (∀ v, forallb infallible (f v) = true) → forallb infallible (when_some o f) = true.
Proof. intros H. by destruct o; [apply H|]. Qed.

Lemma override_calls_infallible o : forallb infallible (override_calls o) = true.
Proof. unfold override_calls. rewrite !forallb_app, !forallb_when; try done. Qed.

Lemma last_call_app {A} (f : BuilderCall → option A) l1 l2 :
  last_call f (l1 ++ l2) = match last_call f l2 with Some v => Some v | None => last_call f l1 end.
Proof. unfold last_call. by rewrite omap_app, last_app. Qed.

Lemma last_call_when {A B} (f : BuilderCall → option B) (o : option A) g :
  last_call f (when_some o g) = from_option (λ v, last_call f (g v)) None o.
Proof. by destruct o. Qed.

Lemma from_option_none {A B} (o : option A) : from_option (λ _, None) None o = @None B.
Proof. by destruct o. Qed.

(** All the calls of [get_client_builder] after the address. *)
Definition all_calls (x_token : option string) (tls : bool) (config : option ReconnectConfig) (o : JsChannelOptions) : list BuilderCall :=
  ([SetXToken x_token] ++ (if tls then [SetTlsConfig enabled_roots] else [])) ++
  when_some config (λ config, [SetReconnectConfig config]) ++ default_calls ++ override_calls o.

Lemma get_client_builder_calls endpoint x_token channel_options reconnect_config b :
  get_client_builder endpoint x_token channel_options reconnect_config = Ok b →
  ∃ b0 config, GeyserGrpcBuilder_from_shared endpoint = Ok b0 ∧ reconnect_config_from_js reconnect_config = Ok config ∧
    builder_calls b0 (all_calls x_token (String.prefix "https://" endpoint) config (default no_options channel_options)) = Ok b.
Proof.
  unfold get_client_builder, builder_try. destruct (GeyserGrpcBuilder_from_shared endpoint) as [b0|]; [|done].
  cbn [map_err mbind result_bind]. destruct (builder_call b0 (SetXToken x_token)) as [b1|] eqn:E1; [|done].
  cbn [map_err mbind result_bind].
  generalize (String.prefix "https://" endpoint) as tls. intros tls.
  destruct (if tls then map_err (invalid_arg_with_cause "invalid TLS configuration for gRPC endpoint") (builder_call b1 (SetTlsConfig enabled_roots))
            else Ok b1) as [b2|] eqn:E2; [|done]. cbn [mbind result_bind].
  destruct (reconnect_config_from_js reconnect_config) as [config|] eqn:Ec; [|done]. cbn [map_err mbind result_bind]. intros [= <-].
  exists b0, config. split; [done|]. split; [done|]. unfold all_calls. rewrite !builder_calls_app, builder_calls_one, E1.
  cbn [mbind result_bind].
  assert (builder_calls b1 (if tls then [SetTlsConfig enabled_roots] else []) = Ok b2) as ->.
  { destruct tls; [|by injection E2 as ->]. rewrite builder_calls_one. destruct (builder_call b1 _); [|done]. by injection E2 as ->. }
  cbn [mbind result_bind].
  rewrite builder_calls_app.
  replace (builder_calls b2 (when_some config (λ config, [SetReconnectConfig config])))
    with (Ok (E := GeyserGrpcBuilderError) (match config with Some config => builder_set b2 [SetReconnectConfig config] | None => b2 end))
    by (by destruct config).
  cbn [mbind result_bind]. rewrite builder_calls_app, (builder_set_calls _ default_calls) by reflexivity. cbn [mbind result_bind].
  destruct channel_options as [o|]; [|done]. apply builder_set_calls, override_calls_infallible.
Qed.

#[local] Arguments from_option : simpl never.

(** Computes the last call of a kind, the options left as they are. *)
Ltac eval_calls :=
  unfold all_calls, override_calls; rewrite !last_call_app, !last_call_when; unfold last_call, when_some;
  cbv -[from_option from_millis Z.mul metadata_value]; rewrite ?from_option_none.

(** The calls that set an endpoint option, by option. *)
Lemma endpoint_calls_last x_token tls config o k :
  match last_call (endpoint_call k) (all_calls x_token tls config o) with
  | Some e => Some e
  | None => if decide (k = KHttp2AdaptiveWindow) then Some (Http2AdaptiveWindow true) else None
  end = effective_option o k.
Proof.
  destruct o as [o1 o2 o3 o4 o5 o6 o7 o8 o9 o10 o11 o12 o13 o14 o15].
  destruct k, tls, config; eval_calls; try done.
  all: lazymatch goal with |- context [from_option _ None ?x] => by destruct x end.
Qed.

(** The calls that set the other options. *)
Lemma client_calls_last x_token tls config o :
  let calls := all_calls x_token tls config o in
  last_call kept_token calls = Some (s ← x_token; match metadata_value s with Ok v => Some v | Err _ => None end) ∧
  last_call (λ c, if c is SetXRequestSnapshot v then Some v else None) calls = grpc_set_x_request_snapshot o ∧
  last_call (λ c, if c is SetSendCompressed e then Some e else None) calls =
    (λ a, if a is JsGzip then Gzip else Zstd) <$> grpc_default_compression_algorithm o ∧
  last_call (λ c, if c is SetAcceptCompressed e then Some e else None) calls =
    (λ a, if a is JsGzip then Gzip else Zstd) <$> grpc_default_compression_algorithm o ∧
  last_call (λ c, if c is SetMaxDecodingMessageSize l then Some l else None) calls =
    Some (default 1073741824 (grpc_max_decoding_message_size o)) ∧
  last_call (λ c, if c is SetMaxEncodingMessageSize l then Some l else None) calls =
    Some (default 33554432 (grpc_max_encoding_message_size o)) ∧
  last_call (λ c, if c is SetReconnectConfig r then Some r else None) calls = config.
Proof.
  destruct o as [o1 o2 o3 o4 o5 o6 o7 o8 o9 o10 o11 o12 o13 o14 o15]. cbv zeta.
  split_and!; destruct tls, config, x_token; eval_calls; try done.
  all: lazymatch goal with
       | |- context [from_option _ None ?x] => by destruct x as [[]|] + destruct x
       end.
Qed.

Lemma get_client_builder_refused endpoint x_token channel_options reconnect_config e :
  get_client_builder endpoint x_token channel_options reconnect_config = Err e →
  ∃ reason cause, e = mkNapiError InvalidArg reason (Some cause).
Proof.
  unfold get_client_builder, builder_try, invalid_arg_with_cause, napi_error_with_cause, napi_error.
  destruct (GeyserGrpcBuilder_from_shared endpoint) as [b0|]; cbn [map_err mbind result_bind]; [|intros [= <-]; eauto].
  destruct (builder_call b0 (SetXToken x_token)) as [b1|]; cbn [map_err mbind result_bind]; [|intros [= <-]; eauto].
  destruct (String.prefix "https://" endpoint); [destruct (builder_call b1 _)|]; cbn [map_err mbind result_bind];
    try (intros [= <-]; by eauto);
    destruct (reconnect_config_from_js reconnect_config); cbn [map_err mbind result_bind]; try done; intros [= <-]; eauto.
Qed.

(** What the bindings configure. An accepted configuration gives a builder
    on which every option JavaScript set has the value it set and every other
    one its documented default, compression goes both ways, and the reconnect
    configuration is the checked one; a refused one names what was wrong and
    carries the cause. *)
Theorem node_client_options endpoint x_token channel_options reconnect_config :
  match get_client_builder endpoint x_token channel_options reconnect_config with
  | Ok b =>
      let o := default no_options channel_options in
      (∀ k, endpoint_get k (gb_endpoint b) = effective_option o k) ∧
      (match x_token with
       | Some s => ∃ v, metadata_value s = Ok v ∧ gb_x_token b = Some v
       | None => gb_x_token b = None
       end) ∧
      gb_x_request_snapshot b = default false (grpc_set_x_request_snapshot o) ∧
      gb_send_compressed b = (λ a, if a is JsGzip then Gzip else Zstd) <$> grpc_default_compression_algorithm o ∧
      gb_accept_compressed b = gb_send_compressed b ∧
      gb_max_decoding_message_size b = Some (default 1073741824 (grpc_max_decoding_message_size o)) ∧
      gb_max_encoding_message_size b = Some (default 33554432 (grpc_max_encoding_message_size o)) ∧
      reconnect_config_from_js reconnect_config = Ok (gb_reconnect_config b)
  | Err e => ∃ reason cause, e = mkNapiError InvalidArg reason (Some cause)
  end.
Proof.
  destruct (get_client_builder _ _ _ _) as [b|e] eqn:E.
  - destruct (get_client_builder_calls _ _ _ _ _ E) as (b0 & config & H0 & Hc & Hb). cbv zeta.
    set (o := default no_options channel_options) in *. clearbody o. revert Hb.
    generalize (String.prefix "https://" endpoint) as tls. intros tls Hb.
    assert (∃ e0, endpoint_from_shared endpoint = Ok e0 ∧ b0 = GeyserGrpcBuilder_new (endpoint_set (Http2AdaptiveWindow true) e0))
      as (e0 & Ee & ->).
    { unfold GeyserGrpcBuilder_from_shared in H0. destruct (endpoint_from_shared endpoint) as [e0|]; [|done]. injection H0 as <-. by exists e0. }
    destruct (client_calls_last x_token tls config o) as (Ht & Hs & Hsc & Hac & Hmd & Hme & Hr).
    destruct (client_options_last _ _ _ Hb) as (Hs' & Hsc' & Hac' & Hmd' & Hme' & Hr'). cbv zeta in Hsc', Hac', Hmd', Hme', Hr'.
    rewrite Hs', Hsc', Hac', Hmd', Hme', Hr', Hs, Hsc, Hac, Hmd, Hme, Hr.
    split_and!; try reflexivity; try (by destruct (grpc_default_compression_algorithm o)); try (by destruct config).
    + intros k. rewrite (endpoint_last_wins _ _ _ _ Hb), <- (endpoint_calls_last x_token tls config).
      generalize (last_call (endpoint_call k) (all_calls x_token tls config o)) as c. intros [c|]; [reflexivity|].
      cbn [gb_endpoint GeyserGrpcBuilder_new]. rewrite endpoint_get_set, (endpoint_get_new _ _ _ Ee). cbn [endpoint_key].
      repeat case_decide; congruence.
    + rewrite (kept_token_wins _ _ _ Hb), Ht.
      destruct (builder_calls_each _ _ _ (SetXToken x_token) Hb) as (b1 & b2 & Htok); [by left|].
      destruct x_token as [s|]; [|reflexivity]. cbn in Htok. cbn [mbind option_bind from_option].
      destruct (metadata_value s) as [v|]; [by exists v|done].
  - by eapply get_client_builder_refused.
Qed.
End node_builder.

(** ** A concrete configuration *)

Section example.
Definition demo_options : JsChannelOptions :=
  mkJsChannelOptions None None None None None None None (Some 5) None None (Some JsZstd) None None None None.

Abbreviation demo_config := (get_client_builder (T := demo_tonic everywhere) tt (λ _, []) "http://node" (Some "t"%string)
  (Some demo_options) None).

Definition demo_node_builder : GeyserGrpcBuilder (T := demo_tonic everywhere) :=
  match demo_config with Ok b => b | Err _ => GeyserGrpcBuilder_new (T := demo_tonic everywhere) (EmptyString, []) end.

Lemma demo_config_ok : demo_config = Ok demo_node_builder.
Proof. vm_compute. reflexivity. Qed.

Lemma node_client_options_witness :
  endpoint_get (TonicLaws := demo_tonic_laws everywhere) KTimeout (gb_endpoint demo_node_builder) = Some (Timeout 5000000) ∧
  gb_accept_compressed demo_node_builder = Some Zstd.
Proof.
  pose proof (node_client_options (T := demo_tonic everywhere) tt (λ _, []) (TL := demo_tonic_laws everywhere) "http://node"
    (Some "t"%string) (Some demo_options) None) as H.
  rewrite demo_config_ok in H. destruct H as (Hk & _ & _ & Hs & Ha & _). split; [exact (Hk KTimeout)|].
  rewrite Ha, Hs. reflexivity.
Defined.
End example.
