(* ===== verification/NodeUnary.v ===== *)
(** * The unary methods, from JavaScript to the server

    The methods of the Node.js client (napi/src/client.rs) over those of the
    Rust client (yellowstone-grpc-client/src/lib.rs) over those of the server
    (BlockMeta.v). What JavaScript exchanges are the bytes of protobuf messages,
    whose decoding and encoding, like the generated calls, are parameters. *)

From S2P Require Import Prelude Proto Message Service BlockMeta Dedup Reconnect Client ClientBuilder.
From S2P Require Import RequestValidation DuplexStream.

Set Default Goal Selector "!".

Local Open Scope Z_scope.

(** ** The calls of the generated client *)

(** A request is its fields: a commitment, a block hash, a count. *)
Class GeyserCalls (C : Type) := {
  call_subscribe_replay_info : C → result Status (option Z);
  call_ping : C → Z → result Status Z;
  call_get_latest_blockhash : C → option Z → result Status GetLatestBlockhashResponse;
  call_get_block_height : C → option Z → result Status Z;
  call_get_slot : C → option Z → result Status Z;
  call_is_blockhash_valid : C → string → option Z → result Status IsBlockhashValidResponse;
  call_get_version : C → result Status string
}.

Section rust_client.
Context {C : Type} {K : GeyserCalls C}.

(** [From<Status>] and [?]. *)
Definition client_result {A} (r : result Status A) : result GeyserGrpcClientError A := map_err Reconnect.TonicStatus r.

Definition client_subscribe_replay_info (geyser : C) := client_result (call_subscribe_replay_info geyser).

Definition client_ping (geyser : C) (count : Z) := client_result (call_ping geyser count).

Definition client_get_latest_blockhash (geyser : C) (commitment : option CommitmentLevel) :=
  client_result (call_get_latest_blockhash geyser (CommitmentLevel_to_proto <$> commitment)).

Definition client_get_block_height (geyser : C) (commitment : option CommitmentLevel) :=
  client_result (call_get_block_height geyser (CommitmentLevel_to_proto <$> commitment)).

Definition client_get_slot (geyser : C) (commitment : option CommitmentLevel) :=
  client_result (call_get_slot geyser (CommitmentLevel_to_proto <$> commitment)).

Definition client_is_blockhash_valid (geyser : C) (blockhash : string) (commitment : option CommitmentLevel) :=
  client_result (call_is_blockhash_valid geyser blockhash (CommitmentLevel_to_proto <$> commitment)).

Definition client_get_version (geyser : C) := client_result (call_get_version geyser).
End rust_client.

(** ** The methods of the Node.js client *)

(** The messages JavaScript sends, by what they carry. *)
Inductive UnaryRequest :=
| GetLatestBlockhashRequest (commitment : option Z)
| PingRequest (count : Z)
| GetBlockHeightRequest (commitment : option Z)
| GetSlotRequest (commitment : option Z)
| IsBlockhashValidRequest (blockhash : string) (commitment : option Z)
| GetVersionRequest
| SubscribeReplayInfoRequest.

Inductive UnaryResponse :=
| ReplayInfoResponse (first_available : option Z)
| PongResponse (count : Z)
| LatestBlockhashResponse (r : GetLatestBlockhashResponse)
| BlockHeightResponse (block_height : Z)
| SlotResponse (slot : Z)
| BlockhashValidResponse (r : IsBlockhashValidResponse)
| VersionResponse (version : string).

Inductive UnaryMethod :=
| MethodGetLatestBlockhash | MethodPing | MethodGetBlockHeight | MethodGetSlot | MethodIsBlockhashValid
| MethodGetVersion | MethodSubscribeReplayInfo.

Definition message_name (m : UnaryMethod) : string :=
  match m with
  | MethodGetLatestBlockhash => "GetLatestBlockhashRequest"
  | MethodPing => "PingRequest"
  | MethodGetBlockHeight => "GetBlockHeightRequest"
  | MethodGetSlot => "GetSlotRequest"
  | MethodIsBlockhashValid => "IsBlockhashValidRequest"
  | MethodGetVersion => "GetVersionRequest"
  | MethodSubscribeReplayInfo => "SubscribeReplayInfoRequest"
  end.

Definition failure_reason (m : UnaryMethod) : string :=
  match m with
  | MethodGetLatestBlockhash => "get_latest_blockhash request failed"
  | MethodPing => "ping request failed"
  | MethodGetBlockHeight => "get_block_height request failed"
  | MethodGetSlot => "get_slot request failed"
  | MethodIsBlockhashValid => "is_blockhash_valid request failed"
  | MethodGetVersion => "get_version request failed"
  | MethodSubscribeReplayInfo => "subscribe_replay_info request failed"
  end.

Section node.
Context {C : Type} {K : GeyserCalls C}.
(** [T::decode], given the message expected, and [encode_to_vec]. *)
Context {Bytes DecodeError : Type} {SD : StdError DecodeError} {SE : StdError GeyserGrpcClientError}.
Context (decode : UnaryMethod → Bytes → result DecodeError UnaryRequest) (encode : UnaryResponse → Bytes).

Definition decode_request (m : UnaryMethod) (request_bytes : Bytes) : result NapiError UnaryRequest :=
  map_err (napi_error_with_cause InvalidArg ("invalid " +:+ message_name m +:+ " payload")) (decode m request_bytes).

(** [request.commitment.and_then(|c| CommitmentLevel::try_from(c).ok())]. *)
Definition commitment_level_option (commitment : option Z) : option CommitmentLevel :=
  c ← commitment; CommitmentLevel_try_from c.

(** The future of a method. *)
Definition node_call (client : C) (request : UnaryRequest) : result GeyserGrpcClientError UnaryResponse :=
  match request with
  | GetLatestBlockhashRequest commitment =>
      LatestBlockhashResponse <$> client_get_latest_blockhash client (commitment_level_option commitment)
  | PingRequest count => PongResponse <$> client_ping client count
  | GetBlockHeightRequest commitment =>
      BlockHeightResponse <$> client_get_block_height client (commitment_level_option commitment)
  | GetSlotRequest commitment => SlotResponse <$> client_get_slot client (commitment_level_option commitment)
  | IsBlockhashValidRequest blockhash commitment =>
      BlockhashValidResponse <$> client_is_blockhash_valid client blockhash (commitment_level_option commitment)
  | GetVersionRequest => VersionResponse <$> client_get_version client
  | SubscribeReplayInfoRequest => ReplayInfoResponse <$> client_subscribe_replay_info client
  end.

(** A method: an error is thrown at once or rejects the promise. *)
Definition node_method (m : UnaryMethod) (client : C) (request_bytes : Bytes) : result NapiError (result NapiError Bytes) :=
  request ← decode_request m request_bytes;
  Ok (encode <$> map_err (napi_error_with_cause GenericFailure (failure_reason m)) (node_call client request)).

End node.

(** ** With the server at the other end *)

(** tonic's [Status] of a status the handlers build. *)
Definition status_of (e : Service.TonicStatus) : Status :=
  match e with
  | StatusInternal m => mkStatus Internal m false
  | StatusUnknown m => mkStatus Unknown m false
  | StatusUnimplemented m => mkStatus Unimplemented m false
  | StatusResourceExhausted m => mkStatus ResourceExhausted m false
  | StatusUnavailable m => mkStatus Unavailable m false
  | StatusOutOfRange m => mkStatus OutOfRange m false
  | StatusInvalidArgument m => mkStatus InvalidArgument m false
  end.

Section wired.
Context {R : RecentBlockhashes}.

(** The server: its block metas, its version and what it can replay. *)
Record UnaryServer := mkUnaryServer {
  us_blocks_meta : option BlockMetaStorageInner;
  us_version : string;
  us_replay_info : result Service.TonicStatus (option Z)
}.

(** A client whose calls reach the handlers. *)
#[local] Instance wired : GeyserCalls UnaryServer := {|
  call_subscribe_replay_info s := map_err status_of (us_replay_info s);
  call_ping s count := Ok count;
  call_get_latest_blockhash s c := map_err status_of (get_latest_blockhash (us_blocks_meta s) c);
  call_get_block_height s c := map_err status_of (get_block_height (us_blocks_meta s) c);
  call_get_slot s c := map_err status_of (get_slot (us_blocks_meta s) c);
  call_is_blockhash_valid s h c := map_err status_of (is_blockhash_valid_method (us_blocks_meta s) h c);
  call_get_version s := Ok (us_version s)
|}.

(** What the handlers answer to a request. *)
Definition server_unary (s : UnaryServer) (request : UnaryRequest) : result Service.TonicStatus UnaryResponse :=
  match request with
  | GetLatestBlockhashRequest c => LatestBlockhashResponse <$> get_latest_blockhash (us_blocks_meta s) c
  | PingRequest count => Ok (PongResponse count)
  | GetBlockHeightRequest c => BlockHeightResponse <$> get_block_height (us_blocks_meta s) c
  | GetSlotRequest c => SlotResponse <$> get_slot (us_blocks_meta s) c
  | IsBlockhashValidRequest h c => BlockhashValidResponse <$> is_blockhash_valid_method (us_blocks_meta s) h c
  | GetVersionRequest => Ok (VersionResponse (us_version s))
  | SubscribeReplayInfoRequest => ReplayInfoResponse <$> us_replay_info s
  end.

Definition request_commitment (request : UnaryRequest) : option Z :=
  match request with
  | GetLatestBlockhashRequest c | GetBlockHeightRequest c | GetSlotRequest c | IsBlockhashValidRequest _ c => c
  | _ => None
  end.

(** The request with the commitment left to the default. *)
Definition default_commitment (request : UnaryRequest) : UnaryRequest :=
  match request with
  | GetLatestBlockhashRequest _ => GetLatestBlockhashRequest None
  | GetBlockHeightRequest _ => GetBlockHeightRequest None
  | GetSlotRequest _ => GetSlotRequest None
  | IsBlockhashValidRequest h _ => IsBlockhashValidRequest h None
  | _ => request
  end.

(** A level the server knows. *)
Definition known_commitment (request : UnaryRequest) : bool :=
  match request_commitment request with
  | Some c => if CommitmentLevel_try_from c is Some _ then true else false
  | None => true
  end.

Lemma commitment_level_option_proto c :
  CommitmentLevel_to_proto <$> commitment_level_option c =
  if match c with Some c => if CommitmentLevel_try_from c is Some _ then true else false | None => true end then c else None.
Proof.
  destruct c as [c|]; [|done]. cbn. unfold CommitmentLevel_try_from.
  repeat case_match; cbn; simplify_eq; try done; cbn; f_equal; lia.
Qed.

Lemma node_call_wired s request : node_call s request =
  map_err (λ e, Reconnect.TonicStatus (status_of e))
    (server_unary s (if known_commitment request then request else default_commitment request)).
Proof.
  assert (∀ A B (f : A → B) (r : result Service.TonicStatus A),
    f <$> client_result (map_err status_of r) = map_err (λ e, Reconnect.TonicStatus (status_of e)) (f <$> r)) as Hmap.
  { by intros A B f []. }
  destruct request; cbn [node_call]; unfold client_get_latest_blockhash, client_get_block_height, client_get_slot,
    client_is_blockhash_valid, known_commitment, client_subscribe_replay_info; try rewrite commitment_level_option_proto;
    cbn [request_commitment]; try case_match; cbn [default_commitment server_unary]; try done; apply Hmap.
Qed.

Lemma unknown_commitment_refused s request : known_commitment request = false → is_Some (us_blocks_meta s) →
  ∃ m, server_unary s request = Err (StatusUnknown m).
Proof.
  intros Hk [bm Hbm]. unfold known_commitment in Hk.
  destruct request as [c|?|c|c|h c| |]; cbn in Hk; try done; (destruct c as [c|]; [|done]);
    destruct (CommitmentLevel_try_from c) eqn:E; try done; cbn [server_unary];
    unfold get_latest_blockhash, get_block_height, get_slot, is_blockhash_valid_method; rewrite Hbm; cbn [unary];
    unfold get_block, is_blockhash_valid, parse_commitment; cbn [from_option default id]; rewrite E; cbn; by eexists.
Qed.

Section answers.
Context {Bytes DecodeError : Type} {SD : StdError DecodeError} {SE : StdError GeyserGrpcClientError}.
Context (decode : UnaryMethod → Bytes → result DecodeError UnaryRequest) (encode : UnaryResponse → Bytes).

(** A unary method called from JavaScript: a payload that does not decode is
    refused at once, naming the message; a decoded request is answered with the
    encoded answer of the server's handler, or rejected with its status as the
    cause; except that a commitment the server does not know, which the server
    refuses when its storage is enabled, is dropped on the way, so that the
    answer is the one for the default level. *)
Theorem node_unary_answers (s : UnaryServer) m request_bytes :
  match decode m request_bytes with
  | Err e =>
      node_method decode encode m s request_bytes =
        Err (napi_error_with_cause InvalidArg ("invalid " +:+ message_name m +:+ " payload") e)
  | Ok request =>
      let answered := if known_commitment request then request else default_commitment request in
      node_method decode encode m s request_bytes =
        Ok (match server_unary s answered with
            | Ok response => Ok (encode response)
            | Err e => Err (napi_error_with_cause GenericFailure (failure_reason m) (Reconnect.TonicStatus (status_of e)))
            end) ∧
      request_commitment answered = (if known_commitment request then request_commitment request else None) ∧
      (known_commitment request = false → is_Some (us_blocks_meta s) →
         ∃ reason, server_unary s request = Err (StatusUnknown reason))
  end.
Proof.
  unfold node_method, decode_request. destruct (decode m request_bytes) as [request|e]; [|done].
  cbn [map_err mbind result_bind]. rewrite node_call_wired. cbv zeta. split; [by destruct (server_unary _ _)|].
  split; [|by apply unknown_commitment_refused]. case_match; [done|]. by destruct request.
Qed.
End answers.
End wired.

(** A level 7 is answered like level processed. *)
Section example.
#[local] Instance demo_clock : RecentBlockhashes := 300.
#[local] Instance demo_decode_error : StdError unit := {| error_to_string _ := "error"%string; error_sources _ := [] |}.
#[local] Instance demo_client_error : StdError GeyserGrpcClientError := {| error_to_string _ := "error"%string; error_sources _ := [] |}.

Definition demo_unary_server : UnaryServer :=
  mkUnaryServer (Some (stored [MsgBlockMeta (demo_block_meta 5); demo_slot 5 StatusProcessed])) "1" (Ok None).

Example unknown_level_answered :
  (node_call (K := wired) demo_unary_server (GetSlotRequest (Some 7)), server_unary demo_unary_server (GetSlotRequest (Some 7)))
  = (Ok (SlotResponse 5), Err (StatusUnknown "failed to create CommitmentLevel from 7")).
Proof. by vm_compute. Qed.
End example.
