(* ===== verification/NodeCuckoo.v ===== *)
(** * yellowstone-grpc-client-nodejs/napi/src/cuckoo.rs: the account filter set

    The class JavaScript uses to build cuckoo filters: keys come as base58 text
    or as bytes, and every method takes the lock of the set of CuckooSet.v. The
    encoding of messages is a parameter; [capacity] depends on the allocator and
    is left out. *)

From S2P Require Import Prelude Externals Proto Cuckoo CuckooSet Convert RequestValidation DuplexStream.

Set Default Goal Selector "!".

Local Open Scope Z_scope.

(** What the errors of the set display. *)
#[export] Instance table_full_std : StdError TableFullError :=
  {| error_to_string _ := "cuckoo table full after 500 kicks"%string; error_sources _ := [] |}.

#[export] Instance cuckoo_build_std : StdError CuckooBuildError :=
  {| error_to_string _ := "capacity overflow: requested capacity exceeds maximum"%string; error_sources _ := [] |}.

(** [std::num::TryFromIntError]. *)
Inductive TryFromIntError := out_of_range_integral.
#[export] Instance try_from_int_std : StdError TryFromIntError :=
  {| error_to_string _ := "out of range integral type conversion attempted"%string; error_sources _ := [] |}.

Section node_set.
Context {X : Externals}.
(** The error of [bs58::decode] on a text, and the encoders of the messages. *)
Context {Bs58Error : Type} {SB : StdError Bs58Error} (bs58_error : string → Bs58Error).
Context {Bytes : Type} (encode_filter : ProtoCuckooFilter → Bytes) (encode_accounts : SubscribeRequestFilterAccounts → Bytes)
  (encode_blocks : SubscribeRequestFilterBlocks → Bytes) (encode_transactions : SubscribeRequestFilterTransactions → Bytes).

Definition parse_pubkey_bytes (b : bytes) : result NapiError Pubkey :=
  if bool_decide (len b = 32) then Ok b
  else Err (napi_error InvalidArg ("invalid pubkey bytes: expected 32 bytes, got " +:+ decimal (len b))).

Definition parse_pubkey_string (pubkey : string) : result NapiError Pubkey :=
  match bs58_decode pubkey with
  | None =>
      Err (napi_error_with_cause InvalidArg "invalid pubkey: expected base58-encoded 32-byte public key" (bs58_error pubkey))
  | Some b => parse_pubkey_bytes b
  end.

(** The set behind its mutex. *)
Record NodeFilterSet := mkNodeFilterSet {
  nf_inner : CompressedAccountFilterSet;
  nf_poisoned : bool
}.

Definition NodeFilterSet_new (alloc reserve : Z → bool) (max_capacity : Z) : result NapiError NodeFilterSet :=
  match CompressedAccountFilterSet_with_capacity alloc reserve max_capacity with
  | Err e => Err (napi_error_with_cause InvalidArg "failed to build compressed account filter set" e)
  | Ok inner => Ok (mkNodeFilterSet inner false)
  end.

Definition lock_filter (s : NodeFilterSet) : result NapiError CompressedAccountFilterSet :=
  if nf_poisoned s then
    Err (napi_error_with_cause GenericFailure "failed to acquire compressed account filter lock" poisoned)
  else Ok (nf_inner s).

Definition set_inner (s : NodeFilterSet) (inner : CompressedAccountFilterSet) : NodeFilterSet :=
  mkNodeFilterSet inner (nf_poisoned s).

Definition insert_pubkey (s : NodeFilterSet) (pubkey : Pubkey) : outcome (NodeFilterSet * result NapiError bool) :=
  match lock_filter s with
  | Err e => Done (s, Err e)
  | Ok filter =>
      '(filter, r) ← CompressedAccountFilterSet_insert filter pubkey;
      Done (set_inner s filter,
            map_err (napi_error_with_cause GenericFailure
              "compressed account filter is full; rebuild with a larger maxCapacity") r)
  end.

Definition remove_pubkey (s : NodeFilterSet) (pubkey : Pubkey) : outcome (NodeFilterSet * result NapiError bool) :=
  match lock_filter s with
  | Err e => Done (s, Err e)
  | Ok filter => '(filter, b) ← CompressedAccountFilterSet_remove filter pubkey; Done (set_inner s filter, Ok b)
  end.

Definition contains_pubkey (s : NodeFilterSet) (pubkey : Pubkey) : result NapiError bool :=
  filter ← lock_filter s; Ok (CompressedAccountFilterSet_contains filter pubkey).

(** A key as JavaScript gives it. *)
Inductive NodeKey :=
| KeyText (pubkey : string)
| KeyBuffer (pubkey : bytes).

Definition parse_key (k : NodeKey) : result NapiError Pubkey :=
  match k with KeyText s => parse_pubkey_string s | KeyBuffer b => parse_pubkey_bytes b end.

Inductive NodeSetCall :=
| NodeInsert (k : NodeKey)
| NodeRemove (k : NodeKey)
| NodeContains (k : NodeKey)
| NodeLen
| NodeIsEmpty
| NodeToProto
| NodeToAccountFilter
| NodeToBlockFilter
| NodeToTransactionFilter.

Inductive NodeAnswer :=
| AnswerBool (b : bool)
| AnswerNumber (n : Z)
| AnswerBuffer (b : Bytes).

Definition with_key (s : NodeFilterSet) (k : NodeKey) (f : Pubkey → outcome (NodeFilterSet * result NapiError bool))
    : outcome (NodeFilterSet * result NapiError NodeAnswer) :=
  match parse_key k with
  | Err e => Done (s, Err e)
  | Ok pubkey =>
      match f pubkey with
      | Done (s, Ok b) => Done (s, Ok (AnswerBool b))
      | Done (s, Err e) => Done (s, Err e)
      | Panic => Panic
      end
  end.

Definition reading (s : NodeFilterSet) (f : CompressedAccountFilterSet → result NapiError NodeAnswer)
    : outcome (NodeFilterSet * result NapiError NodeAnswer) :=
  Done (s, filter ← lock_filter s; f filter).

Definition node_set_call (s : NodeFilterSet) (c : NodeSetCall) : outcome (NodeFilterSet * result NapiError NodeAnswer) :=
  match c with
  | NodeInsert k => with_key s k (insert_pubkey s)
  | NodeRemove k => with_key s k (remove_pubkey s)
  | NodeContains k => with_key s k (λ pubkey, Done (s, contains_pubkey s pubkey))
  | NodeLen => reading s (λ filter,
      let n := CompressedAccountFilterSet_len filter in
      if bool_decide (n < 2 ^ 32) then Ok (AnswerNumber n)
      else Err (napi_error_with_cause GenericFailure "filter length exceeds u32" out_of_range_integral))
  | NodeIsEmpty => reading s (λ filter, Ok (AnswerBool (CompressedAccountFilterSet_is_empty filter)))
  | NodeToProto => reading s (λ filter, Ok (AnswerBuffer (encode_filter (CompressedAccountFilterSet_to_proto filter))))
  | NodeToAccountFilter => reading s (λ filter, Ok (AnswerBuffer (encode_accounts (to_account_filter filter))))
  | NodeToBlockFilter => reading s (λ filter, Ok (AnswerBuffer (encode_blocks (to_block_filter filter))))
  | NodeToTransactionFilter =>
      reading s (λ filter, Ok (AnswerBuffer (encode_transactions (to_transaction_filter filter))))
  end.

(** A sequence of calls with their answers. *)
Fixpoint node_set_calls (s : NodeFilterSet) (calls : list NodeSetCall) : outcome (NodeFilterSet * list (result NapiError NodeAnswer)) :=
  match calls with
  | [] => Done (s, [])
  | c :: calls => '(s, r) ← node_set_call s c; '(s, rs) ← node_set_calls s calls; Done (s, r :: rs)
  end.

(** ** The set of its calls *)

Definition full_error : NapiError :=
  napi_error_with_cause GenericFailure "compressed account filter is full; rebuild with a larger maxCapacity" TableFull.

(** The wire form of a filter that a server reads as containing the keys. *)
Definition accepts (items : gset Pubkey) (p : ProtoCuckooFilter) : Prop :=
  ∀ key, key ∈ items → CuckooFilter_contains (CuckooFilter_from_proto p) key = Done true.

(** What a call answers of a mathematical set, and the set afterwards. *)
Definition keyed (items : gset Pubkey) (k : NodeKey) (f : Pubkey → gset Pubkey * bool) : gset Pubkey * result NapiError NodeAnswer :=
  match parse_key k with
  | Err e => (items, Err e)
  | Ok key => ((f key).1, Ok (AnswerBool (f key).2))
  end.

Definition node_spec (items : gset Pubkey) (c : NodeSetCall) (items' : gset Pubkey) (r : result NapiError NodeAnswer) : Prop :=
  match c with
  | NodeInsert k => (items', r) = keyed items k (λ key, ({[key]} ∪ items, bool_decide (key ∉ items)))
  | NodeRemove k => (items', r) = keyed items k (λ key, (items ∖ {[key]}, bool_decide (key ∈ items)))
  | NodeContains k => (items', r) = keyed items k (λ key, (items, bool_decide (key ∈ items)))
  | NodeLen =>
      items' = items ∧
      r = (if bool_decide (Z.of_nat (size items) < 2 ^ 32) then Ok (AnswerNumber (Z.of_nat (size items)))
           else Err (napi_error_with_cause GenericFailure "filter length exceeds u32" out_of_range_integral))
  | NodeIsEmpty => items' = items ∧ r = Ok (AnswerBool (bool_decide (items = ∅)))
  | NodeToProto => items' = items ∧ ∃ p, accepts items p ∧ r = Ok (AnswerBuffer (encode_filter p))
  | NodeToAccountFilter => items' = items ∧ ∃ p, accepts items p ∧
      r = Ok (AnswerBuffer (encode_accounts (mkRequestAccounts [] [] [] None (Some p))))
  | NodeToBlockFilter => items' = items ∧ ∃ p, accepts items p ∧
      r = Ok (AnswerBuffer (encode_blocks (mkRequestBlocks [] None None None (Some p))))
  | NodeToTransactionFilter => items' = items ∧ ∃ p, accepts items p ∧
      r = Ok (AnswerBuffer (encode_transactions (mkRequestTransactions None None None [] [] [] (Some p) None)))
  end.

(** The answers are the set's until an insert reports a full table. *)
Inductive spec_trace : gset Pubkey → list NodeSetCall → list (result NapiError NodeAnswer) → Prop :=
| trace_nil items : spec_trace items [] []
| trace_call items c items' r calls rs :
    node_spec items c items' r → spec_trace items' calls rs → spec_trace items (c :: calls) (r :: rs)
| trace_full items k key calls rs :
    parse_key k = Ok key → key ∉ items → spec_trace items (NodeInsert k :: calls) (Err full_error :: rs).

Definition node_wf (s : NodeFilterSet) : Prop := nf_poisoned s = false ∧ cf_wf (cs_filter (nf_inner s)).

Lemma with_key_cases s k f : (∀ key, parse_key k = Ok key → ∃ s' r, f key = Done (s', r) ∧ node_wf s') → node_wf s →
  ∃ s' r, with_key s k f = Done (s', r) ∧ node_wf s'.
Proof.
  intros Hf Hwf. unfold with_key. destruct (parse_key k) as [key|e]; [|by exists s, (Err e)].
  destruct (Hf key eq_refl) as (s' & [b|e] & -> & Hwf'); by eexists _, _.
Qed.

(** No call panics. *)
Lemma node_set_call_total s c : node_wf s → ∃ s' r, node_set_call s c = Done (s', r) ∧ node_wf s'.
Proof.
  intros [Hp Hwf]. destruct c as [k|k|k| | | | | |]; cbn [node_set_call]; try by eexists _, _.
  - apply with_key_cases; [|done]. intros key _. unfold insert_pubkey, lock_filter. rewrite Hp.
    unfold CompressedAccountFilterSet_insert. case_decide; [by eexists _, _|].
    destruct (insert_spec (cs_filter (nf_inner s)) key Hwf) as (f' & [[]|[]] & -> & Hwf' & _); cbn; by eexists _, _.
  - apply with_key_cases; [|done]. intros key _. unfold remove_pubkey, lock_filter. rewrite Hp.
    unfold CompressedAccountFilterSet_remove. case_decide; [|by eexists _, _].
    destruct (remove_spec (cs_filter (nf_inner s)) key Hwf) as (f' & b & -> & Hwf' & _). cbn. by eexists _, _.
  - apply with_key_cases; [|done]. intros key _. by eexists _, _.
Qed.

Lemma node_set_calls_total calls : ∀ s, node_wf s → ∃ s' rs, node_set_calls s calls = Done (s', rs).
Proof.
  induction calls as [|c calls IH]; intros s Hwf; [by eexists _, _|]. cbn [node_set_calls].
  destruct (node_set_call_total s c Hwf) as (s1 & r & -> & Hwf1). cbn [mbind outcome_bind].
  destruct (IH s1 Hwf1) as (s2 & rs & ->). by eexists _, _.
Qed.

(** One call on a set that mirrors a mathematical one. *)
Lemma node_set_call_spec s c s' r :
  nf_poisoned s = false → set_inv (nf_inner s) → node_set_call s c = Done (s', r) →
  (nf_poisoned s' = false ∧ set_inv (nf_inner s') ∧ node_spec (cs_items (nf_inner s)) c (cs_items (nf_inner s')) r) ∨
  (∃ k key, c = NodeInsert k ∧ parse_key k = Ok key ∧ key ∉ cs_items (nf_inner s) ∧ r = Err full_error).
Proof.
  intros Hp Hinv. assert (accepts (cs_items (nf_inner s)) (CompressedAccountFilterSet_to_proto (nf_inner s))) as Hacc.
  { intros key Hk. by apply set_inv_server. }
  destruct c as [k|k|k| | | | | |]; cbn [node_set_call node_spec]; unfold with_key, reading, keyed, lock_filter; rewrite ?Hp;
    try (intros [= <- <-]; left; split; [done|]; split; [done|]; split; [done|]; by eauto).
  - destruct (parse_key k) as [key|e] eqn:Ek; [|by intros [= <- <-]; left].
    unfold insert_pubkey, lock_filter. rewrite Hp.
    destruct (CompressedAccountFilterSet_insert (nf_inner s) key) as [[f [b|[]]]|] eqn:E; cbn; [|intros [= <- <-]|done].
    + intros [= <- <-]. left. destruct (set_inv_insert _ _ _ _ Hinv E) as (Hinv' & Hi & -> & _). cbn. by rewrite Hi.
    + right. exists k, key. split; [done|]. split; [done|]. split; [|done].
      intros Hin. unfold CompressedAccountFilterSet_insert in E. by rewrite decide_True in E.
  - destruct (parse_key k) as [key|e] eqn:Ek; [|by intros [= <- <-]; left].
    unfold remove_pubkey, lock_filter. rewrite Hp.
    destruct (set_inv_remove (nf_inner s) key Hinv) as (f & -> & Hinv' & Hi & _). cbn. intros [= <- <-]. left. cbn. by rewrite Hi.
  - destruct (parse_key k) as [key|e] eqn:Ek; [|by intros [= <- <-]; left].
    unfold contains_pubkey, lock_filter. rewrite Hp. cbn. intros [= <- <-]. by left.
Qed.

Lemma node_set_calls_trace calls : ∀ s, nf_poisoned s = false → set_inv (nf_inner s) →
  ∃ s' rs, node_set_calls s calls = Done (s', rs) ∧ spec_trace (cs_items (nf_inner s)) calls rs.
Proof.
  induction calls as [|c calls IH]; intros s Hp Hinv.
  { eexists _, _. split; [done|constructor]. }
  destruct (node_set_call_total s c) as (s1 & r & E & Hwf1); [split; [done|apply Hinv]|].
  cbn [node_set_calls]. rewrite E. cbn [mbind outcome_bind].
  destruct (node_set_call_spec _ _ _ _ Hp Hinv E) as [(Hp1 & Hinv1 & Hspec)|(k & key & -> & Hk & Hkey & ->)].
  - destruct (IH s1 Hp1 Hinv1) as (s2 & rs & -> & Htrace). eexists _, _. split; [done|]. by econstructor.
  - destruct (node_set_calls_total calls s1 Hwf1) as (s2 & rs & ->). eexists _, _. split; [done|]. by eapply trace_full.
Qed.

(** C31. The set of the bindings: no sequence of calls panics, and until an insert
    reports a full table every answer is that of a mathematical set of keys
    (texts and buffers that are not 32-byte keys are refused and change
    nothing), the filters it is turned into being read by a server as
    containing every key of it. *)
Theorem node_set_refines alloc reserve n s0 calls :
  NodeFilterSet_new alloc reserve n = Ok s0 →
  ∃ s rs, node_set_calls s0 calls = Done (s, rs) ∧ spec_trace ∅ calls rs.
Proof.
  unfold NodeFilterSet_new. destruct (CompressedAccountFilterSet_with_capacity _ _ _) as [inner|] eqn:E; [|done]. intros [= <-].
  destruct (set_inv_with_capacity _ _ _ _ E) as (Hinv & <- & _). by apply (node_set_calls_trace calls (mkNodeFilterSet inner false)).
Qed.
End node_set.

(** Four keys fit the smallest table; a key may be given as text. *)
Section example.
#[local] Existing Instance toy_externals.
#[local] Instance demo_bs58_error : StdError unit := {| error_to_string _ := "error"%string; error_sources _ := [] |}.

Definition demo_key (n : Z) : bytes := replicate 32 (bytes_of_Z n).

Definition demo_node_set : NodeFilterSet :=
  mkNodeFilterSet (mkCompressedAccountFilterSet ∅ (mkCuckooFilter [empty_bucket] YellowstoneHasherBuilder_default) false) false.

Definition demo_node_calls : list NodeSetCall :=
  [NodeInsert (KeyBuffer (demo_key 7)); NodeInsert (KeyBuffer (demo_key 7)); NodeContains (KeyText "too short"); NodeLen].

Lemma node_set_refines_witness : ∃ s rs,
  node_set_calls (λ _, ()) (λ _, 1) (λ _, 2) (λ _, 3) (λ _, 4) demo_node_set demo_node_calls = Done (s, rs) ∧
  spec_trace (λ _, ()) (λ _, 1) (λ _, 2) (λ _, 3) (λ _, 4) ∅ demo_node_calls rs.
Proof.
  apply (node_set_refines (λ _, ()) (λ _, 1) (λ _, 2) (λ _, 3) (λ _, 4) (λ _, true) (λ _, true) 3). reflexivity.
Defined.

Example demo_node_answers :
  (λ r, r.2) <$> (match node_set_calls (λ _, ()) (λ _, 1) (λ _, 2) (λ _, 3) (λ _, 4) demo_node_set demo_node_calls with
                  | Done r => Some r | Panic => None end) =
  Some [Ok (AnswerBool true); Ok (AnswerBool false);
        Err (napi_error InvalidArg "invalid pubkey bytes: expected 32 bytes, got 9"); Ok (AnswerNumber 1)].
Proof. by vm_compute. Qed.
End example.
