(* ===== verification/NodeSubscribe.v ===== *)
(** * yellowstone-grpc-client-nodejs: opening a subscription, and what it sends

    [subscribe_duplex_stream] and the writes of the duplex streams of lib.rs,
    down to the requests the Rust client puts on the wire, those of its
    reconnections included. The engine of the
    streams is in DuplexStream.v, the client in Client.v and ClientBuilder.v. *)

From S2P Require Import Prelude Proto Cuckoo Dedup Reconnect Client ClientBuilder RequestValidation DuplexStream.

Set Default Goal Selector "!".

Section node_subscribe.
Context {T : Tonic} (placeholder : Endpoint).
(** [SubscribeRequest::decode] and [SubscribeDeshredRequest::decode]. *)
Context {Bytes DecodeError SendError Status' : Type}.
Context {SD : StdError DecodeError} {SS : StdError SendError} {ST : StdError Status'} {SG : StdError GeyserGrpcClientError}.
Context (decode : Bytes → result DecodeError SubscribeRequest) (decode_deshred : Bytes → result DecodeError SubscribeDeshredRequest).

(** ** Opening a stream *)



(** ** The deshred stream *)

Definition decode_subscribe_deshred_request (request_bytes : Bytes) : result NapiError SubscribeDeshredRequest :=
  map_err (napi_error_with_cause InvalidArg "invalid SubscribeDeshredRequest payload") (decode_deshred request_bytes).

(** [DuplexStreamDeshred::write_raw], up to the future it spawns. *)
Definition deshred_write_raw {Sk} (d : DuplexStreamInner (Sk := Sk)) (request_bytes : Bytes) : result NapiError (Sk * SubscribeDeshredRequest) :=
  request ← decode_subscribe_deshred_request request_bytes;
  sink ← take_sink_for_write d "Cannot write to a closed deshred subscription stream";
  Ok (sink, request).

(** [DuplexStreamDeshred::send_subscribe_request] and [recv_update_or_error], given what the sink and the stream return. *)
Definition deshred_send (sent : result SendError unit) (terminal_error : option NapiError) : result NapiError unit * option NapiError :=
  send_subscribe_request sent terminal_error "deshred stream send failed".

Definition deshred_recv (item : option (result Status' Bytes)) (terminal_error : option NapiError) :
    result NapiError (option Bytes) * option NapiError :=
  recv_update_or_error item terminal_error "deshred stream receive failed".

(** ** What reaches the server *)

















End node_subscribe.

(** ** A stream opened and written to *)

Section demo.
#[local] Existing Instance demo_std.
#[local] Instance demo_client_error : StdError GeyserGrpcClientError := {| error_to_string _ := "error"%string; error_sources _ := [] |}.





End demo.
