(* ===== verification/TlsReload.v ===== *)
(** * grpc.rs and server/tls.rs: the certificates of a listener and their reloading

    [load_server_config_from_tls_config] makes the TLS configuration of a
    listener, whose resolver is a cell that callbacks of the file watcher swap
    when the files change. The disk and what is read of it (PEM files, keys) are
    parameters; the cells and the watcher are the state. *)

From S2P Require Import Prelude Tls FileWatcher.

Set Default Goal Selector "!".

(** ** Loading *)

Record TlsIdentityPair := mkTlsIdentityPair {
  cert_path : string;
  key_path : string
}.

Inductive GrpcTlsConfig :=
| IdentityPair (identity : TlsIdentityPair) (watch_file : bool)
| CertDir (cert_dir : string) (watch_file : bool).

(** What is read of a disk: the certificates of a PEM file, a key, the files of
    a directory ([None] if it is not one); and what the crypto library makes of it. *)
Class CertFiles (Disk CertifiedKey E : Type) := {
  Certificate : Type;
  PrivateKey : Type;
  SigningKey : Type;
  pem_file_iter : Disk → string → result E (list (result E Certificate));
  key_from_pem_file : Disk → string → result E PrivateKey;
  any_supported_type : PrivateKey → result E SigningKey;
  CertifiedKey_new : list Certificate → SigningKey → CertifiedKey;
  read_cert_dir : Disk → string → option (result E (list (pem_file (CertifiedKey := CertifiedKey) E)))
}.

Section reload.
Context {Disk CertifiedKey E : Type} {F : CertFiles Disk CertifiedKey E}.
(** [PathBuf::from]. *)
Context (path_of : string → Path).

Inductive TlsConfigLoadError :=
| OpenCert (e : E)
| ParseCert (e : E)
| NoCertificates
| ParseKey (e : E)
| ParseSigningKey (e : E)
| NotADirectory
| ReadDir (e : E)
| BadCertDir (e : cert_dir_error E)
| Notify (e : E).

(** [collect::<Result<Vec<_>, _>>]. *)
Fixpoint collect_results {A} (l : list (result E A)) : result E (list A) :=
  match l with
  | [] => Ok []
  | Ok x :: l => match collect_results l with Ok l => Ok (x :: l) | Err e => Err e end
  | Err e :: _ => Err e
  end.

Definition build_identity_certified_key (d : Disk) (cert_path key_path : string) : result TlsConfigLoadError CertifiedKey :=
  iter ← map_err OpenCert (pem_file_iter d cert_path);
  certs ← map_err ParseCert (collect_results iter);
  if bool_decide (certs = []) then Err NoCertificates
  else
    key ← map_err ParseKey (key_from_pem_file d key_path);
    signing_key ← map_err ParseSigningKey (any_supported_type key);
    Ok (CertifiedKey_new certs signing_key).

Definition load_cert_dir (d : Disk) (cert_dir : string) : result TlsConfigLoadError (SniResolver (CertifiedKey := CertifiedKey)) :=
  match read_cert_dir d cert_dir with
  | None => Err NotADirectory
  | Some files => files ← map_err ReadDir files; map_err BadCertDir (build_sni_resolver_from_cert_dir files)
  end.

(** ** Resolvers that can be swapped *)

(** [HotResolvesServerCertUsingIdentity] and [HotResolvesServerCertUsingSni]: what the cell holds. *)
Inductive HotResolver :=
| HotIdentity (certified_key : CertifiedKey)
| HotSni (resolver : SniResolver (CertifiedKey := CertifiedKey)).

Definition hot_resolve (client_hello : option host_name) (h : HotResolver) : option CertifiedKey :=
  match h with
  | HotIdentity certified_key => Some certified_key
  | HotSni resolver => sni_resolve client_hello resolver
  end.

(** Where the content of a cell comes from. *)
Inductive CertSource :=
| SourceIdentity (identity : TlsIdentityPair)
| SourceCertDir (cert_dir : string).

Definition load_source (d : Disk) (source : CertSource) : result TlsConfigLoadError HotResolver :=
  match source with
  | SourceIdentity identity => HotIdentity <$> build_identity_certified_key d (cert_path identity) (key_path identity)
  | SourceCertDir cert_dir => HotSni <$> load_cert_dir d cert_dir
  end.

(** A callback given to the watcher: it loads the source and swaps the cell. *)
Record ReloadCallback := mkReloadCallback {
  rc_cell : nat;
  rc_source : CertSource
}.

(** The cells, in the order they were made, and the watcher. *)
Record Reloading := mkReloading {
  rl_cells : list HotResolver;
  rl_watcher : Inner (Callback := ReloadCallback)
}.

(** The callback: an error is logged and the cell keeps what it has. *)
Definition run_callback (d : Disk) (s : Reloading) (cb : ReloadCallback) : Reloading :=
  match load_source d (rc_source cb) with
  | Ok h => mkReloading (<[rc_cell cb := h]> (rl_cells s)) (rl_watcher s)
  | Err _ => s
  end.

(** [watch_file(..)?.forget()] and [watch_folder(..)?.forget()]; [watched] is
    whether the watcher of the notify crate takes the path. *)
Definition watch_and_forget (watched : WatchScope → result E unit) (scope : WatchScope) (cb : ReloadCallback) (s : Reloading)
    : Reloading * result TlsConfigLoadError unit :=
  let '(id, guard) := allocate_registration_id (rl_watcher s) in
  match register (watched scope) (mkCallbackRegistration id scope cb) guard with
  | (Ok _, guard) =>
      let handle := mkFileWatchHandle id true in
      (mkReloading (rl_cells s) (FileWatchHandle_drop (FileWatchHandle_forget handle) guard), Ok tt)
  | (Err e, guard) => (mkReloading (rl_cells s) guard, Err (Notify e))
  end.

Record ServerConfig := mkServerConfig {
  sc_cert_resolver : nat;
  sc_alpn_protocols : list string
}.

Definition load_server_config_from_tls_config (watched : WatchScope → result E unit) (d : Disk) (tls_config : GrpcTlsConfig)
    (s : Reloading) : Reloading * result TlsConfigLoadError ServerConfig :=
  match tls_config with
  | IdentityPair identity watch_file =>
      match build_identity_certified_key d (cert_path identity) (key_path identity) with
      | Err e => (s, Err e)
      | Ok certified_key =>
          let hot_resolver := length (rl_cells s) in
          let s := mkReloading (rl_cells s ++ [HotIdentity certified_key]) (rl_watcher s) in
          let server_config := mkServerConfig hot_resolver ["h2"%string] in
          if watch_file then
            let reload := mkReloadCallback hot_resolver (SourceIdentity identity) in
            match watch_and_forget watched (Scope_file (path_of (cert_path identity))) reload s with
            | (s, Err e) => (s, Err e)
            | (s, Ok _) =>
                match watch_and_forget watched (Scope_file (path_of (key_path identity))) reload s with
                | (s, Err e) => (s, Err e)
                | (s, Ok _) => (s, Ok server_config)
                end
            end
          else (s, Ok server_config)
      end
  | CertDir cert_dir watch_file =>
      match load_cert_dir d cert_dir with
      | Err e => (s, Err e)
      | Ok resolver =>
          let hot_resolver := length (rl_cells s) in
          let s := mkReloading (rl_cells s ++ [HotSni resolver]) (rl_watcher s) in
          let server_config := mkServerConfig hot_resolver ["h2"%string] in
          if watch_file then
            match watch_and_forget watched (Scope_folder (path_of cert_dir) true)
                    (mkReloadCallback hot_resolver (SourceCertDir cert_dir)) s with
            | (s, Err e) => (s, Err e)
            | (s, Ok _) => (s, Ok server_config)
            end
          else (s, Ok server_config)
      end
  end.

(** The certificate a connection of a listener is given. *)
Definition config_resolve (s : Reloading) (config : ServerConfig) (client_hello : option host_name) : option CertifiedKey :=
  rl_cells s !! sc_cert_resolver config ≫= hot_resolve client_hello.

(** ** Everything that happens to the certificates *)

Definition tls_source (tls_config : GrpcTlsConfig) : CertSource :=
  match tls_config with IdentityPair identity _ => SourceIdentity identity | CertDir cert_dir _ => SourceCertDir cert_dir end.

Definition tls_watched (tls_config : GrpcTlsConfig) : bool :=
  match tls_config with IdentityPair _ watch_file | CertDir _ watch_file => watch_file end.

(** The state, the disk, the callbacks of events under way, the disks so far,
    and the listeners configured. *)
Record reload_system := mkReloadSystem {
  rs_state : Reloading;
  rs_disk : Disk;
  rs_pending : list ReloadCallback;
  rs_past : list Disk;
  rs_listeners : list (GrpcTlsConfig * ServerConfig)
}.

Inductive reload_step : reload_system → reload_system → Prop :=
| reload_listener s watched tls_config st config :
    load_server_config_from_tls_config watched (rs_disk s) tls_config (rs_state s) = (st, Ok config) →
    reload_step s (mkReloadSystem st (rs_disk s) (rs_pending s) (rs_past s) (rs_listeners s ++ [(tls_config, config)]))
| reload_listener_failed s watched tls_config st e :
    load_server_config_from_tls_config watched (rs_disk s) tls_config (rs_state s) = (st, Err e) →
    reload_step s (mkReloadSystem st (rs_disk s) (rs_pending s) (rs_past s) (rs_listeners s))
| reload_disk s d :
    reload_step s (mkReloadSystem (rs_state s) d (rs_pending s) (d :: rs_past s) (rs_listeners s))
| reload_event s event :
    reload_step s (mkReloadSystem (rs_state s) (rs_disk s) (rs_pending s ++ handle_event event (rl_watcher (rs_state s)))
                     (rs_past s) (rs_listeners s))
| reload_run s cb pending :
    rs_pending s = cb :: pending →
    reload_step s (mkReloadSystem (run_callback (rs_disk s) (rs_state s) cb) (rs_disk s) pending (rs_past s) (rs_listeners s)).

Definition reload_new (d : Disk) : reload_system := mkReloadSystem (mkReloading [] Inner_new) d [] [d] [].

(** The callbacks under way, run while the disk does not change. *)
Definition drain (s : reload_system) : Reloading := foldl (run_callback (rs_disk s)) (rs_state s) (rs_pending s).

(** An event that concerns the files of a source. *)
Definition touches (event : Event) (source : CertSource) : Prop :=
  is_event_relevant event = true ∧
  match source with
  | SourceIdentity identity => path_of (cert_path identity) ∈ ev_paths event ∨ path_of (key_path identity) ∈ ev_paths event
  | SourceCertDir cert_dir => Exists (λ p, path_starts_with p (path_of cert_dir) = true) (ev_paths event)
  end.

(** ** What is registered *)

Definition registered_callbacks (s : Reloading) : list ReloadCallback := reg_callback <$> in_registrations (rl_watcher s).

(** The callback is registered for a scope. *)
Definition watches (s : Reloading) (scope : WatchScope) (cb : ReloadCallback) : Prop :=
  ∃ r, r ∈ in_registrations (rl_watcher s) ∧ reg_scope r = scope ∧ reg_callback r = cb.

(** The scopes a configuration asks to be watched. *)
Definition source_scopes (source : CertSource) : list WatchScope :=
  match source with
  | SourceIdentity identity => [Scope_file (path_of (cert_path identity)); Scope_file (path_of (key_path identity))]
  | SourceCertDir cert_dir => [Scope_folder (path_of cert_dir) true]
  end.

Lemma watch_and_forget_spec watched scope cb s s' r : watch_and_forget watched scope cb s = (s', r) →
  rl_cells s' = rl_cells s ∧ ∃ regs, in_registrations (rl_watcher s') = in_registrations (rl_watcher s) ++ regs ∧
    Forall (λ r, reg_callback r = cb) regs ∧ (r = Ok tt → Exists (λ r, reg_scope r = scope) regs).
Proof.
  unfold watch_and_forget, allocate_registration_id, register. destruct (watched scope) as [[]|e]; intros [= <- <-]; cbn.
  - split; [done|]. eexists [_]. split; [done|]. split; [by constructor|]. intros _. by constructor.
  - split; [done|]. exists []. split; [by rewrite app_nil_r|]. by split.
Qed.

(** What loading a configuration adds: at most a cell, and callbacks of that cell. *)
Record load_added (d : Disk) (tls_config : GrpcTlsConfig) (s s' : Reloading) (r : result TlsConfigLoadError ServerConfig) : Prop := {
  la_cells : rl_cells s' = rl_cells s ∨
    ∃ h, rl_cells s' = rl_cells s ++ [h] ∧ load_source d (tls_source tls_config) = Ok h;
  la_registered : ∃ regs, in_registrations (rl_watcher s') = in_registrations (rl_watcher s) ++ regs ∧
    Forall (λ r, reg_callback r = mkReloadCallback (length (rl_cells s)) (tls_source tls_config)) regs ∧
    (regs ≠ [] → length (rl_cells s') = S (length (rl_cells s))) ∧
    ∀ config, r = Ok config → length (rl_cells s') = S (length (rl_cells s)) ∧
      config = mkServerConfig (length (rl_cells s)) ["h2"%string] ∧
      (tls_watched tls_config = true → Forall (λ scope, Exists (λ r, reg_scope r = scope) regs) (source_scopes (tls_source tls_config)))
}.

Lemma load_config_added watched d tls_config s s' r :
  load_server_config_from_tls_config watched d tls_config s = (s', r) → load_added d tls_config s s' r.
Proof.
  destruct tls_config as [identity watch_file|cert_dir watch_file]; cbn [load_server_config_from_tls_config].
  - destruct (build_identity_certified_key d _ _) as [key|e] eqn:El.
    2: { intros [= <- <-]. split; [by left|]. exists []. rewrite app_nil_r. naive_solver. }
    assert (load_source d (SourceIdentity identity) = Ok (HotIdentity key)) as Hl by (cbn; by rewrite El).
    set (s0 := mkReloading _ _). destruct watch_file.
    2: { intros [= <- <-]. split; [right; by eexists|]. exists []. rewrite app_nil_r. split; [done|]. split; [done|]. split; [done|].
         intros config [= <-]. cbn. rewrite length_app. cbn. split; [lia|done]. }
    destruct (watch_and_forget watched _ _ s0) as [s1 [[]|e1]] eqn:E1;
      destruct (watch_and_forget_spec _ _ _ _ _ _ E1) as (Hc1 & regs1 & Hr1 & Hf1 & Hs1).
    2: { intros [= <- <-]. split; [right; by exists (HotIdentity key)|]. exists regs1. split; [done|]. split; [done|]. split; [|done].
         intros _. rewrite Hc1. cbn. rewrite length_app. cbn. lia. }
    destruct (watch_and_forget watched _ _ s1) as [s2 r2] eqn:E2;
      destruct (watch_and_forget_spec _ _ _ _ _ _ E2) as (Hc2 & regs2 & Hr2 & Hf2 & Hs2).
    intros Hr. assert (s' = s2 ∧ (∀ config, r = Ok config → r2 = Ok tt ∧ config = mkServerConfig (length (rl_cells s)) ["h2"%string])) as [-> Hok].
    { destruct r2 as [[]|]; injection Hr as <- <-; split; try done. by intros config [= <-]. }
    split; [right; exists (HotIdentity key); by rewrite Hc2, Hc1|]. exists (regs1 ++ regs2).
    split; [by rewrite Hr2, Hr1, <- app_assoc|]. split; [by apply Forall_app|].
    assert (length (rl_cells s2) = S (length (rl_cells s))) as Hlen by (rewrite Hc2, Hc1; cbn; rewrite length_app; cbn; lia).
    split; [done|]. intros config Hrc. destruct (Hok _ Hrc) as [-> ->]. split; [done|]. split; [done|]. intros _.
    constructor; [apply Exists_app; left; by apply Hs1|]. constructor; [apply Exists_app; right; by apply Hs2|constructor].
  - destruct (load_cert_dir d cert_dir) as [resolver|e] eqn:El.
    2: { intros [= <- <-]. split; [by left|]. exists []. rewrite app_nil_r. naive_solver. }
    assert (load_source d (SourceCertDir cert_dir) = Ok (HotSni resolver)) as Hl by (cbn; by rewrite El).
    set (s0 := mkReloading _ _). destruct watch_file.
    2: { intros [= <- <-]. split; [right; by eexists|]. exists []. rewrite app_nil_r. split; [done|]. split; [done|]. split; [done|].
         intros config [= <-]. cbn. rewrite length_app. cbn. split; [lia|done]. }
    destruct (watch_and_forget watched _ _ s0) as [s1 r1] eqn:E1;
      destruct (watch_and_forget_spec _ _ _ _ _ _ E1) as (Hc1 & regs1 & Hr1 & Hf1 & Hs1).
    intros Hr. assert (s' = s1 ∧ (∀ config, r = Ok config → r1 = Ok tt ∧ config = mkServerConfig (length (rl_cells s)) ["h2"%string])) as [-> Hok].
    { destruct r1 as [[]|]; injection Hr as <- <-; split; try done. by intros config [= <-]. }
    split; [right; exists (HotSni resolver); by rewrite Hc1|]. exists regs1. split; [done|]. split; [done|].
    assert (length (rl_cells s1) = S (length (rl_cells s))) as Hlen by (rewrite Hc1; cbn; rewrite length_app; cbn; lia).
    split; [done|]. intros config Hrc. destruct (Hok _ Hrc) as [-> ->]. split; [done|]. split; [done|]. intros _.
    constructor; [by apply Hs1|constructor].
Qed.

(** ** What holds of every state *)

(** Cells hold what was read of their source, callbacks write the cell of their
    source, and a listener is answered by the cell of its files, watched if it asks. *)
Record reload_inv (sources : list CertSource) (s : reload_system) : Prop := {
  ri_cells : Forall2 (λ h source, ∃ d, d ∈ rs_past s ∧ load_source d source = Ok h) (rl_cells (rs_state s)) sources;
  ri_callbacks : Forall (λ cb, sources !! rc_cell cb = Some (rc_source cb)) (registered_callbacks (rs_state s) ++ rs_pending s);
  ri_disk : rs_disk s ∈ rs_past s;
  ri_listeners : Forall (λ '(tls_config, config),
    sources !! sc_cert_resolver config = Some (tls_source tls_config) ∧ sc_alpn_protocols config = ["h2"%string] ∧
    (tls_watched tls_config = true → Forall (λ scope, watches (rs_state s) scope
       (mkReloadCallback (sc_cert_resolver config) (tls_source tls_config))) (source_scopes (tls_source tls_config))))
    (rs_listeners s)
}.

Lemma watches_app st st' regs scope cb : in_registrations (rl_watcher st') = in_registrations (rl_watcher st) ++ regs →
  watches st scope cb → watches st' scope cb.
Proof. intros Hr (r & Hin & Hs). exists r. rewrite Hr. split; [by apply elem_of_app; left|done]. Qed.

Lemma reload_inv_load sources s watched tls_config st r :
  reload_inv sources s → load_server_config_from_tls_config watched (rs_disk s) tls_config (rs_state s) = (st, r) →
  ∃ sources', reload_inv sources' (mkReloadSystem st (rs_disk s) (rs_pending s) (rs_past s)
    (rs_listeners s ++ match r with Ok config => [(tls_config, config)] | Err _ => [] end)).
Proof.
  intros [Hc Hcb Hd Hl] Hload. destruct (load_config_added _ _ _ _ _ _ Hload) as [Hcells (regs & Hregs & Hf & Hnew & Hok)].
  pose proof (Forall2_length _ _ _ Hc) as Hlen.
  set (source := tls_source tls_config) in *.
  assert (∃ sources', sources `prefix_of` sources' ∧
    Forall2 (λ h source, ∃ d, d ∈ rs_past s ∧ load_source d source = Ok h) (rl_cells st) sources' ∧
    (length (rl_cells st) = S (length (rl_cells (rs_state s))) → sources' !! length (rl_cells (rs_state s)) = Some source))
    as (sources' & Hpre & Hc' & Hsrc).
  { destruct Hcells as [->|(h & -> & Hh)]; [exists sources; split; [done|]; split; [done|lia]|].
    exists (sources ++ [source]). split; [by apply prefix_app_r|]. rewrite Hlen. split; [|intros _; by apply list_lookup_middle].
    apply Forall2_app; [done|]. constructor; [by eexists|constructor]. }
  exists sources'. split; cbn.
  - done.
  - unfold registered_callbacks in *. rewrite Hregs, fmap_app. apply Forall_app in Hcb as [H1 H2].
    assert (∀ l, Forall (λ cb, sources !! rc_cell cb = Some (rc_source cb)) l → Forall (λ cb, sources' !! rc_cell cb = Some (rc_source cb)) l) as Hmono.
    { intros l Hl0. apply (Forall_impl _ _ _ Hl0). intros cb Hlk. by apply (prefix_lookup_Some _ _ _ _ Hlk). }
    rewrite !Forall_app. split; [split; [by apply Hmono|]|by apply Hmono].
    apply Forall_fmap. destruct regs as [|r0 regs]; [done|]. apply (Forall_impl _ _ _ Hf). intros r1. cbn. intros ->. cbn. by apply Hsrc, Hnew.
  - done.
  - apply Forall_app. split.
    + apply (Forall_impl _ _ _ Hl). intros [tls config] (H1 & H2 & H3). split; [by apply (prefix_lookup_Some _ _ _ _ H1)|]. split; [done|].
      intros Hw. apply (Forall_impl _ _ _ (H3 Hw)). intros scope. by apply (watches_app _ _ regs).
    + destruct r as [config|]; [|done]. destruct (Hok _ eq_refl) as (Hlen' & -> & Hw). constructor; [|constructor]. cbn.
      split; [by apply Hsrc|]. split; [done|]. intros Hwd. apply (Forall_impl _ _ _ (Hw Hwd)). intros scope Hex.
      apply Exists_exists in Hex as (r1 & Hin & Hscope). exists r1. rewrite Hregs.
      split; [by apply elem_of_app; right|]. split; [done|]. rewrite Forall_forall in Hf. by apply Hf.
Qed.

Lemma run_callback_watcher d st cb : rl_watcher (run_callback d st cb) = rl_watcher st.
Proof. unfold run_callback. by destruct (load_source d (rc_source cb)). Qed.

Lemma reload_inv_run sources s cb pending : reload_inv sources s → rs_pending s = cb :: pending →
  reload_inv sources (mkReloadSystem (run_callback (rs_disk s) (rs_state s) cb) (rs_disk s) pending (rs_past s) (rs_listeners s)).
Proof.
  intros [Hc Hcb Hd Hl] Hp. rewrite Hp in Hcb. unfold registered_callbacks, watches in *.
  apply Forall_app in Hcb as [Hreg Hpend]. apply Forall_cons in Hpend as [Hcell Hpend].
  split; cbn; try done.
  - unfold run_callback. destruct (load_source _ _) as [h|] eqn:Hh; [|done]. cbn.
    rewrite <- (list_insert_id _ _ _ Hcell). apply Forall2_insert; [done|]. by eexists.
  - unfold registered_callbacks. rewrite run_callback_watcher. by apply Forall_app.
  - unfold watches. by rewrite run_callback_watcher.
Qed.

Lemma handle_event_registered event_result st cb :
  cb ∈ handle_event event_result (rl_watcher st) → cb ∈ registered_callbacks st.
Proof.
  unfold handle_event, registered_callbacks. destruct event_result as [event|]; [|by intros ?%not_elem_of_nil].
  destruct (negb _); [by intros ?%not_elem_of_nil|]. intros (r & -> & Hr)%list_elem_of_fmap.
  apply list_elem_of_filter in Hr as [_ Hr]. by apply list_elem_of_fmap_2.
Qed.

Lemma reload_inv_step sources s s' : reload_inv sources s → reload_step s s' → ∃ sources', reload_inv sources' s'.
Proof.
  intros Hinv Hstep. destruct Hstep as [s watched tls st config Hl|s watched tls st e Hl|s d|s event|s cb pending Hp].
  - exact (reload_inv_load _ _ _ _ _ _ Hinv Hl).
  - destruct (reload_inv_load _ _ _ _ _ _ Hinv Hl) as [sources' H]. exists sources'. by rewrite app_nil_r in H.
  - exists sources. destruct Hinv as [Hc Hcb Hd Hls]. split; cbn; try done; [|by left].
    apply (Forall2_impl _ _ _ _ Hc). intros h source (d0 & Hin & Hh). exists d0. split; [by right|done].
  - exists sources. destruct Hinv as [Hc Hcb Hd Hls]. split; cbn; try done.
    rewrite app_assoc, Forall_app. split; [done|]. apply Forall_app in Hcb as [Hreg _]. rewrite Forall_forall in Hreg |- *.
    intros cb Hcb. by apply Hreg, (handle_event_registered event).
  - exists sources. by apply reload_inv_run.
Qed.

Lemma reload_inv_reachable d s : rtc reload_step (reload_new d) s → ∃ sources, reload_inv sources s.
Proof.
  intros H. assert (∃ sources, reload_inv sources (reload_new d)) as Hinit.
  { exists []. split; cbn; [constructor|constructor|by left|constructor]. }
  revert Hinit. induction H as [|x y z Hstep _ IH]; [done|]. intros [sources Hx]. exact (IH (reload_inv_step _ _ _ Hx Hstep)).
Qed.

(** ** Draining the callbacks *)

(** Run over callbacks of which those of a cell read one source: the cell is
    what the disk has if one of them is there and the source can be read. *)
Lemma drain_cell d cell source pending st :
  Forall (λ cb, rc_cell cb = cell → rc_source cb = source) pending → cell < length (rl_cells st) →
  rl_cells (foldl (run_callback d) st pending) !! cell =
    match load_source d source with
    | Ok h => if decide (Exists (λ cb, rc_cell cb = cell) pending) then Some h else rl_cells st !! cell
    | Err _ => rl_cells st !! cell
    end.
Proof.
  intros Hf. revert st. induction Hf as [|cb pending Hcb Hf IH]; intros st Hlt; cbn [foldl].
  { destruct (load_source d source); [|done]. rewrite decide_False; [done|by intros ?%Exists_nil]. }
  assert (length (rl_cells (run_callback d st cb)) = length (rl_cells st)) as Hlen.
  { unfold run_callback. destruct (load_source d (rc_source cb)); [apply length_insert|done]. }
  rewrite IH by lia.
  assert (rl_cells (run_callback d st cb) !! cell = if decide (rc_cell cb = cell) then
    match load_source d source with Ok h => Some h | Err _ => rl_cells st !! cell end else rl_cells st !! cell) as ->.
  { unfold run_callback. destruct (decide (rc_cell cb = cell)) as [He|He].
    - rewrite (Hcb He), He. destruct (load_source d source); [|done]. by apply list_lookup_insert_eq.
    - destruct (load_source d (rc_source cb)); [|done]. by apply list_lookup_insert_ne. }
  destruct (load_source d source) as [h|]; [|by destruct (decide (rc_cell cb = cell))].
  repeat case_decide; rewrite ?Exists_cons in *; naive_solver.
Qed.

Lemma touched_called st source cell event : (∀ scope, scope ∈ source_scopes source → watches st scope (mkReloadCallback cell source)) →
  touches event source → mkReloadCallback cell source ∈ handle_event (Ok event) (rl_watcher st).
Proof.
  intros Hw [Hrel Ht]. unfold handle_event. rewrite Hrel. cbn.
  assert (∃ scope, scope ∈ source_scopes source ∧ existsb (matches_event_path scope) (ev_paths event) = true) as (scope & Hin & Hm).
  { setoid_rewrite existsb_exists. setoid_rewrite <- list_elem_of_In. destruct source as [identity|cert_dir]; cbn in *.
    - destruct Ht as [Ht|Ht]; [exists (Scope_file (path_of (cert_path identity)))|exists (Scope_file (path_of (key_path identity)))];
        (split; [set_solver|]; eexists; split; [exact Ht|cbn; by apply bool_decide_eq_true]).
    - apply Exists_exists in Ht as (p & Hp & Hs). exists (Scope_folder (path_of cert_dir) true). split; [by left|]. by exists p. }
  destruct (Hw scope Hin) as (r & Hr & Hscope & <-). apply list_elem_of_fmap_2, list_elem_of_filter. split; [|done].
  unfold matches_event. by rewrite Hscope.
Qed.

(** C14. However listeners are configured, files change, events arrive and
    callbacks run: a TLS listener always presents certificates that were read,
    without an error, from its own configured files as they were at some time;
    and if it watches them, then once an event on them arrives and the pending
    callbacks have run with the disk unchanged, it presents exactly what the
    files now hold, or, if they cannot be read, what it presented before. *)
Theorem certificates_reloaded (d : Disk) (s : reload_system) (tls_config : GrpcTlsConfig) (config : ServerConfig) :
  rtc reload_step (reload_new d) s → (tls_config, config) ∈ rs_listeners s →
  sc_alpn_protocols config = ["h2"%string] ∧
  (∃ past h, past ∈ rs_past s ∧ load_source past (tls_source tls_config) = Ok h ∧
     ∀ client_hello, config_resolve (rs_state s) config client_hello = hot_resolve client_hello h) ∧
  ∀ event client_hello, tls_watched tls_config = true → touches event (tls_source tls_config) →
    config_resolve (drain (mkReloadSystem (rs_state s) (rs_disk s)
      (rs_pending s ++ handle_event (Ok event) (rl_watcher (rs_state s))) (rs_past s) (rs_listeners s))) config client_hello =
    match load_source (rs_disk s) (tls_source tls_config) with
    | Ok h => hot_resolve client_hello h
    | Err _ => config_resolve (rs_state s) config client_hello
    end.
Proof.
  intros Hr Hin. destruct (reload_inv_reachable _ _ Hr) as [sources [Hc Hcb Hd Hl]].
  rewrite Forall_forall in Hl. destruct (Hl _ Hin) as (Hsrc & Halpn & Hw). split; [done|].
  destruct (Forall2_lookup_r _ _ _ _ _ Hc Hsrc) as (h & Hh & past & Hpast & Hload).
  unfold config_resolve. split.
  { exists past, h. split; [done|]. split; [done|]. intros client_hello. by rewrite Hh. }
  intros event client_hello Hwd Ht. specialize (Hw Hwd). rewrite Forall_forall in Hw.
  pose proof (touched_called _ _ _ _ Hw Ht) as Hcalled. unfold drain. cbn [rs_state rs_disk rs_pending].
  rewrite (drain_cell _ _ (tls_source tls_config)); [|..|by eapply lookup_lt_Some].
  - destruct (load_source (rs_disk s) _); [|done]. rewrite decide_True; [done|]. apply Exists_exists.
    eexists. split; [apply elem_of_app; right; exact Hcalled|done].
  - rewrite Forall_forall in Hcb |- *. intros cb Hin' Hcell. apply elem_of_app in Hin' as [Hp|Hp%handle_event_registered].
    all: assert (sources !! rc_cell cb = Some (rc_source cb)) as Hs by (apply Hcb, elem_of_app; tauto).
    all: rewrite Hcell, Hsrc in Hs; by injection Hs.
Qed.
End reload.

(** ** A listener whose certificate is renewed *)

(** A disk with one certificate and one key, under whatever name; a certified
    key is the certificate and the key, and an empty certificate is refused. *)
#[global] Instance DemoCertFiles : CertFiles (string * string) (string * string) string := {|
  pem_file_iter d _ := if bool_decide (d.1 = ""%string) then Err "not PEM"%string else Ok [Ok d.1];
  key_from_pem_file d _ := Ok d.2;
  any_supported_type key := Ok key;
  CertifiedKey_new certs key := (default ""%string (head certs), key);
  read_cert_dir _ _ := None
|}.

Definition demo_path (p : string) : Path := mkPath true [p].

Definition demo_tls : GrpcTlsConfig := IdentityPair (mkTlsIdentityPair "cert.pem" "key.pem") true.

Definition demo_listening : Reloading * result TlsConfigLoadError ServerConfig :=
  load_server_config_from_tls_config demo_path (λ _, Ok tt) ("old", "key")%string demo_tls (mkReloading [] Inner_new).

Definition demo_server_config : ServerConfig := mkServerConfig 0 ["h2"%string].

Definition demo_event : Event := mkEvent Event_modify [demo_path "cert.pem"].

(** The listener is made, then the files are [files]. *)
Definition demo_reload_system (files : string * string) : reload_system (Disk := string * string) :=
  mkReloadSystem demo_listening.1 files [] [files; ("old", "key")%string] [(demo_tls, demo_server_config)].

Lemma demo_reload_reachable files : rtc (reload_step demo_path) (reload_new ("old", "key")%string) (demo_reload_system files).
Proof.
  eapply rtc_l; [apply (reload_listener demo_path (reload_new ("old", "key")%string) (λ _, Ok tt) demo_tls demo_listening.1 demo_server_config); reflexivity|].
  eapply rtc_l; [apply (reload_disk demo_path _ files)|]. constructor.
Qed.

Definition demo_presented (files : string * string) : option (string * string) :=
  config_resolve (drain (mkReloadSystem demo_listening.1 files (handle_event (Ok demo_event) (rl_watcher demo_listening.1)) [] []))
    demo_server_config None.

Lemma certificates_reloaded_witness :
  demo_presented ("new", "key")%string = Some ("new", "key")%string ∧ demo_presented (""%string, "key"%string) = Some ("old", "key")%string.
Proof.
  assert (touches demo_path demo_event (tls_source demo_tls)) as Ht by (split; [reflexivity|left; apply list_elem_of_singleton; reflexivity]).
  split.
  - refine (proj2 (proj2 (certificates_reloaded demo_path ("old", "key")%string (demo_reload_system ("new", "key")%string) demo_tls
      demo_server_config _ _)) demo_event None eq_refl Ht); [apply demo_reload_reachable|apply list_elem_of_singleton; reflexivity].
  - refine (proj2 (proj2 (certificates_reloaded demo_path ("old", "key")%string (demo_reload_system (""%string, "key"%string)) demo_tls
      demo_server_config _ _)) demo_event None eq_refl Ht); [apply demo_reload_reachable|apply list_elem_of_singleton; reflexivity].
Defined.
