(* ===== verification/ServerConfig.v ===== *)
(** * yellowstone-grpc-geyser: the settings of config.rs

    The records the server is configured with, and the defaults of the fields a
    configuration file may leave out. Reading the file is serde's; the fields
    that have code of their own are in Config.v. Durations are nanoseconds; URLs
    and paths are text. *)

From S2P Require Import Prelude Limits Config Auth Billing TlsReload.

Set Default Goal Selector "!".

Local Open Scope Z_scope.

(** ** Authentication, rate limits, billing *)

Record RatelimitConfig := mkRatelimitConfig {
  rl_default_max_hits : Z;
  rl_window : Z
}.

Definition RatelimitConfig_default_max_hits : Z := 1000.
Definition RatelimitConfig_default_window : Z := 10 * 10 ^ 9.

Definition RatelimitConfig_default : RatelimitConfig :=
  mkRatelimitConfig RatelimitConfig_default_max_hits RatelimitConfig_default_window.

Record HttpBackedAuthConfig := mkHttpBackedAuthConfig {
  ha_subscription_resolver_url : string;
  ha_subscription_resolution_cache_ttl : option Z;
  ha_max_concurrent_auth_requests : Z;
  ha_forwarded_headers : list string;
  ha_ratelimit : option RatelimitConfig
}.

Definition DEFAULT_TRITON_AUTH_MAX_CONCURRENT_REQUESTS : Z := 1000.

Definition default_max_concurrent_auth_requests : Z := DEFAULT_TRITON_AUTH_MAX_CONCURRENT_REQUESTS.
Definition default_forwarded_headers : list string := ["x-token"%string].

Record FileBackedAuthConfig := mkFileBackedAuthConfig {
  fa_subscription_resolver_path : string;
  fa_ratelimit : option RatelimitConfig
}.

Inductive AuthKind :=
| AuthKind_Http (config : HttpBackedAuthConfig)
| AuthKind_File (config : FileBackedAuthConfig)
| AuthKind_TrustedMetadata.

Record HttpBackedBillingConfig := mkHttpBackedBillingConfig {
  hb_billing_endpoint_url : string;
  hb_report_interval : Z
}.

Inductive BillingConfig := BillingConfig_Http (config : HttpBackedBillingConfig).

Definition default_report_interval : Z := REPORT_INTERVAL.

Record AuthConfig := mkAuthConfig {
  au_kind : AuthKind;
  au_ratelimit : option RatelimitConfig;
  au_billing : option BillingConfig
}.

Definition AuthConfig_default_ratelimit : option RatelimitConfig := Some RatelimitConfig_default.

(** ** The gRPC server *)

Record ConfigGrpcCompression := mkConfigGrpcCompression {
  cc_accept : list CompressionEncoding;
  cc_send : list CompressionEncoding
}.

Definition ConfigGrpcCompression_default : ConfigGrpcCompression :=
  mkConfigGrpcCompression default_compression default_compression.

Section config.
Context {SocketAddr : Type}.

Record ListenConfig := mkListenConfig {
  lc_address : GrpcAddress (SocketAddr := SocketAddr);
  lc_tls : option GrpcTlsConfig;
  lc_auth : option AuthConfig
}.

Record ConfigGrpc := mkConfigGrpc {
  cg_address : option (list (GrpcAddress (SocketAddr := SocketAddr)));
  cg_tls_config : option TlsIdentityPair;
  cg_compression : ConfigGrpcCompression;
  cg_max_decoding_message_size : Z;
  cg_snapshot_plugin_channel_capacity : option Z;
  cg_snapshot_client_channel_capacity : Z;
  cg_channel_capacity : Z;
  cg_processed_broadcast_capacity : option Z;
  cg_confirmed_broadcast_capacity : option Z;
  cg_finalized_broadcast_capacity : option Z;
  cg_contact_info_channel_capacity : Z;
  cg_unary_concurrency_limit : Z;
  cg_subscription_limit : Z;
  cg_subscription_limit_enforce : bool;
  cg_unary_disabled : bool;
  cg_filter_limits : FilterLimits;
  cg_x_token : option string;
  cg_filter_name_size_limit : Z;
  cg_filter_names_size_limit : Z;
  cg_filter_names_cleanup_interval : Z;
  cg_replay_stored_slots : Z;
  cg_server_http2_adaptive_window : option bool;
  cg_server_http2_keepalive_interval : option Z;
  cg_server_http2_keepalive_timeout : option Z;
  cg_server_initial_connection_window_size : option Z;
  cg_server_initial_stream_window_size : option Z;
  cg_traffic_reporting_byte_threhsold : option Z;
  cg_cert_dir : option string;
  cg_ip_conncur_rate_limit : Z;
  cg_listen : option (list ListenConfig)
}.

Definition default_max_ip_conncur : Z := u64_max.
Definition max_decoding_message_size_default : Z := 4 * 1024 * 1024.
Definition snapshot_plugin_channel_capacity_default : option Z := None.
Definition snapshot_client_channel_capacity_default : Z := 50000000.
Definition channel_capacity_default : Z := 250000.

(** [tokio::sync::Semaphore::MAX_PERMITS]. *)
Definition MAX_PERMITS : Z := Z.shiftr usize_max 3.

Definition unary_concurrency_limit_default : Z := MAX_PERMITS.
Definition subscription_limit_default : Z := 1000.
Definition default_filter_name_size_limit : Z := 128.
Definition default_filter_names_size_limit : Z := 4096.
Definition default_filter_names_cleanup_interval : Z := 10 ^ 9.
Definition default_replay_stored_slots : Z := 150.
Definition default_contact_info_channel_capacity : Z := 100000.

(** A configuration that sets only where to listen: every other field is the one
    serde takes for an absent field. *)
Definition ConfigGrpc_of (address : option (list (GrpcAddress (SocketAddr := SocketAddr)))) (listen : option (list ListenConfig)) : ConfigGrpc := {|
  cg_address := address;
  cg_tls_config := None;
  cg_compression := ConfigGrpcCompression_default;
  cg_max_decoding_message_size := max_decoding_message_size_default;
  cg_snapshot_plugin_channel_capacity := snapshot_plugin_channel_capacity_default;
  cg_snapshot_client_channel_capacity := snapshot_client_channel_capacity_default;
  cg_channel_capacity := channel_capacity_default;
  cg_processed_broadcast_capacity := None;
  cg_confirmed_broadcast_capacity := None;
  cg_finalized_broadcast_capacity := None;
  cg_contact_info_channel_capacity := default_contact_info_channel_capacity;
  cg_unary_concurrency_limit := unary_concurrency_limit_default;
  cg_subscription_limit := subscription_limit_default;
  cg_subscription_limit_enforce := false;
  cg_unary_disabled := false;
  cg_filter_limits := FilterLimits_default;
  cg_x_token := None;
  cg_filter_name_size_limit := default_filter_name_size_limit;
  cg_filter_names_size_limit := default_filter_names_size_limit;
  cg_filter_names_cleanup_interval := default_filter_names_cleanup_interval;
  cg_replay_stored_slots := default_replay_stored_slots;
  cg_server_http2_adaptive_window := None;
  cg_server_http2_keepalive_interval := None;
  cg_server_http2_keepalive_timeout := None;
  cg_server_initial_connection_window_size := None;
  cg_server_initial_stream_window_size := None;
  cg_traffic_reporting_byte_threhsold := None;
  cg_cert_dir := None;
  cg_ip_conncur_rate_limit := default_max_ip_conncur;
  cg_listen := listen
|}.
End config.
Arguments ListenConfig SocketAddr : clear implicits.
Arguments ConfigGrpc SocketAddr : clear implicits.

(** ** The plugin *)

Record ConfigLog := mkConfigLog { log_level : string }.

Definition ConfigLog_default_level : string := "info".

Definition ConfigLog_default : ConfigLog := mkConfigLog ConfigLog_default_level.

Record ConfigTokio := mkConfigTokio {
  ct_worker_threads : option Z;
  ct_affinity : option (list Z)
}.

Definition ConfigTokio_default : ConfigTokio := mkConfigTokio None None.

Definition deserialize_affinity (get_thread_affinity : result string (list Z)) (raw : result string (option string)) :
    result (string + TasksetError) (option (list Z)) :=
  match raw with
  | Ok (Some taskset) =>
      match parse_taskset get_thread_affinity taskset with Ok cpus => Ok (Some cpus) | Err e => Err (inr e) end
  | Ok None => Ok None
  | Err e => Err (inl e)
  end.

Record ConfigPrometheus (SocketAddr : Type) := mkConfigPrometheus { cp_address : SocketAddr }.
Arguments mkConfigPrometheus {SocketAddr} cp_address.
Arguments cp_address {SocketAddr} _.

Record PluginConfig (SocketAddr : Type) := mkPluginConfig {
  cf_libpath : string;
  cf_log : ConfigLog;
  cf_tokio : ConfigTokio;
  cf_grpc : ConfigGrpc SocketAddr;
  cf_prometheus : option (ConfigPrometheus SocketAddr);
  cf_debug_clients_http : bool
}.
Arguments mkPluginConfig {SocketAddr} _ _ _ _ _ _.
Arguments cf_log {SocketAddr} _.
Arguments cf_tokio {SocketAddr} _.
Arguments cf_grpc {SocketAddr} _.
Arguments cf_prometheus {SocketAddr} _.
