(* ===== verification/ServerCreate.v ===== *)
(** * grpc.rs: [GrpcService::create] and [build_service]

    The set-up of the server from its configuration: the listeners, the
    channels, the tasks. The operating system (sockets, files) is a class over a
    state [M]; the set-up is a computation that may fail or panic and that
    threads what it changes ([World]). What a listener's layers do with a request
    is in Layers.v, what its certificates do later in TlsReload.v, and the
    service that is made here is the one Sessions.v starts from. *)

From S2P Require Import Prelude Storage Message Config Tcp Auth AuthService Window Ratelimit Metered Layers Channels ContactInfo Limits ClientLoop.
From S2P Require Import BlockReconstruction BlockReconstructionSpec ReconstructionLoop BlockMeta Service Tokens Sessions Tls FileWatcher TlsReload ServerConfig.

Set Default Goal Selector "!".

Local Open Scope Z_scope.

(** ** The operating system and third-party code *)

Class UnixSockets (M E : Type) := {
  UnixListener : Type;
  is_not_found : E → bool;
  remove_file : string → M → result E unit * M;
  unix_bind : string → M → result E UnixListener * M;
  set_permissions : string → Z → M → result E unit * M
}.

(** Files read whole, and rustls on what the legacy fields name. *)
Class HostFiles (M E Certificate PrivateKey : Type) := {
  read_file : M → string → result E bytes;
  read_mappings : M → string → result E (list TokenSubscriptionInfoMapping);
  cert_from_pem_slice : bytes → result E Certificate;
  key_from_pem_slice : bytes → result E PrivateKey;
  with_single_cert : list Certificate → PrivateKey → result E unit
}.

(** ** What is set up *)

(** The repository of an [AuthLayer], and how many authentications it lets run at once. *)
Inductive AuthLayerChoice :=
| Choice_Http (repository : HttpSubscriptionRepository) (max_concurrent : Z)
| Choice_File (repository : ConstantSubscriptionRepository) (max_concurrent : Z)
| Choice_Trusted (default_ratelimits : SubscriptionRateLimits) (max_concurrent : Z).

(** A [HttpBillingEventSink], by what it is made from. *)
Record BillingSink := mkBillingSink {
  bs_endpoint : string;
  bs_report_interval : option Z
}.

Section create.
Context {M E SocketAddr CertifiedKey : Type}.
Context {T : TcpSockets M E SocketAddr} {U : UnixSockets M E} {F : CertFiles M CertifiedKey E}.
Context {HF : HostFiles M E Certificate PrivateKey} {H : Http} {TK : CancellationTokens}.
Context {BM : BlockMachine} {BR : Broadcast (list Message)} {BC : Broadcast ContactInfoEvent} {WT : Watch}.
(** [t.parse::<AsciiMetadataValue>()]; [PathBuf::from]; whether the watcher takes a path. *)
Context (parse_metadata_value : string → result E HeaderValue) (path_of : string → Path) (watchable : M → WatchScope → result E unit).

Inductive Listener :=
| Listener_Tcp (incoming : TcpIncoming) (auth : option AuthConfig)
| Listener_Tls (incoming : TcpIncoming) (server_config : TlsReload.ServerConfig) (auth : option AuthConfig)
| Listener_Unix (path_to_remove : string) (listener : UnixListener) (auth : option AuthConfig).

Definition listener_auth (l : Listener) : option AuthConfig :=
  match l with Listener_Tcp _ auth | Listener_Tls _ _ auth | Listener_Unix _ _ auth => auth end.

(** The settings of the HTTP/2 server, and of every listener. *)
Record ServerSettings := mkServerSettings {
  se_x_token : option HeaderValue;
  se_traffic_reporting_threshold : Z;
  se_ip_conncur : Z;
  se_max_decoding_message_size : Z;
  se_accept : list CompressionEncoding;
  se_send : list CompressionEncoding;
  se_http2_adaptive_window : option bool;
  se_http2_keepalive_interval : option Z;
  se_http2_keepalive_timeout : option Z;
  se_initial_connection_window_size : option Z;
  se_initial_stream_window_size : option Z
}.

Inductive Task :=
| Task_blocks_meta (cancellation_token : token)
| Task_contact_info
| Task_block_reconstruction
| Task_geyser
| Task_server (listener : Listener) (shutdown : token) (settings : ServerSettings)
| Task_prometheus (address : SocketAddr) (cancellation_token : token).

Record World := mkWorld {
  w_host : M;
  w_reloading : Reloading (CertifiedKey := CertifiedKey);
  w_tokens : tokens;
  (** the local [listeners] *)
  w_listeners : list Listener;
  w_tasks : list Task
}.

Definition w_with_host (w : World) (m : M) : World := mkWorld m (w_reloading w) (w_tokens w) (w_listeners w) (w_tasks w).
Definition w_with_tokens (w : World) (s : tokens) : World := mkWorld (w_host w) (w_reloading w) s (w_listeners w) (w_tasks w).

Inductive CreateError :=
| Create_Io (e : E)
| Create_Pem (e : E)
| Create_Rustls (e : E)
| Create_Tls (e : TlsConfigLoadError (E := E))
| Create_x_token (e : E).

(** [anyhow::Result] of code that changes the world and may panic. *)
Definition Create (A : Type) : Type := World → outcome (result CreateError A * World).

#[global] Instance Create_ret : MRet Create := λ A a w, Done (Ok a, w).
#[global] Instance Create_bind : MBind Create := λ A B f c w,
  match c w with
  | Done (Ok a, w) => f a w
  | Done (Err e, w) => Done (Err e, w)
  | Panic => Panic
  end.

(** A call of the operating system whose error is returned. *)
Definition io {A} (call : M → result E A * M) : Create A := λ w,
  let '(r, m) := call (w_host w) in Done (map_err Create_Io r, w_with_host w m).

Definition fails {A} (r : result CreateError A) : Create A := λ w, Done (r, w).

Definition push_listener (l : Listener) : Create unit := λ w,
  Done (Ok tt, mkWorld (w_host w) (w_reloading w) (w_tokens w) (w_listeners w ++ [l]) (w_tasks w)).

Definition spawn (t : Task) : Create unit := λ w,
  Done (Ok tt, mkWorld (w_host w) (w_reloading w) (w_tokens w) (w_listeners w) (w_tasks w ++ [t])).

Definition child (t : token) : Create token := λ w,
  let '(c, s) := child_token t (w_tokens w) in Done (Ok c, w_with_tokens w s).

(** ** Listeners *)

Definition server_tcp_configuration : TcpConfiguration :=
  with_keepalive (with_nodelay TcpConfiguration_default (Some true)) (Some (20 * 10 ^ 9)).

Definition listen_tcp (addr : SocketAddr) : Create TcpIncoming :=
  incoming ← io (bind_with_config addr server_tcp_configuration);
  _ ← io (λ m, (local_addr incoming m, m));
  mret incoming.

(** [std::fs::remove_file], with a file that is not there tolerated. *)
Definition remove_stale (path : string) (m : M) : result E unit * M :=
  match remove_file path m with
  | (Err e, m) => if is_not_found e then (Ok tt, m) else (Err e, m)
  | r => r
  end.

Definition listen_unix (path : string) (mode : Z) : Create UnixListener :=
  _ ← io (remove_stale path);
  uds ← io (unix_bind path);
  _ ← io (set_permissions path mode);
  mret uds.

(** Lines 858 to 899: what is loaded of [tls_config] and of [cert_dir]; the
    [ServerConfig] made of it is dropped. *)
Definition legacy_tls_config (tls : TlsIdentityPair) : Create unit := λ w,
  match read_file (w_host w) (cert_path tls), read_file (w_host w) (key_path tls) with
  | Ok cert_pem, Ok key =>
      (cert_der ← fails (map_err Create_Pem (cert_from_pem_slice cert_pem));
       key_der ← fails (map_err Create_Pem (key_from_pem_slice key));
       fails (map_err Create_Rustls (with_single_cert [cert_der] key_der))) w
  | _, _ => Panic
  end.

Definition legacy_cert_dir (cert_dir : string) : Create unit := λ w,
  match load_cert_dir (w_host w) cert_dir with Ok _ => Done (Ok tt, w) | Err e => Done (Err (Create_Tls e), w) end.

Definition legacy_tls (config : ConfigGrpc SocketAddr) : Create unit :=
  _ ← match cg_tls_config config with Some tls => legacy_tls_config tls | None => mret tt end;
  match cg_cert_dir config with Some cert_dir => legacy_cert_dir cert_dir | None => mret tt end.

Definition listen_address (address : GrpcAddress (SocketAddr := SocketAddr)) : Create unit :=
  match address with
  | Config.Tcp addr => incoming ← listen_tcp addr; push_listener (Listener_Tcp incoming None)
  | Unix path mode => uds ← listen_unix path mode; push_listener (Listener_Unix path uds None)
  end.

Fixpoint for_each {A} (f : A → Create unit) (l : list A) : Create unit :=
  match l with
  | [] => mret tt
  | a :: l => _ ← f a; for_each f l
  end.

Definition load_tls (tls : GrpcTlsConfig) : Create TlsReload.ServerConfig := λ w,
  let '(reloading, r) := load_server_config_from_tls_config path_of (watchable (w_host w)) (w_host w) tls (w_reloading w) in
  Done (map_err Create_Tls r, mkWorld (w_host w) reloading (w_tokens w) (w_listeners w) (w_tasks w)).

Definition listen_config (listen : ListenConfig SocketAddr) : Create unit :=
  match lc_address listen with
  | Config.Tcp addr =>
      incoming ← listen_tcp addr;
      let auth := lc_auth listen in
      match lc_tls listen with
      | Some tls => server_config ← load_tls tls; push_listener (Listener_Tls incoming server_config auth)
      | None => push_listener (Listener_Tcp incoming auth)
      end
  | Unix path mode => uds ← listen_unix path mode; push_listener (Listener_Unix path uds (lc_auth listen))
  end.

Definition create_listeners (config : ConfigGrpc SocketAddr) : Create unit :=
  _ ← match cg_address config with
      | Some addresses => _ ← legacy_tls config; for_each listen_address addresses
      | None => mret tt
      end;
  match cg_listen config with Some listen_configs => for_each listen_config listen_configs | None => mret tt end.

(** ** Channels and services *)

(** [tokio::sync::broadcast::channel] panics on a capacity of zero, or too large. *)
Definition broadcast_capacity (capacity : Z) : outcome nat :=
  if (capacity =? 0) || (usize_max / 2 <? capacity) then Panic else Done (Z.to_nat capacity).

Definition panics {A} (o : outcome A) : Create A := λ w, a ← o; Done (Ok a, w).

(** What [create] returns, with the state its tasks and handlers start from: the
    sender of the snapshot channel, by its capacity; the channels; the table of
    the gossip feed; the blocks the reconstruction loop keeps; the block
    metadata, with the reads allowed at a time; the service, with the limits its
    handlers give to filters and to the table of filter names. *)
Record GrpcServiceResult := mkGrpcServiceResult {
  gr_snapshot_tx : option Z;
  gr_broadcast : SubscriberChannels;
  gr_deshred_capacity : nat;
  gr_contact_info : ContactInfoState;
  gr_block_reconstruction : ReconstructionLoop;
  gr_blocks_meta : option (BlockMetaStorageInner * Z);
  gr_service : GrpcService (Snapshot := Z);
  gr_config_filter_limits : FilterLimits;
  gr_filter_name_size_limit : Z;
  gr_filter_names_size_limit : Z;
  gr_filter_names_cleanup_interval : Z
}.

(** [BlockMetaStorage::new]: [Semaphore::new] panics above its maximum. *)
Definition BlockMetaStorage_new (unary_concurrency_limit : Z) (cancellation_token : token) : Create (BlockMetaStorageInner * Z) :=
  _ ← spawn (Task_blocks_meta cancellation_token);
  if MAX_PERMITS <? unary_concurrency_limit then panics Panic
  else mret (BlockMetaStorageInner_default, unary_concurrency_limit).

Definition create_blocks_meta (config : ConfigGrpc SocketAddr) (service_cancellation_token : token) :
    Create (option (BlockMetaStorageInner * Z)) :=
  if cg_unary_disabled config then mret None
  else
    child_token ← child service_cancellation_token;
    blocks_meta ← BlockMetaStorage_new (cg_unary_concurrency_limit config) child_token;
    mret (Some blocks_meta).

Definition SubscriberChannels_create (config : ConfigGrpc SocketAddr) : Create SubscriberChannels :=
  processed ← panics (broadcast_capacity (default (cg_channel_capacity config) (cg_processed_broadcast_capacity config)));
  confirmed ← panics (broadcast_capacity (default (cg_channel_capacity config) (cg_confirmed_broadcast_capacity config)));
  finalized ← panics (broadcast_capacity (default (cg_channel_capacity config) (cg_finalized_broadcast_capacity config)));
  mret (SubscriberChannels_new processed confirmed finalized).

Definition parse_x_token (config : ConfigGrpc SocketAddr) : result CreateError (option HeaderValue) :=
  match cg_x_token config with
  | Some t => Some <$> map_err Create_x_token (parse_metadata_value t)
  | None => Ok None
  end.

Definition server_settings (config : ConfigGrpc SocketAddr) (x_token : option HeaderValue) : ServerSettings := {|
  se_x_token := x_token;
  se_traffic_reporting_threshold := default DEFAULT_TRAFFIC_REPORTING_THRESHOLD (cg_traffic_reporting_byte_threhsold config);
  se_ip_conncur := cg_ip_conncur_rate_limit config;
  se_max_decoding_message_size := cg_max_decoding_message_size config;
  se_accept := cc_accept (cg_compression config);
  se_send := cc_send (cg_compression config);
  se_http2_adaptive_window := cg_server_http2_adaptive_window config;
  se_http2_keepalive_interval := cg_server_http2_keepalive_interval config;
  se_http2_keepalive_timeout := cg_server_http2_keepalive_timeout config;
  se_initial_connection_window_size := cg_server_initial_connection_window_size config;
  se_initial_stream_window_size := cg_server_initial_stream_window_size config
|}.

(** One server task per listener. *)
Definition serve_listeners (shutdown_grpc : token) (settings : ServerSettings) : Create unit := λ w,
  Done (Ok tt, mkWorld (w_host w) (w_reloading w) (w_tokens w) []
    (w_tasks w ++ ((λ listener, Task_server listener shutdown_grpc settings) <$> w_listeners w))).

(** The handlers' state; the tokens are those of the whole program. *)
Definition create_handlers (config : ConfigGrpc SocketAddr) (snapshot : option Z) (service_cancellation_token : token) (s : tokens) :
    GrpcService (Snapshot := Z) :=
  mkGrpcService (SubscriptionTracker_new (cg_subscription_limit config) (cg_subscription_limit_enforce config)) 0
    snapshot s service_cancellation_token (cg_channel_capacity config) (cg_snapshot_client_channel_capacity config).

Definition get_tokens : Create tokens := λ w, Done (Ok (w_tokens w), w).

Definition create_service (config : ConfigGrpc SocketAddr) (is_reload : bool) (service_cancellation_token : token) :
    Create GrpcServiceResult :=
  _ ← create_listeners config;
  let snapshot := match cg_snapshot_plugin_channel_capacity config with
                  | Some cap => if is_reload then None else Some cap
                  | None => None
                  end in
  blocks_meta ← create_blocks_meta config service_cancellation_token;
  broadcast ← SubscriberChannels_create config;
  deshred_capacity ← panics (broadcast_capacity (cg_channel_capacity config));
  contact_info_capacity ← panics (broadcast_capacity (cg_contact_info_channel_capacity config));
  _ ← spawn Task_contact_info;
  _ ← spawn Task_block_reconstruction;
  _ ← spawn Task_geyser;
  x_token ← fails (parse_x_token config);
  shutdown_grpc ← child service_cancellation_token;
  _ ← serve_listeners shutdown_grpc (server_settings config x_token);
  tokens ← get_tokens;
  mret (mkGrpcServiceResult snapshot broadcast deshred_capacity (ContactInfoState_new contact_info_capacity)
    (ReconstructionLoop_new (cg_replay_stored_slots config)) blocks_meta
    (create_handlers config snapshot service_cancellation_token tokens)
    (cg_filter_limits config) (cg_filter_name_size_limit config) (cg_filter_names_size_limit config)
    (cg_filter_names_cleanup_interval config)).

(** [Drop] of a listener: only a Unix socket leaves something to remove. *)
Definition drop_listener (m : M) (l : Listener) : M :=
  match l with Listener_Unix path_to_remove _ _ => (remove_file path_to_remove m).2 | _ => m end.

(** The locals of [create] are dropped when it returns early. *)
Definition create (config : ConfigGrpc SocketAddr) (is_reload : bool) (service_cancellation_token : token) : Create GrpcServiceResult := λ w,
  match create_service config is_reload service_cancellation_token
          (mkWorld (w_host w) (w_reloading w) (w_tokens w) [] (w_tasks w)) with
  | Done (Err e, w) => Done (Err e, mkWorld (foldl drop_listener (w_host w) (w_listeners w)) (w_reloading w) (w_tokens w) [] (w_tasks w))
  | r => r
  end.

(** ** A server task *)

(** What [build_service] makes of the authentication of a listener. *)
Record ListenerService := mkListenerService {
  ls_auth_layer : option AuthLayerChoice;
  ls_x_token : option HeaderValue;
  ls_ratelimiter : option MethodRatelimiter;
  ls_billing : option BillingSink;
  ls_threshold : Z
}.

(** [HttpBackedAuthConfig::build_repository]. *)
Definition HttpBackedAuthConfig_build_repository (config : HttpBackedAuthConfig) : HttpSubscriptionRepository :=
  mkHttpSubscriptionRepository (ha_subscription_resolver_url config)
    (bool_decide (is_Some (ha_subscription_resolution_cache_ttl config))) (ha_forwarded_headers config).

Definition build_auth_layer (m : M) (kind : AuthKind) : result E AuthLayerChoice :=
  match kind with
  | AuthKind_Http http_auth_config =>
      Ok (Choice_Http (HttpBackedAuthConfig_build_repository http_auth_config) (ha_max_concurrent_auth_requests http_auth_config))
  | AuthKind_File file_auth_config =>
      repository ← file_backed_repository (read_mappings m (fa_subscription_resolver_path file_auth_config));
      Ok (Choice_File repository 1000000)
  | AuthKind_TrustedMetadata => Ok (Choice_Trusted (TrustedMetadataAuthenticator_new []) 1000000)
  end.

Definition build_listener_service (m : M) (settings : ServerSettings) (auth : option AuthConfig) : result E ListenerService :=
  let method_ratelimit_config := auth ≫= au_ratelimit in
  let billing_config := auth ≫= au_billing in
  maybe_auth_layer ← match auth with
                     | Some auth => Some <$> build_auth_layer m (au_kind auth)
                     | None => Ok None
                     end;
  let maybe_billing := (λ b, match b with BillingConfig_Http b =>
    mkBillingSink (hb_billing_endpoint_url b) (Some (hb_report_interval b)) end) <$> billing_config in
  let ratelimiter := (λ r, (MethodRatelimiter_new (rl_default_max_hits r) (rl_window r)).1) <$> method_ratelimit_config in
  Ok (mkListenerService maybe_auth_layer (se_x_token settings) ratelimiter maybe_billing (se_traffic_reporting_threshold settings)).

(** The configuration of the layers of Layers.v. *)
Definition layers_config {MM} (metered_man : option BillingSink → MM) (s : ListenerService) : Layers.ServerConfig (MM := MM) :=
  Layers.mkServerConfig (ls_x_token s) (ls_ratelimiter s) (metered_man (ls_billing s)).

(** The end of a server task: [served] is what [serve_listener] returned. An
    error cancels the token all listeners share. *)
Definition server_task_end (listener : Listener) (shutdown : token) (settings : ServerSettings) (served : result E unit) (w : World) : World :=
  match build_listener_service (w_host w) settings (listener_auth listener) with
  | Ok _ => match served with Ok _ => w | Err _ => w_with_tokens w (cancel shutdown (w_tokens w)) end
  | Err _ => w_with_tokens w (cancel shutdown (w_tokens w))
  end.
End create.

(** ** Reasoning about the set-up *)

Section runs.
Context {M E SocketAddr CertifiedKey : Type}.
Context {T : TcpSockets M E SocketAddr} {U : UnixSockets M E} {F : CertFiles M CertifiedKey E}.
Context {HF : HostFiles M E Certificate PrivateKey} {H : Http} {TK : CancellationTokens}.
Context {BM : BlockMachine} {BR : Broadcast (list Message)} {BC : Broadcast ContactInfoEvent} {WT : Watch}.
Context (parse_metadata_value : string → result E HeaderValue) (path_of : string → Path) (watchable : M → WatchScope → result E unit).

Abbreviation World := (World (M := M) (E := E) (SocketAddr := SocketAddr) (CertifiedKey := CertifiedKey)).
Abbreviation create := (create parse_metadata_value path_of watchable).
Abbreviation create_service := (create_service parse_metadata_value path_of watchable).
Abbreviation create_listeners := (create_listeners path_of watchable).

Lemma create_bind_ok {A B} (c : Create A) (f : A → Create B) (w w' : World) b : (c ≫= f) w = Done (Ok b, w') →
  ∃ a w1, c w = Done (Ok a, w1) ∧ f a w1 = Done (Ok b, w').
Proof. unfold mbind, Create_bind. destruct (c w) as [[[a|e] w1]|]; intros Hr; [by exists a, w1|done..]. Qed.

(** Whatever a computation returns, it relates the world before to the world after. *)
Definition relates {A} (R : World → World → Prop) (c : Create A) : Prop := ∀ w r w', c w = Done (r, w') → R w w'.

Section relates.
Context (R : World → World → Prop) `{!PreOrder R}.

Lemma relates_ret {A} (a : A) : relates R (mret a).
Proof. by intros w r w' [= _ <-]. Qed.

Lemma relates_bind {A B} (c : Create A) (f : A → Create B) : relates R c → (∀ a, relates R (f a)) → relates R (c ≫= f).
Proof.
  intros Hc Hf w r w'. unfold mbind, Create_bind. destruct (c w) as [[[a|e] w1]|] eqn:E1; [| |done].
  - intros Hr. etrans; [exact (Hc _ _ _ E1)|exact (Hf _ _ _ _ Hr)].
  - intros [= <- <-]. exact (Hc _ _ _ E1).
Qed.

Lemma relates_for_each {A} (f : A → Create unit) l : (∀ a, relates R (f a)) → relates R (for_each f l).
Proof. intros Hf. induction l; [apply relates_ret|by apply relates_bind]. Qed.

Lemma relates_pure {A} (r : result CreateError A) : relates R (fails r).
Proof. by intros w r' w' [= _ <-]. Qed.

Lemma relates_panics {A} (o : outcome A) : relates R (panics o).
Proof. intros w r w'. unfold panics. destruct o; [by intros [= _ <-]|done]. Qed.
End relates.

(** ** Listening leaves the rest of the program alone *)

(** Cells and registrations are added only. *)
Record reloading_grows (s s' : Reloading (CertifiedKey := CertifiedKey)) : Prop := {
  rg_cells : rl_cells s `prefix_of` rl_cells s';
  rg_registrations : in_registrations (rl_watcher s) `prefix_of` in_registrations (rl_watcher s')
}.

Record listening (w w' : World) : Prop := {
  li_tokens : w_tokens w' = w_tokens w;
  li_tasks : w_tasks w' = w_tasks w;
  li_listeners : w_listeners w `prefix_of` w_listeners w';
  li_reloading : reloading_grows (w_reloading w) (w_reloading w')
}.

#[global] Instance reloading_grows_preorder : PreOrder reloading_grows.
Proof. split; [by split|]. intros s1 s2 s3 [] []. split; by etrans. Qed.

#[global] Instance listening_preorder : PreOrder listening.
Proof.
  split; [by split|]. intros w1 w2 w3 [H1 H2 H3 H4] [H1' H2' H3' H4']. split; [congruence..| |]; by etrans.
Qed.

Lemma listening_io {A} (call : M → result E A * M) : relates listening (io call).
Proof. intros w r w'. unfold io. destruct (call _) as [r' m]. intros [= _ <-]. by split. Qed.

Lemma listening_push l : relates listening (push_listener l).
Proof. intros w r w' [= _ <-]. split; cbn; [done..|by apply prefix_app_r|done]. Qed.

Lemma load_added_grows d tls s s' r : load_added path_of d tls s s' r → reloading_grows s s'.
Proof.
  intros [Hc (regs & Hr & _)]. split; [|rewrite Hr; by apply prefix_app_r].
  destruct Hc as [->|(h & -> & _)]; [done|by apply prefix_app_r].
Qed.

Lemma listening_load_tls tls : relates listening (load_tls path_of watchable tls).
Proof.
  intros w r w'. unfold load_tls. destruct (load_server_config_from_tls_config _ _ _ _ _) as [s' r'] eqn:El.
  intros [= _ <-]. apply load_config_added, load_added_grows in El. by split.
Qed.

Lemma listening_tcp addr : relates listening (listen_tcp addr).
Proof. apply relates_bind; [apply _|apply listening_io|]. intros a. apply relates_bind; [apply _|apply listening_io|]. intros _. apply relates_ret, _. Qed.

Lemma listening_unix path mode : relates listening (listen_unix path mode).
Proof.
  apply relates_bind; [apply _|apply listening_io|]. intros _. apply relates_bind; [apply _|apply listening_io|]. intros uds.
  apply relates_bind; [apply _|apply listening_io|]. intros _. apply relates_ret, _.
Qed.

Lemma listening_legacy config : relates listening (legacy_tls config).
Proof.
  apply relates_bind; [apply _|..].
  - destruct (cg_tls_config config) as [tls|]; [|apply relates_ret, _]. intros w r w'. unfold legacy_tls_config.
    destruct (read_file _ _) as [cert_pem|]; [|done]. destruct (read_file _ _) as [key|]; [|done].
    revert w r w'. change (relates listening (cert_der ← fails (map_err Create_Pem (cert_from_pem_slice cert_pem));
      key_der ← fails (map_err Create_Pem (key_from_pem_slice key)); fails (map_err Create_Rustls (with_single_cert [cert_der] key_der)))).
    apply relates_bind; [apply _|apply relates_pure, _|]. intros cert_der.
    apply relates_bind; [apply _|apply relates_pure, _|]. intros key_der. apply relates_pure, _.
  - intros _. destruct (cg_cert_dir config) as [cert_dir|]; [|apply relates_ret, _]. intros w r w'. unfold legacy_cert_dir.
    destruct (load_cert_dir _ _); by intros [= _ <-].
Qed.

(** ** What a listener serves *)

(** A listener as a configuration has it: where, with which certificates, with
    which authentication. *)
Record ListenerSpec := mkListenerSpec {
  sp_address : GrpcAddress (SocketAddr := SocketAddr);
  sp_tls : option GrpcTlsConfig;
  sp_auth : option AuthConfig
}.

(** TLS is ignored on a Unix socket. *)
Definition spec_of (address : GrpcAddress (SocketAddr := SocketAddr)) (tls : option GrpcTlsConfig) (auth : option AuthConfig) : ListenerSpec :=
  mkListenerSpec address (match address with Config.Tcp _ => tls | Unix _ _ => None end) auth.

Definition listen_spec (listen : ListenConfig SocketAddr) : ListenerSpec := spec_of (lc_address listen) (lc_tls listen) (lc_auth listen).

(** The certificates config.rs documents for the addresses of the old field:
    those of [cert_dir], otherwise those of [tls_config]. *)
Definition address_tls (config : ConfigGrpc SocketAddr) : option GrpcTlsConfig :=
  match cg_cert_dir config with
  | Some cert_dir => Some (CertDir cert_dir false)
  | None => (λ tls, IdentityPair tls false) <$> cg_tls_config config
  end.

Definition address_spec (config : ConfigGrpc SocketAddr) (address : GrpcAddress (SocketAddr := SocketAddr)) : ListenerSpec :=
  spec_of address (address_tls config) None.

Definition configured (config : ConfigGrpc SocketAddr) : list ListenerSpec :=
  (address_spec config <$> default [] (cg_address config)) ++ (listen_spec <$> default [] (cg_listen config)).

(** No address of the old field is to have a certificate. *)
Definition addresses_in_clear (config : ConfigGrpc SocketAddr) : Prop :=
  Forall (λ spec, sp_tls spec = None) (address_spec config <$> default [] (cg_address config)).

(** What the code makes of an address of the old field. *)
Definition clear_spec (address : GrpcAddress (SocketAddr := SocketAddr)) : ListenerSpec := mkListenerSpec address None None.

Lemma configured_clear config : addresses_in_clear config →
  configured config = (clear_spec <$> default [] (cg_address config)) ++ (listen_spec <$> default [] (cg_listen config)).
Proof.
  unfold addresses_in_clear, configured. rewrite Forall_fmap. intros Hc. f_equal.
  induction Hc as [|address l Ha Hl IH]; [done|]. cbn. f_equal; [|exact IH]. unfold address_spec, spec_of, clear_spec in *. cbn in Ha. by rewrite Ha.
Qed.

(** Bound to the address, with the options of accepted connections. *)
Definition bound (addr : SocketAddr) (incoming : TcpIncoming) : Prop :=
  (∃ m m', tcp_listener_bind addr m = (Ok (ti_listener incoming), m')) ∧
  ti_nodelay incoming = Some true ∧ ti_keepalive incoming = Some (mkTcpKeepalive (Some (20 * 10 ^ 9)) None None).

Definition unix_bound (path : string) (mode : Z) (uds : UnixListener) : Prop :=
  ∃ m m1 m2, unix_bind path m = (Ok uds, m1) ∧ set_permissions path mode m1 = (Ok tt, m2).

(** Its cell holds what was read of its files, and callbacks are registered
    for them if they are to be watched. *)
Definition presents (s : Reloading (CertifiedKey := CertifiedKey)) (tls : GrpcTlsConfig) (server_config : TlsReload.ServerConfig) : Prop :=
  sc_alpn_protocols server_config = ["h2"%string] ∧
  (∃ m h, load_source m (tls_source tls) = Ok h ∧ rl_cells s !! sc_cert_resolver server_config = Some h) ∧
  (tls_watched tls = true → Forall (λ scope, watches s scope (mkReloadCallback (sc_cert_resolver server_config) (tls_source tls)))
     (source_scopes path_of (tls_source tls))).

Definition serves (s : Reloading (CertifiedKey := CertifiedKey)) (l : Listener) (spec : ListenerSpec) : Prop :=
  listener_auth l = sp_auth spec ∧
  match sp_address spec, sp_tls spec, l with
  | Config.Tcp addr, None, Listener_Tcp incoming _ => bound addr incoming
  | Config.Tcp addr, Some tls, Listener_Tls incoming server_config _ => bound addr incoming ∧ presents s tls server_config
  | Unix path mode, None, Listener_Unix path' uds _ => path' = path ∧ unix_bound path mode uds
  | _, _, _ => False
  end.

Lemma presents_grows s s' tls server_config : reloading_grows s s' → presents s tls server_config → presents s' tls server_config.
Proof.
  intros [Hc [regs Hr]] (H1 & (m & h & Hl & Hh) & Hw). split; [done|]. split.
  - exists m, h. split; [done|]. exact (prefix_lookup_Some _ _ _ _ Hh Hc).
  - intros Htw. apply (Forall_impl _ _ _ (Hw Htw)). intros scope. exact (watches_app _ _ _ _ _ Hr).
Qed.

Lemma serves_grows s s' l spec : reloading_grows s s' → serves s l spec → serves s' l spec.
Proof.
  intros Hg [Ha Hs]. split; [done|]. destruct (sp_address spec), (sp_tls spec), l; try done.
  destruct Hs as [Hb Hp]. split; [done|]. exact (presents_grows _ _ _ _ Hg Hp).
Qed.

Lemma listen_tcp_bound addr (w : World) incoming (w' : World) : listen_tcp addr w = Done (Ok incoming, w') → bound addr incoming ∧ w_listeners w' = w_listeners w.
Proof.
  intros (inc & w1 & H1 & (x & w2 & H2 & [= -> <-])%create_bind_ok)%create_bind_ok. revert H1 H2. unfold io, bind_with_config.
  destruct (tcp_listener_bind addr (w_host w)) as [[listener|] m] eqn:Eb; intros [= <- <-] [= _ <-].
  split; [|done]. split; [by eexists _, _|done].
Qed.

Lemma io_listeners {A} (call : M → result E A * M) (w : World) r (w' : World) : io call w = Done (r, w') → w_listeners w' = w_listeners w.
Proof. unfold io. destruct (call _) as [r' m]. by intros [= _ <-]. Qed.

Lemma io_ok {A} (call : M → result E A * M) (w : World) a (w' : World) : io call w = Done (Ok a, w') → call (w_host w) = (Ok a, w_host w').
Proof. unfold io. destruct (call _) as [[b|e] m]; by intros [= -> <-]. Qed.

Lemma listen_unix_spec path mode (w : World) uds (w' : World) : listen_unix path mode w = Done (Ok uds, w') →
  unix_bound path mode uds ∧ w_listeners w' = w_listeners w.
Proof.
  intros (x & w1 & H1 & (uds' & w2 & H2 & ([] & w3 & H3 & [= -> <-])%create_bind_ok)%create_bind_ok)%create_bind_ok.
  split; [apply io_ok in H2, H3; by eexists _, _, _|]. apply io_listeners in H1 as <-, H2 as <-, H3 as <-. done.
Qed.

Lemma load_tls_presents tls (w : World) server_config (w' : World) : load_tls path_of watchable tls w = Done (Ok server_config, w') →
  presents (w_reloading w') tls server_config ∧ w_listeners w' = w_listeners w.
Proof.
  unfold load_tls. destruct (load_server_config_from_tls_config _ _ _ _ _) as [s' [sc|e]] eqn:El; [|done]. intros [= <- <-].
  apply load_config_added in El as [Hc (regs & Hregs & Hf & _ & Hok)]. destruct (Hok _ eq_refl) as (Hlen & -> & Hw). cbn in *.
  split; [|done]. split; [done|]. split.
  - destruct Hc as [Heq|(h & -> & Hl)]; [rewrite Heq in Hlen; lia|]. exists (w_host w), h. split; [done|]. by apply list_lookup_middle.
  - intros Htw. apply (Forall_impl _ _ _ (Hw Htw)). intros scope (r & Hr & Hs)%Exists_exists. exists r. rewrite Hregs.
    split; [by apply elem_of_app; right|]. split; [done|]. rewrite Forall_forall in Hf. by apply Hf.
Qed.

(** One more listener, which serves what it is configured for. *)
Definition adds (w w' : World) (spec : ListenerSpec) : Prop :=
  ∃ l, w_listeners w' = w_listeners w ++ [l] ∧ serves (w_reloading w') l spec.

Lemma listen_address_adds address (w w' : World) : listen_address address w = Done (Ok tt, w') → adds w w' (clear_spec address).
Proof.
  destruct address as [addr|path mode]; intros (a & w1 & H1 & [= <-])%create_bind_ok; (eexists; split; [cbn; f_equal|]).
  - by apply listen_tcp_bound in H1 as [_ ->].
  - by apply listen_tcp_bound in H1 as [Hb _].
  - by apply listen_unix_spec in H1 as [_ ->].
  - by apply listen_unix_spec in H1 as [Hb _].
Qed.

Lemma listen_config_adds listen (w w' : World) : listen_config path_of watchable listen w = Done (Ok tt, w') → adds w w' (listen_spec listen).
Proof.
  unfold adds, listen_config, listen_spec, spec_of, serves. destruct listen as [[addr|path mode] tls auth]; cbn; intros (a & w1 & H1 & H2)%create_bind_ok.
  - apply listen_tcp_bound in H1 as [Hb Hl]. destruct tls as [tls|].
    + apply create_bind_ok in H2 as (sc & w2 & H2 & [= <-]). apply load_tls_presents in H2 as [Hp Hl2].
      exists (Listener_Tls a sc auth). cbn. split; [by rewrite Hl2, Hl|done].
    + injection H2 as <-. exists (Listener_Tcp a auth). cbn. by rewrite Hl.
  - injection H2 as <-. apply listen_unix_spec in H1 as [Hb Hl]. exists (Listener_Unix path a auth). cbn. by rewrite Hl.
Qed.

Lemma for_each_adds {A} (f : A → Create unit) (view : A → ListenerSpec) l (w w' : World) :
  (∀ a, relates listening (f a)) → (∀ a (w w' : World), f a w = Done (Ok tt, w') → adds w w' (view a)) →
  for_each f l w = Done (Ok tt, w') →
  ∃ ls, w_listeners w' = w_listeners w ++ ls ∧ Forall2 (serves (w_reloading w')) ls (view <$> l).
Proof.
  intros Hr Ha. revert w. induction l as [|a l IH]; intros w.
  { intros [= <-]. exists []. rewrite app_nil_r. split; [done|constructor]. }
  intros ([] & w1 & H1 & H2)%create_bind_ok. destruct (Ha _ _ _ H1) as (l1 & Hl1 & Hs1).
  pose proof (relates_for_each listening f l Hr _ _ _ H2) as Hg. destruct (IH _ H2) as (ls & Hls & Hf).
  exists (l1 :: ls). rewrite Hls, Hl1, <- app_assoc. split; [done|]. constructor; [|done].
  exact (serves_grows _ _ _ _ (li_reloading _ _ Hg) Hs1).
Qed.

Lemma listening_address address : relates listening (listen_address address).
Proof.
  destruct address; (apply relates_bind; [apply _|..]); [apply listening_tcp| |apply listening_unix|]; intros; apply listening_push.
Qed.

Lemma listening_config listen : relates listening (listen_config path_of watchable listen).
Proof.
  unfold listen_config. destruct (lc_address listen); (apply relates_bind; [apply _|..]); [apply listening_tcp| |apply listening_unix|].
  - intros incoming. destruct (lc_tls listen); [|apply listening_push].
    apply relates_bind; [apply _|apply listening_load_tls|]. intros; apply listening_push.
  - intros; apply listening_push.
Qed.

Lemma listening_create_listeners config : relates listening (create_listeners config).
Proof.
  unfold ServerCreate.create_listeners. apply relates_bind; [apply _|..].
  - destruct (cg_address config); [|apply relates_ret, _]. apply relates_bind; [apply _|apply listening_legacy|].
    intros _. apply relates_for_each; [apply _|apply listening_address].
  - intros _. destruct (cg_listen config); [|apply relates_ret, _]. apply relates_for_each; [apply _|apply listening_config].
Qed.

Lemma create_listeners_serves config (w w' : World) : create_listeners config w = Done (Ok tt, w') →
  ∃ ls, w_listeners w' = w_listeners w ++ ls ∧ Forall2 (serves (w_reloading w')) ls
    ((clear_spec <$> default [] (cg_address config)) ++ (listen_spec <$> default [] (cg_listen config))).
Proof.
  intros ([] & w1 & H1 & H2)%create_bind_ok.
  assert (∃ ls, w_listeners w1 = w_listeners w ++ ls ∧ Forall2 (serves (w_reloading w1)) ls (clear_spec <$> default [] (cg_address config)))
    as (ls1 & Hls1 & Hf1).
  { destruct (cg_address config) as [addresses|]; [|injection H1 as ->; exists []; rewrite app_nil_r; split; [done|constructor]].
    apply create_bind_ok in H1 as ([] & w0 & H0 & H1).
    destruct (for_each_adds _ _ _ _ _ listening_address listen_address_adds H1) as (ls & -> & Hf).
    assert (w_listeners w0 = w_listeners w) as ->; [|by exists ls]. clear -H0.
    unfold legacy_tls in H0. apply create_bind_ok in H0 as ([] & w1 & H1 & H2).
    assert (w1 = w) as ->.
    { destruct (cg_tls_config config) as [tls|]; [|by injection H1]. unfold legacy_tls_config in H1.
      destruct (read_file _ _); [|done]. destruct (read_file _ _); [|done].
      apply create_bind_ok in H1 as (? & ? & [= _ <-] & (? & ? & [= _ <-] & [= _ <-])%create_bind_ok). done. }
    destruct (cg_cert_dir config) as [cert_dir|]; [|by injection H2 as <-]. unfold legacy_cert_dir in H2.
    destruct (load_cert_dir _ _); [by injection H2 as <-|done]. }
  assert (∃ ls, w_listeners w' = w_listeners w1 ++ ls ∧ Forall2 (serves (w_reloading w')) ls (listen_spec <$> default [] (cg_listen config)))
    as (ls2 & Hls2 & Hf2).
  { destruct (cg_listen config) as [listens|]; [|injection H2 as ->; exists []; rewrite app_nil_r; split; [done|constructor]].
    exact (for_each_adds _ _ _ _ _ listening_config listen_config_adds H2). }
  assert (reloading_grows (w_reloading w1) (w_reloading w')) as Hg.
  { destruct (cg_listen config); [|by injection H2 as ->]. eapply li_reloading, relates_for_each; [apply _|apply listening_config|exact H2]. }
  exists (ls1 ++ ls2). rewrite Hls2, Hls1, <- app_assoc. split; [done|]. apply Forall2_app; [|done].
  apply (Forall2_impl _ _ _ _ Hf1). intros l spec. by apply serves_grows.
Qed.

(** ** What a successful set-up has made *)

Lemma create_ok config is_reload svc (w : World) r (w' : World) : create config is_reload svc w = Done (Ok r, w') →
  create_service config is_reload svc (mkWorld (w_host w) (w_reloading w) (w_tokens w) [] (w_tasks w)) = Done (Ok r, w').
Proof. unfold ServerCreate.create. by destruct (create_service _ _ _ _) as [[[]]|]. Qed.

Lemma panics_ok {A} (o : outcome A) (w : World) a (w' : World) : panics o w = Done (Ok a, w') → o = Done a ∧ w' = w.
Proof. unfold panics. destruct o; [by intros [= -> ->]|done]. Qed.

(** The tasks of a server, the first in a thread of its own. *)
Definition created_tasks (config : ConfigGrpc SocketAddr) (meta shutdown : token) (settings : ServerSettings) (listeners : list Listener)
    : list (Task (M := M) (E := E) (SocketAddr := SocketAddr)) :=
  (if cg_unary_disabled config then [] else [Task_blocks_meta meta]) ++ [Task_contact_info; Task_block_reconstruction; Task_geyser]
  ++ ((λ listener, Task_server listener shutdown settings) <$> listeners).

(** The settings of a server, field by field. *)
Record configured_settings (config : ConfigGrpc SocketAddr) (settings : ServerSettings) : Prop := {
  cs_x_token : match cg_x_token config with
               | Some t => ∃ value, parse_metadata_value t = Ok value ∧ se_x_token settings = Some value
               | None => se_x_token settings = None
               end;
  cs_threshold : se_traffic_reporting_threshold settings =
    match cg_traffic_reporting_byte_threhsold config with Some bytes => bytes | None => DEFAULT_TRAFFIC_REPORTING_THRESHOLD end;
  cs_connections : se_ip_conncur settings = cg_ip_conncur_rate_limit config;
  cs_message_size : se_max_decoding_message_size settings = cg_max_decoding_message_size config;
  cs_compression : se_accept settings = cc_accept (cg_compression config) ∧ se_send settings = cc_send (cg_compression config);
  cs_keepalive : se_http2_keepalive_interval settings = cg_server_http2_keepalive_interval config ∧
    se_http2_keepalive_timeout settings = cg_server_http2_keepalive_timeout config;
  cs_windows : se_http2_adaptive_window settings = cg_server_http2_adaptive_window config ∧
    se_initial_connection_window_size settings = cg_server_initial_connection_window_size config ∧
    se_initial_stream_window_size settings = cg_server_initial_stream_window_size config
}.

(** The capacity of a broadcast channel: the configured one, in the bounds of tokio. *)
Definition capacity_of (capacity : Z) (n : nat) : Prop := 0 <= capacity → 0 < capacity <= usize_max / 2 ∧ Z.of_nat n = capacity.

(** What the handlers start from. *)
Record configured_result (config : ConfigGrpc SocketAddr) (is_reload : bool) (svc : token) (r : GrpcServiceResult) : Prop := {
  cr_snapshot : gr_snapshot_tx r = if is_reload then None else cg_snapshot_plugin_channel_capacity config;
  cr_handler_snapshot : gs_snapshot_rx (gr_service r) = gr_snapshot_tx r;
  cr_broadcast : ∃ processed confirmed finalized, gr_broadcast r = SubscriberChannels_new processed confirmed finalized ∧
    let level capacity := match capacity with Some n => n | None => cg_channel_capacity config end in
    capacity_of (level (cg_processed_broadcast_capacity config)) processed ∧
    capacity_of (level (cg_confirmed_broadcast_capacity config)) confirmed ∧
    capacity_of (level (cg_finalized_broadcast_capacity config)) finalized;
  cr_deshred : capacity_of (cg_channel_capacity config) (gr_deshred_capacity r);
  cr_contact_info : ∃ n, gr_contact_info r = ContactInfoState_new n ∧ capacity_of (cg_contact_info_channel_capacity config) n;
  cr_replay : gr_block_reconstruction r = ReconstructionLoop_new (cg_replay_stored_slots config);
  cr_blocks_meta : gr_blocks_meta r =
    if cg_unary_disabled config then None else Some (BlockMetaStorageInner_default, cg_unary_concurrency_limit config);
  cr_subscriptions : gs_subscription_tracker (gr_service r) =
    SubscriptionTracker_new (cg_subscription_limit config) (cg_subscription_limit_enforce config) ∧ gs_subscribe_id (gr_service r) = 0;
  cr_cancellation : gs_cancellation_token (gr_service r) = svc;
  cr_client_channels : gs_channel_capacity (gr_service r) = cg_channel_capacity config ∧
    gs_snapshot_client_channel_capacity (gr_service r) = cg_snapshot_client_channel_capacity config;
  cr_filters : gr_config_filter_limits r = cg_filter_limits config ∧ gr_filter_name_size_limit r = cg_filter_name_size_limit config ∧
    gr_filter_names_size_limit r = cg_filter_names_size_limit config ∧
    gr_filter_names_cleanup_interval r = cg_filter_names_cleanup_interval config
}.

Lemma broadcast_capacity_ok capacity n : broadcast_capacity capacity = Done n → capacity_of capacity n.
Proof. unfold broadcast_capacity, capacity_of. destruct ((capacity =? 0) || (usize_max / 2 <? capacity)) eqn:Ec; [done|]. intros [= <-]. lia. Qed.

Lemma SubscriberChannels_create_ok config (w : World) b (w' : World) : SubscriberChannels_create config w = Done (Ok b, w') →
  w' = w ∧ ∃ processed confirmed finalized, b = SubscriberChannels_new processed confirmed finalized ∧
    capacity_of (default (cg_channel_capacity config) (cg_processed_broadcast_capacity config)) processed ∧
    capacity_of (default (cg_channel_capacity config) (cg_confirmed_broadcast_capacity config)) confirmed ∧
    capacity_of (default (cg_channel_capacity config) (cg_finalized_broadcast_capacity config)) finalized.
Proof.
  intros (p & ? & [Hp ->]%panics_ok & (c & ? & [Hc ->]%panics_ok & (f & ? & [Hf ->]%panics_ok & [= <- <-])%create_bind_ok)%create_bind_ok)%create_bind_ok.
  split; [done|]. exists p, c, f. auto using broadcast_capacity_ok.
Qed.

Lemma create_blocks_meta_ok config svc (w : World) bm (w' : World) : create_blocks_meta config svc w = Done (Ok bm, w') →
  w_reloading w' = w_reloading w ∧ w_listeners w' = w_listeners w ∧
  bm = (if cg_unary_disabled config then None else Some (BlockMetaStorageInner_default, cg_unary_concurrency_limit config)) ∧
  ∃ meta, w_tasks w' = w_tasks w ++ if cg_unary_disabled config then [] else [Task_blocks_meta meta].
Proof.
  unfold create_blocks_meta. destruct (cg_unary_disabled config).
  { intros [= <- <-]. split_and!; [done..|]. exists svc. by rewrite app_nil_r. }
  intros (c & wa & Ha & (b & wb & Hb & [= <- <-])%create_bind_ok)%create_bind_ok.
  apply create_bind_ok in Hb as ([] & wc & [= <-] & Hb). unfold child in Ha. destruct (child_token _ _). injection Ha as -> <-.
  destruct (MAX_PERMITS <? _); [done|]. injection Hb as <- <-. split_and!; [done..|]. by exists c.
Qed.

Lemma server_settings_configured config x_token : parse_x_token parse_metadata_value config = Ok x_token →
  configured_settings config (server_settings config x_token).
Proof.
  intros Hx. split; cbn; [|done..]. unfold parse_x_token in Hx. destruct (cg_x_token config) as [t|]; [|by injection Hx as <-].
  destruct (parse_metadata_value t) as [value|]; [|done]. injection Hx as <-. by exists value.
Qed.

Lemma create_service_ok config is_reload svc (w : World) r (w' : World) : create_service config is_reload svc w = Done (Ok r, w') →
  ∃ w1 meta shutdown settings, create_listeners config w = Done (Ok tt, w1) ∧ configured_settings config settings ∧
    w_reloading w' = w_reloading w1 ∧ w_tasks w' = w_tasks w1 ++ created_tasks config meta shutdown settings (w_listeners w1) ∧
    configured_result config is_reload svc r ∧ gs_tokens (gr_service r) = w_tokens w'.
Proof.
  intros ([] & w1 & H1 & Hc)%create_bind_ok. apply create_bind_ok in Hc as (blocks_meta & w2 & H2 & Hc).
  apply create_bind_ok in Hc as (broadcast & w3 & H3 & Hc). apply create_bind_ok in Hc as (deshred & w4 & [Hd ->]%panics_ok & Hc).
  apply create_bind_ok in Hc as (contact & w5 & [Hci ->]%panics_ok & Hc). apply create_bind_ok in Hc as ([] & w6 & [= <-] & Hc).
  apply create_bind_ok in Hc as ([] & w7 & [= <-] & Hc). apply create_bind_ok in Hc as ([] & w8 & [= <-] & Hc).
  apply create_bind_ok in Hc as (x_token & w9 & [= Hx <-] & Hc). apply create_bind_ok in Hc as (shutdown & w10 & H4 & Hc).
  apply create_bind_ok in Hc as ([] & w11 & [= <-] & Hc). apply create_bind_ok in Hc as (s & w12 & [= <- <-] & [= <- <-]).
  apply create_blocks_meta_ok in H2 as (Hr2 & Hl2 & Hb2 & meta & Ht2). apply SubscriberChannels_create_ok in H3 as [-> Hch].
  unfold child in H4. destruct (child_token _ _) as [c s]. injection H4 as -> <-. cbn.
  exists w1, meta, shutdown, (server_settings config x_token). split; [done|]. split; [by apply server_settings_configured|]. split; [done|].
  split; [unfold created_tasks; by rewrite Ht2, Hl2, <- !app_assoc|]. split; [|done].
  split; try done; cbn; [by destruct (cg_snapshot_plugin_channel_capacity config), is_reload|by apply broadcast_capacity_ok|].
  exists contact. split; [done|by apply broadcast_capacity_ok].
Qed.

(** ** The service of a listener *)

(** Who authenticates, by the kind of the entry; the file answers with its last
    mapping of a host and token. *)
Definition configured_auth (m : M) (auth : option AuthConfig) (layer : option AuthLayerChoice) : Prop :=
  match auth with
  | None => layer = None
  | Some auth =>
      match au_kind auth with
      | AuthKind_Http c => ∃ repository, layer = Some (Choice_Http repository (ha_max_concurrent_auth_requests c)) ∧
          hsr_url repository = ha_subscription_resolver_url c ∧ hsr_forwarded_headers repository = ha_forwarded_headers c ∧
          (hsr_cached repository = true ↔ ha_subscription_resolution_cache_ttl c ≠ None)
      | AuthKind_File c => ∃ mappings repository, read_mappings m (fa_subscription_resolver_path c) = Ok mappings ∧
          layer = Some (Choice_File repository 1000000) ∧
          ∀ host token, repository_get repository host token =
            map_subscription_info <$> last (filter (λ e, map_host e = host ∧ map_token e = token) mappings)
      | AuthKind_TrustedMetadata => layer = Some (Choice_Trusted (mkSubscriptionRateLimits default_rate_limit ∅) 1000000)
      end
  end.

(** The service of a listener is that of its own entry and of the server's settings. *)
Record configured_service (m : M) (settings : ServerSettings) (auth : option AuthConfig) (service : ListenerService) : Prop := {
  cv_auth : configured_auth m auth (ls_auth_layer service);
  cv_x_token : ls_x_token service = se_x_token settings;
  cv_ratelimit : match auth ≫= au_ratelimit with
                 | Some c => ∃ ratelimiter, ls_ratelimiter service = Some ratelimiter ∧
                     mr_max_hits_fallback ratelimiter = rl_default_max_hits c ∧ mr_window ratelimiter = rl_window c
                 | None => ls_ratelimiter service = None
                 end;
  cv_billing : match auth ≫= au_billing with
               | Some (BillingConfig_Http c) => ∃ sink, ls_billing service = Some sink ∧
                   bs_endpoint sink = hb_billing_endpoint_url c ∧ bs_report_interval sink = Some (hb_report_interval c)
               | None => ls_billing service = None
               end;
  cv_threshold : ls_threshold service = se_traffic_reporting_threshold settings
}.

(** A listener has no service only for a file of subscriptions that cannot be read. *)
Definition no_service (m : M) (auth : option AuthConfig) (e : E) : Prop :=
  ∃ c auth', auth = Some auth' ∧ au_kind auth' = AuthKind_File c ∧ read_mappings m (fa_subscription_resolver_path c) = Err e.

Lemma file_repository_get (mappings : list TokenSubscriptionInfoMapping) host token :
  repository_get (create_from_iter ((λ mapping, (mkSubscriptionKey (map_token mapping) (map_host mapping), map_subscription_info mapping)) <$> mappings)) host token
  = map_subscription_info <$> last (filter (λ e, map_host e = host ∧ map_token e = token) mappings).
Proof.
  induction mappings as [|e l IH] using rev_ind; [done|]. rewrite fmap_app, fmap_cons, fmap_nil, create_from_iter_snoc, IH, filter_app, filter_cons. cbn [key_host key_token filter filter_nil list_filter].
  destruct (decide (map_host e = host ∧ map_token e = token)) as [Hd|Hd].
  - by rewrite bool_decide_true, last_snoc.
  - by rewrite bool_decide_false, app_nil_r.
Qed.

Lemma build_listener_service_spec m settings auth :
  match build_listener_service m settings auth with Ok service => configured_service m settings auth service | Err e => no_service m auth e end.
Proof.
  unfold build_listener_service. set (ratelimiter := _ <$> (auth ≫= au_ratelimit)). set (billing := _ <$> (auth ≫= au_billing)).
  assert (∀ layer, configured_auth m auth layer → configured_service m settings auth
    (mkListenerService layer (se_x_token settings) ratelimiter billing (se_traffic_reporting_threshold settings))) as Hs.
  { intros layer Hl. subst ratelimiter billing. split; [done|done| | |done]; cbn [ls_ratelimiter ls_billing].
    - destruct (auth ≫= au_ratelimit); [by eexists|done].
    - destruct (auth ≫= au_billing) as [[c]|]; [by eexists|done]. }
  destruct auth as [auth|]; [|by apply Hs]. unfold build_auth_layer. destruct (au_kind auth) as [c|c|] eqn:Ek; cbn.
  - apply Hs. unfold configured_auth. rewrite Ek. eexists. split; [done|]. split; [done|]. split; [done|]. cbn.
    by rewrite bool_decide_eq_true, not_eq_None_Some.
  - destruct (read_mappings m (fa_subscription_resolver_path c)) as [mappings|e] eqn:Em; cbn; [|by eexists _, _].
    apply Hs. unfold configured_auth. rewrite Ek. eexists _, _. split; [done|]. split; [done|]. intros. apply file_repository_get.
  - apply Hs. unfold configured_auth. by rewrite Ek.
Qed.

(** C12. A server that starts has exactly the listeners its configuration names,
    in order and bound to their addresses: a TCP listener with a [tls] entry
    presents the certificates its own files held, watched if it asks for that;
    every other listener is in the clear. Each is served by one task with the
    configured settings, whose service is that of its own entry: the
    authenticator of the entry's kind, URL or file, its cache, forwarded headers
    and number of concurrent authentications; the entry's rate limit and billing
    endpoint and interval, or none; the x-token and the reporting threshold of
    the server. It has no service only if the entry's file of subscriptions
    cannot be read. The broadcast channels have the configured capacities, one
    per commitment level where overridden; the handlers have the configured
    limits; the startup snapshot is kept only when the plugin is loaded first,
    and the unary methods answer unless disabled. The addresses of the old field
    are to be without certificates: those it documents are ignored
    ([legacy_tls_ignored]). *)
Theorem listeners_follow_config config is_reload svc (w : World) r (w' : World) :
  addresses_in_clear config →
  create config is_reload svc w = Done (Ok r, w') →
  ∃ listeners meta shutdown settings,
    w_tasks w' = w_tasks w ++ created_tasks config meta shutdown settings listeners ∧ configured_settings config settings ∧
    Forall2 (λ listener spec, serves (w_reloading w') listener spec ∧
      ∀ m, match build_listener_service m settings (listener_auth listener) with
           | Ok service => configured_service m settings (sp_auth spec) service
           | Err e => no_service m (sp_auth spec) e
           end) listeners (configured config) ∧
    configured_result config is_reload svc r.
Proof.
  intros Hclear Hc%create_ok. apply create_service_ok in Hc as (w1 & meta & shutdown & settings & Hl & Hset & Hr & Ht & Hres & _).
  destruct (create_listeners_serves _ _ _ Hl) as (listeners & Hls & Hf). cbn in Hls.
  pose proof (listening_create_listeners _ _ _ _ Hl) as [_ Htasks _ _]. cbn in Htasks.
  exists listeners, meta, shutdown, settings. rewrite Ht, Htasks, Hls, Hr, configured_clear by done. cbn [app]. split; [done|]. split; [done|].
  split; [|done]. apply (Forall2_impl _ _ _ _ Hf). intros listener spec Hs. split; [done|]. intros m.
  destruct Hs as [Ha _]. rewrite <- Ha. apply build_listener_service_spec.
Qed.

(** Whatever certificates the old fields name, and however the server starts
    with them, the listeners of the old addresses are all in the clear. *)
Lemma legacy_tls_ignored config is_reload svc (w : World) r (w' : World) : cg_listen config = None →
  create config is_reload svc w = Done (Ok r, w') →
  ∃ listeners meta shutdown settings, w_tasks w' = w_tasks w ++ created_tasks config meta shutdown settings listeners ∧
    length listeners = length (default [] (cg_address config)) ∧
    Forall (λ l, match l with Listener_Tls _ _ _ => False | _ => True end) listeners.
Proof.
  intros Hnone Hc%create_ok. apply create_service_ok in Hc as (w1 & meta & shutdown & settings & Hl & _ & Hr & Ht & _).
  destruct (create_listeners_serves _ _ _ Hl) as (listeners & Hls & Hf). cbn in Hls.
  pose proof (listening_create_listeners _ _ _ _ Hl) as [_ Htasks _ _]. cbn in Htasks.
  exists listeners, meta, shutdown, settings. rewrite Ht, Htasks, Hls. split; [done|].
  rewrite Hnone, app_nil_r in Hf. split; [by rewrite (Forall2_length _ _ _ Hf), length_fmap|].
  apply (Forall2_Forall_l _ _ _ _ Hf), Forall_fmap, Forall_true. intros address l [_ Hs]. destruct l; [exact I| |exact I].
  by destruct address.
Qed.

(** ** The tokens of the tasks *)

Section tokens.
Context {TL : CancellationTokensLaws}.

Definition task_token (t : Task (M := M) (E := E) (SocketAddr := SocketAddr)) : option token :=
  match t with
  | Task_blocks_meta c | Task_server _ c _ | Task_prometheus _ c => Some c
  | _ => None
  end.

(** The token of a task was made from [svc], and is cancelled if it is. *)
Definition task_under (svc : token) (s : tokens) (t : Task) : Prop :=
  ∀ c, task_token t = Some c → token_known s c ∧ below s c svc.

(** Tokens known are kept as they are, and the tasks added are under [svc]. *)
Record starting (svc : token) (w w' : World) : Prop := {
  st_known t : token_known (w_tokens w) t → token_known (w_tokens w') t ∧ is_cancelled t (w_tokens w') = is_cancelled t (w_tokens w);
  st_below t u : token_known (w_tokens w) t → token_known (w_tokens w) u → below (w_tokens w') t u ↔ below (w_tokens w) t u;
  st_tasks : ∃ ts, w_tasks w' = w_tasks w ++ ts ∧ Forall (task_under svc (w_tokens w')) ts
}.

Definition starts (svc : token) (w w' : World) : Prop := token_known (w_tokens w) svc → starting svc w w'.

#[global] Instance starts_preorder svc : PreOrder (starts svc).
Proof.
  split.
  - intros w _. split; [done|done|]. exists []. rewrite app_nil_r. by split.
  - intros w1 w2 w3 H12 H23 Hk. destruct (H12 Hk) as [K1 B1 (ts1 & T1 & F1)]. destruct (K1 _ Hk) as [Hk2 _].
    destruct (H23 Hk2) as [K2 B2 (ts2 & T2 & F2)]. split.
    + intros t Ht. destruct (K1 _ Ht) as [Ht2 <-]. by apply K2.
    + intros t u Ht Hu. rewrite B2; [by apply B1|by apply K1|by apply K1].
    + exists (ts1 ++ ts2). rewrite T2, T1, app_assoc. split; [done|]. apply Forall_app. split; [|done].
      apply (Forall_impl _ _ _ F1). intros t Hu c Hc. destruct (Hu c Hc) as [Hkc Hb]. split; [by apply K2|by apply B2].
Qed.

Lemma listening_starts svc w w' : listening w w' → starts svc w w'.
Proof. intros [H1 H2 _ _] _. split; rewrite ?H1, ?H2; [done..|]. exists []. rewrite app_nil_r. by split. Qed.

Lemma starts_spawn svc t : task_token t = None → relates (starts svc) (spawn t).
Proof.
  intros Ht w r w' [= _ <-] _. split; cbn; [done|done|]. exists [t]. split; [done|]. constructor; [|constructor].
  intros c Hc. by rewrite Ht in Hc.
Qed.

(** A token made for tasks that are then spawned. *)
Lemma starts_child {B} svc (k : token → Create B) :
  (∀ c (w : World) r w', k c w = Done (r, w') → ∃ w1, w_tokens w1 = w_tokens w ∧
     (∃ ts, w_tasks w1 = w_tasks w ++ ts ∧ Forall (λ t, task_token t = Some c) ts) ∧ starts svc w1 w') →
  relates (starts svc) (c ← child svc; k c).
Proof.
  intros Hk w r w'. unfold mbind, Create_bind, child. destruct (child_token svc (w_tokens w)) as [c s] eqn:Ec.
  intros Hr. destruct (Hk _ _ _ _ Hr) as (w1 & Ht1 & (ts & Hts & Hc) & Hs). cbn in Ht1, Hts.
  etrans; [|exact Hs]. intros Hsvc. split; rewrite ?Ht1.
  - intros t Ht. exact (child_known _ _ _ _ _ Ec Hsvc Ht).
  - intros t u Ht Hu. rewrite (child_below _ _ _ _ t u Ec Hsvc Hu (or_intror Ht)).
    assert (t ≠ c) by (intros ->; by destruct (child_fresh _ _ _ _ Ec Hsvc) as (_ & ? & _)). naive_solver.
  - exists ts. split; [done|]. apply (Forall_impl _ _ _ Hc). intros t Htc c' Hc'. assert (c' = c) as -> by congruence.
    split; [apply (child_fresh _ _ _ _ Ec Hsvc)|exact (child_token_below _ _ _ _ Ec Hsvc)].
Qed.

Lemma starts_blocks_meta config svc : relates (starts svc) (create_blocks_meta config svc).
Proof.
  unfold create_blocks_meta. destruct (cg_unary_disabled config); [apply relates_ret, _|]. apply starts_child.
  intros c w r w' Hr. exists (mkWorld (w_host w) (w_reloading w) (w_tokens w) (w_listeners w) (w_tasks w ++ [Task_blocks_meta c])).
  split; [done|]. split; [exists [Task_blocks_meta c]; split; [done|by repeat constructor]|].
  revert Hr. unfold mbind, Create_bind, BlockMetaStorage_new, spawn. cbn. destruct (MAX_PERMITS <? _); [done|]. by intros [= _ <-].
Qed.

Lemma starts_create config is_reload svc : relates (starts svc) (create config is_reload svc).
Proof.
  assert (relates (starts svc) (create_service config is_reload svc)) as Hs.
  { unfold ServerCreate.create_service.
    apply relates_bind; [apply _|intros w r w' Hc; exact (listening_starts svc _ _ (listening_create_listeners _ _ _ _ Hc))|]. intros _.
    apply relates_bind; [apply _|apply starts_blocks_meta|]. intros blocks_meta.
    apply relates_bind; [apply _|repeat (apply relates_bind; [apply _|apply relates_panics, _|intros ?]); apply relates_ret, _|]. intros broadcast.
    do 2 (apply relates_bind; [apply _|apply relates_panics, _|]; intros ?).
    do 3 (apply relates_bind; [apply _|by apply starts_spawn|]; intros []).
    apply relates_bind; [apply _|apply relates_pure, _|]. intros x_token. apply starts_child.
    intros c w r w' [= _ <-]. eexists. split; [|split; [|reflexivity]]; [done|]. eexists. split; [done|].
    apply Forall_fmap, Forall_true. done. }
  intros w r w'. unfold ServerCreate.create. set (w0 := mkWorld _ _ _ _ _). destruct (create_service config is_reload svc w0) as [[[r0|e] w1]|] eqn:Ec; [| |done].
  all: intros [= _ <-]; specialize (Hs _ _ _ Ec); intros Hk; destruct (Hs Hk) as [K B Tk]; by split.
Qed.
End tokens.
End runs.

(** ** A server with a TLS listener, a plain one and a Unix socket *)

Section demo.
#[local] Existing Instances demo_http tree_tokens queue_machine ring_broadcast pair_watch.

Abbreviation demo_machine := (string * string)%type.

(** Every address can be bound; there are no files but the certificate and the key. *)
#[local] Instance demo_sockets : TcpSockets demo_machine string Z := {|
  tcp_listener_bind addr m := (Ok addr, m);
  listener_local_addr listener _ := Ok listener;
  listener_poll_next _ m := (Pending (T := option (result string unit)), m);
  set_nodelay _ _ m := (Ok tt, m);
  set_tcp_keepalive _ _ m := (Ok tt, m)
|}.

#[local] Instance demo_unix : UnixSockets demo_machine string := {|
  is_not_found e := bool_decide (e = "not found"%string);
  remove_file _ m := (Err "not found"%string, m);
  unix_bind _ m := (Ok tt, m);
  set_permissions _ _ m := (Ok tt, m)
|}.

#[local] Instance demo_files : HostFiles demo_machine string Certificate PrivateKey := {|
  read_file _ _ := Ok [];
  read_mappings _ _ := Ok [];
  cert_from_pem_slice _ := Ok ""%string;
  key_from_pem_slice _ := Ok ""%string;
  with_single_cert _ _ := Ok tt
|}.

Definition demo_auth : AuthConfig := mkAuthConfig AuthKind_TrustedMetadata AuthConfig_default_ratelimit None.
Definition demo_http_auth : AuthConfig := mkAuthConfig
  (AuthKind_Http (mkHttpBackedAuthConfig "http://auth" (Some 60) default_max_concurrent_auth_requests default_forwarded_headers None))
  None (Some (BillingConfig_Http (mkHttpBackedBillingConfig "http://billing" default_report_interval))).

Definition demo_config : ConfigGrpc Z :=
  ConfigGrpc_of (Some [Config.Tcp 10000])
    (Some [mkListenConfig (Config.Tcp 10001) (Some demo_tls) (Some demo_auth); mkListenConfig (Unix "/run/geyser" 432) None (Some demo_http_auth)]).

Definition demo_world : World (M := demo_machine) (E := string) (SocketAddr := Z) (CertifiedKey := string * string) :=
  mkWorld ("old", "key")%string (mkReloading [] Inner_new) tokens_new.2 [] [].

Definition demo_created :=
  create (λ _, Err "not ASCII"%string) demo_path (λ _ _, Ok tt) demo_config false tokens_new.1 demo_world.

(** What the tasks of the server listen to, and the certificate they present. *)
Definition demo_summary (t : Task (M := demo_machine) (E := string) (SocketAddr := Z)) : string * bool :=
  match t with
  | Task_server (Listener_Tcp _ auth) _ _ => ("tcp"%string, bool_decide (is_Some auth))
  | Task_server (Listener_Tls _ _ auth) _ _ => ("tls"%string, bool_decide (is_Some auth))
  | Task_server (Listener_Unix path _ auth) _ _ => (path, bool_decide (is_Some auth))
  | Task_blocks_meta _ => ("blocks_meta"%string, false)
  | _ => ("loop"%string, false)
  end.

Example demo_created_tasks : match demo_created with Done (Ok _, w) => demo_summary <$> w_tasks w | _ => [] end =
  [("blocks_meta", false); ("loop", false); ("loop", false); ("loop", false); ("tcp", false); ("tls", true); ("/run/geyser", true)]%string.
Proof. vm_compute. reflexivity. Qed.

Lemma demo_created_ok : match demo_created with Done (Ok _, _) => true | _ => false end = true.
Proof. vm_compute. reflexivity. Qed.

Lemma demo_created_run : ∃ r w',
  create (λ _, Err "not ASCII"%string) demo_path (λ _ _, Ok tt) demo_config false tokens_new.1 demo_world = Done (Ok r, w').
Proof.
  pose proof demo_created_ok as Hok. unfold demo_created in Hok.
  destruct (create _ _ _ _ _ _ _) as [[[r|e] w']|]; [by exists r, w'|discriminate Hok|discriminate Hok].
Qed.

Lemma listeners_follow_config_witness : addresses_in_clear demo_config ∧ ∃ r w' listeners meta shutdown settings,
  w_tasks w' = w_tasks demo_world ++ created_tasks demo_config meta shutdown settings listeners ∧
  configured_settings (λ _, Err "not ASCII"%string) demo_config settings ∧
  Forall2 (λ listener spec, serves demo_path (w_reloading w') listener spec ∧
    ∀ m, match build_listener_service m settings (listener_auth listener) with
         | Ok service => configured_service m settings (sp_auth spec) service
         | Err e => no_service m (sp_auth spec) e
         end) listeners (configured demo_config) ∧
  configured_result demo_config false tokens_new.1 r.
Proof.
  assert (addresses_in_clear demo_config) as Hclear by by repeat constructor. split; [exact Hclear|].
  destruct demo_created_run as (r & w' & Hc). exists r, w'.
  exact (listeners_follow_config _ _ _ _ _ _ _ _ _ Hclear Hc).
Defined.
End demo.
