(* ===== verification/PluginLoad.v ===== *)
(** * plugin/entry.rs: loading and unloading the plugin

    The plugin as the validator drives it: [on_load] makes a runtime, the tokens
    and the services; [on_unload] stops them; the callbacks of Plugin.v need a
    loaded plugin. What a load leaves behind when it fails or is unloaded is the
    subject: the tasks of its runtime, the thread of the block metadata, and its
    tokens. Serde, tokio's runtime and the watcher's thread are parameters. *)

From S2P Require Import Prelude Storage Message Limits Convert FromGeyser Plugin Channels ContactInfo ClientLoop Auth BlockReconstruction BlockReconstructionSpec ReconstructionLoop.
From S2P Require Import Config Tcp Tokens Sessions FileWatcher TlsReload ServerConfig ServerCreate.

Set Default Goal Selector "!".

Local Open Scope Z_scope.

Section plugin.
Context {M E SocketAddr CertifiedKey : Type}.
Context {T : TcpSockets M E SocketAddr} {U : UnixSockets M E} {F : CertFiles M CertifiedKey E}.
Context {HF : HostFiles M E Certificate PrivateKey} {H : Http} {TK : CancellationTokens}.
Context {BM : BlockMachine} {BR : Broadcast (list Message)} {BC : Broadcast ContactInfoEvent} {WT : Watch}.
Context (parse_metadata_value : string → result E HeaderValue) (path_of : string → Path) (watchable : M → WatchScope → result E unit).
(** [Config::load_from_file]; [Builder::build]; [FileWatcher::new]. *)
Context (load_from_file : M → string → result E (PluginConfig SocketAddr)).
Context (build_runtime : M → ConfigTokio → result E unit) (watcher_new : M → result E unit).

Abbreviation World := (World (M := M) (E := E) (SocketAddr := SocketAddr) (CertifiedKey := CertifiedKey)).
Abbreviation Task := (Task (M := M) (E := E) (SocketAddr := SocketAddr)).

(** What a call of [on_load] has made: its runtime, by the tasks that run on it
    or beside it, its tokens, and whether the channels it sends on are open. *)
Record Load := mkLoad {
  ld_root : token;
  ld_tokens : tokens;
  ld_tasks : list Task;
  ld_senders : bool
}.

(** The fields of [PluginInner] the calls use; the load is an index. *)
Record PluginInner := mkPluginInner {
  pi_load : nat;
  pi_snapshot_channel : option Z;
  pi_filter_limits : FilterLimits
}.

(** The plugin, the machine, and all the loads so far. *)
Record Process := mkProcess {
  pr_inner : option PluginInner;
  pr_host : M;
  pr_loads : list Load
}.

Inductive PluginError :=
| Plugin_config (e : E)
| Plugin_custom (e : E)
| Plugin_services (e : CreateError (E := E)).

(** [PrometheusService::spawn]. *)
Definition PrometheusService_spawn (config : option (ConfigPrometheus SocketAddr)) (cancellation_token : token) :
    Create (M := M) (E := E) (SocketAddr := SocketAddr) (CertifiedKey := CertifiedKey) unit :=
  match config with
  | Some config =>
      _ ← io (tcp_listener_bind (cp_address config));
      spawn (Task_prometheus (cp_address config) cancellation_token)
  | None => mret tt
  end.

(** The future [on_load] blocks on. *)
Definition start_services (config : PluginConfig SocketAddr) (is_reload : bool) (prometheus_token grpc_token : token) :=
  _ ← PrometheusService_spawn (cf_prometheus config) prometheus_token;
  create parse_metadata_value path_of watchable (cf_grpc config) is_reload grpc_token.

(** The metadata thread has a runtime of its own. *)
Definition is_thread (t : Task) : bool := match t with Task_blocks_meta _ => true | _ => false end.

(** A task is dropped: a server drops its listener. *)
Definition drop_task (m : M) (t : Task) : M := match t with Task_server listener _ _ => drop_listener m listener | _ => m end.

(** The runtime is shut down or dropped: its tasks are dropped. *)
Definition shutdown_runtime (m : M) (l : Load) : Load * M :=
  (mkLoad (ld_root l) (ld_tokens l) (List.filter is_thread (ld_tasks l)) (ld_senders l),
   foldl drop_task m (List.filter (λ t, negb (is_thread t)) (ld_tasks l))).

(** [Drop] of a [PluginInner]: no token is cancelled. *)
Definition drop_inner (p : Process) : Process :=
  match pr_inner p with
  | Some inner =>
      match pr_loads p !! pi_load inner with
      | Some l =>
          let '(l, m) := shutdown_runtime (pr_host p) l in
          mkProcess None m (<[pi_load inner := mkLoad (ld_root l) (ld_tokens l) (ld_tasks l) false]> (pr_loads p))
      | None => mkProcess None (pr_host p) (pr_loads p)
      end
  | None => p
  end.

Definition on_load (p : Process) (config_file : string) (is_reload : bool) : outcome (result PluginError unit * Process) :=
  match load_from_file (pr_host p) config_file with
  | Err e => Done (Err (Plugin_config e), p)
  | Ok config =>
      let filter_limits := cg_filter_limits (cf_grpc config) in
      let '(plugin_cancellation_token, s) := tokens_new in
      let '(prometheus_token, s) := child_token plugin_cancellation_token s in
      let '(grpc_token, s) := child_token plugin_cancellation_token s in
      match build_runtime (pr_host p) (cf_tokio config) with
      | Err e => Done (Err (Plugin_custom e), p)
      | Ok _ =>
          match watcher_new (pr_host p) with
          | Err e => Done (Err (Plugin_custom e), p)
          | Ok _ =>
              match start_services config is_reload prometheus_token grpc_token
                      (mkWorld (pr_host p) (mkReloading [] Inner_new) s [] []) with
              | Panic => Panic
              | Done (Err e, w) =>
                  let load := mkLoad plugin_cancellation_token (cancel plugin_cancellation_token (w_tokens w)) (w_tasks w) false in
                  let '(load, m) := shutdown_runtime (w_host w) load in
                  Done (Err (Plugin_services e), mkProcess (pr_inner p) m (pr_loads p ++ [load]))
              | Done (Ok grpc_service_result, w) =>
                  let load := mkLoad plugin_cancellation_token (w_tokens w) (w_tasks w) true in
                  let inner := mkPluginInner (length (pr_loads p)) (gr_snapshot_tx grpc_service_result) filter_limits in
                  let p := drop_inner (mkProcess (pr_inner p) (w_host w) (pr_loads p)) in
                  Done (Ok tt, mkProcess (Some inner) (pr_host p) (pr_loads p ++ [load]))
              end
          end
      end
  end.

(** [inner.take()]; the fields that are left are dropped at the end. *)
Definition on_unload (p : Process) : Process :=
  match pr_inner p with
  | Some inner =>
      match pr_loads p !! pi_load inner with
      | Some l =>
          let l := mkLoad (ld_root l) (cancel (ld_root l) (ld_tokens l)) (ld_tasks l) (ld_senders l) in
          let '(l, m) := shutdown_runtime (pr_host p) l in
          mkProcess None m (<[pi_load inner := mkLoad (ld_root l) (ld_tokens l) (ld_tasks l) false]> (pr_loads p))
      | None => mkProcess None (pr_host p) (pr_loads p)
      end
  | None => p
  end.

(** ** The callbacks of a plugin *)

(** [Plugin::with_inner]. *)
Definition with_inner {A} (p : Process) (f : PluginInner → outcome A) : outcome A :=
  match pr_inner p with Some inner => f inner | None => Panic end.

Definition plugin_update_account {W : Wincode} (p : Process) (now : Timestamp) (account : ReplicaAccountInfoVersions) (slot : Z) (is_startup : bool) :=
  with_inner p (λ inner, update_account now (pi_filter_limits inner) (bool_decide (is_Some (pi_snapshot_channel inner))) account slot is_startup).

Definition notify_end_of_startup (p : Process) : outcome Process :=
  with_inner p (λ inner, Done (mkProcess (Some (mkPluginInner (pi_load inner) None (pi_filter_limits inner))) (pr_host p) (pr_loads p))).

(** ** Everything that happens to the plugin *)

Context {TL : CancellationTokensLaws}.

Definition set_load (p : Process) (i : nat) (m : M) (l : Load) : Process := mkProcess (pr_inner p) m (<[i := l]> (pr_loads p)).

(** The metadata thread is told to stop by its token or by the end of its channel. *)
Definition told_to_stop (l : Load) (t : Task) : Prop :=
  ld_senders l = false ∨ ∃ c, task_token t = Some c ∧ is_cancelled c (ld_tokens l) = true.

Inductive plugin_step : Process → Process → Prop :=
| plugin_load p config_file is_reload r p' : on_load p config_file is_reload = Done (r, p') → plugin_step p p'
| plugin_unload p : plugin_step p (on_unload p)
| plugin_end_of_startup p p' : notify_end_of_startup p = Done p' → plugin_step p p'
| plugin_task_ends p i l ts1 t ts2 : pr_loads p !! i = Some l → ld_tasks l = ts1 ++ t :: ts2 →
    (is_thread t = true → told_to_stop l t) →
    plugin_step p (set_load p i (drop_task (pr_host p) t) (mkLoad (ld_root l) (ld_tokens l) (ts1 ++ ts2) (ld_senders l)))
| plugin_cancel p i l c : pr_loads p !! i = Some l → token_known (ld_tokens l) c →
    plugin_step p (set_load p i (pr_host p) (mkLoad (ld_root l) (cancel c (ld_tokens l)) (ld_tasks l) (ld_senders l)))
| plugin_child p i l c c' s : pr_loads p !! i = Some l → token_known (ld_tokens l) c → child_token c (ld_tokens l) = (c', s) →
    plugin_step p (set_load p i (pr_host p) (mkLoad (ld_root l) s (ld_tasks l) (ld_senders l)))
| plugin_host p m : plugin_step p (mkProcess (pr_inner p) m (pr_loads p)).

Definition Process_new (m : M) : Process := mkProcess None m [].

(** ** What is left of a load *)

(** The tasks of a load have tokens made from its own. *)
Record load_ok (l : Load) : Prop := {
  lo_root : token_known (ld_tokens l) (ld_root l);
  lo_tasks : Forall (task_under (ld_root l) (ld_tokens l)) (ld_tasks l)
}.

(** Only the metadata thread is left, and it is told to stop. *)
Definition load_stopped (l : Load) : Prop := Forall (λ t, is_thread t = true ∧ told_to_stop l t) (ld_tasks l).

Record process_inv (p : Process) : Prop := {
  pv_loads : Forall load_ok (pr_loads p);
  pv_inner inner : pr_inner p = Some inner → is_Some (pr_loads p !! pi_load inner);
  pv_stopped i l : pr_loads p !! i = Some l → (∀ inner, pr_inner p = Some inner → pi_load inner ≠ i) → load_stopped l
}.

Lemma filter_threads ts (P : Task → Prop) : Forall P ts → Forall (λ t, is_thread t = true ∧ P t) (List.filter is_thread ts).
Proof.
  rewrite !Forall_forall. intros Hp t Hin. apply list_elem_of_In, filter_In in Hin as [Hin Ht].
  split; [done|]. by apply Hp, list_elem_of_In.
Qed.

(** The load is cancelled, or only dropped; then its runtime goes. *)
Lemma stopped_load root s ts : load_ok (mkLoad root s ts false) →
  let l := mkLoad root s (List.filter is_thread ts) false in load_ok l ∧ load_stopped l.
Proof.
  intros [Hk Ht]. cbn in *. split.
  - split; [done|]. apply (Forall_impl _ _ _ (filter_threads _ _ Ht)). by intros t [_ ?].
  - apply (Forall_impl _ _ _ (filter_threads _ _ Ht)). intros t [Hthread _]. split; [done|]. by left.
Qed.

Lemma load_ok_cancel root s ts b c : token_known s c → load_ok (mkLoad root s ts b) → load_ok (mkLoad root (cancel c s) ts b).
Proof.
  intros Hc [Hk Ht]. split; cbn in *; [by apply cancel_known|]. apply (Forall_impl _ _ _ Ht). intros t Hu c' Hc'.
  destruct (Hu c' Hc') as [Hk' Hb]. split; [by apply cancel_known|by apply cancel_below].
Qed.

Lemma load_ok_child root s ts b c c' s' : child_token c s = (c', s') → token_known s c →
  load_ok (mkLoad root s ts b) → load_ok (mkLoad root s' ts b).
Proof.
  intros Hs Hc [Hk Ht]. cbn in *. assert (∀ t, token_known s t → token_known s' t) as Hmono by (intros t Ht'; exact (proj1 (child_known _ _ _ _ _ Hs Hc Ht'))).
  split; cbn; [by apply Hmono|]. apply (Forall_impl _ _ _ Ht). intros t Hu d Hd. destruct (Hu d Hd) as [Hkd Hb].
  split; [by apply Hmono|]. apply (child_below _ _ _ _ d root Hs Hc Hk); [by right|]. right. split; [|done].
  intros ->. by destruct (child_fresh _ _ _ _ Hs Hc) as (_ & ? & _).
Qed.

(** What a step does to the tokens of a load keeps a thread told to stop. *)
Lemma load_stopped_tokens root s s' ts b : (∀ c, token_known s c → is_cancelled c s = true → is_cancelled c s' = true) →
  load_ok (mkLoad root s ts b) → load_stopped (mkLoad root s ts b) → load_stopped (mkLoad root s' ts b).
Proof.
  intros Hmono [_ Ht] Hs. unfold load_stopped in *. cbn in *. rewrite Forall_forall in Ht, Hs |- *. intros t Hin.
  destruct (Hs _ Hin) as [Hth [Hsnd|(c & Hc & Hcan)]]; split; try done; [by left|]. right. exists c. split; [done|].
  apply Hmono; [by apply (Ht _ Hin)|done].
Qed.

Lemma process_inv_set p i m l l' : process_inv p → pr_loads p !! i = Some l → load_ok l' → (load_stopped l → load_stopped l') →
  process_inv (set_load p i m l').
Proof.
  intros [Hl Hi Hs] Hlk Hok Hst. split; cbn.
  - by apply Forall_insert.
  - intros inner Hin. destruct (Hi _ Hin) as [x Hx]. destruct (decide (i = pi_load inner)) as [<-|].
    + rewrite list_lookup_insert_eq by (by eapply lookup_lt_Some). by eexists.
    + rewrite list_lookup_insert_ne by done. by eexists.
  - intros j lj Hj Hne. destruct (decide (i = j)) as [<-|].
    + rewrite list_lookup_insert_eq in Hj by (by eapply lookup_lt_Some). injection Hj as <-. apply Hst. by apply (Hs i).
    + rewrite list_lookup_insert_ne in Hj by done. by apply (Hs j).
Qed.

(** The load of the plugin stops, and the plugin is empty. *)
Lemma process_inv_stop p inner m l l' : process_inv p → pr_inner p = Some inner → pr_loads p !! pi_load inner = Some l →
  load_ok l' → load_stopped l' → process_inv (mkProcess None m (<[pi_load inner := l']> (pr_loads p))).
Proof.
  intros [Hl Hi Hs] Hin Hlk Hok Hst. split; cbn; [by apply Forall_insert|done|]. intros j lj Hj _.
  destruct (decide (pi_load inner = j)) as [<-|Hne].
  - rewrite list_lookup_insert_eq in Hj by (by eapply lookup_lt_Some). by injection Hj as <-.
  - rewrite list_lookup_insert_ne in Hj by done. apply (Hs j); [done|]. intros inner'. rewrite Hin. by intros [= <-].
Qed.

Lemma process_inv_drop_inner p : process_inv p → process_inv (drop_inner p) ∧ pr_inner (drop_inner p) = None.
Proof.
  intros Hp. unfold drop_inner. destruct (pr_inner p) as [inner|] eqn:Hin; [|done].
  destruct (pv_inner _ Hp _ Hin) as [l Hl]. rewrite Hl. unfold shutdown_runtime. cbn. split; [|done].
  pose proof (pv_loads _ Hp) as Hok. destruct (Forall_lookup_1 _ _ _ _ Hok Hl) as [Hk Ht].
  destruct (stopped_load (ld_root l) (ld_tokens l) (ld_tasks l)) as [H1 H2]; [by split|].
  exact (process_inv_stop _ _ _ _ _ Hp Hin Hl H1 H2).
Qed.

Lemma process_inv_on_unload p : process_inv p → process_inv (on_unload p) ∧ pr_inner (on_unload p) = None.
Proof.
  intros Hp. unfold on_unload. destruct (pr_inner p) as [inner|] eqn:Hin; [|done].
  destruct (pv_inner _ Hp _ Hin) as [l Hl]. rewrite Hl. unfold shutdown_runtime. cbn. split; [|done].
  pose proof (pv_loads _ Hp) as Hok. destruct (Forall_lookup_1 _ _ _ _ Hok Hl) as [Hk Ht].
  destruct (stopped_load (ld_root l) (cancel (ld_root l) (ld_tokens l)) (ld_tasks l)) as [H1 H2];
    [by apply load_ok_cancel; [done|split]|].
  exact (process_inv_stop _ _ _ _ _ Hp Hin Hl H1 H2).
Qed.

(** A load is added; it is the plugin's, or it is stopped. *)
Lemma process_inv_add p m l o : process_inv p → pr_inner p = None → load_ok l →
  match o with Some inner => pi_load inner = length (pr_loads p) | None => load_stopped l end →
  process_inv (mkProcess o m (pr_loads p ++ [l])).
Proof.
  intros [Hl Hi Hs] Hnone Hok Ho. split; cbn.
  - apply Forall_app. split; [done|by constructor].
  - intros inner ->. rewrite Ho. exists l. by apply list_lookup_middle.
  - intros i l' Hl' Hne. apply lookup_app_Some in Hl' as [Hl'|[Hge Hl']].
    + apply (Hs i); [done|]. intros inner. by rewrite Hnone.
    + apply list_lookup_singleton_Some in Hl' as [Hi0 <-]. destruct o as [inner|]; [|done].
      destruct (Hne inner eq_refl). rewrite Ho. lia.
Qed.

(** A load that stops leaves the plugin what it is. *)
Lemma process_inv_failed p m l : process_inv p → load_ok l → load_stopped l → process_inv (mkProcess (pr_inner p) m (pr_loads p ++ [l])).
Proof.
  intros [Hl Hi Hs] Hok Hst. split; cbn.
  - apply Forall_app. split; [done|by constructor].
  - intros inner Hin. destruct (Hi _ Hin) as [l0 Hl0]. exists l0. by apply lookup_app_l_Some.
  - intros i l' Hl' Hne. apply lookup_app_Some in Hl' as [Hl'|[_ Hl']]; [by apply (Hs i)|].
    by apply list_lookup_singleton_Some in Hl' as [_ <-].
Qed.

Lemma starts_weaken svc root (w w' : World) : token_known (w_tokens w) svc → token_known (w_tokens w) root → below (w_tokens w) svc root →
  starts svc w w' → starts root w w'.
Proof.
  intros Hsvc Hroot Hb Hs _. destruct (Hs Hsvc) as [K B (ts & Ht & Hf)]. split; [done|done|]. exists ts. split; [done|].
  apply (Forall_impl _ _ _ Hf). intros t Hu c Hc. destruct (Hu c Hc) as [Hk Hbelow]. split; [done|].
  apply (below_trans _ _ svc); [done|]. by apply B.
Qed.

(** The services are started: every task they spawn is under the plugin's token. *)
Lemma start_services_ok config is_reload (root prometheus_token grpc_token : token) s1 s2 m r w' :
  child_token root tokens_new.2 = (prometheus_token, s1) → child_token root s1 = (grpc_token, s2) → root = tokens_new.1 →
  start_services config is_reload prometheus_token grpc_token (mkWorld m (mkReloading [] Inner_new) s2 [] []) = Done (r, w') →
  token_known (w_tokens w') root ∧ Forall (task_under root (w_tokens w')) (w_tasks w').
Proof.
  intros H1 H2 -> Hr. pose proof new_known as Hroot. destruct (child_fresh _ _ _ _ H1 Hroot) as (Hp1 & _).
  destruct (child_known _ _ _ _ _ H1 Hroot Hroot) as [Hroot1 _]. pose proof (child_token_below _ _ _ _ H1 Hroot) as Hb1.
  destruct (child_fresh _ _ _ _ H2 Hroot1) as (Hg2 & Hg1 & _). destruct (child_known _ _ _ _ _ H2 Hroot1 Hroot1) as [Hroot2 _].
  destruct (child_known _ _ _ _ _ H2 Hroot1 Hp1) as [Hp2 _]. pose proof (child_token_below _ _ _ _ H2 Hroot1) as Hbg.
  assert (below s2 prometheus_token tokens_new.1) as Hbp.
  { apply (child_below _ _ _ _ prometheus_token tokens_new.1 H2 Hroot1 Hroot1); [by right|]. right. split; [|done]. by intros ->. }
  revert Hr. unfold start_services, mbind, Create_bind. set (w := mkWorld _ _ _ _ _).
  destruct (PrometheusService_spawn _ _ w) as [[r1 w1]|] eqn:Ep; [|done].
  assert (w_tokens w1 = s2 ∧ (w_tasks w1 = [] ∨ ∃ address, w_tasks w1 = [Task_prometheus address prometheus_token])) as [Hw1 Ht1].
  { unfold PrometheusService_spawn in Ep. destruct (cf_prometheus config) as [c|]; [|injection Ep as _ <-; split; [done|by left]].
    revert Ep. unfold io, mbind, Create_bind. cbn [w_host w w_tokens w_tasks]. destruct (tcp_listener_bind _ _) as [[?|?] ?]; cbn; intros [= _ <-].
    - split; [done|]. right. by eexists.
    - split; [done|by left]. }
  assert (starting tokens_new.1 w1 w1) as Hrefl by (apply starts_preorder; by rewrite Hw1).
  assert (Forall (task_under tokens_new.1 (w_tokens w1)) (w_tasks w1)) as Hf1.
  { rewrite Hw1. destruct Ht1 as [->|[address ->]]; [constructor|]. constructor; [|constructor]. by intros c [= <-]. }
  assert (starting tokens_new.1 w1 w' → token_known (w_tokens w') tokens_new.1 ∧ Forall (task_under tokens_new.1 (w_tokens w')) (w_tasks w')) as Hfin.
  { intros [K B (ts & -> & Hf)]. rewrite Hw1 in K, B, Hf1. split; [by apply K|]. apply Forall_app. split; [|done].
    apply (Forall_impl _ _ _ Hf1). intros t Hu c Hc. destruct (Hu c Hc) as [Hk Hb]. split; [by apply K|by apply B]. }
  destruct r1 as [u|e].
  - intros Hc. apply Hfin. apply (starts_weaken grpc_token); rewrite ?Hw1; [done..| |done].
    exact (starts_create parse_metadata_value path_of watchable _ _ _ _ _ _ Hc).
  - intros [= _ <-]. by apply Hfin.
Qed.

Lemma process_inv_on_load p config_file is_reload r p' : process_inv p →
  on_load p config_file is_reload = Done (r, p') → process_inv p'.
Proof.
  intros Hp. unfold on_load. destruct (load_from_file _ _) as [config|e]; [|by intros [= _ <-]].
  rewrite (surjective_pairing tokens_new). destruct (child_token _ tokens_new.2) as [prom s1] eqn:E1. destruct (child_token _ s1) as [grpc s2] eqn:E2.
  destruct (build_runtime _ _); [|by intros [= _ <-]]. destruct (watcher_new _); [|by intros [= _ <-]].
  destruct (start_services _ _ _ _ _) as [[[gr|e] w]|] eqn:Es; [| |done];
    destruct (start_services_ok _ _ _ _ _ _ _ _ _ _ E1 E2 eq_refl Es) as [Hk Hf]; cbn; intros [= _ <-].
  - destruct (process_inv_drop_inner (mkProcess (pr_inner p) (w_host w) (pr_loads p))) as [Hd Hnone]; [by destruct Hp; split|].
    assert (length (pr_loads (drop_inner (mkProcess (pr_inner p) (w_host w) (pr_loads p)))) = length (pr_loads p)) as Hlen.
    { unfold drop_inner. cbn. destruct (pr_inner p) as [inner|]; [|done]. destruct (pr_loads p !! _); [|done]. cbn. by rewrite length_insert. }
    by apply process_inv_add; [| |split|rewrite Hlen].
  - destruct (stopped_load tokens_new.1 (cancel tokens_new.1 (w_tokens w)) (w_tasks w)) as [H1 H2]; [apply load_ok_cancel; [done|by split]|].
    by apply process_inv_failed.
Qed.

Lemma process_inv_step p p' : process_inv p → plugin_step p p' → process_inv p'.
Proof.
  intros Hp Hstep. destruct Hstep as [p file is_reload r p' Hl|p|p p' Hn|p i l ts1 t ts2 Hlk Hts _|p i l c Hlk Hc|p i l c c' s Hlk Hc Hs|p m].
  - exact (process_inv_on_load _ _ _ _ _ Hp Hl).
  - by apply process_inv_on_unload.
  - revert Hn. unfold notify_end_of_startup, with_inner. destruct (pr_inner p) as [inner|] eqn:Hin; [|done]. intros [= <-].
    destruct Hp as [Hl Hi Hs]. split; cbn; [done| |].
    + intros inner' [= <-]. cbn. by apply Hi.
    + intros i l Hlk Hne. apply (Hs i); [done|]. intros inner' Hin'. assert (inner' = inner) as -> by congruence. exact (Hne _ eq_refl).
  - destruct (Forall_lookup_1 _ _ _ _ (pv_loads _ Hp) Hlk) as [Hk Ht]. apply (process_inv_set _ _ _ _ _ Hp Hlk).
    + split; [done|]. cbn. rewrite Hts in Ht. rewrite Forall_app, Forall_cons in Ht. apply Forall_app. naive_solver.
    + unfold load_stopped. cbn. rewrite Hts, !Forall_app, Forall_cons. unfold told_to_stop. cbn. naive_solver.
  - pose proof (Forall_lookup_1 _ _ _ _ (pv_loads _ Hp) Hlk) as Hok. apply (process_inv_set _ _ _ _ _ Hp Hlk); destruct l as [root s ts b]; cbn in *.
    + by apply load_ok_cancel.
    + apply load_stopped_tokens; [|done]. intros c0 Hk0. by apply cancel_mono.
  - pose proof (Forall_lookup_1 _ _ _ _ (pv_loads _ Hp) Hlk) as Hok. apply (process_inv_set _ _ _ _ _ Hp Hlk); destruct l as [root s0 ts b]; cbn in *.
    + by apply (load_ok_child _ _ _ _ _ _ _ Hs).
    + apply load_stopped_tokens; [|done]. intros c0 Hk0. by destruct (child_known _ _ _ _ _ Hs Hc Hk0) as [_ ->].
  - by destruct Hp; split.
Qed.

Lemma process_inv_reachable m p : rtc plugin_step (Process_new m) p → process_inv p.
Proof.
  intros Hr. assert (process_inv (Process_new m)) as Hnew by (split; cbn; [constructor|done|intros i l Hl; by rewrite lookup_nil in Hl]).
  revert Hnew. induction Hr as [|x y z Hstep _ IH]; [done|]. intros Hx. apply IH. exact (process_inv_step _ _ Hx Hstep).
Qed.

(** C13. However the validator loads, reloads and unloads the plugin and however
    loads fail: of every load that is not the plugin's own nothing is left but
    the block-metadata thread, and that is told to stop; so an unloaded plugin
    leaves no server, loop or metrics task behind. Unloading cancels every token
    of the load, those of its subscriptions included; and with nothing loaded a
    callback is a panic. *)
Theorem unload_leaves_nothing (m : M) (p : Process) : rtc plugin_step (Process_new m) p →
  (∀ i l, pr_loads p !! i = Some l → (∀ inner, pr_inner p = Some inner → pi_load inner ≠ i) →
     Forall (λ t, is_thread t = true ∧ told_to_stop l t) (ld_tasks l)) ∧
  pr_inner (on_unload p) = None ∧
  (∀ inner l l' c, pr_inner p = Some inner → pr_loads p !! pi_load inner = Some l → pr_loads (on_unload p) !! pi_load inner = Some l' →
     token_known (ld_tokens l) c → below (ld_tokens l) c (ld_root l) → is_cancelled c (ld_tokens l') = true) ∧
  ∀ A (f : PluginInner → outcome A), with_inner (on_unload p) f = Panic.
Proof.
  intros Hr%process_inv_reachable. split; [exact (pv_stopped _ Hr)|]. destruct (process_inv_on_unload p Hr) as [_ Hnone].
  split; [done|]. split; [|intros A f; unfold with_inner; by rewrite Hnone].
  intros inner l l' c Hin Hl. unfold on_unload. rewrite Hin, Hl. unfold shutdown_runtime. cbn.
  rewrite list_lookup_insert_eq by (by eapply lookup_lt_Some). intros [= <-] Hk Hb. cbn.
  destruct (Forall_lookup_1 _ _ _ _ (pv_loads _ Hr) Hl) as [Hroot _]. apply is_cancelled_cancel; [done..|]. by right.
Qed.
End plugin.

(** ** The plugin is loaded and unloaded *)

Section demo.
#[local] Existing Instances demo_http tree_tokens tree_tokens_laws queue_machine ring_broadcast pair_watch demo_sockets demo_unix demo_files.

(** There is one configuration file. *)
Definition demo_load_from_file (_ : string * string) (file : string) : result string (PluginConfig Z) :=
  if bool_decide (file = "config.json"%string)
  then Ok (mkPluginConfig "lib.so"%string ConfigLog_default ConfigTokio_default demo_config (Some (mkConfigPrometheus 8999)) false)
  else Err "no such file"%string.

Abbreviation demo_on_load := (λ p file,
  on_load (M := string * string) (E := string) (SocketAddr := Z) (CertifiedKey := string * string) (λ _, Err "not ASCII"%string) demo_path
    (λ _ _, Ok tt) demo_load_from_file (λ _ _, Ok tt) (λ _, Ok tt) p file false).

Definition demo_process : Process (M := string * string) (E := string) (SocketAddr := Z) :=
  match demo_on_load (Process_new ("cert", "key")%string) "config.json" with Done (_, p) => p | Panic => Process_new ("cert", "key")%string end.

Definition demo_tasks (p : Process (M := string * string) (E := string) (SocketAddr := Z)) : list nat :=
  (λ l, length (ld_tasks l)) <$> pr_loads p.

Example demo_loaded : demo_tasks demo_process = [8%nat] ∧ demo_tasks (on_unload demo_process) = [1%nat].
Proof. vm_compute. split; reflexivity. Qed.

Lemma demo_process_loaded : ∃ p, demo_on_load (Process_new ("cert", "key")%string) "config.json" = Done (Ok tt, p).
Proof.
  assert (match demo_on_load (Process_new ("cert", "key")%string) "config.json" with Done (Ok tt, _) => true | _ => false end = true) as Hok
    by (vm_compute; reflexivity).
  destruct (demo_on_load _ _) as [[[[]|] p]|]; [by exists p|discriminate Hok|discriminate Hok].
Qed.

Lemma demo_process_reachable p : demo_on_load (Process_new ("cert", "key")%string) "config.json" = Done (Ok tt, p) →
  rtc (plugin_step (CertifiedKey := string * string) (λ _, Err "not ASCII"%string) demo_path (λ _ _, Ok tt)
    demo_load_from_file (λ _ _, Ok tt) (λ _, Ok tt)) (Process_new ("cert", "key")%string) p.
Proof. intros Hp. apply rtc_once. exact (plugin_load _ _ _ _ _ _ _ _ _ _ p Hp). Qed.

Lemma unload_leaves_nothing_witness : ∃ p, demo_on_load (Process_new ("cert", "key")%string) "config.json" = Done (Ok tt, p) ∧
  pr_inner (on_unload p) = None ∧ with_inner (on_unload p) (λ _, Done tt) = Panic.
Proof.
  destruct demo_process_loaded as [p Hp]. exists p.
  destruct (unload_leaves_nothing _ _ _ _ _ _ _ _ (demo_process_reachable p Hp)) as (_ & Hnone & _ & Hpanic).
  exact (conj Hp (conj Hnone (Hpanic unit (λ _, Done tt)))).
Defined.
End demo.
